(* ===== verification/_CoqProject ===== *)
-Q . S2P
Prelude.v
Utf8.v
Syntax.v
Lexer.v
Parser.v
ParserWp.v
ParserProofs.v
ParserItems.v
ParserFuel.v
ParserSpec.v
LexerSpec.v
TextOps.v
Float64.v
Mir.v
Interp.v
Sorts.v
Exec.v
Machine.v
Entry.v
Eval.v
Invariant.v
Safety.v
Effects.v
Samples.v
InterpSpec.v
NumSpec.v
TextSpec.v
DataSpec.v
Escape.v
EscapeSpec.v
Hir.v
SemType.v
Builtins.v
Ownership.v
ParamModes.v
OwnershipSound.v
OwnershipSafe.v
OwnershipSpec.v
EffectInfer.v
EffectSpec.v
TypeSpec.v
Profile.v
ProfileSpec.v
Resolve.v
ResolveSpec.v
Ast.v
AstLower.v
HirLower.v
TypeCalls.v
TypeCheck.v
Analysis.v
TypeCheckSpec.v
FrontSpec.v
ConstEval.v
ConstRel.v
ConstState.v
ConstLexical.v
ConstRefine.v
ConstBound.v
ConstSpec.v
ConstFold.v
LowerState.v
LowerTypes.v
EscapeFlow.v
LowerOps.v
LowerBuiltins.v
LowerMatch.v
LowerArrays.v
Lower.v
LowerWp.v
LowerNumbering.v
LowerNumbered.v
LowerSamples.v
LowerSpec.v
LowerExec.v
LowerFragment.v
LowerKeeps.v
LowerSim.v
LowerCorrect.v
AnalysisSpec.v
