(* ===== verification/Prelude.v ===== *)
(** * Sarif: a verification library for the stage-0 compiler

    ** The program

    Sarif is a small language with effects, handlers, affine values and arenas.
    Its stage-0 compiler is a pipeline of Rust crates:
    - [crates/sarif_syntax]: the lexer ([lexer.rs]), the recursive-descent parser
      ([parser.rs]) that keeps every token in a lossless tree ([lib.rs]), and the
      AST lowered from it;
    - [crates/sarif_frontend]: the HIR ([hir.rs]); [lib.rs] resolves imports and
      hands a module to [semantic.rs], which resolves names ([resolve.rs]),
      infers effects, infers what functions do with their arguments
      ([ownership.rs]), types expressions ([exprcore.rs], [bodycheck.rs]), checks
      affine ownership and checks the profile ([profile.rs]);
    - [crates/sarif_codegen]: the MIR, its lowering and its interpreter
      ([lib.rs]), the escape analysis over the MIR ([escape.rs]), and the native,
      JIT, C, object and WebAssembly back ends;
    - a query planner, tools, and the driver [apps/sarifc].

    ** The library

    Definitions have the names of the source; a Rust enum keeps its constructors
    behind a prefix.  Strings are their UTF-8 bytes, machine integers are [Z]
    with their wrap-around written out, maps and sets are stdpp's.  A Rust value
    of type [Option] or [Result], and a panic, are values of the model.

    - Syntax.  [Utf8.v] strings and UTF-8; [Syntax.v] tokens, trees, diagnostics;
      [Lexer.v] the loop of [lex], over the generated scanner as a parameter under
      [LogosLaws]; [Parser.v]
      every method of the parser, in a monad of cursor, diagnostics and panics.
      [ParserWp.v] is a program logic for that monad, [ParserProofs.v] and
      [ParserItems.v] have one specification per method, [ParserFuel.v] shows that
      fuel only matters for the end.  [ParserSpec.v] and [LexerSpec.v]: no panic,
      an end, no token lost, grouping by precedence, the whole text kept; the second
      starts with an instance of [LogosLaws] made from the token patterns.
    - From trees to the HIR ([ast.rs], [hir.rs], the database of [lib.rs]).
      [Ast.v] the AST and its printing; [AstLower.v] every method of the
      [Lowerer], in a monad of diagnostics, with texts embedded in strings lowered
      in their turn; [HirLower.v] the HIR of an AST, its printing, and
      [FrontendDatabase] with the caches from tokens to the HIR.  [FrontSpec.v]:
      the front end ends ([front_end_ends]), no string is ever interpolated
      ([interpolation_is_text]), the caches cannot be seen ([queries_coherent]),
      and what is lost without a diagnostic ([front_end_misreads]).
    - Interpreter ([Interpreter::execute_insts]).  [Mir.v] programs and values;
      [TextOps.v], [Float64.v], [Interp.v], [Sorts.v] and [Exec.v] the operations;
      [Machine.v] the stack of frames, one [step] a round; [Entry.v] the ways in,
      enum tags, updates.  [Eval.v] is the abstract semantics, structured where
      the machine has frames, with the proof that the machine refines it, and
      [InterpSpec.v] shows that more fuel keeps a result.  [Invariant.v] carries
      what every instruction preserves, [Safety.v] the static conditions under
      which nothing panics, [Effects.v] those under which no effect is left
      unhandled.  [InterpSpec.v], [NumSpec.v], [TextSpec.v] and [DataSpec.v] hold
      the theorems, [Samples.v] what they share.
    - Escape analysis ([escape.rs]).  [Escape.v] the marking of values and locals,
      the loops until nothing changes, the table of callees; [EscapeSpec.v]
      induction on instructions, monotonicity, the least solution and the end of
      the iterations; [EscapeFlow.v] a semantics of arena memory along the paths
      of a program, with types followed through the declarations and not by their
      names, and that the analysis covers it where effects are declared and memory
      is not returned within records ([escape_misses_clause_and_records]).
    - HIR and types.  [Hir.v], with the constant expressions of types in
      [Syntax.v]; [SemType.v] types, compatibility, the searches through
      declarations and the names of types; [TypeSpec.v] the searches are exact, and
      the round trip of names; [Builtins.v] the table of builtins.
    - Ownership ([ownership.rs]).  [Ownership.v] the checker of bodies and
      contracts, [ParamModes.v] the inference of parameter modes.
      [OwnershipSound.v] says what a body moves along each path and, with
      [OwnershipSafe.v], relates the checker to it; [OwnershipSpec.v] has the
      theorems, and what the checker lets pass ([affine_check_misses]).
    - Effects, profiles, names.  [EffectInfer.v] and [EffectSpec.v]: what
      [infer_effects] adds is what calls can reach, whatever the order of the hash
      maps.  [Profile.v] and [ProfileSpec.v]: the checks of the total and runtime
      profiles.  [Resolve.v] and [ResolveSpec.v]: [resolve_module], and that a
      module without diagnostics meets what the other passes take for granted
      ([resolve_infer_effects] composes it with the inference of effects).
      [ResolveSpec.v] also has the resolution of imports: their chains, cycles
      included, come to an end.
    - Types of expressions ([exprcore.rs], [bodycheck.rs], [semantic.rs]).
      [TypeCalls.v] a monad of reports and the typing of calls: builtins, enum
      constructors, declared functions; [TypeCheck.v] every other form of
      expression, statements and bodies; [Analysis.v] [analyze], which composes
      resolution, effects, modes of parameters, types, affine ownership and the
      profile into one report.  [TypeCheckSpec.v]: a type in error is always
      reported ([no_silent_error]).  [AnalysisSpec.v], at the end of the library,
      relates acceptance to the correctness of lowering ([accepted_typed],
      [accepted_source_returns]) and says what acceptance misses
      ([analysis_misses]).
    - Constants ([ConstEvaluator]).  [ConstEval.v] the evaluator, over any monad
      with its operations; [ConstState.v] the instance with slots, kept values and
      diagnostics that the source has; [ConstLexical.v] the instance that only
      knows lexical scope, as the least relation its rules close.  [ConstRel.v],
      [ConstRefine.v] the first refines the second, [ConstBound.v] a bound on the
      depth of calls, [ConstSpec.v] the theorems, [ConstFold.v] operators at
      compile time, folded and in a run.
    - Lowering to the MIR ([FunctionLowerer], [lower_with_imports]).
      [LowerState.v] the state of a lowerer and a monad with its panics;
      [LowerTypes.v] the types lowering infers; [LowerOps.v] locals, slots, arrays,
      constants; [LowerBuiltins.v] calls of builtins and effects of the system;
      [LowerMatch.v] matches, as chains and as balanced trees; [LowerArrays.v]
      arrays and assignments; [Lower.v] expressions, bodies, functions and
      instances of generic functions, modules and what imports give.  [LowerWp.v]
      is a program logic for numbering, [LowerNumbering.v] and [LowerNumbered.v] have one lemma per method; [LowerSpec.v]: every function is
      in single-assignment form, runs of what is lowered do not panic (composed
      with [InterpSpec.v]), names that lowering misreads, and a module that is never
      lowered; [LowerSamples.v] modules for witnesses.
    - What lowered code computes.  [LowerFragment.v] types the scalar language
      (literals, locals, operators, branches, loops, calls, assignments), leaves
      out of it where lowering takes a name or a branch for something else
      ([lowering_misreads_names], [shadowed_branch]), and says when a frame of the
      interpreter holds a scope; [LowerExec.v] has rules for
      runs that end; [LowerKeeps.v] what lowering typed code leaves alone;
      [LowerSim.v] one lemma for each form of expression and statement;
      [LowerCorrect.v] the correctness of lowering for typed modules: a call that
      has a value by lexical scope returns it in a run ([lowered_call_returns]),
      so that constants and runs agree ([compile_time_and_run_agree]).  It ends
      with the meaning of [for] ([for_runs_in_order]) and with the whole way from
      the text of a typed program to the value of a call ([source_call_runs]);
      [accepted_source_returns] has acceptance by [analyze] in the place of types.

    ** Fuel

    Recursion that is not structural takes fuel, and running out of it is a
    result of its own.  [2 * length tokens] is enough for the parser
    ([parse_terminates]); the lexer needs one step a byte.  [lower_source] takes
    the depth to which texts are embedded in strings, of which two levels are
    enough, and what the parser gets beyond its bound, which may be nothing
    ([front_end_ends]).  Runs of the
    interpreter may not end, so the theorems about them speak of every number of
    steps; [repeat_ends] gives one that is enough.  The escape analysis takes
    [analyze_escapes_terminates]'s bound, the effects
    [length order * size universe], imports one more than the modules there are;
    the searches through types are run with the number of declared names, which
    [type_searches_exact] shows to be enough; a type name takes its length.
    [infer_param_modes] has no bound ([infer_param_modes_diverges]), so that
    [analyze] takes the rounds that it may make.  The evaluator
    of constants takes the depth of calls, which [const_evaluation_ends] bounds;
    lowering takes the depth of calls of its methods, and
    [recursive_generic_diverges] shows that no depth may be enough.

    ** What is a parameter

    The scanner that [logos] generates, under laws ([LogosLaws], [LetLaw]) that the
    instance made of the token patterns satisfies; what Rust leaves to its standard
    library and compiler ([Platform], with its laws [PlatformOk]): the formatting
    and parsing of floats, the size of a value of the interpreter, and what a sort
    does with a comparison that is no total order, a panic included; the edit
    distance of [strsim]; the orders in which hash maps and sets are iterated ([local_keys], [fns_order]
    and [listing] of [analyze]).

    ** What is not modelled

    The instructions on files, directories, the environment, processes, clocks
    and sockets (lowering has an outcome of its own, [L_System], where it would
    emit one).  Printing of the MIR and of trees ([Program::pretty],
    [Node::pretty]), which nothing reads back.  The rendering of diagnostics for a
    terminal and of the report of an analysis, and the cache of analyses that
    [FrontendDatabase] keeps beside those of [HirLower.v].  The
    query planner, a crate that the compiler does not call and whose plans nothing
    evaluates.  The native, JIT, object and WebAssembly back ends call Cranelift,
    wasmtime and the linker, which are not part of the repository, and the C back
    end prints text for a C compiler; tools and driver are command lines, files
    and processes.  A vector of more than [isize::MAX] bytes panics in the model as
    it does in Rust; running out of memory below that, and out of the stack of the
    host, are not modelled. *)
From stdpp Require Export base list strings.
From stdpp Require Import gmap.
From Stdlib Require Export ZArith Lia.

(** ** Source slices

    [slice l i j] is Rust's [&l[i..j]] for [i <= j <= l.len()]. *)
Definition slice {A} (l : list A) (i j : nat) : list A :=
  take (j - i) (drop i l).

(** ** Shared tactics *)

(** Split conjunctions and existentials in the context. *)
Ltac destruct_all :=
  repeat match goal with
    | H : _ /\ _ |- _ => destruct H
    | H : exists _, _ |- _ => destruct H
    end.

(** ** Lemmas on slices *)
Section slices.
Context {A : Type}.
Implicit Types l : list A.

Lemma slice_nil l i : slice l i i = [].
Proof. unfold slice. by rewrite Nat.sub_diag. Qed.

Lemma slice_app l i j k :
  i <= j -> j <= k -> slice l i j ++ slice l j k = slice l i k.
Proof.
  intros Hij Hjk. unfold slice.
  replace (k - i) with ((j - i) + (k - j)) by lia.
  rewrite <- take_take_drop, drop_drop.
  by replace (i + (j - i)) with j by lia.
Qed.

Lemma slice_one l i x : l !! i = Some x -> slice l i (S i) = [x].
Proof.
  intros Hx. unfold slice. replace (S i - i) with 1 by lia.
  by rewrite (drop_S _ x).
Qed.

Lemma slice_cons l i j x :
  l !! i = Some x -> i < j -> slice l i j = x :: slice l (S i) j.
Proof.
  intros Hx Hij. rewrite <- (slice_app l i (S i) j) by lia.
  by rewrite (slice_one _ _ x).
Qed.

Lemma slice_snoc l i j x :
  l !! j = Some x -> i <= j -> slice l i (S j) = slice l i j ++ [x].
Proof.
  intros Hx Hij. rewrite <- (slice_app l i j (S j)) by lia.
  by rewrite (slice_one _ _ x).
Qed.

Lemma slice_full l : slice l 0 (length l) = l.
Proof. unfold slice. rewrite Nat.sub_0_r. apply firstn_all. Qed.

Lemma slice_length l i j : j <= length l -> length (slice l i j) = j - i.
Proof. intros. unfold slice. rewrite length_take, length_drop. lia. Qed.
End slices.

(** ** Lemmas on strings *)

Lemma string_app_nil_r (s : string) : (s ++ "")%string = s.
Proof. induction s as [|a s IH]; [done|]. change (String a (s ++ "") = String a s)%string. by rewrite IH. Qed.

Lemma string_app_assoc (s t u : string) : (s ++ (t ++ u))%string = ((s ++ t) ++ u)%string.
Proof.
  induction s as [|a s IH]; [done|].
  change (String a (s ++ (t ++ u)) = String a ((s ++ t) ++ u))%string. by rewrite IH.
Qed.

(** ** Lists with positions *)

Lemma imap_pair_snd {A} (f : nat -> nat) (l : list A) : map snd (imap (fun i x => (f i, x)) l) = l.
Proof. revert f. induction l as [|x l IH]; intros f; [done|]. cbn. f_equal. exact (IH (f ∘ S)). Qed.

Lemma elem_of_imap_pair {A} (l : list A) i x : (i, x) ∈ imap pair l -> x ∈ l.
Proof.
  intros Hin. rewrite <- (imap_pair_snd id l). apply list_elem_of_fmap. by exists (i, x).
Qed.

(** ** Hints

    [sarif] has one lemma per operation of a component, tried by the name of the
    operation only. *)
Create HintDb sarif discriminated.
#[export] Hint Constants Opaque : sarif.
