(* ===== verification/Utf8.v ===== *)
(** * Strings, bytes and UTF-8

    What the crates use of Rust's [str], [String] and [Vec<u8>]: a [str] is its
    bytes, which are UTF-8; a slice of it panics off a character boundary;
    [String::from_utf8] and [String::from_utf8_lossy] validate and repair. *)
From S2P Require Import Prelude.

Open Scope nat_scope.

(** ** Strings

    A [str] is its UTF-8 bytes. *)
Abbreviation bytes := String.list_ascii_of_string.

(** [(b & 0b1100_0000) == 0b1000_0000] *)
Definition is_continuation (a : Ascii.ascii) : bool :=
  (128 <=? Ascii.nat_of_ascii a) && (Ascii.nat_of_ascii a <? 192).

(** [s.is_char_boundary(i)] *)
Definition is_char_boundary (s : string) (i : nat) : bool :=
  (i =? 0) ||
  match bytes s !! i with
  | Some a => negb (is_continuation a)
  | None => i =? String.length s
  end.

(** [&s[i..j]]: [None] where Rust panics. *)
Definition str_slice (s : string) (i j : nat) : option string :=
  if (i <=? j) && is_char_boundary s i && is_char_boundary s j
  then Some (String.substring i (j - i) s) else None.

(** ** Strings and their bytes *)

Lemma bytes_length s : length (bytes s) = String.length s.
Proof. induction s as [|a s IH]; cbn; [done|]. by rewrite IH. Qed.

Lemma bytes_app s t : bytes (s ++ t)%string = bytes s ++ bytes t.
Proof. induction s as [|a s IH]; [done|]. exact (f_equal (cons a) IH). Qed.

Lemma bytes_inj s t : bytes s = bytes t -> s = t.
Proof.
  intros H. rewrite <- (String.string_of_list_ascii_of_string s), H.
  apply String.string_of_list_ascii_of_string.
Qed.

Lemma bytes_substring i n s : bytes (String.substring i n s) = take n (drop i (bytes s)).
Proof.
  revert i n. induction s as [|a s IH]; intros i n.
  - destruct i, n; done.
  - destruct i as [|i]; [destruct n as [|n]|]; cbn; [done| |apply IH]. f_equal. apply (IH 0).
Qed.

Lemma bytes_slice i j s : bytes (String.substring i (j - i) s) = slice (bytes s) i j.
Proof. apply bytes_substring. Qed.

Lemma boundary_end s : is_char_boundary s (String.length s) = true.
Proof.
  unfold is_char_boundary. rewrite (lookup_ge_None_2 (bytes s)) by (rewrite bytes_length; done).
  by rewrite Nat.eqb_refl, orb_true_r.
Qed.

(** A boundary of a suffix is one of the whole. *)
Lemma boundary_suffix s t off i :
  bytes t = drop off (bytes s) -> off <= String.length s -> is_char_boundary s off = true ->
  is_char_boundary t i = true -> is_char_boundary s (off + i) = true.
Proof.
  intros Ht Hoff Hb. destruct i as [|i]; [by rewrite Nat.add_0_r|].
  unfold is_char_boundary. rewrite Ht, lookup_drop. change (S i =? 0) with false. cbn [orb].
  destruct (off + S i =? 0); [done|]. cbn [orb]. destruct (bytes s !! (off + S i)); [done|].
  pose proof (f_equal length Ht) as Hl. rewrite length_drop, !bytes_length in Hl.
  intros Hi%Nat.eqb_eq. apply Nat.eqb_eq. lia.
Qed.

Lemma str_slice_ok s i j :
  i <= j -> is_char_boundary s i = true -> is_char_boundary s j = true ->
  str_slice s i j = Some (String.substring i (j - i) s).
Proof. intros Hij Hi Hj. unfold str_slice. by rewrite (proj2 (Nat.leb_le i j) Hij), Hi, Hj. Qed.

(** ** Validation *)

Definition byte_in (lo hi : nat) (a : Ascii.ascii) : bool :=
  (lo <=? Ascii.nat_of_ascii a) && (Ascii.nat_of_ascii a <=? hi).

(** How many bytes follow a first byte, and the range of the second. *)
Definition utf8_lead (a : Ascii.ascii) : option (nat * nat * nat) :=
  if byte_in 0 127 a then Some (0, 0, 0)
  else if byte_in 194 223 a then Some (1, 128, 191)
  else if byte_in 224 224 a then Some (2, 160, 191)
  else if byte_in 237 237 a then Some (2, 128, 159)
  else if byte_in 225 239 a then Some (2, 128, 191)
  else if byte_in 240 240 a then Some (3, 144, 191)
  else if byte_in 241 243 a then Some (3, 128, 191)
  else if byte_in 244 244 a then Some (3, 128, 143)
  else None.

(** The first character of a byte sequence, or the longest start of one that
    the rest does not continue. *)
Inductive Chunk :=
  | Char (n : nat)
  | Bad (n : nat).

Definition utf8_chunk (a : Ascii.ascii) (l : list Ascii.ascii) : Chunk :=
  match utf8_lead a with
  | None => Bad 1
  | Some (0, _, _) => Char 1
  | Some (k, lo, hi) =>
      match l with
      | [] => Bad 1
      | b :: l1 =>
          if byte_in lo hi b then
            if k =? 1 then Char 2
            else
              match l1 with
              | [] => Bad 2
              | c :: l2 =>
                  if is_continuation c then
                    if k =? 2 then Char 3
                    else
                      match l2 with
                      | [] => Bad 3
                      | d :: _ => if is_continuation d then Char 4 else Bad 3
                      end
                  else Bad 2
              end
          else Bad 1
      end
  end.

(** [skip] bytes of a character that was checked remain. *)
Fixpoint utf8_valid_from (skip : nat) (l : list Ascii.ascii) : bool :=
  match l with
  | [] => true
  | a :: l' =>
      match skip with
      | S k => utf8_valid_from k l'
      | 0 =>
          match utf8_chunk a l' with
          | Char n => utf8_valid_from (n - 1) l'
          | Bad _ => false
          end
      end
  end.

(** [str::from_utf8(l).is_ok()] *)
Definition utf8_valid (l : list Ascii.ascii) : bool := utf8_valid_from 0 l.

(** [String::from_utf8(l)] *)
Definition from_utf8 (l : list Ascii.ascii) : option string :=
  if utf8_valid l then Some (String.string_of_list_ascii l) else None.

(** U+FFFD *)
Definition replacement : list Ascii.ascii :=
  [Ascii.ascii_of_nat 239; Ascii.ascii_of_nat 191; Ascii.ascii_of_nat 189].

(** [copy]: are the [skip] bytes that remain copied or dropped? *)
Fixpoint lossy_from (copy : bool) (skip : nat) (l : list Ascii.ascii) : list Ascii.ascii :=
  match l with
  | [] => []
  | a :: l' =>
      match skip with
      | S k => if copy then a :: lossy_from copy k l' else lossy_from copy k l'
      | 0 =>
          match utf8_chunk a l' with
          | Char n => a :: lossy_from true (n - 1) l'
          | Bad n => replacement ++ lossy_from false (n - 1) l'
          end
      end
  end.

(** [String::from_utf8_lossy(l)] *)
Definition from_utf8_lossy (l : list Ascii.ascii) : string :=
  String.string_of_list_ascii (lossy_from true 0 l).

(** ** Characters *)

(** The bytes of one character. *)
Definition is_char (c : list Ascii.ascii) : Prop :=
  exists a l, c = a :: l /\ utf8_chunk a l = Char (length c).

Lemma byte_in_le lo hi a : byte_in lo hi a = true <-> lo <= Ascii.nat_of_ascii a <= hi.
Proof. unfold byte_in. rewrite andb_true_iff, !Nat.leb_le. lia. Qed.

Lemma is_continuation_in a : is_continuation a = byte_in 128 191 a.
Proof. reflexivity. Qed.

(** A first byte says how long its character is, and is no continuation. *)
Lemma utf8_lead_inv a k lo hi :
  utf8_lead a = Some (k, lo, hi) ->
  is_continuation a = false /\ k <= 3 /\ (k <> 0 -> 128 <= lo /\ hi <= 191).
Proof.
  unfold utf8_lead. rewrite is_continuation_in.
  assert (forall l h, byte_in l h a = true -> 191 < l \/ h < 128 -> byte_in 128 191 a = false) as Hr.
  { intros l h [H1 H2]%byte_in_le Hlh. apply not_true_iff_false. rewrite byte_in_le. lia. }
  repeat (case_match; [intros [= <- <- <-]; split; [by eapply Hr; [done|lia]|lia]|]). done.
Qed.

(** The first chunk, with what it is made of. *)
Lemma utf8_chunk_char a l n :
  utf8_chunk a l = Char n ->
  exists c l', l = c ++ l' /\ n = S (length c) /\ is_continuation a = false /\
    Forall (fun b => is_continuation b = true) c /\ forall l'', utf8_chunk a (c ++ l'') = Char n.
Proof.
  unfold utf8_chunk. destruct (utf8_lead a) as [[[k lo] hi]|] eqn:Hlead; [|done].
  destruct (utf8_lead_inv _ _ _ _ Hlead) as (Ha & Hk3 & Hk). destruct k as [|k].
  { intros [= <-]. by exists [], l. }
  destruct Hk as [Hlo Hhi]; [done|]. destruct l as [|b l1]; [done|].
  destruct (byte_in lo hi b) eqn:Hb; [|done].
  assert (is_continuation b = true) as Hbc.
  { rewrite is_continuation_in. apply byte_in_le in Hb. apply byte_in_le. lia. }
  destruct (S k =? 1) eqn:Hk1.
  { intros [= <-]. exists [b], l1. cbn. rewrite Hb. repeat split; auto. }
  destruct l1 as [|c l2]; [done|]. destruct (is_continuation c) eqn:Hc; [|done].
  destruct (S k =? 2) eqn:Hk2.
  { intros [= <-]. exists [b; c], l2. cbn. rewrite Hb, Hc. repeat split; auto. }
  destruct l2 as [|d l3]; [done|]. destruct (is_continuation d) eqn:Hd; [|done].
  intros [= <-]. exists [b; c; d], l3. cbn. rewrite Hb, Hc, Hd. repeat split; auto.
Qed.

Lemma utf8_valid_skip k l : utf8_valid_from k l = utf8_valid_from 0 (drop k l).
Proof. revert k. induction l as [|a l IH]; intros [|k]; cbn; [done..|]. apply IH. Qed.

(** Valid bytes are characters one after the other. *)
Lemma utf8_valid_chars l :
  utf8_valid l = true -> exists cs, Forall is_char cs /\ l = mjoin cs.
Proof.
  unfold utf8_valid. remember (length l) as n eqn:Hn. assert (length l <= n) as Hle by lia. clear Hn.
  revert l Hle. induction n as [|n IH]; intros [|a l] Hle; cbn; try (by exists []); [cbn in Hle; lia|].
  destruct (utf8_chunk a l) as [m|m] eqn:Hch; [|done].
  destruct (utf8_chunk_char _ _ _ Hch) as (c & l' & -> & -> & Ha & Hc & Hloc).
  rewrite utf8_valid_skip. cbn. rewrite Nat.sub_0_r, drop_app_length. intros Hv.
  destruct (IH l') as (cs & Hcs & ->); [|done|].
  { cbn in Hle. rewrite length_app in Hle. lia. }
  exists ((a :: c) :: cs). split; [|done]. constructor; [|done].
  exists a, c. split; [done|]. rewrite <- (app_nil_r c) at 1. apply Hloc.
Qed.

Lemma is_char_inv c :
  is_char c -> exists a l, c = a :: l /\ is_continuation a = false /\
    Forall (fun b => is_continuation b = true) l /\ forall l'', utf8_chunk a (l ++ l'') = Char (S (length l)).
Proof.
  intros (a & l & -> & Hch). destruct (utf8_chunk_char _ _ _ Hch) as (c & l' & -> & Hlen & Ha & Hc & Hloc).
  assert (l' = []) as ->.
  { cbn in Hlen. rewrite length_app in Hlen. destruct l'; [done|cbn in Hlen; lia]. }
  rewrite app_nil_r in *. exists a, c. split; [done|]. by rewrite <- Hlen.
Qed.

Lemma chars_utf8_valid cs : Forall is_char cs -> utf8_valid (mjoin cs) = true.
Proof.
  unfold utf8_valid. induction 1 as [|c cs Hc Hcs IH]; [done|].
  destruct (is_char_inv _ Hc) as (a & l & -> & Ha & Hl & Hloc). cbn.
  rewrite Hloc, utf8_valid_skip. cbn. by rewrite Nat.sub_0_r, drop_app_length.
Qed.

Lemma utf8_valid_app l1 l2 : utf8_valid l1 = true -> utf8_valid l2 = true -> utf8_valid (l1 ++ l2) = true.
Proof.
  intros (cs1 & H1 & ->)%utf8_valid_chars (cs2 & H2 & ->)%utf8_valid_chars.
  rewrite <- join_app. apply chars_utf8_valid, Forall_app. done.
Qed.

(** No character ends at a byte that continues one. *)
Definition no_cont_at (l : list Ascii.ascii) (i : nat) : Prop :=
  i <= length l /\ forall a, l !! i = Some a -> is_continuation a = false.

Lemma boundary_split cs i :
  Forall is_char cs -> no_cont_at (mjoin cs) i ->
  exists cs1 cs2, cs = cs1 ++ cs2 /\ i = length (mjoin cs1).
Proof.
  intros Hcs. revert i. induction Hcs as [|c cs Hc Hcs IH]; intros i [Hi Hno].
  - cbn in Hi. exists [], []. split; [done|]. cbn. lia.
  - destruct (is_char_inv _ Hc) as (a & l & -> & Ha & Hl & _).
    destruct i as [|i]; [by exists [], ((a :: l) :: cs)|].
    destruct (decide (i < length l)) as [Hlt|Hge].
    + destruct (lookup_lt_is_Some_2 l i Hlt) as [b Hb].
      assert (is_continuation b = false) as Hf.
      { apply Hno. change (((a :: l) ++ mjoin cs) !! S i = Some b).
        by rewrite lookup_app_l by (cbn; lia). }
      rewrite Forall_lookup in Hl. by rewrite (Hl _ _ Hb) in Hf.
    + destruct (IH (i - length l)) as (cs1 & cs2 & -> & Hlen).
      { split.
        - change (S i <= S (length (l ++ mjoin cs))) in Hi. rewrite length_app in Hi. lia.
        - intros b Hb. apply Hno. change (((a :: l) ++ mjoin cs) !! S i = Some b).
          by rewrite lookup_app_r by (cbn; lia). }
      exists ((a :: l) :: cs1), cs2. split; [done|]. change (S i = S (length (l ++ mjoin cs1))). rewrite length_app. lia.
Qed.

(** A slice of valid bytes between two boundaries is valid. *)
Lemma utf8_valid_slice l i j :
  utf8_valid l = true -> no_cont_at l i -> no_cont_at l j -> i <= j ->
  utf8_valid (slice l i j) = true.
Proof.
  intros (cs & Hcs & ->)%utf8_valid_chars Hi Hj Hij.
  destruct (boundary_split _ _ Hcs Hi) as (cs1 & cs2 & -> & ->).
  apply Forall_app in Hcs as [Hcs1 Hcs2]. rewrite join_app in *.
  unfold slice. rewrite drop_app_length. destruct (boundary_split cs2 (j - length (mjoin cs1)))
    as (cs3 & cs4 & -> & ->); [done| |].
  - destruct Hj as [Hj1 Hj2]. rewrite length_app in Hj1. split; [lia|].
    intros a Ha. apply Hj2. by rewrite lookup_app_r.
  - apply Forall_app in Hcs2 as [? _]. rewrite join_app, take_app_length. by apply chars_utf8_valid.
Qed.

Lemma string_bytes s : String.string_of_list_ascii (bytes s) = s.
Proof. apply String.string_of_list_ascii_of_string. Qed.

Lemma bytes_string l : bytes (String.string_of_list_ascii l) = l.
Proof. apply String.list_ascii_of_string_of_list_ascii. Qed.

(** Bytes that are valid are not repaired. *)
Lemma lossy_copy k l : k <= length l -> lossy_from true k l = take k l ++ lossy_from true 0 (drop k l).
Proof.
  revert k. induction l as [|a l IH]; intros [|k] Hk; cbn in *; [done|lia|done|].
  f_equal. apply IH. lia.
Qed.

Lemma from_utf8_lossy_valid l : utf8_valid l = true -> bytes (from_utf8_lossy l) = l.
Proof.
  intros (cs & Hcs & ->)%utf8_valid_chars. unfold from_utf8_lossy. rewrite bytes_string.
  induction Hcs as [|c cs Hc Hcs IH]; [done|].
  destruct (is_char_inv _ Hc) as (a & l & -> & Ha & Hl & Hloc).
  change (mjoin ((a :: l) :: cs)) with (a :: (l ++ mjoin cs)). cbn [lossy_from].
  rewrite Hloc. replace (S (length l) - 1) with (length l) by lia.
  rewrite lossy_copy by (rewrite length_app; lia).
  by rewrite take_app_length, drop_app_length, IH.
Qed.

Lemma lossy_drop k l : lossy_from false k l = lossy_from true 0 (drop k l).
Proof. revert k. induction l as [|a l IH]; intros [|k]; cbn; [done..|]. apply IH. Qed.

(** Bytes that are not valid are. *)
Lemma from_utf8_lossy_utf8 l : utf8_valid (bytes (from_utf8_lossy l)) = true.
Proof.
  unfold from_utf8_lossy. rewrite bytes_string. remember (length l) as n eqn:Hn.
  assert (length l <= n) as Hle by lia. clear Hn. revert l Hle.
  induction n as [|n IH]; intros [|a l] Hle; try done; [cbn in Hle; lia|].
  cbn [length] in Hle. cbn [lossy_from]. destruct (utf8_chunk a l) as [m|m] eqn:Hch.
  - destruct (utf8_chunk_char _ _ _ Hch) as (c & l' & -> & -> & Ha & Hc & Hloc).
    rewrite length_app in Hle. rewrite Nat.sub_succ, Nat.sub_0_r, lossy_copy by (rewrite length_app; lia).
    rewrite take_app_length, drop_app_length. apply (utf8_valid_app (a :: c)); [|apply IH; lia].
    specialize (Hloc []). rewrite app_nil_r in Hloc.
    assert (Forall is_char [a :: c]) as Hchar by (repeat constructor; by exists a, c).
    apply chars_utf8_valid in Hchar. cbn in Hchar. by rewrite app_nil_r in Hchar.
  - rewrite lossy_drop. apply utf8_valid_app; [done|]. apply IH. rewrite length_drop. lia.
Qed.
