(* ===== verification/Syntax.v ===== *)
(** * Tokens, syntax trees and diagnostics

    [crates/sarif_syntax/src/lib.rs]: the data every later stage shares.
    A Rust [String] is its sequence of UTF-8 bytes, Rocq's [string]; a [usize]
    offset is a [nat].  The Rust enums keep their constructor names behind a
    prefix ([T_] for [TokenKind], [N_] for [NodeKind]).  Last, the constant
    expressions of types ([crates/sarif_frontend/src/hir.rs]). *)
From stdpp Require Import gmap pretty.
From S2P Require Import Prelude.

Open Scope string_scope.
Open Scope list_scope.
Open Scope nat_scope.

(** ** Source spans and diagnostics *)

Record Span := mkSpan { span_start : nat; span_end : nat }.

Definition Span_default : Span := mkSpan 0 0.

Definition empty_at (offset : nat) : Span := mkSpan offset offset.

Record Diagnostic := mkDiagnostic {
  diag_code : string;
  diag_message : string;
  diag_span : Span;
  diag_help : option string;
  diag_origin_span : option Span
}.

Definition Diagnostic_new (code message : string) (span : Span) (help : option string) : Diagnostic :=
  mkDiagnostic code message span help None.

(** ** Token kinds *)

Inductive TokenKind :=
  | T_Whitespace | T_Newline | T_Comment | T_Ident | T_Integer | T_Float | T_String | T_KwAnd
  | T_KwConst | T_KwComptime | T_KwEnsures | T_KwExtern | T_KwEffect | T_KwEnum | T_KwEffects | T_KwElse
  | T_KwFalse | T_KwFn | T_KwFor | T_KwFrom | T_KwHandle | T_KwIf | T_KwImport | T_KwIn
  | T_KwLet | T_KwMatch | T_KwMut | T_KwNot | T_KwOr | T_KwPerform | T_KwPub | T_KwRepeat
  | T_KwRequires | T_KwStruct | T_KwTrue | T_KwWhile | T_KwWith | T_Arrow | T_Amp | T_Caret
  | T_Colon | T_Comma | T_Dot | T_DotDot | T_Eq | T_PlusEq | T_MinusEq | T_StarEq
  | T_SlashEq | T_FatArrow | T_EqEq | T_Ge | T_Gt | T_LBrace | T_LBracket | T_Le
  | T_Lt | T_LParen | T_Minus | T_NotEq | T_Pipe | T_Plus | T_RBrace | T_RBracket
  | T_RParen | T_Semicolon | T_Shl | T_Slash | T_Shr | T_Star | T_Percent | T_PercentEq
  | T_Underscore | T_AttrRepr | T_Invalid | T_Eof.

(** [TokenKind::is_trivia] *)
Definition is_trivia (k : TokenKind) : bool :=
  match k with
  | T_Whitespace | T_Newline | T_Comment => true
  | _ => false
  end.

Record Token := mkToken {
  tok_kind : TokenKind;
  tok_lexeme : string;
  tok_span : Span
}.

(** ** Node kinds *)

Inductive NodeKind :=
  | N_SourceFile | N_ConstItem | N_FnItem | N_EnumItem | N_StructItem | N_ParamList | N_Param | N_ReturnType
  | N_EffectsClause | N_RequiresClause | N_EnsuresClause | N_EffectList | N_FieldList | N_VariantList | N_GenericParamList | N_GenericParam
  | N_Field | N_Variant | N_EffectItem | N_ExternBlock | N_ImportItem | N_TypePath | N_TypeArray | N_Body
  | N_LetStmt | N_AssignStmt | N_ExprStmt | N_WithArenaStmt | N_ArgList | N_FieldInitList | N_FieldInit | N_FieldUpdateList
  | N_FieldUpdate | N_ExprBinary | N_ExprBool | N_ExprCall | N_ExprArray | N_ExprContractResult | N_ExprField | N_ExprIndex
  | N_ExprIf | N_ExprMatch | N_ExprRepeat | N_ExprFor | N_ExprWhile | N_ExprGroup | N_ExprInteger | N_ExprFloat
  | N_ExprName | N_ExprRecord | N_ExprRecordUpdate | N_ExprUnary | N_ExprString | N_ExprComptime | N_ExprPerform | N_ExprHandle
  | N_HandleArm | N_MatchPattern | N_MatchArm | N_Error.

(** [NodeKind::is_expr] *)
Definition is_expr (k : NodeKind) : bool :=
  match k with
  | N_ExprBinary | N_ExprBool | N_ExprCall | N_ExprArray | N_ExprContractResult
  | N_ExprField | N_ExprIndex | N_ExprIf | N_ExprMatch | N_ExprRepeat | N_ExprFor
  | N_ExprWhile | N_ExprGroup | N_ExprInteger | N_ExprFloat | N_ExprName
  | N_ExprRecord | N_ExprRecordUpdate | N_ExprUnary | N_ExprString | N_ExprComptime
  | N_ExprPerform | N_ExprHandle => true
  | _ => false
  end.

(** The names the derived [Debug] instance prints. *)
Definition TokenKind_debug (k : TokenKind) : string :=
  match k with
  | T_Whitespace => "Whitespace"
  | T_Newline => "Newline"
  | T_Comment => "Comment"
  | T_Ident => "Ident"
  | T_Integer => "Integer"
  | T_Float => "Float"
  | T_String => "String"
  | T_KwAnd => "KwAnd"
  | T_KwConst => "KwConst"
  | T_KwComptime => "KwComptime"
  | T_KwEnsures => "KwEnsures"
  | T_KwExtern => "KwExtern"
  | T_KwEffect => "KwEffect"
  | T_KwEnum => "KwEnum"
  | T_KwEffects => "KwEffects"
  | T_KwElse => "KwElse"
  | T_KwFalse => "KwFalse"
  | T_KwFn => "KwFn"
  | T_KwFor => "KwFor"
  | T_KwFrom => "KwFrom"
  | T_KwHandle => "KwHandle"
  | T_KwIf => "KwIf"
  | T_KwImport => "KwImport"
  | T_KwIn => "KwIn"
  | T_KwLet => "KwLet"
  | T_KwMatch => "KwMatch"
  | T_KwMut => "KwMut"
  | T_KwNot => "KwNot"
  | T_KwOr => "KwOr"
  | T_KwPerform => "KwPerform"
  | T_KwPub => "KwPub"
  | T_KwRepeat => "KwRepeat"
  | T_KwRequires => "KwRequires"
  | T_KwStruct => "KwStruct"
  | T_KwTrue => "KwTrue"
  | T_KwWhile => "KwWhile"
  | T_KwWith => "KwWith"
  | T_Arrow => "Arrow"
  | T_Amp => "Amp"
  | T_Caret => "Caret"
  | T_Colon => "Colon"
  | T_Comma => "Comma"
  | T_Dot => "Dot"
  | T_DotDot => "DotDot"
  | T_Eq => "Eq"
  | T_PlusEq => "PlusEq"
  | T_MinusEq => "MinusEq"
  | T_StarEq => "StarEq"
  | T_SlashEq => "SlashEq"
  | T_FatArrow => "FatArrow"
  | T_EqEq => "EqEq"
  | T_Ge => "Ge"
  | T_Gt => "Gt"
  | T_LBrace => "LBrace"
  | T_LBracket => "LBracket"
  | T_Le => "Le"
  | T_Lt => "Lt"
  | T_LParen => "LParen"
  | T_Minus => "Minus"
  | T_NotEq => "NotEq"
  | T_Pipe => "Pipe"
  | T_Plus => "Plus"
  | T_RBrace => "RBrace"
  | T_RBracket => "RBracket"
  | T_RParen => "RParen"
  | T_Semicolon => "Semicolon"
  | T_Shl => "Shl"
  | T_Slash => "Slash"
  | T_Shr => "Shr"
  | T_Star => "Star"
  | T_Percent => "Percent"
  | T_PercentEq => "PercentEq"
  | T_Underscore => "Underscore"
  | T_AttrRepr => "AttrRepr"
  | T_Invalid => "Invalid"
  | T_Eof => "Eof"
  end.

(** ** Concrete syntax trees *)

Inductive Element :=
  | Element_Node (n : Node)
  | Element_Token (t : Token)
with Node :=
  | mkNode (kind : NodeKind) (span : Span) (children : list Element).

Definition node_kind (n : Node) : NodeKind := let 'mkNode k _ _ := n in k.
Definition node_span (n : Node) : Span := let 'mkNode _ s _ := n in s.
Definition node_children (n : Node) : list Element := let 'mkNode _ _ c := n in c.

Definition element_span (e : Element) : Span :=
  match e with
  | Element_Node n => node_span n
  | Element_Token t => tok_span t
  end.

Definition span_from_elements (elements : list Element) : Span :=
  match head elements, last elements with
  | Some first, Some lst => mkSpan (span_start (element_span first)) (span_end (element_span lst))
  | _, _ => Span_default
  end.

Definition Node_new (kind : NodeKind) (children : list Element) : Node :=
  mkNode kind (span_from_elements children) children.

Definition Node_empty (kind : NodeKind) (offset : nat) : Node :=
  mkNode kind (empty_at offset) [].

(** ** Decidable equality *)

Scheme Equality for TokenKind.

Lemma TokenKind_beq_eq x y : TokenKind_beq x y = true <-> x = y.
Proof.
  split; [apply internal_TokenKind_dec_bl | apply internal_TokenKind_dec_lb].
Qed.

#[global] Instance TokenKind_EqDecision : EqDecision TokenKind := TokenKind_eq_dec.

Scheme Equality for NodeKind.

#[global] Instance NodeKind_EqDecision : EqDecision NodeKind := NodeKind_eq_dec.

(** ** The tokens of a tree, left to right *)

Fixpoint element_leaves (e : Element) : list Token :=
  match e with
  | Element_Node n => node_leaves n
  | Element_Token t => [t]
  end
with node_leaves (n : Node) : list Token :=
  match n with
  | mkNode _ _ children => flat_map element_leaves children
  end.

Definition leaves (es : list Element) : list Token := flat_map element_leaves es.

Lemma leaves_app es1 es2 : leaves (es1 ++ es2) = leaves es1 ++ leaves es2.
Proof. apply flat_map_app. Qed.

Lemma node_leaves_new k es : node_leaves (Node_new k es) = leaves es.
Proof. done. Qed.

(** * Constant integer expressions

    [ConstExpr] of [crates/sarif_frontend/src/hir.rs]: the lengths of arrays and
    the discriminants of enums, which the HIR and the MIR share. *)

(** [u32] literals *)
Inductive ConstExpr :=
  | C_Literal (value : Z)
  | C_Param (name : string)
  | C_Add (left right : ConstExpr)
  | C_Sub (left right : ConstExpr)
  | C_Mul (left right : ConstExpr).

#[global] Instance ConstExpr_EqDecision : EqDecision ConstExpr.
Proof. solve_decision. Defined.

Definition U32_MAX : Z := 4294967295.

(** [checked_add], [checked_sub] and [checked_mul] of [u32] *)
Definition checked_u32 (x : Z) : option Z :=
  if (0 <=? x)%Z && (x <=? U32_MAX)%Z then Some x else None.

Fixpoint const_expr_eval (e : ConstExpr) (params : gmap string Z) : option Z :=
  match e with
  | C_Literal value => Some value
  | C_Param name => params !! name
  | C_Add l r =>
      x ← const_expr_eval l params; y ← const_expr_eval r params; checked_u32 (x + y)
  | C_Sub l r =>
      x ← const_expr_eval l params; y ← const_expr_eval r params; checked_u32 (x - y)
  | C_Mul l r =>
      x ← const_expr_eval l params; y ← const_expr_eval r params; checked_u32 (x * y)
  end.

Fixpoint const_expr_render (e : ConstExpr) : string :=
  match e with
  | C_Literal value => pretty value
  | C_Param name => name
  | C_Add l r => ("(" ++ const_expr_render l ++ " + " ++ const_expr_render r ++ ")")%string
  | C_Sub l r => ("(" ++ const_expr_render l ++ " - " ++ const_expr_render r ++ ")")%string
  | C_Mul l r => ("(" ++ const_expr_render l ++ " * " ++ const_expr_render r ++ ")")%string
  end.
