(* ===== verification/Lexer.v ===== *)
(** * The lexer

    [crates/sarif_syntax/src/lexer.rs].  [lex] drives a [logos] lexer, which the
    [RawTokenKind] attributes generate: the generated [next] is the parameter
    [logos_next] here, a function of the lexer's source and the end of its
    last token, under the laws [LogosLaws].  The patterns of the attributes are
    [Lexeme.v]'s.  The identifier cache of the thread is part of the state. *)
From stdpp Require Import gmap pretty.
From S2P Require Import Prelude Syntax Utf8.

(** ** Token kinds *)

Inductive RawTokenKind :=
  | R_Whitespace | R_Newline | R_Comment | R_KwAnd | R_KwConst | R_KwComptime | R_KwEnsures | R_KwExtern
  | R_KwEffect | R_KwEnum | R_KwEffects | R_KwElse | R_KwFalse | R_KwFn | R_KwFor | R_KwFrom
  | R_KwHandle | R_KwIf | R_KwImport | R_KwIn | R_KwLet | R_KwMatch | R_KwMut | R_KwNot
  | R_KwOr | R_KwPerform | R_KwPub | R_KwRepeat | R_KwRequires | R_KwStruct | R_KwTrue | R_KwWhile
  | R_KwWith | R_Arrow | R_Amp | R_Caret | R_Colon | R_Comma | R_DotDot | R_Dot
  | R_Eq | R_PlusEq | R_MinusEq | R_StarEq | R_SlashEq | R_FatArrow | R_EqEq | R_Ge
  | R_Gt | R_LBrace | R_LBracket | R_Le | R_Lt | R_LParen | R_Minus | R_NotEq
  | R_Pipe | R_Plus | R_RBrace | R_RBracket | R_RParen | R_Semicolon | R_Shl | R_Slash
  | R_Shr | R_Star | R_Percent | R_PercentEq | R_Underscore | R_Float | R_Integer | R_String
  | R_AttrRepr | R_Ident.

Definition map_token_kind (kind : RawTokenKind) : TokenKind :=
  match kind with
  | R_Whitespace => T_Whitespace
  | R_Newline => T_Newline
  | R_Comment => T_Comment
  | R_KwAnd => T_KwAnd
  | R_KwConst => T_KwConst
  | R_KwComptime => T_KwComptime
  | R_KwEnsures => T_KwEnsures
  | R_KwExtern => T_KwExtern
  | R_KwEffect => T_KwEffect
  | R_KwEnum => T_KwEnum
  | R_KwEffects => T_KwEffects
  | R_KwElse => T_KwElse
  | R_KwFalse => T_KwFalse
  | R_KwFn => T_KwFn
  | R_KwFor => T_KwFor
  | R_KwFrom => T_KwFrom
  | R_KwHandle => T_KwHandle
  | R_KwIf => T_KwIf
  | R_KwImport => T_KwImport
  | R_KwIn => T_KwIn
  | R_KwLet => T_KwLet
  | R_KwMatch => T_KwMatch
  | R_KwMut => T_KwMut
  | R_KwNot => T_KwNot
  | R_KwOr => T_KwOr
  | R_KwPerform => T_KwPerform
  | R_KwPub => T_KwPub
  | R_KwRepeat => T_KwRepeat
  | R_KwRequires => T_KwRequires
  | R_KwStruct => T_KwStruct
  | R_KwTrue => T_KwTrue
  | R_KwWhile => T_KwWhile
  | R_KwWith => T_KwWith
  | R_Arrow => T_Arrow
  | R_Amp => T_Amp
  | R_Caret => T_Caret
  | R_Colon => T_Colon
  | R_Comma => T_Comma
  | R_Dot => T_Dot
  | R_Eq => T_Eq
  | R_PlusEq => T_PlusEq
  | R_MinusEq => T_MinusEq
  | R_StarEq => T_StarEq
  | R_SlashEq => T_SlashEq
  | R_FatArrow => T_FatArrow
  | R_EqEq => T_EqEq
  | R_Ge => T_Ge
  | R_Gt => T_Gt
  | R_LBrace => T_LBrace
  | R_LBracket => T_LBracket
  | R_Le => T_Le
  | R_Lt => T_Lt
  | R_LParen => T_LParen
  | R_Minus => T_Minus
  | R_NotEq => T_NotEq
  | R_Pipe => T_Pipe
  | R_Plus => T_Plus
  | R_RBrace => T_RBrace
  | R_RBracket => T_RBracket
  | R_RParen => T_RParen
  | R_Semicolon => T_Semicolon
  | R_Shl => T_Shl
  | R_Slash => T_Slash
  | R_Shr => T_Shr
  | R_Star => T_Star
  | R_Percent => T_Percent
  | R_PercentEq => T_PercentEq
  | R_Underscore => T_Underscore
  | R_Float => T_Float
  | R_Integer => T_Integer
  | R_String => T_String
  | R_AttrRepr => T_AttrRepr
  | R_Ident => T_Ident
  | R_DotDot => T_DotDot
  end.

#[global] Instance RawTokenKind_EqDecision : EqDecision RawTokenKind.
Proof. solve_decision. Defined.

(** ** The state of [lex] *)

Record LexOutput := mkLexOutput { tokens : list Token; lex_diagnostics : list Diagnostic }.

Record LexState := mkLexState {
  source_offset : nat;
  lexer_source : string;
  lexer_end : nat;
  ident_cache : gmap string string;
  output : LexOutput
}.

(** [intern_ident]: the cached copy, or a new one. *)
Definition intern_ident (cache : gmap string string) (s : string) : string * gmap string string :=
  match cache !! s with
  | Some interned => (interned, cache)
  | None => (s, <[s := s]> cache)
  end.

(** [lexer.next()] with [lexer.span()]: [None] at the end of the source, an
    error without a kind. *)
Definition LogosNext : Type := string -> nat -> option (option RawTokenKind * nat * nat).

Inductive LexStep :=
  | LexMore (s : LexState)
  | LexEnd
  | LexPanic.

Inductive LexResult :=
  | Lexed (out : LexOutput) (cache : gmap string string)
  | LexRunning
  | LexPanicked.

(** [format!("{:02x}", b)] *)
Definition hex_digit (n : nat) : string :=
  match String.get n "0123456789abcdef" with
  | Some a => String a ""
  | None => ""
  end.
Definition hex2 (a : Ascii.ascii) : string :=
  let n := Ascii.nat_of_ascii a in (hex_digit (n / 16) ++ hex_digit (n mod 16))%string.

Definition push_token (o : LexOutput) (t : Token) : LexOutput :=
  mkLexOutput (tokens o ++ [t]) (lex_diagnostics o).
Definition push_lex_diagnostic (o : LexOutput) (d : Diagnostic) : LexOutput :=
  mkLexOutput (tokens o) (lex_diagnostics o ++ [d]).

Section Lex.
Context (logos_next : LogosNext) (source : string).

(** An error over no byte: the byte is reported and the lexer restarted after it. *)
Definition skip_byte (s : LexState) (abs_pos : nat) : LexStep :=
  match bytes source !! abs_pos with
  | None => LexPanic
  | Some byte =>
      let d := Diagnostic_new "lex.null-byte"
        ("byte 0x" ++ hex2 byte ++ " at position " ++ pretty abs_pos)%string
        (mkSpan abs_pos (abs_pos + 1)) (Some "Remove this byte from source."%string) in
      match str_slice source (abs_pos + 1) (String.length source) with
      | None => LexPanic
      | Some rest =>
          LexMore (mkLexState (abs_pos + 1) rest 0 (ident_cache s) (push_lex_diagnostic (output s) d))
      end
  end.

(** The token, or the invalid token and its diagnostic. *)
Definition take_token (s : LexState) (result : option RawTokenKind) (abs_start abs_end end_ : nat)
    : LexStep :=
  let span := mkSpan abs_start abs_end in
  match str_slice source abs_start abs_end with
  | None => LexPanic
  | Some lexeme =>
      match result with
      | Some kind =>
          let '(interned_lexeme, cache) :=
            if decide (kind = R_Ident) then intern_ident (ident_cache s) lexeme
            else (lexeme, ident_cache s) in
          LexMore (mkLexState (source_offset s) (lexer_source s) end_ cache
            (push_token (output s) (mkToken (map_token_kind kind) interned_lexeme span)))
      | None =>
          let o := push_token (output s) (mkToken T_Invalid lexeme span) in
          LexMore (mkLexState (source_offset s) (lexer_source s) end_ (ident_cache s)
            (push_lex_diagnostic o (Diagnostic_new "lex.invalid-token"
              ("invalid token `" ++ lexeme ++ "`")%string span
              (Some "Sarif source is ASCII-keyword based; remove or replace this token."%string))))
      end
  end.

(** The body of [while let Some(result) = lexer.next()]. *)
Definition lex_step (s : LexState) : LexStep :=
  match logos_next (lexer_source s) (lexer_end s) with
  | None => LexEnd
  | Some (result, start, end_) =>
      if bool_decide (result = None) && (start =? end_)
      then skip_byte s (source_offset s + start)
      else take_token s result (source_offset s + start) (source_offset s + end_) end_
  end.

Definition push_eof (s : LexState) : LexOutput :=
  push_token (output s) (mkToken T_Eof "" (empty_at (source_offset s))).

Fixpoint lex_loop (fuel : nat) (s : LexState) : LexResult :=
  match fuel with
  | 0 => LexRunning
  | S n =>
      match lex_step s with
      | LexMore s' => lex_loop n s'
      | LexEnd => Lexed (push_eof s) (ident_cache s)
      | LexPanic => LexPanicked
      end
  end.

Definition lex_start (cache : gmap string string) : LexState :=
  mkLexState 0 source 0 cache (mkLexOutput [] []).

Definition lex (fuel : nat) (cache : gmap string string) : LexResult :=
  lex_loop fuel (lex_start cache).
End Lex.
