(* ===== verification/Parser.v ===== *)
(** * The recursive-descent parser: definitions

    [crates/sarif_syntax/src/parser.rs].  A [Parser] is its cursor and its
    diagnostics over a fixed token slice; a method is a computation of the
    monad [P], which threads that state and ends in one of three ways: it
    returns, it panics ([.expect] on an empty slice, an index out of range),
    or it is still running when the fuel is used up.

    A [Vec<Element>] named [children] that a method pushes to is a value passed
    from statement to statement.  Rust's [while]/[loop] is [loop], one unit
    of fuel an iteration.  The methods that call each other recursively are
    written against the argument [rec], which stands for a call to
    [parse_expr_bp], [parse_postfix_expr], [parse_if_expr], [parse_expr_body]
    or [parse_type]; [run] ties the knot, one unit of fuel a nested call. *)
From S2P Require Import Prelude Syntax.

Declare Scope parser_scope.
Delimit Scope parser_scope with parser.

(** ** Parser state and monad *)

Record PState := mkPState { cursor : nat; diagnostics : list Diagnostic }.

Inductive PRes (A : Type) :=
  | POk (a : A) (s : PState)
  | PFuel
  | PPanic.
Arguments POk {A}.
Arguments PFuel {A}.
Arguments PPanic {A}.

Definition P (A : Type) : Type := PState -> PRes A.

Definition ret {A} (a : A) : P A := fun s => POk a s.

Definition bind {A B} (m : P A) (f : A -> P B) : P B := fun s =>
  match m s with
  | POk a s' => f a s'
  | PFuel => PFuel
  | PPanic => PPanic
  end.

Notation "'let*' x ':=' m 'in' k" := (bind m (fun x => k))
  (at level 10, x name, m at level 100, k at level 200) : parser_scope.
Open Scope parser_scope.

Definition out_of_fuel {A} : P A := fun _ => PFuel.
Definition panic {A} : P A := fun _ => PPanic.

Inductive Flow (A B : Type) :=
  | Continue (a : A)
  | Break (b : B).
Arguments Continue {A B}.
Arguments Break {A B}.

Fixpoint loop {A B} (fuel : nat) (body : A -> P (Flow A B)) (a : A) : P B :=
  match fuel with
  | 0 => out_of_fuel
  | S n =>
      let* r := body a in
      match r with
      | Continue a' => loop n body a'
      | Break b => ret b
      end
  end.

(** [self.diagnostics.push(d)] *)
Definition push_diagnostic (d : Diagnostic) : P unit := fun s =>
  POk tt (mkPState (cursor s) (diagnostics s ++ [d])).

(** ** Pure scans of the tokens ahead *)

Definition kind_is (k : TokenKind) (t : Token) : bool := TokenKind_beq (tok_kind t) k.

(** The prefix of trivia a [while tokens.get(index).is_some_and(trivia)] skips. *)
Fixpoint skip_trivia (l : list Token) : list Token :=
  match l with
  | t :: l' => if is_trivia (tok_kind t) then skip_trivia l' else l
  | [] => []
  end.

Definition infix_binding_power (kind : TokenKind) : option (nat * nat) :=
  match kind with
  | T_KwOr => Some (1, 2)
  | T_KwAnd => Some (3, 4)
  | T_Pipe => Some (5, 6)
  | T_Caret => Some (7, 8)
  | T_Amp => Some (9, 10)
  | T_EqEq | T_NotEq | T_Lt | T_Le | T_Gt | T_Ge => Some (11, 12)
  | T_Shl | T_Shr => Some (13, 14)
  | T_Plus | T_Minus => Some (15, 16)
  | T_Star | T_Slash | T_Percent => Some (17, 18)
  | _ => None
  end.

Definition starts_expr (kind : TokenKind) : bool :=
  match kind with
  | T_Integer | T_Float | T_Minus | T_String | T_KwTrue | T_KwFalse | T_Ident
  | T_LBracket | T_LParen | T_KwIf | T_KwMatch | T_KwRepeat | T_KwFor | T_KwWhile
  | T_KwComptime | T_KwHandle => true
  | _ => false
  end.

(** [next_expr_is_statement] from a given token on: is there a [;] outside
    brackets before the bracket that closes the body? *)
Fixpoint expr_is_statement (depth : nat) (l : list Token) : bool :=
  match l with
  | [] => false
  | t :: l' =>
      match tok_kind t with
      | T_Whitespace | T_Newline | T_Comment => expr_is_statement depth l'
      | T_LParen | T_LBracket | T_LBrace => expr_is_statement (S depth) l'
      | T_RParen | T_RBracket | T_RBrace =>
          match depth with
          | 0 => false
          | S d => expr_is_statement d l'
          end
      | T_Semicolon => if depth =? 0 then true else expr_is_statement depth l'
      | _ => expr_is_statement depth l'
      end
  end.

(** The loop of [next_name_is_assign_statement], after the leading identifier:
    its head, the identifier after a [.], and the inside of an index. *)
Inductive AssignScan :=
  | ScanHead
  | ScanField
  | ScanIndex (depth : nat).

Definition is_assign_op (k : TokenKind) : bool :=
  match k with
  | T_Eq | T_PlusEq | T_MinusEq | T_StarEq | T_SlashEq => true
  | _ => false
  end.

Fixpoint assign_scan (st : AssignScan) (l : list Token) : bool :=
  match l with
  | [] => false
  | t :: l' =>
      match st with
      | ScanHead =>
          if is_trivia (tok_kind t) then assign_scan ScanHead l'
          else if kind_is T_Dot t then assign_scan ScanField l'
          else if kind_is T_LBracket t then assign_scan (ScanIndex 1) l'
          else is_assign_op (tok_kind t)
      | ScanField =>
          if is_trivia (tok_kind t) then assign_scan ScanField l'
          else if kind_is T_Ident t then assign_scan ScanHead l'
          else false
      | ScanIndex depth =>
          match tok_kind t with
          | T_LBracket => assign_scan (ScanIndex (S depth)) l'
          | T_RBracket =>
              if depth - 1 =? 0 then assign_scan ScanHead l'
              else assign_scan (ScanIndex (depth - 1)) l'
          | _ => assign_scan (ScanIndex depth) l'
          end
      end
  end.

Definition name_is_assign_statement (l : list Token) : bool :=
  match skip_trivia l with
  | t :: l' => if kind_is T_Ident t then assign_scan ScanHead l' else false
  | [] => false
  end.

Definition record_literal_ahead (l : list Token) : bool :=
  match skip_trivia l with
  | t :: l1 =>
      if kind_is T_LBrace t then
        match skip_trivia l1 with
        | t1 :: l2 =>
            if kind_is T_RBrace t1 then true
            else if kind_is T_Ident t1 then
              match skip_trivia l2 with
              | t2 :: _ =>
                  match tok_kind t2 with
                  | T_Colon | T_Comma | T_RBrace => true
                  | _ => false
                  end
              | [] => false
              end
            else false
        | [] => false
        end
      else false
  | [] => false
  end.

(** [lexeme.as_bytes().first().is_some_and(u8::is_ascii_uppercase)] *)
Definition starts_uppercase (lexeme : string) : bool :=
  match lexeme with
  | EmptyString => false
  | String a _ =>
      let n := Ascii.nat_of_ascii a in (65 <=? n) && (n <=? 90)
  end.

(** ** The token cursor *)
Section Cursor.
Context (tokens : list Token) (fuel : nat).

Definition current : P Token := fun s =>
  match tokens !! cursor s with
  | Some t => POk t s
  | None =>
      match last tokens with
      | Some t => POk t s
      | None => PPanic
      end
  end.

Definition at_kind (kind : TokenKind) : P bool :=
  let* t := current in ret (kind_is kind t).

Definition bump : P Token :=
  let* token := current in
  fun s =>
    if cursor s <? length tokens - 1
    then POk token (mkPState (S (cursor s)) (diagnostics s))
    else POk token s.

(** [self.tokens.get(self.cursor..)] without the trivia it starts with. *)
Definition ahead : P (list Token) := fun s => POk (drop (cursor s) tokens) s.

Definition peek_non_trivia_kind : P (option TokenKind) :=
  let* l := ahead in ret (option_map tok_kind (head (skip_trivia l))).

Definition current_non_trivia_kind : P (option TokenKind) := peek_non_trivia_kind.

Definition peek_trivia_then (kind : TokenKind) : P bool :=
  let* l := ahead in
  ret (match skip_trivia l with t :: _ => kind_is kind t | [] => false end).

Definition next_non_trivia_kind_is_numeric_literal : P bool :=
  let* l := ahead in
  ret (match skip_trivia (drop 1 l) with
       | t :: _ => kind_is T_Integer t || kind_is T_Float t
       | [] => false
       end).

Definition starts_record_literal : P bool :=
  let* l := ahead in ret (record_literal_ahead l).

Definition next_expr_is_statement : P bool :=
  let* l := ahead in ret (expr_is_statement 0 l).

Definition next_name_is_assign_statement : P bool :=
  let* l := ahead in ret (name_is_assign_statement l).

Definition starts_match_pattern : P bool :=
  let* k := current_non_trivia_kind in
  ret (match k with
       | Some (T_Ident | T_Integer | T_String | T_KwTrue | T_KwFalse | T_Underscore) => true
       | _ => false
       end).

Definition collect_trivia (children : list Element) : P (list Element) :=
  loop fuel (fun children =>
    let* t := current in
    if is_trivia (tok_kind t)
    then let* t := bump in ret (Continue (children ++ [Element_Token t]))
    else ret (Break children)) children.

Definition collect_trivia_into_cursor : P unit :=
  loop fuel (fun _ =>
    let* t := current in
    if is_trivia (tok_kind t)
    then fun s => POk (Continue tt) (mkPState (S (cursor s)) (diagnostics s))
    else ret (Break tt)) tt.

Definition expect (kind : TokenKind) : P Token :=
  let* _ := collect_trivia_into_cursor in
  let* here := at_kind kind in
  if here then bump
  else
    let* cur := current in
    let* _ := push_diagnostic (Diagnostic_new "parse.expected-token"
      ("expected `" ++ TokenKind_debug kind ++ "`, found `" ++ TokenKind_debug (tok_kind cur) ++ "`")%string
      (tok_span cur)
      (Some ("Insert or replace the token so this item matches the grammar for `"
             ++ TokenKind_debug kind ++ "`.")%string)) in
    ret (mkToken kind "" (tok_span cur)).

(** [children.push(Element::Token(self.expect(kind)))] *)
Definition push_expect (kind : TokenKind) (children : list Element) : P (list Element) :=
  let* t := expect kind in ret (children ++ [Element_Token t]).

(** [children.push(Element::Token(self.bump()))] *)
Definition push_bump (children : list Element) : P (list Element) :=
  let* t := bump in ret (children ++ [Element_Token t]).

(** [children.push(Element::Node(m))] *)
Definition push_node (m : P Node) (children : list Element) : P (list Element) :=
  let* n := m in ret (children ++ [Element_Node n]).

(** [!self.at(close) && !self.at(TokenKind::Eof)] *)
Definition not_at_close (close : TokenKind) : P bool :=
  let* c := at_kind close in
  if c then ret false
  else let* e := at_kind T_Eof in ret (negb e).

(** The tail of every comma-separated list method: an empty list is an empty
    node at the offset where the list starts. *)
Definition list_node (kind : NodeKind) (offset : nat) (children : list Element) : Node :=
  match children with
  | [] => Node_empty kind offset
  | _ => Node_new kind children
  end.
End Cursor.

(** ** Types *)

(** The recursive calls of the grammar. *)
Inductive Call :=
  | CType
  | CExprBp (min_bp : nat)
  | CPostfix
  | CIf
  | CExprBody.

Section Grammar.
Context (tokens : list Token) (fuel : nat) (rec : Call -> P Node).

#[local] Abbreviation at_kind := (at_kind tokens).
#[local] Abbreviation bump := (bump tokens).
#[local] Abbreviation expect := (expect tokens fuel).
#[local] Abbreviation push_expect := (push_expect tokens fuel).
#[local] Abbreviation push_bump := (push_bump tokens).
#[local] Abbreviation collect_trivia := (collect_trivia tokens fuel).
#[local] Abbreviation peek_trivia_then := (peek_trivia_then tokens).
#[local] Abbreviation current := (current tokens).
#[local] Abbreviation current_non_trivia_kind := (current_non_trivia_kind tokens).
#[local] Abbreviation not_at_close := (not_at_close tokens).

Definition parse_type_path : P Node :=
  let* children := push_expect T_Ident [] in
  let* children := loop fuel (fun children =>
    let* dot := peek_trivia_then T_Dot in
    if dot then
      let* children := collect_trivia children in
      let* children := push_expect T_Dot children in
      let* children := collect_trivia children in
      let* children := push_expect T_Ident children in
      ret (Continue children)
    else ret (Break children)) children in
  let* bracket := peek_trivia_then T_LBracket in
  if bracket then
    let* children := collect_trivia children in
    let* children := push_expect T_LBracket children in
    let* children := collect_trivia children in
    let* children := push_node (rec CType) children in
    let* children := collect_trivia children in
    let* children := push_expect T_RBracket children in
    ret (Node_new N_TypePath children)
  else ret (Node_new N_TypePath children).

Definition parse_array_type : P Node :=
  let* children := push_expect T_LBracket [] in
  let* children := collect_trivia children in
  let* children := push_node (rec CType) children in
  let* children := collect_trivia children in
  let* children := push_expect T_Semicolon children in
  let* children := collect_trivia children in
  let* k := current_non_trivia_kind in
  let* children :=
    match k with
    | Some T_Integer => push_expect T_Integer children
    | Some T_Ident => push_expect T_Ident children
    | _ => push_expect T_Integer children
    end in
  let* children := collect_trivia children in
  let* children := push_expect T_RBracket children in
  ret (Node_new N_TypeArray children).

Definition parse_type : P Node :=
  let* bracket := at_kind T_LBracket in
  if bracket then parse_array_type else parse_type_path.

(** ** Lists inside expressions *)

(** The loop of every comma-separated list method, up to a closing bracket;
    [item] is what the method does for one entry. *)
Definition comma_list (close : TokenKind) (item : list Element -> P (list Element))
    : list Element -> P (list Element) :=
  loop fuel (fun children =>
    let* more := not_at_close close in
    if more then
      let* children := collect_trivia children in
      let* more := not_at_close close in
      if more then
        let* children := item children in
        let* children := collect_trivia children in
        let* comma := at_kind T_Comma in
        if comma then
          let* children := push_bump children in ret (Continue children)
        else ret (Break children)
      else ret (Break children)
    else ret (Break children)).

(** [let offset = self.current().span.start] *)
Definition current_offset : P nat :=
  let* cur := current in ret (span_start (tok_span cur)).

Definition parse_arg_list : P Node :=
  let* offset := current_offset in
  let* children := comma_list T_RParen (push_node (rec (CExprBp 0))) [] in
  ret (list_node N_ArgList offset children).

Definition parse_field_init : P Node :=
  let* init_children := collect_trivia [] in
  let* init_children := push_expect T_Ident init_children in
  let* init_children := collect_trivia init_children in
  let* colon := at_kind T_Colon in
  if colon then
    let* init_children := push_bump init_children in
    let* init_children := collect_trivia init_children in
    let* init_children := push_node (rec (CExprBp 0)) init_children in
    ret (Node_new N_FieldInit init_children)
  else ret (Node_new N_FieldInit init_children).

Definition parse_field_init_list : P Node :=
  let* offset := current_offset in
  let* children := comma_list T_RBrace (push_node parse_field_init) [] in
  ret (list_node N_FieldInitList offset children).

Definition parse_field_update : P Node :=
  let* update_children := collect_trivia [] in
  let* update_children := push_expect T_Dot update_children in
  let* update_children := collect_trivia update_children in
  let* update_children := push_expect T_Ident update_children in
  let* update_children := collect_trivia update_children in
  let* update_children := push_expect T_Eq update_children in
  let* update_children := collect_trivia update_children in
  let* update_children := push_node (rec (CExprBp 0)) update_children in
  ret (Node_new N_FieldUpdate update_children).

Definition parse_field_update_list : P Node :=
  let* offset := current_offset in
  let* children := comma_list T_RBrace (push_node parse_field_update) [] in
  ret (list_node N_FieldUpdateList offset children).

(** ** Keyword expressions *)

Definition parse_error_expr : P Node :=
  let* token := bump in
  let* _ := push_diagnostic (Diagnostic_new "parse.expected-expression"
    ("expected expression, found `" ++ TokenKind_debug (tok_kind token) ++ "`")%string
    (tok_span token)
    (Some "Use a literal, array literal, name, record literal, field access, indexing expression, grouped expression, function call, `if`, `match`, or `repeat`."%string)) in
  ret (Node_new N_Error [Element_Token token]).

Definition parse_if_expr : P Node :=
  let* children := collect_trivia [] in
  let* children := push_expect T_KwIf children in
  let* children := collect_trivia children in
  let* children := push_node (rec (CExprBp 0)) children in
  let* children := collect_trivia children in
  let* children := push_node (rec CExprBody) children in
  let* has_else := peek_trivia_then T_KwElse in
  if has_else then
    let* children := collect_trivia children in
    let* children := push_expect T_KwElse children in
    let* children := collect_trivia children in
    let* nested_if := at_kind T_KwIf in
    if nested_if then
      let* nested := rec CIf in
      ret (Node_new N_ExprIf
             (children ++ [Element_Node (Node_new N_Body [Element_Node nested])]))
    else
      let* children := push_node (rec CExprBody) children in
      ret (Node_new N_ExprIf children)
  else ret (Node_new N_ExprIf children).

Definition parse_match_pattern_atom : P Node :=
  let* children := collect_trivia [] in
  let* k := current_non_trivia_kind in
  let* children :=
    match k with
    | Some T_Ident =>
        let* children := push_node parse_type_path children in
        let* children := collect_trivia children in
        let* paren := at_kind T_LParen in
        if paren then
          let* children := push_bump children in
          let* children := collect_trivia children in
          let* children := push_expect T_Ident children in
          let* children := collect_trivia children in
          push_expect T_RParen children
        else
          let* brace := at_kind T_LBrace in
          if brace then
            let* children := push_bump children in
            let* children := collect_trivia children in
            push_expect T_RBrace children
          else ret children
    | Some T_Integer =>
        let* children := push_expect T_Integer children in
        let* children := collect_trivia children in
        let* range := at_kind T_DotDot in
        if range then
          let* children := push_expect T_DotDot children in
          let* children := collect_trivia children in
          push_expect T_Integer children
        else ret children
    | Some T_String => push_expect T_String children
    | Some T_KwTrue => push_expect T_KwTrue children
    | Some T_KwFalse => push_expect T_KwFalse children
    | Some T_Underscore => push_expect T_Underscore children
    | _ => push_bump children
    end in
  ret (Node_new N_MatchPattern children).

Definition parse_match_pattern : P Node :=
  let* children := collect_trivia [] in
  let* children := push_node parse_match_pattern_atom children in
  let* children := collect_trivia children in
  let* children := loop fuel (fun children =>
    let* pipe := at_kind T_Pipe in
    if pipe then
      let* children := push_bump children in
      let* children := collect_trivia children in
      let* children := push_node parse_match_pattern_atom children in
      let* children := collect_trivia children in
      ret (Continue children)
    else ret (Break children)) children in
  ret (Node_new N_MatchPattern children).

Definition parse_match_arm : P Node :=
  let* children := push_node parse_match_pattern [] in
  let* children := collect_trivia children in
  let* children := push_expect T_FatArrow children in
  let* children := collect_trivia children in
  let* brace := at_kind T_LBrace in
  if brace then
    let* children := push_node (rec CExprBody) children in
    ret (Node_new N_MatchArm children)
  else
    let* expr := rec (CExprBp 0) in
    ret (Node_new N_MatchArm
           (children ++ [Element_Node (Node_new N_Body [Element_Node expr])])).

Definition parse_match_expr : P Node :=
  let* children := collect_trivia [] in
  let* children := push_expect T_KwMatch children in
  let* children := collect_trivia children in
  let* children := push_node (rec (CExprBp 0)) children in
  let* children := collect_trivia children in
  let* children := push_expect T_LBrace children in
  let* children := collect_trivia children in
  let* children := loop fuel (fun children =>
    let* more := starts_match_pattern tokens in
    if more then
      let* children := push_node parse_match_arm children in
      let* children := collect_trivia children in
      let* comma := at_kind T_Comma in
      if comma then
        let* children := push_bump children in
        let* children := collect_trivia children in
        ret (Continue children)
      else ret (Break children)
    else ret (Break children)) children in
  let* children := push_expect T_RBrace children in
  ret (Node_new N_ExprMatch children).

(** [repeat_has_binding]: an identifier, then [in]. *)
Definition repeat_has_binding : P bool :=
  let* ident := at_kind T_Ident in
  if ident then
    let* l := ahead tokens in
    ret (match skip_trivia (drop 1 l) with t :: _ => kind_is T_KwIn t | [] => false end)
  else ret false.

Definition parse_repeat_expr : P Node :=
  let* children := collect_trivia [] in
  let* children := push_expect T_KwRepeat children in
  let* children := collect_trivia children in
  let* binding := repeat_has_binding in
  let* children :=
    (if binding then
      let* children := push_bump children in
      let* children := collect_trivia children in
      let* children := push_expect T_KwIn children in
      collect_trivia children
    else ret children) in
  let* children := push_node (rec (CExprBp 0)) children in
  let* children := collect_trivia children in
  let* children := push_node (rec CExprBody) children in
  ret (Node_new N_ExprRepeat children).

Definition parse_for_expr : P Node :=
  let* children := collect_trivia [] in
  let* children := push_expect T_KwFor children in
  let* children := collect_trivia children in
  let* children := push_expect T_Ident children in
  let* children := collect_trivia children in
  let* children := push_expect T_KwIn children in
  let* children := collect_trivia children in
  let* children := push_node (rec (CExprBp 0)) children in
  let* children := collect_trivia children in
  let* children := push_expect T_DotDot children in
  let* children := collect_trivia children in
  let* children := push_node (rec (CExprBp 0)) children in
  let* children := collect_trivia children in
  let* children := push_node (rec CExprBody) children in
  ret (Node_new N_ExprFor children).

Definition parse_while_expr : P Node :=
  let* children := collect_trivia [] in
  let* children := push_expect T_KwWhile children in
  let* children := collect_trivia children in
  let* children := push_node (rec (CExprBp 0)) children in
  let* children := collect_trivia children in
  let* children := push_node (rec CExprBody) children in
  ret (Node_new N_ExprWhile children).

Definition parse_comptime_expr : P Node :=
  let* children := push_expect T_KwComptime [] in
  let* children := collect_trivia children in
  let* children := push_node (rec CExprBody) children in
  ret (Node_new N_ExprComptime children).

Definition parse_perform_expr : P Node :=
  let* children := push_expect T_KwPerform [] in
  let* children := collect_trivia children in
  let* children := push_node parse_type_path children in
  let* children := collect_trivia children in
  let* children := push_expect T_LParen children in
  let* children := push_node parse_arg_list children in
  let* children := push_expect T_RParen children in
  ret (Node_new N_ExprPerform children).

(** The parameter loop of a handler arm: it stops only at [)] or at the end,
    and advances only over an identifier or a comma. *)
Definition parse_handle_params : list Element -> P (list Element) :=
  loop fuel (fun arm_children =>
    let* more := not_at_close T_RParen in
    if more then
      let* arm_children := push_expect T_Ident arm_children in
      let* arm_children := collect_trivia arm_children in
      let* comma := at_kind T_Comma in
      if comma then
        let* arm_children := push_bump arm_children in
        let* arm_children := collect_trivia arm_children in
        ret (Continue arm_children)
      else ret (Continue arm_children)
    else ret (Break arm_children)).

Definition parse_handle_arm : P Node :=
  let* arm_children := push_expect T_Ident [] in
  let* arm_children := collect_trivia arm_children in
  let* arm_children := push_expect T_LParen arm_children in
  let* arm_children := collect_trivia arm_children in
  let* arm_children := parse_handle_params arm_children in
  let* arm_children := push_expect T_RParen arm_children in
  let* arm_children := collect_trivia arm_children in
  let* arm_children := push_expect T_FatArrow arm_children in
  let* arm_children := collect_trivia arm_children in
  let* arm_children := push_node (rec CExprBody) arm_children in
  ret (Node_new N_HandleArm arm_children).

Definition parse_handle_expr : P Node :=
  let* children := push_expect T_KwHandle [] in
  let* children := collect_trivia children in
  let* children := push_node (rec CExprBody) children in
  let* children := collect_trivia children in
  let* children := push_expect T_KwWith children in
  let* children := collect_trivia children in
  let* children := push_expect T_LBrace children in
  let* children := collect_trivia children in
  let* children := loop fuel (fun children =>
    let* more := not_at_close T_RBrace in
    if more then
      let* children := push_node parse_handle_arm children in
      let* children := collect_trivia children in
      ret (Continue children)
    else ret (Break children)) children in
  let* children := push_expect T_RBrace children in
  ret (Node_new N_ExprHandle children).

Definition parse_array_expr : P Node :=
  let* children := collect_trivia [] in
  let* children := push_expect T_LBracket children in
  let* children := loop fuel (fun children =>
    let* more := not_at_close T_RBracket in
    if more then
      let* children := collect_trivia children in
      let* more := not_at_close T_RBracket in
      if more then
        let* children := push_node (rec (CExprBp 0)) children in
        let* children := collect_trivia children in
        let* semicolon := at_kind T_Semicolon in
        if semicolon then
          let* children := push_bump children in
          let* children := collect_trivia children in
          let* k := current_non_trivia_kind in
          let* children :=
            match k with
            | Some T_Ident => push_expect T_Ident children
            | _ => push_expect T_Integer children
            end in
          let* children := collect_trivia children in
          ret (Break children)
        else
          let* comma := at_kind T_Comma in
          if comma then
            let* children := push_bump children in ret (Continue children)
          else ret (Break children)
      else ret (Break children)
    else ret (Break children)) children in
  let* children := push_expect T_RBracket children in
  ret (Node_new N_ExprArray children).

(** ** Primary, prefix, postfix and binary expressions *)

(** One literal token after trivia, as a node of the given kind. *)
Definition literal_expr (token : TokenKind) (kind : NodeKind) : P Node :=
  let* children := collect_trivia [] in
  let* children := push_expect token children in
  ret (Node_new kind children).

Definition parse_negative_literal : P Node :=
  let* children := collect_trivia [] in
  let* children := push_expect T_Minus children in
  let* children := collect_trivia children in
  let* k := current_non_trivia_kind in
  match k with
  | Some T_Integer =>
      let* children := push_expect T_Integer children in ret (Node_new N_ExprInteger children)
  | Some T_Float =>
      let* children := push_expect T_Float children in ret (Node_new N_ExprFloat children)
  | _ => parse_error_expr
  end.

Definition parse_bool_literal : P Node :=
  let* children := collect_trivia [] in
  let* k := current_non_trivia_kind in
  match k with
  | Some kind =>
      let* children := push_expect kind children in ret (Node_new N_ExprBool children)
  | None => panic
  end.

Definition parse_name_expr : P Node :=
  let* children := collect_trivia [] in
  let* token := expect T_Ident in
  let lexeme := tok_lexeme token in
  let looks_like_type_name := starts_uppercase lexeme in
  let children := children ++ [Element_Token token] in
  if String.eqb lexeme "result" then ret (Node_new N_ExprContractResult children)
  else
    let* record := starts_record_literal tokens in
    if looks_like_type_name && record then
      let* children := collect_trivia children in
      let* children := push_expect T_LBrace children in
      let* children := push_node parse_field_init_list children in
      let* children := collect_trivia children in
      let* children := push_expect T_RBrace children in
      ret (Node_new N_ExprRecord children)
    else ret (Node_new N_ExprName children).

Definition parse_group_expr : P Node :=
  let* children := collect_trivia [] in
  let* children := push_expect T_LParen children in
  let* children := collect_trivia children in
  let* children := push_node (rec (CExprBp 0)) children in
  let* children := collect_trivia children in
  let* children := push_expect T_RParen children in
  ret (Node_new N_ExprGroup children).

Definition parse_primary_expr : P Node :=
  let* k := current_non_trivia_kind in
  match k with
  | Some T_KwIf => parse_if_expr
  | Some T_KwMatch => parse_match_expr
  | Some T_KwRepeat => parse_repeat_expr
  | Some T_KwFor => parse_for_expr
  | Some T_KwWhile => parse_while_expr
  | Some T_KwPerform => parse_perform_expr
  | Some T_KwComptime => parse_comptime_expr
  | Some T_KwHandle => parse_handle_expr
  | Some T_LBracket => parse_array_expr
  | Some T_Integer => literal_expr T_Integer N_ExprInteger
  | Some T_Float => literal_expr T_Float N_ExprFloat
  | Some T_Minus =>
      let* numeric := next_non_trivia_kind_is_numeric_literal tokens in
      if numeric then parse_negative_literal else parse_error_expr
  | Some T_String => literal_expr T_String N_ExprString
  | Some T_KwTrue | Some T_KwFalse => parse_bool_literal
  | Some T_Ident => parse_name_expr
  | Some T_LParen => parse_group_expr
  | Some _ => parse_error_expr
  | None => let* offset := current_offset in ret (Node_empty N_Error offset)
  end.

Definition parse_prefix_expr : P Node :=
  let* k := current_non_trivia_kind in
  match k with
  | Some T_KwNot =>
      let* children := collect_trivia [] in
      let* children := push_expect T_KwNot children in
      let* children := collect_trivia children in
      let* children := push_node (rec CPostfix) children in
      ret (Node_new N_ExprUnary children)
  | _ => parse_primary_expr
  end.

Definition postfix_call (expr : Node) : P Node :=
  let* children := collect_trivia [Element_Node expr] in
  let* children := push_expect T_LParen children in
  let* children := push_node parse_arg_list children in
  let* children := push_expect T_RParen children in
  ret (Node_new N_ExprCall children).

Definition postfix_field (expr : Node) : P Node :=
  let* children := collect_trivia [Element_Node expr] in
  let* children := push_expect T_Dot children in
  let* children := collect_trivia children in
  let* children := push_expect T_Ident children in
  ret (Node_new N_ExprField children).

Definition postfix_index (expr : Node) : P Node :=
  let* children := collect_trivia [Element_Node expr] in
  let* children := push_expect T_LBracket children in
  let* children := collect_trivia children in
  let* children := push_node (rec (CExprBp 0)) children in
  let* children := collect_trivia children in
  let* children := push_expect T_RBracket children in
  ret (Node_new N_ExprIndex children).

Definition postfix_with (expr : Node) : P Node :=
  let* children := collect_trivia [Element_Node expr] in
  let* children := push_expect T_KwWith children in
  let* children := collect_trivia children in
  let* children := push_expect T_LBrace children in
  let* children := collect_trivia children in
  let* children := push_node parse_field_update_list children in
  let* children := collect_trivia children in
  let* children := push_expect T_RBrace children in
  ret (Node_new N_ExprRecordUpdate children).

Definition parse_postfix_expr : P Node :=
  let* expr := parse_prefix_expr in
  loop fuel (fun expr =>
    let* call := peek_trivia_then T_LParen in
    if call then let* expr := postfix_call expr in ret (Continue expr) else
    let* dot := peek_trivia_then T_Dot in
    if dot then let* expr := postfix_field expr in ret (Continue expr) else
    let* bracket := peek_trivia_then T_LBracket in
    if bracket then let* expr := postfix_index expr in ret (Continue expr) else
    let* with_ := peek_trivia_then T_KwWith in
    if with_ then let* expr := postfix_with expr in ret (Continue expr) else
    ret (Break expr)) expr.

Definition parse_expr_bp (min_bp : nat) : P Node :=
  let* lhs := parse_postfix_expr in
  loop fuel (fun lhs =>
    let* k := peek_non_trivia_kind tokens in
    match k with
    | None => ret (Break lhs)
    | Some op_kind =>
        match infix_binding_power op_kind with
        | None => ret (Break lhs)
        | Some (left_bp, right_bp) =>
            if left_bp <? min_bp then ret (Break lhs)
            else
              let* children := collect_trivia [Element_Node lhs] in
              let* children := push_expect op_kind children in
              let* children := collect_trivia children in
              let* children := push_node (rec (CExprBp right_bp)) children in
              ret (Continue (Node_new N_ExprBinary children))
        end
    end) lhs.

(** ** Statements and bodies *)

Definition parse_tuple_destructure_pattern (children : list Element) : P (list Element) :=
  let* children := push_expect T_LParen children in
  let* children := collect_trivia children in
  let* children := loop fuel (fun children =>
    let* children := push_expect T_Ident children in
    let* children := collect_trivia children in
    let* comma := at_kind T_Comma in
    if comma then
      let* children := push_bump children in
      let* children := collect_trivia children in
      ret (Continue children)
    else ret (Break children)) children in
  push_expect T_RParen children.

Definition parse_let_stmt : P Node :=
  let* children := push_expect T_KwLet [] in
  let* children := collect_trivia children in
  let* mut := at_kind T_KwMut in
  let* children :=
    (if mut then let* children := push_bump children in collect_trivia children
    else ret children) in
  let* tuple := at_kind T_LParen in
  let* children :=
    (if tuple then parse_tuple_destructure_pattern children
    else
      let* ident := at_kind T_Ident in
      let* underscore := at_kind T_Underscore in
      if ident || underscore then push_bump children else push_expect T_Ident children) in
  let* children := collect_trivia children in
  let* children := push_expect T_Eq children in
  let* children := collect_trivia children in
  let* children := push_node (rec (CExprBp 0)) children in
  let* children := collect_trivia children in
  let* children := push_expect T_Semicolon children in
  ret (Node_new N_LetStmt children).

Definition parse_assign_target_expr : P Node :=
  let* children := collect_trivia [] in
  let* children := push_expect T_Ident children in
  let expr := Node_new N_ExprName children in
  loop fuel (fun expr =>
    let* dot := peek_trivia_then T_Dot in
    if dot then let* expr := postfix_field expr in ret (Continue expr) else
    let* bracket := peek_trivia_then T_LBracket in
    if bracket then let* expr := postfix_index expr in ret (Continue expr) else
    ret (Break expr)) expr.

Definition expect_assign_op : P Token :=
  let* k := current_non_trivia_kind in
  match k with
  | Some T_PlusEq => expect T_PlusEq
  | Some T_MinusEq => expect T_MinusEq
  | Some T_StarEq => expect T_StarEq
  | Some T_SlashEq => expect T_SlashEq
  | _ => expect T_Eq
  end.

Definition parse_assign_stmt : P Node :=
  let* children := push_node parse_assign_target_expr [] in
  let* children := collect_trivia children in
  let* op := expect_assign_op in
  let* children := collect_trivia (children ++ [Element_Token op]) in
  let* children := push_node (rec (CExprBp 0)) children in
  let* children := collect_trivia children in
  let* children := push_expect T_Semicolon children in
  ret (Node_new N_AssignStmt children).

Definition parse_expr_stmt : P Node :=
  let* children := push_node (rec (CExprBp 0)) [] in
  let* children := collect_trivia children in
  let* children := push_expect T_Semicolon children in
  ret (Node_new N_ExprStmt children).

Definition parse_with_arena_stmt : P Node :=
  let* children := push_bump [] in
  let* children := collect_trivia children in
  let* children := push_node (rec CExprBody) children in
  ret (Node_new N_WithArenaStmt children).

(** [self.tokens[self.cursor].lexeme == "with_arena"] *)
Definition at_with_arena : P bool := fun s =>
  match tokens !! cursor s with
  | Some t => POk (String.eqb (tok_lexeme t) "with_arena") s
  | None => PPanic
  end.

(** The [match] that picks the next statement of a body, if there is one. *)
Definition parse_statement : P (option Node) :=
  let* k := current_non_trivia_kind in
  let expr_statement (kind : TokenKind) : P (option Node) :=
    if starts_expr kind then
      let* is_stmt := next_expr_is_statement tokens in
      if is_stmt then let* n := parse_expr_stmt in ret (Some n) else ret None
    else ret None in
  match k with
  | Some T_KwLet => let* n := parse_let_stmt in ret (Some n)
  | Some T_Ident =>
      let* arena := at_with_arena in
      if arena then let* n := parse_with_arena_stmt in ret (Some n)
      else
        let* assign := next_name_is_assign_statement tokens in
        if assign then let* n := parse_assign_stmt in ret (Some n)
        else expr_statement T_Ident
  | Some kind => expr_statement kind
  | None => ret None
  end.

Definition parse_body_tail : list Element -> P (list Element) :=
  loop fuel (fun children =>
    let* more := not_at_close T_RBrace in
    if more then
      let* token := bump in
      let* _ := push_diagnostic (Diagnostic_new "parse.unexpected-token"
        ("unexpected token `" ++ TokenKind_debug (tok_kind token) ++ "` in function body")%string
        (tok_span token)
        (Some "This stage-0 body grammar accepts zero or more `let`/assignment/unit-expression statements followed by one optional tail expression."%string)) in
      let* children := collect_trivia (children ++ [Element_Token token]) in
      ret (Continue children)
    else ret (Break children)).

Definition parse_expr_body : P Node :=
  let* children := push_expect T_LBrace [] in
  let* children := collect_trivia children in
  let* children := loop fuel (fun children =>
    let* statement := parse_statement in
    match statement with
    | None => ret (Break children)
    | Some statement =>
        let* children := collect_trivia (children ++ [Element_Node statement]) in
        ret (Continue children)
    end) children in
  let* more := not_at_close T_RBrace in
  let* children :=
    (if more then
      let* children := push_node (rec (CExprBp 0)) children in
      let* children := collect_trivia children in
      parse_body_tail children
    else ret children) in
  let* children := push_expect T_RBrace children in
  ret (Node_new N_Body children).

(** One step of the recursion. *)
Definition dispatch (c : Call) : P Node :=
  match c with
  | CType => parse_type
  | CExprBp min_bp => parse_expr_bp min_bp
  | CPostfix => parse_postfix_expr
  | CIf => parse_if_expr
  | CExprBody => parse_expr_body
  end.
End Grammar.

Fixpoint run (tokens : list Token) (fuel : nat) (c : Call) : P Node :=
  match fuel with
  | 0 => out_of_fuel
  | S n => dispatch tokens n (run tokens n) c
  end.

(** ** Items *)
Section Items.
Context (tokens : list Token) (fuel : nat).

#[local] Abbreviation rec := (run tokens fuel).
#[local] Abbreviation at_kind := (at_kind tokens).
#[local] Abbreviation push_expect := (push_expect tokens fuel).
#[local] Abbreviation push_bump := (push_bump tokens).
#[local] Abbreviation collect_trivia := (collect_trivia tokens fuel).
#[local] Abbreviation comma_list := (comma_list tokens fuel).
#[local] Abbreviation current_offset := (current_offset tokens).

(** [self.parse_type()] and [self.parse_expr_bp(0)] *)
Definition item_type : P Node := rec CType.
Definition item_expr : P Node := rec (CExprBp 0).

Definition parse_const_item : P Node :=
  let* children := push_expect T_KwConst [] in
  let* children := collect_trivia children in
  let* children := push_expect T_Ident children in
  let* children := collect_trivia children in
  let* children := push_expect T_Colon children in
  let* children := collect_trivia children in
  let* children := push_node item_type children in
  let* children := collect_trivia children in
  let* children := push_expect T_Eq children in
  let* children := collect_trivia children in
  let* children := push_node item_expr children in
  let* children := collect_trivia children in
  let* semicolon := at_kind T_Semicolon in
  if semicolon then
    let* children := push_bump children in ret (Node_new N_ConstItem children)
  else ret (Node_new N_ConstItem children).

Definition parse_import_item : P Node :=
  let* children := push_expect T_KwFrom [] in
  let* children := collect_trivia children in
  let* children := push_expect T_Ident children in
  let* children := collect_trivia children in
  let* children := push_expect T_KwImport children in
  let* children := collect_trivia children in
  let* children := push_expect T_Ident children in
  let* children := collect_trivia children in
  let* children := loop fuel (fun children =>
    let* comma := at_kind T_Comma in
    if comma then
      let* children := push_bump children in
      let* children := collect_trivia children in
      let* children := push_expect T_Ident children in
      let* children := collect_trivia children in
      ret (Continue children)
    else ret (Break children)) children in
  let* semicolon := at_kind T_Semicolon in
  if semicolon then
    let* children := push_bump children in ret (Node_new N_ImportItem children)
  else ret (Node_new N_ImportItem children).

Definition parse_generic_param : P Node :=
  let* param_children := push_expect T_Ident [] in
  let* param_children := collect_trivia param_children in
  let* colon := at_kind T_Colon in
  if colon then
    let* param_children := push_bump param_children in
    let* param_children := collect_trivia param_children in
    let* param_children := push_expect T_Ident param_children in
    let* param_children := collect_trivia param_children in
    ret (Node_new N_GenericParam param_children)
  else ret (Node_new N_GenericParam param_children).

Definition parse_generic_params : P Node :=
  let* children := push_expect T_LBracket [] in
  let* children := collect_trivia children in
  let* empty := at_kind T_RBracket in
  let* children :=
    (if empty then ret children
    else
      loop fuel (fun children =>
        let* children := push_node parse_generic_param children in
        let* comma := at_kind T_Comma in
        if comma then
          let* children := push_bump children in
          let* children := collect_trivia children in
          ret (Continue children)
        else ret (Break children)) children) in
  let* children := push_expect T_RBracket children in
  ret (Node_new N_GenericParamList children).

Definition parse_param : P Node :=
  let* children := push_expect T_Ident [] in
  let* children := collect_trivia children in
  let* children := push_expect T_Colon children in
  let* children := collect_trivia children in
  let* children := push_node item_type children in
  ret (Node_new N_Param children).

Definition parse_param_list : P Node :=
  let* offset := current_offset in
  let* children := comma_list T_RParen (push_node parse_param) [] in
  ret (list_node N_ParamList offset children).

Definition parse_effect_list : P Node :=
  let* offset := current_offset in
  let* effects := comma_list T_RBracket (push_expect T_Ident) [] in
  ret (list_node N_EffectList offset effects).

Definition parse_effects_clause : P Node :=
  let* children := push_expect T_KwEffects [] in
  let* children := collect_trivia children in
  let* children := push_expect T_LBracket children in
  let* children := push_node parse_effect_list children in
  let* children := push_expect T_RBracket children in
  ret (Node_new N_EffectsClause children).

(** One field of a struct. *)
Definition parse_field : P Node :=
  let* field_children := push_expect T_Ident [] in
  let* field_children := collect_trivia field_children in
  let* field_children := push_expect T_Colon field_children in
  let* field_children := collect_trivia field_children in
  let* field_children := push_node item_type field_children in
  ret (Node_new N_Field field_children).

Definition parse_field_list : P Node :=
  let* offset := current_offset in
  let* children := comma_list T_RBrace (push_node parse_field) [] in
  ret (list_node N_FieldList offset children).

(** One variant of an enum, with its payload type and discriminant. *)
Definition parse_variant : P Node :=
  let* variant_children := push_expect T_Ident [] in
  let* variant_children := collect_trivia variant_children in
  let* paren := at_kind T_LParen in
  let* variant_children :=
    (if paren then
      let* variant_children := push_bump variant_children in
      let* variant_children := collect_trivia variant_children in
      let* variant_children := push_node item_type variant_children in
      let* variant_children := collect_trivia variant_children in
      push_expect T_RParen variant_children
    else ret variant_children) in
  let* variant_children := collect_trivia variant_children in
  let* eq := at_kind T_Eq in
  if eq then
    let* variant_children := push_bump variant_children in
    let* variant_children := collect_trivia variant_children in
    let* variant_children := push_node item_expr variant_children in
    ret (Node_new N_Variant variant_children)
  else ret (Node_new N_Variant variant_children).

Definition parse_variant_list : P Node :=
  let* offset := current_offset in
  let* children := comma_list T_RBrace (push_node parse_variant) [] in
  ret (list_node N_VariantList offset children).

Definition parse_enum_item : P Node :=
  let* children := push_expect T_KwEnum [] in
  let* children := collect_trivia children in
  let* children := push_expect T_Ident children in
  let* children := collect_trivia children in
  let* children := push_expect T_LBrace children in
  let* children := push_node parse_variant_list children in
  let* children := push_expect T_RBrace children in
  ret (Node_new N_EnumItem children).

Definition parse_struct_item : P Node :=
  let* children := push_expect T_KwStruct [] in
  let* children := collect_trivia children in
  let* children := push_expect T_Ident children in
  let* children := collect_trivia children in
  let* children := push_expect T_LBrace children in
  let* children := push_node parse_field_list children in
  let* children := push_expect T_RBrace children in
  ret (Node_new N_StructItem children).

Definition parse_contract_clause (keyword : TokenKind) (kind : NodeKind) : P Node :=
  let* children := push_expect keyword [] in
  let* children := collect_trivia children in
  let* children := push_node item_expr children in
  ret (Node_new kind children).

(** The [-> type] of a signature. *)
Definition parse_return_type (children : list Element) : P (list Element) :=
  let* arrow := at_kind T_Arrow in
  if arrow then
    let* return_children := push_bump [] in
    let* return_children := collect_trivia return_children in
    let* return_children := push_node item_type return_children in
    ret (children ++ [Element_Node (Node_new N_ReturnType return_children)])
  else ret children.

(** The bodiless [fn] of an [effect] or [extern] block. *)
Definition parse_method : P Node :=
  let* method_children := push_bump [] in
  let* method_children := collect_trivia method_children in
  let* method_children := push_expect T_Ident method_children in
  let* method_children := collect_trivia method_children in
  let* method_children := push_expect T_LParen method_children in
  let* method_children := push_node parse_param_list method_children in
  let* method_children := push_expect T_RParen method_children in
  let* method_children := collect_trivia method_children in
  let* method_children := parse_return_type method_children in
  let* method_children := collect_trivia method_children in
  let* method_children := push_expect T_Semicolon method_children in
  ret (Node_new N_FnItem method_children).

Definition parse_methods : list Element -> P (list Element) :=
  loop fuel (fun children =>
    let* fn := at_kind T_KwFn in
    if fn then
      let* children := push_node parse_method children in
      let* children := collect_trivia children in
      ret (Continue children)
    else ret (Break children)).

Definition parse_effect_item : P Node :=
  let* children := push_expect T_KwEffect [] in
  let* children := collect_trivia children in
  let* children := push_expect T_Ident children in
  let* children := collect_trivia children in
  let* children := push_expect T_LBrace children in
  let* children := collect_trivia children in
  let* children := parse_methods children in
  let* children := push_expect T_RBrace children in
  ret (Node_new N_EffectItem children).

Definition parse_extern_block : P Node :=
  let* children := push_expect T_KwExtern [] in
  let* children := collect_trivia children in
  let* children := push_expect T_LBrace children in
  let* children := collect_trivia children in
  let* children := parse_methods children in
  let* children := push_expect T_RBrace children in
  ret (Node_new N_ExternBlock children).

Definition parse_inline_expr_body : P Node :=
  let* children := push_expect T_Eq [] in
  let* children := collect_trivia children in
  let* children := push_node item_expr children in
  let* children := collect_trivia children in
  let* children := push_expect T_Semicolon children in
  ret (Node_new N_Body children).

Definition parse_fn_item : P Node :=
  let* children := push_expect T_KwFn [] in
  let* children := collect_trivia children in
  let* children := push_expect T_Ident children in
  let* children := collect_trivia children in
  let* generic := at_kind T_LBracket in
  let* children :=
    (if generic then
      let* children := push_node parse_generic_params children in
      collect_trivia children
    else ret children) in
  let* children := push_expect T_LParen children in
  let* children := push_node parse_param_list children in
  let* children := push_expect T_RParen children in
  let* children := collect_trivia children in
  let* children := parse_return_type children in
  let* children := collect_trivia children in
  let* effects := at_kind T_KwEffects in
  let* children := (if effects then push_node parse_effects_clause children else ret children) in
  let* children := collect_trivia children in
  let* requires := at_kind T_KwRequires in
  let* children :=
    (if requires then push_node (parse_contract_clause T_KwRequires N_RequiresClause) children
    else ret children) in
  let* children := collect_trivia children in
  let* ensures := at_kind T_KwEnsures in
  let* children :=
    (if ensures then push_node (parse_contract_clause T_KwEnsures N_EnsuresClause) children
    else ret children) in
  let* children := collect_trivia children in
  let* inline := at_kind T_Eq in
  let* children :=
    (if inline then push_node parse_inline_expr_body children
    else push_node (rec CExprBody) children) in
  ret (Node_new N_FnItem children).

(** ** The source file *)

(** The [pub] and [#[repr]] modifiers before an item. *)
Definition parse_modifiers : P (list Element) :=
  let* attr := at_kind T_AttrRepr in
  let* modifiers :=
    (if attr then let* modifiers := push_bump [] in collect_trivia modifiers else ret []) in
  let* pub := at_kind T_KwPub in
  if pub then let* modifiers := push_bump modifiers in collect_trivia modifiers
  else ret modifiers.

(** The item the current token starts, if it starts one. *)
Definition parse_item : P (option Node) :=
  let* t := current tokens in
  let item (m : P Node) : P (option Node) := let* n := m in ret (Some n) in
  match tok_kind t with
  | T_KwEnum => item parse_enum_item
  | T_KwStruct => item parse_struct_item
  | T_KwEffect => item parse_effect_item
  | T_KwExtern => item parse_extern_block
  | T_KwConst => item parse_const_item
  | T_KwFn => item parse_fn_item
  | T_KwFrom => item parse_import_item
  | _ => ret None
  end.

(** [modifiers] put in front of the children of the item. *)
Definition with_modifiers (modifiers : list Element) (n : Node) : Node :=
  match modifiers with
  | [] => n
  | _ => Node_new (node_kind n) (modifiers ++ node_children n)
  end.

Definition parse_items : list Element -> P (list Element) :=
  loop fuel (fun children =>
    let* modifiers := parse_modifiers in
    let* node := parse_item in
    match node with
    | None => ret (Break (children ++ modifiers))
    | Some node =>
        let* children :=
          collect_trivia (children ++ [Element_Node (with_modifiers modifiers node)]) in
        ret (Continue children)
    end).

Definition parse_source_file : P Node :=
  let* children := collect_trivia [] in
  let* children := parse_items children in
  let* eof := at_kind T_Eof in
  let* children :=
    (if eof then ret children
    else
      let* token := bump tokens in
      let* _ := push_diagnostic (Diagnostic_new "parse.out-of-order-item"
        ("unexpected token `" ++ TokenKind_debug (tok_kind token)
         ++ "`: expected a top-level item (pub, enum, struct, effect, extern, const, fn)")%string
        (tok_span token)
        (Some "Move this item to its canonical section."%string)) in
      ret (children ++ [Element_Token token])) in
  let* eof := at_kind T_Eof in
  let* children := (if eof then push_bump children else ret children) in
  ret (Node_new N_SourceFile children).
End Items.

Record ParseOutput := mkParseOutput { root : Node; parse_diagnostics : list Diagnostic }.

(** The three ways a call of [parse] ends. *)
Inductive ParseResult :=
  | Parsed (output : ParseOutput)
  | ParseRunning
  | ParsePanicked.

Definition parse (fuel : nat) (tokens : list Token) : ParseResult :=
  match parse_source_file tokens fuel (mkPState 0 []) with
  | POk n s => Parsed (mkParseOutput n (diagnostics s))
  | PFuel => ParseRunning
  | PPanic => ParsePanicked
  end.
