(* ===== verification/ParserWp.v ===== *)
(** * A program logic for the parser

    A weakest precondition for the parser monad, over token slices of the
    shape the lexer produces, and the rules of the cursor operations.  The
    assertion the rules speak of is [built]: the children pushed since a state
    are, token for token, the source between the two cursors. *)
From S2P Require Import Prelude Syntax Parser.

(** ** Token slices the lexer produces *)

(** A token that stands for source text; [expect] makes up tokens with an
    empty lexeme, and the end-of-file token has one. *)
Definition real (t : Token) : bool := negb (String.eqb (tok_lexeme t) "").

(** The tokens of a list that stand for source text. *)
Definition reals (l : list Token) : list Token := List.filter real l.

Record wf_tokens (tokens : list Token) : Prop := {
  wf_last : exists eof, last tokens = Some eof /\ tok_kind eof = T_Eof /\ real eof = false;
  wf_body : forall i t, tokens !! i = Some t -> S i < length tokens ->
              tok_kind t <> T_Eof /\ real t = true
}.

Lemma reals_app l1 l2 : reals (l1 ++ l2) = reals l1 ++ reals l2.
Proof. apply List.filter_app. Qed.

Lemma reals_true t : real t = true -> reals (leaves [Element_Token t]) = [t].
Proof. intros H. unfold reals. cbn. by rewrite H. Qed.

Lemma reals_false t : real t = false -> reals (leaves [Element_Token t]) = [].
Proof. intros H. unfold reals. cbn. by rewrite H. Qed.

(** ** Well-grouped binary expressions *)

(** The operator of a binary node: its first token child that is one. *)
Fixpoint first_infix (es : list Element) : option TokenKind :=
  match es with
  | [] => None
  | Element_Token t :: es' =>
      match infix_binding_power (tok_kind t) with
      | Some _ => Some (tok_kind t)
      | None => first_infix es'
      end
  | Element_Node _ :: es' => first_infix es'
  end.

Definition binary_op (n : Node) : option TokenKind :=
  if decide (node_kind n = N_ExprBinary) then first_infix (node_children n) else None.

Definition trivia_element (e : Element) : Prop :=
  match e with
  | Element_Token t => is_trivia (tok_kind t) = true
  | Element_Node _ => False
  end.

(** Every binary node has an operator between two operands; an operand that
    is itself a binary node on the left binds at least as tight to its right as
    the operator does to its left, and one on the right binds tighter. *)
Inductive grouped : Node -> Prop :=
  | grouped_other k sp es :
      k <> N_ExprBinary -> Forall grouped_element es -> grouped (mkNode k sp es)
  | grouped_binary sp lhs tr1 op tr2 rhs l r :
      grouped lhs -> grouped rhs ->
      Forall trivia_element tr1 -> Forall trivia_element tr2 ->
      infix_binding_power (tok_kind op) = Some (l, r) ->
      (forall o l' r', binary_op lhs = Some o -> infix_binding_power o = Some (l', r') -> l < r') ->
      (forall o l' r', binary_op rhs = Some o -> infix_binding_power o = Some (l', r') -> r <= l') ->
      grouped (mkNode N_ExprBinary sp
        (Element_Node lhs :: tr1 ++ Element_Token op :: tr2 ++ [Element_Node rhs]))
with grouped_element : Element -> Prop :=
  | grouped_token t : grouped_element (Element_Token t)
  | grouped_node n : grouped n -> grouped_element (Element_Node n).

#[export] Hint Constructors grouped_element : sarif.

(** ** The logic *)
Section Wp.
(** [T]: may the computation still be running when the fuel is used up? *)
Context (tokens : list Token) (T : Prop).

Definition wp {A} (m : P A) (s : PState) (Q : A -> PState -> Prop) : Prop :=
  match m s with
  | POk a s' => Q a s'
  | PFuel => T
  | PPanic => False
  end.

(** The source between two states is what the children [es] hold; if no
    diagnostic was added, the children hold nothing else, unless [E]. *)
Record built (E : Prop) (s0 : PState) (es : list Element) (s : PState) : Prop := {
  built_le : cursor s0 <= cursor s;
  built_lt : cursor s < length tokens;
  built_real : reals (leaves es)
                 = slice tokens (cursor s0) (cursor s);
  built_diag : exists ds, diagnostics s = diagnostics s0 ++ ds /\
                 (ds = [] -> E \/ Forall (fun t => real t = true) (leaves es));
  built_grouped : Forall grouped_element es
}.

Definition node_ok (s : PState) (n : Node) (s' : PState) : Prop :=
  built False s [Element_Node n] s'.

Definition kind_at (s : PState) : TokenKind :=
  match tokens !! cursor s with
  | Some t => tok_kind t
  | None => T_Eof
  end.

(** The kind of the next token that is not trivia. *)
Definition next_kind (s : PState) : option TokenKind :=
  option_map tok_kind (head (skip_trivia (drop (cursor s) tokens))).

Definition nontriv (s : PState) : Prop := is_trivia (kind_at s) = false.

Definition left_ (s : PState) : nat := length tokens - cursor s.

(** ** Structural rules *)

Lemma wp_ret {A} (a : A) s (Q : A -> PState -> Prop) : Q a s -> wp (ret a) s Q.
Proof. done. Qed.

Lemma wp_bind {A B} (m : P A) (f : A -> P B) s Q :
  wp m s (fun a s' => wp (f a) s' Q) -> wp (bind m f) s Q.
Proof. unfold wp, bind. by destruct (m s). Qed.

Lemma wp_push_diagnostic d s (Q : unit -> PState -> Prop) :
  Q tt (mkPState (cursor s) (diagnostics s ++ [d])) -> wp (push_diagnostic d) s Q.
Proof. done. Qed.

Lemma wp_mono {A} (m : P A) s (Q R : A -> PState -> Prop) :
  wp m s Q -> (forall a s', Q a s' -> R a s') -> wp m s R.
Proof. unfold wp. destruct (m s); eauto. Qed.

Lemma wp_cut {A B} (R : A -> PState -> Prop) (m : P A) (f : A -> P B) s Q :
  wp m s R -> (forall a s', R a s' -> wp (f a) s' Q) -> wp (bind m f) s Q.
Proof. intros Hm Hf. apply wp_bind. eapply wp_mono; [exact Hm | exact Hf]. Qed.

(** A loop that advances the cursor on every round. *)
Lemma wp_loop {A B} (I : A -> PState -> Prop) (Q : B -> PState -> Prop)
    (body : A -> P (Flow A B)) fuel a s :
  (T \/ left_ s < fuel) ->
  (forall a s, I a s -> cursor s < length tokens) ->
  (forall a s1, I a s1 ->
     wp (body a) s1 (fun r s2 =>
       match r with
       | Continue a' => I a' s2 /\ (T \/ cursor s1 < cursor s2)
       | Break b => Q b s2
       end)) ->
  I a s -> wp (loop fuel body a) s Q.
Proof.
  intros Hfuel Hlt Hbody. revert a s Hfuel.
  induction fuel as [|n IH]; intros a s Hfuel HI.
  - destruct Hfuel; [done | lia].
  - cbn [loop]. apply wp_bind. eapply wp_mono; [exact (Hbody a s HI)|].
    intros [a'|b] s2; [|done]. intros [HI' Hprog]. apply IH; [|done].
    pose proof (Hlt _ _ HI). pose proof (Hlt _ _ HI'). unfold left_ in *.
    destruct Hfuel; [by left|]. destruct Hprog; [by left | right; lia].
Qed.

(** A loop with invariant [I], whose exits satisfy [R]. *)
Lemma wp_while {A B C} (I : A -> PState -> Prop) (R : B -> PState -> Prop)
    (Q : C -> PState -> Prop) (body : A -> P (Flow A B)) (k : B -> P C) fuel a s :
  T \/ left_ s < fuel ->
  (forall a s, I a s -> cursor s < length tokens) ->
  I a s ->
  (forall a s1, I a s1 ->
     wp (body a) s1 (fun r s2 =>
       match r with
       | Continue a' => I a' s2 /\ (T \/ cursor s1 < cursor s2)
       | Break b => R b s2
       end)) ->
  (forall b s2, R b s2 -> wp (k b) s2 Q) ->
  wp (bind (loop fuel body a) k) s Q.
Proof.
  intros Hf Hlt Hi Hbody Hk. apply (wp_cut R); [|done].
  by apply (wp_loop I).
Qed.

(** ** Facts about [built] *)

Lemma built_nil s : cursor s < length tokens -> built False s [] s.
Proof.
  intros H. split; auto.
  - by rewrite slice_nil.
  - exists []. rewrite app_nil_r. split; auto.
Qed.

Lemma built_app E s0 es1 s1 es2 s2 :
  built False s0 es1 s1 -> built E s1 es2 s2 -> built E s0 (es1 ++ es2) s2.
Proof.
  intros [Hle1 Hlt1 Hr1 (ds1 & Hd1 & Hc1) Hg1] [Hle2 Hlt2 Hr2 (ds2 & Hd2 & Hc2) Hg2].
  split.
  - lia.
  - done.
  - by rewrite leaves_app, reals_app, Hr1, Hr2, slice_app.
  - exists (ds1 ++ ds2). split; [by rewrite Hd2, Hd1, app_assoc|].
    intros [-> ->]%app_nil. destruct (Hc2 eq_refl) as [?|Hf2]; [by left|].
    destruct (Hc1 eq_refl) as [[]|Hf1]. right.
    rewrite leaves_app. by apply Forall_app.
  - by apply Forall_app.
Qed.

Lemma built_node E s0 k es s :
  k <> N_ExprBinary -> built E s0 es s -> built E s0 [Element_Node (Node_new k es)] s.
Proof.
  intros Hk [Hle Hlt Hr Hd Hg].
  assert (leaves [Element_Node (Node_new k es)] = leaves es) as Hl
    by (cbn; by rewrite app_nil_r).
  split; rewrite ?Hl; auto.
  repeat constructor; auto.
Qed.

Lemma built_weaken (E E' : Prop) s0 es s : (E -> E') -> built E s0 es s -> built E' s0 es s.
Proof.
  intros HE [? ? ? (ds & Hd & Hc) ?]. split; auto. exists ds. split; auto.
  intros Hnil. destruct (Hc Hnil); auto.
Qed.

Lemma built_list_node s0 k off es s :
  k <> N_ExprBinary -> built False s0 es s ->
  built False s0 [Element_Node (list_node k off es)] s.
Proof.
  intros Hk Hb. destruct es as [|e es]; [|by apply built_node].
  destruct Hb as [? ? Hr Hd Hg]. split; auto. repeat constructor; auto.
Qed.
End Wp.

(** ** The cursor operations over a well-formed slice *)
Section Cursor.
Context (tokens : list Token) (WF : wf_tokens tokens) (T : Prop) (fuel : nat).

#[local] Abbreviation wp := (wp T).
#[local] Abbreviation built := (built tokens).
#[local] Abbreviation kind_at := (kind_at tokens).
#[local] Abbreviation next_kind := (next_kind tokens).
#[local] Abbreviation nontriv := (nontriv tokens).
#[local] Abbreviation left_ := (left_ tokens).
#[local] Abbreviation inv s := (cursor s < length tokens).

Lemma lookup_inv s : inv s -> exists t, tokens !! cursor s = Some t /\ kind_at s = tok_kind t.
Proof.
  intros H. destruct (lookup_lt_is_Some_2 tokens (cursor s) H) as [t Ht].
  exists t. unfold ParserWp.kind_at. by rewrite Ht.
Qed.

Lemma tokens_last_kind i t :
  tokens !! i = Some t -> S i = length tokens -> tok_kind t = T_Eof /\ real t = false.
Proof.
  intros Hi Hlen. destruct (wf_last _ WF) as (eof & Hlast & Hk & Hr).
  rewrite last_lookup in Hlast. replace (pred (length tokens)) with i in Hlast by lia.
  rewrite Hi in Hlast. by injection Hlast as ->.
Qed.

(** A position whose token is not the end of file is not the last one. *)
Lemma not_eof_lt s : inv s -> kind_at s <> T_Eof -> S (cursor s) < length tokens.
Proof.
  intros Hs Hk. destruct (lookup_inv s Hs) as (t & Ht & Hkt).
  destruct (decide (S (cursor s) = length tokens)) as [Hl|]; [|lia].
  destruct (tokens_last_kind _ _ Ht Hl) as [He _]. congruence.
Qed.

Lemma eof_last s : inv s -> kind_at s = T_Eof -> S (cursor s) = length tokens.
Proof.
  intros Hs Hk. destruct (lookup_inv s Hs) as (t & Ht & Hkt).
  destruct (decide (S (cursor s) < length tokens)) as [Hl|]; [|lia].
  destruct (wf_body _ WF _ _ Ht Hl). congruence.
Qed.

Lemma trivia_not_eof s : is_trivia (kind_at s) = true -> kind_at s <> T_Eof.
Proof. intros H E. by rewrite E in H. Qed.

(** One more real token. *)
Lemma built_step s0 es s t :
  built False s0 es s -> tokens !! cursor s = Some t -> kind_at s <> T_Eof ->
  forall ds, built False s0 (es ++ [Element_Token t])
               (mkPState (S (cursor s)) (diagnostics s ++ ds)).
Proof.
  intros Hb Ht Hk ds. pose proof (built_lt _ _ _ _ _ Hb) as Hlt.
  pose proof (not_eof_lt s Hlt Hk) as Hlt'.
  destruct (wf_body _ WF _ _ Ht Hlt') as [_ Hreal].
  eapply built_app; [exact Hb|]. split; cbn [cursor diagnostics]; auto.
  - by rewrite reals_true, (slice_one _ _ t).
  - exists ds. split; [done|]. intros _. right. by repeat constructor.
  - repeat constructor.
Qed.

(** A made-up token, with its diagnostic. *)
Lemma built_missing s0 E es s t d :
  built E s0 es s -> real t = false ->
  built False s0 (es ++ [Element_Token t]) (mkPState (cursor s) (diagnostics s ++ [d])).
Proof.
  intros [Hle Hlt Hr (ds & Hd & Hc) Hg] Ht. split; cbn [cursor diagnostics]; auto.
  - by rewrite leaves_app, reals_app, (reals_false t), app_nil_r.
  - exists (ds ++ [d]). split; [by rewrite Hd, app_assoc|]. by intros [_ ?]%app_nil.
  - apply Forall_app. split; auto with sarif.
Qed.

Lemma built_diagnostics E s0 es s ds :
  built E s0 es s -> built E s0 es (mkPState (cursor s) (diagnostics s ++ ds)).
Proof.
  intros [Hle Hlt Hr (ds0 & Hd & Hc) Hg]. split; cbn; auto.
  exists (ds0 ++ ds). split; [by rewrite Hd, app_assoc|]. intros [-> ->]%app_nil. auto.
Qed.

(** *** Reading *)

Lemma wp_current s (Q : Token -> PState -> Prop) :
  inv s -> (forall t, tokens !! cursor s = Some t -> kind_at s = tok_kind t -> Q t s) ->
  wp (current tokens) s Q.
Proof.
  intros Hs HQ. destruct (lookup_inv s Hs) as (t & Ht & Hk).
  unfold ParserWp.wp, current. rewrite Ht. by apply HQ.
Qed.

Lemma wp_at_kind k s (Q : bool -> PState -> Prop) :
  inv s -> (kind_at s = k -> Q true s) -> (kind_at s <> k -> Q false s) ->
  wp (at_kind tokens k) s Q.
Proof.
  intros Hs Ht Hf. apply wp_bind, wp_current; [done|]. intros t _ Hk. apply wp_ret.
  unfold kind_is. destruct (TokenKind_beq (tok_kind t) k) eqn:E.
  - apply Ht. rewrite Hk. by apply TokenKind_beq_eq.
  - apply Hf. rewrite Hk. intros Heq. apply TokenKind_beq_eq in Heq. congruence.
Qed.

Lemma wp_current_offset s :
  inv s -> wp (current_offset tokens) s (fun _ s' => s' = s).
Proof. intros Hs. apply wp_bind, wp_current; [done|]. by intros. Qed.

Lemma wp_next_kind s (Q : option TokenKind -> PState -> Prop) :
  Q (next_kind s) s -> wp (peek_non_trivia_kind tokens) s Q.
Proof. done. Qed.

Lemma wp_peek_trivia_then k s (Q : bool -> PState -> Prop) :
  (next_kind s = Some k -> Q true s) -> (next_kind s <> Some k -> Q false s) ->
  wp (peek_trivia_then tokens k) s Q.
Proof.
  intros Ht Hf. unfold ParserWp.wp, peek_trivia_then, ahead, bind, ret.
  unfold ParserWp.next_kind in *. destruct (skip_trivia _) as [|t l]; cbn in *; [by apply Hf|].
  unfold kind_is. destruct (TokenKind_beq (tok_kind t) k) eqn:E.
  - apply Ht. f_equal. by apply TokenKind_beq_eq.
  - apply Hf. intros [= Heq]. apply TokenKind_beq_eq in Heq. congruence.
Qed.

Lemma wp_not_at_close k s (Q : bool -> PState -> Prop) :
  inv s ->
  (kind_at s <> k -> kind_at s <> T_Eof -> Q true s) ->
  (kind_at s = k \/ kind_at s = T_Eof -> Q false s) ->
  wp (not_at_close tokens k) s Q.
Proof.
  intros Hs Ht Hf. apply wp_bind, wp_at_kind; [done| |]; intros Hk.
  - apply wp_ret. auto.
  - apply wp_bind, wp_at_kind; [done| |]; intros He; apply wp_ret; cbn; auto.
Qed.

Lemma next_kind_nontriv s : inv s -> nontriv s -> next_kind s = Some (kind_at s).
Proof.
  intros Hs Hn. destruct (lookup_inv s Hs) as (t & Ht & Hk).
  unfold ParserWp.next_kind. rewrite (drop_S _ t) by done. cbn.
  unfold ParserWp.nontriv in Hn. rewrite Hk in *. by rewrite Hn.
Qed.

(** *** Moving *)

Lemma wp_bump s (Q : Token -> PState -> Prop) :
  inv s -> kind_at s <> T_Eof ->
  (forall t, tokens !! cursor s = Some t ->
     Q t (mkPState (S (cursor s)) (diagnostics s))) ->
  wp (bump tokens) s Q.
Proof.
  intros Hs Hk HQ. apply wp_bind, wp_current; [done|]. intros t Ht _.
  unfold ParserWp.wp. pose proof (not_eof_lt s Hs Hk).
  rewrite (proj2 (Nat.ltb_lt _ _)) by lia. by apply HQ.
Qed.

Lemma wp_bump_eof s (Q : Token -> PState -> Prop) :
  inv s -> kind_at s = T_Eof ->
  (forall t, real t = false -> Q t s) -> wp (bump tokens) s Q.
Proof.
  intros Hs Hk HQ. apply wp_bind, wp_current; [done|]. intros t Ht _.
  unfold ParserWp.wp. pose proof (eof_last s Hs Hk).
  rewrite (proj2 (Nat.ltb_ge _ _)) by lia.
  apply HQ. by destruct (tokens_last_kind _ _ Ht).
Qed.

Lemma wp_push_bump s0 es s (Q : list Element -> PState -> Prop) :
  built False s0 es s -> kind_at s <> T_Eof ->
  (forall es' s', built False s0 es' s' -> cursor s' = S (cursor s) -> Q es' s') ->
  wp (push_bump tokens es) s Q.
Proof.
  intros Hb Hk HQ. pose proof (built_lt _ _ _ _ _ Hb).
  apply wp_bind, wp_bump; [done|done|]. intros t Ht. apply wp_ret, HQ; [|done].
  rewrite <- (app_nil_r (diagnostics s)). by apply built_step.
Qed.

(** The one place where an end-of-file token is pushed without a diagnostic. *)
Lemma wp_push_bump_eof s0 es s (Q : list Element -> PState -> Prop) :
  built False s0 es s -> kind_at s = T_Eof ->
  (forall es', built (kind_at s = T_Eof) s0 es' s -> Q es' s) ->
  wp (push_bump tokens es) s Q.
Proof.
  intros Hb Hk HQ. pose proof (built_lt _ _ _ _ _ Hb).
  apply wp_bind, wp_bump_eof; [done|done|]. intros t Ht. apply wp_ret, HQ.
  destruct Hb as [Hle Hlt Hr (ds & Hd & Hc) Hg]. split; auto.
  - by rewrite leaves_app, reals_app, (reals_false t), app_nil_r.
  - exists ds. auto.
  - apply Forall_app. split; auto with sarif.
Qed.

Lemma next_kind_step s d :
  inv s -> is_trivia (kind_at s) = true ->
  next_kind (mkPState (S (cursor s)) d) = next_kind s.
Proof.
  intros Hs Hk. destruct (lookup_inv s Hs) as (t & Ht & Hkt).
  unfold ParserWp.next_kind. cbn [cursor]. rewrite (drop_S _ t (cursor s)) by done.
  cbn [skip_trivia]. rewrite Hkt in Hk. by rewrite Hk.
Qed.

(** [collect_trivia], with the trivia it pushes. *)
Lemma wp_collect_trivia_tr s0 es s (Q : list Element -> PState -> Prop) :
  built False s0 es s -> T \/ left_ s < fuel ->
  (forall tr s', built False s0 (es ++ tr) s' -> Forall trivia_element tr ->
     nontriv s' -> next_kind s' = next_kind s -> cursor s <= cursor s' ->
     diagnostics s' = diagnostics s -> Q (es ++ tr) s') ->
  wp (collect_trivia tokens fuel es) s Q.
Proof.
  intros Hb Hfuel HQ.
  apply (wp_loop tokens T
    (fun es1 s1 => exists tr, es1 = es ++ tr /\ built False s0 (es ++ tr) s1 /\
       Forall trivia_element tr /\ next_kind s1 = next_kind s /\ cursor s <= cursor s1 /\
       diagnostics s1 = diagnostics s)); [done| | |].
  - intros es1 s1 (tr & _ & Hb1 & _). by apply Hb1.
  - intros es1 s1 (tr & -> & Hb1 & Htr & Hn & Hle & Hd).
    pose proof (built_lt _ _ _ _ _ Hb1) as Hlt.
    apply wp_bind, wp_current; [done|]. intros t Ht Hk. rewrite <- Hk.
    destruct (is_trivia (kind_at s1)) eqn:Htriv.
    + pose proof (trivia_not_eof _ Htriv) as He.
      apply wp_bind, wp_bump; [done|done|]. intros t' Ht'. apply wp_ret.
      rewrite Ht in Ht'. injection Ht' as <-.
      split; [|by right; cbn; lia]. exists (tr ++ [Element_Token t]).
      rewrite <- app_assoc. split; [done|].
      rewrite app_assoc, next_kind_step by done.
      rewrite <- (app_nil_r (diagnostics s1)).
      split; [by apply built_step|]. split; [|by cbn; rewrite app_nil_r; auto with lia].
      apply Forall_app. split; [done|]. by repeat constructor; cbn; rewrite <- Hk.
    + apply wp_ret. by apply HQ.
  - exists []. rewrite app_nil_r. by repeat split; try apply Hb.
Qed.

Lemma wp_collect_trivia s0 es s (Q : list Element -> PState -> Prop) :
  built False s0 es s -> T \/ left_ s < fuel ->
  (forall es' s', built False s0 es' s' -> nontriv s' -> next_kind s = Some (kind_at s') ->
     cursor s <= cursor s' -> Q es' s') ->
  wp (collect_trivia tokens fuel es) s Q.
Proof.
  intros Hb Hf HQ. eapply wp_collect_trivia_tr; [done|done|].
  intros tr s' Hb' _ Hn Hk Hle _. apply HQ; auto. rewrite <- Hk.
  apply next_kind_nontriv; [apply Hb' | done].
Qed.

(** Nothing to collect. *)
Lemma wp_collect_none es s (Q : list Element -> PState -> Prop) :
  inv s -> nontriv s -> T \/ left_ s < fuel -> Q es s ->
  wp (collect_trivia tokens fuel es) s Q.
Proof.
  intros Hs Hn Hf HQ. unfold collect_trivia.
  destruct fuel as [|n]; [destruct Hf; [done|lia]|]. cbn [loop].
  apply wp_bind, wp_bind, wp_current; [done|]. intros t _ Hk. rewrite <- Hk, Hn.
  by apply wp_ret, wp_ret.
Qed.

Lemma wp_collect_into_cursor s (Q : unit -> PState -> Prop) :
  inv s -> nontriv s -> T \/ left_ s < fuel -> Q tt s ->
  wp (collect_trivia_into_cursor tokens fuel) s Q.
Proof.
  intros Hs Hn Hf HQ. unfold collect_trivia_into_cursor.
  destruct fuel as [|n]; [destruct Hf; [done|lia]|]. cbn [loop].
  apply wp_bind, wp_bind, wp_current; [done|]. intros t _ Hk. rewrite <- Hk, Hn.
  by apply wp_ret, wp_ret.
Qed.

(** [expect] takes the expected token, or reports it missing and stays. *)
Lemma wp_expect E k s0 es s (Q : Token -> PState -> Prop) :
  built E s0 es s -> nontriv s -> k <> T_Eof -> (E -> kind_at s <> k) ->
  T \/ left_ s < fuel ->
  (forall t s', tok_kind t = k -> built False s0 (es ++ [Element_Token t]) s' ->
     cursor s <= cursor s' -> (kind_at s = k -> cursor s' = S (cursor s)) -> Q t s') ->
  wp (expect tokens fuel k) s Q.
Proof.
  intros Hb Hn Hk HE Hf HQ. pose proof (built_lt _ _ _ _ _ Hb) as Hlt.
  apply wp_bind, wp_collect_into_cursor; [done|done|done|].
  apply wp_bind, wp_at_kind; [done| |]; intros Hkat.
  - apply wp_bump; [done|congruence|]. intros t Ht.
    destruct (lookup_inv s Hlt) as (t' & Ht' & Hkt). rewrite Ht in Ht'. injection Ht' as <-.
    apply HQ; cbn; [congruence| |lia|done].
    rewrite <- (app_nil_r (diagnostics s)). apply built_step; [|done|congruence].
    eapply built_weaken; [|exact Hb]. intros He. by destruct (HE He).
  - apply wp_bind, wp_current; [done|]. intros t _ _. apply wp_bind. cbn.
    apply HQ; cbn; [done| |lia|done]. by eapply built_missing.
Qed.

Lemma wp_push_expect E k s0 es s (Q : list Element -> PState -> Prop) :
  built E s0 es s -> nontriv s -> k <> T_Eof -> (E -> kind_at s <> k) ->
  T \/ left_ s < fuel ->
  (forall es' s', built False s0 es' s' -> cursor s <= cursor s' ->
     (kind_at s = k -> cursor s' = S (cursor s)) -> Q es' s') ->
  wp (push_expect tokens fuel k es) s Q.
Proof.
  intros Hb Hn Hk HE Hf HQ. apply wp_bind. eapply wp_expect; eauto.
  intros t s' _ Hb' Hle Hp. by apply wp_ret, HQ.
Qed.

(** Pushing the node a method returns. *)
Lemma wp_push_node (E : PState -> Prop) s0 es s m (R : PState -> Prop)
    (Q : list Element -> PState -> Prop) :
  built False s0 es s ->
  wp m s (fun n s' => built (E s') s [Element_Node n] s' /\ R s') ->
  (forall es' s', built (E s') s0 es' s' -> cursor s <= cursor s' -> R s' -> Q es' s') ->
  wp (push_node m es) s Q.
Proof.
  intros Hb Hm HQ. apply wp_bind. eapply wp_mono; [exact Hm|].
  intros n s' [Hn HR]. apply wp_ret. apply HQ; [|apply Hn|done].
  by eapply built_app.
Qed.

(** [built], but for an end-of-file token a match pattern may end with. *)
#[local] Abbreviation built_eof s0 es s := (built (kind_at s = T_Eof) s0 es s).

Lemma built_eof_cases s0 es s :
  built_eof s0 es s -> kind_at s = T_Eof \/ built False s0 es s.
Proof.
  intros Hb. destruct (decide (kind_at s = T_Eof)); [by left|right].
  by eapply built_weaken.
Qed.

Lemma built_built_eof s0 es s : built False s0 es s -> built_eof s0 es s.
Proof. by apply built_weaken. Qed.

Lemma wp_collect_trivia_eof s0 es s (Q : list Element -> PState -> Prop) :
  built_eof s0 es s -> T \/ left_ s < fuel ->
  (forall es' s', built_eof s0 es' s' -> nontriv s' -> cursor s <= cursor s' -> Q es' s') ->
  wp (collect_trivia tokens fuel es) s Q.
Proof.
  intros Hb Hf HQ. destruct (built_eof_cases _ _ _ Hb) as [He|Hb'].
  - assert (nontriv s) by (unfold ParserWp.nontriv; by rewrite He).
    apply wp_collect_none; [apply Hb|done|done|]. by apply HQ.
  - eapply wp_collect_trivia; [done|done|]. intros. apply HQ; auto using built_built_eof.
Qed.
End Cursor.
