(* ===== verification/ParserProofs.v ===== *)
(** * The methods of the parser meet their specifications

    One lemma a method of [Parser]: called at a token that is not trivia, with
    enough fuel, it does not panic and returns a node that is [built] over the
    tokens it moved across. *)
From S2P Require Import Prelude Syntax Parser ParserWp.

(** ** Proof steps *)

(** Facts about the current token from what is known of the next one. *)
Ltac learn_kinds :=
  repeat match goal with
    | H : kind_at ?tk ?s = ?k -> _, H' : kind_at ?tk ?s = ?k |- _ => specialize (H H')
    | H : next_kind ?tk ?s = Some ?k, H' : next_kind ?tk ?s = Some (kind_at ?tk ?s') |- _ =>
        lazymatch k with
        | kind_at _ _ => fail
        | _ =>
          lazymatch goal with
          | _ : kind_at tk s' = k |- _ => fail
          | _ => assert (kind_at tk s' = k) by congruence
          end
        end
    end.

Ltac built_lts :=
  repeat match goal with
    | H : built _ _ ?s0 _ ?s |- _ =>
        lazymatch goal with
        | _ : cursor s < _ |- _ => fail
        | _ => pose proof (built_lt _ _ _ _ _ H); pose proof (built_le _ _ _ _ _ H)
        end
    end.

(** Closes the side conditions on fuel and cursors. *)
Ltac fuel_lia :=
  match goal with
  | H : ?T |- ?T \/ _ => left; exact H
  | H : ?T \/ _ |- ?T \/ _ => destruct H as [H|H]; [left; exact H | right; unfold left_ in *; lia]
  end.

Ltac side := first [eassumption | fuel_lia | done | congruence | lia].

(** One statement of a method. *)
Ltac step_core :=
  lazymatch goal with
  | |- wp _ (bind ?m _) _ _ =>
      lazymatch m with
      | collect_trivia _ _ _ => apply wp_bind
      | push_expect _ _ _ _ => apply wp_bind
      | push_bump _ _ => apply wp_bind
      | at_kind _ _ => apply wp_bind
      | peek_trivia_then _ _ => apply wp_bind
      | not_at_close _ _ => apply wp_bind
      | bind _ _ => apply wp_bind
      | ret _ => apply wp_bind
      | current_non_trivia_kind _ => apply wp_bind, wp_next_kind
      | peek_non_trivia_kind _ => apply wp_bind, wp_next_kind
      | current_offset _ => eapply wp_cut; [by apply wp_current_offset|]; intros ? ? ->
      end
  | |- wp _ (ret _) _ _ => apply wp_ret
  | |- wp _ (collect_trivia _ _ _) _ _ =>
      eapply wp_collect_trivia; [eassumption | eassumption | side | intros]
  | |- wp _ (push_expect _ _ _ _) _ _ =>
      eapply wp_push_expect;
        [eassumption | eassumption | eassumption | try done; congruence | done | side | intros]
  | |- wp _ (push_bump _ _) _ _ => eapply wp_push_bump; [eassumption | eassumption | congruence | intros]
  | |- wp _ (at_kind _ _) _ _ => eapply wp_at_kind; [side | intros ? | intros ?]
  | |- wp _ (peek_trivia_then _ _) _ _ => eapply wp_peek_trivia_then; intros ?
  | |- wp _ (not_at_close _ _) _ _ => eapply wp_not_at_close; [side | intros ? ? | intros ?]
  end.

Ltac step := step_core; cbv beta in *; cbn [fst snd]; built_lts; learn_kinds.

Ltac steps := repeat step.

(** Steps up to the test for the token kind [k]. *)
Ltac steps_to k :=
  repeat lazymatch goal with
    | |- wp _ (bind (at_kind _ k) _) _ _ => fail
    | _ => step
    end.

(** Closes what is left of a method: the node is built, and cursors grew. *)
Ltac fin1 :=
  first
    [ eassumption | done
    | lazymatch goal with
      | |- _ /\ _ => split
      | |- _ -> _ => intros ?; learn_kinds
      | |- built _ _ _ [Element_Node (Node_new _ _)] _ => eapply built_node; [done|]
      | |- built _ _ _ [Element_Node (list_node _ _ _)] _ => eapply built_list_node; [done|]
      | |- _ \/ _ < _ => side
      | |- _ < _ => lia
      | |- _ <= _ => lia
      end
    | congruence ].
Ltac fin := repeat fin1.

(** A loop over children: [es] has been built since [s], and [X] holds. *)
Ltac while_built tokens T s X R :=
  eapply (wp_while tokens T (fun es s1 => built tokens False s es s1 /\ X s1) R);
    [ side | intros ? ? [Hb' _]; apply Hb' | split; [eassumption|]; cbv beta; fin
    | intros ? ? [? ?]; built_lts; cbv beta in *
    | intros ? ? ?; destruct_all; built_lts; cbv beta ].

(** A call of a method with a lemma about it. *)
Ltac node lem :=
  try apply wp_bind; eapply wp_push_node;
    [ eassumption
    | eapply lem; try side
    | intros; cbv beta; built_lts; learn_kinds ].

(** A method whose node is pushed inside another node. *)
Ltac wrapped lem :=
  eapply wp_cut; [eapply lem; try side |];
  let n := fresh "n" in let s' := fresh "s" in let Hn := fresh "Hn" in
  intros n s' [Hn ?]; cbv beta; built_lts;
  match goal with
  | |- context [?es ++ [Element_Node ?m]] =>
      match goal with
      | Hb : built ?tk False ?s0 es _ |- _ =>
          assert (built tk False s0 (es ++ [Element_Node m]) s')
            by (eapply built_app;
                  [exact Hb | first [exact Hn | eapply built_node; [done | exact Hn]]])
      end
  end; clear Hn; built_lts.

(** A [match] on the next kind whose branches all push an expected token. *)
Ltac which_expect :=
  apply wp_bind;
  match goal with
  | |- wp _ (match ?k with _ => _ end) _ _ =>
      let E := fresh "E" in
      lazymatch goal with
      | |- wp _ ?m _ _ =>
          lazymatch m with
          | context [push_expect ?tk ?fl _ ?es] =>
              assert (exists kd, m = push_expect tk fl kd es /\ kd <> T_Eof) as (? & E & ?)
                by (destruct k as [[]|]; by eexists);
              rewrite E; clear E
          end
      end
  end.

Ltac node_done := split; [eapply built_node; [done | eassumption] |].

(** The start of a method called at its keyword. *)
Ltac at_keyword s Hs Hn :=
  lazymatch type of Hs with
  | _ < length ?tokens =>
      pose proof (built_nil tokens s Hs);
      assert (ParserWp.nontriv tokens s) by (unfold ParserWp.nontriv; by rewrite Hn);
      let Hnk := fresh "Hnk" in
      pose proof (next_kind_nontriv tokens s Hs ltac:(eassumption)) as Hnk; rewrite Hn in Hnk
  end.

Ltac start_keyword unfold_method :=
  let s := fresh "s" in let Hs := fresh "Hs" in let Hn := fresh "Hn" in let Hf := fresh "Hf" in
  intros s Hs Hn Hf; at_keyword s Hs Hn; unfold_method.

(** ** The kinds of the nodes a method can return *)

Definition post {A} (m : P A) (Q : A -> Prop) : Prop :=
  forall s, match m s with POk a _ => Q a | _ => True end.

Lemma post_ret {A} (a : A) (Q : A -> Prop) : Q a -> post (ret a) Q.
Proof. by intros H s. Qed.

Lemma post_bind {A B} (m : P A) (f : A -> P B) (R : A -> Prop) (Q : B -> Prop) :
  post m R -> (forall a, R a -> post (f a) Q) -> post (bind m f) Q.
Proof.
  intros Hm Hf s. unfold bind. specialize (Hm s). destruct (m s) as [a s'| |]; [|done..].
  by apply Hf.
Qed.

Lemma post_any {A} (m : P A) : post m (fun _ => True).
Proof. intros s. by destruct (m s). Qed.

Lemma post_loop {A B} fuel (body : A -> P (Flow A B)) a (I : A -> Prop) (Q : B -> Prop) :
  (forall a, I a -> post (body a) (fun r => match r with Continue a' => I a' | Break b => Q b end)) ->
  I a -> post (loop fuel body a) Q.
Proof.
  intros Hbody. revert a. induction fuel as [|n IH]; intros a HI; cbn; [by intros s|].
  eapply post_bind; [by apply Hbody|]. intros [a'|b] Hr; [by apply IH | by apply post_ret].
Qed.

Definition not_binary (n : Node) : Prop := node_kind n <> N_ExprBinary.

Ltac post_steps :=
  repeat first
    [ apply post_ret; done
    | eapply (post_bind _ _ (fun _ => True)); [apply post_any | intros ? _]
    | match goal with
      | |- post (if ?b then _ else _) _ => destruct b
      | |- post (let _ := _ in _) _ => cbv zeta
      end ].

Section Methods.
Context (tokens : list Token) (WF : wf_tokens tokens) (T : Prop) (fuel : nat)
  (rec : Call -> P Node).

#[local] Abbreviation inv s := (cursor s < length tokens).
#[local] Abbreviation nontriv := (nontriv tokens).
#[local] Abbreviation kind_at := (kind_at tokens).
#[local] Abbreviation next_kind := (next_kind tokens).
#[local] Abbreviation left_ := (left_ tokens).
#[local] Abbreviation built := (built tokens).
#[local] Abbreviation wp := (wp T).
#[local] Abbreviation built_eof s0 es s := (built (kind_at s = T_Eof) s0 es s).

(** The calls that may start another call before they move. *)
Definition rank (c : Call) : nat :=
  match c with CExprBody => 1 | _ => 0 end.

(** [parse_if_expr] is called at an [if]. *)
Definition call_pre (c : Call) (s : PState) : Prop :=
  match c with CIf => kind_at s = T_KwIf | _ => True end.

(** What an expression guarantees about precedence: its operator binds at
    least as tight as [min_bp], and the operator after it does not. *)
Definition bp_post (min_bp : nat) (n : Node) (s' : PState) : Prop :=
  (forall o l r, binary_op n = Some o -> infix_binding_power o = Some (l, r) -> min_bp <= l) /\
  (forall o l r, next_kind s' = Some o -> infix_binding_power o = Some (l, r) -> l < min_bp).

Definition progress (s s' : PState) : Prop := kind_at s <> T_Eof -> cursor s < cursor s'.

Definition call_post (c : Call) (s : PState) (n : Node) (s' : PState) : Prop :=
  built False s [Element_Node n] s' /\
  match c with
  | CExprBp min_bp => progress s s' /\ bp_post min_bp n s'
  | CPostfix => progress s s'
  | _ => True
  end.

Definition call_ok (fuel : nat) (rec : Call -> P Node) : Prop :=
  forall c s, inv s -> nontriv s -> call_pre c s -> T \/ 2 * left_ s + rank c + 1 <= fuel ->
    wp (rec c) s (call_post c s).

Context (Hrec : call_ok fuel rec).

(** The method that may run for ever is reached through the keyword [handle]. *)
Context (Hhandle : forall s, kind_at s = T_KwHandle -> T).

(** A method that returns a node over the tokens it moved across. *)
Definition returns (R : PState -> Prop) (m : P Node) (s : PState) : Prop :=
  wp m s (fun n s' => built False s [Element_Node n] s' /\ R s').

Lemma rec_expr b s :
  inv s -> nontriv s -> T \/ 2 * left_ s + 1 <= fuel -> returns (progress s) (rec (CExprBp b)) s.
Proof.
  intros Hs Hn Hf. eapply wp_mono; [apply Hrec; cbn; auto|].
  - by rewrite Nat.add_0_r.
  - by intros n s' (? & ? & _).
Qed.

Lemma rec_postfix s :
  inv s -> nontriv s -> T \/ 2 * left_ s + 1 <= fuel -> returns (progress s) (rec CPostfix) s.
Proof.
  intros Hs Hn Hf. eapply wp_mono; [apply Hrec; cbn; auto|].
  - by rewrite Nat.add_0_r.
  - by intros n s' (? & ?).
Qed.

Lemma rec_other c s :
  call_pre c s -> inv s -> nontriv s -> T \/ 2 * left_ s + 2 <= fuel ->
  returns (fun _ => True) (rec c) s.
Proof.
  intros Hc Hs Hn Hf. eapply wp_mono; [apply Hrec; auto|].
  - destruct Hf; [by left | right]. destruct c; cbn; lia.
  - by intros n s' [? _].
Qed.

(** *** Types *)

Lemma parse_type_path_ok s :
  inv s -> nontriv s -> T \/ 2 * left_ s <= fuel ->
  returns (fun s' => kind_at s = T_Ident -> cursor s < cursor s')
    (parse_type_path tokens fuel rec) s.
Proof.
  intros Hs Hn Hf. pose proof (built_nil tokens s Hs).
  unfold returns, parse_type_path. steps.
  while_built tokens T s (fun s2 => kind_at s = T_Ident -> cursor s < cursor s2)
    (fun es s2 => built False s es s2 /\ (kind_at s = T_Ident -> cursor s < cursor s2)).
  - steps; fin.
  - steps; [|fin]. node (rec_other CType). steps; fin.
Qed.

Lemma parse_array_type_ok s :
  inv s -> kind_at s = T_LBracket -> T \/ 2 * left_ s <= fuel ->
  returns (fun _ => True) (parse_array_type tokens fuel rec) s.
Proof.
  intros Hs Hn Hf. pose proof (built_nil tokens s Hs).
  assert (nontriv s) by (unfold ParserWp.nontriv; by rewrite Hn).
  unfold returns, parse_array_type. steps.
  node (rec_other CType). steps.
  which_expect. steps. fin.
Qed.

Lemma parse_type_ok s :
  inv s -> nontriv s -> T \/ 2 * left_ s <= fuel ->
  returns (fun _ => True) (parse_type tokens fuel rec) s.
Proof.
  intros Hs Hn Hf. unfold returns, parse_type. steps.
  - by apply parse_array_type_ok.
  - eapply wp_mono; [by apply parse_type_path_ok|]. by intros n s' [? _].
Qed.

(** *** Lists *)

Lemma comma_list_ok close item s0 es s (Q : list Element -> PState -> Prop) :
  built False s0 es s -> is_trivia close = false -> T \/ 2 * left_ s <= fuel ->
  (forall es1 s1, built False s0 es1 s1 -> nontriv s1 -> cursor s <= cursor s1 ->
     wp (item es1) s1 (fun es2 s2 => built False s0 es2 s2 /\ cursor s1 <= cursor s2)) ->
  (forall es' s', built False s0 es' s' -> nontriv s' -> cursor s <= cursor s' -> Q es' s') ->
  wp (comma_list tokens fuel close item es) s Q.
Proof.
  intros Hb Hc Hf Hitem HQ. built_lts.
  apply (wp_loop tokens T (fun es1 s1 => built False s0 es1 s1 /\ cursor s <= cursor s1));
    [side | intros ? ? [Hb' _]; apply Hb' | | by split].
  intros es1 s1 [Hb1 Hle]. built_lts. steps.
  - eapply wp_cut; [by apply Hitem; [..|lia]|]. intros es2 s2 [? ?]. built_lts. steps; fin.
    apply HQ; fin.
  - apply HQ; fin.
  - apply HQ; fin. unfold ParserWp.nontriv. 
    by match goal with H : kind_at _ = _ \/ _ |- _ => destruct H as [-> | ->] end.
Qed.

(** Every list method: the offset, the loop, the node. *)
Lemma list_method_ok kind close item s :
  kind <> N_ExprBinary -> is_trivia close = false ->
  inv s -> T \/ 2 * left_ s <= fuel ->
  (forall s1, inv s1 -> nontriv s1 -> cursor s <= cursor s1 ->
     wp item s1 (fun n s2 => built False s1 [Element_Node n] s2)) ->
  returns nontriv
    (let* offset := current_offset tokens in
     let* children := comma_list tokens fuel close (push_node item) [] in
     ret (list_node kind offset children)) s.
Proof.
  intros Hk Hc Hs Hf Hitem. pose proof (built_nil tokens s Hs). unfold returns.
  step. apply wp_bind. eapply comma_list_ok; [eassumption|done|side| |].
  - intros es1 s1 Hb1 Hn1 Hle. built_lts.
    eapply wp_push_node with (E := fun _ => False); [eassumption| |by intros; split].
    eapply wp_mono; [by apply Hitem|]. intros n s2 Hn. split; [done|apply Hn].
  - intros es' s' Hb' Hn' Hle. steps. fin.
Qed.

Lemma parse_arg_list_ok s :
  inv s -> T \/ 2 * left_ s + 1 <= fuel ->
  returns nontriv (parse_arg_list tokens fuel rec) s.
Proof.
  intros Hs Hf. apply list_method_ok; [done|done|done|side|].
  intros s1 Hs1 Hn1 Hle. eapply wp_mono; [apply rec_expr; side|]. by intros n s2 [? _].
Qed.

Lemma parse_field_init_ok s :
  inv s -> nontriv s -> T \/ 2 * left_ s + 1 <= fuel ->
  returns (fun _ => True) (parse_field_init tokens fuel rec) s.
Proof.
  intros Hs Hn Hf. pose proof (built_nil tokens s Hs).
  unfold returns, parse_field_init. steps; [|fin]. node rec_expr. steps. fin.
Qed.

Lemma parse_field_init_list_ok s :
  inv s -> T \/ 2 * left_ s + 1 <= fuel ->
  returns nontriv (parse_field_init_list tokens fuel rec) s.
Proof.
  intros Hs Hf. apply list_method_ok; [done|done|done|side|].
  intros s1 Hs1 Hn1 Hle. eapply wp_mono; [apply parse_field_init_ok; side|]. by intros n s2 [? _].
Qed.

Lemma parse_field_update_ok s :
  inv s -> nontriv s -> T \/ 2 * left_ s + 1 <= fuel ->
  returns (fun _ => True) (parse_field_update tokens fuel rec) s.
Proof.
  intros Hs Hn Hf. pose proof (built_nil tokens s Hs).
  unfold returns, parse_field_update. steps. node rec_expr. steps. fin.
Qed.

Lemma parse_field_update_list_ok s :
  inv s -> T \/ 2 * left_ s + 1 <= fuel ->
  returns nontriv (parse_field_update_list tokens fuel rec) s.
Proof.
  intros Hs Hf. apply list_method_ok; [done|done|done|side|].
  intros s1 Hs1 Hn1 Hle. eapply wp_mono; [apply parse_field_update_ok; side|]. by intros n s2 [? _].
Qed.

(** *** Keyword expressions *)

Lemma parse_error_expr_ok s :
  inv s -> returns (progress s) (parse_error_expr tokens) s.
Proof.
  intros Hs. pose proof (built_nil tokens s Hs) as Hb. unfold returns, parse_error_expr.
  destruct (decide (kind_at s = T_Eof)) as [He|He]; apply wp_bind.
  - eapply wp_bump_eof; [done..|]. intros t Ht. apply wp_bind, wp_push_diagnostic, wp_ret.
    split; [|by intros ?]. eapply built_node; [done|].
    apply (built_missing tokens s False [] s t _ Hb Ht).
  - eapply wp_bump; [done..|]. intros t Ht. apply wp_bind, wp_push_diagnostic, wp_ret.
    split; [|intros ?; cbn; lia]. eapply built_node; [done|].
    by apply (built_step tokens WF s [] s t).
Qed.

(** A method called at its keyword moves past it. *)
Definition keyword_ok (k : TokenKind) (m : P Node) : Prop :=
  forall s, inv s -> kind_at s = k -> T \/ 2 * left_ s <= fuel ->
    returns (fun s' => cursor s < cursor s') m s.

Lemma parse_if_expr_ok : keyword_ok T_KwIf (parse_if_expr tokens fuel rec).
Proof.
  start_keyword ltac:(unfold returns, parse_if_expr). steps. node rec_expr. steps. node (rec_other CExprBody).
  steps; [| |fin].
  - wrapped (rec_other CIf). steps. fin.
  - node (rec_other CExprBody). steps. fin.
Qed.

Lemma parse_match_pattern_atom_ok s :
  inv s -> T \/ 2 * left_ s <= fuel ->
  wp (parse_match_pattern_atom tokens fuel rec) s
    (fun n s' => built (kind_at s' = T_Eof) s [Element_Node n] s').
Proof.
  intros Hs Hf. pose proof (built_nil tokens s Hs).
  unfold returns, parse_match_pattern_atom. step. step. step.
  assert (next_kind s' = Some (kind_at s')) as -> by (by apply next_kind_nontriv).
  destruct (decide (kind_at s' = T_Eof)) as [He|He].
  - rewrite He. apply wp_bind. eapply wp_push_bump_eof; [eassumption..|].
    intros es2 Hb2. apply wp_ret. by apply built_node.
  - eapply wp_mono with (Q := fun n s' => built False s [Element_Node n] s').
    2: { intros n s2 Hb2. by apply (built_weaken _ False). }
    destruct (kind_at s') eqn:Hk; steps; try (node parse_type_path_ok; steps); fin.
Qed.

Lemma parse_match_pattern_ok s :
  inv s -> T \/ 2 * left_ s <= fuel ->
  wp (parse_match_pattern tokens fuel rec) s
    (fun n s' => built_eof s [Element_Node n] s' /\ nontriv s').
Proof.
  intros Hs Hf. pose proof (built_nil tokens s Hs).
  unfold parse_match_pattern. steps.
  apply (wp_cut T (fun es s1 => built_eof s es s1)).
  { eapply wp_push_node with (E := fun s => kind_at s = T_Eof) (R := fun _ => True); [eassumption| |by intros].
    eapply wp_mono; [by apply parse_match_pattern_atom_ok; [|side]|]. by intros. }
  intros es1 s1 Hb1. cbv beta. built_lts. apply wp_bind.
  eapply wp_collect_trivia_eof; [eassumption..|side|]. intros es2 s2 Hb2 Hn2 Hle2. cbv beta. built_lts.
  eapply (wp_while tokens T (fun es s1 => built_eof s es s1 /\ nontriv s1)
                     (fun es s1 => built_eof s es s1 /\ nontriv s1));
    [side|intros ? ? [Hb' _]; apply Hb'|done| |].
  - intros es3 s3 [Hb3 Hn3]. built_lts. steps; [|fin].
    destruct (built_eof_cases tokens s es3 s3 Hb3) as [|Hb3']; [congruence|].
    steps.
    apply (wp_cut T (fun es s4 => built_eof s es s4 /\ cursor s3 < cursor s4)).
    { eapply wp_push_node with (E := fun s => kind_at s = T_Eof) (R := fun _ => True);
        [eassumption| |intros; split; [done|lia]].
      eapply wp_mono; [by apply parse_match_pattern_atom_ok; [|side]|]. by intros. }
    intros es4 s4 [Hb4 ?]. cbv beta. built_lts. apply wp_bind.
    eapply wp_collect_trivia_eof; [eassumption..|side|]. intros es5 s5 Hb5 Hn5 Hle5.
    apply wp_ret. split; [done|]. right. lia.
  - intros es3 s3 [Hb3 Hn3]. apply wp_ret. split; [|done]. by apply built_node.
Qed.

Lemma parse_match_arm_ok s :
  inv s -> T \/ 2 * left_ s + 2 <= fuel ->
  returns (fun _ => True) (parse_match_arm tokens fuel rec) s.
Proof.
  intros Hs Hf. pose proof (built_nil tokens s Hs). unfold returns, parse_match_arm.
  apply (wp_cut T (fun es s1 => built_eof s es s1 /\ nontriv s1)).
  { eapply wp_push_node with (E := fun s => kind_at s = T_Eof); [eassumption| |by intros].
    apply parse_match_pattern_ok; [done|side]. }
  intros es1 s1 [Hb1 Hn1]. built_lts. apply wp_bind.
  eapply wp_collect_trivia_eof; [eassumption..|side|]. intros es2 s2 Hb2 Hn2 Hle2. cbv beta. built_lts.
  apply wp_bind. eapply wp_push_expect; [eassumption..|done|congruence|side|]. intros. built_lts.
  cbv beta. steps.
  - node (rec_other CExprBody). steps. fin.
  - wrapped (rec_expr 0). steps. fin.
Qed.

Lemma wp_starts_match_pattern s (Q : bool -> PState -> Prop) :
  (forall b, Q b s) -> wp (starts_match_pattern tokens) s Q.
Proof. intros HQ. apply wp_bind, wp_next_kind, wp_ret, HQ. Qed.

Lemma parse_match_expr_ok : keyword_ok T_KwMatch (parse_match_expr tokens fuel rec).
Proof.
  start_keyword ltac:(unfold returns, parse_match_expr). steps. node rec_expr. steps.
  while_built tokens T s (fun s1 => nontriv s1 /\ cursor s < cursor s1)
    (fun es s1 => built False s es s1 /\ nontriv s1 /\ cursor s < cursor s1).
  - apply wp_bind, wp_starts_match_pattern. intros []; steps; destruct_all; [|by fin].
    node parse_match_arm_ok. steps; fin.
  - steps. fin.
Qed.

Lemma wp_repeat_has_binding s (Q : bool -> PState -> Prop) :
  inv s -> (forall b, (b = true -> kind_at s = T_Ident) -> Q b s) ->
  wp (repeat_has_binding tokens) s Q.
Proof.
  intros Hs HQ. unfold repeat_has_binding. steps.
  - unfold ParserWp.wp. cbn. by apply HQ.
  - by apply HQ.
Qed.

Lemma parse_repeat_expr_ok : keyword_ok T_KwRepeat (parse_repeat_expr tokens fuel rec).
Proof.
  start_keyword ltac:(unfold returns, parse_repeat_expr). steps. apply wp_bind, wp_repeat_has_binding; [side|].
  intros binding Hbind.
  apply (wp_cut T (fun es s1 => built False s es s1 /\ nontriv s1 /\ cursor s < cursor s1)).
  - destruct binding; [specialize (Hbind eq_refl)|]; steps; fin.
  - intros es s1 (? & ? & ?). built_lts. node rec_expr. steps. node (rec_other CExprBody).
    steps. fin.
Qed.

Lemma parse_for_expr_ok : keyword_ok T_KwFor (parse_for_expr tokens fuel rec).
Proof.
  start_keyword ltac:(unfold returns, parse_for_expr). steps. node rec_expr. steps. node rec_expr. steps.
  node (rec_other CExprBody). steps. fin.
Qed.

Lemma parse_while_expr_ok : keyword_ok T_KwWhile (parse_while_expr tokens fuel rec).
Proof.
  start_keyword ltac:(unfold returns, parse_while_expr). steps. node rec_expr. steps. node (rec_other CExprBody).
  steps. fin.
Qed.

Lemma parse_comptime_expr_ok : keyword_ok T_KwComptime (parse_comptime_expr tokens fuel rec).
Proof. start_keyword ltac:(unfold returns, parse_comptime_expr). steps. node (rec_other CExprBody). steps. fin. Qed.

Lemma parse_perform_expr_ok : keyword_ok T_KwPerform (parse_perform_expr tokens fuel rec).
Proof.
  start_keyword ltac:(unfold returns, parse_perform_expr). steps. node parse_type_path_ok. steps.
  node parse_arg_list_ok. steps. fin.
Qed.

Lemma parse_array_expr_ok : keyword_ok T_LBracket (parse_array_expr tokens fuel rec).
Proof.
  start_keyword ltac:(unfold returns, parse_array_expr). steps.
  while_built tokens T s (fun s1 => cursor s < cursor s1)
    (fun es s1 => built False s es s1 /\ nontriv s1 /\ cursor s < cursor s1).
  - steps.
    + node rec_expr. steps; [|fin..]. which_expect. steps. fin.
    + fin.
    + fin. unfold ParserWp.nontriv.
      by match goal with H : kind_at _ = _ \/ _ |- _ => destruct H as [-> | ->] end.
  - steps. fin.
Qed.

(** *** Handlers: the loops may not advance, so [T] *)

Lemma parse_handle_arm_ok s :
  T -> inv s -> nontriv s -> returns (fun _ => True) (parse_handle_arm tokens fuel rec) s.
Proof.
  intros HT Hs Hn. pose proof (built_nil tokens s Hs). unfold returns, parse_handle_arm. steps.
  while_built tokens T s (fun s1 => nontriv s1)
    (fun es s1 => built False s es s1 /\ nontriv s1).
  - steps; fin.
  - steps. node (rec_other CExprBody). steps. fin.
Qed.

Lemma parse_handle_expr_ok : keyword_ok T_KwHandle (parse_handle_expr tokens fuel rec).
Proof.
  start_keyword ltac:(unfold returns, parse_handle_expr). assert T as HT by eauto. steps.
  node (rec_other CExprBody). steps.
  while_built tokens T s (fun s1 => nontriv s1 /\ cursor s < cursor s1)
    (fun es s1 => built False s es s1 /\ nontriv s1 /\ cursor s < cursor s1).
  - destruct_all. steps; [|fin]. node parse_handle_arm_ok. steps. fin.
  - steps. fin.
Qed.

(** *** Primary expressions *)

Lemma literal_expr_ok k kind :
  k <> T_Eof -> is_trivia k = false -> kind <> N_ExprBinary ->
  keyword_ok k (literal_expr tokens fuel k kind).
Proof.
  intros Hke Hkt Hkind. start_keyword ltac:(unfold returns, literal_expr). steps. fin.
Qed.

(** A number follows the token at the cursor. *)
Definition numeric_follows (s : PState) : Prop :=
  next_kind (mkPState (S (cursor s)) []) = Some T_Integer \/
  next_kind (mkPState (S (cursor s)) []) = Some T_Float.

Lemma wp_numeric_follows s (Q : bool -> PState -> Prop) :
  (numeric_follows s -> Q true s) -> Q false s ->
  wp (next_non_trivia_kind_is_numeric_literal tokens) s Q.
Proof.
  intros Ht Hf. unfold ParserWp.wp, next_non_trivia_kind_is_numeric_literal, ahead, bind, ret.
  unfold numeric_follows, ParserWp.next_kind in Ht. cbn [cursor] in Ht.
  rewrite drop_drop, Nat.add_1_r. destruct (skip_trivia _) as [|t l]; [done|].
  unfold kind_is. cbn in *.
  destruct (TokenKind_beq (tok_kind t) T_Integer) eqn:E1;
    [|destruct (TokenKind_beq (tok_kind t) T_Float) eqn:E2; [|done]]; apply Ht.
  - left. f_equal. by apply TokenKind_beq_eq.
  - right. f_equal. by apply TokenKind_beq_eq.
Qed.

Lemma numeric_follows_next s s1 :
  numeric_follows s -> cursor s1 = S (cursor s) ->
  next_kind s1 = Some T_Integer \/ next_kind s1 = Some T_Float.
Proof. unfold numeric_follows, ParserWp.next_kind. cbn. by intros ? ->. Qed.

Lemma parse_negative_literal_ok s :
  inv s -> kind_at s = T_Minus -> numeric_follows s -> T \/ 2 * left_ s <= fuel ->
  returns (progress s) (parse_negative_literal tokens fuel) s.
Proof.
  intros Hs Hk Hnum Hf. revert s Hs Hk Hf Hnum. start_keyword ltac:(unfold returns, parse_negative_literal).
  intros Hnum. apply wp_bind. eapply wp_collect_none; [done|done|side|]. steps.
  match goal with |- wp (match next_kind ?s2 with _ => _ end) _ _ =>
    assert (next_kind s2 = Some T_Integer \/ next_kind s2 = Some T_Float) as [Hk2|Hk2]
  end.
  { rewrite next_kind_nontriv by done.
    match goal with H : next_kind ?s1 = Some (kind_at ?s2) |- context [kind_at ?s2] =>
      rewrite <- H; by apply (numeric_follows_next s) end. }
  all: rewrite Hk2; steps; fin; intros _; lia.
Qed.

Lemma parse_bool_literal_ok s :
  inv s -> nontriv s -> kind_at s <> T_Eof -> T \/ 2 * left_ s <= fuel ->
  returns (progress s) (parse_bool_literal tokens fuel) s.
Proof.
  intros Hs Hn Hk Hf. pose proof (built_nil tokens s Hs). unfold returns, parse_bool_literal.
  apply wp_bind. eapply wp_collect_none; [done|done|side|]. steps.
  rewrite next_kind_nontriv by done. steps. fin. intros _. 
  match goal with H : kind_at s = kind_at s -> _ |- _ => specialize (H eq_refl) end. lia.
Qed.

Lemma wp_record_ahead s (Q : bool -> PState -> Prop) :
  (forall b, Q b s) -> wp (starts_record_literal tokens) s Q.
Proof. intros HQ. unfold ParserWp.wp. cbn. apply HQ. Qed.

Lemma parse_name_expr_ok : keyword_ok T_Ident (parse_name_expr tokens fuel rec).
Proof.
  start_keyword ltac:(unfold returns, parse_name_expr). steps. apply wp_bind.
  eapply wp_expect; [eassumption..|done|done|side|]. intros t s1 _ Hb1 Hle1 Hp1. cbv beta zeta.
  built_lts. learn_kinds. destruct (String.eqb _ _); [steps; fin|].
  apply wp_bind, wp_record_ahead. intros b.
  destruct (starts_uppercase _ && b); [|steps; fin].
  steps. node parse_field_init_list_ok. steps. fin.
Qed.

Lemma parse_group_expr_ok : keyword_ok T_LParen (parse_group_expr tokens fuel rec).
Proof. start_keyword ltac:(unfold returns, parse_group_expr). steps. node rec_expr. steps. fin. Qed.

Lemma keyword_primary k m s :
  keyword_ok k m -> inv s -> kind_at s = k -> T \/ 2 * left_ s <= fuel ->
  returns (progress s) m s.
Proof.
  intros Hm Hs Hk Hf. eapply wp_mono; [by apply Hm|]. intros n s' [? ?]. split; [done | by intros _].
Qed.

Lemma parse_primary_expr_ok s :
  inv s -> nontriv s -> T \/ 2 * left_ s <= fuel ->
  returns (progress s) (parse_primary_expr tokens fuel rec) s.
Proof.
  intros Hs Hn Hf. unfold returns, parse_primary_expr. steps.
  rewrite next_kind_nontriv by done.
  destruct (kind_at s) eqn:Hk; try (by apply parse_error_expr_ok).
  all: match goal with
    | |- wp (bind _ _) _ _ =>
        apply wp_bind, wp_numeric_follows; [by intros ?; apply parse_negative_literal_ok |
          by apply parse_error_expr_ok]
    | _ => idtac
    end.
  all: try (apply parse_bool_literal_ok; [done|done|congruence|done]).
  all: try (eapply keyword_primary; [|done|eassumption|done]).
  all: first [ by apply literal_expr_ok | apply parse_if_expr_ok | apply parse_match_expr_ok
             | apply parse_repeat_expr_ok | apply parse_for_expr_ok | apply parse_while_expr_ok
             | apply parse_perform_expr_ok | apply parse_comptime_expr_ok | apply parse_handle_expr_ok
             | apply parse_array_expr_ok | apply parse_name_expr_ok | apply parse_group_expr_ok ].
Qed.

(** *** Prefix and postfix expressions *)

Lemma parse_prefix_expr_ok s :
  inv s -> nontriv s -> T \/ 2 * left_ s <= fuel ->
  returns (progress s) (parse_prefix_expr tokens fuel rec) s.
Proof.
  intros Hs Hn Hf. unfold returns, parse_prefix_expr. steps. rewrite next_kind_nontriv by done.
  pose proof (parse_primary_expr_ok s Hs Hn Hf) as Hprim.
  destruct (kind_at s) eqn:Hk; try exact Hprim. clear Hprim.
  at_keyword s Hs Hk. steps. node rec_postfix. steps. fin.
  intros _. lia.
Qed.

Definition not_node_binary (m : P Node) : Prop := post m not_binary.

Lemma parse_primary_expr_kind : post (parse_primary_expr tokens fuel rec) not_binary.
Proof.
  unfold parse_primary_expr. eapply (post_bind _ _ (fun _ => True)); [apply post_any|].
  intros k _. destruct k as [[]|].
  all: unfold parse_error_expr, parse_if_expr, parse_match_expr, parse_repeat_expr, parse_for_expr,
    parse_while_expr, parse_perform_expr, parse_comptime_expr, parse_handle_expr, parse_array_expr,
    literal_expr, parse_bool_literal, parse_name_expr, parse_group_expr, parse_negative_literal.
  all: post_steps.
  all: match goal with |- post (match ?k with _ => _ end) _ => destruct k as [[]|] end.
  all: unfold parse_error_expr; post_steps.
  all: by intros s.
Qed.

(** A postfix operator: the expression so far becomes the first child. *)
Definition postfix_ok (k : TokenKind) (m : Node -> P Node) : Prop :=
  forall s0 e s, built False s0 [Element_Node e] s -> next_kind s = Some k ->
    T \/ 2 * left_ s <= fuel ->
    wp (m e) s (fun n s' => built False s0 [Element_Node n] s' /\ cursor s < cursor s' /\
                            not_binary n).

Ltac start_postfix m :=
  let s0 := fresh "s0" in let e := fresh "e" in let s := fresh "s" in
  intros s0 e s Hb Hk Hf; built_lts; unfold m; steps.

Lemma postfix_call_ok : postfix_ok T_LParen (postfix_call tokens fuel rec).
Proof. start_postfix postfix_call. node parse_arg_list_ok. steps. fin. Qed.

Lemma postfix_field_ok : postfix_ok T_Dot (postfix_field tokens fuel).
Proof. start_postfix postfix_field. fin. Qed.

Lemma postfix_index_ok : postfix_ok T_LBracket (postfix_index tokens fuel rec).
Proof. start_postfix postfix_index. node rec_expr. steps. fin. Qed.

Lemma postfix_with_ok : postfix_ok T_KwWith (postfix_with tokens fuel rec).
Proof. start_postfix postfix_with. node parse_field_update_list_ok. steps. fin. Qed.

Lemma wp_post {A} (m : P A) s (Q : A -> PState -> Prop) (R : A -> Prop) :
  wp m s Q -> post m R -> wp m s (fun a s' => Q a s' /\ R a).
Proof. unfold ParserWp.wp, post. intros H1 H2. specialize (H2 s). by destruct (m s). Qed.

Lemma parse_prefix_expr_kind : post (parse_prefix_expr tokens fuel rec) not_binary.
Proof.
  unfold parse_prefix_expr. eapply (post_bind _ _ (fun _ => True)); [apply post_any|].
  intros k _. destruct k as [[]|]; try apply parse_primary_expr_kind. post_steps.
Qed.

(** The loop of postfix operators shared by expressions and assignment
    targets: one round, given the operators it tries. *)
Definition postfix_inv (s : PState) (e : Node) (s1 : PState) : Prop :=
  built False s [Element_Node e] s1 /\ progress s s1 /\ not_binary e.

Lemma postfix_round k m s e s1 (Q : Flow Node Node -> PState -> Prop) :
  postfix_ok k m -> postfix_inv s e s1 -> next_kind s1 = Some k -> T \/ 2 * left_ s <= fuel ->
  (forall e' s2, postfix_inv s e' s2 -> cursor s1 < cursor s2 -> Q (Continue e') s2) ->
  wp (let* expr := m e in ret (Continue expr)) s1 Q.
Proof.
  intros Hm (Hb & Hp & Hnb) Hk Hf HQ. built_lts. eapply wp_cut; [eapply Hm; side|].
  intros e' s2 (? & ? & ?). apply wp_ret, HQ; [|done]. split; [done|]. split; [|done].
  intros _. lia.
Qed.

Lemma parse_postfix_expr_ok s :
  inv s -> nontriv s -> T \/ 2 * left_ s <= fuel ->
  wp (parse_postfix_expr tokens fuel rec) s (postfix_inv s).
Proof.
  intros Hs Hn Hf. unfold parse_postfix_expr. eapply wp_cut.
  { apply wp_post; [by apply parse_prefix_expr_ok | apply parse_prefix_expr_kind]. }
  intros e s1 [[Hb Hp] Hnb]. cbv beta. built_lts.
  apply (wp_loop tokens T (postfix_inv s)); [side|intros ? ? [Hb' _]; apply Hb'| |by split].
  intros e1 s2 Hinv. pose proof (built_lt _ _ _ _ _ (proj1 Hinv)). steps.
  1: eapply (postfix_round T_LParen); [apply postfix_call_ok|done..|]; intros; split; [done|side].
  1: eapply (postfix_round T_Dot); [apply postfix_field_ok|done..|]; intros; split; [done|side].
  1: eapply (postfix_round T_LBracket); [apply postfix_index_ok|done..|]; intros; split; [done|side].
  1: eapply (postfix_round T_KwWith); [apply postfix_with_ok|done..|]; intros; split; [done|side].
  done.
Qed.

(** *** Binary expressions *)

Lemma first_infix_trivia tr es :
  Forall trivia_element tr -> first_infix (tr ++ es) = first_infix es.
Proof.
  induction 1 as [|e tr He Htr IH]; [done|]. destruct e as [n|t]; [done|]. cbn in *.
  by assert (infix_binding_power (tok_kind t) = None) as -> by (by destruct (tok_kind t)).
Qed.

Lemma binary_op_new lhs tr1 op tr2 rhs l r :
  Forall trivia_element tr1 -> infix_binding_power (tok_kind op) = Some (l, r) ->
  binary_op (Node_new N_ExprBinary
    (Element_Node lhs :: tr1 ++ Element_Token op :: tr2 ++ [Element_Node rhs]))
  = Some (tok_kind op).
Proof.
  intros Htr Hop. unfold binary_op. rewrite decide_True by done. cbn [node_children Node_new first_infix].
  rewrite first_infix_trivia by done. cbn. by rewrite Hop.
Qed.

Lemma built_binary s0 es s :
  built False s0 es s -> grouped (Node_new N_ExprBinary es) ->
  built False s0 [Element_Node (Node_new N_ExprBinary es)] s.
Proof.
  intros [Hle Hlt Hr Hd Hg] Hgr.
  assert (leaves [Element_Node (Node_new N_ExprBinary es)] = leaves es) as Hl
    by (cbn; by rewrite app_nil_r).
  split; rewrite ?Hl; auto with sarif.
Qed.

Lemma built_node_grouped E s0 n s : built E s0 [Element_Node n] s -> grouped n.
Proof. intros [_ _ _ _ Hg]. inversion Hg as [|? ? H _]. by inversion H. Qed.

(** The left operand so far: how tight it binds, and what may follow it. *)
Definition operand_inv (min_bp : nat) (s : PState) (e : Node) (s1 : PState) : Prop :=
  built False s [Element_Node e] s1 /\ progress s s1 /\
  (forall o l r, binary_op e = Some o -> infix_binding_power o = Some (l, r) -> min_bp <= l) /\
  (forall o l r o2 l2 r2, binary_op e = Some o -> infix_binding_power o = Some (l, r) ->
     next_kind s1 = Some o2 -> infix_binding_power o2 = Some (l2, r2) -> l2 < r).

Lemma infix_not_trivia k l r :
  infix_binding_power k = Some (l, r) -> k <> T_Eof /\ is_trivia k = false.
Proof. by destruct k. Qed.

(** One more operator and its right operand. *)
Lemma operand_round min_bp s lhs s1 op l r (Q : Flow Node Node -> PState -> Prop) :
  operand_inv min_bp s lhs s1 -> next_kind s1 = Some op ->
  infix_binding_power op = Some (l, r) -> min_bp <= l -> T \/ 2 * left_ s <= fuel ->
  (forall e s2, operand_inv min_bp s e s2 -> cursor s1 < cursor s2 -> Q (Continue e) s2) ->
  wp (let* children := collect_trivia tokens fuel [Element_Node lhs] in
      let* children := push_expect tokens fuel op children in
      let* children := collect_trivia tokens fuel children in
      let* children := push_node (rec (CExprBp r)) children in
      ret (Continue (Node_new N_ExprBinary children))) s1 Q.
Proof.
  intros (Hb & Hp & Hmin & Hnext) Hop Hbp Hle Hf HQ. built_lts.
  destruct (infix_not_trivia _ _ _ Hbp) as [Hoe Hot].
  apply wp_bind. eapply wp_collect_trivia_tr; [eassumption..|side|].
  intros tr1 s2 Hb2 Htr1 Hn2 Hk2 Hle2 _. cbv beta. built_lts.
  rewrite next_kind_nontriv, Hop in Hk2 by done. injection Hk2 as Hk2.
  apply wp_bind, wp_bind. eapply wp_expect; [eassumption..|done|done|side|].
  intros t s3 Ht Hb3 _ Hp3. specialize (Hp3 Hk2). apply wp_ret, wp_bind. built_lts.
  eapply wp_collect_trivia_tr; [eassumption..|side|].
  intros tr2 s4 Hb4 Htr2 Hn4 _ Hle4 _. cbv beta. built_lts.
  apply wp_bind. eapply wp_cut; [apply Hrec; cbn; side|].
  intros rhs s5 (Hb5 & Hp5 & Hrhs & Hafter). pose proof (built_le _ _ _ _ _ Hb5).
  apply wp_ret, wp_ret. assert (built False s _ s5) as Hb6 by (eapply built_app; [exact Hb4|exact Hb5]).
  rewrite <- !app_assoc in *. cbn [app] in *. rewrite <- Ht in Hbp.
  apply HQ; [|lia]. split; [|split; [intros _; lia|]].
  - apply built_binary; [done|]. eapply grouped_binary; eauto using built_node_grouped.
    intros o l' r' Ho Hbo. eapply Hnext; [done|done|exact Hop|]. by rewrite <- Ht.
  - pose proof (binary_op_new lhs tr1 t tr2 rhs l r Htr1 Hbp) as Hbo.
    split.
    + intros o l' r' Ho Hl'. rewrite Hbo in Ho. injection Ho as <-.
      rewrite Hbp in Hl'. by injection Hl' as <- <-.
    + intros o l' r' o2 l2 r2 Ho Hl' Ho2 Hl2. rewrite Hbo in Ho. injection Ho as <-.
      rewrite Hbp in Hl'. injection Hl' as <- <-. by eapply Hafter.
Qed.

Lemma not_binary_op n : not_binary n -> binary_op n = None.
Proof. intros H. unfold binary_op. by rewrite decide_False. Qed.

Lemma parse_expr_bp_ok min_bp s :
  inv s -> nontriv s -> T \/ 2 * left_ s <= fuel ->
  wp (parse_expr_bp tokens fuel rec min_bp) s (call_post (CExprBp min_bp) s).
Proof.
  intros Hs Hn Hf. unfold parse_expr_bp. eapply wp_cut; [by apply parse_postfix_expr_ok|].
  intros e s1 (Hb & Hp & Hnb). cbv beta. built_lts.
  apply (wp_loop tokens T (operand_inv min_bp s)); [side|intros ? ? [Hb' _]; apply Hb'| |].
  2: { split; [done|]. split; [done|]. rewrite (not_binary_op e) by done. by split. }
  intros e1 s2 Hinv. steps. destruct (next_kind s2) as [op|] eqn:Hop.
  2: { apply wp_ret. destruct Hinv as (? & ? & ? & ?). split; [done|]. split; [done|].
       split; [done|]. by rewrite Hop. }
  destruct (infix_binding_power op) as [[l r]|] eqn:Hbp.
  2: { apply wp_ret. destruct Hinv as (? & ? & ? & ?). split; [done|]. split; [done|].
       split; [done|]. intros o l r. rewrite Hop. intros [= <-]. congruence. }
  destruct (l <? min_bp) eqn:Hl.
  - apply Nat.ltb_lt in Hl. apply wp_ret. destruct Hinv as (? & ? & ? & ?). split; [done|].
    split; [done|]. split; [done|]. intros o l' r'. rewrite Hop. intros [= <-]. rewrite Hbp.
    by intros [= <- <-].
  - apply Nat.ltb_ge in Hl. eapply operand_round; [done..|]. intros. split; [done|side].
Qed.

(** *** Statements and bodies *)

Lemma parse_tuple_destructure_pattern_ok s0 es s (Q : list Element -> PState -> Prop) :
  built False s0 es s -> nontriv s -> T \/ 2 * left_ s <= fuel ->
  (forall es' s', built False s0 es' s' -> cursor s <= cursor s' -> Q es' s') ->
  wp (parse_tuple_destructure_pattern tokens fuel es) s Q.
Proof.
  intros Hb Hn Hf HQ. built_lts. unfold parse_tuple_destructure_pattern. steps.
  eapply (wp_while tokens T (fun es1 s1 => built False s0 es1 s1 /\ nontriv s1 /\ cursor s <= cursor s1)
    (fun es1 s1 => built False s0 es1 s1 /\ nontriv s1 /\ cursor s <= cursor s1));
    [side|intros ? ? [Hb' _]; apply Hb'|fin| |].
  - intros es1 s1 (? & ? & ?). built_lts. steps; fin.
  - intros es1 s1 (? & ? & ?). built_lts. steps. apply HQ; fin.
Qed.

(** What a [let] binds: a tuple of names, a name, or [_]. *)
Lemma let_target_ok s0 es s :
  built False s0 es s -> nontriv s -> T \/ 2 * left_ s <= fuel ->
  wp (let* tuple := at_kind tokens T_LParen in
      if tuple then parse_tuple_destructure_pattern tokens fuel es
      else
        let* ident := at_kind tokens T_Ident in
        let* underscore := at_kind tokens T_Underscore in
        if ident || underscore then push_bump tokens es else push_expect tokens fuel T_Ident es)
    s (fun es' s' => built False s0 es' s' /\ cursor s <= cursor s').
Proof.
  intros Hb Hn Hf. built_lts. steps; [eapply parse_tuple_destructure_pattern_ok; eauto|..];
    cbn [orb]; steps; fin.
Qed.

Lemma bind_assoc_wp {A B C} (m : P A) (f : A -> P B) (g : B -> P C) s Q :
  wp (bind (bind m f) g) s Q -> wp (bind m (fun a => bind (f a) g)) s Q.
Proof. unfold ParserWp.wp, bind. by destruct (m s). Qed.

Lemma parse_let_stmt_ok : keyword_ok T_KwLet (parse_let_stmt tokens fuel rec).
Proof.
  start_keyword ltac:(unfold returns, parse_let_stmt). steps_to T_LParen.
  all: apply bind_assoc_wp; eapply wp_cut; [eapply let_target_ok; [eassumption|done|side]|].
  all: intros es1 s1 [? ?]; cbv beta; built_lts; steps; node rec_expr; steps; fin.
Qed.

Lemma parse_assign_target_expr_ok :
  keyword_ok T_Ident (parse_assign_target_expr tokens fuel rec).
Proof.
  start_keyword ltac:(unfold returns, parse_assign_target_expr). steps. cbv zeta.
  apply (wp_loop tokens T (fun e s1 => built False s [Element_Node e] s1 /\ cursor s < cursor s1));
    [side|intros ? ? [Hb' _]; apply Hb'| |fin].
  intros e s1 [? ?]. built_lts. steps; [| |fin].
  - eapply wp_cut; [eapply postfix_field_ok; [eassumption|done|side]|].
    intros e2 s2 (? & ? & _). apply wp_ret. fin.
  - eapply wp_cut; [eapply postfix_index_ok; [eassumption|done|side]|].
    intros e2 s2 (? & ? & _). apply wp_ret. fin.
Qed.

Lemma expect_assign_op_cases :
  forall s, exists k, k <> T_Eof /\ is_trivia k = false /\
    expect_assign_op tokens fuel s = expect tokens fuel k s.
Proof.
  intros s. unfold expect_assign_op, current_non_trivia_kind, peek_non_trivia_kind, ahead, bind, ret.
  destruct (option_map _ _) as [[]|]; eexists; (split; [|split; [|reflexivity]]); done.
Qed.

Lemma parse_assign_stmt_ok : keyword_ok T_Ident (parse_assign_stmt tokens fuel rec).
Proof.
  start_keyword ltac:(unfold returns, parse_assign_stmt). node parse_assign_target_expr_ok. steps.
  match goal with |- wp _ ?s1 _ => destruct (expect_assign_op_cases s1) as (k & Hke & Hkt & Heq) end.
  apply wp_bind. unfold ParserWp.wp. rewrite Heq.
  match goal with |- context [expect tokens fuel k ?s1] =>
    change (wp (expect tokens fuel k) s1
      (fun op s2 => wp (
        let* children := collect_trivia tokens fuel (es'0 ++ [Element_Token op]) in
        let* children := push_node (rec (CExprBp 0)) children in
        let* children := collect_trivia tokens fuel children in
        let* children := push_expect tokens fuel T_Semicolon children in
        ret (Node_new N_AssignStmt children)) s2
        (fun n s' => built False s [Element_Node n] s' /\ cursor s < cursor s')))
  end.
  eapply wp_expect; [eassumption|eassumption|eassumption|done|done|side|].
  intros t s2 _ Hb2 Hle2 _. cbv beta. built_lts. steps. node rec_expr. steps. fin.
Qed.

Lemma parse_expr_stmt_ok s :
  inv s -> nontriv s -> T \/ 2 * left_ s + 1 <= fuel ->
  returns (progress s) (parse_expr_stmt tokens fuel rec) s.
Proof.
  intros Hs Hn Hf. pose proof (built_nil tokens s Hs). unfold returns, parse_expr_stmt.
  node rec_expr. steps. fin. intros Hk.
  match goal with H : progress s _ |- _ => specialize (H Hk) end. lia.
Qed.

Lemma parse_with_arena_stmt_ok : keyword_ok T_Ident (parse_with_arena_stmt tokens fuel rec).
Proof. start_keyword ltac:(unfold returns, parse_with_arena_stmt). steps. node (rec_other CExprBody). steps. fin. Qed.

Lemma wp_at_with_arena s (Q : bool -> PState -> Prop) :
  inv s -> (forall b, Q b s) -> wp (at_with_arena tokens) s Q.
Proof.
  intros Hs HQ. destruct (lookup_inv tokens s Hs) as (t & Ht & _).
  unfold ParserWp.wp, at_with_arena. by rewrite Ht.
Qed.

(** The statement of a body, or nothing and the cursor where it was. *)
Definition statement_post (s : PState) (o : option Node) (s' : PState) : Prop :=
  match o with
  | Some n => built False s [Element_Node n] s' /\ cursor s < cursor s'
  | None => s' = s
  end.

Lemma some_statement m s :
  returns (fun s' => cursor s < cursor s') m s ->
  wp (let* n := m in ret (Some n)) s (statement_post s).
Proof. intros Hm. eapply wp_cut; [exact Hm|]. intros n s' Hn. by apply wp_ret. Qed.

(** The scans of the tokens ahead leave the state alone. *)
Lemma wp_scan (f : list Token -> bool) s (Q : bool -> PState -> Prop) :
  (forall b, Q b s) -> wp (let* l := ahead tokens in ret (f l)) s Q.
Proof. intros HQ. apply HQ. Qed.

(** The closure [expr_statement] of [parse_statement]. *)
Lemma expr_statement_ok k s :
  inv s -> nontriv s -> kind_at s = k -> k <> T_Eof -> T \/ 2 * left_ s + 1 <= fuel ->
  wp (if starts_expr k then
        let* is_stmt := next_expr_is_statement tokens in
        if is_stmt then let* n := parse_expr_stmt tokens fuel rec in ret (Some n) else ret None
      else ret None) s (statement_post s).
Proof.
  intros Hs Hn Hk Hke Hf. destruct (starts_expr k); [|done].
  apply wp_bind, wp_scan. intros []; [|done]. apply some_statement.
  eapply wp_mono; [by apply parse_expr_stmt_ok|]. intros n s' [? Hp].
  split; [done|]. apply Hp. congruence.
Qed.

Lemma parse_statement_ok s :
  inv s -> nontriv s -> T \/ 2 * left_ s + 1 <= fuel ->
  wp (parse_statement tokens fuel rec) s (statement_post s).
Proof.
  intros Hs Hn Hf. unfold parse_statement. steps. rewrite next_kind_nontriv by done. cbv zeta.
  pose proof (fun k => expr_statement_ok k s Hs Hn) as He.
  destruct (kind_at s) eqn:Hk;
    try (apply He; [done|done|side]); try (by apply wp_ret).
  - apply wp_bind, wp_at_with_arena; [done|]. intros [].
    + apply some_statement, parse_with_arena_stmt_ok; [done|done|side].
    + apply wp_bind, wp_scan. intros []; [|by apply (He T_Ident)].
      apply some_statement, parse_assign_stmt_ok; [done|done|side].
  - apply some_statement, parse_let_stmt_ok; [done|done|side].
Qed.

Lemma parse_body_tail_ok s0 es s :
  built False s0 es s -> nontriv s -> T \/ 2 * left_ s <= fuel ->
  wp (parse_body_tail tokens fuel es) s
    (fun es' s' => built False s0 es' s' /\ nontriv s' /\ cursor s <= cursor s').
Proof.
  intros Hb Hn Hf. built_lts.
  apply (wp_loop tokens T
    (fun es1 s1 => built False s0 es1 s1 /\ nontriv s1 /\ cursor s <= cursor s1));
    [side|intros ? ? [Hb' _]; apply Hb'| |fin].
  intros es1 s1 (? & ? & ?). built_lts. steps; [|fin].
  apply wp_bind. eapply wp_bump; [done..|]. intros t Ht. apply wp_bind, wp_push_diagnostic. cbv beta.
  match goal with |- context [mkPState _ (_ ++ [?d])] =>
    pose proof (built_step tokens WF s0 es1 s1 t ltac:(eassumption) Ht ltac:(eassumption) [d]) end.
  apply wp_bind. eapply wp_collect_trivia; [eassumption..| |].
  { destruct Hf; [by left|right; unfold ParserWp.left_ in *; cbn; lia]. }
  cbn [cursor]. intros. built_lts. steps. fin.
Qed.

Lemma parse_expr_body_ok s :
  inv s -> nontriv s -> T \/ 2 * left_ s + 1 <= fuel ->
  returns (fun _ => True) (parse_expr_body tokens fuel rec) s.
Proof.
  intros Hs Hn Hf. pose proof (built_nil tokens s Hs). unfold returns, parse_expr_body. steps.
  while_built tokens T s (fun s1 => nontriv s1) (fun es s1 => built False s es s1 /\ nontriv s1).
  - eapply wp_cut; [by apply parse_statement_ok; [..|side]|].
    intros [n|] s3; cbn [statement_post]; [|by intros ->; fin].
    intros [? ?]. built_lts. apply wp_bind.
    eapply wp_collect_trivia; [eassumption|eapply built_app; eassumption|side|intros]. built_lts. steps. fin.
  - steps.
    + node rec_expr. steps. eapply wp_mono; [eapply parse_body_tail_ok; [eassumption|done|side]|].
      intros es3 s5 (? & ? & ?). built_lts. steps. fin.
    + steps. fin.
Qed.

(** *** The recursion *)

Lemma dispatch_ok c s :
  inv s -> nontriv s -> call_pre c s -> T \/ 2 * left_ s + rank c <= fuel ->
  wp (dispatch tokens fuel rec c) s (call_post c s).
Proof.
  intros Hs Hn Hc Hf. destruct c; cbn [dispatch rank call_pre] in *.
  - eapply wp_mono; [by apply parse_type_ok; [..|side]|]. by intros n s' [? _].
  - apply parse_expr_bp_ok; [done|done|side].
  - eapply wp_mono; [by apply parse_postfix_expr_ok; [..|side]|]. by intros n s' (? & ? & _).
  - eapply wp_mono; [by apply parse_if_expr_ok; [..|side]|]. by intros n s' [? _].
  - eapply wp_mono; [by apply parse_expr_body_ok; [..|side]|]. by intros n s' [? _].
Qed.
End Methods.

(** Every method called through the recursion meets its specification. *)
Lemma run_ok tokens (WF : wf_tokens tokens) (T : Prop)
    (Hhandle : forall s, kind_at tokens s = T_KwHandle -> T) fuel :
  call_ok tokens T fuel (run tokens fuel).
Proof.
  induction fuel as [|n IH]; intros c s Hs Hn Hc Hf; cbn [run].
  - destruct Hf; [done | lia].
  - apply dispatch_ok; [done..|]. destruct Hf; [by left | right; lia].
Qed.
