(* ===== verification/ParserItems.v ===== *)
(** * Items and the source file meet their specifications

    The methods of [Parser] above expressions and bodies, with the recursion
    tied ([run]): items, their lists, and [parse_source_file]. *)
From S2P Require Import Prelude Syntax Parser ParserWp ParserProofs.

Section Items.
Context (tokens : list Token) (WF : wf_tokens tokens) (T : Prop) (fuel : nat).

(** The method that may run for ever is reached through the keyword [handle]. *)
Context (Hhandle : forall s, kind_at tokens s = T_KwHandle -> T).

#[local] Abbreviation inv s := (cursor s < length tokens).
#[local] Abbreviation nontriv := (nontriv tokens).
#[local] Abbreviation kind_at := (kind_at tokens).
#[local] Abbreviation left_ := (left_ tokens).
#[local] Abbreviation built := (built tokens).
#[local] Abbreviation wp := (wp T).
#[local] Abbreviation returns := (returns tokens T).
#[local] Abbreviation keyword_ok := (keyword_ok tokens T fuel).

Lemma item_type_ok s :
  inv s -> nontriv s -> T \/ 2 * left_ s + 2 <= fuel ->
  returns (fun _ => True) (item_type tokens fuel) s.
Proof. intros. eapply rec_other; [by apply run_ok|done..]. Qed.

Lemma item_expr_ok s :
  inv s -> nontriv s -> T \/ 2 * left_ s + 1 <= fuel ->
  returns (fun _ => True) (item_expr tokens fuel) s.
Proof.
  intros. eapply wp_mono; [eapply rec_expr; [by apply run_ok|done..]|]. by intros n s' [? _].
Qed.

Lemma item_body_ok s :
  inv s -> nontriv s -> T \/ 2 * left_ s + 2 <= fuel ->
  returns (fun _ => True) (run tokens fuel CExprBody) s.
Proof. intros. eapply rec_other; [by apply run_ok|done..]. Qed.

Lemma parse_const_item_ok : keyword_ok T_KwConst (parse_const_item tokens fuel).
Proof.
  start_keyword ltac:(unfold ParserProofs.returns, parse_const_item). steps.
  node item_type_ok. steps. node item_expr_ok. steps; fin.
Qed.

Lemma parse_import_item_ok : keyword_ok T_KwFrom (parse_import_item tokens fuel).
Proof.
  start_keyword ltac:(unfold ParserProofs.returns, parse_import_item). steps.
  while_built tokens T s (fun s1 => nontriv s1 /\ cursor s < cursor s1)
    (fun es s1 => built False s es s1 /\ nontriv s1 /\ cursor s < cursor s1);
    destruct_all; steps; fin.
Qed.

Lemma parse_generic_param_ok s :
  inv s -> nontriv s -> T \/ left_ s < fuel ->
  returns (fun s' => nontriv s') (parse_generic_param tokens fuel) s.
Proof.
  intros Hs Hn Hf. pose proof (built_nil tokens s Hs).
  unfold ParserProofs.returns, parse_generic_param. steps; fin.
Qed.

Lemma parse_generic_params_ok : keyword_ok T_LBracket (parse_generic_params tokens fuel).
Proof.
  start_keyword ltac:(unfold ParserProofs.returns, parse_generic_params). steps; [fin|].
  while_built tokens T s (fun s1 => nontriv s1 /\ cursor s < cursor s1)
    (fun es s1 => built False s es s1 /\ nontriv s1 /\ cursor s < cursor s1); destruct_all.
  - node parse_generic_param_ok. steps; fin.
  - steps; fin.
Qed.

Lemma parse_param_ok s :
  inv s -> nontriv s -> T \/ 2 * left_ s + 2 <= fuel ->
  returns (fun _ => True) (parse_param tokens fuel) s.
Proof.
  intros Hs Hn Hf. pose proof (built_nil tokens s Hs).
  unfold ParserProofs.returns, parse_param. steps. node item_type_ok. steps. fin.
Qed.

Lemma parse_field_ok s :
  inv s -> nontriv s -> T \/ 2 * left_ s + 2 <= fuel ->
  returns (fun _ => True) (parse_field tokens fuel) s.
Proof.
  intros Hs Hn Hf. pose proof (built_nil tokens s Hs).
  unfold ParserProofs.returns, parse_field. steps. node item_type_ok. steps. fin.
Qed.

Lemma parse_variant_ok s :
  inv s -> nontriv s -> T \/ 2 * left_ s + 2 <= fuel ->
  returns (fun _ => True) (parse_variant tokens fuel) s.
Proof.
  intros Hs Hn Hf. pose proof (built_nil tokens s Hs).
  unfold ParserProofs.returns, parse_variant. steps.
  1: node item_type_ok; steps.
  all: try (node item_expr_ok; steps); fin.
Qed.

(** The comma-separated lists: [item] is one entry. *)
Lemma item_list_ok kind close item s :
  kind <> N_ExprBinary -> is_trivia close = false ->
  (forall s1, inv s1 -> nontriv s1 -> T \/ 2 * left_ s1 + 2 <= fuel ->
     returns (fun _ => True) item s1) ->
  inv s -> T \/ 2 * left_ s + 2 <= fuel ->
  returns (fun s' => nontriv s')
    (let* offset := current_offset tokens in
     let* children := comma_list tokens fuel close (push_node item) [] in
     ret (list_node kind offset children)) s.
Proof.
  intros Hk Hc Hitem Hs Hf. apply list_method_ok; [done|done|done|done|side|].
  intros s1 Hs1 Hn1 Hle. eapply wp_mono; [apply Hitem; side|]. by intros n s2 [? _].
Qed.

Lemma parse_param_list_ok s :
  inv s -> T \/ 2 * left_ s + 2 <= fuel -> returns (fun s' => nontriv s') (parse_param_list tokens fuel) s.
Proof. apply item_list_ok; [done|done|apply parse_param_ok]. Qed.

Lemma parse_field_list_ok s :
  inv s -> T \/ 2 * left_ s + 2 <= fuel -> returns (fun s' => nontriv s') (parse_field_list tokens fuel) s.
Proof. apply item_list_ok; [done|done|apply parse_field_ok]. Qed.

Lemma parse_variant_list_ok s :
  inv s -> T \/ 2 * left_ s + 2 <= fuel -> returns (fun s' => nontriv s') (parse_variant_list tokens fuel) s.
Proof. apply item_list_ok; [done|done|apply parse_variant_ok]. Qed.

Lemma parse_effect_list_ok s :
  inv s -> T \/ 2 * left_ s <= fuel -> returns (fun s' => nontriv s') (parse_effect_list tokens fuel) s.
Proof.
  intros Hs Hf. pose proof (built_nil tokens s Hs).
  unfold ParserProofs.returns, parse_effect_list. step. apply wp_bind.
  eapply comma_list_ok; [done|eassumption|done|side| |].
  - intros es1 s1 Hb1 Hn1 Hle. built_lts. steps. fin.
  - intros es' s' Hb' Hn' Hle. steps. fin.
Qed.

Lemma parse_effects_clause_ok : keyword_ok T_KwEffects (parse_effects_clause tokens fuel).
Proof.
  start_keyword ltac:(unfold ParserProofs.returns, parse_effects_clause). steps.
  node parse_effect_list_ok. steps. fin.
Qed.

Lemma parse_enum_item_ok : keyword_ok T_KwEnum (parse_enum_item tokens fuel).
Proof.
  start_keyword ltac:(unfold ParserProofs.returns, parse_enum_item). steps.
  node parse_variant_list_ok. steps. fin.
Qed.

Lemma parse_struct_item_ok : keyword_ok T_KwStruct (parse_struct_item tokens fuel).
Proof.
  start_keyword ltac:(unfold ParserProofs.returns, parse_struct_item). steps.
  node parse_field_list_ok. steps. fin.
Qed.

Lemma parse_contract_clause_ok k kind :
  k <> T_Eof -> is_trivia k = false -> kind <> N_ExprBinary ->
  keyword_ok k (parse_contract_clause tokens fuel k kind).
Proof.
  intros Hke Hkt Hkind.
  start_keyword ltac:(unfold ParserProofs.returns, parse_contract_clause). steps.
  node item_expr_ok. steps. fin.
Qed.

Lemma built_push_node s0 es s k es1 s1 :
  k <> N_ExprBinary -> built False s0 es s -> built False s es1 s1 ->
  built False s0 (es ++ [Element_Node (Node_new k es1)]) s1.
Proof. intros Hk Hb Hb1. eapply built_app; [exact Hb|]. by apply built_node. Qed.

Lemma parse_return_type_ok s0 es s :
  built False s0 es s -> nontriv s -> T \/ 2 * left_ s <= fuel ->
  wp (parse_return_type tokens fuel es) s
    (fun es' s' => built False s0 es' s' /\ cursor s <= cursor s').
Proof.
  intros Hb Hn Hf. built_lts. pose proof (built_nil tokens s ltac:(done)).
  unfold parse_return_type. steps; [|fin].
  node item_type_ok. steps. split; [by apply built_push_node with (s := s)|]. lia.
Qed.

Lemma parse_method_ok : keyword_ok T_KwFn (parse_method tokens fuel).
Proof.
  start_keyword ltac:(unfold ParserProofs.returns, parse_method). steps.
  node parse_param_list_ok. steps.
  eapply wp_cut; [eapply parse_return_type_ok; [eassumption|done|side]|].
  intros es1 s1 [? ?]. built_lts. steps. fin.
Qed.

Lemma parse_methods_ok s0 es s :
  built False s0 es s -> nontriv s -> T \/ 2 * left_ s <= fuel ->
  wp (parse_methods tokens fuel es) s
    (fun es' s' => built False s0 es' s' /\ nontriv s' /\ cursor s <= cursor s').
Proof.
  intros Hb Hn Hf. built_lts.
  apply (wp_loop tokens T
    (fun es1 s1 => built False s0 es1 s1 /\ nontriv s1 /\ cursor s <= cursor s1));
    [side|intros ? ? [Hb' _]; apply Hb'| |fin].
  intros es1 s1 (? & ? & ?). built_lts. steps; [|fin]. node parse_method_ok. steps. fin.
Qed.

(** A block of methods, up to its closing brace. *)
Ltac methods_block :=
  eapply wp_cut; [eapply parse_methods_ok; [eassumption|done|side]|];
  intros ? ? (? & ? & ?); cbv beta; built_lts; steps; fin.

Lemma parse_effect_item_ok : keyword_ok T_KwEffect (parse_effect_item tokens fuel).
Proof.
  start_keyword ltac:(unfold ParserProofs.returns, parse_effect_item). steps. methods_block.
Qed.

Lemma parse_extern_block_ok : keyword_ok T_KwExtern (parse_extern_block tokens fuel).
Proof.
  start_keyword ltac:(unfold ParserProofs.returns, parse_extern_block). steps. methods_block.
Qed.

Lemma parse_inline_expr_body_ok : keyword_ok T_Eq (parse_inline_expr_body tokens fuel).
Proof.
  start_keyword ltac:(unfold ParserProofs.returns, parse_inline_expr_body). steps.
  node item_expr_ok. steps. fin.
Qed.

(** An optional clause that starts at its keyword. *)
Lemma optional_clause k m s0 es s :
  keyword_ok k m -> built False s0 es s -> T \/ 2 * left_ s <= fuel ->
  wp (let* here := at_kind tokens k in if here then push_node m es else ret es) s
    (fun es' s' => built False s0 es' s' /\ cursor s <= cursor s').
Proof.
  intros Hm Hb Hf. built_lts. steps; [|fin].
  eapply wp_push_node; [done|by apply Hm|]. intros. fin.
Qed.

Ltac clause lem :=
  apply bind_assoc_wp; eapply wp_cut;
  [eapply optional_clause; [apply lem; done|eassumption|side]|];
  intros ? ? [? ?]; cbv beta; built_lts.

Lemma parse_fn_item_ok : keyword_ok T_KwFn (parse_fn_item tokens fuel).
Proof.
  start_keyword ltac:(unfold ParserProofs.returns, parse_fn_item). steps_to T_LBracket.
  apply bind_assoc_wp, (wp_cut T (fun es s1 => built False s es s1 /\ nontriv s1 /\ cursor s < cursor s1)).
  { steps; [|fin]. node parse_generic_params_ok. steps. fin. }
  intros es1 s1 (? & ? & ?). built_lts. steps. node parse_param_list_ok. steps.
  eapply wp_cut; [eapply parse_return_type_ok; [eassumption|done|side]|].
  intros es2 s2 [? ?]. built_lts. steps_to T_KwEffects. clause parse_effects_clause_ok.
  steps_to T_KwRequires. clause parse_contract_clause_ok.
  steps_to T_KwEnsures. clause parse_contract_clause_ok.
  steps; [node parse_inline_expr_body_ok|node item_body_ok]; steps; fin.
Qed.

(** *** The source file *)

Lemma parse_modifiers_ok s :
  inv s -> nontriv s -> T \/ 2 * left_ s <= fuel ->
  wp (parse_modifiers tokens fuel) s
    (fun es s' => built False s es s' /\ nontriv s' /\ cursor s <= cursor s').
Proof.
  intros Hs Hn Hf. pose proof (built_nil tokens s Hs). unfold parse_modifiers.
  apply bind_assoc_wp, (wp_cut T (fun es s1 => built False s es s1 /\ nontriv s1)).
  - steps; fin.
  - intros es1 s1 [? ?]. built_lts. steps; fin.
Qed.

Lemma some_item k m s :
  keyword_ok k m -> inv s -> kind_at s = k -> T \/ 2 * left_ s <= fuel ->
  wp (let* n := m in ret (Some n)) s (statement_post tokens s).
Proof. intros Hm Hs Hk Hf. apply some_statement. by apply Hm. Qed.

Lemma parse_item_ok s :
  inv s -> nontriv s -> T \/ 2 * left_ s <= fuel ->
  wp (parse_item tokens fuel) s (statement_post tokens s).
Proof.
  intros Hs Hn Hf. apply wp_bind, wp_current; [done|]. intros t _ Hk. cbv zeta.
  destruct (tok_kind t) eqn:Hkt; try (by apply wp_ret).
  all: eapply some_item; [|done|exact Hk|done].
  all: first [apply parse_enum_item_ok | apply parse_struct_item_ok | apply parse_effect_item_ok
             | apply parse_extern_block_ok | apply parse_const_item_ok | apply parse_fn_item_ok
             | apply parse_import_item_ok].
Qed.

Lemma parse_item_kind :
  post (parse_item tokens fuel) (fun o => match o with Some n => not_binary n | None => True end).
Proof.
  unfold parse_item. eapply (post_bind _ _ (fun _ => True)); [apply post_any|].
  intros t _. cbv zeta. destruct (tok_kind t); try (by apply post_ret).
  all: eapply (post_bind _ _ not_binary); [|intros; by apply post_ret].
  all: unfold parse_enum_item, parse_struct_item, parse_effect_item, parse_extern_block,
    parse_const_item, parse_fn_item, parse_import_item; post_steps.
Qed.

Lemma leaves_with_modifiers mods n :
  leaves [Element_Node (with_modifiers mods n)] = leaves (mods ++ [Element_Node n]).
Proof.
  destruct mods as [|e mods]; [done|]. destruct n as [k sp es].
  unfold with_modifiers. rewrite leaves_app. cbn. rewrite !app_nil_r.
  rewrite <- app_assoc. by rewrite leaves_app.
Qed.

Lemma built_with_modifiers s0 mods n s :
  not_binary n -> built False s0 (mods ++ [Element_Node n]) s ->
  built False s0 [Element_Node (with_modifiers mods n)] s.
Proof.
  intros Hn [Hle Hlt Hr (ds & Hd & Hc) Hg].
  split; rewrite ?leaves_with_modifiers; eauto.
  repeat constructor. apply Forall_app in Hg as [Hmods Hnode].
  inversion Hnode as [|? ? Hg' _]. inversion Hg' as [|? Hg'']; subst.
  destruct mods as [|e mods]; [done|]. unfold with_modifiers, Node_new.
  constructor; [done|]. apply Forall_app. split; [done|].
  inversion Hg''; subst; [done|]. by destruct Hn.
Qed.

Lemma parse_items_ok s0 es s :
  built False s0 es s -> nontriv s -> T \/ 2 * left_ s <= fuel ->
  wp (parse_items tokens fuel es) s (fun es' s' => built False s0 es' s' /\ nontriv s').
Proof.
  intros Hb Hn Hf. built_lts.
  apply (wp_loop tokens T
    (fun es1 s1 => built False s0 es1 s1 /\ nontriv s1 /\ cursor s <= cursor s1));
    [side|intros ? ? [Hb' _]; apply Hb'| |fin].
  intros es1 s1 (? & ? & ?). built_lts.
  eapply wp_cut; [by apply parse_modifiers_ok; [..|side]|].
  intros mods s2 (? & ? & ?). built_lts.
  eapply wp_cut; [apply wp_post; [by apply parse_item_ok; [..|side]|apply parse_item_kind]|].
  intros [n|] s3; cbn [statement_post].
  - intros [[Hn3 ?] Hnb]. built_lts. apply wp_bind.
    assert (built False s0 (es1 ++ [Element_Node (with_modifiers mods n)]) s3).
    { eapply built_app; [eassumption|]. apply built_with_modifiers; [done|].
      by eapply built_app. }
    steps. fin.
  - intros [-> _]. apply wp_ret. split; [|done]. by eapply built_app.
Qed.

(** What [parse_source_file] ends with. *)
Record source_file_post (n : Node) (s' : PState) : Prop := {
  source_inv : inv s';
  source_reals : reals (node_leaves n) = slice tokens 0 (cursor s');
  source_clean : diagnostics s' = [] -> node_leaves n = tokens;
  source_grouped : grouped n;
  source_kind : node_kind n = N_SourceFile;
  source_end : kind_at s' = T_Eof \/
    Exists (fun d => diag_code d = "parse.out-of-order-item"%string) (diagnostics s')
}.

Lemma source_leaves es : node_leaves (Node_new N_SourceFile es) = leaves es.
Proof. apply node_leaves_new. Qed.

(** At the end of file: the last token is pushed. *)
Lemma source_file_eof es s :
  built False (mkPState 0 []) es s -> kind_at s = T_Eof ->
  wp (let* children := push_bump tokens es in ret (Node_new N_SourceFile children)) s
    source_file_post.
Proof.
  intros Hb Hk. built_lts. apply wp_bind, wp_bind.
  destruct (lookup_inv tokens s) as (t & Ht & _); [done|].
  pose proof (eof_last tokens WF s ltac:(done) Hk) as Hlast.
  destruct (tokens_last_kind tokens WF _ _ Ht Hlast) as [_ Hreal].
  apply wp_bind, wp_current; [done|]. intros t' Ht' _. rewrite Ht in Ht'. injection Ht' as <-.
  unfold ParserWp.wp. rewrite (proj2 (Nat.ltb_ge _ _)) by lia. cbn.
  destruct Hb as [Hle Hlt Hr (ds & Hd & Hc) Hg]. cbn in *.
  split; rewrite ?source_leaves, ?leaves_app; auto.
  - by rewrite reals_app, Hr, (reals_false t), app_nil_r.
  - intros Hnil. rewrite Hnil in Hd. destruct (Hc (eq_sym Hd)) as [[]|Hall].
    assert (reals (leaves es) = leaves es) as Heq.
    { clear -Hall. unfold reals. induction Hall as [|x l Hx _ IH]; cbn; [done|]. by rewrite Hx, IH. }
    rewrite <- Heq, Hr. cbn. rewrite <- (slice_snoc _ _ _ _ Ht) by lia.
    rewrite Hlast. apply slice_full.
  - constructor; [done|]. apply Forall_app. split; auto with sarif.
Qed.

Lemma parse_source_file_ok :
  T \/ 2 * length tokens <= fuel ->
  wp (parse_source_file tokens fuel) (mkPState 0 []) source_file_post.
Proof.
  intros Hf. assert (0 < length tokens) as Hlen.
  { destruct (wf_last _ WF) as (eof & Hl & _). destruct tokens; [done|cbn; lia]. }
  pose proof (built_nil tokens (mkPState 0 []) Hlen) as Hb.
  unfold parse_source_file. apply wp_bind. eapply wp_collect_trivia; [done|done| |].
  { destruct Hf; [by left|right; unfold ParserWp.left_; cbn; lia]. }
  intros es1 s1 Hb1 Hn1 _ _. built_lts.
  eapply wp_cut; [eapply parse_items_ok; [done..|destruct Hf; [by left|right; unfold ParserWp.left_; lia]]|].
  intros es2 s2 [Hb2 Hn2]. built_lts. apply wp_bind, wp_at_kind; [done| |]; intros Hk2.
  - apply wp_bind, wp_ret, wp_bind, wp_at_kind; [done| |]; intros Hk2'; [|done].
    by apply source_file_eof.
  - apply wp_bind, wp_bind, wp_bump; [done..|]. intros t Ht.
    apply wp_bind, wp_push_diagnostic, wp_ret. cbn [cursor diagnostics].
    match goal with |- context [mkPState _ (_ ++ [?d])] =>
      pose proof (built_step tokens WF _ es2 s2 t Hb2 Ht Hk2 [d]) as Hb3 end.
    built_lts. apply wp_bind, wp_at_kind; [done| |]; intros Hk3.
    + eapply wp_mono; [by apply source_file_eof|]. done.
    + apply wp_bind, wp_ret, wp_ret.
      destruct Hb3 as [Hle Hlt Hr (ds & Hd & Hc) Hg].
      split; rewrite ?source_leaves; auto.
      * cbn. by intros [_ ?]%app_nil.
      * by constructor.
      * right. cbn. apply Exists_app. right. by constructor.
Qed.
End Items.
