(* ===== verification/ParserFuel.v ===== *)
(** * More fuel changes nothing

    [refines m m']: whatever [m] ends with, [m'] ends with as well.  Every
    method of [Parser] is monotone in its fuel and in the calls it makes, so a
    parse that ends has one result, however much fuel it is given; and the
    parameter loop of a handler arm is one that never ends. *)
From S2P Require Import Prelude Syntax Parser ParserWp.

(** ** The order *)

Definition refines {A} (m m' : P A) : Prop :=
  forall s, m s <> PFuel -> m' s = m s.

Lemma refines_refl {A} (m : P A) : refines m m.
Proof. by intros s. Qed.

Lemma refines_trans {A} (m1 m2 m3 : P A) : refines m1 m2 -> refines m2 m3 -> refines m1 m3.
Proof. intros H12 H23 s Hs. specialize (H12 s Hs). rewrite H23; congruence. Qed.

#[export] Instance refines_preorder {A} : PreOrder (@refines A).
Proof. split; [intros m; apply refines_refl | intros m1 m2 m3; apply refines_trans]. Qed.

Lemma refines_bind {A B} (m m' : P A) (f f' : A -> P B) :
  refines m m' -> (forall a, refines (f a) (f' a)) -> refines (bind m f) (bind m' f').
Proof.
  intros Hm Hf s. unfold bind. intros Hs. rewrite Hm; [|by intros E; rewrite E in Hs].
  destruct (m s); [|done..]. by apply Hf.
Qed.

Lemma refines_loop {A B} n n' (f f' : A -> P (Flow A B)) :
  n <= n' -> (forall a, refines (f a) (f' a)) -> forall a, refines (loop n f a) (loop n' f' a).
Proof.
  intros Hn Hf. revert n' Hn. induction n as [|n IH]; intros n' Hn a; [by intros s|].
  destruct n' as [|n']; [lia|]. cbn. apply refines_bind; [apply Hf|].
  intros [a'|b]; [|reflexivity]. apply IH. lia.
Qed.

Lemma push_node_refines m m' es : refines m m' -> refines (push_node m es) (push_node m' es).
Proof. intros Hm. apply refines_bind; [done|]. intros n. apply refines_refl. Qed.

(** One layer of a method. *)
Ltac refine_step :=
  lazymatch goal with
  | |- refines ?m ?m => apply refines_refl
  | |- refines (bind _ _) (bind _ _) => apply refines_bind; [|intros ?]
  | |- refines (loop _ _ _) (loop _ _ _) => apply refines_loop; [assumption|intros ?]
  | |- refines (push_node _ _) (push_node _ _) => apply push_node_refines
  | |- refines (if ?b then _ else _) _ => destruct b
  | |- refines (match ?x with _ => _ end) _ => destruct x
  | |- refines (let _ := _ in _) _ => cbv zeta
  | |- _ => solve [auto with refines]
  end.
Ltac refine_steps := repeat refine_step.

Create HintDb refines.

Section Fuel.
Context (tokens : list Token) (n n' : nat) (Hn : n <= n').

Lemma collect_trivia_refines es : refines (collect_trivia tokens n es) (collect_trivia tokens n' es).
Proof. unfold collect_trivia. refine_steps. Qed.

Lemma expect_refines k : refines (expect tokens n k) (expect tokens n' k).
Proof. unfold expect, collect_trivia_into_cursor. refine_steps. Qed.

Lemma push_expect_refines k es : refines (push_expect tokens n k es) (push_expect tokens n' k es).
Proof. unfold push_expect. refine_step; [apply expect_refines|refine_steps]. Qed.

#[local] Hint Resolve collect_trivia_refines expect_refines push_expect_refines
  push_node_refines : refines.

Lemma comma_list_refines close item item' es :
  (forall es, refines (item es) (item' es)) ->
  refines (comma_list tokens n close item es) (comma_list tokens n' close item' es).
Proof. intros Hitem. unfold comma_list. refine_steps. Qed.

#[local] Hint Resolve comma_list_refines : refines.

Section Grammar.
Context (rec rec' : Call -> P Node) (Hrec : forall c, refines (rec c) (rec' c)).

Lemma parse_type_path_refines :
  refines (parse_type_path tokens n rec) (parse_type_path tokens n' rec').
Proof. unfold parse_type_path. refine_steps. Qed.

Lemma parse_array_type_refines :
  refines (parse_array_type tokens n rec) (parse_array_type tokens n' rec').
Proof. unfold parse_array_type. refine_steps. Qed.

#[local] Hint Resolve parse_type_path_refines parse_array_type_refines : refines.

Lemma parse_arg_list_refines :
  refines (parse_arg_list tokens n rec) (parse_arg_list tokens n' rec').
Proof. unfold parse_arg_list. refine_steps. Qed.

Lemma parse_field_init_refines :
  refines (parse_field_init tokens n rec) (parse_field_init tokens n' rec').
Proof. unfold parse_field_init. refine_steps. Qed.

Lemma parse_field_update_refines :
  refines (parse_field_update tokens n rec) (parse_field_update tokens n' rec').
Proof. unfold parse_field_update. refine_steps. Qed.

#[local] Hint Resolve parse_arg_list_refines parse_field_init_refines parse_field_update_refines
  : refines.

Lemma parse_match_pattern_atom_refines :
  refines (parse_match_pattern_atom tokens n rec) (parse_match_pattern_atom tokens n' rec').
Proof. unfold parse_match_pattern_atom. refine_steps. Qed.

#[local] Hint Resolve parse_match_pattern_atom_refines : refines.

Lemma parse_match_pattern_refines :
  refines (parse_match_pattern tokens n rec) (parse_match_pattern tokens n' rec').
Proof. unfold parse_match_pattern. refine_steps. Qed.

#[local] Hint Resolve parse_match_pattern_refines : refines.

Lemma parse_match_arm_refines :
  refines (parse_match_arm tokens n rec) (parse_match_arm tokens n' rec').
Proof. unfold parse_match_arm. refine_steps. Qed.

Lemma parse_handle_params_refines es :
  refines (parse_handle_params tokens n es) (parse_handle_params tokens n' es).
Proof. unfold parse_handle_params. refine_steps. Qed.

#[local] Hint Resolve parse_match_arm_refines parse_handle_params_refines : refines.

Lemma parse_handle_arm_refines :
  refines (parse_handle_arm tokens n rec) (parse_handle_arm tokens n' rec').
Proof. unfold parse_handle_arm. refine_steps. Qed.

#[local] Hint Resolve parse_handle_arm_refines : refines.

Lemma parse_if_expr_refines :
  refines (parse_if_expr tokens n rec) (parse_if_expr tokens n' rec').
Proof. unfold parse_if_expr. refine_steps. Qed.

Lemma keyword_exprs_refine :
  refines (parse_match_expr tokens n rec) (parse_match_expr tokens n' rec') /\
  refines (parse_repeat_expr tokens n rec) (parse_repeat_expr tokens n' rec') /\
  refines (parse_for_expr tokens n rec) (parse_for_expr tokens n' rec') /\
  refines (parse_while_expr tokens n rec) (parse_while_expr tokens n' rec') /\
  refines (parse_comptime_expr tokens n rec) (parse_comptime_expr tokens n' rec') /\
  refines (parse_perform_expr tokens n rec) (parse_perform_expr tokens n' rec') /\
  refines (parse_handle_expr tokens n rec) (parse_handle_expr tokens n' rec') /\
  refines (parse_array_expr tokens n rec) (parse_array_expr tokens n' rec').
Proof.
  unfold parse_match_expr, parse_repeat_expr, parse_for_expr, parse_while_expr,
    parse_comptime_expr, parse_perform_expr, parse_handle_expr, parse_array_expr.
  repeat split; refine_steps.
Qed.

Lemma parse_primary_expr_refines :
  refines (parse_primary_expr tokens n rec) (parse_primary_expr tokens n' rec').
Proof.
  unfold parse_primary_expr, literal_expr, parse_negative_literal, parse_bool_literal,
    parse_name_expr, parse_field_init_list, parse_group_expr.
  pose proof keyword_exprs_refine. destruct_all. pose proof parse_if_expr_refines.
  refine_steps.
Qed.

#[local] Hint Resolve parse_primary_expr_refines parse_if_expr_refines : refines.

Lemma parse_prefix_expr_refines :
  refines (parse_prefix_expr tokens n rec) (parse_prefix_expr tokens n' rec').
Proof. unfold parse_prefix_expr. refine_steps. Qed.

Lemma postfix_field_refines e : refines (postfix_field tokens n e) (postfix_field tokens n' e).
Proof. unfold postfix_field. refine_steps. Qed.

Lemma postfix_index_refines e :
  refines (postfix_index tokens n rec e) (postfix_index tokens n' rec' e).
Proof. unfold postfix_index. refine_steps. Qed.

#[local] Hint Resolve parse_prefix_expr_refines postfix_field_refines postfix_index_refines
  : refines.

Lemma parse_postfix_expr_refines :
  refines (parse_postfix_expr tokens n rec) (parse_postfix_expr tokens n' rec').
Proof.
  unfold parse_postfix_expr, postfix_call, postfix_with, parse_field_update_list. refine_steps.
Qed.

#[local] Hint Resolve parse_postfix_expr_refines : refines.

Lemma parse_expr_bp_refines b :
  refines (parse_expr_bp tokens n rec b) (parse_expr_bp tokens n' rec' b).
Proof. unfold parse_expr_bp. refine_steps. Qed.

Lemma parse_statement_refines :
  refines (parse_statement tokens n rec) (parse_statement tokens n' rec').
Proof.
  unfold parse_statement, parse_let_stmt, parse_tuple_destructure_pattern, parse_assign_stmt,
    parse_assign_target_expr, expect_assign_op, parse_expr_stmt, parse_with_arena_stmt.
  refine_steps.
Qed.

#[local] Hint Resolve parse_expr_bp_refines parse_statement_refines : refines.

Lemma parse_expr_body_refines :
  refines (parse_expr_body tokens n rec) (parse_expr_body tokens n' rec').
Proof. unfold parse_expr_body, parse_body_tail. refine_steps. Qed.

Lemma dispatch_refines c :
  refines (dispatch tokens n rec c) (dispatch tokens n' rec' c).
Proof. pose proof parse_expr_body_refines. destruct c; cbn; unfold parse_type; refine_steps. Qed.
End Grammar.
End Fuel.

Lemma run_refines tokens n n' c : n <= n' -> refines (run tokens n c) (run tokens n' c).
Proof.
  revert n' c. induction n as [|n IH]; intros n' c Hn; [by intros s|].
  destruct n' as [|n']; [lia|]. apply dispatch_refines; [lia|]. intros c'. apply IH. lia.
Qed.

Section Items.
Context (tokens : list Token) (n n' : nat) (Hn : n <= n').

#[local] Hint Resolve collect_trivia_refines expect_refines push_expect_refines
  comma_list_refines run_refines push_node_refines : refines.

Lemma parse_generic_params_refines :
  refines (parse_generic_params tokens n) (parse_generic_params tokens n').
Proof. unfold parse_generic_params, parse_generic_param. refine_steps. Qed.

Lemma parse_param_refines : refines (parse_param tokens n) (parse_param tokens n').
Proof. unfold parse_param, item_type. refine_steps. Qed.

Lemma parse_field_refines : refines (parse_field tokens n) (parse_field tokens n').
Proof. unfold parse_field, item_type. refine_steps. Qed.

Lemma parse_variant_refines : refines (parse_variant tokens n) (parse_variant tokens n').
Proof. unfold parse_variant, item_type, item_expr. refine_steps. Qed.

#[local] Hint Resolve parse_generic_params_refines parse_param_refines parse_field_refines
  parse_variant_refines : refines.

Lemma parse_param_list_refines : refines (parse_param_list tokens n) (parse_param_list tokens n').
Proof. unfold parse_param_list. refine_steps. Qed.

Lemma parse_return_type_refines es :
  refines (parse_return_type tokens n es) (parse_return_type tokens n' es).
Proof. unfold parse_return_type, item_type. refine_steps. Qed.

#[local] Hint Resolve parse_param_list_refines parse_return_type_refines : refines.

Lemma parse_methods_refines es : refines (parse_methods tokens n es) (parse_methods tokens n' es).
Proof. unfold parse_methods, parse_method. refine_steps. Qed.

#[local] Hint Resolve parse_methods_refines : refines.

Lemma parse_fn_item_refines : refines (parse_fn_item tokens n) (parse_fn_item tokens n').
Proof.
  unfold parse_fn_item, parse_effects_clause, parse_effect_list, parse_contract_clause,
    parse_inline_expr_body, item_expr. refine_steps.
Qed.

#[local] Hint Resolve parse_fn_item_refines : refines.

Lemma parse_item_refines : refines (parse_item tokens n) (parse_item tokens n').
Proof.
  unfold parse_item, parse_enum_item, parse_variant_list, parse_struct_item, parse_field_list,
    parse_effect_item, parse_extern_block, parse_const_item, parse_import_item, item_type, item_expr.
  refine_steps.
Qed.

#[local] Hint Resolve parse_item_refines : refines.

Lemma parse_source_file_refines :
  refines (parse_source_file tokens n) (parse_source_file tokens n').
Proof. unfold parse_source_file, parse_items, parse_modifiers. refine_steps. Qed.
End Items.

(** ** A loop that never ends *)

(** The kinds of tokens the parameter loop of a handler arm makes no progress on. *)
Definition stuck_param (k : TokenKind) : bool :=
  match k with
  | T_RParen | T_Eof | T_Ident | T_Comma | T_Whitespace | T_Newline | T_Comment => false
  | _ => true
  end.

Lemma stuck_at_kind tokens s t k :
  tokens !! cursor s = Some t -> tok_kind t <> k -> at_kind tokens k s = POk false s.
Proof.
  intros Ht Hk. unfold at_kind, current, bind, ret. rewrite Ht. unfold kind_is.
  destruct (TokenKind_beq _ _) eqn:E; [by apply TokenKind_beq_eq in E|done].
Qed.

Lemma stuck_collect tokens n s t es :
  tokens !! cursor s = Some t -> is_trivia (tok_kind t) = false ->
  collect_trivia tokens (S n) es s = POk es s.
Proof. intros Ht Hk. cbn. unfold current, bind, ret. by rewrite Ht, Hk. Qed.

Lemma stuck_into_cursor tokens n s t :
  tokens !! cursor s = Some t -> is_trivia (tok_kind t) = false ->
  collect_trivia_into_cursor tokens (S n) s = POk tt s.
Proof. intros Ht Hk. cbn. unfold current, bind, ret. by rewrite Ht, Hk. Qed.

(** One round reports a missing identifier and stays where it was. *)
Lemma stuck_round tokens n s t es :
  tokens !! cursor s = Some t -> stuck_param (tok_kind t) = true ->
  exists d e,
    (let* more := not_at_close tokens T_RParen in
     if more then
       let* arm_children := push_expect tokens (S n) T_Ident es in
       let* arm_children := collect_trivia tokens (S n) arm_children in
       let* comma := at_kind tokens T_Comma in
       if comma then
         let* arm_children := push_bump tokens arm_children in
         let* arm_children := collect_trivia tokens (S n) arm_children in
         ret (Continue (B := list Element) arm_children)
       else ret (Continue arm_children)
     else ret (Break es)) s = POk (Continue (es ++ [e])) (mkPState (cursor s) (diagnostics s ++ [d])).
Proof.
  intros Ht Hk.
  assert (is_trivia (tok_kind t) = false) as Htr by (by destruct (tok_kind t)).
  assert (forall k, stuck_param k = false -> tok_kind t <> k) as Hne by congruence.
  unfold not_at_close, push_expect, expect. unfold bind at 1 2.
  rewrite (stuck_at_kind _ _ t) by auto. unfold bind at 1. rewrite (stuck_at_kind _ _ t) by auto.
  cbn [negb ret]. unfold bind at 1 2 3. rewrite (stuck_into_cursor _ _ _ t) by done.
  unfold bind at 1. rewrite (stuck_at_kind _ _ t) by auto.
  unfold bind at 1, current. rewrite Ht. unfold bind at 1, push_diagnostic, ret. cbv beta iota.
  unfold bind at 1. rewrite (stuck_collect _ _ _ t) by done. unfold bind at 1.
  rewrite (stuck_at_kind _ _ t) by auto. by eexists _, _.
Qed.

Lemma stuck_loop {A B} (fuel : nat) (body : A -> P (Flow A B)) (I : PState -> Prop) a s :
  (forall a s, I s -> exists a' s', body a s = POk (Continue a') s' /\ I s') ->
  I s -> loop fuel body a s = PFuel.
Proof.
  intros Hbody. revert a s. induction fuel as [|n IH]; intros a s HI; [done|].
  cbn. unfold bind. destruct (Hbody a s HI) as (a' & s' & -> & HI'). by apply IH.
Qed.

Lemma handle_params_stuck tokens fuel s t es :
  tokens !! cursor s = Some t -> stuck_param (tok_kind t) = true ->
  parse_handle_params tokens fuel es s = PFuel.
Proof.
  intros Ht Hk. destruct fuel as [|n]; [done|].
  apply stuck_loop with (I := fun s1 => tokens !! cursor s1 = Some t); [|done].
  intros es1 s1 Ht1. destruct (stuck_round tokens n s1 t es1 Ht1 Hk) as (d & e & Heq).
  eexists _, _. split; [exact Heq|done].
Qed.
