(* ===== verification/ParserSpec.v ===== *)
(** * The parser: its theorems

    What [parse] promises of every token slice the lexer can produce: it does
    not panic; it ends, except through the parameter loop of a handler arm; its
    tree holds every token; and binary expressions are grouped by precedence. *)
From S2P Require Import Prelude Syntax Parser ParserWp ParserProofs ParserItems ParserFuel.

(** ** Deciding the hypotheses on a concrete slice *)

Fixpoint wf_check (l : list Token) : bool :=
  match l with
  | [] => false
  | [t] => kind_is T_Eof t && negb (real t)
  | t :: l' => negb (kind_is T_Eof t) && real t && wf_check l'
  end.

Lemma kind_is_true k t : kind_is k t = true <-> tok_kind t = k.
Proof. apply TokenKind_beq_eq. Qed.

Lemma wf_check_cons t t' l :
  wf_check (t :: t' :: l) = true ->
  tok_kind t <> T_Eof /\ real t = true /\ wf_check (t' :: l) = true.
Proof.
  cbn [wf_check]. intros [[Hk Hr]%andb_prop Hl]%andb_prop. split; [|done].
  intros He%kind_is_true. by rewrite He in Hk.
Qed.

Lemma wf_check_ok tokens : wf_check tokens = true -> wf_tokens tokens.
Proof.
  induction tokens as [|t [|t' l] IH]; [done| |].
  - cbn. intros [Hk%kind_is_true Hr]%andb_prop. split.
    + exists t. by destruct (real t).
    + intros [|i] t0; cbn; [lia|done].
  - intros (Hk & Hr & Hl)%wf_check_cons. destruct (IH Hl) as [Hlast Hbody]. split; [done|].
    intros [|i] t0; [by intros [= <-]|]. cbn. intros Ht0 Hi. apply (Hbody i t0 Ht0). cbn. lia.
Qed.

(** No token is the keyword [handle]. *)
Definition handle_free (tokens : list Token) : bool :=
  forallb (fun t => negb (kind_is T_KwHandle t)) tokens.

Lemma handle_free_kind tokens s : handle_free tokens = true -> kind_at tokens s <> T_KwHandle.
Proof.
  intros Hf. unfold kind_at. destruct (tokens !! cursor s) as [t|] eqn:Ht; [|done].
  intros Hk%kind_is_true. apply list_elem_of_lookup_2 in Ht. apply list_elem_of_In in Ht.
  unfold handle_free in Hf. rewrite forallb_forall in Hf. specialize (Hf _ Ht). by rewrite Hk in Hf.
Qed.

(** ** From states to results *)

Lemma parse_wp tokens (T : Prop) fuel (Q : ParseOutput -> Prop) :
  wp T (parse_source_file tokens fuel) (mkPState 0 [])
    (fun n s' => Q (mkParseOutput n (diagnostics s'))) ->
  match parse fuel tokens with
  | Parsed out => Q out
  | ParseRunning => T
  | ParsePanicked => False
  end.
Proof. unfold wp, parse. by destruct (parse_source_file _ _ _). Qed.

(** What a finished parse has, whatever the tokens. *)
Lemma parsed_post tokens fuel out :
  wf_tokens tokens -> parse fuel tokens = Parsed out ->
  exists s', source_file_post tokens (root out) s' /\ diagnostics s' = parse_diagnostics out.
Proof.
  intros WF Hp.
  pose proof (parse_wp tokens True fuel (fun out =>
    exists s', source_file_post tokens (root out) s' /\ diagnostics s' = parse_diagnostics out)) as H.
  rewrite Hp in H. apply H. eapply wp_mono; [by apply parse_source_file_ok; [..|by left]|].
  intros n s' Hpost. by exists s'.
Qed.

Lemma reals_wf tokens : wf_tokens tokens -> reals tokens = slice tokens 0 (length tokens - 1).
Proof.
  intros [(eof & Hlast & _ & Hr) Hbody]. destruct tokens as [|t tokens _] using rev_ind; [done|].
  rewrite last_snoc in Hlast. injection Hlast as ->.
  rewrite reals_app, length_app, Nat.add_sub. cbn [length].
  unfold slice. rewrite Nat.sub_0_r, drop_0, take_app_length.
  unfold reals. cbn. rewrite Hr, app_nil_r.
  assert (Forall (fun t => real t = true) tokens) as Hall.
  { apply Forall_lookup. intros i t Ht. apply (Hbody i t).
    - apply lookup_app_l_Some, Ht.
    - rewrite length_app. apply lookup_lt_Some in Ht. cbn. lia. }
  clear -Hall. induction Hall as [|t l Ht _ IH]; cbn; [done|]. by rewrite Ht, IH.
Qed.

(** ** The properties *)

(** C2: a parse that reports nothing is lossless: the leaves of the tree, in
    order, are the tokens of the source, trivia and end of file included. *)
Theorem parse_lossless tokens fuel out :
  wf_tokens tokens -> parse fuel tokens = Parsed out -> parse_diagnostics out = [] ->
  node_leaves (root out) = tokens.
Proof.
  intros WF Hp Hd. destruct (parsed_post _ _ _ WF Hp) as (s' & Hpost & Hs').
  apply (source_clean _ _ _ Hpost). congruence.
Qed.

(** Whatever is reported, the tokens of the source that the tree holds are
    a prefix of the source, in order and each once; and they are all of them
    unless an item was out of order. *)
Theorem parse_keeps_tokens tokens fuel out :
  wf_tokens tokens -> parse fuel tokens = Parsed out ->
  exists k, reals (node_leaves (root out)) = take k (reals tokens) /\
    (Forall (fun d => diag_code d <> "parse.out-of-order-item"%string) (parse_diagnostics out) ->
     reals (node_leaves (root out)) = reals tokens).
Proof.
  intros WF Hp. destruct (parsed_post _ _ _ WF Hp) as (s' & [Hinv Hr _ _ _ Hend] & <-).
  rewrite (reals_wf tokens) by done. exists (cursor s'). rewrite Hr. split.
  - unfold slice. rewrite !Nat.sub_0_r, !drop_0, take_take. f_equal. lia.
  - intros Hall. destruct Hend as [He|Hex].
    + pose proof (eof_last tokens WF s' Hinv He). f_equal. lia.
    + apply Exists_exists in Hex as (d & Hd & Hc). rewrite Forall_forall in Hall.
      by destruct (Hall d Hd).
Qed.

(** C33: in the tree of any parse, every binary expression is one operator
    between two operands, its left operand binds at least as tight as itself
    and its right operand tighter: precedence and left associativity hold. *)
Theorem parse_well_grouped tokens fuel out :
  wf_tokens tokens -> parse fuel tokens = Parsed out ->
  grouped (root out) /\ node_kind (root out) = N_SourceFile.
Proof.
  intros WF Hp. destruct (parsed_post _ _ _ WF Hp) as (s' & [] & _). done.
Qed.

(** Parsing never panics: no index is out of range and no slice is empty. *)
Theorem parse_never_panics tokens fuel :
  wf_tokens tokens -> parse fuel tokens <> ParsePanicked.
Proof.
  intros WF Hp. pose proof (parse_wp tokens True fuel (fun _ => True)) as H. rewrite Hp in H.
  apply H. eapply wp_mono; [by apply parse_source_file_ok; [..|by left]|]. done.
Qed.

(** Without [handle] parsing ends, with one output for every fuel that is enough. *)
Lemma parse_ends tokens :
  wf_tokens tokens -> handle_free tokens = true ->
  exists out, forall fuel, 2 * length tokens <= fuel -> parse fuel tokens = Parsed out.
Proof.
  intros WF Hfree.
  assert (forall fuel, 2 * length tokens <= fuel -> exists out, parse fuel tokens = Parsed out) as Hall.
  { intros fuel Hf. pose proof (parse_wp tokens False fuel (fun _ => True)) as H.
    destruct (parse fuel tokens) as [out| |]; [by exists out|destruct H..].
    all: eapply wp_mono; [apply parse_source_file_ok; [done| |by right]|done].
    all: intros s Hk; by apply (handle_free_kind tokens s). }
  destruct (Hall _ (le_n _)) as [out Hout]. exists out. intros fuel Hf.
  unfold parse in *. destruct (parse_source_file tokens (2 * length tokens) _) eqn:E; [|done..].
  rewrite (parse_source_file_refines tokens _ _ Hf), E; congruence.
Qed.

(** C34: without the keyword [handle], parsing ends on every token slice that, as
    those of the lexer do, has its only [Eof] at its end: twice the number of
    tokens bounds how deep calls of the parser's methods and rounds of its loops
    are nested, so that all fuel above it gives one and the same result. *)
Theorem parse_terminates tokens :
  wf_tokens tokens -> handle_free tokens = true ->
  exists out, forall fuel, 2 * length tokens <= fuel -> parse fuel tokens = Parsed out.
Proof. apply parse_ends. Qed.

(** A parse that ends has one result, whatever the fuel. *)
Theorem parse_fuel_irrelevant tokens n1 n2 :
  parse n1 tokens <> ParseRunning -> parse n2 tokens <> ParseRunning ->
  parse n1 tokens = parse n2 tokens.
Proof.
  assert (forall n m, n <= m -> parse n tokens <> ParseRunning -> parse m tokens = parse n tokens) as Hle.
  { unfold parse. intros n m Hnm Hn. rewrite (parse_source_file_refines tokens _ _ Hnm); [done|].
    by destruct (parse_source_file tokens n _). }
  intros H1 H2. destruct (decide (n1 <= n2)); [symmetry|]; apply Hle; auto with lia.
Qed.

(** The expression parser, called with a binding power, stops at the first
    operator that binds looser and takes none that does; it moves, and its tree
    holds the tokens it moved across, well grouped. *)
Theorem parse_expr_binding_power tokens fuel min_bp s n s' :
  wf_tokens tokens -> cursor s < length tokens -> nontriv tokens s ->
  run tokens fuel (CExprBp min_bp) s = POk n s' ->
  bp_post tokens min_bp n s' /\ grouped n /\
  reals (node_leaves n) = slice tokens (cursor s) (cursor s') /\
  (kind_at tokens s <> T_Eof -> cursor s < cursor s').
Proof.
  intros WF Hs Hn Hrun.
  pose proof (run_ok tokens WF True ltac:(done) fuel (CExprBp min_bp) s Hs Hn I ltac:(by left)) as H.
  unfold wp in H. rewrite Hrun in H. destruct H as (Hb & Hp & Hbp).
  split; [done|]. split; [by eapply built_node_grouped|]. split; [|done].
  destruct Hb as [_ _ Hr _ _]. cbn in Hr. by rewrite app_nil_r in Hr.
Qed.

(** In a handler arm, a token that is neither an identifier, a comma nor the
    closing parenthesis makes the parameter loop run for ever. *)
Theorem handle_params_diverge tokens s t es :
  tokens !! cursor s = Some t -> stuck_param (tok_kind t) = true ->
  forall fuel, parse_handle_params tokens fuel es s = PFuel.
Proof. intros Ht Hk fuel. by eapply handle_params_stuck. Qed.

Lemma loop_S {A B} n (body : A -> P (Flow A B)) a s :
  loop (S n) body a s
  = match body a s with
    | POk (Continue a') s' => loop n body a' s'
    | POk (Break b) s' => POk b s'
    | PFuel => PFuel
    | PPanic => PPanic
    end.
Proof. cbn. unfold bind. by destruct (body a s) as [[]| |]. Qed.

(** [collect_trivia_into_cursor] stops at the first token that is not trivia. *)
Lemma collect_into_cursor_eq tokens fuel s t rest :
  skip_trivia (drop (cursor s) tokens) = t :: rest -> length tokens - cursor s < fuel ->
  collect_trivia_into_cursor tokens fuel s
  = POk tt (mkPState (length tokens - S (length rest)) (diagnostics s)).
Proof.
  unfold collect_trivia_into_cursor. revert s. induction fuel as [|n IH]; intros s Hs Hf; [lia|].
  rewrite loop_S. unfold bind at 1, current at 1.
  destruct (tokens !! cursor s) as [u|] eqn:Hu.
  - pose proof (lookup_lt_Some _ _ _ Hu) as Hlt. rewrite (drop_S _ _ _ Hu) in Hs. cbn in Hs.
    destruct (is_trivia (tok_kind u)).
    + rewrite IH; [done|done|cbn; lia].
    + injection Hs as -> <-. destruct s as [c ds]. cbn in *. do 2 f_equal.
      rewrite length_drop. lia.
  - apply lookup_ge_None in Hu. by rewrite drop_ge in Hs.
Qed.

(** C40: [expect] skips trivia and looks at the next token.  If it has the
    expected kind the token is returned and the cursor moves past it, except past
    the last token; if not, the cursor stays on it, one [parse.expected-token]
    diagnostic at its span is added, and an empty token of the expected kind with
    its span is returned. *)
Theorem expect_spec tokens fuel kind s t rest :
  skip_trivia (drop (cursor s) tokens) = t :: rest -> length tokens - cursor s < fuel ->
  let j := length tokens - S (length rest) in
  expect tokens fuel kind s
  = if decide (tok_kind t = kind)
    then POk t (mkPState (if decide (rest = []) then j else S j) (diagnostics s))
    else POk (mkToken kind "" (tok_span t))
           (mkPState j (diagnostics s ++ [Diagnostic_new "parse.expected-token"
             ("expected `" ++ TokenKind_debug kind ++ "`, found `"
                ++ TokenKind_debug (tok_kind t) ++ "`")%string
             (tok_span t)
             (Some ("Insert or replace the token so this item matches the grammar for `"
                ++ TokenKind_debug kind ++ "`.")%string)])).
Proof.
  intros Hs Hf j.
  assert (tokens !! j = Some t /\ length rest = length tokens - S j) as [Ht Hrest].
  { clear Hf. unfold j. assert (exists pre, tokens = pre ++ t :: rest) as [pre ->].
    { rewrite <- (take_drop (cursor s) tokens). remember (drop (cursor s) tokens) as l eqn:Hl.
      clear Hl. revert Hs. generalize (take (cursor s) tokens).
      induction l as [|u l IH]; cbn; [done|]. intros pre. destruct (is_trivia (tok_kind u)).
      - intros Hl. rewrite (cons_middle u). rewrite app_assoc. by apply IH.
      - intros [= -> ->]. by exists pre. }
    rewrite length_app. cbn. replace (length pre + S (length rest) - S (length rest)) with (length pre) by lia.
    split; [by apply list_lookup_middle|lia]. }
  unfold expect. unfold bind at 1. rewrite (collect_into_cursor_eq _ _ _ t rest) by done. fold j.
  assert (at_kind tokens kind (mkPState j (diagnostics s))
          = POk (kind_is kind t) (mkPState j (diagnostics s))) as Hat.
  { unfold at_kind, bind, current, ret. cbn. by rewrite Ht. }
  unfold bind at 1. rewrite Hat. pose proof (kind_is_true kind t) as Hk.
  pose proof (lookup_lt_Some _ _ _ Ht).
  destruct (kind_is kind t), (decide (tok_kind t = kind)) as [E|E]; try tauto.
  - unfold bump, bind, current. cbn [cursor diagnostics]. rewrite Ht. cbn [cursor diagnostics].
    case_decide as Hr.
    + subst rest. cbn in Hrest. by rewrite (proj2 (Nat.ltb_ge _ _)) by lia.
    + assert (length rest <> 0) by (by destruct rest). by rewrite (proj2 (Nat.ltb_lt _ _)) by lia.
  - by discriminate (proj2 Hk E).
  - unfold bind, current, push_diagnostic, ret. cbn. by rewrite Ht.
Qed.

(** ** The properties at work *)

(** [fn main() { let a = 1 + 2 * 3; a }] *)
Definition sample : list Token :=
  [ mkToken T_KwFn "fn" (mkSpan 0 2); mkToken T_Whitespace " " (mkSpan 2 3);
    mkToken T_Ident "main" (mkSpan 3 7); mkToken T_LParen "(" (mkSpan 7 8);
    mkToken T_RParen ")" (mkSpan 8 9); mkToken T_Whitespace " " (mkSpan 9 10);
    mkToken T_LBrace "{" (mkSpan 10 11); mkToken T_Whitespace " " (mkSpan 11 12);
    mkToken T_KwLet "let" (mkSpan 12 15); mkToken T_Whitespace " " (mkSpan 15 16);
    mkToken T_Ident "a" (mkSpan 16 17); mkToken T_Whitespace " " (mkSpan 17 18);
    mkToken T_Eq "=" (mkSpan 18 19); mkToken T_Whitespace " " (mkSpan 19 20);
    mkToken T_Integer "1" (mkSpan 20 21); mkToken T_Whitespace " " (mkSpan 21 22);
    mkToken T_Plus "+" (mkSpan 22 23); mkToken T_Whitespace " " (mkSpan 23 24);
    mkToken T_Integer "2" (mkSpan 24 25); mkToken T_Whitespace " " (mkSpan 25 26);
    mkToken T_Star "*" (mkSpan 26 27); mkToken T_Whitespace " " (mkSpan 27 28);
    mkToken T_Integer "3" (mkSpan 28 29); mkToken T_Semicolon ";" (mkSpan 29 30);
    mkToken T_Whitespace " " (mkSpan 30 31); mkToken T_Ident "a" (mkSpan 31 32);
    mkToken T_Whitespace " " (mkSpan 32 33); mkToken T_RBrace "}" (mkSpan 33 34);
    mkToken T_Eof "" (mkSpan 0 0) ].

(** [fn main() { let = 1; } 5 fn f() {}]: a missing name, and an item that is
    not one. *)
Definition broken : list Token :=
  [ mkToken T_KwFn "fn" (mkSpan 0 2); mkToken T_Whitespace " " (mkSpan 2 3);
    mkToken T_Ident "main" (mkSpan 3 7); mkToken T_LParen "(" (mkSpan 7 8);
    mkToken T_RParen ")" (mkSpan 8 9); mkToken T_Whitespace " " (mkSpan 9 10);
    mkToken T_LBrace "{" (mkSpan 10 11); mkToken T_Whitespace " " (mkSpan 11 12);
    mkToken T_KwLet "let" (mkSpan 12 15); mkToken T_Whitespace " " (mkSpan 15 16);
    mkToken T_Eq "=" (mkSpan 16 17); mkToken T_Whitespace " " (mkSpan 17 18);
    mkToken T_Integer "1" (mkSpan 18 19); mkToken T_Semicolon ";" (mkSpan 19 20);
    mkToken T_Whitespace " " (mkSpan 20 21); mkToken T_RBrace "}" (mkSpan 21 22);
    mkToken T_Whitespace " " (mkSpan 22 23); mkToken T_Integer "5" (mkSpan 23 24);
    mkToken T_Whitespace " " (mkSpan 24 25); mkToken T_KwFn "fn" (mkSpan 25 27);
    mkToken T_Whitespace " " (mkSpan 27 28); mkToken T_Ident "f" (mkSpan 28 29);
    mkToken T_LParen "(" (mkSpan 29 30); mkToken T_RParen ")" (mkSpan 30 31);
    mkToken T_Whitespace " " (mkSpan 31 32); mkToken T_LBrace "{" (mkSpan 32 33);
    mkToken T_RBrace "}" (mkSpan 33 34); mkToken T_Eof "" (mkSpan 0 0) ].

(** [fn main() { handle {} with { 1 } }] *)
Definition handle_sample : list Token :=
  [ mkToken T_KwFn "fn" (mkSpan 0 2); mkToken T_Whitespace " " (mkSpan 2 3);
    mkToken T_Ident "main" (mkSpan 3 7); mkToken T_LParen "(" (mkSpan 7 8);
    mkToken T_RParen ")" (mkSpan 8 9); mkToken T_Whitespace " " (mkSpan 9 10);
    mkToken T_LBrace "{" (mkSpan 10 11); mkToken T_Whitespace " " (mkSpan 11 12);
    mkToken T_KwHandle "handle" (mkSpan 12 18); mkToken T_Whitespace " " (mkSpan 18 19);
    mkToken T_LBrace "{" (mkSpan 19 20); mkToken T_RBrace "}" (mkSpan 20 21);
    mkToken T_Whitespace " " (mkSpan 21 22); mkToken T_KwWith "with" (mkSpan 22 26);
    mkToken T_Whitespace " " (mkSpan 26 27); mkToken T_LBrace "{" (mkSpan 27 28);
    mkToken T_Whitespace " " (mkSpan 28 29); mkToken T_Integer "1" (mkSpan 29 30);
    mkToken T_Whitespace " " (mkSpan 30 31); mkToken T_RBrace "}" (mkSpan 31 32);
    mkToken T_Whitespace " " (mkSpan 32 33); mkToken T_RBrace "}" (mkSpan 33 34);
    mkToken T_Eof "" (mkSpan 0 0) ].

Definition parsed (r : ParseResult) : ParseOutput :=
  match r with Parsed out => out | _ => mkParseOutput (Node_empty N_Error 0) [] end.

Lemma sample_wf : wf_tokens sample.
Proof. apply wf_check_ok. vm_compute. reflexivity. Defined.

Lemma broken_wf : wf_tokens broken.
Proof. apply wf_check_ok. vm_compute. reflexivity. Defined.

Lemma parse_lossless_witness :
  node_leaves (root (parsed (parse 100 sample))) = sample.
Proof. apply (parse_lossless sample 100); [apply sample_wf|vm_compute; reflexivity..]. Defined.

Lemma parse_keeps_tokens_witness :
  exists k, reals (node_leaves (root (parsed (parse 100 broken)))) = take k (reals broken) /\
    (Forall (fun d => diag_code d <> "parse.out-of-order-item"%string)
       (parse_diagnostics (parsed (parse 100 broken))) ->
     reals (node_leaves (root (parsed (parse 100 broken)))) = reals broken).
Proof. apply (parse_keeps_tokens broken 100); [apply broken_wf|vm_compute; reflexivity]. Defined.

Lemma parse_well_grouped_witness :
  grouped (root (parsed (parse 100 sample))) /\
  node_kind (root (parsed (parse 100 sample))) = N_SourceFile.
Proof. apply (parse_well_grouped sample 100); [apply sample_wf|vm_compute; reflexivity]. Defined.

Lemma parse_never_panics_witness : parse 10 sample <> ParsePanicked.
Proof. apply (parse_never_panics sample 10), sample_wf. Defined.

Lemma parse_terminates_witness :
  exists out, forall fuel, 2 * length sample <= fuel -> parse fuel sample = Parsed out.
Proof. apply parse_terminates; [apply sample_wf|vm_compute; reflexivity]. Defined.

Lemma parse_fuel_irrelevant_witness : parse 60 sample = parse 100 sample.
Proof. apply parse_fuel_irrelevant; vm_compute; discriminate. Defined.

(** The expression [1 + 2 * 3] of the sample, at its token 14. *)
Lemma parse_expr_binding_power_witness :
  exists n s', run sample 60 (CExprBp 0) (mkPState 14 []) = POk n s' /\
    (bp_post sample 0 n s' /\ grouped n /\
     reals (node_leaves n) = slice sample 14 (cursor s') /\
     (kind_at sample (mkPState 14 []) <> T_Eof -> 14 < cursor s')).
Proof.
  eexists _, _. split; [vm_compute; reflexivity|].
  apply (parse_expr_binding_power sample 60 0 (mkPState 14 [])).
  - apply sample_wf.
  - cbn. lia.
  - vm_compute. reflexivity.
  - vm_compute. reflexivity.
Defined.

Lemma handle_params_diverge_witness :
  parse_handle_params handle_sample 1000 [] (mkPState 17 []) = PFuel.
Proof. apply (handle_params_diverge _ (mkPState 17 []) (mkToken T_Integer "1" (mkSpan 29 30))); reflexivity. Defined.

(** At the integer [5] of the broken sample, [expect] of an identifier. *)
Lemma expect_spec_witness :
  expect broken 60 T_Ident (mkPState 16 [])
  = POk (mkToken T_Ident "" (mkSpan 23 24)) (mkPState 17 [Diagnostic_new "parse.expected-token"
      "expected `Ident`, found `Integer`" (mkSpan 23 24)
      (Some "Insert or replace the token so this item matches the grammar for `Ident`."%string)]).
Proof.
  rewrite (expect_spec broken 60 T_Ident (mkPState 16 []) (mkToken T_Integer "5" (mkSpan 23 24))
             (drop 18 broken)); vm_compute; [reflexivity|reflexivity|lia].
Defined.

(** C37: the program [fn main() { handle {} with { 1 } }] is never parsed: no
    number of loop rounds is enough. *)
Theorem parse_handle_diverges : forall fuel, parse fuel handle_sample = ParseRunning.
Proof.
  intros fuel.
  assert (forall n, parse (20 + n) handle_sample = ParseRunning) as H.
  { intros n.
    let t := eval lazy head beta iota zeta fix match delta -[parse_handle_params] in
      (parse (20 + n) handle_sample) in change (t = ParseRunning).
    rewrite (handle_params_stuck _ _ _ (mkToken T_Integer "1" (mkSpan 29 30))); reflexivity. }
  destruct (decide (20 <= fuel)); [rewrite <- (H (fuel - 20)); f_equal; lia|].
  do 20 (destruct fuel as [|fuel]; [vm_compute; reflexivity|]). lia.
Qed.
