(* ===== verification/LexerSpec.v ===== *)
(** * The lexer: its theorems

    Under the laws of the generated lexer: [lex] ends without a panic, its
    tokens tile the source, and they are a slice the parser's theorems accept.
    The token patterns, with a matcher by derivatives, are an instance. *)
From stdpp Require Import gmap.
From S2P Require Import Prelude Syntax Utf8 Lexer Parser ParserWp ParserSpec.

(** * The patterns of the tokens

    The [#[token]] and [#[regex]] attributes of [RawTokenKind], as regular
    expressions over bytes, and a longest-match lexer over them: the instance
    of the generated lexer the theorems of [LexerSpec] are tried on.  What the
    generated code does is its library's; what the attributes say is here. *)

Inductive regex :=
  | Empty
  | Eps
  | Cls (f : nat -> bool)
  | Cat (r1 r2 : regex)
  | Alt (r1 r2 : regex)
  | Star (r : regex).

Definition is_byte (n a : nat) : bool := a =? n.
Definition one_of (l : list nat) (a : nat) : bool := existsb (is_byte a) l.
Definition is_digit (a : nat) : bool := (48 <=? a) && (a <=? 57).
Definition is_alpha (a : nat) : bool :=
  ((65 <=? a) && (a <=? 90)) || ((97 <=? a) && (a <=? 122)).

Fixpoint lit (s : string) : regex :=
  match s with
  | EmptyString => Eps
  | String a s' => Cat (Cls (is_byte (Ascii.nat_of_ascii a))) (lit s')
  end.
Definition plus (r : regex) : regex := Cat r (Star r).
Definition opt (r : regex) : regex := Alt r Eps.
Definition digits : regex := plus (Cls is_digit).
Definition exponent : regex :=
  Cat (Cls (one_of [101; 69])) (Cat (opt (Cls (one_of [43; 45]))) digits).

(** The attribute of each kind. *)
Definition pattern (kind : RawTokenKind) : regex :=
  match kind with
  | R_Whitespace => plus (Cls (one_of [32; 9; 13; 12]))
  | R_Newline => plus (Cls (is_byte 10))
  | R_Comment => Cat (lit "//") (Star (Cls (fun a => negb (is_byte 10 a))))
  | R_KwAnd => lit "and"
  | R_KwConst => lit "const"
  | R_KwComptime => lit "comptime"
  | R_KwEnsures => lit "ensures"
  | R_KwExtern => lit "extern"
  | R_KwEffect => lit "effect"
  | R_KwEnum => lit "enum"
  | R_KwEffects => lit "effects"
  | R_KwElse => lit "else"
  | R_KwFalse => lit "false"
  | R_KwFn => lit "fn"
  | R_KwFor => lit "for"
  | R_KwFrom => lit "from"
  | R_KwHandle => lit "handle"
  | R_KwIf => lit "if"
  | R_KwImport => lit "import"
  | R_KwIn => lit "in"
  | R_KwLet => lit "let"
  | R_KwMatch => lit "match"
  | R_KwMut => lit "mut"
  | R_KwNot => lit "not"
  | R_KwOr => lit "or"
  | R_KwPerform => lit "perform"
  | R_KwPub => lit "pub"
  | R_KwRepeat => lit "repeat"
  | R_KwRequires => lit "requires"
  | R_KwStruct => lit "struct"
  | R_KwTrue => lit "true"
  | R_KwWhile => lit "while"
  | R_KwWith => lit "with"
  | R_Arrow => lit "->"
  | R_Amp => lit "&"
  | R_Caret => lit "^"
  | R_Colon => lit ":"
  | R_Comma => lit ","
  | R_DotDot => lit ".."
  | R_Dot => lit "."
  | R_Eq => lit "="
  | R_PlusEq => lit "+="
  | R_MinusEq => lit "-="
  | R_StarEq => lit "*="
  | R_SlashEq => lit "/="
  | R_FatArrow => lit "=>"
  | R_EqEq => lit "=="
  | R_Ge => lit ">="
  | R_Gt => lit ">"
  | R_LBrace => lit "{"
  | R_LBracket => lit "["
  | R_Le => lit "<="
  | R_Lt => lit "<"
  | R_LParen => lit "("
  | R_Minus => lit "-"
  | R_NotEq => lit "!="
  | R_Pipe => lit "|"
  | R_Plus => lit "+"
  | R_RBrace => lit "}"
  | R_RBracket => lit "]"
  | R_RParen => lit ")"
  | R_Semicolon => lit ";"
  | R_Shl => lit "<<"
  | R_Slash => lit "/"
  | R_Shr => lit ">>"
  | R_Star => lit "*"
  | R_Percent => lit "%"
  | R_PercentEq => lit "%="
  | R_Underscore => lit "_"
  | R_Float => Alt (Cat digits (Cat (lit ".") (Cat digits (opt exponent)))) (Cat digits exponent)
  | R_Integer => digits
  | R_String => Cat (Cls (is_byte 34))
      (Cat (Star (Alt (Cls (fun a => negb (is_byte 34 a) && negb (is_byte 92 a)))
                      (Cat (Cls (is_byte 92)) (Cls (fun a => negb (is_byte 10 a))))))
           (Cls (is_byte 34)))
  | R_AttrRepr => Cat (lit "#[repr(")
      (Cat (plus (Cls (fun a => is_alpha a || is_digit a || is_byte 95 a))) (lit ")]"))
  | R_Ident => Cat (Cls is_alpha) (Star (Cls (fun a => is_alpha a || is_digit a || is_byte 95 a)))
  end.

(** The kinds in the order of the enum; at equal length the first wins. *)
Definition raw_kinds : list RawTokenKind :=
  [R_Whitespace; R_Newline; R_Comment; R_KwAnd; R_KwConst; R_KwComptime; R_KwEnsures;
  R_KwExtern; R_KwEffect; R_KwEnum; R_KwEffects; R_KwElse; R_KwFalse; R_KwFn; R_KwFor;
  R_KwFrom; R_KwHandle; R_KwIf; R_KwImport; R_KwIn; R_KwLet; R_KwMatch; R_KwMut; R_KwNot;
  R_KwOr; R_KwPerform; R_KwPub; R_KwRepeat; R_KwRequires; R_KwStruct; R_KwTrue; R_KwWhile;
  R_KwWith; R_Arrow; R_Amp; R_Caret; R_Colon; R_Comma; R_DotDot; R_Dot; R_Eq; R_PlusEq;
  R_MinusEq; R_StarEq; R_SlashEq; R_FatArrow; R_EqEq; R_Ge; R_Gt; R_LBrace; R_LBracket; R_Le;
  R_Lt; R_LParen; R_Minus; R_NotEq; R_Pipe; R_Plus; R_RBrace; R_RBracket; R_RParen;
  R_Semicolon; R_Shl; R_Slash; R_Shr; R_Star; R_Percent; R_PercentEq; R_Underscore; R_Float;
  R_Integer; R_String; R_AttrRepr; R_Ident].

(** ** Matching by derivatives *)

Fixpoint nullable (r : regex) : bool :=
  match r with
  | Empty | Cls _ => false
  | Eps | Star _ => true
  | Cat r1 r2 => nullable r1 && nullable r2
  | Alt r1 r2 => nullable r1 || nullable r2
  end.

Definition cat (r1 r2 : regex) : regex :=
  match r1 with Empty => Empty | Eps => r2 | _ => match r2 with Empty => Empty | _ => Cat r1 r2 end end.
Definition alt (r1 r2 : regex) : regex :=
  match r1, r2 with Empty, _ => r2 | _, Empty => r1 | _, _ => Alt r1 r2 end.

Fixpoint deriv (a : nat) (r : regex) : regex :=
  match r with
  | Empty | Eps => Empty
  | Cls f => if f a then Eps else Empty
  | Cat r1 r2 =>
      if nullable r1 then alt (cat (deriv a r1) r2) (deriv a r2) else cat (deriv a r1) r2
  | Alt r1 r2 => alt (deriv a r1) (deriv a r2)
  | Star r1 => cat (deriv a r1) (Star r1)
  end.

(** The length of the longest prefix that matches, if any does. *)
Fixpoint longest (r : regex) (l : list Ascii.ascii) : option nat :=
  match l with
  | [] => if nullable r then Some 0 else None
  | a :: l' =>
      match deriv (Ascii.nat_of_ascii a) r with
      | Empty => if nullable r then Some 0 else None
      | r' =>
          match longest r' l' with
          | Some n => Some (S n)
          | None => if nullable r then Some 0 else None
          end
      end
  end.

(** The kind with the longest match that is not empty, the first of equals. *)
Definition best_kind (l : list Ascii.ascii) : option (RawTokenKind * nat) :=
  fold_left (fun best kind =>
    match longest (pattern kind) l with
    | Some (S n) =>
        match best with
        | Some (_, m) => if m <? S n then Some (kind, S n) else best
        | None => Some (kind, S n)
        end
    | _ => best
    end) raw_kinds None.

(** The next boundary after [i], looking at [n] bytes at most. *)
Fixpoint boundary_after (s : string) (i n : nat) : nat :=
  match n with
  | 0 => i
  | S n' => if is_char_boundary s i then i else boundary_after s (S i) n'
  end.

(** A lexer over the patterns: a NUL byte is an error over no byte, any other
    error covers one character. *)
Definition pattern_next : LogosNext := fun src pos =>
  match drop pos (bytes src) with
  | [] => None
  | (a :: _) as l =>
      let error_end := boundary_after src (S pos) (String.length src - S pos) in
      if (Ascii.nat_of_ascii a =? 0) && is_char_boundary src (pos + 1) then Some (None, pos, pos)
      else
        match best_kind l with
        | Some (kind, n) =>
            if is_char_boundary src (pos + n) && (pos + n <=? String.length src)
            then Some (Some kind, pos, pos + n)
            else Some (None, pos, error_end)
        | None => Some (None, pos, error_end)
        end
  end.

(** * The lexer: its theorems *)

(** What [logos] documents of the lexer it generates for a type without
    skipped patterns: it stops only at the end; a token starts where the last
    one ended and ends inside the source, on a character boundary; a match is
    not empty; an error over no byte stands before a one-byte character. *)
Class LogosLaws (next : LogosNext) : Prop := {
  logos_end src pos : next src pos = None -> String.length src <= pos;
  logos_span src pos r a b :
    pos <= String.length src -> next src pos = Some (r, a, b) ->
    a = pos /\ a <= b /\ b <= String.length src /\ a < String.length src;
  logos_match src pos k a b : next src pos = Some (Some k, a, b) -> a < b;
  logos_boundary src pos r a b :
    is_char_boundary src pos = true -> next src pos = Some (r, a, b) ->
    is_char_boundary src b = true;
  logos_empty src pos a :
    is_char_boundary src pos = true -> next src pos = Some (None, a, a) ->
    is_char_boundary src (a + 1) = true
}.

(** ** The bytes a lexer keeps *)

(** The bytes of a list whose index, counted from [i], is not in [skipped]. *)
Fixpoint kept (skipped : list nat) (i : nat) (l : list Ascii.ascii) : list Ascii.ascii :=
  match l with
  | [] => []
  | a :: l' =>
      if bool_decide (i ∈ skipped) then kept skipped (S i) l' else a :: kept skipped (S i) l'
  end.

(** The positions of the bytes that were reported and skipped. *)
Definition skipped (ds : list Diagnostic) : list nat :=
  map (fun d => span_start (diag_span d))
    (List.filter (fun d => String.eqb (diag_code d) "lex.null-byte") ds).

Definition lexemes (ts : list Token) : string :=
  fold_right (fun t s => (tok_lexeme t ++ s)%string) ""%string ts.

Lemma kept_app sk i l1 l2 : kept sk i (l1 ++ l2) = kept sk i l1 ++ kept sk (i + length l1) l2.
Proof.
  revert i. induction l1 as [|a l1 IH]; intros i; cbn; [by rewrite Nat.add_0_r|].
  rewrite IH, Nat.add_succ_r. by case_bool_decide.
Qed.

(** Positions before a segment leave it whole. *)
Lemma kept_whole sk i l : Forall (fun p => p < i) sk -> kept sk i l = l.
Proof.
  revert i. induction l as [|a l IH]; intros i Hsk; cbn; [done|]. rewrite bool_decide_false.
  - f_equal. apply IH. eapply Forall_impl; [exact Hsk|]. cbn. lia.
  - intros Hin. rewrite Forall_forall in Hsk. specialize (Hsk _ Hin). lia.
Qed.

(** A position after a segment changes nothing in it. *)
Lemma kept_after sk p i l : i + length l <= p -> kept (sk ++ [p]) i l = kept sk i l.
Proof.
  revert i. induction l as [|a l IH]; intros i Hp; cbn in *; [done|]. rewrite IH by lia.
  assert (i ∈ sk ++ [p] <-> i ∈ sk) as Hiff.
  { rewrite elem_of_app, list_elem_of_singleton. split; [intros [|]; [done|lia]|by left]. }
  by rewrite (bool_decide_ext _ _ Hiff).
Qed.

Lemma lexemes_app ts1 ts2 : lexemes (ts1 ++ ts2) = (lexemes ts1 ++ lexemes ts2)%string.
Proof.
  apply bytes_inj. rewrite bytes_app.
  induction ts1 as [|t ts1 IH]; [done|]. unfold lexemes in *. cbn [app fold_right].
  by rewrite !bytes_app, IH, app_assoc.
Qed.

Lemma skipped_app ds1 ds2 : skipped (ds1 ++ ds2) = skipped ds1 ++ skipped ds2.
Proof. unfold skipped. by rewrite List.filter_app, map_app. Qed.

(** ** The invariant of the loop *)

Section Lex.
Context (logos_next : LogosNext) `{!LogosLaws logos_next} (source : string).

#[local] Abbreviation len := (String.length source).

(** How far the source has been read. *)
Definition read_to (s : LexState) : nat := source_offset s + lexer_end s.

(** A token that is not the end of file: its lexeme is the source at its span. *)
Definition token_ok (t : Token) : Prop :=
  tok_kind t <> T_Eof /\ span_start (tok_span t) < span_end (tok_span t) /\
  span_end (tok_span t) <= len /\
  bytes (tok_lexeme t) = slice (bytes source) (span_start (tok_span t)) (span_end (tok_span t)).

Definition cache_ok (cache : gmap string string) : Prop :=
  forall k v, cache !! k = Some v -> v = k.

Record lex_inv (s : LexState) : Prop := {
  inv_offset : source_offset s <= len;
  inv_source : bytes (lexer_source s) = drop (source_offset s) (bytes source);
  inv_base : is_char_boundary source (source_offset s) = true;
  inv_end : lexer_end s <= String.length (lexer_source s);
  inv_boundary : is_char_boundary (lexer_source s) (lexer_end s) = true;
  inv_cache : cache_ok (ident_cache s);
  inv_tokens : Forall token_ok (tokens (output s));
  inv_skipped : Forall (fun p => p < read_to s) (skipped (lex_diagnostics (output s)));
  inv_restart : skipped (lex_diagnostics (output s)) = [] -> source_offset s = 0;
  inv_kept : bytes (lexemes (tokens (output s)))
             = kept (skipped (lex_diagnostics (output s))) 0 (take (read_to s) (bytes source))
}.

Lemma lexer_source_length s :
  lex_inv s -> String.length (lexer_source s) = len - source_offset s.
Proof.
  intros Hi. pose proof (f_equal length (inv_source _ Hi)) as Hl.
  by rewrite length_drop, !bytes_length in Hl.
Qed.

Lemma read_to_le s : lex_inv s -> read_to s <= len.
Proof.
  intros Hi. pose proof (lexer_source_length s Hi). pose proof (inv_end _ Hi).
  pose proof (inv_offset _ Hi). unfold read_to. lia.
Qed.

Lemma lex_start_inv cache : cache_ok cache -> lex_inv (lex_start source cache).
Proof.
  intros Hc. split; cbn; auto with lia.
Qed.

(** The next token or error of a state, in positions of the whole source. *)
Lemma next_span s r a b :
  lex_inv s -> logos_next (lexer_source s) (lexer_end s) = Some (r, a, b) ->
  a = lexer_end s /\ a <= b /\ source_offset s + a < len /\ source_offset s + b <= len /\
  b <= String.length (lexer_source s) /\
  is_char_boundary (lexer_source s) b = true /\
  is_char_boundary source (source_offset s + a) = true /\
  is_char_boundary source (source_offset s + b) = true.
Proof.
  intros Hi Hn. destruct (logos_span _ _ _ _ _ (inv_end _ Hi) Hn) as (-> & Hab & Hb & Ha).
  pose proof (logos_boundary _ _ _ _ _ (inv_boundary _ Hi) Hn) as Hbb.
  pose proof (lexer_source_length s Hi). pose proof (inv_offset _ Hi).
  repeat split; [done|lia|lia|done|done|..].
  - eapply boundary_suffix; eauto using inv_source, inv_offset, inv_base, inv_boundary.
  - eapply boundary_suffix; eauto using inv_source, inv_offset, inv_base, inv_boundary.
Qed.

Lemma intern_ident_ok cache s :
  cache_ok cache -> (intern_ident cache s).1 = s /\ cache_ok (intern_ident cache s).2.
Proof.
  intros Hc. unfold intern_ident. destruct (cache !! s) as [v|] eqn:Hv; cbn.
  - split; [by apply Hc|done].
  - split; [done|]. intros k w. rewrite lookup_insert_Some. intros [[<- <-]|[_ Hk]]; [done|by apply Hc].
Qed.

Lemma map_token_kind_eof k : map_token_kind k <> T_Eof.
Proof. by destruct k. Qed.

(** One more token over [a .. b]. *)
Lemma push_token_inv s a b k lexeme cache ds :
  lex_inv s -> a = lexer_end s -> a < b -> source_offset s + b <= len ->
  is_char_boundary (lexer_source s) b = true -> cache_ok cache -> k <> T_Eof -> skipped ds = [] ->
  bytes lexeme = slice (bytes source) (source_offset s + a) (source_offset s + b) ->
  lex_inv (mkLexState (source_offset s) (lexer_source s) b cache
    (mkLexOutput (tokens (output s)
                    ++ [mkToken k lexeme (mkSpan (source_offset s + a) (source_offset s + b))])
                 (lex_diagnostics (output s) ++ ds))).
Proof.
  intros Hi -> Hab Hb Hbb Hc Hk Hds Hl. pose proof (lexer_source_length s Hi).
  pose proof (inv_offset _ Hi).
  split; cbn [source_offset lexer_source lexer_end ident_cache output tokens lex_diagnostics];
    rewrite ?skipped_app, ?Hds, ?app_nil_r; try apply Hi; try done; try lia.
  - apply Forall_app. split; [apply Hi|]. by repeat constructor; cbn; try done; try lia.
  - eapply Forall_impl; [apply (inv_skipped _ Hi)|]. unfold read_to. cbn. lia.
  - rewrite lexemes_app, bytes_app, (inv_kept _ Hi).
    assert (take (source_offset s + b) (bytes source)
            = take (read_to s) (bytes source)
                ++ slice (bytes source) (read_to s) (source_offset s + b)) as Heq.
    { unfold read_to, slice. rewrite take_take_drop. f_equal. lia. }
    unfold read_to at 2. cbn [source_offset lexer_end]. rewrite Heq, kept_app. f_equal.
    rewrite kept_whole.
    + unfold lexemes. cbn [fold_right tok_lexeme]. rewrite bytes_app. cbn. by rewrite app_nil_r.
    + rewrite length_take, bytes_length. pose proof (read_to_le s Hi).
      rewrite Nat.min_l by done. apply (inv_skipped _ Hi).
Qed.

(** One byte skipped, the lexer restarted after it. *)
Lemma skip_byte_inv s a rest d :
  lex_inv s -> a = read_to s -> a < len -> is_char_boundary source (a + 1) = true ->
  bytes rest = drop (a + 1) (bytes source) -> skipped [d] = [a] ->
  lex_inv (mkLexState (a + 1) rest 0 (ident_cache s) (push_lex_diagnostic (output s) d)).
Proof.
  intros Hi -> Ha Hb Hrest Hd. unfold push_lex_diagnostic.
  split; cbn [source_offset lexer_source lexer_end ident_cache output tokens lex_diagnostics];
    rewrite ?skipped_app, ?Hd; try apply Hi; try done; try lia.
  - apply Forall_app. split.
    + eapply Forall_impl; [apply (inv_skipped _ Hi)|]. unfold read_to at 2. cbn. lia.
    + repeat constructor. unfold read_to at 2. cbn. lia.
  - by intros [_ ?]%app_nil.
  - unfold read_to at 2. cbn [source_offset lexer_end]. rewrite Nat.add_0_r, Nat.add_1_r.
    destruct (lookup_lt_is_Some_2 (bytes source) (read_to s)) as [x Hx]; [by rewrite bytes_length|].
    rewrite (take_S_r _ _ x) by done. rewrite kept_app. cbn [kept].
    rewrite length_take, bytes_length, Nat.min_l by lia. rewrite bool_decide_true by set_solver.
    rewrite app_nil_r, kept_after; [apply (inv_kept _ Hi)|].
    rewrite length_take. lia.
Qed.

Lemma take_token_ok s r b :
  lex_inv s -> lexer_end s < b -> source_offset s + b <= len ->
  is_char_boundary (lexer_source s) b = true ->
  is_char_boundary source (source_offset s + lexer_end s) = true ->
  is_char_boundary source (source_offset s + b) = true ->
  match take_token source s r (source_offset s + lexer_end s) (source_offset s + b) b with
  | LexMore s' => lex_inv s' /\ read_to s < read_to s'
  | _ => False
  end.
Proof.
  intros Hi Hlt Hb Hbb Hba Hbs. unfold take_token. rewrite str_slice_ok; [|lia|done|done].
  pose proof (bytes_slice (source_offset s + lexer_end s) (source_offset s + b) source) as Hl.
  remember (String.substring _ _ source) as lexeme eqn:Heq. clear Heq.
  assert (forall k cache ds, cache_ok cache -> k <> T_Eof -> skipped ds = [] ->
    lex_inv (mkLexState (source_offset s) (lexer_source s) b cache
      (mkLexOutput (tokens (output s) ++
           [mkToken k lexeme (mkSpan (source_offset s + lexer_end s) (source_offset s + b))])
         (lex_diagnostics (output s) ++ ds))) /\
    read_to s < source_offset s + b) as Hpush.
  { intros k cache ds Hc Hk Hds. split; [by apply push_token_inv|]. unfold read_to. lia. }
  destruct r as [k|].
  - pose proof (intern_ident_ok _ lexeme (inv_cache _ Hi)) as [Hs Hc].
    destruct (Hpush (map_token_kind k)
      (if decide (k = R_Ident) then (intern_ident (ident_cache s) lexeme).2 else ident_cache s) [])
      as [Hinv Hr]; [by case_decide; [|apply Hi]|apply map_token_kind_eof|done|].
    rewrite app_nil_r in Hinv. case_decide as Hk; [|by split].
    destruct (intern_ident (ident_cache s) lexeme) as [l c]. cbn in *. by subst l.
  - by apply Hpush; [apply Hi|..].
Qed.

(** A step reads at least one byte. *)
Lemma lex_step_ok s :
  lex_inv s ->
  match lex_step logos_next source s with
  | LexMore s' => lex_inv s' /\ read_to s < read_to s'
  | LexEnd => read_to s = len
  | LexPanic => False
  end.
Proof.
  intros Hi. unfold lex_step. destruct (logos_next _ _) as [[[r a] b]|] eqn:Hn.
  2: { pose proof (logos_end _ _ Hn). pose proof (lexer_source_length s Hi).
       pose proof (inv_end _ Hi). pose proof (inv_offset _ Hi). unfold read_to. lia. }
  destruct (next_span s r a b Hi Hn) as (-> & Hab & Ha & Hb & Hbl & Hbb & Hba & Hbs).
  destruct (_ && _) eqn:Hempty.
  - apply andb_prop in Hempty as [Hr%bool_decide_eq_true Heq%Nat.eqb_eq]. subst r b.
    pose proof (logos_empty _ _ _ (inv_boundary _ Hi) Hn) as Hnext.
    assert (is_char_boundary source (source_offset s + lexer_end s + 1) = true) as Hnext'.
    { rewrite <- Nat.add_assoc. eapply boundary_suffix; eauto using inv_source, inv_offset, inv_base. }
    unfold skip_byte.
    destruct (lookup_lt_is_Some_2 (bytes source) (source_offset s + lexer_end s)) as [x ->];
      [by rewrite bytes_length|].
    rewrite str_slice_ok; [|lia|done|apply boundary_end]. split.
    + apply skip_byte_inv; [done|done|done|done| |done].
      rewrite bytes_substring, take_ge; [done|]. rewrite length_drop, bytes_length. lia.
    + unfold read_to. cbn. lia.
  - assert (lexer_end s < b) as Hlt.
    { destruct r as [k|]; [by apply (logos_match _ _ _ _ _ Hn)|].
      destruct (decide (lexer_end s = b)) as [E|]; [|lia].
      rewrite (proj2 (Nat.eqb_eq _ _) E) in Hempty. by rewrite bool_decide_true in Hempty. }
    pose proof (take_token_ok s r b Hi Hlt Hb Hbb Hba Hbs) as Ht.
    by destruct (take_token _ _ _ _ _ _).
Qed.

Lemma lex_loop_ok fuel s :
  lex_inv s -> len - read_to s < fuel ->
  exists s', lex_inv s' /\ read_to s' = len /\
    lex_loop logos_next source fuel s = Lexed (push_eof s') (ident_cache s').
Proof.
  revert s. induction fuel as [|n IH]; intros s Hi Hf; [lia|]. cbn.
  pose proof (lex_step_ok s Hi) as Hstep. destruct (lex_step _ _ s) as [s'| |]; [|by exists s|done].
  destruct Hstep as [Hi' Hlt]. apply IH; [done|]. pose proof (read_to_le s' Hi'). lia.
Qed.

(** What [lex] ends with. *)
Lemma lex_ok fuel cache :
  cache_ok cache -> len < fuel ->
  exists s', lex_inv s' /\ read_to s' = len /\
    lex logos_next source fuel cache = Lexed (push_eof s') (ident_cache s').
Proof.
  intros Hc Hf. apply lex_loop_ok; [by apply lex_start_inv|]. cbn. lia.
Qed.

Lemma push_eof_wf s : lex_inv s -> wf_tokens (tokens (push_eof s)).
Proof.
  intros Hi. cbn. split.
  - exists (mkToken T_Eof "" (empty_at (source_offset s))). by rewrite last_snoc.
  - intros i t Ht Hlt. rewrite length_app in Hlt. cbn in Hlt.
    rewrite lookup_app_l in Ht by lia. pose proof (inv_tokens _ Hi) as Hall.
    rewrite Forall_lookup in Hall. destruct (Hall i t Ht) as (Hk & Hlt' & Hle & Hl). split; [done|].
    unfold real. destruct (tok_lexeme t) as [|c l]; [|done].
    apply (f_equal length) in Hl. rewrite slice_length in Hl by (by rewrite bytes_length).
    cbn in Hl. lia.
Qed.
End Lex.

(** ** The properties *)

(** [lex] ends, without a panic, after at most one step a byte; its tokens
    form a slice the parser accepts: each non-empty but the last, which is the
    only end of file; and the identifier cache still maps names to themselves. *)
Theorem lex_terminates logos_next `{!LogosLaws logos_next} source fuel cache :
  cache_ok cache -> String.length source < fuel ->
  exists out cache', lex logos_next source fuel cache = Lexed out cache' /\
    wf_tokens (tokens out) /\ cache_ok cache'.
Proof.
  intros Hc Hf. destruct (lex_ok logos_next source fuel cache Hc Hf) as (s & Hi & _ & ->).
  eexists _, _. split; [done|]. split; [by eapply push_eof_wf|apply Hi].
Qed.

(** The state a finished [lex] stopped in. *)
Lemma lexed_inv logos_next `{!LogosLaws logos_next} source fuel cache out cache' :
  cache_ok cache -> String.length source < fuel ->
  lex logos_next source fuel cache = Lexed out cache' ->
  exists s, lex_inv source s /\ read_to s = String.length source /\ out = push_eof s.
Proof.
  intros Hc Hf Hl. destruct (lex_ok logos_next source fuel cache Hc Hf) as (s & Hi & Hr & Heq).
  exists s. split; [done|]. split; [done|]. congruence.
Qed.

(** Lexing is lossless: the lexemes of the tokens, one after the other, are
    the bytes of the source but those reported one by one as [lex.null-byte];
    they are the source itself when none is. *)
Theorem lex_lossless logos_next `{!LogosLaws logos_next} source fuel cache out cache' :
  cache_ok cache -> String.length source < fuel ->
  lex logos_next source fuel cache = Lexed out cache' ->
  bytes (lexemes (tokens out)) = kept (skipped (lex_diagnostics out)) 0 (bytes source) /\
  (skipped (lex_diagnostics out) = [] -> lexemes (tokens out) = source).
Proof.
  intros Hc Hf Hl. destruct (lexed_inv _ _ _ _ _ _ Hc Hf Hl) as (s & Hi & Hr & ->).
  assert (bytes (lexemes (tokens (push_eof s)))
          = kept (skipped (lex_diagnostics (push_eof s))) 0 (bytes source)) as Heq.
  { unfold push_eof, push_token. cbn [tokens lex_diagnostics].
    rewrite lexemes_app, bytes_app, (inv_kept _ _ Hi), Hr, take_ge by (by rewrite bytes_length).
    apply app_nil_r. }
  split; [done|]. intros Hs. apply bytes_inj. rewrite Heq, Hs. by apply kept_whole.
Qed.

(** Every token but the end of file stands for the source at its span, which
    is not empty and inside the source. *)
Theorem lex_spans logos_next `{!LogosLaws logos_next} source fuel cache out cache' :
  cache_ok cache -> String.length source < fuel ->
  lex logos_next source fuel cache = Lexed out cache' ->
  exists ts eof, tokens out = ts ++ [eof] /\ tok_kind eof = T_Eof /\ Forall (token_ok source) ts.
Proof.
  intros Hc Hf Hl. destruct (lexed_inv _ _ _ _ _ _ Hc Hf Hl) as (s & Hi & Hr & ->).
  eexists _, _. split; [done|]. split; [done|apply Hi].
Qed.

(** The end-of-file token of a source without skipped bytes has the span
    [0..0], whatever the length of the source: a diagnostic at the end of the
    file points at its start. *)
Theorem lex_eof_span logos_next `{!LogosLaws logos_next} source fuel cache out cache' :
  cache_ok cache -> String.length source < fuel ->
  lex logos_next source fuel cache = Lexed out cache' ->
  skipped (lex_diagnostics out) = [] ->
  option_map tok_span (last (tokens out)) = Some (mkSpan 0 0).
Proof.
  intros Hc Hf Hl. destruct (lexed_inv _ _ _ _ _ _ Hc Hf Hl) as (s & Hi & Hr & ->).
  unfold push_eof, push_token. cbn [tokens lex_diagnostics]. intros Hs. rewrite last_snoc. cbn.
  by rewrite (inv_restart _ _ Hi Hs).
Qed.

(** C32: from text to tree and back: when lexing skips no byte and parsing
    reports nothing, the lexemes of the leaves of the tree are the source. *)
Theorem lex_parse_roundtrip logos_next `{!LogosLaws logos_next} source n1 n2 cache lexed cache' out :
  cache_ok cache -> String.length source < n1 ->
  lex logos_next source n1 cache = Lexed lexed cache' ->
  parse n2 (tokens lexed) = Parsed out ->
  skipped (lex_diagnostics lexed) = [] -> parse_diagnostics out = [] ->
  lexemes (node_leaves (root out)) = source.
Proof.
  intros Hc Hf Hl Hp Hs Hd.
  destruct (lexed_inv _ _ _ _ _ _ Hc Hf Hl) as (s & Hi & Hr & ->).
  destruct (parsed_post _ _ _ (push_eof_wf _ s Hi) Hp) as (s' & Hpost & Hs').
  rewrite (ParserItems.source_clean _ _ _ Hpost) by congruence.
  apply bytes_inj. unfold push_eof, push_token in *. cbn [tokens lex_diagnostics] in *.
  rewrite lexemes_app, bytes_app, (inv_kept _ _ Hi), Hs, Hr, take_ge by (by rewrite bytes_length).
  cbn. rewrite app_nil_r. by apply kept_whole.
Qed.

(** ** An instance *)

Lemma boundary_after_ok s i n :
  i + n = String.length s -> i <= boundary_after s i n <= String.length s /\
  is_char_boundary s (boundary_after s i n) = true.
Proof.
  revert i. induction n as [|n IH]; intros i Hi; cbn.
  - rewrite Nat.add_0_r in Hi. subst i. split; [lia|apply boundary_end].
  - destruct (is_char_boundary s i) eqn:Hb; [by split; [lia|]|].
    destruct (IH (S i)) as [? ?]; [lia|]. split; [lia|done].
Qed.

Lemma best_kind_pos l k n : best_kind l = Some (k, n) -> 0 < n.
Proof.
  unfold best_kind. assert (forall ks best, (forall k n, best = Some (k, n) -> 0 < n) ->
    forall k n, fold_left (fun best kind =>
      match longest (pattern kind) l with
      | Some (S n) =>
          match best with
          | Some (_, m) => if m <? S n then Some (kind, S n) else best
          | None => Some (kind, S n)
          end
      | _ => best
      end) ks best = Some (k, n) -> 0 < n) as Hall; [|by apply Hall].
  clear. induction ks as [|kd ks IH]; intros best Hbest k n; cbn [fold_left]; [apply Hbest|].
  apply IH. intros k' n'. destruct (longest _ _) as [[|m]|]; [apply Hbest| |apply Hbest].
  destruct best as [[k0 m0]|]; [destruct (m0 <? S m)|]; intros E; try (injection E as <- <-; lia).
  by eapply Hbest.
Qed.

#[export] Instance pattern_next_laws : LogosLaws pattern_next.
Proof.
  assert (forall src pos r a b, pattern_next src pos = Some (r, a, b) ->
    pos < String.length src /\ a = pos /\ a <= b <= String.length src /\
    (is_char_boundary src pos = true -> is_char_boundary src b = true) /\
    (forall k, r = Some k -> a < b) /\ (a = b -> is_char_boundary src (a + 1) = true)) as Hall.
  { intros src pos r a b. unfold pattern_next. destruct (drop pos (bytes src)) as [|c l] eqn:Hd; [done|].
    assert (pos < String.length src) as Hpos.
    { rewrite <- bytes_length. apply (f_equal length) in Hd. rewrite length_drop in Hd. cbn in Hd. lia. }
    assert (forall k, (None : option RawTokenKind) = Some k -> False) as Hno by done.
    destruct (boundary_after_ok src (S pos) (String.length src - S pos)) as [Hb1 Hb2]; [lia|].
    destruct ((Ascii.nat_of_ascii c =? 0) && _) eqn:Hz.
    { apply andb_prop in Hz as [_ Hz]. intros [= <- <- <-]. repeat split; try lia; try done. }
    clear Hz. destruct (best_kind (c :: l)) as [[k n]|] eqn:Hk.
    - pose proof (best_kind_pos _ _ _ Hk). destruct (_ && _) eqn:He.
      + apply andb_prop in He as [He1 He2%Nat.leb_le]. intros [= <- <- <-].
        repeat split; try lia; try done.
      + intros [= <- <- <-]. repeat split; try lia; try done.
    - intros [= <- <- <-]. repeat split; try lia; try done. }
  split.
  - intros src pos. unfold pattern_next. destruct (drop pos (bytes src)) as [|c l] eqn:Hd.
    + intros _. apply (f_equal length) in Hd. rewrite length_drop, bytes_length in Hd. cbn in Hd. lia.
    + destruct (_ && _); [done|]. destruct (best_kind _) as [[k n]|]; [|done]. by destruct (_ && _).
  - intros src pos r a b _ H. destruct (Hall _ _ _ _ _ H) as (? & -> & ? & _). lia.
  - intros src pos k a b H. destruct (Hall _ _ _ _ _ H) as (? & ? & ? & ? & Hk & _). by eapply Hk.
  - intros src pos r a b Hb H. destruct (Hall _ _ _ _ _ H) as (? & ? & ? & Hbb & _). by apply Hbb.
  - intros src pos a Hb H. destruct (Hall _ _ _ _ _ H) as (? & ? & ? & ? & _ & He). by apply He.
Qed.

(** The text of the parser's sample. *)
Definition sample_text : string := "fn main() { let a = 1 + 2 * 3; a }".

(** A NUL byte between two names. *)
Definition nul_text : string := String.append "ab" (String (Ascii.ascii_of_nat 0) "cd").

Definition lexed_out (r : LexResult) : LexOutput :=
  match r with Lexed out _ => out | _ => mkLexOutput [] [] end.

Definition lex_text (s : string) : LexOutput := lexed_out (lex pattern_next s 100 ∅).

Example lex_sample : tokens (lex_text sample_text) = sample.
Proof. vm_compute. reflexivity. Qed.

Lemma cache_empty : cache_ok ∅.
Proof. intros k v. by rewrite lookup_empty. Defined.

Lemma lex_terminates_witness :
  exists out cache', lex pattern_next nul_text 100 ∅ = Lexed out cache' /\
    wf_tokens (tokens out) /\ cache_ok cache'.
Proof. apply lex_terminates; [exact _|apply cache_empty|vm_compute; lia]. Defined.

(** With the NUL byte: one byte is skipped and the names are kept. *)
Lemma lex_lossless_witness :
  bytes (lexemes (tokens (lex_text nul_text)))
    = kept (skipped (lex_diagnostics (lex_text nul_text))) 0 (bytes nul_text) /\
  (skipped (lex_diagnostics (lex_text nul_text)) = [] -> lexemes (tokens (lex_text nul_text)) = nul_text) /\
  skipped (lex_diagnostics (lex_text nul_text)) = [2].
Proof.
  assert (forall P Q R : Prop, P /\ Q -> R -> P /\ Q /\ R) as Hand by tauto.
  apply Hand; [|vm_compute; reflexivity].
  apply (lex_lossless pattern_next nul_text 100 ∅ (lex_text nul_text)
           (match lex pattern_next nul_text 100 ∅ with Lexed _ c => c | _ => ∅ end));
    [apply cache_empty|vm_compute; lia|vm_compute; reflexivity].
Defined.

Lemma lex_spans_witness :
  exists ts eof, tokens (lex_text sample_text) = ts ++ [eof] /\ tok_kind eof = T_Eof /\
    Forall (token_ok sample_text) ts.
Proof.
  apply (lex_spans pattern_next sample_text 100 ∅ (lex_text sample_text)
           (match lex pattern_next sample_text 100 ∅ with Lexed _ c => c | _ => ∅ end));
    [apply cache_empty|vm_compute; lia|vm_compute; reflexivity].
Defined.

Lemma lex_eof_span_witness :
  option_map tok_span (last (tokens (lex_text sample_text))) = Some (mkSpan 0 0).
Proof.
  apply (lex_eof_span pattern_next sample_text 100 ∅ (lex_text sample_text)
           (match lex pattern_next sample_text 100 ∅ with Lexed _ c => c | _ => ∅ end));
    [apply cache_empty|vm_compute; lia|vm_compute; reflexivity|vm_compute; reflexivity].
Defined.

Lemma lex_parse_roundtrip_witness :
  lexemes (node_leaves (root (parsed (parse 100 (tokens (lex_text sample_text)))))) = sample_text.
Proof.
  apply (lex_parse_roundtrip pattern_next sample_text 100 100 ∅ (lex_text sample_text)
           (match lex pattern_next sample_text 100 ∅ with Lexed _ c => c | _ => ∅ end));
    [apply cache_empty|vm_compute; lia|vm_compute; reflexivity..].
Defined.
