(* ===== verification/TextOps.v ===== *)
(** * Text and byte operations of the runtime

    The free functions of [crates/sarif_codegen/src/lib.rs] the interpreter's
    text instructions share: clamping an index to a character boundary, slicing,
    looking for a byte, and Rust's [str::trim] and [str::parse::<i64>].  A
    [None] is a panic. *)
From S2P Require Import Prelude Utf8.

Open Scope nat_scope.

(** ** Clamping *)

(** [usize::try_from(index.max(0)).unwrap_or(usize::MAX).min(len)] *)
Definition clamp_index (len : nat) (index : Z) : nat :=
  Z.to_nat (Z.min (Z.max index 0) (Z.of_nat len)).

(** [while index < len && is_utf8_continuation(bytes[index]) { index += 1 }]:
    how many steps the loop takes on the bytes from [index] on. *)
Fixpoint skip_continuation (l : list Ascii.ascii) : nat :=
  match l with
  | a :: l' => if is_continuation a then S (skip_continuation l') else 0
  | [] => 0
  end.

Definition clamp_text_slice_start (bytes : list Ascii.ascii) (index : Z) : nat :=
  let index := clamp_index (length bytes) index in
  index + skip_continuation (drop index bytes).

(** The same loop backwards: at index 0 the [usize] underflows. *)
Fixpoint back_to_boundary (bytes : list Ascii.ascii) (index : nat) : option nat :=
  match bytes !! index with
  | Some a =>
      if is_continuation a then
        match index with
        | 0 => None
        | S index' => back_to_boundary bytes index'
        end
      else Some index
  | None => Some index
  end.

Definition clamp_text_slice_end (bytes : list Ascii.ascii) (index : Z) : option nat :=
  back_to_boundary bytes (clamp_index (length bytes) index).

(** [slice_text] *)
Definition slice_text (text : string) (start end_ : Z) : option string :=
  let bytes := bytes text in
  let start := clamp_text_slice_start bytes start in
  match clamp_text_slice_end bytes end_ with
  | None => None
  | Some end_ => if end_ <=? start then Some ""%string else from_utf8 (slice bytes start end_)
  end.

(** ** Looking for a byte *)

(** [while index < end { if bytes[index] == byte { found; break } index += 1 }],
    for [n] rounds from [index]. *)
Fixpoint find_byte_loop (bytes : list Ascii.ascii) (byte : Ascii.ascii) (n index : nat)
    : option (option nat) :=
  match n with
  | 0 => Some None
  | S n' =>
      match bytes !! index with
      | None => None
      | Some a =>
          if Ascii.eqb a byte then Some (Some index) else find_byte_loop bytes byte n' (S index)
      end
  end.

(** [byte as u8] *)
Definition as_u8 (byte : Z) : Ascii.ascii := Ascii.ascii_of_N (Z.to_N (byte mod 256)).

(** ** [str::trim] *)

(** The UTF-8 encodings of the characters with the property [White_Space]. *)
Definition whitespace : list (list nat) :=
  map (fun n => [n]) [9; 10; 11; 12; 13; 32]
  ++ [[194; 133]; [194; 160]; [225; 154; 128]]
  ++ map (fun n => [226; 128; n]) [128; 129; 130; 131; 132; 133; 134; 135; 136; 137; 138; 168; 169; 175]
  ++ [[226; 129; 159]; [227; 128; 128]].

(** The rest of [l] after [w], if [l] starts with [w]. *)
Fixpoint strip_prefix (w : list nat) (l : list Ascii.ascii) : option (list Ascii.ascii) :=
  match w, l with
  | [], _ => Some l
  | n :: w', a :: l' => if Ascii.nat_of_ascii a =? n then strip_prefix w' l' else None
  | _, [] => None
  end.

Fixpoint strip_one (ws : list (list nat)) (l : list Ascii.ascii) : option (list Ascii.ascii) :=
  match ws with
  | [] => None
  | w :: ws' => match strip_prefix w l with Some l' => Some l' | None => strip_one ws' l end
  end.

(** Each round drops at least one byte. *)
Fixpoint trim_loop (ws : list (list nat)) (n : nat) (l : list Ascii.ascii) : list Ascii.ascii :=
  match n with
  | 0 => l
  | S n' => match strip_one ws l with Some l' => trim_loop ws n' l' | None => l end
  end.

Definition trim (l : list Ascii.ascii) : list Ascii.ascii :=
  let l := trim_loop whitespace (length l) l in
  rev (trim_loop (map (@rev nat) whitespace) (length l) (rev l)).

(** ** [str::parse::<i64>] *)

Fixpoint parse_digits (acc : Z) (l : list Ascii.ascii) : option Z :=
  match l with
  | [] => Some acc
  | a :: l' =>
      if byte_in 48 57 a then parse_digits (acc * 10 + Z.of_nat (Ascii.nat_of_ascii a - 48)) l' else None
  end.

Definition i64_min : Z := (- 2 ^ 63)%Z.
Definition i64_max : Z := (2 ^ 63 - 1)%Z.
Definition in_i64 (z : Z) : bool := ((i64_min <=? z) && (z <=? i64_max))%Z.

Definition parse_i64 (l : list Ascii.ascii) : option Z :=
  let number (negative : bool) (l : list Ascii.ascii) : option Z :=
    match l with
    | [] => None
    | _ =>
        match parse_digits 0 l with
        | Some z => let z := if negative then (- z)%Z else z in if in_i64 z then Some z else None
        | None => None
        end
    end in
  match l with
  | [] => None
  | a :: l' =>
      if Ascii.nat_of_ascii a =? 45 then number true l'
      else if Ascii.nat_of_ascii a =? 43 then number false l'
      else number false l
  end.

(** ** Lemmas *)

Lemma clamp_index_le len index : clamp_index len index <= len.
Proof. unfold clamp_index. lia. Qed.

Lemma skip_continuation_ok l :
  skip_continuation l <= length l /\
  (forall a, l !! skip_continuation l = Some a -> is_continuation a = false).
Proof.
  induction l as [|a l [IH1 IH2]]; cbn [skip_continuation length]; [done|].
  destruct (is_continuation a) eqn:Ha; [split; [lia|exact IH2]|].
  split; [lia|]. by intros b [= <-].
Qed.

(** The start of a slice is a boundary of any bytes. *)
Lemma clamp_text_slice_start_ok l index :
  no_cont_at l (clamp_text_slice_start l index) /\
  clamp_index (length l) index <= clamp_text_slice_start l index.
Proof.
  unfold clamp_text_slice_start. pose proof (clamp_index_le (length l) index) as Hle.
  destruct (skip_continuation_ok (drop (clamp_index (length l) index) l)) as [H1 H2].
  rewrite length_drop in H1. split; [|lia]. split; [lia|].
  intros a Ha. apply H2. by rewrite lookup_drop.
Qed.

Lemma back_to_boundary_ok l i e :
  i <= length l -> back_to_boundary l i = Some e -> no_cont_at l e /\ e <= i.
Proof.
  induction i as [|i IH]; intros Hi; cbn [back_to_boundary].
  - destruct (l !! 0) as [a|] eqn:Ha; [destruct (is_continuation a) eqn:Hc; [done|]|];
      intros [= <-]; (split; [split; [lia|]|lia]); intros b Hb; congruence.
  - destruct (l !! S i) as [a|] eqn:Ha; [destruct (is_continuation a) eqn:Hc|].
    + intros H. destruct (IH ltac:(lia) H). split; [done|lia].
    + intros [= <-]. split; [split; [lia|]|lia]. intros b Hb. congruence.
    + intros [= <-]. split; [split; [lia|]|lia]. intros b Hb. congruence.
Qed.

(** The first byte of valid bytes continues nothing, so the loop stops. *)
Lemma back_to_boundary_some l i :
  (forall a, l !! 0 = Some a -> is_continuation a = false) -> exists e, back_to_boundary l i = Some e.
Proof.
  intros H0. induction i as [|i IH]; cbn [back_to_boundary].
  - destruct (l !! 0) as [a|] eqn:Ha; [|by eexists]. rewrite (H0 a eq_refl). by eexists.
  - destruct (l !! S i) as [a|]; [|by eexists]. destruct (is_continuation a); [done|by eexists].
Qed.

Lemma utf8_valid_head l a : utf8_valid l = true -> l !! 0 = Some a -> is_continuation a = false.
Proof.
  intros (cs & Hcs & ->)%utf8_valid_chars. destruct Hcs as [|c cs Hc Hcs]; [done|].
  destruct (is_char_inv _ Hc) as (b & l & -> & Hb & _). by intros [= <-].
Qed.

Lemma clamp_text_slice_end_ok l index :
  utf8_valid l = true ->
  exists e, clamp_text_slice_end l index = Some e /\ no_cont_at l e /\ e <= clamp_index (length l) index.
Proof.
  intros Hv. destruct (back_to_boundary_some l (clamp_index (length l) index)) as [e He].
  { intros a Ha. by apply (utf8_valid_head l). }
  exists e. split; [done|]. apply back_to_boundary_ok; [apply clamp_index_le|done].
Qed.

(** The bytes between two clamped indices. *)
Definition clamped (l : list Ascii.ascii) (start end_ : Z) : list Ascii.ascii :=
  match clamp_text_slice_end l end_ with
  | Some e => slice l (clamp_text_slice_start l start) e
  | None => []
  end.

Lemma slice_ge {A} (l : list A) i j : j <= i -> slice l i j = [].
Proof. intros H. unfold slice. by replace (j - i) with 0 by lia. Qed.

Lemma slice_text_ok text start end_ :
  utf8_valid (bytes text) = true ->
  exists r, slice_text text start end_ = Some r /\ bytes r = clamped (bytes text) start end_ /\
    utf8_valid (bytes r) = true.
Proof.
  intros Hv. unfold slice_text, clamped.
  destruct (clamp_text_slice_start_ok (bytes text) start) as [Hs _].
  destruct (clamp_text_slice_end_ok (bytes text) end_ Hv) as (e & -> & He & _).
  destruct (Nat.leb_spec e (clamp_text_slice_start (bytes text) start)) as [Hle|Hlt].
  - exists ""%string. rewrite slice_ge by done. done.
  - unfold from_utf8. rewrite (utf8_valid_slice _ _ _ Hv Hs He) by lia.
    eexists. split; [done|]. rewrite bytes_string. split; [done|]. apply utf8_valid_slice; auto with lia.
Qed.

(** The loop that looks for a byte finds the first one, or none. *)
Lemma find_byte_loop_ok l byte n index :
  index + n <= length l ->
  match find_byte_loop l byte n index with
  | None => False
  | Some None => forall i, index <= i < index + n -> l !! i <> Some byte
  | Some (Some i) => index <= i < index + n /\ l !! i = Some byte /\
      forall j, index <= j < i -> l !! j <> Some byte
  end.
Proof.
  revert index. induction n as [|n IH]; intros index Hle; cbn [find_byte_loop]; [lia|].
  destruct (lookup_lt_is_Some_2 l index) as [a Ha]; [lia|]. rewrite Ha.
  destruct (Ascii.eqb_spec a byte) as [->|Hne].
  - split; [lia|]. split; [done|lia].
  - specialize (IH (S index) ltac:(lia)). destruct (find_byte_loop l byte n (S index)) as [[i|]|]; [..|done].
    + destruct IH as (? & ? & Hb). split; [lia|]. split; [done|]. intros j Hj.
      destruct (decide (j = index)) as [->|]; [congruence|apply Hb; lia].
    + intros i Hi. destruct (decide (i = index)) as [->|]; [congruence|apply IH; lia].
Qed.
