(* ===== verification/Float64.v ===== *)
(** * Double-precision floats

    Rust's [f64] as the Standard Library's [spec_float] at precision 53 and
    maximal exponent 1024: the operations of the interpreter, executable, with
    IEEE rounding to nearest even; all NaNs are one. *)
From S2P Require Import Prelude.
From Stdlib Require Import SpecFloat.

Open Scope Z_scope.

Definition f64 : Type := spec_float.

Definition f64_add : f64 -> f64 -> f64 := SFadd 53 1024.
Definition f64_sub : f64 -> f64 -> f64 := SFsub 53 1024.
Definition f64_mul : f64 -> f64 -> f64 := SFmul 53 1024.
Definition f64_div : f64 -> f64 -> f64 := SFdiv 53 1024.
Definition f64_sqrt : f64 -> f64 := SFsqrt 53 1024.
Definition f64_eqb : f64 -> f64 -> bool := SFeqb.
Definition f64_ltb : f64 -> f64 -> bool := SFltb.
Definition f64_leb : f64 -> f64 -> bool := SFleb.
Definition f64_compare : f64 -> f64 -> option comparison := SFcompare.

(** [z as f64] *)
Definition f64_of_Z (z : Z) : f64 := binary_normalize 53 1024 z 0 false.

(** [l % r]: the exact remainder, with the sign of the dividend. *)
Definition f64_rem (l r : f64) : f64 :=
  match l, r with
  | S754_nan, _ | _, S754_nan | S754_infinity _, _ | _, S754_zero _ => S754_nan
  | S754_zero _, _ | _, S754_infinity _ => l
  | S754_finite s1 m1 e1, S754_finite _ m2 e2 =>
      let e := Z.min e1 e2 in
      let a := Zpos m1 * 2 ^ (e1 - e) in
      let b := Zpos m2 * 2 ^ (e2 - e) in
      match a mod b with
      | 0 => S754_zero s1
      | m => binary_normalize 53 1024 (if s1 then - m else m) e s1
      end
  end.

(** [f64::from_bits] *)
Definition f64_from_bits (bits : Z) : f64 :=
  let sign := Z.testbit bits 63 in
  let exponent := Z.land (Z.shiftr bits 52) 2047 in
  let mantissa := Z.land bits (2 ^ 52 - 1) in
  if exponent =? 2047 then
    if mantissa =? 0 then S754_infinity sign else S754_nan
  else if exponent =? 0 then
    match mantissa with
    | Zpos m => S754_finite sign m (-1074)
    | _ => S754_zero sign
    end
  else
    match mantissa + 2 ^ 52 with
    | Zpos m => S754_finite sign m (exponent - 1075)
    | _ => S754_nan
    end.

(** [f64::to_bits]; a NaN is the one of an operation. *)
Definition f64_to_bits (x : f64) : Z :=
  let signed (s : bool) (z : Z) := if s then z + 2 ^ 63 else z in
  match x with
  | S754_zero s => signed s 0
  | S754_infinity s => signed s (2047 * 2 ^ 52)
  | S754_nan => 0x7FF8000000000000
  | S754_finite s m e =>
      signed s (if Zpos m <? 2 ^ 52 then Zpos m else (e + 1075) * 2 ^ 52 + (Zpos m - 2 ^ 52))
  end.

Example f64_one_half : f64_add (f64_from_bits 0x3FE0000000000000) (f64_of_Z 1) = f64_from_bits 0x3FF8000000000000.
Proof. vm_compute. reflexivity. Qed.

Example f64_rem_example : f64_rem (f64_of_Z (-7)) (f64_of_Z 2) = f64_of_Z (-1).
Proof. vm_compute. reflexivity. Qed.
