(* ===== verification/Mir.v ===== *)
(** * The MIR

    [crates/sarif_codegen/src/lib.rs]: programs of the mid-level representation
    and the values the interpreter computes with.  Constructors keep their
    names behind a prefix ([I_] for [Inst], [V_] for [RuntimeValue]).  The
    instructions on files, directories, the environment, processes and clocks
    are left out: what they do is the operating system's. *)
From stdpp Require Import pretty.
From S2P Require Import Prelude Syntax Utf8 Float64.

(** [values[id.0]] and [slots[slot.0]]. *)
Definition ValueId : Type := nat.
Definition LocalSlotId : Type := nat.

(** ** Types *)

Record EnumVariantType := mkEnumVariantType {
  variant_name : string;
  payload_type : option string;
  discriminant : option ConstExpr
}.

Record EnumType := mkEnumType { enum_name : string; enum_type_variants : list EnumVariantType }.

Record StructField := mkStructField { field_name : string; field_ty : string }.

Record StructType := mkStructType {
  struct_name : string;
  struct_fields : list StructField;
  struct_repr : option string
}.

Record Param := mkParam { param_name : string; param_ty : string }.

Record MutableLocal := mkMutableLocal {
  local_slot : LocalSlotId;
  local_name : string;
  local_ty : string;
  local_mutable : bool
}.

Inductive ContractKind := Requires | Ensures | Bounds.

Definition keyword (kind : ContractKind) : string :=
  match kind with
  | Requires => "requires"
  | Ensures => "ensures"
  | Bounds => "bounds"
  end.

(** ** Instructions *)

Inductive Inst :=
  | I_TextBuilderNew (dest : ValueId)
  | I_TextIndexNew (dest : ValueId)
  | I_TextBuilderAppend (dest builder text : ValueId)
  | I_TextBuilderAppendCodepoint (dest builder codepoint : ValueId)
  | I_TextBuilderAppendAscii (dest builder byte : ValueId)
  | I_TextBuilderAppendSlice (dest builder text start end_ : ValueId)
  | I_TextBuilderAppendI32 (dest builder value : ValueId)
  | I_TextBuilderAppendI64 (dest builder value : ValueId)
  | I_TextBuilderFinish (dest builder : ValueId)
  | I_TextIntern (dest text : ValueId)
  | I_StdoutWriteBuilder (dest builder : ValueId)
  | I_TextIndexGet (dest index key : ValueId)
  | I_TextIndexContains (dest index key : ValueId)
  | I_TextIndexGetOrInsert (dest index key next : ValueId)
  | I_TextIndexSet (dest index key value : ValueId)
  | I_TextIndexKeys (dest index : ValueId)
  | I_ListNew (dest len value : ValueId)
  | I_ListFrom (dest array : ValueId) (len : nat)
  | I_ListLen (dest list : ValueId)
  | I_ListGet (dest list index : ValueId)
  | I_ListSet (dest list index value : ValueId)
  | I_ListPush (dest list len value : ValueId)
  | I_ListSortText (dest list len : ValueId)
  | I_ListSortRecordTextField (dest list len : ValueId) (field : string)
  | I_ListSortRecordField (dest list len : ValueId) (field : string)
  | I_F64FromI32 (dest value : ValueId)
  | I_I64FromI32 (dest value : ValueId)
  | I_F64FromI64 (dest value : ValueId)
  | I_TextLen (dest text : ValueId)
  | I_BytesLen (dest bytes : ValueId)
  | I_BytesToText (dest bytes : ValueId)
  | I_TextToBytes (dest text : ValueId)
  | I_BytesMaterialize (dest bytes : ValueId)
  | I_TextConcat (dest left right : ValueId)
  | I_TextSlice (dest text start end_ : ValueId)
  | I_BytesSlice (dest bytes start end_ : ValueId)
  | I_TextByte (dest text index : ValueId)
  | I_BytesByte (dest bytes index : ValueId)
  | I_TextCmp (dest left right : ValueId)
  | I_TextEqRange (dest source start end_ expected : ValueId)
  | I_TextFindByteRange (dest source start end_ byte : ValueId)
  | I_BytesFindByteRange (dest source start end_ byte : ValueId)
  | I_BytesFieldEnd (dest source start end_ byte : ValueId)
  | I_BytesNextField (dest source start end_ byte : ValueId)
  | I_TextLineEnd (dest source start : ValueId)
  | I_TextNextLine (dest source start : ValueId)
  | I_TextFieldEnd (dest source start end_ byte : ValueId)
  | I_TextNextField (dest source start end_ byte : ValueId)
  | I_TextFromF64Fixed (dest value digits : ValueId)
  | I_FileIsValid (dest handle : ValueId)
  | I_TcpListen (dest port : ValueId)
  | I_TcpAccept (dest server_fd : ValueId)
  | I_TcpRecv (dest fd max_len : ValueId)
  | I_TcpSend (dest fd data : ValueId)
  | I_TcpClose (fd : ValueId)
  | I_ArgCount (dest : ValueId)
  | I_AllocPush
  | I_AllocPop
  | I_ArgText (dest index : ValueId)
  | I_StdinText (dest : ValueId)
  | I_StdinBytes (dest : ValueId)
  | I_StdoutWrite (text : ValueId)
  | I_ParseI32 (dest text : ValueId)
  | I_ParseI32Range (dest text start end_ : ValueId)
  | I_ParseF64 (dest text : ValueId)
  | I_LoadParam (dest : ValueId) (index : nat)
  | I_LoadLocal (dest : ValueId) (slot : LocalSlotId)
  | I_StoreLocal (slot : LocalSlotId) (src : ValueId)
  | I_ConstInt (dest : ValueId) (value : Z)
  | I_ConstF64 (dest : ValueId) (bits : Z)
  | I_ConstBool (dest : ValueId) (value : bool)
  | I_ConstText (dest : ValueId) (value : string)
  | I_MakeEnum (dest : ValueId) (name variant : string) (payload : option ValueId)
  | I_MakeRecord (dest : ValueId) (name : string) (fields : list (string * ValueId))
  | I_Field (dest base : ValueId) (name : string)
  | I_EnumTagEq (dest value : ValueId) (tag : Z)
  | I_EnumPayload (dest value : ValueId) (payload_type : string)
  | I_EnumToI32 (dest value : ValueId) (discriminants : list Z)
  | I_EnumToText (dest value : ValueId) (variant_names : list string)
  | I_If (dest condition : ValueId) (then_insts : list Inst) (then_result : option ValueId) (else_insts : list Inst) (else_result : option ValueId)
  | I_While (dest : ValueId) (condition_insts : list Inst) (condition : ValueId) (body_insts : list Inst)
  | I_Repeat (dest count : ValueId) (index_slot : option LocalSlotId) (body_insts : list Inst)
  | I_Add (dest left right : ValueId)
  | I_Sub (dest left right : ValueId)
  | I_Mul (dest left right : ValueId)
  | I_Div (dest left right : ValueId)
  | I_Rem (dest left right : ValueId)
  | I_BitAnd (dest left right : ValueId)
  | I_BitOr (dest left right : ValueId)
  | I_BitXor (dest left right : ValueId)
  | I_Shl (dest left right : ValueId)
  | I_Shr (dest left right : ValueId)
  | I_Sqrt (dest value : ValueId)
  | I_And (dest left right : ValueId)
  | I_Or (dest left right : ValueId)
  | I_Eq (dest left right : ValueId)
  | I_Ne (dest left right : ValueId)
  | I_Lt (dest left right : ValueId)
  | I_Le (dest left right : ValueId)
  | I_Gt (dest left right : ValueId)
  | I_Ge (dest left right : ValueId)
  | I_Call (dest : ValueId) (callee : string) (args : list ValueId)
  | I_Assert (condition : ValueId) (kind : ContractKind)
  | I_Perform (dest : ValueId) (effect operation : string) (args : list ValueId)
  | I_Handle (dest : ValueId) (body_insts : list Inst) (body_result : option ValueId) (arms : list HandleArm)
with HandleArm :=
  | mkHandleArm (effect operation : string) (params : list string) (body_insts : list Inst)
      (body_result : option ValueId).

Definition arm_effect (a : HandleArm) : string := let 'mkHandleArm e _ _ _ _ := a in e.
Definition arm_operation (a : HandleArm) : string := let 'mkHandleArm _ o _ _ _ := a in o.
Definition arm_body_insts (a : HandleArm) : list Inst := let 'mkHandleArm _ _ _ b _ := a in b.
Definition arm_body_result (a : HandleArm) : option ValueId := let 'mkHandleArm _ _ _ _ r := a in r.

Record Function := mkFunction {
  fn_name : string;
  fn_params : list Param;
  fn_return_type : option string;
  fn_effects : list string;
  fn_mutable_locals : list MutableLocal;
  fn_instructions : list Inst;
  fn_result : option ValueId;
  fn_span : Span;
  fn_value_count : nat;
  fn_slot_count : nat
}.

Record ExternFunction := mkExternFunction {
  extern_name : string;
  extern_params : list Param;
  extern_return_type : option string
}.

Record Program := mkProgram {
  program_enums : list EnumType;
  program_structs : list StructType;
  program_functions : list Function;
  program_externs : list ExternFunction
}.

(** A map collected from pairs: of equal keys the last one stays. *)
Definition find_last {A} (key : A -> string) (name : string) (l : list A) : option A :=
  fold_left (fun found a => if String.eqb (key a) name then Some a else found) l None.

(** ** Values *)

(** A handle ([TextIndex], [TextBuilder], [File], [List]) is an index into the
    interpreter's tables.  [Bytes] and the data of a view are byte sequences. *)
Inductive RuntimeValue :=
  | V_Int (value : Z)
  | V_F64 (value : f64)
  | V_Bool (value : bool)
  | V_Text (value : string)
  | V_Bytes (data : list Ascii.ascii)
  | V_BytesView (data : list Ascii.ascii) (offset len : nat)
  | V_TextIndex (id : nat)
  | V_TextBuilder (id : nat)
  | V_File (id : nat)
  | V_List (id : nat)
  | V_I64 (value : Z)
  | V_Enum (name variant : string) (payload : option RuntimeValue)
  | V_Record (name : string) (fields : list (string * RuntimeValue))
  | V_Unit.

(** [a == b]: derived, but for floats, which compare as numbers. *)
Fixpoint value_eqb (a b : RuntimeValue) : bool :=
  match a, b with
  | V_Int x, V_Int y | V_I64 x, V_I64 y => Z.eqb x y
  | V_F64 x, V_F64 y => f64_eqb x y
  | V_Bool x, V_Bool y => Bool.eqb x y
  | V_Text x, V_Text y => String.eqb x y
  | V_Bytes x, V_Bytes y => bool_decide (x = y)
  | V_BytesView x o n, V_BytesView y p m => bool_decide (x = y) && (o =? p)%nat && (n =? m)%nat
  | V_TextIndex x, V_TextIndex y | V_TextBuilder x, V_TextBuilder y
  | V_File x, V_File y | V_List x, V_List y => (x =? y)%nat
  | V_Enum n v p, V_Enum m w q =>
      String.eqb n m && String.eqb v w &&
      match p, q with
      | Some x, Some y => value_eqb x y
      | None, None => true
      | _, _ => false
      end
  | V_Record n xs, V_Record m ys =>
      String.eqb n m &&
      (fix fields_eqb (xs ys : list (string * RuntimeValue)) : bool :=
         match xs, ys with
         | [], [] => true
         | (f, x) :: xs', (g, y) :: ys' => String.eqb f g && value_eqb x y && fields_eqb xs' ys'
         | _, _ => false
         end) xs ys
  | V_Unit, V_Unit => true
  | _, _ => false
  end.

(** ** Rendering *)

(** What Rust leaves to its standard library and compiler: what [to_string],
    [format!("{v:.d$}")] and [parse::<f64>] do with floats; the size of a
    [RuntimeValue] in bytes, whose layout is unspecified; and what
    [slice::sort_by] does with a comparison that is no total order on the
    slice: it leaves the elements in an unspecified order, or panics
    ([None]). *)
Class Platform := {
  f64_display : f64 -> string;
  f64_fixed : f64 -> nat -> string;
  f64_parse : list Ascii.ascii -> option f64;
  value_size : Z;
  sort_unordered :
    (RuntimeValue -> RuntimeValue -> comparison) -> list RuntimeValue -> option (list RuntimeValue)
}.

Definition join (sep : string) (l : list string) : string := String.concat sep l.

Definition array_field_name (index : nat) : string := ("slot" ++ pretty.pretty index)%string.

(** [LowerType], as far as values have one. *)
Inductive LowerType :=
  | LT_I32 | LT_I64 | LT_F64 | LT_Bool | LT_Text | LT_Bytes | LT_TextIndex | LT_TextBuilder
  | LT_File | LT_Unit | LT_Error
  | LT_List (element : LowerType)
  | LT_Array (element : LowerType) (len : nat)
  | LT_Named (name : string).

#[global] Instance LowerType_EqDecision : EqDecision LowerType.
Proof. solve_decision. Defined.

(** Are the fields named [slot0], [slot1] and so on, from [index] on? *)
Fixpoint array_field_names {A} (index : nat) (fields : list (string * A)) : bool :=
  match fields with
  | [] => true
  | (name, _) :: fields' => String.eqb name (array_field_name index) && array_field_names (S index) fields'
  end.

Fixpoint runtime_value_lower_type (value : RuntimeValue) : LowerType :=
  match value with
  | V_Int _ => LT_I32
  | V_F64 _ => LT_F64
  | V_Bool _ => LT_Bool
  | V_Text _ => LT_Text
  | V_Bytes _ | V_BytesView _ _ _ => LT_Bytes
  | V_TextIndex _ => LT_TextIndex
  | V_TextBuilder _ => LT_TextBuilder
  | V_File _ => LT_File
  | V_List _ => LT_List LT_Error
  | V_I64 _ => LT_I64
  | V_Enum name _ _ => LT_Named name
  | V_Record name fields =>
      match map (fun '(_, v) => runtime_value_lower_type v) fields with
      | [] => LT_Named name
      | element :: elements =>
          if String.prefix "__Array_" name && array_field_names 0 fields
             && forallb (fun ty => bool_decide (ty = element)) elements
          then LT_Array element (length fields) else LT_Named name
      end
  | V_Unit => LT_Unit
  end.

(** [synthetic_array_record_info(record).is_some()] *)
Definition is_synthetic_array (name : string) (fields : list (string * RuntimeValue)) : bool :=
  match runtime_value_lower_type (V_Record name fields) with
  | LT_Array _ _ => true
  | _ => false
  end.

Section Render.
Context `{Platform}.

Fixpoint render (value : RuntimeValue) : string :=
  match value with
  | V_Int value | V_I64 value => pretty.pretty value
  | V_F64 value => f64_display value
  | V_Bool value => if value then "true" else "false"
  | V_Text value => value
  | V_Bytes _ | V_BytesView _ _ _ => "<bytes>"
  | V_TextIndex _ => "<text-index>"
  | V_TextBuilder _ => "<text-builder>"
  | V_File _ => "<file>"
  | V_List _ => "<list>"
  | V_Enum name variant payload =>
      match payload with
      | None => (name ++ "." ++ variant)%string
      | Some payload => (name ++ "." ++ variant ++ "(" ++ render payload ++ ")")%string
      end
  | V_Record name fields =>
      if is_synthetic_array name fields
      then ("[" ++ join ", " (map (fun '(_, v) => render v) fields) ++ "]")%string
      else (name ++ "{" ++ join ", " (map (fun '(f, v) => f ++ ": " ++ render v) fields) ++ "}")%string
  | V_Unit => "unit"
  end.
End Render.

(** [ValueId::render] and [LocalSlotId::render] *)
Definition render_value_id (id : ValueId) : string := ("%" ++ pretty.pretty id)%string.
Definition render_slot_id (slot : LocalSlotId) : string := ("slot" ++ pretty.pretty slot)%string.
