(* ===== verification/Interp.v ===== *)
(** * The MIR interpreter: operations

    [Interpreter] of [crates/sarif_codegen/src/lib.rs].  What an instruction
    may change is the [Core]: the tables behind the handles (builders, text
    indices, lists), the output and the handler stack of the interpreter, and
    the values and slots of the running function.  An operation is a
    computation of the monad [M] over the core, which returns, fails with a
    [RuntimeError] or panics. *)
From stdpp Require Import gmap pretty.
From S2P Require Import Prelude Syntax Utf8 TextOps Float64 Mir.

Open Scope nat_scope.

(** ** State and monad *)

Record Heap := mkHeap {
  text_builders : list (list Ascii.ascii);
  text_indices : list (gmap string Z);
  lists : list (list RuntimeValue);
  handlers : list (list HandleArm);
  stdout_text : string
}.

Record Core := mkCore { heap : Heap; values : list RuntimeValue; slots : list RuntimeValue }.

Inductive RuntimeError :=
  | Message (message : string)
  | EffectUnwind (effect operation : string) (args : list RuntimeValue).

Inductive Outcome (A : Type) :=
  | Ok (a : A)
  | Err (e : RuntimeError)
  | Panic.
Arguments Ok {A}.
Arguments Err {A}.
Arguments Panic {A}.

Definition M (A : Type) : Type := Core -> Outcome (A * Core).

Definition mret {A} (a : A) : M A := fun c => Ok (a, c).
Definition mbind {A B} (m : M A) (f : A -> M B) : M B := fun c =>
  match m c with
  | Ok (a, c') => f a c'
  | Err e => Err e
  | Panic => Panic
  end.
Definition fail {A} (message : string) : M A := fun _ => Err (Message message).
Definition mpanic {A} : M A := fun _ => Panic.

Declare Scope interp_scope.
Delimit Scope interp_scope with interp.
Notation "'let!' x ':=' m 'in' k" := (mbind m (fun x => k))
  (at level 10, x name, m at level 100, k at level 200) : interp_scope.
Open Scope interp_scope.

(** [option.ok_or_else(...)] *)
Definition or_fail {A} (o : option A) (message : string) : M A :=
  match o with Some a => mret a | None => fail message end.
Definition or_panic {A} (o : option A) : M A :=
  match o with Some a => mret a | None => mpanic end.

Fixpoint mmap {A B} (f : A -> M B) (l : list A) : M (list B) :=
  match l with
  | [] => mret []
  | a :: l' => let! b := f a in let! bs := mmap f l' in mret (b :: bs)
  end.

(** ** Values and slots *)

Definition get_values : M (list RuntimeValue) := fun c => Ok (values c, c).
Definition get_slots : M (list RuntimeValue) := fun c => Ok (slots c, c).

(** [values[dest.0 as usize] = v] *)
Definition set_value (dest : ValueId) (v : RuntimeValue) : M unit := fun c =>
  if dest <? length (values c) then Ok (tt, mkCore (heap c) (<[dest := v]> (values c)) (slots c))
  else Panic.

(** [slots[slot.0 as usize] = v] *)
Definition set_slot (slot : LocalSlotId) (v : RuntimeValue) : M unit := fun c =>
  if slot <? length (slots c) then Ok (tt, mkCore (heap c) (values c) (<[slot := v]> (slots c)))
  else Panic.

(** [values[id.0 as usize].clone()] *)
Definition index_value (id : ValueId) : M RuntimeValue :=
  let! vs := get_values in or_panic (vs !! id).

Definition extract_value (id : ValueId) : M RuntimeValue :=
  let! vs := get_values in or_fail (vs !! id) ("unknown value " ++ render_value_id id)%string.

(** ** The tables *)

Definition get_heap : M Heap := fun c => Ok (heap c, c).
Definition put_heap (h : Heap) : M unit := fun c => Ok (tt, mkCore h (values c) (slots c)).

Definition set_builders (h : Heap) (bs : list (list Ascii.ascii)) : Heap :=
  mkHeap bs (text_indices h) (lists h) (handlers h) (stdout_text h).
Definition set_indices (h : Heap) (ixs : list (gmap string Z)) : Heap :=
  mkHeap (text_builders h) ixs (lists h) (handlers h) (stdout_text h).
Definition set_lists (h : Heap) (ls : list (list RuntimeValue)) : Heap :=
  mkHeap (text_builders h) (text_indices h) ls (handlers h) (stdout_text h).
Definition set_handlers (h : Heap) (hs : list (list HandleArm)) : Heap :=
  mkHeap (text_builders h) (text_indices h) (lists h) hs (stdout_text h).
Definition push_stdout (h : Heap) (s : string) : Heap :=
  mkHeap (text_builders h) (text_indices h) (lists h) (handlers h) (stdout_text h ++ s)%string.

Definition get_builder (id : nat) : M (list Ascii.ascii) :=
  let! h := get_heap in or_fail (text_builders h !! id) "text builder handle is unavailable".
Definition put_builder (id : nat) (b : list Ascii.ascii) : M unit :=
  let! h := get_heap in put_heap (set_builders h (<[id := b]> (text_builders h))).

Definition get_index (id : nat) : M (gmap string Z) :=
  let! h := get_heap in or_fail (text_indices h !! id) "text index handle is unavailable".
Definition put_index (id : nat) (i : gmap string Z) : M unit :=
  let! h := get_heap in put_heap (set_indices h (<[id := i]> (text_indices h))).

Definition get_list (id : nat) : M (list RuntimeValue) :=
  let! h := get_heap in or_fail (lists h !! id) "list handle is unavailable".
Definition put_list (id : nat) (l : list RuntimeValue) : M unit :=
  let! h := get_heap in put_heap (set_lists h (<[id := l]> (lists h))).
Definition new_list (l : list RuntimeValue) : M nat :=
  let! h := get_heap in
  let! _ := put_heap (set_lists h (lists h ++ [l])) in mret (length (lists h)).

(** ** [let RuntimeValue::X(x) = v else { return Err(...) }] *)

Definition as_int (v : RuntimeValue) : M Z :=
  match v with V_Int z => mret z | _ => fail "expected Int" end.
Definition as_text (v : RuntimeValue) : M string :=
  match v with V_Text t => mret t | _ => fail "expected Text" end.
Definition as_f64 (v : RuntimeValue) : M f64 :=
  match v with V_F64 x => mret x | _ => fail "expected F64" end.
Definition as_builder (v : RuntimeValue) : M nat :=
  match v with V_TextBuilder id => mret id | _ => fail "expected TextBuilder" end.
Definition as_index (v : RuntimeValue) : M nat :=
  match v with V_TextIndex id => mret id | _ => fail "expected TextIndex" end.
Definition as_list (v : RuntimeValue) : M nat :=
  match v with V_List id => mret id | _ => fail "expected List" end.

(** The bytes of a [Bytes] value, as the data a view looks at, its offset and length. *)
Definition as_view (v : RuntimeValue) : M (list Ascii.ascii * nat * nat) :=
  match v with
  | V_Bytes b => mret (b, 0, length b)
  | V_BytesView data offset len => mret (data, offset, len)
  | _ => fail "expected Bytes"
  end.

(** [&data[offset..offset + len]] *)
Definition view_bytes (data : list Ascii.ascii) (offset len : nat) : M (list Ascii.ascii) :=
  if offset + len <=? length data then mret (slice data offset (offset + len)) else mpanic.

(** [usize::try_from(z).unwrap_or(0)] *)
Definition to_usize (z : Z) : nat := Z.to_nat z.

(** [l.get(z as usize)]: a negative index is beyond any length. *)
Definition get_at {A} (l : list A) (z : Z) : option A :=
  if (0 <=? z)%Z && (z <? Z.of_nat (length l))%Z then l !! Z.to_nat z else None.

(** ** Machine integers *)

(** The value of the low [w] bits of [z], signed. *)
Definition wrap_signed (w : Z) (z : Z) : Z :=
  let m := (z mod 2 ^ w)%Z in if (m <? 2 ^ (w - 1))%Z then m else (m - 2 ^ w)%Z.

Definition as_i32 (z : Z) : Z := wrap_signed 32 z.

(** ** Comparisons of [sort_by] *)

Fixpoint compare_bytes (l r : list Ascii.ascii) : comparison :=
  match l, r with
  | [], [] => Eq
  | [], _ => Lt
  | _, [] => Gt
  | a :: l', b :: r' =>
      match Nat.compare (Ascii.nat_of_ascii a) (Ascii.nat_of_ascii b) with
      | Eq => compare_bytes l' r'
      | c => c
      end
  end.

Definition compare_text (l r : string) : comparison := compare_bytes (bytes l) (bytes r).

Definition compare_text_values (l r : RuntimeValue) : comparison :=
  match l, r with
  | V_Text l, V_Text r => compare_text l r
  | _, _ => Eq
  end.

(** The field of a record the sort looks at. *)
Definition sort_key (field : string) (v : RuntimeValue) : option RuntimeValue :=
  match v with
  | V_Record _ fields => option_map snd (List.find (fun '(name, _) => String.eqb name field) fields)
  | _ => None
  end.

Definition compare_text_fields (field : string) (l r : RuntimeValue) : comparison :=
  match sort_key field l, sort_key field r with
  | Some (V_Text l), Some (V_Text r) => compare_text l r
  | _, _ => Eq
  end.

Definition compare_fields (field : string) (l r : RuntimeValue) : comparison :=
  match sort_key field l, sort_key field r with
  | Some (V_Text l), Some (V_Text r) => compare_text l r
  | Some (V_Int l), Some (V_Int r) => Z.compare l r
  | Some (V_F64 l), Some (V_F64 r) =>
      match f64_compare l r with Some c => c | None => Eq end
  | _, _ => Eq
  end.

(** A stable sort, as [sort_by]: an element moves past those it is greater than. *)
Fixpoint insert_by {A} (cmp : A -> A -> comparison) (x : A) (l : list A) : list A :=
  match l with
  | [] => [x]
  | y :: l' => match cmp x y with Gt => y :: insert_by cmp x l' | _ => x :: l end
  end.
Definition sort_by {A} (cmp : A -> A -> comparison) (l : list A) : list A :=
  fold_right (insert_by cmp) [] l.

(** Is [cmp] a total order on the elements of [l], those it calls equal taken
    together: does it turn around, and is it transitive? *)
Definition total_on {A} (cmp : A -> A -> comparison) (l : list A) : bool :=
  forallb (fun a => forallb (fun b => bool_decide (cmp b a = CompOpp (cmp a b))) l) l &&
  forallb (fun a => forallb (fun b => forallb (fun c =>
    bool_decide (cmp a b = Gt) || bool_decide (cmp b c = Gt) || negb (bool_decide (cmp a c = Gt))) l) l) l.

(** [slice.sort_by(cmp)], which may panic if [cmp] is no total order. *)
Definition sort_slice `{Platform} (cmp : RuntimeValue -> RuntimeValue -> comparison)
    (l : list RuntimeValue) : option (list RuntimeValue) :=
  if total_on cmp l then Some (sort_by cmp l) else sort_unordered cmp l.

(** [list_ref[..used].sort_by(cmp)] *)
Definition sort_prefix `{Platform} (cmp : RuntimeValue -> RuntimeValue -> comparison) (used : nat)
    (l : list RuntimeValue) : option (list RuntimeValue) :=
  match sort_slice cmp (take used l) with
  | Some sorted => Some (sorted ++ drop used l)
  | None => None
  end.

(** Does a vector of [n] values fit?  A larger capacity than [isize::MAX] bytes
    panics with a capacity overflow. *)
Definition vec_fits `{Platform} (n : Z) : bool := (n * value_size <=? 2 ^ 63 - 1)%Z.

(** ** Characters *)

(** [char::from_u32] and [encode_utf8] *)
Definition encode_utf8 (c : Z) : option (list Ascii.ascii) :=
  let byte (z : Z) : Ascii.ascii := as_u8 z in
  if ((0 <=? c) && (c <? 0x80))%Z then Some [byte c]
  else if ((0x80 <=? c) && (c <? 0x800))%Z then
    Some [byte (0xC0 + c / 64); byte (0x80 + c mod 64)]%Z
  else if (((0x800 <=? c) && (c <? 0xD800)) || ((0xE000 <=? c) && (c <? 0x10000)))%Z then
    Some [byte (0xE0 + c / 4096); byte (0x80 + c / 64 mod 64); byte (0x80 + c mod 64)]%Z
  else if ((0x10000 <=? c) && (c <? 0x110000))%Z then
    Some [byte (0xF0 + c / 262144); byte (0x80 + c / 4096 mod 64);
          byte (0x80 + c / 64 mod 64); byte (0x80 + c mod 64)]%Z
  else None.
