(* ===== verification/Sorts.v ===== *)
(** * The sorts of lists

    [sort_by] is stable and a permutation; over a consistent comparison its
    result is sorted.  The comparisons of the list instructions are consistent
    on lists of texts, or of records that all have the field at one type. *)
From stdpp Require Import sorting.
From S2P Require Import Prelude Syntax Utf8 TextOps Float64 Mir Interp.

Open Scope nat_scope.

Section Sort.
Context {A : Type} (cmp : A -> A -> comparison).

Lemma insert_by_perm x l : insert_by cmp x l ≡ₚ x :: l.
Proof.
  induction l as [|y l IH]; cbn; [done|]. destruct (cmp x y); [done..|].
  rewrite IH. apply Permutation_swap.
Qed.

Lemma sort_by_perm l : sort_by cmp l ≡ₚ l.
Proof. induction l as [|x l IH]; cbn; [done|]. by rewrite insert_by_perm, IH. Qed.

(** No element is greater than the one after it. *)
Definition sorted (l : list A) : Prop := Sorted (fun a b => cmp a b <> Gt) l.

(** The comparison of the elements of a set that is closed under sorting. *)
Record consistent (D : A -> Prop) : Prop := {
  cmp_flip : forall a b, D a -> D b -> cmp b a = CompOpp (cmp a b);
  cmp_trans : forall a b c, D a -> D b -> D c -> cmp a b <> Gt -> cmp b c <> Gt -> cmp a c <> Gt
}.

(** Consistent comparisons never panic a sort. *)
Lemma consistent_total D l : consistent D -> Forall D l -> total_on cmp l = true.
Proof.
  intros HD Hl. rewrite Forall_forall in Hl. setoid_rewrite list_elem_of_In in Hl.
  unfold total_on. apply andb_true_iff. split; apply forallb_forall; intros a Ha; apply forallb_forall; intros b Hb.
  - apply bool_decide_eq_true_2. by apply (cmp_flip _ HD); apply Hl.
  - apply forallb_forall. intros c Hc. pose proof (cmp_trans _ HD a b c (Hl a Ha) (Hl b Hb) (Hl c Hc)) as Ht.
    destruct (cmp a b), (cmp b c), (cmp a c); cbn; try done; by destruct Ht.
Qed.

Context (D : A -> Prop) (HD : consistent D).

Lemma insert_by_sorted x l : D x -> Forall D l -> sorted l -> sorted (insert_by cmp x l).
Proof.
  intros Hx Hl Hs. induction Hs as [|y l Hs IH Hy]; cbn; [by repeat constructor|].
  inversion Hl as [|? ? Hy' Hl']; subst. destruct (cmp x y) eqn:Hxy.
  1,2: constructor; [by constructor|constructor; by rewrite Hxy].
  constructor; [by apply IH|].
  assert (cmp y x <> Gt) by (rewrite (cmp_flip _ HD) by done; by rewrite Hxy).
  destruct l as [|z l]; cbn; [by constructor|]. inversion Hy; subst.
  destruct (cmp x z); by constructor.
Qed.

Lemma sort_by_sorted l : Forall D l -> sorted (sort_by cmp l).
Proof.
  induction 1 as [|x l Hx Hl IH]; cbn; [constructor|].
  change (fold_right (insert_by cmp) [] l) with (sort_by cmp l) in *.
  apply insert_by_sorted; [done| |done]. by rewrite sort_by_perm.
Qed.

(** Stability: the elements equivalent to one keep their order. *)
Definition same (a b : A) : bool := match cmp a b with Eq => true | _ => false end.

Lemma insert_by_same x z l :
  D x -> D z -> Forall D l ->
  List.filter (same z) (insert_by cmp x l) = List.filter (same z) (x :: l).
Proof.
  intros Hx Hz Hl. induction Hl as [|y l Hy Hl IH]; cbn; [done|].
  destruct (cmp x y) eqn:Hxy; [done..|]. cbn. rewrite IH. cbn.
  destruct (same z x) eqn:Hzx; [|done]. destruct (same z y) eqn:Hzy; [|done].
  exfalso. unfold same in *. destruct (cmp z x) eqn:Ezx; try done. destruct (cmp z y) eqn:Ezy; try done.
  assert (cmp x z = Eq) as Exz by (rewrite (cmp_flip _ HD) by done; by rewrite Ezx).
  apply (cmp_trans _ HD x z y); try done; by rewrite ?Exz, ?Ezy.
Qed.

Lemma sort_by_stable z l :
  D z -> Forall D l -> List.filter (same z) (sort_by cmp l) = List.filter (same z) l.
Proof.
  intros Hz. induction 1 as [|x l Hx Hl IH]; cbn [sort_by fold_right]; [done|].
  change (fold_right (insert_by cmp) [] l) with (sort_by cmp l).
  rewrite insert_by_same by (try done; by rewrite sort_by_perm). cbn. by rewrite IH.
Qed.
End Sort.

(** ** Bytes and texts in order *)

Lemma compare_bytes_flip l r : compare_bytes r l = CompOpp (compare_bytes l r).
Proof.
  revert r. induction l as [|a l IH]; intros [|b r]; cbn; try done.
  rewrite (Nat.compare_antisym (Ascii.nat_of_ascii a) (Ascii.nat_of_ascii b)).
  destruct (Nat.compare (Ascii.nat_of_ascii a) (Ascii.nat_of_ascii b)); cbn; [apply IH|done..].
Qed.

Lemma compare_bytes_trans l1 l2 l3 :
  compare_bytes l1 l2 <> Gt -> compare_bytes l2 l3 <> Gt -> compare_bytes l1 l3 <> Gt.
Proof.
  revert l2 l3. induction l1 as [|a l1 IH]; intros [|b l2] [|c l3]; cbn; try done.
  destruct (Nat.compare_spec (Ascii.nat_of_ascii a) (Ascii.nat_of_ascii b)),
    (Nat.compare_spec (Ascii.nat_of_ascii b) (Ascii.nat_of_ascii c)),
    (Nat.compare_spec (Ascii.nat_of_ascii a) (Ascii.nat_of_ascii c)); try done; try lia. apply IH.
Qed.

Lemma compare_bytes_eq l r : compare_bytes l r = Eq <-> l = r.
Proof.
  split; [|intros <-]; [revert r; induction l as [|a l IH]; intros [|b r]; cbn; try done|].
  - destruct (Nat.compare_spec (Ascii.nat_of_ascii a) (Ascii.nat_of_ascii b)) as [Hab| |]; try done.
    intros Hlr%IH. apply (f_equal Ascii.ascii_of_nat) in Hab. rewrite !Ascii.ascii_nat_embedding in Hab.
    by subst.
  - induction l as [|a l IH]; cbn; [done|]. by rewrite Nat.compare_refl.
Qed.

(** Values that have a text under [key]. *)
Lemma text_key_consistent (key : RuntimeValue -> option string) cmp :
  (forall a b s t, key a = Some s -> key b = Some t -> cmp a b = compare_text s t) ->
  consistent cmp (fun v => is_Some (key v)).
Proof.
  intros Hcmp. split.
  - intros a b [s Hs] [t Ht]. rewrite (Hcmp a b s t), (Hcmp b a t s) by done. apply compare_bytes_flip.
  - intros a b c [s Hs] [t Ht] [u Hu].
    rewrite (Hcmp a b s t), (Hcmp b c t u), (Hcmp a c s u) by done. apply compare_bytes_trans.
Qed.

Definition text_of (v : RuntimeValue) : option string :=
  match v with V_Text s => Some s | _ => None end.
Definition text_field_of (field : string) (v : RuntimeValue) : option string :=
  match sort_key field v with Some (V_Text s) => Some s | _ => None end.

Lemma compare_text_values_consistent : consistent compare_text_values (fun v => is_Some (text_of v)).
Proof. apply text_key_consistent. by intros [] [] ? ? [= <-] [= <-]. Qed.

Lemma compare_text_fields_consistent field :
  consistent (compare_text_fields field) (fun v => is_Some (text_field_of field v)).
Proof.
  apply text_key_consistent. unfold text_field_of, compare_text_fields. intros a b s t.
  destruct (sort_key field a) as [[]|]; try done. intros [= <-].
  destruct (sort_key field b) as [[]|]; try done. by intros [= <-].
Qed.

Definition int_field_of (field : string) (v : RuntimeValue) : option Z :=
  match sort_key field v with Some (V_Int z) => Some z | _ => None end.

Lemma compare_int_fields_consistent field :
  consistent (compare_fields field) (fun v => is_Some (int_field_of field v)).
Proof.
  unfold int_field_of, compare_fields. split.
  - intros a b [x Hx] [y Hy]. destruct (sort_key field a) as [[]|]; try done.
    destruct (sort_key field b) as [[]|]; try done. apply Z.compare_antisym.
  - intros a b c [x Hx] [y Hy] [z Hz]. destruct (sort_key field a) as [[]|]; try done.
    destruct (sort_key field b) as [[]|]; try done. destruct (sort_key field c) as [[]|]; try done.
    rewrite !Z.compare_gt_iff. lia.
Qed.
