(* ===== verification/Exec.v ===== *)
(** * The MIR interpreter: instructions

    The arms of the [match] in [Interpreter::execute_insts], grouped as the
    source groups them: [simple] is every instruction that does not touch the
    control state; [Machine.v] has the others. *)
From stdpp Require Import gmap pretty.
From S2P Require Import Prelude Syntax Utf8 TextOps Float64 Mir Interp.

Open Scope nat_scope.

(** What is fixed while a program runs: the program, its arguments and input,
    and whether the build checks integer overflow (a debug build does). *)
Record Env := mkEnv {
  program : Program;
  program_args : list string;
  stdin_text : string;
  overflow_checks : bool
}.

Definition env_enum (env : Env) (name : string) : option EnumType :=
  find_last enum_name name (program_enums (program env)).
Definition env_struct (env : Env) (name : string) : option StructType :=
  find_last struct_name name (program_structs (program env)).
Definition env_function (env : Env) (name : string) : option Function :=
  find_last fn_name name (program_functions (program env)).

(** [variants.iter().position(|v| v.name == variant)] *)
Fixpoint variant_position (variants : list EnumVariantType) (variant : string) : option nat :=
  match variants with
  | [] => None
  | v :: variants' =>
      if String.eqb (variant_name v) variant then Some 0
      else option_map S (variant_position variants' variant)
  end.

Section Exec.
Context `{Platform} (env : Env).

(** ** Reading values *)

Definition extract_int (id : ValueId) : M Z :=
  let! vs := get_values in
  match vs !! id with
  | Some (V_Int z) => mret z
  | Some other => fail ("expected integer value, found " ++ render other)%string
  | None => fail ("unknown value " ++ render_value_id id)%string
  end.

Definition extract_bool (id : ValueId) : M bool :=
  let! vs := get_values in
  match vs !! id with
  | Some (V_Bool b) => mret b
  | Some other => fail ("expected boolean value, found " ++ render other)%string
  | None => fail ("unknown value " ++ render_value_id id)%string
  end.

(** ** Arithmetic *)

(** The result of an [i64] operation: out of range it panics when overflow is
    checked and wraps when it is not. *)
Definition checked (z : Z) : M Z :=
  if in_i64 z then mret z
  else if overflow_checks env then mpanic else mret (wrap_signed 64 z).

(** [l % r] panics on a zero divisor and on [i64::MIN % -1]. *)
Definition int_rem (l r : Z) : M Z :=
  if (r =? 0)%Z then mpanic
  else if in_i64 (Z.quot l r) then mret (Z.rem l r) else mpanic.

Definition run_arithmetic (dest left right : ValueId) (int_op : Z -> Z -> M Z)
    (f64_op : f64 -> f64 -> f64) (kind : string) : M unit :=
  let! left := index_value left in
  let! right := index_value right in
  match left, right with
  | V_Int l, V_Int r => let! z := int_op l r in set_value dest (V_Int z)
  | V_F64 l, V_F64 r => set_value dest (V_F64 (f64_op l r))
  | _, _ => fail ("expected matching numeric operands for " ++ kind)%string
  end.

Definition run_comparison (dest left right : ValueId) (int_op : Z -> Z -> bool)
    (f64_op : f64 -> f64 -> bool) (kind : string) : M unit :=
  let! left := index_value left in
  let! right := index_value right in
  match left, right with
  | V_Int l, V_Int r => set_value dest (V_Bool (int_op l r))
  | V_F64 l, V_F64 r => set_value dest (V_Bool (f64_op l r))
  | _, _ => fail ("expected matching numeric operands for " ++ kind)%string
  end.

Definition run_div (dest left right : ValueId) : M unit :=
  let! left := index_value left in
  let! right := index_value right in
  match left, right with
  | V_Int l, V_Int r =>
      if (r =? 0)%Z then fail "division by zero"
      else
        let! z := (if in_i64 (Z.quot l r) then mret (Z.quot l r) else mpanic) in
        set_value dest (V_Int z)
  | V_F64 l, V_F64 r =>
      if f64_eqb r (f64_of_Z 0) then fail "division by zero"
      else set_value dest (V_F64 (f64_div l r))
  | _, _ => fail "expected matching numeric operands for div"
  end.

Definition run_bitwise (dest left right : ValueId) (op : Z -> Z -> Z) : M unit :=
  let! left := extract_int left in
  let! right := extract_int right in
  set_value dest (V_Int (op (as_i32 left) (as_i32 right))).

(** The shift amount is taken modulo 32. *)
Definition run_shift (dest left right : ValueId) (op : Z -> Z -> Z) : M unit :=
  let! left := extract_int left in
  let! right := extract_int right in
  set_value dest (V_Int (op (as_i32 left) (Z.land right 31))).

(** [l.wrapping_shl(r)] and [l >> r] on [i32] *)
Definition i32_shl (l r : Z) : Z := as_i32 (Z.shiftl l r).
Definition i32_shr (l r : Z) : Z := Z.shiftr l r.

Definition run_equality (dest left right : ValueId) (eq : bool) : M unit :=
  let! left := extract_value left in
  let! right := extract_value right in
  set_value dest (V_Bool (if eq then value_eqb left right else negb (value_eqb left right))).

Definition clamp_fixed_decimal_digits (digits : Z) : nat :=
  if (digits <=? 0)%Z then 0
  else if (1000 <=? digits)%Z then 1000
  else Z.to_nat digits.

Definition format_f64_fixed (value : f64) (digits : Z) : string :=
  f64_fixed value (clamp_fixed_decimal_digits digits).

(** ** Enums *)

Definition enum_tag (name variant : string) : M Z :=
  match env_enum env name with
  | None => fail ("unknown enum type `" ++ name ++ "`")%string
  | Some ty =>
      match variant_position (enum_type_variants ty) variant with
      | Some index => mret (Z.of_nat index)
      | None => fail ("enum `" ++ name ++ "` has no variant `" ++ variant ++ "`")%string
      end
  end.

(** ** Text *)

(** A panic, or the clamped end. *)
Definition clamp_end (bytes : list Ascii.ascii) (index : Z) : M nat :=
  or_panic (clamp_text_slice_end bytes index).

(** [let end = if raw_end < start { start } else { raw_end }] *)
Definition clamped_range (bytes : list Ascii.ascii) (start end_ : Z) : M (nat * nat) :=
  let start := clamp_text_slice_start bytes start in
  let! raw_end := clamp_end bytes end_ in
  mret (start, if raw_end <? start then start else raw_end).

(** The range of a [Bytes] instruction: no boundaries, both ends at most [len]. *)
Definition byte_range (len : nat) (start end_ : Z) : nat * nat :=
  let s := Nat.min (to_usize start) len in
  let e := Nat.min (to_usize end_) len in
  (s, Nat.max e s).

(** The first [byte] of [data] in [offset + start .. offset + end_], if any. *)
Definition find_byte (data : list Ascii.ascii) (offset start end_ : nat) (byte : Ascii.ascii)
    : M (option nat) :=
  let! found := or_panic (find_byte_loop data byte (end_ - start) (offset + start)) in
  mret (option_map (fun i => i - offset) found).

Definition set_position (dest : ValueId) (i : nat) : M unit := set_value dest (V_Int (Z.of_nat i)).

(** [TextFieldEnd] and [TextNextField]: up to the byte, or past it. *)
Definition text_field (past : bool) (dest source start end_ byte : ValueId) : M unit :=
  let! source := extract_value source in
  let! start := extract_value start in
  let! end_ := extract_value end_ in
  let! byte := extract_value byte in
  let! source := as_text source in
  let! start := as_int start in
  let! end_ := as_int end_ in
  let! byte := as_int byte in
  let! range := clamped_range (bytes source) start end_ in
  let! found := find_byte (bytes source) 0 range.1 range.2 (as_u8 byte) in
  set_position dest (match found with
                     | Some i => if past then S i else i
                     | None => range.2
                     end).

(** [BytesFindByteRange], [BytesFieldEnd] and [BytesNextField] *)
Definition bytes_field (past : bool) (dest source start end_ byte : ValueId) : M unit :=
  let! source := extract_value source in
  let! start := extract_value start in
  let! end_ := extract_value end_ in
  let! byte := extract_value byte in
  let! view := as_view source in
  let! start := as_int start in
  let! end_ := as_int end_ in
  let! byte := as_int byte in
  let '(data, offset, len) := view in
  let range := byte_range len start end_ in
  let! found := find_byte data offset range.1 range.2 (as_u8 byte) in
  set_position dest (match found with
                     | Some i => if past then S i else i
                     | None => range.2
                     end).

(** [TextFindByteRange] accepts [Bytes] too, whose start may continue a
    character: an end that underflows is [usize::MAX] without overflow checks,
    and the loop panics at the length unless it finds the byte. *)
Definition text_find_byte_range (dest source start end_ byte : ValueId) : M unit :=
  let! source := extract_value source in
  let! start := extract_value start in
  let! end_ := extract_value end_ in
  let! byte := extract_value byte in
  let! start := as_int start in
  let! end_ := as_int end_ in
  let! byte := as_int byte in
  let! data :=
    match source with
    | V_Text text => mret (bytes text)
    | V_Bytes data => mret data
    | _ => fail "expected Text or Bytes"
    end in
  let start := clamp_text_slice_start data start in
  let! end_ :=
    match clamp_text_slice_end data end_ with
    | Some raw_end => mret (if raw_end <? start then start else raw_end)
    | None => if overflow_checks env then mpanic else mret (S (length data))
    end in
  let! found := find_byte data 0 start end_ (as_u8 byte) in
  set_position dest (match found with Some i => i | None => end_ end).

(** The line of [TextLineEnd] and [TextNextLine]: its start and its end, before
    the newline. *)
Definition line_end (source : list Ascii.ascii) (start : Z) : M (nat * nat) :=
  let start := clamp_text_slice_start source start in
  let! found := find_byte source 0 start (length source) (Ascii.ascii_of_nat 10) in
  mret (start, match found with Some i => i | None => length source end).

Definition text_line_end (dest source start : ValueId) : M unit :=
  let! source := extract_value source in
  let! start := extract_value start in
  let! source := as_text source in
  let! start := as_int start in
  let! line := line_end (bytes source) start in
  let '(start, line_end) := line in
  set_position dest
    (if (start <? line_end)
        && bool_decide (bytes source !! (line_end - 1) = Some (Ascii.ascii_of_nat 13))
     then line_end - 1 else line_end).

Definition text_next_line (dest source start : ValueId) : M unit :=
  let! source := extract_value source in
  let! start := extract_value start in
  let! source := as_text source in
  let! start := as_int start in
  let! line := line_end (bytes source) start in
  let line_end := line.2 in
  set_position dest (if line_end <? length (bytes source) then S line_end else line_end).

Definition text_slice (dest text start end_ : ValueId) : M unit :=
  let! text := extract_value text in
  let! start := extract_value start in
  let! end_ := extract_value end_ in
  let! text := as_text text in
  let! start := as_int start in
  let! end_ := as_int end_ in
  let clamped_start := clamp_text_slice_start (bytes text) start in
  let! clamped_end := clamp_end (bytes text) end_ in
  if clamped_end <=? clamped_start then set_value dest (V_Text "")
  else if (clamped_start =? 0) && (clamped_end =? length (bytes text)) then set_value dest (V_Text text)
  else
    let! sliced := or_panic (from_utf8 (slice (bytes text) clamped_start clamped_end)) in
    set_value dest (V_Text sliced).

Definition text_eq_range (dest source start end_ expected : ValueId) : M unit :=
  let! source := extract_value source in
  let! start := extract_value start in
  let! end_ := extract_value end_ in
  let! expected := extract_value expected in
  let! source := as_text source in
  let! start := as_int start in
  let! end_ := as_int end_ in
  let! expected := as_text expected in
  let! range := clamped_range (bytes source) start end_ in
  set_value dest (V_Bool (bool_decide (slice (bytes source) range.1 range.2 = bytes expected))).

Definition text_cmp (dest left right : ValueId) : M unit :=
  let! left := extract_value left in
  let! right := extract_value right in
  let! left := as_text left in
  let! right := as_text right in
  set_value dest (V_Int match compare_text left right with Lt => -1 | Eq => 0 | Gt => 1 end).

Definition text_concat (dest left right : ValueId) : M unit :=
  let! left := extract_value left in
  let! right := extract_value right in
  let! left := as_text left in
  let! right := as_text right in
  if String.eqb left "" then set_value dest (V_Text right)
  else if String.eqb right "" then set_value dest (V_Text left)
  else set_value dest (V_Text (left ++ right)%string).

Definition text_byte (dest text index : ValueId) : M unit :=
  let! text := extract_value text in
  let! index := extract_value index in
  let! data :=
    match text with
    | V_Text text => mret (bytes text)
    | V_Bytes data => mret data
    | _ => fail "expected Text or Bytes"
    end in
  let! index := as_int index in
  set_position dest (match get_at data index with Some a => Ascii.nat_of_ascii a | None => 0 end).

Definition parse_i32_range (dest text start end_ : ValueId) : M unit :=
  let! text := extract_value text in
  let! start := extract_value start in
  let! end_ := extract_value end_ in
  let! text := as_text text in
  let! start := as_int start in
  let! end_ := as_int end_ in
  let! range := clamped_range (bytes text) start end_ in
  let! sliced := or_fail (from_utf8 (slice (bytes text) range.1 range.2)) "expected utf-8 text" in
  let! parsed := or_fail (parse_i64 (trim (bytes sliced))) "expected base-10 integer text" in
  set_value dest (V_Int parsed).

(** ** Bytes *)

Definition bytes_slice (dest source start end_ : ValueId) : M unit :=
  let! source := extract_value source in
  let! start := extract_value start in
  let! end_ := extract_value end_ in
  let! start := as_int start in
  let! end_ := as_int end_ in
  let! view := as_view source in
  let '(data, offset, len) := view in
  let range := byte_range len start end_ in
  set_value dest (V_BytesView data (offset + range.1) (range.2 - range.1)).

Definition bytes_byte (dest source index : ValueId) : M unit :=
  let! source := extract_value source in
  let! index := extract_value index in
  let! index := as_int index in
  match source with
  | V_Bytes data =>
      set_position dest (match get_at data index with Some a => Ascii.nat_of_ascii a | None => 0 end)
  | V_BytesView data offset len =>
      if (0 <=? index)%Z && (index <? Z.of_nat len)%Z then
        let! a := or_panic (data !! (offset + Z.to_nat index)) in
        set_position dest (Ascii.nat_of_ascii a)
      else set_position dest 0
  | _ => fail "expected Bytes"
  end.

(** ** Text builders *)

Definition append (dest id : nat) (tail : list Ascii.ascii) : M unit :=
  let! b := get_builder id in
  let! _ := put_builder id (b ++ tail) in
  set_value dest (V_TextBuilder id).

Definition text_builder_new (dest : ValueId) : M unit :=
  let! h := get_heap in
  let! _ := put_heap (set_builders h (text_builders h ++ [[]])) in
  set_value dest (V_TextBuilder (length (text_builders h))).

Definition text_builder_append (dest builder text : ValueId) : M unit :=
  let! builder := extract_value builder in
  let! text := extract_value text in
  let! id := as_builder builder in
  let! text := as_text text in
  append dest id (bytes text).

Definition text_builder_append_codepoint (dest builder codepoint : ValueId) : M unit :=
  let! builder := extract_value builder in
  let! codepoint := extract_value codepoint in
  let! id := as_builder builder in
  let! codepoint := as_int codepoint in
  if negb ((0 <=? codepoint) && (codepoint <? 2 ^ 32))%Z
  then fail "text builder codepoint must be non-negative"
  else
    let! encoded := or_fail (encode_utf8 codepoint)
      "text builder codepoint must be a valid Unicode scalar" in
    append dest id encoded.

Definition text_builder_append_ascii (dest builder byte : ValueId) : M unit :=
  let! builder := extract_value builder in
  let! byte := extract_value byte in
  let! id := as_builder builder in
  let! byte := as_int byte in
  if negb ((0 <=? byte) && (byte <? 256))%Z then fail "ASCII byte must fit in 0..255"
  else if (127 <? byte)%Z then fail "ASCII byte must fit in 0..127"
  else append dest id [as_u8 byte].

Definition text_builder_append_slice (dest builder text start end_ : ValueId) : M unit :=
  let! builder := extract_value builder in
  let! text := extract_value text in
  let! start := extract_value start in
  let! end_ := extract_value end_ in
  let! id := as_builder builder in
  let! text := as_text text in
  let! start := as_int start in
  let! end_ := as_int end_ in
  if (start <? 0)%Z then fail "slice start must be non-negative"
  else if (end_ <? 0)%Z then fail "slice end must be non-negative"
  else if (end_ <? start)%Z || (Z.of_nat (length (bytes text)) <? end_)%Z
  then fail "text builder slice range is out of bounds"
  else append dest id (slice (bytes text) (Z.to_nat start) (Z.to_nat end_)).

(** [TextBuilderAppendI32] and [TextBuilderAppendI64]: the same code. *)
Definition text_builder_append_int (dest builder value : ValueId) : M unit :=
  let! builder := extract_value builder in
  let! value := extract_value value in
  let! id := as_builder builder in
  let! value := as_int value in
  append dest id (bytes (pretty value)).

(** The builder is emptied before its bytes are checked. *)
Definition text_builder_finish (dest builder : ValueId) : M unit :=
  let! builder := extract_value builder in
  let! id := as_builder builder in
  let! b := get_builder id in
  let! _ := put_builder id [] in
  let! text := or_fail (from_utf8 b) "text builder produced invalid UTF-8" in
  set_value dest (V_Text text).

Definition stdout_write_builder (dest builder : ValueId) : M unit :=
  let! builder := extract_value builder in
  let! id := as_builder builder in
  let! b := get_builder id in
  let! text := or_fail (from_utf8 b) "text builder produced invalid UTF-8" in
  let! h := get_heap in
  let! _ := put_heap (push_stdout h text) in
  let! _ := put_builder id [] in
  set_value dest (V_TextBuilder id).

Definition stdout_write (text : ValueId) : M unit :=
  let! text := extract_value text in
  let! text :=
    match text with
    | V_Text t => mret t
    | V_Bytes b => mret (from_utf8_lossy b)
    | V_BytesView data offset len =>
        let! b := view_bytes data offset len in mret (from_utf8_lossy b)
    | _ => fail "expected Text or Bytes"
    end in
  let! h := get_heap in
  put_heap (push_stdout h text).

(** ** Text indices *)

Definition text_index_new (dest : ValueId) : M unit :=
  let! h := get_heap in
  let! _ := put_heap (set_indices h (text_indices h ++ [∅])) in
  set_value dest (V_TextIndex (length (text_indices h))).

Definition text_index_get (dest index key : ValueId) : M unit :=
  let! index := extract_value index in
  let! key := extract_value key in
  let! id := as_index index in
  let! key := as_text key in
  let! m := get_index id in
  set_value dest (V_Int (default (-1)%Z (m !! key))).

Definition text_index_contains (dest index key : ValueId) : M unit :=
  let! index := extract_value index in
  let! key := extract_value key in
  let! id := as_index index in
  let! key := as_text key in
  let! h := get_heap in
  let exists_ :=
    match text_indices h !! id with
    | Some m => match m !! key with Some _ => true | None => false end
    | None => false
    end in
  set_value dest (V_Int (if exists_ then 1 else 0)).

Definition text_index_get_or_insert (dest index key next : ValueId) : M unit :=
  let! index := extract_value index in
  let! key := extract_value key in
  let! next := extract_value next in
  let! id := as_index index in
  let! key := as_text key in
  let! next := as_int next in
  let! m := get_index id in
  match m !! key with
  | Some z => set_value dest (V_Int z)
  | None =>
      let! _ := put_index id (<[key := next]> m) in
      set_value dest (V_Int next)
  end.

Definition text_index_set (dest index key value : ValueId) : M unit :=
  let! index := extract_value index in
  let! key := extract_value key in
  let! value := extract_value value in
  let! id := as_index index in
  let! key := as_text key in
  let! value := as_int value in
  let! m := get_index id in
  let! _ := put_index id (<[key := value]> m) in
  set_value dest (V_TextIndex id).

Definition text_index_keys (dest index : ValueId) : M unit :=
  let! index := extract_value index in
  let! id := as_index index in
  let! m := get_index id in
  let keys := sort_by compare_text (map fst (map_to_list m)) in
  set_value dest (V_Text (join (String (Ascii.ascii_of_nat 10) "") keys)).

(** ** Lists *)

Definition list_new (dest len value : ValueId) : M unit :=
  let! len := extract_value len in
  let! value := extract_value value in
  let! len := as_int len in
  if (len <? 0)%Z then fail "list_new length must be non-negative"
  else if negb (vec_fits len) then mpanic
  else
    let! id := new_list (replicate (Z.to_nat len) value) in
    set_value dest (V_List id).

(** The elements are looked up as fields [f0], [f1] and so on. *)
Definition list_from (dest array : ValueId) (len : nat) : M unit :=
  let! array := extract_value array in
  match array with
  | V_Record _ fields =>
      let elem (i : nat) : RuntimeValue :=
        match List.find (fun '(name, _) => String.eqb name ("f" ++ pretty i)%string) fields with
        | Some (_, v) => v
        | None => V_Int 0
        end in
      if negb (vec_fits (Z.of_nat len)) then mpanic
      else
        let! id := new_list (map elem (seq 0 len)) in
        set_value dest (V_List id)
  | _ => fail "list_from: expected array (record) value"
  end.

Definition list_len (dest list : ValueId) : M unit :=
  let! list := extract_value list in
  let! id := as_list list in
  let! l := get_list id in
  set_position dest (length l).

Definition list_get (dest list index : ValueId) : M unit :=
  let! list := extract_value list in
  let! index := extract_value index in
  let! id := as_list list in
  let! index := as_int index in
  let! h := get_heap in
  set_value dest
    (match lists h !! id with
     | Some l => default (V_Int 0) (get_at l index)
     | None => V_Int 0
     end).

Definition list_set (dest list index value : ValueId) : M unit :=
  let! list := extract_value list in
  let! index := extract_value index in
  let! value := extract_value value in
  let! id := as_list list in
  let! index := as_int index in
  let! h := get_heap in
  let! _ :=
    match lists h !! id with
    | Some l =>
        if (0 <=? index)%Z && (index <? Z.of_nat (length l))%Z
        then put_list id (<[Z.to_nat index := value]> l) else mret tt
    | None => mret tt
    end in
  set_value dest (V_List id).

Definition list_push (dest list len value : ValueId) : M unit :=
  let! list := extract_value list in
  let! len := extract_value len in
  let! value := extract_value value in
  let! id := as_list list in
  let! len := as_int len in
  if (len <? 0)%Z then fail "list_push length must be non-negative"
  else
    let used := Z.to_nat len in
    let! l := get_list id in
    if used <? length l then
      let! _ := put_list id (<[used := value]> l) in
      set_value dest (V_List id)
    else if used =? length l then
      let next_cap := if used =? 0 then 8 else used * 2 in
      let cap := Nat.max next_cap (used + 1) in
      if negb (vec_fits (Z.of_nat cap)) then mpanic
      else
        let! _ := put_list id (l ++ replicate (cap - used) value) in
        set_value dest (V_List id)
    else fail "bounds assertion failed in `list_push`".

(** The three sorts: [name] is how their messages call them. *)
Definition list_sort (name : string) (cmp : RuntimeValue -> RuntimeValue -> comparison)
    (dest list len : ValueId) : M unit :=
  let! list := extract_value list in
  let! len := extract_value len in
  let! id := as_list list in
  let! len := as_int len in
  if (len <? 0)%Z then fail (name ++ " length must be non-negative")%string
  else
    let used := Z.to_nat len in
    let! l := get_list id in
    if length l <? used then fail ("bounds assertion failed in `" ++ name ++ "`")%string
    else
      let! sorted := or_panic (sort_prefix cmp used l) in
      let! _ := put_list id sorted in
      set_value dest (V_List id).
End Exec.
