(* ===== verification/Machine.v ===== *)
(** * The MIR interpreter: the frame machine

    [Interpreter::execute_insts] keeps an explicit stack of frames: a call, a
    branch, a loop, a handler arm and a handled body each push one, and running
    off the end of the instructions pops it.  [step] is one round of the loop,
    [run_steps] the loop itself; [execute_function] and [run_function] enter it.
    A [&[Inst]] and its program counter are the instructions that remain. *)
From stdpp Require Import gmap pretty.
From S2P Require Import Prelude Syntax Utf8 TextOps Float64 Mir Interp Exec.

Open Scope nat_scope.

Inductive WhilePhase := Condition | Body.

(** [saved] is [saved_instructions] from [saved_pc] on. *)
Inductive Frame :=
  | CallFrame (saved_function : Function) (saved : list Inst)
      (saved_values saved_slots saved_args : list RuntimeValue) (dest : ValueId)
  | IfBranch (saved : list Inst) (dest : ValueId) (branch_result : option ValueId)
  | WhileLoop (saved : list Inst) (dest : ValueId) (condition_insts : list Inst)
      (condition : ValueId) (body_insts : list Inst) (phase : WhilePhase)
  | RepeatLoop (saved : list Inst) (dest : ValueId) (count index : Z)
      (index_slot : option LocalSlotId) (body_insts : list Inst)
  | PerformBody (saved : list Inst) (saved_args : list RuntimeValue) (dest : ValueId)
      (body_result : option ValueId)
  | HandleBody (saved_function : Function) (saved : list Inst)
      (saved_values saved_slots saved_args : list RuntimeValue) (dest : ValueId)
      (body_result : option ValueId).

Record Config := mkConfig {
  core : Core;
  function : Function;
  instructions : list Inst;
  active_args : list RuntimeValue;
  frame_stack : list Frame
}.

Section Machine.
Context `{Platform} (env : Env).

(** [vec![RuntimeValue::Unit; n.max(1) as usize]] *)
Definition fresh (n : nat) : list RuntimeValue := replicate (Nat.max n 1) V_Unit.

(** ** Instructions without control *)

Definition load_param (args : list RuntimeValue) (dest : ValueId) (index : nat) : M unit :=
  let! v := or_fail (args !! index) "parameter load out of bounds" in
  set_value dest v.

Definition load_local (f : Function) (dest : ValueId) (slot : LocalSlotId) : M unit :=
  let! ss := get_slots in
  let! v := or_fail (ss !! slot)
    ("mutable local " ++ render_slot_id slot ++ " is unavailable in `" ++ fn_name f ++ "`")%string in
  set_value dest v.

Definition make_enum (dest : ValueId) (name variant : string) (payload : option ValueId) : M unit :=
  let! payload :=
    match payload with
    | Some id => let! v := extract_value id in mret (Some v)
    | None => mret None
    end in
  set_value dest (V_Enum name variant payload).

Definition make_record (dest : ValueId) (name : string) (fields : list (string * ValueId)) : M unit :=
  let! fields := mmap (fun '(f, id) => let! v := extract_value id in mret (f, v)) fields in
  set_value dest (V_Record name fields).

Definition field (dest base : ValueId) (name : string) : M unit :=
  let! base := extract_value base in
  match base with
  | V_Record record fields =>
      match List.find (fun '(f, _) => String.eqb f name) fields with
      | Some (_, v) => set_value dest v
      | None => fail ("record `" ++ record ++ "` has no field `" ++ name ++ "`")%string
      end
  | _ => fail ("expected record value for field access `" ++ name ++ "`")%string
  end.

Definition enum_tag_eq (dest value : ValueId) (tag : Z) : M unit :=
  let! value := extract_value value in
  let! actual :=
    match value with
    | V_Enum name variant _ => enum_tag env name variant
    | V_Int z => mret z
    | _ => fail "expected enum value or enum tag for tag test"
    end in
  set_value dest (V_Bool (actual =? tag)%Z).

Definition enum_payload (dest value : ValueId) : M unit :=
  let! value := extract_value value in
  match value with
  | V_Enum _ _ (Some payload) => set_value dest payload
  | V_Enum _ _ None => fail "enum variant has no payload"
  | _ => fail "expected enum value for payload access"
  end.

Definition enum_to_i32 (dest value : ValueId) (discriminants : list Z) : M unit :=
  let! value := extract_value value in
  match value with
  | V_Enum name variant _ =>
      let index :=
        match env_enum env name with
        | Some ty => variant_position (enum_type_variants ty) variant
        | None => None
        end in
      let! index := or_fail index
        ("unknown enum variant `" ++ variant ++ "` for `" ++ name ++ "`")%string in
      set_value dest (V_Int (default (Z.of_nat index) (discriminants !! index)))
  | _ => fail "expected enum value for enum_to_i32"
  end.

Definition enum_to_text (dest value : ValueId) : M unit :=
  let! value := extract_value value in
  match value with
  | V_Enum _ variant _ => set_value dest (V_Text variant)
  | _ => fail "expected enum value for enum_to_text"
  end.

Definition assert_contract (f : Function) (condition : ValueId) (kind : ContractKind) : M unit :=
  let! holds := extract_bool condition in
  if holds then mret tt
  else
    match kind with
    | Requires | Ensures =>
        fail (keyword kind ++ " contract failed in `" ++ fn_name f ++ "`")%string
    | Bounds => fail ("bounds assertion failed in `" ++ fn_name f ++ "`")%string
    end.

Definition boolean (dest left right : ValueId) (op : bool -> bool -> bool) : M unit :=
  let! left := extract_bool left in
  let! right := extract_bool right in
  set_value dest (V_Bool (op left right)).

(** A read of one value, converted. *)
Definition convert {A} (dest value : ValueId) (as_ : RuntimeValue -> M A) (f : A -> RuntimeValue) : M unit :=
  let! v := extract_value value in
  let! a := as_ v in
  set_value dest (f a).

Definition as_i64 (v : RuntimeValue) : M Z :=
  match v with V_I64 z => mret z | _ => fail "expected I64" end.

Definition text_len (v : RuntimeValue) : M nat :=
  match v with
  | V_Text text => mret (length (bytes text))
  | V_Bytes b => mret (length b)
  | V_BytesView _ _ len => mret len
  | _ => fail "expected Text or Bytes"
  end.

Definition bytes_len (v : RuntimeValue) : M nat :=
  match v with
  | V_Bytes b => mret (length b)
  | V_BytesView _ _ len => mret len
  | _ => fail "expected Bytes"
  end.

(** The bytes of a [Bytes] value, copied. *)
Definition materialize (v : RuntimeValue) : M (list Ascii.ascii) :=
  match v with
  | V_Bytes b => mret b
  | V_BytesView data offset len => view_bytes data offset len
  | _ => fail "expected Bytes"
  end.

Definition as_parsed {A} (parse : list Ascii.ascii -> option A) (message : string)
    (v : RuntimeValue) : M A :=
  let! text := as_text v in or_fail (parse (trim (bytes text))) message.

Definition text_from_f64_fixed (dest value digits : ValueId) : M unit :=
  let! value := extract_value value in
  let! digits := extract_value digits in
  let! value := as_f64 value in
  let! digits := as_int digits in
  set_value dest (V_Text (format_f64_fixed value digits)).

Definition arg_text (dest index : ValueId) : M unit :=
  let! index := extract_value index in
  let! index := as_int index in
  set_value dest (V_Text (default ""%string (get_at (program_args env) index))).

Definition unsupported (name : string) : M unit :=
  fail ("interpreter does not support " ++ name ++ "; use native or C backend")%string.

(** Every instruction that leaves the control state alone; [None] for one that
    does not. *)
Definition simple (f : Function) (args : list RuntimeValue) (i : Inst) : option (M unit) :=
  match i with
  | I_LoadParam dest index => Some (load_param args dest index)
  | I_LoadLocal dest slot => Some (load_local f dest slot)
  | I_StoreLocal slot src => Some (let! v := extract_value src in set_slot slot v)
  | I_ConstInt dest value => Some (set_value dest (V_Int value))
  | I_ConstF64 dest bits => Some (set_value dest (V_F64 (f64_from_bits bits)))
  | I_ConstBool dest value => Some (set_value dest (V_Bool value))
  | I_ConstText dest value => Some (set_value dest (V_Text value))
  | I_TextBuilderNew dest => Some (text_builder_new dest)
  | I_TextIndexNew dest => Some (text_index_new dest)
  | I_TextBuilderAppend dest builder text => Some (text_builder_append dest builder text)
  | I_TextBuilderAppendCodepoint dest builder codepoint =>
      Some (text_builder_append_codepoint dest builder codepoint)
  | I_TextBuilderAppendAscii dest builder byte => Some (text_builder_append_ascii dest builder byte)
  | I_TextBuilderAppendSlice dest builder text start end_ =>
      Some (text_builder_append_slice dest builder text start end_)
  | I_TextBuilderAppendI32 dest builder value => Some (text_builder_append_int dest builder value)
  | I_TextBuilderAppendI64 dest builder value => Some (text_builder_append_int dest builder value)
  | I_TextBuilderFinish dest builder => Some (text_builder_finish dest builder)
  | I_TextIndexGet dest index key => Some (text_index_get dest index key)
  | I_TextIndexContains dest index key => Some (text_index_contains dest index key)
  | I_TextIndexGetOrInsert dest index key next => Some (text_index_get_or_insert dest index key next)
  | I_TextIndexSet dest index key value => Some (text_index_set dest index key value)
  | I_TextIndexKeys dest index => Some (text_index_keys dest index)
  | I_ListNew dest len value => Some (list_new dest len value)
  | I_ListFrom dest array len => Some (list_from dest array len)
  | I_ListLen dest list => Some (list_len dest list)
  | I_ListGet dest list index => Some (list_get dest list index)
  | I_ListSet dest list index value => Some (list_set dest list index value)
  | I_ListPush dest list len value => Some (list_push dest list len value)
  | I_ListSortText dest list len => Some (list_sort "list_sort_text" compare_text_values dest list len)
  | I_ListSortRecordTextField dest list len field =>
      Some (list_sort "list_sort_by_text_field" (compare_text_fields field) dest list len)
  | I_ListSortRecordField dest list len field =>
      Some (list_sort "list_sort_by_field" (compare_fields field) dest list len)
  | I_F64FromI32 dest value => Some (convert dest value as_int (fun z => V_F64 (f64_of_Z z)))
  | I_I64FromI32 dest value => Some (convert dest value as_int V_I64)
  | I_F64FromI64 dest value => Some (convert dest value as_i64 (fun z => V_F64 (f64_of_Z z)))
  | I_TextLen dest text => Some (convert dest text text_len (fun n => V_Int (Z.of_nat n)))
  | I_BytesLen dest bytes => Some (convert dest bytes bytes_len (fun n => V_Int (Z.of_nat n)))
  | I_TextConcat dest l r => Some (text_concat dest l r)
  | I_TextIntern dest text => Some (convert dest text as_text V_Text)
  | I_TextSlice dest text start end_ => Some (text_slice dest text start end_)
  | I_BytesSlice dest bytes start end_ => Some (bytes_slice dest bytes start end_)
  | I_TextByte dest text index => Some (text_byte dest text index)
  | I_BytesByte dest bytes index => Some (bytes_byte dest bytes index)
  | I_TextCmp dest l r => Some (text_cmp dest l r)
  | I_TextEqRange dest source start end_ expected => Some (text_eq_range dest source start end_ expected)
  | I_TextFindByteRange dest source start end_ byte =>
      Some (text_find_byte_range env dest source start end_ byte)
  | I_BytesFindByteRange dest source start end_ byte => Some (bytes_field false dest source start end_ byte)
  | I_BytesFieldEnd dest source start end_ byte => Some (bytes_field false dest source start end_ byte)
  | I_BytesNextField dest source start end_ byte => Some (bytes_field true dest source start end_ byte)
  | I_TextLineEnd dest source start => Some (text_line_end dest source start)
  | I_TextNextLine dest source start => Some (text_next_line dest source start)
  | I_TextFieldEnd dest source start end_ byte => Some (text_field false dest source start end_ byte)
  | I_TextNextField dest source start end_ byte => Some (text_field true dest source start end_ byte)
  | I_BytesToText dest bytes => Some (convert dest bytes materialize (fun b => V_Text (from_utf8_lossy b)))
  | I_TextToBytes dest text => Some (convert dest text as_text (fun t => V_Bytes (bytes t)))
  | I_BytesMaterialize dest bytes => Some (convert dest bytes materialize V_Bytes)
  | I_ParseI32 dest text =>
      Some (convert dest text (as_parsed parse_i64 "expected base-10 integer text") V_Int)
  | I_ParseI32Range dest text start end_ => Some (parse_i32_range dest text start end_)
  | I_ParseF64 dest text => Some (convert dest text (as_parsed f64_parse "expected float text") V_F64)
  | I_TextFromF64Fixed dest value digits => Some (text_from_f64_fixed dest value digits)
  | I_FileIsValid dest handle =>
      Some (let! v := extract_value handle in
            set_value dest (V_Bool match v with V_File _ => true | _ => false end))
  | I_TcpListen _ _ => Some (unsupported "tcp_listen")
  | I_TcpAccept _ _ => Some (unsupported "tcp_accept")
  | I_TcpRecv _ _ _ => Some (unsupported "tcp_recv")
  | I_TcpSend _ _ _ => Some (unsupported "tcp_send")
  | I_TcpClose _ => Some (unsupported "tcp_close")
  | I_Sqrt dest value => Some (convert dest value as_f64 (fun x => V_F64 (f64_sqrt x)))
  | I_ArgCount dest => Some (set_value dest (V_Int (Z.of_nat (length (program_args env)))))
  | I_AllocPush | I_AllocPop => Some (mret tt)
  | I_ArgText dest index => Some (arg_text dest index)
  | I_StdinText dest => Some (set_value dest (V_Text (stdin_text env)))
  | I_StdinBytes dest => Some (set_value dest (V_Bytes (bytes (stdin_text env))))
  | I_StdoutWrite text => Some (stdout_write text)
  | I_StdoutWriteBuilder dest builder => Some (stdout_write_builder dest builder)
  | I_MakeEnum dest name variant payload => Some (make_enum dest name variant payload)
  | I_MakeRecord dest name fields => Some (make_record dest name fields)
  | I_Field dest base name => Some (field dest base name)
  | I_EnumTagEq dest value tag => Some (enum_tag_eq dest value tag)
  | I_EnumPayload dest value _ => Some (enum_payload dest value)
  | I_EnumToI32 dest value discriminants => Some (enum_to_i32 dest value discriminants)
  | I_EnumToText dest value _ => Some (enum_to_text dest value)
  | I_Add dest l r =>
      Some (run_arithmetic dest l r (fun l r => checked env (l + r)) f64_add "add")
  | I_Sub dest l r =>
      Some (run_arithmetic dest l r (fun l r => checked env (l - r)) f64_sub "sub")
  | I_Mul dest l r =>
      Some (run_arithmetic dest l r (fun l r => checked env (l * r)) f64_mul "mul")
  | I_Div dest l r => Some (run_div dest l r)
  | I_Rem dest l r => Some (run_arithmetic dest l r int_rem f64_rem "rem")
  | I_BitAnd dest l r => Some (run_bitwise dest l r Z.land)
  | I_BitOr dest l r => Some (run_bitwise dest l r Z.lor)
  | I_BitXor dest l r => Some (run_bitwise dest l r Z.lxor)
  | I_Shl dest l r => Some (run_shift dest l r i32_shl)
  | I_Shr dest l r => Some (run_shift dest l r i32_shr)
  | I_And dest l r => Some (boolean dest l r andb)
  | I_Or dest l r => Some (boolean dest l r orb)
  | I_Eq dest l r => Some (run_equality dest l r true)
  | I_Ne dest l r => Some (run_equality dest l r false)
  | I_Lt dest l r => Some (run_comparison dest l r Z.ltb f64_ltb "lt")
  | I_Le dest l r => Some (run_comparison dest l r Z.leb f64_leb "le")
  | I_Gt dest l r => Some (run_comparison dest l r Z.gtb (fun l r => f64_ltb r l) "gt")
  | I_Ge dest l r => Some (run_comparison dest l r Z.geb (fun l r => f64_leb r l) "ge")
  | I_Assert condition kind => Some (assert_contract f condition kind)
  | I_If _ _ _ _ _ _ | I_While _ _ _ _ | I_Repeat _ _ _ _ | I_Call _ _ _ | I_Perform _ _ _ _
  | I_Handle _ _ _ _ => None
  end%Z.

(** ** Control *)

Inductive Step :=
  | Next (c : Config)
  | Finished (c : Core)
  | Failed (e : RuntimeError)
  | Panicked.

(** The rest of a round after an operation on the core. *)
Definition and_then {A} (o : Outcome (A * Core)) (k : A -> Core -> Step) : Step :=
  match o with
  | Ok (a, c) => k a c
  | Err e => Failed e
  | Panic => Panicked
  end.

(** [values.get(r.0 as usize).cloned().unwrap_or(RuntimeValue::Unit)] *)
Definition result_or_unit (vs : list RuntimeValue) (result : option ValueId) : RuntimeValue :=
  match result with
  | Some r => default V_Unit (vs !! r)
  | None => V_Unit
  end.

(** The result of a handler arm or a handled body. *)
Definition result_or_fail (result : option ValueId) (message : string) : M RuntimeValue :=
  match result with
  | Some r => let! vs := get_values in or_fail (vs !! r) message
  | None => mret V_Unit
  end.

Definition set_optional_slot (slot : option LocalSlotId) (v : RuntimeValue) : M unit :=
  match slot with Some slot => set_slot slot v | None => mret tt end.

Definition put_frame (vs ss : list RuntimeValue) : M unit := fun c => Ok (tt, mkCore (heap c) vs ss).

Definition pop_handler : M unit :=
  let! h := get_heap in put_heap (set_handlers h (removelast (handlers h))).
Definition push_handler (arms : list HandleArm) : M unit :=
  let! h := get_heap in put_heap (set_handlers h (handlers h ++ [arms])).

(** Off the end of the instructions: the frame on top says where to go. *)
Definition pop_frame (c : Config) : Step :=
  match frame_stack c with
  | [] => Finished (core c)
  | CallFrame saved_function saved saved_values saved_slots saved_args dest :: frames =>
      let result := result_or_unit (values (core c)) (fn_result (function c)) in
      and_then ((let! _ := put_frame saved_values saved_slots in set_value dest result) (core c))
        (fun _ core' => Next (mkConfig core' saved_function saved saved_args frames))
  | IfBranch saved dest branch_result :: frames =>
      let result := result_or_unit (values (core c)) branch_result in
      and_then (set_value dest result (core c))
        (fun _ core' => Next (mkConfig core' (function c) saved (active_args c) frames))
  | WhileLoop saved dest condition_insts condition body_insts Condition :: frames =>
      and_then (extract_bool condition (core c)) (fun cond core' =>
        if cond then
          Next (mkConfig core' (function c) body_insts (active_args c)
                  (WhileLoop saved dest condition_insts condition body_insts Body :: frames))
        else
          and_then (set_value dest V_Unit core')
            (fun _ core' => Next (mkConfig core' (function c) saved (active_args c) frames)))
  | WhileLoop saved dest condition_insts condition body_insts Body :: frames =>
      Next (mkConfig (core c) (function c) condition_insts (active_args c)
              (WhileLoop saved dest condition_insts condition body_insts Condition :: frames))
  | RepeatLoop saved dest count index index_slot body_insts :: frames =>
      let index := (index + 1)%Z in
      if (index <? count)%Z then
        and_then (set_optional_slot index_slot (V_Int index) (core c)) (fun _ core' =>
          Next (mkConfig core' (function c) body_insts (active_args c)
                  (RepeatLoop saved dest count index index_slot body_insts :: frames)))
      else
        and_then (set_value dest V_Unit (core c))
          (fun _ core' => Next (mkConfig core' (function c) saved (active_args c) frames))
  | PerformBody saved saved_args dest body_result :: frames =>
      and_then ((let! v := result_or_fail body_result "missing handler arm result" in
                 set_value dest v) (core c))
        (fun _ core' => Next (mkConfig core' (function c) saved saved_args frames))
  | HandleBody saved_function saved saved_values saved_slots saved_args dest body_result :: frames =>
      and_then ((let! v := result_or_fail body_result "missing handle body result" in
                 let! _ := put_frame saved_values saved_slots in
                 let! _ := set_value dest v in pop_handler) (core c))
        (fun _ core' => Next (mkConfig core' saved_function saved saved_args frames))
  end.

(** [refs.iter().map(|v| values.get(...).ok_or_else(...)).collect()] *)
Definition arguments (refs : list ValueId) : M (list RuntimeValue) := mmap extract_value refs.

(** The innermost handler with an arm for the operation. *)
Definition find_arm (hs : list (list HandleArm)) (effect operation : string) : option HandleArm :=
  let matches (arm : HandleArm) : bool :=
    String.eqb (arm_effect arm) effect && String.eqb (arm_operation arm) operation in
  (fix go (l : list (list HandleArm)) : option HandleArm :=
     match l with
     | [] => None
     | arms :: l' => match List.find matches arms with Some arm => Some arm | None => go l' end
     end) (rev hs).

(** One instruction, the rest of the list being [rest]. *)
Definition run_inst (c : Config) (i : Inst) (rest : list Inst) : Step :=
  match i with
  | I_If dest condition then_insts then_result else_insts else_result =>
      and_then (extract_bool condition (core c)) (fun cond core' =>
        Next (mkConfig core' (function c) (if cond then then_insts else else_insts) (active_args c)
                (IfBranch rest dest (if cond then then_result else else_result) :: frame_stack c)))
  | I_Repeat dest count index_slot body_insts =>
      and_then (extract_int count (core c)) (fun count core' =>
        if (0 <? count)%Z then
          and_then (set_optional_slot index_slot (V_Int 0) core') (fun _ core' =>
            Next (mkConfig core' (function c) body_insts (active_args c)
                    (RepeatLoop rest dest count 0 index_slot body_insts :: frame_stack c)))
        else
          and_then (set_value dest V_Unit core')
            (fun _ core' => Next (mkConfig core' (function c) rest (active_args c) (frame_stack c))))
  | I_While dest condition_insts condition body_insts =>
      Next (mkConfig (core c) (function c) condition_insts (active_args c)
              (WhileLoop rest dest condition_insts condition body_insts Condition :: frame_stack c))
  | I_Call dest callee refs =>
      and_then ((let! callee_fn := or_fail (env_function env callee)
                                     ("unknown callee `" ++ callee ++ "`")%string in
                 let! args := arguments refs in
                 let! _ := put_frame (fresh (fn_value_count callee_fn)) (fresh (fn_slot_count callee_fn)) in
                 mret (callee_fn, args)) (core c))
        (fun '(callee_fn, args) core' =>
          Next (mkConfig core' callee_fn (fn_instructions callee_fn) args
                  (CallFrame (function c) rest (values (core c)) (slots (core c)) (active_args c) dest
                     :: frame_stack c)))
  | I_Perform dest effect operation refs =>
      and_then (arguments refs (core c)) (fun args core' =>
        match find_arm (handlers (heap core')) effect operation with
        | Some arm =>
            Next (mkConfig core' (function c) (arm_body_insts arm) args
                    (PerformBody rest (active_args c) dest (arm_body_result arm) :: frame_stack c))
        | None => Failed (EffectUnwind effect operation args)
        end)
  | I_Handle dest body_insts body_result arms =>
      and_then ((let! _ := push_handler arms in
                 put_frame (fresh (fn_value_count (function c))) (fresh (fn_slot_count (function c))))
                  (core c))
        (fun _ core' =>
          Next (mkConfig core' (function c) body_insts []
                  (HandleBody (function c) rest (values (core c)) (slots (core c)) (active_args c) dest
                     body_result :: frame_stack c)))
  | _ =>
      match simple (function c) (active_args c) i with
      | Some m =>
          and_then (m (core c))
            (fun _ core' => Next (mkConfig core' (function c) rest (active_args c) (frame_stack c)))
      | None => Panicked
      end
  end.

(** One round of the loop of [execute_insts]. *)
Definition step (c : Config) : Step :=
  match instructions c with
  | [] => pop_frame c
  | i :: rest => run_inst c i rest
  end.

(** The loop, for [n] rounds: [Next c] when it is still running, at [c]. *)
Fixpoint run_steps (n : nat) (c : Config) : Step :=
  match n with
  | 0 => Next c
  | S n' => match step c with Next c' => run_steps n' c' | r => r end
  end.

(** ** Entry points *)

(** How a run ends, or that it has not. *)
Inductive RunResult :=
  | Returned (v : RuntimeValue) (h : Heap)
  | Raised (e : RuntimeError)
  | Crashed
  | Running.

(** The end of [execute_function]. *)
Definition function_result (f : Function) (c : Core) : RunResult :=
  match fn_result f with
  | None => Returned V_Unit (heap c)
  | Some r =>
      match values c !! r with
      | Some v => Returned v (heap c)
      | None => Raised (Message "missing function result")
      end
  end.

Definition execute_function (n : nat) (h : Heap) (f : Function) (args : list RuntimeValue) : RunResult :=
  match run_steps n (mkConfig (mkCore h (fresh (fn_value_count f)) (fresh (fn_slot_count f)))
                       f (fn_instructions f) args []) with
  | Next _ => Running
  | Finished c => function_result f c
  | Failed e => Raised e
  | Panicked => Crashed
  end.
End Machine.
