(* ===== verification/Entry.v ===== *)
(** * The MIR interpreter: entry points, types of arguments, enum tags

    What surrounds the frame machine: [run_main] and [run_function] with the
    type check of their arguments, the tags of enum values, and the updates of
    arrays and records the compile-time evaluator shares with it. *)
From stdpp Require Import gmap pretty.
From S2P Require Import Prelude Syntax Utf8 TextOps Float64 Mir Interp Exec Machine.

Open Scope nat_scope.

(** [Result<A, E>] *)
Inductive Result (A E : Type) :=
  | RunOk (a : A)
  | RunErr (e : E).
Arguments RunOk {A E}.
Arguments RunErr {A E}.

Definition res_bind {A B E} (r : Result A E) (k : A -> Result B E) : Result B E :=
  match r with RunOk a => k a | RunErr e => RunErr e end.

(** [option.ok_or_else(...)?] *)
Definition ok_or {A E} (o : option A) (e : E) : Result A E :=
  match o with Some a => RunOk a | None => RunErr e end.

Section Entry.
Context `{Platform} (env : Env).

(** ** [ensure_type] *)

(** The first arms of the match: a type that the kind of value decides. *)
Definition has_builtin_type (ty : string) (value : RuntimeValue) : bool :=
  match value with
  | V_Int _ => String.eqb ty "I32"
  | V_F64 _ => String.eqb ty "F64"
  | V_Bool _ => String.eqb ty "Bool"
  | V_Text _ => String.eqb ty "Text"
  | V_Bytes _ | V_BytesView _ _ _ => String.eqb ty "Bytes"
  | V_TextBuilder _ => String.eqb ty "TextBuilder"
  | V_List _ => String.eqb ty "List"
  | V_Unit => String.eqb ty "Unit"
  | _ => false
  end.

(** The line break and the indentation inside two messages of the source. *)
Definition message_break : string :=
  String (Ascii.ascii_of_nat 10) "                             ".

Definition message {A} (s : string) : Result A RuntimeError := RunErr (Message s).

Fixpoint ensure_type (ty : string) (value : RuntimeValue) : Result unit RuntimeError :=
  match value with
  | V_Enum name variant payload =>
      res_bind (ok_or (env_enum env ty) (Message ("unknown enum type `" ++ ty ++ "`"))) (fun enum_ty =>
        if negb (String.eqb name ty)
        then message ("expected enum `" ++ ty ++ "`, found `" ++ name ++ "`")
        else
          match List.find (fun v => String.eqb (variant_name v) variant) (enum_type_variants enum_ty) with
          | None => message ("enum `" ++ ty ++ "` has no variant `" ++ variant ++ "`")
          | Some v =>
              match payload_type v, payload with
              | Some expected, Some payload => ensure_type expected payload
              | Some _, None =>
                  message ("enum variant `" ++ ty ++ "." ++ variant ++ "`" ++ message_break
                           ++ "requires a payload")
              | None, Some _ =>
                  message ("enum variant `" ++ ty ++ "." ++ variant ++ "`" ++ message_break
                           ++ "does not accept a payload")
              | None, None => RunOk tt
              end
          end)
  | V_Record name fields =>
      res_bind (ok_or (env_struct env ty) (Message ("unknown struct type `" ++ ty ++ "`"))) (fun struct_ty =>
        if negb (String.eqb name ty)
        then message ("expected record `" ++ ty ++ "`, found `" ++ name ++ "`")
        else if negb (length fields =? length (struct_fields struct_ty))%nat
        then message ("record `" ++ ty ++ "` field count mismatch")
        else
          (fix ensure_fields (fields : list (string * RuntimeValue)) (tys : list StructField)
              : Result unit RuntimeError :=
             match fields, tys with
             | (field, value) :: fields', t :: tys' =>
                 if negb (String.eqb field (field_name t))
                 then message ("record `" ++ ty ++ "` field order mismatch: expected `" ++ field_name t
                               ++ "`, found `" ++ field ++ "`")
                 else res_bind (ensure_type (field_ty t) value) (fun _ => ensure_fields fields' tys')
             | _, _ => RunOk tt
             end) fields (struct_fields struct_ty))
  | _ =>
      if has_builtin_type ty value then RunOk tt
      else message ("expected `" ++ ty ++ "`, found " ++ render value)
  end%string.

(** The loop of [run_function] over the arguments and parameters. *)
Fixpoint ensure_args (args : list RuntimeValue) (params : list Param) : Result unit RuntimeError :=
  match args, params with
  | arg :: args', param :: params' =>
      res_bind (ensure_type (param_ty param) arg) (fun _ => ensure_args args' params')
  | _, _ => RunOk tt
  end.

(** ** [run_function] and [run_main] *)

(** The checks of [run_function]: the function to execute. *)
Definition checked_function (name : string) (args : list RuntimeValue) : Result Function RuntimeError :=
  res_bind (ok_or (env_function env name) (Message ("unknown function `" ++ name ++ "`"))) (fun f =>
    if String.eqb name "main" && negb (length (fn_params f) =? 0)%nat
    then message "`main` must not take parameters"
    else if negb (length (fn_params f) =? length args)%nat
    then message ("function `" ++ name ++ "` expected " ++ pretty (length (fn_params f))
                  ++ " arguments but received " ++ pretty (length args))
    else res_bind (ensure_args args (fn_params f)) (fun _ => RunOk f))%string.

Definition run_function (n : nat) (h : Heap) (name : string) (args : list RuntimeValue) : RunResult :=
  match checked_function name args with
  | RunErr e => Raised e
  | RunOk f => execute_function env n h f args
  end.

(** [Interpreter::new] *)
Definition new_heap : Heap := mkHeap [] [] [] [] "".

Definition run_main (n : nat) : RunResult := run_function n new_heap "main" [].
End Entry.

(** ** Enum tags *)

Definition enum_variants (p : Program) : gmap string (list string) :=
  fold_left (fun m ty => <[enum_name ty := map variant_name (enum_type_variants ty)]> m)
    (program_enums p) ∅.

(** [iter().position(|x| x == name)] *)
Fixpoint position (name : string) (l : list string) : option nat :=
  match l with
  | [] => None
  | x :: l' => if String.eqb x name then Some 0 else option_map S (position name l')
  end.

Definition encode_enum_tag (name variant : string) (enums : gmap string (list string))
    : Result Z string :=
  res_bind (ok_or (enums !! name) ("unknown enum type `" ++ name ++ "`")%string) (fun variants =>
    match position variant variants with
    | None => RunErr ("enum `" ++ name ++ "` has no variant `" ++ variant ++ "`")
    | Some index =>
        if in_i64 (Z.of_nat index) then RunOk (Z.of_nat index)
        else RunErr ("enum `" ++ name ++ "` exceeds stage-0 limits")
    end)%string.

Definition decode_enum_tag (tag : Z) (name : string) (enums : gmap string (list string))
    : Result RuntimeValue string :=
  let out_of_range : string := ("enum `" ++ name ++ "` tag `" ++ pretty tag ++ "` is out of range")%string in
  res_bind (ok_or (enums !! name) ("unknown enum type `" ++ name ++ "`")%string) (fun variants =>
    if (tag <? 0)%Z then RunErr out_of_range
    else res_bind (ok_or (variants !! Z.to_nat tag) out_of_range) (fun variant =>
      RunOk (V_Enum name variant None))).

(** ** Updates of arrays and records *)

(** [fields.iter_mut().find(|(name, _)| name == field)], with the value it leaves there. *)
Fixpoint replace_field {E} (field : string) (f : RuntimeValue -> Result RuntimeValue E)
    (fields : list (string * RuntimeValue)) : option (Result (list (string * RuntimeValue)) E) :=
  match fields with
  | [] => None
  | (name, v) :: fields' =>
      if String.eqb name field then Some (res_bind (f v) (fun v' => RunOk ((name, v') :: fields')))
      else option_map (fun r => res_bind r (fun l => RunOk ((name, v) :: l))) (replace_field field f fields')
  end.

(** The two updates of an array, [target] in their messages, do [f] to an element. *)
Definition update_element (target : string) (value : RuntimeValue) (index : Z)
    (f : RuntimeValue -> Result RuntimeValue string) : Result RuntimeValue string :=
  if (index <? 0)%Z then RunErr "compile-time array index is out of bounds"%string
  else
    match value with
    | V_Record name fields =>
        match runtime_value_lower_type (V_Record name fields) with
        | LT_Array _ len =>
            if len <=? Z.to_nat index then RunErr "compile-time array index is out of bounds"%string
            else
              match replace_field (array_field_name (Z.to_nat index)) f fields with
              | None => RunErr (target ++ " target is not an array")%string
              | Some r => res_bind r (fun fields' => RunOk (V_Record name fields'))
              end
        | _ => RunErr (target ++ " target is not an array")%string
        end
    | _ => RunErr (target ++ " target is not an array")%string
    end.

Definition update_runtime_array_index (value : RuntimeValue) (index : Z) (replacement : RuntimeValue)
    : Result RuntimeValue string :=
  update_element "compile-time indexed assignment" value index (fun _ => RunOk replacement).

Definition update_runtime_record_field (value : RuntimeValue) (field : string) (replacement : RuntimeValue)
    : Result RuntimeValue string :=
  match value with
  | V_Record name fields =>
      match replace_field field (fun _ => RunOk replacement) fields with
      | None => RunErr ("compile-time record `" ++ name ++ "` has no field `" ++ field ++ "`")%string
      | Some r => res_bind r (fun fields' => RunOk (V_Record name fields'))
      end
  | _ => RunErr "compile-time field assignment target is not a record"%string
  end.

Definition update_runtime_array_record_field (value : RuntimeValue) (index : Z) (field : string)
    (replacement : RuntimeValue) : Result RuntimeValue string :=
  update_element "compile-time indexed field assignment" value index
    (fun v => update_runtime_record_field v field replacement).
