(* ===== verification/Eval.v ===== *)
(** * The MIR interpreter: its structured semantics

    What the frame machine of [Machine.v] is meant to compute, without frames:
    [exec] runs a list of instructions by recursion on their structure, a call,
    a branch, a loop body, a handler arm and a handled body being nested runs.
    [n] bounds the depth of the recursion. *)
From S2P Require Import Prelude Syntax Utf8 TextOps Float64 Mir Interp Exec Machine.

Open Scope nat_scope.

Inductive EvalResult :=
  | EOk (c : Core)
  | EErr (e : RuntimeError)
  | EPanic
  | EFuel.

Definition eval_then {A} (o : Outcome (A * Core)) (k : A -> Core -> EvalResult) : EvalResult :=
  match o with
  | Ok (a, c) => k a c
  | Err e => EErr e
  | Panic => EPanic
  end.

(** Sequencing of runs. *)
Definition seq_eval (r : EvalResult) (k : Core -> EvalResult) : EvalResult :=
  match r with EOk c => k c | r => r end.

Section Eval.
Context `{Platform} (env : Env).

Fixpoint exec (n : nat) (f : Function) (args : list RuntimeValue) (insts : list Inst) (c : Core)
    : EvalResult :=
  match n with
  | 0 => EFuel
  | S n =>
      match insts with
      | [] => EOk c
      | i :: rest => seq_eval (exec_inst n f args i c) (exec n f args rest)
      end
  end
with exec_inst (n : nat) (f : Function) (args : list RuntimeValue) (i : Inst) (c : Core) : EvalResult :=
  match n with
  | 0 => EFuel
  | S n =>
      match i with
      | I_If dest condition then_insts then_result else_insts else_result =>
          eval_then (extract_bool condition c) (fun cond c1 =>
            seq_eval (exec n f args (if cond then then_insts else else_insts) c1) (fun c2 =>
              eval_then
                (set_value dest
                   (result_or_unit (values c2) (if cond then then_result else else_result)) c2)
                (fun _ c3 => EOk c3)))
      | I_Repeat dest count index_slot body_insts =>
          eval_then (extract_int count c) (fun count c1 =>
            seq_eval (exec_repeat n f args body_insts index_slot count 0 c1)
              (fun c2 => eval_then (set_value dest V_Unit c2) (fun _ c3 => EOk c3)))
      | I_While dest condition_insts condition body_insts =>
          seq_eval (exec_while n f args condition_insts condition body_insts c)
            (fun c1 => eval_then (set_value dest V_Unit c1) (fun _ c2 => EOk c2))
      | I_Call dest callee refs =>
          eval_then ((let! callee_fn := or_fail (env_function env callee)
                                          ("unknown callee `" ++ callee ++ "`")%string in
                      let! args := arguments refs in
                      let! _ := put_frame (fresh (fn_value_count callee_fn))
                                  (fresh (fn_slot_count callee_fn)) in
                      mret (callee_fn, args)) c)
            (fun '(callee_fn, args') c1 =>
              seq_eval (exec n callee_fn args' (fn_instructions callee_fn) c1) (fun c2 =>
                eval_then ((let! _ := put_frame (values c) (slots c) in
                            set_value dest (result_or_unit (values c2) (fn_result callee_fn))) c2)
                  (fun _ c3 => EOk c3)))
      | I_Perform dest effect operation refs =>
          eval_then (arguments refs c) (fun args' c1 =>
            match find_arm (handlers (heap c1)) effect operation with
            | None => EErr (EffectUnwind effect operation args')
            | Some arm =>
                seq_eval (exec n f args' (arm_body_insts arm) c1) (fun c2 =>
                  eval_then ((let! v := result_or_fail (arm_body_result arm)
                                          "missing handler arm result" in
                              set_value dest v) c2)
                    (fun _ c3 => EOk c3))
            end)
      | I_Handle dest body_insts body_result arms =>
          eval_then ((let! _ := push_handler arms in
                      put_frame (fresh (fn_value_count f)) (fresh (fn_slot_count f))) c)
            (fun _ c1 =>
              seq_eval (exec n f [] body_insts c1) (fun c2 =>
                eval_then ((let! v := result_or_fail body_result "missing handle body result" in
                            let! _ := put_frame (values c) (slots c) in
                            let! _ := set_value dest v in pop_handler) c2)
                  (fun _ c3 => EOk c3)))
      | _ =>
          match simple env f args i with
          | Some m => eval_then (m c) (fun _ c1 => EOk c1)
          | None => EPanic
          end
      end
  end
with exec_while (n : nat) (f : Function) (args : list RuntimeValue) (condition_insts : list Inst)
    (condition : ValueId) (body_insts : list Inst) (c : Core) : EvalResult :=
  match n with
  | 0 => EFuel
  | S n =>
      seq_eval (exec n f args condition_insts c) (fun c1 =>
        eval_then (extract_bool condition c1) (fun cond c2 =>
          if cond then
            seq_eval (exec n f args body_insts c2)
              (exec_while n f args condition_insts condition body_insts)
          else EOk c2))
  end
(** The rounds [index .. count]. *)
with exec_repeat (n : nat) (f : Function) (args : list RuntimeValue) (body_insts : list Inst)
    (index_slot : option LocalSlotId) (count index : Z) (c : Core) : EvalResult :=
  if (index <? count)%Z then
    eval_then (set_optional_slot index_slot (V_Int index) c) (fun _ c1 =>
      match n with
      | 0 => EFuel
      | S n =>
          seq_eval (exec n f args body_insts c1)
            (exec_repeat n f args body_insts index_slot count (index + 1)%Z)
      end)
  else EOk c.

(** [execute_function], by the structured semantics. *)
Definition eval_function (n : nat) (h : Heap) (f : Function) (args : list RuntimeValue) : RunResult :=
  match exec n f args (fn_instructions f)
          (mkCore h (fresh (fn_value_count f)) (fresh (fn_slot_count f))) with
  | EOk c => function_result f c
  | EErr e => Raised e
  | EPanic => Crashed
  | EFuel => Running
  end.
End Eval.

(** * The frame machine computes the structured semantics

    A run of [exec] is a run of the machine that leaves its frames alone:
    [sim] relates them, result by result, with the steps the machine makes
    before the fuel of [exec] is used up. *)

Section Sim.
Context `{Platform} (env : Env).

(** The machine from the result of a step on. *)
Definition run_from (k : nat) (s : Step) : Step :=
  match s with Next c => run_steps env k c | s => s end.

Lemma run_steps_S k c : run_steps env (S k) c = run_from k (step env c).
Proof. cbn [run_steps]. unfold run_from. by destruct (step env c). Qed.

Lemma run_steps_add j k c : run_steps env (j + k) c = run_from k (run_steps env j c).
Proof.
  revert c. induction j as [|j IH]; intros c; [done|].
  cbn [Nat.add]. rewrite !run_steps_S. unfold run_from. destruct (step env c); [|done..].
  apply IH.
Qed.

Lemma run_from_add j k s : run_from (j + k) s = run_from k (run_from j s).
Proof. destruct s; [|done..]. apply run_steps_add. Qed.

(** What [exec] returns, the machine reaches; out of fuel, it has made at
    least a third of [bound] steps. *)
Definition sim (s : Step) (bound : nat) (r : EvalResult) (final : Core -> Config) : Prop :=
  match r with
  | EOk c => exists k, run_from k s = Next (final c)
  | EErr e => exists k, run_from k s = Failed e
  | EPanic => exists k, run_from k s = Panicked
  | EFuel => exists k c, run_from k s = Next c /\ bound <= 3 * k
  end.

Lemma sim_weaken s b b' r final : b' <= b -> sim s b r final -> sim s b' r final.
Proof. intros Hb. destruct r; cbn; [done..|]. intros (k & c & Hk & Hle). exists k, c. split; [done|lia]. Qed.

Lemma sim_step c b r final : sim (step env c) b r final -> sim (Next c) (3 + b) r final.
Proof.
  destruct r; cbn [sim]; intros Hs.
  1-3: destruct Hs as [k Hk]; exists (S k); unfold run_from at 1; rewrite run_steps_S; exact Hk.
  destruct Hs as (k & c' & Hk & Hle). exists (S k), c'. unfold run_from at 1.
  rewrite run_steps_S. split; [exact Hk|lia].
Qed.

(** The step of a configuration that is not at hand in its reduced form. *)
Lemma sim_step_eq c s b b' r final :
  step env c = s -> b' <= 3 + b -> sim s b r final -> sim (Next c) b' r final.
Proof. intros <- Hb Hs. eapply sim_weaken, sim_step; [exact Hb|exact Hs]. Qed.

Lemma sim_seq s b r k final1 final2 :
  sim s b r final1 -> (forall c, sim (Next (final1 c)) b (k c) final2) ->
  sim s b (seq_eval r k) final2.
Proof.
  destruct r as [c|e| |]; cbn [seq_eval]; intros H1 H2; [|exact H1..].
  destruct H1 as [j Hj]. specialize (H2 c).
  destruct (k c); cbn [sim] in *.
  1-3: destruct H2 as [i Hi]; exists (j + i); rewrite run_from_add, Hj; exact Hi.
  destruct H2 as (i & c' & Hi & Hle). exists (j + i), c'. rewrite run_from_add, Hj. split; [exact Hi|lia].
Qed.

Lemma sim_then {A} (o : Outcome (A * Core)) k1 k2 b final :
  (forall a c, o = Ok (a, c) -> sim (k1 a c) b (k2 a c) final) ->
  sim (and_then o k1) b (eval_then o k2) final.
Proof.
  destruct o as [[a c]|e|]; cbn; intros Hk; [by apply Hk|by exists 0..].
Qed.

Lemma sim_done c b final : sim (Next (final c)) b (EOk c) final.
Proof. by exists 0. Qed.

Lemma sim_fuel c final : sim (Next c) 0 EFuel final.
Proof. exists 0, c. split; [done|lia]. Qed.

Lemma seq_eval_assoc r k1 k2 :
  seq_eval (seq_eval r k1) k2 = seq_eval r (fun c => seq_eval (k1 c) k2).
Proof. by destruct r. Qed.

Lemma seq_eval_then {A} (o : Outcome (A * Core)) k1 k2 :
  seq_eval (eval_then o k1) k2 = eval_then o (fun a c => seq_eval (k1 a c) k2).
Proof. by destruct o as [[]| |]. Qed.

(** ** The four functions of the structured semantics *)

Definition sim_exec (n : nat) : Prop := forall f args insts c frames,
  sim (Next (mkConfig c f insts args frames)) (n - 1) (exec env n f args insts c)
    (fun c' => mkConfig c' f [] args frames).

Definition sim_inst (n : nat) : Prop := forall f args i rest c frames,
  sim (run_inst env (mkConfig c f (i :: rest) args frames) i rest) (n - 2)
    (exec_inst env (S n) f args i c) (fun c' => mkConfig c' f rest args frames).

(** A loop with its end, at the step that starts its next round. *)
Definition loop_end (dest : ValueId) (c : Core) : EvalResult :=
  eval_then (set_value dest V_Unit c) (fun _ c' => EOk c').

Definition sim_while (n : nat) : Prop := forall f args rest dest ci cond body c frames,
  sim (Next (mkConfig c f ci args (WhileLoop rest dest ci cond body Condition :: frames))) (n - 2)
    (seq_eval (exec_while env n f args ci cond body c) (loop_end dest))
    (fun c' => mkConfig c' f rest args frames).

Definition repeat_round (f : Function) (args : list RuntimeValue) (rest : list Inst) (dest : ValueId)
    (count : Z) (slot : option LocalSlotId) (body : list Inst) (frames : list Frame) (index : Z)
    (c : Core) : Step :=
  if (index <? count)%Z then
    and_then (set_optional_slot slot (V_Int index) c) (fun _ c' =>
      Next (mkConfig c' f body args (RepeatLoop rest dest count index slot body :: frames)))
  else and_then (set_value dest V_Unit c) (fun _ c' => Next (mkConfig c' f rest args frames)).

Definition sim_repeat (n : nat) : Prop := forall f args rest dest slot count index body c frames,
  sim (repeat_round f args rest dest count slot body frames index c) (n - 2)
    (seq_eval (exec_repeat env n f args body slot count index c) (loop_end dest))
    (fun c' => mkConfig c' f rest args frames).

Lemma exec_sim n : sim_exec n -> sim_inst (n - 1) -> sim_exec (S n).
Proof.
  intros He Hi f args insts c frames. cbn [exec].
  destruct insts as [|i rest]; [apply sim_done with (final := fun c' => mkConfig c' f [] args frames)|].
  destruct n as [|p]; [apply sim_fuel|].
  eapply sim_step_eq with (b := p - 2); [reflexivity|lia|].
  change (step env (mkConfig c f (i :: rest) args frames))
    with (run_inst env (mkConfig c f (i :: rest) args frames) i rest).
  replace (S p - 1) with p in Hi by lia.
  eapply sim_seq; [apply Hi|]. intros c'. cbn beta.
  eapply sim_weaken; [|apply He]. lia.
Qed.

Lemma while_sim n : sim_exec n -> sim_while n -> sim_while (S n).
Proof.
  intros He Hw f args rest dest ci cond body c frames. cbn [exec_while].
  rewrite seq_eval_assoc. eapply sim_seq.
  { eapply sim_weaken; [|apply He]. lia. }
  intros c1. cbn beta. eapply sim_step_eq with (b := S n - 2); [reflexivity|lia|].
  cbn [step instructions pop_frame frame_stack core function active_args].
  rewrite seq_eval_then. apply sim_then. intros b c2 _. destruct b; cbn [seq_eval].
  - rewrite seq_eval_assoc. eapply sim_seq.
    { eapply sim_weaken; [|apply He]. lia. }
    intros c3. cbn beta. eapply sim_step_eq with (b := n - 2); [reflexivity|lia|].
    apply Hw.
  - apply sim_then. intros [] c3 _. apply (sim_done c3 _ (fun c' => mkConfig c' f rest args frames)).
Qed.

Lemma repeat_sim_0 : sim_repeat 0.
Proof.
  intros f args rest dest slot count index body c frames. unfold repeat_round. cbn [exec_repeat].
  destruct (index <? count)%Z.
  - rewrite seq_eval_then. apply sim_then. intros [] c1 _. apply sim_fuel.
  - cbn [seq_eval]. apply sim_then. intros [] c3 _.
    apply (sim_done c3 _ (fun c' => mkConfig c' f rest args frames)).
Qed.

Lemma repeat_sim n : sim_exec n -> sim_repeat n -> sim_repeat (S n).
Proof.
  intros He Hr f args rest dest slot count index body c frames. unfold repeat_round. cbn [exec_repeat].
  destruct (index <? count)%Z.
  - rewrite seq_eval_then. apply sim_then. intros [] c1 _. rewrite seq_eval_assoc. eapply sim_seq.
    { eapply sim_weaken; [|apply He]. lia. }
    intros c2. cbn beta. eapply sim_step_eq with (b := n - 2); [reflexivity|lia|]. apply Hr.
  - cbn [seq_eval]. apply sim_then. intros [] c3 _.
    apply (sim_done c3 _ (fun c' => mkConfig c' f rest args frames)).
Qed.

(** The pop of a frame that ends in one operation on the core. *)
Lemma sim_pop {A} c (o : Outcome (A * Core)) b final :
  step env c = and_then o (fun _ c' => Next (final c')) ->
  sim (Next c) b (eval_then o (fun _ c' => EOk c')) final.
Proof.
  intros Hs. apply sim_weaken with (b := 3 + b); [lia|]. apply sim_step. rewrite Hs.
  apply sim_then. intros a c' _. apply sim_done.
Qed.

(** ** Instructions without control *)

Lemma exec_inst_simple n f args i m c :
  simple env f args i = Some m ->
  exec_inst env (S n) f args i c = eval_then (m c) (fun _ c' => EOk c').
Proof. destruct i; cbn [simple]; intros Hm; first [discriminate Hm | injection Hm as <-; reflexivity]. Qed.

Lemma run_inst_simple f args i rest frames m c :
  simple env f args i = Some m ->
  run_inst env (mkConfig c f (i :: rest) args frames) i rest
  = and_then (m c) (fun _ c' => Next (mkConfig c' f rest args frames)).
Proof. destruct i; cbn [simple]; intros Hm; first [discriminate Hm | injection Hm as <-; reflexivity]. Qed.

(** ** Instructions with control *)

Lemma exec_cons n f args i rest c :
  exec env (S n) f args (i :: rest) c
  = seq_eval (exec_inst env n f args i c) (exec env n f args rest).
Proof. reflexivity. Qed.

Lemma exec_while_S n f args ci cond body c :
  exec_while env (S n) f args ci cond body c =
  seq_eval (exec env n f args ci c) (fun c1 =>
    eval_then (extract_bool cond c1) (fun b c2 =>
      if b then seq_eval (exec env n f args body c2) (exec_while env n f args ci cond body) else EOk c2)).
Proof. reflexivity. Qed.

Lemma exec_repeat_S n f args body slot count index c :
  exec_repeat env (S n) f args body slot count index c =
  if (index <? count)%Z then
    eval_then (set_optional_slot slot (V_Int index) c) (fun _ c1 =>
      seq_eval (exec env n f args body c1) (exec_repeat env n f args body slot count (index + 1)%Z))
  else EOk c.
Proof. reflexivity. Qed.

Lemma exec_if n f args dest cond t tr e er c :
  exec_inst env (S n) f args (I_If dest cond t tr e er) c =
  eval_then (extract_bool cond c) (fun b c1 =>
    seq_eval (exec env n f args (if b then t else e) c1) (fun c2 =>
      eval_then (set_value dest (result_or_unit (values c2) (if b then tr else er)) c2) (fun _ c3 => EOk c3))).
Proof. reflexivity. Qed.

Lemma exec_loop n f args dest ci cond body c :
  exec_inst env (S n) f args (I_While dest ci cond body) c =
  seq_eval (exec_while env n f args ci cond body c)
    (fun c1 => eval_then (set_value dest V_Unit c1) (fun _ c2 => EOk c2)).
Proof. reflexivity. Qed.

Lemma exec_repeat_inst n f args dest count slot body c :
  exec_inst env (S n) f args (I_Repeat dest count slot body) c =
  eval_then (extract_int count c) (fun count c1 =>
    seq_eval (exec_repeat env n f args body slot count 0 c1)
      (fun c2 => eval_then (set_value dest V_Unit c2) (fun _ c3 => EOk c3))).
Proof. reflexivity. Qed.

Lemma exec_call n f args dest callee refs c :
  exec_inst env (S n) f args (I_Call dest callee refs) c =
  eval_then ((let! callee_fn := or_fail (env_function env callee)
                                  ("unknown callee `" ++ callee ++ "`")%string in
              let! args := arguments refs in
              let! _ := put_frame (fresh (fn_value_count callee_fn)) (fresh (fn_slot_count callee_fn)) in
              mret (callee_fn, args)) c)
    (fun '(callee_fn, args') c1 =>
      seq_eval (exec env n callee_fn args' (fn_instructions callee_fn) c1) (fun c2 =>
        eval_then ((let! _ := put_frame (values c) (slots c) in
                    set_value dest (result_or_unit (values c2) (fn_result callee_fn))) c2)
          (fun _ c3 => EOk c3))).
Proof. reflexivity. Qed.

Lemma exec_perform n f args dest effect operation refs c :
  exec_inst env (S n) f args (I_Perform dest effect operation refs) c =
  eval_then (arguments refs c) (fun args' c1 =>
    match find_arm (handlers (heap c1)) effect operation with
    | None => EErr (EffectUnwind effect operation args')
    | Some arm =>
        seq_eval (exec env n f args' (arm_body_insts arm) c1) (fun c2 =>
          eval_then ((let! v := result_or_fail (arm_body_result arm) "missing handler arm result" in
                      set_value dest v) c2)
            (fun _ c3 => EOk c3))
    end).
Proof. reflexivity. Qed.

Lemma exec_handle n f args dest body_insts body_result arms c :
  exec_inst env (S n) f args (I_Handle dest body_insts body_result arms) c =
  eval_then ((let! _ := push_handler arms in
              put_frame (fresh (fn_value_count f)) (fresh (fn_slot_count f))) c)
    (fun _ c1 =>
      seq_eval (exec env n f [] body_insts c1) (fun c2 =>
        eval_then ((let! v := result_or_fail body_result "missing handle body result" in
                    let! _ := put_frame (values c) (slots c) in
                    let! _ := set_value dest v in pop_handler) c2)
          (fun _ c3 => EOk c3))).
Proof. reflexivity. Qed.

Ltac run_cbn := cbn [run_inst exec_inst core function instructions active_args frame_stack].

Lemma inst_sim n : sim_exec n -> sim_while n -> sim_repeat n -> sim_inst n.
Proof.
  intros He Hw Hr f args i rest c frames.
  destruct (simple env f args i) as [m|] eqn:Hm.
  { rewrite (exec_inst_simple _ _ _ _ _ _ Hm), (run_inst_simple _ _ _ _ _ _ _ Hm).
    apply sim_then. intros a c' _. apply (sim_done c' _ (fun c' => mkConfig c' f rest args frames)). }
  assert (He' : forall f args insts c frames,
    sim (Next (mkConfig c f insts args frames)) (n - 2) (exec env n f args insts c)
      (fun c' => mkConfig c' f [] args frames)).
  { intros. eapply sim_weaken; [|apply He]. lia. }
  destruct i; cbn [simple] in Hm; try discriminate Hm; clear Hm; run_cbn.
  - apply sim_then. intros b c1 _. eapply sim_seq; [apply He'|]. intros c2. cbn beta.
    apply sim_pop. reflexivity.
  - eapply sim_weaken with (b := n - 2); [done|]. apply Hw.
  - apply sim_then. intros z c1 _. apply (Hr f args rest dest index_slot z 0%Z).
  - apply sim_then. intros [callee_fn args'] c1 _. eapply sim_seq; [apply He'|]. intros c2. cbn beta.
    apply sim_pop. reflexivity.
  - apply sim_then. intros args' c1 _.
    destruct (find_arm (handlers (heap c1)) effect operation) as [arm|]; [|by exists 0].
    eapply sim_seq; [apply He'|]. intros c2. cbn beta. apply sim_pop. reflexivity.
  - apply sim_then. intros _ c1 _. eapply sim_seq; [apply He'|]. intros c2. cbn beta.
    apply sim_pop. reflexivity.
Qed.

Lemma sim_all n : (sim_exec n /\ sim_while n /\ sim_repeat n) /\ sim_inst (n - 1).
Proof.
  induction n as [|n [(He & Hw & Hr) Hi]].
  - assert (sim_exec 0 /\ sim_while 0 /\ sim_repeat 0) as Hs.
    { split; [|split; [|exact repeat_sim_0]]; intros ?; intros; apply sim_fuel. }
    split; [exact Hs|]. destruct Hs as (? & ? & ?). by apply inst_sim.
  - split.
    + split; [by apply exec_sim|]. split; [by apply while_sim|by apply repeat_sim].
    + replace (S n - 1) with n by lia. by apply inst_sim.
Qed.

(** ** Whole runs *)

(** The machine stops at the empty list without frames. *)
Lemma exec_run n f args insts c :
  match exec env n f args insts c with
  | EOk c' => exists k, run_steps env k (mkConfig c f insts args []) = Finished c'
  | EErr e => exists k, run_steps env k (mkConfig c f insts args []) = Failed e
  | EPanic => exists k, run_steps env k (mkConfig c f insts args []) = Panicked
  | EFuel => exists k c', run_steps env k (mkConfig c f insts args []) = Next c' /\ n <= 3 * k + 1
  end.
Proof.
  destruct (sim_all n) as [(He & _) _]. specialize (He f args insts c []).
  destruct (exec env n f args insts c) as [c'|e| |]; cbn [sim run_from] in He; [| done..|].
  - destruct He as [k Hk]. exists (k + 1). by rewrite run_steps_add, Hk.
  - destruct He as (k & c' & Hk & Hle). exists k, c'. split; [done|lia].
Qed.

Lemma run_steps_stop k j c s :
  run_steps env k c = s -> (forall c', s <> Next c') -> k <= j -> run_steps env j c = s.
Proof.
  intros Hk Hs Hle. replace j with (k + (j - k)) by lia. rewrite run_steps_add, Hk.
  destruct s as [c1|c1|e|]; cbn [run_from]; [destruct (Hs c1 eq_refl)|reflexivity..].
Qed.

(** A machine that stops within [k] steps stops as [exec] does with fuel for them. *)
Lemma run_exec k f args insts c s :
  run_steps env k (mkConfig c f insts args []) = s -> (forall c', s <> Next c') ->
  exists n, match exec env n f args insts c with
            | EOk c' => s = Finished c'
            | EErr e => s = Failed e
            | EPanic => s = Panicked
            | EFuel => False
            end.
Proof.
  intros Hk Hs. exists (3 * k + 2). pose proof (exec_run (3 * k + 2) f args insts c) as He.
  assert (Hdet : forall j s', run_steps env j (mkConfig c f insts args []) = s' ->
                   (forall c', s' <> Next c') -> s = s').
  { intros j s' Hj Hs'. rewrite <- (run_steps_stop _ (k + j) _ _ Hk Hs) by lia.
    apply (run_steps_stop _ (k + j) _ _ Hj Hs'). lia. }
  destruct (exec env (3 * k + 2) f args insts c).
  1-3: destruct He as [j Hj]; by apply (Hdet j).
  destruct He as (j & c' & Hj & Hle). apply (Hs c').
  rewrite <- (run_steps_stop _ j _ _ Hk Hs) by lia. exact Hj.
Qed.
End Sim.

Lemma machine_eval `{Platform} env h f args r :
  r <> Running ->
  (exists k, execute_function env k h f args = r) <-> (exists n, eval_function env n h f args = r).
Proof.
  intros Hr. unfold execute_function, eval_function.
  set (c0 := mkCore h (fresh (fn_value_count f)) (fresh (fn_slot_count f))). split.
  - intros [k Hk].
    destruct (run_steps env k (mkConfig c0 f (fn_instructions f) args [])) as [c|c|e|] eqn:Hrun;
      [congruence|..];
      (destruct (run_exec env _ _ _ _ _ _ Hrun) as [n Hn]; [done|]; exists n;
       destruct (exec env n f args (fn_instructions f) c0); subst; cbn; try done; try congruence).
  - intros [n Hn]. pose proof (exec_run env n f args (fn_instructions f) c0) as He.
    destruct (exec env n f args (fn_instructions f) c0) as [c|e| |];
      [destruct He as [k Hk]; exists k; by rewrite Hk .. |congruence].
Qed.
