(* ===== verification/Invariant.v ===== *)
(** * The MIR interpreter: what every instruction preserves

    [core_ok]: texts are valid UTF-8 and views lie within their data, in every
    value the interpreter holds.  [frame]: an instruction keeps the sizes of the
    value and slot vectors and the handlers, forgets no table and only adds to
    the output.  [wp] is the weakest precondition of an operation that ends
    without unwinding; its first argument says what a panic implies. *)
From stdpp Require Import gmap pretty.
From S2P Require Import Prelude Syntax Utf8 TextOps Float64 Mir Interp Sorts Exec Machine.

Open Scope nat_scope.

(** ** Invariants *)

Definition text_ok (s : string) : bool := utf8_valid (bytes s).

Fixpoint value_ok (v : RuntimeValue) : bool :=
  match v with
  | V_Text s => text_ok s
  | V_BytesView data offset len => offset + len <=? length data
  | V_Enum _ variant payload =>
      text_ok variant && match payload with Some p => value_ok p | None => true end
  | V_Record _ fields => forallb (fun '(_, v) => value_ok v) fields
  | _ => true
  end.

Definition values_ok (l : list RuntimeValue) : Prop := Forall (fun v => value_ok v = true) l.
Definition index_ok (m : gmap string Z) : Prop := forall k z, m !! k = Some z -> text_ok k = true.

Record heap_ok (h : Heap) : Prop := {
  indices_ok : Forall index_ok (text_indices h);
  lists_ok : Forall values_ok (lists h);
  stdout_ok : text_ok (stdout_text h) = true
}.

Record core_ok (c : Core) : Prop := {
  core_heap_ok : heap_ok (heap c);
  core_values_ok : values_ok (values c);
  core_slots_ok : values_ok (slots c)
}.

Record frame (c c' : Core) : Prop := {
  frame_values : length (values c') = length (values c);
  frame_slots : length (slots c') = length (slots c);
  frame_handlers : handlers (heap c') = handlers (heap c);
  frame_builders : length (text_builders (heap c)) <= length (text_builders (heap c'));
  frame_indices : length (text_indices (heap c)) <= length (text_indices (heap c'));
  frame_lists : length (lists (heap c)) <= length (lists (heap c'));
  frame_stdout : exists s, stdout_text (heap c') = (stdout_text (heap c) ++ s)%string
}.

#[export] Instance frame_refl : Reflexive frame.
Proof. intros c. split; try done. exists ""%string. by rewrite string_app_nil_r. Qed.

#[export] Instance frame_trans : Transitive frame.
Proof.
  intros c1 c2 c3 [H1 H2 H3 H4 H5 H6 [s1 E1]] [K1 K2 K3 K4 K5 K6 [s2 E2]].
  split; [congruence..|lia|lia|lia|]. exists (s1 ++ s2)%string. by rewrite E2, E1, string_app_assoc.
Qed.

(** Good, and a successor of [c0]. *)
Definition inv (c0 c : Core) : Prop := core_ok c /\ frame c0 c.

(** ** Weakest preconditions *)

Definition wp {A} (P : Prop) (m : M A) (Q : A -> Core -> Prop) (c : Core) : Prop :=
  match m c with
  | Ok (a, c') => Q a c'
  | Err (Message _) => True
  | Err (EffectUnwind _ _ _) => False
  | Panic => P
  end.

Section wp.
Context {A : Type} (P : Prop).
Implicit Types (Q : A -> Core -> Prop).

Lemma wpc_bind {B} (m : M B) (f : B -> M A) Q c :
  wp P m (fun b c' => wp P (f b) Q c') c -> wp P (mbind m f) Q c.
Proof. unfold wp, mbind. by destruct (m c) as [[b c']|[]|]. Qed.

Lemma wpc_ret (a : A) Q c : Q a c -> wp P (mret a) Q c.
Proof. done. Qed.

Lemma wp_fail s Q c : wp P (fail s) Q c.
Proof. done. Qed.

Lemma wp_panic Q c : P -> wp P mpanic Q c.
Proof. done. Qed.

Lemma wp_or_fail o s Q c : (forall a, o = Some a -> Q a c) -> wp P (or_fail o s) Q c.
Proof. intros HQ. destruct o as [a|]; [by apply HQ|done]. Qed.

Lemma wp_or_panic o Q c :
  (forall a, o = Some a -> Q a c) -> (o = None -> P) -> wp P (or_panic o) Q c.
Proof. intros HQ HP. destruct o as [a|]; [by apply HQ|by apply HP]. Qed.

Lemma wpc_mono (P' : Prop) (m : M A) Q Q' c :
  (P -> P') -> (forall a c', Q a c' -> Q' a c') -> wp P m Q c -> wp P' m Q' c.
Proof. unfold wp. intros HP HQ. destruct (m c) as [[a c']|[]|]; eauto. Qed.
End wp.

(** ** The primitive operations under the invariant *)
Section prims.
Context (P : Prop) (c0 c : Core) (Hinv : inv c0 c).

Lemma values_lookup l i v : values_ok l -> l !! i = Some v -> value_ok v = true.
Proof. intros Hl Hi. exact (Forall_lookup_1 _ _ _ _ Hl Hi). Qed.

Lemma wp_get_values (Q : _ -> Core -> Prop) :
  (values_ok (values c) -> length (values c) = length (values c0) -> Q (values c) c) ->
  wp P get_values Q c.
Proof. destruct Hinv as [[] []]. intros HQ. by apply HQ. Qed.

Lemma wp_get_slots (Q : _ -> Core -> Prop) :
  (values_ok (slots c) -> Q (slots c) c) -> wp P get_slots Q c.
Proof. destruct Hinv as [[] []]. intros HQ. by apply HQ. Qed.

Lemma wp_extract_value id (Q : _ -> Core -> Prop) :
  (forall v, value_ok v = true -> Q v c) -> wp P (extract_value id) Q c.
Proof.
  intros HQ. unfold extract_value. apply wpc_bind, wp_get_values. intros Hok _.
  apply wp_or_fail. intros v Hv. by apply HQ, (values_lookup _ _ _ Hok Hv).
Qed.

Lemma wp_index_value id (Q : _ -> Core -> Prop) :
  (forall v, value_ok v = true -> Q v c) -> (length (values c0) <= id -> P) -> wp P (index_value id) Q c.
Proof.
  intros HQ HP. unfold index_value. apply wpc_bind, wp_get_values. intros Hok Hlen.
  apply wp_or_panic; intros v.
  - intros Hv. by apply HQ, (values_lookup _ _ _ Hok Hv).
  - apply HP. rewrite <- Hlen. by apply lookup_ge_None.
Qed.

Lemma wp_set_value dest v (Q : _ -> Core -> Prop) :
  value_ok v = true -> (length (values c0) <= dest -> P) ->
  (forall c', inv c0 c' -> Q tt c') -> wp P (set_value dest v) Q c.
Proof.
  intros Hv HP HQ. destruct Hinv as [[Hh Hvs Hss] Hf]. unfold wp, set_value.
  destruct (Nat.ltb_spec dest (length (values c))) as [Hlt|Hge].
  - apply HQ. split.
    + split; [done| |done]. by apply Forall_insert.
    + etrans; [exact Hf|]. split; cbn; rewrite ?length_insert; try done.
      exists ""%string. by rewrite string_app_nil_r.
  - apply HP. by rewrite <- (frame_values _ _ Hf).
Qed.

Lemma wp_set_slot slot v (Q : _ -> Core -> Prop) :
  value_ok v = true -> (length (slots c0) <= slot -> P) ->
  (forall c', inv c0 c' -> Q tt c') -> wp P (set_slot slot v) Q c.
Proof.
  intros Hv HP HQ. destruct Hinv as [[Hh Hvs Hss] Hf]. unfold wp, set_slot.
  destruct (Nat.ltb_spec slot (length (slots c))) as [Hlt|Hge].
  - apply HQ. split.
    + split; [done|done|]. by apply Forall_insert.
    + etrans; [exact Hf|]. split; cbn; rewrite ?length_insert; try done.
      exists ""%string. by rewrite string_app_nil_r.
  - apply HP. by rewrite <- (frame_slots _ _ Hf).
Qed.

Lemma wp_get_heap (Q : _ -> Core -> Prop) :
  (heap_ok (heap c) -> Q (heap c) c) -> wp P get_heap Q c.
Proof. destruct Hinv as [[] _]. intros HQ. by apply HQ. Qed.

(** A heap that is good and leaves handlers alone. *)
Lemma wp_put_heap h (Q : _ -> Core -> Prop) :
  heap_ok h -> frame c (mkCore h (values c) (slots c)) ->
  (forall c', inv c0 c' -> Q tt c') -> wp P (put_heap h) Q c.
Proof.
  intros Hh Hf HQ. destruct Hinv as [[] Hf0]. apply HQ. split; [done|]. by etrans.
Qed.

Lemma wp_get_builder id (Q : _ -> Core -> Prop) : (forall b, Q b c) -> wp P (get_builder id) Q c.
Proof. intros HQ. apply wpc_bind, wp_get_heap. intros _. by apply wp_or_fail. Qed.

Lemma wp_put_builder id b (Q : _ -> Core -> Prop) :
  (forall c', inv c0 c' -> Q tt c') -> wp P (put_builder id b) Q c.
Proof.
  intros HQ. apply wpc_bind, wp_get_heap. intros [? ? ?]. apply wp_put_heap; [done| |done].
  split; cbn; rewrite ?length_insert; try done. exists ""%string. by rewrite string_app_nil_r.
Qed.

Lemma wp_get_index id (Q : _ -> Core -> Prop) : (forall m, index_ok m -> Q m c) -> wp P (get_index id) Q c.
Proof.
  intros HQ. apply wpc_bind, wp_get_heap. intros [Hi _ _]. apply wp_or_fail. intros m Hm.
  apply HQ. exact (Forall_lookup_1 _ _ _ _ Hi Hm).
Qed.

Lemma wp_put_index id m (Q : _ -> Core -> Prop) :
  index_ok m -> (forall c', inv c0 c' -> Q tt c') -> wp P (put_index id m) Q c.
Proof.
  intros Hm HQ. apply wpc_bind, wp_get_heap. intros [? ? ?]. apply wp_put_heap; [| |done].
  - split; cbn; [by apply Forall_insert|done..].
  - split; cbn; rewrite ?length_insert; try done. exists ""%string. by rewrite string_app_nil_r.
Qed.

Lemma wp_get_list id (Q : _ -> Core -> Prop) : (forall l, values_ok l -> Q l c) -> wp P (get_list id) Q c.
Proof.
  intros HQ. apply wpc_bind, wp_get_heap. intros [_ Hl _]. apply wp_or_fail. intros l Hl'.
  apply HQ. exact (Forall_lookup_1 _ _ _ _ Hl Hl').
Qed.

Lemma wp_put_list id l (Q : _ -> Core -> Prop) :
  values_ok l -> (forall c', inv c0 c' -> Q tt c') -> wp P (put_list id l) Q c.
Proof.
  intros Hl HQ. apply wpc_bind, wp_get_heap. intros [? ? ?]. apply wp_put_heap; [| |done].
  - split; cbn; [done|by apply Forall_insert|done].
  - split; cbn; rewrite ?length_insert; try done. exists ""%string. by rewrite string_app_nil_r.
Qed.

Lemma wp_new_list l (Q : _ -> Core -> Prop) :
  values_ok l -> (forall id c', inv c0 c' -> Q id c') -> wp P (new_list l) Q c.
Proof.
  intros Hl HQ. apply wpc_bind, wp_get_heap. intros [? ? ?]. apply wpc_bind, wp_put_heap.
  - split; cbn; [done|by apply Forall_app_2; [|constructor]|done].
  - split; cbn; rewrite ?length_app; try done; [lia|]. exists ""%string. by rewrite string_app_nil_r.
  - intros c' Hc'. apply wpc_ret. by apply HQ.
Qed.
End prims.

(** * The MIR interpreter: the invariant, instruction by instruction

    One lemma per operation of [Exec.v] and [Machine.v]: from a good core it
    keeps the invariant, and it panics only when its destination is out of
    range, or as its statement says. *)

(** What is documented of the platform: float formatting gives text, a value
    takes some bytes and not many, and a sort that does not panic keeps all
    elements, whatever the comparison. *)
Class PlatformOk (F : Platform) : Prop := {
  f64_fixed_ok : forall x n, text_ok (f64_fixed x n) = true;
  value_size_range : (0 < value_size < 2 ^ 16)%Z;
  sort_unordered_perm : forall cmp l l', sort_unordered cmp l = Some l' -> l' ≡ₚ l
}.

Lemma sort_prefix_perm `{PlatformOk} cmp used l l' : sort_prefix cmp used l = Some l' -> l' ≡ₚ l.
Proof.
  unfold sort_prefix, sort_slice. destruct (total_on cmp (take used l)).
  - intros [= <-]. by rewrite sort_by_perm, take_drop.
  - destruct (sort_unordered cmp (take used l)) as [s|] eqn:Hs; [|done]. intros [= <-].
    apply sort_unordered_perm in Hs. by rewrite Hs, take_drop.
Qed.

(** A capacity of 32 bits fits. *)
Lemma vec_fits_small `{PlatformOk} n : (0 <= n < 2 ^ 32)%Z -> vec_fits n = true.
Proof. intros Hn. pose proof value_size_range. unfold vec_fits. apply Z.leb_le. nia. Qed.

(** ** Automation *)

Ltac wp_prim :=
  match goal with
  | |- wp _ (extract_value _) _ _ => eapply wp_extract_value; [eassumption|intros ? ?]
  | |- wp _ (index_value _) _ _ => eapply wp_index_value; [eassumption|intros ? ?|]
  | |- wp _ (set_value _ _) _ _ => eapply wp_set_value; [eassumption| | |]
  | |- wp _ (set_position _ _) _ _ => unfold set_position
  | |- wp _ (set_slot _ _) _ _ => eapply wp_set_slot; [eassumption| | |]
  | |- wp _ (get_builder _) _ _ => eapply wp_get_builder; [eassumption|intros ?]
  | |- wp _ (put_builder _ _) _ _ => eapply wp_put_builder; [eassumption|intros ? ?]
  | |- wp _ (get_index _) _ _ => eapply wp_get_index; [eassumption|intros ? ?]
  | |- wp _ (put_index _ _) _ _ => eapply wp_put_index; [eassumption| |intros ? ?]
  | |- wp _ (get_list _) _ _ => eapply wp_get_list; [eassumption|intros ? ?]
  | |- wp _ (put_list _ _) _ _ => eapply wp_put_list; [eassumption| |intros ? ?]
  | |- wp _ (new_list _) _ _ => eapply wp_new_list; [eassumption| |intros ? ? ?]
  | |- wp _ (get_heap) _ _ => eapply wp_get_heap; [eassumption|intros ?]
  | |- wp _ (get_values) _ _ => eapply wp_get_values; [eassumption|intros ? ?]
  | |- wp _ (get_slots) _ _ => eapply wp_get_slots; [eassumption|intros ?]
  end.

Ltac wp_step :=
  match goal with
  | |- wp _ (mbind _ _) _ _ => apply wpc_bind
  | |- wp _ (mret _) _ _ => apply wpc_ret
  | |- wp _ (fail _) _ _ => apply wp_fail
  | |- wp _ (or_fail _ _) _ _ => apply wp_or_fail; intros ? ?
  | |- wp _ _ _ _ => wp_prim
  | |- wp _ (as_int ?v) _ _ => destruct v; cbn [as_int]
  | |- wp _ (as_text ?v) _ _ => destruct v; cbn [as_text]
  | |- wp _ (as_f64 ?v) _ _ => destruct v; cbn [as_f64]
  | |- wp _ (as_builder ?v) _ _ => destruct v; cbn [as_builder]
  | |- wp _ (as_index ?v) _ _ => destruct v; cbn [as_index]
  | |- wp _ (as_list ?v) _ _ => destruct v; cbn [as_list]
  | |- wp _ (match ?v with _ => _ end) _ _ => destruct v eqn:?
  end; cbn beta.

(** Every branch of an operation that is straight-line in the primitives. *)
Ltac wp_go := repeat first [progress intros; cbn beta | wp_step]; try done; eauto.

(** The bound in the hypothesis that a view is good. *)
Ltac wp_view_le :=
  match goal with H : value_ok (V_BytesView _ _ _) = true |- _ => cbn in H; apply Nat.leb_le in H end.

Ltac heap_lists name := match goal with H : heap_ok _ |- _ => destruct H as [_ name _] end.

Section Ops.
Context `{Platform} (env : Env) (P : Prop) (c0 c : Core) (Hinv : inv c0 c).
Context (dest : ValueId) (HP : length (values c0) <= dest -> P).

Abbreviation ok m := (wp P m (fun _ c' => inv c0 c') c).

(** ** Texts *)

Lemma text_ok_app s t : text_ok s = true -> text_ok t = true -> text_ok (s ++ t)%string = true.
Proof. unfold text_ok. rewrite bytes_app. apply utf8_valid_app. Qed.

Lemma wp_clamp_end l z (Q : _ -> Core -> Prop) cc :
  utf8_valid l = true ->
  (forall e, no_cont_at l e -> e <= length l -> Q e cc) -> wp P (clamp_end l z) Q cc.
Proof.
  intros Hl HQ. unfold clamp_end.
  destruct (clamp_text_slice_end_ok l z Hl) as (e & -> & He & Hle).
  apply wpc_ret, HQ; [done|]. pose proof (clamp_index_le (length l) z). lia.
Qed.

Lemma wp_clamped_range l s e (Q : _ -> Core -> Prop) cc :
  utf8_valid l = true ->
  (forall i j, no_cont_at l i -> no_cont_at l j -> i <= j -> j <= length l -> Q (i, j) cc) ->
  wp P (clamped_range l s e) Q cc.
Proof.
  intros Hl HQ. unfold clamped_range. apply wpc_bind, wp_clamp_end; [done|]. intros j Hj Hle.
  apply wpc_ret. destruct (clamp_text_slice_start_ok l s) as [Hs _].
  destruct (Nat.ltb_spec j (clamp_text_slice_start l s)); apply HQ; try done; try lia. apply Hs.
Qed.

Lemma wp_find_byte l off i j b (Q : _ -> Core -> Prop) cc :
  off + Nat.max i j <= length l ->
  (forall r, Q r cc) -> wp P (find_byte l off i j b) Q cc.
Proof.
  intros Hle HQ. unfold find_byte. apply wpc_bind.
  pose proof (find_byte_loop_ok l b (j - i) (off + i) ltac:(lia)) as Hf.
  destruct (find_byte_loop l b (j - i) (off + i)) as [r|]; [|done]. apply wpc_ret, wpc_ret, HQ.
Qed.

(** The bytes a [Bytes] value looks at. *)
Lemma wp_as_view v (Q : _ -> Core -> Prop) cc :
  value_ok v = true ->
  (forall data offset len, offset + len <= length data -> Q (data, offset, len) cc) ->
  wp P (as_view v) Q cc.
Proof.
  intros Hv HQ. destruct v; try done; apply wpc_ret, HQ; [lia|]. cbn in Hv. by apply Nat.leb_le.
Qed.

Lemma wp_view_bytes data offset len (Q : _ -> Core -> Prop) cc :
  offset + len <= length data -> (forall l, Q l cc) -> wp P (view_bytes data offset len) Q cc.
Proof. intros Hle HQ. unfold view_bytes. rewrite (proj2 (Nat.leb_le _ _) Hle). apply wpc_ret, HQ. Qed.

Lemma from_utf8_ok l s : from_utf8 l = Some s -> text_ok s = true.
Proof.
  unfold from_utf8, text_ok. destruct (utf8_valid l) eqn:Hl; [|done]. intros [= <-]. by rewrite bytes_string.
Qed.

Lemma text_field_ok past source start end_ byte : ok (text_field past dest source start end_ byte).
Proof.
  unfold text_field. wp_go.
  apply wp_clamped_range; [done|]. intros i j _ _ Hij Hj. apply wpc_bind, wp_find_byte; [cbn; lia|].
  wp_go.
Qed.

Lemma bytes_field_ok past source start end_ byte : ok (bytes_field past dest source start end_ byte).
Proof.
  unfold bytes_field. wp_go.
  apply wp_as_view; [done|]. intros data offset len Hle. wp_go.
  apply wp_find_byte; [cbn; lia|]. wp_go.
Qed.

Lemma line_end_ok source start (Q : _ -> Core -> Prop) cc :
  (forall r, Q r cc) -> wp P (line_end source start) Q cc.
Proof.
  intros HQ. unfold line_end. apply wpc_bind, wp_find_byte; [|intros r; by apply wpc_ret].
  destruct (clamp_text_slice_start_ok source start) as [[? _] _]. lia.
Qed.

Lemma text_line_end_ok source start : ok (text_line_end dest source start).
Proof. unfold text_line_end. wp_go. apply line_end_ok. intros [i j]. wp_go. Qed.

Lemma text_next_line_ok source start : ok (text_next_line dest source start).
Proof. unfold text_next_line. wp_go. apply line_end_ok. intros [i j]. wp_go. Qed.

Lemma text_slice_ok text start end_ : ok (text_slice dest text start end_).
Proof.
  unfold text_slice. wp_go. apply wp_clamp_end; [done|]. intros e He Hle. wp_go.
  apply Nat.leb_gt in Heqb. destruct (clamp_text_slice_start_ok (bytes value) value0) as [Hs _].
  unfold from_utf8. rewrite (utf8_valid_slice (bytes value)) by first [done|lia].
  apply wpc_ret. wp_go. cbn [value_ok]. unfold text_ok. rewrite bytes_string.
  apply utf8_valid_slice; first [done|lia].
Qed.

Lemma text_eq_range_ok source start end_ expected : ok (text_eq_range dest source start end_ expected).
Proof. unfold text_eq_range. wp_go. apply wp_clamped_range; [done|]. wp_go. Qed.

Lemma text_cmp_ok left right : ok (text_cmp dest left right).
Proof. unfold text_cmp. wp_go. Qed.

Lemma text_concat_ok left right : ok (text_concat dest left right).
Proof. unfold text_concat. wp_go. by apply text_ok_app. Qed.

Lemma text_byte_ok text index : ok (text_byte dest text index).
Proof. unfold text_byte. wp_go. Qed.

Lemma parse_i32_range_ok text start end_ : ok (parse_i32_range dest text start end_).
Proof. unfold parse_i32_range. wp_go. apply wp_clamped_range; [done|]. wp_go. Qed.

(** ** Bytes *)

Lemma bytes_slice_ok source start end_ : ok (bytes_slice dest source start end_).
Proof.
  unfold bytes_slice. wp_go. apply wp_as_view; [done|]. intros data offset len Hle. wp_go.
  cbn. apply Nat.leb_le. lia.
Qed.

Lemma bytes_byte_ok source index : ok (bytes_byte dest source index).
Proof.
  unfold bytes_byte. wp_go. apply wp_or_panic; [wp_go|].
  intros Hnone%lookup_ge_None. wp_view_le. lia.
Qed.

(** ** Text builders *)

Lemma append_ok id tail : ok (append dest id tail).
Proof. unfold append. wp_go. Qed.

(** A new heap whose tables grow. *)
Lemma frame_grow cc h :
  handlers h = handlers (heap cc) ->
  length (text_builders (heap cc)) <= length (text_builders h) ->
  length (text_indices (heap cc)) <= length (text_indices h) ->
  length (lists (heap cc)) <= length (lists h) ->
  (exists s, stdout_text h = (stdout_text (heap cc) ++ s)%string) ->
  frame cc (mkCore h (values cc) (slots cc)).
Proof. intros. by split. Qed.

Lemma no_output s : exists t, s = (s ++ t)%string.
Proof. exists ""%string. by rewrite string_app_nil_r. Qed.

Lemma text_builder_new_ok : ok (text_builder_new dest).
Proof.
  unfold text_builder_new. wp_go. eapply wp_put_heap; [done| | |].
  - destruct H0. by split.
  - apply frame_grow; cbn; rewrite ?length_app; try done; [lia|apply no_output].
  - wp_go.
Qed.

Lemma text_builder_append_ok builder text : ok (text_builder_append dest builder text).
Proof. unfold text_builder_append. wp_go. apply append_ok. Qed.

Lemma text_builder_append_codepoint_ok builder cp : ok (text_builder_append_codepoint dest builder cp).
Proof. unfold text_builder_append_codepoint. wp_go. apply append_ok. Qed.

Lemma text_builder_append_ascii_ok builder byte : ok (text_builder_append_ascii dest builder byte).
Proof. unfold text_builder_append_ascii. wp_go. apply append_ok. Qed.

Lemma text_builder_append_slice_ok builder text start end_ :
  ok (text_builder_append_slice dest builder text start end_).
Proof. unfold text_builder_append_slice. wp_go. apply append_ok. Qed.

Lemma text_builder_append_int_ok builder value : ok (text_builder_append_int dest builder value).
Proof. unfold text_builder_append_int. wp_go. apply append_ok. Qed.

Lemma text_builder_finish_ok builder : ok (text_builder_finish dest builder).
Proof. unfold text_builder_finish. wp_go. by eapply from_utf8_ok. Qed.

(** ** Output *)

Lemma push_stdout_ok h s : heap_ok h -> text_ok s = true -> heap_ok (push_stdout h s).
Proof. intros [? ? ?] Hs. split; try done. by apply text_ok_app. Qed.

Lemma from_utf8_lossy_ok l : text_ok (from_utf8_lossy l) = true.
Proof. apply from_utf8_lossy_utf8. Qed.

Lemma wp_push_stdout s (Q : _ -> Core -> Prop) cc :
  inv c0 cc -> text_ok s = true -> (forall c', inv c0 c' -> Q tt c') ->
  wp P (put_heap (push_stdout (heap cc) s)) Q cc.
Proof.
  intros Hcc Hs HQ. eapply wp_put_heap; [exact Hcc| | |exact HQ].
  - apply push_stdout_ok; [|done]. apply Hcc.
  - apply frame_grow; try done. by exists s.
Qed.

Lemma stdout_write_ok text : ok (stdout_write text).
Proof.
  clear dest HP. unfold stdout_write. wp_go.
  - apply wp_push_stdout; auto using from_utf8_lossy_ok.
  - apply wp_push_stdout; auto using from_utf8_lossy_ok.
  - apply wp_view_bytes; [wp_view_le; lia|]. wp_go.
    apply wp_push_stdout; auto using from_utf8_lossy_ok.
Qed.

Lemma stdout_write_builder_ok builder : ok (stdout_write_builder dest builder).
Proof.
  unfold stdout_write_builder. wp_go. apply wp_push_stdout; [done|by eapply from_utf8_ok|]. wp_go.
Qed.

(** ** Text indices *)

Lemma text_index_new_ok : ok (text_index_new dest).
Proof.
  unfold text_index_new. wp_go. eapply wp_put_heap; [done| | |].
  - destruct H0. split; try done. cbn. apply Forall_app_2; [done|]. by repeat constructor.
  - apply frame_grow; cbn; rewrite ?length_app; try done; [lia|apply no_output].
  - wp_go.
Qed.

Lemma text_index_get_ok index key : ok (text_index_get dest index key).
Proof. unfold text_index_get. wp_go. Qed.

Lemma text_index_contains_ok index key : ok (text_index_contains dest index key).
Proof. unfold text_index_contains. wp_go. Qed.

Lemma index_ok_insert m k z : index_ok m -> text_ok k = true -> index_ok (<[k := z]> m).
Proof. intros Hm Hk k' z' [[<- <-]|[_ Hl]]%lookup_insert_Some; [done|by eapply Hm]. Qed.

Lemma text_index_get_or_insert_ok index key next : ok (text_index_get_or_insert dest index key next).
Proof. unfold text_index_get_or_insert. wp_go. by apply index_ok_insert. Qed.

Lemma text_index_set_ok index key value : ok (text_index_set dest index key value).
Proof. unfold text_index_set. wp_go. by apply index_ok_insert. Qed.

Lemma text_ok_join sep l : text_ok sep = true -> Forall (fun s => text_ok s = true) l -> text_ok (join sep l) = true.
Proof.
  intros Hsep. unfold join. induction 1 as [|s l Hs Hl IH]; cbn [String.concat]; [done|].
  destruct l; [done|]. by repeat apply text_ok_app.
Qed.

Lemma text_index_keys_ok index : ok (text_index_keys dest index).
Proof.
  unfold text_index_keys. wp_go. cbn. apply text_ok_join; [done|]. rewrite sort_by_perm.
  apply Forall_forall. intros k ([k' z] & -> & Hk)%list_elem_of_fmap.
  apply elem_of_map_to_list in Hk.
  match goal with H : index_ok _ |- _ => by eapply H end.
Qed.

(** ** Lists *)

Lemma list_new_ok len value : P -> ok (list_new dest len value).
Proof. intros HP'. unfold list_new. wp_go. by apply Forall_replicate. Qed.

Lemma fields_ok name fields f v :
  value_ok (V_Record name fields) = true -> In (f, v) fields -> value_ok v = true.
Proof. cbn. rewrite forallb_forall. intros Hf Hin. exact (Hf _ Hin). Qed.

Lemma list_from_ok array len : (vec_fits (Z.of_nat len) = false -> P) -> ok (list_from dest array len).
Proof.
  intros Hfit. unfold list_from. destruct (vec_fits (Z.of_nat len)); cbn [negb]; wp_go; [|by apply Hfit]. apply Forall_forall. intros w (i & -> & _)%list_elem_of_fmap.
  destruct (List.find _ fields) as [[f w]|] eqn:Hf; [|done]. apply find_some in Hf as [Hin _].
  by eapply fields_ok.
Qed.

Lemma list_len_ok list : ok (list_len dest list).
Proof. unfold list_len. wp_go. Qed.

Lemma list_get_ok list index : ok (list_get dest list index).
Proof.
  unfold list_get. wp_go. destruct (lists (heap c) !! id) as [l|] eqn:Hl; [|done].
  unfold get_at. case_match; [|done]. destruct (l !! Z.to_nat value) as [v|] eqn:Hv; [|done].
  heap_lists Hls. pose proof (Forall_lookup_1 _ _ _ _ Hls Hl) as Hok.
  by apply (values_lookup _ _ _ Hok Hv).
Qed.

Lemma list_set_ok list index value : ok (list_set dest list index value).
Proof.
  unfold list_set. wp_go. apply Forall_insert; [|done]. heap_lists Hls.
  exact (Forall_lookup_1 _ _ _ _ Hls Heqo).
Qed.

Lemma list_push_ok list len value : P -> ok (list_push dest list len value).
Proof.
  intros HP'. unfold list_push. wp_go; [by apply Forall_insert|].
  apply Forall_app_2; [done|]. by apply Forall_replicate.
Qed.

Lemma list_sort_ok `{!PlatformOk _} name cmp list len : P -> ok (list_sort name cmp dest list len).
Proof.
  intros HP'. unfold list_sort. wp_go. apply wp_or_panic; [intros l' Hl'|done].
  wp_go. unfold values_ok. by rewrite (sort_prefix_perm _ _ _ _ Hl').
Qed.

(** ** Arithmetic *)

(** What is computed without the core. *)
Definition pure_op {A} (m : M A) (D : A -> Prop) : Prop :=
  forall cc, wp P m (fun a c' => c' = cc /\ D a) cc.

Lemma wp_pure {A} (m : M A) D (Q : _ -> Core -> Prop) cc :
  pure_op m D -> (forall a, D a -> Q a cc) -> wp P m Q cc.
Proof.
  intros Hm HQ. eapply wpc_mono; [| |apply Hm]; [done|]. cbn. intros a c' [-> HD]. by apply HQ.
Qed.

Lemma run_arithmetic_ok left right int_op f64_op kind :
  (length (values c0) <= left -> P) -> (length (values c0) <= right -> P) ->
  (forall l r, pure_op (int_op l r) (fun _ => True)) ->
  ok (run_arithmetic dest left right int_op f64_op kind).
Proof.
  intros Hl Hr Hop. unfold run_arithmetic. wp_go. eapply wp_pure; [apply Hop|]. wp_go.
Qed.

Lemma run_comparison_ok left right int_op f64_op kind :
  (length (values c0) <= left -> P) -> (length (values c0) <= right -> P) ->
  ok (run_comparison dest left right int_op f64_op kind).
Proof. intros Hl Hr. unfold run_comparison. wp_go. Qed.

Lemma run_div_ok left right : P -> ok (run_div dest left right).
Proof. intros HP'. unfold run_div. wp_go. Qed.

Lemma checked_pure z : (overflow_checks env = true -> P) -> pure_op (checked env z) (fun _ => True).
Proof.
  intros Ho cc. unfold checked. destruct (in_i64 z); [done|].
  destruct (overflow_checks env); [by apply Ho|done].
Qed.

Lemma int_rem_pure l r : P -> pure_op (int_rem l r) (fun _ => True).
Proof.
  intros HP' cc. unfold int_rem. destruct (r =? 0)%Z; [done|]. by destruct (in_i64 (Z.quot l r)).
Qed.

Lemma wp_extract_int id (Q : _ -> Core -> Prop) cc :
  inv c0 cc -> (forall z, Q z cc) -> wp P (extract_int id) Q cc.
Proof. intros Hcc HQ. unfold extract_int. wp_go. Qed.

Lemma wp_extract_bool id (Q : _ -> Core -> Prop) cc :
  inv c0 cc -> (forall b, Q b cc) -> wp P (extract_bool id) Q cc.
Proof. intros Hcc HQ. unfold extract_bool. wp_go. Qed.

Lemma run_bitwise_ok left right op : ok (run_bitwise dest left right op).
Proof.
  unfold run_bitwise. apply wpc_bind, wp_extract_int; [done|]. intros l.
  apply wpc_bind, wp_extract_int; [done|]. wp_go.
Qed.

Lemma run_shift_ok left right op : ok (run_shift dest left right op).
Proof.
  unfold run_shift. apply wpc_bind, wp_extract_int; [done|]. intros l.
  apply wpc_bind, wp_extract_int; [done|]. wp_go.
Qed.

Lemma run_equality_ok left right eq : ok (run_equality dest left right eq).
Proof. unfold run_equality. wp_go. Qed.

Lemma boolean_ok left right op : ok (boolean dest left right op).
Proof.
  unfold boolean. apply wpc_bind, wp_extract_bool; [done|]. intros l.
  apply wpc_bind, wp_extract_bool; [done|]. wp_go.
Qed.

Lemma convert_ok {A} value (as_ : RuntimeValue -> M A) (f : A -> RuntimeValue) :
  (forall v, value_ok v = true -> pure_op (as_ v) (fun a => value_ok (f a) = true)) ->
  ok (convert dest value as_ f).
Proof.
  intros Has. unfold convert. wp_go. eapply wp_pure; [by apply Has|]. wp_go.
Qed.

(** ** Enums and records *)

Lemma make_enum_ok name variant payload : text_ok variant = true -> ok (make_enum dest name variant payload).
Proof. intros Hv. unfold make_enum. wp_go; cbn; by rewrite Hv. Qed.

(** The values of fields, read one by one. *)
Lemma wp_mmap {A B} (f : A -> M B) (D : B -> Prop) l (Q : _ -> Core -> Prop) cc :
  (forall a (Q : _ -> Core -> Prop), (forall b, D b -> Q b cc) -> wp P (f a) Q cc) ->
  (forall bs, Forall D bs -> Q bs cc) -> wp P (mmap f l) Q cc.
Proof.
  intros Hf. revert Q. induction l as [|a l IH]; intros Q HQ; cbn [mmap].
  - apply wpc_ret, HQ. constructor.
  - apply wpc_bind, Hf. intros b Hb. apply wpc_bind, IH. intros bs Hbs. apply wpc_ret, HQ. by constructor.
Qed.

Lemma wp_arguments refs (Q : _ -> Core -> Prop) cc :
  inv c0 cc -> (forall vs, values_ok vs -> Q vs cc) -> wp P (arguments refs) Q cc.
Proof. intros Hcc HQ. eapply wp_mmap; [|exact HQ]. intros id Q' HQ'. by eapply wp_extract_value. Qed.

Lemma make_record_ok name fields : ok (make_record dest name fields).
Proof.
  unfold make_record. apply wpc_bind, (wp_mmap _ (fun '(_, v) => value_ok v = true)).
  - intros [f id] Q HQ. wp_go.
  - intros bs Hbs. wp_go. cbn. apply forallb_forall. rewrite Forall_forall in Hbs.
    intros [f v] Hb. exact (Hbs (f, v) (proj2 (list_elem_of_In _ _) Hb)).
Qed.

Lemma field_ok base name : ok (field dest base name).
Proof.
  unfold field. wp_go. match goal with H : List.find _ _ = _ |- _ => apply find_some in H as [Hin _] end.
  by eapply fields_ok.
Qed.

Lemma enum_tag_eq_ok value tag : ok (enum_tag_eq env dest value tag).
Proof. unfold enum_tag_eq, enum_tag. wp_go. Qed.

Lemma enum_payload_ok value : ok (enum_payload dest value).
Proof.
  unfold enum_payload. wp_go.
  match goal with H : value_ok (V_Enum _ _ _) = true |- _ => cbn in H; by apply andb_true_iff in H as [_ H] end.
Qed.

Lemma enum_to_i32_ok value ds : ok (enum_to_i32 env dest value ds).
Proof. unfold enum_to_i32. wp_go. Qed.

Lemma enum_to_text_ok value : ok (enum_to_text dest value).
Proof.
  unfold enum_to_text. wp_go.
  match goal with H : value_ok (V_Enum _ _ _) = true |- _ => cbn in H; by apply andb_true_iff in H as [H _] end.
Qed.

Lemma assert_contract_ok f condition kind : ok (assert_contract f condition kind).
Proof. unfold assert_contract. apply wpc_bind, wp_extract_bool; [done|]. wp_go. Qed.

(** ** Parameters, locals and input *)

Lemma load_param_ok args index : values_ok args -> ok (load_param args dest index).
Proof. intros Hargs. unfold load_param. wp_go. by eapply values_lookup. Qed.

Lemma load_local_ok f slot : ok (load_local f dest slot).
Proof. unfold load_local. wp_go. by eapply values_lookup. Qed.

Lemma text_from_f64_fixed_ok `{!PlatformOk _} value digits : ok (text_from_f64_fixed dest value digits).
Proof. unfold text_from_f64_fixed. wp_go. apply f64_fixed_ok. Qed.

Lemma arg_text_ok index :
  Forall (fun s => text_ok s = true) (program_args env) -> ok (arg_text env dest index).
Proof.
  intros Hargs. unfold arg_text. wp_go. unfold get_at. case_match; [|done].
  destruct (program_args env !! Z.to_nat value) as [s|] eqn:Hs; [|done].
  exact (Forall_lookup_1 _ _ _ _ Hargs Hs).
Qed.

Lemma text_find_byte_range_ok source start end_ byte :
  P -> ok (text_find_byte_range env dest source start end_ byte).
Proof.
  intros HP'. unfold text_find_byte_range, find_byte. wp_go; try (apply wp_or_panic); wp_go.
Qed.

Lemma store_local_ok slot src :
  (length (slots c0) <= slot -> P) -> ok (let! v := extract_value src in set_slot slot v).
Proof. intros Hs. wp_go. Qed.

Lemma set_ok v : value_ok v = true -> ok (set_value dest v).
Proof. intros Hv. wp_go. Qed.

(** The readers of [convert]. *)
Lemma as_text_pure v :
  value_ok v = true -> pure_op (as_text v) (fun s => text_ok s = true).
Proof. intros Hv cc. by destruct v. Qed.

Lemma materialize_pure v : value_ok v = true -> pure_op (materialize v) (fun _ => True).
Proof.
  intros Hv cc. destruct v; try done. cbn [materialize]. wp_view_le. by apply wp_view_bytes.
Qed.

Lemma as_parsed_pure {A} (parse : list Ascii.ascii -> option A) msg v :
  pure_op (as_parsed parse msg v) (fun _ => True).
Proof. intros cc. destruct v; try done. unfold as_parsed. wp_go. Qed.

Lemma as_pure {A} (as_ : RuntimeValue -> M A) v :
  (exists a, as_ v = mret a) \/ (exists s, as_ v = fail s) -> pure_op (as_ v) (fun _ => True).
Proof. intros [[a ->]|[s ->]] cc; done. Qed.

Lemma pure_weaken {A} (m : M A) (D D' : A -> Prop) :
  (forall a, D a -> D' a) -> pure_op m D -> pure_op m D'.
Proof.
  intros HD Hm cc. eapply (wpc_mono P P m); [exact (fun p => p)| |apply Hm]. cbn. intros a c' [-> Ha]. split; [done|]. by apply HD.
Qed.
End Ops.

#[export] Hint Resolve text_builder_new_ok text_index_new_ok text_builder_append_ok
  text_builder_append_codepoint_ok text_builder_append_ascii_ok
  text_builder_append_slice_ok text_builder_append_int_ok text_builder_finish_ok
  stdout_write_builder_ok text_index_get_ok text_index_contains_ok
  text_index_get_or_insert_ok text_index_set_ok text_index_keys_ok list_new_ok list_from_ok
  list_len_ok list_get_ok list_set_ok list_push_ok list_sort_ok text_concat_ok
  text_slice_ok bytes_slice_ok text_byte_ok bytes_byte_ok text_cmp_ok text_eq_range_ok
  bytes_field_ok text_line_end_ok text_next_line_ok text_field_ok text_from_f64_fixed_ok
  arg_text_ok stdout_write_ok parse_i32_range_ok load_param_ok load_local_ok make_enum_ok
  make_record_ok field_ok enum_tag_eq_ok enum_payload_ok enum_to_i32_ok enum_to_text_ok
  run_bitwise_ok run_shift_ok run_comparison_ok run_equality_ok boolean_ok
  assert_contract_ok run_div_ok text_find_byte_range_ok store_local_ok set_ok : sarif.
