(* ===== verification/Safety.v ===== *)
(** * The MIR interpreter: static conditions and what they guarantee

    [safe_inst] is what the interpreter takes for granted about an instruction
    when it indexes the value and slot vectors; [insts_ok] asks it of a whole
    body.  Under it no run panics ([exec_ok]); without it every run still keeps
    the invariant of [Invariant.v]. *)
From stdpp Require Import gmap pretty.
From S2P Require Import Prelude Syntax Utf8 TextOps Float64 Mir Interp Exec Machine Eval.
From S2P Require Import Invariant.

Open Scope nat_scope.

(** ** Conditions on one instruction *)

(** The destination of an instruction that has one. *)
Definition inst_dest (i : Inst) : option ValueId :=
  match i with
  | I_TextBuilderNew d | I_TextIndexNew d | I_TextBuilderAppend d _ _
  | I_TextBuilderAppendCodepoint d _ _ | I_TextBuilderAppendAscii d _ _
  | I_TextBuilderAppendSlice d _ _ _ _ | I_TextBuilderAppendI32 d _ _
  | I_TextBuilderAppendI64 d _ _ | I_TextBuilderFinish d _ | I_TextIntern d _
  | I_StdoutWriteBuilder d _ | I_TextIndexGet d _ _ | I_TextIndexContains d _ _
  | I_TextIndexGetOrInsert d _ _ _ | I_TextIndexSet d _ _ _ | I_TextIndexKeys d _
  | I_ListNew d _ _ | I_ListFrom d _ _ | I_ListLen d _ | I_ListGet d _ _ | I_ListSet d _ _ _
  | I_ListPush d _ _ _ | I_ListSortText d _ _ | I_ListSortRecordTextField d _ _ _
  | I_ListSortRecordField d _ _ _ | I_F64FromI32 d _ | I_I64FromI32 d _ | I_F64FromI64 d _
  | I_TextLen d _ | I_BytesLen d _ | I_BytesToText d _ | I_TextToBytes d _
  | I_BytesMaterialize d _ | I_TextConcat d _ _ | I_TextSlice d _ _ _ | I_BytesSlice d _ _ _
  | I_TextByte d _ _ | I_BytesByte d _ _ | I_TextCmp d _ _ | I_TextEqRange d _ _ _ _
  | I_TextFindByteRange d _ _ _ _ | I_BytesFindByteRange d _ _ _ _ | I_BytesFieldEnd d _ _ _ _
  | I_BytesNextField d _ _ _ _ | I_TextLineEnd d _ _ | I_TextNextLine d _ _
  | I_TextFieldEnd d _ _ _ _ | I_TextNextField d _ _ _ _ | I_TextFromF64Fixed d _ _
  | I_FileIsValid d _ | I_ArgCount d | I_ArgText d _ | I_StdinText d | I_StdinBytes d
  | I_ParseI32 d _ | I_ParseI32Range d _ _ _ | I_ParseF64 d _ | I_LoadParam d _ | I_LoadLocal d _
  | I_ConstInt d _ | I_ConstF64 d _ | I_ConstBool d _ | I_ConstText d _ | I_MakeEnum d _ _ _
  | I_MakeRecord d _ _ | I_Field d _ _ | I_EnumTagEq d _ _ | I_EnumPayload d _ _ | I_EnumToI32 d _ _
  | I_EnumToText d _ _ | I_If d _ _ _ _ _ | I_While d _ _ _ | I_Repeat d _ _ _
  | I_Add d _ _ | I_Sub d _ _ | I_Mul d _ _ | I_Div d _ _ | I_Rem d _ _
  | I_BitAnd d _ _ | I_BitOr d _ _ | I_BitXor d _ _ | I_Shl d _ _ | I_Shr d _ _ | I_Sqrt d _
  | I_And d _ _ | I_Or d _ _ | I_Eq d _ _ | I_Ne d _ _ | I_Lt d _ _ | I_Le d _ _ | I_Gt d _ _
  | I_Ge d _ _ | I_Call d _ _ | I_Perform d _ _ _ | I_Handle d _ _ _ => Some d
  | I_StoreLocal _ _ | I_StdoutWrite _ | I_TcpListen _ _ | I_TcpAccept _ _ | I_TcpRecv _ _ _
  | I_TcpSend _ _ _ | I_TcpClose _ | I_AllocPush | I_AllocPop | I_Assert _ _ => None
  end.

(** Whatever the values are, the instruction does not panic in a frame of [nv]
    values and [ns] slots.  A division may meet a zero or [i64::MIN / -1], a
    range of [Bytes] a byte that continues a character, a list may be made too
    large for the address space, and a sort may meet values that its comparison
    does not order. *)
Definition safe_inst (overflow : bool) (nv ns : nat) (i : Inst) : bool :=
  match inst_dest i with Some d => d <? nv | None => true end &&
  match i with
  | I_StoreLocal slot _ | I_Repeat _ _ (Some slot) _ => slot <? ns
  | I_Add _ l r | I_Sub _ l r | I_Mul _ l r => negb overflow && (l <? nv) && (r <? nv)
  | I_Lt _ l r | I_Le _ l r | I_Gt _ l r | I_Ge _ l r => (l <? nv) && (r <? nv)
  | I_Div _ _ _ | I_Rem _ _ _ | I_TextFindByteRange _ _ _ _ _ => false
  | I_ListNew _ _ _ | I_ListPush _ _ _ _ => false
  | I_ListSortText _ _ _ | I_ListSortRecordTextField _ _ _ _ | I_ListSortRecordField _ _ _ _ => false
  | I_ListFrom _ _ len => (Z.of_nat len <? 2 ^ 32)%Z
  | _ => true
  end.

(** Its literals are Rust strings. *)
Definition const_ok (i : Inst) : bool :=
  match i with
  | I_ConstText _ s => text_ok s
  | I_MakeEnum _ _ variant _ => text_ok variant
  | _ => true
  end.

Record env_ok (env : Env) : Prop := {
  args_ok : Forall (fun s => text_ok s = true) (program_args env);
  stdin_ok : text_ok (stdin_text env) = true
}.

(** ** Conditions on bodies and programs *)

(** [p] of every instruction, [q] of those of handler arms: an arm runs in the
    frame of whatever function performs its operation. *)
Fixpoint inst_all (p q : Inst -> bool) (i : Inst) : bool :=
  p i &&
  match i with
  | I_If _ _ then_insts _ else_insts _ =>
      forallb (inst_all p q) then_insts && forallb (inst_all p q) else_insts
  | I_While _ condition_insts _ body_insts =>
      forallb (inst_all p q) condition_insts && forallb (inst_all p q) body_insts
  | I_Repeat _ _ _ body_insts => forallb (inst_all p q) body_insts
  | I_Handle _ body_insts _ arms =>
      forallb (inst_all p q) body_insts &&
      forallb (fun '(mkHandleArm _ _ _ arm_insts _) => forallb (inst_all q q) arm_insts) arms
  | _ => true
  end.

Lemma inst_all_head p q i : inst_all p q i = true -> p i = true.
Proof. destruct i; cbn; by intros [? _]%andb_true_iff. Qed.

Section Checks.
Context (strict overflow : bool).

(** With [strict], safe too. *)
Definition check (nv ns : nat) (i : Inst) : bool :=
  const_ok i && (negb strict || safe_inst overflow nv ns i).

(** The sizes of a function's frame. *)
Definition value_room (f : Function) : nat := Nat.max (fn_value_count f) 1.
Definition slot_room (f : Function) : nat := Nat.max (fn_slot_count f) 1.

Definition insts_ok (nv ns av as_ : nat) (insts : list Inst) : bool :=
  forallb (inst_all (check nv ns) (check av as_)) insts.

(** [av] and [as_] fit in every frame of the program. *)
Definition function_ok (av as_ : nat) (f : Function) : bool :=
  (av <=? value_room f) && (as_ <=? slot_room f) &&
  insts_ok (value_room f) (slot_room f) av as_ (fn_instructions f).

Definition program_ok (av as_ : nat) (p : Program) : bool :=
  forallb (function_ok av as_) (program_functions p).
End Checks.

Section Simple.
Context `{PlatformOk} (env : Env) (Henv : env_ok env).

Lemma safe_dest overflow nv ns i d :
  inst_dest i = Some d -> nv <= d -> safe_inst overflow nv ns i = false.
Proof. intros Hd Hle%Nat.ltb_ge. unfold safe_inst. by rewrite Hd, Hle. Qed.

Lemma ltb_out x y : y <= x -> (x <? y) = false.
Proof. apply Nat.ltb_ge. Qed.

(** A list of more than 32 bits of elements is not safe. *)
Lemma vec_unfit n : vec_fits (Z.of_nat n) = false -> (Z.of_nat n <? 2 ^ 32)%Z = false.
Proof.
  intros Hf. apply Z.ltb_ge. destruct (Z.leb_spec (2 ^ 32) (Z.of_nat n)); [done|].
  by rewrite vec_fits_small in Hf by lia.
Qed.

(** Why a check failed. *)
Ltac unsafe :=
  intros; unfold safe_inst; cbn [inst_dest];
  repeat match goal with
    | H : _ <= ?x |- context [?x <? _] => rewrite (ltb_out _ _ H)
    | H : overflow_checks _ = true |- _ => rewrite H
    | H : vec_fits _ = false |- _ => rewrite (vec_unfit _ H)
    end; rewrite ?andb_false_r; reflexivity.
#[local] Hint Extern 1 (safe_inst _ _ _ _ = false) => unsafe : sarif.

(** Every instruction without control keeps the invariant; if it panics, it is
    not safe. *)
Lemma simple_ok f args i m c0 c :
  simple env f args i = Some m -> inv c0 c -> values_ok args -> const_ok i = true ->
  wp (safe_inst (overflow_checks env) (length (values c0)) (length (slots c0)) i = false)
    m (fun _ c' => inv c0 c') c.
Proof.
  intros Hm Hinv Hargs Hconst. destruct i; cbn [simple] in Hm;
    first [discriminate Hm | injection Hm as <-].
  all: try solve [eauto 3 using args_ok, stdin_ok with sarif].
  all: try (apply convert_ok; [exact Hinv | unsafe | intros v Hv]).
  all: try (apply run_arithmetic_ok; [exact Hinv | unsafe | unsafe | unsafe | intros x y]).
  all: try first [apply checked_pure; unsafe | apply int_rem_pure; unsafe].
  all: try first [by apply as_text_pure | eapply pure_weaken; [|by apply materialize_pure]; intros; first [apply from_utf8_lossy_utf8|done]
    | by eapply pure_weaken, as_parsed_pure
    | eapply pure_weaken, as_pure; [done|]; destruct v; eauto].
  1: wp_go; unsafe.
  all: try (unfold unsupported; wp_go).
Qed.
End Simple.

(** A larger frame is as safe. *)
Lemma safe_inst_mono o nv ns nv' ns' i :
  nv <= nv' -> ns <= ns' -> safe_inst o nv ns i = true -> safe_inst o nv' ns' i = true.
Proof.
  intros Hv Hs.
  assert (Hlt : forall x, (x <? nv) = true -> (x <? nv') = true).
  { intros x. rewrite !Nat.ltb_lt. lia. }
  assert (Hlt' : forall x, (x <? ns) = true -> (x <? ns') = true).
  { intros x. rewrite !Nat.ltb_lt. lia. }
  unfold safe_inst. rewrite !andb_true_iff. intros [Hd Hi]. split.
  - destruct (inst_dest i); [by apply Hlt|done].
  - destruct i; try done; try (by apply Hlt'); try (destruct index_slot; [by apply Hlt'|done]);
      rewrite !andb_true_iff in *; destruct_and?; auto.
Qed.

Lemma find_last_In {A} (key : A -> string) name l a : find_last key name l = Some a -> In a l.
Proof.
  unfold find_last. assert (forall o, fold_left (fun found a => if String.eqb (key a) name then Some a else found) l o
    = Some a -> In a l \/ o = Some a) as Hg; [|intros [?|?]%Hg; done].
  induction l as [|b l IH]; intros o; cbn; [by right|]. intros [?|Hb]%IH; [by left; right|].
  destruct (String.eqb (key b) name); [|by right]. injection Hb as <-. by left; left.
Qed.

(** ** Runs *)
Section Runs.
Context `{PlatformOk} (env : Env) (Henv : env_ok env) (strict : bool) (av as_ : nat).
Context (Hprog : program_ok strict (overflow_checks env) av as_ (program env) = true).

Abbreviation body_ok := (insts_ok strict (overflow_checks env)).

(** The frame is the function's, which is one of the program. *)
Record fits (f : Function) (c : Core) : Prop := {
  fits_program : In f (program_functions (program env));
  fits_values : length (values c) = value_room f;
  fits_slots : length (slots c) = slot_room f
}.

Definition arms_ok (hs : list (list HandleArm)) : Prop :=
  Forall (Forall (fun arm => body_ok av as_ av as_ (arm_body_insts arm) = true)) hs.

(** A run that ends well keeps the invariant; one that panics was not strict. *)
Definition good (c : Core) (r : EvalResult) : Prop :=
  match r with
  | EOk c' => inv c c'
  | EPanic => strict = false
  | _ => True
  end.

Lemma good_seq c r k :
  good c r -> (forall c', inv c c' -> good c' (k c')) -> good c (seq_eval r k).
Proof.
  destruct r as [c'| | |]; cbn; try done. intros Hr Hk. specialize (Hk c' Hr).
  destruct (k c'); cbn in *; try done. destruct Hk as [Hc Hf]. split; [done|].
  etrans; [apply Hr|exact Hf].
Qed.

Lemma good_then {A} (P : Prop) (m : M A) Q c c0 k :
  wp P m Q c -> (P -> strict = false) -> (forall a c', Q a c' -> good c0 (k a c')) ->
  good c0 (eval_then (m c) k).
Proof. unfold wp. destruct (m c) as [[a c']|[]|]; cbn; intros Hm HP HQ; auto. Qed.

Lemma good_weaken c c' r : inv c c' -> good c' r -> good c r.
Proof.
  intros [_ Hf]. destruct r; cbn; try done. intros [Hc Hf']. split; [done|]. by etrans.
Qed.

Lemma inv_self c : core_ok c -> inv c c.
Proof. intros Hc. by split. Qed.

Lemma fits_frame f c c' : frame c c' -> fits f c -> fits f c'.
Proof. intros Hf [? Hv Hs]. split; [done|by rewrite (frame_values _ _ Hf)|by rewrite (frame_slots _ _ Hf)]. Qed.

Lemma fresh_length n : length (fresh n) = Nat.max n 1.
Proof. apply length_replicate. Qed.

Lemma fresh_ok n : values_ok (fresh n).
Proof. by apply Forall_replicate. Qed.

Lemma result_or_unit_ok vs r : values_ok vs -> value_ok (result_or_unit vs r) = true.
Proof.
  intros Hvs. destruct r as [r|]; cbn; [|done]. destruct (vs !! r) as [v|] eqn:Hv; [|done].
  by apply (values_lookup _ _ _ Hvs Hv).
Qed.

Lemma wp_result_or_fail P r msg c0 c (Q : _ -> Core -> Prop) :
  inv c0 c -> (forall v, value_ok v = true -> Q v c) -> wp P (result_or_fail r msg) Q c.
Proof.
  intros Hc HQ. destruct r as [r|]; cbn [result_or_fail]; [|by apply wpc_ret, HQ].
  apply wpc_bind. eapply wp_get_values; [exact Hc|]. intros Hvs _. apply wp_or_fail.
  intros v Hv. by apply HQ, (values_lookup _ _ _ Hvs Hv).
Qed.

Lemma wp_set_optional_slot slot v c0 c P :
  inv c0 c -> value_ok v = true ->
  (match slot with Some s => length (slots c0) <= s -> P | None => True end) ->
  wp P (set_optional_slot slot v) (fun _ c' => inv c0 c') c.
Proof.
  intros Hc Hv HP. destruct slot as [s|]; cbn; [|by apply wpc_ret].
  eapply wp_set_slot; [exact Hc|done|done|done].
Qed.

(** The end of an instruction that writes its result. *)
Lemma good_set dest v c :
  core_ok c -> value_ok v = true -> (length (values c) <= dest -> strict = false) ->
  good c (eval_then (set_value dest v c) (fun _ c' => EOk c')).
Proof.
  intros Hc Hv HP. eapply good_then with (P := strict = false) (Q := fun _ c' => inv c c').
  - eapply wp_set_value; [by apply inv_self|done|exact HP|]. intros c' Hc'. exact Hc'.
  - done.
  - done.
Qed.

(** The core of a run in a frame of its own, put back. *)
Lemma restore_inv c c1 c2 h :
  core_ok c -> inv c1 c2 -> heap c1 = h ->
  text_builders h = text_builders (heap c) -> text_indices h = text_indices (heap c) ->
  lists h = lists (heap c) -> stdout_text h = stdout_text (heap c) ->
  forall h', h' = set_handlers (heap c2) (handlers (heap c)) ->
  inv c (mkCore h' (values c) (slots c)).
Proof.
  intros [Hh Hvs Hss] [[[Hi Hl Ho] _ _] [_ _ _ Fb Fi Fl Fs]] <- Eb Ei El Es h' ->.
  rewrite Eb in Fb. rewrite Ei in Fi. rewrite El in Fl. rewrite Es in Fs.
  split; split; try done; by split.
Qed.

(** ** The four functions of the structured semantics *)

Section Claims.
Context (f : Function) (args : list RuntimeValue) (nv ns : nat).

(** What a run may start from. *)
Record start (c : Core) : Prop := {
  start_core : core_ok c;
  start_args : values_ok args;
  start_fits : fits f c;
  start_arms : arms_ok (handlers (heap c));
  start_room : nv <= value_room f /\ ns <= slot_room f
}.

Lemma start_inv c c' : inv c c' -> start c -> start c'.
Proof.
  intros [Hc Hf] [? ? ? ? ?]. split; try done.
  - by eapply fits_frame.
  - by rewrite (frame_handlers _ _ Hf).
Qed.

(** An instruction that may panic is not strict. *)
Lemma unsafe_check c i :
  start c -> check strict (overflow_checks env) nv ns i = true ->
  safe_inst (overflow_checks env) (length (values c)) (length (slots c)) i = false -> strict = false.
Proof.
  intros [_ _ [_ Hv Hs] _ [Hnv Hns]]. unfold check. rewrite andb_true_iff, orb_true_iff.
  intros [_ [Hstrict%negb_true_iff|Hsafe]] Hun; [done|].
  rewrite (safe_inst_mono _ nv ns (length (values c)) (length (slots c)) i) in Hun by (done || lia). done.
Qed.

Lemma dest_unsafe c i d :
  start c -> check strict (overflow_checks env) nv ns i = true -> inst_dest i = Some d ->
  length (values c) <= d -> strict = false.
Proof. intros Hs Hc Hd Hle. eapply unsafe_check; [done|done|]. by eapply safe_dest. Qed.
End Claims.

Definition good_exec (n : nat) : Prop := forall f args nv ns insts c,
  start f args nv ns c -> body_ok nv ns av as_ insts = true -> good c (exec env n f args insts c).

Definition good_inst (n : nat) : Prop := forall f args nv ns i c,
  start f args nv ns c -> body_ok nv ns av as_ [i] = true -> good c (exec_inst env n f args i c).

Definition good_while (n : nat) : Prop := forall f args nv ns ci cond body c,
  start f args nv ns c -> body_ok nv ns av as_ ci = true -> body_ok nv ns av as_ body = true ->
  good c (exec_while env n f args ci cond body c).

Definition good_repeat (n : nat) : Prop := forall f args nv ns body slot count index c,
  start f args nv ns c -> body_ok nv ns av as_ body = true ->
  (match slot with Some s => length (slots c) <= s -> strict = false | None => True end) ->
  good c (exec_repeat env n f args body slot count index c).

Lemma exec_good n : good_exec n -> good_inst n -> good_exec (S n).
Proof.
  intros He Hi f args nv ns insts c Hs Hok. cbn [exec].
  destruct insts as [|i rest]; [apply inv_self, Hs|].
  cbn [forallb] in Hok. apply andb_true_iff in Hok as [Hok Hrest]. apply good_seq.
  - eapply Hi; [exact Hs|]. cbn. by rewrite Hok.
  - intros c' Hc'. eapply He; [by eapply start_inv|done].
Qed.

Lemma while_good n : good_exec n -> good_while n -> good_while (S n).
Proof.
  intros He Hw f args nv ns ci cond body c Hs Hci Hbody. cbn [exec_while].
  apply good_seq; [by eapply He|]. intros c1 Hc1.
  eapply good_then with (P := False) (Q := fun _ c2 => inv c1 c2).
  - apply (wp_extract_bool _ c1); [by apply inv_self, Hc1|]. intros b. by apply inv_self, Hc1.
  - done.
  - intros b c2 Hc2. eapply good_weaken; [exact Hc2|].
    assert (start f args nv ns c2) as Hs2 by (do 2 (eapply start_inv; [done|]); done).
    destruct b; [|by apply inv_self, Hs2].
    apply good_seq; [by eapply He|]. intros c3 Hc3. eapply Hw; [by eapply start_inv|done..].
Qed.

Lemma repeat_good_0 : good_repeat 0.
Proof.
  intros f args nv ns body slot count index c Hs Hbody Hslot. cbn [exec_repeat].
  destruct (index <? count)%Z; [|by apply inv_self, Hs].
  eapply good_then; [by eapply (wp_set_optional_slot slot _ c c), Hslot; [apply inv_self, Hs|]|done..].
Qed.

Lemma repeat_good n : good_exec n -> good_repeat n -> good_repeat (S n).
Proof.
  intros He Hr f args nv ns body slot count index c Hs Hbody Hslot. cbn [exec_repeat].
  destruct (index <? count)%Z; [|by apply inv_self, Hs].
  eapply good_then; [by eapply (wp_set_optional_slot slot _ c c), Hslot; [apply inv_self, Hs|]|done|].
  intros [] c1 Hc1. eapply good_weaken; [exact Hc1|]. cbn beta in Hc1.
  assert (start f args nv ns c1) as Hs1 by by eapply start_inv.
  apply good_seq; [by eapply He|]. intros c2 Hc2. eapply Hr; [by eapply start_inv|done|].
  destruct slot; [|done]. by rewrite (frame_slots _ _ (proj2 Hc2)), (frame_slots _ _ (proj2 Hc1)).
Qed.

(** A run in a frame of its own. *)
Lemma fresh_start g args' h nv ns :
  In g (program_functions (program env)) -> heap_ok h -> values_ok args' -> arms_ok (handlers h) ->
  nv <= value_room g -> ns <= slot_room g ->
  start g args' nv ns (mkCore h (fresh (fn_value_count g)) (fresh (fn_slot_count g))).
Proof.
  intros. split; [|done| |done|done].
  - split; [done|apply fresh_ok..].
  - split; [done|apply fresh_length..].
Qed.

Lemma program_function g :
  In g (program_functions (program env)) ->
  av <= value_room g /\ as_ <= slot_room g /\
  body_ok (value_room g) (slot_room g) av as_ (fn_instructions g) = true.
Proof.
  intros Hg. pose proof (proj1 (forallb_forall _ _) Hprog g Hg) as Hok. unfold function_ok in Hok.
  rewrite !andb_true_iff, !Nat.leb_le in Hok. by destruct Hok as [[? ?] ?].
Qed.

Lemma find_arm_ok hs effect operation arm :
  arms_ok hs -> find_arm hs effect operation = Some arm ->
  body_ok av as_ av as_ (arm_body_insts arm) = true.
Proof.
  intros Hhs. unfold find_arm. assert (arms_ok (rev hs)) as Hrev.
  { by apply Forall_rev. }
  induction (rev hs) as [|arms l IH]; [done|]. inversion Hrev as [|? ? Harms Hl]; subst.
  destruct (List.find _ arms) as [a|] eqn:Hf; [|by apply IH]. intros [= <-].
  apply find_some in Hf as [Hin _]. rewrite Forall_forall in Harms. by apply Harms, list_elem_of_In.
Qed.

(** The end of a body: its result goes to [dest]. *)
Lemma good_end f args nv ns i d r c :
  start f args nv ns c -> check strict (overflow_checks env) nv ns i = true -> inst_dest i = Some d ->
  good c (eval_then (set_value d (result_or_unit (values c) r) c) (fun _ c' => EOk c')).
Proof.
  intros Hs Hi Hd. apply good_set; [apply Hs|apply result_or_unit_ok, Hs|].
  by eapply dest_unsafe.
Qed.

Lemma good_unit f args nv ns i d c :
  start f args nv ns c -> check strict (overflow_checks env) nv ns i = true -> inst_dest i = Some d ->
  good c (eval_then (set_value d V_Unit c) (fun _ c' => EOk c')).
Proof. intros Hs Hi Hd. apply good_set; [apply Hs|done|]. by eapply dest_unsafe. Qed.

(** The start of the runs inside an instruction. *)
Lemma good_then_in {A} (m : M A) (D : A -> Prop) f args nv ns c k :
  start f args nv ns c -> wp False m (fun a c' => inv c c' /\ D a) c ->
  (forall a c', inv c c' -> D a -> start f args nv ns c' -> good c' (k a c')) ->
  good c (eval_then (m c) k).
Proof.
  intros Hs Hm Hk. eapply good_then; [exact Hm|done|]. intros a c' [Hc' Ha].
  eapply good_weaken; [exact Hc'|]. apply Hk; [done|done|by eapply start_inv].
Qed.

Lemma if_good n f args nv ns dest cond t tr e er c :
  good_exec n -> start f args nv ns c -> body_ok nv ns av as_ [I_If dest cond t tr e er] = true ->
  good c (exec_inst env (S n) f args (I_If dest cond t tr e er) c).
Proof.
  intros He Hs Hok. unfold insts_ok in Hok; cbn [forallb inst_all] in Hok; rewrite !andb_true_iff in Hok.
  destruct Hok as [[Hi [Ht Hel]] _]. cbn [exec_inst].
  eapply good_then_in with (D := fun _ => True); [exact Hs| |].
  { eapply wp_extract_bool; [by apply inv_self, Hs|]. intros b. split; [by apply inv_self, Hs|done]. }
  intros b c1 Hc1 _ Hs1. apply good_seq.
  - eapply He; [exact Hs1|]. by destruct b.
  - intros c2 Hc2. eapply good_end; [by eapply start_inv|exact Hi|done].
Qed.

Lemma loop_inst_good n f args nv ns dest ci cond body c :
  good_while n -> start f args nv ns c -> body_ok nv ns av as_ [I_While dest ci cond body] = true ->
  good c (exec_inst env (S n) f args (I_While dest ci cond body) c).
Proof.
  intros Hw Hs Hok. unfold insts_ok in Hok; cbn [forallb inst_all] in Hok; rewrite !andb_true_iff in Hok.
  destruct Hok as [[Hi [Hci Hb]] _]. cbn [exec_inst]. apply good_seq; [by eapply Hw|].
  intros c1 Hc1. eapply good_unit; [by eapply start_inv|exact Hi|done].
Qed.

Lemma repeat_inst_good n f args nv ns dest count slot body c :
  good_repeat n -> start f args nv ns c -> body_ok nv ns av as_ [I_Repeat dest count slot body] = true ->
  good c (exec_inst env (S n) f args (I_Repeat dest count slot body) c).
Proof.
  intros Hr Hs Hok. unfold insts_ok in Hok; cbn [forallb inst_all] in Hok; rewrite !andb_true_iff in Hok.
  destruct Hok as [[Hi Hb] _]. cbn [exec_inst].
  eapply good_then_in with (D := fun _ => True); [exact Hs| |].
  { eapply wp_extract_int; [by apply inv_self, Hs|]. intros z. split; [by apply inv_self, Hs|done]. }
  intros z c1 Hc1 _ Hs1. apply good_seq.
  - eapply Hr; [exact Hs1|done|]. destruct slot as [slot|]; [|done]. intros Hle.
    eapply unsafe_check; [exact Hs1|exact Hi|]. unfold safe_inst. rewrite (ltb_out _ _ Hle). apply andb_false_r.
  - intros c2 Hc2. eapply good_unit; [by eapply start_inv|exact Hi|done].
Qed.

Lemma call_good n f args nv ns dest callee refs c :
  good_exec n -> start f args nv ns c -> body_ok nv ns av as_ [I_Call dest callee refs] = true ->
  good c (exec_inst env (S n) f args (I_Call dest callee refs) c).
Proof.
  intros He Hs Hok. unfold insts_ok in Hok; cbn [forallb inst_all] in Hok; rewrite !andb_true_iff in Hok.
  destruct Hok as [[Hi _] _]. rewrite exec_call.
  eapply (good_then False _ (fun '(g, args') c1 => In g (program_functions (program env)) /\ values_ok args' /\
    c1 = mkCore (heap c) (fresh (fn_value_count g)) (fresh (fn_slot_count g)))); [|done|].
  { apply wpc_bind, wp_or_fail. intros g Hg%find_last_In.
    apply wpc_bind. eapply wp_arguments; [by apply inv_self, Hs|]. intros vs Hvs. by split. }
  intros [g args'] c1 (Hg & Hargs' & ->). destruct (program_function g Hg) as (Hav & Has & Hbody).
  pose proof (fresh_start g args' (heap c) (value_room g) (slot_room g) Hg
    (core_heap_ok _ (start_core _ _ _ _ _ Hs)) Hargs' (start_arms _ _ _ _ _ Hs)
    (le_n _) (le_n _)) as Hs1.
  pose proof (He g args' _ _ _ _ Hs1 Hbody) as Hr. destruct (exec env n g args' _ _) as [c2| | |]; try done.
  cbn [good] in Hr. cbn [seq_eval eval_then mbind put_frame].
  set (c3 := mkCore (heap c2) (values c) (slots c)).
  assert (inv c c3) as Hc3.
  { eapply (restore_inv c _ c2 (heap c)); [apply Hs|exact Hr|done..|]. cbn.
    pose proof (frame_handlers _ _ (proj2 Hr)) as Hh. cbn in Hh. rewrite <- Hh. by destruct (heap c2). }
  eapply good_weaken; [exact Hc3|].
  apply good_set; [apply Hc3|apply result_or_unit_ok, Hr|]. eapply dest_unsafe; [|exact Hi|done].
  by eapply start_inv.
Qed.

Lemma perform_good n f args nv ns dest effect operation refs c :
  good_exec n -> start f args nv ns c -> body_ok nv ns av as_ [I_Perform dest effect operation refs] = true ->
  good c (exec_inst env (S n) f args (I_Perform dest effect operation refs) c).
Proof.
  intros He Hs Hok. unfold insts_ok in Hok; cbn [forallb inst_all] in Hok; rewrite !andb_true_iff in Hok.
  destruct Hok as [[Hi _] _]. rewrite exec_perform.
  eapply good_then_in with (D := values_ok); [exact Hs| |].
  { eapply wp_arguments; [by apply inv_self, Hs|]. intros vs Hvs. split; [by apply inv_self, Hs|done]. }
  intros args' c1 Hc1 Hargs' Hs1.
  destruct (find_arm (handlers (heap c1)) effect operation) as [arm|] eqn:Harm; [|done].
  destruct (program_function f (fits_program _ _ (start_fits _ _ _ _ _ Hs))) as (Hav & Has & _).
  assert (start f args' av as_ c1) as Hs2 by (destruct Hs1; by split).
  apply good_seq.
  { eapply He; [exact Hs2|]. eapply find_arm_ok, Harm. apply Hs1. }
  intros c2 Hc2. assert (start f args nv ns c2) as Hs3 by by eapply start_inv.
  eapply good_then with (P := strict = false) (Q := fun _ c' => inv c2 c'); [|done..].
  apply wpc_bind. eapply wp_result_or_fail; [by apply inv_self, Hs3|]. intros v Hv.
  eapply wp_set_value; [by apply inv_self, Hs3|done| |done].
  by eapply dest_unsafe.
Qed.

(** The frame is put back and the handler popped before [dest] is written. *)
Lemma set_value_pop dest v vs ss c :
  (let! _ := put_frame vs ss in let! _ := set_value dest v in pop_handler) c
  = set_value dest v (mkCore (set_handlers (heap c) (removelast (handlers (heap c)))) vs ss).
Proof.
  unfold mbind, put_frame, set_value. cbn [values]. by destruct (dest <? length vs).
Qed.

Lemma push_frame arms vs ss c :
  (let! _ := push_handler arms in put_frame vs ss) c
  = Ok (tt, mkCore (set_handlers (heap c) (handlers (heap c) ++ [arms])) vs ss).
Proof. reflexivity. Qed.

Lemma eval_then_bind {A B} (m : M A) (g : A -> M B) c k :
  eval_then ((let! a := m in g a) c) k = eval_then (m c) (fun a c' => eval_then (g a c') k).
Proof. unfold mbind. by destruct (m c) as [[a c']|e|]. Qed.

(** The frame of a handled body. *)
Lemma handle_start f args nv ns arms c :
  start f args nv ns c ->
  forallb (fun '(mkHandleArm _ _ _ arm_insts _) => body_ok av as_ av as_ arm_insts) arms = true ->
  start f [] nv ns (mkCore (set_handlers (heap c) (handlers (heap c) ++ [arms]))
                      (fresh (fn_value_count f)) (fresh (fn_slot_count f))).
Proof.
  intros [[[? ? ?] _ _] _ [? _ _] Harms [? ?]] Hok.
  apply fresh_start; [done|by split|by constructor| |done|done].
  apply Forall_app_2; [done|]. constructor; [|done]. apply Forall_forall. intros arm Harm.
  rewrite forallb_forall in Hok. specialize (Hok arm (proj1 (list_elem_of_In _ _) Harm)).
  by destruct arm.
Qed.

Lemma handle_good n f args nv ns dest body_insts body_result arms c :
  good_exec n -> start f args nv ns c ->
  body_ok nv ns av as_ [I_Handle dest body_insts body_result arms] = true ->
  good c (exec_inst env (S n) f args (I_Handle dest body_insts body_result arms) c).
Proof.
  intros He Hs Hok. unfold insts_ok in Hok; cbn [forallb inst_all] in Hok; rewrite !andb_true_iff in Hok.
  destruct Hok as [[Hi [Hbody Harms]] _]. rewrite exec_handle, push_frame. cbn [eval_then].
  set (h1 := set_handlers (heap c) (handlers (heap c) ++ [arms])).
  pose proof (handle_start _ _ _ _ _ _ Hs Harms) as Hs1.
  pose proof (He f [] _ _ _ _ Hs1 Hbody) as Hr.
  destruct (exec env n f [] body_insts _) as [c2| | |]; try done.
  cbn [good] in Hr. cbn [seq_eval]. rewrite eval_then_bind.
  eapply good_then with (P := False) (Q := fun v c' => value_ok v = true /\ c' = c2).
  { eapply wp_result_or_fail; [by apply inv_self, Hr|]. by intros v Hv. }
  { done. }
  intros v c' [Hv ->]. rewrite set_value_pop.
  assert (removelast (handlers (heap c2)) = handlers (heap c)) as Hpop.
  { rewrite (frame_handlers _ _ (proj2 Hr)). apply removelast_last. }
  rewrite Hpop.
  assert (inv c (mkCore (set_handlers (heap c2) (handlers (heap c))) (values c) (slots c))) as Hc3.
  { by eapply (restore_inv c _ c2 h1); [apply Hs|exact Hr|..]. }
  eapply good_weaken; [exact Hc3|]. apply good_set; [apply Hc3|done|].
  eapply dest_unsafe; [|exact Hi|done]. by eapply start_inv.
Qed.

Lemma inst_good n : good_exec n -> good_while n -> good_repeat n -> good_inst (S n).
Proof.
  intros He Hw Hr f args nv ns i c Hs Hok.
  destruct (simple env f args i) as [m|] eqn:Hm.
  - rewrite (exec_inst_simple _ _ _ _ _ _ _ Hm). unfold insts_ok in Hok; cbn [forallb] in Hok.
    assert (check strict (overflow_checks env) nv ns i = true) as Hi.
    { apply andb_true_iff in Hok as [Hok _]. by eapply inst_all_head. }
    eapply good_then with (Q := fun _ c' => inv c c').
    + eapply simple_ok; [exact Henv|exact Hm|by apply inv_self, Hs|apply Hs|].
      by apply andb_true_iff in Hi as [Hi _].
    + by eapply unsafe_check.
    + done.
  - destruct i; try discriminate Hm.
    + by eapply if_good.
    + by eapply loop_inst_good.
    + by eapply repeat_inst_good.
    + by eapply call_good.
    + by eapply perform_good.
    + by eapply handle_good.
Qed.

Lemma all_good n : (good_exec n /\ good_while n /\ good_repeat n) /\ good_inst n.
Proof.
  induction n as [|n [(He & Hw & Hr) Hi]].
  - split; [|done]. split; [done|]. split; [done|exact repeat_good_0].
  - split; [|by apply inst_good].
    split; [by apply exec_good|]. split; [by apply while_good|by apply repeat_good].
Qed.
End Runs.
