(* ===== verification/Effects.v ===== *)
(** * The MIR interpreter: effects

    A check of which operations a body may perform: those its handlers have arms
    for, those in [allowed], and those that the functions it calls announce in
    their signature [sig].  Under it no run unwinds to the caller. *)
From stdpp Require Import gmap pretty.
From S2P Require Import Prelude Syntax Utf8 TextOps Float64 Mir Interp Exec Machine Eval.
From S2P Require Import Invariant Safety.

Open Scope nat_scope.

Definition Operation : Type := string * string.

Definition arm_key (arm : HandleArm) : Operation := (arm_effect arm, arm_operation arm).

Section Check.
Context (sig : string -> list Operation).

Definition allows (allowed : list Operation) (op : Operation) : bool := bool_decide (op ∈ allowed).

Fixpoint effects_inst (allowed : list Operation) (i : Inst) : bool :=
  match i with
  | I_Perform _ effect operation _ => allows allowed (effect, operation)
  | I_Call _ callee _ => forallb (allows allowed) (sig callee)
  | I_If _ _ then_insts _ else_insts _ =>
      forallb (effects_inst allowed) then_insts && forallb (effects_inst allowed) else_insts
  | I_While _ condition_insts _ body_insts =>
      forallb (effects_inst allowed) condition_insts && forallb (effects_inst allowed) body_insts
  | I_Repeat _ _ _ body_insts => forallb (effects_inst allowed) body_insts
  | I_Handle _ body_insts _ arms =>
      let allowed' := map arm_key arms ++ allowed in
      forallb (effects_inst allowed') body_insts &&
      forallb (fun '(mkHandleArm _ _ _ arm_insts _) => forallb (effects_inst allowed') arm_insts) arms
  | _ => true
  end.

Definition effects_ok (allowed : list Operation) (insts : list Inst) : bool :=
  forallb (effects_inst allowed) insts.

Definition program_effects_ok (p : Program) : bool :=
  forallb (fun f => effects_ok (sig (fn_name f)) (fn_instructions f)) (program_functions p).

(** ** Handlers *)

Definition arm_matches (op : Operation) (arm : HandleArm) : bool :=
  String.eqb (arm_effect arm) op.1 && String.eqb (arm_operation arm) op.2.

Lemma arm_matches_key op arm : arm_matches op arm = true <-> arm_key arm = op.
Proof.
  unfold arm_matches, arm_key. rewrite andb_true_iff, !String.eqb_eq. destruct op; cbn.
  split; [by intros [-> ->]|by intros [= -> ->]].
Qed.

Definition covered (hs : list (list HandleArm)) (op : Operation) : Prop :=
  exists arm, find_arm hs op.1 op.2 = Some arm.

Lemma find_arm_snoc hs arms op :
  find_arm (hs ++ [arms]) op.1 op.2 =
  match List.find (arm_matches op) arms with Some arm => Some arm | None => find_arm hs op.1 op.2 end.
Proof. unfold find_arm. rewrite rev_unit. reflexivity. Qed.

(** The arm found is in the stack and is for the operation. *)
Lemma find_arm_In hs op arm :
  find_arm hs op.1 op.2 = Some arm -> exists arms, arms ∈ hs /\ arm ∈ arms /\ arm_key arm = op.
Proof.
  induction hs as [|arms hs IH] using rev_ind; [done|]. rewrite find_arm_snoc.
  destruct (List.find (arm_matches op) arms) as [a|] eqn:Hf.
  - intros [= <-]. apply find_some in Hf as [Hin Hk%arm_matches_key].
    exists arms. rewrite elem_of_app, list_elem_of_singleton. repeat split; auto.
    by apply list_elem_of_In.
  - intros (arms' & Hin & Harm)%IH. exists arms'. rewrite elem_of_app. by auto.
Qed.

Definition covers (hs : list (list HandleArm)) (allowed : list Operation) : Prop :=
  Forall (covered hs) allowed.

Lemma covered_snoc hs arms op : covered hs op -> covered (hs ++ [arms]) op.
Proof. intros [arm Harm]. unfold covered. rewrite find_arm_snoc. destruct (List.find _ arms); by eexists. Qed.

Lemma covers_push hs arms allowed : covers hs allowed -> covers (hs ++ [arms]) (map arm_key arms ++ allowed).
Proof.
  intros Hc. apply Forall_app_2; [|eapply Forall_impl; [exact Hc|]; intros op; apply covered_snoc].
  apply Forall_forall. intros op (arm & -> & Hin)%list_elem_of_fmap. unfold covered.
  rewrite find_arm_snoc. destruct (List.find _ arms) as [a|] eqn:Hf; [by exists a|].
  exfalso. apply list_elem_of_In in Hin. pose proof (find_none _ _ Hf arm Hin) as Hno.
  assert (arm_matches (arm_key arm) arm = true) as Hyes by by apply arm_matches_key. congruence.
Qed.

(** Every arm on the stack performs only what the stack covers. *)
Definition arms_effects_ok (hs : list (list HandleArm)) : Prop :=
  Forall (Forall (fun arm => exists allowed, covers hs allowed /\ effects_ok allowed (arm_body_insts arm) = true)) hs.

Lemma arms_effects_push hs arms allowed :
  arms_effects_ok hs -> covers hs allowed ->
  Forall (fun arm => effects_ok (map arm_key arms ++ allowed) (arm_body_insts arm) = true) arms ->
  arms_effects_ok (hs ++ [arms]).
Proof.
  intros Hhs Hc Harms. apply Forall_app_2.
  - eapply Forall_impl; [exact Hhs|]. intros l Hl. eapply Forall_impl; [exact Hl|].
    intros arm (al & Hal & Hok). exists al. split; [|done].
    eapply Forall_impl; [exact Hal|]. intros op. apply covered_snoc.
  - constructor; [|done]. eapply Forall_impl; [exact Harms|]. intros arm Hok.
    eexists. split; [by apply covers_push|exact Hok].
Qed.
End Check.

Lemma find_last_key {A} (key : A -> string) name l a : find_last key name l = Some a -> key a = name.
Proof.
  unfold find_last. assert (forall o, (forall b, o = Some b -> key b = name) ->
    fold_left (fun found a => if String.eqb (key a) name then Some a else found) l o = Some a -> key a = name)
    as Hg; [|by apply Hg].
  induction l as [|b l IH]; intros o Ho; cbn; [by apply Ho|]. apply IH.
  destruct (String.eqb_spec (key b) name); [by intros ? [= <-]|done].
Qed.

(** ** Runs *)
Section Runs.
Context `{PlatformOk} (env : Env) (Henv : env_ok env).
Context (Hprog : program_ok false (overflow_checks env) 0 0 (program env) = true).
Context (sig : string -> list Operation) (Heff : program_effects_ok sig (program env) = true).

Abbreviation start := (start env false 0 0).

Definition handled (r : EvalResult) : Prop :=
  match r with EErr (EffectUnwind _ _ _) => False | _ => True end.

Lemma handled_seq r k :
  handled r -> (forall c, r = EOk c -> handled (k c)) -> handled (seq_eval r k).
Proof. destruct r; cbn; auto. Qed.

Lemma handled_then {A} P (m : M A) Q c k :
  wp P m Q c -> (forall a c', Q a c' -> handled (k a c')) -> handled (eval_then (m c) k).
Proof. unfold wp. destruct (m c) as [[a c']|[]|]; cbn; auto. Qed.

(** The state of a run whose body may perform [allowed]. *)
Record effect_start (f : Function) (args : list RuntimeValue) (allowed : list Operation) (c : Core) : Prop := {
  es_start : start f args 0 0 c;
  es_covers : covers (handlers (heap c)) allowed;
  es_arms : arms_effects_ok sig (handlers (heap c))
}.

Lemma effect_start_inv f args allowed c c' :
  inv c c' -> effect_start f args allowed c -> effect_start f args allowed c'.
Proof.
  intros Hc [Hs Hcov Harms]. split; [by eapply start_inv|..]; by rewrite (frame_handlers _ _ (proj2 Hc)).
Qed.

(** A body that both checks accept. *)
Definition both_ok (allowed : list Operation) (insts : list Inst) : Prop :=
  insts_ok false (overflow_checks env) 0 0 0 0 insts = true /\ effects_ok sig allowed insts = true.

Definition handled_exec (n : nat) : Prop := forall f args allowed insts c,
  effect_start f args allowed c -> both_ok allowed insts -> handled (exec env n f args insts c).
Definition handled_inst (n : nat) : Prop := forall f args allowed i c,
  effect_start f args allowed c -> both_ok allowed [i] -> handled (exec_inst env n f args i c).
Definition handled_while (n : nat) : Prop := forall f args allowed ci cond body c,
  effect_start f args allowed c -> both_ok allowed ci -> both_ok allowed body ->
  handled (exec_while env n f args ci cond body c).
Definition handled_repeat (n : nat) : Prop := forall f args allowed body slot count index c,
  effect_start f args allowed c -> both_ok allowed body ->
  handled (exec_repeat env n f args body slot count index c).

(** What a run that ended leaves. *)
Lemma exec_after n f args allowed insts c c' :
  effect_start f args allowed c -> both_ok allowed insts -> exec env n f args insts c = EOk c' ->
  inv c c' /\ effect_start f args allowed c'.
Proof.
  intros Hs [Hok _] Hr. destruct (all_good env Henv false 0 0 Hprog n) as [(He & _) _].
  specialize (He f args 0 0 insts c (es_start _ _ _ _ Hs) Hok). rewrite Hr in He.
  split; [exact He|by eapply effect_start_inv].
Qed.

Lemma both_cons allowed i insts : both_ok allowed (i :: insts) -> both_ok allowed [i] /\ both_ok allowed insts.
Proof.
  unfold both_ok, insts_ok, effects_ok. cbn [forallb]. rewrite !andb_true_iff. tauto.
Qed.

Lemma handled_set dest v c : handled (eval_then (set_value dest v c) (fun _ c' => EOk c')).
Proof. unfold set_value. by destruct (dest <? length (values c)). Qed.

Lemma handled_result r msg c k :
  (forall v, handled (k v c)) -> handled (eval_then (result_or_fail r msg c) k).
Proof.
  intros Hk. destruct r as [r|]; cbn; [|by apply Hk]. unfold mbind, get_values, or_fail.
  destruct (values c !! r); cbn; [by apply Hk|done].
Qed.

Lemma exec_handled n : handled_exec n -> handled_inst n -> handled_exec (S n).
Proof.
  intros He Hi f args allowed [|i rest] c Hs Hok; [done|]. rewrite exec_cons.
  apply both_cons in Hok as [Hok Hrest]. apply handled_seq; [by eapply Hi|]. intros c' Hr.
  eapply He; [|exact Hrest].
  destruct (all_good env Henv false 0 0 Hprog n) as [_ Hg].
  specialize (Hg f args 0 0 i c (es_start _ _ _ _ Hs) (proj1 Hok)). rewrite Hr in Hg.
  by eapply effect_start_inv.
Qed.

Lemma wp_bool f args allowed c condition :
  effect_start f args allowed c -> wp True (extract_bool condition) (fun _ c' => effect_start f args allowed c') c.
Proof. intros Hs. eapply wp_extract_bool; [apply inv_self, Hs|done]. Qed.

Lemma while_handled n : handled_exec n -> handled_while n -> handled_while (S n).
Proof.
  intros He Hw f args allowed ci cond body c Hs Hci Hbody. rewrite exec_while_S.
  apply handled_seq; [by eapply He|]. intros c1 Hr1.
  eapply handled_then; [eapply wp_bool, exec_after; [exact Hs|exact Hci|exact Hr1]|].
  intros b c2 Hs2. destruct b; [|done]. apply handled_seq; [by eapply He|]. intros c3 Hr3.
  eapply Hw; [|done..]. by eapply exec_after.
Qed.

Lemma wp_slot f args allowed c slot v :
  effect_start f args allowed c -> value_ok v = true ->
  wp True (set_optional_slot slot v) (fun _ c' => effect_start f args allowed c') c.
Proof.
  intros Hs Hv. eapply wpc_mono; [done| |eapply (wp_set_optional_slot slot v c c True)].
  - intros [] c' Hc'. by eapply effect_start_inv.
  - apply inv_self, Hs.
  - done.
  - by destruct slot.
Qed.

Lemma repeat_handled_0 : handled_repeat 0.
Proof.
  intros f args allowed body slot count index c Hs Hbody. cbn [exec_repeat].
  destruct (index <? count)%Z; [|done]. eapply handled_then; [by apply wp_slot|done].
Qed.

Lemma repeat_handled n : handled_exec n -> handled_repeat n -> handled_repeat (S n).
Proof.
  intros He Hr f args allowed body slot count index c Hs Hbody. rewrite exec_repeat_S.
  destruct (index <? count)%Z; [|done]. eapply handled_then; [by apply wp_slot|].
  intros [] c1 Hs1. apply handled_seq; [by eapply He|]. intros c2 Hr2.
  eapply Hr; [|done]. by eapply exec_after.
Qed.

Lemma call_handled n f args allowed dest callee refs c :
  handled_exec n -> effect_start f args allowed c -> both_ok allowed [I_Call dest callee refs] ->
  handled (exec_inst env (S n) f args (I_Call dest callee refs) c).
Proof.
  intros He Hs [_ Hok]. unfold effects_ok in Hok. cbn [forallb effects_inst] in Hok.
  rewrite andb_true_r in Hok. rewrite exec_call.
  eapply (handled_then True _ (fun '(g, args') c1 => env_function env callee = Some g /\ values_ok args' /\
    c1 = mkCore (heap c) (fresh (fn_value_count g)) (fresh (fn_slot_count g)))).
  { apply wpc_bind, wp_or_fail. intros g Hg.
    apply wpc_bind. eapply wp_arguments; [apply inv_self, Hs|]. intros vs Hvs. by split. }
  intros [g args'] c1 (Hg & Hargs' & ->). unfold env_function in Hg.
  pose proof (find_last_In _ _ _ _ Hg) as Hin. pose proof (find_last_key _ _ _ _ Hg) as Hname.
  destruct (program_function env false 0 0 Hprog g Hin) as (_ & _ & Hbody).
  apply handled_seq; [|intros; apply handled_set].
  eapply (He g args' (sig callee)).
  - split; cbn [heap handlers].
    + eapply fresh_start; try done; try lia; apply Hs.
    + apply Forall_forall. intros op Hop. rewrite forallb_forall in Hok.
      specialize (Hok op (proj1 (list_elem_of_In _ _) Hop)). apply bool_decide_eq_true in Hok.
      by apply (proj1 (Forall_forall _ _) (es_covers _ _ _ _ Hs)).
    + apply Hs.
  - split.
    + exact Hbody.
    + rewrite <- Hname. by apply (proj1 (forallb_forall _ _) Heff).
Qed.

Lemma arms_handled f args effect operation arm c n :
  handled_exec n -> start f args 0 0 c -> arms_effects_ok sig (handlers (heap c)) ->
  find_arm (handlers (heap c)) effect operation = Some arm ->
  handled (exec env n f args (arm_body_insts arm) c).
Proof.
  intros He Hs Harms Harm.
  destruct (find_arm_In _ (effect, operation) _ Harm) as (arms & Hin & Hin' & _).
  pose proof (proj1 (Forall_forall _ _) (proj1 (Forall_forall _ _) Harms _ Hin) _ Hin') as (al & Hal & Hok).
  eapply (He f args al); [by split|]. split; [|exact Hok].
  eapply find_arm_ok, Harm. apply Hs.
Qed.

Lemma perform_handled n f args allowed dest effect operation refs c :
  handled_exec n -> effect_start f args allowed c ->
  both_ok allowed [I_Perform dest effect operation refs] ->
  handled (exec_inst env (S n) f args (I_Perform dest effect operation refs) c).
Proof.
  intros He Hs [_ Hok]. unfold effects_ok in Hok. cbn [forallb effects_inst] in Hok.
  rewrite andb_true_r in Hok. apply bool_decide_eq_true in Hok. rewrite exec_perform.
  eapply (handled_then True _ (fun args' c1 => values_ok args' /\ c1 = c)).
  { eapply wp_arguments; [apply inv_self, Hs|]. by intros vs Hvs. }
  intros args' c1 [Hargs' ->].
  destruct (proj1 (Forall_forall _ _) (es_covers _ _ _ _ Hs) _ Hok) as [arm Harm]. cbn in Harm. rewrite Harm.
  apply handled_seq.
  - eapply arms_handled; [done| |apply Hs|exact Harm]. destruct (es_start _ _ _ _ Hs); by split.
  - intros c2 _. rewrite eval_then_bind. apply handled_result. intros v. apply handled_set.
Qed.

Lemma handle_handled n f args allowed dest body_insts body_result arms c :
  handled_exec n -> effect_start f args allowed c ->
  both_ok allowed [I_Handle dest body_insts body_result arms] ->
  handled (exec_inst env (S n) f args (I_Handle dest body_insts body_result arms) c).
Proof.
  intros He Hs [Hok Heok]. unfold insts_ok in Hok; cbn [forallb inst_all] in Hok; rewrite !andb_true_iff in Hok.
  destruct Hok as [[_ [Hbody Harms]] _].
  unfold effects_ok in Heok. cbn [forallb effects_inst] in Heok. rewrite andb_true_r, andb_true_iff in Heok.
  destruct Heok as [Hebody Hearms]. rewrite exec_handle, push_frame. cbn [eval_then].
  apply handled_seq.
  - eapply (He f [] (map arm_key arms ++ allowed)).
    + split; cbn [heap handlers].
      * eapply handle_start; [apply Hs|exact Harms].
      * apply covers_push, Hs.
      * eapply arms_effects_push; [apply Hs..|]. apply Forall_forall. intros arm Harm.
        rewrite forallb_forall in Hearms. specialize (Hearms arm (proj1 (list_elem_of_In _ _) Harm)).
        by destruct arm.
    + by split.
  - intros c2 _. rewrite eval_then_bind. apply handled_result. intros v. rewrite set_value_pop.
    apply handled_set.
Qed.

Lemma inst_handled n : handled_exec n -> handled_while n -> handled_repeat n -> handled_inst (S n).
Proof.
  intros He Hw Hr f args allowed i c Hs Hok.
  destruct (simple env f args i) as [m|] eqn:Hm.
  { rewrite (exec_inst_simple _ _ _ _ _ _ _ Hm). eapply handled_then; [|done].
    eapply simple_ok; [exact Henv|exact Hm|apply inv_self, Hs|apply Hs|].
    destruct Hok as [Hok _]. apply andb_true_iff in Hok as [Hok%inst_all_head _].
    by apply andb_true_iff in Hok as [? _]. }
  destruct i; try discriminate Hm; try (by eapply call_handled); try (by eapply perform_handled);
    try (by eapply handle_handled); destruct Hok as [Hok Heok]; unfold insts_ok in Hok;
    cbn [forallb inst_all] in Hok; rewrite !andb_true_iff in Hok; unfold effects_ok in Heok;
    cbn [forallb effects_inst] in Heok; rewrite !andb_true_iff in Heok; destruct_and?.
  - rewrite exec_if. eapply handled_then; [by eapply wp_bool|]. intros b c1 Hs1.
    apply handled_seq; [|intros; apply handled_set]. eapply He; [exact Hs1|]. by destruct b.
  - rewrite exec_loop. apply handled_seq; [|intros; apply handled_set]. by eapply Hw.
  - rewrite exec_repeat_inst.
    eapply (handled_then True _ (fun _ c' => effect_start f args allowed c'));
      [eapply wp_extract_int; [apply inv_self, Hs|done]|].
    intros z c1 Hs1. apply handled_seq; [|intros; apply handled_set]. by eapply Hr.
Qed.

Lemma all_handled n :
  (handled_exec n /\ handled_while n /\ handled_repeat n) /\ handled_inst n.
Proof.
  induction n as [|n [(He & Hw & Hr) Hi]].
  - split; [|done]. split; [done|]. split; [done|exact repeat_handled_0].
  - split; [|by apply inst_handled].
    split; [by apply exec_handled|]. split; [by apply while_handled|by apply repeat_handled].
Qed.
End Runs.
