(* ===== verification/Samples.v ===== *)
(** * Sample programs

    How one operation evaluates, and concrete inputs for the theorems about the interpreter: a formatting of
    floats, a program with a loop, a call and a handler, and a program whose
    handler arm does not fit the frame of the function that performs. *)
From stdpp Require Import gmap pretty.
From stdpp Require Import pretty.
From Stdlib Require Import SpecFloat.
From S2P Require Import Prelude Syntax Utf8 TextOps Float64 Mir Interp Exec Machine Entry Eval Invariant.

Open Scope nat_scope.

(** * The MIR interpreter: evaluating one operation

    Equations that run an operation whose operands are known: the functional
    theorems about instructions rewrite with them. *)

(** The core with [v] at [dest]. *)
Definition upd (c : Core) (dest : ValueId) (v : RuntimeValue) : Core :=
  mkCore (heap c) (<[dest := v]> (values c)) (slots c).

(** The core with another heap. *)
Definition with_heap (c : Core) (h : Heap) : Core := mkCore h (values c) (slots c).

Section steps.
Context (c : Core).

Lemma bind_ok {A B} (m : M A) (f : A -> M B) a c' : m c = Ok (a, c') -> (let! x := m in f x) c = f a c'.
Proof. unfold mbind. by intros ->. Qed.

Lemma bind_err {A B} (m : M A) (f : A -> M B) e : m c = Err e -> (let! x := m in f x) c = Err e.
Proof. unfold mbind. by intros ->. Qed.

Lemma bind_panic {A B} (m : M A) (f : A -> M B) : m c = Panic -> (let! x := m in f x) c = Panic.
Proof. unfold mbind. by intros ->. Qed.

Lemma extract_value_ok id v : values c !! id = Some v -> extract_value id c = Ok (v, c).
Proof. intros Hv. unfold extract_value, mbind, get_values. by rewrite Hv. Qed.

Lemma index_value_ok id v : values c !! id = Some v -> index_value id c = Ok (v, c).
Proof. intros Hv. unfold index_value, mbind, get_values. by rewrite Hv. Qed.

Lemma extract_int_ok `{Platform} id z : values c !! id = Some (V_Int z) -> extract_int id c = Ok (z, c).
Proof. intros Hv. unfold extract_int, mbind, get_values. by rewrite Hv. Qed.

Lemma set_value_ok dest v : dest < length (values c) -> set_value dest v c = Ok (tt, upd c dest v).
Proof. intros Hd. unfold set_value. by rewrite (proj2 (Nat.ltb_lt _ _) Hd). Qed.

Lemma get_list_ok id l : lists (heap c) !! id = Some l -> get_list id c = Ok (l, c).
Proof. intros Hl. unfold get_list, mbind, get_heap. by rewrite Hl. Qed.

Lemma get_builder_ok id b : text_builders (heap c) !! id = Some b -> get_builder id c = Ok (b, c).
Proof. intros Hl. unfold get_builder, mbind, get_heap. by rewrite Hl. Qed.

Lemma get_index_ok id m : text_indices (heap c) !! id = Some m -> get_index id c = Ok (m, c).
Proof. intros Hl. unfold get_index, mbind, get_heap. by rewrite Hl. Qed.
End steps.

(** The operands of an operation, one after the other. *)
Ltac run_op :=
  repeat first
    [ erewrite bind_ok by (apply extract_value_ok; eassumption)
    | erewrite bind_ok by (apply index_value_ok; eassumption)
    | erewrite bind_ok by (apply extract_int_ok; eassumption)
    | erewrite bind_ok by (apply get_list_ok; eassumption)
    | erewrite bind_ok by (apply get_builder_ok; eassumption)
    | erewrite bind_ok by (apply get_index_ok; eassumption)
    | erewrite bind_ok by reflexivity
    | progress cbn [as_int as_text as_list as_builder as_index] ].

(** * Sample programs *)

(** Floats as integers, rounded towards zero. *)
Definition integer_part (x : f64) : Z :=
  match x with
  | S754_finite s m e =>
      let z := if (0 <=? e)%Z then (Z.pos m * 2 ^ e)%Z else (Z.pos m / 2 ^ (- e))%Z in
      if s then (- z)%Z else z
  | _ => 0%Z
  end.

Definition digits_text (z : Z) : string := if (z <? 0)%Z then "-1" else "1".

#[export] Instance sample_floats : Platform := {
  f64_display x := digits_text (integer_part x);
  f64_fixed x _ := digits_text (integer_part x);
  f64_parse l := option_map f64_of_Z (parse_i64 l);
  value_size := 56;
  sort_unordered _ _ := None
}.

#[export] Instance sample_floats_ok : PlatformOk sample_floats.
Proof.
  split; [|done..]. intros x n. cbn. unfold digits_text. by destruct (integer_part x <? 0)%Z.
Qed.

Definition no_span : Span := mkSpan 0 0.

Definition sample_function (name : string) (params : list Param) (insts : list Inst) (result : option ValueId)
    (nv ns : nat) : Function :=
  mkFunction name params None [] [] insts result no_span nv ns.

Definition sample_env (fs : list Function) : Env :=
  mkEnv (mkProgram [] [] fs []) ["one"; "two"] "input" false.

(** [fn twice(x: I32) -> I32 { x + x }], in a frame as large as that of [main]. *)
Definition twice : Function :=
  sample_function "twice" [mkParam "x" "I32"] [I_LoadParam 0 0; I_Add 1 0 0] (Some 1) 12 0.

(** The sum of 0, 1, 2 and 3, doubled, with 10 from the handler added. *)
Definition sum_main : Function :=
  sample_function "main" []
    [I_ConstInt 0 4; I_ConstInt 1 0; I_StoreLocal 0 1;
     I_Repeat 5 0 (Some 1) [I_LoadLocal 2 1; I_LoadLocal 3 0; I_Add 4 3 2; I_StoreLocal 0 4];
     I_Handle 6 [I_Perform 7 "Ask" "get" []] (Some 7)
       [mkHandleArm "Ask" "get" [] [I_ConstInt 8 10] (Some 8)];
     I_LoadLocal 9 0; I_Call 10 "twice" [9]; I_Add 11 10 6]
    (Some 11) 12 2.

Definition sum_env : Env := sample_env [twice; sum_main].

Example sum_runs : run_main sum_env 60 = Returned (V_Int 22) new_heap.
Proof. vm_compute. reflexivity. Qed.

(** The handler is in [main], which has twelve values; the operation is
    performed by [ask], which has one. *)
Definition ask : Function := sample_function "ask" [] [I_Perform 0 "Ask" "get" []] (Some 0) 1 0.

Definition far_main : Function :=
  sample_function "main" []
    [I_Handle 0 [I_Call 1 "ask" []] (Some 1) [mkHandleArm "Ask" "get" [] [I_ConstInt 8 10] (Some 8)]]
    (Some 0) 12 0.

Definition far_env : Env := sample_env [ask; far_main].
