(* ===== verification/InterpSpec.v ===== *)
(** * The MIR interpreter: the theorems about whole runs

    The machine against its structured semantics, the invariant, freedom from
    panics, effects; a result of the structured semantics does not depend on
    its fuel, and a [Repeat] whose rounds end does. *)
From stdpp Require Import gmap pretty.
From S2P Require Import Invariant Safety Effects Eval Prelude Syntax Utf8 TextOps Float64 Mir Interp Exec Machine Entry Samples.

Open Scope nat_scope.

(** ** From runs of [exec] to runs of the machine *)
Section Entry.
Context `{PlatformOk} (env : Env) (Henv : env_ok env) (strict : bool) (av as_ : nat).
Context (Hprog : program_ok strict (overflow_checks env) av as_ (program env) = true).

Lemma execute_eval k h f args r :
  execute_function env k h f args = r -> r <> Running -> exists n, eval_function env n h f args = r.
Proof. intros Hk Hr. apply machine_eval; [done|]. by exists k. Qed.

Lemma entry_start f args h :
  In f (program_functions (program env)) -> heap_ok h -> values_ok args -> handlers h = [] ->
  start env strict av as_ f args (value_room f) (slot_room f)
    (mkCore h (fresh (fn_value_count f)) (fresh (fn_slot_count f))).
Proof.
  intros Hf Hh Hargs Hhs. apply fresh_start; try done. rewrite Hhs. by constructor.
Qed.

(** What a function returns, or that it does not panic. *)
Lemma execute_good f args h k :
  In f (program_functions (program env)) -> heap_ok h -> values_ok args -> handlers h = [] ->
  match execute_function env k h f args with
  | Returned v h' => value_ok v = true /\ heap_ok h' /\
      exists vs ss vs' ss', frame (mkCore h vs ss) (mkCore h' vs' ss')
  | Crashed => strict = false
  | _ => True
  end.
Proof.
  intros Hf Hh Hargs Hhs. destruct (execute_function env k h f args) eqn:Hr; try done.
  all: destruct (execute_eval _ _ _ _ _ Hr) as [n Hn]; [done|]; unfold eval_function in Hn.
  all: destruct (program_function env strict av as_ Hprog f Hf) as (_ & _ & Hbody).
  all: destruct (all_good env Henv strict av as_ Hprog n) as [(He & _) _].
  all: specialize (He f args _ _ _ _ (entry_start f args h Hf Hh Hargs Hhs) Hbody).
  all: destruct (exec env n f args (fn_instructions f) _) as [c| | |]; try done; cbn [good] in He.
  all: unfold function_result in Hn; destruct (fn_result f) as [r|]; try done;
    [destruct (values c !! r) as [w|] eqn:Hw; [|done]|..].
  - injection Hn as <- <-. destruct He as [Hc Hfr].
    split; [by eapply values_lookup, Hw; apply Hc|]. split; [apply Hc|]. destruct c. by do 4 eexists.
  - injection Hn as <- <-. destruct He as [Hc Hfr].
    split; [done|]. split; [apply Hc|]. destruct c. by do 4 eexists.
  - by destruct (values c !! r).
Qed.
End Entry.

(** ** The machine and its structured semantics *)

(** C1: The frame machine of [execute_function] implements the structured
    semantics, and nothing else: it returns a value, an error or a panic
    exactly when the nested runs do, with the same value, output and tables; so
    it runs for ever exactly when no depth of nesting suffices. *)
Theorem machine_refines_eval `{Platform} env h f args r :
  r <> Running ->
  (exists k, execute_function env k h f args = r) <-> (exists n, eval_function env n h f args = r).
Proof. apply machine_eval. Qed.

Lemma machine_refines_eval_witness :
  Returned (V_Int 22) new_heap <> Running /\
  exists n, eval_function sum_env n new_heap sum_main [] = Returned (V_Int 22) new_heap.
Proof.
  split; [done|].
  apply (proj1 (machine_refines_eval sum_env new_heap sum_main [] (Returned (V_Int 22) new_heap) ltac:(done))).
  exists 60. vm_compute. reflexivity.
Defined.

(** ** The invariant *)

(** C12: Whatever a function does, the value it returns and the tables it leaves
    hold only valid UTF-8 and views within their data; the handlers are those it
    was started with, no table has lost an entry and the output has only grown. *)
Theorem run_keeps_invariant `{PlatformOk} env h f args k v h' :
  env_ok env -> program_ok false (overflow_checks env) 0 0 (program env) = true ->
  In f (program_functions (program env)) -> heap_ok h -> values_ok args -> handlers h = [] ->
  execute_function env k h f args = Returned v h' ->
  value_ok v = true /\ heap_ok h' /\ handlers h' = [] /\
  length (text_builders h) <= length (text_builders h') /\
  length (text_indices h) <= length (text_indices h') /\
  length (lists h) <= length (lists h') /\
  exists s, stdout_text h' = (stdout_text h ++ s)%string.
Proof.
  intros Henv Hprog Hf Hh Hargs Hhs Hr.
  pose proof (execute_good env Henv false 0 0 Hprog f args h k Hf Hh Hargs Hhs) as Hg. rewrite Hr in Hg.
  destruct Hg as (Hv & Hh' & vs & ss & vs' & ss' & [_ _ Hhs' Hb Hi Hl Ho]). cbn in *.
  rewrite Hhs in Hhs'. by split_and!.
Qed.

Lemma sum_env_ok : env_ok sum_env.
Proof. split; [by repeat constructor|done]. Qed.

Lemma new_heap_ok : heap_ok new_heap.
Proof. by split. Qed.

Lemma run_keeps_invariant_witness :
  execute_function sum_env 60 new_heap sum_main [] = Returned (V_Int 22) new_heap /\
  handlers new_heap = [].
Proof.
  assert (Hr : execute_function sum_env 60 new_heap sum_main [] = Returned (V_Int 22) new_heap)
    by (vm_compute; reflexivity).
  split; [exact Hr|].
  exact (proj1 (proj2 (proj2 (run_keeps_invariant sum_env new_heap sum_main [] 60 (V_Int 22) new_heap
    sum_env_ok eq_refl (or_intror (or_introl eq_refl)) new_heap_ok (Forall_nil_2 _) eq_refl Hr)))).
Defined.

(** ** Panics *)

Lemma checked_function_spec `{Platform} env name args f :
  checked_function env name args = RunOk f ->
  In f (program_functions (program env)) /\ length (fn_params f) = length args.
Proof.
  unfold checked_function, res_bind, ok_or. destruct (env_function env name) as [g|] eqn:Hg; [|done].
  destruct (_ && _); [done|]. destruct (negb _) eqn:Hn; [done|].
  destruct (ensure_args env args (fn_params g)); [|done]. intros [= <-].
  split; [by eapply find_last_In|]. apply negb_false_iff, Nat.eqb_eq in Hn. done.
Qed.

(** [run_main] does not panic when the frames hold all identifiers. *)
Lemma main_never_crashes `{PlatformOk} env av as_ k :
  env_ok env -> program_ok true (overflow_checks env) av as_ (program env) = true ->
  run_main env k <> Crashed.
Proof.
  intros Henv Hprog. unfold run_main, run_function.
  destruct (checked_function env "main" []) as [f|] eqn:Hf; [|done].
  apply checked_function_spec in Hf as [Hf _].
  pose proof (execute_good env Henv true av as_ Hprog f [] new_heap k Hf new_heap_ok
    (Forall_nil_2 _) eq_refl) as Hg.
  by destruct (execute_function env k new_heap f []).
Qed.

(** C3: No run of a program panics, however long it is, when overflow is not
    checked (a release build), the identifiers of every function fit its frame,
    those of handler arms fit every frame, texts of the program and of its
    environment are UTF-8, and the program has no [Div], [Rem],
    [TextFindByteRange], [ListNew] or [ListPush], no sort of a list, and no
    [ListFrom] of an array above 32 bits: on some values each of these does
    panic. *)
Theorem run_main_never_panics `{PlatformOk} env av as_ k :
  env_ok env -> program_ok true (overflow_checks env) av as_ (program env) = true ->
  run_main env k <> Crashed.
Proof. apply main_never_crashes. Qed.

Lemma run_main_never_panics_witness :
  program_ok true (overflow_checks sum_env) 12 1 (program sum_env) = true /\
  run_main sum_env 1000 <> Crashed.
Proof.
  split; [vm_compute; reflexivity|].
  apply (run_main_never_panics sum_env 12 1 1000 sum_env_ok). vm_compute. reflexivity.
Defined.

(** An arm runs in the frame of the function that performs its operation:
    the program whose arm uses value 8 of [main] panics in [ask], whose frame
    has one value. *)
Theorem handler_arm_frame : run_main far_env 10 = Crashed.
Proof. vm_compute. reflexivity. Qed.

(** ** Effects *)

Lemma checked_function_name `{Platform} env name args f :
  checked_function env name args = RunOk f ->
  fn_name f = name /\ In f (program_functions (program env)).
Proof.
  unfold checked_function, res_bind, ok_or. destruct (env_function env name) as [g|] eqn:Hg; [|done].
  destruct (_ && _); [done|]. destruct (negb _); [done|].
  destruct (ensure_args env args (fn_params g)); [|done]. intros [= <-].
  split; [by eapply find_last_key|by eapply find_last_In].
Qed.

Lemma checked_main_error `{Platform} env effect operation args :
  checked_function env "main" [] <> RunErr (EffectUnwind effect operation args).
Proof.
  unfold checked_function, res_bind, ok_or. destruct (env_function env "main"); [|done].
  destruct (_ && _); [done|]. by destruct (negb _).
Qed.

(** [main] starts with no handler and nothing allowed. *)
Lemma main_effect_start `{PlatformOk} env sig f :
  In f (program_functions (program env)) ->
  effect_start env sig f [] [] (mkCore new_heap (fresh (fn_value_count f)) (fresh (fn_slot_count f))).
Proof.
  intros Hf. split; [|by constructor..]. apply fresh_start; try done; try lia; by repeat constructor.
Qed.

(** C11: A program all of whose operations are announced or handled never ends
    in an unhandled effect: with a signature for its functions under which every
    body performs only what its handlers and its callees' callers cover, and
    none for [main], no run unwinds. *)
Theorem run_main_effects_handled `{PlatformOk} env sig k effect operation args :
  env_ok env -> program_ok false (overflow_checks env) 0 0 (program env) = true ->
  program_effects_ok sig (program env) = true -> sig "main" = [] ->
  run_main env k <> Raised (EffectUnwind effect operation args).
Proof.
  intros Henv Hprog Heff Hsig. unfold run_main, run_function.
  destruct (checked_function env "main" []) as [f|e] eqn:Hf.
  - destruct (checked_function_name _ _ _ _ Hf) as [Hname Hin]. intros Hr.
    assert (exists n, eval_function env n new_heap f [] = Raised (EffectUnwind effect operation args))
      as [n Hn] by by eapply execute_eval.
    unfold eval_function in Hn. destruct (all_handled env Henv Hprog sig Heff n) as [(He & _) _].
    destruct (program_function env false 0 0 Hprog f Hin) as (_ & _ & Hbody).
    specialize (He f [] [] (fn_instructions f) _ (main_effect_start env sig f Hin)).
    destruct (exec env n f [] (fn_instructions f) _) as [c|[]| |]; try done.
    + unfold function_result in Hn. destruct (fn_result f) as [r|]; [|done]. by destruct (values c !! r).
    + apply He. split; [exact Hbody|]. rewrite <- Hsig, <- Hname.
      exact (proj1 (forallb_forall _ _) Heff f Hin).
  - intros [= ->]. by apply checked_main_error in Hf.
Qed.

Lemma run_main_effects_handled_witness :
  program_effects_ok (fun _ => []) (program sum_env) = true /\
  run_main sum_env 1000 <> Raised (EffectUnwind "Ask" "get" []).
Proof.
  split; [vm_compute; reflexivity|].
  apply (run_main_effects_handled sum_env (fun _ => []) 1000 "Ask" "get" [] sum_env_ok);
    vm_compute; reflexivity.
Defined.

(** ** Handlers *)

Lemma find_split {A} (p : A -> bool) l :
  match List.find p l with
  | Some a => exists before after, l = before ++ a :: after /\ p a = true /\ forallb (fun b => negb (p b)) before = true
  | None => forallb (fun b => negb (p b)) l = true
  end.
Proof.
  induction l as [|x l IH]; cbn; [done|]. destruct (p x) eqn:Hx; cbn; [by exists [], l|].
  destruct (List.find p l) as [a|]; [|done]. destruct IH as (before & after & -> & Ha & Hb).
  exists (x :: before), after. cbn. by rewrite Hx.
Qed.

(** No arm of [hs] is for the operation. *)
Definition no_arm (hs : list (list HandleArm)) (op : Operation) : bool :=
  forallb (forallb (fun arm => negb (arm_matches op arm))) hs.

(** The innermost arms for an operation, and the first arm among them. *)
Lemma find_arm_split hs op :
  match find_arm hs op.1 op.2 with
  | Some arm => exists outer before after inner,
      hs = outer ++ (before ++ arm :: after) :: inner /\ arm_key arm = op /\
      forallb (fun a => negb (arm_matches op a)) before = true /\ no_arm inner op = true
  | None => no_arm hs op = true
  end.
Proof.
  induction hs as [|arms hs IH] using rev_ind; [done|]. rewrite find_arm_snoc.
  pose proof (find_split (arm_matches op) arms) as Hsplit.
  destruct (List.find (arm_matches op) arms) as [arm|].
  - destruct Hsplit as (before & after & -> & Harm%arm_matches_key & Hb). by exists hs, before, after, [].
  - destruct (find_arm hs op.1 op.2) as [arm|].
    + destruct IH as (outer & before & after & inner & -> & Hk & Hb & Hi).
      exists outer, before, after, (inner ++ [arms]). rewrite <- app_assoc. split; [done|].
      split; [done|]. split; [done|]. unfold no_arm in *. rewrite forallb_app, Hi. cbn. by rewrite Hsplit.
    + unfold no_arm in *. rewrite forallb_app, IH. cbn. by rewrite Hsplit.
Qed.

(** C39: [Perform] runs the first arm for the operation in the innermost handler
    that has one, with the operation's arguments and in the frame at hand; with
    no such handler it unwinds with the operation and its arguments. *)
Theorem perform_innermost `{Platform} env c f args frames dest effect operation refs rest vs :
  arguments refs c = Ok (vs, c) ->
  match run_inst env (mkConfig c f (I_Perform dest effect operation refs :: rest) args frames)
          (I_Perform dest effect operation refs) rest with
  | Next c' => exists outer before arm after inner,
      handlers (heap c) = outer ++ (before ++ arm :: after) :: inner /\ arm_key arm = (effect, operation) /\
      forallb (fun a => negb (arm_matches (effect, operation) a)) before = true /\
      no_arm inner (effect, operation) = true /\
      c' = mkConfig c f (arm_body_insts arm) vs (PerformBody rest args dest (arm_body_result arm) :: frames)
  | Failed e => e = EffectUnwind effect operation vs /\ no_arm (handlers (heap c)) (effect, operation) = true
  | _ => False
  end.
Proof.
  intros Hargs. cbn [run_inst core]. rewrite Hargs. cbn [and_then].
  pose proof (find_arm_split (handlers (heap c)) (effect, operation)) as Hs. cbn [fst snd] in Hs.
  destruct (find_arm (handlers (heap c)) effect operation) as [arm|].
  - destruct Hs as (outer & before & after & inner & H1 & H2 & H3 & H4).
    by exists outer, before, arm, after, inner.
  - done.
Qed.

Definition arm_of (value : Z) : HandleArm := mkHandleArm "Ask" "get" [] [I_ConstInt 0 value] (Some 0).
Definition nested_core : Core :=
  mkCore (mkHeap [] [] [] [[arm_of 1]; [arm_of 2; arm_of 3]; [mkHandleArm "Tell" "put" [] [] None]] "")
    [V_Int 5; V_Unit] [].

Lemma perform_innermost_witness :
  exists c', run_inst sum_env (mkConfig nested_core sum_main [I_Perform 1 "Ask" "get" [0]] [] [])
    (I_Perform 1 "Ask" "get" [0]) [] = Next c' /\ instructions c' = [I_ConstInt 0 2] /\
  exists inner, no_arm inner ("Ask", "get")%string = true.
Proof.
  pose proof (perform_innermost sum_env nested_core sum_main [] [] 1 "Ask" "get" [0] [] [V_Int 5] eq_refl) as Hp.
  eexists. split; [reflexivity|]. split; [reflexivity|].
  destruct Hp as (outer & before & arm & after & inner & _ & _ & _ & Hi & _). by exists inner.
Defined.

(** * The structured semantics and its fuel

    A run that has a result has the same one with more fuel ([exec_more]); a
    [Repeat] whose body ends every time ends after [count] rounds. *)

Section Fuel.
Context `{Platform} (env : Env).

(** [r'] is [r], if that is a result. *)
Definition extends (r r' : EvalResult) : Prop := r <> EFuel -> r' = r.

Lemma extends_refl r : extends r r.
Proof. done. Qed.

Lemma extends_seq r r' k k' :
  extends r r' -> (forall c, extends (k c) (k' c)) -> extends (seq_eval r k) (seq_eval r' k').
Proof.
  unfold extends. destruct r as [c|e| |]; cbn; intros Hr Hk Hne.
  - rewrite Hr by done. cbn. by apply Hk.
  - by rewrite Hr.
  - by rewrite Hr.
  - done.
Qed.

Lemma extends_then {A} (o : Outcome (A * Core)) k k' :
  (forall a c, extends (k a c) (k' a c)) -> extends (eval_then o k) (eval_then o k').
Proof. intros Hk. destruct o as [[a c]|e|]; cbn; [apply Hk|done..]. Qed.

Definition more (n : nat) : Prop :=
  (forall f args insts c, extends (exec env n f args insts c) (exec env (S n) f args insts c)) /\
  (forall f args i c, extends (exec_inst env n f args i c) (exec_inst env (S n) f args i c)) /\
  (forall f args ci cond body c,
     extends (exec_while env n f args ci cond body c) (exec_while env (S n) f args ci cond body c)) /\
  (forall f args body slot count index c,
     extends (exec_repeat env n f args body slot count index c) (exec_repeat env (S n) f args body slot count index c)).

Lemma inst_more n : more n -> forall f args i c,
  extends (exec_inst env (S n) f args i c) (exec_inst env (S (S n)) f args i c).
Proof.
  intros (He & Hi & Hw & Hr) f args i c. destruct (simple env f args i) as [m|] eqn:Hm.
  { by rewrite !(exec_inst_simple _ _ _ _ _ _ _ Hm). }
  destruct i; try discriminate Hm.
  - rewrite !exec_if. apply extends_then. intros b c1. by apply extends_seq.
  - rewrite !exec_loop. by apply extends_seq.
  - rewrite !exec_repeat_inst. apply extends_then. intros z c1. by apply extends_seq.
  - rewrite !exec_call. apply extends_then. intros [g args'] c1. by apply extends_seq.
  - rewrite !exec_perform. apply extends_then. intros args' c1. destruct (find_arm _ _ _); [|done].
    by apply extends_seq.
  - rewrite !exec_handle. apply extends_then. intros _ c1. by apply extends_seq.
Qed.

Lemma all_more n : more n.
Proof.
  induction n as [|n IH].
  - split; [|split; [|split]]; intros; [intros Hne; by destruct Hne..|]. cbn [exec_repeat]. destruct (index <? count)%Z; [|done].
    apply extends_then. intros _ c1 Hne. by destruct Hne.
  - pose proof (inst_more n IH) as Hinst. destruct IH as (He & Hi & Hw & Hr).
    split; [|split; [exact Hinst|split]].
    + intros f args [|i rest] c; [done|]. rewrite !exec_cons. apply extends_seq; [apply Hi|apply He].
    + intros f args ci cond body c. rewrite !exec_while_S. apply extends_seq; [apply He|]. intros c1.
      apply extends_then. intros [] c2; [|done]. apply extends_seq; [apply He|apply Hw].
    + intros f args body slot count index c. rewrite !exec_repeat_S. destruct (index <? count)%Z; [|done].
      apply extends_then. intros _ c1. apply extends_seq; [apply He|apply Hr].
Qed.

Lemma exec_more n k f args insts c :
  exec env n f args insts c <> EFuel -> exec env (k + n) f args insts c = exec env n f args insts c.
Proof.
  intros Hne. induction k as [|k IH]; [done|]. cbn [Nat.add].
  rewrite (proj1 (all_more (k + n))); [exact IH|congruence].
Qed.

(** From round [index] on. *)
Lemma repeat_rounds f args body slot count (I : Z -> Core -> Prop) n k :
  (forall i c, (0 <= i < count)%Z -> I i c -> exists c1 c2,
     set_optional_slot slot (V_Int i) c = Ok (tt, c1) /\ exec env n f args body c1 = EOk c2 /\ I (i + 1)%Z c2) ->
  forall index c, (0 <= index <= count)%Z -> Z.to_nat (count - index) <= k -> I index c ->
  exists c', exec_repeat env (k + n) f args body slot count index c = EOk c' /\ I count c'.
Proof.
  intros Hbody. induction k as [|k IH]; intros index c Hindex Hk Hc.
  - assert (index = count) as -> by lia. destruct n; cbn [exec_repeat Nat.add]; rewrite Z.ltb_irrefl; by eexists.
  - cbn [Nat.add]. rewrite exec_repeat_S. destruct (Z.ltb_spec index count).
    + destruct (Hbody index c ltac:(lia) Hc) as (c1 & c2 & H1 & H2 & H3). rewrite H1. cbn [eval_then].
      rewrite exec_more by (rewrite H2; done). rewrite H2. cbn [seq_eval]. apply IH; [lia|lia|done].
    + assert (index = count) as -> by lia. by eexists.
Qed.
End Fuel.

(** C35: A [Repeat] whose body ends every time runs its rounds 0, 1 and so on up to
    the count, with the index in its slot, and ends: whatever each round takes
    from [I i] to [I (i + 1)] holds at the count, in the machine. *)
Theorem repeat_ends `{Platform} env f args body slot dest count (I : Z -> Core -> Prop) n z c rest frames :
  (forall i c, (0 <= i < z)%Z -> I i c -> exists c1 c2,
     set_optional_slot slot (V_Int i) c = Ok (tt, c1) /\ exec env n f args body c1 = EOk c2 /\ I (i + 1)%Z c2) ->
  values c !! count = Some (V_Int z) -> (0 <= z)%Z -> I 0%Z c ->
  (forall c', I z c' -> dest < length (values c')) ->
  exists k c', I z c' /\
    run_steps env k (mkConfig c f (I_Repeat dest count slot body :: rest) args frames)
    = Next (mkConfig (upd c' dest V_Unit) f rest args frames).
Proof.
  intros Hbody Hcount Hz Hc Hdest.
  destruct (repeat_rounds env f args body slot z I n (Z.to_nat z) Hbody 0%Z c ltac:(lia) ltac:(lia) Hc)
    as (c' & Hr & Hc').
  destruct (sim_all env (Z.to_nat z + n)) as [(_ & _ & Hsim) _].
  specialize (Hsim f args rest dest slot z 0%Z body c frames). rewrite Hr in Hsim. cbn [seq_eval loop_end] in Hsim.
  unfold loop_end in Hsim. rewrite (set_value_ok c' dest V_Unit (Hdest c' Hc')) in Hsim.
  destruct Hsim as [k Hk]. exists (S k), c'. split; [done|]. rewrite run_steps_S. cbn [step run_inst instructions].
  rewrite <- Hk. f_equal. cbn [run_inst core function active_args frame_stack].
  rewrite (extract_int_ok c count z Hcount). reflexivity.
Qed.

(** The sum of 0 .. 3 in slot 0, the loop of [sum_main]. *)
Lemma repeat_ends_witness :
  exists k c', slots c' !! 0 = Some (V_Int 6) /\
    run_steps sum_env k
      (mkConfig (mkCore new_heap [V_Int 4; V_Unit; V_Unit; V_Unit; V_Unit] [V_Int 0; V_Unit]) sum_main
         [I_Repeat 1 0 (Some 1) [I_LoadLocal 2 1; I_LoadLocal 3 0; I_Add 4 3 2; I_StoreLocal 0 4]] [] [])
    = Next (mkConfig (upd c' 1 V_Unit) sum_main [] [] []).
Proof.
  set (I i c := exists a b d v, c = mkCore new_heap [V_Int 4; V_Unit; a; b; d] [V_Int (i * (i - 1) / 2); v]).
  destruct (repeat_ends sum_env sum_main [] [I_LoadLocal 2 1; I_LoadLocal 3 0; I_Add 4 3 2; I_StoreLocal 0 4]
    (Some 1) 1 0 I 10 4 (mkCore new_heap [V_Int 4; V_Unit; V_Unit; V_Unit; V_Unit] [V_Int 0; V_Unit]) [] [])
    as (k & c' & (a & b & d & v & ->) & Hk).
  - intros i c Hi (a & b & d & v & ->).
    assert (i = 0 \/ i = 1 \/ i = 2 \/ i = 3)%Z as [-> | [-> | [-> | ->]]] by lia;
      do 2 eexists; (split; [reflexivity|]); (split; [vm_compute; reflexivity|]); by do 4 eexists.
  - reflexivity.
  - lia.
  - by do 4 eexists.
  - intros c' (? & ? & ? & ? & ->). cbn. lia.
  - exists k. eexists. split; [|exact Hk]. reflexivity.
Defined.

(** * The MIR interpreter: types of arguments

    [has_type] says which values a type name has; [ensure_type] decides it. *)

Section RuntimeValue_ind.
Context (P : RuntimeValue -> Prop).
Context (Hbase : forall v, (forall n w p, v <> V_Enum n w p) -> (forall n fs, v <> V_Record n fs) -> P v).
Context (Henum : forall n w p, (forall q, p = Some q -> P q) -> P (V_Enum n w p)).
Context (Hrecord : forall n fs, Forall (fun f => P (snd f)) fs -> P (V_Record n fs)).

(** Induction through payloads and fields. *)
Fixpoint RuntimeValue_rec' (v : RuntimeValue) : P v :=
  match v with
  | V_Enum n w p =>
      Henum n w p
        (match p with
         | Some q => fun q' Hq => match Hq in _ = o return match o with Some x => P x | None => True end with
                                  | eq_refl => RuntimeValue_rec' q
                                  end
         | None => fun q' Hq => match Hq in _ = o return match o with Some x => P x | None => True end with
                                | eq_refl => I
                                end
         end)
  | V_Record n fs =>
      Hrecord n fs
        ((fix go (l : list (string * RuntimeValue)) : Forall (fun f => P (snd f)) l :=
            match l with
            | [] => Forall_nil_2 _
            | f :: l' => Forall_cons_2 _ f l' (RuntimeValue_rec' (snd f)) (go l')
            end) fs)
  | v => Hbase v ltac:(done) ltac:(done)
  end.
End RuntimeValue_ind.

Section Types.
Context `{Platform} (env : Env).

Inductive has_type : string -> RuntimeValue -> Prop :=
  | has_builtin ty v : has_builtin_type ty v = true -> has_type ty v
  | has_enum ty variant payload enum_ty v :
      env_enum env ty = Some enum_ty ->
      List.find (fun v => String.eqb (variant_name v) variant) (enum_type_variants enum_ty) = Some v ->
      has_payload (payload_type v) payload -> has_type ty (V_Enum ty variant payload)
  | has_record ty fields struct_ty :
      env_struct env ty = Some struct_ty -> has_fields fields (struct_fields struct_ty) ->
      has_type ty (V_Record ty fields)
with has_payload : option string -> option RuntimeValue -> Prop :=
  | no_payload : has_payload None None
  | some_payload ty v : has_type ty v -> has_payload (Some ty) (Some v)
with has_fields : list (string * RuntimeValue) -> list StructField -> Prop :=
  | no_fields : has_fields [] []
  | cons_field v t fields tys :
      has_type (field_ty t) v -> has_fields fields tys -> has_fields ((field_name t, v) :: fields) (t :: tys).

Lemma ensure_builtin ty v :
  (forall n w p, v <> V_Enum n w p) -> (forall n fs, v <> V_Record n fs) ->
  ensure_type env ty v = RunOk tt <-> has_builtin_type ty v = true.
Proof.
  intros He Hr. destruct v; try (by destruct (He name variant payload)); try (by destruct (Hr name fields));
    cbn; repeat case_match; naive_solver.
Qed.

(** The loop over the fields of a record. *)
Lemma ensure_fields_iff name fields tys :
  Forall (fun f => forall ty, ensure_type env ty (snd f) = RunOk tt <-> has_type ty (snd f)) fields ->
  length fields = length tys ->
  (fix ensure_fields (fields : list (string * RuntimeValue)) (tys : list StructField) : Result unit RuntimeError :=
     match fields, tys with
     | (field, value) :: fields', t :: tys' =>
         if negb (String.eqb field (field_name t))
         then message ("record `" ++ name ++ "` field order mismatch: expected `" ++ field_name t
                       ++ "`, found `" ++ field ++ "`")%string
         else res_bind (ensure_type env (field_ty t) value) (fun _ => ensure_fields fields' tys')
     | _, _ => RunOk tt
     end) fields tys = RunOk tt <-> has_fields fields tys.
Proof.
  intros Hf. revert tys. induction Hf as [|[field v] fields Hv Hf IH]; intros [|t tys] Hlen; try done.
  - split; [constructor|done].
  - cbn in Hlen, Hv. specialize (IH tys ltac:(lia)). specialize (Hv (field_ty t)).
    destruct (String.eqb_spec field (field_name t)) as [->|Hne]; cbn [negb].
    + split.
      * intros Hr. destruct (ensure_type env (field_ty t) v) as [[]|] eqn:Hty; [|done].
        constructor; [by apply Hv|by apply IH].
      * intros Hr. inversion Hr as [|? ? ? ? Hty Hfs]; subst. rewrite (proj2 Hv Hty). by apply IH.
    + split; [done|]. intros Hr. inversion Hr; subst; by destruct Hne.
Qed.

Lemma has_fields_length fields tys : has_fields fields tys -> length fields = length tys.
Proof. induction 1; cbn; congruence. Qed.

Lemma ensure_type_iff v : forall ty, ensure_type env ty v = RunOk tt <-> has_type ty v.
Proof.
  induction v as [v He Hr|name variant payload IH|name fields IH] using RuntimeValue_rec'; intros ty.
  - rewrite ensure_builtin by done. split; [by constructor|].
    intros Ht. inversion Ht; subst; [done|exfalso; by eapply He|exfalso; by eapply Hr].
  - cbn [ensure_type]. unfold ok_or. destruct (env_enum env ty) as [enum_ty|] eqn:Henv; cbn [res_bind].
    2:{ split; [done|]. intros Ht. inversion Ht; subst; [done|congruence]. }
    destruct (String.eqb_spec name ty) as [->|Hne]; cbn [negb].
    2:{ split; [done|]. intros Ht. inversion Ht; subst; by try destruct Hne. }
    destruct (List.find _ (enum_type_variants enum_ty)) as [v|] eqn:Hfind.
    2:{ split; [done|]. intros Ht. inversion Ht; subst; [done|congruence]. }
    transitivity (has_payload (payload_type v) payload).
    + destruct (payload_type v) as [pty|], payload as [p|].
      * rewrite (IH p eq_refl pty). split; [by constructor|]. intros Hp. by inversion Hp.
      * split; [done|]. intros Hp. inversion Hp.
      * split; [done|]. intros Hp. inversion Hp.
      * split; [constructor|done].
    + split; [by econstructor|]. intros Ht. inversion Ht; subst; [done|]. congruence.
  - cbn [ensure_type]. unfold ok_or. destruct (env_struct env ty) as [struct_ty|] eqn:Henv; cbn [res_bind].
    2:{ split; [done|]. intros Ht. inversion Ht; subst; [done|congruence]. }
    destruct (String.eqb_spec name ty) as [->|Hne]; cbn [negb].
    2:{ split; [done|]. intros Ht. inversion Ht; subst; by try destruct Hne. }
    destruct (Nat.eqb_spec (length fields) (length (struct_fields struct_ty))) as [Hlen|Hlen]; cbn [negb].
    + rewrite ensure_fields_iff by done. split; [by econstructor|].
      intros Ht. inversion Ht; subst; [done|]. congruence.
    + split; [done|]. intros Ht. inversion Ht; subst; [done|].
      exfalso. apply Hlen. replace struct_ty with struct_ty0 by congruence. by apply has_fields_length.
Qed.
End Types.

(** [ensure_type] accepts exactly the values of a type: built-in values of
    their kind, variants of a declared enum with a payload of the declared type
    or none, records with the declared fields in order, each of its type. *)
Theorem ensure_type_decides `{Platform} env ty v : ensure_type env ty v = RunOk tt <-> has_type env ty v.
Proof. apply ensure_type_iff. Qed.

Lemma ensure_args_iff `{Platform} env args params :
  length params = length args ->
  ensure_args env args params = RunOk tt <-> Forall2 (fun p v => has_type env (param_ty p) v) params args.
Proof.
  revert params. induction args as [|v args IH]; intros [|p params] Hlen; try done.
  cbn in Hlen. specialize (IH params ltac:(lia)). cbn [ensure_args]. unfold res_bind. split.
  - intros Hr. destruct (ensure_type env (param_ty p) v) as [[]|] eqn:Hty; [|done].
    constructor; [by apply ensure_type_iff|by apply IH].
  - intros Hr. inversion Hr as [|? ? ? ? Hv Hvs]; subst. apply ensure_type_iff in Hv. rewrite Hv. by apply IH.
Qed.

(** The arguments are those a call from outside may have. *)
Definition callable `{Platform} (env : Env) (name : string) (args : list RuntimeValue) (f : Function) : Prop :=
  (name = "main"%string -> fn_params f = []) /\
  Forall2 (fun p v => has_type env (param_ty p) v) (fn_params f) args.

(** [run_function] runs a function exactly when it exists, takes as many
    parameters as there are arguments, of their types, and none if it is
    [main]; otherwise it is an error, before anything runs. *)
Theorem run_function_checks `{Platform} env n h name args :
  match env_function env name with
  | Some f =>
      (callable env name args f -> run_function env n h name args = execute_function env n h f args) /\
      (~ callable env name args f -> exists e, forall n h, run_function env n h name args = Raised e)
  | None => run_function env n h name args = Raised (Message ("unknown function `" ++ name ++ "`"))
  end.
Proof.
  unfold run_function, checked_function, ok_or, res_bind.
  destruct (env_function env name) as [f|]; [|done].
  destruct (String.eqb name "main" && negb (length (fn_params f) =? 0)) eqn:Hmain.
  { apply andb_true_iff in Hmain as [Hname%String.eqb_eq Hp%negb_true_iff].
    split; [|by eexists]. intros [Hnil _]. by rewrite (Hnil Hname) in Hp. }
  destruct (Nat.eqb_spec (length (fn_params f)) (length args)) as [Hlen|Hlen]; cbn [negb].
  - pose proof (ensure_args_iff env args (fn_params f) Hlen) as Hiff.
    destruct (ensure_args env args (fn_params f)) as [[]|e].
    + split; [done|]. intros Hno. exfalso. apply Hno. split; [|by apply Hiff].
      intros ->. destruct (fn_params f); [done|]. done.
    + split; [|by eexists]. intros [_ Hargs%Hiff]. done.
  - split; [|by eexists]. intros [_ Hargs]. by rewrite (Forall2_length _ _ _ Hargs) in Hlen.
Qed.
