(* ===== verification/NumSpec.v ===== *)
(** * The MIR interpreter: integers

    Arithmetic on 64-bit integers with its overflow, bit operations and shifts
    on the low 32 bits, division and remainder. *)
From S2P Require Import Prelude Syntax Utf8 TextOps Float64 Mir Interp Exec Machine Entry Samples.

Open Scope Z_scope.

(** ** Ranges *)

Definition in_i32 (z : Z) : Prop := - 2 ^ 31 <= z < 2 ^ 31.

Lemma wrap_signed_range w z : 0 < w -> - 2 ^ (w - 1) <= wrap_signed w z < 2 ^ (w - 1).
Proof.
  intros Hw. unfold wrap_signed. assert (2 ^ w = 2 * 2 ^ (w - 1)) as Hp.
  { rewrite <- Z.pow_succ_r by lia. f_equal. lia. }
  pose proof (Z.mod_pos_bound z (2 ^ w) ltac:(lia)).
  destruct (Z.ltb_spec (z mod 2 ^ w) (2 ^ (w - 1))); lia.
Qed.

Lemma wrap_signed_mod w z : 0 < w -> wrap_signed w z mod 2 ^ w = z mod 2 ^ w.
Proof.
  intros Hw. assert (0 < 2 ^ w) as Hp by (apply Z.pow_pos_nonneg; lia). unfold wrap_signed.
  destruct (_ <? _); [by apply Z.mod_mod; lia|].
  replace (z mod 2 ^ w - 2 ^ w) with (z mod 2 ^ w + (-1) * 2 ^ w) by lia.
  rewrite Z.mod_add by lia. apply Z.mod_mod. lia.
Qed.

Lemma wrap_signed_id w z : 0 < w -> - 2 ^ (w - 1) <= z < 2 ^ (w - 1) -> wrap_signed w z = z.
Proof.
  intros Hw Hz. assert (2 ^ w = 2 * 2 ^ (w - 1)) as Hp.
  { rewrite <- Z.pow_succ_r by lia. f_equal. lia. }
  unfold wrap_signed. destruct (Z.leb_spec 0 z).
  - rewrite Z.mod_small by lia. destruct (Z.ltb_spec z (2 ^ (w - 1))); lia.
  - rewrite <- (Z.mod_add z 1) by lia. rewrite Z.mod_small by lia.
    destruct (Z.ltb_spec (z + 1 * 2 ^ w) (2 ^ (w - 1))); lia.
Qed.

Lemma in_i64_range z : in_i64 z = true <-> - 2 ^ 63 <= z < 2 ^ 63.
Proof. unfold in_i64, i64_min, i64_max. rewrite andb_true_iff, !Z.leb_le. lia. Qed.

Lemma wrap_64_in z : in_i64 (wrap_signed 64 z) = true.
Proof. apply in_i64_range. by apply (wrap_signed_range 64). Qed.

(** A 32-bit integer is its sign above bit 31. *)
Lemma in_i32_shiftr z : in_i32 z <-> Z.shiftr z 31 = 0 \/ Z.shiftr z 31 = -1.
Proof.
  unfold in_i32. rewrite Z.shiftr_div_pow2 by lia.
  pose proof (Z.div_mod z (2 ^ 31) ltac:(lia)). pose proof (Z.mod_pos_bound z (2 ^ 31) ltac:(lia)). lia.
Qed.

Lemma as_i32_range z : in_i32 (as_i32 z).
Proof. by apply (wrap_signed_range 32). Qed.

Lemma as_i32_testbit z i : 0 <= i < 32 -> Z.testbit (as_i32 z) i = Z.testbit z i.
Proof.
  intros Hi. rewrite <- (Z.mod_pow2_bits_low (as_i32 z) 32 i), <- (Z.mod_pow2_bits_low z 32 i) by lia.
  unfold as_i32. by rewrite wrap_signed_mod.
Qed.

Section Ops.
Context `{Platform} (env : Env) (c : Core) (dest left right : ValueId) (l r : Z).
Context (Hl : values c !! left = Some (V_Int l)) (Hr : values c !! right = Some (V_Int r)).
Context (Hdest : (dest < length (values c))%nat).

(** ** Bits *)

Lemma run_bitwise_eq op : run_bitwise dest left right op c = Ok (tt, upd c dest (V_Int (op (as_i32 l) (as_i32 r)))).
Proof. unfold run_bitwise. run_op. by apply set_value_ok. Qed.

Lemma run_shift_eq op : run_shift dest left right op c = Ok (tt, upd c dest (V_Int (op (as_i32 l) (r mod 32)))).
Proof.
  unfold run_shift. run_op. rewrite set_value_ok by done. do 4 f_equal.
  change 31 with (Z.ones 5). by rewrite Z.land_ones.
Qed.

(** ** Division *)

Lemma run_div_eq :
  run_div dest left right c =
  if r =? 0 then Err (Message "division by zero")
  else if in_i64 (Z.quot l r) then Ok (tt, upd c dest (V_Int (Z.quot l r))) else Panic.
Proof.
  unfold run_div. run_op. destruct (r =? 0); [done|]. destruct (in_i64 (Z.quot l r)); [|done].
  run_op. by apply set_value_ok.
Qed.

Lemma run_arithmetic_eq int_op f64_op kind :
  run_arithmetic dest left right int_op f64_op kind c =
  (let! z := int_op l r in set_value dest (V_Int z)) c.
Proof. unfold run_arithmetic. by run_op. Qed.

Lemma run_rem_eq :
  run_arithmetic dest left right int_rem f64_rem "rem" c =
  if r =? 0 then Panic
  else if in_i64 (Z.quot l r) then Ok (tt, upd c dest (V_Int (Z.rem l r))) else Panic.
Proof.
  rewrite run_arithmetic_eq. unfold int_rem. destruct (r =? 0); [done|].
  destruct (in_i64 (Z.quot l r)); [|done]. run_op. by apply set_value_ok.
Qed.
End Ops.

Lemma quot_in_i64 l r :
  in_i64 l = true -> in_i64 r = true -> r <> 0 -> ~ (l = i64_min /\ r = -1) -> in_i64 (Z.quot l r) = true.
Proof.
  rewrite !in_i64_range. unfold i64_min. intros Hl Hr Hr0 Hmin.
  destruct (decide (r = -1)) as [->|Hr1].
  - assert (Z.quot l (-1) = - l) as ->; [|lia].
    rewrite <- Z.quot_opp_opp by lia. apply Z.quot_1_r.
  - assert (r = 1 \/ 2 <= Z.abs r) as [->|Hr2] by lia; [by rewrite Z.quot_1_r|].
    assert (Z.abs (Z.quot l r) <= 2 ^ 62) as Hq; [|lia].
    rewrite <- Z.quot_abs by lia.
    transitivity (Z.quot (Z.abs l) 2).
    + apply Z.quot_le_compat_l; lia.
    + rewrite Z.quot_div_nonneg by lia. apply Z.div_le_upper_bound; lia.
Qed.

(** ** The theorems *)

(** [BitAnd], [BitOr] and [BitXor] work on the low 32 bits of their operands,
    bit by bit, and give a 32-bit integer. *)
Theorem bit_operations `{Platform} env f args c dest left right l r :
  values c !! left = Some (V_Int l) -> values c !! right = Some (V_Int r) ->
  (dest < length (values c))%nat ->
  Forall (fun '(inst, bit) => exists z m,
      simple env f args inst = Some m /\ m c = Ok (tt, upd c dest (V_Int z)) /\ in_i32 z /\
      forall i, 0 <= i < 32 -> Z.testbit z i = bit (Z.testbit l i) (Z.testbit r i))
    [(I_BitAnd dest left right, andb); (I_BitOr dest left right, orb); (I_BitXor dest left right, xorb)].
Proof.
  intros Hl Hr Hd.
  pose proof (proj1 (in_i32_shiftr _) (as_i32_range l)) as Rl.
  pose proof (proj1 (in_i32_shiftr _) (as_i32_range r)) as Rr.
  repeat constructor; do 2 eexists; (split; [reflexivity|]); (split; [by apply run_bitwise_eq|]); split.
  1,3,5: apply in_i32_shiftr; rewrite ?Z.shiftr_land, ?Z.shiftr_lor, ?Z.shiftr_lxor;
    destruct Rl as [-> | ->], Rr as [-> | ->]; vm_compute; auto.
  all: intros i Hi; rewrite ?Z.land_spec, ?Z.lor_spec, ?Z.lxor_spec; by rewrite !as_i32_testbit.
Qed.

(** A core with two integers and room for a result. *)
Definition sample_core (l r : Z) : Core :=
  mkCore Entry.new_heap [V_Int l; V_Int r; V_Unit] [].

Lemma bit_operations_witness :
  exists z m, simple sum_env sum_main [] (I_BitAnd 2 0 1)%nat = Some m /\
    m (sample_core 12 (2 ^ 40 + 10)) = Ok (tt, upd (sample_core 12 (2 ^ 40 + 10)) 2%nat (V_Int z)) /\ in_i32 z.
Proof.
  pose proof (bit_operations sum_env sum_main [] (sample_core 12 (2 ^ 40 + 10)) 2%nat 0%nat 1%nat 12 (2 ^ 40 + 10)
    eq_refl eq_refl ltac:(cbn; lia)) as Hb.
  inversion Hb as [|? ? Hand _]. destruct Hand as (z & m & H1 & H2 & H3 & _). by exists z, m.
Defined.

(** [Shl] and [Shr] take the shift amount modulo 32; [Shl] keeps the low 32
    bits of the product, [Shr] rounds down, and both give a 32-bit integer. *)
Theorem shift_operations `{Platform} env f args c dest left right l r :
  values c !! left = Some (V_Int l) -> values c !! right = Some (V_Int r) ->
  (dest < length (values c))%nat ->
  exists zl zr ml mr,
    simple env f args (I_Shl dest left right) = Some ml /\ ml c = Ok (tt, upd c dest (V_Int zl)) /\
    simple env f args (I_Shr dest left right) = Some mr /\ mr c = Ok (tt, upd c dest (V_Int zr)) /\
    in_i32 zl /\ in_i32 zr /\
    zl mod 2 ^ 32 = (l * 2 ^ (r mod 32)) mod 2 ^ 32 /\ zr = as_i32 l / 2 ^ (r mod 32).
Proof.
  intros Hl Hr Hd. pose proof (Z.mod_pos_bound r 32 ltac:(lia)) as Hm.
  do 4 eexists. split; [reflexivity|]. split; [by apply run_shift_eq|].
  split; [reflexivity|]. split; [by apply run_shift_eq|]. split; [|split; [|split]].
  - apply as_i32_range.
  - apply in_i32_shiftr. unfold i32_shr. rewrite Z.shiftr_shiftr by lia.
    rewrite Z.add_comm, <- Z.shiftr_shiftr by lia.
    destruct (proj1 (in_i32_shiftr _) (as_i32_range l)) as [-> | ->].
    + left. apply Z.shiftr_0_l.
    + right. rewrite Z.shiftr_div_pow2 by lia. symmetry. apply Z.div_unique with (2 ^ (r mod 32) - 1); [left|];
      pose proof (Z.pow_pos_nonneg 2 (r mod 32)); lia.
  - unfold i32_shl, as_i32 at 1. rewrite wrap_signed_mod, Z.shiftl_mul_pow2 by lia.
    unfold as_i32. rewrite <- Z.mul_mod_idemp_l by lia. rewrite wrap_signed_mod by lia.
    by rewrite Z.mul_mod_idemp_l by lia.
  - apply Z.shiftr_div_pow2. lia.
Qed.

Lemma shift_operations_witness :
  exists zl, in_i32 zl /\ zl mod 2 ^ 32 = ((2 ^ 31 + 1) * 2 ^ (33 mod 32)) mod 2 ^ 32.
Proof.
  destruct (shift_operations sum_env sum_main [] (sample_core (2 ^ 31 + 1) 33) 2%nat 0%nat 1%nat (2 ^ 31 + 1) 33
    eq_refl eq_refl ltac:(cbn; lia)) as (zl & zr & ml & mr & _ & _ & _ & _ & H1 & _ & H2 & _).
  by exists zl.
Defined.

(** C36: [Add], [Sub] and [Mul] on 64-bit integers give the exact result when it
    fits; otherwise they panic in a build that checks overflow and wrap around
    in one that does not.  The result is always a 64-bit integer. *)
Theorem arithmetic_overflow `{Platform} env f args c dest left right l r :
  values c !! left = Some (V_Int l) -> values c !! right = Some (V_Int r) ->
  (dest < length (values c))%nat ->
  Forall (fun '(inst, exact) => exists m, simple env f args inst = Some m /\
      m c = (if negb (in_i64 exact) && overflow_checks env then Panic
             else Ok (tt, upd c dest (V_Int (wrap_signed 64 exact)))) /\
      in_i64 (wrap_signed 64 exact) = true /\ (in_i64 exact = true -> wrap_signed 64 exact = exact))
    [(I_Add dest left right, l + r); (I_Sub dest left right, l - r); (I_Mul dest left right, l * r)].
Proof.
  intros Hl Hr Hd.
  assert (forall z f64_op kind op, op l r = checked env z ->
    run_arithmetic dest left right op f64_op kind c =
    (if negb (in_i64 z) && overflow_checks env then Panic else Ok (tt, upd c dest (V_Int (wrap_signed 64 z))))) as Hop.
  { intros z f64_op kind op Hop. erewrite run_arithmetic_eq by done. rewrite Hop. unfold checked.
    destruct (in_i64 z) eqn:Hz; cbn [negb andb].
    - run_op. rewrite wrap_signed_id by (lia || by apply in_i64_range). by apply set_value_ok.
    - destruct (overflow_checks env); [done|]. run_op. by apply set_value_ok. }
  repeat constructor; eexists; (split; [reflexivity|]); (split; [by apply Hop|]);
    (split; [apply wrap_64_in|]); intros Hz%in_i64_range; by apply wrap_signed_id.
Qed.

Lemma arithmetic_overflow_witness :
  exists m, simple sum_env sum_main [] (I_Add 2 0 1)%nat = Some m /\
    m (sample_core (2 ^ 63 - 1) 1) = Ok (tt, upd (sample_core (2 ^ 63 - 1) 1) 2%nat (V_Int (- 2 ^ 63))).
Proof.
  pose proof (arithmetic_overflow sum_env sum_main [] (sample_core (2 ^ 63 - 1) 1) 2%nat 0%nat 1%nat (2 ^ 63 - 1) 1
    eq_refl eq_refl ltac:(cbn; lia)) as Ha.
  inversion Ha as [|? ? Hadd _]. destruct Hadd as (m & H1 & H2 & _). exists m. split; [exact H1|].
  rewrite H2. vm_compute. reflexivity.
Defined.

(** [Div] and [Rem] of 64-bit integers: by zero the one fails and the other
    panics; [i64::MIN] by -1 panics in both; otherwise they give the quotient
    rounded towards zero and the remainder with the sign of the dividend. *)
Theorem division_and_remainder `{Platform} env f args c dest left right l r :
  values c !! left = Some (V_Int l) -> values c !! right = Some (V_Int r) ->
  (dest < length (values c))%nat -> in_i64 l = true -> in_i64 r = true ->
  exists div rem,
    simple env f args (I_Div dest left right) = Some div /\
    simple env f args (I_Rem dest left right) = Some rem /\
    if r =? 0 then div c = Err (Message "division by zero") /\ rem c = Panic
    else if (l =? i64_min) && (r =? -1) then div c = Panic /\ rem c = Panic
    else exists q m, div c = Ok (tt, upd c dest (V_Int q)) /\ rem c = Ok (tt, upd c dest (V_Int m)) /\
      in_i64 q = true /\ l = r * q + m /\ Z.abs m < Z.abs r /\ 0 <= l * m.
Proof.
  intros Hl Hr Hd Hl64 Hr64. do 2 eexists. split; [reflexivity|]. split; [reflexivity|].
  rewrite (run_div_eq c dest left right l r), (run_rem_eq c dest left right l r) by done.
  destruct (Z.eqb_spec r 0) as [->|Hr0]; [done|].
  destruct (Z.eqb_spec l i64_min) as [->|Hmin]; [destruct (Z.eqb_spec r (-1)) as [->|Hr1]; [done|]|];
    cbn [andb]; (rewrite quot_in_i64 by (done || tauto)); do 2 eexists; (do 2 (split; [reflexivity|]));
    (split; [by apply quot_in_i64; tauto|]); (split; [by apply Z.quot_rem|]);
    (split; [by apply Z.rem_bound_abs|]); rewrite Z.mul_comm; by apply Z.rem_sign_mul.
Qed.

Lemma division_and_remainder_witness :
  exists div, simple sum_env sum_main [] (I_Div 2 0 1)%nat = Some div /\
    div (sample_core 7 0) = Err (Message "division by zero").
Proof.
  destruct (division_and_remainder sum_env sum_main [] (sample_core 7 0) 2%nat 0%nat 1%nat 7 0
    eq_refl eq_refl ltac:(cbn; lia) eq_refl eq_refl) as (div & rem & H1 & _ & H2 & _).
  by exists div.
Defined.
