(* ===== verification/TextSpec.v ===== *)
(** * The MIR interpreter: text

    Slices between character boundaries, the search for a byte, text builders
    and text indices. *)
From stdpp Require Import gmap pretty.
From S2P Require Import Prelude Syntax Utf8 TextOps Float64 Mir Interp Exec Machine Entry Eval.
From S2P Require Import Invariant Samples.

Open Scope nat_scope.

(** ** Boundaries *)

Definition continues (l : list Ascii.ascii) (k : nat) : Prop :=
  exists a, l !! k = Some a /\ is_continuation a = true.

(** [j] is the first boundary from [i] on; the last one up to [i]. *)
Definition boundary_up (l : list Ascii.ascii) (i j : nat) : Prop :=
  no_cont_at l j /\ i <= j /\ forall k, i <= k < j -> continues l k.
Definition boundary_down (l : list Ascii.ascii) (i j : nat) : Prop :=
  no_cont_at l j /\ j <= i /\ forall k, j < k <= i -> continues l k.

Lemma skip_continuation_continues l k : k < skip_continuation l -> continues l k.
Proof.
  revert k. induction l as [|a l IH]; intros k; cbn [skip_continuation]; [lia|].
  destruct (is_continuation a) eqn:Ha; [|lia]. intros Hk. destruct k as [|k]; [by exists a|].
  destruct (IH k) as (b & ? & ?); [lia|]. by exists b.
Qed.

Lemma clamp_start_up l z : boundary_up l (clamp_index (length l) z) (clamp_text_slice_start l z).
Proof.
  destruct (clamp_text_slice_start_ok l z) as [H1 H2]. split; [done|]. split; [done|].
  unfold clamp_text_slice_start in *. intros k Hk.
  destruct (skip_continuation_continues (drop (clamp_index (length l) z) l) (k - clamp_index (length l) z))
    as (a & Ha & Hc); [lia|].
  exists a. rewrite lookup_drop in Ha. split; [|done]. rewrite <- Ha. f_equal. lia.
Qed.

Lemma back_to_boundary_continues l i j :
  back_to_boundary l i = Some j -> forall k, j < k <= i -> continues l k.
Proof.
  revert j. induction i as [|i IH]; intros j; cbn [back_to_boundary].
  - destruct (l !! 0) as [a|] eqn:Ha; [destruct (is_continuation a) eqn:Hc; [done|]|]; intros [= <-]; lia.
  - destruct (l !! S i) as [a|] eqn:Ha; [destruct (is_continuation a) eqn:Hc|].
    + intros Hj k Hk. destruct (decide (k = S i)) as [->|]; [by exists a|]. apply (IH j); [done|lia].
    + intros [= <-]. lia.
    + intros [= <-]. lia.
Qed.

Lemma clamp_end_down l z :
  utf8_valid l = true ->
  exists j, clamp_text_slice_end l z = Some j /\ boundary_down l (clamp_index (length l) z) j.
Proof.
  intros Hl. destruct (clamp_text_slice_end_ok l z Hl) as (j & Hj & H1 & H2). exists j.
  split; [done|]. split; [done|]. split; [done|]. by apply back_to_boundary_continues.
Qed.

(** [TextSlice] cuts a text between the first character boundary from the
    start index on and the last one up to the end index, both clamped to the
    text; the slice is empty when they cross. It never splits a character and
    never panics. *)
Theorem text_slice_spec `{Platform} env f args c dest text start end_ t s e :
  values c !! text = Some (V_Text t) -> text_ok t = true ->
  values c !! start = Some (V_Int s) -> values c !! end_ = Some (V_Int e) ->
  dest < length (values c) ->
  exists m i j u, simple env f args (I_TextSlice dest text start end_) = Some m /\
    boundary_up (bytes t) (clamp_index (length (bytes t)) s) i /\
    boundary_down (bytes t) (clamp_index (length (bytes t)) e) j /\
    m c = Ok (tt, upd c dest (V_Text u)) /\ bytes u = slice (bytes t) i j /\ text_ok u = true.
Proof.
  intros Ht Hok Hs He Hd.
  pose proof (clamp_start_up (bytes t) s) as Hup. destruct (clamp_end_down (bytes t) e Hok) as (j & Hj & Hdown).
  set (i := clamp_text_slice_start (bytes t) s) in *.
  assert (Hrun : forall u, (if j <=? i then set_value dest (V_Text "")
      else if (i =? 0) && (j =? length (bytes t)) then set_value dest (V_Text t)
      else let! sliced := or_panic (from_utf8 (slice (bytes t) i j)) in set_value dest (V_Text sliced)) c
      = Ok (tt, upd c dest (V_Text u)) -> text_slice dest text start end_ c = Ok (tt, upd c dest (V_Text u))).
  { intros u Hu. unfold text_slice. run_op. fold i. unfold clamp_end. rewrite Hj. run_op. exact Hu. }
  destruct (Nat.leb_spec j i) as [Hle|Hlt].
  { do 4 eexists. split; [reflexivity|]. split; [exact Hup|]. split; [exact Hdown|].
    split; [apply Hrun; by apply set_value_ok|]. by rewrite slice_ge. }
  destruct ((i =? 0) && (j =? length (bytes t))) eqn:Hfull.
  { apply andb_true_iff in Hfull as [Hi0%Nat.eqb_eq Hjl%Nat.eqb_eq].
    do 4 eexists. split; [reflexivity|]. split; [exact Hup|]. split; [exact Hdown|].
    split; [apply Hrun; by apply set_value_ok|]. rewrite Hi0, Hjl, slice_full. done. }
  assert (utf8_valid (slice (bytes t) i j) = true) as Hv.
  { apply utf8_valid_slice; [done|apply Hup|apply Hdown|lia]. }
  do 4 eexists. split; [reflexivity|]. split; [exact Hup|]. split; [exact Hdown|].
  unfold from_utf8 in Hrun. rewrite Hv in Hrun.
  split; [apply Hrun; run_op; by apply set_value_ok|].
  unfold text_ok. by rewrite bytes_string.
Qed.

(** [h, e with an acute accent, l], and the indices 0 and 2. *)
Definition accent_text : string := from_utf8_lossy (map Ascii.ascii_of_nat [104; 195; 169; 108]).
Definition text_core : Core :=
  mkCore new_heap [V_Text accent_text; V_Int 0; V_Int 2; V_Unit; V_Int 108] [].

Lemma text_slice_spec_witness :
  exists m u, simple sum_env sum_main [] (I_TextSlice 3 0 1 2) = Some m /\
    m text_core = Ok (tt, upd text_core 3 (V_Text u)) /\ u = "h"%string.
Proof.
  destruct (text_slice_spec sum_env sum_main [] text_core 3 0 1 2 accent_text 0 2
    eq_refl eq_refl eq_refl eq_refl ltac:(cbn; lia)) as (m & i & j & u & H1 & H2 & H3 & H4 & H5 & H6).
  exists m, u. split; [exact H1|]. split; [exact H4|].
  injection H1 as <-. vm_compute in H4. by injection H4 as <-.
Defined.

(** ** Searching *)

(** The position the search answers: of the first [b] in [i .. j], or [j]. *)
Definition first_byte (l : list Ascii.ascii) (i j : nat) (b : Ascii.ascii) (past : bool) (p : nat) : Prop :=
  (exists q, i <= q < j /\ l !! q = Some b /\ (forall k, i <= k < q -> l !! k <> Some b) /\
     p = if past then S q else q) \/
  ((forall k, i <= k < j -> l !! k <> Some b) /\ p = j).

(** [TextFieldEnd] and [TextNextField] answer where the first occurrence of the
    byte in the clamped range is, or begins the rest, and the end of the range
    when there is none. *)
Theorem text_field_spec `{Platform} env f args c dest source start end_ byte t s e b :
  values c !! source = Some (V_Text t) -> text_ok t = true ->
  values c !! start = Some (V_Int s) -> values c !! end_ = Some (V_Int e) ->
  values c !! byte = Some (V_Int b) -> dest < length (values c) ->
  exists i j j', boundary_up (bytes t) (clamp_index (length (bytes t)) s) i /\
    boundary_down (bytes t) (clamp_index (length (bytes t)) e) j /\ j' = Nat.max i j /\
    Forall (fun '(inst, past) => exists m p, simple env f args inst = Some m /\
        m c = Ok (tt, upd c dest (V_Int (Z.of_nat p))) /\ first_byte (bytes t) i j' (as_u8 b) past p)
      [(I_TextFieldEnd dest source start end_ byte, false); (I_TextNextField dest source start end_ byte, true)].
Proof.
  intros Ht Hok Hs He Hb Hd.
  pose proof (clamp_start_up (bytes t) s) as Hup. destruct (clamp_end_down (bytes t) e Hok) as (j & Hj & Hdown).
  set (i := clamp_text_slice_start (bytes t) s) in *.
  exists i, j, (Nat.max i j). split; [exact Hup|]. split; [exact Hdown|]. split; [done|].
  assert (forall past, exists p, text_field past dest source start end_ byte c
    = Ok (tt, upd c dest (V_Int (Z.of_nat p))) /\ first_byte (bytes t) i (Nat.max i j) (as_u8 b) past p) as Hf.
  { intros past. unfold text_field. run_op. unfold clamped_range. fold i.
    unfold clamp_end. rewrite Hj. run_op. cbn [fst snd].
    assert ((if j <? i then i else j) = Nat.max i j) as -> by (destruct (Nat.ltb_spec j i); lia).
    unfold find_byte. rewrite !Nat.add_0_l.
    destruct Hup as [[? _] _], Hdown as [[? _] _].
    pose proof (find_byte_loop_ok (bytes t) (as_u8 b) (Nat.max i j - i) i ltac:(lia)) as Hfind.
    destruct (find_byte_loop _ _ _ _) as [[q|]|]; [..|done]; run_op; cbn [option_map].
    - destruct Hfind as (Hq & Hqb & Hno). eexists. split; [by apply set_value_ok|]. left. exists q.
      split; [lia|]. split; [done|]. split; [done|]. rewrite Nat.sub_0_r. by destruct past.
    - eexists. split; [by apply set_value_ok|]. right. split; [|done]. intros k Hk. apply Hfind. lia. }
  repeat constructor; [destruct (Hf false) as (p & Hp & Hfirst)|destruct (Hf true) as (p & Hp & Hfirst)];
    eexists _, p; (split; [reflexivity|]); by split.
Qed.

Lemma text_field_spec_witness :
  exists m p i j, simple sum_env sum_main [] (I_TextFieldEnd 3 0 1 4 4) = Some m /\
    m text_core = Ok (tt, upd text_core 3 (V_Int (Z.of_nat p))) /\
    first_byte (bytes accent_text) i j (as_u8 108) false p.
Proof.
  destruct (text_field_spec sum_env sum_main [] text_core 3 0 1 4 4 accent_text 0 108 108
    eq_refl eq_refl eq_refl eq_refl eq_refl ltac:(cbn; lia)) as (i & j & j' & _ & _ & _ & Hf).
  inversion Hf as [|? ? Hend _]. destruct Hend as (m & p & H1 & H2 & H3).
  by exists m, p, i, j'.
Defined.

(** ** Text builders *)

(** A run over instructions of one kind, for any fuel that is enough. *)
Lemma exec_simple_cons `{Platform} env n f args i rest c m c' :
  simple env f args i = Some m -> m c = Ok (tt, c') ->
  exec env (S (S n)) f args (i :: rest) c = exec env (S n) f args rest c'.
Proof.
  intros Hm Hc. rewrite exec_cons. erewrite exec_inst_simple by exact Hm. by rewrite Hc.
Qed.

(** The core after texts were appended to builder [id], whose value is at [dest] too. *)
Definition append_core (c : Core) (dest id : nat) (b : list Ascii.ascii) : Core :=
  upd (with_heap c (set_builders (heap c) (<[id := b]> (text_builders (heap c))))) dest (V_TextBuilder id).

Lemma text_builder_append_run `{Platform} c dest builder text id b t :
  values c !! builder = Some (V_TextBuilder id) -> text_builders (heap c) !! id = Some b ->
  values c !! text = Some (V_Text t) -> dest < length (values c) ->
  text_builder_append dest builder text c = Ok (tt, append_core c dest id (b ++ bytes t)).
Proof.
  intros Hb Hid Ht Hd. unfold text_builder_append, append. run_op. by rewrite set_value_ok.
Qed.

Lemma text_builder_finish_run `{Platform} c dest builder id b t :
  values c !! builder = Some (V_TextBuilder id) -> text_builders (heap c) !! id = Some b ->
  from_utf8 b = Some t -> dest < length (values c) ->
  text_builder_finish dest builder c =
  Ok (tt, upd (with_heap c (set_builders (heap c) (<[id := []]> (text_builders (heap c))))) dest (V_Text t)).
Proof.
  intros Hb Hid Ht Hd. unfold text_builder_finish. run_op. rewrite Ht. run_op. by rewrite set_value_ok.
Qed.

Lemma text_ok_concat ts : Forall (fun t => text_ok t = true) ts -> utf8_valid (mjoin (map bytes ts)) = true.
Proof. induction 1; cbn; [done|]. by apply utf8_valid_app. Qed.

(** The identifiers of [ids] hold the texts [ts]. *)
Definition holds_texts (vs : list RuntimeValue) (ids : list ValueId) (ts : list string) : Prop :=
  Forall2 (fun id t => vs !! id = Some (V_Text t)) ids ts.

Lemma holds_texts_insert vs ids ts id v :
  id ∉ ids -> holds_texts vs ids ts -> holds_texts (<[id := v]> vs) ids ts.
Proof.
  intros Hid Hts. induction Hts as [|i t ids ts Hi Hts IH]; [constructor|].
  apply not_elem_of_cons in Hid as [Hne Hid]. constructor; [by rewrite list_lookup_insert_ne|by apply IH].
Qed.

Lemma lookup_snoc {A} (l : list A) x : (l ++ [x]) !! length l = Some x.
Proof. by rewrite lookup_app_r, Nat.sub_diag by lia. Qed.

Lemma insert_snoc {A} (l : list A) x y : <[length l := y]> (l ++ [x]) = l ++ [y].
Proof. rewrite insert_app_r_alt by lia. by rewrite Nat.sub_diag. Qed.

(** From a builder that holds [acc], the last one of the table. *)
Lemma builder_loop `{Platform} env f args builder dest bs texts ts acc c n :
  length texts + 2 <= n -> builder ∉ texts -> builder < length (values c) -> dest < length (values c) ->
  values c !! builder = Some (V_TextBuilder (length bs)) -> text_builders (heap c) = bs ++ [acc] ->
  utf8_valid (acc ++ mjoin (map bytes ts)) = true -> holds_texts (values c) texts ts ->
  exists c' u,
    exec env n f args (map (fun t => I_TextBuilderAppend builder builder t) texts
      ++ [I_TextBuilderFinish dest builder]) c = EOk c' /\
    values c' !! dest = Some (V_Text u) /\ bytes u = acc ++ mjoin (map bytes ts) /\
    text_builders (heap c') = bs ++ [[]].
Proof.
  revert ts acc c n. induction texts as [|t texts IH]; intros ts acc c n Hn Hni Hb Hd Hv Hh Hutf Hts;
    (destruct n as [|[|n]]; [cbn in Hn; lia..|]); cbn [map app];
    assert (text_builders (heap c) !! length bs = Some acc) as Hid by (rewrite Hh; apply lookup_snoc).
  - inversion Hts; subst; clear Hts. cbn [map mjoin list_join] in *. rewrite app_nil_r in *.
    erewrite exec_simple_cons; [|reflexivity|].
    2:{ eapply text_builder_finish_run; [done|done|unfold from_utf8; by rewrite Hutf|done]. }
    do 2 eexists. split; [reflexivity|]. cbn. split; [by apply list_lookup_insert_eq|].
    split; [apply bytes_string|]. rewrite Hh. apply insert_snoc.
  - inversion Hts as [|? t' ? ts' Ht Hts']; subst; clear Hts.
    apply not_elem_of_cons in Hni as [Hne Hni].
    erewrite exec_simple_cons; [|reflexivity|by eapply text_builder_append_run].
    destruct (IH ts' (acc ++ bytes t') (append_core c builder (length bs) (acc ++ bytes t')) (S n))
      as (c' & u & H1 & H2 & H3 & H4); cbn [append_core upd values heap with_heap text_builders set_builders];
      rewrite ?length_insert; try done.
    + cbn in Hn. lia.
    + by apply list_lookup_insert_eq.
    + rewrite Hh. apply insert_snoc.
    + by rewrite <- app_assoc.
    + by apply holds_texts_insert.
    + exists c', u. split; [exact H1|]. split; [exact H2|]. split; [|exact H4].
      rewrite H3. by rewrite <- app_assoc.
Qed.

(** Appending texts to a fresh builder and finishing it gives their
    concatenation, and leaves the builder empty. *)
Theorem text_builder_roundtrip `{Platform} env f args c builder dest texts ts n :
  builder < length (values c) -> dest < length (values c) -> builder ∉ texts ->
  holds_texts (values c) texts ts -> Forall (fun t => text_ok t = true) ts ->
  length texts + 3 <= n ->
  exists c' u,
    exec env n f args
      (I_TextBuilderNew builder :: map (fun t => I_TextBuilderAppend builder builder t) texts
       ++ [I_TextBuilderFinish dest builder]) c = EOk c' /\
    values c' !! dest = Some (V_Text u) /\ bytes u = mjoin (map bytes ts) /\
    text_builders (heap c') = text_builders (heap c) ++ [[]].
Proof.
  intros Hb Hd Hni Hts Hok Hn.
  set (c1 := upd (with_heap c (set_builders (heap c) (text_builders (heap c) ++ [[]]))) builder
               (V_TextBuilder (length (text_builders (heap c))))).
  destruct n as [|[|n]]; [lia..|].
  erewrite (exec_simple_cons _ _ _ _ _ _ _ _ c1); [|reflexivity|].
  2:{ unfold text_builder_new. run_op. by apply set_value_ok. }
  apply (builder_loop env f args builder dest (text_builders (heap c)) texts ts [] c1 (S n));
    cbn [c1 upd values heap with_heap text_builders set_builders]; rewrite ?length_insert; try done.
  - lia.
  - by apply list_lookup_insert_eq.
  - by apply text_ok_concat.
  - by apply holds_texts_insert.
Qed.

Lemma text_builder_roundtrip_witness :
  exists c' u, exec sum_env 10 sum_main []
      [I_TextBuilderNew 1; I_TextBuilderAppend 1 1 0; I_TextBuilderAppend 1 1 0; I_TextBuilderFinish 3 1]
      text_core = EOk c' /\
    values c' !! 3 = Some (V_Text u) /\ bytes u = bytes accent_text ++ bytes accent_text.
Proof.
  destruct (text_builder_roundtrip sum_env sum_main [] text_core 1 3 [0; 0] [accent_text; accent_text] 10)
    as (c' & u & H1 & H2 & H3 & _).
  - cbn. lia.
  - cbn. lia.
  - intros Hin. inversion Hin as [|? ? ? Hin']; subst. by inversion Hin' as [|? ? ? Hin'']; inversion Hin''.
  - repeat constructor.
  - repeat constructor.
  - cbn. lia.
  - exists c', u. split; [exact H1|]. split; [exact H2|]. exact H3.
Defined.

(** ** Text indices *)

(** [TextIndexSet] stores a value that [TextIndexGet] finds under its key and
    under no other, and [TextIndexGetOrInsert] finds it instead of its default. *)
Theorem text_index_set_get `{Platform} env f args c d d' index key key' value next id m0 k k' z z' :
  values c !! index = Some (V_TextIndex id) -> text_indices (heap c) !! id = Some m0 ->
  values c !! key = Some (V_Text k) -> values c !! value = Some (V_Int z) ->
  values c !! key' = Some (V_Text k') -> values c !! next = Some (V_Int z') ->
  d < length (values c) -> d' < length (values c) -> d ∉ [index; key; key'; next] ->
  exists set get get_new c1,
    simple env f args (I_TextIndexSet d index key value) = Some set /\ set c = Ok (tt, c1) /\
    simple env f args (I_TextIndexGet d' index key') = Some get /\
    get c1 = Ok (tt, upd c1 d' (V_Int (if decide (k = k') then z else default (-1)%Z (m0 !! k')))) /\
    simple env f args (I_TextIndexGetOrInsert d' index key next) = Some get_new /\
    get_new c1 = Ok (tt, upd c1 d' (V_Int z)).
Proof.
  intros Hi Hid Hk Hz Hk' Hz' Hd Hd' Hni.
  rewrite !not_elem_of_cons in Hni. destruct Hni as (N1 & N2 & N3 & N4 & _).
  set (c1 := upd (with_heap c (set_indices (heap c) (<[id := <[k := z]> m0]> (text_indices (heap c)))))
               d (V_TextIndex id)).
  assert (values c1 !! index = Some (V_TextIndex id)) as Hi1 by (cbn; by rewrite list_lookup_insert_ne).
  assert (values c1 !! key = Some (V_Text k)) as Hk1 by (cbn; by rewrite list_lookup_insert_ne).
  assert (values c1 !! key' = Some (V_Text k')) as Hk'1 by (cbn; by rewrite list_lookup_insert_ne).
  assert (values c1 !! next = Some (V_Int z')) as Hz'1 by (cbn; by rewrite list_lookup_insert_ne).
  assert (text_indices (heap c1) !! id = Some (<[k := z]> m0)) as Hid1.
  { cbn. apply list_lookup_insert_eq. by eapply lookup_lt_Some. }
  assert (d' < length (values c1)) as Hd1 by (cbn; by rewrite length_insert).
  do 3 eexists. exists c1. split; [reflexivity|]. split.
  { unfold text_index_set. run_op. by apply set_value_ok. }
  split; [reflexivity|]. split.
  { unfold text_index_get. run_op. rewrite set_value_ok by done. do 4 f_equal.
    destruct (decide (k = k')) as [->|Hne]; [by rewrite lookup_insert_eq|by rewrite lookup_insert_ne]. }
  split; [reflexivity|].
  unfold text_index_get_or_insert. run_op. rewrite lookup_insert_eq. by apply set_value_ok.
Qed.

(** An index with one key, and the keys and values to use with it. *)
Definition index_core : Core :=
  mkCore (mkHeap [] [<["b"%string := 5%Z]> ∅] [] [] "")
    [V_TextIndex 0; V_Text "a"; V_Int 7; V_Text "b"; V_Int 9; V_Unit; V_Unit] [].

Lemma text_index_set_get_witness :
  exists set get c1, simple sum_env sum_main [] (I_TextIndexSet 5 0 1 2) = Some set /\
    set index_core = Ok (tt, c1) /\
    simple sum_env sum_main [] (I_TextIndexGet 6 0 3) = Some get /\ get c1 = Ok (tt, upd c1 6 (V_Int 5)).
Proof.
  destruct (text_index_set_get sum_env sum_main [] index_core 5 6 0 1 3 2 4 0 _ "a" "b" 7 9
    eq_refl eq_refl eq_refl eq_refl eq_refl eq_refl ltac:(cbn; lia) ltac:(cbn; lia)
    ltac:(by apply (bool_decide_unpack _))) as (set & get & g & c1 & H1 & H2 & H3 & H4 & _).
  exists set, get, c1. split; [exact H1|]. split; [exact H2|]. split; [exact H3|]. exact H4.
Defined.
