(* ===== verification/DataSpec.v ===== *)
(** * The MIR interpreter: lists, records, enums and argument types *)
From stdpp Require Import gmap pretty.
From S2P Require Import Prelude Syntax Utf8 TextOps Float64 Mir Interp Sorts Exec Machine.
From S2P Require Import Entry Eval Invariant Samples.

Open Scope nat_scope.

(** ** Lists *)

(** The core with list [id] replaced and its handle at [dest]. *)
Definition list_core (c : Core) (dest id : nat) (l : list RuntimeValue) : Core :=
  upd (with_heap c (set_lists (heap c) (<[id := l]> (lists (heap c))))) dest (V_List id).

Lemma list_core_lookup c dest id l l0 :
  lists (heap c) !! id = Some l0 -> lists (heap (list_core c dest id l)) !! id = Some l.
Proof. intros Hl. cbn. apply list_lookup_insert_eq. by eapply lookup_lt_Some. Qed.

(** The capacity to which [ListPush] grows a list of [n] elements. *)
Definition grown (n : nat) : nat := if n =? 0 then 8 else 2 * n.

(** [ListNew] on every number: a list of as many copies of the value at the end of
    the lists; a length below zero is an error, and one that does not fit a panic. *)
Theorem list_new_spec `{Platform} env f args c dest len value n v :
  values c !! len = Some (V_Int n) -> values c !! value = Some v -> dest < length (values c) ->
  exists m, simple env f args (I_ListNew dest len value) = Some m /\
    if (n <? 0)%Z then m c = Err (Message "list_new length must be non-negative")
    else if vec_fits n then
      m c = Ok (tt, upd (with_heap c (set_lists (heap c) (lists (heap c) ++ [replicate (Z.to_nat n) v])))
                      dest (V_List (length (lists (heap c)))))
    else m c = Panic.
Proof.
  intros Hlen Hv Hd. eexists. split; [reflexivity|]. unfold list_new. run_op.
  destruct (n <? 0)%Z; [done|]. destruct (vec_fits n); cbn [negb]; [|done]. run_op. by rewrite set_value_ok.
Qed.

(** [ListPush] at the used length of a list writes the value there, keeps the
    elements before it, and at capacity grows the list to twice its size (8 for
    an empty one) filled with the value, or panics if that does not fit; beyond
    the capacity it fails. *)
Theorem list_push_spec `{Platform} env f args c dest list len value id l n v :
  values c !! list = Some (V_List id) -> lists (heap c) !! id = Some l ->
  values c !! len = Some (V_Int (Z.of_nat n)) -> values c !! value = Some v -> dest < length (values c) ->
  exists m, simple env f args (I_ListPush dest list len value) = Some m /\
    if (n =? length l) && negb (vec_fits (Z.of_nat (grown n))) then m c = Panic
    else if n <=? length l then
      exists l', m c = Ok (tt, list_core c dest id l') /\ l' !! n = Some v /\ take n l' = take n l /\
        length l' = (if n <? length l then length l else grown n)
    else m c = Err (Message "bounds assertion failed in `list_push`").
Proof.
  intros Hlist Hl Hlen Hv Hd. eexists. split; [reflexivity|].
  assert (forall l', (let! _ := put_list id l' in set_value dest (V_List id)) c = Ok (tt, list_core c dest id l')) as Hput.
  { intros l'. run_op. by rewrite set_value_ok. }
  unfold list_push. run_op. rewrite (proj2 (Z.ltb_ge _ _)) by lia. run_op. rewrite Nat2Z.id.
  destruct (Nat.leb_spec n (length l)) as [Hle|Hgt].
  - destruct (Nat.ltb_spec n (length l)) as [Hlt|Hge].
    + rewrite (proj2 (Nat.eqb_neq n (length l))) by lia. cbn [andb]. exists (<[n := v]> l). split; [apply Hput|]. split; [by apply list_lookup_insert_eq|].
      split; [by rewrite take_insert_ge by lia|]. by rewrite length_insert.
    + assert (n = length l) as -> by lia. rewrite Nat.eqb_refl. cbn [andb].
      assert (Nat.max (if length l =? 0 then 8 else length l * 2) (length l + 1) = grown (length l)) as ->.
      { unfold grown. destruct (Nat.eqb_spec (length l) 0); lia. }
      destruct (vec_fits (Z.of_nat (grown (length l)))); cbn [negb]; [|done]. eexists. split; [apply Hput|].
      set (k := grown _ - _). assert (0 < k) as Hk by (unfold k, grown; destruct (Nat.eqb_spec (length l) 0); lia).
      split; [|split].
      * rewrite lookup_app_r, Nat.sub_diag by lia. by apply lookup_replicate_2.
      * by rewrite take_app_length, firstn_all.
      * rewrite length_app, length_replicate. unfold k, grown. destruct (Nat.eqb_spec (length l) 0); lia.
  - rewrite (proj2 (Nat.eqb_neq n (length l))) by lia. cbn [andb]. destruct (Nat.ltb_spec n (length l)); [lia|]. destruct (Nat.eqb_spec n (length l)); [lia|]. done.
Qed.

Definition list_sample : Core :=
  mkCore (mkHeap [] [] [[V_Int 3; V_Int 1]] [] "")
    [V_List 0; V_Int 2; V_Int 7; V_Unit; V_Record "__Array_I32_2" [("slot0", V_Int 5); ("slot1", V_Int 6)];
     V_Int 1] [].

Lemma list_push_spec_witness :
  exists m l', simple sum_env sum_main [] (I_ListPush 3 0 1 2) = Some m /\
    m list_sample = Ok (tt, list_core list_sample 3 0 l') /\ l' !! 2 = Some (V_Int 7) /\ length l' = 4.
Proof.
  destruct (list_push_spec sum_env sum_main [] list_sample 3 0 1 2 0 [V_Int 3; V_Int 1] 2 (V_Int 7)
    eq_refl eq_refl eq_refl eq_refl ltac:(cbn; lia)) as (m & H1 & l' & H2 & H3 & _ & H4).
  by exists m, l'.
Defined.

(** [ListGet] reads what [ListSet] wrote at an index within the list, and no
    other element has changed; out of range [ListSet] writes nothing and
    [ListGet] answers 0. *)
Theorem list_set_get `{Platform} env f args c d d' list index index' value id l i j v :
  values c !! list = Some (V_List id) -> lists (heap c) !! id = Some l ->
  values c !! index = Some (V_Int i) -> values c !! index' = Some (V_Int j) ->
  values c !! value = Some v -> d < length (values c) -> d' < length (values c) ->
  d <> list -> d <> index' ->
  exists set get c1 w, simple env f args (I_ListSet d list index value) = Some set /\ set c = Ok (tt, c1) /\
    simple env f args (I_ListGet d' list index') = Some get /\ get c1 = Ok (tt, upd c1 d' w) /\
    w = if (i =? j)%Z && (0 <=? i)%Z && (i <? Z.of_nat (length l))%Z then v
        else default (V_Int 0) (get_at l j).
Proof.
  intros Hlist Hl Hi Hj Hv Hd Hd' N1 N2.
  set (l' := if (0 <=? i)%Z && (i <? Z.of_nat (length l))%Z then <[Z.to_nat i := v]> l else l).
  set (c1 := list_core c d id l').
  do 2 eexists. exists c1. eexists. split; [reflexivity|]. split.
  { unfold list_set. run_op. rewrite Hl. unfold c1, l', list_core.
    destruct ((0 <=? i)%Z && (i <? Z.of_nat (length l))%Z); run_op; rewrite set_value_ok by done; [done|].
    by rewrite list_insert_id by done; destruct c as [[] ? ?]. }
  split; [reflexivity|]. split.
  { assert (values c1 !! list = Some (V_List id)) as Hlist1 by (cbn; by rewrite list_lookup_insert_ne).
    assert (values c1 !! index' = Some (V_Int j)) as Hj1 by (cbn; by rewrite list_lookup_insert_ne).
    unfold list_get. run_op. unfold c1 at 1. rewrite (list_core_lookup _ _ _ _ _ Hl).
    apply set_value_ok. cbn. by rewrite length_insert. }
  unfold l', get_at. destruct (Z.leb_spec 0 i), (Z.ltb_spec i (Z.of_nat (length l))); cbn [andb];
    rewrite ?andb_false_r, ?andb_true_r; try done.
  rewrite length_insert. destruct (Z.eqb_spec i j) as [<-|Hij].
  - rewrite (proj2 (Z.leb_le 0 i)), (proj2 (Z.ltb_lt i _)) by done. cbn [andb].
    by rewrite list_lookup_insert_eq by lia.
  - destruct (Z.leb_spec 0 j), (Z.ltb_spec j (Z.of_nat (length l))); cbn [andb]; try done.
    by rewrite list_lookup_insert_ne by lia.
Qed.

Lemma list_set_get_witness :
  exists set get c1, simple sum_env sum_main [] (I_ListSet 3 0 5 2) = Some set /\ set list_sample = Ok (tt, c1) /\
    simple sum_env sum_main [] (I_ListGet 3 0 5) = Some get /\ get c1 = Ok (tt, upd c1 3 (V_Int 7)).
Proof.
  destruct (list_set_get sum_env sum_main [] list_sample 3 3 0 5 5 2 0 [V_Int 3; V_Int 1] 1 1 (V_Int 7)
    eq_refl eq_refl eq_refl eq_refl eq_refl ltac:(cbn; lia) ltac:(cbn; lia) ltac:(done) ltac:(done))
    as (set & get & c1 & w & H1 & H2 & H3 & H4 & ->).
  by exists set, get, c1.
Defined.

(** The three sorts order the used part of a list, by the text values, the
    texts of a field or the numbers of a field, stably: it is a permutation,
    sorted, with equal elements in their old order; the rest stays. *)
Theorem list_sort_spec `{Platform} env f args c dest list len id l n field cmp D inst :
  values c !! list = Some (V_List id) -> lists (heap c) !! id = Some l ->
  values c !! len = Some (V_Int (Z.of_nat n)) -> n <= length l -> dest < length (values c) ->
  (inst, cmp, D) ∈ [(I_ListSortText dest list len, compare_text_values, fun v => is_Some (text_of v));
    (I_ListSortRecordTextField dest list len field, compare_text_fields field,
       fun v => is_Some (text_field_of field v));
    (I_ListSortRecordField dest list len field, compare_fields field, fun v => is_Some (int_field_of field v))] ->
  Forall D (take n l) ->
  exists m l', simple env f args inst = Some m /\ m c = Ok (tt, list_core c dest id (l' ++ drop n l)) /\
    l' ≡ₚ take n l /\ sorted cmp l' /\
    forall z, D z -> List.filter (same cmp z) l' = List.filter (same cmp z) (take n l).
Proof.
  intros Hlist Hl Hlen Hn Hd Hin HD.
  assert (consistent cmp D /\ exists name, simple env f args inst = Some (list_sort name cmp dest list len))
    as [Hcmp (name & Hm)].
  { rewrite !elem_of_cons in Hin. destruct Hin as [[= -> -> ->]|[[= -> -> ->]|[[= -> -> ->]|Hin]]].
    - split; [apply compare_text_values_consistent|by eexists].
    - split; [apply compare_text_fields_consistent|by eexists].
    - split; [apply compare_int_fields_consistent|by eexists].
    - by inversion Hin. }
  eexists _, (sort_by cmp (take n l)). split; [exact Hm|]. split; [|split; [apply sort_by_perm|split]].
  - unfold list_sort. run_op. rewrite (proj2 (Z.ltb_ge _ _)) by lia. run_op. rewrite Nat2Z.id.
    rewrite (proj2 (Nat.ltb_ge _ _)) by done. unfold sort_prefix, sort_slice.
    rewrite (consistent_total cmp D) by done. run_op. by rewrite set_value_ok.
  - by eapply sort_by_sorted.
  - intros z Hz. by eapply sort_by_stable.
Qed.

Definition sort_sample : Core :=
  mkCore (mkHeap [] [] [[V_Text "pear"; V_Text "apple"; V_Unit]] [] "") [V_List 0; V_Int 2; V_Unit] [].

Lemma list_sort_spec_witness :
  exists m l', simple sum_env sum_main [] (I_ListSortText 2 0 1) = Some m /\
    m sort_sample = Ok (tt, list_core sort_sample 2 0 (l' ++ [V_Unit])) /\ sorted compare_text_values l'.
Proof.
  destruct (list_sort_spec sum_env sum_main [] sort_sample 2 0 1 0 [V_Text "pear"; V_Text "apple"; V_Unit] 2 ""
    compare_text_values (fun v => is_Some (text_of v)) (I_ListSortText 2 0 1)
    eq_refl eq_refl eq_refl ltac:(cbn; lia) ltac:(cbn; lia) ltac:(left) ltac:(by repeat constructor))
    as (m & l' & H1 & H2 & _ & H3 & _).
  by exists m, l'.
Defined.

(** ** Arrays *)

(** A record that is an array, with the names of its fields. *)
Lemma array_type_inv name fields ty len :
  runtime_value_lower_type (V_Record name fields) = LT_Array ty len ->
  array_field_names 0 fields = true /\ len = length fields.
Proof.
  cbn. destruct (map _ fields) as [|e es]; [done|].
  destruct (String.prefix "__Array_" name), (array_field_names 0 fields),
    (forallb (fun t => bool_decide (t = e)) es); cbn; try done. by intros [= _ <-].
Qed.

Lemma array_field_names_slot k (fields : list (string * RuntimeValue)) :
  array_field_names k fields = true -> forall name v, In (name, v) fields -> exists i, name = array_field_name i.
Proof.
  revert k. induction fields as [|[name v] fields IH]; intros k Hk; cbn in Hk; [done|].
  apply andb_true_iff in Hk as [Hn%String.eqb_eq Hk]. intros name' v' [[= <- <-]|Hin]; [by exists k|by eapply IH].
Qed.

(** [ListFrom] looks for elements under names that arrays do not have: it
    turns every array into a list of zeros, if the list fits. *)
Theorem list_from_array_zeros `{Platform} env f args c dest array len name fields ty n :
  values c !! array = Some (V_Record name fields) -> dest < length (values c) ->
  runtime_value_lower_type (V_Record name fields) = LT_Array ty n -> vec_fits (Z.of_nat len) = true ->
  exists m, simple env f args (I_ListFrom dest array len) = Some m /\
    m c = Ok (tt, upd (with_heap c (set_lists (heap c) (lists (heap c) ++ [replicate len (V_Int 0)])))
                    dest (V_List (length (lists (heap c))))).
Proof.
  intros Ha Hd Hty Hfit. apply array_type_inv in Hty as [Hnames _].
  eexists. split; [reflexivity|]. unfold list_from. run_op. rewrite Hfit. cbn [negb].
  assert (forall g, (forall i, g i = V_Int 0) -> map g (seq 0 len) = replicate len (V_Int 0)) as Hzeros.
  { intros g Hg. clear Hfit. generalize 0. induction len as [|k IH]; intros s; cbn; [done|]. by rewrite Hg, IH. }
  rewrite Hzeros.
  - run_op. by rewrite set_value_ok.
  - intros i. destruct (List.find _ fields) as [[field v]|] eqn:Hf; [|done].
    apply find_some in Hf as [Hin Heq%String.eqb_eq].
    destruct (array_field_names_slot _ _ Hnames _ _ Hin) as [k Hk]. by rewrite Hk in Heq.
Qed.

Lemma list_from_array_zeros_witness :
  exists m c', simple sum_env sum_main [] (I_ListFrom 3 4 2) = Some m /\ m list_sample = Ok (tt, c') /\
    lists (heap c') !! 1 = Some [V_Int 0; V_Int 0].
Proof.
  destruct (list_from_array_zeros sum_env sum_main [] list_sample 3 4 2 "__Array_I32_2"
    [("slot0"%string, V_Int 5); ("slot1"%string, V_Int 6)] LT_I32 2 eq_refl ltac:(cbn; lia) eq_refl eq_refl)
    as (m & H1 & H2).
  eexists m, _. split; [exact H1|]. split; [exact H2|]. reflexivity.
Defined.

Lemma array_field_name_inj i j : array_field_name i = array_field_name j -> i = j.
Proof. unfold array_field_name. intros H. by simplify_eq. Qed.

Lemma replace_field_array {E} k i v (fields : list (string * RuntimeValue)) :
  array_field_names k fields = true -> i < length fields ->
  exists fields', replace_field (E := E) (array_field_name (k + i)) (fun _ => RunOk v) fields = Some (RunOk fields') /\
    map fst fields' = map fst fields /\ map snd fields' = <[i := v]> (map snd fields).
Proof.
  revert k i. induction fields as [|[name w] fields IH]; intros k i Hk Hi; cbn in *; [lia|].
  apply andb_true_iff in Hk as [->%String.eqb_eq Hk]. destruct i as [|i].
  - rewrite Nat.add_0_r, String.eqb_refl. by eexists.
  - destruct (String.eqb_spec (array_field_name k) (array_field_name (k + S i))) as [Heq%array_field_name_inj|_]; [lia|].
    destruct (IH (S k) i Hk ltac:(lia)) as (fields' & H1 & H2 & H3).
    replace (k + S i) with (S k + i) by lia. rewrite H1. cbn. eexists. split; [reflexivity|]. cbn.
    by rewrite H2, H3.
Qed.

(** The update of an array element replaces that element and nothing else when
    the index is in bounds, and is an error otherwise; what is not an array is
    refused. *)
Theorem update_array_index_spec name fields i v :
  match runtime_value_lower_type (V_Record name fields) with
  | LT_Array _ _ =>
      if (0 <=? i)%Z && (i <? Z.of_nat (length fields))%Z then
        exists fields', update_runtime_array_index (V_Record name fields) i v = RunOk (V_Record name fields') /\
          map fst fields' = map fst fields /\ map snd fields' = <[Z.to_nat i := v]> (map snd fields)
      else update_runtime_array_index (V_Record name fields) i v
           = RunErr "compile-time array index is out of bounds"%string
  | _ => exists e, update_runtime_array_index (V_Record name fields) i v = RunErr e
  end.
Proof.
  unfold update_runtime_array_index, update_element.
  destruct (runtime_value_lower_type (V_Record name fields)) eqn:Hty;
    try (destruct (i <? 0)%Z; by eexists).
  apply array_type_inv in Hty as [Hnames ->].
  destruct (Z.leb_spec 0 i), (Z.ltb_spec i 0); try lia; cbn [andb]; [|done].
  destruct (Z.ltb_spec i (Z.of_nat (length fields))).
  - rewrite (proj2 (Nat.leb_gt _ _)) by lia.
    destruct (replace_field_array (E := string) 0 (Z.to_nat i) v fields Hnames ltac:(lia)) as (fields' & R1 & R2 & R3).
    cbn [Nat.add] in R1. rewrite R1. by exists fields'.
  - by rewrite (proj2 (Nat.leb_le _ _)) by lia.
Qed.

(** ** Enum tags *)

Lemma position_lookup name l i : position name l = Some i -> l !! i = Some name.
Proof.
  revert i. induction l as [|x l IH]; intros i; cbn; [done|].
  destruct (String.eqb_spec x name) as [->|_]; [by intros [= <-]|].
  destruct (position name l) as [j|]; [|done]. intros [= <-]. by apply IH.
Qed.

Lemma position_NoDup name l i : NoDup l -> l !! i = Some name -> position name l = Some i.
Proof.
  intros Hnd. revert i. induction Hnd as [|x l Hx Hnd IH]; intros i; cbn; [done|].
  destruct i as [|i]; cbn.
  - intros [= ->]. by rewrite String.eqb_refl.
  - intros Hi. destruct (String.eqb_spec x name) as [->|_].
    + exfalso. apply Hx. by eapply list_elem_of_lookup_2.
    + by rewrite (IH _ Hi).
Qed.

Lemma find_last_app {A} (key : A -> string) name l a :
  find_last key name (l ++ [a]) = if String.eqb (key a) name then Some a else find_last key name l.
Proof. unfold find_last. by rewrite fold_left_app. Qed.

(** The map of variants has, under a name, the variants of the last enum of that name. *)
Lemma enum_variants_lookup p name :
  enum_variants p !! name
  = option_map (fun ty => map variant_name (enum_type_variants ty)) (find_last enum_name name (program_enums p)).
Proof.
  unfold enum_variants. induction (program_enums p) as [|ty l IH] using rev_ind; [done|].
  rewrite fold_left_app, find_last_app. cbn. destruct (String.eqb_spec (enum_name ty) name) as [->|Hne].
  - by rewrite lookup_insert_eq.
  - by rewrite lookup_insert_ne.
Qed.

Lemma variant_position_names l v : position v (map variant_name l) = variant_position l v.
Proof. induction l as [|x l IH]; cbn; [done|]. destruct (String.eqb (variant_name x) v); [done|]. by rewrite IH. Qed.

(** The tag of a variant decodes to that variant, and a tag that decodes is the
    tag of its variant when the enum's variants are distinct; tags are those
    the interpreter tests. *)
Theorem enum_tag_roundtrip `{Platform} env c name variant tag :
  let enums := enum_variants (program env) in
  (encode_enum_tag name variant enums = RunOk tag ->
     decode_enum_tag tag name enums = RunOk (V_Enum name variant None) /\
     enum_tag env name variant c = Ok (tag, c)) /\
  (in_i64 tag = true -> (forall vs, enums !! name = Some vs -> NoDup vs) ->
     decode_enum_tag tag name enums = RunOk (V_Enum name variant None) ->
     encode_enum_tag name variant enums = RunOk tag).
Proof.
  intros enums. unfold encode_enum_tag, decode_enum_tag, enum_tag, ok_or, res_bind, enums, env_enum.
  rewrite enum_variants_lookup. destruct (find_last enum_name name _) as [ty|]; cbn; [|done].
  rewrite variant_position_names. split.
  - destruct (variant_position (enum_type_variants ty) variant) as [i|] eqn:Hi; [|done].
    destruct (in_i64 (Z.of_nat i)); [|done]. intros [= <-]. rewrite (proj2 (Z.ltb_ge _ _)) by lia.
    rewrite Nat2Z.id. rewrite <- variant_position_names in Hi. by rewrite (position_lookup _ _ _ Hi).
  - intros Htag Hnd. specialize (Hnd _ eq_refl). destruct (Z.ltb_spec tag 0); [done|].
    destruct (map variant_name (enum_type_variants ty) !! Z.to_nat tag) as [v|] eqn:Hv; [|done].
    intros [= ->]. rewrite <- variant_position_names, (position_NoDup _ _ _ Hnd Hv).
    by rewrite Z2Nat.id, Htag by done.
Qed.

Definition colors : EnumType :=
  mkEnumType "Color" [mkEnumVariantType "Red" None None; mkEnumVariantType "Custom" (Some "I32"%string) None].
Definition color_env : Env := mkEnv (mkProgram [colors] [] [] []) [] "" false.

Lemma enum_tag_roundtrip_witness :
  decode_enum_tag 1 "Color" (enum_variants (program color_env)) = RunOk (V_Enum "Color" "Custom" None).
Proof.
  apply (proj1 (enum_tag_roundtrip color_env list_sample "Color" "Custom" 1)). vm_compute. reflexivity.
Defined.
