(* ===== verification/Escape.v ===== *)
(** * The escape analysis

    [crates/sarif_codegen/src/escape.rs]: which functions may return a value
    that references memory of their own arena.  The analysis of one function
    marks value ids and slots until its loops settle; the table of the callees
    is iterated to a fixed point around it.  [fuel] bounds the rounds of every
    loop ([EscapeSpec.v] shows how much is enough). *)
From stdpp Require Import gmap.
From S2P Require Import Prelude Syntax Mir.

Open Scope nat_scope.

(** ** State *)

(** The vectors [escaped] and [esc_locals] of [Env]. *)
Record Marks := mkMarks { escaped : list bool; esc_locals : list bool }.

#[global] Instance Marks_EqDecision : EqDecision Marks.
Proof. solve_decision. Defined.

(** [callee_map]; a [CalleeInfo] is its [return_escapes]. *)
Abbreviation CalleeMap := (gmap string bool).

Definition mark (v : ValueId) (st : Marks) : Marks :=
  if v <? length (escaped st) then mkMarks (<[v := true]> (escaped st)) (esc_locals st) else st.

Definition is_escaped (st : Marks) (v : ValueId) : bool :=
  (v <? length (escaped st)) && default false (escaped st !! v).

Definition mark_if (b : bool) (v : ValueId) (st : Marks) : Marks := if b then mark v st else st.

(** [esc_locals[idx]] within bounds *)
Definition local_escaped (st : Marks) (slot : LocalSlotId) : bool :=
  (slot <? length (esc_locals st)) && default false (esc_locals st !! slot).

Definition mark_local (slot : LocalSlotId) (st : Marks) : Marks :=
  if slot <? length (esc_locals st)
  then mkMarks (escaped st) (<[slot := true]> (esc_locals st)) else st.

(** [result.is_some_and(|r| self.is_escaped(r))] *)
Definition result_escaped (st : Marks) (result : option ValueId) : bool :=
  match result with Some r => is_escaped st r | None => false end.

(** The slots marked by the other branch are marked too. *)
Fixpoint merge_locals (locals then_locals : list bool) : list bool :=
  match locals, then_locals with
  | l :: locals', t :: then_locals' => (if t then true else l) :: merge_locals locals' then_locals'
  | _, _ => locals
  end.

(** ** Loops *)

(** [loop { old = st; body; if st == old { break } }] *)
Fixpoint settle (body : Marks -> option Marks) (fuel : nat) (st : Marks) : option Marks :=
  match fuel with
  | 0 => None
  | S fuel =>
      st' ← body st;
      if decide (st' = st) then Some st' else settle body fuel st'
  end.

(** [for x in xs { body }] *)
Section Each.
Context {A : Type} (body : A -> Marks -> option Marks).
Fixpoint each (xs : list A) (st : Marks) : option Marks :=
  match xs with
  | [] => Some st
  | x :: xs' => st' ← body x st; each xs' st'
  end.
End Each.

(** ** One function *)

Section Analysis.
Context (fuel : nat) (callee_map : CalleeMap).

Fixpoint analyze_inst (inst : Inst) (st : Marks) : option Marks :=
  match inst with
  | I_TextBuilderNew dest
  | I_TextIndexNew dest
  | I_ListNew dest _ _
  | I_ListFrom dest _ _
  | I_ListPush dest _ _ _
  | I_TextConcat dest _ _
  | I_TextIntern dest _
  | I_TextSlice dest _ _ _
  | I_TextFromF64Fixed dest _ _
  | I_ArgText dest _
  | I_StdinText dest
  | I_StdinBytes dest
  | I_TextBuilderAppend dest _ _
  | I_TextBuilderAppendCodepoint dest _ _
  | I_TextBuilderAppendAscii dest _ _
  | I_TextBuilderAppendSlice dest _ _ _ _
  | I_TextBuilderAppendI32 dest _ _
  | I_TextBuilderAppendI64 dest _ _
  | I_StdoutWriteBuilder dest _
  | I_TextIndexGet dest _ _
  | I_TextIndexContains dest _ _
  | I_TextIndexGetOrInsert dest _ _ _
  | I_TextIndexSet dest _ _ _
  | I_TextIndexKeys dest _
  | I_ListSortText dest _ _
  | I_ListSortRecordTextField dest _ _ _
  | I_ListSortRecordField dest _ _ _
  | I_ListSet dest _ _ _
  | I_TextBuilderFinish dest _
  | I_Perform dest _ _ _
  | I_BytesToText dest _
  | I_TextToBytes dest _
  | I_BytesMaterialize dest _
  | I_FileIsValid dest _
  | I_TcpListen dest _
  | I_TcpAccept dest _
  | I_TcpRecv dest _ _
  | I_TcpSend dest _ _ => Some (mark dest st)
  | I_BytesSlice dest bytes _ _ => Some (mark_if (is_escaped st bytes) dest st)
  | I_ListGet dest list _ => Some (mark_if (is_escaped st list) dest st)
  | I_LoadLocal dest slot => Some (mark_if (local_escaped st slot) dest st)
  | I_StoreLocal slot src => Some (if is_escaped st src then mark_local slot st else st)
  | I_MakeRecord dest _ fields =>
      Some (mark_if (existsb (fun '(_, v) => is_escaped st v) fields) dest st)
  | I_MakeEnum dest _ _ payload => Some (mark_if (result_escaped st payload) dest st)
  | I_Field dest base _ => Some (mark_if (is_escaped st base) dest st)
  | I_EnumPayload dest value _ => Some (mark_if (is_escaped st value) dest st)
  | I_Call dest callee args =>
      let st := mark_if (default false (callee_map !! callee)) dest st in
      Some (mark_if (existsb (is_escaped st) args) dest st)
  | I_If dest _ then_insts then_result else_insts else_result =>
      let before_locals := esc_locals st in
      st ← each analyze_inst then_insts st;
      let then_locals := esc_locals st in
      st ← each analyze_inst else_insts (mkMarks (escaped st) before_locals);
      let st := mkMarks (escaped st) (merge_locals (esc_locals st) then_locals) in
      Some (mark_if (result_escaped st then_result || result_escaped st else_result) dest st)
  | I_While dest condition_insts _ body_insts =>
      st ← settle (fun st => st ← each analyze_inst condition_insts st; each analyze_inst body_insts st)
             fuel st;
      Some (mark dest st)
  | I_Repeat dest _ _ body_insts =>
      st ← settle (each analyze_inst body_insts) fuel st;
      Some (mark dest st)
  | I_Handle dest body_insts body_result arms =>
      st ← each analyze_inst body_insts st;
      let st := mark_if (result_escaped st body_result) dest st in
      each (fun '(mkHandleArm _ _ _ arm_insts arm_result) st =>
              st ← each analyze_inst arm_insts st;
              Some (mark_if (result_escaped st arm_result) dest st)) arms st
  | _ => Some st
  end.

Definition analyze (insts : list Inst) (st : Marks) : option Marks := each analyze_inst insts st.

Definition no_marks (f : Function) : Marks :=
  mkMarks (replicate (fn_value_count f) false) (replicate (fn_slot_count f) false).

Definition value_may_escape (value : ValueId) (f : Function) : option bool :=
  st ← analyze (fn_instructions f) (no_marks f);
  Some (is_escaped st value).
End Analysis.

(** ** Types *)

(** [hay.contains(needle)] *)
Definition contains (hay needle : string) : bool :=
  match String.index 0 needle hay with Some _ => true | None => false end.

Definition type_can_hold_arena_memory (ty : string) : bool :=
  existsb (String.eqb ty) ["Text"; "TextBuilder"; "TextIndex"; "List"; "Bytes"]%string
  || String.prefix "[" ty
  || contains ty "Text"
  || contains ty "List"
  || contains ty "Bytes".

(** ** The program *)

Definition has_alloc (f : Function) : bool := existsb (fun e => String.eqb e "alloc") (fn_effects f).

Definition return_can_hold (f : Function) : bool :=
  match fn_return_type f with Some ty => type_can_hold_arena_memory ty | None => false end.

(** [may_escape] of one function: its conditions in the order of the code. *)
Definition may_escape (fuel : nat) (callee_map : CalleeMap) (f : Function) : option bool :=
  match fn_result f with
  | None => Some false
  | Some result =>
      if negb (has_alloc f) then Some false
      else if negb (return_can_hold f) then Some false
      else value_may_escape fuel callee_map result f
  end.

(** One round of the outer loop: [changed] and the updated [callee_map]. *)
Fixpoint update_callees (fuel : nat) (snapshot : CalleeMap) (functions : list Function)
    (changed : bool) (callee_map : CalleeMap) : option (bool * CalleeMap) :=
  match functions with
  | [] => Some (changed, callee_map)
  | f :: functions' =>
      b ← may_escape fuel snapshot f;
      match callee_map !! fn_name f with
      | Some return_escapes =>
          if Bool.eqb return_escapes b
          then update_callees fuel snapshot functions' changed callee_map
          else update_callees fuel snapshot functions' true (<[fn_name f := b]> callee_map)
      | None => update_callees fuel snapshot functions' changed callee_map
      end
  end.

Fixpoint solve_callees (rounds fuel : nat) (functions : list Function) (callee_map : CalleeMap)
    : option CalleeMap :=
  match rounds with
  | 0 => None
  | S rounds =>
      '(changed, callee_map') ← update_callees fuel callee_map functions false callee_map;
      if changed : bool then solve_callees rounds fuel functions callee_map' else Some callee_map'
  end.

Definition initial_callees (functions : list Function) : CalleeMap :=
  fold_left (fun m f => <[fn_name f := false]> m) functions ∅.

Definition escape_diagnostic (f : Function) : Diagnostic :=
  Diagnostic_new "escape.analysis.required"
    ("function `" ++ fn_name f ++ "` with `alloc` effect returns `"
     ++ default "Unit" (fn_return_type f) ++ "` that may reference arena memory")%string
    (fn_span f)
    (Some ("Stage-1 requires all returned values to be escape-safe. "
           ++ "If the return value does not reference arena memory, remove the `alloc` effect.")%string).

Definition analyze_function (fuel : nat) (callee_map : CalleeMap) (f : Function) : option (list Diagnostic) :=
  match fn_result f with
  | None => Some []
  | Some result =>
      if negb (has_alloc f) then Some []
      else if negb (return_can_hold f) then Some []
      else
        b ← value_may_escape fuel callee_map result f;
        if b : bool then Some [escape_diagnostic f] else Some []
  end.

Fixpoint report_functions (fuel : nat) (callee_map : CalleeMap) (functions : list Function)
    : option (list Diagnostic) :=
  match functions with
  | [] => Some []
  | f :: functions' =>
      ds ← analyze_function fuel callee_map f;
      ds' ← report_functions fuel callee_map functions';
      Some (ds ++ ds')
  end.

Definition analyze_escapes (fuel : nat) (p : Program) : option (list Diagnostic) :=
  callee_map ← solve_callees fuel fuel (program_functions p) (initial_callees (program_functions p));
  report_functions fuel callee_map (program_functions p).
