(* ===== verification/EscapeSpec.v ===== *)
(** * The escape analysis: what it computes

    Induction on the tree of instructions; the analysis of a body only adds marks, is monotone in the marks and in the
    table of callees, and settles; so does the table, on its least solution. *)
From stdpp Require Import gmap.
From S2P Require Import Prelude Syntax Mir Escape.

Open Scope nat_scope.

(** * The tree of instructions

    The lists of instructions inside an instruction, and induction over them:
    shared by the proofs on the escape analysis. *)

(** ** Induction on the instruction tree *)

(** The instruction lists an instruction holds. *)
Definition bodies (i : Inst) : list (list Inst) :=
  match i with
  | I_If _ _ then_insts _ else_insts _ => [then_insts; else_insts]
  | I_While _ condition_insts _ body_insts => [condition_insts; body_insts]
  | I_Repeat _ _ _ body_insts => [body_insts]
  | I_Handle _ body_insts _ arms => body_insts :: map arm_body_insts arms
  | _ => []
  end.

Section Ind.
Context (P : Inst -> Prop) (step : forall i, Forall (Forall P) (bodies i) -> P i).

Fixpoint Inst_tree_ind (i : Inst) : P i.
Proof.
  assert (all : forall l : list Inst, (forall j, In j l -> P j) -> Forall P l).
  { intros l Hl. apply Forall_forall. intros j Hj. apply Hl. by apply list_elem_of_In. }
  apply step. destruct i; cbn; try constructor; try constructor; try constructor.
  all: try match goal with
    | |- Forall P ?l => clear all; induction l as [|j l IH]; constructor; [apply Inst_tree_ind | apply IH]
    end.
  clear all. induction arms as [|[e o ps b r] arms IH]; cbn; constructor; [|apply IH].
  induction b as [|j l IHl]; constructor; [apply Inst_tree_ind | apply IHl].
Defined.
End Ind.

Lemma insts_tree_ind (P : Inst -> Prop) :
  (forall i, Forall (Forall P) (bodies i) -> P i) -> forall l, Forall P l.
Proof. intros Hs l. apply Forall_forall. intros i _. by apply Inst_tree_ind. Qed.

(** * The escape analysis: what it computes *)

(** ** The order of marks *)

Definition bits_le : list bool -> list bool -> Prop := Forall2 Bool.le.

#[global] Instance marks_le : SqSubsetEq Marks := fun a b =>
  bits_le (escaped a) (escaped b) /\ bits_le (esc_locals a) (esc_locals b).

Lemma bool_le_iff a b : Bool.le a b <-> (a = true -> b = true).
Proof. destruct a, b; cbn; naive_solver. Qed.

#[global] Instance bool_le_po : PartialOrder Bool.le.
Proof. repeat split; intros []; try intros []; try intros []; cbn; naive_solver. Qed.

#[global] Instance bits_le_po : PartialOrder bits_le.
Proof.
  repeat split; [intros l | intros l1 l2 l3 | ]; unfold bits_le.
  - reflexivity.
  - intros H1 H2. by etrans.
  - intros l1 l2 H1 H2. revert H2. induction H1; inversion 1; subst; [done|].
    f_equal; [by apply (anti_symm Bool.le) | auto].
Qed.

#[global] Instance marks_le_po : PartialOrder (⊑@{Marks}).
Proof.
  repeat split.
  - reflexivity.
  - reflexivity.
  - by destruct H, H0; etrans.
  - by destruct H, H0; etrans.
  - intros [a1 a2] [b1 b2] [] []; cbn in *. f_equal; by apply (anti_symm bits_le).
Qed.

Lemma bits_le_insert l l' i : bits_le l l' -> bits_le (<[i := true]> l) (<[i := true]> l').
Proof. intros. by apply Forall2_insert. Qed.

Lemma bits_insert_le l i : bits_le l (<[i := true]> l).
Proof.
  revert i. induction l as [|b l IH]; intros [|i]; cbn; try reflexivity.
  - constructor; [by destruct b | reflexivity].
  - constructor; [reflexivity | apply IH].
Qed.

Lemma bits_le_get l l' i :
  bits_le l l' -> default false (l !! i) = true -> default false (l' !! i) = true.
Proof.
  intros Hl. destruct (l !! i) as [b|] eqn:Hb; cbn; [|done]. intros ->.
  eapply Forall2_lookup_l in Hl as (b' & -> & Hle); [|done].
  cbn. by destruct b'.
Qed.

(** ** Marking *)

Lemma mark_eq v st : mark v st = mkMarks (<[v := true]> (escaped st)) (esc_locals st).
Proof.
  unfold mark. destruct (Nat.ltb_spec v (length (escaped st))); [done|].
  rewrite list_insert_ge by lia. by destruct st.
Qed.

Lemma mark_local_eq v st : mark_local v st = mkMarks (escaped st) (<[v := true]> (esc_locals st)).
Proof.
  unfold mark_local. destruct (Nat.ltb_spec v (length (esc_locals st))); [done|].
  rewrite list_insert_ge by lia. by destruct st.
Qed.

Lemma guarded_get (l : list bool) i : (i <? length l) && default false (l !! i) = default false (l !! i).
Proof.
  destruct (Nat.ltb_spec i (length l)); [done|]. by rewrite lookup_ge_None_2 by lia.
Qed.

Lemma is_escaped_eq st v : is_escaped st v = default false (escaped st !! v).
Proof. apply guarded_get. Qed.

Lemma local_escaped_eq st v : local_escaped st v = default false (esc_locals st !! v).
Proof. apply guarded_get. Qed.

Section Order.
Implicit Types a b : Marks.

Lemma is_escaped_mono a b v : a ⊑ b -> is_escaped a v = true -> is_escaped b v = true.
Proof. intros [Hab _]. rewrite !is_escaped_eq. by apply bits_le_get. Qed.

Lemma local_escaped_mono a b v : a ⊑ b -> local_escaped a v = true -> local_escaped b v = true.
Proof. intros [_ Hab]. rewrite !local_escaped_eq. by apply bits_le_get. Qed.

Lemma result_escaped_mono a b r : a ⊑ b -> result_escaped a r = true -> result_escaped b r = true.
Proof. destruct r; [apply is_escaped_mono | done]. Qed.

Lemma existsb_mono {A} (f g : A -> bool) l :
  (forall x, f x = true -> g x = true) -> existsb f l = true -> existsb g l = true.
Proof. rewrite !existsb_exists. intros Hfg (x & Hx & Hf). eauto. Qed.

Lemma mark_mono v a b : a ⊑ b -> mark v a ⊑ mark v b.
Proof. intros []. rewrite !mark_eq. by split; [apply bits_le_insert|]. Qed.

Lemma mark_infl v a : a ⊑ mark v a.
Proof. rewrite mark_eq. split; [apply bits_insert_le | reflexivity]. Qed.

Lemma mark_local_mono v a b : a ⊑ b -> mark_local v a ⊑ mark_local v b.
Proof. intros []. rewrite !mark_local_eq. by split; [|apply bits_le_insert]. Qed.

Lemma mark_local_infl v a : a ⊑ mark_local v a.
Proof. rewrite mark_local_eq. split; [reflexivity | apply bits_insert_le]. Qed.

Lemma mark_if_infl x v a : a ⊑ mark_if x v a.
Proof. destruct x; [apply mark_infl | reflexivity]. Qed.

Lemma mark_if_mono x y v a b :
  a ⊑ b -> (x = true -> y = true) -> mark_if x v a ⊑ mark_if y v b.
Proof.
  intros Hab Hxy. destruct x, y; cbn.
  - by apply mark_mono.
  - by specialize (Hxy eq_refl).
  - etrans; [exact Hab | apply mark_infl].
  - done.
Qed.

Lemma merge_locals_infl l t : bits_le l (merge_locals l t).
Proof.
  revert t. induction l as [|b l IH]; intros [|c t]; cbn; try reflexivity.
  constructor; [by destruct b, c | apply IH].
Qed.

Lemma merge_locals_other l t : length l = length t -> bits_le t (merge_locals l t).
Proof.
  revert t. induction l as [|b l IH]; intros [|c t]; cbn; intros; try done.
  constructor; [by destruct b, c | apply IH; lia].
Qed.

Lemma merge_locals_mono l l' t t' :
  bits_le l l' -> bits_le t t' -> bits_le (merge_locals l t) (merge_locals l' t').
Proof.
  intros Hl. revert t t'. induction Hl as [|b b' l l' Hb Hl IH]; intros t t' Ht; cbn; [constructor|].
  destruct Ht as [|c c' t t' Hc Ht]; constructor; auto; [by destruct b, b', c, c' | by apply IH].
Qed.
End Order.

(** ** Computations on marks

    What [each], [settle] and the sequencing of the analysis preserve. *)

Definition inflationary (f : Marks -> option Marks) : Prop := forall a b, f a = Some b -> a ⊑ b.

Definition monotone (f g : Marks -> option Marks) : Prop :=
  forall a a' b b', a ⊑ a' -> f a = Some b -> g a' = Some b' -> b ⊑ b'.

(** The number of marks a state can hold. *)
Definition room (st : Marks) : nat := length (escaped st) + length (esc_locals st).

Definition ends_within (fuel : nat) (f : Marks -> option Marks) : Prop :=
  forall st, room st < fuel -> is_Some (f st).

Lemma room_le a b : a ⊑ b -> room a = room b.
Proof. intros [H1 H2]. unfold room. by rewrite (Forall2_length _ _ _ H1), (Forall2_length _ _ _ H2). Qed.

(** The marks still unset. *)
Definition unset (l : list bool) : nat := length (List.filter negb l).

Lemma unset_le_length l : unset l <= length l.
Proof. apply filter_length_le. Qed.

Lemma unset_decreases l l' : bits_le l l' -> l <> l' -> unset l' < unset l.
Proof.
  intros Hl. assert (Hle : forall l l', bits_le l l' -> unset l' <= unset l).
  { clear. induction 1 as [|b b' l l' Hb _ IH]; [done|].
    unfold unset in *. destruct b, b'; cbn in *; lia || done. }
  induction Hl as [|b b' l l' Hb Hl IH]; intros Hne; [done|].
  specialize (Hle _ _ Hl). unfold unset in *.
  destruct b, b'; cbn in *; try done; try lia.
  - apply IH. congruence.
  - apply -> Nat.succ_lt_mono. apply IH. congruence.
Qed.

Definition unset_marks (st : Marks) : nat := unset (escaped st) + unset (esc_locals st).

Lemma unset_marks_decreases a b : a ⊑ b -> b <> a -> unset_marks b < unset_marks a.
Proof.
  intros [H1 H2] Hne. unfold unset_marks.
  destruct (decide (escaped a = escaped b)) as [E1|N1], (decide (esc_locals a = esc_locals b)) as [E2|N2].
  - destruct a, b; cbn in *. congruence.
  - rewrite E1. pose proof (unset_decreases _ _ H2 N2). lia.
  - rewrite E2. pose proof (unset_decreases _ _ H1 N1). lia.
  - pose proof (unset_decreases _ _ H1 N1). pose proof (unset_decreases _ _ H2 N2). lia.
Qed.

Lemma unset_marks_room st : unset_marks st <= room st.
Proof. apply Nat.add_le_mono; apply unset_le_length. Qed.

Section Computations.
Context {A : Type}.

Lemma each_inflationary (f : A -> Marks -> option Marks) l :
  Forall (fun x => inflationary (f x)) l -> inflationary (each f l).
Proof.
  induction 1 as [|x l Hx _ IH]; intros a b; cbn; [naive_solver|].
  intros (c & Hc & Hb)%bind_Some. etrans; [by apply Hx | by apply IH].
Qed.

Lemma each_monotone (f g : A -> Marks -> option Marks) l :
  Forall (fun x => monotone (f x) (g x)) l -> monotone (each f l) (each g l).
Proof.
  induction 1 as [|x l Hx _ IH]; intros a a' b b' Ha; cbn; [naive_solver|].
  intros (c & Hc & Hb)%bind_Some (c' & Hc' & Hb')%bind_Some. eapply IH; [|done..].
  by eapply Hx.
Qed.

Lemma each_ends fuel (f : A -> Marks -> option Marks) l :
  Forall (fun x => inflationary (f x)) l -> Forall (fun x => ends_within fuel (f x)) l ->
  ends_within fuel (each f l).
Proof.
  induction 1 as [|x l Hx _ IH]; inversion 1 as [|? ? Ex El]; subst; intros st Hst; cbn; [done|].
  destruct (Ex st Hst) as [st' E]. rewrite E. cbn. apply IH; [done|].
  rewrite <- (room_le st st'); [done | by apply Hx].
Qed.
End Computations.

Section Settle.
Implicit Types f g : Marks -> option Marks.

Lemma settle_fixed f n a b : inflationary f -> settle f n a = Some b -> a ⊑ b /\ f b = Some b.
Proof.
  intros Hf. revert a. induction n as [|n IH]; intros a; cbn; [done|].
  intros (c & Hc & Hb)%bind_Some. case_decide; simplify_eq.
  - split; [by apply Hf | done].
  - destruct (IH _ Hb). split; [|done]. etrans; [by apply Hf | done].
Qed.

(** The state a loop settles on is below every fixed point above its start. *)
Lemma settle_least f g n a b c :
  monotone f g -> settle f n a = Some b -> a ⊑ c -> g c = Some c -> b ⊑ c.
Proof.
  intros Hfg Hb Hac Hc. revert a Hac Hb. induction n as [|n IH]; intros a Hac; cbn; [done|].
  intros (d & Hd & Hb)%bind_Some. pose proof (Hfg _ _ _ _ Hac Hd Hc).
  case_decide; simplify_eq; [done|]. by eapply IH.
Qed.

Lemma settle_monotone f g n m :
  inflationary g -> monotone f g -> monotone (settle f n) (settle g m).
Proof.
  intros Hg Hfg a a' b b' Ha Hb Hb'. destruct (settle_fixed _ _ _ _ Hg Hb').
  eapply settle_least; [done..| |done]. by etrans.
Qed.

Lemma settle_ends fuel f : inflationary f -> ends_within fuel f -> ends_within fuel (settle f fuel).
Proof.
  intros Hf He st Hst. assert (Hn : unset_marks st < fuel) by (pose proof (unset_marks_room st); lia).
  revert st Hst Hn. assert (Hgen : forall n st, room st < fuel -> unset_marks st < n ->
    is_Some (settle f n st)); [|eauto].
  induction n as [|n IH]; intros st Hst Hn; cbn; [lia|].
  destruct (He st Hst) as [st' E]. rewrite E. cbn. case_decide; [done|].
  apply Hf in E. pose proof (unset_marks_decreases _ _ E H). apply IH; [|lia].
  by rewrite <- (room_le _ _ E).
Qed.
End Settle.

(** ** The analysis of a body *)

Definition map_le (m m' : CalleeMap) : Prop :=
  forall name, default false (m !! name) = true -> default false (m' !! name) = true.

Lemma store_local_infl st slot src : st ⊑ (if is_escaped st src then mark_local slot st else st).
Proof. destruct (is_escaped st src); [apply mark_local_infl | reflexivity]. Qed.

Lemma store_local_mono a b slot src : a ⊑ b ->
  (if is_escaped a src then mark_local slot a else a)
  ⊑ (if is_escaped b src then mark_local slot b else b).
Proof.
  intros Hab. pose proof (is_escaped_mono a b src Hab) as Hm.
  destruct (is_escaped a src); [rewrite (Hm eq_refl); by apply mark_local_mono|].
  destruct (is_escaped b src); [|done]. etrans; [exact Hab | apply mark_local_infl].
Qed.

Lemma orb_mono x y z w : (x = true -> z = true) -> (y = true -> w = true) -> x || y = true -> z || w = true.
Proof. rewrite !orb_true_iff. tauto. Qed.

Lemma fields_escaped_mono a b (fields : list (string * ValueId)) : a ⊑ b ->
  existsb (fun '(_, v) => is_escaped a v) fields = true ->
  existsb (fun '(_, v) => is_escaped b v) fields = true.
Proof. intros Hab. apply existsb_mono. intros [_ v]. by apply is_escaped_mono. Qed.

Lemma args_escaped_mono a b (args : list ValueId) : a ⊑ b ->
  existsb (is_escaped a) args = true -> existsb (is_escaped b) args = true.
Proof. intros Hab. apply existsb_mono. intros v. by apply is_escaped_mono. Qed.

Create HintDb escape discriminated.
#[export] Hint Resolve mark_infl mark_mono mark_if_infl mark_if_mono store_local_infl store_local_mono
  is_escaped_mono local_escaped_mono result_escaped_mono fields_escaped_mono args_escaped_mono
  orb_mono : escape.

Lemma each_inflationary_2 (f : Inst -> Marks -> option Marks) l l' a b c :
  Forall (fun x => inflationary (f x)) l -> Forall (fun x => inflationary (f x)) l' ->
  each f l a = Some b -> each f l' b = Some c -> a ⊑ c.
Proof.
  intros Hl Hl' Hb Hc. etrans; [exact (each_inflationary _ _ Hl _ _ Hb) | exact (each_inflationary _ _ Hl' _ _ Hc)].
Qed.

Lemma analyze_inst_inflationary fuel m i : inflationary (analyze_inst fuel m i).
Proof.
  induction i as [i IH] using Inst_tree_ind. intros a b. destruct i; cbn in IH |- *.
  all: try (intros [= <-]; auto with escape; fail).
  all: try (intros [= <-]; reflexivity).
  - apply Forall_cons in IH as [H1 [H2 _]%Forall_cons].
    intros (c & Hc & (d & Hd & [= <-])%bind_Some)%bind_Some.
    apply (each_inflationary _ _ H1) in Hc as [Hc _].
    apply (each_inflationary _ _ H2) in Hd as [Hd Hl]; cbn in *.
    etrans; [|apply mark_if_infl]. split; cbn; [by etrans|]. etrans; [exact Hl | apply merge_locals_infl].
  - apply Forall_cons in IH as [H1 [H2 _]%Forall_cons].
    intros (c & Hc & [= <-])%bind_Some. etrans; [|apply mark_infl].
    eapply settle_fixed; [|exact Hc]. intros x y (z & Hz & Hy)%bind_Some.
    by eapply each_inflationary_2; [exact H1 | exact H2| |].
  - apply Forall_cons in IH as [H1 _].
    intros (c & Hc & [= <-])%bind_Some. etrans; [|apply mark_infl].
    eapply settle_fixed; [|exact Hc]. by apply each_inflationary.
  - intros [= <-]. etrans; apply mark_if_infl.
  - apply Forall_cons in IH as [H1 H2]. intros (c & Hc & Hb)%bind_Some.
    etrans; [exact (each_inflationary _ _ H1 _ _ Hc)|]. etrans; [apply mark_if_infl|].
    eapply each_inflationary; [|exact Hb]. rewrite Forall_map in H2.
    eapply Forall_impl; [exact H2|]. intros [e o ps arm_insts r] Harm x y (z & Hz & [= <-])%bind_Some.
    etrans; [exact (each_inflationary _ _ Harm _ _ Hz) | apply mark_if_infl].
Qed.

Lemma analyze_inflationary fuel m insts : inflationary (analyze fuel m insts).
Proof. apply each_inflationary, Forall_forall. intros. apply analyze_inst_inflationary. Qed.

(** With more callees marked, and from more marks, more is marked; the fuel does
    not matter. *)
Lemma analyze_inst_monotone n n' m m' i :
  map_le m m' -> monotone (analyze_inst n m i) (analyze_inst n' m' i).
Proof.
  intros Hm. pose proof (analyze_inst_inflationary n' m') as Hinf.
  assert (Hinfs : forall l, inflationary (each (analyze_inst n' m') l)) by apply analyze_inflationary.
  induction i as [i IH] using Inst_tree_ind. intros a a' b b' Ha. destruct i; cbn in IH |- *.
  all: try (intros [= <-] [= <-]; eauto with escape; fail).
  - apply Forall_cons in IH as [H1%each_monotone [H2%each_monotone _]%Forall_cons].
    intros (c & Hc & (d & Hd & [= <-])%bind_Some)%bind_Some
      (c' & Hc' & (d' & Hd' & [= <-])%bind_Some)%bind_Some.
    destruct (H1 _ _ _ _ Ha Hc Hc') as [Hce Hcl].
    assert (Hd2 : d ⊑ d') by (eapply H2; [|exact Hd|exact Hd']; split; [done | apply Ha]).
    assert (Hr : mkMarks (escaped d) (merge_locals (esc_locals d) (esc_locals c))
                 ⊑ mkMarks (escaped d') (merge_locals (esc_locals d') (esc_locals c'))).
    { destruct Hd2. split; [done | by apply merge_locals_mono]. }
    eauto with escape.
  - apply Forall_cons in IH as [H1%each_monotone [H2%each_monotone _]%Forall_cons].
    intros (c & Hc & [= <-])%bind_Some (c' & Hc' & [= <-])%bind_Some. apply mark_mono.
    eapply settle_monotone; [| |exact Ha|exact Hc|exact Hc'].
    + intros x y (z & Hz & Hy)%bind_Some. etrans; [exact (Hinfs _ _ _ Hz) | exact (Hinfs _ _ _ Hy)].
    + intros x x' y y' Hx (z & Hz & Hy)%bind_Some (z' & Hz' & Hy')%bind_Some.
      eapply H2; [|exact Hy|exact Hy']. by eapply H1.
  - apply Forall_cons in IH as [H1%each_monotone _].
    intros (c & Hc & [= <-])%bind_Some (c' & Hc' & [= <-])%bind_Some. apply mark_mono.
    by eapply settle_monotone; [| |exact Ha|exact Hc|exact Hc'].
  - intros [= <-] [= <-].
    assert (Hs : mark_if (default false (m !! callee)) dest a
                 ⊑ mark_if (default false (m' !! callee)) dest a') by eauto with escape.
    eauto with escape.
  - apply Forall_cons in IH as [H1%each_monotone H2]. rewrite Forall_map in H2.
    intros (c & Hc & Hb)%bind_Some (c' & Hc' & Hb')%bind_Some.
    pose proof (H1 _ _ _ _ Ha Hc Hc') as Hcc.
    eapply each_monotone; [|apply mark_if_mono; [exact Hcc|]|exact Hb|exact Hb']; [|eauto with escape].
    eapply Forall_impl; [exact H2|]. intros [e o ps arm_insts r] Harm%each_monotone.
    intros x x' y y' Hx (z & Hz & [= <-])%bind_Some (z' & Hz' & [= <-])%bind_Some.
    pose proof (Harm _ _ _ _ Hx Hz Hz'). eauto with escape.
Qed.

Lemma analyze_monotone n n' m m' insts :
  map_le m m' -> monotone (analyze n m insts) (analyze n' m' insts).
Proof. intros. apply each_monotone, Forall_forall. intros. by apply analyze_inst_monotone. Qed.

Lemma bind_ends fuel (f : Marks -> option Marks) (g : Marks -> option Marks) :
  inflationary f -> ends_within fuel f -> ends_within fuel g ->
  ends_within fuel (fun st => st' ← f st; g st').
Proof.
  intros Hf Ef Eg st Hst. destruct (Ef st Hst) as [st' E]. rewrite E. cbn. apply Eg.
  rewrite <- (room_le st st'); [done | by apply Hf].
Qed.

Lemma some_ends fuel (f : Marks -> Marks) : ends_within fuel (fun st => Some (f st)).
Proof. by intros ??. Qed.

(** Every loop of the analysis settles: a round but the last sets a mark. *)
Lemma analyze_inst_ends fuel m i : ends_within fuel (analyze_inst fuel m i).
Proof.
  pose proof (analyze_inst_inflationary fuel m) as Hinf.
  assert (Hinfs : forall l, inflationary (each (analyze_inst fuel m) l)) by apply analyze_inflationary.
  assert (Hall : forall l, Forall (fun x => inflationary (analyze_inst fuel m x)) l).
  { intros. apply Forall_forall. auto. }
  induction i as [i IH] using Inst_tree_ind. destruct i; cbn in IH.
  all: try (apply some_ends; fail).
  - apply Forall_cons in IH as [H1 [H2 _]%Forall_cons].
    intros st Hst. cbn. apply each_ends in H1, H2; auto.
    destruct (H1 st Hst) as [c E]. rewrite E. cbn. apply Hinfs in E as [E1 E2].
    destruct (H2 (mkMarks (escaped c) (esc_locals st))) as [d Ed]; [|by rewrite Ed].
    revert Hst. unfold room. cbn. by rewrite (Forall2_length _ _ _ E1).
  - apply Forall_cons in IH as [H1%each_ends [H2%each_ends _]%Forall_cons]; auto.
    apply (bind_ends _ (settle _ fuel)); [| |apply some_ends].
    + intros a b Hb. eapply settle_fixed; [|exact Hb]. intros x y (z & Hz & Hy)%bind_Some.
      etrans; [exact (Hinfs _ _ _ Hz) | exact (Hinfs _ _ _ Hy)].
    + apply settle_ends; [|by apply bind_ends]. intros x y (z & Hz & Hy)%bind_Some.
      etrans; [exact (Hinfs _ _ _ Hz) | exact (Hinfs _ _ _ Hy)].
  - apply Forall_cons in IH as [H1%each_ends _]; auto.
    apply (bind_ends _ (settle _ fuel)); [| |apply some_ends].
    + intros a b Hb. eapply settle_fixed; [|exact Hb]. auto.
    + by apply settle_ends.
  - apply Forall_cons in IH as [H1%each_ends H2]; auto. rewrite Forall_map in H2.
    apply (bind_ends _ (each (analyze_inst fuel m) body_insts)); [auto..|].
    intros st Hst. refine (each_ends fuel _ arms _ _ _ _); [| |by rewrite <- (room_le st) by apply mark_if_infl].
    + apply Forall_forall. intros [e o ps arm_insts r] _ x y (z & Hz & [= <-])%bind_Some.
      etrans; [exact (Hinfs _ _ _ Hz) | apply mark_if_infl].
    + eapply Forall_impl; [exact H2|]. intros [e o ps arm_insts r] Harm%each_ends; auto.
      apply bind_ends; [auto..|]. apply some_ends.
Qed.

Lemma analyze_ends fuel m insts : ends_within fuel (analyze fuel m insts).
Proof.
  apply each_ends; apply Forall_forall; intros;
    [apply analyze_inst_inflationary | apply analyze_inst_ends].
Qed.

(** ** One function *)

Definition frame_room (f : Function) : nat := fn_value_count f + fn_slot_count f.

Definition marked (m : CalleeMap) (f : Function) : bool := default false (m !! fn_name f).

Lemma may_escape_monotone n n' m m' f b b' :
  map_le m m' -> may_escape n m f = Some b -> may_escape n' m' f = Some b' -> b = true -> b' = true.
Proof.
  intros Hm. unfold may_escape. destruct (fn_result f) as [r|]; [|naive_solver].
  destruct (has_alloc f); [|cbn; naive_solver]. destruct (return_can_hold f); [|cbn; naive_solver]. cbn.
  unfold value_may_escape. intros (c & Hc & [= <-])%bind_Some (c' & Hc' & [= <-])%bind_Some.
  apply is_escaped_mono. by eapply analyze_monotone; [exact Hm|reflexivity|exact Hc|exact Hc'].
Qed.

Lemma may_escape_ends fuel m f : frame_room f < fuel -> is_Some (may_escape fuel m f).
Proof.
  intros Hf. unfold may_escape, value_may_escape. destruct (fn_result f) as [r|]; [|done].
  destruct (has_alloc f); [|done]. destruct (return_can_hold f); [|done]. cbn.
  destruct (analyze_ends fuel m (fn_instructions f) (no_marks f)) as [st E]; [|by rewrite E].
  unfold room, no_marks. cbn. by rewrite !length_replicate.
Qed.

Lemma analyze_function_eq fuel m f :
  analyze_function fuel m f =
    b ← may_escape fuel m f; Some (if b : bool then [escape_diagnostic f] else []).
Proof.
  unfold analyze_function, may_escape. destruct (fn_result f); [|done].
  destruct (has_alloc f); [|done]. destruct (return_can_hold f); [|done]. cbn.
  by destruct (value_may_escape fuel m _ f) as [[]|].
Qed.

(** ** The table of callees *)

Section Table.
Context (functions : list Function) (Hnames : NoDup (map fn_name functions)).

(** Its entries are those of the functions. *)
Definition covers (m : CalleeMap) : Prop := forall name, is_Some (m !! name) <-> In name (map fn_name functions).

Lemma initial_covers : covers (initial_callees functions) /\ forall f, marked (initial_callees functions) f = false.
Proof.
  unfold initial_callees.
  assert (Hgen : forall (m : CalleeMap), (forall name b, m !! name = Some b -> b = false) ->
    let m' := fold_left (fun m f => <[fn_name f := false]> m) functions m in
    (forall name, is_Some (m' !! name) <-> is_Some (m !! name) \/ In name (map fn_name functions)) /\
    (forall name b, m' !! name = Some b -> b = false)).
  { clear. induction functions as [|f fs IH]; intros m Hm; cbn; [by split; [naive_solver|]|].
    destruct (IH (<[fn_name f := false]> m)) as [H1 H2].
    { intros name b. rewrite lookup_insert_Some. naive_solver. }
    split; [|done]. intros name. rewrite H1, lookup_insert_is_Some'. tauto. }
  destruct (Hgen ∅) as [H1 H2]; [by intros ??; rewrite lookup_empty|].
  split.
  - intros name. rewrite H1, lookup_empty. split; [by intros [[]|]|auto].
  - intros f. unfold marked. destruct (_ !! _) as [b|] eqn:E; [by apply H2 in E|done].
Qed.

(** One round: every function is judged by the table the round started from. *)
Lemma update_callees_spec fuel snapshot m ch fs ch' m' :
  NoDup (map fn_name fs) ->
  (forall f, In f fs -> is_Some (m !! fn_name f)) ->
  update_callees fuel snapshot fs ch m = Some (ch', m') ->
  (forall name, ~ In name (map fn_name fs) -> m' !! name = m !! name) /\
  (forall f, In f fs -> exists b, may_escape fuel snapshot f = Some b /\ m' !! fn_name f = Some b) /\
  (ch' = true <-> ch = true \/ exists f, In f fs /\ m' !! fn_name f <> m !! fn_name f).
Proof.
  revert ch m. induction fs as [|f fs IH]; intros ch m Hn Hdom; cbn.
  { intros [= <- <-]. naive_solver. }
  inversion Hn as [|? ? Hnin Hn']; subst.
  rewrite list_elem_of_In in Hnin.
  assert (Hother : forall g, In g fs -> fn_name g <> fn_name f).
  { intros g Hg E. apply Hnin. rewrite <- E. by apply in_map. }
  intros (b & Hb & Hup)%bind_Some.
  destruct (Hdom f) as [b0 Hb0]; [by left|]. rewrite Hb0 in Hup.
  destruct (Bool.eqb b0 b) eqn:Eb.
  - apply Bool.eqb_prop in Eb as ->. apply IH in Hup as (H1 & H2 & H3); [|done|naive_solver].
    split_and!; [naive_solver| |].
    + intros g [->|Hg]; [|by apply H2]. exists b. split; [done|]. by rewrite H1.
    + rewrite H3. split; [naive_solver|]. intros [|(g & [<-|Hg] & Hne)]; [by left| |eauto].
      exfalso. apply Hne. by apply H1.
  - apply Bool.eqb_false_iff in Eb. apply IH in Hup as (H1 & H2 & H3); [|done|].
    + split_and!.
      * intros name Hname. rewrite H1 by tauto. apply lookup_insert_ne. naive_solver.
      * intros g [->|Hg]; [|by apply H2]. exists b. split; [done|]. rewrite H1 by done. apply lookup_insert_eq.
      * split; [intros _|rewrite H3; by left]. right. exists f. split; [by left|].
        rewrite H1, lookup_insert_eq by done. congruence.
    + intros g Hg. rewrite lookup_insert_ne by (apply not_eq_sym; auto). apply Hdom. by right.
Qed.

(** The table judges every function as the analysis with it does. *)
Definition solution (fuel : nat) (m : CalleeMap) : Prop :=
  forall f, In f functions -> may_escape fuel m f = Some (marked m f).

(** The table marks every function the analysis with it would mark. *)
Definition closed (fuel : nat) (m : CalleeMap) : Prop :=
  forall f, In f functions -> exists b, may_escape fuel m f = Some b /\ (b = true -> marked m f = true).

Lemma map_le_marked m m' :
  covers m -> (forall f, In f functions -> marked m f = true -> marked m' f = true) -> map_le m m'.
Proof.
  intros Hm Hf name Hname. destruct (m !! name) as [b|] eqn:E; [|done].
  assert (Hin : In name (map fn_name functions)) by (apply Hm; eauto).
  apply in_map_iff in Hin as (f & <- & Hin). apply (Hf f); [done|]. unfold marked. by rewrite E.
Qed.

Lemma round_spec fuel m ch m' :
  covers m -> update_callees fuel m functions false m = Some (ch, m') ->
  covers m' /\ (forall f, In f functions -> may_escape fuel m f = Some (marked m' f)) /\
  (if ch then exists f, In f functions /\ marked m' f <> marked m f else m' = m).
Proof.
  intros Hm Hup. assert (Hdom : forall f, In f functions -> is_Some (m !! fn_name f)).
  { intros f Hf. apply Hm, in_map, Hf. }
  destruct (update_callees_spec _ _ _ _ _ _ _ Hnames Hdom Hup) as (H1 & H2 & H3).
  assert (Heq : forall f, In f functions -> m' !! fn_name f = Some (marked m' f)).
  { intros f Hf. destruct (H2 f Hf) as (b & _ & E). unfold marked. by rewrite E. }
  split_and!.
  - intros name. destruct (in_dec String.string_dec name (map fn_name functions)) as [Hin|Hnin].
    + split; [done|]. intros _. apply in_map_iff in Hin as (f & <- & Hf). by rewrite Heq.
    + by rewrite H1 by done.
  - intros f Hf. destruct (H2 f Hf) as (b & Hb & E). unfold marked. by rewrite E.
  - destruct ch.
    + apply proj1 in H3. destruct (H3 eq_refl) as [|(f & Hf & Hne)]; [done|]. exists f. split; [done|].
      intros E. apply Hne. rewrite Heq by done. destruct (Hdom f Hf) as [b Eb]. rewrite E. unfold marked.
      by rewrite Eb.
    + apply map_eq. intros name. destruct (in_dec String.string_dec name (map fn_name functions)) as [Hin|Hnin]; [|auto].
      apply in_map_iff in Hin as (f & <- & Hf). apply dec_stable. intros Hne.
      assert (false = true) by (apply H3; eauto). done.
Qed.

Lemma solve_callees_spec rounds fuel m t :
  covers m -> (forall n' m', closed n' m' -> map_le m m') ->
  solve_callees rounds fuel functions m = Some t ->
  covers t /\ solution fuel t /\ forall n' m', closed n' m' -> map_le t m'.
Proof.
  revert m. induction rounds as [|rounds IH]; intros m Hm Hle; cbn; [done|].
  intros ([ch m1] & Hup & Hs)%bind_Some. destruct (round_spec _ _ _ _ Hm Hup) as (Hm1 & Hj & Hch).
  destruct ch; [|simplify_eq; by split_and!].
  apply IH in Hs; [done..|]. intros n' m' Hc. apply map_le_marked; [done|]. intros f Hf Hmk.
  destruct (Hc f Hf) as (b & Hb & Himp). apply Himp.
  eapply may_escape_monotone; [by eapply Hle|by apply Hj|exact Hb|done].
Qed.

Lemma solve_initial rounds fuel t :
  solve_callees rounds fuel functions (initial_callees functions) = Some t ->
  covers t /\ solution fuel t /\ forall n' m', closed n' m' -> map_le t m'.
Proof.
  destruct initial_covers as [Hc Hf]. apply solve_callees_spec; [done|].
  intros n' m' _. apply map_le_marked; [done|]. intros f _. by rewrite Hf.
Qed.

(** How many functions are not marked yet. *)
Definition unmarked (m : CalleeMap) : nat := length (List.filter (fun f => negb (marked m f)) functions).

Lemma unmarked_decreases m m' :
  (forall f, In f functions -> marked m f = true -> marked m' f = true) ->
  (exists f, In f functions /\ marked m' f <> marked m f) -> unmarked m' < unmarked m.
Proof.
  unfold unmarked. clear Hnames. induction functions as [|f fs IH]; intros Hle (g & Hg & Hne); [done|].
  cbn. assert (Hmono : forall l, (forall f, In f l -> marked m f = true -> marked m' f = true) ->
    length (List.filter (fun f => negb (marked m' f)) l) <= length (List.filter (fun f => negb (marked m f)) l)).
  { clear. induction l as [|f l IH]; intros Hl; cbn; [done|].
    pose proof (Hl f (or_introl eq_refl)). specialize (IH (fun g Hg => Hl g (or_intror Hg))).
    destruct (marked m f), (marked m' f); cbn; naive_solver lia. }
  pose proof (Hle f (or_introl eq_refl)) as Hf.
  destruct Hg as [->|Hg].
  - specialize (Hmono fs (fun g Hg => Hle g (or_intror Hg))).
    destruct (marked m g), (marked m' g); cbn in *; try done; [by specialize (Hf eq_refl) | lia].
  - specialize (IH (fun g Hg => Hle g (or_intror Hg)) (ex_intro _ g (conj Hg Hne))).
    destruct (marked m f), (marked m' f); cbn; lia || by specialize (Hf eq_refl).
Qed.

Lemma solve_callees_ends fuel rounds m :
  (forall f, In f functions -> frame_room f < fuel) -> covers m ->
  (forall f b, In f functions -> may_escape fuel m f = Some b -> marked m f = true -> b = true) ->
  unmarked m < rounds -> is_Some (solve_callees rounds fuel functions m).
Proof.
  intros Hfuel. revert m. induction rounds as [|rounds IH]; intros m Hm Hpre Hr; [lia|]. cbn.
  assert (Hup : exists r, update_callees fuel m functions false m = Some r).
  { assert (Hgen : forall fs ch (m' : CalleeMap), (forall f, In f fs -> frame_room f < fuel) ->
      is_Some (update_callees fuel m fs ch m')).
    { induction fs as [|f fs IHf]; intros ch m' Hfs; cbn; [done|].
      destruct (may_escape_ends fuel m f) as [b E]; [by apply Hfs; left|]. rewrite E. cbn.
      assert (forall g, In g fs -> frame_room g < fuel) by (intros; apply Hfs; by right).
      destruct (m' !! fn_name f); [destruct (Bool.eqb _ _)|]; by apply IHf. }
    by apply Hgen. }
  destruct Hup as [[ch m1] Hup]. rewrite Hup. cbn.
  destruct (round_spec _ _ _ _ Hm Hup) as (Hm1 & Hj & Hch). destruct ch; [|done].
  assert (Hle : forall f, In f functions -> marked m f = true -> marked m1 f = true).
  { intros f Hf Hmk. eapply Hpre; [exact Hf|by apply Hj|done]. }
  apply IH; [done| |].
  - intros f b Hf Hb Hmk. eapply may_escape_monotone; [|by apply Hj|exact Hb|exact Hmk].
    by apply map_le_marked.
  - pose proof (unmarked_decreases _ _ Hle Hch). lia.
Qed.

Lemma report_functions_spec fuel m ds fs :
  (forall f, In f fs -> may_escape fuel m f = Some (marked m f)) ->
  report_functions fuel m fs = Some ds <-> ds = map escape_diagnostic (List.filter (marked m) fs).
Proof.
  revert ds. induction fs as [|f fs IH]; intros ds Hs; cbn; [split; congruence|].
  specialize (fun ds => IH ds (fun g Hg => Hs g (or_intror Hg))).
  rewrite analyze_function_eq, Hs by (by left). cbn.
  rewrite (proj2 (IH _) eq_refl). cbn. destruct (marked m f); cbn; split; congruence.
Qed.
End Table.

Lemma filter_ext_marked m m' fs :
  (forall f, In f fs -> marked m f = marked m' f) -> List.filter (marked m) fs = List.filter (marked m') fs.
Proof.
  induction fs as [|f fs IH]; intros Hm; cbn; [done|].
  rewrite Hm by (by left). rewrite IH; [done|]. intros. apply Hm. by right.
Qed.

Definition function_names (p : Program) : list string := map fn_name (program_functions p).

Lemma analyze_escapes_spec fuel p ds :
  NoDup (function_names p) -> analyze_escapes fuel p = Some ds ->
  exists t, covers (program_functions p) t /\ solution (program_functions p) fuel t /\
    (forall n' m', closed (program_functions p) n' m' -> map_le t m') /\
    ds = map escape_diagnostic (List.filter (marked t) (program_functions p)).
Proof.
  intros Hn (t & Ht & Hr)%bind_Some. destruct (solve_initial _ Hn _ _ _ Ht) as (H1 & H2 & H3).
  exists t. split_and!; [done..|]. by apply (report_functions_spec fuel t ds).
Qed.

Lemma analyze_escapes_total fuel p :
  NoDup (function_names p) ->
  Forall (fun f => frame_room f < fuel) (program_functions p) -> length (program_functions p) < fuel ->
  is_Some (analyze_escapes fuel p).
Proof.
  intros Hn Hroom Hlen. rewrite Stdlib.Lists.List.Forall_forall in Hroom.
  destruct (initial_covers (program_functions p)) as [Hc Hf]. unfold analyze_escapes.
  destruct (solve_callees_ends _ Hn fuel fuel _ Hroom Hc) as [t Ht].
  - intros f b _ _. by rewrite Hf.
  - eapply Nat.le_lt_trans; [apply filter_length_le | done].
  - rewrite Ht. cbn. destruct (solve_initial _ Hn _ _ _ Ht) as (H1 & H2 & H3).
    eexists. by apply (report_functions_spec fuel t).
Qed.
