(* ===== verification/Hir.v ===== *)
(** * The high-level representation

    [crates/sarif_frontend/src/hir.rs]: modules, items, bodies and expressions
    as semantic analysis reads them.  A struct that one constructor carries
    ([IfExpr] in [Expr::If]) is that constructor's arguments; constructors keep
    their names behind a prefix. *)
From stdpp Require Import gmap pretty.
From S2P Require Import Prelude Syntax Float64.

Open Scope nat_scope.

(** ** Types as written *)

Record TypeRef := mkTypeRef { path : string; type_ref_span : Span }.

(** ** Operators and effects *)

Inductive BinaryOp :=
  | B_And | B_Or | B_BitOr | B_BitXor | B_BitAnd | B_Eq | B_Ne | B_Lt | B_Le | B_Gt | B_Ge
  | B_Shl | B_Shr | B_Add | B_Sub | B_Mul | B_Div | B_Rem.

Inductive UnaryOp := U_Not.

Definition binary_symbol (op : BinaryOp) : string :=
  match op with
  | B_And => "and" | B_Or => "or" | B_BitOr => "|" | B_BitXor => "^" | B_BitAnd => "&"
  | B_Eq => "==" | B_Ne => "!=" | B_Lt => "<" | B_Le => "<=" | B_Gt => ">" | B_Ge => ">="
  | B_Shl => "<<" | B_Shr => ">>" | B_Add => "+" | B_Sub => "-" | B_Mul => "*" | B_Div => "/"
  | B_Rem => "%"
  end.

Inductive Effect :=
  | F_Io | F_Alloc | F_Async | F_Parallel | F_Clock | F_Ffi | F_Nondet
  | F_User (name : string).

#[global] Instance Effect_EqDecision : EqDecision Effect.
Proof. solve_decision. Defined.

Definition effect_parse (name : string) : option Effect :=
  if String.eqb name "io" then Some F_Io
  else if String.eqb name "alloc" then Some F_Alloc
  else if String.eqb name "async" then Some F_Async
  else if String.eqb name "parallel" then Some F_Parallel
  else if String.eqb name "clock" then Some F_Clock
  else if String.eqb name "ffi" then Some F_Ffi
  else if String.eqb name "nondet" then Some F_Nondet
  else Some (F_User name).

Definition effect_keyword (e : Effect) : string :=
  match e with
  | F_Io => "io" | F_Alloc => "alloc" | F_Async => "async" | F_Parallel => "parallel"
  | F_Clock => "clock" | F_Ffi => "ffi" | F_Nondet => "nondet"
  | F_User name => name
  end.

Inductive EffectRef :=
  | ER_Builtin (effect : Effect) (span : Span)
  | ER_Unknown (name : string) (span : Span).

Definition effect_ref_name (e : EffectRef) : string :=
  match e with ER_Builtin effect _ => effect_keyword effect | ER_Unknown name _ => name end.

(** ** Bodies and expressions *)

Inductive MatchPattern :=
  | P_Variant (path : TypeRef) (binding : option string) (span : Span)
  | P_Integer (value : Z) (span : Span)
  | P_String (literal value : string) (span : Span)
  | P_Bool (value : bool) (span : Span)
  | P_IntegerRange (start end_ : Z) (span : Span)
  | P_Or (patterns : list MatchPattern) (span : Span)
  | P_Wildcard (span : Span).

Inductive Expr :=
  | E_Integer (value : Z) (span : Span)
  | E_Float (value : f64) (span : Span)
  | E_String (literal value : string) (span : Span)
  | E_Bool (value : bool) (span : Span)
  | E_Name (name : string) (span : Span)
  | E_ContractResult (span : Span)
  | E_Call (callee : string) (args : list Expr) (span : Span)
  | E_Array (elements : list Expr) (repeat_len : option ConstExpr) (span : Span)
  | E_Field (base : Expr) (field : string) (span : Span)
  | E_Index (base index : Expr) (span : Span)
  | E_If (condition : Expr) (then_body else_body : Body) (span : Span)
  | E_Match (scrutinee : Expr) (arms : list MatchArm) (span : Span)
  | E_Repeat (binding : option string) (count : Expr) (body : Body) (span : Span)
  | E_While (condition : Expr) (body : Body) (span : Span)
  | E_Record (name : string) (fields : list FieldInit) (span : Span)
  | E_RecordUpdate (base : Expr) (updates : list FieldInit) (span : Span)
  | E_Unary (op : UnaryOp) (inner : Expr) (span : Span)
  | E_Binary (op : BinaryOp) (left right : Expr) (span : Span)
  | E_Group (inner : Expr) (span : Span)
  | E_Comptime (body : Body)
  | E_Perform (effect operation : string) (args : list Expr) (span : Span)
  | E_Handle (body : Body) (arms : list HandleArm)
with Body :=
  | mkBody (statements : list Stmt) (tail : option Expr) (span : Span)
with Stmt :=
  | S_Let (mutable : bool) (name : string) (value : Expr) (span : Span)
  | S_Assign (target value : Expr) (span : Span)
  | S_Expr (expr : Expr) (span : Span)
  | S_WithArena (body : Body) (span : Span)
with MatchArm :=
  | mkMatchArm (pattern : MatchPattern) (body : Body) (span : Span)
with FieldInit :=
  | mkFieldInit (name : string) (value : Expr) (span : Span)
with HandleArm :=
  | mkHandleArm (name : string) (params : list string) (body : Body) (span : Span).

Definition arm_pattern (a : MatchArm) : MatchPattern := let 'mkMatchArm p _ _ := a in p.
Definition arm_body (a : MatchArm) : Body := let 'mkMatchArm _ b _ := a in b.
Definition init_name (f : FieldInit) : string := let 'mkFieldInit n _ _ := f in n.
Definition init_value (f : FieldInit) : Expr := let 'mkFieldInit _ v _ := f in v.
Definition body_statements (b : Body) : list Stmt := let 'mkBody s _ _ := b in s.
Definition body_tail (b : Body) : option Expr := let 'mkBody _ t _ := b in t.
Definition body_span (b : Body) : Span := let 'mkBody _ _ s := b in s.

Definition expr_span (e : Expr) : Span :=
  match e with
  | E_Integer _ span | E_Float _ span | E_String _ _ span | E_Bool _ span | E_Name _ span
  | E_ContractResult span | E_Call _ _ span | E_Array _ _ span | E_Field _ _ span
  | E_Index _ _ span | E_If _ _ _ span | E_Match _ _ span | E_Repeat _ _ _ span
  | E_While _ _ span | E_Record _ _ span | E_RecordUpdate _ _ span | E_Unary _ _ span
  | E_Binary _ _ _ span | E_Group _ span | E_Perform _ _ _ span => span
  | E_Comptime body => body_span body
  | E_Handle body _ => body_span body
  end.

(** ** Items *)

Record Param := mkParam { param_name : string; param_ty : TypeRef; param_span : Span }.

Record GenericParam := mkGenericParam {
  generic_name : string; generic_kind : option string; generic_span : Span
}.

Record Function := mkFunction {
  fn_name : string;
  fn_type_params : list GenericParam;
  fn_params : list Param;
  fn_return_type : option TypeRef;
  fn_effects : list EffectRef;
  fn_requires : option Expr;
  fn_ensures : option Expr;
  fn_body : option Body;
  fn_span : Span
}.

Record Const := mkConst { const_name : string; const_ty : TypeRef; const_value : Expr; const_span : Span }.

Record Field := mkField { field_name : string; field_ty : TypeRef; field_span : Span }.

Record Struct := mkStruct {
  struct_name : string; struct_fields_decl : list Field; struct_repr : option string; struct_span : Span
}.

Record EnumVariant := mkEnumVariant {
  variant_name : string;
  variant_payload : option TypeRef;
  variant_discriminant : option ConstExpr;
  variant_span : Span
}.

Record Enum := mkEnum { enum_name : string; variants : list EnumVariant; enum_span : Span }.

Record EffectMethod := mkEffectMethod {
  method_name : string; method_params : list Param; method_return_type : option TypeRef; method_span : Span
}.

Record EffectItem := mkEffectItem { effect_name : string; methods : list EffectMethod; effect_span : Span }.

Record ExternFunction := mkExternFunction {
  extern_name : string; extern_params : list Param; extern_return_type : option TypeRef; extern_span : Span
}.

Record ExternBlock := mkExternBlock { extern_functions : list ExternFunction; extern_block_span : Span }.

Record ImportDecl := mkImportDecl { import_module : string; import_names : list string; import_span : Span }.

Inductive Item :=
  | It_Const (item : Const)
  | It_Function (item : Function)
  | It_Enum (item : Enum)
  | It_Struct (item : Struct)
  | It_Effect (item : EffectItem)
  | It_ExternBlock (item : ExternBlock)
  | It_Import (item : ImportDecl).

(** [Module], a list of items *)
Definition HirModule : Type := list Item.

(** ** Induction *)

(** The expressions and bodies directly inside an expression. *)
Definition sub_exprs (e : Expr) : list Expr :=
  match e with
  | E_Call _ args _ | E_Perform _ _ args _ => args
  | E_Array elements _ _ => elements
  | E_Field base _ _ => [base]
  | E_Index base index _ => [base; index]
  | E_If condition _ _ _ | E_While condition _ _ => [condition]
  | E_Match scrutinee _ _ => [scrutinee]
  | E_Repeat _ count _ _ => [count]
  | E_Record _ fields _ => map init_value fields
  | E_RecordUpdate base updates _ => base :: map init_value updates
  | E_Unary _ inner _ | E_Group inner _ => [inner]
  | E_Binary _ l r _ => [l; r]
  | _ => []
  end.

Definition sub_bodies (e : Expr) : list Body :=
  match e with
  | E_If _ then_body else_body _ => [then_body; else_body]
  | E_Match _ arms _ => map arm_body arms
  | E_Repeat _ _ body _ | E_While _ body _ | E_Comptime body => [body]
  | E_Handle body arms => body :: map (fun '(mkHandleArm _ _ b _) => b) arms
  | _ => []
  end.

Definition stmt_all (P : Expr -> Prop) (Q : Body -> Prop) (s : Stmt) : Prop :=
  match s with
  | S_Let _ _ value _ => P value
  | S_Assign target value _ => P target /\ P value
  | S_Expr expr _ => P expr
  | S_WithArena body _ => Q body
  end.

Definition option_all {A} (P : A -> Prop) (o : option A) : Prop :=
  match o with Some a => P a | None => True end.

Section Ind.
Context (P : Expr -> Prop) (Q : Body -> Prop).
Context (expr_step : forall e, Forall P (sub_exprs e) -> Forall Q (sub_bodies e) -> P e).
Context (body_step : forall b, Forall (stmt_all P Q) (body_statements b) -> option_all P (body_tail b) -> Q b).

Fixpoint expr_tree_ind (e : Expr) : P e
with body_tree_ind (b : Body) : Q b.
Proof.
  - apply expr_step; destruct e; cbn; repeat (apply Forall_nil_2 || apply Forall_cons_2);
      try apply expr_tree_ind; try apply body_tree_ind.
    all: try match goal with
      | |- Forall P ?l => is_var l; clear -expr_tree_ind l; induction l as [|j l IH]; constructor;
          [apply expr_tree_ind | exact IH]
      end.
    + clear -expr_tree_ind fields. induction fields as [|[p b s] l IH]; cbn; constructor; [apply expr_tree_ind | exact IH].
    + clear -expr_tree_ind updates. induction updates as [|[p b s] l IH]; cbn; constructor; [apply expr_tree_ind | exact IH].
    + clear -body_tree_ind arms. induction arms as [|[p b s] l IH]; cbn; constructor; [apply body_tree_ind | exact IH].
    + clear -body_tree_ind arms. induction arms as [|[p ps b s] l IH]; cbn; constructor; [apply body_tree_ind | exact IH].
  - apply body_step; destruct b as [stmts tl sp]; cbn.
    + clear -expr_tree_ind body_tree_ind stmts. induction stmts as [|s l IH]; constructor; [|exact IH].
      destruct s; cbn; [apply expr_tree_ind | split; apply expr_tree_ind | apply expr_tree_ind | apply body_tree_ind].
    + destruct tl as [t|]; cbn; [apply expr_tree_ind | exact I].
Defined.
End Ind.
