(* ===== verification/SemType.v ===== *)
(** * Semantic types

    [crates/sarif_frontend/src/semantic.rs] and its [typecheck.rs], [support.rs]
    and [profile.rs]: the types semantic analysis computes with, which of them
    are affine, which the [rt] profile allows, which are compatible, and the
    loops the [total] profile forbids; types by their names. *)
From stdpp Require Import gmap pretty.
From Stdlib Require Import Ascii.
From S2P Require Import Prelude Utf8 TextOps Syntax Hir.

Open Scope nat_scope.

Inductive Type_ :=
  | T_I32 | T_I64 | T_F64 | T_Bool | T_Text | T_Bytes | T_TextIndex | T_TextBuilder | T_File | T_Unit
  | T_Named (name : string)
  | T_Param (name : string)
  | T_Array (element : Type_) (len : ConstExpr)
  | T_List (element : Type_)
  | T_Pair (left right : Type_)
  | T_Error.

#[global] Instance Type_EqDecision : EqDecision Type_.
Proof. solve_decision. Defined.

Fixpoint type_render (ty : Type_) : string :=
  match ty with
  | T_I32 => "I32" | T_I64 => "I64" | T_F64 => "F64" | T_Bool => "Bool" | T_Text => "Text"
  | T_Bytes => "Bytes" | T_TextIndex => "TextIndex" | T_TextBuilder => "TextBuilder"
  | T_File => "File" | T_Unit => "Unit"
  | T_Named name => name
  | T_Param name => name
  | T_Array element size => ("[" ++ type_render element ++ "; " ++ const_expr_render size ++ "]")%string
  | T_List element => ("List[" ++ type_render element ++ "]")%string
  | T_Pair l r => ("Pair[" ++ type_render l ++ ", " ++ type_render r ++ "]")%string
  | T_Error => "?"
  end.

Record EnumVariantInfo := mkEnumVariantInfo {
  info_name : string; info_payload : option Type_; info_discriminant : option ConstExpr
}.

(** ** Compatibility *)

Definition array_len_compatible (expected actual : ConstExpr) : bool :=
  match expected, actual with
  | C_Literal expected, C_Literal actual => (expected =? actual)%Z
  | C_Param _, _ | _, C_Param _ => true
  | _, _ => true
  end.

Fixpoint types_compatible (expected actual : Type_) : bool :=
  match expected, actual with
  | T_Error, _ | _, T_Error => true
  | T_I32, T_I32 | T_I64, T_I64 | T_F64, T_F64 | T_Bool, T_Bool | T_Text, T_Text | T_Bytes, T_Bytes
  | T_TextIndex, T_TextIndex | T_TextBuilder, T_TextBuilder | T_Unit, T_Unit => true
  | T_Named expected, T_Named actual => String.eqb expected actual
  | T_Param expected, T_Param actual => String.eqb expected actual
  | T_List expected_inner, T_List actual_inner => types_compatible expected_inner actual_inner
  | T_Pair expected_left expected_right, T_Pair actual_left actual_right =>
      types_compatible expected_left actual_left && types_compatible expected_right actual_right
  | T_Array expected_element expected_len, T_Array actual_element actual_len =>
      types_compatible expected_element actual_element && array_len_compatible expected_len actual_len
  | _, _ => false
  end.

Definition matching_numeric_type (l r : Type_) : option Type_ :=
  match l, r with
  | T_I32, T_I32 => Some T_I32
  | T_I64, T_I64 | T_I32, T_I64 | T_I64, T_I32 => Some T_I64
  | T_F64, T_F64 => Some T_F64
  | _, _ => None
  end.

(** The length of an array is known: operands that are operations are not looked into. *)
Definition len_known (generic_params : gset string) (len : ConstExpr) : bool :=
  let operand_ok (e : ConstExpr) : bool :=
    match e with C_Param name => bool_decide (name ∈ generic_params) | _ => true end in
  match len with
  | C_Literal _ => true
  | C_Param name => bool_decide (name ∈ generic_params)
  | C_Add l r | C_Sub l r | C_Mul l r => operand_ok l && operand_ok r
  end.

Fixpoint type_exists (ty : Type_) (known_types generic_params : gset string) : bool :=
  match ty with
  | T_Array element len => type_exists element known_types generic_params && len_known generic_params len
  | T_Named name => bool_decide (name ∈ known_types)
  | T_Pair l r => type_exists l known_types generic_params && type_exists r known_types generic_params
  | T_Param name => bool_decide (name ∈ generic_params)
  | _ => true
  end.

(** ** Fields and variants *)

Abbreviation StructLayouts := (gmap string (list (string * Type_))).
Abbreviation StructFields := (gmap string (list Type_)).
Abbreviation EnumVariants := (gmap string (list EnumVariantInfo)).

Definition field_type (base : Type_) (field : string) (struct_layouts : StructLayouts) : option Type_ :=
  match base with
  | T_Named name =>
      fields ← struct_layouts !! name;
      option_map snd (List.find (fun '(candidate, _) => String.eqb candidate field) fields)
  | _ => None
  end.

(** [rsplit_once('.')]: at the last dot *)
Fixpoint rsplit_once (c : Ascii.ascii) (s : string) : option (string * string) :=
  match s with
  | EmptyString => None
  | String a s' =>
      match rsplit_once c s' with
      | Some (l, r) => Some (String a l, r)
      | None => if Ascii.eqb a c then Some (EmptyString, s') else None
      end
  end.

Definition split_enum_variant_path (path : string) : option (string * string) :=
  '(enum_name, variant) ← rsplit_once "."%char path;
  if negb (String.eqb enum_name "") && negb (String.eqb variant "") then Some (enum_name, variant) else None.

Definition enum_variant_info (path : string) (enum_variants : EnumVariants)
    : option (string * EnumVariantInfo) :=
  '(enum_name, variant_name) ← split_enum_variant_path path;
  variants ← enum_variants !! enum_name;
  variant ← List.find (fun variant => String.eqb (info_name variant) variant_name) variants;
  Some (enum_name, variant).

(** ** Predicates on types

    They look through struct and enum declarations; [visiting] holds the names
    on the way down, which are not looked at again.  [None] is fuel that ran
    out; it never does. *)

(** [iter().any(f)] and [iter().all(f)] *)
Section AnyAll.
Context {A : Type} (f : A -> option bool).
Fixpoint any_of (l : list A) : option bool :=
  match l with
  | [] => Some false
  | x :: l' => b ← f x; if b : bool then Some true else any_of l'
  end.
Fixpoint all_of (l : list A) : option bool :=
  match l with
  | [] => Some true
  | x :: l' => b ← f x; if b : bool then all_of l' else Some false
  end.
End AnyAll.

Section Affine.
Context (struct_fields : StructFields) (enum_variants : EnumVariants).

Fixpoint is_affine_type_inner (fuel : nat) : gset string -> Type_ -> option bool :=
  fix go (visiting : gset string) (ty : Type_) : option bool :=
    match ty with
    | T_Text | T_Bytes | T_TextIndex | T_TextBuilder | T_File => Some true
    | T_List _ => Some true
    | T_Pair l r => b ← go visiting l; if b : bool then Some true else go visiting r
    | T_Named name =>
        if decide (name ∈ visiting) then Some false
        else
          let visiting := {[ name ]} ∪ visiting in
          match struct_fields !! name, enum_variants !! name, fuel with
          | Some fields, _, S fuel => any_of (is_affine_type_inner fuel visiting) fields
          | None, Some variants, S fuel =>
              any_of (fun v => match info_payload v with
                               | Some payload_ty => is_affine_type_inner fuel visiting payload_ty
                               | None => Some false
                               end) variants
          | None, None, _ => Some true
          | _, _, 0 => None
          end
    | T_Array element _ => go visiting element
    | T_I32 | T_I64 | T_F64 | T_Bool | T_Unit | T_Param _ | T_Error => Some false
    end.

Definition declared : gset string := dom struct_fields ∪ dom enum_variants.

Definition is_affine_type (ty : Type_) : bool :=
  default false (is_affine_type_inner (size declared) ∅ ty).

Definition struct_is_affine (name : string) : bool := is_affine_type (T_Named name).
End Affine.

(** The same search in [support.rs], over the layouts of structs. *)
Section Contains.
Context (struct_layouts : StructLayouts) (enum_variants : EnumVariants).

Fixpoint type_contains_affine_values_inner (fuel : nat) : gset string -> Type_ -> option bool :=
  fix go (visiting : gset string) (ty : Type_) : option bool :=
    match ty with
    | T_Text | T_Bytes => Some true
    | T_Array element _ => go visiting element
    | T_Pair l r => b ← go visiting l; if b : bool then Some true else go visiting r
    | T_Named name =>
        if decide (name ∈ visiting) then Some false
        else
          let visiting := {[ name ]} ∪ visiting in
          match struct_layouts !! name, enum_variants !! name, fuel with
          | Some fields, _, S fuel =>
              any_of (fun '(_, field) => type_contains_affine_values_inner fuel visiting field) fields
          | None, Some variants, S fuel =>
              any_of (fun v => match info_payload v with
                               | Some payload_ty => type_contains_affine_values_inner fuel visiting payload_ty
                               | None => Some false
                               end) variants
          | None, None, _ => Some true
          | _, _, 0 => None
          end
    | T_TextIndex | T_TextBuilder | T_List _ | T_File => Some true
    | T_Param _ => Some false
    | T_I32 | T_I64 | T_F64 | T_Bool | T_Unit | T_Error => Some false
    end.

Definition type_contains_affine_values (ty : Type_) : bool :=
  default false (type_contains_affine_values_inner (size (dom struct_layouts ∪ dom enum_variants)) ∅ ty).
End Contains.

Definition mutable_local_allows_affine_values (ty : Type_) : bool :=
  match ty with T_Text | T_Bytes | T_TextIndex | T_TextBuilder | T_List _ => true | _ => false end.

Section Rt.
Context (struct_fields : StructFields).

Fixpoint type_is_rt_safe_inner (fuel : nat) : gset string -> Type_ -> option bool :=
  fix go (visiting : gset string) (ty : Type_) : option bool :=
    match ty with
    | T_Text | T_Bytes => Some false
    | T_Named name =>
        match struct_fields !! name with
        | None => Some true
        | Some fields =>
            if decide (name ∈ visiting) then Some true
            else
              match fuel with
              | 0 => None
              | S fuel => all_of (type_is_rt_safe_inner fuel ({[ name ]} ∪ visiting)) fields
              end
        end
    | T_Array element _ => go visiting element
    | T_Pair l r => b ← go visiting l; if b : bool then go visiting r else Some false
    | T_Param _ => Some false
    | T_I32 | T_I64 | T_F64 | T_Bool | T_Unit | T_Error => Some true
    | T_TextIndex | T_TextBuilder | T_List _ | T_File => Some false
    end.

Definition type_is_rt_safe (ty : Type_) : bool :=
  default false (type_is_rt_safe_inner (size (dom struct_fields)) ∅ ty).
End Rt.

(** ** Loops *)

Definition is_constant_repeat (count : Expr) : bool :=
  match count with E_Integer _ _ => true | _ => false end.

(** [body_contains_loop], given the loops of expressions *)
Section Body.
Context (expr_contains_loop : Expr -> bool).
Fixpoint body_loops (b : Body) : bool :=
  let 'mkBody statements tail _ := b in
  existsb (fun stmt =>
    match stmt with
    | S_Let _ _ value _ => expr_contains_loop value
    | S_Assign _ value _ => expr_contains_loop value
    | S_Expr expr _ => expr_contains_loop expr
    | S_WithArena body _ => body_loops body
    end) statements
  || match tail with Some tail => expr_contains_loop tail | None => false end.
End Body.

Fixpoint expr_contains_loop (e : Expr) : bool :=
  match e with
  | E_Repeat _ count _ _ => negb (is_constant_repeat count)
  | E_While _ _ _ => true
  | E_Perform _ _ args _ => existsb expr_contains_loop args
  | E_If condition then_body else_body _ =>
      expr_contains_loop condition || body_loops expr_contains_loop then_body
      || body_loops expr_contains_loop else_body
  | E_Match scrutinee arms _ =>
      expr_contains_loop scrutinee
      || existsb (fun '(mkMatchArm _ body _) => body_loops expr_contains_loop body) arms
  | E_Call _ args _ => existsb expr_contains_loop args
  | E_Array elements _ _ => existsb expr_contains_loop elements
  | E_Record _ fields _ => existsb (fun '(mkFieldInit _ value _) => expr_contains_loop value) fields
  | E_RecordUpdate base updates _ =>
      expr_contains_loop base || existsb (fun '(mkFieldInit _ value _) => expr_contains_loop value) updates
  | E_Unary _ inner _ => expr_contains_loop inner
  | E_Binary _ l r _ => expr_contains_loop l || expr_contains_loop r
  | E_Index base index _ => expr_contains_loop base || expr_contains_loop index
  | E_Field base _ _ => expr_contains_loop base
  | E_Group inner _ => expr_contains_loop inner
  | E_Integer _ _ | E_Float _ _ | E_String _ _ _ | E_Bool _ _ | E_Name _ _ | E_ContractResult _ => false
  | E_Comptime body => body_loops expr_contains_loop body
  | E_Handle body _ => body_loops expr_contains_loop body
  end.

Definition body_contains_loop (b : Body) : bool := body_loops expr_contains_loop b.

(** * Types by their names

    [parse_type_name], [parse_array_type_name] and [type_from_ref] of
    [crates/sarif_frontend/src/semantic/typecheck.rs], over the bytes of a name,
    and their inverse [Type::render]. *)

(** [str::parse::<u32>] *)
Definition parse_u32 (l : list Ascii.ascii) : option Z :=
  let l := match l with a :: l' => if Ascii.nat_of_ascii a =? 43 then l' else l | [] => l end in
  match l with
  | [] => None
  | _ => z ← parse_digits 0 l; if (z <=? U32_MAX)%Z then Some z else None
  end.

Fixpoint starts_with_bytes (prefix l : list Ascii.ascii) : option (list Ascii.ascii) :=
  match prefix, l with
  | [], _ => Some l
  | a :: prefix', b :: l' => if Ascii.eqb a b then starts_with_bytes prefix' l' else None
  | _, [] => None
  end.

(** [strip_suffix] of one byte. *)
Definition strip_last (c : Ascii.ascii) (l : list Ascii.ascii) : option (list Ascii.ascii) :=
  match rev l with
  | a :: l' => if Ascii.eqb a c then Some (rev l') else None
  | [] => None
  end.

(** The position of the first [;] outside brackets. *)
Fixpoint find_split (depth : nat) (l : list Ascii.ascii) : option nat :=
  match l with
  | [] => None
  | ch :: l' =>
      if Ascii.eqb ch "["%char then S <$> find_split (depth + 1) l'
      else if Ascii.eqb ch "]"%char then S <$> find_split (depth - 1) l'
      else if Ascii.eqb ch ";"%char && (depth =? 0) then Some 0
      else S <$> find_split depth l'
  end.

Definition builtin_type (name : string) : option Type_ :=
  if String.eqb name "I32" then Some T_I32
  else if String.eqb name "I64" then Some T_I64
  else if String.eqb name "F64" then Some T_F64
  else if String.eqb name "Bool" then Some T_Bool
  else if String.eqb name "Text" then Some T_Text
  else if String.eqb name "Bytes" then Some T_Bytes
  else if String.eqb name "TextIndex" then Some T_TextIndex
  else if String.eqb name "TextBuilder" then Some T_TextBuilder
  else if String.eqb name "File" then Some T_File
  else if String.eqb name "Unit" then Some T_Unit
  else None.

(** [other.starts_with("List[") && other.ends_with(']')], and what is between. *)
Definition list_element (l : list Ascii.ascii) : option (list Ascii.ascii) :=
  rest ← starts_with_bytes (bytes "List[") l; strip_last "]"%char rest.

Definition text (l : list Ascii.ascii) : string := String.string_of_list_ascii l.

Section Parse.
Context (generic_params : gset string).

Section Array.
Context (parse_type_name : list Ascii.ascii -> option Type_).
Definition parse_array_type_name (name : list Ascii.ascii) : option Type_ :=
  inner ← starts_with_bytes (bytes "[") (trim name);
  inner ← strip_last "]"%char inner;
  split ← find_split 0 inner;
  let element := trim (take split inner) in
  let len := trim (drop (split + 1) inner) in
  let len := match parse_u32 len with Some value => C_Literal value | None => C_Param (text len) end in
  element ← parse_type_name element;
  Some (T_Array element len).
End Array.

(** [None] is only fuel that ran out. *)
Fixpoint parse_type_name_ (fuel : nat) (name : list Ascii.ascii) : option Type_ :=
  match fuel with
  | 0 => None
  | S fuel =>
      let name := trim name in
      if decide (text name ∈ generic_params) then Some (T_Param (text name))
      else
        match builtin_type (text name) with
        | Some ty => Some ty
        | None =>
            match list_element name with
            | Some inner => element ← parse_type_name_ fuel inner; Some (T_List element)
            | None =>
                match parse_array_type_name (parse_type_name_ fuel) name with
                | Some ty => Some ty
                | None => Some (T_Named (text name))
                end
            end
        end
  end.

(** Every call is on a shorter name. *)
Definition parse_type_name (name : string) : option Type_ := parse_type_name_ (S (String.length name)) (bytes name).

Definition type_from_ref (ty : Hir.TypeRef) : Type_ := default (T_Named (Hir.path ty)) (parse_type_name (Hir.path ty)).
End Parse.

Lemma text_bytes s : text (bytes s) = s.
Proof. apply String.string_of_list_ascii_of_string. Qed.
