(* ===== verification/Builtins.v ===== *)
(** * The table of builtins

    [BuiltinEntry], [builtin_entry] and [is_builtin_name] of
    [crates/sarif_frontend/src/semantic/exprcore.rs].  The match of
    [builtin_entry] is a list of its arms in their order. *)
From stdpp Require Import gmap.
From S2P Require Import Prelude Syntax Hir SemType.

Open Scope nat_scope.

(** A text between quotes. *)
Definition quoted (s : string) : string :=
  let quote := String (Ascii.ascii_of_nat 34) EmptyString in (quote ++ s ++ quote)%string.

Record BuiltinEntry := mkBuiltinEntry {
  builtin_name : string;
  runtime_code : option string;
  arity_error_code : string;
  type_error_code : string;
  result_ty : Type_;
  call_hint : string;
  arg_types : list Type_;
  arg_helps : list string;
  dispatch_simple : bool
}.

Definition builtins_1 : list (string * BuiltinEntry) :=
  [("bytes_byte", mkBuiltinEntry "bytes_byte" None
     "semantic.bytes_byte-arity" "semantic.bytes_byte-type" T_I32
     "Call `bytes_byte(bytes, index)`."
     [T_Bytes; T_I32]
     ["Pass a Bytes argument."; "Pass an I32 index."] true);
   ("bytes_byte_i64", mkBuiltinEntry "bytes_byte_i64" None
     "semantic.bytes_byte_i64-arity" "semantic.bytes_byte_i64-type" T_I32
     "Call `bytes_byte_i64(bytes, offset)`."
     [T_Bytes; T_I64]
     ["Pass a Bytes argument."; "Pass an I64 offset."] true);
   ("bytes_load_i32", mkBuiltinEntry "bytes_load_i32" None
     "semantic.bytes_load_i32-arity" "semantic.bytes_load_i32-type" T_I32
     "Call `bytes_load_i32(bytes, offset)`."
     [T_Bytes; T_I32]
     ["Pass a Bytes argument."; "Pass an I32 offset."] true);
   ("bytes_store_i32", mkBuiltinEntry "bytes_store_i32" None
     "semantic.bytes_store_i32-arity" "semantic.bytes_store_i32-type" T_Unit
     "Call `bytes_store_i32(bytes, offset, value)`."
     [T_Bytes; T_I32; T_I32]
     ["Pass a Bytes argument."; "Pass an I32 offset."; "Pass an I32 value."] true);
   ("bytes_load_i64", mkBuiltinEntry "bytes_load_i64" None
     "semantic.bytes_load_i64-arity" "semantic.bytes_load_i64-type" T_I64
     "Call `bytes_load_i64(bytes, offset)`."
     [T_Bytes; T_I32]
     ["Pass a Bytes argument."; "Pass an I32 offset."] true);
   ("bytes_store_i64", mkBuiltinEntry "bytes_store_i64" None
     "semantic.bytes_store_i64-arity" "semantic.bytes_store_i64-type" T_Unit
     "Call `bytes_store_i64(bytes, offset, value)`."
     [T_Bytes; T_I32; T_I64]
     ["Pass a Bytes argument."; "Pass an I32 offset."; "Pass an I64 value."] true);
   ("bytes_load_i32_i64", mkBuiltinEntry "bytes_load_i32_i64" None
     "semantic.bytes_load_i32_i64-arity" "semantic.bytes_load_i32_i64-type" T_I32
     "Call `bytes_load_i32_i64(bytes, offset)`."
     [T_Bytes; T_I64]
     ["Pass a Bytes argument."; "Pass an I64 offset."] true);
   ("bytes_load_i64_i64", mkBuiltinEntry "bytes_load_i64_i64" None
     "semantic.bytes_load_i64_i64-arity" "semantic.bytes_load_i64_i64-type" T_I64
     "Call `bytes_load_i64_i64(bytes, offset)`."
     [T_Bytes; T_I64]
     ["Pass a Bytes argument."; "Pass an I64 offset."] true);
   ("bytes_load_f32_i64", mkBuiltinEntry "bytes_load_f32_i64" None
     "semantic.bytes_load_f32_i64-arity" "semantic.bytes_load_f32_i64-type" T_F64
     "Call `bytes_load_f32_i64(bytes, offset)`."
     [T_Bytes; T_I64]
     ["Pass a Bytes argument."; "Pass an I64 offset."] true);
   ("bytes_load_f64", mkBuiltinEntry "bytes_load_f64" None
     "semantic.bytes_load_f64-arity" "semantic.bytes_load_f64-type" T_F64
     "Call `bytes_load_f64(bytes, offset)`."
     [T_Bytes; T_I32]
     ["Pass a Bytes argument."; "Pass an I32 offset."] true);
   ("bytes_store_f64", mkBuiltinEntry "bytes_store_f64" None
     "semantic.bytes_store_f64-arity" "semantic.bytes_store_f64-type" T_Unit
     "Call `bytes_store_f64(bytes, offset, value)`."
     [T_Bytes; T_I32; T_F64]
     ["Pass a Bytes argument."; "Pass an I32 offset."; "Pass an F64 value."] true);
   ("bytes_load_bool", mkBuiltinEntry "bytes_load_bool" None
     "semantic.bytes_load_bool-arity" "semantic.bytes_load_bool-type" T_Bool
     "Call `bytes_load_bool(bytes, offset)`."
     [T_Bytes; T_I32]
     ["Pass a Bytes argument."; "Pass an I32 offset."] true);
   ("bytes_store_bool", mkBuiltinEntry "bytes_store_bool" None
     "semantic.bytes_store_bool-arity" "semantic.bytes_store_bool-type" T_Unit
     "Call `bytes_store_bool(bytes, offset, value)`."
     [T_Bytes; T_I32; T_Bool]
     ["Pass a Bytes argument."; "Pass an I32 offset."; "Pass a Bool value."] true)].

Definition builtins_2 : list (string * BuiltinEntry) :=
  [("bytes_find_byte_range", mkBuiltinEntry "bytes_find_byte_range" None
     "semantic.bytes_find_byte_range-arity" "semantic.bytes_find_byte_range-type" T_I32
     "Call `bytes_find_byte_range(bytes, start, end, byte)`."
     [T_Bytes; T_I32; T_I32; T_I32]
     ["Pass a Bytes argument."; "Pass an I32 start offset."; "Pass an I32 end offset."; "Pass an I32 byte value to find."] false);
   ("bytes_field_end", mkBuiltinEntry "bytes_field_end" None
     "semantic.bytes_field_end-arity" "semantic.bytes_field_end-type" T_I32
     "Call `bytes_field_end(bytes, start, end, separator)`."
     [T_Bytes; T_I32; T_I32; T_I32]
     ["Pass a Bytes argument."; "Pass an I32 start offset."; "Pass an I32 end offset."; "Pass an I32 separator byte value."] false);
   ("bytes_next_field", mkBuiltinEntry "bytes_next_field" None
     "semantic.bytes_next_field-arity" "semantic.bytes_next_field-type" T_I32
     "Call `bytes_next_field(bytes, start, end, separator)`."
     [T_Bytes; T_I32; T_I32; T_I32]
     ["Pass a Bytes argument."; "Pass an I32 start offset."; "Pass an I32 end offset."; "Pass an I32 separator byte value."] false);
   ("bytes_len", mkBuiltinEntry "bytes_len" None
     "semantic.bytes_len-arity" "semantic.bytes_len-type" T_I32
     "Call `bytes_len(bytes)` with exactly one Bytes argument."
     [T_Bytes]
     ["Pass a Bytes argument."] true);
   ("bytes_slice", mkBuiltinEntry "bytes_slice" None
     "semantic.bytes_slice-arity" "semantic.bytes_slice-type" T_Bytes
     "Call `bytes_slice(bytes, start, length)`."
     [T_Bytes; T_I32; T_I32]
     ["Pass a Bytes argument."; "Pass an I32 start offset."; "Pass an I32 length."] true);
   ("bytes_slice_i64", mkBuiltinEntry "bytes_slice_i64" None
     "semantic.bytes_slice_i64-arity" "semantic.bytes_slice_i64-type" T_Bytes
     "Call `bytes_slice_i64(bytes, start, length)`."
     [T_Bytes; T_I64; T_I64]
     ["Pass a Bytes argument."; "Pass an I64 start offset."; "Pass an I64 length."] true);
   ("bytes_to_text", mkBuiltinEntry "bytes_to_text" None
     "semantic.bytes_to_text-arity" "semantic.bytes_to_text-type" T_Text
     "Call `bytes_to_text(bytes)` with exactly one Bytes argument."
     [T_Bytes]
     ["Pass a Bytes argument."] true);
   ("text_to_bytes", mkBuiltinEntry "text_to_bytes" None
     "semantic.text_to_bytes-arity" "semantic.text_to_bytes-type" T_Bytes
     "Call `text_to_bytes(text)` with exactly one Text argument."
     [T_Text]
     ["Pass a Text argument."] true);
   ("bytes_materialize", mkBuiltinEntry "bytes_materialize" None
     "semantic.bytes_materialize-arity" "semantic.bytes_materialize-type" T_Bytes
     "Call `bytes_materialize(bytes)` with exactly one Bytes argument."
     [T_Bytes]
     ["Pass a Bytes argument."] true);
   ("codepoint_to_text", mkBuiltinEntry "codepoint_to_text" None
     "semantic.codepoint_to_text-arity" "semantic.codepoint_to_text-type" T_Text
     "Call `codepoint_to_text(codepoint)` with one I32 argument."
     [T_I32]
     ["Pass an I32 codepoint."] true);
   ("const_assert", mkBuiltinEntry "const_assert" None
     "semantic.const_assert-arity" "semantic.const_assert-type" T_Unit
     "Call `const_assert(condition)` with one Bool argument."
     [T_Bool]
     ["Pass a Bool condition."] false)].

Definition builtins_3 : list (string * BuiltinEntry) :=
  [("enum_to_i32", mkBuiltinEntry "enum_to_i32" None
     "semantic.enum_to_i32-arity" "" T_I32
     "Call `enum_to_i32(value)`."
     []
     [] false);
   ("enum_to_text", mkBuiltinEntry "enum_to_text" None
     "semantic.enum_to_text-arity" "" T_Text
     "Call `enum_to_text(value)`."
     []
     [] false);
   ("f64_from_i32", mkBuiltinEntry "f64_from_i32" None
     "semantic.f64_from_i32-arity" "semantic.f64_from_i32-type" T_F64
     "Call `f64_from_i32(value)` with one I32 argument."
     [T_I32]
     ["Pass an I32 value."] true);
   ("i64_from_i32", mkBuiltinEntry "i64_from_i32" None
     "semantic.i64_from_i32-arity" "semantic.i64_from_i32-type" T_I64
     "Call `i64_from_i32(value)` with one I32 argument."
     [T_I32]
     ["Pass an I32 value."] true);
   ("f64_from_i64", mkBuiltinEntry "f64_from_i64" None
     "semantic.f64_from_i64-arity" "semantic.f64_from_i64-type" T_F64
     "Call `f64_from_i64(value)` with one I64 argument."
     [T_I64]
     ["Pass an I64 value."] true);
   ("len", mkBuiltinEntry "len" None
     "semantic.len-arity" "semantic.len-type" T_I32
     "Call `len(xs)` with exactly one array argument."
     []
     [] false);
   ("list_get", mkBuiltinEntry "list_get" (Some "semantic.list-runtime-context")
     "semantic.list_get-arity" "semantic.list_get-type" T_Error
     "Call `list_get(list, index)`."
     []
     [] false);
   ("list_len", mkBuiltinEntry "list_len" (Some "semantic.list-runtime-context")
     "semantic.list_len-arity" "semantic.list_len-type" T_I32
     "Call `list_len(list)`."
     []
     [] false);
   ("list_new", mkBuiltinEntry "list_new" (Some "semantic.list-runtime-context")
     "semantic.list_new-arity" "semantic.list_new-type" T_Error
     "Call `list_new(capacity, default)`."
     []
     [] false);
   ("list_push", mkBuiltinEntry "list_push" (Some "semantic.list-runtime-context")
     "semantic.list_push-arity" "semantic.list_push-type" T_Error
     "Call `list_push(list, index, value)`."
     []
     [] false);
   ("list_set", mkBuiltinEntry "list_set" (Some "semantic.list-runtime-context")
     "semantic.list_set-arity" "semantic.list_set-type" T_Error
     "Call `list_set(list, index, value)`."
     []
     [] false);
   ("list_from", mkBuiltinEntry "list_from" (Some "semantic.list-runtime-context")
     "semantic.list_from-arity" "semantic.list_from-type" T_Error
     "Call `list_from(array)`."
     []
     [] false);
   ("list_sort_by_field", mkBuiltinEntry "list_sort_by_field" (Some "semantic.list-runtime-context")
     "semantic.list_sort_by_field-arity" "semantic.list_sort_by_field-type" T_Error
     ("Call `list_sort_by_field(list, len, " ++ quoted "field" ++ ")`.")%string
     []
     [] false)].

Definition builtins_4 : list (string * BuiltinEntry) :=
  [("list_sort_by_text_field", mkBuiltinEntry "list_sort_by_text_field" (Some "semantic.list-runtime-context")
     "semantic.list_sort_by_text_field-arity" "semantic.list_sort_by_text_field-type" T_Error
     "Call `list_sort_by_text_field(list, field_index)`."
     []
     [] false);
   ("list_sort_text", mkBuiltinEntry "list_sort_text" (Some "semantic.list-runtime-context")
     "semantic.list_sort_text-arity" "semantic.list_sort_text-type" T_Error
     "Call `list_sort_text(list, direction)`."
     []
     [] false);
   ("parse_i32", mkBuiltinEntry "parse_i32" None
     "semantic.parse_i32-arity" "semantic.parse_i32-type" T_I32
     "Call `parse_i32(text)` with one Text argument."
     [T_Text]
     ["Pass a Text argument."] true);
   ("parse_i32_range", mkBuiltinEntry "parse_i32_range" None
     "semantic.parse_i32_range-arity" "semantic.parse_i32_range-type" T_I32
     "Call `parse_i32_range(text, start, end)`."
     [T_Text; T_I32; T_I32]
     ["Pass a Text argument."; "Pass an I32 start offset."; "Pass an I32 end offset."] true);
   ("sqrt", mkBuiltinEntry "sqrt" None
     "semantic.sqrt-arity" "semantic.sqrt-type" T_F64
     "Call `sqrt(value)` with one F64 argument."
     [T_F64]
     ["Pass an F64 value."] true);
   ("text_builder_append", mkBuiltinEntry "text_builder_append" (Some "semantic.text_builder_append-runtime-context")
     "semantic.text_builder_append-arity" "semantic.text_builder_append-type" T_TextBuilder
     "Call `text_builder_append(builder, text)`."
     [T_TextBuilder; T_Text]
     ["Pass a TextBuilder."; "Pass a Text argument."] true);
   ("text_builder_append_ascii", mkBuiltinEntry "text_builder_append_ascii" (Some "semantic.text_builder_append-ascii-runtime-context")
     "semantic.text_builder_append_ascii-arity" "semantic.text_builder_append_ascii-type" T_TextBuilder
     "Call `text_builder_append_ascii(builder, ascii)`."
     [T_TextBuilder; T_I32]
     ["Pass a TextBuilder."; "Pass an I32 ascii byte."] true);
   ("text_builder_append_codepoint", mkBuiltinEntry "text_builder_append_codepoint" (Some "semantic.text_builder_append-codepoint-runtime-context")
     "semantic.text_builder_append_codepoint-arity" "semantic.text_builder_append_codepoint-type" T_TextBuilder
     "Call `text_builder_append_codepoint(builder, codepoint)`."
     [T_TextBuilder; T_I32]
     ["Pass a TextBuilder."; "Pass an I32 codepoint."] true);
   ("text_builder_append_i32", mkBuiltinEntry "text_builder_append_i32" (Some "semantic.text_builder_append_i32-runtime-context")
     "semantic.text_builder_append_i32-arity" "semantic.text_builder_append_i32-type" T_TextBuilder
     "Call `text_builder_append_i32(builder, value)`."
     [T_TextBuilder; T_I32]
     ["Pass a TextBuilder."; "Pass an I32 value."] true);
   ("text_builder_append_slice", mkBuiltinEntry "text_builder_append_slice" (Some "semantic.text_builder_append-slice-runtime-context")
     "semantic.text_builder_append_slice-arity" "semantic.text_builder_append_slice-type" T_TextBuilder
     "Call `text_builder_append_slice(builder, text, start, length)`."
     [T_TextBuilder; T_Text; T_I32; T_I32]
     ["Pass a TextBuilder."; "Pass a Text argument."; "Pass an I32 start offset."; "Pass an I32 length."] true);
   ("text_builder_finish", mkBuiltinEntry "text_builder_finish" (Some "semantic.text_builder_finish-runtime-context")
     "semantic.text_builder_finish-arity" "semantic.text_builder_finish-type" T_Text
     "Call `text_builder_finish(builder)`."
     [T_TextBuilder]
     ["Pass a TextBuilder."] true);
   ("text_builder_new", mkBuiltinEntry "text_builder_new" (Some "semantic.text_builder_new-runtime-context")
     "semantic.text_builder_new-arity" "" T_TextBuilder
     "Call `text_builder_new()`."
     []
     [] false)].

Definition builtins_5 : list (string * BuiltinEntry) :=
  [("text_byte", mkBuiltinEntry "text_byte" None
     "semantic.text_byte-arity" "semantic.text_byte-type" T_I32
     "Call `text_byte(text, index)`."
     [T_Text; T_I32]
     ["Pass a Text argument."; "Pass an I32 index."] true);
   ("text_cmp", mkBuiltinEntry "text_cmp" None
     "semantic.text_cmp-arity" "semantic.text_cmp-type" T_I32
     "Call `text_cmp(a, b)` with two Text arguments."
     [T_Text; T_Text]
     ["Pass a Text argument."; "Pass a Text argument."] true);
   ("text_concat", mkBuiltinEntry "text_concat" None
     "semantic.text_concat-arity" "semantic.text_concat-type" T_Text
     "Call `text_concat(a, b)`."
     [T_Text; T_Text]
     ["Pass a Text argument."; "Pass a Text argument."] true);
   ("text_eq_range", mkBuiltinEntry "text_eq_range" None
     "semantic.text_eq_range-arity" "semantic.text_eq_range-type" T_Bool
     "Call `text_eq_range(a, start, length, b)`."
     [T_Text; T_I32; T_I32; T_Text]
     ["Pass a Text argument."; "Pass an I32 start offset."; "Pass an I32 length."; "Pass a Text argument to compare against."] true);
   ("text_field_end", mkBuiltinEntry "text_field_end" None
     "semantic.text_field_end-arity" "semantic.text_field_end-type" T_I32
     "Call `text_field_end(text, start, end, separator)`."
     [T_Text; T_I32; T_I32; T_I32]
     ["Pass a Text argument."; "Pass an I32 start offset."; "Pass an I32 end offset."; "Pass an I32 separator byte."] false);
   ("text_find_byte_range", mkBuiltinEntry "text_find_byte_range" None
     "semantic.text_find_byte_range-arity" "semantic.text_find_byte_range-type" T_I32
     "Call `text_find_byte_range(text, start, end, byte)`."
     [T_Text; T_I32; T_I32; T_I32]
     ["Pass a Text argument."; "Pass an I32 start offset."; "Pass an I32 end offset."; "Pass an I32 byte value to find."] false);
   ("text_from_f64_fixed", mkBuiltinEntry "text_from_f64_fixed" None
     "semantic.text_from_f64_fixed-arity" "semantic.text_from_f64_fixed-type" T_Text
     "Call `text_from_f64_fixed(value, decimals)`."
     [T_F64; T_I32]
     ["Pass an F64 value."; "Pass an I32 decimal places."] true);
   ("text_index_contains", mkBuiltinEntry "text_index_contains" (Some "semantic.text_index-runtime-context")
     "semantic.text_index_contains-arity" "semantic.text_index_contains-type" T_Bool
     "Call `text_index_contains(index, key)`."
     [T_TextIndex; T_Text]
     ["Pass a TextIndex."; "Pass a Text key."] false);
   ("text_index_get", mkBuiltinEntry "text_index_get" (Some "semantic.text_index-runtime-context")
     "semantic.text_index_get-arity" "semantic.text_index_get-type" T_I32
     "Call `text_index_get(index, key)`."
     [T_TextIndex; T_Text]
     ["Pass a TextIndex."; "Pass a Text key."] false);
   ("text_index_get_or_insert", mkBuiltinEntry "text_index_get_or_insert" (Some "semantic.text_index-runtime-context")
     "semantic.text_index_get_or_insert-arity" "semantic.text_index_get_or_insert-type" T_I32
     "Call `text_index_get_or_insert(index, key, value)`."
     [T_TextIndex; T_Text; T_I32]
     ["Pass a TextIndex."; "Pass a Text key."; "Pass an I32 default value."] false);
   ("text_index_keys", mkBuiltinEntry "text_index_keys" (Some "semantic.text_index-runtime-context")
     "semantic.text_index_keys-arity" "semantic.text_index_keys-type" T_Text
     "Call `text_index_keys(index)` with one TextIndex."
     [T_TextIndex]
     ["Pass a TextIndex."] false)].

Definition builtins_6 : list (string * BuiltinEntry) :=
  [("text_index_new", mkBuiltinEntry "text_index_new" (Some "semantic.text_index-runtime-context")
     "semantic.text_index_new-arity" "" T_TextIndex
     "Call `text_index_new()`."
     []
     [] false);
   ("text_index_set", mkBuiltinEntry "text_index_set" (Some "semantic.text_index-runtime-context")
     "semantic.text_index_set-arity" "semantic.text_index_set-type" T_TextIndex
     "Call `text_index_set(index, key, value)`."
     [T_TextIndex; T_Text; T_I32]
     ["Pass a TextIndex."; "Pass a Text key."; "Pass an I32 value."] false);
   ("text_len", mkBuiltinEntry "text_len" None
     "semantic.text_len-arity" "semantic.text_len-type" T_I32
     "Call `text_len(text)` with exactly one Text argument."
     [T_Text]
     ["Pass a Text argument."] true);
   ("text_line_end", mkBuiltinEntry "text_line_end" None
     "semantic.text_line_end-arity" "semantic.text_line_end-type" T_I32
     "Call `text_line_end(text, start)`."
     [T_Text; T_I32]
     ["Pass a Text argument."; "Pass an I32 start offset."] false);
   ("text_next_field", mkBuiltinEntry "text_next_field" None
     "semantic.text_next_field-arity" "semantic.text_next_field-type" T_I32
     "Call `text_next_field(text, start, end, separator)`."
     [T_Text; T_I32; T_I32; T_I32]
     ["Pass a Text argument."; "Pass an I32 start offset."; "Pass an I32 end offset."; "Pass an I32 separator byte."] false);
   ("text_next_line", mkBuiltinEntry "text_next_line" None
     "semantic.text_next_line-arity" "semantic.text_next_line-type" T_I32
     "Call `text_next_line(text, start)`."
     [T_Text; T_I32]
     ["Pass a Text argument."; "Pass an I32 start offset."] false);
   ("text_intern", mkBuiltinEntry "text_intern" None
     "semantic.text_intern-arity" "semantic.text_intern-type" T_Text
     "Call `text_intern(text)`."
     [T_Text]
     ["Pass a Text argument to intern."] true);
   ("text_promote", mkBuiltinEntry "text_promote" None
     "semantic.text_promote-arity" "semantic.text_promote-type" T_Text
     "Call `text_promote(text)`."
     [T_Text]
     ["Pass a Text argument to promote to process lifetime."] true);
   ("text_slice", mkBuiltinEntry "text_slice" None
     "semantic.text_slice-arity" "semantic.text_slice-type" T_Text
     "Call `text_slice(text, start, length)`."
     [T_Text; T_I32; T_I32]
     ["Pass a Text argument."; "Pass an I32 start offset."; "Pass an I32 length."] true);
   ("arg_count", mkBuiltinEntry "arg_count" None
     "semantic.arg_count-arity" "" T_I32
     "Call `arg_count()`."
     []
     [] true);
   ("arg_text", mkBuiltinEntry "arg_text" None
     "semantic.arg_text-arity" "semantic.arg_text-type" T_Text
     "Call `arg_text(index)` with one I32 argument."
     [T_I32]
     ["Pass an I32 index."] true);
   ("tcp_listen", mkBuiltinEntry "tcp_listen" None
     "semantic.tcp_listen-arity" "semantic.tcp_listen-type" T_File
     "Call `tcp_listen(port)` with one I32 argument."
     [T_I32]
     ["Pass an I32 port number."] true)].

Definition builtins_7 : list (string * BuiltinEntry) :=
  [("tcp_accept", mkBuiltinEntry "tcp_accept" None
     "semantic.tcp_accept-arity" "semantic.tcp_accept-type" T_File
     "Call `tcp_accept(server_fd)` with one File argument."
     [T_File]
     ["Pass a File server socket."] true);
   ("tcp_recv", mkBuiltinEntry "tcp_recv" None
     "semantic.tcp_recv-arity" "semantic.tcp_recv-type" T_Bytes
     "Call `tcp_recv(fd, max_len)` with File and I32 arguments."
     [T_File; T_I32]
     ["Pass a File socket."; "Pass an I32 max bytes to read."] true);
   ("tcp_send", mkBuiltinEntry "tcp_send" None
     "semantic.tcp_send-arity" "semantic.tcp_send-type" T_I32
     "Call `tcp_send(fd, data)` with File and Text/Bytes arguments."
     [T_File; T_Text]
     ["Pass a File socket."; "Pass Text or Bytes data."] false);
   ("tcp_close", mkBuiltinEntry "tcp_close" None
     "semantic.tcp_close-arity" "semantic.tcp_close-type" T_Unit
     "Call `tcp_close(fd)` with one File argument."
     [T_File]
     ["Pass a File socket."] true);
   ("print", mkBuiltinEntry "print" None
     "semantic.print-arity" "semantic.print-type" T_Unit
     "Call `print(text)` with one Text argument."
     [T_Text]
     ["Pass Text to print to stdout."] true)].

Definition builtins : list (string * BuiltinEntry) :=
  builtins_1 ++ builtins_2 ++ builtins_3 ++ builtins_4 ++ builtins_5 ++ builtins_6 ++ builtins_7.

Definition builtin_entry (name : string) : option BuiltinEntry :=
  option_map snd (List.find (fun '(key, _) => String.eqb name key) builtins).

Definition is_builtin_name (name : string) : bool :=
  match builtin_entry name with Some _ => true | None => false end.
