(* ===== verification/Ownership.v ===== *)
(** * Affine ownership: the checker

    [crates/sarif_frontend/src/ownership.rs]: which values a body moves, and
    whether it moves one twice.  The checker walks a body once and keeps the
    access paths moved so far; branches start from the moves before them. *)
From stdpp Require Import gmap pretty.
From S2P Require Import Prelude Syntax Hir SemType.

Open Scope nat_scope.

(** ** The effects of the system *)

Record SystemEffectMethod := mkMethod {
  system_name : string; system_params : list (string * Type_); system_return_type : Type_
}.

Definition SYSTEM_IO_METHODS : list SystemEffectMethod :=
  [
   mkMethod "stdout_write" [("data", T_Text)] T_Unit;
   mkMethod "stdout_write_bytes" [("data", T_Bytes)] T_Unit;
   mkMethod "stdout_write_builder" [("builder", T_TextBuilder)] T_Unit;
   mkMethod "stdin_bytes" [] T_Bytes;
   mkMethod "stdin_text" [] T_Text
  ].

Definition SYSTEM_FILE_METHODS : list SystemEffectMethod :=
  [
   mkMethod "open" [("path", T_Text); ("mode", T_Text)] T_File;
   mkMethod "close" [("file", T_File)] T_Unit;
   mkMethod "read" [("file", T_File); ("count", T_I32)] T_Bytes;
   mkMethod "read_to_end" [("file", T_File)] T_Bytes;
   mkMethod "write" [("file", T_File); ("data", T_Bytes)] T_I32;
   mkMethod "sync" [("file", T_File)] T_Unit;
   mkMethod "seek" [("file", T_File); ("offset", T_I64); ("whence", T_I32)] T_I32;
   mkMethod "size" [("file", T_File)] T_I32;
   mkMethod "exists" [("path", T_Text)] T_Bool;
   mkMethod "remove" [("path", T_Text)] T_Bool;
   mkMethod "mmap" [("path", T_Text)] T_Bytes;
   mkMethod "is_valid" [("file", T_File)] T_Bool
  ].

Definition SYSTEM_ENV_METHODS : list SystemEffectMethod :=
  [
   mkMethod "get" [("key", T_Text)] T_Text;
   mkMethod "set" [("key", T_Text); ("value", T_Text)] T_Bool;
   mkMethod "remove" [("key", T_Text)] T_Bool;
   mkMethod "keys" [] T_Text;
   mkMethod "arg_count" [] T_I32;
   mkMethod "arg_text" [("index", T_I32)] T_Text
  ].

Definition SYSTEM_DIR_METHODS : list SystemEffectMethod :=
  [
   mkMethod "create" [("path", T_Text)] T_Bool;
   mkMethod "remove" [("path", T_Text)] T_Bool;
   mkMethod "list" [("path", T_Text)] T_Text;
   mkMethod "exists" [("path", T_Text)] T_Bool;
   mkMethod "current" [] T_Text;
   mkMethod "change" [("path", T_Text)] T_Bool
  ].

Definition SYSTEM_PROCESS_METHODS : list SystemEffectMethod :=
  [
   mkMethod "exit" [("code", T_I32)] T_Unit;
   mkMethod "id" [] T_I32
  ].

Definition SYSTEM_CLOCK_METHODS : list SystemEffectMethod :=
  [
   mkMethod "now" [] T_F64;
   mkMethod "sleep" [("ms", T_I32)] T_Unit
  ].

Definition SYSTEM_EFFECTS : list (string * list SystemEffectMethod) :=
  [("SystemIO", SYSTEM_IO_METHODS); ("SystemFile", SYSTEM_FILE_METHODS); ("SystemEnv", SYSTEM_ENV_METHODS);
   ("SystemDir", SYSTEM_DIR_METHODS); ("SystemProcess", SYSTEM_PROCESS_METHODS);
   ("SystemClock", SYSTEM_CLOCK_METHODS)].

Definition find_system_effect_method (effect operation : string) : option SystemEffectMethod :=
  foldr (fun '(effect_name, methods) rest =>
    if String.eqb effect_name effect then
      match List.find (fun m => String.eqb (system_name m) operation) methods with
      | Some m => Some m
      | None => rest
      end
    else rest) None SYSTEM_EFFECTS.

(** ** Signatures *)

(** What a function does with an argument: [move_whole], or the access paths
    below it that it moves. *)
Record ParamUsage := mkParamUsage { move_whole : bool; move_fields : list (list string) }.

#[global] Instance ParamUsage_EqDecision : EqDecision ParamUsage.
Proof. solve_decision. Defined.

Record FunctionSignature := mkFunctionSignature {
  sig_const_params : gset string;
  sig_params : list (string * Type_ * Span);
  sig_param_usages : list ParamUsage;
  sig_return_type : Type_;
  sig_effects : list Effect;
  sig_span : Span
}.

Definition usage_move_whole : ParamUsage := mkParamUsage true [].
Definition usage_borrow_only : ParamUsage := mkParamUsage false [].
Definition is_borrow_only (u : ParamUsage) : bool :=
  negb (move_whole u) && match move_fields u with [] => true | _ => false end.

(** [l.starts_with(prefix)] *)
Fixpoint starts_with (l prefix : list string) : bool :=
  match prefix, l with
  | [], _ => true
  | a :: prefix', b :: l' => String.eqb a b && starts_with l' prefix'
  | _ :: _, [] => false
  end.

Definition record_path (path : list string) (u : ParamUsage) : ParamUsage :=
  if move_whole u then u
  else
    match path with
    | [] => usage_move_whole
    | _ =>
        if existsb (fun existing => starts_with existing path || starts_with path existing) (move_fields u)
        then
          let kept := List.filter
            (fun existing => negb (starts_with existing path) || bool_decide (existing = path))
            (move_fields u) in
          if existsb (fun existing => bool_decide (existing = path)) kept
          then mkParamUsage (move_whole u) kept
          else mkParamUsage (move_whole u) (kept ++ [path])
        else mkParamUsage (move_whole u) (move_fields u ++ [path])
    end.

(** [project_record_field]: a path without a head, or one that ends in the
    field, moves the field whole. *)
Definition usage_project_record_field (u : ParamUsage) (field_name : string) : ParamUsage :=
  if move_whole u then usage_move_whole
  else
    (fix go (paths : list (list string)) (projected : ParamUsage) : ParamUsage :=
       match paths with
       | [] => projected
       | [] :: _ => usage_move_whole
       | (head :: tail) :: paths' =>
           if negb (String.eqb head field_name) then go paths' projected
           else match tail with
                | [] => usage_move_whole
                | _ => go paths' (record_path tail projected)
                end
       end) (move_fields u) usage_borrow_only.

(** ** Access paths *)

Record LocalAlias := mkLocalAlias { alias_root : string; alias_fields : list string }.

Abbreviation Aliases := (gmap string LocalAlias).
Abbreviation Locals := (gmap string Type_).

Definition MATCH_PAYLOAD_SEGMENT : string := "$payload".

Fixpoint access_path (e : Expr) (aliases : Aliases) : option (string * list string) :=
  match e with
  | E_Name name _ =>
      match aliases !! name with
      | None => Some (name, [])
      | Some alias => Some (alias_root alias, alias_fields alias)
      end
  | E_ContractResult _ => Some ("result", [])
  | E_Group inner _ => access_path inner aliases
  | E_Unary _ inner _ => access_path inner aliases
  | E_Field base field _ =>
      '(root, fields) ← access_path base aliases; Some (root, fields ++ [field])
  | _ => None
  end.

Definition render_affine_subject (root : string) (fields : list string) : string :=
  match fields with
  | [] => root
  | _ => (root ++ "." ++ String.concat "." fields)%string
  end.

(** ** Builtins *)

Definition one_of (name : string) (names : list string) : bool := existsb (String.eqb name) names.

Definition is_text_scan_builtin (callee : string) : bool :=
  one_of callee
    ["text_find_byte_range"; "bytes_find_byte_range"; "bytes_field_end"; "bytes_next_field";
     "text_line_end"; "text_next_line"; "text_field_end"; "text_next_field"].

Definition is_borrow_only_builtin (callee : string) : bool :=
  one_of callee
    ["len"; "text_len"; "bytes_len"; "text_slice"; "bytes_slice"; "bytes_materialize"; "text_byte";
     "bytes_byte"; "bytes_byte_i64"; "bytes_load_i32_i64"; "bytes_load_i64_i64"; "bytes_load_f32_i64";
     "bytes_slice_i64"; "text_cmp"; "text_eq_range"; "text_intern"; "text_promote";
     "text_builder_append_i32"; "parse_i32_range"; "text_builder_append_codepoint";
     "text_builder_append_ascii"; "text_builder_append_slice"; "text_index_get"; "text_index_contains";
     "text_index_set"; "text_index_get_or_insert"; "list_len"; "list_get"]
  || is_text_scan_builtin callee.

Definition is_borrow_only_effect_method (effect operation : string) : bool :=
  (String.eqb effect "SystemFile" &&
     one_of operation ["is_valid"; "read"; "read_to_end"; "size"; "seek"; "exists"; "remove"; "mmap";
                       "write"; "sync"])
  || (String.eqb effect "SystemEnv" && one_of operation ["get"; "arg_count"; "arg_text"; "keys"])
  || (String.eqb effect "SystemIO" && one_of operation ["stdin_text"; "stdin_bytes"]).

(** ** Falling through *)

Section FallsThrough.
Context (expr_falls_through : Expr -> bool).
(** [body_falls_through], given [expr_falls_through] *)
Fixpoint body_falls (b : Body) : bool :=
  let 'mkBody statements tail _ := b in
  forallb (fun stmt =>
    match stmt with
    | S_Let _ _ _ _ | S_Assign _ _ _ => true
    | S_Expr expr _ => expr_falls_through expr
    | S_WithArena body _ => body_falls body
    end) statements
  && match tail with None => true | Some tail => expr_falls_through tail end.
End FallsThrough.

Fixpoint expr_falls_through (e : Expr) : bool :=
  match e with
  | E_If _ then_body else_body _ =>
      body_falls expr_falls_through then_body || body_falls expr_falls_through else_body
  | E_Match _ arms _ => existsb (fun '(mkMatchArm _ body _) => body_falls expr_falls_through body) arms
  | E_Group inner _ => expr_falls_through inner
  | E_Unary _ inner _ => expr_falls_through inner
  | E_Comptime body => body_falls expr_falls_through body
  | _ => true
  end.

Definition body_falls_through (b : Body) : bool := body_falls expr_falls_through b.

(** ** Types of expressions

    As far as ownership needs them: [None] is a type it does not know. *)

Definition first_arg_type (expr_type : Expr -> option Type_) (args : list Expr) : option Type_ :=
  match args with arg :: _ => expr_type arg | [] => None end.

(** The result types of the builtins. *)
Definition builtin_call_type (expr_type : Expr -> option Type_) (callee : string) (args : list Expr)
    : option Type_ :=
  if one_of callee
       ["text_builder_new"; "text_builder_append"; "text_builder_append_codepoint";
        "text_builder_append_ascii"; "text_builder_append_slice"; "text_builder_append_i32"]
  then Some T_TextBuilder
  else if String.eqb callee "text_index_new" then Some T_TextIndex
  else if String.eqb callee "text_builder_finish" then Some T_Text
  else if String.eqb callee "bytes_slice" then Some T_Bytes
  else if String.eqb callee "list_new" then
    match args with _ :: value :: _ => option_map T_List (expr_type value) | _ => None end
  else if String.eqb callee "list_len" then Some T_I32
  else if String.eqb callee "list_get" then
    match first_arg_type expr_type args with Some (T_List element) => Some element | _ => None end
  else if String.eqb callee "list_set" then first_arg_type expr_type args
  else if String.eqb callee "list_from" then
    match first_arg_type expr_type args with Some (T_Array element _) => Some (T_List element) | _ => None end
  else if one_of callee ["list_push"; "list_sort_text"; "list_sort_by_field"; "list_sort_by_text_field"]
  then first_arg_type expr_type args
  else if one_of callee ["text_index_get"; "text_index_contains"; "text_index_get_or_insert"] then Some T_I32
  else if String.eqb callee "text_index_set" then Some T_TextIndex
  else if String.eqb callee "bytes_len" then Some T_I32
  else if String.eqb callee "bytes_byte" then Some T_I32
  else if is_text_scan_builtin callee then Some T_I32
  else if String.eqb callee "text_eq_range" then Some T_Bool
  else if String.eqb callee "parse_i32_range" then Some T_I32
  else None.

(** [locals.insert] unless the name is there already *)
Definition insert_new (name : string) (ty : Type_) (locals : Locals) : Locals :=
  match locals !! name with None => <[name := ty]> locals | Some _ => locals end.

Section BodyType.
Context (expr_type : Locals -> Expr -> option Type_).
(** [body_type_for_ownership], given the types of expressions *)
Fixpoint body_type (b : Body) (locals : Locals) : option Type_ :=
  let 'mkBody statements tail _ := b in
  (fix go (statements : list Stmt) (locals : Locals) : option Type_ :=
     match statements with
     | [] => match tail with None => Some T_Unit | Some tail => expr_type locals tail end
     | S_Let _ name value _ :: rest =>
         ty ← expr_type locals value; go rest (insert_new name ty locals)
     | S_Assign target value _ :: rest =>
         ty ← expr_type locals value;
         go rest (match target with
                  | E_Name name _ =>
                      match locals !! name with Some _ => <[name := ty]> locals | None => locals end
                  | _ => locals
                  end)
     | S_Expr expr _ :: rest => expr_type locals expr ≫= fun _ => go rest locals
     | S_WithArena body _ :: rest => body_type body locals ≫= fun _ => go rest locals
     end) statements locals.
End BodyType.

(** [filter_map] *)
Section FilterMap.
Context {A B : Type} (f : A -> option B).
Fixpoint filter_map (l : list A) : list B :=
  match l with
  | [] => []
  | x :: l' => match f x with Some y => y :: filter_map l' | None => filter_map l' end
  end.
End FilterMap.

Definition all_equal (first : Type_) (types : list Type_) : option Type_ :=
  if forallb (fun ty => bool_decide (ty = first)) types then Some first else None.

Section ExprType.
Context (struct_layouts : StructLayouts) (result_type : option Type_).

Fixpoint expr_type (locals : Locals) (e : Expr) : option Type_ :=
  match e with
  | E_Integer _ _ => Some T_I32
  | E_Float _ _ => Some T_F64
  | E_String _ _ _ => Some T_Text
  | E_Bool _ _ => Some T_Bool
  | E_Name name _ => locals !! name
  | E_ContractResult _ => result_type
  | E_Group inner _ => expr_type locals inner
  | E_Unary _ inner _ => expr_type locals inner
  | E_Comptime body => body_type expr_type body locals
  | E_Handle _ _ => None
  | E_If _ then_body else_body _ =>
      then_ty ← body_type expr_type then_body locals;
      else_ty ← body_type expr_type else_body locals;
      if decide (then_ty = else_ty) then Some then_ty else None
  | E_Match _ arms _ =>
      match rev (filter_map (fun '(mkMatchArm _ body _) => body_type expr_type body locals) arms) with
      | [] => None
      | first :: arm_types => all_equal first (rev arm_types)
      end
  | E_Repeat _ _ _ _ | E_While _ _ _ => Some T_Unit
  | E_Array elements repeat_len _ =>
      match elements with
      | [] => None
      | element :: rest =>
          first ← expr_type locals element;
          if forallb (fun element => bool_decide (expr_type locals element = Some first)) rest
          then Some (T_Array first
                 (default
                    (C_Literal (let n := Z.of_nat (length elements) in
                                if (n <=? U32_MAX)%Z then n else 0%Z)) repeat_len))
          else None
      end
  | E_Index base _ _ =>
      match expr_type locals base with
      | Some (T_Array element _) | Some (T_List element) => Some element
      | Some T_Text | Some T_Bytes => Some T_I32
      | _ => None
      end
  | E_Field base field _ =>
      let of_base :=
        base_ty ← expr_type locals base;
        match base_ty with
        | T_Array _ _ | T_List _ | T_Text | T_Bytes =>
            if String.eqb field "len" then Some T_I32 else field_type base_ty field struct_layouts
        | _ => field_type base_ty field struct_layouts
        end in
      match base with
      | E_Name name _ =>
          match locals !! name, struct_layouts !! name with
          | None, None => Some (T_Named name)
          | _, _ => of_base
          end
      | _ => of_base
      end
  | E_Record name _ _ => Some (T_Named name)
  | E_RecordUpdate base _ _ => expr_type locals base
  | E_Call callee args _ => builtin_call_type (expr_type locals) callee args
  | E_Binary _ _ _ _ => None
  | E_Perform effect operation _ _ =>
      match find_system_effect_method effect operation with
      | Some m => Some (system_return_type m)
      | None => Some T_Unit
      end
  end.
End ExprType.

Definition payload_alias_for_scrutinee (scrutinee : Expr) (aliases : Aliases) : option LocalAlias :=
  '(root, fields) ← access_path scrutinee aliases;
  Some (mkLocalAlias root (fields ++ [MATCH_PAYLOAD_SEGMENT])).

Definition match_arm_payload_binding (scrutinee : Expr) (pattern : MatchPattern) (locals : Locals)
    (enum_variants : EnumVariants) (struct_layouts : StructLayouts) : option (string * Type_) :=
  match pattern with
  | P_Variant path (Some binding) _ =>
      match expr_type struct_layouts None locals scrutinee with
      | Some (T_Named enum_name) =>
          '(_, variant_name) ← split_enum_variant_path (Hir.path path);
          variants ← enum_variants !! enum_name;
          variant ← List.find (fun variant => String.eqb (info_name variant) variant_name) variants;
          payload_ty ← info_payload variant;
          Some (binding, payload_ty)
      | _ => None
      end
  | _ => None
  end.

(** ** The checker *)

Record AffineMove := mkAffineMove { move_root : string; move_path : list string; move_span : Span }.

Inductive AffineCheckMode :=
  | Mode_Body
  | Mode_Contract (clause_name : string) (result_type : option Type_).

Definition mode_result_type (mode : AffineCheckMode) : option Type_ :=
  match mode with Mode_Body => None | Mode_Contract _ result_type => result_type end.

(** What a checker never changes, and what it does. *)
Record CheckerContext := mkCheckerContext {
  functions : gmap string FunctionSignature;
  enum_variants : EnumVariants;
  struct_fields : StructFields;
  struct_layouts : StructLayouts;
  function_name : string;
  mode : AffineCheckMode
}.

Record Checker := mkChecker {
  locals : Locals;
  protected_roots : gset string;
  mutable_locals : gset string;
  aliases : Aliases;
  diagnostics : list Diagnostic;
  first_moves : list AffineMove;
  ok : bool
}.

Definition set_moves (moves : list AffineMove) (s : Checker) : Checker :=
  mkChecker (locals s) (protected_roots s) (mutable_locals s) (aliases s) (diagnostics s) moves (ok s).
Definition set_locals (l : Locals) (s : Checker) : Checker :=
  mkChecker l (protected_roots s) (mutable_locals s) (aliases s) (diagnostics s) (first_moves s) (ok s).
Definition set_aliases (a : Aliases) (s : Checker) : Checker :=
  mkChecker (locals s) (protected_roots s) (mutable_locals s) a (diagnostics s) (first_moves s) (ok s).
Definition set_mutable (m : gset string) (s : Checker) : Checker :=
  mkChecker (locals s) (protected_roots s) m (aliases s) (diagnostics s) (first_moves s) (ok s).

(** [diagnostics.push(..); ok = false] *)
Definition reject (d : Diagnostic) (s : Checker) : Checker :=
  mkChecker (locals s) (protected_roots s) (mutable_locals s) (aliases s) (diagnostics s ++ [d])
    (first_moves s) false.

(** A checker for a nested body: the state of [s] with other protected roots. *)
Definition nested (protected : gset string) (s : Checker) : Checker :=
  mkChecker (locals s) protected (mutable_locals s) (aliases s) [] (first_moves s) true.

(** [self.ok &= inner.ok; self.diagnostics.extend(inner diagnostics)] *)
Definition absorb (inner s : Checker) : Checker :=
  mkChecker (locals s) (protected_roots s) (mutable_locals s) (aliases s)
    (diagnostics s ++ diagnostics inner) (first_moves s) (ok s && ok inner).

(** The locals that are not mutable. *)
Definition loop_protected (s : Checker) : gset string := dom (locals s) ∖ mutable_locals s.

Definition paths_overlap (p q : list string) : bool :=
  match p, q with
  | [], _ | _, [] => true
  | _, _ => starts_with p q || starts_with q p
  end.

Definition overlaps (m : AffineMove) (root : string) (fields : list string) : bool :=
  String.eqb (move_root m) root && paths_overlap (move_path m) fields.

Definition span_text (span : Span) : string :=
  ("[" ++ pretty (span_start span) ++ ".." ++ pretty (span_end span) ++ "]")%string.

Definition union_move (new_move : AffineMove) (moves : list AffineMove) : list AffineMove :=
  (fix go (l : list AffineMove) : list AffineMove :=
     match l with
     | [] => [new_move]
     | existing :: l' =>
         if overlaps existing (move_root new_move) (move_path new_move)
         then
           (match move_path new_move with
            | [] => mkAffineMove (move_root existing) [] (move_span existing)
            | _ =>
                if starts_with (move_path existing) (move_path new_move)
                then mkAffineMove (move_root existing) (move_path new_move) (move_span existing)
                else existing
            end) :: l'
         else existing :: go l'
     end) moves.

Definition union_moves (new_moves : list AffineMove) (s : Checker) : Checker :=
  set_moves (fold_left (fun moves m => union_move m moves) new_moves (first_moves s)) s.

Section Check.
Context (ctx : CheckerContext).

Definition affine (ty : Type_) : bool := is_affine_type (struct_fields ctx) (enum_variants ctx) ty.

Definition record_body_move (span : Span) (root : string) (fields : list string) (s : Checker) : Checker :=
  if decide (root ∈ protected_roots s) then
    let subject := render_affine_subject root fields in
    reject (Diagnostic_new "semantic.repeat-affine-capture"
      ("repeat body in `" ++ function_name ctx ++ "` consumes outer affine value `" ++ subject ++ "`")%string
      span
      (Some ("Stage-0 repeat bodies may run multiple times: move only affine values created inside the loop, "
             ++ "or keep outer affine values borrow-only.")%string)) s
  else
    match List.find (fun previous => overlaps previous root fields) (first_moves s) with
    | Some previous =>
        let subject := render_affine_subject root fields in
        reject (Diagnostic_new "semantic.affine-reuse"
          ("affine value `" ++ subject ++ "` is consumed more than once in `" ++ function_name ctx ++ "`")%string
          span
          (Some ("Use `" ++ subject ++ "` once in executable code or introduce an explicit borrow form later; "
                 ++ "the first move is at " ++ span_text (move_span previous) ++ ".")%string)) s
    | None => set_moves (first_moves s ++ [mkAffineMove root fields span]) s
    end.

Definition record_contract_move (span : Span) (clause_name subject : string) (s : Checker) : Checker :=
  reject (Diagnostic_new "semantic.contract-affine-move"
    ("`" ++ clause_name ++ "` in `" ++ function_name ctx ++ "` consumes affine value `" ++ subject ++ "`")%string
    span
    (Some ("Contracts are read-only in stage-0: compare affine values directly or call "
           ++ "a borrow-safe predicate.")%string)) s.

(** The [match self.mode] around the two of them. *)
Definition record_move (span : Span) (root : string) (fields : list string) (s : Checker) : Checker :=
  match mode ctx with
  | Mode_Body => record_body_move span root fields s
  | Mode_Contract clause_name _ =>
      record_contract_move span clause_name (render_affine_subject root fields) s
  end.

Section Nested.
Context (collect : Expr -> bool -> Checker -> Checker).

(** [collect_assign_target_expr] *)
Definition collect_assign_target (target : Expr) (s : Checker) : Checker :=
  match target with E_Index _ index _ => collect index false s | _ => s end.

(** The local of a [let]. *)
Definition bind_local (mutable : bool) (name : string) (value : Expr) (s : Checker) : Checker :=
  let s := if mutable then set_mutable ({[ name ]} ∪ mutable_locals s) s else s in
  match locals s !! name with
  | Some _ => s
  | None =>
      match expr_type (struct_layouts ctx) (mode_result_type (mode ctx)) (locals s) value with
      | Some ty => set_locals (<[name := ty]> (locals s)) s
      | None => s
      end
  end.

(** [collect_body_moves] *)
Fixpoint body_moves (b : Body) (s : Checker) : Checker :=
  let 'mkBody statements tail _ := b in
  (fix go (statements : list Stmt) (s : Checker) : Checker :=
     match statements with
     | [] => match tail with Some tail => collect tail false s | None => s end
     | S_Let mutable name value _ :: rest => go rest (bind_local mutable name value (collect value false s))
     | S_Assign target value _ :: rest => go rest (collect value false (collect_assign_target target s))
     | S_Expr expr _ :: rest =>
         let s := collect expr false s in
         if expr_falls_through expr then go rest s else s
     | S_WithArena body _ :: rest =>
         let s := body_moves body s in
         if body_falls_through body then go rest s else s
     end) statements s.

(** Each argument with what the callee does with it. *)
Fixpoint with_usage (e : Expr) (usage : ParamUsage) (s : Checker) : Checker :=
  if is_borrow_only usage then collect e true s
  else if move_whole usage then collect e false s
  else
    match e with
    | E_Record _ fields _ =>
        fold_left (fun s '(mkFieldInit name value _) =>
          with_usage value (usage_project_record_field usage name) s) fields s
    | _ =>
        match access_path e (aliases s) with
        | Some (root, base_fields) =>
            fold_left (fun s path => record_move (expr_span e) root (base_fields ++ path) s)
              (move_fields usage) s
        | None => collect e false s
        end
    end.

Fixpoint collect_args (args : list Expr) (usages : list ParamUsage) (s : Checker) : Checker :=
  match args with
  | [] => s
  | arg :: args' =>
      match usages with
      | usage :: usages' => collect_args args' usages' (with_usage arg usage s)
      | [] => collect_args args' [] (collect arg false s)
      end
  end.

(** One arm of a match, in a checker of its own. *)
Definition arm_checker (scrutinee : Expr) (pattern : MatchPattern) (s : Checker) : Checker :=
  let inner := nested ∅ s in
  match match_arm_payload_binding scrutinee pattern (locals inner) (enum_variants ctx) (struct_layouts ctx) with
  | Some (binding, payload_ty) =>
      let inner := set_locals (<[binding := payload_ty]> (locals inner)) inner in
      match payload_alias_for_scrutinee scrutinee (aliases inner) with
      | Some alias => set_aliases (<[binding := alias]> (aliases inner)) inner
      | None => inner
      end
  | None => inner
  end.
End Nested.

(** The moves a branch adds, if it falls through. *)
Definition branch_moves (base_moves : list AffineMove) (body : Body) (branch : Checker) : list AffineMove :=
  if body_falls_through body then drop (length base_moves) (first_moves branch) else [].

Fixpoint collect (e : Expr) (borrow_only : bool) (s : Checker) : Checker :=
  match e with
  | E_Integer _ _ | E_Float _ _ | E_String _ _ _ | E_Bool _ _ => s
  | E_Name name span =>
      match locals s !! name with
      | None => s
      | Some ty =>
          if decide (name ∈ mutable_locals s) then s
          else if borrow_only || negb (affine ty) then s
          else
            let '(root, fields) := default (name, []) (access_path (E_Name name span) (aliases s)) in
            record_move span root fields s
      end
  | E_Field base field span =>
      let field_type := expr_type (struct_layouts ctx) (mode_result_type (mode ctx)) (locals s)
                          (E_Field base field span) in
      let field_borrow_only :=
        borrow_only || match field_type with Some ty => negb (affine ty) | None => false end in
      if field_borrow_only then collect base true s
      else
        match access_path (E_Field base field span) (aliases s) with
        | Some (root, fields) => record_move span root fields s
        | None => collect base false s
        end
  | E_Record _ fields _ => fold_left (fun s '(mkFieldInit _ value _) => collect value borrow_only s) fields s
  | E_RecordUpdate base updates _ =>
      fold_left (fun s '(mkFieldInit _ value _) => collect value borrow_only s) updates
        (collect base borrow_only s)
  | E_Array elements _ _ => fold_left (fun s element => collect element true s) elements s
  | E_Index base index _ => collect index true (collect base true s)
  | E_ContractResult span =>
      if borrow_only then s
      else
        match mode ctx with
        | Mode_Contract clause_name (Some result_type) =>
            if affine result_type then record_contract_move span clause_name "result" s else s
        | _ => s
        end
  | E_If condition then_body else_body _ =>
      let s := collect condition true s in
      let base_moves := first_moves s in
      let then_checker := body_moves collect then_body (nested ∅ s) in
      let else_checker := body_moves collect else_body (nested ∅ s) in
      union_moves (branch_moves base_moves else_body else_checker)
        (union_moves (branch_moves base_moves then_body then_checker)
           (absorb else_checker (absorb then_checker s)))
  | E_Match scrutinee arms _ =>
      let s := collect scrutinee true s in
      let base_moves := first_moves s in
      fold_left (fun s '(mkMatchArm pattern body _) =>
        let inner := body_moves collect body (arm_checker scrutinee pattern (set_moves base_moves s)) in
        union_moves (branch_moves base_moves body inner) (absorb inner s)) arms s
  | E_Repeat binding count body _ =>
      let s := collect count true s in
      let inner := nested (loop_protected s) s in
      let inner :=
        match binding with
        | Some binding => set_locals (<[binding := T_I32]> (locals inner)) inner
        | None => inner
        end in
      absorb (body_moves collect body inner) s
  | E_While condition body _ =>
      absorb (body_moves collect body (collect condition true (nested (loop_protected s) s))) s
  | E_Group inner _ => collect inner borrow_only s
  | E_Unary _ inner _ => collect inner borrow_only s
  | E_Comptime body => absorb (body_moves collect body (nested ∅ s)) s
  | E_Handle _ _ => s
  | E_Call callee args _ =>
      match functions ctx !! callee with
      | Some signature => collect_args collect args (sig_param_usages signature) s
      | None =>
          if is_borrow_only_builtin callee
          then fold_left (fun s arg => collect arg true s) args s
          else fold_left (fun s arg => collect arg false s) args s
      end
  | E_Binary op l r _ =>
      let operand_borrow_only := borrow_only || match op with B_Eq | B_Ne => true | _ => false end in
      collect r operand_borrow_only (collect l operand_borrow_only s)
  | E_Perform effect operation args _ =>
      let method_borrow_only := is_borrow_only_effect_method effect operation in
      fold_left (fun s arg => collect arg (borrow_only || method_borrow_only) s) args s
  end.

Definition collect_body_moves (body : Body) (s : Checker) : Checker := body_moves collect body s.
End Check.

(** A checker with nothing moved yet. *)
Definition new_checker (ls : Locals) : Checker := mkChecker ls ∅ ∅ ∅ [] [] true.

(** [ok] and the diagnostics of a body. *)
Definition check_affine_body_ownership (body : Body) (ls : Locals)
    (functions : gmap string FunctionSignature) (enum_variants : EnumVariants)
    (struct_fields : StructFields) (struct_layouts : StructLayouts) (function_name : string)
    : bool * list Diagnostic :=
  let ctx := mkCheckerContext functions enum_variants struct_fields struct_layouts function_name Mode_Body in
  let s := collect_body_moves ctx body (new_checker ls) in
  (ok s, diagnostics s).

Definition check_contract_affine_ownership (expr : Expr) (ls : Locals)
    (functions : gmap string FunctionSignature) (enum_variants : EnumVariants)
    (struct_fields : StructFields) (struct_layouts : StructLayouts)
    (function_name clause_name : string) (result_type : option Type_) : bool * list Diagnostic :=
  let ctx := mkCheckerContext functions enum_variants struct_fields struct_layouts function_name
               (Mode_Contract clause_name result_type) in
  let s := collect ctx expr false (new_checker ls) in
  (ok s, diagnostics s).
