(* ===== verification/ParamModes.v ===== *)
(** * Affine ownership: what functions do with their arguments

    [infer_param_modes] of [crates/sarif_frontend/src/ownership.rs]: the access
    paths below each parameter that a function moves, iterated over the module
    until no signature changes.  [rounds] bounds the iterations. *)
From stdpp Require Import gmap.
From S2P Require Import Prelude Syntax Hir SemType Ownership.

Open Scope nat_scope.

Inductive UsageContext :=
  | UC_Borrow
  | UC_MoveWhole
  | UC_MovePath (path : list string)
  | UC_MovePaths (paths : list (list string)).

Abbreviation Usages := (gmap string ParamUsage).

(** [UsageContext::project] *)
Definition project (u : UsageContext) (field : string) : UsageContext :=
  match u with
  | UC_Borrow => UC_Borrow
  | UC_MoveWhole => UC_MovePath [field]
  | UC_MovePath path => UC_MovePath (field :: path)
  | UC_MovePaths paths => UC_MovePaths (map (fun path => field :: path) paths)
  end.

Definition project_path_field (path : list string) (field_name : string) : UsageContext :=
  match path with
  | [] => UC_MoveWhole
  | head :: tail =>
      if negb (String.eqb head field_name) then UC_Borrow
      else match tail with [] => UC_MoveWhole | _ => UC_MovePath tail end
  end.

Definition project_paths_field (paths : list (list string)) (field_name : string) : UsageContext :=
  (fix go (paths projected : list (list string)) : UsageContext :=
     match paths with
     | [] =>
         match projected with
         | [] => UC_Borrow
         | [path] => UC_MovePath path
         | _ => UC_MovePaths projected
         end
     | [] :: _ => UC_MoveWhole
     | (head :: tail) :: paths' =>
         if negb (String.eqb head field_name) then go paths' projected
         else match tail with [] => UC_MoveWhole | _ => go paths' (projected ++ [tail]) end
     end) paths [].

(** [UsageContext::project_record_field] *)
Definition context_project_record_field (u : UsageContext) (field_name : string) : UsageContext :=
  match u with
  | UC_Borrow => UC_Borrow
  | UC_MoveWhole => UC_MoveWhole
  | UC_MovePath path => project_path_field path field_name
  | UC_MovePaths paths => project_paths_field paths field_name
  end.

Definition record_usage_for_target (usages : Usages) (root : string) (prefix : list string)
    (context : UsageContext) : Usages :=
  let entry := default usage_borrow_only (usages !! root) in
  let entry :=
    match context with
    | UC_Borrow => entry
    | UC_MoveWhole => record_path prefix entry
    | UC_MovePath path => record_path (prefix ++ path) entry
    | UC_MovePaths paths => fold_left (fun entry path => record_path (prefix ++ path) entry) paths entry
    end in
  <[root := entry]> usages.

Definition usage_context_for_argument (e : Expr) (usage : ParamUsage) (aliases : Aliases) : UsageContext :=
  if is_borrow_only usage then UC_Borrow
  else if move_whole usage then UC_MoveWhole
  else
    match access_path e aliases with
    | Some _ =>
        match move_fields usage with
        | [] => UC_Borrow
        | [path] => UC_MovePath path
        | paths => UC_MovePaths paths
        end
    | None => UC_MoveWhole
    end.

Section Modes.
Context (functions : gmap string FunctionSignature) (enum_variants : EnumVariants)
  (struct_fields : StructFields) (struct_layouts : StructLayouts).

Section Nested.
Context (collect_param_modes : Expr -> UsageContext -> Locals -> Aliases -> Usages -> Usages).

(** [collect_body_param_modes] with [UC_MoveWhole], [.._borrow_only] with [UC_Borrow] *)
Fixpoint body_modes (mode : UsageContext) (b : Body) (locals : Locals) (aliases : Aliases)
    (usages : Usages) : Usages :=
  let 'mkBody statements tail _ := b in
  (fix go (statements : list Stmt) (locals : Locals) (usages : Usages) : Usages :=
     match statements with
     | [] => match tail with
             | Some tail => collect_param_modes tail mode locals aliases usages
             | None => usages
             end
     | S_Let _ name value _ :: rest =>
         let usages := collect_param_modes value mode locals aliases usages in
         let locals :=
           match locals !! name, expr_type struct_layouts None locals value with
           | None, Some ty => <[name := ty]> locals
           | _, _ => locals
           end in
         go rest locals usages
     | S_Assign target value _ :: rest =>
         let usages :=
           match target with
           | E_Index _ index _ => collect_param_modes index UC_Borrow locals aliases usages
           | _ => usages
           end in
         go rest locals (collect_param_modes value mode locals aliases usages)
     | S_Expr expr _ :: rest =>
         let usages := collect_param_modes expr mode locals aliases usages in
         if expr_falls_through expr then go rest locals usages else usages
     | S_WithArena body _ :: rest =>
         let usages := body_modes mode body locals aliases usages in
         if body_falls_through body then go rest locals usages else usages
     end) statements locals usages.

Fixpoint collect_argument_modes (e : Expr) (usage : ParamUsage) (locals : Locals) (aliases : Aliases)
    (usages : Usages) : Usages :=
  if is_borrow_only usage then collect_param_modes e UC_Borrow locals aliases usages
  else if move_whole usage then collect_param_modes e UC_MoveWhole locals aliases usages
  else
    match e with
    | E_Record _ fields _ =>
        fold_left (fun usages '(mkFieldInit name value _) =>
          collect_argument_modes value (usage_project_record_field usage name) locals aliases usages)
          fields usages
    | _ => collect_param_modes e (usage_context_for_argument e usage aliases) locals aliases usages
    end.

(** The arguments of a call with the usages of the callee, [move_whole] past their end. *)
Fixpoint args_modes (args : list Expr) (param_usages : list ParamUsage) (locals : Locals) (aliases : Aliases)
    (usages : Usages) : Usages :=
  match args with
  | [] => usages
  | arg :: args' =>
      let usage := match param_usages with usage :: _ => usage | [] => usage_move_whole end in
      args_modes args' (tl param_usages) locals aliases
        (collect_argument_modes arg usage locals aliases usages)
  end.
End Nested.

Fixpoint collect_param_modes (e : Expr) (default_mode : UsageContext) (locals : Locals) (aliases : Aliases)
    (usages : Usages) : Usages :=
  match e with
  | E_Integer _ _ | E_Float _ _ | E_String _ _ _ | E_Bool _ _ | E_ContractResult _ => usages
  | E_Name name _ =>
      match locals !! name with
      | None => usages
      | Some ty =>
          if negb (is_affine_type struct_fields enum_variants ty) then usages
          else
            match aliases !! name with
            | Some alias => record_usage_for_target usages (alias_root alias) (alias_fields alias) default_mode
            | None => record_usage_for_target usages name [] default_mode
            end
      end
  | E_Group inner _ => collect_param_modes inner default_mode locals aliases usages
  | E_Unary _ inner _ => collect_param_modes inner default_mode locals aliases usages
  | E_Comptime body => body_modes collect_param_modes UC_MoveWhole body locals aliases usages
  | E_Handle _ _ => usages
  | E_If condition then_body else_body _ =>
      let usages := collect_param_modes condition UC_Borrow locals aliases usages in
      let usages := body_modes collect_param_modes UC_MoveWhole then_body locals aliases usages in
      body_modes collect_param_modes UC_MoveWhole else_body locals aliases usages
  | E_Match scrutinee arms _ =>
      let usages := collect_param_modes scrutinee UC_Borrow locals aliases usages in
      fold_left (fun usages '(mkMatchArm pattern body _) =>
        match match_arm_payload_binding scrutinee pattern locals enum_variants struct_layouts with
        | Some (binding, payload_ty) =>
            let arm_aliases :=
              match payload_alias_for_scrutinee scrutinee aliases with
              | Some alias => <[binding := alias]> aliases
              | None => aliases
              end in
            body_modes collect_param_modes UC_MoveWhole body (<[binding := payload_ty]> locals) arm_aliases usages
        | None => body_modes collect_param_modes UC_MoveWhole body locals aliases usages
        end) arms usages
  | E_Repeat binding count body _ =>
      let body_locals := match binding with Some binding => <[binding := T_I32]> locals | None => locals end in
      let usages := collect_param_modes count UC_Borrow locals aliases usages in
      body_modes collect_param_modes UC_Borrow body body_locals aliases usages
  | E_While condition body _ =>
      let usages := collect_param_modes condition UC_Borrow locals aliases usages in
      body_modes collect_param_modes UC_MoveWhole body locals aliases usages
  | E_Binary op l r _ =>
      let operand_mode := match op with B_Eq | B_Ne => UC_Borrow | _ => default_mode end in
      collect_param_modes r operand_mode locals aliases
        (collect_param_modes l operand_mode locals aliases usages)
  | E_Call callee args _ =>
      match functions !! callee with
      | Some signature => args_modes collect_param_modes args (sig_param_usages signature) locals aliases usages
      | None =>
          if is_borrow_only_builtin callee
          then fold_left (fun usages arg => collect_param_modes arg UC_Borrow locals aliases usages) args usages
          else fold_left (fun usages arg => collect_param_modes arg UC_MoveWhole locals aliases usages) args usages
      end
  | E_Field base field span =>
      let field_type := expr_type struct_layouts None locals (E_Field base field span) in
      let not_affine :=
        match field_type with
        | Some ty => negb (is_affine_type struct_fields enum_variants ty)
        | None => false
        end in
      let mode :=
        match default_mode with
        | UC_Borrow => UC_Borrow
        | _ => if not_affine then UC_Borrow else project default_mode field
        end in
      collect_param_modes base mode locals aliases usages
  | E_Record _ fields _ =>
      fold_left (fun usages '(mkFieldInit name value _) =>
        collect_param_modes value (context_project_record_field default_mode name) locals aliases usages)
        fields usages
  | E_RecordUpdate base updates _ =>
      fold_left (fun usages '(mkFieldInit name value _) =>
        collect_param_modes value (context_project_record_field default_mode name) locals aliases usages)
        updates (collect_param_modes base default_mode locals aliases usages)
  | E_Array elements _ _ =>
      fold_left (fun usages element => collect_param_modes element UC_Borrow locals aliases usages) elements usages
  | E_Index base index _ =>
      collect_param_modes index UC_Borrow locals aliases
        (collect_param_modes base UC_Borrow locals aliases usages)
  | E_Perform _ _ args _ =>
      fold_left (fun usages arg => collect_param_modes arg default_mode locals aliases usages) args usages
  end.

Definition collect_body_param_modes (b : Body) (locals : Locals) (aliases : Aliases) (usages : Usages) : Usages :=
  body_modes collect_param_modes UC_MoveWhole b locals aliases usages.

Definition collect_optional (e : option Expr) (locals : Locals) (usages : Usages) : Usages :=
  match e with Some e => collect_param_modes e UC_Borrow locals ∅ usages | None => usages end.

Definition infer_function_param_modes (requires ensures : option Expr) (body : option Body)
    (params : list (string * Type_ * Span)) (locals : Locals) : list ParamUsage :=
  let usages := collect_optional ensures locals (collect_optional requires locals ∅) in
  let usages :=
    match body with Some body => collect_body_param_modes body locals ∅ usages | None => usages end in
  map (fun '(name, ty, _) =>
    if is_affine_type struct_fields enum_variants ty
    then default usage_borrow_only (usages !! name)
    else usage_move_whole) params.
End Modes.

(** ** The module *)

Section Module_.
Context (enum_variants : EnumVariants) (struct_fields : StructFields) (struct_layouts : StructLayouts).

Definition set_param_usages (usages : list ParamUsage) (sig : FunctionSignature) : FunctionSignature :=
  mkFunctionSignature (sig_const_params sig) (sig_params sig) usages (sig_return_type sig) (sig_effects sig)
    (sig_span sig).

Definition param_locals (sig : FunctionSignature) : Locals :=
  fold_left (fun locals '(name, ty, _) => <[name := ty]> locals) (sig_params sig) ∅.

(** One round over the items, [seen] being the functions met in it. *)
Fixpoint infer_round (items : HirModule) (seen : gset string) (changed : bool)
    (functions : gmap string FunctionSignature) : bool * gmap string FunctionSignature :=
  match items with
  | [] => (changed, functions)
  | It_Function function :: items' =>
      if decide (fn_name function ∈ seen) then infer_round items' seen changed functions
      else
        let seen := {[ fn_name function ]} ∪ seen in
        match functions !! fn_name function with
        | None => infer_round items' seen changed functions
        | Some signature =>
            let inferred :=
              infer_function_param_modes functions enum_variants struct_fields struct_layouts
                (fn_requires function) (fn_ensures function) (fn_body function) (sig_params signature)
                (param_locals signature) in
            if decide (inferred = sig_param_usages signature)
            then infer_round items' seen changed functions
            else infer_round items' seen true
                   (<[fn_name function := set_param_usages inferred signature]> functions)
        end
  | _ :: items' => infer_round items' seen changed functions
  end.

Fixpoint infer_param_modes (rounds : nat) (module : HirModule) (functions : gmap string FunctionSignature)
    : option (gmap string FunctionSignature) :=
  match rounds with
  | 0 => None
  | S rounds =>
      let '(changed, functions) := infer_round module ∅ false functions in
      if changed : bool then infer_param_modes rounds module functions else Some functions
  end.
End Module_.
