(* ===== verification/OwnershipSound.v ===== *)
(** * Affine ownership: the structure of the checker

    What a body moves along each path; overlap of access paths, and what one step of the checker keeps: it only
    adds moves and diagnostics, and an accepted whole has accepted parts. *)
From stdpp Require Import gmap.
From S2P Require Import Prelude Syntax Hir SemType Ownership.

Open Scope nat_scope.

(** * Affine ownership: the paths through a body

    What a body moves when it runs: one branch of a conditional, one arm of a
    match, any number of rounds of a loop.  A [Moved] event names the access
    path that is consumed, a [Bound] event the local that gets a new value.
    [run] accepts the events in which no path overlaps one that was moved since
    its local was bound. *)

(** ** Events *)

Inductive Event :=
  | Moved (root : string) (fields : list string)
  | Bound (name : string).

Definition Move : Type := string * list string.

Definition move_overlaps (r : string) (p : list string) (m : Move) : bool :=
  String.eqb (fst m) r && paths_overlap (snd m) p.

Fixpoint run (moved : list Move) (events : list Event) : option (list Move) :=
  match events with
  | [] => Some moved
  | Moved r p :: events' => if existsb (move_overlaps r p) moved then None else run ((r, p) :: moved) events'
  | Bound x :: events' => run (List.filter (fun m => negb (String.eqb (fst m) x)) moved) events'
  end.

(** ** Environments *)

Record PathEnv := mkPathEnv { env_locals : Locals; env_mutable : gset string; env_aliases : Aliases }.

(** Moves are followed for the locals that are not mutable. *)
Definition followed (env : PathEnv) (r : string) : bool :=
  bool_decide (r ∈ dom (env_locals env)) && negb (bool_decide (r ∈ env_mutable env)).

Definition moved (env : PathEnv) (r : string) (p : list string) : list Event :=
  if followed env r then [Moved r p] else [].

Section Paths.
Context (ctx : CheckerContext).

Definition field_borrowed (env : PathEnv) (base : Expr) (field : string) (span : Span) (borrow : bool) : bool :=
  borrow ||
  match expr_type (struct_layouts ctx) None (env_locals env) (E_Field base field span) with
  | Some ty => negb (affine ctx ty)
  | None => false
  end.

(** The operands an expression without control evaluates, and whether it only
    borrows them. *)
Definition operands (env : PathEnv) (e : Expr) (borrow : bool) : list (Expr * bool) :=
  match e with
  | E_Field base field span =>
      if field_borrowed env base field span borrow then [(base, true)]
      else match access_path e (env_aliases env) with Some _ => [] | None => [(base, false)] end
  | E_Record _ fields _ => map (fun f => (init_value f, borrow)) fields
  | E_RecordUpdate base updates _ => (base, borrow) :: map (fun f => (init_value f, borrow)) updates
  | E_Array elements _ _ => map (fun e => (e, true)) elements
  | E_Index base index _ => [(base, true); (index, true)]
  | E_Group inner _ | E_Unary _ inner _ => [(inner, borrow)]
  | E_Binary op l r _ =>
      let borrow := borrow || match op with B_Eq | B_Ne => true | _ => false end in
      [(l, borrow); (r, borrow)]
  | E_Perform effect operation args _ =>
      map (fun e => (e, borrow || is_borrow_only_effect_method effect operation)) args
  | E_Call callee args _ => map (fun e => (e, is_borrow_only_builtin callee)) args
  | _ => []
  end.

(** The access path an expression moves itself. *)
Definition own_move (env : PathEnv) (e : Expr) (borrow : bool) : option Move :=
  match e with
  | E_Name name span =>
      match env_locals env !! name with
      | None => None
      | Some ty =>
          if bool_decide (name ∈ env_mutable env) || borrow || negb (affine ctx ty) then None
          else access_path e (env_aliases env)
      end
  | E_Field base field span =>
      if field_borrowed env base field span borrow then None else access_path e (env_aliases env)
  | _ => None
  end.

Definition own_events (env : PathEnv) (e : Expr) (borrow : bool) : list Event :=
  match own_move env e borrow with Some (r, p) => moved env r p | None => [] end.

(** No control flow, no declared callee. *)
Definition is_plain (e : Expr) : bool :=
  match e with
  | E_If _ _ _ _ | E_Match _ _ _ | E_Repeat _ _ _ _ | E_While _ _ _ | E_Comptime _ | E_Handle _ _ => false
  | E_Call callee _ _ => match functions ctx !! callee with Some _ => false | None => true end
  | _ => true
  end.

Definition bind_env (mutable : bool) (name : string) (value : Expr) (env : PathEnv) : PathEnv :=
  mkPathEnv
    (match env_locals env !! name, expr_type (struct_layouts ctx) None (env_locals env) value with
     | None, Some ty => <[name := ty]> (env_locals env)
     | _, _ => env_locals env
     end)
    (if mutable then {[ name ]} ∪ env_mutable env else env_mutable env)
    (env_aliases env).

(** The environment of an arm, and the event of its binding. *)
Definition arm_env (scrutinee : Expr) (pattern : MatchPattern) (env : PathEnv) : PathEnv * list Event :=
  match match_arm_payload_binding scrutinee pattern (env_locals env) (enum_variants ctx) (struct_layouts ctx) with
  | Some (binding, payload_ty) =>
      (mkPathEnv (<[binding := payload_ty]> (env_locals env)) (env_mutable env)
         (match payload_alias_for_scrutinee scrutinee (env_aliases env) with
          | Some alias => <[binding := alias]> (env_aliases env)
          | None => env_aliases env
          end), [Bound binding])
  | None => (env, [])
  end.

(** The environment of a round of a [repeat]. *)
Definition round_env (binding : option string) (env : PathEnv) : PathEnv * list Event :=
  match binding with
  | Some binding =>
      (mkPathEnv (<[binding := T_I32]> (env_locals env)) (env_mutable env) (env_aliases env), [Bound binding])
  | None => (env, [])
  end.

(** ** Paths *)

Inductive path : PathEnv -> Expr -> bool -> list Event -> Prop :=
  | path_plain env e borrow evs :
      is_plain e = true -> paths env (operands env e borrow) evs ->
      path env e borrow (evs ++ own_events env e borrow)
  | path_call env callee args span borrow sig evs :
      functions ctx !! callee = Some sig -> args_path env args (sig_param_usages sig) evs ->
      path env (E_Call callee args span) borrow evs
  | path_then env c tb eb span borrow evs evs' env' :
      path env c true evs -> body_path env tb evs' env' ->
      path env (E_If c tb eb span) borrow (evs ++ evs')
  | path_else env c tb eb span borrow evs evs' env' :
      path env c true evs -> body_path env eb evs' env' ->
      path env (E_If c tb eb span) borrow (evs ++ evs')
  | path_match env scrutinee arms span borrow pattern body arm_span evs evs' env' :
      path env scrutinee true evs -> In (mkMatchArm pattern body arm_span) arms ->
      body_path (fst (arm_env scrutinee pattern env)) body evs' env' ->
      path env (E_Match scrutinee arms span) borrow (evs ++ snd (arm_env scrutinee pattern env) ++ evs')
  | path_repeat env binding count body span borrow evs evs' :
      path env count true evs -> rounds env binding body evs' ->
      path env (E_Repeat binding count body span) borrow (evs ++ evs')
  | path_while env c body span borrow evs :
      while_rounds env c body evs -> path env (E_While c body span) borrow evs
  | path_comptime env body borrow evs env' :
      body_path env body evs env' -> path env (E_Comptime body) borrow evs
  | path_handle env body arms borrow evs env' :
      body_path env body evs env' -> path env (E_Handle body arms) borrow evs
with paths : PathEnv -> list (Expr * bool) -> list Event -> Prop :=
  | paths_nil env : paths env [] []
  | paths_cons env e borrow rest evs evs' :
      path env e borrow evs -> paths env rest evs' -> paths env ((e, borrow) :: rest) (evs ++ evs')
with args_path : PathEnv -> list Expr -> list ParamUsage -> list Event -> Prop :=
  | args_nil env usages : args_path env [] usages []
  | args_usage env arg args usage usages evs evs' :
      usage_path env arg usage evs -> args_path env args usages evs' ->
      args_path env (arg :: args) (usage :: usages) (evs ++ evs')
  | args_whole env arg args evs evs' :
      path env arg false evs -> args_path env args [] evs' -> args_path env (arg :: args) [] (evs ++ evs')
with usage_path : PathEnv -> Expr -> ParamUsage -> list Event -> Prop :=
  | usage_borrow env e usage evs :
      is_borrow_only usage = true -> path env e true evs -> usage_path env e usage evs
  | usage_whole env e usage evs :
      is_borrow_only usage = false -> move_whole usage = true -> path env e false evs -> usage_path env e usage evs
  | usage_record env name fields span usage evs :
      is_borrow_only usage = false -> move_whole usage = false -> fields_path env fields usage evs ->
      usage_path env (E_Record name fields span) usage evs
  | usage_access env e usage root base :
      is_borrow_only usage = false -> move_whole usage = false ->
      (forall name fields span, e <> E_Record name fields span) ->
      access_path e (env_aliases env) = Some (root, base) ->
      usage_path env e usage (concat (map (fun p => moved env root (base ++ p)) (move_fields usage)))
  | usage_other env e usage evs :
      is_borrow_only usage = false -> move_whole usage = false ->
      (forall name fields span, e <> E_Record name fields span) ->
      access_path e (env_aliases env) = None -> path env e false evs -> usage_path env e usage evs
with fields_path : PathEnv -> list FieldInit -> ParamUsage -> list Event -> Prop :=
  | fields_nil env usage : fields_path env [] usage []
  | fields_cons env name value span fields usage evs evs' :
      usage_path env value (usage_project_record_field usage name) evs -> fields_path env fields usage evs' ->
      fields_path env (mkFieldInit name value span :: fields) usage (evs ++ evs')
with body_path : PathEnv -> Body -> list Event -> PathEnv -> Prop :=
  | body_stmts env stmts tail span evs env' :
      stmts_path env stmts tail evs env' -> body_path env (mkBody stmts tail span) evs env'
with stmts_path : PathEnv -> list Stmt -> option Expr -> list Event -> PathEnv -> Prop :=
  | stmts_end env : stmts_path env [] None [] env
  | stmts_tail env e evs : path env e false evs -> stmts_path env [] (Some e) evs env
  | stmts_let env mutable name value span rest tail evs evs' env' :
      path env value false evs -> stmts_path (bind_env mutable name value env) rest tail evs' env' ->
      stmts_path env (S_Let mutable name value span :: rest) tail (evs ++ Bound name :: evs') env'
  | stmts_assign env target value span rest tail evs evs' evs'' env' :
      target_path env target evs -> path env value false evs' -> stmts_path env rest tail evs'' env' ->
      stmts_path env (S_Assign target value span :: rest) tail (evs ++ evs' ++ evs'') env'
  | stmts_expr env e span rest tail evs evs' env' :
      path env e false evs -> stmts_path env rest tail evs' env' ->
      stmts_path env (S_Expr e span :: rest) tail (evs ++ evs') env'
  | stmts_arena env body span rest tail evs evs' env1 env' :
      body_path env body evs env1 -> stmts_path env1 rest tail evs' env' ->
      stmts_path env (S_WithArena body span :: rest) tail (evs ++ evs') env'
with target_path : PathEnv -> Expr -> list Event -> Prop :=
  | target_index env base index span evs :
      path env index false evs -> target_path env (E_Index base index span) evs
  | target_other env e :
      (forall base index span, e <> E_Index base index span) -> target_path env e []
with rounds : PathEnv -> option string -> Body -> list Event -> Prop :=
  | rounds_end env binding body : rounds env binding body []
  | rounds_more env binding body evs evs' env' :
      body_path (fst (round_env binding env)) body evs env' -> rounds env binding body evs' ->
      rounds env binding body (snd (round_env binding env) ++ evs ++ evs')
with while_rounds : PathEnv -> Expr -> Body -> list Event -> Prop :=
  | while_end env c body evs : path env c true evs -> while_rounds env c body evs
  | while_more env c body evs evs' evs'' env' :
      path env c true evs -> body_path env body evs' env' -> while_rounds env c body evs'' ->
      while_rounds env c body (evs ++ evs' ++ evs'').
End Paths.

Scheme path_mut := Minimality for path Sort Prop
  with paths_mut := Minimality for paths Sort Prop
  with args_mut := Minimality for args_path Sort Prop
  with usage_mut := Minimality for usage_path Sort Prop
  with fields_mut := Minimality for fields_path Sort Prop
  with body_mut := Minimality for body_path Sort Prop
  with stmts_mut := Minimality for stmts_path Sort Prop
  with target_mut := Minimality for target_path Sort Prop
  with rounds_mut := Minimality for rounds Sort Prop
  with while_mut := Minimality for while_rounds Sort Prop.
Combined Scheme path_ind10 from path_mut, paths_mut, args_mut, usage_mut, fields_mut, body_mut, stmts_mut,
  target_mut, rounds_mut, while_mut.

(** ** The part of the language the checker covers

    Loops whose bodies do not branch, and no [handle] or [comptime]. *)

Section All.
Context (p : Expr -> bool).
Section BodyAll.
Context (expr_all : Expr -> bool).
Fixpoint body_all_with (b : Body) : bool :=
  let 'mkBody statements tail _ := b in
  forallb (fun stmt =>
    match stmt with
    | S_Let _ _ value _ => expr_all value
    | S_Assign target value _ => expr_all target && expr_all value
    | S_Expr expr _ => expr_all expr
    | S_WithArena body _ => body_all_with body
    end) statements
  && match tail with Some tail => expr_all tail | None => true end.
End BodyAll.

Fixpoint expr_all (e : Expr) : bool :=
  p e &&
  match e with
  | E_Call _ args _ | E_Perform _ _ args _ => forallb expr_all args
  | E_Array elements _ _ => forallb expr_all elements
  | E_Field base _ _ => expr_all base
  | E_Index base index _ => expr_all base && expr_all index
  | E_If c tb eb _ => expr_all c && body_all_with expr_all tb && body_all_with expr_all eb
  | E_Match scrutinee arms _ =>
      expr_all scrutinee && forallb (fun '(mkMatchArm _ body _) => body_all_with expr_all body) arms
  | E_Repeat _ count body _ => expr_all count && body_all_with expr_all body
  | E_While c body _ => expr_all c && body_all_with expr_all body
  | E_Record _ fields _ => forallb (fun '(mkFieldInit _ value _) => expr_all value) fields
  | E_RecordUpdate base updates _ =>
      expr_all base && forallb (fun '(mkFieldInit _ value _) => expr_all value) updates
  | E_Unary _ inner _ | E_Group inner _ => expr_all inner
  | E_Binary _ l r _ => expr_all l && expr_all r
  | E_Comptime body => body_all_with expr_all body
  | E_Handle body arms =>
      body_all_with expr_all body && forallb (fun '(mkHandleArm _ _ body _) => body_all_with expr_all body) arms
  | _ => true
  end.

Definition body_all (b : Body) : bool := body_all_with expr_all b.
End All.

Definition not_branch (e : Expr) : bool :=
  match e with E_If _ _ _ _ | E_Match _ _ _ | E_Comptime _ | E_Handle _ _ => false | _ => true end.

Definition covered_form (e : Expr) : bool :=
  match e with
  | E_Repeat _ _ body _ => body_all not_branch body
  | E_While c body _ => expr_all not_branch c && body_all not_branch body
  | E_Comptime _ | E_Handle _ _ => false
  | _ => true
  end.

Definition body_covered (b : Body) : bool := body_all covered_form b.

(** * Affine ownership: the structure of the checker *)

(** ** Overlap *)

Lemma starts_with_app l p : starts_with l p = true <-> exists q, l = p ++ q.
Proof.
  revert p. induction l as [|b l IH]; intros [|a p]; cbn; split; try done; try (by intros [q ?]); eauto.
  - intros [->%String.eqb_eq Hp]%andb_true_iff. apply IH in Hp as [q ->]. by exists q.
  - intros [q [= -> ->]]. rewrite String.eqb_refl. apply IH. eauto.
Qed.

Lemma starts_with_nil l : starts_with l [] = true.
Proof. by destruct l. Qed.

Lemma starts_with_refl l : starts_with l l = true.
Proof. apply starts_with_app. exists []. by rewrite app_nil_r. Qed.

Lemma starts_with_trans l p q : starts_with l p = true -> starts_with p q = true -> starts_with l q = true.
Proof.
  rewrite !starts_with_app. intros [p' ->] [q' ->]. exists (q' ++ p'). by rewrite app_assoc.
Qed.

Lemma paths_overlap_eq p q : paths_overlap p q = starts_with p q || starts_with q p.
Proof. by destruct p, q. Qed.

Lemma app_comparable {A} (l1 l2 m1 m2 : list A) :
  l1 ++ l2 = m1 ++ m2 -> (exists q, l1 = m1 ++ q) \/ (exists q, m1 = l1 ++ q).
Proof.
  revert m1. induction l1 as [|a l1 IH]; intros [|b m1]; cbn; intros H; eauto.
  injection H as -> H. destruct (IH _ H) as [[q ->]|[q ->]]; [left|right]; by exists q.
Qed.

(** What overlaps a path overlaps its prefixes. *)
Lemma overlap_prefix p x q :
  starts_with p x = true -> paths_overlap p q = true -> paths_overlap x q = true.
Proof.
  rewrite !paths_overlap_eq, !orb_true_iff, !starts_with_app. intros [p' ->] [[q' E]|[q' ->]].
  - apply app_comparable in E. tauto.
  - right. exists (p' ++ q'). by rewrite app_assoc.
Qed.

(** The move is below one of the list. *)
Definition covered_by (moves : list AffineMove) (m : Move) : Prop :=
  exists x, In x moves /\ move_root x = fst m /\ starts_with (snd m) (move_path x) = true.

Lemma covered_incl l l' m : (forall x, In x l -> In x l') -> covered_by l m -> covered_by l' m.
Proof. intros Hl (x & Hx & Hr). exists x. auto. Qed.

Lemma covered_no_overlap moves m r p :
  covered_by moves m -> List.find (fun x => overlaps x r p) moves = None -> move_overlaps r p m = false.
Proof.
  intros (x & Hx & Hr & Hp) Hf. destruct m as [r' p']. unfold move_overlaps. cbn in *.
  destruct (String.eqb_spec r' r) as [->|]; [|done]. cbn. apply not_true_iff_false. intros Ho.
  apply (find_none _ _ Hf) in Hx. unfold overlaps in Hx. rewrite Hr, String.eqb_refl in Hx. cbn in Hx.
  by rewrite (overlap_prefix _ _ _ Hp Ho) in Hx.
Qed.

(** ** Checker states *)

Definition env_of (s : Checker) : PathEnv := mkPathEnv (locals s) (mutable_locals s) (aliases s).

(** The scope is the same. *)
Definition keeps (s s' : Checker) : Prop := env_of s' = env_of s /\ protected_roots s' = protected_roots s.

(** [x] and [m] are paths of different places. *)
Definition apart (x m : AffineMove) : Prop := overlaps x (move_root m) (move_path m) = false.

(** A run that stays [ok] adds moves, apart from those before it. *)
Definition extends (s s' : Checker) : Prop :=
  ok s' = true ->
  ok s = true /\ exists new, first_moves s' = first_moves s ++ new /\
    forall m x, In m new -> In x (first_moves s) -> apart x m.

Lemma keeps_trans s1 s2 s3 : keeps s1 s2 -> keeps s2 s3 -> keeps s1 s3.
Proof. intros [E1 P1] [E2 P2]. split; by etrans. Qed.

Lemma moves_extend_refl s : extends s s.
Proof. intros Hok. split; [done|]. exists []. by rewrite app_nil_r. Qed.

Lemma extends_trans s1 s2 s3 : extends s1 s2 -> extends s2 s3 -> extends s1 s3.
Proof.
  intros H12 H23 Hok. destruct (H23 Hok) as (Hok2 & n2 & E2 & A2).
  destruct (H12 Hok2) as (Hok1 & n1 & E1 & A1). split; [done|]. exists (n1 ++ n2).
  rewrite E2, E1, app_assoc. split; [done|]. intros m x [Hm|Hm]%in_app_iff Hx; [by apply A1|].
  apply A2; [done|]. rewrite E1. apply in_app_iff. by left.
Qed.

Definition step_ok (s s' : Checker) : Prop := keeps s s' /\ extends s s'.

Lemma step_refl s : step_ok s s.
Proof. split; [done | apply moves_extend_refl]. Qed.

Lemma step_trans s1 s2 s3 : step_ok s1 s2 -> step_ok s2 s3 -> step_ok s1 s3.
Proof. intros [] []. split; [by eapply keeps_trans | by eapply extends_trans]. Qed.

Lemma fold_step {A} (f : Checker -> A -> Checker) l s :
  (forall a s, In a l -> step_ok s (f s a)) -> step_ok s (fold_left f l s).
Proof.
  revert s. induction l as [|a l IH]; intros s Hl; cbn; [apply step_refl|].
  eapply step_trans; [by apply Hl; left|]. apply IH. intros. apply Hl. by right.
Qed.

Lemma reject_step d s : step_ok s (reject d s).
Proof. split; [done|]. intros Hok. discriminate Hok. Qed.

(** ** Unions *)

Lemma union_move_covers m l : covered_by (union_move m l) (move_root m, move_path m).
Proof.
  induction l as [|x l (y & Hy & Hc)]; cbn.
  - exists m. split_and!; [by left|done|apply starts_with_refl].
  - destruct (overlaps x _ _) eqn:E; [|exists y; split; [by right | done]].
    apply andb_true_iff in E as [Hr%String.eqb_eq Ho].
    eexists. split; [by left|]. destruct (move_path m) as [|a p] eqn:Em; cbn; [done|].
    destruct (starts_with (move_path x) (a :: p)) eqn:Es; cbn.
    + split; [done | exact (starts_with_refl (a :: p))].
    + split; [done|]. rewrite paths_overlap_eq, Es in Ho. exact Ho.
Qed.

Lemma union_move_keeps m l c : covered_by l c -> covered_by (union_move m l) c.
Proof.
  destruct c as [r p]. induction l as [|x l IH]; intros (y & Hy & Hr & Hp); cbn in *; [done|].
  destruct (overlaps x _ _) eqn:E.
  - destruct Hy as [->|Hy]; [|exists y; split_and!; [by right|done|done]].
    eexists. split; [by left|]. cbn. destruct (move_path m) as [|a q] eqn:Em; cbn.
    + split; [done | apply starts_with_nil].
    + destruct (starts_with (move_path y) (a :: q)) eqn:Es; cbn; [|done]. split; [done|].
      by eapply starts_with_trans.
  - destruct Hy as [->|Hy]; [exists y; split_and!; [by left|done|done]|].
    destruct IH as (z & Hz & Hc); [by exists y|]. exists z. split; [by right|done].
Qed.

Lemma union_moves_covers new s c :
  covered_by (first_moves s) c \/ (exists m, In m new /\ starts_with (snd c) (move_path m) = true /\ move_root m = fst c) ->
  covered_by (first_moves (union_moves new s)) c.
Proof.
  unfold union_moves. cbn. generalize (first_moves s) as l. induction new as [|m new IH]; intros l Hc; cbn.
  - destruct Hc as [|(m & [] & _)]. done.
  - apply IH. destruct Hc as [Hc|(m' & [->|Hm] & Hs & Hr)].
    + left. by apply union_move_keeps.
    + left. destruct (union_move_covers m' l) as (x & Hx & Hxr & Hxs). exists x.
      split_and!; [done|by etrans|]. by eapply starts_with_trans.
    + right. by exists m'.
Qed.

(** The moves of [l] are apart from those of [base]. *)
Definition apart_from (base l : list AffineMove) : Prop := forall m x, In m l -> In x base -> apart x m.

Lemma union_move_apart base m l :
  apart_from base l -> apart_from base [m] ->
  exists l', union_move m (base ++ l) = base ++ l' /\ apart_from base l'.
Proof.
  intros Hl Hm. exists (union_move m l). split.
  - assert (Hb : forall x, In x base -> apart x m) by (intros x; apply Hm; by left). clear Hl Hm.
    induction base as [|x base IH]; [done|]. cbn. rewrite (Hb x (or_introl eq_refl)).
    f_equal. apply IH. intros. apply Hb. by right.
  - induction l as [|z l IH]; intros y x Hy Hx; cbn in Hy; [by apply Hm|].
    destruct (overlaps z _ _) eqn:E.
    + apply andb_true_iff in E as [Hr%String.eqb_eq Ho].
      destruct Hy as [<-|Hy]; [|apply Hl; [by right|done]].
      pose proof (Hm m x (or_introl eq_refl) Hx) as Hxm. pose proof (Hl z x (or_introl eq_refl) Hx) as Hxz.
      unfold apart, overlaps in *. rewrite <- Hr in Hxm.
      destruct (move_path m) as [|a p]; cbn; [done|].
      destruct (starts_with (move_path z) (a :: p)); cbn; done.
    + destruct Hy as [<-|Hy]; [apply Hl; [by left|done]|].
      apply IH; [|done|done]. intros ????. apply Hl; [by right|done].
Qed.

Lemma union_moves_apart base new l :
  apart_from base l -> apart_from base new ->
  exists l', fold_left (fun moves m => union_move m moves) new (base ++ l) = base ++ l' /\ apart_from base l'.
Proof.
  revert l. induction new as [|m new IH]; intros l Hl Hn; cbn; [by exists l|].
  destruct (union_move_apart base m l) as (l' & -> & Hl'); [done| |].
  - intros ? x [<-|[]]. apply Hn. by left.
  - apply IH; [done|]. intros ????. apply Hn; [by right|done].
Qed.

(** ** Every step extends the moves *)

Lemma absorb_step inner s : step_ok s (absorb inner s).
Proof.
  split; [done|]. cbn. intros [Hok _]%andb_true_iff. split; [done|]. exists []. by rewrite app_nil_r.
Qed.

Lemma absorb_ok inner s : ok (absorb inner s) = true -> ok s = true /\ ok inner = true.
Proof. cbn. by intros ?%andb_true_iff. Qed.

(** The moves of a branch that began with those of [s]. *)
Lemma branch_moves_apart body inner s branch :
  first_moves inner = first_moves s -> extends inner branch -> ok branch = true ->
  apart_from (first_moves s) (branch_moves (first_moves s) body branch).
Proof.
  intros Hi Hext Hok. destruct (Hext Hok) as (_ & new & E & Hnew). rewrite Hi in E, Hnew.
  unfold branch_moves. destruct (body_falls_through body); [|by intros ??[]].
  rewrite E, drop_app_length. exact Hnew.
Qed.

Section Structure.
Context (ctx : CheckerContext).

Lemma record_body_move_step span r p s : step_ok s (record_body_move ctx span r p s).
Proof.
  unfold record_body_move. case_decide; [apply reject_step|].
  destruct (List.find _ (first_moves s)) eqn:E; [apply reject_step|].
  split; [done|]. cbn. intros Hok. split; [done|]. eexists. split; [done|].
  intros m x [<-|[]] Hx. by apply (find_none _ _ E).
Qed.

Lemma record_move_step span r p s : step_ok s (record_move ctx span r p s).
Proof. unfold record_move. destruct (mode ctx); [apply record_body_move_step | apply reject_step]. Qed.

Lemma with_usage_step (C : Expr -> bool -> Checker -> Checker) e :
  (forall b s, step_ok s (C e b s)) ->
  Forall (fun e' => forall u s, step_ok s (with_usage ctx C e' u s)) (sub_exprs e) ->
  forall u s, step_ok s (with_usage ctx C e u s).
Proof.
  intros He Hsub u s. destruct e; cbn; destruct (is_borrow_only u); try apply He;
    destruct (move_whole u); try apply He.
  all: try match goal with |- context [match ?o with Some _ => _ | None => _ end] =>
         destruct o as [[]|]; cbn; try apply He end.
  all: try (apply fold_step; intros; apply record_move_step).
  cbn in Hsub. rewrite Forall_map in Hsub. apply fold_step. intros [n v sp] s' Hin.
  rewrite Forall_forall in Hsub. apply list_elem_of_In in Hin. exact (Hsub _ Hin _ _).
Qed.

Definition expr_steps (e : Expr) : Prop :=
  (forall b s, step_ok s (collect ctx e b s)) /\ (forall u s, step_ok s (with_usage ctx (collect ctx) e u s)).

Definition body_step (s s' : Checker) : Prop := extends s s' /\ protected_roots s' = protected_roots s.

Definition body_steps (b : Body) : Prop := forall s, body_step s (collect_body_moves ctx b s).

Lemma body_step_trans s1 s2 s3 : body_step s1 s2 -> body_step s2 s3 -> body_step s1 s3.
Proof. intros [] []. split; [by eapply extends_trans | by etrans]. Qed.

Lemma step_body s s' : step_ok s s' -> body_step s s'.
Proof. by intros [[] ?]. Qed.

Lemma bind_local_step mutable name value s : body_step s (bind_local ctx mutable name value s).
Proof.
  unfold bind_local. destruct mutable; cbn; (destruct (locals s !! name); [|destruct (expr_type _ _ _ _)]);
    split; try done; intros Hok; split; try done; exists []; by rewrite app_nil_r.
Qed.

Lemma body_moves_step (C : Expr -> bool -> Checker -> Checker) b :
  Forall (stmt_all (fun e => (forall b s, step_ok s (C e b s)) /\
                             Forall (fun e' => forall b s, step_ok s (C e' b s)) (sub_exprs e))
                   (fun b => forall s, body_step s (body_moves ctx C b s))) (body_statements b) ->
  option_all (fun e => forall b s, step_ok s (C e b s)) (body_tail b) ->
  forall s, body_step s (body_moves ctx C b s).
Proof.
  destruct b as [stmts tl sp]. cbn. intros Hs Ht. induction Hs as [|stmt stmts Hstmt _ IH]; intros s.
  - destruct tl; [apply step_body, Ht|]. by split; [apply moves_extend_refl|].
  - destruct stmt as [mutable name value ? | target value ? | expr ? | body ?]; cbn in Hstmt |- *.
    + eapply body_step_trans; [|apply IH]. eapply body_step_trans; [apply step_body, Hstmt|].
      apply bind_local_step.
    + eapply body_step_trans; [|apply IH]. destruct Hstmt as [[_ Htarget] [Hvalue _]]. apply step_body.
      eapply step_trans; [|apply Hvalue]. destruct target; try apply step_refl. cbn in *.
      apply Forall_cons in Htarget as [_ [Hi _]%Forall_cons]. apply Hi.
    + eapply body_step_trans; [apply step_body, Hstmt|]. destruct (expr_falls_through expr); [apply IH|].
      by split; [apply moves_extend_refl|].
    + eapply body_step_trans; [apply Hstmt|]. destruct (body_falls_through body); [apply IH|].
      by split; [apply moves_extend_refl|].
Qed.

(** Both branches of a conditional. *)
Lemma branches_step s tb eb then_checker else_checker :
  extends (nested ∅ s) then_checker -> extends (nested ∅ s) else_checker ->
  extends s (union_moves (branch_moves (first_moves s) eb else_checker)
              (union_moves (branch_moves (first_moves s) tb then_checker)
                 (absorb else_checker (absorb then_checker s)))).
Proof.
  intros Ht He Hok. apply absorb_ok in Hok as [[Hs Hokt]%absorb_ok Hoke]. split; [done|].
  pose proof (branch_moves_apart tb (nested ∅ s) s _ eq_refl Ht Hokt) as At.
  pose proof (branch_moves_apart eb (nested ∅ s) s _ eq_refl He Hoke) as Ae. cbn.
  destruct (union_moves_apart (first_moves s) _ [] (fun m x H => match H with end) At) as (l & E & Al).
  rewrite app_nil_r in E. rewrite E.
  destruct (union_moves_apart (first_moves s) _ l Al Ae) as (l' & -> & Al'). by exists l'.
Qed.

(** The arms of a match: each begins with the moves [base] before them. *)
Lemma fold_ok {A} (f : Checker -> A -> Checker) l s :
  (forall s a, In a l -> ok (f s a) = true -> ok s = true) -> ok (fold_left f l s) = true -> ok s = true.
Proof.
  revert s. induction l as [|a l IH]; intros s Hf; cbn; [done|]. intros Hok.
  apply (Hf _ a); [by left|]. apply IH; [|done]. intros s' b Hb. apply Hf. by right.
Qed.

Lemma arms_extend {A} (arm : Checker -> A -> Checker) (base : list AffineMove) arms l s :
  (forall s a, In a arms -> ok (arm s a) = true -> ok s = true) ->
  (forall s a l, In a arms -> ok (arm s a) = true -> first_moves s = base ++ l -> apart_from base l ->
     exists l', first_moves (arm s a) = base ++ l' /\ apart_from base l') ->
  first_moves s = base ++ l -> apart_from base l -> ok (fold_left arm arms s) = true ->
  exists l', first_moves (fold_left arm arms s) = base ++ l' /\ apart_from base l'.
Proof.
  intros Hok Harm. revert l s. induction arms as [|a arms IH]; intros l s Hs Hl Hf; cbn in *; [eauto|].
  assert (Hoka : ok (arm s a) = true).
  { eapply (fold_ok arm arms); [|exact Hf]. intros. eapply Hok; [by right|done]. }
  destruct (Harm s a l (or_introl eq_refl) Hoka Hs Hl) as (l' & Hl' & Al').
  apply (IH (fun s a Ha => Hok s a (or_intror Ha)) (fun s a l Ha => Harm s a l (or_intror Ha)) l'); done.
Qed.

Definition match_arm (scrutinee : Expr) (base : list AffineMove) (s : Checker) (a : MatchArm) : Checker :=
  let 'mkMatchArm pattern body _ := a in
  let inner := body_moves ctx (collect ctx) body (arm_checker ctx scrutinee pattern (set_moves base s)) in
  union_moves (branch_moves base body inner) (absorb inner s).

Lemma arm_checker_moves scrutinee pattern s :
  first_moves (arm_checker ctx scrutinee pattern s) = first_moves s /\
  ok (arm_checker ctx scrutinee pattern s) = true /\
  protected_roots (arm_checker ctx scrutinee pattern s) = ∅.
Proof.
  unfold arm_checker. destruct (match_arm_payload_binding _ _ _ _ _) as [[]|]; [|done].
  by destruct (payload_alias_for_scrutinee _ _).
Qed.

Lemma match_step scrutinee arms s :
  Forall body_steps (map arm_body arms) ->
  step_ok s (fold_left (match_arm scrutinee (first_moves s)) arms s).
Proof.
  intros Hb. rewrite Forall_map in Hb.
  assert (Hok : forall s0 a, In a arms -> ok (match_arm scrutinee (first_moves s) s0 a) = true -> ok s0 = true).
  { intros s0 [pt b sp] _ [Hs _]%absorb_ok. done. }
  split.
  - assert (Hk : forall l s0, keeps s0 (fold_left (match_arm scrutinee (first_moves s)) l s0)).
    { induction l as [|[pt b sp] l IH]; intros s0; [done|]. cbn. eapply keeps_trans; [|apply IH]. done. }
    apply Hk.
  - intros Hf. split; [by eapply fold_ok|].
    destruct (arms_extend (match_arm scrutinee (first_moves s)) (first_moves s) arms [] s Hok) as (l' & E & Al');
      [|by rewrite app_nil_r|by intros ??[]|done|by exists l'].
    intros s0 [pt b sp] l Ha Hoka Hs0 Hl. rewrite Forall_forall in Hb.
    apply list_elem_of_In, Hb in Ha. cbn in Ha. cbn. rewrite Hs0.
    apply absorb_ok in Hoka as [_ Hoki].
    destruct (arm_checker_moves scrutinee pt (set_moves (first_moves s) s0)) as (Hm & _ & _).
    apply union_moves_apart; [done|].
    by apply (branch_moves_apart b _ s _ Hm (proj1 (Ha _)) Hoki).
Qed.

Lemma args_step args usages s :
  Forall expr_steps args -> step_ok s (collect_args ctx (collect ctx) args usages s).
Proof.
  intros Hargs. revert usages s. induction Hargs as [|arg args [Hc Hu] _ IH]; intros usages s; cbn;
    [apply step_refl|].
  destruct usages as [|usage usages]; (eapply step_trans; [|apply IH]); auto.
Qed.

Lemma collect_cases e :
  Forall expr_steps (sub_exprs e) -> Forall body_steps (sub_bodies e) -> forall b s, step_ok s (collect ctx e b s).
Proof.
  intros Hs Hb.
  assert (Hfold : forall l, Forall expr_steps l -> forall b s,
    step_ok s (fold_left (fun s e => collect ctx e b s) l s)).
  { intros l Hl b s. apply fold_step. intros e' s' Hin. rewrite Forall_forall in Hl.
    apply list_elem_of_In, Hl in Hin. apply Hin. }
  assert (Hfields : forall l, Forall expr_steps (map init_value l) -> forall b s,
    step_ok s (fold_left (fun s '(mkFieldInit _ value _) => collect ctx value b s) l s)).
  { intros l Hl b s. rewrite Forall_map in Hl. apply fold_step. intros [n v sp] s' Hin.
    rewrite Forall_forall in Hl. apply list_elem_of_In, Hl in Hin. apply Hin. }
  intros b s. destruct e; cbn -[expr_type] in Hs, Hb |- *; try apply step_refl; try (by apply Hfold).
  - destruct (locals s !! name); [|apply step_refl]. case_decide; [apply step_refl|].
    destruct (b || _); [apply step_refl|]. destruct (default _ _). apply record_move_step.
  - destruct b; [apply step_refl|]. destruct (mode ctx) as [|clause [ty|]]; try apply step_refl.
    destruct (affine ctx ty); [apply reject_step | apply step_refl].
  - destruct (functions ctx !! callee); [by apply args_step|].
    destruct (is_borrow_only_builtin callee); by apply Hfold.
  - apply Forall_cons in Hs as [[He _] _]. destruct (b || _); [apply He|].
    destruct (access_path e (aliases s)) as [[r p]|]; cbn; [apply record_move_step | apply He].
  - apply Forall_cons in Hs as [[H1 _] [[H2 _] _]%Forall_cons]. by eapply step_trans.
  - apply Forall_cons in Hs as [[H1 _] _]. apply Forall_cons in Hb as [Ht [He _]%Forall_cons].
    eapply step_trans; [apply H1|]. split; [done|].
    apply branches_step; [apply (Ht (nested ∅ _)) | apply (He (nested ∅ _))].
  - apply Forall_cons in Hs as [[H1 _] _]. eapply step_trans; [apply H1|]. by apply match_step.
  - apply Forall_cons in Hs as [[H1 _] _]. eapply step_trans; [apply H1|]. apply absorb_step.
  - apply absorb_step.
  - by apply Hfields.
  - apply Forall_cons in Hs as [[H1 _] H2]. eapply step_trans; [apply H1|]. by apply Hfields.
  - apply Forall_cons in Hs as [[H1 _] _]. apply H1.
  - apply Forall_cons in Hs as [[H1 _] [[H2 _] _]%Forall_cons]. eapply step_trans; [apply H1 | apply H2].
  - apply Forall_cons in Hs as [[H1 _] _]. apply H1.
  - apply absorb_step.
Qed.

Lemma expr_case e :
  Forall expr_steps (sub_exprs e) -> Forall body_steps (sub_bodies e) -> expr_steps e.
Proof.
  intros Hs Hb. pose proof (collect_cases e Hs Hb) as Hc. split; [exact Hc|].
  apply with_usage_step; [exact Hc|]. eapply Forall_impl; [exact Hs|]. intros e' He'. apply He'.
Qed.

Lemma collect_structure :
  (forall e, expr_steps e) /\ (forall b, body_steps b).
Proof.
  assert (Hexpr : forall e, Forall (fun e => expr_steps e /\ Forall expr_steps (sub_exprs e)) (sub_exprs e) ->
    Forall body_steps (sub_bodies e) -> expr_steps e /\ Forall expr_steps (sub_exprs e)).
  { intros e Hs Hb. assert (Hs' : Forall expr_steps (sub_exprs e)).
    { eapply Forall_impl; [exact Hs|]. by intros ? []. }
    split; [by apply expr_case | done]. }
  assert (Hbody : forall b, Forall (stmt_all (fun e => expr_steps e /\ Forall expr_steps (sub_exprs e)) body_steps)
    (body_statements b) -> option_all (fun e => expr_steps e /\ Forall expr_steps (sub_exprs e)) (body_tail b) ->
    body_steps b).
  { intros b Hs Ht. refine (body_moves_step (collect ctx) b _ _).
    - eapply Forall_impl; [exact Hs|]. intros stmt.
      assert (Hi : forall l, Forall expr_steps l -> Forall (fun e => forall b s, step_ok s (collect ctx e b s)) l).
      { intros l Hl. eapply Forall_impl; [exact Hl|]. by intros ? []. }
      destruct stmt; cbn; [intros [[? _] ?%Hi] | intros [[[? _] ?%Hi] [[? _] ?%Hi]] | intros [[? _] ?%Hi] | ]; auto.
    - destruct (body_tail b); cbn in *; [apply Ht | done]. }
  split; intros x; [eapply proj1, (expr_tree_ind _ _ Hexpr Hbody) | apply (body_tree_ind _ _ Hexpr Hbody)].
Qed.
End Structure.
