(* ===== verification/OwnershipSafe.v ===== *)
(** * Affine ownership: no path consumes a local twice

    The moves the checker keeps cover those of every path ([Inv]); a loop body
    moves nothing that is bound outside of the loop. *)
From stdpp Require Import gmap.
From S2P Require Import Prelude Syntax Hir SemType Ownership OwnershipSound.

Open Scope nat_scope.

(** ** The invariant *)

(** What was moved and is in scope is covered by the checker's moves. *)
Definition Inv (M : list Move) (s : Checker) : Prop :=
  forall r p, In (r, p) M -> r ∈ dom (locals s) -> covered_by (first_moves s) (r, p).

Definition sound (s s' : Checker) (evs : list Event) : Prop :=
  forall M, Inv M s -> exists M', run M evs = Some M' /\ Inv M' s'.

(** Locals of [P] are in scope, and mutable or protected. *)
Definition guarded (P : gset string) (s : Checker) : Prop :=
  forall r, r ∈ P -> r ∈ dom (locals s) /\ (r ∈ mutable_locals s \/ r ∈ protected_roots s).

Definition no_moves (P : gset string) (evs : list Event) : Prop := forall r p, In (Moved r p) evs -> r ∉ P.

(** From [s] to [s'], on events of the covered and of the straight part. *)
Definition parts (cov strt : bool) (s s' : Checker) (evs : list Event) : Prop :=
  (cov = true -> sound s s' evs) /\ (strt = true -> forall P, guarded P s -> no_moves P evs).

Lemma run_app M a b : run M (a ++ b) = M' ← run M a; run M' b.
Proof.
  revert M. induction a as [|[r p|x] a IH]; intros M; cbn; [done| |apply IH].
  destruct (existsb _ M); [done | apply IH].
Qed.

(** What is moved in the end was before or is an event. *)
Lemma run_moved M evs M' m : run M evs = Some M' -> In m M' -> In m M \/ In (Moved (fst m) (snd m)) evs.
Proof.
  revert M. induction evs as [|[r p|x] evs IH]; intros M; cbn.
  - intros [= ->]. by left.
  - destruct (existsb _ M); [done|]. intros Hr Hm. destruct (IH _ Hr Hm) as [[<-|Hin]|Hin]; cbn; auto.
  - intros Hr Hm. destruct (IH _ Hr Hm) as [Hin|Hin]; [|by right; right].
    apply filter_In in Hin as [Hin _]. by left.
Qed.

Lemma sound_refl s : sound s s [].
Proof. intros M HM. by exists M. Qed.

Lemma sound_trans s s1 s2 a b : sound s s1 a -> sound s1 s2 b -> sound s s2 (a ++ b).
Proof.
  intros Ha Hb M HM. destruct (Ha M HM) as (M1 & E1 & H1). destruct (Hb M1 H1) as (M2 & E2 & H2).
  exists M2. split; [|done]. by rewrite run_app, E1.
Qed.

Lemma no_moves_app P a b : no_moves P a -> no_moves P b -> no_moves P (a ++ b).
Proof. intros Ha Hb r p [Hin|Hin]%in_app_iff; eauto. Qed.

Lemma guarded_keeps P s s' : keeps s s' -> guarded P s -> guarded P s'.
Proof. intros [E Ep] Hg r Hr. injection E as El Em _. rewrite El, Em, Ep. by apply Hg. Qed.

Lemma parts_refl c t s : parts c t s s [].
Proof. split; intros _; [apply sound_refl | by intros P _ r p []]. Qed.

(** What is guarded in [s] is in [s']. *)
Definition guards (s s' : Checker) : Prop := forall P, guarded P s -> guarded P s'.

Lemma keeps_guards s s' : keeps s s' -> guards s s'.
Proof. intros Hk P. by apply guarded_keeps. Qed.

Lemma parts_trans c t c1 t1 c2 t2 s s1 s2 a b :
  (c = true -> c1 = true /\ c2 = true) -> (t = true -> t1 = true /\ t2 = true) -> guards s s1 ->
  parts c1 t1 s s1 a -> parts c2 t2 s1 s2 b -> parts c t s s2 (a ++ b).
Proof.
  intros Hc Ht Hk [S1 N1] [S2 N2]. split.
  - intros [H1 H2]%Hc. eapply sound_trans; eauto.
  - intros [H1 H2]%Ht P HP. apply no_moves_app; [by apply N1|]. apply N2; [done|]. by apply Hk.
Qed.

Lemma parts_weaken c t c' t' s s' evs :
  (c = true -> c' = true) -> (t = true -> t' = true) -> parts c' t' s s' evs -> parts c t s s' evs.
Proof. intros Hc Ht [H1 H2]. split; auto. Qed.

Lemma Inv_same M s s' :
  locals s' = locals s -> first_moves s' = first_moves s -> Inv M s -> Inv M s'.
Proof. intros El Em HM r p Hin. rewrite El, Em. by apply HM. Qed.

(** ** One move *)

Section Safe.
Context (ctx : CheckerContext) (Hmode : mode ctx = Mode_Body).

Lemma record_parts c t span r p s :
  ok (record_body_move ctx span r p s) = true ->
  parts c t s (record_body_move ctx span r p s) (moved (env_of s) r p).
Proof.
  unfold record_body_move, moved, followed. case_decide as Hprot; [done|].
  destruct (List.find _ (first_moves s)) eqn:Hfind; [done|]. intros _.
  assert (Hinv : forall M, Inv M s -> Inv M (set_moves (first_moves s ++ [mkAffineMove r p span]) s)).
  { intros M HM r' p' Hin Hd. eapply covered_incl; [|by apply HM]. intros x Hx. apply in_app_iff. by left. }
  case_bool_decide as Hdom; [case_bool_decide as Hmut|]; cbn; (split; intros _);
    try (intros M HM; exists M; split; [done | by apply Hinv]); try (by intros P _ ? ? []).
  - intros M HM. exists ((r, p) :: M). split.
    + cbn. replace (existsb (move_overlaps r p) M) with false; [done|]. symmetry.
      apply not_true_iff_false. intros (m & Hm & Ho)%existsb_exists. destruct m as [r' p'].
      assert (r' = r) as -> by (apply andb_true_iff in Ho as [E _]; by apply String.eqb_eq in E).
      assert (Hc : covered_by (first_moves s) (r, p')) by by apply HM.
      by rewrite (covered_no_overlap _ _ _ _ Hc Hfind) in Ho.
    + intros r' p' [[= -> ->]|Hin] Hd; [|exact (Hinv M HM r' p' Hin Hd)].
      exists (mkAffineMove r' p' span). split_and!; [|done|apply starts_with_refl].
      apply in_app_iff. right. by left.
  - intros P HP r' p' [[= -> ->]|[]] Hr. destruct (HP _ Hr) as (_ & [Hm|Hp]); [by apply Hmut | by apply Hprot].
Qed.

(** ** Expressions without control *)

Definition collect_all (l : list (Expr * bool)) (s : Checker) : Checker :=
  fold_left (fun s '(e, b) => collect ctx e b s) l s.

Definition record_own (span : Span) (m : option Move) (s : Checker) : Checker :=
  match m with Some (r, p) => record_body_move ctx span r p s | None => s end.

Lemma fold_map {A B} (f : A -> B) (g : Checker -> B -> Checker) l s :
  fold_left g (map f l) s = fold_left (fun s a => g s (f a)) l s.
Proof. revert s. induction l as [|a l IH]; intros s; cbn; [done | apply IH]. Qed.

Lemma fold_ext {A} (f g : Checker -> A -> Checker) l s :
  (forall s a, f s a = g s a) -> fold_left f l s = fold_left g l s.
Proof. intros Hfg. revert s. induction l as [|a l IH]; intros s; cbn; [done|]. by rewrite Hfg, IH. Qed.

Lemma collect_plain e b s :
  is_plain ctx e = true ->
  collect ctx e b s =
    record_own (expr_span e) (own_move ctx (env_of s) e b) (collect_all (operands ctx (env_of s) e b) s).
Proof.
  intros Hp. unfold collect_all. destruct e; cbn -[expr_type access_path] in Hp |- *; try done;
    rewrite ?Hmode; cbn -[expr_type access_path].
  all: try (rewrite fold_map; apply fold_ext; try done; by intros ? [] ).
  - destruct (locals s !! name) as [ty|]; [|done]. destruct (decide _) as [Hm|Hm].
    { by rewrite bool_decide_true. }
    rewrite bool_decide_false by done. cbn. destruct (b || _); [done|]. unfold record_move. rewrite Hmode.
    by destruct (aliases s !! name).
  - by destruct b.
  - destruct (functions ctx !! callee); [done|]. rewrite fold_map.
    by destruct (is_borrow_only_builtin callee).
  - unfold field_borrowed. cbn -[expr_type access_path]. destruct (b || _); [done|].
    destruct (access_path (E_Field e field span) (aliases s)) as [[r p]|] eqn:E; cbn; [|done].
    unfold record_move. by rewrite Hmode.
Qed.

Lemma operands_sub env e b e' b' : In (e', b') (operands ctx env e b) -> In e' (sub_exprs e).
Proof.
  destruct e; cbn -[expr_type access_path]; try done.
  all: try (intros (x & [= <- <-] & Hx)%in_map_iff; done).
  - destruct (field_borrowed _ _ _ _ _ _); [naive_solver|]. destruct (access_path _ _); naive_solver.
  - naive_solver.
  - intros (x & [= <- <-] & Hx)%in_map_iff. by apply in_map.
  - intros [[= <- <-]|(x & [= <- <-] & Hx)%in_map_iff]; [by left|]. right. by apply in_map.
  - naive_solver.
  - naive_solver.
  - naive_solver.
Qed.
End Safe.

Lemma expr_all_sub p e e' : expr_all p e = true -> In e' (sub_exprs e) -> expr_all p e' = true.
Proof.
  intros He Hin. destruct e; cbn in He, Hin; try done; apply andb_true_iff in He as [_ He].
  all: rewrite ?andb_true_iff, ?forallb_forall in He.
  all: try (by apply He).
  all: try (destruct Hin as [<-|[]]; tauto).
  - destruct Hin as [<-|[<-|[]]]; tauto.
  - apply in_map_iff in Hin as ([n v sp] & <- & Hin). by apply (He _ Hin).
  - destruct He as [Hb He]. destruct Hin as [<-|Hin]; [done|].
    apply in_map_iff in Hin as ([n v sp] & <- & Hin). by apply (He _ Hin).
  - destruct Hin as [<-|[<-|[]]]; tauto.
Qed.

Lemma expr_all_body p e b : expr_all p e = true -> In b (sub_bodies e) -> body_all p b = true.
Proof.
  intros He Hin. destruct e; cbn in He, Hin; try done; apply andb_true_iff in He as [_ He];
    rewrite ?andb_true_iff in He.
  - destruct Hin as [<-|[<-|[]]]; tauto.
  - destruct He as [_ He]. rewrite forallb_forall in He. apply in_map_iff in Hin as ([pt b' sp] & <- & Hin).
    by apply (He _ Hin).
  - destruct Hin as [<-|[]]. tauto.
  - destruct Hin as [<-|[]]. tauto.
  - destruct Hin as [<-|[]]. tauto.
  - destruct He as [Hb He]. rewrite forallb_forall in He. destruct Hin as [<-|Hin]; [done|].
    apply in_map_iff in Hin as ([n ps b' sp] & <- & Hin). by apply (He _ Hin).
Qed.

Lemma expr_all_head p e : expr_all p e = true -> p e = true.
Proof. destruct e; cbn; by intros [? _]%andb_true_iff. Qed.

(** ** Paths *)

Definition env_le (env env' : PathEnv) : Prop :=
  dom (env_locals env) ⊆ dom (env_locals env') /\ env_mutable env ⊆ env_mutable env'.

Lemma env_le_refl env : env_le env env.
Proof. by split. Qed.

Lemma env_le_trans e1 e2 e3 : env_le e1 e2 -> env_le e2 e3 -> env_le e1 e3.
Proof. intros [] []. split; by etrans. Qed.

Lemma env_le_guards s s' :
  env_le (env_of s) (env_of s') -> protected_roots s' = protected_roots s -> guards s s'.
Proof.
  intros [Hl Hm] Hp P HP r Hr. destruct (HP r Hr) as [Hd Hg]. rewrite Hp. split; [by apply Hl|].
  destruct Hg; [left; by apply Hm | by right].
Qed.

Section Main.
Context (ctx : CheckerContext) (Hmode : mode ctx = Mode_Body).

Abbreviation cov := (expr_all covered_form).
Abbreviation strt := (expr_all not_branch).

Definition M_expr (env : PathEnv) (e : Expr) (b : bool) (evs : list Event) : Prop :=
  expr_falls_through e = true /\ forall s, env_of s = env -> ok (collect ctx e b s) = true ->
    parts (cov e) (strt e) s (collect ctx e b s) evs.

Definition M_exprs (env : PathEnv) (l : list (Expr * bool)) (evs : list Event) : Prop :=
  Forall (fun eb => expr_falls_through (fst eb) = true) l /\
  forall s, env_of s = env -> ok (collect_all ctx l s) = true ->
    parts (forallb (fun eb => cov (fst eb)) l) (forallb (fun eb => strt (fst eb)) l) s (collect_all ctx l s) evs.

Definition M_args (env : PathEnv) (args : list Expr) (usages : list ParamUsage) (evs : list Event) : Prop :=
  forall s, env_of s = env -> ok (collect_args ctx (collect ctx) args usages s) = true ->
    parts (forallb cov args) (forallb strt args) s (collect_args ctx (collect ctx) args usages s) evs.

Definition M_usage (env : PathEnv) (e : Expr) (u : ParamUsage) (evs : list Event) : Prop :=
  forall s, env_of s = env -> ok (with_usage ctx (collect ctx) e u s) = true ->
    parts (cov e) (strt e) s (with_usage ctx (collect ctx) e u s) evs.

Definition collect_fields (u : ParamUsage) (fields : list FieldInit) (s : Checker) : Checker :=
  fold_left (fun s '(mkFieldInit name value _) =>
    with_usage ctx (collect ctx) value (usage_project_record_field u name) s) fields s.

Definition M_fields (env : PathEnv) (fields : list FieldInit) (u : ParamUsage) (evs : list Event) : Prop :=
  forall s, env_of s = env -> ok (collect_fields u fields s) = true ->
    parts (forallb (fun f => cov (init_value f)) fields) (forallb (fun f => strt (init_value f)) fields) s
      (collect_fields u fields s) evs.

Definition M_body (env : PathEnv) (b : Body) (evs : list Event) (env' : PathEnv) : Prop :=
  body_falls_through b = true /\ env_le env env' /\
  forall s, env_of s = env -> env_of (collect_body_moves ctx b s) = env' /\
    (ok (collect_body_moves ctx b s) = true ->
     parts (body_all covered_form b) (body_all not_branch b) s (collect_body_moves ctx b s) evs).

Definition M_stmts (env : PathEnv) (stmts : list Stmt) (tail : option Expr) (evs : list Event)
    (env' : PathEnv) : Prop :=
  forall sp, M_body env (mkBody stmts tail sp) evs env'.

Definition M_target (env : PathEnv) (e : Expr) (evs : list Event) : Prop :=
  forall s, env_of s = env -> ok (collect_assign_target (collect ctx) e s) = true ->
    parts (cov e) (strt e) s (collect_assign_target (collect ctx) e s) evs.

(** The checker a [repeat] makes for its body. *)
Definition repeat_checker (binding : option string) (s : Checker) : Checker :=
  let inner := nested (loop_protected s) s in
  match binding with
  | Some binding => set_locals (<[binding := T_I32]> (locals inner)) inner
  | None => inner
  end.

Definition M_rounds (env : PathEnv) (binding : option string) (b : Body) (evs : list Event) : Prop :=
  forall s, env_of s = env -> ok (collect_body_moves ctx b (repeat_checker binding s)) = true ->
    parts (body_all covered_form b && body_all not_branch b) (body_all not_branch b) s s evs.

Definition while_checker (c : Expr) (s : Checker) : Checker :=
  collect ctx c true (nested (loop_protected s) s).

Definition M_while (env : PathEnv) (c : Expr) (b : Body) (evs : list Event) : Prop :=
  forall s, env_of s = env -> ok (collect_body_moves ctx b (while_checker c s)) = true ->
    parts (cov c && strt c && (body_all covered_form b && body_all not_branch b)) (strt c && body_all not_branch b)
      s s evs.

Lemma collect_keeps e b s : keeps s (collect ctx e b s).
Proof. apply (proj1 (collect_structure ctx) e). Qed.

Lemma collect_extends e b s : extends s (collect ctx e b s).
Proof. apply (proj1 (collect_structure ctx) e). Qed.

Lemma usage_keeps e u s : keeps s (with_usage ctx (collect ctx) e u s).
Proof. apply (proj1 (collect_structure ctx) e). Qed.

Lemma usage_extends e u s : extends s (with_usage ctx (collect ctx) e u s).
Proof. apply (proj1 (collect_structure ctx) e). Qed.

Lemma body_extends b s : extends s (collect_body_moves ctx b s).
Proof. apply (proj2 (collect_structure ctx) b). Qed.

Lemma body_protected b s : protected_roots (collect_body_moves ctx b s) = protected_roots s.
Proof. apply (proj2 (collect_structure ctx) b). Qed.

Lemma collect_env e b s : env_of (collect ctx e b s) = env_of s.
Proof. apply collect_keeps. Qed.

Lemma collect_all_step l s : step_ok s (collect_all ctx l s).
Proof. apply fold_step. intros [e b] s' _. apply (proj1 (collect_structure ctx) e). Qed.

Lemma collect_fields_ok u fields s : ok (collect_fields u fields s) = true -> ok s = true.
Proof.
  apply (fold_ok _). intros s' [n v sp] _. intros Hok.
  by apply (usage_extends v (usage_project_record_field u n) s').
Qed.

Lemma collect_args_ok args usages s : ok (collect_args ctx (collect ctx) args usages s) = true -> ok s = true.
Proof.
  intros Hok. apply (args_step ctx args usages s); [|done].
  apply Forall_forall. intros e _. apply (proj1 (collect_structure ctx) e).
Qed.

(** *** Expressions *)

Lemma plain_case env e b evs :
  is_plain ctx e = true -> M_exprs env (operands ctx env e b) evs ->
  M_expr env e b (evs ++ own_events ctx env e b).
Proof.
  intros Hp [Hf Hops]. split.
  - rewrite Forall_forall in Hf. destruct e; cbn in Hp |- *; try done.
    + apply (Hf (e, b)), list_elem_of_In. by left.
    + apply (Hf (e, b)), list_elem_of_In. by left.
  - intros s <-. rewrite (collect_plain ctx Hmode) by done. intros Hok.
    assert (Hok1 : ok (collect_all ctx (operands ctx (env_of s) e b) s) = true).
    { revert Hok. unfold record_own. destruct (own_move _ _ _ _) as [[r p]|]; [|done]. intros Hok.
      by apply (record_body_move_step ctx (expr_span e) r p). }
    eapply parts_trans; [| |apply keeps_guards, collect_all_step|by apply Hops|].
    + intros Hc. split; [|exact Hc]. apply forallb_forall. intros [e' b'] Hin.
      eapply expr_all_sub; [exact Hc|]. by eapply operands_sub.
    + intros Hc. split; [|exact Hc]. apply forallb_forall. intros [e' b'] Hin.
      eapply expr_all_sub; [exact Hc|]. by eapply operands_sub.
    + unfold own_events, record_own in *. destruct (own_move _ _ _ _) as [[r p]|]; [|apply parts_refl].
      destruct (collect_all_step (operands ctx (env_of s) e b) s) as [[E _] _].
      pose proof (record_parts ctx (cov e) (strt e) (expr_span e) r p _ Hok) as Hrec.
      by rewrite E in Hrec.
Qed.

Lemma exprs_cons_case env e b rest evs evs' :
  M_expr env e b evs -> M_exprs env rest evs' -> M_exprs env ((e, b) :: rest) (evs ++ evs').
Proof.
  intros [Hf He] [Hfr Hr]. split; [by constructor|]. intros s Hs Hok. cbn in Hok |- *.
  eapply parts_trans; [by intros ?%andb_true_iff|by intros ?%andb_true_iff|apply keeps_guards, collect_keeps| |].
  - apply He; [done|]. by apply (collect_all_step rest).
  - apply Hr; [by rewrite collect_env|done].
Qed.

Lemma call_case env callee args span b sig evs :
  functions ctx !! callee = Some sig -> M_args env args (sig_param_usages sig) evs ->
  M_expr env (E_Call callee args span) b evs.
Proof.
  intros Hf Hargs. split; [done|]. intros s Hs. cbn. rewrite Hf. intros Hok.
  eapply parts_weaken; [..|by apply Hargs]; done.
Qed.

(** *** Arguments *)

Lemma args_usage_case env arg args usage usages evs evs' :
  M_usage env arg usage evs -> M_args env args usages evs' ->
  M_args env (arg :: args) (usage :: usages) (evs ++ evs').
Proof.
  intros Hu Hr s Hs Hok. cbn in Hok |- *.
  eapply parts_trans; [by intros ?%andb_true_iff|by intros ?%andb_true_iff|apply keeps_guards, usage_keeps| |].
  - apply Hu; [done|]. by eapply collect_args_ok.
  - apply Hr; [|done]. destruct (usage_keeps arg usage s) as [-> _]. done.
Qed.

Lemma args_whole_case env arg args evs evs' :
  M_expr env arg false evs -> M_args env args [] evs' -> M_args env (arg :: args) [] (evs ++ evs').
Proof.
  intros [_ He] Hr s Hs Hok. cbn in Hok |- *.
  eapply parts_trans; [by intros ?%andb_true_iff|by intros ?%andb_true_iff|apply keeps_guards, collect_keeps| |].
  - apply He; [done|]. by eapply collect_args_ok.
  - apply Hr; [by rewrite collect_env|done].
Qed.

(** [with_usage] in one equation. *)
Lemma with_usage_eq e u s :
  with_usage ctx (collect ctx) e u s =
  if is_borrow_only u then collect ctx e true s
  else if move_whole u then collect ctx e false s
  else match e with
       | E_Record _ fields _ => collect_fields u fields s
       | _ =>
           match access_path e (aliases s) with
           | Some (root, base) =>
               fold_left (fun s p => record_move ctx (expr_span e) root (base ++ p) s) (move_fields u) s
           | None => collect ctx e false s
           end
       end.
Proof. by destruct e. Qed.

Lemma usage_borrow_case env e u evs : is_borrow_only u = true -> M_expr env e true evs -> M_usage env e u evs.
Proof. intros Hu [_ He] s Hs. rewrite with_usage_eq, Hu. by apply He. Qed.

Lemma usage_whole_case env e u evs :
  is_borrow_only u = false -> move_whole u = true -> M_expr env e false evs -> M_usage env e u evs.
Proof. intros Hb Hw [_ He] s Hs. rewrite with_usage_eq, Hb, Hw. by apply He. Qed.

Lemma usage_record_case env name fields span u evs :
  is_borrow_only u = false -> move_whole u = false -> M_fields env fields u evs ->
  M_usage env (E_Record name fields span) u evs.
Proof.
  intros Hb Hw Hf s Hs. rewrite with_usage_eq, Hb, Hw. intros Hok.
  assert (Hsub : forall p, expr_all p (E_Record name fields span) = true ->
    forallb (fun f => expr_all p (init_value f)) fields = true).
  { intros p Hc. apply forallb_forall. intros f Hin. eapply expr_all_sub; [exact Hc|].
    by apply (in_map init_value). }
  eapply parts_weaken; [apply Hsub|apply Hsub|]. by apply Hf.
Qed.

Lemma usage_access_case env e u root base :
  is_borrow_only u = false -> move_whole u = false ->
  (forall name fields span, e <> E_Record name fields span) -> access_path e (env_aliases env) = Some (root, base) ->
  M_usage env e u (concat (map (fun p => moved env root (base ++ p)) (move_fields u))).
Proof.
  intros Hb Hw He Ha s Hs. rewrite with_usage_eq, Hb, Hw.
  assert (Hal : aliases s = env_aliases env) by by rewrite <- Hs.
  assert (Hgo : forall l s, env_of s = env ->
    ok (fold_left (fun s p => record_move ctx (expr_span e) root (base ++ p) s) l s) = true ->
    parts (cov e) (strt e) s (fold_left (fun s p => record_move ctx (expr_span e) root (base ++ p) s) l s)
      (concat (map (fun p => moved env root (base ++ p)) l))).
  { clear s Hs Hal. induction l as [|p l IH]; intros s Hs Hok; cbn in *; [apply parts_refl|].
    pose proof (record_move_step ctx (expr_span e) root (base ++ p) s) as [Hk Hx].
    eapply parts_trans; [by intros Hc; split; exact Hc|by intros Hc; split; exact Hc|by apply keeps_guards| |].
    - rewrite <- Hs. unfold record_move in *. rewrite Hmode in *. apply record_parts.
      eapply (fold_ok _ l); [|exact Hok]. intros s' p' _ Hp'. exact (proj1 (proj2 (record_body_move_step ctx _ _ _ s') Hp')).
    - apply IH; [|done]. destruct Hk as [-> _]. done. }
  rewrite Hal. destruct e; rewrite ?Ha; try (apply Hgo; done).
  exfalso. by eapply He.
Qed.

Lemma usage_other_case env e u evs :
  is_borrow_only u = false -> move_whole u = false ->
  (forall name fields span, e <> E_Record name fields span) -> access_path e (env_aliases env) = None ->
  M_expr env e false evs -> M_usage env e u evs.
Proof.
  intros Hb Hw He Ha [_ Hx] s Hs. rewrite with_usage_eq, Hb, Hw.
  assert (Hal : aliases s = env_aliases env) by by rewrite <- Hs.
  rewrite Hal. destruct e; rewrite ?Ha; try (by apply Hx). exfalso. by eapply He.
Qed.

Lemma fields_cons_case env name value span fields u evs evs' :
  M_usage env value (usage_project_record_field u name) evs -> M_fields env fields u evs' ->
  M_fields env (mkFieldInit name value span :: fields) u (evs ++ evs').
Proof.
  intros Hu Hr s Hs Hok. cbn in Hok |- *.
  eapply parts_trans; [by intros ?%andb_true_iff|by intros ?%andb_true_iff|apply keeps_guards, usage_keeps| |].
  - apply Hu; [done|]. by eapply collect_fields_ok.
  - apply Hr; [|done]. destruct (usage_keeps value (usage_project_record_field u name) s) as [-> _]. done.
Qed.

(** *** Statements *)

Lemma tail_case env e evs : M_expr env e false evs -> M_stmts env [] (Some e) evs env.
Proof.
  intros [Hf He] sp. split; [done|]. split; [apply env_le_refl|]. intros s Hs.
  split; [by rewrite <- Hs; apply collect_env|]. intros Hok. by apply He.
Qed.

Lemma end_case env : M_stmts env [] None [] env.
Proof. intros sp. split; [done|]. split; [apply env_le_refl|]. intros s Hs. split; [done|]. intros _. apply parts_refl. Qed.

(** A statement that leads from [s] to [s1], and the rest of the body. *)
Lemma stmt_case env env1 env' stmt rest tail sp evs evs' (step : Checker -> Checker) c t :
  (forall s, collect_body_moves ctx (mkBody (stmt :: rest) tail sp) s
             = collect_body_moves ctx (mkBody rest tail sp) (step s)) ->
  (body_falls_through (mkBody rest tail sp) = true -> body_falls_through (mkBody (stmt :: rest) tail sp) = true) ->
  (body_all covered_form (mkBody (stmt :: rest) tail sp) = c && body_all covered_form (mkBody rest tail sp)) ->
  (body_all not_branch (mkBody (stmt :: rest) tail sp) = t && body_all not_branch (mkBody rest tail sp)) ->
  env_le env env1 ->
  (forall s, env_of s = env -> env_of (step s) = env1 /\ guards s (step s) /\
     (ok (step s) = true -> parts c t s (step s) evs)) ->
  M_stmts env1 rest tail evs' env' -> M_body env (mkBody (stmt :: rest) tail sp) (evs ++ evs') env'.
Proof.
  intros Hstep Hfalls Hc Ht Hle Hs1 Hrest. destruct (Hrest sp) as (Hf & Hle' & Hr).
  split; [auto|]. split; [by eapply env_le_trans|]. intros s Hs. rewrite Hstep.
  destruct (Hs1 s Hs) as (He1 & Hg & Hp). destruct (Hr (step s) He1) as [He' Hp']. split; [done|].
  intros Hok. rewrite Hc, Ht.
  eapply parts_trans; [by intros ?%andb_true_iff|by intros ?%andb_true_iff|exact Hg| |by apply Hp'].
  apply Hp. by apply (body_extends _ _ Hok).
Qed.

Lemma bind_local_env mutable name value s :
  env_of (bind_local ctx mutable name value s) = bind_env ctx mutable name value (env_of s).
Proof.
  unfold bind_local, bind_env, env_of. rewrite Hmode. destruct mutable; cbn;
    destruct (locals s !! name); try done; by destruct (expr_type _ _ _ _).
Qed.

Lemma bind_env_le mutable name value env : env_le env (bind_env ctx mutable name value env).
Proof.
  unfold bind_env. split; cbn.
  - destruct (env_locals env !! name); [done|]. destruct (expr_type _ _ _ _); [|done]. set_solver.
  - destruct mutable; set_solver.
Qed.

(** A binding forgets what was moved out of its name. *)
Lemma bound_inv M x s s' :
  first_moves s' = first_moves s -> (forall r, r ∈ dom (locals s') -> r = x \/ r ∈ dom (locals s)) ->
  Inv M s -> Inv (List.filter (fun m => negb (String.eqb (fst m) x)) M) s'.
Proof.
  intros Hm Hl HM r p [Hin Hne]%filter_In Hd. cbn in Hne. rewrite Hm.
  destruct (Hl r Hd) as [->|Hd']; [by rewrite String.eqb_refl in Hne|]. by apply HM.
Qed.

Lemma bind_parts c t mutable name value s :
  parts c t s (bind_local ctx mutable name value s) [Bound name].
Proof.
  split; intros _.
  - intros M HM. eexists. split; [done|]. eapply bound_inv; [| |exact HM].
    + unfold bind_local. destruct mutable; cbn; destruct (locals s !! name); try done; by destruct (expr_type _ _ _ _).
    + intros r. unfold bind_local. destruct mutable; cbn; destruct (locals s !! name); cbn; auto;
        destruct (expr_type _ _ _ _); cbn; auto; rewrite dom_insert; set_solver.
  - intros P _ r p [[=]|[]].
Qed.

Lemma let_case env mutable name value span rest tail evs evs' env' :
  M_expr env value false evs -> M_stmts (bind_env ctx mutable name value env) rest tail evs' env' ->
  M_stmts env (S_Let mutable name value span :: rest) tail (evs ++ Bound name :: evs') env'.
Proof.
  intros [Hf He] Hr sp. change (Bound name :: evs') with ([Bound name] ++ evs'). rewrite app_assoc.
  eapply (stmt_case _ _ _ _ _ _ _ _ _
    (fun s => bind_local ctx mutable name value (collect ctx value false s)) (cov value) (strt value));
    [done|done| | |apply bind_env_le| |exact Hr]; [cbn; by rewrite andb_assoc..|].
  intros s Hs. split; [by rewrite bind_local_env, collect_env, Hs|].
  assert (Hg : guards (collect ctx value false s) (bind_local ctx mutable name value (collect ctx value false s))).
  { apply env_le_guards; [rewrite bind_local_env; apply bind_env_le|].
    apply (bind_local_step ctx mutable name value). }
  split; [intros P HP; apply Hg, (keeps_guards _ _ (collect_keeps _ _ _)), HP|].
  intros Hok. eapply parts_trans; [by intros Hc; split; exact Hc|by intros Hc; split; exact Hc|
    apply keeps_guards, collect_keeps| |apply bind_parts].
  apply He; [done|]. by apply (bind_local_step ctx mutable name value).
Qed.

Lemma target_keeps target s : step_ok s (collect_assign_target (collect ctx) target s).
Proof. destruct target; try apply step_refl. apply (proj1 (collect_structure ctx)). Qed.

Lemma target_index_case env base index span evs :
  M_expr env index false evs -> M_target env (E_Index base index span) evs.
Proof.
  intros [_ He] s Hs Hok. eapply parts_weaken; [| |by apply He].
  - intros Hc. eapply expr_all_sub; [exact Hc|]. cbn. auto.
  - intros Hc. eapply expr_all_sub; [exact Hc|]. cbn. auto.
Qed.

Lemma target_other_case env e :
  (forall base index span, e <> E_Index base index span) -> M_target env e [].
Proof. intros He s Hs Hok. destruct e; try apply parts_refl. exfalso. by eapply He. Qed.

Lemma assign_case env target value span rest tail evs evs' evs'' env' :
  M_target env target evs -> M_expr env value false evs' -> M_stmts env rest tail evs'' env' ->
  M_stmts env (S_Assign target value span :: rest) tail (evs ++ evs' ++ evs'') env'.
Proof.
  intros Ht [Hf He] Hr sp. rewrite app_assoc.
  eapply (stmt_case env env _ _ _ _ _ _ _
    (fun s => collect ctx value false (collect_assign_target (collect ctx) target s))
    (cov target && cov value) (strt target && strt value)); [done|done| | |apply env_le_refl| |exact Hr];
    [cbn; by rewrite !andb_assoc..|].
  intros s Hs. destruct (target_keeps target s) as [Hk _].
  split; [rewrite collect_env; destruct Hk as [-> _]; done|].
  split; [apply keeps_guards; eapply keeps_trans; [exact Hk|apply collect_keeps]|].
  intros Hok. eapply parts_trans; [by intros ?%andb_true_iff|by intros ?%andb_true_iff|by apply keeps_guards| |].
  - apply Ht; [done|]. by apply (collect_extends value false).
  - apply He; [destruct Hk as [-> _]; done|done].
Qed.

Lemma stmt_expr_case env e span rest tail evs evs' env' :
  M_expr env e false evs -> M_stmts env rest tail evs' env' ->
  M_stmts env (S_Expr e span :: rest) tail (evs ++ evs') env'.
Proof.
  intros [Hf He] Hr sp.
  eapply (stmt_case env env _ _ _ _ _ _ _ (collect ctx e false) (cov e) (strt e));
    [| | | |apply env_le_refl| |exact Hr]; [|cbn; by rewrite Hf|cbn; by rewrite andb_assoc..|].
  - intros s. cbn. by rewrite Hf.
  - intros s Hs. split; [by rewrite collect_env|]. split; [apply keeps_guards, collect_keeps|]. by apply He.
Qed.

Lemma body_guards env b evs env' s :
  M_body env b evs env' -> env_of s = env -> guards s (collect_body_moves ctx b s).
Proof.
  intros (_ & Hle & Hb) Hs. apply env_le_guards; [|apply body_protected].
  destruct (Hb s Hs) as [-> _]. by rewrite Hs.
Qed.

Lemma arena_case env b span rest tail evs evs' env1 env' :
  M_body env b evs env1 -> M_stmts env1 rest tail evs' env' ->
  M_stmts env (S_WithArena b span :: rest) tail (evs ++ evs') env'.
Proof.
  intros Hb Hr sp. pose proof (fun s => body_guards _ _ _ _ s Hb) as Hg. destruct Hb as (Hf & Hle & Hb).
  unfold body_falls_through in Hf.
  eapply (stmt_case env env1 _ _ _ _ _ _ _ (collect_body_moves ctx b)
    (body_all covered_form b) (body_all not_branch b));
    [| | | |done| |exact Hr]; [|cbn; by rewrite Hf|cbn; by rewrite andb_assoc..|].
  - intros s. cbn. unfold body_falls_through. by rewrite Hf.
  - intros s Hs. destruct (Hb s Hs) as [He Hp]. split; [done|]. split; [by apply Hg|done].
Qed.

(** *** Loops *)

Lemma repeat_checker_env binding s :
  env_of (repeat_checker binding s) = fst (round_env binding (env_of s)).
Proof. by destruct binding. Qed.

(** In a loop body every local of the surrounding scope is guarded. *)
Lemma loop_guarded s inner :
  (forall r, r ∈ dom (locals s) -> r ∈ dom (locals inner)) -> mutable_locals inner = mutable_locals s ->
  protected_roots inner = loop_protected s -> guarded (dom (locals s)) inner.
Proof.
  intros Hl Hm Hp r Hr. split; [by apply Hl|]. rewrite Hm, Hp.
  unfold loop_protected. destruct (decide (r ∈ mutable_locals s)); [by left|right]. set_solver.
Qed.

Lemma no_moves_guarded P s evs : no_moves (dom (locals s)) evs -> guarded P s -> no_moves P evs.
Proof. intros Hn HP r p Hin Hr. by apply (Hn r p Hin), HP. Qed.

(** After a round, what is in scope of the loop was moved before it. *)
Lemma round_inv M M' evs s :
  run M evs = Some M' -> no_moves (dom (locals s)) evs -> Inv M s -> Inv M' s.
Proof.
  intros Hr Hn HM r p Hin Hd. destruct (run_moved _ _ _ _ Hr Hin) as [H|H]; [by apply HM|].
  cbn in H. exfalso. by apply (Hn r p).
Qed.

(** One round, and the rounds after it. *)
Lemma rounds_parts c t s evs evs' :
  (c = true -> forall M, Inv M s -> is_Some (run M evs)) -> (c = true -> t = true) ->
  (t = true -> no_moves (dom (locals s)) evs) -> parts c t s s evs' -> parts c t s s (evs ++ evs').
Proof.
  intros Hs Hct Hn [Hs' Hn']. split.
  - intros Hc M HM. rewrite run_app. destruct (Hs Hc M HM) as [M1 E]. rewrite E. cbn.
    apply Hs'; [done|]. eapply round_inv; [exact E|by apply Hn, Hct|done].
  - intros Ht P HP. apply no_moves_app; [|by apply Hn']. eapply no_moves_guarded; [by apply Hn|done].
Qed.

Lemma rounds_more_case env binding b evs evs' env' :
  M_body (fst (round_env binding env)) b evs env' -> M_rounds env binding b evs' ->
  M_rounds env binding b (snd (round_env binding env) ++ evs ++ evs').
Proof.
  intros (_ & _ & Hb) Hr s Hs Hok. rewrite app_assoc.
  destruct (Hb (repeat_checker binding s)) as [_ Hp]; [by rewrite repeat_checker_env, Hs|].
  destruct (Hp Hok) as [Hsound Hmoves]. clear Hp Hb.
  apply rounds_parts; [| |  |by apply Hr].
  - intros [Hcov Hst]%andb_true_iff M HM. rewrite run_app.
    assert (HM1 : exists M1, run M (snd (round_env binding env)) = Some M1 /\ Inv M1 (repeat_checker binding s)).
    { destruct binding as [x|]; cbn; eexists; (split; [reflexivity|]).
      - eapply bound_inv; [| |exact HM]; [done|]. cbn. intros r. rewrite dom_insert. set_solver.
      - intros r p Hin. by apply HM. }
    destruct HM1 as (M1 & -> & HM1). cbn. destruct (Hsound Hcov M1 HM1) as (M2 & E2 & _). by rewrite E2.
  - by intros [_ ?]%andb_true_iff.
  - intros Hst. apply no_moves_app.
    + intros r p. destruct binding; cbn; [intros [[=]|[]] | intros []].
    + apply Hmoves; [done|]. apply loop_guarded; destruct binding; try done.
      cbn. intros r Hd. rewrite dom_insert. set_solver.
Qed.

Lemma rounds_end_case env binding b : M_rounds env binding b [].
Proof. intros s _ _. apply parts_refl. Qed.

Lemma while_checker_env c s : env_of (while_checker c s) = env_of s.
Proof. unfold while_checker. by rewrite collect_env. Qed.

(** The condition of a round. *)
Lemma while_condition env c b s evs :
  M_expr env c true evs -> env_of s = env -> ok (collect_body_moves ctx b (while_checker c s)) = true ->
  parts (cov c) (strt c) (nested (loop_protected s) s) (while_checker c s) evs.
Proof. intros [_ He] Hs Hok. apply He; [done|]. by apply (body_extends _ _ Hok). Qed.

Lemma nested_loop_guarded s : guarded (dom (locals s)) (nested (loop_protected s) s).
Proof. by apply loop_guarded. Qed.

Lemma while_end_case env c b evs : M_expr env c true evs -> M_while env c b evs.
Proof.
  intros He s Hs Hok. destruct (while_condition _ _ _ _ _ He Hs Hok) as [Hsound Hmoves].
  rewrite <- (app_nil_r evs). apply rounds_parts; [| | |apply parts_refl].
  - intros [[Hc _]%andb_true_iff _]%andb_true_iff M HM. destruct (Hsound Hc M) as (M1 & E & _); [|by rewrite E].
    intros r p Hin. by apply HM.
  - rewrite !andb_true_iff. tauto.
  - intros [Hst _]%andb_true_iff. by apply Hmoves; [|apply nested_loop_guarded].
Qed.

Lemma while_more_case env c b evs evs' evs'' env' :
  M_expr env c true evs -> M_body env b evs' env' -> M_while env c b evs'' ->
  M_while env c b (evs ++ evs' ++ evs'').
Proof.
  intros He (_ & _ & Hb) Hw s Hs Hok. rewrite app_assoc.
  destruct (while_condition _ _ _ _ _ He Hs Hok) as [Hsound Hmoves].
  destruct (Hb (while_checker c s)) as [_ Hp]; [by rewrite while_checker_env|].
  destruct (Hp Hok) as [Hsound' Hmoves']. clear Hp Hb.
  apply rounds_parts; [| | |by apply Hw].
  - rewrite !andb_true_iff. intros [[Hc _] [Hcb _]] M HM. rewrite run_app.
    destruct (Hsound Hc M) as (M1 & -> & HM1); [by intros r p Hin; apply HM|]. cbn.
    destruct (Hsound' Hcb M1 HM1) as (M2 & -> & _). done.
  - rewrite !andb_true_iff. tauto.
  - intros [Hst Hsb]%andb_true_iff. apply no_moves_app; [by apply Hmoves; [|apply nested_loop_guarded]|].
    apply Hmoves'; [done|]. apply (keeps_guards (nested (loop_protected s) s)), nested_loop_guarded.
    apply collect_keeps.
Qed.

(** *** Control *)

(** The body of a branch, whose moves a union keeps. *)
Lemma branch_sound env b evs env' s inner final :
  M_body env b evs env' -> env_of inner = env -> first_moves inner = first_moves s ->
  (forall r, r ∈ dom (locals s) -> r ∈ dom (locals inner)) -> dom (locals final) ⊆ dom (locals s) ->
  ok (collect_body_moves ctx b inner) = true -> body_all covered_form b = true ->
  (forall c, covered_by (first_moves s) c \/
     (exists m, In m (branch_moves (first_moves s) b (collect_body_moves ctx b inner)) /\
        starts_with (snd c) (move_path m) = true /\ move_root m = fst c) ->
   covered_by (first_moves final) c) ->
  forall M, Inv M inner -> exists M', run M evs = Some M' /\ Inv M' final.
Proof.
  intros (Hf & Hle & Hb) He Hm Hdom Hfin Hok Hc Hcov M HM. destruct (Hb inner He) as [He' Hp].
  destruct (Hp Hok) as [Hsound _]. destruct (Hsound Hc M HM) as (M' & E & HM'). exists M'. split; [done|].
  intros r p Hin Hd. apply Hfin, Hdom in Hd.
  destruct (body_extends b inner Hok) as (_ & new & Enew & _).
  assert (Hcb : covered_by (first_moves inner ++ new) (r, p)).
  { rewrite <- Enew. apply HM'; [done|].
    assert (El : locals (collect_body_moves ctx b inner) = env_locals env') by by rewrite <- He'.
    rewrite El. apply Hle. rewrite <- He. exact Hd. }
  apply Hcov. destruct Hcb as (x & [Hx|Hx]%in_app_iff & Hxr & Hxp).
  - left. exists x. by rewrite <- Hm.
  - right. exists x. split_and!; [|done|done]. unfold branch_moves. rewrite Hf, Enew, Hm, drop_app_length. done.
Qed.

Definition if_result (tb eb : Body) (s : Checker) : Checker :=
  let then_checker := collect_body_moves ctx tb (nested ∅ s) in
  let else_checker := collect_body_moves ctx eb (nested ∅ s) in
  union_moves (branch_moves (first_moves s) eb else_checker)
    (union_moves (branch_moves (first_moves s) tb then_checker) (absorb else_checker (absorb then_checker s))).

Lemma if_ok tb eb s :
  ok (if_result tb eb s) = true ->
  ok s = true /\ ok (collect_body_moves ctx tb (nested ∅ s)) = true /\
  ok (collect_body_moves ctx eb (nested ∅ s)) = true.
Proof. intros [[]%absorb_ok ]%absorb_ok. done. Qed.

Lemma if_case env c tb eb span b evs evs' env' (branch : bool) :
  M_expr env c true evs -> M_body env (if branch then tb else eb) evs' env' ->
  M_expr env (E_If c tb eb span) b (evs ++ evs').
Proof.
  intros [_ He] Hb. split.
  { cbn. destruct Hb as (Hf & _). unfold body_falls_through in Hf. destruct branch; rewrite Hf; [done|].
    by rewrite orb_true_r. }
  intros s Hs Hok. change (collect ctx (E_If c tb eb span) b s) with (if_result tb eb (collect ctx c true s)) in *.
  destruct (if_ok _ _ _ Hok) as (Hok1 & Hokt & Hoke). set (s1 := collect ctx c true s) in *.
  assert (Hs1 : env_of s1 = env) by by unfold s1; rewrite collect_env.
  split; [|intros Hst; apply expr_all_head in Hst; discriminate Hst]. intros Hc.
  assert (Hcb : body_all covered_form (if branch then tb else eb) = true).
  { eapply expr_all_body; [exact Hc|]. destruct branch; cbn; auto. }
  eapply (sound_trans s s1).
  { apply He; [done|done|]. eapply expr_all_sub; [exact Hc|by left]. }
  intros M HM. assert (Hsub : forall x, covered_by (first_moves s1) x -> covered_by (first_moves (if_result tb eb s1)) x).
  { intros x Hx. apply union_moves_covers. left. apply union_moves_covers. by left. }
  apply (branch_sound env _ evs' env' s1 (nested ∅ s1) (if_result tb eb s1) Hb); [done|done|done|done| |done| |done].
  - by destruct branch.
  - intros x [Hx|Hx]; [by apply Hsub|]. destruct Hx as (m & Hm & Hms & Hmr). destruct branch.
    + apply union_moves_covers. left. apply union_moves_covers. right. by exists m.
    + apply union_moves_covers. right. by exists m.
Qed.

Lemma arm_checker_env scrutinee pattern s :
  env_of (arm_checker ctx scrutinee pattern s) = fst (arm_env ctx scrutinee pattern (env_of s)).
Proof.
  unfold arm_checker, arm_env. cbn.
  destruct (match_arm_payload_binding _ _ _ _ _) as [[]|]; [|done].
  by destruct (payload_alias_for_scrutinee _ _).
Qed.

(** The event of the binding of an arm. *)
Lemma arm_bound scrutinee pattern s M :
  Inv M s -> exists M1, run M (snd (arm_env ctx scrutinee pattern (env_of s))) = Some M1 /\
    Inv M1 (arm_checker ctx scrutinee pattern s).
Proof.
  intros HM. destruct (arm_checker_moves ctx scrutinee pattern s) as (Hm & _ & _).
  pose proof (arm_checker_env scrutinee pattern s) as He. unfold arm_env in *. cbn in *.
  destruct (match_arm_payload_binding _ _ _ _ _) as [[x ty]|]; cbn in *; eexists; (split; [reflexivity|]).
  - eapply bound_inv; [exact Hm| |exact HM]. injection He as El _ _. rewrite El. intros r.
    rewrite dom_insert. set_solver.
  - injection He as El _ _. intros r p Hin. rewrite El, Hm. by apply HM.
Qed.

Lemma arm_locals scrutinee pattern s r :
  r ∈ dom (locals s) -> r ∈ dom (locals (arm_checker ctx scrutinee pattern s)).
Proof.
  intros Hr. unfold arm_checker. destruct (match_arm_payload_binding _ _ _ _ _) as [[x ty]|]; [|done].
  destruct (payload_alias_for_scrutinee _ _); cbn; rewrite dom_insert; set_solver.
Qed.

Lemma match_arm_keeps scrutinee base l s :
  keeps s (fold_left (match_arm ctx scrutinee base) l s).
Proof.
  revert s. induction l as [|[pt b sp] l IH]; intros s; [done|]. cbn. eapply keeps_trans; [|apply IH]. done.
Qed.

Lemma match_arm_covers scrutinee base l s c :
  covered_by (first_moves s) c -> covered_by (first_moves (fold_left (match_arm ctx scrutinee base) l s)) c.
Proof.
  revert s. induction l as [|[pt b sp] l IH]; intros s Hc; [done|]. cbn. apply IH.
  apply union_moves_covers. by left.
Qed.

Lemma match_arm_ok scrutinee base l s :
  ok (fold_left (match_arm ctx scrutinee base) l s) = true -> ok s = true.
Proof. apply fold_ok. intros s' [pt b sp] _ [Hok _]%absorb_ok. done. Qed.

Lemma match_case env scrutinee arms span b pattern body arm_span evs evs' env' :
  M_expr env scrutinee true evs -> In (mkMatchArm pattern body arm_span) arms ->
  M_body (fst (arm_env ctx scrutinee pattern env)) body evs' env' ->
  M_expr env (E_Match scrutinee arms span) b (evs ++ snd (arm_env ctx scrutinee pattern env) ++ evs').
Proof.
  intros [_ He] Hin Hb. split.
  { cbn. apply existsb_exists. eexists. split; [exact Hin|]. apply Hb. }
  intros s Hs Hok.
  change (collect ctx (E_Match scrutinee arms span) b s) with
    (fold_left (match_arm ctx scrutinee (first_moves (collect ctx scrutinee true s))) arms
       (collect ctx scrutinee true s)) in *.
  set (s1 := collect ctx scrutinee true s) in *. set (base := first_moves s1) in *.
  assert (Hs1 : env_of s1 = env) by by unfold s1; rewrite collect_env.
  pose proof (match_arm_ok _ _ _ _ Hok) as Hok1.
  split; [|intros Hst; apply expr_all_head in Hst; discriminate Hst]. intros Hc.
  eapply (sound_trans s s1).
  { apply He; [done|done|]. eapply expr_all_sub; [exact Hc|by left]. }
  intros M HM. assert (Hcb : body_all covered_form body = true).
  { eapply expr_all_body; [exact Hc|]. apply (in_map arm_body _ _ Hin). }
  apply in_split in Hin as (l1 & l2 & ->). rewrite fold_left_app in *. cbn [fold_left] in *.
  set (s2 := fold_left (match_arm ctx scrutinee base) l1 s1) in *.
  assert (Hk2 : keeps s1 s2) by apply match_arm_keeps.
  pose proof (match_arm_ok _ _ _ _ Hok) as Hoka. apply absorb_ok in Hoka as [Hok2 Hoki].
  assert (Hs2 : env_of (set_moves base s2) = env) by (destruct Hk2 as [E _]; rewrite <- Hs1; exact E).
  assert (HM2 : Inv M (set_moves base s2)).
  { intros r p Hr. injection (eq_trans Hs2 (eq_sym Hs1)) as El _ _. cbn. rewrite El. by apply HM. }
  destruct (arm_bound scrutinee pattern _ M HM2) as (M1 & E1 & HM1). rewrite Hs2 in E1.
  rewrite run_app, E1. cbn [mbind option_bind].
  set (inner := arm_checker ctx scrutinee pattern (set_moves base s2)) in *.
  destruct (arm_checker_moves ctx scrutinee pattern (set_moves base s2)) as (Hmi & _ & _).
  eapply (branch_sound _ _ evs' env' s1 inner); [exact Hb| |exact Hmi| | |exact Hoki|done| |exact HM1].
  - unfold inner. by rewrite arm_checker_env, Hs2.
  - intros r Hr. apply arm_locals. injection (eq_trans Hs2 (eq_sym Hs1)) as El _ _. cbn. by rewrite El.
  - match goal with |- dom (locals (fold_left _ _ ?x)) ⊆ _ =>
      assert (Hk : keeps s1 (fold_left (match_arm ctx scrutinee base) l2 x)) end.
    { eapply keeps_trans; [exact Hk2|]. eapply keeps_trans; [|apply match_arm_keeps]. done. }
    destruct Hk as [E _]. injection E as El _ _. intros r. rewrite <- El. done.
  - intros x Hx. apply match_arm_covers. apply union_moves_covers. destruct Hx as [Hx|Hx]; [left|by right].
    by apply match_arm_covers.
Qed.

Lemma repeat_case env binding count body span b evs evs' :
  M_expr env count true evs -> M_rounds env binding body evs' ->
  M_expr env (E_Repeat binding count body span) b (evs ++ evs').
Proof.
  intros [_ He] Hr. split; [done|]. intros s Hs Hok.
  change (collect ctx (E_Repeat binding count body span) b s) with
    (absorb (collect_body_moves ctx body (repeat_checker binding (collect ctx count true s)))
       (collect ctx count true s)) in *.
  apply absorb_ok in Hok as [Hok1 Hoki].
  assert (Hs1 : env_of (collect ctx count true s) = env) by by rewrite collect_env.
  eapply (parts_trans _ _ (cov count) (strt count) (body_all covered_form body && body_all not_branch body)
    (body_all not_branch body)); [| |apply keeps_guards, collect_keeps|by apply He|].
  - intros Hc. split; [eapply expr_all_sub; [exact Hc|by left]|].
    assert (body_all covered_form body = true) as -> by (eapply expr_all_body; [exact Hc|by left]).
    apply expr_all_head in Hc. exact Hc.
  - intros Hc. split; [eapply expr_all_sub; [exact Hc|by left]|]. eapply expr_all_body; [exact Hc|by left].
  - destruct (Hr _ Hs1 Hoki) as [Hsound Hmoves]. split; [|done].
    intros Hc M HM. destruct (Hsound Hc M HM) as (M' & E & HM'). exists M'. split; [done|].
    by eapply Inv_same; [| |exact HM'].
Qed.

Lemma while_case env c body span b evs :
  M_while env c body evs -> M_expr env (E_While c body span) b evs.
Proof.
  intros Hw. split; [done|]. intros s Hs Hok.
  change (collect ctx (E_While c body span) b s) with (absorb (collect_body_moves ctx body (while_checker c s)) s) in *.
  apply absorb_ok in Hok as [Hok1 Hoki]. destruct (Hw s Hs Hoki) as [Hsound Hmoves]. split.
  - intros Hc M HM. assert (Hc' : cov c && strt c && (body_all covered_form body && body_all not_branch body) = true).
    { assert (cov c = true) as -> by (eapply expr_all_sub; [exact Hc|by left]).
      assert (body_all covered_form body = true) as -> by (eapply expr_all_body; [exact Hc|by left]).
      apply expr_all_head in Hc. exact Hc. }
    destruct (Hsound Hc' M HM) as (M' & E & HM'). exists M'. split; [done|]. by eapply Inv_same; [| |exact HM'].
  - intros Hc. apply Hmoves. assert (strt c = true) as -> by (eapply expr_all_sub; [exact Hc|by left]).
    eapply expr_all_body; [exact Hc|by left].
Qed.

Lemma uncovered_case env e b evs :
  expr_falls_through e = true -> covered_form e = false -> not_branch e = false -> M_expr env e b evs.
Proof.
  intros Hf Hc Hn. split; [done|]. intros s _ _. split; [|intros Hst; apply expr_all_head in Hst; congruence].
  intros Ha. apply expr_all_head in Ha. congruence.
Qed.

(** Every path is covered. *)
Lemma paths_covered env b evs env' : body_path ctx env b evs env' -> M_body env b evs env'.
Proof.
  revert env b evs env'.
  apply (path_ind10 ctx M_expr M_exprs M_args M_usage M_fields M_body M_stmts M_target M_rounds M_while).
  - intros. by apply plain_case.
  - intros. by eapply call_case.
  - intros. by apply (if_case _ _ _ _ _ _ _ _ env' true).
  - intros. by apply (if_case _ _ _ _ _ _ _ _ env' false).
  - intros. by eapply match_case.
  - intros. by apply repeat_case.
  - intros. by apply while_case.
  - intros env b borrow evs env' _ (Hf & _). by apply uncovered_case.
  - intros. by apply uncovered_case.
  - intros env. split; [done|]. intros s _ _. apply parts_refl.
  - intros. by apply exprs_cons_case.
  - intros env usages s _ _. apply parts_refl.
  - intros. by apply args_usage_case.
  - intros. by apply args_whole_case.
  - intros. by apply usage_borrow_case.
  - intros. by apply usage_whole_case.
  - intros. by apply usage_record_case.
  - intros. by apply usage_access_case.
  - intros. by apply usage_other_case.
  - intros env usage s _ _. apply parts_refl.
  - intros. by apply fields_cons_case.
  - intros env stmts tail span evs env' _ Hs. apply Hs.
  - intros. apply end_case.
  - intros. by apply tail_case.
  - intros. by apply let_case.
  - intros. by apply assign_case.
  - intros. by apply stmt_expr_case.
  - intros. by eapply arena_case.
  - intros. by apply target_index_case.
  - intros. by apply target_other_case.
  - intros. apply rounds_end_case.
  - intros. by eapply rounds_more_case.
  - intros. by apply while_end_case.
  - intros. by eapply while_more_case.
Qed.
End Main.
