(* ===== verification/OwnershipSpec.v ===== *)
(** * Affine ownership: properties

    What the checker guarantees on the part of the language it covers, where it
    accepts or rejects too much, and a module on which the inference of
    parameter modes does not end. *)
From stdpp Require Import gmap.
From S2P Require Import Prelude Syntax Hir SemType Ownership ParamModes OwnershipSound.
From S2P Require Import OwnershipSafe.

Open Scope nat_scope.

(** ** Events in a row *)

(** What [run] accepts moves no two overlapping paths of a root between two
    bindings of it. *)
Lemma run_linear M pre mid post r p q :
  is_Some (run M (pre ++ Moved r p :: mid ++ Moved r q :: post)) -> ~ In (Bound r) mid ->
  paths_overlap p q = false.
Proof.
  intros [M' Hrun] Hmid. rewrite run_app in Hrun. destruct (run M pre) as [M1|]; [|done].
  cbn in Hrun. destruct (existsb (move_overlaps r p) M1); [done|].
  assert (Hin : In (r, p) ((r, p) :: M1)) by by left.
  revert Hin Hrun. generalize ((r, p) :: M1) as N. clear M1.
  induction mid as [|ev mid IH]; intros N Hin; cbn [app].
  - cbn. destruct (existsb (move_overlaps r q) N) eqn:E; [done|]. intros _.
    apply not_true_iff_false. intros Ho. apply not_true_iff_false in E. apply E.
    apply existsb_exists. exists (r, p). split; [done|]. unfold move_overlaps. cbn.
    by rewrite String.eqb_refl.
  - assert (Hm : ~ In (Bound r) mid) by (intros H; apply Hmid; by right).
    destruct ev as [r' p'|x]; cbn [run].
    + destruct (existsb (move_overlaps r' p') N); [done|]. intros Hrun. eapply (IH Hm); [|exact Hrun]. by right.
    + intros Hrun. eapply (IH Hm); [|exact Hrun]. apply filter_In. split; [done|]. cbn.
      apply negb_true_iff, String.eqb_neq. intros ->. apply Hmid. by left.
Qed.

(** The environment a body starts in. *)
Definition start_env (ls : Locals) : PathEnv := mkPathEnv ls ∅ ∅.

Definition body_context (functions : gmap string FunctionSignature) (enum_variants : EnumVariants)
    (struct_fields : StructFields) (struct_layouts : StructLayouts) (name : string) : CheckerContext :=
  mkCheckerContext functions enum_variants struct_fields struct_layouts name Mode_Body.

(** C13: a body that the ownership check accepts, and whose loops do not branch
    and that has no handler and no comptime block, consumes no access path of a
    parameter or an immutable local twice along any path through it: between two
    overlapping moves the local is bound again.  Moves out of mutable locals are
    not followed, neither by the check nor here ([affine_check_misses]). *)
Theorem affine_body_sound body ls functions enum_variants struct_fields struct_layouts name ds evs env' :
  check_affine_body_ownership body ls functions enum_variants struct_fields struct_layouts name = (true, ds) ->
  body_covered body = true ->
  body_path (body_context functions enum_variants struct_fields struct_layouts name) (start_env ls) body evs env' ->
  forall pre mid post r p q,
    evs = pre ++ Moved r p :: mid ++ Moved r q :: post -> ~ In (Bound r) mid -> paths_overlap p q = false.
Proof.
  intros Hcheck Hcov Hpath pre mid post r p q -> Hmid.
  set (ctx := body_context functions enum_variants struct_fields struct_layouts name) in *.
  destruct (paths_covered ctx eq_refl _ _ _ _ Hpath) as (_ & _ & Hb).
  destruct (Hb (new_checker ls) eq_refl) as [_ Hp].
  assert (Hok : ok (collect_body_moves ctx body (new_checker ls)) = true).
  { unfold check_affine_body_ownership in Hcheck. by injection Hcheck. }
  destruct (Hp Hok) as [Hsound _]. destruct (Hsound Hcov []) as (M' & E & _); [by intros ???|].
  by eapply (run_linear []); [rewrite E|].
Qed.

(** ** Sample bodies *)

Definition no_span : Span := mkSpan 0 0.
Definition var (x : string) : Expr := E_Name x no_span.
Definition call (f : string) (args : list Expr) : Expr := E_Call f args no_span.
Definition block (stmts : list Stmt) (tail : option Expr) : Body := mkBody stmts tail no_span.
Definition stmt (e : Expr) : Stmt := S_Expr e no_span.
Definition number (n : Z) : Expr := E_Integer n no_span.

(** [eat(t: Text)] consumes its argument. *)
Definition eat_signature : FunctionSignature :=
  mkFunctionSignature ∅ [("t", T_Text, no_span)] [usage_move_whole] T_Unit [] no_span.

Definition sample_functions : gmap string FunctionSignature := {[ "eat" := eat_signature ]}.

Definition text_local : Locals := {[ "s" := T_Text ]}.

(** [let t = s; repeat 3 { let u = text_builder_finish(b()); eat(u) } eat(t)] *)
Definition sample_body : Body :=
  block [S_Let false "t" (var "s") no_span;
         stmt (E_Repeat None (number 3)
           (block [S_Let false "u" (call "text_builder_finish" []) no_span] (Some (call "eat" [var "u"]))) no_span)]
    (Some (E_If (E_Bool true no_span) (block [] (Some (call "eat" [var "t"]))) (block [] None) no_span)).

Definition sample_check (b : Body) : bool * list Diagnostic :=
  check_affine_body_ownership b text_local sample_functions ∅ ∅ ∅ "f".

Definition sample_context : CheckerContext := body_context sample_functions ∅ ∅ ∅ "f".

(** Builds a path, choosing [then] branches and leaving loops to the caller. *)
Ltac path_step :=
  match goal with
  | |- path _ _ (E_If _ _ _ _) _ _ => eapply path_then
  | |- path _ _ (E_Handle _ _) _ _ => eapply path_handle
  | |- path _ _ _ _ _ => first [eapply path_plain; [reflexivity|] | eapply path_call; [reflexivity|]]
  | |- paths _ _ _ _ => first [eapply paths_cons | eapply paths_nil]
  | |- args_path _ _ _ _ _ => first [eapply args_usage | eapply args_nil]
  | |- usage_path _ _ _ _ _ => first [eapply usage_whole; [reflexivity..|] | eapply usage_borrow; [reflexivity|]]
  | |- body_path _ _ _ _ _ => eapply body_stmts
  | |- stmts_path _ _ (_ :: _) _ _ _ => first [eapply stmts_let | eapply stmts_expr]
  | |- stmts_path _ _ [] _ _ _ => first [eapply stmts_tail | eapply stmts_end]
  end.

Ltac build_path := repeat path_step.

(** Two rounds of the loop. *)
Lemma sample_path :
  exists evs env', body_path sample_context (start_env text_local) sample_body evs env' /\
    evs = [Moved "s" []; Bound "t"; Bound "u"; Moved "u" []; Bound "u"; Moved "u" []; Moved "t" []].
Proof.
  eexists _, _. split.
  - build_path. eapply path_repeat; [build_path|].
    eapply rounds_more; [build_path|]. eapply rounds_more; [build_path|]. eapply rounds_end.
  - vm_compute. reflexivity.
Qed.

Lemma affine_body_sound_witness :
  fst (sample_check sample_body) = true /\ paths_overlap [] ["x"] = true /\
  exists evs env', body_path sample_context (start_env text_local) sample_body evs env' /\
    forall pre mid post r p q,
      evs = pre ++ Moved r p :: mid ++ Moved r q :: post -> ~ In (Bound r) mid -> paths_overlap p q = false.
Proof.
  split; [vm_compute; reflexivity|]. split; [reflexivity|].
  destruct sample_path as (evs & env' & Hp & _). exists evs, env'. split; [exact Hp|].
  apply (affine_body_sound sample_body text_local sample_functions ∅ ∅ ∅ "f" [] evs env');
    [vm_compute; reflexivity | vm_compute; reflexivity | exact Hp].
Defined.

(** ** Where the checker accepts too much *)

(** [repeat 3 { if true { eat(s) } else { } }] *)
Definition branch_in_loop : Body :=
  block [stmt (E_Repeat None (number 3)
    (block [] (Some (E_If (E_Bool true no_span) (block [] (Some (call "eat" [var "s"]))) (block [] None) no_span)))
    no_span)] None.

(** [handle { eat(s); eat(s) } with { }] *)
Definition handled_twice : Body :=
  block [stmt (E_Handle (block [stmt (call "eat" [var "s"]); stmt (call "eat" [var "s"])] None) [])] None.

(** [let mut t = s; eat(t); eat(t)] *)
Definition mutable_twice : Body :=
  block [S_Let true "t" (var "s") no_span; stmt (call "eat" [var "t"]); stmt (call "eat" [var "t"])] None.

(** The check accepts a loop that consumes a local in every round when the
    move is under a conditional, since the checker of a branch does not know
    the loop's protected locals; it does not look into handled bodies; and it
    follows no mutable local, so that a call that consumes one may be repeated. *)
Theorem affine_check_misses :
  (sample_check branch_in_loop = (true, []) /\
   exists evs env', body_path sample_context (start_env text_local) branch_in_loop evs env' /\
     evs = [Moved "s" []; Moved "s" []]) /\
  (sample_check handled_twice = (true, []) /\
   exists evs env', body_path sample_context (start_env text_local) handled_twice evs env' /\
     evs = [Moved "s" []; Moved "s" []]) /\
  sample_check mutable_twice = (true, []).
Proof.
  split; [|split; [|vm_compute; reflexivity]];
    (split; [vm_compute; reflexivity|]); eexists _, _; (split; [build_path|]).
  - eapply path_repeat; [build_path|]. eapply rounds_more; [build_path|].
    eapply rounds_more; [build_path|]. eapply rounds_end.
  - vm_compute. reflexivity.
  - vm_compute. reflexivity.
Qed.

(** ** Where it rejects too much *)

(** [enum Tail { end, more(Text) }] *)
Definition tail_variants : EnumVariants :=
  {[ "Tail" := [mkEnumVariantInfo "end" None None; mkEnumVariantInfo "more" (Some T_Text) None] ]}.

(** [let a = Tail.end; let b = Tail.end;] *)
Definition two_literals : Body :=
  block [S_Let false "a" (E_Field (var "Tail") "end" no_span) no_span;
         S_Let false "b" (E_Field (var "Tail") "end" no_span) no_span] None.

(** [struct Outer { a: Inner }], [struct Inner { b: Text }] *)
Definition outer_fields : StructFields := {[ "Outer" := [T_Named "Inner"]; "Inner" := [T_Text] ]}.
Definition outer_layouts : StructLayouts :=
  {[ "Outer" := [("a", T_Named "Inner")]; "Inner" := [("b", T_Text)] ]}.

Definition eat_inner : FunctionSignature :=
  mkFunctionSignature ∅ [("i", T_Named "Inner", no_span)] [usage_move_whole] T_Unit [] no_span.

Definition pick_functions : gmap string FunctionSignature := {[ "eat" := eat_signature; "eat_inner" := eat_inner ]}.

(** [fn pick(p: Outer) { if true { eat_inner(p.a) } else { eat(p.a.b) } }] *)
Definition pick_body : Body :=
  let a := E_Field (var "p") "a" no_span in
  block [] (Some (E_If (E_Bool true no_span) (block [] (Some (call "eat_inner" [a])))
    (block [] (Some (call "eat" [E_Field a "b" no_span]))) no_span)).

Definition pick_params : list (string * Type_ * Span) := [("p", T_Named "Outer", no_span)].

Definition pick_usages : list ParamUsage :=
  infer_function_param_modes pick_functions ∅ outer_fields outer_layouts None None (Some pick_body)
    pick_params {[ "p" := T_Named "Outer" ]}.

Definition pick_signature : FunctionSignature :=
  mkFunctionSignature ∅ pick_params pick_usages T_Unit [] no_span.

(** The check rejects bodies that move nothing twice: naming a plain variant
    of an enum with an affine payload twice counts as two moves of the enum's
    name, and a function that moves a field on one branch and a part of it on
    the other has both paths as its usage, so that its every call is a reuse. *)
Theorem affine_check_false_positives :
  (fst (check_affine_body_ownership two_literals ∅ ∅ tail_variants ∅ ∅ "f") = false /\
   exists evs env',
     body_path (body_context ∅ tail_variants ∅ ∅ "f") (start_env ∅) two_literals evs env' /\
     evs = [Bound "a"; Bound "b"]) /\
  pick_usages = [mkParamUsage false [["a"]; ["a"; "b"]]] /\
  fst (check_affine_body_ownership (block [] (Some (call "pick" [var "x"]))) {[ "x" := T_Named "Outer" ]}
         (<["pick" := pick_signature]> pick_functions) ∅ outer_fields outer_layouts "g") = false.
Proof.
  split_and!; [vm_compute; reflexivity| |vm_compute; reflexivity|vm_compute; reflexivity].
  eexists _, _. split; [build_path|]. vm_compute. reflexivity.
Qed.

(** ** Parameter modes *)

(** Its functions, and those of them that have a signature. *)
Definition module_functions (items : HirModule) : list Hir.Function :=
  flat_map (fun item => match item with It_Function f => [f] | _ => [] end) items.

Lemma infer_round_changed ev sf sl items seen functions functions' :
  infer_round ev sf sl items seen true functions = (false, functions') -> False.
Proof.
  revert seen functions. induction items as [|item items IH]; intros seen functions; cbn; [done|].
  destruct item; try apply IH. case_decide; [apply IH|]. destruct (functions !! _); [|apply IH].
  case_decide; apply IH.
Qed.

Lemma infer_round_fixed ev sf sl items seen functions functions' :
  infer_round ev sf sl items seen false functions = (false, functions') ->
  NoDup (map Hir.fn_name (module_functions items)) ->
  (forall f, In f (module_functions items) -> Hir.fn_name f ∉ seen) ->
  functions' = functions /\
  forall f sig, In f (module_functions items) -> functions !! Hir.fn_name f = Some sig ->
    sig_param_usages sig =
      infer_function_param_modes functions ev sf sl (fn_requires f) (fn_ensures f) (fn_body f)
        (sig_params sig) (param_locals sig).
Proof.
  revert seen functions. induction items as [|item items IH]; intros seen functions; cbn; [by intros [= ->]|].
  destruct item as [| f | | | | |]; try apply IH. cbn. intros Hr Hn Hseen. apply NoDup_cons in Hn as [Hni Hn].
  rewrite decide_False in Hr by (apply Hseen; by left).
  assert (Hseen' : forall g, In g (module_functions items) -> Hir.fn_name g ∉ {[Hir.fn_name f]} ∪ seen).
  { intros g Hg. pose proof (Hseen g (or_intror Hg)). apply not_elem_of_union. split; [|done].
    apply not_elem_of_singleton. intros E. apply Hni, list_elem_of_In. rewrite <- E. by apply in_map. }
  destruct (functions !! Hir.fn_name f) as [sig|] eqn:Hsig.
  - case_decide as Heq; [|by apply infer_round_changed in Hr].
    destruct (IH _ _ Hr Hn Hseen') as [-> Hall]. split; [done|]. intros g sig' [<-|Hg] Hg'; [|by apply Hall].
    congruence.
  - destruct (IH _ _ Hr Hn Hseen') as [-> Hall]. split; [done|]. intros g sig' [<-|Hg] Hg'; [|by apply Hall].
    congruence.
Qed.

(** C31: when the inference of parameter modes ends on a module whose functions
    have distinct names, what every signature says of its parameters is what
    its body does with them, given what the signatures say. *)
Theorem infer_param_modes_fixed ev sf sl rounds module functions functions' :
  infer_param_modes ev sf sl rounds module functions = Some functions' ->
  NoDup (map Hir.fn_name (module_functions module)) ->
  forall f sig, In f (module_functions module) -> functions' !! Hir.fn_name f = Some sig ->
    sig_param_usages sig =
      infer_function_param_modes functions' ev sf sl (fn_requires f) (fn_ensures f) (fn_body f)
        (sig_params sig) (param_locals sig).
Proof.
  revert functions. induction rounds as [|rounds IH]; intros functions; cbn; [done|].
  destruct (infer_round _ _ _ _ _ _ _) as [[] functions1] eqn:E; [apply IH|].
  intros [= ->] Hn f sig Hf Hsig. apply infer_round_fixed in E as [-> Hall]; [by apply Hall|done|].
  intros. apply not_elem_of_empty.
Qed.

(** A function of a module, its types as its signature has them. *)
Definition hir_function (name : string) (body : Body) : Item :=
  It_Function (Hir.mkFunction name [] [] None [] None None (Some body) no_span).

Definition fresh_signature (params : list (string * Type_)) : FunctionSignature :=
  mkFunctionSignature ∅ (map (fun '(x, ty) => (x, ty, no_span)) params) (map (fun _ => usage_borrow_only) params)
    T_Unit [] no_span.

(** [fn outer(p: Outer) { inner(p.a) }], [fn inner(i: Inner) -> Text { i.b }] *)
Definition modes_module : HirModule :=
  [hir_function "outer" (block [] (Some (call "inner" [E_Field (var "p") "a" no_span])));
   hir_function "inner" (block [] (Some (E_Field (var "i") "b" no_span)))].

Definition modes_functions : gmap string FunctionSignature :=
  {[ "outer" := fresh_signature [("p", T_Named "Outer")]; "inner" := fresh_signature [("i", T_Named "Inner")] ]}.

Lemma infer_param_modes_fixed_witness :
  exists functions',
    infer_param_modes ∅ outer_fields outer_layouts 4 modes_module modes_functions = Some functions' /\
    option_map sig_param_usages (functions' !! "outer") = Some [mkParamUsage false [["a"; "b"]]] /\
    forall f sig, In f (module_functions modes_module) -> functions' !! Hir.fn_name f = Some sig ->
      sig_param_usages sig =
        infer_function_param_modes functions' ∅ outer_fields outer_layouts (fn_requires f) (fn_ensures f)
          (fn_body f) (sig_params sig) (param_locals sig).
Proof.
  destruct (infer_param_modes ∅ outer_fields outer_layouts 4 modes_module modes_functions) as [fs|] eqn:E;
    [|vm_compute in E; discriminate E].
  exists fs. split; [done|]. split; [vm_compute in E; injection E as <-; reflexivity|].
  apply (infer_param_modes_fixed ∅ outer_fields outer_layouts 4 modes_module modes_functions fs E).
  apply (bool_decide_unpack _). vm_compute. exact I.
Defined.

(** ** A module whose inference does not end *)

(** [struct Node { text: Text, next: Tail }], [enum Tail { end, more(Node) }] *)
Definition node_fields : StructFields := {[ "Node" := [T_Text; T_Named "Tail"] ]}.
Definition node_layouts : StructLayouts := {[ "Node" := [("text", T_Text); ("next", T_Named "Tail")] ]}.
Definition node_variants : EnumVariants :=
  {[ "Tail" := [mkEnumVariantInfo "end" None None; mkEnumVariantInfo "more" (Some (T_Named "Node")) None] ]}.

(** [fn walk(n: Node) { eat(n.text); match n.next { Tail.more(m) => { walk(m) } _ => { } } }] *)
Definition walk_body : Body :=
  block [stmt (call "eat" [E_Field (var "n") "text" no_span])]
    (Some (E_Match (E_Field (var "n") "next" no_span)
      [mkMatchArm (P_Variant (mkTypeRef "Tail.more" no_span) (Some "m") no_span)
         (block [] (Some (call "walk" [var "m"]))) no_span;
       mkMatchArm (P_Wildcard no_span) (block [] None) no_span] no_span)).

Definition walk_module : HirModule := [hir_function "walk" walk_body].

Definition walk_functions (usage : ParamUsage) : gmap string FunctionSignature :=
  <["walk" := set_param_usages [usage] (fresh_signature [("n", T_Named "Node")])]> sample_functions.

(** The path below the parameter after [k] steps along the list. *)
Fixpoint walk_path (k : nat) : list string :=
  match k with 0 => ["text"] | S k => "next" :: MATCH_PAYLOAD_SEGMENT :: walk_path k end.

Definition walk_usage (k : nat) : ParamUsage := mkParamUsage false (map walk_path (seq 0 k)).

Lemma walk_path_apart i j : i <> j -> starts_with (walk_path i) (walk_path j) = false.
Proof.
  revert j. induction i as [|i IH]; intros [|j] Hij; try done.
  change (starts_with (walk_path i) (walk_path j) = false). apply IH. lia.
Qed.

Lemma record_walk_path k : 0 < k -> record_path (walk_path k) (walk_usage k) = walk_usage (S k).
Proof.
  intros Hk. unfold record_path, walk_usage. cbn [move_whole move_fields].
  destruct (walk_path k) as [|a p] eqn:E; [by destruct k|]. rewrite <- E.
  replace (existsb _ _) with false; [by rewrite seq_S, map_app|].
  symmetry. apply not_true_iff_false. intros (q & Hq & Hs)%existsb_exists.
  apply in_map_iff in Hq as (j & <- & Hj%in_seq). apply orb_true_iff in Hs as [Hs|Hs];
    (rewrite walk_path_apart in Hs by lia; done).
Qed.

Lemma record_walk_paths k n :
  0 < n ->
  fold_left (fun entry path => record_path (["next"; MATCH_PAYLOAD_SEGMENT] ++ path) entry)
    (map walk_path (seq (n - 1) k)) (walk_usage n) = walk_usage (n + k).
Proof.
  revert n. induction k as [|k IH]; intros n Hn; cbn [seq map fold_left]; [by rewrite Nat.add_0_r|].
  change (["next"; MATCH_PAYLOAD_SEGMENT] ++ walk_path (n - 1)) with (walk_path (S (n - 1))).
  replace (S (n - 1)) with n by lia. rewrite record_walk_path by done.
  replace n with (S n - 1) at 1 by lia. rewrite IH by lia. f_equal. lia.
Qed.

Definition walk_infer (usage : ParamUsage) : list ParamUsage :=
  infer_function_param_modes (walk_functions usage) node_variants node_fields node_layouts None None
    (Some walk_body) [("n", T_Named "Node", no_span)] {[ "n" := T_Named "Node" ]}.

Lemma walk_infer_eq path paths :
  walk_infer (mkParamUsage false (path :: paths)) =
  [fold_left (fun entry path => record_path (["next"; MATCH_PAYLOAD_SEGMENT] ++ path) entry)
     (path :: paths) (walk_usage 1)].
Proof. destruct paths; vm_compute; reflexivity. Qed.

Lemma walk_infer_step k : walk_infer (walk_usage k) = [walk_usage (S k)].
Proof.
  destruct k as [|k]; [vm_compute; reflexivity|].
  change (walk_usage (S k)) with (mkParamUsage false (walk_path 0 :: map walk_path (seq 1 k))).
  rewrite walk_infer_eq. f_equal.
  exact (record_walk_paths (S k) 1 (le_n 1)).
Qed.

Lemma walk_usage_inj k : walk_usage (S k) <> walk_usage k.
Proof.
  intros H. apply (f_equal (fun u => length (move_fields u))) in H. cbn in H.
  rewrite !length_map, !length_seq in H. lia.
Qed.

Lemma walk_round k :
  infer_round node_variants node_fields node_layouts walk_module ∅ false (walk_functions (walk_usage k))
  = (true, walk_functions (walk_usage (S k))).
Proof.
  unfold walk_module, hir_function. cbn [infer_round Hir.fn_name]. rewrite decide_False by apply not_elem_of_empty.
  assert (Hl : walk_functions (walk_usage k) !! "walk"
    = Some (set_param_usages [walk_usage k] (fresh_signature [("n", T_Named "Node")]))) by apply lookup_insert_eq.
  rewrite Hl.
  match goal with |- context [infer_function_param_modes ?a ?b ?c ?d ?e ?f ?g ?h ?i] =>
    change (infer_function_param_modes a b c d e f g h i) with (walk_infer (walk_usage k)) end.
  rewrite walk_infer_step. rewrite decide_False.
  - by f_equal.
  - intros H. apply (walk_usage_inj k). exact (f_equal (hd usage_borrow_only) H).
Qed.

(** The inference of parameter modes does not end on a function that
    consumes the elements of a recursive list: every round adds a longer access
    path to its usage. *)
Theorem infer_param_modes_diverges rounds :
  infer_param_modes node_variants node_fields node_layouts rounds walk_module
    (walk_functions usage_borrow_only) = None.
Proof.
  change usage_borrow_only with (walk_usage 0). generalize 0 as k.
  induction rounds as [|rounds IH]; intros k; cbn [infer_param_modes]; [done|].
  by rewrite walk_round.
Qed.
