(* ===== verification/EffectInfer.v ===== *)
(** * Effects of functions without an effects clause

    [infer_effects] and its visitors in
    [crates/sarif_frontend/src/semantic.rs], with [Effect::rank] of [hir.rs].
    The hash maps are iterated in an order the code does not choose: [order]
    lists the functions of the module as [module_fns] iterates over them, and
    [listing] an effect set as [into_iter] does. *)
From stdpp Require Import gmap.
From S2P Require Import Prelude Syntax TextOps Mir Interp Hir SemType Ownership.

Open Scope nat_scope.

(** ** Sets of effects *)

Definition effect_rank (e : Effect) : nat :=
  match e with
  | F_Io => 0 | F_Alloc => 1 | F_Async => 2 | F_Parallel => 3 | F_Clock => 4 | F_Ffi => 5 | F_Nondet => 6
  | F_User _ => 7
  end.

#[global] Instance Effect_Countable : Countable Effect.
Proof.
  refine (inj_countable' (fun e => (effect_rank e, effect_keyword e))
    (fun '(r, name) => match r with
       | 0 => F_Io | 1 => F_Alloc | 2 => F_Async | 3 => F_Parallel | 4 => F_Clock | 5 => F_Ffi
       | 6 => F_Nondet | _ => F_User name end) _).
  by intros [].
Defined.

(** The key of [sort_by_key]. *)
Definition compare_effects (l r : Effect) : comparison :=
  match Nat.compare (effect_rank l) (effect_rank r) with
  | Eq => compare_text (effect_keyword l) (effect_keyword r)
  | c => c
  end.

(** ** What a body does itself *)

(** The effects and the callees met so far. *)
Abbreviation Visit := (gset Effect * gset string)%type.

Definition add_effect (e : Effect) (s : Visit) : Visit := ({[ e ]} ∪ s.1, s.2).
Definition add_call (callee : string) (s : Visit) : Visit := (s.1, {[ callee ]} ∪ s.2).

Definition visit_callee (callee : string) (s : Visit) : Visit :=
  if String.eqb callee "tcp_send" then add_effect F_Io s
  else if one_of callee ["text_builder_new"; "list_new"; "list_push"; "list_from"; "text_index_new"; "text_index_keys"]
  then add_effect F_Alloc s
  else add_call callee s.

Section Visit.
Context (visit_expr : Expr -> Visit -> Visit).
Fixpoint visit_body_with (b : Body) (s : Visit) : Visit :=
  let 'mkBody statements tail _ := b in
  let visit_stmt stmt s :=
    match stmt with
    | S_Let _ _ value _ => visit_expr value s
    | S_Assign target value _ => visit_expr value (visit_expr target s)
    | S_Expr expr _ => visit_expr expr s
    | S_WithArena body _ => visit_body_with body s
    end in
  let s := fold_left (fun s stmt => visit_stmt stmt s) statements s in
  match tail with Some tail => visit_expr tail s | None => s end.
End Visit.

Fixpoint visit_expr (e : Expr) (s : Visit) : Visit :=
  match e with
  | E_Integer _ _ | E_Float _ _ | E_String _ _ _ | E_Bool _ _ | E_Name _ _ | E_ContractResult _ => s
  | E_Call callee args _ => fold_left (fun s arg => visit_expr arg s) args (visit_callee callee s)
  | E_Array elements _ _ => fold_left (fun s elem => visit_expr elem s) elements s
  | E_Field base _ _ => visit_expr base s
  | E_Index base index _ => visit_expr index (visit_expr base s)
  | E_If condition then_body else_body _ =>
      visit_body_with visit_expr else_body (visit_body_with visit_expr then_body (visit_expr condition s))
  | E_Match scrutinee arms _ =>
      fold_left (fun s '(mkMatchArm _ body _) => visit_body_with visit_expr body s) arms (visit_expr scrutinee s)
  | E_Repeat _ count body _ => visit_body_with visit_expr body (visit_expr count s)
  | E_While condition body _ => visit_body_with visit_expr body (visit_expr condition s)
  | E_Record _ fields _ => fold_left (fun s '(mkFieldInit _ value _) => visit_expr value s) fields s
  | E_RecordUpdate base updates _ =>
      fold_left (fun s '(mkFieldInit _ value _) => visit_expr value s) updates (visit_expr base s)
  | E_Unary _ inner _ | E_Group inner _ => visit_expr inner s
  | E_Binary _ l r _ => visit_expr r (visit_expr l s)
  | E_Comptime body => visit_body_with visit_expr body s
  | E_Perform effect _ args _ =>
      let s := match effect_parse effect with Some eff => add_effect eff s | None => s end in
      fold_left (fun s arg => visit_expr arg s) args s
  | E_Handle body arms =>
      fold_left (fun s '(mkHandleArm _ _ body _) => visit_body_with visit_expr body s) arms
        (visit_body_with visit_expr body s)
  end.

Definition visit_body (b : Body) (s : Visit) : Visit := visit_body_with visit_expr b s.

(** ** The fixpoint *)

Record FnFacts := mkFnFacts {
  has_explicit : bool;
  direct_effects : gset Effect;
  call_deps : gset string
}.

Definition function_facts (f : Hir.Function) : FnFacts :=
  let '(direct, calls) :=
    match fn_body f with Some body => visit_body body (∅, ∅) | None => (∅, ∅) end in
  mkFnFacts (String.eqb (Hir.fn_name f) "main" || negb (Nat.eqb (length (Hir.fn_effects f)) 0)) direct calls.

Definition module_fns (module : HirModule) : gmap string FnFacts :=
  fold_left (fun fns item =>
    match item with It_Function f => <[Hir.fn_name f := function_facts f]> fns | _ => fns end) module ∅.

Abbreviation EffectMap := (gmap string (gset Effect)).

Section Infer.
Context (order : list (string * FnFacts)) (listing : gset Effect -> list Effect).

Definition declared_effects (functions : gmap string FunctionSignature) : EffectMap :=
  (fun sig => list_to_set (sig_effects sig)) <$> functions.

(** The effects before the loop: what is declared, or what the body does itself. *)
Definition initial_effects (functions : gmap string FunctionSignature) : EffectMap :=
  fold_left (fun current '(name, facts) =>
    if has_explicit facts then current else <[name := direct_effects facts]> current)
    order (declared_effects functions).

(** The effects of the callees that are known. *)
Definition callee_effects (current : EffectMap) (deps : gset string) : gset Effect :=
  ⋃ (map (fun dep => default ∅ (current !! dep)) (elements deps)).

Definition infer_one (entry : string * FnFacts) (st : bool * EffectMap) : bool * EffectMap :=
  let '(name, facts) := entry in
  let '(changed, current) := st in
  if has_explicit facts then st
  else
    let orig := default ∅ (current !! name) in
    let new_effects := orig ∪ callee_effects current (call_deps facts) in
    if Nat.ltb (size orig) (size new_effects) then (true, <[name := new_effects]> current) else st.

Definition infer_pass (current : EffectMap) : bool * EffectMap :=
  fold_left (fun st entry => infer_one entry st) order (false, current).

(** [while changed] *)
Fixpoint infer_loop (rounds : nat) (current : EffectMap) : option EffectMap :=
  match rounds with
  | 0 => None
  | S rounds =>
      let '(changed, current) := infer_pass current in
      if changed : bool then infer_loop rounds current else Some current
  end.

Definition set_effects (effects : list Effect) (sig : FunctionSignature) : FunctionSignature :=
  mkFunctionSignature (sig_const_params sig) (sig_params sig) (sig_param_usages sig) (sig_return_type sig) effects
    (sig_span sig).

(** [sort_by_key] of the collected set *)
Definition inferred_effects (current : EffectMap) (name : string) : list Effect :=
  sort_by compare_effects (listing (default ∅ (current !! name))).

Definition write_effects (current : EffectMap) (functions : gmap string FunctionSignature)
    : gmap string FunctionSignature :=
  fold_left (fun functions '(name, facts) =>
    if has_explicit facts then functions
    else
      match functions !! name with
      | Some sig => <[name := set_effects (inferred_effects current name) sig]> functions
      | None => functions
      end) order functions.

Definition infer_effects (rounds : nat) (functions : gmap string FunctionSignature)
    : option (gmap string FunctionSignature) :=
  current ← infer_loop rounds (initial_effects functions);
  Some (write_effects current functions).
End Infer.
