(* ===== verification/EffectSpec.v ===== *)
(** * Inferred effects are the ones that calls can reach

    [visit_body] collects what occurs in a body; the loop of [infer_effects]
    ends, and adds to each function without a clause exactly the effects of the
    functions it can reach by calls, in one order whatever the order of the hash
    maps. *)
From stdpp Require Import gmap sorting.
From S2P Require Import Prelude Syntax Utf8 TextOps Mir Interp Sorts Hir SemType Ownership EffectInfer OwnershipSpec.

Open Scope nat_scope.

(** ** Occurrences *)

Definition stmt_exprs (s : Stmt) : list Expr :=
  match s with
  | S_Let _ _ value _ => [value]
  | S_Assign target value _ => [target; value]
  | S_Expr expr _ => [expr]
  | S_WithArena _ _ => []
  end.

Definition stmt_bodies (s : Stmt) : list Body := match s with S_WithArena body _ => [body] | _ => [] end.

(** [x] is [e] or somewhere inside it. *)
Inductive in_expr (x : Expr) : Expr -> Prop :=
  | in_here : in_expr x x
  | in_sub e e' : In e' (sub_exprs e) -> in_expr x e' -> in_expr x e
  | in_sub_body e b : In b (sub_bodies e) -> in_body x b -> in_expr x e
with in_body (x : Expr) : Body -> Prop :=
  | in_stmt b s e : In s (body_statements b) -> In e (stmt_exprs s) -> in_expr x e -> in_body x b
  | in_stmt_body b s b' : In s (body_statements b) -> In b' (stmt_bodies s) -> in_body x b' -> in_body x b
  | in_tail b e : body_tail b = Some e -> in_expr x e -> in_body x b.

(** An effect, or a callee. *)
Abbreviation Fact := (Effect + string)%type.

(** The builtins with an effect of their own. *)
Definition builtin_effect (callee : string) : option Effect :=
  if String.eqb callee "tcp_send" then Some F_Io
  else if one_of callee ["text_builder_new"; "list_new"; "list_push"; "list_from"; "text_index_new"; "text_index_keys"]
  then Some F_Alloc else None.

(** What an expression performs or calls itself. *)
Definition own_fact (x : Expr) : option Fact :=
  match x with
  | E_Call callee _ _ => Some (match builtin_effect callee with Some e => inl e | None => inr callee end)
  | E_Perform effect _ _ _ => inl <$> effect_parse effect
  | _ => None
  end.

Definition seen (i : Fact) (s : Visit) : Prop :=
  match i with inl e => e ∈ s.1 | inr c => c ∈ s.2 end.

Definition add_own (x : Expr) (s : Visit) : Visit :=
  match own_fact x with Some (inl e) => add_effect e s | Some (inr c) => add_call c s | None => s end.

Lemma seen_add_own x s i : seen i (add_own x s) <-> seen i s \/ own_fact x = Some i.
Proof.
  unfold add_own. destruct (own_fact x) as [[e|c]|]; destruct i as [e'|c']; cbn;
    rewrite ?elem_of_union, ?elem_of_singleton; naive_solver.
Qed.

Lemma visit_expr_eq e s :
  visit_expr e s =
  fold_left (fun s b => visit_body b s) (sub_bodies e)
    (fold_left (fun s x => visit_expr x s) (sub_exprs e) (add_own e s)).
Proof.
  assert (Hinit : forall fields s, fold_left (fun s '(mkFieldInit _ value _) => visit_expr value s) fields s
    = fold_left (fun s x => visit_expr x s) (map init_value fields) s).
  { induction fields as [|[? ? ?] fields IH]; intros s'; cbn; [done|apply IH]. }
  destruct e; cbn; try done; unfold visit_callee, add_own; cbn; unfold builtin_effect; try apply Hinit.
  - destruct (String.eqb callee "tcp_send"); [done|]. cbn. by destruct (_ || _).
  - generalize (visit_expr e s). induction arms as [|[? ? ?] arms IH]; intros s'; cbn; [done|apply IH].
  - by destruct (effect_parse effect).
  - fold (visit_body body s). generalize (visit_body body s).
    induction arms as [|[? ? ? ?] arms IH]; intros s'; cbn; [done|apply IH].
Qed.

(** A fold whose steps add the facts of the elements. *)
Lemma fold_facts {A} (F : A -> Visit -> Visit) (G : A -> Fact -> Prop) l :
  Forall (fun a => forall s i, seen i (F a s) <-> seen i s \/ G a i) l ->
  forall s i, seen i (fold_left (fun s a => F a s) l s) <-> seen i s \/ exists a, In a l /\ G a i.
Proof.
  induction 1 as [|a l Ha Hl IH]; intros s i; cbn; [naive_solver|]. rewrite IH, Ha. naive_solver.
Qed.

Definition occurs_expr (e : Expr) (i : Fact) : Prop := exists x, in_expr x e /\ own_fact x = Some i.
Definition occurs_body (b : Body) (i : Fact) : Prop := exists x, in_body x b /\ own_fact x = Some i.

Lemma visit_stmts l tail :
  Forall (stmt_all (fun e => forall s i, seen i (visit_expr e s) <-> seen i s \/ occurs_expr e i)
    (fun b => forall s i, seen i (visit_body b s) <-> seen i s \/ occurs_body b i)) l ->
  option_all (fun e => forall s i, seen i (visit_expr e s) <-> seen i s \/ occurs_expr e i) tail ->
  forall sp s i, seen i (visit_body (mkBody l tail sp) s) <->
    seen i s \/ (exists st, In st l /\ ((exists e, In e (stmt_exprs st) /\ occurs_expr e i) \/
                                 (exists b, In b (stmt_bodies st) /\ occurs_body b i)))
    \/ (exists e, tail = Some e /\ occurs_expr e i).
Proof.
  intros Hl Ht sp s i. unfold visit_body. cbn.
  assert (Hf : forall s, seen i (fold_left (fun s stmt => match stmt with
      | S_Let _ _ value _ => visit_expr value s
      | S_Assign target value _ => visit_expr value (visit_expr target s)
      | S_Expr expr _ => visit_expr expr s
      | S_WithArena body _ => visit_body_with visit_expr body s end) l s) <->
    seen i s \/ exists st, In st l /\ ((exists e, In e (stmt_exprs st) /\ occurs_expr e i) \/
                                 (exists b, In b (stmt_bodies st) /\ occurs_body b i))).
  { intros s'. rewrite (fold_facts (fun stmt s => match stmt with
      | S_Let _ _ value _ => visit_expr value s
      | S_Assign target value _ => visit_expr value (visit_expr target s)
      | S_Expr expr _ => visit_expr expr s
      | S_WithArena body _ => visit_body body s end)
      (fun st i => (exists e, In e (stmt_exprs st) /\ occurs_expr e i) \/
                   (exists b, In b (stmt_bodies st) /\ occurs_body b i))); [done|].
    eapply Forall_impl; [exact Hl|]. intros [] Hst s0 i0; cbn in *;
      [|destruct Hst as [Hst1 Hst2]; rewrite Hst2, Hst1| |]; rewrite ?Hst; naive_solver. }
  destruct tail as [t|]; cbn in Ht; rewrite ?Ht, Hf; naive_solver.
Qed.

Lemma visit_facts :
  (forall e s i, seen i (visit_expr e s) <-> seen i s \/ occurs_expr e i) /\
  (forall b s i, seen i (visit_body b s) <-> seen i s \/ occurs_body b i).
Proof.
  set (P e := forall s i, seen i (visit_expr e s) <-> seen i s \/ occurs_expr e i).
  set (Q b := forall s i, seen i (visit_body b s) <-> seen i s \/ occurs_body b i).
  assert (He : forall e, Forall P (sub_exprs e) -> Forall Q (sub_bodies e) -> P e).
  { intros e He Hb s i. rewrite visit_expr_eq, (fold_facts visit_body occurs_body) by done.
    rewrite (fold_facts visit_expr occurs_expr), seen_add_own by done. unfold occurs_expr, occurs_body.
    split; [intros [[[H|H]|(x & H1 & y & H2 & H3)]|(b & H1 & y & H2 & H3)]|intros [H|(y & H2 & H3)]];
      eauto 8 using in_here, in_sub, in_sub_body.
    inversion H2; subst; eauto 10. }
  assert (Hb : forall b, Forall (stmt_all P Q) (body_statements b) -> option_all P (body_tail b) -> Q b).
  { intros [l tl sp] Hl Ht s i. rewrite visit_stmts by done. unfold occurs_expr, occurs_body. split.
    - intros [H|[(st & H1 & [(e & H2 & y & H3 & H4)|(b & H2 & y & H3 & H4)])|(e & H1 & y & H2 & H3)]];
        [by left|right; exists y; split; [|done]..]; [by eapply in_stmt|by eapply in_stmt_body|by eapply in_tail].
    - intros [H|(y & H2 & H3)]; [by left|right]. inversion H2; subst; cbn in *; eauto 12. }
  split; [exact (expr_tree_ind P Q He Hb)|exact (body_tree_ind P Q He Hb)].
Qed.

Lemma visit_body_facts b i : seen i (visit_body b (∅, ∅)) <-> occurs_body b i.
Proof. rewrite (proj2 visit_facts). destruct i; cbn; set_solver. Qed.

(** ** The loop *)

Lemma callee_effects_spec current deps e :
  e ∈ callee_effects current deps <-> exists dep s, dep ∈ deps /\ current !! dep = Some s /\ e ∈ s.
Proof.
  unfold callee_effects. rewrite elem_of_union_list. split.
  - intros (s & (dep & -> & Hd)%list_elem_of_fmap & He). apply elem_of_elements in Hd.
    destruct (current !! dep) as [s|] eqn:Hs; cbn in He; [by exists dep, s|by apply elem_of_empty in He].
  - intros (dep & s & Hd & Hs & He). exists s. split; [|done]. apply list_elem_of_fmap.
    exists dep. rewrite Hs. by rewrite elem_of_elements.
Qed.

Section Loop.
Context (order : list (string * FnFacts)) (seed : EffectMap).

(** What calls can reach, from the effects before the loop. *)
Inductive reaches : string -> Effect -> Prop :=
  | reach_seed name s e : seed !! name = Some s -> e ∈ s -> reaches name e
  | reach_call name facts dep e :
      In (name, facts) order -> has_explicit facts = false -> dep ∈ call_deps facts -> reaches dep e ->
      reaches name e.

Definition effects_of (current : EffectMap) (name : string) : gset Effect := default ∅ (current !! name).

(** Between the effects before the loop and what calls can reach. *)
Record bounded (current : EffectMap) : Prop := {
  bounded_sound : forall name e, e ∈ effects_of current name -> reaches name e;
  bounded_seed : forall name, effects_of seed name ⊆ effects_of current name;
  bounded_rest : forall name,
    (forall facts, In (name, facts) order -> has_explicit facts = false -> False) ->
    current !! name = seed !! name
}.

Lemma bounded_start : bounded seed.
Proof.
  split; [|done..]. intros name e He. unfold effects_of in He.
  destruct (seed !! name) as [s|] eqn:Hs; [by eapply reach_seed|by apply elem_of_empty in He].
Qed.

Lemma elem_of_callees current deps e :
  e ∈ callee_effects current deps <-> exists dep, dep ∈ deps /\ e ∈ effects_of current dep.
Proof.
  rewrite callee_effects_spec. unfold effects_of. split.
  - intros (dep & s & Hd & Hs & He). exists dep. by rewrite Hs.
  - intros (dep & Hd & He). destruct (current !! dep) as [s|] eqn:Hs; [by exists dep, s|by apply elem_of_empty in He].
Qed.

Lemma infer_one_spec entry changed current :
  In entry order -> bounded current ->
  let '(changed', current') := infer_one entry (changed, current) in
  bounded current' /\ (forall name, effects_of current name ⊆ effects_of current' name) /\
  ((changed' = changed /\ current' = current /\
    (has_explicit entry.2 = false -> callee_effects current (call_deps entry.2) ⊆ effects_of current entry.1))
   \/ changed' = true /\ effects_of current entry.1 ⊂ effects_of current' entry.1).
Proof.
  destruct entry as [name facts]. intros Hin Hb. unfold infer_one. cbn [fst snd].
  destruct (has_explicit facts) eqn:Hx.
  { split; [done|]. split; [done|]. left. by split_and!. }
  fold (effects_of current name).
  set (orig := effects_of current name). set (new := orig ∪ callee_effects current (call_deps facts)).
  destruct (Nat.ltb_spec (size orig) (size new)) as [Hlt|Hge].
  - assert (Hat : effects_of (<[name := new]> current) name = new)
      by (unfold effects_of; by rewrite lookup_insert_eq).
    assert (Hne : forall n, n <> name -> effects_of (<[name := new]> current) n = effects_of current n)
      by (intros; unfold effects_of; by rewrite lookup_insert_ne by done).
    assert (Hmono : forall n, effects_of current n ⊆ effects_of (<[name := new]> current) n).
    { intros n. destruct (decide (n = name)) as [->|]; [rewrite Hat; unfold new; set_solver|by rewrite Hne]. }
    split; [split|split; [exact Hmono|right; split; [done|]]].
    + intros n e. destruct (decide (n = name)) as [->|Hn]; [|rewrite Hne by done; by apply bounded_sound].
      rewrite Hat. unfold new. intros [He|(dep & Hd & He)%elem_of_callees]%elem_of_union;
        [by apply (bounded_sound _ Hb)|].
      eapply reach_call; [done..|]. by apply (bounded_sound _ Hb).
    + intros n. transitivity (effects_of current n); [by apply bounded_seed|apply Hmono].
    + intros n Hn. destruct (decide (n = name)) as [->|]; [by destruct (Hn facts)|].
      rewrite lookup_insert_ne by done. by apply (bounded_rest _ Hb).
    + rewrite Hat. cbn [fst]. fold orig. unfold strict.
      split; [unfold new; set_solver|]. intros Hsub. apply subseteq_size in Hsub. fold orig in Hsub. lia.
  - split; [done|]. split; [done|]. left. split_and!; [done..|]. intros _ e He.
    fold orig. assert (Heq : orig ≡ new); [|rewrite Heq; unfold new; set_solver].
    apply set_subseteq_size_equiv; [unfold new; set_solver|lia].
Qed.

Lemma infer_fold l changed current :
  incl l order -> bounded current ->
  let '(changed', current') := fold_left (fun st entry => infer_one entry st) l (changed, current) in
  bounded current' /\ (forall name, effects_of current name ⊆ effects_of current' name) /\
  ((changed' = changed /\ current' = current /\
    Forall (fun entry => has_explicit entry.2 = false ->
      callee_effects current (call_deps entry.2) ⊆ effects_of current entry.1) l)
   \/ changed' = true /\ exists name, In name l.*1 /\ effects_of current name ⊂ effects_of current' name).
Proof.
  revert changed current. induction l as [|entry l IH]; intros changed current Hl Hb; cbn [fold_left].
  { split; [done|]. split; [done|]. by left. }
  pose proof (infer_one_spec entry changed current (Hl _ (in_eq _ _)) Hb) as H1.
  destruct (infer_one entry (changed, current)) as [changed1 current1].
  destruct H1 as (Hb1 & Hm1 & H1). specialize (IH changed1 current1 (fun x Hx => Hl x (in_cons _ _ _ Hx)) Hb1).
  destruct (fold_left _ l _) as [changed2 current2]. destruct IH as (Hb2 & Hm2 & H2).
  split; [done|]. split; [by intros n; transitivity (effects_of current1 n)|].
  destruct H1 as [(-> & -> & Hc)|(-> & Hs)].
  - destruct H2 as [(-> & -> & Hall)|(-> & n & Hn & Hs)]; [left; auto|right; split; [done|]].
    exists n. cbn. auto.
  - right. split; [by destruct H2 as [(-> & _)|(-> & _)]|]. exists entry.1. split; [by left|].
    pose proof (Hm2 entry.1). destruct Hs as [Hs1 Hs2].
    split; [set_solver|]. intros Hs. apply Hs2. set_solver.
Qed.

Lemma infer_pass_done current current' :
  bounded current -> infer_pass order current = (false, current') ->
  current' = current /\
  forall name facts, In (name, facts) order -> has_explicit facts = false ->
    callee_effects current (call_deps facts) ⊆ effects_of current name.
Proof.
  intros Hb E. pose proof (infer_fold order false current (incl_refl _) Hb) as H.
  unfold infer_pass in E. rewrite E in H. destruct H as (_ & _ & [(_ & -> & Hall)|(? & _)]); [|done].
  split; [done|]. intros name facts Hin Hx. rewrite List.Forall_forall in Hall. by apply (Hall _ Hin).
Qed.

Lemma infer_pass_changed current current' :
  bounded current -> infer_pass order current = (true, current') ->
  bounded current' /\ (forall name, effects_of current name ⊆ effects_of current' name) /\
  exists name, In name order.*1 /\ effects_of current name ⊂ effects_of current' name.
Proof.
  intros Hb E. pose proof (infer_fold order false current (incl_refl _) Hb) as H.
  unfold infer_pass in E. rewrite E in H. destruct H as (? & ? & [(? & _)|(_ & ?)]); [done|by split_and!].
Qed.

Lemma infer_loop_spec rounds current current' :
  bounded current -> infer_loop order rounds current = Some current' ->
  bounded current' /\ forall name e, e ∈ effects_of current' name <-> reaches name e.
Proof.
  revert current. induction rounds as [|rounds IH]; intros current Hb; cbn; [done|].
  destruct (infer_pass order current) as [[] current1] eqn:E.
  - apply IH. by eapply infer_pass_changed in E as (? & _).
  - intros [= <-]. apply infer_pass_done in E as [-> Hc]; [|done]. split; [done|].
    intros name e. split; [by apply bounded_sound|].
    induction 1 as [name s e Hs He|name facts dep e Hin Hx Hd _ IHr].
    + apply (bounded_seed _ Hb). unfold effects_of. by rewrite Hs.
    + apply (Hc name facts Hin Hx). apply elem_of_callees. by exists dep.
Qed.

(** ** Its end *)

(** Every effect that occurs before the loop. *)
Definition universe : gset Effect := ⋃ (map snd (map_to_list seed)).

Lemma universe_reaches name e : reaches name e -> e ∈ universe.
Proof.
  induction 1 as [name s e Hs He|]; [|done]. apply elem_of_union_list. exists s. split; [|done].
  apply list_elem_of_fmap. exists (name, s). split; [done|]. by apply elem_of_map_to_list.
Qed.

(** The effects the functions can still gain. *)
Definition missing (current : EffectMap) : nat :=
  sum_list_with (fun name => size (universe ∖ effects_of current name)) order.*1.

Lemma sum_list_with_lt (f g : string -> nat) l x :
  (forall y, f y <= g y) -> In x l -> f x < g x -> sum_list_with f l < sum_list_with g l.
Proof.
  intros Hle. induction l as [|y l IH]; cbn; [done|]. intros [->|Hx] Hlt.
  - assert (sum_list_with f l <= sum_list_with g l); [|lia].
    clear -Hle. induction l as [|y l IH]; cbn; [lia|]. specialize (Hle y). lia.
  - specialize (IH Hx Hlt). specialize (Hle y). lia.
Qed.

Lemma infer_pass_progress current current' :
  bounded current -> infer_pass order current = (true, current') -> missing current' < missing current.
Proof.
  intros Hb E. pose proof (infer_pass_changed _ _ Hb E) as (Hb' & Hm & name & Hn & Hs).
  apply (sum_list_with_lt _ _ _ name); [|done|].
  - intros y. apply subseteq_size. pose proof (Hm y). set_solver.
  - apply subset_size. unfold strict. split; [set_solver|]. intros Hsub. destruct Hs as [_ Hs]. apply Hs. intros e He.
    destruct (decide (e ∈ effects_of current name)); [done|].
    assert (e ∈ universe) by (eapply universe_reaches, bounded_sound; eauto). set_solver.
Qed.

Lemma infer_loop_ends rounds current :
  bounded current -> missing current < rounds -> is_Some (infer_loop order rounds current).
Proof.
  revert current. induction rounds as [|rounds IH]; intros current Hb Hr; [lia|]. cbn.
  destruct (infer_pass order current) as [[] current1] eqn:E; [|done].
  apply IH; [by eapply infer_pass_changed in E as (? & _)|].
  pose proof (infer_pass_progress _ _ Hb E). lia.
Qed.

Lemma missing_bound current : missing current <= length order * size universe.
Proof.
  unfold missing. generalize universe as u. intros u.
  rewrite <- (length_fmap fst order). induction order.*1 as [|name l IH]; cbn [sum_list_with length]; [lia|].
  assert (size (u ∖ effects_of current name) <= size u) by (apply subseteq_size; set_solver). lia.
Qed.
End Loop.

(** ** Sorting *)

Lemma effect_key_inj l r :
  effect_rank l = effect_rank r -> effect_keyword l = effect_keyword r -> l = r.
Proof. destruct l, r; cbn; naive_solver. Qed.

Lemma compare_effects_consistent : consistent compare_effects (fun _ => True).
Proof.
  split.
  - intros a b _ _. unfold compare_effects. rewrite (Nat.compare_antisym (effect_rank a)).
    destruct (Nat.compare _ _); cbn; [apply compare_bytes_flip|done..].
  - intros a b c _ _ _. unfold compare_effects, compare_text.
    destruct (Nat.compare_spec (effect_rank a) (effect_rank b)), (Nat.compare_spec (effect_rank b) (effect_rank c)),
      (Nat.compare_spec (effect_rank a) (effect_rank c)); try done; try lia. apply compare_bytes_trans.
Qed.

Lemma compare_effects_antisym a b :
  compare_effects a b <> Gt -> compare_effects b a <> Gt -> a = b.
Proof.
  intros Hab Hba. rewrite (cmp_flip _ _ compare_effects_consistent a b I I) in Hba.
  destruct (compare_effects a b) eqn:E; [|done..]. unfold compare_effects in E.
  destruct (Nat.compare_spec (effect_rank a) (effect_rank b)) as [Hr| |]; [|done..].
  apply compare_bytes_eq in E. apply effect_key_inj; [done|].
  rewrite <- (String.string_of_list_ascii_of_string (effect_keyword a)), E. apply String.string_of_list_ascii_of_string.
Qed.

(** A list of effects as [infer_effects] writes it. *)
Definition listed (l : list Effect) (P : Effect -> Prop) : Prop :=
  sorted compare_effects l /\ NoDup l /\ forall e, e ∈ l <-> P e.

Lemma listed_unique l1 l2 P Q : listed l1 P -> listed l2 Q -> (forall e, P e <-> Q e) -> l1 = l2.
Proof.
  intros (Hs1 & Hn1 & H1) (Hs2 & Hn2 & H2) HPQ.
  apply (StronglySorted_unique_strong (fun a b => compare_effects a b <> Gt)); try done.
  - intros a b _ _. apply compare_effects_antisym.
  - apply Sorted_StronglySorted; [|done].
    intros a b c. by apply (cmp_trans _ _ compare_effects_consistent).
  - apply Sorted_StronglySorted; [|done].
    intros a b c. by apply (cmp_trans _ _ compare_effects_consistent).
  - apply NoDup_Permutation; [done..|]. intros e. by rewrite H1, H2.
Qed.

Lemma inferred_effects_listed listing current name :
  (forall s, listing s ≡ₚ elements s) ->
  listed (inferred_effects listing current name) (fun e => e ∈ effects_of current name).
Proof.
  intros Hl. unfold inferred_effects. fold (effects_of current name). split_and!.
  - apply (sort_by_sorted _ _ compare_effects_consistent). by apply Forall_true.
  - rewrite sort_by_perm, Hl. apply NoDup_elements.
  - intros e. by rewrite sort_by_perm, Hl, elem_of_elements.
Qed.

(** ** The module *)

(** A function whose effects are inferred. *)
Definition infers (f : Hir.Function) : Prop := Hir.fn_name f <> "main" /\ Hir.fn_effects f = [].

Lemma infers_explicit f : infers f <-> has_explicit (function_facts f) = false.
Proof.
  unfold infers, function_facts. destruct (match fn_body f with Some _ => _ | None => _ end) as [d c]. cbn.
  rewrite orb_false_iff, negb_false_iff, Nat.eqb_eq, length_zero_iff_nil, String.eqb_neq. done.
Qed.

(** What a function of the module may do: what occurs in its body, and what its
    callees may do; what is declared, where there is a clause. *)
Inductive has_effect (module : HirModule) (functions : gmap string FunctionSignature) : string -> Effect -> Prop :=
  | effect_occurs f body e :
      In f (module_functions module) -> infers f -> fn_body f = Some body -> occurs_body body (inl e) ->
      has_effect module functions (Hir.fn_name f) e
  | effect_called f body callee e :
      In f (module_functions module) -> infers f -> fn_body f = Some body -> occurs_body body (inr callee) ->
      has_effect module functions callee e -> has_effect module functions (Hir.fn_name f) e
  | effect_declared name sig e :
      (forall f, In f (module_functions module) -> Hir.fn_name f = name -> ~ infers f) ->
      functions !! name = Some sig -> In e (sig_effects sig) -> has_effect module functions name e.

Lemma facts_direct f e :
  e ∈ direct_effects (function_facts f) <-> exists body, fn_body f = Some body /\ occurs_body body (inl e).
Proof.
  unfold function_facts. destruct (fn_body f) as [b|]; cbn.
  - pose proof (visit_body_facts b (inl e)) as H. destruct (visit_body b (∅, ∅)); cbn in *. naive_solver.
  - rewrite elem_of_empty. naive_solver.
Qed.

Lemma facts_calls f callee :
  callee ∈ call_deps (function_facts f) <-> exists body, fn_body f = Some body /\ occurs_body body (inr callee).
Proof.
  unfold function_facts. destruct (fn_body f) as [b|]; cbn.
  - pose proof (visit_body_facts b (inr callee)) as H. destruct (visit_body b (∅, ∅)); cbn in *. naive_solver.
  - rewrite elem_of_empty. naive_solver.
Qed.

Lemma module_fns_lookup_acc items (fns : gmap string FnFacts) name facts :
  NoDup (map Hir.fn_name (module_functions items)) ->
  fold_left (fun fns item =>
    match item with It_Function f => <[Hir.fn_name f := function_facts f]> fns | _ => fns end) items fns
    !! name = Some facts <->
  (exists f, In f (module_functions items) /\ Hir.fn_name f = name /\ function_facts f = facts) \/
  (~ In name (map Hir.fn_name (module_functions items)) /\ fns !! name = Some facts).
Proof.
  revert fns. induction items as [|item items IH]; intros fns Hn; cbn; [naive_solver|].
  destruct item as [| f | | | | |]; cbn in *; try by apply IH.
  apply NoDup_cons in Hn as [Hni Hn]. rewrite IH by done. rewrite list_elem_of_In in Hni.
  destruct (decide (Hir.fn_name f = name)) as [<-|Hne].
  - rewrite lookup_insert_eq. split.
    + intros [(g & Hg & Hgn & Hgf)|(_ & [= <-])]; [left; exists g; auto|left; exists f; auto].
    + intros [(g & [<-|Hg] & Hgn & <-)|(Hx & _)]; [right; auto| |by destruct Hx; left].
      destruct Hni. rewrite <- Hgn. by apply in_map.
  - rewrite lookup_insert_ne by done. naive_solver.
Qed.

Lemma module_fns_lookup module name facts :
  NoDup (map Hir.fn_name (module_functions module)) ->
  module_fns module !! name = Some facts <->
  exists f, In f (module_functions module) /\ Hir.fn_name f = name /\ function_facts f = facts.
Proof.
  intros Hn. unfold module_fns. rewrite module_fns_lookup_acc by done. rewrite lookup_empty. naive_solver.
Qed.

(** A fold that writes at the names of a list. *)
Lemma fold_writes {A B} (F : string -> A -> gmap string B -> gmap string B) (g : string -> A -> option B -> option B)
    (order : list (string * A)) (m : gmap string B) name :
  (forall n a m, F n a m !! n = g n a (m !! n)) ->
  (forall n a m k, k <> n -> F n a m !! k = m !! k) ->
  NoDup order.*1 ->
  fold_left (fun m '(n, a) => F n a m) order m !! name =
  match list_find (fun entry => entry.1 = name) order with
  | Some (_, (_, a)) => g name a (m !! name)
  | None => m !! name
  end.
Proof.
  intros Hat Hne. revert m. induction order as [|[n a] order IH]; intros m Hn; cbn; [done|].
  apply NoDup_cons in Hn as [Hni Hn]. rewrite IH by done.
  case_decide as Heq.
  - cbn in Heq. subst n. destruct (list_find _ order) as [[i [n b]]|] eqn:E; cbn; [|apply Hat].
    apply list_find_Some in E as (Hi & Hb & _). cbn in Hb. subst n. destruct Hni.
    apply list_elem_of_fmap. exists (name, b). split; [done|]. by eapply list_elem_of_lookup_2.
  - rewrite Hne by (intros ->; by apply Heq). by destruct (list_find _ order) as [[i [n' b]]|].
Qed.

Lemma list_find_entry {A} (order : list (string * A)) name a :
  NoDup order.*1 -> In (name, a) order ->
  exists i, list_find (fun entry => entry.1 = name) order = Some (i, (name, a)).
Proof.
  intros Hn Hin%list_elem_of_In. destruct (list_find_elem_of (fun entry => entry.1 = name) order (name, a))
    as [[i [n b]] E]; [done|done|]. exists i. rewrite E. apply list_find_Some in E as (Hi & Hb & _).
  cbn in Hb. subst n. do 2 f_equal. apply list_elem_of_lookup_2 in Hi.
  clear -Hn Hin Hi. induction order as [|[m c] order IH]; [by apply not_elem_of_nil in Hi|]. cbn in Hn.
  apply NoDup_cons in Hn as [Hni Hn].
  rewrite elem_of_cons in Hin, Hi. destruct Hin as [Hin|Hin], Hi as [Hi|Hi]; simplify_eq; try done.
  - destruct Hni. apply list_elem_of_fmap. by exists (m, b).
  - destruct Hni. apply list_elem_of_fmap. by exists (m, a).
  - by apply IH.
Qed.

Lemma list_find_absent {A} (order : list (string * A)) name :
  (forall a, ~ In (name, a) order) -> list_find (fun entry => entry.1 = name) order = None.
Proof.
  intros Hno. apply list_find_None, Forall_forall. intros [n a] Hin%list_elem_of_In Hn. cbn in Hn. subst.
  by apply (Hno a).
Qed.

Section Module_.
Context (module : HirModule) (functions : gmap string FunctionSignature).
Context (Hmod : NoDup (map Hir.fn_name (module_functions module))).
Context (order : list (string * FnFacts)) (Horder : order ≡ₚ map_to_list (module_fns module)).

Lemma order_nodup : NoDup order.*1.
Proof. rewrite Horder. apply NoDup_fst_map_to_list. Qed.

Lemma order_in name facts :
  In (name, facts) order <->
  exists f, In f (module_functions module) /\ Hir.fn_name f = name /\ function_facts f = facts.
Proof.
  rewrite <- module_fns_lookup, <- elem_of_map_to_list, <- Horder by done. by rewrite list_elem_of_In.
Qed.

Lemma same_function f g :
  In f (module_functions module) -> In g (module_functions module) -> Hir.fn_name f = Hir.fn_name g ->
  function_facts f = function_facts g.
Proof.
  intros Hf Hg Hn. assert (H1 : module_fns module !! Hir.fn_name f = Some (function_facts f))
    by (apply module_fns_lookup; [done|by exists f]).
  assert (H2 : module_fns module !! Hir.fn_name f = Some (function_facts g))
    by (apply module_fns_lookup; [done|by exists g]). congruence.
Qed.

(** The names whose effects are written. *)
Lemma order_cases name :
  (exists f, In f (module_functions module) /\ infers f /\ Hir.fn_name f = name /\
     exists i, list_find (fun entry => entry.1 = name) order = Some (i, (name, function_facts f))) \/
  ((forall f, In f (module_functions module) -> Hir.fn_name f = name -> ~ infers f) /\
   (list_find (fun entry => entry.1 = name) order = None \/
    exists i facts, list_find (fun entry => entry.1 = name) order = Some (i, (name, facts)) /\ has_explicit facts = true)).
Proof.
  destruct (list_find _ order) as [[i [n facts]]|] eqn:E.
  - apply list_find_Some in E as (Hi & Hn & _). cbn in Hn. subst n.
    apply list_elem_of_lookup_2, list_elem_of_In, order_in in Hi as (f & Hf & Hfn & <-).
    destruct (has_explicit (function_facts f)) eqn:Hx.
    + right. split; [|right; by exists i, (function_facts f)]. intros g Hg Hgn.
      rewrite infers_explicit, (same_function g f) by congruence. congruence.
    + left. exists f. rewrite infers_explicit. split_and!; eauto.
  - right. split; [|by left]. intros f Hf Hfn _. destruct (list_find_entry order name (function_facts f)) as [i Hi].
    + apply order_nodup.
    + apply order_in. by exists f.
    + by rewrite Hi in E.
Qed.

Lemma initial_lookup name :
  initial_effects order functions !! name =
  match list_find (fun entry => entry.1 = name) order with
  | Some (_, (_, facts)) =>
      if has_explicit facts then declared_effects functions !! name else Some (direct_effects facts)
  | None => declared_effects functions !! name
  end.
Proof.
  unfold initial_effects.
  rewrite (fold_writes (fun name facts current =>
      if has_explicit facts then current else <[name := direct_effects facts]> current)
    (fun name facts old => if has_explicit facts then old else Some (direct_effects facts))); [done|..|apply order_nodup].
  - intros n a m. destruct (has_explicit a); [done|]. apply lookup_insert_eq.
  - intros n a m k Hk. destruct (has_explicit a); [done|]. by apply lookup_insert_ne.
Qed.

Lemma initial_direct name facts :
  In (name, facts) order -> has_explicit facts = false ->
  initial_effects order functions !! name = Some (direct_effects facts).
Proof.
  intros Hin Hx. destruct (list_find_entry order name facts order_nodup Hin) as [i Hi].
  by rewrite initial_lookup, Hi, Hx.
Qed.

Lemma declared_lookup name s :
  declared_effects functions !! name = Some s <->
  exists sig, functions !! name = Some sig /\ s = list_to_set (sig_effects sig).
Proof. unfold declared_effects. rewrite lookup_fmap_Some. naive_solver. Qed.

Lemma reaches_has_effect name e :
  reaches order (initial_effects order functions) name e <-> has_effect module functions name e.
Proof.
  split.
  - induction 1 as [name s e Hs He|name facts dep e Hin Hx Hd _ IH].
    + rewrite initial_lookup in Hs. destruct (order_cases name) as
        [(f & Hf & Hi & <- & i & E)|[Hno [E|(i & facts & E & Hx)]]]; rewrite E in Hs.
      * apply infers_explicit in Hi as Hx. rewrite Hx in Hs. injection Hs as <-.
        apply facts_direct in He as (b & Hb & Ho). by eapply effect_occurs.
      * apply declared_lookup in Hs as (sig & Hsig & ->). eapply effect_declared; [done..|].
        by apply elem_of_list_to_set, list_elem_of_In in He.
      * rewrite Hx in Hs. apply declared_lookup in Hs as (sig & Hsig & ->).
        eapply effect_declared; [done..|]. by apply elem_of_list_to_set, list_elem_of_In in He.
    + apply order_in in Hin as (f & Hf & <- & <-). apply facts_calls in Hd as (b & Hb & Ho).
      eapply effect_called; [done|by apply infers_explicit|done..].
  - induction 1 as [f b e Hf Hi Hb Ho|f b callee e Hf Hi Hb Ho _ IH|name sig e Hno Hsig He].
    + eapply reach_seed; [apply initial_direct|].
      * apply order_in. by exists f.
      * by apply infers_explicit.
      * apply facts_direct. by exists b.
    + eapply reach_call; [|by apply infers_explicit| |exact IH].
      * apply order_in. by exists f.
      * apply facts_calls. by exists b.
    + assert (Hd : declared_effects functions !! name = Some (list_to_set (sig_effects sig)))
        by (apply declared_lookup; by exists sig).
      eapply (reach_seed _ _ _ (list_to_set (sig_effects sig))); [|by apply elem_of_list_to_set, list_elem_of_In].
      rewrite initial_lookup. destruct (order_cases name) as
        [(f & Hf & Hi & Hn & _)|[_ [E|(i & facts & E & Hx)]]]; [by destruct (Hno f)|by rewrite E|by rewrite E, Hx].
Qed.

Lemma write_lookup listing current name :
  write_effects order listing current functions !! name =
  match list_find (fun entry => entry.1 = name) order with
  | Some (_, (_, facts)) =>
      if has_explicit facts then functions !! name
      else set_effects (inferred_effects listing current name) <$> functions !! name
  | None => functions !! name
  end.
Proof.
  unfold write_effects.
  rewrite (fold_writes (fun name facts (functions : gmap string FunctionSignature) =>
      if has_explicit facts then functions
      else match functions !! name with
           | Some sig => <[name := set_effects (inferred_effects listing current name) sig]> functions
           | None => functions
           end)
    (fun name facts old => if has_explicit facts then old
       else set_effects (inferred_effects listing current name) <$> old)); [done|..|apply order_nodup].
  - intros n a m. destruct (has_explicit a); [done|]. destruct (m !! n) as [sig|] eqn:E; [|by rewrite E].
    by rewrite lookup_insert_eq.
  - intros n a m k Hk. destruct (has_explicit a); [done|]. destruct (m !! n); [by apply lookup_insert_ne|done].
Qed.

(** What [infer_effects] makes of the signatures. *)
Lemma infer_effects_result listing rounds functions' :
  (forall s, listing s ≡ₚ elements s) ->
  infer_effects order listing rounds functions = Some functions' ->
  (forall f sig, In f (module_functions module) -> infers f -> functions !! Hir.fn_name f = Some sig ->
     exists l, functions' !! Hir.fn_name f = Some (set_effects l sig) /\
       listed l (has_effect module functions (Hir.fn_name f))) /\
  (forall name, functions !! name = None \/
     (forall f, In f (module_functions module) -> Hir.fn_name f = name -> ~ infers f) ->
     functions' !! name = functions !! name).
Proof.
  intros Hl. unfold infer_effects. destruct (infer_loop _ _ _) as [current|] eqn:E; [|done]. intros [= <-].
  apply (infer_loop_spec order (initial_effects order functions)) in E as (_ & Hr); [|apply bounded_start].
  split.
  - intros f sig Hf Hi Hsig. exists (inferred_effects listing current (Hir.fn_name f)).
    destruct (inferred_effects_listed listing current (Hir.fn_name f) Hl) as (Hs & Hnd & He). split.
    + rewrite write_lookup, Hsig. destruct (order_cases (Hir.fn_name f)) as
        [(g & Hg & Hgi & Hgn & i & ->)|[Hno _]]; [|by destruct (Hno f)].
      by rewrite (proj1 (infers_explicit g) Hgi).
    + split_and!; [done..|]. intros e. by rewrite He, Hr, reaches_has_effect.
  - intros name Hno. rewrite write_lookup. destruct (order_cases name) as
      [(g & Hg & Hgi & Hgn & i & ->)|[_ [->|(i & facts & -> & ->)]]]; [|done..].
    rewrite (proj1 (infers_explicit g) Hgi). destruct Hno as [->|Hno]; [done|]. by destruct (Hno g).
Qed.

Lemma infer_effects_ends listing rounds :
  length order * size (universe (initial_effects order functions)) < rounds ->
  is_Some (infer_effects order listing rounds functions).
Proof.
  intros Hr. unfold infer_effects.
  destruct (infer_loop_ends order (initial_effects order functions) rounds
    (initial_effects order functions)) as [current ->]; [apply bounded_start| |by eexists].
  eapply Nat.le_lt_trans; [apply missing_bound|done].
Qed.
End Module_.

(** C14: a function other than [main] without an effects clause gets exactly the
    effects that occur in its body or in a function it can reach by calls through
    functions of this kind, once each and in the order of their ranks and names;
    where calls reach [main] or a function with a clause, what is declared there
    counts, not its body ([has_effect]).  The other signatures, [main]'s too, stay
    as they are. *)
Theorem infer_effects_spec module functions order listing rounds functions' :
  NoDup (map Hir.fn_name (module_functions module)) ->
  order ≡ₚ map_to_list (module_fns module) -> (forall s, listing s ≡ₚ elements s) ->
  infer_effects order listing rounds functions = Some functions' ->
  (forall f sig, In f (module_functions module) -> infers f -> functions !! Hir.fn_name f = Some sig ->
     exists l, functions' !! Hir.fn_name f = Some (set_effects l sig) /\
       listed l (has_effect module functions (Hir.fn_name f))) /\
  (forall name, functions !! name = None \/
     (forall f, In f (module_functions module) -> Hir.fn_name f = name -> ~ infers f) ->
     functions' !! name = functions !! name).
Proof. intros Hn Ho Hl. by apply infer_effects_result. Qed.

(** The universe does not depend on the order either. *)
Lemma initial_order_irrelevant module functions order order' :
  NoDup (map Hir.fn_name (module_functions module)) ->
  order ≡ₚ map_to_list (module_fns module) -> order' ≡ₚ map_to_list (module_fns module) ->
  initial_effects order functions = initial_effects order' functions.
Proof.
  intros Hn Ho Ho'. apply map_eq. intros name.
  rewrite !(initial_lookup module) by done.
  destruct (order_cases module Hn order Ho name) as [(f & Hf & Hi & <- & i & ->)|[Hno [->|(i & facts & -> & Hx)]]];
  destruct (order_cases module Hn order' Ho' (Hir.fn_name f)) as [(g & Hg & Hgi & Hgn & j & ->)|[Hno' E]]
    || destruct (order_cases module Hn order' Ho' name) as [(g & Hg & Hgi & Hgn & j & ->)|[Hno' [->|(j & facts' & -> & Hx')]]];
  try (rewrite ?Hx, ?Hx'; done); try (by destruct (Hno g)).
  - by rewrite (same_function module Hn f g).
  - by destruct (Hno' f).
Qed.

(** The inference of effects ends, with signatures that depend neither on
    the order in which the hash maps are iterated nor on the number of rounds
    beyond a bound. *)
Lemma infer_effects_ends_all module functions :
  NoDup (map Hir.fn_name (module_functions module)) ->
  exists bound functions', forall order listing rounds,
    order ≡ₚ map_to_list (module_fns module) -> (forall s, listing s ≡ₚ elements s) -> bound <= rounds ->
    infer_effects order listing rounds functions = Some functions'.
Proof.
  intros Hn. set (order0 := map_to_list (module_fns module)).
  set (bound := S (length order0 * size (universe (initial_effects order0 functions)))).
  destruct (infer_effects_ends functions order0 elements bound)
    as [functions0 E0]; [unfold bound; lia|]. exists bound, functions0.
  intros order listing rounds Ho Hl Hr.
  destruct (infer_effects_ends functions order listing rounds) as [functions1 E1].
  { rewrite (initial_order_irrelevant module functions order order0 Hn Ho (Permutation_refl _)).
    rewrite (Permutation_length Ho). unfold bound in Hr. fold order0. lia. }
  rewrite E1. f_equal. apply map_eq. intros name.
  destruct (infer_effects_result module functions Hn _ Ho _ _ _ Hl E1) as [H1 R1].
  destruct (infer_effects_result module functions Hn _ (Permutation_refl _) _ _ _ (fun s => Permutation_refl _) E0) as [H0 R0].
  destruct (functions !! name) as [sig|] eqn:Hsig; [|rewrite R1, R0 by (by left); done].
  destruct (order_cases module Hn order Ho name) as [(f & Hf & Hi & <- & _)|[Hno _]].
  - destruct (H1 f sig Hf Hi Hsig) as (l1 & -> & Hl1), (H0 f sig Hf Hi Hsig) as (l0 & -> & Hl0).
    by rewrite (listed_unique _ _ _ _ Hl1 Hl0 (fun _ => iff_refl _)).
  - rewrite R1, R0 by (by right). done.
Qed.

(** [fn a() { b(list_new()) }], [fn b() { perform SystemIO.flush(); a() }],
    [fn main() { a() }] *)
Definition effects_module : HirModule :=
  [hir_function "a" (block [] (Some (call "b" [call "list_new" []])));
   hir_function "b" (block [stmt (E_Perform "SystemIO" "flush" [] no_span)] (Some (call "a" [])));
   hir_function "main" (block [] (Some (call "a" [])))].

Definition effects_functions : gmap string FunctionSignature :=
  {[ "a" := fresh_signature []; "b" := fresh_signature []; "main" := fresh_signature [] ]}.

Lemma effects_module_names : NoDup (map Hir.fn_name (module_functions effects_module)).
Proof. apply (bool_decide_unpack _). vm_compute. exact I. Qed.

Lemma infer_effects_spec_witness :
  exists functions' l,
    infer_effects (map_to_list (module_fns effects_module)) elements 4 effects_functions = Some functions' /\
    sig_effects <$> functions' !! "a" = Some [F_Alloc; F_User "SystemIO"] /\
    sig_effects <$> functions' !! "main" = Some [] /\
    functions' !! "b" = Some (set_effects l (fresh_signature [])) /\
    listed l (has_effect effects_module effects_functions "b").
Proof.
  destruct (infer_effects (map_to_list (module_fns effects_module)) elements 4 effects_functions) as [fs|] eqn:E;
    [|vm_compute in E; discriminate E].
  destruct (infer_effects_spec effects_module effects_functions _ elements 4 fs effects_module_names
    (Permutation_refl _) (fun s => Permutation_refl _) E) as [H _].
  destruct (H (Hir.mkFunction "b" [] [] None [] None None
      (Some (block [stmt (E_Perform "SystemIO" "flush" [] no_span)] (Some (call "a" [])))) no_span) (fresh_signature []))
    as (l & Hl & Hl'); [by right; left|by split|by vm_compute|].
  exists fs, l. split; [done|]. split; [vm_compute in E; injection E as <-; reflexivity|].
  split; [vm_compute in E; injection E as <-; reflexivity|]. by split.
Defined.
