(* ===== verification/TypeSpec.v ===== *)
(** * Types: searches through declarations, compatibility

    [is_affine_type], [type_contains_affine_values] and [type_is_rt_safe] are
    one depth-first search that does not enter a name twice on the way down;
    it finds exactly what some chain of declarations leads to, cycles or not. *)
From stdpp Require Import gmap.
From Stdlib Require Import Ascii.
From stdpp Require Import gmap pretty.
From S2P Require Import Prelude Utf8 TextOps Syntax Hir SemType.

Open Scope nat_scope.

(** ** The search *)

Section Search.
Context (leaf : Type_ -> bool) (unknown : bool) (children : string -> option (list Type_)).
Context (declared : gset string) (Hdeclared : forall name l, children name = Some l -> name ∈ declared).

Fixpoint search (fuel : nat) : gset string -> Type_ -> option bool :=
  fix go (visiting : gset string) (ty : Type_) : option bool :=
    match ty with
    | T_Pair l r => b ← go visiting l; if b : bool then Some true else go visiting r
    | T_Array element _ => go visiting element
    | T_Named name =>
        match children name with
        | None => Some unknown
        | Some l =>
            if decide (name ∈ visiting) then Some false
            else match fuel with
                 | 0 => None
                 | S fuel => any_of (search fuel ({[ name ]} ∪ visiting)) l
                 end
        end
    | _ => Some (leaf ty)
    end.

(** What the search is for: a chain of declarations to a leaf that counts. *)
Inductive leads : Type_ -> Prop :=
  | leads_leaf ty :
      match ty with T_Pair _ _ | T_Array _ _ | T_Named _ => False | _ => leaf ty = true end -> leads ty
  | leads_left l r : leads l -> leads (T_Pair l r)
  | leads_right l r : leads r -> leads (T_Pair l r)
  | leads_element element len : leads element -> leads (T_Array element len)
  | leads_unknown name : children name = None -> unknown = true -> leads (T_Named name)
  | leads_child name l ty : children name = Some l -> In ty l -> leads ty -> leads (T_Named name).

(** Chains of at most [k] declarations. *)
Fixpoint within (k : nat) : Type_ -> bool :=
  fix go (ty : Type_) : bool :=
    match ty with
    | T_Pair l r => go l || go r
    | T_Array element _ => go element
    | T_Named name =>
        match children name, k with
        | None, _ => unknown
        | Some _, 0 => false
        | Some l, S k => existsb (within k) l
        end
    | _ => leaf ty
    end.

Lemma within_mono k k' ty : k <= k' -> within k ty = true -> within k' ty = true.
Proof.
  revert k' ty. induction k as [|k IH]; intros k' ty Hk; induction ty; destruct k'; cbn; try done; try lia;
    rewrite ?orb_true_iff; try naive_solver.
  all: destruct (children name) as [l|]; [|done]; try done.
  rewrite !existsb_exists. intros (x & Hx & Hw). exists x. split; [done|]. apply IH; [lia|done].
Qed.

Lemma leads_within ty : leads ty -> exists k, within k ty = true.
Proof.
  induction 1 as [ty Hty|l r _ [k IH]|l r _ [k IH]|el len _ [k IH]|name Hc Hu|name l ty Hc Hin _ [k IH]].
  - exists 0. by destruct ty.
  - exists k. destruct k; cbn in *; by rewrite IH.
  - exists k. destruct k; cbn in *; by rewrite IH, orb_true_r.
  - exists k. by destruct k.
  - exists 0. cbn. by rewrite Hc.
  - exists (S k). cbn. rewrite Hc. apply existsb_exists. by exists ty.
Qed.

(** The least bound at which a name is found. *)
Lemma within_least k ty :
  within k ty = true -> exists k0, k0 <= k /\ within k0 ty = true /\ forall j, j < k0 -> within j ty = false.
Proof.
  induction k as [|k IH]; intros Hw; [exists 0; split_and!; [lia|done|lia]|].
  destruct (within k ty) eqn:E.
  - destruct (IH eq_refl) as (k0 & ? & ? & ?). exists k0. split_and!; [lia|done..].
  - exists (S k). split_and!; [lia|done|]. intros j Hj. apply not_true_iff_false. intros Hj'.
    rewrite (within_mono j k) in E by (lia || done). done.
Qed.

Lemma any_of_total {A} (f : A -> option bool) l :
  (forall x, In x l -> is_Some (f x)) -> is_Some (any_of f l).
Proof.
  induction l as [|x l IH]; intros Hf; [by eexists|]. cbn.
  destruct (Hf x (or_introl eq_refl)) as [[] ->]; cbn; [by eexists|]. apply IH. intros y Hy. by apply Hf; right.
Qed.

Lemma any_of_true {A} (f : A -> option bool) l x :
  (forall x, In x l -> is_Some (f x)) -> In x l -> f x = Some true -> any_of f l = Some true.
Proof.
  induction l as [|y l IH]; intros Hf; [done|]. cbn. intros [->|Hx] Ht; [by rewrite Ht|].
  destruct (Hf y (or_introl eq_refl)) as [[] ->]; cbn; [done|]. apply IH; [|done..]. intros z Hz. by apply Hf; right.
Qed.

Lemma any_of_found {A} (f : A -> option bool) l : any_of f l = Some true -> exists x, In x l /\ f x = Some true.
Proof.
  induction l as [|x l IH]; cbn; [done|]. destruct (f x) as [[]|] eqn:E; cbn; [|naive_solver|done].
  intros _. exists x. auto.
Qed.

Lemma fuel_enter fuel visiting name :
  name ∈ declared -> name ∉ visiting -> size (declared ∖ visiting) <= fuel ->
  exists fuel', fuel = S fuel' /\ size (declared ∖ ({[ name ]} ∪ visiting)) <= fuel'.
Proof.
  intros Hd Hv Hf.
  assert (Hlt : size (declared ∖ ({[ name ]} ∪ visiting)) < size (declared ∖ visiting)).
  { apply subset_size. unfold strict. split; set_solver. }
  destruct fuel as [|fuel]; [lia|]. exists fuel. split; [done|lia].
Qed.

Lemma search_named fuel visiting name :
  search fuel visiting (T_Named name) =
  match children name with
  | None => Some unknown
  | Some l =>
      if decide (name ∈ visiting) then Some false
      else match fuel with
           | 0 => None
           | S fuel => any_of (search fuel ({[ name ]} ∪ visiting)) l
           end
  end.
Proof. by destruct fuel. Qed.

Lemma search_pair fuel visiting l r :
  search fuel visiting (T_Pair l r)
  = (b ← search fuel visiting l; if b : bool then Some true else search fuel visiting r).
Proof. by destruct fuel. Qed.

Lemma search_array fuel visiting element len :
  search fuel visiting (T_Array element len) = search fuel visiting element.
Proof. by destruct fuel. Qed.

Lemma search_total fuel visiting ty :
  size (declared ∖ visiting) <= fuel -> is_Some (search fuel visiting ty).
Proof.
  revert visiting ty. induction fuel as [fuel IH] using lt_wf_ind. intros visiting ty Hf.
  induction ty as [ | | | | | | | | | |name|name|element IHe len|element IHe|l IHl r IHr| ];
    try (destruct fuel; cbn; by eexists).
  - rewrite search_named. destruct (children name) as [l|] eqn:Hc; [|by eexists].
    case_decide as Hv; [by eexists|].
    destruct (fuel_enter _ _ name (Hdeclared _ _ Hc) Hv Hf) as (fuel' & -> & Hf').
    apply any_of_total. intros x _. apply IH; [lia|done].
  - by rewrite search_array.
  - rewrite search_pair. destruct IHl as [[] ->]; cbn; [by eexists|done].
Qed.

Lemma search_complete k fuel visiting ty :
  within k ty = true -> (forall n, n ∈ visiting -> within k (T_Named n) = false) ->
  size (declared ∖ visiting) <= fuel -> search fuel visiting ty = Some true.
Proof.
  revert fuel visiting ty. induction k as [k IH] using lt_wf_ind. intros fuel visiting ty Hw Hv Hf.
  induction ty as [ | | | | | | | | | |name|name|element IHe len|element IHe|l IHl r IHr| ];
    try (destruct k, fuel; cbn in *; by rewrite Hw).
  - destruct (within_least k (T_Named name) Hw) as (k0 & Hk0 & Hw0 & Hleast). rewrite search_named.
    assert (Hnv : name ∉ visiting) by (intros Hn; by rewrite (Hv name Hn) in Hw).
    destruct k0 as [|k0]; cbn in Hw0; destruct (children name) as [l|] eqn:Hc; try (by rewrite Hw0).
    rewrite decide_False by done. apply existsb_exists in Hw0 as (x & Hx & Hwx).
    destruct (fuel_enter _ _ name (Hdeclared _ _ Hc) Hnv Hf) as (fuel' & -> & Hf').
    apply (any_of_true _ _ x); [intros y _; by apply search_total|done|].
    apply (IH k0); [lia|done| |done]. intros n [->%elem_of_singleton|Hn]%elem_of_union; [apply Hleast; lia|].
    apply not_true_iff_false. intros Hn'. apply (within_mono _ k) in Hn'; [|lia]. by rewrite (Hv n Hn) in Hn'.
  - rewrite search_array. apply IHe. by destruct k.
  - rewrite search_pair. assert (Hlr : within k l = true \/ within k r = true)
      by (destruct k; cbn in Hw; by apply orb_true_iff in Hw).
    destruct (search_total fuel visiting l Hf) as [[] Hl]; rewrite Hl; cbn; [done|].
    destruct Hlr as [Hl'|Hr']; [by rewrite (IHl Hl') in Hl|by apply IHr].
Qed.

Lemma search_sound fuel visiting ty : search fuel visiting ty = Some true -> leads ty.
Proof.
  revert visiting ty. induction fuel as [fuel IH] using lt_wf_ind. intros visiting ty.
  induction ty as [ | | | | | | | | | |name|name|element IHe len|element IHe|l IHl r IHr| ];
    try (intros H; apply leads_leaf; destruct fuel; cbn in H; congruence).
  - rewrite search_named. destruct (children name) as [l|] eqn:Hc; [|intros H; injection H as H; by apply leads_unknown].
    case_decide; [done|]. destruct fuel as [|fuel]; [done|]. intros (x & Hx & Hs)%any_of_found.
    eapply leads_child; [done..|]. apply IH in Hs; [done|lia].
  - rewrite search_array. intros H. by apply leads_element, IHe.
  - rewrite search_pair. destruct (search fuel visiting l) as [[]|] eqn:E; cbn; [intros _|intros H|done].
    + by apply leads_left, IHl.
    + by apply leads_right, IHr.
Qed.

(** The search decides whether a chain of declarations exists. *)
Lemma search_spec ty :
  search (size declared) ∅ ty = Some true /\ leads ty \/ search (size declared) ∅ ty = Some false /\ ~ leads ty.
Proof.
  assert (Hf : size (declared ∖ ∅) <= size declared) by (apply subseteq_size; set_solver).
  destruct (search_total _ _ ty Hf) as [[] Hs]; [left|right]; (split; [done|]).
  - by eapply search_sound.
  - intros (k & Hk)%leads_within. rewrite (search_complete k) in Hs; [done|done| |done].
    intros n Hn. by apply elem_of_empty in Hn.
Qed.
End Search.

(** ** Its instances *)

Definition affine_leaf (ty : Type_) : bool :=
  match ty with T_Text | T_Bytes | T_TextIndex | T_TextBuilder | T_File | T_List _ => true | _ => false end.

Definition payloads (variants : list EnumVariantInfo) : list Type_ :=
  flat_map (fun v => match info_payload v with Some ty => [ty] | None => [] end) variants.

(** What a declaration holds: the fields of a struct, the payloads of an enum. *)
Definition affine_children (struct_fields : StructFields) (enum_variants : EnumVariants) (name : string)
    : option (list Type_) :=
  match struct_fields !! name with Some fields => Some fields | None => payloads <$> enum_variants !! name end.

(** The types that runtime code may not use. *)
Definition rt_leaf (ty : Type_) : bool :=
  match ty with
  | T_Text | T_Bytes | T_Param _ | T_TextIndex | T_TextBuilder | T_List _ | T_File => true
  | _ => false
  end.

(** A type that owns memory, by itself or through what it is made of; a name
    without a declaration counts. *)
Definition owns (struct_fields : StructFields) (enum_variants : EnumVariants) : Type_ -> Prop :=
  leads affine_leaf true (affine_children struct_fields enum_variants).

(** A type with an unbounded or unknown part, in its fields or their fields. *)
Definition rt_unsafe (struct_fields : StructFields) : Type_ -> Prop :=
  leads rt_leaf false (fun name => struct_fields !! name).

Lemma any_of_payloads (f : Type_ -> option bool) variants :
  any_of (fun v => match info_payload v with Some ty => f ty | None => Some false end) variants
  = any_of f (payloads variants).
Proof.
  induction variants as [|v variants IH]; cbn; [done|]. destruct (info_payload v); cbn; [|done].
  by destruct (f t) as [[]|]; cbn.
Qed.

Lemma any_of_ext {A} (f g : A -> option bool) l : (forall x, f x = g x) -> any_of f l = any_of g l.
Proof. intros Hfg. induction l as [|x l IH]; cbn; [done|]. by rewrite Hfg, IH. Qed.

Lemma affine_children_declared sf ev name l :
  affine_children sf ev name = Some l -> name ∈ declared sf ev.
Proof.
  unfold affine_children, declared. rewrite elem_of_union, !elem_of_dom.
  destruct (sf !! name); [naive_solver|]. destruct (ev !! name); naive_solver.
Qed.

Lemma affine_inner_pair sf ev fuel visiting l r :
  is_affine_type_inner sf ev fuel visiting (T_Pair l r)
  = (b ← is_affine_type_inner sf ev fuel visiting l;
     if b : bool then Some true else is_affine_type_inner sf ev fuel visiting r).
Proof. by destruct fuel. Qed.

Lemma rt_inner_pair sf fuel visiting l r :
  type_is_rt_safe_inner sf fuel visiting (T_Pair l r)
  = (b ← type_is_rt_safe_inner sf fuel visiting l;
     if b : bool then type_is_rt_safe_inner sf fuel visiting r else Some false).
Proof. by destruct fuel. Qed.

Lemma affine_inner_search sf ev fuel visiting ty :
  visiting ⊆ declared sf ev ->
  is_affine_type_inner sf ev fuel visiting ty = search affine_leaf true (affine_children sf ev) fuel visiting ty.
Proof.
  revert visiting ty. induction fuel as [|fuel IH]; intros visiting ty Hv;
    (induction ty as [ | | | | | | | | | |name|name|element IHe len|element IHe|l IHl r IHr| ];
     try done; [|by rewrite affine_inner_pair, search_pair, IHl, IHr]);
    cbn; unfold affine_children; destruct (sf !! name) as [fields|] eqn:Hs;
    [| destruct (ev !! name) as [variants|] eqn:He; cbn| |destruct (ev !! name) as [variants|] eqn:He; cbn];
    try done.
  all: try (rewrite decide_False; [done|]; intros Hn%Hv; unfold declared in Hn;
            rewrite elem_of_union, !elem_of_dom, Hs, He in Hn; naive_solver).
  all: case_decide; [done|]; assert (Hv' : {[name]} ∪ visiting ⊆ declared sf ev)
    by (apply union_least; [apply singleton_subseteq_l, (affine_children_declared sf ev name fields)
                           || apply singleton_subseteq_l, (affine_children_declared sf ev name (payloads variants));
                            unfold affine_children; by rewrite Hs, ?He|done]).
  - apply any_of_ext. intros x. by apply IH.
  - rewrite any_of_payloads. apply any_of_ext. intros x. by apply IH.
Qed.

Lemma is_affine_type_search sf ev ty :
  is_affine_type sf ev ty = default false (search affine_leaf true (affine_children sf ev) (size (declared sf ev)) ∅ ty).
Proof. unfold is_affine_type. by rewrite affine_inner_search by apply empty_subseteq. Qed.

Lemma all_of_negb {A} (f g : A -> option bool) l :
  (forall x, g x = negb <$> f x) -> all_of g l = negb <$> any_of f l.
Proof.
  intros Hfg. induction l as [|x l IH]; cbn; [done|]. rewrite Hfg. destruct (f x) as [[]|]; cbn; [done|exact IH|done].
Qed.

Lemma rt_inner_search sf fuel visiting ty :
  type_is_rt_safe_inner sf fuel visiting ty
  = negb <$> search rt_leaf false (fun name => sf !! name) fuel visiting ty.
Proof.
  revert visiting ty. induction fuel as [|fuel IH]; intros visiting ty;
    (induction ty as [ | | | | | | | | | |name|name|element IHe len|element IHe|l IHl r IHr| ];
     try done; [cbn; destruct (sf !! name); [case_decide|]; try done
       |rewrite rt_inner_pair, search_pair, IHl, IHr; by destruct (search _ _ _ _ _ l) as [[]|]]).
  apply all_of_negb. intros x. apply IH.
Qed.

Lemma rt_search_exact struct_fields ty :
  type_is_rt_safe struct_fields ty = true <-> ~ rt_unsafe struct_fields ty.
Proof.
  unfold type_is_rt_safe. rewrite rt_inner_search.
  destruct (search_spec rt_leaf false (fun name => struct_fields !! name) (dom struct_fields)
    (fun name l H => elem_of_dom_2 _ _ _ H) ty) as [[-> ?]|[-> ?]]; cbn; unfold rt_unsafe; naive_solver.
Qed.

(** C26: the searches through declarations are exact, on recursive ones too: a
    type is affine if and only if its parts lead to a type that owns memory or
    to an undeclared name, and safe for the runtime profile if and only if
    nothing in it is unbounded. *)
Theorem type_searches_exact struct_fields enum_variants ty :
  (is_affine_type struct_fields enum_variants ty = true <-> owns struct_fields enum_variants ty) /\
  (type_is_rt_safe struct_fields ty = true <-> ~ rt_unsafe struct_fields ty).
Proof.
  split; [|apply rt_search_exact].
  rewrite is_affine_type_search. destruct (search_spec affine_leaf true (affine_children struct_fields enum_variants)
    (declared struct_fields enum_variants) (affine_children_declared _ _) ty) as [[-> ?]|[-> ?]]; cbn; naive_solver.
Qed.

(** ** The two affine searches *)

Lemma contains_inner_pair sl ev fuel visiting l r :
  type_contains_affine_values_inner sl ev fuel visiting (T_Pair l r)
  = (b ← type_contains_affine_values_inner sl ev fuel visiting l;
     if b : bool then Some true else type_contains_affine_values_inner sl ev fuel visiting r).
Proof. by destruct fuel. Qed.

Lemma any_of_layout (f : Type_ -> option bool) (fields : list (string * Type_)) :
  any_of (fun '(_, field) => f field) fields = any_of f (map snd fields).
Proof. induction fields as [|[x ty] fields IH]; cbn; [done|]. by destruct (f ty) as [[]|]; cbn. Qed.

(** Structs with their fields' names, or without. *)
Definition fields_of_layouts (struct_layouts : StructLayouts) : StructFields := map snd <$> struct_layouts.

Lemma contains_inner_affine sl ev fuel visiting ty :
  type_contains_affine_values_inner sl ev fuel visiting ty
  = is_affine_type_inner (fields_of_layouts sl) ev fuel visiting ty.
Proof.
  revert visiting ty. induction fuel as [|fuel IH]; intros visiting ty;
    (induction ty as [ | | | | | | | | | |name|name|element IHe len|element IHe|l IHl r IHr| ];
     try done; [|by rewrite contains_inner_pair, affine_inner_pair, IHl, IHr]);
    cbn; unfold fields_of_layouts; rewrite lookup_fmap; case_decide; try done;
    destruct (sl !! name) as [layout|]; cbn; try done; destruct (ev !! name); try done.
  all: try (rewrite any_of_layout; apply any_of_ext; intros x; apply IH).
  rewrite (any_of_payloads (type_contains_affine_values_inner sl ev fuel _)),
    (any_of_payloads (is_affine_type_inner (map snd <$> sl) ev fuel _)).
  apply any_of_ext. intros x. apply IH.
Qed.

(** [type_contains_affine_values], which the checks of mutable locals use and
    which looks through layouts, answers as [is_affine_type], which the ownership
    check uses and which looks through fields. *)
Lemma contains_affine_agree struct_layouts enum_variants ty :
  type_contains_affine_values struct_layouts enum_variants ty
  = is_affine_type (fields_of_layouts struct_layouts) enum_variants ty.
Proof.
  unfold type_contains_affine_values, is_affine_type, declared. rewrite contains_inner_affine.
  unfold fields_of_layouts. by rewrite dom_fmap_L.
Qed.

(** ** Compatibility *)

(** [File] somewhere inside. *)
Fixpoint mentions_file (ty : Type_) : bool :=
  match ty with
  | T_File => true
  | T_Array element _ | T_List element => mentions_file element
  | T_Pair l r => mentions_file l || mentions_file r
  | _ => false
  end.

Lemma array_len_compatible_sym l r : array_len_compatible l r = array_len_compatible r l.
Proof. destruct l, r; cbn; try done. apply Z.eqb_sym. Qed.

Lemma array_len_compatible_refl l : array_len_compatible l l = true.
Proof. destruct l; cbn; try done. apply Z.eqb_refl. Qed.

Lemma types_compatible_sym a b : types_compatible a b = types_compatible b a.
Proof.
  revert b. induction a as [ | | | | | | | | | |x|x|a IHa la|a IHa|a IHa a' IHa'| ]; intros []; cbn; try done;
    rewrite ?IHa, ?IHa', 1?array_len_compatible_sym; try done; apply String.eqb_sym || apply bool_decide_ext; done.
Qed.

Lemma types_compatible_refl ty : types_compatible ty ty = negb (mentions_file ty).
Proof.
  induction ty; cbn; rewrite ?IHty, ?IHty1, ?IHty2, ?array_len_compatible_refl, ?andb_true_r; try done.
  - apply String.eqb_refl.
  - apply String.eqb_refl.
  - by rewrite negb_orb.
Qed.

(** Compatibility of types is symmetric, and every type is compatible with
    itself except those with a [File] in them, which have no case of their own. *)
Theorem types_compatible_spec a b :
  types_compatible a b = types_compatible b a /\ types_compatible a a = negb (mentions_file a).
Proof. split; [apply types_compatible_sym|apply types_compatible_refl]. Qed.

(** * Names of types are read back

    [parse_type_name] undoes [type_render] on the types that a program can name,
    at any nesting of lists and arrays. *)

(** ** Trimming *)

(** A printing byte of ASCII other than the blank: no white space starts or ends with it. *)
Definition visible (c : Ascii.ascii) : bool := byte_in 33 126 c.

Lemma strip_one_visible c l :
  visible c = true -> strip_one whitespace (c :: l) = None /\ strip_one (map (@rev nat) whitespace) (c :: l) = None.
Proof.
  intros Hc. unfold visible, byte_in in Hc. apply andb_true_iff in Hc as [H1%Nat.leb_le H2%Nat.leb_le].
  assert (Hne : forall n, (n <? 33) || (126 <? n) = true -> (Ascii.nat_of_ascii c =? n) = false).
  { intros n [Hn%Nat.ltb_lt|Hn%Nat.ltb_lt]%orb_true_iff; apply Nat.eqb_neq; lia. }
  split; cbn; by rewrite !Hne.
Qed.

Lemma strip_start c l : visible c = true -> strip_one whitespace (c :: l) = None.
Proof. intros H. exact (proj1 (strip_one_visible c l H)). Qed.

Lemma strip_end c l : visible c = true -> strip_one (map (@rev nat) whitespace) (c :: l) = None.
Proof. intros H. exact (proj2 (strip_one_visible c l H)). Qed.

Lemma trim_loop_visible ws n c l : strip_one ws (c :: l) = None -> trim_loop ws n (c :: l) = c :: l.
Proof. intros H. destruct n; cbn [trim_loop]; [done|]. by rewrite H. Qed.

(** Visible at both ends. *)
Definition trimmed (l : list Ascii.ascii) : Prop :=
  match head l, last l with Some a, Some b => visible a = true /\ visible b = true | _, _ => False end.

Lemma trim_trimmed l : trimmed l -> trim l = l.
Proof.
  unfold trimmed, trim. destruct (head l) as [a|] eqn:Ha; [|done]. destruct (last l) as [b|] eqn:Hb; [|done].
  intros [Va Vb]. destruct l as [|a' l]; [done|]. injection Ha as ->.
  rewrite (trim_loop_visible whitespace) by exact (strip_start _ _ Va).
  destruct (rev (a :: l)) as [|b' r] eqn:E; [by apply (f_equal (@length _)) in E; rewrite length_rev in E|].
  assert (b' = b) as ->.
  { rewrite <- (rev_involutive (a :: l)), E in Hb. cbn in Hb. rewrite last_snoc in Hb. by injection Hb. }
  rewrite trim_loop_visible by exact (strip_end _ _ Vb). by rewrite <- E, rev_involutive.
Qed.

(** One blank before. *)
Lemma trim_blank l : trimmed l -> trim (" "%char :: l) = l.
Proof.
  intros Hl. transitivity (trim l); [|by apply trim_trimmed]. unfold trim.
  assert (Hn : forall n, trim_loop whitespace n l = l).
  { intros n. unfold trimmed in Hl. destruct l as [|a l]; [done|]. cbn [head] in Hl.
    destruct (last (a :: l)); [|done]. apply trim_loop_visible. exact (strip_start _ _ (proj1 Hl)). }
  assert (Hb : trim_loop whitespace (length (" "%char :: l)) (" "%char :: l) = l).
  { cbn [length trim_loop]. change (strip_one whitespace (" "%char :: l)) with (Some l). apply Hn. }
  by rewrite Hb, Hn.
Qed.

(** ** Numbers *)

Lemma parse_digits_char acc n s :
  (n < 10)%N ->
  parse_digits acc (bytes (String (pretty_N_char n) s)) = parse_digits (acc * 10 + Z.of_N n) (bytes s).
Proof.
  intros Hn. destruct n as [|p]; [done|]. do 10 (destruct p as [p|p|]; try done; try lia).
Qed.

Lemma parse_digits_go x s :
  parse_digits 0 (bytes (pretty_N_go x s)) = parse_digits (Z.of_N x) (bytes s).
Proof.
  revert s. induction (N.lt_wf_0 x) as [x _ IH]. intros s.
  destruct (decide (0 < x)%N) as [Hx|Hx]; [|by replace x with 0%N by lia].
  rewrite pretty_N_go_step by done.
  rewrite IH by (apply N.div_lt; lia). rewrite parse_digits_char by (apply N.mod_lt; lia).
  f_equal. rewrite N2Z.inj_div, N2Z.inj_mod. pose proof (Z.div_mod (Z.of_N x) 10). lia.
Qed.

(** A decimal digit. *)
Definition digit (c : Ascii.ascii) : bool := byte_in 48 57 c.

Lemma pretty_char_digit n : (n < 10)%N -> digit (pretty_N_char n) = true.
Proof. intros Hn. destruct n as [|p]; [done|]. do 10 (destruct p as [p|p|]; try done; try lia). Qed.

Lemma pretty_go_digits x s :
  forallb digit (bytes s) = true -> forallb digit (bytes (pretty_N_go x s)) = true.
Proof.
  revert s. induction (N.lt_wf_0 x) as [x _ IH]. intros s Hs.
  destruct (decide (0 < x)%N) as [Hx|Hx]; [|by replace x with 0%N by lia].
  rewrite pretty_N_go_step by done. apply IH; [apply N.div_lt; lia|]. cbn.
  by rewrite Hs, pretty_char_digit by (apply N.mod_lt; lia).
Qed.

Lemma pretty_go_nonempty x s : s <> ""%string \/ (0 < x)%N -> pretty_N_go x s <> ""%string.
Proof.
  revert s. induction (N.lt_wf_0 x) as [x _ IH]. intros s Hs.
  destruct (decide (0 < x)%N) as [Hx|Hx].
  - rewrite pretty_N_go_step by done. apply IH; [apply N.div_lt; lia|]. by left.
  - replace x with 0%N by lia. destruct Hs; [done|lia].
Qed.

Lemma pretty_Z_go (z : Z) : (0 < z)%Z -> pretty z = pretty_N_go (Z.to_N z) "".
Proof. intros Hz. destruct z; [lia|reflexivity|lia]. Qed.

Lemma pretty_digits (z : Z) : (0 <= z)%Z -> forallb digit (bytes (pretty z)) = true /\ bytes (pretty z) <> [].
Proof.
  intros Hz. destruct (decide (z = 0%Z)) as [->|Hne]; [done|]. rewrite pretty_Z_go by lia. split.
  - by apply pretty_go_digits.
  - intros H. apply (pretty_go_nonempty (Z.to_N z) ""); [right; lia|].
    revert H. by destruct (pretty_N_go _ _).
Qed.

Lemma parse_u32_pretty z : (0 <= z <= U32_MAX)%Z -> parse_u32 (bytes (pretty z)) = Some z.
Proof.
  intros Hz. destruct (pretty_digits z) as [Hd Hne]; [lia|]. unfold parse_u32.
  assert (Hp : parse_digits 0 (bytes (pretty z)) = Some z).
  { destruct (decide (z = 0%Z)) as [->|]; [done|]. rewrite pretty_Z_go, parse_digits_go by lia. cbn.
    by rewrite Z2N.id by lia. }
  destruct (bytes (pretty z)) as [|a l] eqn:E; [done|].
  replace (Ascii.nat_of_ascii a =? 43) with false.
  - rewrite Hp. cbn. by rewrite (proj2 (Z.leb_le _ _)) by lia.
  - cbn in Hd. apply andb_true_iff in Hd as [Ha _]. unfold digit, byte_in in Ha.
    apply andb_true_iff in Ha as [H1%Nat.leb_le H2]. symmetry. apply Nat.eqb_neq. lia.
Qed.

(** ** Names and brackets *)

Definition name_char (c : Ascii.ascii) : bool :=
  byte_in 48 57 c || byte_in 65 90 c || byte_in 97 122 c || byte_in 95 95 c || byte_in 46 46 c.

(** A name, or a path of names, as the lexer has them. *)
Definition plain_name (s : string) : bool :=
  match bytes s with a :: _ => negb (digit a) && forallb name_char (bytes s) | [] => false end.

(** The types that can be written over the generic parameters. *)
Fixpoint nameable (generic_params : gset string) (ty : Type_) : bool :=
  match ty with
  | T_Named name =>
      plain_name name && bool_decide (builtin_type name = None) && bool_decide (name ∉ generic_params)
  | T_Param name => plain_name name && bool_decide (name ∈ generic_params)
  | T_Array element len =>
      nameable generic_params element &&
      match len with
      | C_Literal value => (0 <=? value)%Z && (value <=? U32_MAX)%Z
      | C_Param name => plain_name name
      | _ => false
      end
  | T_List element => nameable generic_params element
  | T_Pair _ _ | T_Error => false
  | _ => true
  end.

(** Generic parameters are names other than the builtin types'. *)
Definition generics_ok (generic_params : gset string) : Prop :=
  forall g, g ∈ generic_params -> plain_name g = true /\ builtin_type g = None.

Lemma name_char_spec c :
  name_char c = true ->
  visible c = true /\ c <> "["%char /\ c <> "]"%char /\ c <> ";"%char /\ (Ascii.nat_of_ascii c =? 43) = false.
Proof.
  unfold name_char, visible, byte_in. rewrite !orb_true_iff, !andb_true_iff, !Nat.leb_le. intros Hc.
  split; [lia|]. split_and!; [intros E; apply (f_equal Ascii.nat_of_ascii) in E..|]; [| | |apply Nat.eqb_neq; lia].
  - change (Ascii.nat_of_ascii "["%char) with 91 in E. lia.
  - change (Ascii.nat_of_ascii "]"%char) with 93 in E. lia.
  - change (Ascii.nat_of_ascii ";"%char) with 59 in E. lia.
Qed.

Lemma digit_name c : digit c = true -> name_char c = true.
Proof. unfold digit, name_char. intros ->. done. Qed.

Lemma names_trimmed l : l <> [] -> forallb name_char l = true -> trimmed l.
Proof.
  intros Hne Hl. unfold trimmed. rewrite forallb_forall in Hl.
  destruct l as [|a l]; [done|]. cbn [head]. destruct (last (a :: l)) as [b|] eqn:E.
  - split; apply name_char_spec, Hl; [by left|]. apply last_Some_elem_of, list_elem_of_In in E. done.
  - by apply last_None in E.
Qed.

Lemma find_split_names depth l r :
  forallb name_char l = true -> find_split depth (l ++ r) = (fun k => length l + k) <$> find_split depth r.
Proof.
  induction l as [|c l IH]; cbn [forallb find_split app length].
  - intros _. by destruct (find_split depth r).
  - intros [Hc Hl]%andb_true_iff. apply name_char_spec in Hc as (_ & H1 & H2 & H3 & _).
    rewrite (proj2 (Ascii.eqb_neq _ _) H1), (proj2 (Ascii.eqb_neq _ _) H2), (proj2 (Ascii.eqb_neq _ _) H3). cbn.
    rewrite IH by done. by destruct (find_split depth r).
Qed.

Lemma plain_name_bytes s : plain_name s = true -> forallb name_char (bytes s) = true /\ bytes s <> [].
Proof. unfold plain_name. destruct (bytes s); [done|]. intros [_ H]%andb_true_iff. done. Qed.

Section Render.
Context (generic_params : gset string).

Lemma len_names len :
  match len with
  | C_Literal value => (0 <=? value)%Z && (value <=? U32_MAX)%Z
  | C_Param name => plain_name name
  | _ => false
  end = true -> forallb name_char (bytes (const_expr_render len)) = true /\ bytes (const_expr_render len) <> [].
Proof.
  destruct len; cbn; try done.
  - intros [H1%Z.leb_le H2]%andb_true_iff. destruct (pretty_digits value H1) as [Hd Hne]. split; [|done].
    rewrite forallb_forall in *. intros c Hc. by apply digit_name, Hd.
  - apply plain_name_bytes.
Qed.

(** A name, a list or an array. *)
Lemma render_cases ty :
  nameable generic_params ty = true ->
  plain_name (type_render ty) = true \/ (exists element, ty = T_List element) \/ (exists element len, ty = T_Array element len).
Proof. destruct ty; cbn; try (by left); try done; rewrite ?andb_true_iff; naive_solver. Qed.

Lemma find_split_render ty depth r :
  nameable generic_params ty = true ->
  find_split depth (bytes (type_render ty) ++ r) = (fun k => length (bytes (type_render ty)) + k) <$> find_split depth r.
Proof.
  revert depth r. induction ty; intros depth r Hn;
    try (apply find_split_names; by apply render_cases in Hn as [Hn%plain_name_bytes|[[? ?]|[? [? ?]]]]; naive_solver).
  - cbn [nameable] in Hn. apply andb_true_iff in Hn as [Hn Hlen]. cbn [type_render].
    apply len_names in Hlen as [Hlen _]. rewrite !bytes_app, <- !app_assoc, !length_app.
    change (bytes "[") with ["["%char]. change (bytes "; ") with [";"%char; " "%char]. change (bytes "]") with ["]"%char].
    cbn [find_split app length Ascii.eqb]. rewrite IHty by done. cbn [find_split app]. 
    replace (depth + 1 =? 0) with false by (symmetry; apply Nat.eqb_neq; lia). cbn.
    rewrite find_split_names by done. cbn. replace (depth + 1 - 1) with depth by lia.
    destruct (find_split depth r); cbn; [|done]. f_equal. lia.
  - cbn [nameable] in Hn. cbn [type_render]. rewrite !bytes_app, <- !app_assoc, !length_app.
    change (bytes "List[") with (bytes "List" ++ ["["%char]). rewrite <- app_assoc, length_app.
    rewrite find_split_names by done. cbn. rewrite IHty by done. cbn. replace (depth + 1 - 1) with depth by lia.
    destruct (find_split depth r); cbn; [|done]. f_equal. lia.
Qed.
End Render.

(** ** Reading back *)

Lemma starts_with_bytes_app p l : starts_with_bytes p (p ++ l) = Some l.
Proof. induction p as [|a p IH]; cbn; [done|]. by rewrite Ascii.eqb_refl. Qed.

Lemma starts_with_bytes_in p l r a : starts_with_bytes p l = Some r -> In a p -> In a l.
Proof.
  revert l. induction p as [|b p IH]; intros [|c l]; cbn; try done.
  destruct (Ascii.eqb_spec b c) as [<-|]; [|done]. intros H [->|Ha]; [by left|right; by eapply IH].
Qed.

Lemma strip_last_app c l : strip_last c (l ++ [c]) = Some l.
Proof. unfold strip_last. rewrite rev_app_distr. cbn. by rewrite Ascii.eqb_refl, rev_involutive. Qed.

Section RoundTrip.
Context (generic_params : gset string) (Hgenerics : generics_ok generic_params).

Lemma names_no_bracket l : forallb name_char l = true -> ~ In "["%char l.
Proof. rewrite forallb_forall. intros H Hin%H. by apply name_char_spec in Hin as (_ & ? & _). Qed.

Lemma bracket_not_generic s : In "["%char (bytes s) -> s ∉ generic_params.
Proof.
  intros Hb Hs. apply Hgenerics in Hs as [Hs _]. apply plain_name_bytes in Hs as [Hs _].
  by apply names_no_bracket in Hs.
Qed.

Lemma render_trimmed ty : nameable generic_params ty = true -> trimmed (bytes (type_render ty)).
Proof.
  intros Hn. destruct (render_cases _ ty Hn) as [[H1 H2]%plain_name_bytes|[[el ->]|[el [len ->]]]].
  - by apply names_trimmed.
  - cbn [type_render]. rewrite !bytes_app, app_assoc. change (bytes "]") with ["]"%char].
    unfold trimmed. by rewrite last_snoc.
  - cbn [type_render]. rewrite !bytes_app, !app_assoc. change (bytes "]") with ["]"%char].
    unfold trimmed. by rewrite last_snoc.
Qed.

Lemma plain_no_list s : plain_name s = true -> list_element (bytes s) = None.
Proof.
  intros [Hs _]%plain_name_bytes. unfold list_element.
  destruct (starts_with_bytes _ _) as [r|] eqn:E; [|done].
  apply (starts_with_bytes_in _ _ _ "["%char) in E; [|cbn; tauto]. by apply names_no_bracket in Hs.
Qed.

Lemma plain_no_array f s : plain_name s = true -> parse_array_type_name f (bytes s) = None.
Proof.
  intros [Hs Hne]%plain_name_bytes. unfold parse_array_type_name. rewrite trim_trimmed by by apply names_trimmed.
  destruct (starts_with_bytes _ _) as [r|] eqn:E; [|done].
  apply (starts_with_bytes_in _ _ _ "["%char) in E; [|cbn; tauto]. by apply names_no_bracket in Hs.
Qed.

Lemma parse_u32_name s : plain_name s = true -> parse_u32 (bytes s) = None.
Proof.
  unfold plain_name, parse_u32. destruct (bytes s) as [|a l]; [done|].
  intros [Ha [Hn _]%andb_true_iff]%andb_true_iff. apply name_char_spec in Hn as (_ & _ & _ & _ & Hp). rewrite Hp.
  cbn. unfold digit in Ha. apply negb_true_iff in Ha. by rewrite Ha.
Qed.

Lemma parse_len len :
  match len with
  | C_Literal value => (0 <=? value)%Z && (value <=? U32_MAX)%Z
  | C_Param name => plain_name name
  | _ => false
  end = true ->
  match parse_u32 (bytes (const_expr_render len)) with
  | Some value => C_Literal value
  | None => C_Param (text (bytes (const_expr_render len)))
  end = len.
Proof.
  destruct len; cbn; try done.
  - intros [H1%Z.leb_le H2%Z.leb_le]%andb_true_iff. by rewrite parse_u32_pretty.
  - intros H. by rewrite parse_u32_name, text_bytes.
Qed.

Lemma parse_array_render f element len :
  nameable generic_params (T_Array element len) = true ->
  f (bytes (type_render element)) = Some element ->
  parse_array_type_name f (bytes (type_render (T_Array element len))) = Some (T_Array element len).
Proof.
  intros Hn Hf. unfold parse_array_type_name. rewrite trim_trimmed by by apply render_trimmed.
  cbn [nameable] in Hn. apply andb_true_iff in Hn as [Hn Hlen]. cbn [type_render].
  rewrite !bytes_app, starts_with_bytes_app. cbn [mbind option_bind].
  rewrite !app_assoc. change (bytes "]") with ["]"%char]. rewrite strip_last_app. cbn [mbind option_bind].
  rewrite <- !app_assoc, (find_split_render generic_params) by done.
  change (bytes "; ") with [";"%char; " "%char]. cbn [find_split app Ascii.eqb Bool.eqb andb Nat.eqb fmap option_fmap option_map mbind option_bind].
  rewrite Nat.add_0_r, take_app_length, (trim_trimmed (bytes (type_render element))) by by apply render_trimmed.
  rewrite drop_app_ge, Nat.add_comm, Nat.add_sub by lia. cbn [drop].
  pose proof (len_names len Hlen) as [Hl Hne]. rewrite trim_blank by by apply names_trimmed.
  rewrite Hf. cbn. by rewrite (parse_len len Hlen).
Qed.

Lemma parse_render fuel ty :
  nameable generic_params ty = true -> length (bytes (type_render ty)) < fuel ->
  parse_type_name_ generic_params fuel (bytes (type_render ty)) = Some ty.
Proof.
  revert fuel. induction ty; intros [|fuel] Hn Hf; try lia; cbn [parse_type_name_];
    rewrite trim_trimmed by (by apply render_trimmed); rewrite text_bytes.
  all: try (rewrite decide_False; [done|]; intros [_ H]%Hgenerics; done).
  - cbn [nameable] in Hn. rewrite !andb_true_iff, !bool_decide_eq_true in Hn. destruct Hn as [[Hp Hb] Hg].
    cbn [type_render]. by rewrite decide_False, Hb, plain_no_list, plain_no_array by done.
  - cbn [nameable] in Hn. rewrite !andb_true_iff, !bool_decide_eq_true in Hn. destruct Hn as [Hp Hg].
    by rewrite decide_True by done.
  - rewrite decide_False by (apply bracket_not_generic; cbn; by left).
    assert (Hn' := Hn). cbn [nameable] in Hn. apply andb_true_iff in Hn as [Hn Hlen].
    rewrite parse_array_render; [done|done|]. apply IHty; [done|].
    cbn [type_render] in Hf. rewrite !bytes_app, !length_app in Hf. cbn in Hf. lia.
  - rewrite decide_False by (apply bracket_not_generic; cbn [type_render]; rewrite bytes_app; apply in_or_app; left; cbn; tauto).
    cbn [nameable] in Hn. unfold list_element. cbn [type_render].
    rewrite !bytes_app, starts_with_bytes_app. cbn [mbind option_bind].
    change (bytes "]") with ["]"%char]. rewrite strip_last_app. cbn [mbind option_bind].
    rewrite IHty; [done|done|]. cbn [type_render] in Hf. rewrite !bytes_app, !length_app in Hf. cbn in Hf. lia.
Qed.
End RoundTrip.

(** C29: a type that a program can name is read back from its rendering: over
    generic parameters that are plain names, at any nesting of lists and of
    arrays whose lengths are numbers of 32 bits or parameters. *)
Theorem type_name_roundtrip generic_params ty :
  generics_ok generic_params -> nameable generic_params ty = true ->
  parse_type_name generic_params (type_render ty) = Some ty.
Proof.
  intros Hg Hn. apply parse_render; [done..|]. rewrite bytes_length. lia.
Qed.

Lemma type_name_roundtrip_witness :
  nameable {[ "N" ]} (T_Array (T_List (T_Array (T_Named "Point") (C_Literal 4))) (C_Param "N")) = true /\
  parse_type_name {[ "N" ]} "[List[[Point; 4]]; N]"
    = Some (T_Array (T_List (T_Array (T_Named "Point") (C_Literal 4))) (C_Param "N")).
Proof.
  split; [vm_compute; reflexivity|].
  apply (type_name_roundtrip {[ "N" ]} (T_Array (T_List (T_Array (T_Named "Point") (C_Literal 4))) (C_Param "N")));
    [|vm_compute; reflexivity].
  intros g ->%elem_of_singleton. split; vm_compute; reflexivity.
Defined.
