(* ===== verification/Profile.v ===== *)
(** * Profiles

    [Profile] of [crates/sarif_frontend/src/semantic/profile.rs], the checks that
    [analyze] of [semantic.rs] makes for a profile after everything else (its
    second loop over the items), and the profile status of its reports. *)
From stdpp Require Import gmap pretty.
From S2P Require Import Prelude Syntax Hir SemType Ownership.

Open Scope nat_scope.

Inductive Profile := Profile_Core | Profile_Total | Profile_Rt.

(** [to_lowercase] on ASCII. *)
Definition to_lower (c : Ascii.ascii) : Ascii.ascii :=
  let n := Ascii.nat_of_ascii c in
  if (65 <=? n) && (n <=? 90) then Ascii.ascii_of_nat (n + 32) else c.

Definition lowercase (s : string) : string :=
  String.string_of_list_ascii (map to_lower (String.list_ascii_of_string s)).

Definition profile_parse (s : string) : option Profile :=
  let s := lowercase s in
  if String.eqb s "core" then Some Profile_Core
  else if String.eqb s "total" then Some Profile_Total
  else if String.eqb s "rt" then Some Profile_Rt
  else None.

Definition profile_keyword (p : Profile) : string :=
  match p with Profile_Core => "core" | Profile_Total => "total" | Profile_Rt => "rt" end.

(** ** Diagnostics *)

Definition total_effect (f : Hir.Function) (sig : FunctionSignature) : Diagnostic :=
  Diagnostic_new "semantic.total-effect"
    ("function `" ++ Hir.fn_name f ++ "` in total profile declares effects ["
     ++ String.concat ", " (map effect_keyword (sig_effects sig)) ++ "]")%string
    (Hir.fn_span f) (Some "Remove all effect declarations for the total profile.").

Definition total_loop (f : Hir.Function) : Diagnostic :=
  Diagnostic_new "semantic.total-loop"
    ("function `" ++ Hir.fn_name f ++ "` in total profile uses a non-terminating loop")%string
    (Hir.fn_span f) (Some "Use recursion or `repeat N` with a compile-time constant count.").

(** The effects the runtime profile blocks. *)
Definition rt_blocked (e : Effect) : bool :=
  match e with F_Io | F_Alloc | F_Async | F_Parallel => true | _ => false end.

Definition rt_effect (f : Hir.Function) (e : Effect) : Diagnostic :=
  Diagnostic_new "semantic.rt-effect"
    ("function `" ++ Hir.fn_name f ++ "` in rt profile declares blocked effect `" ++ effect_keyword e ++ "`")%string
    (Hir.fn_span f) (Some "Remove I/O, allocation, and concurrency effects for rt.").

Definition rt_type (message : string) (span : Span) (help : string) : Diagnostic :=
  Diagnostic_new "semantic.rt-type" message span (Some help).

Definition rt_param (f : Hir.Function) (name : string) (ty : Type_) (span : Span) : Diagnostic :=
  rt_type ("function `" ++ Hir.fn_name f ++ "` parameter `" ++ name ++ "` has rt-unsafe type `"
           ++ type_render ty ++ "`")%string span
    "Use only bounded, non-allocating types in rt signatures.".

Definition rt_return (f : Hir.Function) (ty : Type_) : Diagnostic :=
  rt_type ("function `" ++ Hir.fn_name f ++ "` has rt-unsafe return type `" ++ type_render ty ++ "`")%string
    (Hir.fn_span f) "Use only bounded, non-allocating types in rt signatures.".

Definition rt_payload (e : Hir.Enum) (variant : EnumVariantInfo) (payload : Type_) : Diagnostic :=
  rt_type ("enum `" ++ enum_name e ++ "` variant `" ++ info_name variant ++ "` has rt-unsafe payload type `"
           ++ type_render payload ++ "`")%string (enum_span e)
    "Use only bounded types for payloads in the rt profile.".

Definition rt_field (s : Hir.Struct) (name : string) (ty : Type_) : Diagnostic :=
  rt_type ("struct `" ++ struct_name s ++ "` field `" ++ name ++ "` has rt-unsafe type `"
           ++ type_render ty ++ "`")%string (struct_span s)
    "Use only bounded types for fields in the rt profile.".

(** ** The checks *)

Section Checks.
Context (functions : gmap string FunctionSignature) (enum_variants : EnumVariants)
  (struct_fields : StructFields) (struct_layouts : StructLayouts).

Definition rt_safe (ty : Type_) : bool := type_is_rt_safe struct_fields ty.

Definition total_function (f : Hir.Function) (sig : FunctionSignature) : list Diagnostic :=
  (if negb (Nat.eqb (length (sig_effects sig)) 0) then [total_effect f sig] else []) ++
  (if match fn_body f with Some body => body_contains_loop body | None => false end then [total_loop f] else []).

Definition rt_function (f : Hir.Function) (sig : FunctionSignature) : list Diagnostic :=
  flat_map (fun e => if rt_blocked e then [rt_effect f e] else []) (sig_effects sig) ++
  flat_map (fun '(name, ty, span) => if negb (rt_safe ty) then [rt_param f name ty span] else []) (sig_params sig) ++
  (if negb (rt_safe (sig_return_type sig)) then [rt_return f (sig_return_type sig)] else []).

Definition check_item (profile : Profile) (item : Item) : list Diagnostic :=
  match item, profile with
  | It_Function f, Profile_Total =>
      match functions !! Hir.fn_name f with Some sig => total_function f sig | None => [] end
  | It_Function f, Profile_Rt =>
      match functions !! Hir.fn_name f with Some sig => rt_function f sig | None => [] end
  | It_Enum e, Profile_Rt =>
      match enum_variants !! enum_name e with
      | Some variants =>
          flat_map (fun variant =>
            match info_payload variant with
            | Some payload => if negb (rt_safe payload) then [rt_payload e variant payload] else []
            | None => []
            end) variants
      | None => []
      end
  | It_Struct s, Profile_Rt =>
      match struct_layouts !! struct_name s with
      | Some layout =>
          flat_map (fun '(name, ty) => if negb (rt_safe ty) then [rt_field s name ty] else []) layout
      | None => []
      end
  | _, _ => []
  end.

Definition profile_diagnostics (profile : Profile) (module : HirModule) : list Diagnostic :=
  flat_map (check_item profile) module.

(** ** Reports *)

Definition function_rt_status (sig : FunctionSignature) : string :=
  if existsb rt_blocked (sig_effects sig) then "blocked in rt"
  else if rt_safe (sig_return_type sig) && forallb (fun '(_, ty, _) => rt_safe ty) (sig_params sig)
  then "profile-compatible" else "blocked in rt".

Definition enum_rt_status (variants : list EnumVariantInfo) : string :=
  if forallb (fun v => match info_payload v with Some ty => rt_safe ty | None => true end) variants
  then "profile-compatible" else "blocked in rt".

Definition struct_rt_status (fields : list Type_) : string :=
  if forallb rt_safe fields then "profile-compatible" else "blocked in rt".

Definition enum_ownership_status (variants : list EnumVariantInfo) : string :=
  if existsb (fun v => match info_payload v with
                       | Some ty => is_affine_type struct_fields enum_variants ty
                       | None => false end) variants
  then "contains affine payloads"
  else if forallb (fun v => match info_payload v with Some _ => false | None => true end) variants
  then "plain tag" else "plain value".

Definition struct_ownership_status (name : string) : string :=
  if struct_is_affine struct_fields enum_variants name then "contains affine fields" else "plain value".

(** The constants and parameters of a function. *)
Definition function_locals (sig : FunctionSignature) : Locals :=
  fold_left (fun locals '(name, ty, _) => <[name := ty]> locals) (sig_params sig)
    (gset_to_gmap T_I32 (sig_const_params sig)).

Definition function_ownership_status (f : Hir.Function) (sig : FunctionSignature) : string :=
  if existsb (fun usage => negb (is_borrow_only usage)) (sig_param_usages sig)
  then "consumes affine arguments"
  else if fst (check_affine_body_ownership
                 (match fn_body f with Some body => body | None => mkBody [] None (mkSpan 0 0) end) (function_locals sig)
                 functions enum_variants struct_fields struct_layouts (Hir.fn_name f))
  then "affine-safe in stage-0" else "affine violations".
End Checks.
