(* ===== verification/ProfileSpec.v ===== *)
(** * What passes a profile

    The total profile accepts a module if and only if no signature has an
    effect and no loop is found in a body; with the effects as [infer_effects]
    leaves them, nothing that a function can reach performs an effect.  The
    runtime profile agrees with the status of the reports.  What the two do not
    look at is shown on examples. *)
From stdpp Require Import gmap.
From S2P Require Import Prelude Syntax TextOps Mir Interp Sorts Hir SemType Ownership OwnershipSpec.
From S2P Require Import Builtins EffectInfer EffectSpec TypeSpec Profile.

Open Scope nat_scope.

(** ** Loops *)

Definition is_loop (e : Expr) : bool :=
  match e with
  | E_While _ _ _ => true
  | E_Repeat _ count _ _ => negb (is_constant_repeat count)
  | _ => false
  end.

(** Where [expr_contains_loop] looks: not into loops, not into the arms of a
    handler, and not into the target of an assignment. *)
Definition searched_exprs (e : Expr) : list Expr :=
  match e with E_While _ _ _ | E_Repeat _ _ _ _ => [] | _ => sub_exprs e end.
Definition searched_bodies (e : Expr) : list Body :=
  match e with E_While _ _ _ | E_Repeat _ _ _ _ => [] | E_Handle body _ => [body] | _ => sub_bodies e end.
Definition searched_stmt (s : Stmt) : list Expr :=
  match s with S_Assign _ value _ => [value] | _ => stmt_exprs s end.

Inductive searched (x : Expr) : Expr -> Prop :=
  | searched_here : searched x x
  | searched_sub e e' : In e' (searched_exprs e) -> searched x e' -> searched x e
  | searched_sub_body e b : In b (searched_bodies e) -> searched_body x b -> searched x e
with searched_body (x : Expr) : Body -> Prop :=
  | searched_expr b s e : In s (body_statements b) -> In e (searched_stmt s) -> searched x e -> searched_body x b
  | searched_arena b s b' : In s (body_statements b) -> In b' (stmt_bodies s) -> searched_body x b' -> searched_body x b
  | searched_tail b e : body_tail b = Some e -> searched x e -> searched_body x b.

Definition loop_in (e : Expr) : Prop := exists x, searched x e /\ is_loop x = true.
Definition loop_in_body (b : Body) : Prop := exists x, searched_body x b /\ is_loop x = true.

Lemma existsb_map {A B} (f : B -> bool) (g : A -> B) l : existsb f (map g l) = existsb (fun x => f (g x)) l.
Proof. induction l as [|x l IH]; cbn; [done|]. by rewrite IH. Qed.

Lemma existsb_ext' {A} (f g : A -> bool) l : (forall x, f x = g x) -> existsb f l = existsb g l.
Proof. intros H. induction l as [|x l IH]; cbn; [done|]. by rewrite H, IH. Qed.

Lemma expr_contains_loop_eq e :
  expr_contains_loop e =
  is_loop e || (existsb expr_contains_loop (searched_exprs e) || existsb body_contains_loop (searched_bodies e)).
Proof.
  destruct e; cbn; rewrite ?orb_false_r, ?existsb_map; try done.
  - unfold body_contains_loop. by rewrite orb_assoc.
  - f_equal. apply existsb_ext'. by intros [].
  - apply existsb_ext'. by intros [].
  - f_equal. apply existsb_ext'. by intros [].
Qed.

Lemma body_contains_loop_eq b :
  body_contains_loop b =
  existsb (fun s => existsb expr_contains_loop (searched_stmt s) || existsb body_contains_loop (stmt_bodies s))
    (body_statements b) || match body_tail b with Some e => expr_contains_loop e | None => false end.
Proof.
  destruct b as [stmts tl sp]. cbn. f_equal. apply existsb_ext'. intros []; cbn; by rewrite ?orb_false_r.
Qed.

Lemma contains_loop_spec :
  (forall e, expr_contains_loop e = true <-> loop_in e) /\ (forall b, body_contains_loop b = true <-> loop_in_body b).
Proof.
  set (P e := expr_contains_loop e = true <-> loop_in e). set (Q b := body_contains_loop b = true <-> loop_in_body b).
  assert (He : forall e, Forall P (sub_exprs e) -> Forall Q (sub_bodies e) -> P e).
  { intros e He Hb. rewrite List.Forall_forall in He, Hb.
    assert (He' : forall x, In x (searched_exprs e) -> P x) by (intros x Hx; apply He; destruct e; cbn in *; tauto).
    assert (Hb' : forall x, In x (searched_bodies e) -> Q x) by (intros x Hx; apply Hb; destruct e; cbn in *; tauto).
    unfold P. rewrite expr_contains_loop_eq, !orb_true_iff, !existsb_exists. unfold loop_in. split.
    - intros [H|[(x & Hx & H)|(b & Hx & H)]].
      + exists e. by split; [constructor|].
      + apply He' in H as (y & ? & ?); [|done]. exists y. split; [by eapply searched_sub|done].
      + apply Hb' in H as (y & ? & ?); [|done]. exists y. split; [by eapply searched_sub_body|done].
    - intros (x & H & Hl). inversion H; subst.
      + by left.
      + right. left. eexists. split; [done|]. apply He'; [done|]. by exists x.
      + right. right. eexists. split; [done|]. apply Hb'; [done|]. by exists x. }
  assert (Hb : forall b, Forall (stmt_all P Q) (body_statements b) -> option_all P (body_tail b) -> Q b).
  { intros b Hs Ht. rewrite List.Forall_forall in Hs.
    assert (Hse : forall s x, In s (body_statements b) -> In x (searched_stmt s) -> P x).
    { intros s x H1 H2. specialize (Hs s H1). destruct s; cbn in *; intuition (subst; auto). }
    assert (Hsb : forall s x, In s (body_statements b) -> In x (stmt_bodies s) -> Q x).
    { intros s x H1 H2. specialize (Hs s H1). destruct s; cbn in *; intuition (subst; auto). }
    unfold Q. rewrite body_contains_loop_eq, orb_true_iff, existsb_exists. unfold loop_in_body. split.
    - intros [(s & H1 & H)|H].
      + apply orb_true_iff in H as [(x & Hx & H)%existsb_exists|(x & Hx & H)%existsb_exists].
        * apply (Hse s) in H as (y & ? & ?); [|done..]. exists y. split; [by eapply searched_expr|done].
        * apply (Hsb s) in H as (y & ? & ?); [|done..]. exists y. split; [by eapply searched_arena|done].
      + destruct (body_tail b) eqn:E; [|done]. apply Ht in H as (y & ? & ?). exists y.
        split; [by eapply searched_tail|done].
    - intros (x & H & Hl). inversion H as [? s e H1 H2 H3|? s e H1 H2 H3|? e H1 H2]; subst.
      + left. exists s. split; [done|]. apply orb_true_iff. left. apply existsb_exists. exists e. split; [done|].
        apply (Hse s); [done..|]. by exists x.
      + left. exists s. split; [done|]. apply orb_true_iff. right. apply existsb_exists. exists e. split; [done|].
        apply (Hsb s); [done..|]. by exists x.
      + right. rewrite H1 in *. apply Ht. by exists x. }
  split; [exact (expr_tree_ind P Q He Hb)|exact (body_tree_ind P Q He Hb)].
Qed.

(** ** Checks *)

Lemma flat_map_nil {A B} (f : A -> list B) l : flat_map f l = [] <-> forall x, In x l -> f x = [].
Proof.
  induction l as [|x l IH]; cbn; [naive_solver|]. rewrite app_nil, IH. naive_solver.
Qed.

Lemma if_nil {A} (b : bool) (x : A) : (if b then [x] else []) = [] <-> b = false.
Proof. by destruct b. Qed.

Section Checks.
Context (functions : gmap string FunctionSignature) (enum_variants : EnumVariants)
  (struct_fields : StructFields) (struct_layouts : StructLayouts).

Lemma total_function_nil f sig :
  total_function f sig = [] <->
  sig_effects sig = [] /\ forall body, fn_body f = Some body -> ~ loop_in_body body.
Proof.
  unfold total_function. rewrite app_nil, !if_nil, negb_false_iff, Nat.eqb_eq, length_zero_iff_nil.
  destruct (fn_body f) as [body|]; [|naive_solver].
  rewrite <- not_true_iff_false, (proj2 contains_loop_spec). naive_solver.
Qed.

Lemma total_profile_nil module :
  profile_diagnostics functions enum_variants struct_fields struct_layouts Profile_Total module = [] <->
  forall f sig, In f (module_functions module) -> functions !! Hir.fn_name f = Some sig -> total_function f sig = [].
Proof.
  unfold profile_diagnostics, module_functions. rewrite flat_map_nil. split.
  - intros H f sig Hf Hsig. apply in_flat_map in Hf as (item & Hi & Hf).
    destruct item; cbn in Hf; try done. destruct Hf as [->|[]]. specialize (H _ Hi). cbn in H. by rewrite Hsig in H.
  - intros H item Hi. destruct item as [|f| | | | |]; cbn; try done.
    destruct (functions !! Hir.fn_name f) as [sig|] eqn:Hsig; [|done]. apply (H f); [|done].
    apply in_flat_map. exists (It_Function f). split; [done|by left].
Qed.

Lemma rt_safe_false ty : negb (rt_safe struct_fields ty) = false <-> ~ rt_unsafe struct_fields ty.
Proof.
  rewrite negb_false_iff. unfold rt_safe.
  apply (rt_search_exact struct_fields).
Qed.

Lemma rt_function_nil f sig :
  rt_function struct_fields f sig = [] <->
  (forall e, In e (sig_effects sig) -> rt_blocked e = false) /\
  (forall name ty span, In (name, ty, span) (sig_params sig) -> ~ rt_unsafe struct_fields ty) /\
  ~ rt_unsafe struct_fields (sig_return_type sig).
Proof.
  unfold rt_function. rewrite !app_nil, !flat_map_nil, if_nil, rt_safe_false. split.
  - intros (He & Hp & Hr). split_and!; [|by intros name ty span Hin; apply rt_safe_false, (proj1 (if_nil _ _) (Hp _ Hin))|done].
    intros e Hin. exact (proj1 (if_nil _ _) (He e Hin)).
  - intros (He & Hp & Hr). split_and!; [|intros [[name ty] span] Hin|done].
    + intros e Hin. by rewrite He.
    + by apply (proj2 (if_nil _ _)), rt_safe_false, (Hp name ty span).
Qed.

Lemma rt_status_nil sig :
  function_rt_status struct_fields sig = "profile-compatible" <->
  (forall e, In e (sig_effects sig) -> rt_blocked e = false) /\
  (forall name ty span, In (name, ty, span) (sig_params sig) -> ~ rt_unsafe struct_fields ty) /\
  ~ rt_unsafe struct_fields (sig_return_type sig).
Proof.
  unfold function_rt_status. destruct (existsb rt_blocked (sig_effects sig)) eqn:E.
  { split; [done|]. intros (He & _). apply existsb_exists in E as (e & Hin & Hb). by rewrite He in Hb. }
  assert (He : forall e, In e (sig_effects sig) -> rt_blocked e = false).
  { intros e Hin. apply not_true_iff_false. intros Hb. by rewrite (proj2 (existsb_exists _ _)) in E by eauto. }
  assert (Hs : rt_safe struct_fields (sig_return_type sig)
      && forallb (fun '(_, ty, _) => rt_safe struct_fields ty) (sig_params sig) = true <->
    (forall name ty span, In (name, ty, span) (sig_params sig) -> ~ rt_unsafe struct_fields ty) /\
    ~ rt_unsafe struct_fields (sig_return_type sig)).
  { rewrite andb_true_iff, forallb_forall, <- rt_safe_false, negb_false_iff. split.
    - intros [Hr Hp]. split; [|done]. intros name ty span Hin. apply rt_safe_false, negb_false_iff, (Hp _ Hin).
    - intros [Hp Hr]. split; [done|]. intros [[name ty] span] Hin.
      apply negb_false_iff, rt_safe_false, (Hp name ty span Hin). }
  destruct (_ && _); naive_solver.
Qed.
End Checks.

(** C30: the total profile accepts a module, its effects inferred, if and only if
    no signature has an effect and no loop is found in a body; then nothing that
    occurs in a function without an effects clause, other than [main], or in one
    it can reach by calls through such functions, is an effect.  Of [main], and of
    functions with a clause, only the clause is looked at. *)
Theorem total_profile_spec module functions order listing rounds functions' ev sf sl :
  NoDup (map Hir.fn_name (module_functions module)) ->
  order ≡ₚ map_to_list (module_fns module) -> (forall s, listing s ≡ₚ elements s) ->
  infer_effects order listing rounds functions = Some functions' ->
  (profile_diagnostics functions' ev sf sl Profile_Total module = [] <->
   forall f sig, In f (module_functions module) -> functions' !! Hir.fn_name f = Some sig ->
     sig_effects sig = [] /\ forall body, fn_body f = Some body -> ~ loop_in_body body) /\
  (profile_diagnostics functions' ev sf sl Profile_Total module = [] ->
   forall f e, In f (module_functions module) -> infers f -> is_Some (functions !! Hir.fn_name f) ->
     ~ has_effect module functions (Hir.fn_name f) e).
Proof.
  intros Hn Ho Hl E. destruct (infer_effects_result module functions Hn order Ho listing rounds functions' Hl E) as [Hi _].
  rewrite total_profile_nil. setoid_rewrite total_function_nil. split; [done|].
  intros H f e Hf Hfi [sig Hsig] He. destruct (Hi f sig Hf Hfi Hsig) as (l & Hl' & _ & _ & Hspec).
  apply Hspec in He. destruct (H f _ Hf Hl') as [Hnil _]. cbn in Hnil. subst l. by apply not_elem_of_nil in He.
Qed.

(** The runtime profile reports nothing for a function if and only if its
    report says that it is compatible: no effect of its signature is blocked,
    and no parameter or result has an unbounded part. *)
Theorem rt_profile_decides struct_fields f sig :
  (rt_function struct_fields f sig = [] <-> function_rt_status struct_fields sig = "profile-compatible") /\
  (rt_function struct_fields f sig = [] <->
   (forall e, In e (sig_effects sig) -> rt_blocked e = false) /\
   (forall name ty span, In (name, ty, span) (sig_params sig) -> ~ rt_unsafe struct_fields ty) /\
   ~ rt_unsafe struct_fields (sig_return_type sig)).
Proof. by rewrite rt_function_nil, rt_status_nil. Qed.

Lemma total_profile_spec_witness :
  exists functions',
    infer_effects (map_to_list (module_fns effects_module)) elements 4 effects_functions = Some functions' /\
    profile_diagnostics functions' ∅ ∅ ∅ Profile_Total effects_module <> [] /\
    (profile_diagnostics functions' ∅ ∅ ∅ Profile_Total effects_module = [] <->
     forall f sig, In f (module_functions effects_module) -> functions' !! Hir.fn_name f = Some sig ->
       sig_effects sig = [] /\ forall body, fn_body f = Some body -> ~ loop_in_body body).
Proof.
  destruct (infer_effects (map_to_list (module_fns effects_module)) elements 4 effects_functions) as [fs|] eqn:E;
    [|vm_compute in E; discriminate E].
  exists fs. split; [done|]. split; [vm_compute in E; injection E as <-; vm_compute; discriminate|].
  exact (proj1 (total_profile_spec effects_module effects_functions _ elements 4 fs ∅ ∅ ∅ effects_module_names
    (Permutation_refl _) (fun s => Permutation_refl _) E)).
Defined.

(** ** What the profiles do not see *)

(** [while true {}] *)
Definition forever : Expr := E_While (E_Bool true no_span) (block [] None) no_span.

(** [repeat 3 { while true {} }] *)
Definition repeated_forever : Body := block [stmt (E_Repeat None (number 3) (block [stmt forever] None) no_span)] None.

(** [handle { perform Ask.it() } with { it() { while true {} } }] *)
Definition handled_forever : Body :=
  block [stmt (E_Handle (block [] (Some (E_Perform "Ask" "it" [] no_span)))
                 [mkHandleArm "it" [] (block [stmt forever] None) no_span])] None.

(** [xs[comptime { while true {} }] = 1] *)
Definition index_forever : Body :=
  block [S_Assign (E_Index (var "xs") (E_Comptime (block [stmt forever] None)) no_span) (number 1) no_span] None.

Ltac occurs :=
  repeat first
    [ by apply in_here
    | eapply in_stmt; [by left|by left|]
    | eapply in_sub_body; [by right; left|]
    | eapply in_sub_body; [by left|]
    | eapply in_sub; [by right; left|] ].

(** The total profile accepts a loop without end inside a repeat with a
    constant count, in the arm of a handler, or in the index of an assignment. *)
Theorem total_profile_misses_loops body :
  In body [repeated_forever; handled_forever; index_forever] ->
  in_body forever body /\ is_loop forever = true /\
  profile_diagnostics {[ "f" := fresh_signature [] ]} ∅ ∅ ∅ Profile_Total [hir_function "f" body] = [].
Proof.
  intros [<-|[<-|[<-|[]]]]; (split; [|split; [done|vm_compute; reflexivity]]).
  - unfold repeated_forever. occurs.
  - unfold handled_forever. occurs.
  - unfold index_forever. occurs.
Qed.
Lemma total_profile_misses_loops_witness :
  In repeated_forever [repeated_forever; handled_forever; index_forever] /\ in_body forever repeated_forever.
Proof. split; [by left|]. apply total_profile_misses_loops. by left. Defined.

(** [fn f() { perform SystemIO.stdout_write("x") }] *)
Definition stdout_body : Body :=
  block [] (Some (E_Perform "SystemIO" "stdout_write" [E_String "x" "x" no_span] no_span)).

(** [fn f() { print("x") }] *)
Definition print_body : Body := block [] (Some (call "print" [E_String "x" "x" no_span])).

(** What becomes of a module with one function: its inferred effects, what a
    profile reports, and its status. *)
Definition one_function (profile : Profile) (body : Body) : option (list Effect * list Diagnostic * string) :=
  let module := [hir_function "f" body] in
  functions' ← infer_effects (map_to_list (module_fns module)) elements 2 {[ "f" := fresh_signature [] ]};
  sig ← functions' !! "f";
  Some (sig_effects sig, profile_diagnostics functions' ∅ ∅ ∅ profile module, function_rt_status ∅ sig).

(** The profiles accept functions that write to standard output.  The effect
    inferred for the system effect is the user effect named [SystemIO] and not
    [io], which the runtime profile blocks; the builtin [print] has no effect at
    all, and passes the total profile, too. *)
Theorem profiles_miss_output :
  is_Some (find_system_effect_method "SystemIO" "stdout_write") /\
  one_function Profile_Rt stdout_body = Some ([F_User "SystemIO"], [], "profile-compatible") /\
  is_builtin_name "print" = true /\
  one_function Profile_Rt print_body = Some ([], [], "profile-compatible") /\
  one_function Profile_Total print_body = Some ([], [], "profile-compatible").
Proof. split; [by eexists|]. split_and!; vm_compute; reflexivity. Qed.
