(* ===== verification/Resolve.v ===== *)
(** * Resolution of a module's names

    [resolve_module] of [crates/sarif_frontend/src/semantic/resolve.rs], with
    [check_type_exists] of [typecheck.rs] and the suggestions of [support.rs].
    The edit distance is that of the crate [strsim], a parameter.  The maps and
    sets are iterated in the order of their keys, as [BTreeMap] does. *)
From stdpp Require Import gmap pretty.
From S2P Require Import Prelude Syntax Utf8 TextOps Mir Interp Hir SemType Ownership Builtins.

Open Scope nat_scope.

(** ** The resolved module *)

Record ResolvedModule := mkResolvedModule {
  functions : gmap string FunctionSignature;
  consts : gmap string Type_;
  enum_variants : EnumVariants;
  struct_fields : StructFields;
  struct_layouts : StructLayouts;
  known_types : gset string
}.

Definition set_functions fs (m : ResolvedModule) : ResolvedModule :=
  mkResolvedModule fs (consts m) (enum_variants m) (struct_fields m) (struct_layouts m) (known_types m).
Definition set_consts cs (m : ResolvedModule) : ResolvedModule :=
  mkResolvedModule (functions m) cs (enum_variants m) (struct_fields m) (struct_layouts m) (known_types m).
Definition set_enums es (m : ResolvedModule) : ResolvedModule :=
  mkResolvedModule (functions m) (consts m) es (struct_fields m) (struct_layouts m) (known_types m).
Definition set_fields fs (m : ResolvedModule) : ResolvedModule :=
  mkResolvedModule (functions m) (consts m) (enum_variants m) fs (struct_layouts m) (known_types m).
Definition set_layouts ls (m : ResolvedModule) : ResolvedModule :=
  mkResolvedModule (functions m) (consts m) (enum_variants m) (struct_fields m) ls (known_types m).

(** The maps, [decl_origin] and the diagnostics. *)
Record State := mkState {
  resolved : ResolvedModule;
  decl_origin : gmap string (string * Span);
  reported : list Diagnostic
}.

Definition report (ds : list Diagnostic) (st : State) : State :=
  mkState (resolved st) (decl_origin st) (reported st ++ ds).
Definition update (f : ResolvedModule -> ResolvedModule) (st : State) : State :=
  mkState (f (resolved st)) (decl_origin st) (reported st).
Definition declare (name kind : string) (span : Span) (st : State) : State :=
  mkState (resolved st) (<[name := (kind, span)]> (decl_origin st)) (reported st).

(** [functions.contains_key(name) || consts.. || enum_variants.. || struct_layouts..] *)
Definition taken (name : string) (m : ResolvedModule) : bool :=
  bool_decide (is_Some (functions m !! name)) || bool_decide (is_Some (consts m !! name))
  || bool_decide (is_Some (enum_variants m !! name)) || bool_decide (is_Some (struct_layouts m !! name)).

(** The entries of a [BTreeMap] and the elements of a [BTreeSet] in their order. *)
Definition in_order {A} (m : gmap string A) : list (string * A) :=
  sort_by (fun a b => compare_text a.1 b.1) (map_to_list m).
Definition names_in_order (s : gset string) : list string := sort_by compare_text (elements s).

(** ** Known types *)

Definition builtin_types : list string :=
  ["I32"; "I64"; "F64"; "Bool"; "Text"; "Bytes"; "TextIndex"; "TextBuilder"; "File"; "List"; "Unit";
   "SystemIO"; "SystemFile"; "SystemEnv"; "SystemDir"; "SystemProcess"; "SystemClock"].

Definition add_known_type (imported : gmap string ResolvedModule) (item : Item) (known : gset string) : gset string :=
  match item with
  | It_Enum e => {[ enum_name e ]} ∪ known
  | It_Struct s => {[ struct_name s ]} ∪ known
  | It_Effect e => {[ effect_name e ]} ∪ known
  | It_Import i => match imported !! import_module i with Some r => known_types r ∪ known | None => known end
  | _ => known
  end.

Definition collect_known_types (imported : gmap string ResolvedModule) (module : HirModule) : gset string :=
  fold_left (fun known item => add_known_type imported item known) module (list_to_set builtin_types).

(** ** Suggestions *)

Section Resolve.
Context (levenshtein : string -> string -> nat).

(** [min_by_key]: the first of the least *)
Fixpoint closest (best : option (nat * string)) (l : list (nat * string)) : option (nat * string) :=
  match l with
  | [] => best
  | (d, c) :: l' =>
      match best with
      | Some (d', _) => if d <? d' then closest (Some (d, c)) l' else closest best l'
      | None => closest (Some (d, c)) l'
      end
  end.

Definition best_match (name : string) (candidates : list string) : option string :=
  option_map snd (closest None
    (List.filter (fun '(distance, _) => distance <=? 3) (map (fun c => (levenshtein name c, c)) candidates))).

Definition suggestion_help (suggestion : option string) (default_ : string) : string :=
  match suggestion with Some s => ("Did you mean `" ++ s ++ "`?")%string | None => default_ end.

(** ** Types *)

Definition unknown_type (known generic_params : gset string) (ty : Type_) (path : string) (span : Span)
    (context : string) : Diagnostic :=
  let suggestion := best_match path (names_in_order known) in
  let other :=
    (("unknown " ++ context ++ " `" ++ path ++ "`")%string,
     Some (suggestion_help suggestion "Use a builtin type, a declared struct name, or a generic parameter.")) in
  let '(message, help) :=
    match ty with
    | T_Param name =>
        if decide (name ∈ generic_params) then other
        else (("unknown generic parameter `" ++ name ++ "`")%string,
              Some "Declare the generic parameter on the enclosing function.")
    | T_Array _ (C_Param name) =>
        if decide (name ∈ generic_params) then other
        else (("unknown array length parameter `" ++ name ++ "`")%string,
              Some "Declare the length parameter on the enclosing function.")
    | _ => other
    end in
  Diagnostic_new "semantic.unknown-type" message span help.

Definition check_type_exists (known generic_params : gset string) (ref : TypeRef) (context : string)
    : list Diagnostic :=
  let ty := default (T_Named (path ref)) (parse_type_name generic_params (path ref)) in
  if type_exists ty known generic_params then []
  else [unknown_type known generic_params ty (path ref) (type_ref_span ref) context].

Fixpoint collect_const_expr_params (e : ConstExpr) (params : gset string) : gset string :=
  match e with
  | C_Literal _ => params
  | C_Param name => {[ name ]} ∪ params
  | C_Add l r | C_Sub l r | C_Mul l r => collect_const_expr_params r (collect_const_expr_params l params)
  end.

Fixpoint collect_const_params_from_type (ty : Type_) (params : gset string) : gset string :=
  match ty with
  | T_Array element size => collect_const_expr_params size (collect_const_params_from_type element params)
  | T_List element => collect_const_params_from_type element params
  | T_Pair l r => collect_const_params_from_type r (collect_const_params_from_type l params)
  | _ => params
  end.

Definition collect_const_params_from_function (f : Hir.Function) (generic_params : gset string) : gset string :=
  let params := fold_left (fun params param =>
    collect_const_params_from_type (type_from_ref generic_params (param_ty param)) params) (fn_params f) ∅ in
  match fn_return_type f with
  | Some return_type => collect_const_params_from_type (type_from_ref generic_params return_type) params
  | None => params
  end.

(** ** Declarations *)

Definition builtin_shadow (name : string) (span : Span) : list Diagnostic :=
  if is_builtin_name name
  then [mkDiagnostic "semantic.builtin-shadow" ("item `" ++ name ++ "` shadows a builtin name")%string span
          (Some "Consider using a different name.") None]
  else [].

(** What an item is, in the help of its duplicate. *)
Definition duplicate_item (name : string) (span : Span) (noun : string) (st : State) : Diagnostic :=
  let prev := decl_origin st !! name in
  mkDiagnostic "semantic.duplicate-item"
    ("item `" ++ name ++ "` is already declared in this module"
     ++ match prev with Some (kind, _) => " as " ++ kind | None => "" end)%string
    span (Some ("Use a unique name for this " ++ noun ++ ".")%string) (snd <$> prev).

Definition resolve_const (c : Hir.Const) (st : State) : State :=
  let name := const_name c in
  let st := report (builtin_shadow name (const_span c)) st in
  let st := if taken name (resolved st) then report [duplicate_item name (const_span c) "constant" st] st else st in
  let st := report (check_type_exists (known_types (resolved st)) ∅ (const_ty c) "type") st in
  declare name "const" (const_span c)
    (update (fun m => set_consts (<[name := type_from_ref ∅ (const_ty c)]> (consts m)) m) st).

(** The generic parameters and what is wrong with them. *)
Definition generic_params_of (known : gset string) (type_params : list GenericParam)
    : gset string * list Diagnostic :=
  fold_left (fun '(generics, ds) param =>
    let name := generic_name param in
    if decide (name ∈ generics) then
      (generics, ds ++ [Diagnostic_new "semantic.duplicate-type-param"
        ("generic parameter `" ++ name ++ "` is declared more than once")%string (generic_span param)
        (Some "Use each generic parameter name only once.")])
    else if decide (name ∈ known) then
      ({[ name ]} ∪ generics, ds ++ [Diagnostic_new "semantic.duplicate-type-param"
        ("generic parameter `" ++ name ++ "` conflicts with an existing type name")%string (generic_span param)
        (Some "Rename the generic parameter so it does not shadow a type.")])
    else ({[ name ]} ∪ generics, ds)) type_params (∅, []).

(** The parameters with their types, and what is wrong with these. *)
Definition params_of (known generics : gset string) (params : list Param)
    : list (string * Type_ * Span) * list Diagnostic :=
  (map (fun p => (param_name p, type_from_ref generics (param_ty p), param_span p)) params,
   flat_map (fun p => check_type_exists known generics (param_ty p) "parameter type") params).

Definition return_check (known generics : gset string) (return_type : option TypeRef) : list Diagnostic :=
  match return_type with Some ty => check_type_exists known generics ty "return type" | None => [] end.

Definition return_type_of (generics : gset string) (return_type : option TypeRef) : Type_ :=
  match return_type with Some ty => type_from_ref generics ty | None => T_Unit end.

Definition system_effects : list string :=
  ["SystemIO"; "SystemFile"; "SystemEnv"; "SystemDir"; "SystemProcess"; "SystemClock"].

Definition effect_names : list string :=
  ["io"; "alloc"; "async"; "parallel"; "clock"; "ffi"; "nondet"] ++ system_effects.

(** The effects of a clause; [seen] holds the built-in ones before. *)
Fixpoint effects_of_clause (seen : list Effect) (refs : list EffectRef) : list Effect * list Diagnostic :=
  match refs with
  | [] => ([], [])
  | ER_Builtin effect span :: refs' =>
      let '(effects, ds) := effects_of_clause (effect :: seen) refs' in
      (effect :: effects,
       (if bool_decide (effect ∈ seen)
        then [Diagnostic_new "semantic.duplicate-effect"
                ("duplicate effect `" ++ effect_keyword effect ++ "` in declaration")%string span
                (Some "Remove the redundant effect name.")]
        else []) ++ ds)
  | ER_Unknown name span :: refs' =>
      let '(effects, ds) := effects_of_clause seen refs' in
      if one_of name system_effects then (F_User name :: effects, ds)
      else (effects,
            Diagnostic_new "semantic.unknown-effect" ("unknown effect `" ++ name ++ "`")%string span
              (Some (suggestion_help (best_match name effect_names) "Use a builtin effect such as `io` or `alloc`."))
            :: ds)
  end.

Definition resolve_function (f : Hir.Function) (st : State) : State :=
  let name := Hir.fn_name f in
  let st := report (builtin_shadow name (Hir.fn_span f)) st in
  if taken name (resolved st) then report [duplicate_item name (Hir.fn_span f) "function" st] st
  else
    let known := known_types (resolved st) in
    let '(generics, ds_generics) := generic_params_of known (fn_type_params f) in
    let '(params, ds_params) := params_of known generics (Hir.fn_params f) in
    let '(effects, ds_effects) := effects_of_clause [] (Hir.fn_effects f) in
    let st := report (ds_generics ++ ds_params ++ return_check known generics (fn_return_type f) ++ ds_effects) st in
    let sig := mkFunctionSignature (collect_const_params_from_function f generics) params
                 (map (fun _ => usage_borrow_only) params) (return_type_of generics (fn_return_type f)) effects
                 (Hir.fn_span f) in
    declare name "function" (Hir.fn_span f)
      (update (fun m => set_functions (<[name := sig]> (functions m)) m) st).

(** The variants and what is wrong with them; [used] holds the discriminants
    before.  ([next_auto] of the source is never read.) *)
Fixpoint variants_of (known : gset string) (used : list Z) (vs : list EnumVariant)
    : list EnumVariantInfo * list Diagnostic :=
  match vs with
  | [] => ([], [])
  | v :: vs' =>
      let ds_payload :=
        match variant_payload v with
        | Some payload => check_type_exists known ∅ payload "variant payload type"
        | None => []
        end in
      let '(used, ds_discriminant) :=
        match variant_discriminant v with
        | Some (C_Literal value) =>
            (value :: used,
             if bool_decide (value ∈ used)
             then [Diagnostic_new "semantic.enum-discriminant-duplicate"
                     ("enum variant `" ++ variant_name v ++ "` has discriminant value " ++ pretty value
                      ++ " which is already used by another variant")%string (variant_span v)
                     (Some "Use unique discriminant values for each enum variant.")]
             else [])
        | _ => (used, [])
        end in
      let info := mkEnumVariantInfo (variant_name v) (type_from_ref ∅ <$> variant_payload v) (variant_discriminant v) in
      let '(infos, ds) := variants_of known used vs' in
      (info :: infos, ds_payload ++ ds_discriminant ++ ds)
  end.

Definition resolve_enum (e : Hir.Enum) (st : State) : State :=
  let name := enum_name e in
  let st := report (builtin_shadow name (enum_span e)) st in
  if taken name (resolved st) then report [duplicate_item name (enum_span e) "enum" st] st
  else
    let '(infos, ds) := variants_of (known_types (resolved st)) [] (variants e) in
    declare name "enum" (enum_span e)
      (update (fun m => set_enums (<[name := infos]> (enum_variants m)) m) (report ds st)).

Definition resolve_struct (s : Hir.Struct) (st : State) : State :=
  let name := struct_name s in
  let st := report (builtin_shadow name (struct_span s)) st in
  if taken name (resolved st) then report [duplicate_item name (struct_span s) "struct" st] st
  else
    let ds := flat_map (fun f => check_type_exists (known_types (resolved st)) ∅ (field_ty f) "field type")
                (struct_fields_decl s) in
    let layout := map (fun f => (Hir.field_name f, type_from_ref ∅ (field_ty f))) (struct_fields_decl s) in
    declare name "struct" (struct_span s)
      (update (fun m => set_layouts (<[name := layout]> (struct_layouts m))
                          (set_fields (<[name := map snd layout]> (struct_fields m)) m)) (report ds st)).

Definition resolve_extern (f : Hir.ExternFunction) (st : State) : State :=
  let name := extern_name f in
  if taken name (resolved st) then report [duplicate_item name (extern_span f) "extern function" st] st
  else
    let known := known_types (resolved st) in
    let '(params, ds_params) := params_of known ∅ (extern_params f) in
    let st := report (ds_params ++ return_check known ∅ (extern_return_type f)) st in
    let sig := mkFunctionSignature ∅ params (map (fun _ => usage_borrow_only) params)
                 (return_type_of ∅ (extern_return_type f)) [] (extern_span f) in
    declare name "extern" (extern_span f)
      (update (fun m => set_functions (<[name := sig]> (functions m)) m) st).

(** ** Imports *)

Definition import_conflict (what name : string) (span : Span) (help : string) : Diagnostic :=
  Diagnostic_new "semantic.import-conflict"
    ("imported " ++ what ++ " `" ++ name ++ "` conflicts with an existing item")%string span (Some help).

(** One name: [add] it, unless there is a conflict. *)
Definition import_one (conflict : bool) (what name : string) (span : Span) (help : string)
    (add : ResolvedModule -> ResolvedModule) (st : State) : State :=
  if conflict then report [import_conflict what name span help] st else update add st.

Definition has_enum (name : string) (m : ResolvedModule) : bool := bool_decide (is_Some (enum_variants m !! name)).
Definition has_struct (name : string) (m : ResolvedModule) : bool := bool_decide (is_Some (struct_layouts m !! name)).

Definition add_function name sig (m : ResolvedModule) := set_functions (<[name := sig]> (functions m)) m.
Definition add_const name ty (m : ResolvedModule) := set_consts (<[name := ty]> (consts m)) m.
Definition add_enum name vs (m : ResolvedModule) := set_enums (<[name := vs]> (enum_variants m)) m.
Definition add_fields name fs (m : ResolvedModule) := set_fields (<[name := fs]> (struct_fields m)) m.
Definition add_layout name l (m : ResolvedModule) := set_layouts (<[name := l]> (struct_layouts m)) m.

(** [import m] *)
Definition import_all (i : ImportDecl) (r : ResolvedModule) (st : State) : State :=
  let help name := ("Use selective import: `from " ++ import_module i ++ " import ...` excluding `" ++ name ++ "`.")%string in
  let span := import_span i in
  let st := fold_left (fun st '(name, sig) =>
    import_one (taken name (resolved st)) "function" name span (help name) (add_function name sig) st)
    (in_order (functions r)) st in
  let st := fold_left (fun st '(name, ty) =>
    import_one (taken name (resolved st)) "constant" name span (help name) (add_const name ty) st)
    (in_order (consts r)) st in
  let st := fold_left (fun st '(name, vs) =>
    import_one (has_enum name (resolved st)) "enum" name span (help name) (add_enum name vs) st)
    (in_order (enum_variants r)) st in
  let st := fold_left (fun st '(name, fs) => update (add_fields name fs) st) (in_order (struct_fields r)) st in
  fold_left (fun st '(name, l) =>
    import_one (has_struct name (resolved st)) "struct" name span (help name) (add_layout name l) st)
    (in_order (struct_layouts r)) st.

(** The fields of an imported type, if there are any. *)
Definition copy_fields (name : string) (r m : ResolvedModule) : ResolvedModule :=
  match struct_fields r !! name with Some fs => add_fields name fs m | None => m end.

(** [from m import names] *)
Definition import_name (i : ImportDecl) (r : ResolvedModule) (name : string) (st : State) : State :=
  let help := ("Rename the local item or use a different import name for `" ++ name ++ "`.")%string in
  let span := import_span i in
  let types_taken := has_enum name (resolved st) || has_struct name (resolved st) in
  match functions r !! name, consts r !! name, enum_variants r !! name, struct_layouts r !! name with
  | Some sig, _, _, _ => import_one (taken name (resolved st)) "function" name span help (add_function name sig) st
  | None, Some ty, _, _ => import_one (taken name (resolved st)) "constant" name span help (add_const name ty) st
  | None, None, Some vs, _ =>
      import_one types_taken "enum" name span help (fun m => copy_fields name r (add_enum name vs m)) st
  | None, None, None, Some l =>
      import_one types_taken "struct" name span help (fun m => add_layout name l (copy_fields name r m)) st
  | None, None, None, None =>
      report [Diagnostic_new "semantic.import-name-not-found"
        ("name `" ++ name ++ "` not found in module `" ++ import_module i
         ++ "` — the symbol is not exported from that module")%string span
        (Some ("Check that `" ++ name ++ "` is exported from `" ++ import_module i
               ++ "` and that its declaration is visible before the import statement.")%string)] st
  end.

Definition import_not_found (i : ImportDecl) : Diagnostic :=
  Diagnostic_new "semantic.import-not-found"
    ("import module `" ++ import_module i ++ "` not found — the file `" ++ import_module i
     ++ ".sarif` could not be located in any import search path. Check that the module name matches the file name, and "
     ++ "that the file exists relative to the entry point or any configured import directories.")%string
    (import_span i)
    (Some ("Try: `sarc --import-path <dir> <file>` or ensure the module declaration resolves to a `.sarif` file "
           ++ "in the same directory as your project root.")%string).

Definition resolve_import (imported : gmap string ResolvedModule) (i : ImportDecl) (st : State) : State :=
  match imported !! import_module i with
  | None => report [import_not_found i] st
  | Some r =>
      match import_names i with
      | [] => import_all i r st
      | names => fold_left (fun st name => import_name i r name st) names st
      end
  end.

(** ** The module *)

Definition resolve_item (imported : gmap string ResolvedModule) (item : Item) (st : State) : State :=
  match item with
  | It_Const c => resolve_const c st
  | It_Function f => resolve_function f st
  | It_Enum e => resolve_enum e st
  | It_Struct s => resolve_struct s st
  | It_Effect _ => st
  | It_Import i => resolve_import imported i st
  | It_ExternBlock b => fold_left (fun st f => resolve_extern f st) (extern_functions b) st
  end.

Definition initial_state (known : gset string) : State := mkState (mkResolvedModule ∅ ∅ ∅ ∅ ∅ known) ∅ [].

(** The module, and what was added to the diagnostics. *)
Definition resolve_module (module : HirModule) (imported : gmap string ResolvedModule)
    : ResolvedModule * list Diagnostic :=
  let st := fold_left (fun st item => resolve_item imported item st) module
              (initial_state (collect_known_types imported module)) in
  (resolved st, reported st).
End Resolve.
