(* ===== verification/ResolveSpec.v ===== *)
(** * What resolution guarantees

    A module without imports that resolves without a diagnostic has distinct
    names, every declaration has its entry, and every type that is mentioned
    exists; fields and layouts agree whatever is reported.  With imports two
    declarations of one name can go unnoticed.  The resolution of imports
    ([crates/sarif_frontend/src/lib.rs]) and its end. *)
From stdpp Require Import gmap.
From S2P Require Import Ownership Builtins TypeSpec EffectInfer EffectSpec Prelude Syntax Hir SemType Resolve OwnershipSpec.

Open Scope nat_scope.

(** ** Declarations *)

Inductive Decl :=
  | D_Const (item : Hir.Const)
  | D_Function (item : Hir.Function)
  | D_Enum (item : Hir.Enum)
  | D_Struct (item : Hir.Struct)
  | D_Extern (item : Hir.ExternFunction).

Definition decl_name (d : Decl) : string :=
  match d with
  | D_Const c => const_name c
  | D_Function f => Hir.fn_name f
  | D_Enum e => enum_name e
  | D_Struct s => struct_name s
  | D_Extern f => extern_name f
  end.

Definition item_decls (item : Item) : list Decl :=
  match item with
  | It_Const c => [D_Const c]
  | It_Function f => [D_Function f]
  | It_Enum e => [D_Enum e]
  | It_Struct s => [D_Struct s]
  | It_ExternBlock b => map D_Extern (extern_functions b)
  | It_Effect _ | It_Import _ => []
  end.

(** The declarations of a module, and their names. *)
Definition decls (module : HirModule) : list Decl := flat_map item_decls module.
Definition declared_names (module : HirModule) : list string := map decl_name (decls module).

Definition not_import (item : Item) : bool := match item with It_Import _ => false | _ => true end.
Definition import_free (module : HirModule) : bool := forallb not_import module.

Section Spec.
Context (levenshtein : string -> string -> nat).

Definition resolve_decl (d : Decl) (st : State) : State :=
  match d with
  | D_Const c => resolve_const levenshtein c st
  | D_Function f => resolve_function levenshtein f st
  | D_Enum e => resolve_enum levenshtein e st
  | D_Struct s => resolve_struct levenshtein s st
  | D_Extern f => resolve_extern levenshtein f st
  end.

Lemma resolve_items_decls imported module st :
  import_free module = true ->
  fold_left (fun st item => resolve_item levenshtein imported item st) module st
  = fold_left (fun st d => resolve_decl d st) (decls module) st.
Proof.
  revert st. induction module as [|item module IH]; intros st; [done|].
  unfold import_free in *. cbn [forallb]. intros [Hi Hm]%andb_true_iff. cbn [fold_left].
  rewrite IH by done. unfold decls. cbn [flat_map]. rewrite fold_left_app. f_equal.
  destruct item; try done. cbn.
  generalize st. induction (extern_functions item) as [|f l IHl]; intros st'; cbn; [done|apply IHl].
Qed.

(** ** What a declaration adds *)

Section Known.
Context (known : gset string).

Definition function_generics (f : Hir.Function) : gset string := (generic_params_of known (fn_type_params f)).1.

Definition function_signature (f : Hir.Function) : FunctionSignature :=
  let generics := function_generics f in
  let params := (params_of levenshtein known generics (Hir.fn_params f)).1 in
  mkFunctionSignature (collect_const_params_from_function f generics) params
    (map (fun _ => usage_borrow_only) params) (return_type_of generics (fn_return_type f))
    (effects_of_clause levenshtein [] (Hir.fn_effects f)).1 (Hir.fn_span f).

Definition extern_signature (f : Hir.ExternFunction) : FunctionSignature :=
  let params := (params_of levenshtein known ∅ (extern_params f)).1 in
  mkFunctionSignature ∅ params (map (fun _ => usage_borrow_only) params)
    (return_type_of ∅ (extern_return_type f)) [] (extern_span f).

Definition enum_infos (e : Hir.Enum) : list EnumVariantInfo :=
  map (fun v => mkEnumVariantInfo (variant_name v) (type_from_ref ∅ <$> variant_payload v) (variant_discriminant v))
    (variants e).

Definition struct_layout (s : Hir.Struct) : list (string * Type_) :=
  map (fun f => (Hir.field_name f, type_from_ref ∅ (field_ty f))) (struct_fields_decl s).

Definition put (d : Decl) (m : ResolvedModule) : ResolvedModule :=
  match d with
  | D_Const c => set_consts (<[const_name c := type_from_ref ∅ (const_ty c)]> (consts m)) m
  | D_Function f => set_functions (<[Hir.fn_name f := function_signature f]> (functions m)) m
  | D_Extern f => set_functions (<[extern_name f := extern_signature f]> (functions m)) m
  | D_Enum e => set_enums (<[enum_name e := enum_infos e]> (enum_variants m)) m
  | D_Struct s =>
      set_layouts (<[struct_name s := struct_layout s]> (struct_layouts m))
        (set_fields (<[struct_name s := map snd (struct_layout s)]> (struct_fields m)) m)
  end.

(** The entry of a declaration. *)
Definition entered (d : Decl) (m : ResolvedModule) : Prop :=
  match d with
  | D_Const c => consts m !! const_name c = Some (type_from_ref ∅ (const_ty c))
  | D_Function f => functions m !! Hir.fn_name f = Some (function_signature f)
  | D_Extern f => functions m !! extern_name f = Some (extern_signature f)
  | D_Enum e => enum_variants m !! enum_name e = Some (enum_infos e)
  | D_Struct s =>
      struct_layouts m !! struct_name s = Some (struct_layout s) /\
      struct_fields m !! struct_name s = Some (map snd (struct_layout s))
  end.

(** The types a declaration mentions, with the generic parameters in scope. *)
Definition mentioned (d : Decl) : list (gset string * Type_) :=
  match d with
  | D_Const c => [(∅, type_from_ref ∅ (const_ty c))]
  | D_Function f =>
      map (fun p => (function_generics f, type_from_ref (function_generics f) (param_ty p))) (Hir.fn_params f) ++
      match fn_return_type f with
      | Some ty => [(function_generics f, type_from_ref (function_generics f) ty)]
      | None => []
      end
  | D_Extern f =>
      map (fun p => (∅, type_from_ref ∅ (param_ty p))) (extern_params f) ++
      match extern_return_type f with Some ty => [(∅, type_from_ref ∅ ty)] | None => [] end
  | D_Enum e =>
      flat_map (fun v => match variant_payload v with Some ty => [(∅, type_from_ref ∅ ty)] | None => [] end) (variants e)
  | D_Struct s => map (fun f => (∅, type_from_ref ∅ (field_ty f))) (struct_fields_decl s)
  end.

Definition all_exist (d : Decl) : Prop :=
  forall generics ty, In (generics, ty) (mentioned d) -> type_exists ty known generics = true.

Lemma check_type_nil generics ref context :
  check_type_exists levenshtein known generics ref context = [] <->
  type_exists (type_from_ref generics ref) known generics = true.
Proof.
  unfold check_type_exists, type_from_ref. by destruct (type_exists _ _ _).
Qed.
End Known.

(** ** One declaration *)

Lemma variants_of_infos known used e_vs :
  (variants_of levenshtein known used e_vs).1
  = map (fun v => mkEnumVariantInfo (variant_name v) (type_from_ref ∅ <$> variant_payload v) (variant_discriminant v)) e_vs.
Proof.
  revert used. induction e_vs as [|v vs IH]; intros used; cbn; [done|].
  destruct (match variant_discriminant v with Some (C_Literal _) => _ | _ => _ end) as [used' ds].
  specialize (IH used'). destruct (variants_of levenshtein known used' vs). cbn in *. by rewrite IH.
Qed.

Lemma variants_of_payloads known used vs v ty :
  (variants_of levenshtein known used vs).2 = [] -> In v vs -> variant_payload v = Some ty ->
  check_type_exists levenshtein known ∅ ty "variant payload type" = [].
Proof.
  revert used. induction vs as [|w vs IH]; intros used; cbn; [done|].
  destruct (match variant_discriminant w with Some (C_Literal _) => _ | _ => _ end) as [used' ds].
  specialize (IH used'). destruct (variants_of levenshtein known used' vs) as [infos ds']. cbn in *.
  intros [H1 [H2 H3]%app_nil]%app_nil [<-|Hv] Hty; [by rewrite Hty in H1|by apply IH].
Qed.

Lemma flat_map_nil_in {A B} (f : A -> list B) l x : flat_map f l = [] -> In x l -> f x = [].
Proof. induction l as [|y l IH]; cbn; [done|]. intros [H1 H2]%app_nil [<-|Hx]; [done|by apply IH]. Qed.

Ltac nils :=
  repeat match goal with
    | H : _ ++ _ = [] |- _ => apply app_nil in H as [? ?]
    | H : [_] = [] |- _ => discriminate H
    | H : _ :: _ = [] |- _ => discriminate H
    end.

Ltac by_field Hin :=
  match goal with
  | H : flat_map _ _ = [] |- _ => exact (proj1 (check_type_nil _ _ _ _) (flat_map_nil_in _ _ _ H Hin))
  end.

(** The guard of a declaration: it ends in its entry, or in a diagnostic. *)
Lemma resolve_decl_clean d st :
  reported (resolve_decl d st) = [] ->
  reported st = [] /\ taken (decl_name d) (resolved st) = false /\
  resolved (resolve_decl d st) = put (known_types (resolved st)) d (resolved st) /\
  all_exist (known_types (resolved st)) d.
Proof.
  destruct d as [c|f|e|s|f]; cbn [resolve_decl decl_name].
  - unfold resolve_const. cbn [reported resolved declare update report].
    destruct (taken _ _) eqn:Ht; cbn; intros H; nils. split_and!; try done.
    intros generics ty [[= <- <-]|[]]. by eapply check_type_nil.
  - unfold resolve_function. cbn [reported resolved declare update report].
    destruct (taken _ _) eqn:Ht; cbn [reported report]; [intros H; nils|].
    set (known := known_types (resolved st)).
    destruct (generic_params_of known (fn_type_params f)) as [generics ds_g] eqn:Eg.
    destruct (params_of levenshtein known generics (Hir.fn_params f)) as [params ds_p] eqn:Ep.
    destruct (effects_of_clause levenshtein [] (Hir.fn_effects f)) as [effects ds_e] eqn:Ee.
    cbn [reported resolved declare update report]. intros H. nils.
    assert (Hg : function_generics known f = generics) by (unfold function_generics; by rewrite Eg).
    split_and!; try done.
    + unfold put, function_signature. by rewrite Hg, Ep, Ee.
    + intros g ty. cbn [mentioned]. rewrite Hg. intros [(p & [= <- <-] & Hp)%in_map_iff|Hr]%in_app_iff.
      * injection Ep as <- <-. by_field Hp.
      * destruct (fn_return_type f) as [rt|]; [|done]. destruct Hr as [[= <- <-]|[]]. by eapply check_type_nil.
  - unfold resolve_enum. cbn [reported resolved declare update report].
    destruct (taken _ _) eqn:Ht; cbn [reported report]; [intros H; nils|].
    destruct (variants_of levenshtein (known_types (resolved st)) [] (variants e)) as [infos ds] eqn:Ev.
    cbn [reported resolved declare update report]. intros H. nils. split_and!; try done.
    + unfold put, enum_infos. by rewrite <- (variants_of_infos (known_types (resolved st)) []), Ev.
    + intros g ty. cbn [mentioned]. intros (v & Hv & Hin)%in_flat_map.
      destruct (variant_payload v) as [t|] eqn:Et; [|done]. destruct Hin as [[= <- <-]|[]].
      eapply check_type_nil, variants_of_payloads; [by rewrite Ev|done..].
  - unfold resolve_struct. cbn [reported resolved declare update report].
    destruct (taken _ _) eqn:Ht; cbn [reported report]; [intros H; nils|].
    cbn [reported resolved declare update report]. intros H. nils. split_and!; try done.
    intros g ty. cbn [mentioned]. intros (f & [= <- <-] & Hf)%in_map_iff.
    by_field Hf.
  - unfold resolve_extern. destruct (taken _ _) eqn:Ht; cbn [reported report]; [intros H; nils|].
    destruct (params_of levenshtein _ ∅ (extern_params f)) as [params ds_p] eqn:Ep.
    cbn [reported resolved declare update report]. intros H. nils. split_and!; try done.
    + unfold put, extern_signature. by rewrite Ep.
    + intros g ty. cbn [mentioned]. intros [(p & [= <- <-] & Hp)%in_map_iff|Hr]%in_app_iff.
      * injection Ep as <- <-. by_field Hp.
      * destruct (extern_return_type f) as [rt|]; [|done]. destruct Hr as [[= <- <-]|[]]. by eapply check_type_nil.
Qed.

(** ** All of them *)

Lemma taken_put known d name m :
  taken name (put known d m) = String.eqb name (decl_name d) || taken name m.
Proof.
  unfold taken. destruct (String.eqb_spec name (decl_name d)) as [->|Hne];
    destruct d; cbn in *; rewrite ?lookup_insert_eq, ?lookup_insert_ne by done; try done;
    rewrite (bool_decide_eq_true_2 (is_Some (Some _))) by (by eexists); by rewrite ?orb_true_r.
Qed.

Lemma known_put known d m : known_types (put known d m) = known_types m.
Proof. by destruct d. Qed.

Lemma entered_put known d m : entered known d (put known d m).
Proof. destruct d; cbn; rewrite ?lookup_insert_eq; done. Qed.

Lemma entered_keep known d d' m :
  decl_name d' <> decl_name d -> entered known d' m -> entered known d' (put known d m).
Proof. intros Hne. destruct d, d'; cbn in *; rewrite ?lookup_insert_ne by congruence; done. Qed.

(** What holds after the declarations [ds] without a diagnostic. *)
Record clean (known : gset string) (ds : list Decl) (m : ResolvedModule) : Prop := {
  clean_known : known_types m = known;
  clean_names : NoDup (map decl_name ds);
  clean_taken : forall name, taken name m = true <-> In name (map decl_name ds);
  clean_entered : forall d, In d ds -> entered known d m;
  clean_exist : forall d, In d ds -> all_exist known d
}.

Lemma resolve_decls_clean known ds st :
  clean known [] (resolved st) ->
  reported (fold_left (fun st d => resolve_decl d st) ds st) = [] ->
  clean known ds (resolved (fold_left (fun st d => resolve_decl d st) ds st)).
Proof.
  intros Hst. induction ds as [|d ds IH] using rev_ind; [done|].
  rewrite fold_left_app. cbn [fold_left]. intros H.
  apply resolve_decl_clean in H as (Hr & Ht & Heq & Hx). destruct (IH Hr) as [Hk Hn Htk He Hex].
  rewrite Hk in Heq, Hx. rewrite Heq.
  assert (Hnew : ~ In (decl_name d) (map decl_name ds)) by (rewrite <- Htk; congruence).
  split.
  - by rewrite known_put.
  - rewrite map_app. apply NoDup_app. split_and!; [done| |apply NoDup_singleton].
    intros x Hx1 ->%list_elem_of_singleton. by apply Hnew, list_elem_of_In.
  - intros name. rewrite taken_put, orb_true_iff, Htk, map_app, in_app_iff, String.eqb_eq. cbn. naive_solver.
  - intros d' [Hd|[<-|[]]]%in_app_iff; [|apply entered_put].
    apply entered_keep; [|by apply He]. intros E. apply Hnew. rewrite <- E. by apply in_map.
  - intros d' [Hd|[<-|[]]]%in_app_iff; [by apply Hex|done].
Qed.

Lemma clean_initial known : clean known [] (resolved (initial_state known)).
Proof. split; try done. constructor. Qed.
End Spec.

Lemma resolve_module_clean levenshtein module imported m :
  import_free module = true -> resolve_module levenshtein module imported = (m, []) ->
  clean levenshtein (known_types m) (decls module) m.
Proof.
  intros Hi E. unfold resolve_module in E. rewrite resolve_items_decls in E by done.
  injection E as Em Er.
  pose proof (resolve_decls_clean levenshtein (collect_known_types imported module) (decls module)
    (initial_state (collect_known_types imported module)) (clean_initial levenshtein _) Er) as Hc.
  rewrite Em in Hc. by rewrite (clean_known _ _ _ _ Hc).
Qed.

(** C27: a module without imports that resolves without a diagnostic declares
    every name once; each declaration has the entry that its own text gives it,
    nothing else is declared, and every type that a declaration mentions exists. *)
Theorem resolve_clean levenshtein module imported m :
  import_free module = true -> resolve_module levenshtein module imported = (m, []) ->
  NoDup (declared_names module) /\
  (forall name, taken name m = true <-> In name (declared_names module)) /\
  (forall d, In d (decls module) -> entered levenshtein (known_types m) d m) /\
  (forall d generics ty, In d (decls module) -> In (generics, ty) (mentioned (known_types m) d) ->
     type_exists ty (known_types m) generics = true).
Proof.
  intros Hi E. destruct (resolve_module_clean _ _ _ _ Hi E) as [_ Hn Ht He Hx]. split_and!; [done..|].
  intros d generics ty Hd. by apply Hx.
Qed.

(** ** Fields and layouts *)

(** One declaration a name, among the functions and the types. *)
Definition apart (m : ResolvedModule) : Prop :=
  forall name,
    (is_Some (functions m !! name) -> enum_variants m !! name = None /\ struct_layouts m !! name = None) /\
    (is_Some (enum_variants m !! name) -> struct_layouts m !! name = None).

Lemma not_taken name m :
  taken name m = false ->
  functions m !! name = None /\ consts m !! name = None /\ enum_variants m !! name = None /\
  struct_layouts m !! name = None.
Proof.
  unfold taken. rewrite !orb_false_iff, !bool_decide_eq_false, <- !eq_None_not_Some. tauto.
Qed.

Lemma resolve_decl_agree levenshtein d st :
  struct_fields (resolved st) = fields_of_layouts (struct_layouts (resolved st)) -> apart (resolved st) ->
  struct_fields (resolved (resolve_decl levenshtein d st))
    = fields_of_layouts (struct_layouts (resolved (resolve_decl levenshtein d st))) /\
  apart (resolved (resolve_decl levenshtein d st)).
Proof.
  intros Hf Ha. destruct d as [c|f|e|s|f]; cbn [resolve_decl].
  - unfold resolve_const. cbn [resolved declare update report]. by destruct (taken _ _).
  - unfold resolve_function. cbn [resolved declare update report]. destruct (taken _ _) eqn:Ht; [done|].
    destruct (generic_params_of _ _), (params_of _ _ _ _), (effects_of_clause _ _ _). cbn. split; [done|].
    apply not_taken in Ht as (H1 & H2 & H3 & H4). intros name. destruct (Ha name) as [H5 H6]. cbn. split; [|done].
    destruct (decide (name = Hir.fn_name f)) as [->|]; [done|by rewrite lookup_insert_ne].
  - unfold resolve_enum. cbn [resolved declare update report]. destruct (taken _ _) eqn:Ht; [done|].
    destruct (variants_of _ _ _ _). cbn. split; [done|].
    apply not_taken in Ht as (H1 & H2 & H3 & H4). intros name. destruct (Ha name) as [H5 H6]. cbn.
    destruct (decide (name = enum_name e)) as [->|]; [|by rewrite lookup_insert_ne].
    split; [rewrite H1; by intros []|done].
  - unfold resolve_struct. cbn [resolved declare update report]. destruct (taken _ _) eqn:Ht; [done|]. cbn. split.
    + unfold fields_of_layouts in *. by rewrite fmap_insert, Hf.
    + apply not_taken in Ht as (H1 & H2 & H3 & H4). intros name. destruct (Ha name) as [H5 H6]. cbn.
      destruct (decide (name = struct_name s)) as [->|]; [|by rewrite lookup_insert_ne].
      rewrite H1, H3. split; by intros [].
  - unfold resolve_extern. destruct (taken _ _) eqn:Ht; [done|]. destruct (params_of _ _ _ _). cbn. split; [done|].
    apply not_taken in Ht as (H1 & H2 & H3 & H4). intros name. destruct (Ha name) as [H5 H6]. cbn. split; [|done].
    destruct (decide (name = extern_name f)) as [->|]; [done|by rewrite lookup_insert_ne].
Qed.

(** Whatever is reported for a module without imports, a name is declared
    once among its functions, enums and structs, and the fields of the structs
    are those of their layouts; so the two searches for affine values, which
    look through one or the other, agree. *)
Theorem resolve_consistent levenshtein module imported m ds :
  import_free module = true -> resolve_module levenshtein module imported = (m, ds) ->
  apart m /\ struct_fields m = fields_of_layouts (struct_layouts m) /\
  forall ty, type_contains_affine_values (struct_layouts m) (enum_variants m) ty
    = is_affine_type (struct_fields m) (enum_variants m) ty.
Proof.
  intros Hi E. unfold resolve_module in E. rewrite resolve_items_decls in E by done. injection E as <- _.
  set (known := collect_known_types imported module).
  assert (H : struct_fields (resolved (fold_left (fun st d => resolve_decl levenshtein d st) (decls module) (initial_state known)))
      = fields_of_layouts (struct_layouts (resolved (fold_left (fun st d => resolve_decl levenshtein d st) (decls module) (initial_state known))))
    /\ apart (resolved (fold_left (fun st d => resolve_decl levenshtein d st) (decls module) (initial_state known)))).
  { induction (decls module) as [|d l IH] using rev_ind.
    - split; [done|]. intros name. split; by intros [].
    - rewrite fold_left_app. destruct IH. by apply resolve_decl_agree. }
  destruct H as [Hf Ha]. split_and!; [done..|]. intros ty. rewrite Hf. apply contains_affine_agree.
Qed.

(** ** With the inference of effects *)

Lemma function_names_sublist module :
  map Hir.fn_name (module_functions module) `sublist_of` declared_names module.
Proof.
  unfold declared_names, decls, module_functions. induction module as [|item module IH]; [done|].
  cbn [flat_map]. rewrite !map_app. apply sublist_app; [|done].
  destruct item; cbn; first [apply sublist_nil_l | reflexivity].
Qed.

(** C15: on a module without imports that resolves without a diagnostic, the
    inference of effects ends, with signatures that depend neither on the order
    in which the hash maps are iterated nor on the number of rounds beyond a
    bound; each function without an effects clause, [main] apart, then has the
    effects that calls can reach, and the rest of its signature from its declaration. *)
Theorem resolve_infer_effects levenshtein module imported m :
  import_free module = true -> resolve_module levenshtein module imported = (m, []) ->
  exists bound functions',
    (forall order listing rounds,
       order ≡ₚ map_to_list (module_fns module) -> (forall s, listing s ≡ₚ elements s) -> bound <= rounds ->
       infer_effects order listing rounds (functions m) = Some functions') /\
    forall f, In (It_Function f) module -> infers f ->
      exists l, functions' !! Hir.fn_name f = Some (set_effects l (function_signature levenshtein (known_types m) f)) /\
        listed l (has_effect module (functions m) (Hir.fn_name f)).
Proof.
  intros Hi E. pose proof (resolve_module_clean _ _ _ _ Hi E) as Hc.
  assert (Hn : NoDup (map Hir.fn_name (module_functions module))).
  { eapply sublist_NoDup; [apply (clean_names _ _ _ _ Hc)|apply function_names_sublist]. }
  destruct (infer_effects_ends_all module (functions m) Hn) as (bound & functions' & Hall).
  exists bound, functions'. split; [done|]. intros f Hf Hfi.
  destruct (infer_effects_result module (functions m) Hn _ (Permutation_refl _) elements bound functions'
    (fun s => Permutation_refl _)) as [Hspec _]; [apply Hall; [done|done|lia]|].
  apply Hspec; [|done|].
  - apply in_flat_map. exists (It_Function f). split; [done|by left].
  - apply (clean_entered _ _ _ _ Hc (D_Function f)). apply in_flat_map. exists (It_Function f). split; [done|by left].
Qed.

(** ** Samples *)

Definition type_ref (name : string) : TypeRef := mkTypeRef name no_span.

(** [struct Point { name: Text }], [fn make() -> Point { .. }], [fn main() { make() }] *)
Definition point_module : HirModule :=
  [It_Struct (mkStruct "Point" [Hir.mkField "name" (type_ref "Text") no_span] None no_span);
   It_Function (Hir.mkFunction "make" [] [] (Some (type_ref "Point")) [] None None
     (Some (block [] (Some (call "list_new" [])))) no_span);
   hir_function "main" (block [] (Some (call "make" [])))].

Definition point_resolved : ResolvedModule := (resolve_module (fun _ _ => 0) point_module ∅).1.

Lemma point_clean : resolve_module (fun _ _ => 0) point_module ∅ = (point_resolved, []).
Proof. vm_compute. reflexivity. Qed.

Lemma resolve_clean_witness :
  import_free point_module = true /\ resolve_module (fun _ _ => 0) point_module ∅ = (point_resolved, []) /\
  NoDup (declared_names point_module) /\ declared_names point_module = ["Point"; "make"; "main"].
Proof.
  split; [reflexivity|]. split; [exact point_clean|]. split; [|reflexivity].
  exact (proj1 (resolve_clean (fun _ _ => 0) point_module ∅ point_resolved eq_refl point_clean)).
Defined.

Lemma resolve_consistent_witness :
  apart point_resolved /\ struct_layouts point_resolved !! "Point" = Some [("name", T_Text)].
Proof.
  split; [|vm_compute; reflexivity].
  exact (proj1 (resolve_consistent (fun _ _ => 0) point_module ∅ point_resolved [] eq_refl point_clean)).
Defined.

Lemma resolve_infer_effects_witness :
  exists bound functions', forall order listing rounds,
    order ≡ₚ map_to_list (module_fns point_module) -> (forall s, listing s ≡ₚ elements s) -> bound <= rounds ->
    infer_effects order listing rounds (functions point_resolved) = Some functions'.
Proof.
  destruct (resolve_infer_effects (fun _ _ => 0) point_module ∅ point_resolved eq_refl point_clean) as (bound & fs & H & _).
  exists bound, fs. exact H.
Defined.

(** [struct S { a: Text }], [import m], where [m] has [enum S { End }] *)
Definition shadowed_module : HirModule :=
  [It_Struct (mkStruct "S" [Hir.mkField "a" (type_ref "Text") no_span] None no_span);
   It_Import (mkImportDecl "m" [] no_span)].

Definition module_m (levenshtein : string -> string -> nat) : ResolvedModule :=
  (resolve_module levenshtein [It_Enum (mkEnum "S" [mkEnumVariant "End" None None no_span] no_span)] ∅).1.

(** An imported enum with the name of a struct is declared next to it, and
    nothing is reported. *)
Theorem import_conflict_missed levenshtein :
  let '(m, ds) := resolve_module levenshtein shadowed_module {[ "m" := module_m levenshtein ]} in
  ds = [] /\ ~ apart m.
Proof.
  destruct (resolve_module levenshtein shadowed_module {[ "m" := module_m levenshtein ]}) as [m ds] eqn:E.
  vm_compute in E. injection E as <- <-. split; [done|]. intros H. destruct (H "S") as [_ Hs].
  assert (Hbad : is_Some (Some [mkEnumVariantInfo "End" None None])) by (by eexists).
  specialize (Hs Hbad). discriminate Hs.
Qed.

(** * Resolution of imports

    [FrontendDatabase::resolve_imports] of [crates/sarif_frontend/src/lib.rs] and
    its use in [semantic].  [sources] is what [import_sources] and [hir] give for
    the name of a module; [resolving] is the chain of imports on the way down. *)

Section Imports.
Context (levenshtein : string -> string -> nat) (sources : gmap string HirModule).

Abbreviation Modules := (gmap string ResolvedModule).

Definition import_cycle (mod_name : string) (span : Span) : Diagnostic :=
  Diagnostic_new "semantic.import-cycle"
    ("circular import: `" ++ mod_name ++ "` is already being resolved")%string span
    (Some "Remove the circular import chain.").

(** One import, given how the imports of its module are resolved. *)
Definition resolve_one_import
    (nested : HirModule -> list string -> list Diagnostic -> option (Modules * list Diagnostic))
    (resolving : list string) (item : Item) (st : Modules * list Diagnostic) : option (Modules * list Diagnostic) :=
  let '(result, ds) := st in
  match item with
  | It_Import i =>
      let mod_name := import_module i in
      if bool_decide (is_Some (result !! mod_name)) then Some st
      else if bool_decide (mod_name ∈ resolving) then Some (result, ds ++ [import_cycle mod_name (import_span i)])
      else
        match sources !! mod_name with
        | None => Some st
        | Some imported_hir =>
            '(nested_modules, ds) ← nested imported_hir (resolving ++ [mod_name]) ds;
            let '(resolved, ds') := resolve_module levenshtein imported_hir nested_modules in
            Some (<[mod_name := resolved]> result, ds ++ ds')
        end
  | _ => Some st
  end.

Fixpoint fold_items (step : Item -> Modules * list Diagnostic -> option (Modules * list Diagnostic))
    (items : HirModule) (st : Modules * list Diagnostic) : option (Modules * list Diagnostic) :=
  match items with [] => Some st | item :: items' => st ← step item st; fold_items step items' st end.

(** [depth] bounds the chain of imports. *)
Fixpoint resolve_imports (depth : nat) (module : HirModule) (resolving : list string) (ds : list Diagnostic)
    : option (Modules * list Diagnostic) :=
  match depth with
  | 0 => None
  | S depth => fold_items (resolve_one_import (resolve_imports depth) resolving) module (∅, ds)
  end.

(** The names [semantic] resolves a module with, and what it reports of them:
    the diagnostics of the imports themselves go into a list of their own, which
    is dropped. *)
Definition semantic_resolution (depth : nat) (module : HirModule) : option (ResolvedModule * list Diagnostic) :=
  '(imported, _) ← resolve_imports depth module [] [];
  Some (resolve_module levenshtein module imported).

(** ** The end of the chains *)

Lemma fold_items_total step items st :
  (forall item st, is_Some (step item st)) -> is_Some (fold_items step items st).
Proof.
  intros Hs. revert st. induction items as [|item items IH]; intros st; cbn; [by eexists|].
  destruct (Hs item st) as [st' ->]. apply IH.
Qed.

Lemma resolve_imports_total depth module resolving ds :
  size (dom sources ∖ list_to_set resolving) < depth -> is_Some (resolve_imports depth module resolving ds).
Proof.
  revert module resolving ds. induction depth as [|depth IH]; intros module resolving ds Hd; [lia|]. cbn.
  apply fold_items_total. intros item [result ds']. destruct item; cbn; try by eexists.
  case_bool_decide; [by eexists|]. case_bool_decide as Hr; [by eexists|].
  destruct (sources !! import_module item) as [hir|] eqn:Hs; [|by eexists].
  destruct (IH hir (resolving ++ [import_module item]) ds') as [[nested ds''] ->].
  - eapply Nat.lt_le_trans; [|apply Nat.lt_succ_r, Hd]. apply subset_size. apply elem_of_dom_2 in Hs.
    unfold strict. rewrite list_to_set_app_L. split; [set_solver|].
    intros Hsub. assert (Hin : import_module item ∈ dom sources ∖ list_to_set resolving) by set_solver.
    apply Hsub in Hin. set_solver.
  - cbn. destruct (resolve_module levenshtein hir nested). by eexists.
Qed.
End Imports.

(** C28: the resolution of imports ends, on circular ones too: chains are at most
    one longer than the number of modules that can be imported. *)
Theorem resolve_imports_terminates levenshtein sources module ds :
  is_Some (resolve_imports levenshtein sources (S (size (dom sources))) module [] ds).
Proof.
  apply resolve_imports_total. apply Nat.lt_succ_r, subseteq_size. set_solver.
Qed.

(** [import a] in the module, [import b] in [a], [import a] in [b]. *)
Definition import_decl (name : string) : Item := It_Import (mkImportDecl name [] no_span).
Definition circular_sources : gmap string HirModule :=
  {[ "a" := [import_decl "b"]; "b" := [import_decl "a"] ]}.
Definition circular_module : HirModule := [import_decl "a"].

(** A circular import is found, and nothing is reported of it to the user
    of [semantic]. *)
Theorem import_cycle_unreported levenshtein :
  (exists modules d ds, resolve_imports levenshtein circular_sources 3 circular_module [] [] = Some (modules, d :: ds) /\
     diag_code d = "semantic.import-cycle") /\
  exists m, semantic_resolution levenshtein circular_sources 3 circular_module = Some (m, []).
Proof.
  split.
  - destruct (resolve_imports levenshtein circular_sources 3 circular_module [] []) as [[modules ds]|] eqn:E;
      vm_compute in E; [|discriminate E]. injection E as <- <-. eexists _, _, _. split; reflexivity.
  - eexists. vm_compute. reflexivity.
Qed.
