(* ===== verification/Ast.v ===== *)
(** * The abstract syntax

    [crates/sarif_syntax/src/ast.rs], its data: files, items, bodies and
    expressions, the spans of expressions, and how all of them are printed.  A
    struct that one constructor carries ([IfExpr] in [Expr::If]) is that
    constructor's arguments; [FieldUpdate] has the fields of [FieldInit]. *)
From stdpp Require Import pretty.
From S2P Require Import Prelude Syntax Utf8 TextOps Float64 Mir.

Open Scope nat_scope.

(** ** Types and patterns *)

(** [usize] is 64 bits wide. *)
Inductive ArrayLen :=
  | AL_Literal (len : Z)
  | AL_Name (name : string).

Inductive TypePath :=
  | TP_Named (segments : list string)
  | TP_Array (element : TypePath) (len : ArrayLen)
  | TP_Generic (name : string) (args : list TypePath).

(** [TypePath::name] *)
Definition type_path_name (t : TypePath) : string :=
  match t with
  | TP_Named (s :: _ :: _) => s
  | TP_Named _ => ""
  | TP_Generic name _ => name
  | TP_Array _ _ => ""
  end.

(** [TypePath::operation] *)
Definition type_path_operation (t : TypePath) : string :=
  match t with
  | TP_Named segments => default "" (last segments)
  | TP_Generic _ _ | TP_Array _ _ => ""
  end%string.

(** [Display for TypePath] *)
Fixpoint type_path_display (t : TypePath) : string :=
  match t with
  | TP_Named segments => join "." segments
  | TP_Array element (AL_Literal l) => "[" ++ type_path_display element ++ "; " ++ pretty l ++ "]"
  | TP_Array element (AL_Name n) => "[" ++ type_path_display element ++ "; " ++ n ++ "]"
  | TP_Generic name args => name ++ "[" ++ join ", " (map type_path_display args) ++ "]"
  end%string.

Inductive MatchPattern :=
  | AP_Variant (path : TypePath) (binding : option string) (span : Span)
  | AP_Integer (value : Z) (span : Span)
  | AP_String (literal value : string) (span : Span)
  | AP_Bool (value : bool) (span : Span)
  | AP_IntegerRange (start end_ : Z) (span : Span)
  | AP_Or (patterns : list MatchPattern) (span : Span)
  | AP_Wildcard (span : Span).

(** [bool::to_string] *)
Definition bool_display (b : bool) : string := if b then "true" else "false".

Fixpoint pattern_pretty (p : MatchPattern) : string :=
  match p with
  | AP_Variant path None _ => type_path_display path
  | AP_Variant path (Some binding) _ => type_path_display path ++ "(" ++ binding ++ ")"
  | AP_Integer value _ => pretty value
  | AP_String literal _ _ => literal
  | AP_Bool value _ => bool_display value
  | AP_IntegerRange start end_ _ => pretty start ++ ".." ++ pretty end_
  | AP_Or patterns _ => join " | " (map pattern_pretty patterns)
  | AP_Wildcard _ => "_"
  end%string.

(** ** Operators *)

Inductive BinaryOp :=
  | AB_And | AB_Or | AB_BitOr | AB_BitXor | AB_BitAnd | AB_Eq | AB_Ne | AB_Lt | AB_Le | AB_Gt | AB_Ge
  | AB_Shl | AB_Shr | AB_Add | AB_Sub | AB_Mul | AB_Div | AB_Rem.

Inductive UnaryOp := AU_Not.

Definition unary_symbol (op : UnaryOp) : string := match op with AU_Not => "not" end.

Definition binary_symbol (op : BinaryOp) : string :=
  match op with
  | AB_And => "and" | AB_Or => "or" | AB_BitOr => "|" | AB_BitXor => "^" | AB_BitAnd => "&"
  | AB_Eq => "==" | AB_Ne => "!=" | AB_Lt => "<" | AB_Le => "<=" | AB_Gt => ">" | AB_Ge => ">="
  | AB_Shl => "<<" | AB_Shr => ">>" | AB_Add => "+" | AB_Sub => "-" | AB_Mul => "*" | AB_Div => "/"
  | AB_Rem => "%"
  end.

(** ** Bodies and expressions *)

Inductive Expr :=
  | AE_Integer (value : Z) (span : Span)
  | AE_Float (value : f64) (span : Span)
  | AE_String (literal value : string) (span : Span)
  | AE_Bool (value : bool) (span : Span)
  | AE_Name (name : string) (span : Span)
  | AE_ContractResult (span : Span)
  | AE_Call (callee : string) (args : list Expr) (span : Span)
  | AE_Array (elements : list Expr) (repeat_len : option ArrayLen) (span : Span)
  | AE_Field (base : Expr) (field : string) (span : Span)
  | AE_Index (base index : Expr) (span : Span)
  | AE_If (condition : Expr) (then_body else_body : Body) (span : Span)
  | AE_Match (scrutinee : Expr) (arms : list MatchArm) (span : Span)
  | AE_Repeat (binding : option string) (count : Expr) (body : Body) (span : Span)
  | AE_For (binding : string) (start end_ : Expr) (body : Body) (span : Span)
  | AE_While (condition : Expr) (body : Body) (span : Span)
  | AE_Record (name : string) (fields : list FieldInit) (span : Span)
  | AE_RecordUpdate (base : Expr) (updates : list FieldInit) (span : Span)
  | AE_Unary (op : UnaryOp) (inner : Expr) (span : Span)
  | AE_Binary (op : BinaryOp) (left right : Expr) (span : Span)
  | AE_Group (inner : Expr) (span : Span)
  | AE_Comptime (body : Body) (span : Span)
  | AE_Perform (callee : TypePath) (args : list Expr) (span : Span)
  | AE_Handle (body : Body) (arms : list HandleArm) (span : Span)
  | AE_Template (segments : list TemplateSegment) (span : Span)
with Body :=
  | mkBody (statements : list Stmt) (tail : option Expr) (span : Span)
with Stmt :=
  | AS_Let (mutable : bool) (name : string) (value : Expr) (span : Span)
  | AS_Assign (target value : Expr) (span : Span)
  | AS_Expr (expr : Expr) (span : Span)
  | AS_WithArena (body : Body) (span : Span)
with MatchArm :=
  | mkMatchArm (pattern : MatchPattern) (body : Body) (span : Span)
with FieldInit :=
  | mkFieldInit (name : string) (value : Expr) (span : Span)
with HandleArm :=
  | mkHandleArm (name : string) (params : list string) (body : Body) (span : Span)
with TemplateSegment :=
  | TS_Text (text : string)
  | TS_Expr (expr : Expr).

(** ** Items *)

Record Param := mkParam { param_name : string; param_ty : TypePath; param_span : Span }.

Record GenericParam := mkGenericParam {
  generic_name : string; generic_kind : option string; generic_span : Span
}.

Record EffectName := mkEffectName { effect_name_name : string; effect_name_span : Span }.

Record Function := mkFunction {
  fn_name : string;
  fn_type_params : list GenericParam;
  fn_params : list Param;
  fn_return_type : option TypePath;
  fn_effects : list EffectName;
  fn_requires : option Expr;
  fn_ensures : option Expr;
  fn_body : option Body;
  fn_span : Span
}.

Record Const := mkConst { const_name : string; const_ty : TypePath; const_value : Expr; const_span : Span }.

Record Field := mkField { field_name : string; field_ty : TypePath; field_span : Span }.

Record Struct := mkStruct {
  struct_name : string; struct_fields_decl : list Field; struct_repr : option string; struct_span : Span
}.

Record EnumVariant := mkEnumVariant {
  variant_name : string;
  variant_payload : option TypePath;
  variant_discriminant : option Expr;
  variant_span : Span
}.

Record Enum := mkEnum { enum_name : string; variants : list EnumVariant; enum_span : Span }.

Record EffectMethod := mkEffectMethod {
  method_name : string; method_params : list Param; method_return_type : option TypePath; method_span : Span
}.

Record Effect := mkEffect { effect_name : string; methods : list EffectMethod; effect_span : Span }.

Record ExternFunction := mkExternFunction {
  extern_name : string; extern_params : list Param; extern_return_type : option TypePath; extern_span : Span
}.

Record ExternBlock := mkExternBlock { extern_functions : list ExternFunction; extern_block_span : Span }.

Record ImportItem := mkImportItem { import_module : string; import_names : list string; import_span : Span }.

Inductive Item :=
  | AI_Const (item : Const)
  | AI_Function (item : Function)
  | AI_Enum (item : Enum)
  | AI_Struct (item : Struct)
  | AI_Effect (item : Effect)
  | AI_ExternBlock (item : ExternBlock)
  | AI_Import (item : ImportItem).

(** [AstFile], a list of items *)
Definition AstFile : Type := list Item.

(** ** Spans *)

Definition expr_span (e : Expr) : Span :=
  match e with
  | AE_Integer _ span | AE_Float _ span | AE_String _ _ span | AE_Bool _ span | AE_Name _ span
  | AE_ContractResult span | AE_Call _ _ span | AE_Array _ _ span | AE_Field _ _ span
  | AE_Index _ _ span | AE_If _ _ _ span | AE_Match _ _ span | AE_Repeat _ _ _ span
  | AE_For _ _ _ _ span | AE_While _ _ span | AE_Record _ _ span | AE_RecordUpdate _ _ span
  | AE_Unary _ _ span | AE_Binary _ _ _ span | AE_Group _ span | AE_Comptime _ span
  | AE_Perform _ _ span | AE_Handle _ _ span | AE_Template _ span => span
  end.

Definition pattern_span (p : MatchPattern) : Span :=
  match p with
  | AP_Variant _ _ span | AP_Integer _ span | AP_String _ _ span | AP_Bool _ span
  | AP_IntegerRange _ _ span | AP_Or _ span | AP_Wildcard span => span
  end.

(** ** Printing *)

Definition newline : string := String (Ascii.ascii_of_nat 10) EmptyString.

Definition quote : string := String (Ascii.ascii_of_nat 34) EmptyString.

(** [if !s.contains('.') { s.push_str(".0") }] *)
Definition with_point (s : string) : string :=
  if existsb (fun a => Ascii.nat_of_ascii a =? 46) (bytes s) then s else (s ++ ".0")%string.

Section Pretty.
Context `{Platform}.

Fixpoint expr_pretty (e : Expr) : string :=
  match e with
  | AE_Integer value _ => pretty value
  | AE_Float value _ => with_point (f64_display value)
  | AE_String literal _ _ => literal
  | AE_Bool value _ => bool_display value
  | AE_Name name _ => name
  | AE_ContractResult _ => "result"
  | AE_Call callee args _ => callee ++ "(" ++ join ", " (map expr_pretty args) ++ ")"
  | AE_Array elements _ _ => "[" ++ join ", " (map expr_pretty elements) ++ "]"
  | AE_Field base field _ => expr_pretty base ++ "." ++ field
  | AE_Index base index _ => expr_pretty base ++ "[" ++ expr_pretty index ++ "]"
  | AE_If condition then_body else_body _ =>
      "if " ++ expr_pretty condition ++ " { " ++ body_pretty then_body ++ " } else { "
        ++ body_pretty else_body ++ " }"
  | AE_Match scrutinee arms _ =>
      "match " ++ expr_pretty scrutinee ++ " { "
        ++ join ", " (map (fun '(mkMatchArm pattern body _) =>
             pattern_pretty pattern ++ " => { " ++ body_pretty body ++ " }") arms) ++ " }"
  | AE_Repeat binding count body _ =>
      match binding with
      | None => "repeat " ++ expr_pretty count
      | Some binding => "repeat " ++ binding ++ " in " ++ expr_pretty count
      end ++ " { " ++ body_pretty body ++ " }"
  | AE_For binding start end_ body _ =>
      "for " ++ binding ++ " in " ++ expr_pretty start ++ ".." ++ expr_pretty end_ ++ " { "
        ++ body_pretty body ++ " }"
  | AE_While condition body _ => "while " ++ expr_pretty condition ++ " { " ++ body_pretty body ++ " }"
  | AE_Record name fields _ =>
      name ++ " { " ++ join ", " (map (fun '(mkFieldInit name value _) =>
        name ++ ": " ++ expr_pretty value) fields) ++ " }"
  | AE_RecordUpdate base updates _ =>
      expr_pretty base ++ " with { " ++ join ", " (map (fun '(mkFieldInit name value _) =>
        "." ++ name ++ " = " ++ expr_pretty value) updates) ++ " }"
  | AE_Unary op inner _ => unary_symbol op ++ " " ++ expr_pretty inner
  | AE_Binary op l r _ => expr_pretty l ++ " " ++ binary_symbol op ++ " " ++ expr_pretty r
  | AE_Group inner _ => "(" ++ expr_pretty inner ++ ")"
  | AE_Comptime body _ => "comptime { " ++ body_pretty body ++ " }"
  | AE_Perform callee args _ =>
      "perform " ++ type_path_display callee ++ "(" ++ join ", " (map expr_pretty args) ++ ")"
  | AE_Handle body _ _ => "handle " ++ body_pretty body ++ " with { ... }"
  | AE_Template segments _ =>
      quote ++ String.concat "" (map (fun segment =>
        match segment with
        | TS_Text t => t
        | TS_Expr e => "{" ++ expr_pretty e ++ "}"
        end) segments) ++ quote
  end%string
with body_pretty (b : Body) : string :=
  let 'mkBody statements tail _ := b in
  join " " (map stmt_pretty statements ++ match tail with Some e => [expr_pretty e] | None => [] end)
with stmt_pretty (s : Stmt) : string :=
  match s with
  | AS_Let mutable name value _ =>
      "let " ++ (if mutable : bool then "mut " else "") ++ name ++ " = " ++ expr_pretty value ++ ";"
  | AS_Assign target value _ => expr_pretty target ++ " = " ++ expr_pretty value ++ ";"
  | AS_Expr expr _ => expr_pretty expr ++ ";"
  | AS_WithArena body _ => "with_arena " ++ body_pretty body ++ ";"
  end%string.

Definition params_pretty (params : list Param) : string :=
  join ", " (map (fun p => param_name p ++ ": " ++ type_path_display (param_ty p))%string params).

Definition return_type_pretty (ty : option TypePath) : string :=
  match ty with Some ty => " -> " ++ type_path_display ty | None => "" end%string.

Definition function_pretty (f : Function) : string :=
  ("fn " ++ fn_name f ++ "(" ++ params_pretty (fn_params f) ++ ")" ++ return_type_pretty (fn_return_type f)
   ++ match fn_effects f with
      | [] => ""
      | effects => " effects [" ++ join ", " (map effect_name_name effects) ++ "]"
      end
   ++ match fn_requires f with Some e => " requires " ++ expr_pretty e | None => "" end
   ++ match fn_ensures f with Some e => " ensures " ++ expr_pretty e | None => "" end
   ++ match fn_body f with Some body => " { " ++ body_pretty body ++ " }" | None => " {}" end
   ++ newline)%string.

Definition item_pretty (item : Item) : string :=
  match item with
  | AI_Const c =>
      "const " ++ const_name c ++ ": " ++ type_path_display (const_ty c) ++ " = "
        ++ expr_pretty (const_value c) ++ ";" ++ newline
  | AI_Function f => function_pretty f
  | AI_Enum e =>
      "enum " ++ enum_name e ++ newline ++ String.concat "" (map (fun v =>
        "  " ++ variant_name v
          ++ match variant_payload v with Some ty => "(" ++ type_path_display ty ++ ")" | None => "" end
          ++ newline) (variants e))
  | AI_Struct s =>
      "struct " ++ struct_name s ++ newline ++ String.concat "" (map (fun f =>
        "  " ++ field_name f ++ ": " ++ type_path_display (field_ty f) ++ newline) (struct_fields_decl s))
  | AI_Effect e =>
      "effect " ++ effect_name e ++ newline ++ String.concat "" (map (fun m =>
        "  fn " ++ method_name m ++ "(...)" ++ newline) (methods e))
  | AI_ExternBlock b =>
      "extern {" ++ newline ++ String.concat "" (map (fun f =>
        " fn " ++ extern_name f ++ "(" ++ params_pretty (extern_params f) ++ ")"
          ++ return_type_pretty (extern_return_type f) ++ ";" ++ newline) (extern_functions b))
        ++ "}" ++ newline
  | AI_Import i => "from " ++ import_module i ++ " import " ++ join ", " (import_names i) ++ newline
  end%string.

(** [AstFile::pretty] *)
Definition file_pretty (file : AstFile) : string := String.concat "" (map item_pretty file).
End Pretty.
