(* ===== verification/AstLower.v ===== *)
(** * From trees to the abstract syntax

    [lower] of [crates/sarif_syntax/src/ast.rs] with every method of its
    [Lowerer].  A method that may push diagnostics is in the monad [A] of the
    list of diagnostics; [find_map], [filter_map] and iterators that are only
    partly consumed lower the children they reach and no others.  The text
    between the braces of a string is lexed, parsed and lowered in turn
    ([embedded]): that recursion takes fuel, and its lexer and parser can fail
    to end, so an outcome of its own says so. *)
From stdpp Require Import gmap pretty.
From S2P Require Import Prelude Syntax Utf8 TextOps Float64 Mir Lexer Parser Ast.

Open Scope nat_scope.

(** ** Diagnostics *)

Inductive AstOutcome (X : Type) :=
  | A_Ok (x : X) (diagnostics : list Diagnostic)
  | A_Running
  | A_Panicked.
Arguments A_Ok {X} x diagnostics.
Arguments A_Running {X}.
Arguments A_Panicked {X}.

Definition A (X : Type) : Type := list Diagnostic -> AstOutcome X.

Definition a_ret {X} (x : X) : A X := fun ds => A_Ok x ds.

Definition a_bind {X Y} (m : A X) (k : X -> A Y) : A Y := fun ds =>
  match m ds with
  | A_Ok x ds' => k x ds'
  | A_Running => A_Running
  | A_Panicked => A_Panicked
  end.

Declare Scope ast_scope.
Delimit Scope ast_scope with ast.
Notation "'let^' x := m 'in' k" := (a_bind m (fun x => k))
  (at level 200, x pattern, m at level 100, k at level 200, right associativity) : ast_scope.
(** [?] on an option *)
Notation "'let?' x := m 'in' k" := (a_bind m (fun o => match o with Some x => k | None => a_ret None end))
  (at level 200, x pattern, m at level 100, k at level 200, right associativity) : ast_scope.
Open Scope ast_scope.

Definition a_diagnose (d : Diagnostic) : A unit := fun ds => A_Ok tt (ds ++ [d]).

Section Lists.
Context {X Y : Type}.

(** [Iterator::find_map] *)
Definition a_find_map (f : X -> A (option Y)) : list X -> A (option Y) :=
  fix go l :=
    match l with
    | [] => a_ret None
    | x :: l' => let^ r := f x in match r with Some y => a_ret (Some y) | None => go l' end
    end.

(** [Iterator::filter_map] and [collect] *)
Definition a_filter_map (f : X -> A (option Y)) : list X -> A (list Y) :=
  fix go l :=
    match l with
    | [] => a_ret []
    | x :: l' =>
        let^ r := f x in
        let^ ys := go l' in
        a_ret (match r with Some y => y :: ys | None => ys end)
    end.

(** The first two elements of a [filter_map], the second only if there is a first *)
Definition a_next_two (f : X -> A (option Y)) : list X -> A (option Y * option Y) :=
  fix go l :=
    match l with
    | [] => a_ret (None, None)
    | x :: l' =>
        let^ r := f x in
        match r with
        | Some y => let^ z := a_find_map f l' in a_ret (Some y, z)
        | None => go l'
        end
    end.
End Lists.

Definition option_default {X} (m : A (option (list X))) : A (list X) :=
  let^ r := m in a_ret (default [] r).

(** ** Text *)

(** [unescape_string]: the bytes of a character that no escape touches stay
    together, so that the loop may go by bytes. *)
Fixpoint unescape (l : list Ascii.ascii) : list Ascii.ascii :=
  match l with
  | [] => []
  | c :: l' =>
      if negb (Ascii.nat_of_ascii c =? 92) then c :: unescape l'
      else
        match l' with
        | [] => [c]
        | d :: l'' =>
            let n := Ascii.nat_of_ascii d in
            if n =? 92 then c :: unescape l''
            else if n =? 34 then d :: unescape l''
            else if n =? 110 then Ascii.ascii_of_nat 10 :: unescape l''
            else if n =? 116 then Ascii.ascii_of_nat 9 :: unescape l''
            else if n =? 114 then Ascii.ascii_of_nat 13 :: unescape l''
            else if n =? 48 then Ascii.ascii_of_nat 0 :: unescape l''
            else c :: d :: unescape l''
        end
  end.

Definition text (l : list Ascii.ascii) : string := String.string_of_list_ascii l.

Definition unescape_string (s : string) : string := text (unescape (bytes s)).

(** [strip_prefix('"')] and [strip_suffix('"')], or the text itself *)
Definition unquote (s : string) : string :=
  match bytes s with
  | a :: l =>
      if Ascii.nat_of_ascii a =? 34
      then match rev l with
           | b :: l' => if Ascii.nat_of_ascii b =? 34 then text (rev l') else s
           | [] => s
           end
      else s
  | [] => s
  end.

(** [has_interpolation]: a brace that no second one follows *)
Fixpoint has_interpolation (l : list Ascii.ascii) : bool :=
  match l with
  | [] => false
  | c :: l' =>
      if Ascii.nat_of_ascii c =? 123
      then match l' with
           | d :: l'' => if Ascii.nat_of_ascii d =? 123 then has_interpolation l'' else true
           | [] => true
           end
      else has_interpolation l'
  end.

(** [usize], 64 bits *)
Definition parse_len (lexeme : string) : option Z :=
  let l := match bytes lexeme with a :: l' => if Ascii.nat_of_ascii a =? 43 then l' else a :: l' | [] => [] end in
  match l with
  | [] => None
  | _ => z ← parse_digits 0 l; if (z <? 2 ^ 64)%Z then Some z else None
  end.

(** ** Tokens and nodes *)

Definition is_kind (kind : NodeKind) (n : Node) : bool := bool_decide (node_kind n = kind).

Definition is_type (n : Node) : bool := is_kind N_TypePath n || is_kind N_TypeArray n.

Definition is_token (kind : TokenKind) (t : Token) : bool := bool_decide (tok_kind t = kind).

Definition find_token (p : Token -> bool) (n : Node) : option Token :=
  head (omap (fun e => match e with Element_Token t => if p t then Some t else None | Element_Node _ => None end)
          (node_children n)).

Definition first_token (n : Node) (kind : TokenKind) : option Token := find_token (is_token kind) n.

Definition first_ident (n : Node) : option string := tok_lexeme <$> first_token n T_Ident.

(** The lexemes of the identifiers among the children *)
Definition ident_lexemes (es : list Element) : list string :=
  omap (fun e => match e with
                 | Element_Token t => if is_token T_Ident t then Some (tok_lexeme t) else None
                 | Element_Node _ => None
                 end) es.

(** The loop of [ident_after] *)
Fixpoint ident_after_loop (keyword : TokenKind) (saw_keyword : bool) (es : list Element) : option string :=
  match es with
  | [] => None
  | Element_Node _ :: es' => ident_after_loop keyword saw_keyword es'
  | Element_Token t :: es' =>
      if is_token keyword t then ident_after_loop keyword true es'
      else if saw_keyword && is_token T_Ident t then Some (tok_lexeme t)
      else ident_after_loop keyword saw_keyword es'
  end.

Definition ident_after (n : Node) (keyword : TokenKind) : A (option string) :=
  match ident_after_loop keyword false (node_children n) with
  | Some name => a_ret (Some name)
  | None =>
      let^ _ := a_diagnose (Diagnostic_new "ast.missing-name" "missing identifier while lowering item"
        (node_span n) (Some "Provide an ASCII identifier immediately after the item keyword."%string)) in
      a_ret None
  end.

(** On the nodes among the children only *)
Definition on_node {Y} (f : Node -> A (option Y)) (e : Element) : A (option Y) :=
  match e with Element_Node c => f c | Element_Token _ => a_ret None end.

Definition on_kind {Y} (p : Node -> bool) (f : Node -> A (option Y)) (e : Element) : A (option Y) :=
  match e with
  | Element_Node c => if p c then f c else a_ret None
  | Element_Token _ => a_ret None
  end.

Definition has_token (p : Token -> bool) (n : Node) : bool :=
  existsb (fun e => match e with Element_Token t => p t | Element_Node _ => false end) (node_children n).

(** ** Types *)

Definition array_len (t : Token) : option ArrayLen :=
  if is_token T_Integer t then AL_Literal <$> parse_len (tok_lexeme t)
  else if is_token T_Ident t then Some (AL_Name (tok_lexeme t))
  else None.

Fixpoint lower_type_path (n : Node) : A (option TypePath) :=
  let 'mkNode kind span children := n in
  match kind with
  | N_TypePath =>
      match ident_lexemes children with
      | [] =>
          let^ _ := a_diagnose (Diagnostic_new "ast.missing-type-path" "type path lowering failed" span
            (Some "Use a non-empty type path."%string)) in
          a_ret None
      | segments =>
          let^ args := a_filter_map (on_kind is_type lower_type_path) children in
          a_ret (Some (match args with
                       | [] => TP_Named segments
                       | _ => TP_Generic (join "." segments) args
                       end))
      end
  | N_TypeArray =>
      let? element := a_find_map (on_kind is_type lower_type_path) children in
      a_ret (TP_Array element <$>
        head (omap (fun e => match e with Element_Token t => array_len t | Element_Node _ => None end) children))
  | _ => a_ret None
  end.

Definition first_type_path (n : Node) : A (option TypePath) :=
  a_find_map (on_kind is_type lower_type_path) (node_children n).

(** ** Leaves *)

Definition signed_numeric_lexeme (n : Node) (t : Token) : string :=
  if has_token (is_token T_Minus) n then ("-" ++ tok_lexeme t)%string else tok_lexeme t.

Definition lower_integer_expr (n : Node) : option Expr :=
  token ← first_token n T_Integer;
  value ← parse_i64 (bytes (signed_numeric_lexeme n token));
  Some (AE_Integer value (tok_span token)).

Definition lower_float_expr `{Platform} (n : Node) : option Expr :=
  token ← first_token n T_Float;
  value ← f64_parse (bytes (signed_numeric_lexeme n token));
  Some (AE_Float value (tok_span token)).

Definition lower_string_expr (n : Node) : option (string * string * Span) :=
  token ← first_token n T_String;
  Some (tok_lexeme token, unescape_string (unquote (tok_lexeme token)), tok_span token).

Definition lower_bool_expr (n : Node) : option Expr :=
  token ← find_token (fun t => is_token T_KwTrue t || is_token T_KwFalse t) n;
  Some (AE_Bool (is_token T_KwTrue token) (tok_span token)).

Definition lower_name_expr (n : Node) : option Expr :=
  token ← first_token n T_Ident; Some (AE_Name (tok_lexeme token) (tok_span token)).

Definition lower_contract_result_expr (n : Node) : option Expr :=
  token ← first_token n T_Ident; Some (AE_ContractResult (tok_span token)).

Definition binary_op (kind : TokenKind) : option BinaryOp :=
  match kind with
  | T_KwAnd => Some AB_And | T_KwOr => Some AB_Or | T_Pipe => Some AB_BitOr | T_Caret => Some AB_BitXor
  | T_Amp => Some AB_BitAnd | T_EqEq => Some AB_Eq | T_NotEq => Some AB_Ne | T_Lt => Some AB_Lt
  | T_Le => Some AB_Le | T_Gt => Some AB_Gt | T_Ge => Some AB_Ge | T_Shl => Some AB_Shl
  | T_Shr => Some AB_Shr | T_Plus => Some AB_Add | T_Minus => Some AB_Sub | T_Star => Some AB_Mul
  | T_Slash => Some AB_Div | T_Percent => Some AB_Rem
  | _ => None
  end.

(** The first operator among the tokens *)
Definition find_op {X} (op : TokenKind -> option X) (n : Node) : option X :=
  head (omap (fun e => match e with Element_Token t => op (tok_kind t) | Element_Node _ => None end)
          (node_children n)).

Definition compound_assign_op (kind : TokenKind) : option BinaryOp :=
  match kind with
  | T_PlusEq => Some AB_Add
  | T_MinusEq => Some AB_Sub
  | T_StarEq => Some AB_Mul
  | T_SlashEq => Some AB_Div
  | T_PercentEq => Some AB_Rem
  | _ => None
  end.

(** ** Patterns *)

Definition tokens_of (es : list Element) : list Token :=
  omap (fun e => match e with Element_Token t => Some t | Element_Node _ => None end) es.

(** The pattern that one token is *)
Definition token_pattern (t : Token) : option MatchPattern :=
  match tok_kind t with
  | T_Integer => value ← parse_i64 (bytes (tok_lexeme t)); Some (AP_Integer value (tok_span t))
  | T_String => Some (AP_String (tok_lexeme t) (unescape_string (unquote (tok_lexeme t))) (tok_span t))
  | T_KwTrue | T_KwFalse => Some (AP_Bool (is_token T_KwTrue t) (tok_span t))
  | T_Underscore => Some (AP_Wildcard (tok_span t))
  | _ => None
  end.

(** A range, if the tokens are three, trivia counted; the pattern of the first
    token otherwise *)
Definition tokens_pattern (span : Span) (ts : list Token) : option MatchPattern :=
  match ts with
  | [a; b; c] =>
      if is_token T_Integer a && is_token T_DotDot b && is_token T_Integer c
      then start ← parse_i64 (bytes (tok_lexeme a));
           end_ ← parse_i64 (bytes (tok_lexeme c));
           Some (AP_IntegerRange start end_ span)
      else token_pattern a
  | a :: _ => token_pattern a
  | [] => None
  end.

Fixpoint lower_match_pattern (n : Node) : A (option MatchPattern) :=
  let 'mkNode _ span children := n in
  let^ nested_patterns := a_filter_map (on_kind (is_kind N_MatchPattern) lower_match_pattern) children in
  match nested_patterns with
  | [p] => a_ret (Some p)
  | _ :: _ => a_ret (Some (AP_Or nested_patterns span))
  | [] =>
      let^ path := a_find_map (on_kind (is_kind N_TypePath) lower_type_path) children in
      a_ret (match path with
             | Some path => Some (AP_Variant path (head (ident_lexemes children)) span)
             | None => tokens_pattern span (tokens_of children)
             end)
  end.

(** ** Bodies and expressions

    One definition per method, over [lower_expr] and [lower_body] on the nodes
    inside, and over what the embedded text of a string is lowered to. *)

Section Methods.
Context `{Platform} (embedded : string -> AstOutcome AstFile).
Context (lower_expr : Node -> A (option Expr)) (lower_body : Node -> A Body).

Definition is_body : Node -> bool := is_kind N_Body.

(** The first expression among the nodes *)
Definition expr_child (n : Node) : A (option Expr) := a_find_map (on_node lower_expr) (node_children n).

(** The first expression among the nodes with [p] *)
Definition expr_child_of (p : Node -> bool) (n : Node) : A (option Expr) :=
  a_find_map (on_kind p lower_expr) (node_children n).

Definition some_body (n : Node) : A (option Body) := let^ b := lower_body n in a_ret (Some b).

Definition body_child (n : Node) : A (option Body) :=
  a_find_map (on_kind is_body some_body) (node_children n).

Definition exprs_of (n : Node) : A (list Expr) := a_filter_map (on_node lower_expr) (node_children n).

(** The expressions of the argument list *)
Definition arg_list (n : Node) : A (option (list Expr)) :=
  a_find_map (on_kind (is_kind N_ArgList) (fun c => let^ args := exprs_of c in a_ret (Some args)))
    (node_children n).

(** *** Strings with embedded expressions *)

(** The text up to the brace that closes [depth] open ones, and what follows *)
Fixpoint embedded_text (depth : nat) (l : list Ascii.ascii) : list Ascii.ascii * list Ascii.ascii :=
  match l with
  | [] => ([], [])
  | c :: l' =>
      if Ascii.nat_of_ascii c =? 123
      then let r := embedded_text (S depth) l' in (c :: r.1, r.2)
      else if Ascii.nat_of_ascii c =? 125
      then match depth with
           | 0 | 1 => ([], l')
           | S depth' => let r := embedded_text depth' l' in (c :: r.1, r.2)
           end
      else let r := embedded_text depth l' in (c :: r.1, r.2)
  end.

(** The tail of the first function of a file that has one *)
Definition embedded_tail (file : AstFile) : option Expr :=
  head (omap (fun item => match item with AI_Function f => body ← fn_body f; (let 'mkBody _ tail _ := body in tail) | _ => None end) file).

(** One of the two [replace] of an embedded text: a pair of bytes becomes a byte. *)
Fixpoint replace_pair (a b : nat) (by_ : Ascii.ascii) (l : list Ascii.ascii) : list Ascii.ascii :=
  match l with
  | c :: ((d :: l'') as l') =>
      if (Ascii.nat_of_ascii c =? a) && (Ascii.nat_of_ascii d =? b)
      then by_ :: replace_pair a b by_ l''
      else c :: replace_pair a b by_ l'
  | _ => l
  end.

Definition last_text (buf : list Ascii.ascii) : string :=
  text (replace_pair 92 110 (Ascii.ascii_of_nat 10) (replace_pair 92 34 (Ascii.ascii_of_nat 34) buf)).

Definition flush (buf : list Ascii.ascii) : list TemplateSegment :=
  match buf with [] => [] | _ => [TS_Text (unescape_string (text buf))] end.

(** The loop of [lower_template_expr]: the rest of the text, what it has put in
    [buf], and the segments.  Every round takes a byte. *)
Fixpoint template_loop (fuel : nat) (l buf : list Ascii.ascii) (segments : list TemplateSegment)
    : AstOutcome (list TemplateSegment) :=
  match fuel, l with
  | _, [] =>
      A_Ok (segments ++ match buf with [] => [] | _ => [TS_Text (last_text buf)] end) []
  | 0, _ => A_Running
  | S fuel, c :: l' =>
      let n := Ascii.nat_of_ascii c in
      if n =? 92 then
        match l' with
        | d :: l'' => template_loop fuel l'' (buf ++ [c; d]) segments
        | [] => template_loop fuel [] (buf ++ [c]) segments
        end
      else if n =? 123 then
        let doubled := match l' with d :: _ => Ascii.nat_of_ascii d =? 123 | [] => false end in
        if doubled then template_loop fuel (tl l') (buf ++ [c]) segments
        else
          let segments := segments ++ flush buf in
          let r := embedded_text 1 l' in
          match embedded ("let _x = " ++ text r.1 ++ "; _x")%string with
          | A_Ok file _ =>
              template_loop fuel r.2 []
                (segments ++ match embedded_tail file with Some e => [TS_Expr e] | None => [] end)
          | A_Running => A_Running
          | A_Panicked => A_Panicked
          end
      else template_loop fuel l' (buf ++ [c]) segments
  end.

Definition has_expr (segments : list TemplateSegment) : bool :=
  existsb (fun s => match s with TS_Expr _ => true | TS_Text _ => false end) segments.

Definition lower_template_expr (raw : list Ascii.ascii) : AstOutcome (list TemplateSegment) :=
  template_loop (length raw) raw [] [].

(** The [ExprString] arm of [lower_expr] *)
Definition lower_string_node (n : Node) : A (option Expr) := fun ds =>
  match lower_string_expr n with
  | None => A_Ok None ds
  | Some (literal, value, span) =>
      let plain := A_Ok (Some (AE_String literal value span)) ds in
      if has_interpolation (bytes value) then
        match lower_template_expr (bytes (unquote literal)) with
        | A_Ok segments _ => if has_expr segments then A_Ok (Some (AE_Template segments span)) ds else plain
        | A_Running => A_Running
        | A_Panicked => A_Panicked
        end
      else plain
  end.

(** *** Calls and accesses *)

(** What a call of [e] calls, with the receiver of a method as first argument *)
Definition call_target (e : Expr) : option (string * list Expr) :=
  match e with
  | AE_Field base field span =>
      let is_enum_variant :=
        match base with
        | AE_Name name _ =>
            match bytes name with a :: _ => byte_in 65 90 a | [] => false end
        | _ => false
        end in
      if is_enum_variant then Some (expr_pretty e, []) else Some (field, [base])
  | AE_Name name _ => Some (name, [])
  | AE_Perform callee _ _ => Some (type_path_display callee, [])
  | _ => None
  end.

(** The first node of a call is what is called. *)
Definition callee_child (n : Node) : A (option Expr) :=
  let^ r := a_find_map (on_node (fun c => let^ r := lower_expr c in a_ret (Some r))) (node_children n) in
  a_ret (default None r).

Definition lower_call_expr (n : Node) : A (option Expr) :=
  let? callee := callee_child n in
  match call_target callee with
  | None => a_ret None
  | Some (callee, receiver) =>
      let^ args := arg_list n in
      a_ret (Some (AE_Call callee (receiver ++ default [] args) (node_span n)))
  end.

Definition lower_field_expr (n : Node) : A (option Expr) :=
  let? base := expr_child n in
  a_ret (field ← first_ident n; Some (AE_Field base field (node_span n))).

(** What an element is, and the length after the semicolon *)
Fixpoint array_elements (after_semicolon : bool) (repeat_len : option ArrayLen) (es : list Element)
    : A (list Expr * option ArrayLen) :=
  match es with
  | [] => a_ret ([], repeat_len)
  | Element_Node c :: es' =>
      if after_semicolon then array_elements after_semicolon repeat_len es'
      else
        let^ r := lower_expr c in
        let^ rest := array_elements after_semicolon repeat_len es' in
        a_ret (match r with Some e => (e :: rest.1, rest.2) | None => rest end)
  | Element_Token t :: es' =>
      if is_token T_Semicolon t then array_elements true repeat_len es'
      else array_elements after_semicolon
             (if after_semicolon && bool_decide (repeat_len = None) then array_len t else repeat_len) es'
  end.

Definition lower_array_expr (n : Node) : A Expr :=
  let^ r := array_elements false None (node_children n) in
  a_ret (AE_Array r.1 r.2 (node_span n)).

Definition lower_index_expr (n : Node) : A (option Expr) :=
  let^ r := a_next_two (on_node lower_expr) (node_children n) in
  a_ret (match r with
         | (Some base, Some index) => Some (AE_Index base index (node_span n))
         | _ => None
         end).

Definition lower_perform_expr (n : Node) : A (option Expr) :=
  let^ callee := a_find_map (on_kind (is_kind N_TypePath)
    (fun c => let^ r := lower_type_path c in a_ret (Some r))) (node_children n) in
  match default None callee with
  | None => a_ret None
  | Some callee => let? args := arg_list n in a_ret (Some (AE_Perform callee args (node_span n)))
  end.

(** *** Records *)

Definition lower_field_init (n : Node) : A (option FieldInit) :=
  match first_ident n with
  | None => a_ret None
  | Some name =>
      let^ value := expr_child n in
      a_ret (Some (mkFieldInit name (default (AE_Name name (node_span n)) value) (node_span n)))
  end.

Definition lower_field_update (n : Node) : A (option FieldInit) :=
  match first_ident n with
  | None => a_ret None
  | Some name => let? value := expr_child n in a_ret (Some (mkFieldInit name value (node_span n)))
  end.

(** The fields of the list of the given kind *)
Definition field_list (list_kind kind : NodeKind) (lower_field : Node -> A (option FieldInit)) (n : Node)
    : A (list FieldInit) :=
  option_default (a_find_map (on_kind (is_kind list_kind) (fun c =>
    let^ fields := a_filter_map (on_kind (is_kind kind) lower_field) (node_children c) in a_ret (Some fields)))
    (node_children n)).

Definition lower_record_expr (n : Node) : A (option Expr) :=
  match first_ident n with
  | None => a_ret None
  | Some name =>
      let^ fields := field_list N_FieldInitList N_FieldInit lower_field_init n in
      a_ret (Some (AE_Record name fields (node_span n)))
  end.

Definition lower_record_update_expr (n : Node) : A (option Expr) :=
  let? base := expr_child_of (fun c => negb (is_kind N_FieldUpdateList c)) n in
  let^ updates := field_list N_FieldUpdateList N_FieldUpdate lower_field_update n in
  a_ret (Some (AE_RecordUpdate base updates (node_span n))).

(** *** Operators *)

Definition lower_binary_expr (n : Node) : A (option Expr) :=
  let^ r := a_next_two (on_node lower_expr) (node_children n) in
  a_ret (match r with
         | (Some l, Some r) => op ← find_op binary_op n; Some (AE_Binary op l r (node_span n))
         | _ => None
         end).

Definition unary_op (kind : TokenKind) : option UnaryOp :=
  match kind with T_KwNot => Some AU_Not | _ => None end.

Definition lower_unary_expr (n : Node) : A (option Expr) :=
  let? inner := expr_child n in
  a_ret (op ← find_op unary_op n; Some (AE_Unary op inner (node_span n))).

Definition lower_group_expr (n : Node) : A (option Expr) :=
  let? inner := expr_child n in a_ret (Some (AE_Group inner (node_span n))).

(** *** Control *)

Definition lower_if_expr (n : Node) : A (option Expr) :=
  let? condition := expr_child_of (fun c => negb (is_body c)) n in
  let^ bodies := a_next_two (on_kind is_body some_body) (node_children n) in
  a_ret (match bodies.1 with
         | Some then_body =>
             Some (AE_If condition then_body
                     (default (mkBody [] None (empty_at (span_end (node_span n)))) bodies.2) (node_span n))
         | None => None
         end).

Definition lower_match_arm (n : Node) : A (option MatchArm) :=
  let? pattern := a_find_map (on_kind (is_kind N_MatchPattern) lower_match_pattern) (node_children n) in
  let? body := body_child n in
  a_ret (Some (mkMatchArm pattern body (node_span n))).

Definition lower_match_expr (n : Node) : A (option Expr) :=
  let? scrutinee := expr_child_of (fun c => negb (is_kind N_MatchArm c)) n in
  let^ arms := a_filter_map (on_kind (is_kind N_MatchArm) lower_match_arm) (node_children n) in
  a_ret (Some (AE_Match scrutinee arms (node_span n))).

Definition lower_repeat_expr (n : Node) : A (option Expr) :=
  let binding := if has_token (is_token T_KwIn) n then first_ident n else None in
  let? count := expr_child_of (fun c => negb (is_body c)) n in
  let? body := body_child n in
  a_ret (Some (AE_Repeat binding count body (node_span n))).

(** One direction of a [for], as a [repeat] over the distance *)
Definition desugar_for_direction (binding : string) (body : Body) (count_left count_right value_base : Expr)
    (count_op value_op : BinaryOp) (span : Span) : Expr :=
  let count := AE_Binary count_op count_left count_right span in
  let inner_binding := ("__" ++ binding ++ "_idx")%string in
  let index_expr := AE_Name inner_binding span in
  let loop_value := AE_Binary value_op value_base index_expr span in
  let 'mkBody statements tail body_span := body in
  AE_Repeat (Some inner_binding) count
    (mkBody (AS_Let false binding loop_value span :: statements) tail body_span) span.

Definition desugar_for (binding : string) (start end_ : Expr) (body : Body) (span : Span) : Expr :=
  let condition := AE_Binary AB_Lt start end_ span in
  let ascending := desugar_for_direction binding body end_ start start AB_Sub AB_Add span in
  let descending := desugar_for_direction binding body start end_ start AB_Sub AB_Sub span in
  AE_If condition (mkBody [] (Some ascending) span) (mkBody [] (Some descending) span) span.

Definition lower_for_expr (n : Node) : A Expr :=
  let binding := default "_i"%string (first_ident n) in
  let^ bounds := a_next_two (on_kind (fun c => negb (is_body c)) lower_expr) (node_children n) in
  let^ body := body_child n in
  a_ret (match bounds, body with
         | (Some start, Some end_), Some body => desugar_for binding start end_ body (node_span n)
         | _, _ => AE_Repeat None (AE_Integer 0 (node_span n)) (mkBody [] None (node_span n)) (node_span n)
         end).

Definition lower_while_expr (n : Node) : A (option Expr) :=
  let? condition := expr_child_of (fun c => negb (is_body c)) n in
  let? body := body_child n in
  a_ret (Some (AE_While condition body (node_span n))).

Definition lower_comptime_expr (n : Node) : A (option Expr) :=
  let? body := body_child n in a_ret (Some (AE_Comptime body (node_span n))).

(** The elements between the parentheses *)
Fixpoint parenthesised (opened : bool) (es : list Element) : list Element :=
  match es with
  | [] => []
  | e :: es' =>
      let token_is kind := match e with Element_Token t => is_token kind t | Element_Node _ => false end in
      if negb opened then parenthesised (token_is T_LParen) es'
      else if token_is T_RParen then [] else e :: parenthesised opened es'
  end.

Definition lower_handle_arm (n : Node) : A (option HandleArm) :=
  match first_ident n with
  | None => a_ret None
  | Some name =>
      let? body := body_child n in
      a_ret (Some (mkHandleArm name (ident_lexemes (parenthesised false (node_children n))) body (node_span n)))
  end.

Definition lower_handle_expr (n : Node) : A (option Expr) :=
  let? body := body_child n in
  let^ arms := a_filter_map (on_kind (is_kind N_HandleArm) lower_handle_arm) (node_children n) in
  a_ret (Some (AE_Handle body arms (node_span n))).

(** *** Expressions *)

Definition lower_expr_with (n : Node) : A (option Expr) :=
  match node_kind n with
  | N_ExprInteger => a_ret (lower_integer_expr n)
  | N_ExprFloat => a_ret (lower_float_expr n)
  | N_ExprString => lower_string_node n
  | N_ExprBool => a_ret (lower_bool_expr n)
  | N_ExprName => a_ret (lower_name_expr n)
  | N_ExprContractResult => a_ret (lower_contract_result_expr n)
  | N_ExprCall => lower_call_expr n
  | N_ExprArray => let^ e := lower_array_expr n in a_ret (Some e)
  | N_ExprField => lower_field_expr n
  | N_ExprIndex => lower_index_expr n
  | N_ExprIf => lower_if_expr n
  | N_ExprMatch => lower_match_expr n
  | N_ExprRepeat => lower_repeat_expr n
  | N_ExprFor => let^ e := lower_for_expr n in a_ret (Some e)
  | N_ExprWhile => lower_while_expr n
  | N_ExprRecord => lower_record_expr n
  | N_ExprRecordUpdate => lower_record_update_expr n
  | N_ExprUnary => lower_unary_expr n
  | N_ExprBinary => lower_binary_expr n
  | N_ExprGroup => lower_group_expr n
  | N_ExprComptime => lower_comptime_expr n
  | N_ExprPerform => lower_perform_expr n
  | N_ExprHandle => lower_handle_expr n
  | N_Error => a_ret None
  | _ =>
      let^ _ := a_diagnose (Diagnostic_new "ast.invalid-expression" "expression lowering failed" (node_span n)
        (Some "Use a supported stage-0 expression form."%string)) in
      a_ret None
  end.

(** *** Statements and bodies *)

Definition let_is_destructure (n : Node) : bool := has_token (is_token T_LParen) n.

Definition is_mutable (n : Node) : bool := has_token (is_token T_KwMut) n.

(** The names between the parenthesis and the value, and the value *)
Fixpoint destructure_loop (found_lparen : bool) (value : option Expr) (es : list Element)
    : A (list string * option Expr) :=
  match es with
  | [] => a_ret ([], value)
  | Element_Token t :: es' =>
      if is_token T_LParen t then destructure_loop true value es'
      else
        let^ r := destructure_loop found_lparen value es' in
        a_ret (if is_token T_Ident t && found_lparen && bool_decide (value = None)
               then (tok_lexeme t :: r.1, r.2) else r)
  | Element_Node c :: es' =>
      if found_lparen && bool_decide (value = None)
      then let^ value := lower_expr c in destructure_loop found_lparen value es'
      else destructure_loop found_lparen value es'
  end.

Definition lower_let_destructure (n : Node) : A (list Stmt) :=
  let^ r := destructure_loop false None (node_children n) in
  a_ret (match r.2 with
         | None => []
         | Some value =>
             imap (fun i name => AS_Let (is_mutable n) name (AE_Field value (pretty i) (node_span n)) (node_span n)) r.1
         end).

Definition lower_let_binding (n : Node) : A (option Stmt) :=
  match first_ident n with
  | Some name => let? value := expr_child n in a_ret (Some (AS_Let (is_mutable n) name value (node_span n)))
  | None =>
      if has_token (is_token T_Underscore) n
      then let? value := expr_child n in a_ret (Some (AS_Let (is_mutable n) "_" value (node_span n)))
      else a_ret None
  end.

Definition is_assign_op (kind : TokenKind) : bool :=
  match kind with T_Eq | T_PlusEq | T_MinusEq | T_StarEq | T_SlashEq => true | _ => false end.

Fixpoint assign_loop (target value : option Expr) (op : TokenKind) (es : list Element)
    : A (option Expr * option Expr * TokenKind) :=
  match es with
  | [] => a_ret (target, value, op)
  | Element_Node c :: es' =>
      match target, value with
      | None, _ => let^ target := lower_expr c in assign_loop target value op es'
      | Some _, None => let^ value := lower_expr c in assign_loop target value op es'
      | Some _, Some _ => assign_loop target value op es'
      end
  | Element_Token t :: es' =>
      assign_loop target value (if is_assign_op (tok_kind t) then tok_kind t else op) es'
  end.

Definition lower_assign_stmt (n : Node) : A (option Stmt) :=
  let^ r := assign_loop None None T_Eq (node_children n) in
  a_ret (match r with
         | (Some target, Some value, op) =>
             let value :=
               match compound_assign_op op with
               | Some binary_op => AE_Binary binary_op target value (node_span n)
               | None => value
               end in
             Some (AS_Assign target value (node_span n))
         | _ => None
         end).

Definition lower_expr_stmt (n : Node) : A (option Stmt) :=
  let? expr := expr_child n in a_ret (Some (AS_Expr expr (node_span n))).

Definition lower_with_arena_stmt (n : Node) : A (option Stmt) :=
  let? body := a_find_map (on_node some_body) (node_children n) in
  a_ret (Some (AS_WithArena body (node_span n))).

(** The statements that a child of a body is, if it is not the tail *)
Definition lower_statement (n : Node) : option (A (list Stmt)) :=
  let one (m : A (option Stmt)) : A (list Stmt) :=
    let^ r := m in a_ret (match r with Some s => [s] | None => [] end) in
  match node_kind n with
  | N_LetStmt =>
      Some (if let_is_destructure n then lower_let_destructure n else one (lower_let_binding n))
  | N_AssignStmt => Some (one (lower_assign_stmt n))
  | N_ExprStmt => Some (one (lower_expr_stmt n))
  | N_WithArenaStmt => Some (one (lower_with_arena_stmt n))
  | _ => None
  end.

Fixpoint body_loop (tail : option Expr) (es : list Element) : A (list Stmt * option Expr) :=
  match es with
  | [] => a_ret ([], tail)
  | Element_Token _ :: es' => body_loop tail es'
  | Element_Node c :: es' =>
      match lower_statement c, tail with
      | Some m, _ =>
          let^ statements := m in
          let^ r := body_loop tail es' in
          a_ret (statements ++ r.1, r.2)
      | None, None => let^ tail := lower_expr c in body_loop tail es'
      | None, Some _ => body_loop tail es'
      end
  end.

Definition lower_body_with (n : Node) : A Body :=
  let^ r := body_loop None (node_children n) in
  a_ret (mkBody r.1 r.2 (node_span n)).
End Methods.

Section Lower.
Context `{Platform} (embedded : string -> AstOutcome AstFile).

Fixpoint lower_expr (n : Node) : A (option Expr) := lower_expr_with embedded lower_expr lower_body n
with lower_body (n : Node) : A Body := lower_body_with lower_expr lower_body n.

Definition lower_clause_expr (n : Node) : A (option Expr) := expr_child lower_expr n.

(** *** Declarations *)

Definition lower_param (n : Node) : A (option Param) :=
  match first_ident n with
  | None => a_ret None
  | Some name => let? ty := first_type_path n in a_ret (Some (mkParam name ty (node_span n)))
  end.

Definition lower_field (n : Node) : A (option Field) :=
  match first_ident n with
  | None => a_ret None
  | Some name => let? ty := first_type_path n in a_ret (Some (mkField name ty (node_span n)))
  end.

(** The members of the first list of a kind among the children, none without a list *)
Definition members {X} (list_kind kind : NodeKind) (lower_member : Node -> A (option X)) (n : Node) : A (list X) :=
  option_default (a_find_map (on_kind (is_kind list_kind) (fun c =>
    let^ xs := a_filter_map (on_kind (is_kind kind) lower_member) (node_children c) in a_ret (Some xs)))
    (node_children n)).

Definition lower_params (n : Node) : A (list Param) := members N_ParamList N_Param lower_param n.

Definition lower_return_type (n : Node) : A (option TypePath) :=
  a_find_map (on_kind (is_kind N_ReturnType) first_type_path) (node_children n).

Definition lower_effect_method (n : Node) : A (option EffectMethod) :=
  let? name := ident_after n T_KwFn in
  let^ params := lower_params n in
  let^ return_type := lower_return_type n in
  a_ret (Some (mkEffectMethod name params return_type (node_span n))).

Definition lower_effect_item (n : Node) : A (option Effect) :=
  let? name := ident_after n T_KwEffect in
  let^ methods := a_filter_map (on_kind (is_kind N_FnItem) lower_effect_method) (node_children n) in
  a_ret (Some (mkEffect name methods (node_span n))).

Definition lower_extern_function (n : Node) : A (option ExternFunction) :=
  let? name := ident_after n T_KwFn in
  let^ params := lower_params n in
  let^ return_type := lower_return_type n in
  a_ret (Some (mkExternFunction name params return_type (node_span n))).

Definition lower_extern_block (n : Node) : A ExternBlock :=
  let^ functions := a_filter_map (on_kind (is_kind N_FnItem) lower_extern_function) (node_children n) in
  a_ret (mkExternBlock functions (node_span n)).

(** The elements after the first token of a kind *)
Fixpoint after_token (kind : TokenKind) (es : list Element) : list Element :=
  match es with
  | [] => []
  | Element_Token t :: es' => if is_token kind t then es' else after_token kind es'
  | Element_Node _ :: es' => after_token kind es'
  end.

Definition lower_import (n : Node) : A (option ImportItem) :=
  let? module := ident_after n T_KwFrom in
  a_ret (Some (mkImportItem module (ident_lexemes (after_token T_KwImport (node_children n))) (node_span n))).

(** The expressions a constant may be *)
Definition is_const_value (n : Node) : bool :=
  match node_kind n with
  | N_ExprInteger | N_ExprFloat | N_ExprString | N_ExprBool | N_ExprName | N_ExprContractResult
  | N_ExprCall | N_ExprArray | N_ExprField | N_ExprIndex | N_ExprIf | N_ExprMatch | N_ExprRepeat
  | N_ExprWhile | N_ExprRecord | N_ExprRecordUpdate | N_ExprUnary | N_ExprBinary | N_ExprGroup
  | N_ExprComptime => true
  | _ => false
  end.

Definition lower_const (n : Node) : A (option Const) :=
  let? name := ident_after n T_KwConst in
  let? ty := first_type_path n in
  let? value := expr_child_of lower_expr is_const_value n in
  a_ret (Some (mkConst name ty value (node_span n))).

Definition lower_generic_param (n : Node) : A (option GenericParam) :=
  a_ret (name ← first_ident n;
         Some (mkGenericParam name (head (ident_lexemes (after_token T_Colon (node_children n)))) (node_span n))).

Definition effect_names (es : list Element) : list EffectName :=
  omap (fun e => match e with
                 | Element_Token t => if is_token T_Ident t then Some (mkEffectName (tok_lexeme t) (tok_span t)) else None
                 | Element_Node _ => None
                 end) es.

(** The names of the list in the effects clause *)
Definition lower_effects (n : Node) : list EffectName :=
  let nodes kind es := omap (fun e => match e with
                                      | Element_Node c => if is_kind kind c then Some c else None
                                      | Element_Token _ => None
                                      end) es in
  default [] (clause ← head (nodes N_EffectsClause (node_children n));
              list ← head (nodes N_EffectList (node_children clause));
              Some (effect_names (node_children list))).

Definition lower_function (n : Node) : A (option Function) :=
  let? name := ident_after n T_KwFn in
  let^ type_params := members N_GenericParamList N_GenericParam lower_generic_param n in
  let^ params := lower_params n in
  let^ return_type := lower_return_type n in
  let effects := lower_effects n in
  let^ requires := a_find_map (on_kind (is_kind N_RequiresClause) lower_clause_expr) (node_children n) in
  let^ ensures := a_find_map (on_kind (is_kind N_EnsuresClause) lower_clause_expr) (node_children n) in
  let^ body := body_child lower_body n in
  a_ret (Some (mkFunction name type_params params return_type effects requires ensures body (node_span n))).

(** What follows the first occurrence of a text *)
Fixpoint after_text (p : list Ascii.ascii) (l : list Ascii.ascii) : option (list Ascii.ascii) :=
  match strip_prefix (map Ascii.nat_of_ascii p) l with
  | Some rest => Some rest
  | None => match l with [] => None | _ :: l' => after_text p l' end
  end.

(** The text before the first closing parenthesis *)
Fixpoint before_paren (l : list Ascii.ascii) : option (list Ascii.ascii) :=
  match l with
  | [] => None
  | c :: l' => if Ascii.nat_of_ascii c =? 41 then Some [] else cons c <$> before_paren l'
  end.

Definition repr_of (t : Token) : option string :=
  inner ← after_text (bytes "repr(") (bytes (tok_lexeme t)); text <$> before_paren inner.

Definition lower_struct (n : Node) : A (option Struct) :=
  let? name := ident_after n T_KwStruct in
  let repr := head (omap (fun e => match e with
                                   | Element_Token t => if is_token T_AttrRepr t then repr_of t else None
                                   | Element_Node _ => None
                                   end) (node_children n)) in
  let^ fields := members N_FieldList N_Field lower_field n in
  a_ret (Some (mkStruct name fields repr (node_span n))).

(** The loop over the children of a variant: its name with the span, the
    payload, the discriminant, whether the equals sign has been seen *)
Fixpoint variant_loop (name : option (string * Span)) (payload : option TypePath) (discriminant : option Expr)
    (after_eq : bool) (es : list Element) : A (option EnumVariant) :=
  match es with
  | [] =>
      a_ret (match name with
             | Some (name, span) => Some (mkEnumVariant name payload discriminant span)
             | None => None
             end)
  | Element_Token t :: es' =>
      if is_token T_Ident t && bool_decide (name = None)
      then variant_loop (Some (tok_lexeme t, tok_span t)) payload discriminant after_eq es'
      else variant_loop name payload discriminant (after_eq || is_token T_Eq t) es'
  | Element_Node c :: es' =>
      if is_type c && bool_decide (payload = None) && negb after_eq
      then let^ payload := lower_type_path c in variant_loop name payload discriminant after_eq es'
      else if is_expr (node_kind c) && after_eq && bool_decide (discriminant = None)
      then let^ discriminant := lower_expr c in variant_loop name payload discriminant after_eq es'
      else variant_loop name payload discriminant after_eq es'
  end.

Definition lower_enum (n : Node) : A (option Enum) :=
  let? name := ident_after n T_KwEnum in
  let^ variants := members N_VariantList N_Variant
    (fun c => variant_loop None None None false (node_children c)) n in
  a_ret (Some (mkEnum name variants (node_span n))).

Definition lower_item (n : Node) : A (option Item) :=
  let item {X} (make : X -> Item) (m : A (option X)) : A (option Item) := let^ r := m in a_ret (make <$> r) in
  match node_kind n with
  | N_ConstItem => item AI_Const (lower_const n)
  | N_FnItem => item AI_Function (lower_function n)
  | N_EnumItem => item AI_Enum (lower_enum n)
  | N_StructItem => item AI_Struct (lower_struct n)
  | N_EffectItem => item AI_Effect (lower_effect_item n)
  | N_ExternBlock => let^ block := lower_extern_block n in a_ret (Some (AI_ExternBlock block))
  | N_ImportItem => item AI_Import (lower_import n)
  | _ => a_ret None
  end.

Definition lower_file (root : Node) : A AstFile := a_filter_map (on_node lower_item) (node_children root).

(** [ast::lower]: the file and the diagnostics *)
Definition lower_tree (root : Node) : AstOutcome AstFile := lower_file root [].
End Lower.

(** ** Sources

    Lexing, parsing and lowering one after the other; the same for the text
    between the braces of a string.  The cache of identifiers only shares
    memory, and starts empty.  The lexer takes a step a byte; two rounds a token
    are enough for the parser without [handle], and [extra] more are allowed;
    [depth] bounds how deep strings are embedded in strings. *)
Section Source.
Context `{Platform} (logos_next : LogosNext) (extra : nat).

Definition source_tree (source : string) : AstOutcome Node :=
  match lex logos_next source (S (String.length source)) ∅ with
  | Lexed out _ =>
      match parse (extra + 2 * length (tokens out)) (tokens out) with
      | Parsed output => A_Ok (root output) (lex_diagnostics out ++ parse_diagnostics output)
      | ParseRunning => A_Running
      | ParsePanicked => A_Panicked
      end
  | LexRunning => A_Running
  | LexPanicked => A_Panicked
  end.

(** [crate::ast::lower] of [crate::parser::parse] of [crate::lexer::lex] *)
Fixpoint lower_source (depth : nat) (source : string) : AstOutcome AstFile :=
  match depth with
  | 0 => A_Running
  | S depth =>
      match source_tree source with
      | A_Ok root _ => lower_tree (lower_source depth) root
      | A_Running => A_Running
      | A_Panicked => A_Panicked
      end
  end.
End Source.
