(* ===== verification/HirLower.v ===== *)
(** * From the abstract syntax to the HIR

    [lower] of [crates/sarif_frontend/src/hir.rs] with the functions it calls,
    and the printing of HIR modules.  Calls of the names that stand for system
    effects become [perform]s; strings with embedded expressions become chains
    of [text_concat]; nothing is reported.  Last, the database of sources with
    its caches ([FrontendDatabase] of [crates/sarif_frontend/src/lib.rs]). *)
From stdpp Require Import gmap pretty.
From S2P Require Import Prelude Syntax Utf8 TextOps Float64 Mir Interp Lexer Parser Ast AstLower Hir EffectInfer.

Open Scope nat_scope.

(** ** Types, operators, effects *)

Definition lower_type (ty : TypePath) (span : Span) : TypeRef := mkTypeRef (type_path_display ty) span.

Definition lower_binary_op (op : Ast.BinaryOp) : BinaryOp :=
  match op with
  | AB_And => B_And | AB_Or => B_Or | AB_BitOr => B_BitOr | AB_BitXor => B_BitXor
  | AB_BitAnd => B_BitAnd | AB_Eq => B_Eq | AB_Ne => B_Ne | AB_Lt => B_Lt | AB_Le => B_Le
  | AB_Gt => B_Gt | AB_Ge => B_Ge | AB_Shl => B_Shl | AB_Shr => B_Shr | AB_Add => B_Add
  | AB_Sub => B_Sub | AB_Mul => B_Mul | AB_Div => B_Div | AB_Rem => B_Rem
  end.

Definition lower_unary_op (op : Ast.UnaryOp) : UnaryOp := match op with AU_Not => U_Not end.

(** [u32::try_from(len).unwrap_or(0)] *)
Definition lower_array_len (len : ArrayLen) : ConstExpr :=
  match len with
  | AL_Literal len => C_Literal (if (len <=? U32_MAX)%Z then len else 0)
  | AL_Name name => C_Param name
  end.

Fixpoint lower_const_expr (e : Ast.Expr) : option ConstExpr :=
  match e with
  | AE_Integer value _ => if ((0 <=? value) && (value <=? U32_MAX))%Z then Some (C_Literal value) else None
  | AE_Name name _ => Some (C_Param name)
  | AE_Binary op l r _ =>
      let make :=
        match op with
        | AB_Add => Some C_Add | AB_Sub => Some C_Sub | AB_Mul => Some C_Mul | _ => None
        end in
      make ← make; l ← lower_const_expr l; r ← lower_const_expr r; Some (make l r)
  | _ => None
  end.

Definition lower_effect_name (effect : EffectName) : EffectRef :=
  match effect_parse (effect_name_name effect) with
  | Some builtin => ER_Builtin builtin (effect_name_span effect)
  | None => ER_Unknown (effect_name_name effect) (effect_name_span effect)
  end.

(** The key of [sort_by_key]: builtins by rank and keyword, then the unknown ones by name *)
Definition compare_effect_refs (l r : EffectRef) : comparison :=
  match l, r with
  | ER_Builtin l _, ER_Builtin r _ => compare_effects l r
  | ER_Builtin _ _, ER_Unknown _ _ => Lt
  | ER_Unknown _ _, ER_Builtin _ _ => Gt
  | ER_Unknown l _, ER_Unknown r _ => compare_text l r
  end.

(** ** Patterns *)

Fixpoint lower_match_pattern (p : Ast.MatchPattern) : MatchPattern :=
  match p with
  | AP_Variant path binding span => P_Variant (lower_type path span) binding span
  | AP_Integer value span => P_Integer value span
  | AP_String literal value span => P_String literal value span
  | AP_Bool value span => P_Bool value span
  | AP_IntegerRange start end_ span => P_IntegerRange start end_ span
  | AP_Or patterns span => P_Or (map lower_match_pattern patterns) span
  | AP_Wildcard span => P_Wildcard span
  end.

(** ** Calls that are effects of the system *)

(** The effect and the operation of a call with that many arguments *)
Definition system_call (callee : string) (args : nat) : option (string * string) :=
  let named name n := (String.eqb callee name && (args =? n))%bool in
  if (named "write" 1 || named "stdout_write" 1)%bool then Some ("SystemIO", "stdout_write")
  else if named "write_builder" 1 then Some ("SystemIO", "stdout_write_builder")
  else if (named "read" 0 || named "stdin_text" 0)%bool then Some ("SystemIO", "stdin_text")
  else if named "file_open" 2 then Some ("SystemFile", "open")
  else if named "file_close" 1 then Some ("SystemFile", "close")
  else if named "file_read" 2 then Some ("SystemFile", "read")
  else if named "file_read_to_end" 1 then Some ("SystemFile", "read_to_end")
  else if named "file_write" 2 then Some ("SystemFile", "write")
  else if named "file_sync" 1 then Some ("SystemFile", "sync")
  else if named "file_seek" 3 then Some ("SystemFile", "seek")
  else if named "file_size" 1 then Some ("SystemFile", "size")
  else if named "file_exists" 1 then Some ("SystemFile", "exists")
  else if named "file_remove" 1 then Some ("SystemFile", "remove")
  else if named "file_mmap" 1 then Some ("SystemFile", "mmap")
  else if named "file_is_valid" 1 then Some ("SystemFile", "is_valid")
  else None%string.

Definition lower_call (callee : string) (args : list Expr) (span : Span) : Expr :=
  match system_call callee (length args) with
  | Some (effect, operation) => E_Perform effect operation args span
  | None => E_Call callee args span
  end.

(** ** Expressions *)

Definition empty_text (span : Span) : Expr := E_String (quote ++ quote)%string "" span.

(** [lower_template_expr], over the arguments of its segments *)
Definition concat_segments (span : Span) (args : list Expr) : Expr :=
  fold_left (fun current arg => E_Call "text_concat" [current; arg] span) args (empty_text span).

(** [ast::Expr::For], which lowering to the AST never makes *)
Definition lower_for (binding : string) (start end_ : Expr) (body : Body) (span : Span) : Expr :=
  let count := E_Binary B_Sub end_ start span in
  let inner_binding := ("__" ++ binding ++ "_idx")%string in
  let offset := E_Binary B_Add start (E_Name inner_binding span) span in
  let 'mkBody statements tail body_span := body in
  E_Repeat (Some inner_binding) count
    (mkBody (S_Let false binding offset span :: statements) tail body_span) span.

Fixpoint lower_expr (e : Ast.Expr) : Expr :=
  match e with
  | AE_Integer value span => E_Integer value span
  | AE_Float value span => E_Float value span
  | AE_String literal value span => E_String literal value span
  | AE_Bool value span => E_Bool value span
  | AE_Name name span => E_Name name span
  | AE_ContractResult span => E_ContractResult span
  | AE_Call callee args span => lower_call callee (map lower_expr args) span
  | AE_Array elements repeat_len span => E_Array (map lower_expr elements) (lower_array_len <$> repeat_len) span
  | AE_Field base field span => E_Field (lower_expr base) field span
  | AE_Index base index span => E_Index (lower_expr base) (lower_expr index) span
  | AE_If condition then_body else_body span =>
      E_If (lower_expr condition) (lower_body then_body) (lower_body else_body) span
  | AE_Match scrutinee arms span => E_Match (lower_expr scrutinee) (map lower_arm arms) span
  | AE_Repeat binding count body span => E_Repeat binding (lower_expr count) (lower_body body) span
  | AE_For binding start end_ body span =>
      lower_for binding (lower_expr start) (lower_expr end_) (lower_body body) span
  | AE_While condition body span => E_While (lower_expr condition) (lower_body body) span
  | AE_Record name fields span => E_Record name (map lower_init fields) span
  | AE_RecordUpdate base updates span => E_RecordUpdate (lower_expr base) (map lower_init updates) span
  | AE_Unary op inner span => E_Unary (lower_unary_op op) (lower_expr inner) span
  | AE_Binary op l r span => E_Binary (lower_binary_op op) (lower_expr l) (lower_expr r) span
  | AE_Group inner span => E_Group (lower_expr inner) span
  | AE_Comptime body _ => E_Comptime (lower_body body)
  | AE_Perform callee args span =>
      E_Perform (type_path_name callee) (type_path_operation callee) (map lower_expr args) span
  | AE_Handle body arms _ => E_Handle (lower_body body) (map lower_handle_arm arms)
  | AE_Template segments span =>
      concat_segments span (map (fun segment =>
        match segment with
        | TS_Text t => E_String (quote ++ t ++ quote)%string t span
        | TS_Expr e => lower_expr e
        end) segments)
  end
with lower_body (b : Ast.Body) : Body :=
  let 'Ast.mkBody statements tail span := b in
  mkBody (map lower_stmt statements) (lower_expr <$> tail) span
with lower_stmt (s : Ast.Stmt) : Stmt :=
  match s with
  | AS_Let mutable name value span => S_Let mutable name (lower_expr value) span
  | AS_Assign target value span => S_Assign (lower_expr target) (lower_expr value) span
  | AS_Expr e span => S_Expr (lower_expr e) span
  | AS_WithArena body span => S_WithArena (lower_body body) span
  end
with lower_arm (a : Ast.MatchArm) : MatchArm :=
  let 'Ast.mkMatchArm pattern body span := a in mkMatchArm (lower_match_pattern pattern) (lower_body body) span
with lower_init (f : Ast.FieldInit) : FieldInit :=
  let 'Ast.mkFieldInit name value span := f in mkFieldInit name (lower_expr value) span
with lower_handle_arm (a : Ast.HandleArm) : HandleArm :=
  let 'Ast.mkHandleArm name params body span := a in mkHandleArm name params (lower_body body) span.

(** ** Items *)

Definition lower_param (p : Ast.Param) : Param :=
  mkParam (Ast.param_name p) (lower_type (Ast.param_ty p) (Ast.param_span p)) (Ast.param_span p).

Definition lower_const (c : Ast.Const) : Const :=
  mkConst (Ast.const_name c) (lower_type (Ast.const_ty c) (Ast.const_span c)) (lower_expr (Ast.const_value c))
    (Ast.const_span c).

Definition lower_generic_param (p : Ast.GenericParam) : GenericParam :=
  mkGenericParam (Ast.generic_name p) (Ast.generic_kind p) (Ast.generic_span p).

Definition lower_function (f : Ast.Function) : Function :=
  mkFunction (Ast.fn_name f) (map lower_generic_param (Ast.fn_type_params f)) (map lower_param (Ast.fn_params f))
    ((fun ty => lower_type ty (Ast.fn_span f)) <$> Ast.fn_return_type f)
    (sort_by compare_effect_refs (map lower_effect_name (Ast.fn_effects f)))
    (lower_expr <$> Ast.fn_requires f) (lower_expr <$> Ast.fn_ensures f) (lower_body <$> Ast.fn_body f)
    (Ast.fn_span f).

Definition lower_effect (e : Ast.Effect) : EffectItem :=
  mkEffectItem (Ast.effect_name e)
    (map (fun m => mkEffectMethod (Ast.method_name m) (map lower_param (Ast.method_params m))
                     ((fun ty => lower_type ty (Ast.method_span m)) <$> Ast.method_return_type m)
                     (Ast.method_span m)) (Ast.methods e))
    (Ast.effect_span e).

Definition lower_struct (s : Ast.Struct) : Struct :=
  mkStruct (Ast.struct_name s)
    (map (fun f => mkField (Ast.field_name f) (lower_type (Ast.field_ty f) (Ast.field_span f)) (Ast.field_span f))
       (Ast.struct_fields_decl s))
    (Ast.struct_repr s) (Ast.struct_span s).

Definition lower_enum (e : Ast.Enum) : Enum :=
  mkEnum (Ast.enum_name e)
    (map (fun v => mkEnumVariant (Ast.variant_name v)
                     ((fun ty => lower_type ty (Ast.variant_span v)) <$> Ast.variant_payload v)
                     (Ast.variant_discriminant v ≫= lower_const_expr) (Ast.variant_span v)) (Ast.variants e))
    (Ast.enum_span e).

Definition lower_extern_block (b : Ast.ExternBlock) : ExternBlock :=
  mkExternBlock
    (map (fun f => mkExternFunction (Ast.extern_name f) (map lower_param (Ast.extern_params f))
                     ((fun ty => lower_type ty (Ast.extern_span f)) <$> Ast.extern_return_type f)
                     (Ast.extern_span f)) (Ast.extern_functions b))
    (Ast.extern_block_span b).

Definition lower_item (item : Ast.Item) : Item :=
  match item with
  | AI_Const item => It_Const (lower_const item)
  | AI_Function item => It_Function (lower_function item)
  | AI_Enum item => It_Enum (lower_enum item)
  | AI_Struct item => It_Struct (lower_struct item)
  | AI_Effect item => It_Effect (lower_effect item)
  | AI_ExternBlock item => It_ExternBlock (lower_extern_block item)
  | AI_Import item =>
      It_Import (mkImportDecl (Ast.import_module item) (Ast.import_names item) (Ast.import_span item))
  end.

(** [hir::lower]; the list of diagnostics is always empty. *)
Definition lower_module (file : AstFile) : HirModule := map lower_item file.

(** ** Printing *)

Fixpoint pattern_pretty (p : MatchPattern) : string :=
  match p with
  | P_Variant path None _ => Hir.path path
  | P_Variant path (Some binding) _ => Hir.path path ++ "(" ++ binding ++ ")"
  | P_Integer value _ => pretty value
  | P_String literal _ _ => literal
  | P_Bool value _ => bool_display value
  | P_IntegerRange start end_ _ => pretty start ++ ".." ++ pretty end_
  | P_Or patterns _ => join " | " (map pattern_pretty patterns)
  | P_Wildcard _ => "_"
  end%string.

Definition unary_symbol (op : UnaryOp) : string := match op with U_Not => "not" end.

Section Pretty.
Context `{Platform}.

Fixpoint expr_pretty (e : Expr) : string :=
  match e with
  | E_Integer value _ => pretty value
  | E_Float value _ => f64_display value
  | E_String literal _ _ => literal
  | E_Bool value _ => bool_display value
  | E_Name name _ => name
  | E_ContractResult _ => "result"
  | E_Call callee args _ => callee ++ "(" ++ join ", " (map expr_pretty args) ++ ")"
  | E_Array elements _ _ => "[" ++ join ", " (map expr_pretty elements) ++ "]"
  | E_Field base field _ => expr_pretty base ++ "." ++ field
  | E_Index base index _ => expr_pretty base ++ "[" ++ expr_pretty index ++ "]"
  | E_If condition then_body else_body _ =>
      "if " ++ expr_pretty condition ++ " { " ++ body_pretty then_body ++ " } else { "
        ++ body_pretty else_body ++ " }"
  | E_Match scrutinee arms _ =>
      "match " ++ expr_pretty scrutinee ++ " { "
        ++ join ", " (map (fun '(mkMatchArm pattern body _) =>
             pattern_pretty pattern ++ " => { " ++ body_pretty body ++ " }") arms) ++ " }"
  | E_Repeat binding count body _ =>
      match binding with
      | None => "repeat " ++ expr_pretty count
      | Some binding => "repeat " ++ binding ++ " in " ++ expr_pretty count
      end ++ " { " ++ body_pretty body ++ " }"
  | E_While condition body _ => "while " ++ expr_pretty condition ++ " { " ++ body_pretty body ++ " }"
  | E_Record name fields _ =>
      name ++ " { " ++ join ", " (map (fun '(mkFieldInit name value _) =>
        name ++ ": " ++ expr_pretty value) fields) ++ " }"
  | E_RecordUpdate base updates _ =>
      expr_pretty base ++ " with { " ++ join ", " (map (fun '(mkFieldInit name value _) =>
        "." ++ name ++ " = " ++ expr_pretty value) updates) ++ " }"
  | E_Unary op inner _ => unary_symbol op ++ " " ++ expr_pretty inner
  | E_Binary op l r _ => expr_pretty l ++ " " ++ Hir.binary_symbol op ++ " " ++ expr_pretty r
  | E_Group inner _ => "(" ++ expr_pretty inner ++ ")"
  | E_Comptime body => "comptime " ++ body_pretty body
  | E_Perform effect operation _ _ => "perform " ++ effect ++ "." ++ operation
  | E_Handle body arms =>
      "handle " ++ body_pretty body ++ " { "
        ++ join ", " (map (fun '(mkHandleArm name params body _) =>
             name ++ "(" ++ join ", " params ++ ") => { " ++ body_pretty body ++ " }") arms) ++ " }"
  end%string
with body_pretty (b : Body) : string :=
  let 'mkBody statements tail _ := b in
  join " " (map stmt_pretty statements ++ match tail with Some e => [expr_pretty e] | None => [] end)
with stmt_pretty (s : Stmt) : string :=
  match s with
  | S_Let mutable name value _ =>
      "let " ++ (if mutable : bool then "mut " else "") ++ name ++ " = " ++ expr_pretty value ++ ";"
  | S_Assign target value _ => expr_pretty target ++ " = " ++ expr_pretty value ++ ";"
  | S_Expr expr _ => expr_pretty expr ++ ";"
  | S_WithArena body _ => "with_arena " ++ body_pretty body ++ ";"
  end%string.

Definition params_pretty (params : list Param) : string :=
  join ", " (map (fun p => param_name p ++ ": " ++ Hir.path (param_ty p))%string params).

Definition return_type_pretty (ty : option TypeRef) : string :=
  match ty with Some ty => " -> " ++ Hir.path ty | None => "" end%string.

Definition function_pretty (f : Function) : string :=
  ("  fn " ++ fn_name f ++ "(" ++ params_pretty (fn_params f) ++ ")" ++ return_type_pretty (fn_return_type f)
   ++ " effects [" ++ join ", " (map effect_ref_name (fn_effects f)) ++ "]"
   ++ match fn_requires f with Some e => " requires " ++ expr_pretty e | None => "" end
   ++ match fn_ensures f with Some e => " ensures " ++ expr_pretty e | None => "" end
   ++ " = " ++ match fn_body f with Some body => body_pretty body | None => "{}" end ++ newline)%string.

Definition item_pretty (item : Item) : string :=
  match item with
  | It_Const c =>
      "  const " ++ const_name c ++ ": " ++ Hir.path (const_ty c) ++ " = " ++ expr_pretty (const_value c) ++ newline
  | It_Function f => function_pretty f
  | It_Enum e => "  enum " ++ enum_name e ++ newline
  | It_Struct s => "  struct " ++ struct_name s ++ newline
  | It_Effect e => "  effect " ++ effect_name e ++ newline
  | It_ExternBlock b =>
      "  extern {" ++ newline ++ String.concat "" (map (fun f =>
        "    fn " ++ extern_name f ++ "(" ++ params_pretty (extern_params f) ++ ")"
          ++ return_type_pretty (extern_return_type f) ++ ";" ++ newline) (extern_functions b))
        ++ " }" ++ newline
  | It_Import i => " from " ++ import_module i ++ " import " ++ join ", " (import_names i) ++ newline
  end%string.

(** [Module::pretty] *)
Definition module_pretty (module : HirModule) : string :=
  ("HIR" ++ newline ++ String.concat "" (map item_pretty module))%string.
End Pretty.

(** ** The database

    [FrontendDatabase] up to the HIR: sources by their identifiers, and what has
    been computed of them.  A query that is answered from its cache computes
    nothing; a source that is not there is a panic.  [SourceId] is 32 bits wide:
    after the last one [add_source] panics where arithmetic is checked, and
    starts again at 0 where it is not. *)

Record Database := mkDatabase {
  sources : gmap Z (string * string);
  import_sources : gmap string Z;
  next_id : Z;
  lex_cache : gmap Z LexOutput;
  parse_cache : gmap Z ParseOutput;
  ast_cache : gmap Z (AstFile * list Diagnostic);
  hir_cache : gmap Z HirModule
}.

Definition Database_new : Database := mkDatabase ∅ ∅ 0 ∅ ∅ ∅ ∅.

Definition add_source (checks : bool) (source_path source : string) (db : Database) : option (Z * Database) :=
  let id := next_id db in
  if (checks && (id + 1 =? 2 ^ 32)%Z)%bool then None
  else Some (id, mkDatabase (<[id := (source_path, source)]> (sources db)) (import_sources db)
                   ((id + 1) mod 2 ^ 32) (lex_cache db) (parse_cache db) (ast_cache db) (hir_cache db)).

Definition add_import_source (checks : bool) (module_name source_path source : string) (db : Database)
    : option (Z * Database) :=
  '(id, db) ← add_source checks source_path source db;
  Some (id, mkDatabase (sources db) (<[module_name := id]> (import_sources db)) (next_id db) (lex_cache db)
              (parse_cache db) (ast_cache db) (hir_cache db)).

Inductive DbOutcome (X : Type) :=
  | Db_Ok (x : X) (db : Database)
  | Db_Running
  | Db_Panicked.
Arguments Db_Ok {X} x db.
Arguments Db_Running {X}.
Arguments Db_Panicked {X}.

Definition db_bind {X Y} (m : DbOutcome X) (k : X -> Database -> DbOutcome Y) : DbOutcome Y :=
  match m with
  | Db_Ok x db => k x db
  | Db_Running => Db_Running
  | Db_Panicked => Db_Panicked
  end.

Section Database.
Context `{Platform} (logos_next : LogosNext) (extra depth : nat).

Definition db_lex (id : Z) (db : Database) : DbOutcome LexOutput :=
  match lex_cache db !! id with
  | Some cached => Db_Ok cached db
  | None =>
      match sources db !! id with
      | None => Db_Panicked
      | Some (_, source) =>
          match lex logos_next source (S (String.length source)) ∅ with
          | Lexed result _ =>
              Db_Ok result (mkDatabase (sources db) (import_sources db) (next_id db)
                (<[id := result]> (lex_cache db)) (parse_cache db) (ast_cache db) (hir_cache db))
          | LexRunning => Db_Running
          | LexPanicked => Db_Panicked
          end
      end
  end.

Definition db_parse (id : Z) (db : Database) : DbOutcome ParseOutput :=
  match parse_cache db !! id with
  | Some cached => Db_Ok cached db
  | None =>
      db_bind (db_lex id db) (fun lexed db =>
        match parse (extra + 2 * length (tokens lexed)) (tokens lexed) with
        | Parsed result =>
            Db_Ok result (mkDatabase (sources db) (import_sources db) (next_id db) (lex_cache db)
              (<[id := result]> (parse_cache db)) (ast_cache db) (hir_cache db))
        | ParseRunning => Db_Running
        | ParsePanicked => Db_Panicked
        end)
  end.

Definition db_ast (id : Z) (db : Database) : DbOutcome (AstFile * list Diagnostic) :=
  match ast_cache db !! id with
  | Some cached => Db_Ok cached db
  | None =>
      db_bind (db_parse id db) (fun parsed db =>
        match lower_tree (lower_source logos_next extra depth) (root parsed) with
        | A_Ok file ds =>
            Db_Ok (file, ds) (mkDatabase (sources db) (import_sources db) (next_id db) (lex_cache db)
              (parse_cache db) (<[id := (file, ds)]> (ast_cache db)) (hir_cache db))
        | A_Running => Db_Running
        | A_Panicked => Db_Panicked
        end)
  end.

Definition db_hir (id : Z) (db : Database) : DbOutcome HirModule :=
  match hir_cache db !! id with
  | Some cached => Db_Ok cached db
  | None =>
      db_bind (db_ast id db) (fun ast db =>
        let result := lower_module ast.1 in
        Db_Ok result (mkDatabase (sources db) (import_sources db) (next_id db) (lex_cache db)
          (parse_cache db) (ast_cache db) (<[id := result]> (hir_cache db))))
  end.
End Database.
