(* ===== verification/TypeCalls.v ===== *)
(** * Types of expressions: calls

    [infer_call_expr] of [crates/sarif_frontend/src/semantic/exprcore.rs], over the
    types of the arguments: builtins, constructors of enums, functions.  What is
    computed comes with the diagnostics it adds, in their order; nothing reads
    them. *)
From stdpp Require Import gmap pretty.
From S2P Require Import Prelude Syntax Utf8 TextOps Hir SemType Builtins Ownership Resolve.

Open Scope nat_scope.

(** ** Results with diagnostics *)

Definition Reports (A : Type) : Type := A * list Diagnostic.
Definition r_ret {A} (a : A) : Reports A := (a, []).
Definition r_bind {A B} (m : Reports A) (k : A -> Reports B) : Reports B :=
  let r := k m.1 in (r.1, m.2 ++ r.2).

Declare Scope reports_scope.
Delimit Scope reports_scope with reports.
Notation "'let~' x ':=' m 'in' k" := (r_bind m (fun x => k))
  (at level 200, x binder, m at level 100, k at level 200, right associativity) : reports_scope.
Notation "m ';~' k" := (r_bind m (fun _ => k)) (at level 100, k at level 200, right associativity) : reports_scope.
Open Scope reports_scope.

(** The diagnostic, when the condition holds *)
Definition r_when (b : bool) (d : Diagnostic) : Reports unit := (tt, if b then [d] else []).
Definition r_report (d : Diagnostic) : Reports unit := r_when true d.

(** ** Types, calls and contexts *)

Record ExprInfo := mkExprInfo { info_ty : Type_; info_calls : list string }.

Inductive ExprContext := XC_Body | XC_BodyTail | XC_Statement | XC_ContractRequires | XC_ContractEnsures.

Definition nested_expr_context (context : ExprContext) : ExprContext :=
  match context with
  | XC_Body | XC_BodyTail | XC_Statement => XC_Body
  | XC_ContractRequires => XC_ContractRequires
  | XC_ContractEnsures => XC_ContractEnsures
  end.

Definition allows_runtime_builtin_context (context : ExprContext) : bool :=
  match context with XC_Body | XC_BodyTail | XC_Statement => true | _ => false end.

(** What inference reads and never changes *)
Record TypeContext := mkTypeContext {
  tc_functions : gmap string FunctionSignature;
  tc_consts : gmap string Type_;
  tc_enum_variants : EnumVariants;
  tc_struct_layouts : StructLayouts;
  tc_fn_name : string;
  tc_caller_effects : list Effect
}.

Definition type_is (l r : Type_) : bool := bool_decide (l = r).

(** [*actual != *expected && *actual != Type::Error] *)
Definition mismatch (actual expected : Type_) : bool := negb (type_is actual expected) && negb (type_is actual T_Error).

Definition has_effect (effects : list Effect) (e : Effect) : bool := bool_decide (e ∈ effects).

(** ** Diagnostics that many builtins share *)

Definition require_runtime_builtin_context (code builtin : string) (span : Span) (context : ExprContext) : Reports unit :=
  r_when (negb (allows_runtime_builtin_context context))
    (Diagnostic_new code ("builtin `" ++ builtin ++ "` is only available in executable function bodies")%string span
       (Some "Use this builtin inside a function body or body-tail expression.")).

Definition ordinal_name (index : nat) : string :=
  match index with 0 => "first" | 1 => "second" | 2 => "third" | 3 => "fourth" | _ => "later" end.

(** [noun] is argument or arguments *)
Definition builtin_arity (code builtin : string) (expected : nat) (noun : string) (got : nat) (span : Span)
    (hint : string) : Diagnostic :=
  Diagnostic_new code
    ("builtin `" ++ builtin ++ "` expects " ++ pretty expected ++ " " ++ noun ++ " but got " ++ pretty got)%string
    span (Some hint).

Definition builtin_arg_type (code builtin position expected : string) (actual : Type_) (span : Span) (help : string)
    : Diagnostic :=
  Diagnostic_new code
    ("builtin `" ++ builtin ++ "` " ++ position ++ " argument must be " ++ expected ++ ", found `"
     ++ type_render actual ++ "`")%string span (Some help).

(** An argument at its position, of one type or in error *)
Definition check_arg (code builtin position : string) (expected actual : Type_) (span : Span) (help : string)
    : Reports unit :=
  r_when (mismatch actual expected)
    (builtin_arg_type code builtin position (type_render expected) actual span help).

Definition builtin_expects (code builtin expected : string) (actual : Type_) (span : Span) (help : string) : Diagnostic :=
  Diagnostic_new code
    ("builtin `" ++ builtin ++ "` expects " ++ expected ++ ", found `" ++ type_render actual ++ "`")%string
    span (Some help).

(** ** Builtins of the table *)

Fixpoint check_specs (code builtin : string) (span : Span) (single : bool) (index : nat)
    (specs : list (Type_ * string)) (infos : list ExprInfo) : Reports unit :=
  match specs, infos with
  | (ty, help) :: specs, info :: infos =>
      r_when (mismatch (info_ty info) ty)
        (if single then builtin_expects code builtin (type_render ty) (info_ty info) span help
         else builtin_arg_type code builtin (ordinal_name index) (type_render ty) (info_ty info) span help) ;~
      check_specs code builtin span single (S index) specs infos
  | _, _ => r_ret tt
  end.

Definition infer_fixed_builtin_expr (entry : BuiltinEntry) (infos : list ExprInfo) (calls : list string)
    (span : Span) (context : ExprContext) : Reports ExprInfo :=
  let specs := zip (arg_types entry) (arg_helps entry) in
  (match runtime_code entry with
   | Some code => require_runtime_builtin_context code (builtin_name entry) span context
   | None => r_ret tt
   end) ;~
  if negb (length infos =? length specs) then
    r_report (builtin_arity (arity_error_code entry) (builtin_name entry) (length specs) "arguments" (length infos)
                span (call_hint entry)) ;~
    r_ret (mkExprInfo T_Error calls)
  else
    check_specs (type_error_code entry) (builtin_name entry) span (length specs =? 1) 0 specs infos ;~
    r_ret (mkExprInfo (result_ty entry) calls).

(** ** Indexes of texts, scans of ranges and lines *)

Definition infer_text_index_builtin_expr (infos : list ExprInfo) (calls : list string) (span : Span)
    (context : ExprContext) (builtin arity_code type_code : string) (result : Type_) (third_arg_help : option string)
    : Reports ExprInfo :=
  let args_check (index key : ExprInfo) : Reports unit :=
    check_arg type_code builtin "first" T_TextIndex (info_ty index) span "Pass a TextIndex handle." ;~
    check_arg type_code builtin "second" T_Text (info_ty key) span "Pass a Text lookup key." in
  require_runtime_builtin_context "semantic.text_index-runtime-context" builtin span context ;~
  match third_arg_help, infos with
  | None, [index; key] => args_check index key ;~ r_ret (mkExprInfo result calls)
  | Some help, [index; key; value] =>
      args_check index key ;~
      check_arg type_code builtin "third" T_I32 (info_ty value) span help ;~
      r_ret (mkExprInfo result calls)
  | None, _ =>
      r_report (builtin_arity arity_code builtin 2 "arguments" (length infos) span
                  ("Call `" ++ builtin ++ "(index, key)`.")%string) ;~
      r_ret (mkExprInfo T_Error calls)
  | Some _, _ =>
      r_report (builtin_arity arity_code builtin 3 "arguments" (length infos) span
                  ("Call `" ++ builtin ++ "(index, key, value)`.")%string) ;~
      r_ret (mkExprInfo T_Error calls)
  end.

Definition infer_range_scan_builtin_expr (infos : list ExprInfo) (calls : list string) (span : Span)
    (builtin : string) (first_ty : Type_) (arity_code type_code : string) : Reports ExprInfo :=
  match infos with
  | [first; start; end_; value] =>
      check_arg type_code builtin "first" first_ty (info_ty first) span
        ("Pass a " ++ type_render first_ty ++ " value.")%string ;~
      check_arg type_code builtin "second" T_I32 (info_ty start) span "Pass an integer start offset." ;~
      check_arg type_code builtin "third" T_I32 (info_ty end_) span "Pass an integer end offset." ;~
      check_arg type_code builtin "fourth" T_I32 (info_ty value) span "Pass an integer byte value." ;~
      r_ret (mkExprInfo T_I32 calls)
  | _ =>
      r_report (builtin_arity arity_code builtin 4 "arguments" (length infos) span
                  ("Call `" ++ builtin ++ "(" ++ (if type_is first_ty T_Bytes then "bytes" else "text")
                   ++ ", start, end, byte)`.")%string) ;~
      r_ret (mkExprInfo T_Error calls)
  end.

Definition infer_line_scan_builtin_expr (infos : list ExprInfo) (calls : list string) (span : Span)
    (builtin arity_code type_code : string) : Reports ExprInfo :=
  match infos with
  | [text; start] =>
      check_arg type_code builtin "first" T_Text (info_ty text) span "Pass a Text value." ;~
      check_arg type_code builtin "second" T_I32 (info_ty start) span "Pass an integer start offset." ;~
      r_ret (mkExprInfo T_I32 calls)
  | _ =>
      r_report (builtin_arity arity_code builtin 2 "arguments" (length infos) span
                  ("Call `" ++ builtin ++ "(text, start)`.")%string) ;~
      r_ret (mkExprInfo T_Error calls)
  end.

(** ** Builtins with rules of their own *)

Section Call.
Context (levenshtein : string -> string -> nat) (tc : TypeContext).
Context (span : Span) (context : ExprContext) (args : list Expr) (infos : list ExprInfo) (calls : list string).

Definition call_error : Reports ExprInfo := r_ret (mkExprInfo T_Error calls).
Definition call_value (ty : Type_) : Reports ExprInfo := r_ret (mkExprInfo ty calls).

Definition arity_error (builtin : string) (expected : nat) (hint : string) : Reports ExprInfo :=
  r_report (builtin_arity ("semantic." ++ builtin ++ "-arity")%string builtin expected
              (if expected =? 1 then "argument" else "arguments") (length infos) span hint) ;~
  call_error.

(** [code] is that of the builtin for types *)
Definition arg_is (builtin position : string) (expected : Type_) (info : ExprInfo) (help : string) : Reports unit :=
  check_arg ("semantic." ++ builtin ++ "-type")%string builtin position expected (info_ty info) span help.

Definition list_context (builtin : string) : Reports unit :=
  require_runtime_builtin_context "semantic.list-runtime-context" builtin span context.

Definition needs_alloc (builtin : string) : Reports unit :=
  r_when (negb (has_effect (tc_caller_effects tc) F_Alloc))
    (Diagnostic_new "semantic.alloc-effect"
       ("builtin `" ++ builtin ++ "` requires `alloc` effect in `" ++ tc_fn_name tc ++ "`")%string span
       (Some "Add `effect alloc` to the function signature.")).

Definition first_arg_must_be (builtin what : string) (actual : Type_) (help : string) : Diagnostic :=
  builtin_arg_type ("semantic." ++ builtin ++ "-type")%string builtin "first" what actual span help.

Definition infer_len : Reports ExprInfo :=
  match infos with
  | [arg] =>
      match info_ty arg with
      | T_Array _ _ => call_value T_I32
      | T_Error => call_error
      | ty =>
          r_report (builtin_expects "semantic.len-type" "len" "an array argument" ty span
                      "Pass an internal stage-0 array such as `len(xs)`.") ;~
          call_error
      end
  | _ => arity_error "len" 1 "Call `len(xs)` with exactly one array argument."
  end.

Definition infer_const_assert : Reports ExprInfo :=
  match infos with
  | [arg] =>
      if mismatch (info_ty arg) T_Bool then
        r_report (builtin_expects "semantic.const_assert-type" "const_assert" "Bool" (info_ty arg) span
                    "Pass a Bool condition.") ;~
        call_error
      else if negb (type_is (info_ty arg) T_Bool) then call_value T_Unit
      else
        match args with
        | E_Bool value value_span :: _ =>
            r_when (negb value)
              (Diagnostic_new "semantic.const_assert-failed"
                 "const_assert failed: condition evaluated to false at compile time" value_span None) ;~
            call_value T_Unit
        | _ => call_value T_Unit
        end
  | _ => arity_error "const_assert" 1 "Call `const_assert(condition)` with exactly one Bool argument."
  end.

Definition infer_tcp_send : Reports ExprInfo :=
  match infos with
  | [fd; data] =>
      r_when (mismatch (info_ty fd) T_File)
        (Diagnostic_new "semantic.tcp_send-type"
           ("builtin `tcp_send` first arg expects File, found `" ++ type_render (info_ty fd) ++ "`")%string span
           (Some "Pass a File value.")) ;~
      r_when (negb (type_is (info_ty data) T_Text) && mismatch (info_ty data) T_Bytes)
        (Diagnostic_new "semantic.tcp_send-type"
           ("builtin `tcp_send` data expects Text or Bytes, found `" ++ type_render (info_ty data) ++ "`")%string span
           (Some "Pass Text or Bytes data.")) ;~
      r_when (negb (has_effect (tc_caller_effects tc) F_Io))
        (Diagnostic_new "semantic.io-effect" "builtin `tcp_send` requires `io` effect" span
           (Some "Add `effect io` to the function signature.")) ;~
      call_value T_I32
  | _ => arity_error "tcp_send" 2 "Call `tcp_send(fd, data)`."
  end.

Definition infer_text_builder_new : Reports ExprInfo :=
  require_runtime_builtin_context "semantic.text_builder_new-runtime-context" "text_builder_new" span context ;~
  needs_alloc "text_builder_new" ;~
  match infos with
  | [] => call_value T_TextBuilder
  | _ => arity_error "text_builder_new" 0 "Call `text_builder_new()` with no arguments."
  end.

Definition infer_list_new : Reports ExprInfo :=
  list_context "list_new" ;~
  needs_alloc "list_new" ;~
  match infos with
  | [len; fill] =>
      arg_is "list_new" "first" T_I32 len "Pass an integer length." ;~
      call_value (T_List (info_ty fill))
  | _ => arity_error "list_new" 2 "Call `list_new(len, fill)`."
  end.

Definition infer_list_len : Reports ExprInfo :=
  list_context "list_len" ;~
  match infos with
  | [arg] =>
      r_when (match info_ty arg with T_List _ | T_Error => false | _ => true end)
        (builtin_expects "semantic.list_len-type" "list_len" "List" (info_ty arg) span "Pass a List value.") ;~
      call_value T_I32
  | _ => arity_error "list_len" 1 "Call `list_len(vec)`."
  end.

(** The type of the elements of the first argument, which must be a list *)
Definition element_of_list (builtin : string) (vec : ExprInfo) : Reports (option Type_) :=
  match info_ty vec with
  | T_List element => r_ret (Some element)
  | T_Error => r_ret None
  | ty => r_report (first_arg_must_be builtin "List" ty "Pass a List value.") ;~ r_ret None
  end.

Definition infer_list_get : Reports ExprInfo :=
  list_context "list_get" ;~
  match infos with
  | [vec; index] =>
      let~ element := element_of_list "list_get" vec in
      arg_is "list_get" "second" T_I32 index "Pass an integer index." ;~
      call_value (default T_Error element)
  | _ => arity_error "list_get" 2 "Call `list_get(vec, index)`."
  end.

(** The third argument is an element of the list. *)
Definition element_arg (builtin : string) (element : option Type_) (value : ExprInfo) : Reports unit :=
  match element with
  | Some expected =>
      arg_is builtin "third" expected value ("Pass a " ++ type_render expected ++ " element value.")%string
  | None => r_ret tt
  end.

Definition infer_list_set : Reports ExprInfo :=
  list_context "list_set" ;~
  match infos with
  | [vec; index; value] =>
      let~ element := element_of_list "list_set" vec in
      arg_is "list_set" "second" T_I32 index "Pass an integer index." ;~
      element_arg "list_set" element value ;~
      call_value (info_ty vec)
  | _ => arity_error "list_set" 3 "Call `list_set(vec, index, value)`."
  end.

Definition infer_list_push : Reports ExprInfo :=
  list_context "list_push" ;~
  needs_alloc "list_push" ;~
  match infos with
  | [vec; len; value] =>
      let~ element := element_of_list "list_push" vec in
      arg_is "list_push" "second" T_I32 len "Pass the used length as an integer." ;~
      element_arg "list_push" element value ;~
      call_value (info_ty vec)
  | _ => arity_error "list_push" 3 "Call `list_push(vec, len, value)`."
  end.

Definition infer_list_sort_text : Reports ExprInfo :=
  list_context "list_sort_text" ;~
  match infos with
  | [vec; len] =>
      r_when (match info_ty vec with T_List T_Text | T_Error => false | _ => true end)
        (first_arg_must_be "list_sort_text" "List[Text]" (info_ty vec) "Pass a List[Text] value.") ;~
      arg_is "list_sort_text" "second" T_I32 len "Pass the used length as an integer." ;~
      call_value (info_ty vec)
  | _ => arity_error "list_sort_text" 2 "Call `list_sort_text(vec, len)`."
  end.

Definition infer_list_from : Reports ExprInfo :=
  list_context "list_from" ;~
  needs_alloc "list_from" ;~
  match infos with
  | [array] =>
      match info_ty array with
      | T_Array element _ => call_value (T_List element)
      | T_Error => call_error
      | ty =>
          r_report (first_arg_must_be "list_from" "an Array" ty "Pass an array.") ;~
          call_error
      end
  | _ => arity_error "list_from" 1 "Call `list_from(array)`."
  end.

(** The field that a sort is by: a literal, a field of the record, of one of the types *)
Definition sort_field (builtin name : string) (fields : list (string * Type_)) (key : option Expr)
    (sortable : Type_ -> bool) (message help names : string) : Reports unit :=
  let field_code := ("semantic." ++ builtin ++ "-field")%string in
  match key with
  | Some (E_String _ field _) =>
      match List.find (fun '(candidate, _) => String.eqb candidate field) fields with
      | Some (_, field_ty) =>
          r_when (negb (sortable field_ty))
            (Diagnostic_new ("semantic." ++ builtin ++ "-type")%string
               ("builtin `" ++ builtin ++ "` field `" ++ name ++ "." ++ field ++ message ++ type_render field_ty ++ "`")%string
               span (Some help))
      | None =>
          r_report (Diagnostic_new field_code ("record `" ++ name ++ "` has no field `" ++ field ++ "`")%string
                      span (Some names))
      end
  | _ =>
      r_report (Diagnostic_new field_code
                  ("builtin `" ++ builtin ++ "` requires a string literal field name")%string span
                  (Some ("Pass a field name like `" ++ quoted "id" ++ "`.")%string))
  end.

(** [list_sort_by_field] and [list_sort_by_text_field] *)
Definition infer_list_sort_by (builtin : string) (sortable : Type_ -> bool)
    (message help names records : string) : Reports ExprInfo :=
  list_context builtin ;~
  match infos with
  | [vec; len; field] =>
      let wrong := first_arg_must_be builtin "List[record]" (info_ty vec) records in
      let~ list_ok :=
        match info_ty vec with
        | T_List (T_Named name) =>
            (match tc_struct_layouts tc !! name with
             | Some fields => sort_field builtin name fields (args !! 2) sortable message help names
             | None => r_ret tt
             end) ;~ r_ret true
        | T_Error => r_ret false
        | _ => r_report wrong ;~ r_ret false
        end in
      arg_is builtin "second" T_I32 len "Pass the used length as an integer." ;~
      arg_is builtin "third" T_Text field "Pass a Text field name." ;~
      call_value (if list_ok : bool then info_ty vec else T_Error)
  | _ =>
      arity_error builtin 3 ("Call `" ++ builtin ++ "(vec, len, " ++ quoted "field" ++ ")`.")%string
  end.

Definition infer_list_sort_by_field : Reports ExprInfo :=
  infer_list_sort_by "list_sort_by_field" (fun ty => type_is ty T_Text || type_is ty T_I32 || type_is ty T_F64)
    "` must have type `Text`, `I32`, or `F64`, found `" "Sort by a Text, I32, or F64 field."
    "Use one of the declared Text, I32, or F64 field names." "Pass a list of records with a Text, I32, or F64 field.".

Definition infer_list_sort_by_text_field : Reports ExprInfo :=
  infer_list_sort_by "list_sort_by_text_field" (fun ty => type_is ty T_Text)
    ("`" ++ String (Ascii.ascii_of_nat 10) "must have type `Text`, found `")%string "Sort by a Text field."
    "Use one of the declared Text field names." "Pass a list of records with a Text field.".

Definition infer_text_index_new : Reports ExprInfo :=
  require_runtime_builtin_context "semantic.text_index-runtime-context" "text_index_new" span context ;~
  needs_alloc "text_index_new" ;~
  match infos with
  | [] => call_value T_TextIndex
  | _ => arity_error "text_index_new" 0 "Call `text_index_new()` with no arguments."
  end.

Definition infer_text_index_keys : Reports ExprInfo :=
  needs_alloc "text_index_keys" ;~
  match infos with
  | [index] =>
      if mismatch (info_ty index) T_TextIndex then
        arg_is "text_index_keys" "first" T_TextIndex index "Pass a TextIndex handle." ;~
        call_error
      else call_value T_Text
  | _ => arity_error "text_index_keys" 1 "Call `text_index_keys(index)`."
  end.

(** Any argument is taken for an enum. *)
Definition infer_enum_to (builtin : string) (result : Type_) : Reports ExprInfo :=
  match infos with
  | [_] => call_value result
  | _ => arity_error builtin 1 ("Call `" ++ builtin ++ "(value)` with an enum value.")%string
  end.

Definition text_index_call (builtin : string) (result : Type_) (third_arg_help : option string) : Reports ExprInfo :=
  infer_text_index_builtin_expr infos calls span context builtin ("semantic." ++ builtin ++ "-arity")%string
    ("semantic." ++ builtin ++ "-type")%string result third_arg_help.

Definition range_call (builtin : string) (first_ty : Type_) : Reports ExprInfo :=
  infer_range_scan_builtin_expr infos calls span builtin first_ty ("semantic." ++ builtin ++ "-arity")%string
    ("semantic." ++ builtin ++ "-type")%string.

Definition line_call (builtin : string) : Reports ExprInfo :=
  infer_line_scan_builtin_expr infos calls span builtin ("semantic." ++ builtin ++ "-arity")%string
    ("semantic." ++ builtin ++ "-type")%string.

(** The builtins that are not in the table or not dispatched by it, in the order
    they are looked for; between the second and the third comes the table. *)
Definition special_builtins : list (string * Reports ExprInfo) :=
  [("tcp_send", infer_tcp_send);
   ("text_builder_new", infer_text_builder_new);
   ("list_new", infer_list_new);
   ("list_len", infer_list_len);
   ("list_get", infer_list_get);
   ("list_set", infer_list_set);
   ("list_push", infer_list_push);
   ("list_sort_text", infer_list_sort_text);
   ("list_from", infer_list_from);
   ("list_sort_by_field", infer_list_sort_by_field);
   ("list_sort_by_text_field", infer_list_sort_by_text_field);
   ("text_index_new", infer_text_index_new);
   ("text_index_get", text_index_call "text_index_get" T_I32 None);
   ("text_index_set", text_index_call "text_index_set" T_TextIndex (Some "Pass an I32 slot value."));
   ("text_index_get_or_insert",
     text_index_call "text_index_get_or_insert" T_I32 (Some "Pass the next available I32 slot value."));
   ("text_index_contains", text_index_call "text_index_contains" T_Bool None);
   ("text_index_keys", infer_text_index_keys);
   ("text_find_byte_range", range_call "text_find_byte_range" T_Text);
   ("bytes_find_byte_range", range_call "bytes_find_byte_range" T_Bytes);
   ("bytes_field_end", range_call "bytes_field_end" T_Bytes);
   ("bytes_next_field", range_call "bytes_next_field" T_Bytes);
   ("text_line_end", line_call "text_line_end");
   ("text_next_line", line_call "text_next_line");
   ("text_field_end", range_call "text_field_end" T_Text);
   ("text_next_field", range_call "text_next_field" T_Text);
   ("enum_to_i32", infer_enum_to "enum_to_i32" T_I32);
   ("enum_to_text", infer_enum_to "enum_to_text" T_Text)].

Definition infer_builtin_call (callee : string) : option (Reports ExprInfo) :=
  if String.eqb callee "len" then Some infer_len
  else if String.eqb callee "const_assert" then Some infer_const_assert
  else
    match builtin_entry callee with
    | Some entry =>
        if dispatch_simple entry then Some (infer_fixed_builtin_expr entry infos calls span context)
        else snd <$> List.find (fun '(name, _) => String.eqb name callee) special_builtins
    | None => snd <$> List.find (fun '(name, _) => String.eqb name callee) special_builtins
    end.

(** ** Constructors *)

Definition infer_constructor_call (callee enum_name : string) (variant : EnumVariantInfo) : Reports ExprInfo :=
  let expected_arity := match info_payload variant with Some _ => 1 | None => 0 end in
  if negb (length infos =? expected_arity) then
    r_report (Diagnostic_new "semantic.enum-constructor-arity"
                ("enum constructor `" ++ callee ++ "` expects " ++ pretty expected_arity ++ " argument"
                 ++ (if Nat.eqb expected_arity 1 then "" else "s") ++ " but got " ++ pretty (length infos))%string span
                (Some ("Pass exactly one payload argument for payload variants, "
                       ++ "or no arguments for plain variants.")%string)) ;~
    call_error
  else
    match info_payload variant, infos with
    | Some expected, actual :: _ =>
        if mismatch (info_ty actual) expected then
          r_report (Diagnostic_new "semantic.enum-constructor-type"
                      ("enum constructor `" ++ callee ++ "` expects `" ++ type_render expected ++ "`, found `"
                       ++ type_render (info_ty actual) ++ "`")%string span
                      (Some "Pass a payload value of the declared variant type.")) ;~
          call_error
        else call_value (T_Named enum_name)
    | _, _ => call_value (T_Named enum_name)
    end.

(** ** Functions *)

Fixpoint check_params (params : list (string * Type_ * Span)) (infos : list ExprInfo) : Reports unit :=
  match params, infos with
  | (_, expected, param_span) :: params, actual :: infos =>
      r_when (negb (types_compatible expected (info_ty actual)) && negb (type_is (info_ty actual) T_Error))
        (Diagnostic_new "semantic.call-type"
           ("argument type mismatch: expected `" ++ type_render expected ++ "`, found `"
            ++ type_render (info_ty actual) ++ "`")%string param_span
           (Some "Pass an argument of the declared parameter type.")) ;~
      check_params params infos
  | _, _ => r_ret tt
  end.

(** [io] stands for the effects on files and standard streams. *)
Definition covered_by_io (effects : list Effect) (e : Effect) : bool :=
  has_effect effects F_Io &&
  match e with F_User name => String.eqb name "SystemIO" || String.eqb name "SystemFile" | _ => false end.

Fixpoint check_effects (callee : string) (effects : list Effect) : Reports unit :=
  match effects with
  | [] => r_ret tt
  | effect :: effects =>
      r_when (match context with XC_Body | XC_BodyTail => true | _ => false end
              && negb (has_effect (tc_caller_effects tc) effect) && negb (covered_by_io (tc_caller_effects tc) effect))
        (Diagnostic_new "semantic.missing-effect"
           ("function `" ++ tc_fn_name tc ++ "` calls `" ++ callee ++ "` but does not declare the `"
            ++ effect_keyword effect ++ "` effect")%string span
           (Some "Add the callee's effect to the caller or remove the call.")) ;~
      check_effects callee effects
  end.

Definition unknown_call (callee : string) : Diagnostic :=
  Diagnostic_new "semantic.unknown-call" ("call to unknown function `" ++ callee ++ "`")%string span
    (Some (suggestion_help (best_match levenshtein callee (map fst (in_order (tc_functions tc))))
             "Declare the callee before using it.")).

Definition infer_function_call (callee : string) (sig : FunctionSignature) : Reports ExprInfo :=
  r_when (negb (length (sig_params sig) =? length infos))
    (Diagnostic_new "semantic.call-arity"
       ("call to `" ++ callee ++ "` supplies " ++ pretty (length infos) ++ " arguments but "
        ++ pretty (length (sig_params sig)) ++ " were declared")%string span
       (Some "Match the argument list to the function signature.")) ;~
  check_params (sig_params sig) infos ;~
  r_when (negb (allows_runtime_builtin_context context) && negb (Nat.eqb (length (sig_effects sig)) 0))
    (Diagnostic_new "semantic.contract-effect"
       ("contract expression calls `" ++ callee ++ "` which declares effects ["
        ++ String.concat ", " (map effect_keyword (sig_effects sig)) ++ "]")%string span
       (Some "Contracts must remain effect-free in stage-0.")) ;~
  check_effects callee (sig_effects sig) ;~
  r_ret (mkExprInfo (sig_return_type sig) (calls ++ [callee])).

(** [infer_call_expr] after the arguments *)
Definition infer_call (callee : string) : Reports ExprInfo :=
  let declared := tc_functions tc !! callee in
  match match declared with Some _ => None | None => infer_builtin_call callee end with
  | Some r => r
  | None =>
      match enum_variant_info callee (tc_enum_variants tc) with
      | Some (enum_name, variant) => infer_constructor_call callee enum_name variant
      | None =>
          match declared with
          | Some sig => infer_function_call callee sig
          | None => r_report (unknown_call callee) ;~ call_error
          end
      end
  end.
End Call.
