(* ===== verification/TypeCheck.v ===== *)
(** * Types of expressions

    [infer_expr] of [crates/sarif_frontend/src/semantic.rs] with the methods of
    [exprcore.rs] that it calls, and [infer_body] of [bodycheck.rs].  What a
    method does after inferring the parts of an expression is a definition over
    their types. *)
From stdpp Require Import gmap pretty.
From S2P Require Import Prelude Syntax Utf8 TextOps Hir SemType Builtins Ownership Resolve HirLower TypeCalls.

Open Scope nat_scope.
Open Scope reports_scope.

(** ** Operands *)

Definition expect_type (e : Expr) (actual expected : Type_) (op side help : string) : Reports unit :=
  r_when (mismatch actual expected)
    (Diagnostic_new "semantic.binary-type"
       (side ++ " operand of `" ++ op ++ "` must be `" ++ type_render expected ++ "`, found `"
        ++ type_render actual ++ "`")%string (expr_span e) (Some help)).

Definition in_error (ty : Type_) : bool := type_is ty T_Error.

(** An operand that is an integer of either width *)
Definition integer_operand (op : Hir.BinaryOp) (e : Expr) (ty : Type_) (side help : string) : Reports unit :=
  if type_is ty T_I32 || type_is ty T_I64 || in_error ty then r_ret tt
  else expect_type e ty T_I32 (Hir.binary_symbol op) side help.

(** The result is [I64] when one of the operands is. *)
Definition integer_operands (op : Hir.BinaryOp) (l r : Expr) (lt rt : Type_) (help : string) : Reports Type_ :=
  integer_operand op l lt "left" help ;~
  integer_operand op r rt "right" help ;~
  r_ret (if type_is lt T_I64 || type_is rt T_I64 then T_I64 else T_I32).

(** [infer_binary_expr] after the operands *)
Definition binary_type (op : Hir.BinaryOp) (l r : Expr) (span : Span) (lt rt : Type_) : Reports Type_ :=
  let symbol := Hir.binary_symbol op in
  match op with
  | B_And | B_Or =>
      expect_type l lt T_Bool symbol "left" "Use boolean operands with `and` and `or`." ;~
      expect_type r rt T_Bool symbol "right" "Use boolean operands with `and` and `or`." ;~
      r_ret T_Bool
  | B_Add | B_Sub | B_Mul | B_Div =>
      let add := match op with B_Add => true | _ => false end in
      if add && type_is lt T_TextBuilder && (type_is rt T_Text || type_is rt T_I32 || type_is rt T_I64)
      then r_ret T_TextBuilder
      else if add && type_is lt T_Text && type_is rt T_Text then r_ret T_Text
      else
        match matching_numeric_type lt rt with
        | Some ty => r_ret ty
        | None =>
            r_when (negb (in_error lt) && negb (in_error rt))
              (Diagnostic_new "semantic.binary-type"
                 ("operands of `" ++ symbol ++ "` must both be `I32`, both be `F64`, both be `Text`, "
                  ++ "or append to `TextBuilder`, found `" ++ type_render lt ++ "` and `" ++ type_render rt ++ "`")%string
                 span (Some "Use matching numeric operand types for arithmetic.")) ;~
            r_ret T_Error
        end
  | B_Rem => integer_operands op l r lt rt "Use `I32` or `I64` operands with `%`."
  | B_BitAnd | B_BitOr | B_BitXor | B_Shl | B_Shr =>
      integer_operands op l r lt rt "Use `I32` or `I64` operands with integer bitwise operators."
  | B_Lt | B_Le | B_Gt | B_Ge =>
      r_when (match matching_numeric_type lt rt with None => true | Some _ => false end
              && negb (in_error lt) && negb (in_error rt))
        (Diagnostic_new "semantic.binary-type"
           ("operands of `" ++ symbol ++ "` must both be `I32` or both be `F64`, found `" ++ type_render lt
            ++ "` and `" ++ type_render rt ++ "`")%string
           span (Some "Use matching numeric operand types for comparisons.")) ;~
      r_ret T_Bool
  | B_Eq | B_Ne =>
      r_when (negb (in_error lt) && negb (in_error rt) && negb (type_is lt rt))
        (Diagnostic_new "semantic.binary-type"
           ("operands of `" ++ symbol ++ "` must have the same type, found `" ++ type_render lt ++ "` and `"
            ++ type_render rt ++ "`")%string
           span (Some "Compare values of the same type.")) ;~
      r_ret T_Bool
  end.

Definition infer_binary (op : Hir.BinaryOp) (l r : Expr) (span : Span) (left right : ExprInfo) : Reports ExprInfo :=
  let~ ty := binary_type op l r span (info_ty left) (info_ty right) in
  r_ret (mkExprInfo (if in_error (info_ty left) || in_error (info_ty right) then T_Error else ty)
           (info_calls left ++ info_calls right)).

Definition infer_unary (op : UnaryOp) (inner : Expr) (info : ExprInfo) : Reports ExprInfo :=
  let 'U_Not := op in
  expect_type inner (info_ty info) T_Bool "not" "operand" "Use a boolean operand with `not`." ;~
  r_ret (mkExprInfo (if in_error (info_ty info) then T_Error else T_Bool) (info_calls info)).

(** ** Effects in [comptime] *)

Definition forbidden_in_comptime : list string :=
  ["list_new"; "text_builder_new"; "text_builder_append"; "text_builder_append_codepoint";
   "text_builder_append_ascii"; "text_builder_append_slice"; "text_builder_append_i32"; "text_builder_finish";
   "list_from"; "list_push"; "list_sort_text"; "list_sort_by_field"; "list_sort_by_text_field"; "text_index_new";
   "text_index_get"; "text_index_get_or_insert"; "text_index_set"; "text_index_keys"; "text_line_end";
   "text_next_line"; "text_field_end"; "text_next_field"; "bytes_find_byte_range"; "bytes_field_end";
   "bytes_next_field"].

Fixpoint contains_forbidden_comptime_effect (e : Expr) : bool :=
  match e with
  | E_Call callee args _ => one_of callee forbidden_in_comptime || existsb contains_forbidden_comptime_effect args
  | E_Array elements _ _ => existsb contains_forbidden_comptime_effect elements
  | E_Record _ fields _ => existsb init_contains_forbidden fields
  | E_RecordUpdate base updates _ =>
      contains_forbidden_comptime_effect base || existsb init_contains_forbidden updates
  | E_Group inner _ | E_Unary _ inner _ => contains_forbidden_comptime_effect inner
  | E_Binary _ l r _ => contains_forbidden_comptime_effect l || contains_forbidden_comptime_effect r
  | E_If condition then_body else_body _ =>
      contains_forbidden_comptime_effect condition || body_contains_forbidden_comptime_effect then_body
      || body_contains_forbidden_comptime_effect else_body
  | E_Match scrutinee arms _ => contains_forbidden_comptime_effect scrutinee || existsb arm_contains_forbidden arms
  | E_While condition body _ =>
      contains_forbidden_comptime_effect condition || body_contains_forbidden_comptime_effect body
  | E_Repeat _ count body _ =>
      contains_forbidden_comptime_effect count || body_contains_forbidden_comptime_effect body
  | E_Comptime body => body_contains_forbidden_comptime_effect body
  | E_Perform _ _ _ _ => true
  | E_Handle body arms => body_contains_forbidden_comptime_effect body || existsb handle_contains_forbidden arms
  | E_Integer _ _ | E_Float _ _ | E_String _ _ _ | E_Bool _ _ | E_Name _ _ | E_Field _ _ _ | E_Index _ _ _
  | E_ContractResult _ => false
  end
with body_contains_forbidden_comptime_effect (b : Hir.Body) : bool :=
  let 'Hir.mkBody statements tail _ := b in
  existsb stmt_contains_forbidden statements ||
  match tail with Some e => contains_forbidden_comptime_effect e | None => false end
with stmt_contains_forbidden (s : Hir.Stmt) : bool :=
  match s with
  | S_Let _ _ value _ => contains_forbidden_comptime_effect value
  | S_Assign _ value _ => contains_forbidden_comptime_effect value
  | S_Expr e _ => contains_forbidden_comptime_effect e
  | S_WithArena body _ => body_contains_forbidden_comptime_effect body
  end
with init_contains_forbidden (f : Hir.FieldInit) : bool :=
  let 'Hir.mkFieldInit _ value _ := f in contains_forbidden_comptime_effect value
with arm_contains_forbidden (a : Hir.MatchArm) : bool :=
  let 'Hir.mkMatchArm _ body _ := a in body_contains_forbidden_comptime_effect body
with handle_contains_forbidden (a : Hir.HandleArm) : bool :=
  let 'Hir.mkHandleArm _ _ body _ := a in body_contains_forbidden_comptime_effect body.

Section Infer.
Context (levenshtein : string -> string -> nat) (local_keys : Locals -> list string) (tc : TypeContext).

Definition quoted_fn : string := ("`" ++ tc_fn_name tc ++ "`")%string.

(** A diagnostic, with a help *)
Definition problem (code message : string) (span : Span) (help : string) : Diagnostic :=
  Diagnostic_new code message span (Some help).

(** ** Names and fields *)

Definition infer_name (locals : Locals) (name : string) (span : Span) : Reports ExprInfo :=
  match locals !! name, tc_consts tc !! name with
  | Some ty, _ | None, Some ty => r_ret (mkExprInfo ty [])
  | None, None =>
      r_report (problem "semantic.unknown-name" ("unknown name `" ++ name ++ "` in " ++ quoted_fn)%string span
                  (suggestion_help
                     (best_match levenshtein name (local_keys locals ++ map fst (in_order (tc_consts tc))))
                     "Declare a local binding or a top-level constant.")) ;~
      r_ret (mkExprInfo T_Error [])
  end.

Definition infer_contract_result (locals : Locals) (span : Span) (context : ExprContext) : Reports ExprInfo :=
  r_when (match context with XC_ContractEnsures => false | _ => true end)
    (problem "semantic.contract-result-context" "`result` is only available inside `ensures` clauses" span
       "Use local bindings or parameters instead.") ;~
  r_ret (mkExprInfo (default T_Error (locals !! "result"%string)) []).

Definition enum_literal_type_name (base : Expr) (field : string) (span : Span) : Reports (option string) :=
  match base with
  | E_Name base_name _ =>
      match tc_enum_variants tc !! base_name with
      | None => r_ret None
      | Some variants =>
          match List.find (fun v => String.eqb (info_name v) field) variants with
          | Some variant =>
              match info_payload variant with
              | Some _ =>
                  r_report (problem "semantic.enum-variant"
                    ("enum variant `" ++ base_name ++ "." ++ field
                     ++ "` carries a payload and must be constructed with an argument")%string span
                    "Call the constructor as `Enum.variant(value)`.") ;~
                  r_ret None
              | None => r_ret (Some base_name)
              end
          | None =>
              r_report (problem "semantic.enum-variant"
                ("enum `" ++ base_name ++ "` has no variant `" ++ field ++ "`")%string span
                (suggestion_help (best_match levenshtein field (map info_name variants))
                   "Use one of the declared enum variants.")) ;~
              r_ret None
          end
      end
  | _ => r_ret None
  end.

Definition field_names_for_type (base : Type_) : option (list string) :=
  match base with T_Named name => map fst <$> tc_struct_layouts tc !! name | _ => None end.

(** [infer_field_expr] after the base *)
Definition infer_field (field : string) (span : Span) (base : ExprInfo) : Reports ExprInfo :=
  let value ty := r_ret (mkExprInfo ty (info_calls base)) in
  let declared :=
    match field_type (info_ty base) field (tc_struct_layouts tc) with
    | Some ty => value (if in_error (info_ty base) || in_error ty then T_Error else ty)
    | None =>
        r_report (problem "semantic.field-access"
          ("cannot read field `" ++ field ++ "` from value of type `" ++ type_render (info_ty base) ++ "`")%string span
          (suggestion_help
             (fields ← field_names_for_type (info_ty base); best_match levenshtein field fields)
             "Use a declared struct value and one of its field names.")) ;~
        value T_Error
    end in
  if String.eqb field "len" then
    match info_ty base with
    | T_Array _ _ | T_List _ | T_Text => value T_I32
    | T_Error => value T_Error
    | _ => declared
    end
  else declared.

(** ** Records *)

Definition layout_field (name : string) (layout : list (string * Type_)) : option Type_ :=
  snd <$> List.find (fun '(candidate, _) => String.eqb candidate name) layout.

Definition record_field (message : string) (span : Span) (help : string) : Diagnostic :=
  problem "semantic.record-field" message span help.

Definition unknown_record_field (struct_name name : string) (layout : list (string * Type_)) (span : Span)
    : Diagnostic :=
  record_field ("struct `" ++ struct_name ++ "` has no field `" ++ name ++ "`")%string span
    (suggestion_help (best_match levenshtein name (map fst layout)) "Use one of the declared struct fields.").

Definition record_field_type (struct_name name : string) (expected actual : Type_) (span : Span) (help : string)
    : Diagnostic :=
  problem "semantic.record-field-type"
    ("field `" ++ name ++ "` of `" ++ struct_name ++ "` expects `" ++ type_render expected ++ "`, found `"
     ++ type_render actual ++ "`")%string span help.

(** The initialisers in order: whether all are right, and the names that were seen *)
Fixpoint check_inits (struct_name : string) (layout : list (string * Type_)) (seen : gset string)
    (fields : list (Hir.FieldInit * ExprInfo)) : Reports (bool * gset string) :=
  match fields with
  | [] => r_ret (true, seen)
  | (Hir.mkFieldInit name _ span, info) :: fields =>
      match layout_field name layout with
      | None =>
          r_report (unknown_record_field struct_name name layout span) ;~
          let~ rest := check_inits struct_name layout seen fields in
          r_ret (false, rest.2)
      | Some expected =>
          let repeated := bool_decide (name ∈ seen) in
          let wrong := mismatch (info_ty info) expected in
          r_when repeated
            (record_field ("record literal for `" ++ struct_name ++ "` initializes field `" ++ name
                           ++ "` more than once")%string span "Initialize each field exactly once.") ;~
          r_when wrong
            (record_field_type struct_name name expected (info_ty info) span
               "Make the field initializer match the declared field type.") ;~
          let~ rest := check_inits struct_name layout ({[ name ]} ∪ seen) fields in
          r_ret (negb repeated && negb wrong && rest.1, rest.2)
      end
  end.

Fixpoint missing_fields (struct_name : string) (span : Span) (seen : gset string) (layout : list (string * Type_))
    : Reports bool :=
  match layout with
  | [] => r_ret true
  | (name, _) :: layout =>
      let missing := negb (bool_decide (name ∈ seen)) in
      r_when missing
        (record_field ("record literal for `" ++ struct_name ++ "` is missing field `" ++ name ++ "`")%string span
           "Initialize every declared field exactly once.") ;~
      let~ ok := missing_fields struct_name span seen layout in
      r_ret (negb missing && ok)
  end.

(** [infer_record_expr] after the values *)
Definition infer_record (name : string) (fields : list Hir.FieldInit) (span : Span) (infos : list ExprInfo)
    : Reports ExprInfo :=
  let calls := concat (map info_calls infos) in
  match tc_struct_layouts tc !! name with
  | None =>
      r_report (problem "semantic.record-type" ("record literal uses unknown struct `" ++ name ++ "`")%string span
        (suggestion_help (best_match levenshtein name (map fst (in_order (tc_struct_layouts tc))))
           "Declare the struct before constructing it.")) ;~
      r_ret (mkExprInfo T_Error calls)
  | Some layout =>
      let~ inits := check_inits name layout ∅ (zip fields infos) in
      let~ complete := missing_fields name span inits.2 layout in
      let ok := inits.1 && complete && negb (existsb (fun info => in_error (info_ty info)) infos) in
      r_ret (mkExprInfo (if ok then T_Named name else T_Error) calls)
  end.

(** The struct that an update starts from *)
Definition update_base (base : Expr) (span : Span) (info : ExprInfo)
    : Reports (option (string * list (string * Type_))) :=
  match info_ty info with
  | T_Named name =>
      match tc_struct_layouts tc !! name with
      | Some layout => r_ret (Some (name, layout))
      | None =>
          r_report (Diagnostic_new "semantic.record-type"
            ("record update uses unknown struct `" ++ name ++ "`")%string span None) ;~
          r_ret None
      end
  | T_Error => r_ret None
  | other =>
      r_report (problem "semantic.record-update-base"
        ("record update base has type `" ++ type_render other ++ "`, expected a struct type")%string (expr_span base)
        "Use a struct-typed expression as the base.") ;~
      r_ret None
  end.

(** One update, after its value: whether it is right *)
Definition check_update (struct_name : string) (layout : list (string * Type_)) (seen : gset string)
    (name : string) (span : Span) (info : ExprInfo) : Reports bool :=
  let repeated := bool_decide (name ∈ seen) in
  r_when repeated
    (record_field ("record update for `" ++ struct_name ++ "` sets field `" ++ name ++ "` more than once")%string span
       "Set each field at most once.") ;~
  match layout_field name layout with
  | None => r_report (unknown_record_field struct_name name layout span) ;~ r_ret false
  | Some expected =>
      let wrong := mismatch (info_ty info) expected in
      r_when wrong
        (record_field_type struct_name name expected (info_ty info) span
           "Make the field value match the declared field type.") ;~
      r_ret (negb repeated && negb wrong)
  end.

(** ** Arrays *)

(** One element, after it: the type of the elements and whether it is right *)
Definition check_element (element : Expr) (expected : option Type_) (info : ExprInfo) : Reports (Type_ * bool) :=
  match expected with
  | Some expected =>
      let wrong := negb (type_is expected (info_ty info)) && negb (in_error (info_ty info)) in
      r_when wrong
        (problem "semantic.array-element-type"
           ("array elements in " ++ quoted_fn ++ " must have the same type, found `" ++ type_render expected
            ++ "` and `" ++ type_render (info_ty info) ++ "`")%string (expr_span element)
           "Make all array elements the same type.") ;~
      r_ret (expected, negb wrong && negb (in_error (info_ty info)))
  | None => r_ret (info_ty info, negb (in_error (info_ty info)))
  end.

Definition array_empty (span : Span) : Diagnostic :=
  problem "semantic.array-empty" ("empty array literal in " ++ quoted_fn ++ " has no inferable type")%string span
    "Use a non-empty array literal in stage-0.".

(** The length of a repeated element *)
Definition check_repeat (count : nat) (repeat_len : option ConstExpr) (element_type : option Type_) (span : Span)
    : Reports bool :=
  match repeat_len with
  | None => r_ret true
  | Some len =>
      let shape := negb (count =? 1) in
      let zero := bool_decide (len = C_Literal 0) in
      let affine :=
        match element_type with
        | Some ty => type_contains_affine_values (tc_struct_layouts tc) (tc_enum_variants tc) ty
        | None => false
        end in
      let literal := ("repeat array literal in " ++ quoted_fn)%string in
      r_when shape
        (problem "semantic.array-repeat-shape" (literal ++ " must use exactly one element expression")%string span
           "Use `[value; N]` for repeated arrays or `[a, b, c]` for explicit elements.") ;~
      r_when zero
        (problem "semantic.array-repeat-empty" (literal ++ " must have positive length")%string span
           "Use a positive fixed array length in `[value; N]`.") ;~
      r_when affine
        (problem "semantic.array-repeat-affine"
           (literal ++ " cannot duplicate affine element type `" ++ type_render (default T_Error element_type) ++ "`")%string
           span ("Use explicit elements for affine values, or keep `[value; N]` on duplicate-safe "
                 ++ "scalar/plain values.")%string) ;~
      r_ret (negb shape && negb zero && negb affine)
  end.

(** [u32::try_from(len).unwrap_or(0)] *)
Definition literal_len (n : nat) : ConstExpr := C_Literal (if (Z.of_nat n <? 2 ^ 32)%Z then Z.of_nat n else 0).

(** [infer_array_expr] after the elements, of type [element_type] if they are right *)
Definition array_value (count : nat) (repeat_len : option ConstExpr) (span : Span) (element_type : option Type_)
    (elements_ok : bool) (calls : list string) : Reports ExprInfo :=
  let~ shaped := check_repeat count repeat_len element_type span in
  let ok := negb (count =? 0) && elements_ok && shaped in
  r_ret (mkExprInfo
           (if ok then T_Array (default T_Error element_type) (default (literal_len count) repeat_len) else T_Error)
           calls).

Definition array_index_type (place : string) (ty : Type_) (span : Span) (help : string) : Diagnostic :=
  problem "semantic.array-index-type"
    ("array index in " ++ quoted_fn ++ place ++ " must be `I32`, found `" ++ type_render ty ++ "`")%string span help.

(** [infer_index_expr] after base and index *)
Definition infer_index (base index : Expr) (base_info index_info : ExprInfo) : Reports ExprInfo :=
  let bt := info_ty base_info in
  r_when (mismatch (info_ty index_info) T_I32)
    (array_index_type "" (info_ty index_info) (expr_span index) "Use an integer index for stage-0 array access.") ;~
  let~ ty :=
    match bt with
    | T_Array element _ | T_List element => r_ret element
    | T_Text => r_ret T_I32
    | T_Error => r_ret T_Error
    | other =>
        r_report (problem "semantic.array-index-base"
          ("cannot index value of type `" ++ type_render other ++ "` in " ++ quoted_fn)%string (expr_span base)
          "Index into a Text, List, or array value in stage-0.") ;~
        r_ret T_Error
    end in
  r_ret (mkExprInfo (if in_error bt || in_error (info_ty index_info) then T_Error else ty)
           (info_calls base_info ++ info_calls index_info)).

(** ** Branches and loops *)

(** A part of a form that must have one type *)
Definition must_be (code what : string) (actual expected : Type_) (span : Span) (help : string) : Reports unit :=
  r_when (mismatch actual expected)
    (problem code (what ++ " in " ++ quoted_fn ++ " must be `" ++ type_render expected ++ "`, found `"
                   ++ type_render actual ++ "`")%string span help).

Record BodyInfo := mkBodyInfo { body_ty : Type_; body_calls : list string; body_return_span : Span }.

(** [infer_if_expr] after condition and branches, without the report on the condition *)
Definition infer_if (span : Span) (condition : ExprInfo) (then_info else_info : BodyInfo) : Reports ExprInfo :=
  let tt_ := body_ty then_info in
  let et := body_ty else_info in
  let incompatible := negb (types_compatible tt_ et) in
  r_when (negb (in_error tt_) && negb (in_error et) && incompatible)
    (problem "semantic.if-branch-type"
       ("`if` branches in " ++ quoted_fn ++ " must return the same type, found `" ++ type_render tt_ ++ "` and `"
        ++ type_render et ++ "`")%string span
       "Make both branch bodies produce the same type.") ;~
  r_ret (mkExprInfo
           (if in_error (info_ty condition) || in_error tt_ || in_error et || incompatible then T_Error else tt_)
           (info_calls condition ++ body_calls then_info ++ body_calls else_info)).

(** A loop is in the body of a function. *)
Definition loop_position (code name : string) (span : Span) (context : ExprContext) : Reports unit :=
  r_when (negb (allows_runtime_builtin_context context))
    (problem code ("`" ++ name ++ "` in " ++ quoted_fn
                   ++ " is only allowed as a direct body tail expression or statement")%string span
       ("Place `" ++ name ++ "` directly at the end of a body, or use it as an explicit statement.")%string).

Definition duplicate_local (name : string) (span : Span) (help : string) : Diagnostic :=
  problem "semantic.duplicate-local"
    ("local binding `" ++ name ++ "` is already declared in " ++ quoted_fn)%string span help.

(** The locals in the body of [repeat] *)
Definition repeat_locals (binding : option string) (span : Span) (locals : Locals) : Reports Locals :=
  match binding with
  | None => r_ret locals
  | Some name =>
      if decide (is_Some (locals !! name)) then
        r_report (duplicate_local name span
                    "Use a fresh loop index name instead of shadowing parameters or earlier locals.") ;~
        r_ret locals
      else r_ret (<[name := T_I32]> locals)
  end.

(** ** Matches *)

Definition match_pattern (message : string) (span : Span) (help : string) : Diagnostic :=
  problem "semantic.match-pattern" message span help.

Definition pattern_span (p : Hir.MatchPattern) : Span :=
  match p with
  | P_Variant _ _ span | P_Integer _ span | P_String _ _ span | P_Bool _ span | P_IntegerRange _ _ span
  | P_Or _ span | P_Wildcard span => span
  end.

(** What the arms before have covered *)
Record Seen := mkSeen {
  seen_enum_variants : gset string;
  seen_int_patterns : list Z;
  seen_int_ranges : list (Z * Z);
  seen_text_patterns : gset string;
  seen_true : bool;
  seen_false : bool;
  has_wildcard : bool
}.

Definition nothing_seen : Seen := mkSeen ∅ [] [] ∅ false false false.

Definition see_variant name (s : Seen) : Seen :=
  mkSeen ({[ name ]} ∪ seen_enum_variants s) (seen_int_patterns s) (seen_int_ranges s) (seen_text_patterns s)
    (seen_true s) (seen_false s) (has_wildcard s).
Definition see_int value (s : Seen) : Seen :=
  mkSeen (seen_enum_variants s) (value :: seen_int_patterns s) (seen_int_ranges s) (seen_text_patterns s)
    (seen_true s) (seen_false s) (has_wildcard s).
Definition see_range start end_ (s : Seen) : Seen :=
  mkSeen (seen_enum_variants s) (seen_int_patterns s) (seen_int_ranges s ++ [(start, end_)]) (seen_text_patterns s)
    (seen_true s) (seen_false s) (has_wildcard s).
Definition see_text value (s : Seen) : Seen :=
  mkSeen (seen_enum_variants s) (seen_int_patterns s) (seen_int_ranges s) ({[ value ]} ∪ seen_text_patterns s)
    (seen_true s) (seen_false s) (has_wildcard s).
Definition see_bool (value : bool) (s : Seen) : Seen :=
  mkSeen (seen_enum_variants s) (seen_int_patterns s) (seen_int_ranges s) (seen_text_patterns s)
    (value || seen_true s) (negb value || seen_false s) (has_wildcard s).
Definition see_wildcard (s : Seen) : Seen :=
  mkSeen (seen_enum_variants s) (seen_int_patterns s) (seen_int_ranges s) (seen_text_patterns s)
    (seen_true s) (seen_false s) true.

Definition repeated_arm (p : Hir.MatchPattern) (help : string) : Diagnostic :=
  match_pattern ("match arm `" ++ pattern_pretty p ++ "` appears more than once in " ++ quoted_fn)%string
    (pattern_span p) help.

Definition incompatible_arm (p : Hir.MatchPattern) (ty help : string) : Diagnostic :=
  match_pattern ("match arm `" ++ pattern_pretty p ++ "` is not compatible with scrutinee type `" ++ ty ++ "`")%string
    (pattern_span p) help.

(** Alternatives in their order: whether all are right *)
Section Alternatives.
Context (check : Hir.MatchPattern -> Seen -> Reports (bool * Seen)).
Fixpoint check_alternatives (ps : list Hir.MatchPattern) (s : Seen) : Reports (bool * Seen) :=
  match ps with
  | [] => r_ret (true, s)
  | p :: ps =>
      let~ r := check p s in
      let~ rest := check_alternatives ps r.2 in
      r_ret (r.1 && rest.1, rest.2)
  end.
End Alternatives.

Fixpoint check_bool_match_pattern (p : Hir.MatchPattern) (s : Seen) : Reports (bool * Seen) :=
  match p with
  | P_Bool value _ =>
      if (if value then seen_true s else seen_false s) : bool
      then r_report (repeated_arm p "Keep one arm per boolean value.") ;~ r_ret (false, s)
      else r_ret (true, see_bool value s)
  | P_Or patterns _ => check_alternatives check_bool_match_pattern patterns s
  | _ => r_report (incompatible_arm p "Bool" "Use `true`, `false`, `true | false`, or `_`.") ;~ r_ret (false, s)
  end.

Fixpoint check_i32_match_pattern (p : Hir.MatchPattern) (s : Seen) : Reports (bool * Seen) :=
  let disjoint := "Keep integer match arms disjoint."%string in
  match p with
  | P_Integer value span =>
      let repeated := bool_decide (value ∈ seen_int_patterns s) in
      let overlap := List.find (fun '(start, end_) => (start <=? value)%Z && (value <? end_)%Z) (seen_int_ranges s) in
      r_when repeated (repeated_arm p "Keep one arm per integer literal.") ;~
      let~ ok :=
        match overlap with
        | Some (start, end_) =>
            r_report (match_pattern
              ("integer pattern `" ++ pretty value ++ "` overlaps prior range `" ++ pretty start ++ ".." ++ pretty end_
               ++ "` in " ++ quoted_fn)%string span disjoint) ;~
            r_ret false
        | None => r_ret true
        end in
      r_ret (negb repeated && ok, see_int value s)
  | P_IntegerRange start end_ span =>
      let range := ("integer range `" ++ pretty start ++ ".." ++ pretty end_ ++ "`")%string in
      let empty := (end_ <=? start)%Z in
      let over_int := existsb (fun value => (start <=? value)%Z && (value <? end_)%Z) (seen_int_patterns s) in
      let over_range :=
        existsb (fun '(other_start, other_end) => (start <? other_end)%Z && (other_start <? end_)%Z)
          (seen_int_ranges s) in
      r_when empty (match_pattern (range ++ " must have `start < end`")%string span
                      "Use a non-empty half-open range such as `65..91`.") ;~
      r_when over_int (match_pattern (range ++ " overlaps a prior integer arm in " ++ quoted_fn)%string span disjoint) ;~
      r_when over_range (match_pattern (range ++ " overlaps a prior range arm in " ++ quoted_fn)%string span disjoint) ;~
      r_ret (negb empty && negb over_int && negb over_range, see_range start end_ s)
  | P_Or patterns _ => check_alternatives check_i32_match_pattern patterns s
  | _ =>
      r_report (incompatible_arm p "I32" "Use integer literals, integer ranges, `|`, or `_`.") ;~ r_ret (false, s)
  end.

Fixpoint check_text_match_pattern (p : Hir.MatchPattern) (s : Seen) : Reports (bool * Seen) :=
  match p with
  | P_String _ value _ =>
      if decide (value ∈ seen_text_patterns s)
      then r_report (repeated_arm p "Keep one arm per text literal.") ;~ r_ret (false, s)
      else r_ret (true, see_text value s)
  | P_Or patterns _ => check_alternatives check_text_match_pattern patterns s
  | _ => r_report (incompatible_arm p "Text" "Use text literals, `|`, or `_`.") ;~ r_ret (false, s)
  end.

(** Whether the arm is right, and the type of its payload *)
Definition check_enum_match_pattern (p : Hir.MatchPattern) (expected_enum : string)
    (declared : list EnumVariantInfo) (s : Seen) : Reports ((bool * option Type_) * Seen) :=
  let only_variants := "Use variants from the scrutinee's enum only."%string in
  let refuse d := r_report d ;~ r_ret ((false, None), s) in
  match p with
  | P_Variant path binding span =>
      match split_enum_variant_path (Hir.path path) with
      | None =>
          refuse (match_pattern ("match arm in " ++ quoted_fn ++ " must use `Enum.variant`, found `"
                                 ++ Hir.path path ++ "`")%string span "Rewrite the arm pattern as `Enum.variant`.")
      | Some (pattern_enum, variant_name) =>
          if negb (String.eqb pattern_enum expected_enum) then
            refuse (match_pattern ("match arm `" ++ pattern_pretty p ++ "` does not belong to enum `"
                                   ++ expected_enum ++ "`")%string span only_variants)
          else
            match List.find (fun v => String.eqb (info_name v) variant_name) declared with
            | None =>
                refuse (match_pattern ("enum `" ++ expected_enum ++ "` has no variant `" ++ variant_name ++ "`")%string span
                          (suggestion_help (best_match levenshtein variant_name (map info_name declared))
                             "Use one of the declared enum variants."))
            | Some variant =>
                let repeated := bool_decide (variant_name ∈ seen_enum_variants s) in
                let payload := info_payload variant in
                let bound := match payload, binding with None, Some _ => true | _, _ => false end in
                r_when repeated (repeated_arm p "Keep one arm per enum variant.") ;~
                r_when bound
                  (match_pattern ("payload binding `" ++ default "_"%string binding
                                  ++ "` is only valid for payload-carrying variants")%string span
                     "Remove the binding, or match a variant that carries a payload.") ;~
                r_ret ((negb repeated && negb bound, payload), see_variant variant_name s)
            end
      end
  | _ => refuse (incompatible_arm p expected_enum only_variants)
  end.

(** The enum that is matched, with its variants *)
Definition scrutinee_enum (ty : Type_) : option (string * list EnumVariantInfo) :=
  match ty with
  | T_Named name => (fun variants => (name, variants)) <$> tc_enum_variants tc !! name
  | _ => None
  end.

Definition supported_scrutinee (ty : Type_) : bool :=
  match ty with
  | T_I32 | T_Bool | T_Text | T_Error => true
  | _ => match scrutinee_enum ty with Some _ => true | None => false end
  end.

(** The pattern of an arm: whether it is right, and the type of its payload *)
Definition check_arm_pattern (ty : Type_) (p : Hir.MatchPattern) (is_last : bool) (s : Seen)
    : Reports ((bool * option Type_) * Seen) :=
  let plain (m : Reports (bool * Seen)) := let~ r := m in r_ret ((r.1, None), r.2) in
  match p with
  | P_Wildcard span =>
      r_when (has_wildcard s)
        (match_pattern ("wildcard arm `_` appears more than once in " ++ quoted_fn)%string span
           "Keep at most one wildcard arm.") ;~
      r_when (negb is_last)
        (match_pattern "wildcard arm `_` must be the final match arm" span
           "Move `_` to the final arm so later arms stay reachable.") ;~
      r_ret ((negb (has_wildcard s) && is_last, None), see_wildcard s)
  | _ =>
      match scrutinee_enum ty, ty with
      | Some (expected_enum, declared), _ => check_enum_match_pattern p expected_enum declared s
      | None, T_Bool => plain (check_bool_match_pattern p s)
      | None, T_I32 => plain (check_i32_match_pattern p s)
      | None, T_Text => plain (check_text_match_pattern p s)
      | None, T_Error => r_ret ((true, None), s)
      | None, _ =>
          r_report (incompatible_arm p (type_render ty)
                      "Use enum variants, matching literal kinds, integer ranges, or `_`.") ;~
          r_ret ((false, None), s)
      end
  end.

Definition arm_locals (p : Hir.MatchPattern) (payload : option Type_) (locals : Locals) : Locals :=
  match p, payload with
  | P_Variant _ (Some binding) _, Some ty => <[binding := ty]> locals
  | _, _ => locals
  end.

(** The body of an arm against those before: the type of the branches, and whether it is right *)
Definition check_arm_body (branch_type : option Type_) (arm_span : Span) (info : BodyInfo) : Reports (Type_ * bool) :=
  let no_error := negb (in_error (body_ty info)) in
  match branch_type with
  | Some expected =>
      let wrong := negb (types_compatible expected (body_ty info)) && no_error in
      r_when wrong
        (problem "semantic.match-branch-type"
           ("match arms in " ++ quoted_fn ++ " must return the same type, found `" ++ type_render expected
            ++ "` and `" ++ type_render (body_ty info) ++ "`")%string arm_span
           "Make every match arm produce the same type.") ;~
      r_ret (expected, negb wrong && no_error)
  | None => r_ret (body_ty info, no_error)
  end.

(** The check at the end that no value is left out *)
Definition check_exhaustive (ty : Type_) (span : Span) (s : Seen) : Reports bool :=
  let refuse message help := r_report (problem "semantic.match-exhaustive" message span help) ;~ r_ret false in
  match scrutinee_enum ty with
  | Some (expected_enum, declared) =>
      let missing :=
        map info_name (List.filter (fun v => negb (bool_decide (info_name v ∈ seen_enum_variants s))) declared) in
      if negb (length missing =? 0) && negb (has_wildcard s) then
        refuse ("match in " ++ quoted_fn ++ " is not exhaustive for enum `" ++ expected_enum ++ "`; missing "
                ++ String.concat ", " missing)%string
          "Add one arm for every declared enum variant."
      else r_ret true
  | None =>
      match ty with
      | T_Bool =>
          if has_wildcard s || (seen_true s && seen_false s) then r_ret true
          else refuse ("match in " ++ quoted_fn
                       ++ " is not exhaustive for `Bool`; add the missing boolean arm or `_`")%string
                 "Cover both `true` and `false`, or end with `_`."
      | T_I32 | T_Text =>
          if has_wildcard s then r_ret true
          else refuse ("match in " ++ quoted_fn ++ " over `" ++ type_render ty
                       ++ "` requires a final `_` fallback arm")%string
                 "End integer and text matches with `_ => { ... }`."
      | _ => r_ret true
      end
  end.

Definition check_scrutinee (scrutinee : Expr) (ty : Type_) : Reports unit :=
  r_when (negb (supported_scrutinee ty))
    (problem "semantic.match-scrutinee"
       ("`match` in " ++ quoted_fn ++ " requires `I32`, `Bool`, `Text`, or an enum scrutinee, found `"
        ++ type_render ty ++ "`")%string (expr_span scrutinee)
       "Match over an integer, boolean, text, or declared enum value.").

(** ** Effects *)

(** The method of an effect of the system, whose arguments are checked *)
Fixpoint check_perform_args (effect operation : string) (span : Span) (index : nat)
    (params : list (string * Type_)) (infos : list ExprInfo) : Reports unit :=
  match params, infos with
  | (_, expected) :: params, arg :: infos =>
      let text_for_bytes :=
        String.eqb effect "SystemFile" && String.eqb operation "write" && (index =? 1)
        && type_is expected T_Bytes && type_is (info_ty arg) T_Text in
      r_when (negb (type_is expected (info_ty arg) || text_for_bytes) && negb (in_error (info_ty arg)))
        (problem "semantic.perform-arg-type"
           ("`perform " ++ effect ++ "." ++ operation ++ "` " ++ ordinal_name index ++ " argument must be `"
            ++ type_render expected ++ "`, found `" ++ type_render (info_ty arg) ++ "`")%string span
           ("Pass a value of type `" ++ type_render expected ++ "`.")%string) ;~
      check_perform_args effect operation span (S index) params infos
  | _, _ => r_ret tt
  end.

(** [infer_perform_expr] after the arguments; an operation of the program has type [Unit]. *)
Definition infer_perform (effect operation : string) (span : Span) (infos : list ExprInfo) : Reports ExprInfo :=
  let calls := concat (map info_calls infos) in
  let name := ("`perform " ++ effect ++ "." ++ operation ++ "`")%string in
  match find_system_effect_method effect operation with
  | None => r_ret (mkExprInfo T_Unit calls)
  | Some method =>
      r_when (match effect_parse effect with
              | Some e =>
                  negb (has_effect (tc_caller_effects tc) e)
                  && negb (has_effect (tc_caller_effects tc) F_Io
                           && (String.eqb effect "SystemIO" || String.eqb effect "SystemFile"))
              | None => false
              end)
        (problem "semantic.missing-effect"
           (name ++ " requires `" ++ effect ++ "` effect in " ++ quoted_fn)%string span
           ("Add `effects [" ++ effect ++ "]` to the function signature.")%string) ;~
      if negb (length infos =? length (system_params method)) then
        r_report (problem "semantic.perform-arity"
          (name ++ " expects " ++ pretty (length (system_params method)) ++ " arguments but got "
           ++ pretty (length infos))%string span
          ("Call `perform " ++ effect ++ "." ++ operation ++ "("
           ++ String.concat ", " (map (fun '(param, ty) => param ++ ": " ++ type_render ty) (system_params method))
           ++ ")`.")%string) ;~
        r_ret (mkExprInfo T_Error calls)
      else
        check_perform_args effect operation span 0 (system_params method) infos ;~
        r_ret (mkExprInfo (system_return_type method) calls)
  end.

(** ** Statements *)

Record BodyStmtState := mkBodyStmtState {
  bs_locals : Locals;
  bs_mutable_locals : gset string;
  bs_rejected : gset string;
  bs_calls : list string
}.

Definition add_calls (calls : list string) (st : BodyStmtState) : BodyStmtState :=
  mkBodyStmtState (bs_locals st) (bs_mutable_locals st) (bs_rejected st) (bs_calls st ++ calls).

Definition contains_affine (ty : Type_) : bool :=
  type_contains_affine_values (tc_struct_layouts tc) (tc_enum_variants tc) ty.

Definition mutable_affine (name : string) (ty : Type_) (span : Span) : Diagnostic :=
  problem "semantic.mutable-affine"
    ("mutable local `" ++ name ++ "` in " ++ quoted_fn ++ " cannot hold affine values of type `" ++ type_render ty
     ++ "`")%string span
    ("Keep mutable locals plain in stage-0. For evolving state, keep `List`, `TextIndex`, `TextBuilder`, `Text`, or "
     ++ "`Bytes` as direct mutable locals instead of wrapping them in a mutable record.")%string.

(** [handle_let_statement] after the value *)
Definition let_statement (mutable : bool) (name : string) (span : Span) (info : ExprInfo) (st : BodyStmtState)
    : Reports BodyStmtState :=
  let st := add_calls (info_calls info) st in
  if String.eqb name "_" then r_ret st
  else
    let shadows := bool_decide (is_Some (bs_locals st !! name)) in
    if shadows && mutable then
      r_report (duplicate_local name span "Use a fresh local name instead of shadowing parameters or earlier locals.") ;~
      r_ret st
    else
      let ty := info_ty info in
      let before := if shadows then bs_mutable_locals st ∖ {[ name ]} else bs_mutable_locals st in
      let refused := mutable && contains_affine ty && negb (mutable_local_allows_affine_values ty) in
      r_when refused (mutable_affine name ty span) ;~
      r_ret (mkBodyStmtState (<[name := ty]> (bs_locals st))
               (if mutable && negb refused then {[ name ]} ∪ before else before)
               (if refused then {[ name ]} ∪ bs_rejected st else bs_rejected st) (bs_calls st)).

(** The local that is assigned, the type that the value must have, and whether the
    type of the local follows an error *)
Definition Target : Type := string * Type_ * bool.

Definition assign_unknown (name : string) (span : Span) : Diagnostic :=
  problem "semantic.assign-unknown"
    ("cannot assign to `" ++ name ++ "` in " ++ quoted_fn ++ " because it is not a local binding")%string span
    "Declare a local with `let mut name = ...;` before assigning to it.".

Definition assign_complex (span : Span) (help : string) : Diagnostic :=
  problem "semantic.assign-complex" "unsupported complex assignment target in stage-0" span help.

Definition refuse_target (d : Diagnostic) : Reports (option Target) := r_report d ;~ r_ret None.

Definition assign_name (name : string) (span : Span) (st : BodyStmtState) : Reports (option Target) :=
  match bs_locals st !! name with
  | None => refuse_target (assign_unknown name span)
  | Some ty => r_ret (Some (name, ty, true))
  end.

Definition assign_index_type (index : Expr) (info : ExprInfo) : Reports unit :=
  r_when (mismatch (info_ty info) T_I32)
    (array_index_type " assignment" (info_ty info) (expr_span index) "Use an integer index for stage-0 array assignment.").

(** [name[index] = ...], after the index *)
Definition assign_index (name : string) (base index : Expr) (span : Span) (info : ExprInfo) (st : BodyStmtState)
    : Reports (option Target) :=
  assign_index_type index info ;~
  match bs_locals st !! name with
  | None => refuse_target (assign_unknown name span)
  | Some (T_Array element _) | Some (T_List element) => r_ret (Some (name, element, true))
  | Some other =>
      refuse_target (problem "semantic.array-index-base"
        ("cannot index value of type `" ++ type_render other ++ "` in " ++ quoted_fn)%string (expr_span base)
        "Index assignment requires a mutable local array or list value.")
  end.

(** [name.field = ...] *)
Definition assign_field (name field : string) (target_span span : Span) (st : BodyStmtState) : Reports (option Target) :=
  match bs_locals st !! name with
  | None => refuse_target (assign_unknown name span)
  | Some ty =>
      match field_type ty field (tc_struct_layouts tc) with
      | Some expected => r_ret (Some (name, expected, false))
      | None =>
          refuse_target (problem "semantic.assign-field"
            ("cannot assign to field `" ++ field ++ "` on value of type `" ++ type_render ty ++ "` in " ++ quoted_fn)%string
            target_span "Assign fields only on mutable locals whose type declares that field.")
      end
  end.

(** [name[index].field = ...], after the index *)
Definition assign_indexed_field (name field : string) (base index : Expr) (target_span span : Span) (info : ExprInfo)
    (st : BodyStmtState) : Reports (option Target) :=
  assign_index_type index info ;~
  match bs_locals st !! name with
  | None => refuse_target (assign_unknown name span)
  | Some (T_Array (T_Named record_name) _) =>
      match field_type (T_Named record_name) field (tc_struct_layouts tc) with
      | Some expected => r_ret (Some (name, expected, true))
      | None =>
          refuse_target (problem "semantic.assign-field"
            ("cannot assign to field `" ++ field ++ "` on indexed record type `" ++ record_name ++ "` in "
             ++ quoted_fn)%string target_span "Assign fields only on records whose layouts declare that field.")
      end
  | Some (T_Array element len) =>
      refuse_target (problem "semantic.assign-index-base"
        ("cannot assign a field through indexed value of type `" ++ type_render (T_Array element len) ++ "` in "
         ++ quoted_fn)%string (expr_span base) "Nested field assignment requires an array of declared records.")
  | Some other =>
      refuse_target (problem "semantic.assign-index-base"
        ("cannot index value of type `" ++ type_render other ++ "` in " ++ quoted_fn)%string (expr_span base)
        "Nested field assignment requires a mutable local array value.")
  end.

Definition assign_immutable (name : string) (span : Span) (st : BodyStmtState) : Diagnostic :=
  problem "semantic.assign-immutable"
    ("cannot assign to `" ++ name ++ "` in " ++ quoted_fn ++ " because it is not mutable")%string span
    (if match bs_locals st !! name with
        | Some ty => contains_affine ty && negb (mutable_local_allows_affine_values ty)
        | None => false
        end
     then "This local was not made mutable because its type contains wrapped affine values. Keep affine handles such "
          ++ "as `List` or `TextIndex` as direct mutable locals, or rebuild the record through immutable bindings."
     else "Declare the local with `let mut name = ...;` to allow `name = ...;`.")%string.

(** [handle_assign_statement] after value and target *)
Definition assign_statement (target : Target) (span : Span) (ty : Type_) (st : BodyStmtState)
    : Reports BodyStmtState :=
  let '(name, expected, update_local_type) := target in
  if decide (name ∈ bs_rejected st) then r_ret st
  else if negb (bool_decide (name ∈ bs_mutable_locals st)) then
    r_report (assign_immutable name span st) ;~ r_ret st
  else if negb (in_error ty) && negb (in_error expected) then
    r_when (negb (type_is ty expected))
      (problem "semantic.assign-type"
         ("cannot assign `" ++ type_render ty ++ "` to mutable local `" ++ name ++ "` of type `"
          ++ type_render expected ++ "` in " ++ quoted_fn)%string span
         "Assign a value with the same type as the mutable local.") ;~
    r_ret st
  else
    r_ret (if update_local_type
           then mkBodyStmtState (<[name := ty]> (bs_locals st)) (bs_mutable_locals st) (bs_rejected st) (bs_calls st)
           else st).

(** ** Expressions and bodies *)

(** In order, collecting the results, or passing a state; the last element may be
    told apart. *)
Section Loops.
Context {A B St : Type} (f : A -> Reports B) (g : A -> St -> Reports St) (h : A -> bool -> St -> Reports St).
Fixpoint r_each (l : list A) : Reports (list B) :=
  match l with
  | [] => r_ret []
  | a :: l => let~ b := f a in let~ bs := r_each l in r_ret (b :: bs)
  end.
Fixpoint r_fold (l : list A) (st : St) : Reports St :=
  match l with
  | [] => r_ret st
  | a :: l => let~ st := g a st in r_fold l st
  end.
Fixpoint r_fold_last (l : list A) (st : St) : Reports St :=
  match l with
  | [] => r_ret st
  | a :: l => let~ st := h a (length l =? 0) st in r_fold_last l st
  end.
End Loops.

(** The elements of an array so far: their type, whether they are right, their calls *)
Record Elements := mkElements { el_type : option Type_; el_ok : bool; el_calls : list string }.

(** The updates of a record so far: their names, whether they are right, their calls *)
Record Updates := mkUpdates { up_seen : gset string; up_ok : bool; up_calls : list string }.

(** The arms of a match so far *)
Record Arms := mkArms { ar_seen : Seen; ar_type : option Type_; ar_ok : bool; ar_calls : list string }.

Fixpoint infer_expr (context : ExprContext) (locals : Locals) (mutable_locals : gset string) (e : Expr) {struct e}
    : Reports ExprInfo :=
  let nested := nested_expr_context context in
  match e with
  | E_Integer _ _ => r_ret (mkExprInfo T_I32 [])
  | E_Float _ _ => r_ret (mkExprInfo T_F64 [])
  | E_String _ _ _ => r_ret (mkExprInfo T_Text [])
  | E_Bool _ _ => r_ret (mkExprInfo T_Bool [])
  | E_Name name span => infer_name locals name span
  | E_ContractResult span => infer_contract_result locals span context
  | E_Group inner _ => infer_expr nested locals mutable_locals inner
  | E_Unary op inner _ =>
      let~ info := infer_expr nested locals mutable_locals inner in infer_unary op inner info
  | E_Binary op l r span =>
      let~ left_info := infer_expr nested locals mutable_locals l in
      let~ right_info := infer_expr nested locals mutable_locals r in
      infer_binary op l r span left_info right_info
  | E_Call callee args span =>
      let~ infos := r_each (infer_expr nested locals mutable_locals) args in
      infer_call levenshtein tc span context args infos (concat (map info_calls infos)) callee
  | E_Perform effect operation args span =>
      let~ infos := r_each (infer_expr XC_Body locals mutable_locals) args in
      infer_perform effect operation span infos
  | E_Field base field span =>
      let~ literal := enum_literal_type_name base field span in
      match literal with
      | Some enum_name => r_ret (mkExprInfo (T_Named enum_name) [])
      | None => let~ info := infer_expr nested locals mutable_locals base in infer_field field span info
      end
  | E_Index base index _ =>
      let~ base_info := infer_expr nested locals mutable_locals base in
      let~ index_info := infer_expr nested locals mutable_locals index in
      infer_index base index base_info index_info
  | E_Array elements repeat_len span =>
      r_when (length elements =? 0) (array_empty span) ;~
      let~ els := r_fold (fun element els =>
        let~ info := infer_expr nested locals mutable_locals element in
        let~ r := check_element element (el_type els) info in
        r_ret (mkElements (Some r.1) (el_ok els && r.2) (el_calls els ++ info_calls info)))
        elements (mkElements None true []) in
      array_value (length elements) repeat_len span (el_type els) (el_ok els) (el_calls els)
  | E_Record name fields span =>
      let~ infos := r_each (fun field =>
        let 'Hir.mkFieldInit _ value _ := field in infer_expr nested locals mutable_locals value) fields in
      infer_record name fields span infos
  | E_RecordUpdate base updates span =>
      let~ info := infer_expr nested locals mutable_locals base in
      let~ layout := update_base base span info in
      match layout with
      | None => r_ret (mkExprInfo T_Error (info_calls info))
      | Some (struct_name, layout) =>
          let~ up := r_fold (fun update up =>
            let 'Hir.mkFieldInit name value update_span := update in
            let~ value_info := infer_expr nested locals mutable_locals value in
            let~ update_ok := check_update struct_name layout (up_seen up) name update_span value_info in
            r_ret (mkUpdates ({[ name ]} ∪ up_seen up) (up_ok up && update_ok) (up_calls up ++ info_calls value_info)))
            updates (mkUpdates ∅ true (info_calls info)) in
          r_ret (mkExprInfo (if up_ok up then T_Named struct_name else T_Error) (up_calls up))
      end
  | E_If condition then_body else_body span =>
      let~ info := infer_expr XC_Body locals mutable_locals condition in
      must_be "semantic.if-condition" "`if` condition" (info_ty info) T_Bool (expr_span condition)
        "Use a boolean condition before the branch bodies." ;~
      let~ then_info := infer_body locals mutable_locals then_body in
      let~ else_info := infer_body locals mutable_locals else_body in
      infer_if span info then_info else_info
  | E_Repeat binding count body span =>
      loop_position "semantic.repeat-position" "repeat" span context ;~
      let~ info := infer_expr XC_Body locals mutable_locals count in
      must_be "semantic.repeat-count" "`repeat` count" (info_ty info) T_I32 (expr_span count)
        "Use an integer iteration count for stage-0 repeat loops." ;~
      let~ inner := repeat_locals binding span locals in
      let~ body_info := infer_body inner mutable_locals body in
      r_ret (mkExprInfo T_Unit (info_calls info ++ body_calls body_info))
  | E_While condition body span =>
      loop_position "semantic.while-position" "while" span context ;~
      let~ info := infer_expr XC_Body locals mutable_locals condition in
      must_be "semantic.while-condition" "`while` condition" (info_ty info) T_Bool (expr_span condition)
        "Use a boolean condition for stage-0 `while` loops." ;~
      let~ body_info := infer_body locals mutable_locals body in
      r_ret (mkExprInfo T_Unit (info_calls info ++ body_calls body_info))
  | E_Match scrutinee arms span =>
      let~ info := infer_expr nested locals mutable_locals scrutinee in
      let ty := info_ty info in
      check_scrutinee scrutinee ty ;~
      let~ ar :=
        r_fold_last (fun arm is_last ar =>
          let 'Hir.mkMatchArm pattern body _ := arm in
          let~ checked := check_arm_pattern ty pattern is_last (ar_seen ar) in
          let~ body_info := infer_body (arm_locals pattern checked.1.2 locals) mutable_locals body in
          let~ branch := check_arm_body (ar_type ar) (body_span body) body_info in
          r_ret (mkArms checked.2 (Some branch.1) (ar_ok ar && checked.1.1 && branch.2)
                   (ar_calls ar ++ body_calls body_info)))
          arms (mkArms nothing_seen None (supported_scrutinee ty) (info_calls info)) in
      let~ exhaustive := check_exhaustive ty span (ar_seen ar) in
      r_ret (mkExprInfo (if ar_ok ar && exhaustive then default T_Unit (ar_type ar) else T_Error) (ar_calls ar))
  | E_Comptime body =>
      let~ info := infer_body locals mutable_locals body in
      if body_contains_forbidden_comptime_effect body then
        r_report (problem "semantic.comptime-effect" "comptime blocks may not perform effects or allocate dynamically"
                    (body_span body) "Use deterministic constant operations only.") ;~
        r_ret (mkExprInfo T_Error (body_calls info))
      else r_ret (mkExprInfo (body_ty info) (body_calls info))
  | E_Handle body _ =>
      let~ info := infer_body locals mutable_locals body in r_ret (mkExprInfo (body_ty info) (body_calls info))
  end
with infer_body (locals : Locals) (mutable_locals : gset string) (b : Hir.Body) {struct b} : Reports BodyInfo :=
  let 'Hir.mkBody statements tail span := b in
  let~ st := r_fold infer_statement statements (mkBodyStmtState locals mutable_locals ∅ []) in
  match tail with
  | Some e =>
      let~ info := infer_expr XC_BodyTail (bs_locals st) (bs_mutable_locals st) e in
      r_ret (mkBodyInfo (info_ty info) (bs_calls st ++ info_calls info) (expr_span e))
  | None => r_ret (mkBodyInfo T_Unit (bs_calls st) span)
  end
with infer_statement (s : Hir.Stmt) (st : BodyStmtState) {struct s} : Reports BodyStmtState :=
  match s with
  | S_Let mutable name value span =>
      let~ info := infer_expr XC_Statement (bs_locals st) (bs_mutable_locals st) value in
      let_statement mutable name span info st
  | S_Assign target value span =>
      let~ info := infer_expr XC_Body (bs_locals st) (bs_mutable_locals st) value in
      let st := add_calls (info_calls info) st in
      let into (target : option Target) (st : BodyStmtState) :=
        match target with Some target => assign_statement target span (info_ty info) st | None => r_ret st end in
      match target with
      | E_Name name _ => let~ target := assign_name name span st in into target st
      | E_Index (E_Name name name_span) index _ =>
          let~ index_info := infer_expr XC_Body (bs_locals st) (bs_mutable_locals st) index in
          let st := add_calls (info_calls index_info) st in
          let~ target := assign_index name (E_Name name name_span) index span index_info st in
          into target st
      | E_Index _ _ _ =>
          r_report (assign_complex span "Only simple local name or indexed array/list assignments are supported.") ;~
          r_ret st
      | E_Field (E_Name name _) field target_span =>
          let~ target := assign_field name field target_span span st in into target st
      | E_Field (E_Index (E_Name name name_span) index _) field target_span =>
          let~ index_info := infer_expr XC_Body (bs_locals st) (bs_mutable_locals st) index in
          let st := add_calls (info_calls index_info) st in
          let~ target :=
            assign_indexed_field name field (E_Name name name_span) index target_span span index_info st in
          into target st
      | E_Field (E_Index _ _ _) _ _ =>
          r_report (assign_complex span "Use `array[index].field = value;` on a mutable local array.") ;~ r_ret st
      | E_Field _ _ _ =>
          r_report (assign_complex span "Use a local record field or `array[index].field = value;` in stage-0.") ;~
          r_ret st
      | _ =>
          r_report (assign_complex span
            "Only simple local, indexed array/list, or local record-field assignments are supported.") ;~
          r_ret st
      end
  | S_Expr e _ =>
      let~ info := infer_expr XC_Body (bs_locals st) (bs_mutable_locals st) e in
      r_ret (add_calls (info_calls info) st)
  | S_WithArena body _ =>
      let 'Hir.mkBody inner _ _ := body in
      let~ inner_st :=
        r_fold infer_statement inner (mkBodyStmtState (bs_locals st) (bs_mutable_locals st) ∅ []) in
      r_ret (mkBodyStmtState (bs_locals st) (bs_mutable_locals st) (bs_rejected st) (bs_calls inner_st))
  end.
End Infer.
