(* ===== verification/Analysis.v ===== *)
(** * Semantic analysis

    [analyze] of [crates/sarif_frontend/src/semantic.rs]: names are resolved,
    effects and modes of parameters inferred, constants, contracts and bodies
    typed and checked for affine use, the profile checked; and the reports.
    The orders in which hash maps are iterated are parameters. *)
From stdpp Require Import gmap pretty.
From S2P Require Import Prelude Syntax Utf8 TextOps Float64 Mir Hir SemType Builtins Ownership ParamModes EffectInfer Profile Resolve.
From S2P Require Import HirLower TypeCalls TypeCheck.

Open Scope nat_scope.
Open Scope reports_scope.

(** ** Reports *)

Inductive ItemReport :=
  | RP_Const (name : string) (ty : Type_) (span : Span)
  | RP_Function (name signature ownership_status rt_status : string) (span : Span)
  | RP_Enum (name : string) (variant_count : nat) (ownership_status rt_status : string) (span : Span)
  | RP_Struct (name ownership_status rt_status : string) (span : Span).

Record Analysis := mkAnalysis { an_reports : list ItemReport; an_diagnostics : list Diagnostic }.

Definition render_signature `{Platform} (f : Hir.Function) : string :=
  let clause word e := match e with Some e => (" " ++ word ++ " " ++ expr_pretty e)%string | None => "" end in
  ("fn " ++ Hir.fn_name f
   ++ match fn_type_params f with
      | [] => ""
      | l => "[" ++ String.concat ", " (map (fun p => match generic_kind p with
                                             | Some kind => generic_name p ++ ": " ++ kind
                                             | None => generic_name p
                                             end) l) ++ "]"
      end
   ++ "(" ++ String.concat ", " (map (fun p => Hir.param_name p ++ ": " ++ path (Hir.param_ty p)) (Hir.fn_params f)) ++ ")"
   ++ match Hir.fn_return_type f with Some ty => " -> " ++ path ty | None => "" end
   ++ match Hir.fn_effects f with
      | [] => ""
      | l => " effects [" ++ String.concat ", " (map effect_ref_name l) ++ "]"
      end
   ++ clause "requires" (fn_requires f) ++ clause "ensures" (fn_ensures f))%string.

Section Analyze.
Context `{Platform} (levenshtein : string -> string -> nat) (local_keys : Locals -> list string).
Context (fns_order : gmap string FnFacts -> list (string * FnFacts)) (listing : gset Effect -> list Effect).

(** ** Items *)

Section Items.
Context (functions : gmap string FunctionSignature) (m : ResolvedModule).

Definition type_context (name : string) (effects : list Effect) : TypeContext :=
  mkTypeContext functions (consts m) (enum_variants m) (struct_layouts m) name effects.

Definition const_calls (c : Hir.Const) (calls : list string) : list Diagnostic :=
  flat_map (fun callee =>
    match functions !! callee with
    | Some sig =>
        if Nat.eqb (length (sig_effects sig)) 0 then []
        else [Diagnostic_new "semantic.const-expr"
                ("constant `" ++ const_name c ++ "` calls effectful helper `" ++ callee ++ "`")%string
                (const_span c) (Some "Constant initializers must be effect-free.")]
    | None => []
    end) calls.

Definition analyze_const (c : Hir.Const) : list ItemReport * list Diagnostic :=
  match consts m !! const_name c with
  | None => ([], [])
  | Some ty =>
      let '(info, ds) :=
        infer_expr levenshtein local_keys (type_context (const_name c) []) XC_ContractRequires ∅ ∅ (const_value c) in
      ([RP_Const (const_name c) ty (const_span c)],
       ds ++
       (if mismatch (info_ty info) ty
        then [Diagnostic_new "semantic.const-type"
                ("constant `" ++ const_name c ++ "` expects `" ++ type_render ty ++ "`, found `"
                 ++ type_render (info_ty info) ++ "`")%string
                (const_span c) (Some "Make the constant initializer match its declared type.")]
        else []) ++
       const_calls c (info_calls info))
  end.

(** A contract: its type, and what it does with affine values *)
Definition analyze_contract (f : Hir.Function) (sig : FunctionSignature) (clause what : string) (context : ExprContext)
    (locals : Locals) (result_type : option Type_) (e : Expr) : list Diagnostic :=
  let '(info, ds) :=
    infer_expr levenshtein local_keys (type_context (Hir.fn_name f) (sig_effects sig)) context locals ∅ e in
  ds ++
  (if mismatch (info_ty info) T_Bool
   then [Diagnostic_new "semantic.contract-type"
           ("`" ++ clause ++ "` clause in `" ++ Hir.fn_name f ++ "` must be `Bool`, found `"
            ++ type_render (info_ty info) ++ "`")%string
           (expr_span e) (Some ("Use a boolean expression for " ++ what ++ ".")%string)]
   else []) ++
  (check_contract_affine_ownership e locals functions (enum_variants m) (struct_fields m) (struct_layouts m)
     (Hir.fn_name f) clause result_type).2.

Definition result_conflict (f : Hir.Function) : Diagnostic :=
  Diagnostic_new "semantic.contract-result-conflict"
    ("function `" ++ Hir.fn_name f ++ "` has a parameter named `result`, which conflicts with the implicit "
     ++ "`ensures` result binding")%string
    (Hir.fn_span f) (Some "Rename the parameter to allow using `result` in postconditions.").

Definition analyze_requires (f : Hir.Function) (sig : FunctionSignature) : list Diagnostic :=
  match fn_requires f with
  | None => []
  | Some e => analyze_contract f sig "requires" "preconditions" XC_ContractRequires (function_locals sig) None e
  end.

Definition analyze_ensures (f : Hir.Function) (sig : FunctionSignature) : list Diagnostic :=
  match fn_ensures f with
  | None => []
  | Some e =>
      let locals := function_locals sig in
      let conflict := bool_decide (is_Some (locals !! "result"%string)) in
      (if conflict then [result_conflict f] else []) ++
      analyze_contract f sig "ensures" "postconditions" XC_ContractEnsures
        (if conflict then locals else <["result"%string := sig_return_type sig]> locals)
        (Some (sig_return_type sig)) e
  end.

Definition return_type_mismatch (f : Hir.Function) (sig : FunctionSignature) (info : BodyInfo) : list Diagnostic :=
  if negb (types_compatible (body_ty info) (sig_return_type sig)) && negb (in_error (body_ty info))
     && negb (in_error (sig_return_type sig))
  then [Diagnostic_new "semantic.return-type"
          ("function `" ++ Hir.fn_name f ++ "` expects `" ++ type_render (sig_return_type sig) ++ "`, found `"
           ++ type_render (body_ty info) ++ "`")%string
          (body_return_span info) (Some "Make the body's tail expression match the return type.")]
  else [].

Definition analyze_body (f : Hir.Function) (sig : FunctionSignature) : list Diagnostic :=
  match fn_body f with
  | None => []
  | Some body =>
      let locals := function_locals sig in
      let '(info, ds) :=
        infer_body levenshtein local_keys (type_context (Hir.fn_name f) (sig_effects sig)) locals ∅ body in
      ds ++ return_type_mismatch f sig info ++
      (check_affine_body_ownership body locals functions (enum_variants m) (struct_fields m) (struct_layouts m)
         (Hir.fn_name f)).2
  end.

Definition analyze_function (f : Hir.Function) : list ItemReport * list Diagnostic :=
  match functions !! Hir.fn_name f with
  | None => ([], [])
  | Some sig =>
      ([RP_Function (Hir.fn_name f) (render_signature f)
          (function_ownership_status functions (enum_variants m) (struct_fields m) (struct_layouts m) f sig)
          (function_rt_status (struct_fields m) sig) (Hir.fn_span f)],
       analyze_requires f sig ++ analyze_ensures f sig ++ analyze_body f sig)
  end.

Definition analyze_item (item : Item) : list ItemReport * list Diagnostic :=
  match item with
  | It_Const c => analyze_const c
  | It_Function f => analyze_function f
  | It_Enum e =>
      match enum_variants m !! enum_name e with
      | None => ([], [])
      | Some variants =>
          ([RP_Enum (enum_name e) (length variants) (enum_ownership_status (enum_variants m) (struct_fields m) variants)
              (enum_rt_status (struct_fields m) variants) (enum_span e)], [])
      end
  | It_Struct s =>
      match struct_fields m !! struct_name s with
      | None => ([], [])
      | Some fields =>
          ([RP_Struct (struct_name s) (struct_ownership_status (enum_variants m) (struct_fields m) (struct_name s))
              (struct_rt_status (struct_fields m) fields) (struct_span s)], [])
      end
  | It_Effect _ | It_ExternBlock _ | It_Import _ => ([], [])
  end.
End Items.

(** ** The module *)

(** [None]: the inference of effects or of modes needs more rounds. *)
Definition analyze (rounds : nat) (profile : Profile) (imported : gmap string ResolvedModule) (module : HirModule)
    : option Analysis :=
  let '(m, ds) := resolve_module levenshtein module imported in
  functions ← EffectInfer.infer_effects (fns_order (module_fns module)) listing rounds (Resolve.functions m);
  functions ← infer_param_modes (enum_variants m) (struct_fields m) (struct_layouts m) rounds module functions;
  let items := map (analyze_item functions m) module in
  Some (mkAnalysis (concat (map fst items))
          (ds ++ concat (map snd items)
           ++ profile_diagnostics functions (enum_variants m) (struct_fields m) (struct_layouts m) profile module)).
End Analyze.
