(* ===== verification/TypeCheckSpec.v ===== *)
(** * Types of expressions: what acceptance means

    A type that is in error is always reported, so the type of what is accepted
    is a type; and what the checker does not look at. *)
From stdpp Require Import gmap pretty.
From S2P Require Import Prelude Syntax Utf8 TextOps Hir SemType Builtins Ownership Resolve HirLower TypeCalls TypeCheck.

Open Scope nat_scope.
Open Scope reports_scope.

(** ** Results without a diagnostic *)

Definition silent {A} (m : Reports A) (Q : A -> Prop) : Prop := m.2 = [] -> Q m.1.

Lemma silent_ret {A} (a : A) (Q : A -> Prop) : Q a -> silent (r_ret a) Q.
Proof. by intros H _. Qed.

Lemma silent_bind {A B} (m : Reports A) (k : A -> Reports B) (Q : B -> Prop) :
  silent m (fun a => silent (k a) Q) -> silent (r_bind m k) Q.
Proof. intros H [Hm Hk]%app_eq_nil. by apply H. Qed.

Lemma silent_when b d (Q : unit -> Prop) : (b = false -> Q tt) -> silent (r_when b d) Q.
Proof. intros H. unfold silent. cbn. destruct b; [done|auto]. Qed.

Lemma silent_report d (Q : unit -> Prop) : silent (r_report d) Q.
Proof. done. Qed.

Lemma silent_mono {A} (m : Reports A) (Q R : A -> Prop) : silent m Q -> (forall a, Q a -> R a) -> silent m R.
Proof. intros H HQ Hm. apply HQ, H, Hm. Qed.

(** Each result of [r_each] has the property, in order. *)
Lemma silent_each {A B} (f : A -> Reports B) (P : A -> B -> Prop) l (Q : list B -> Prop) :
  Forall (fun a => silent (f a) (P a)) l -> (forall bs, Forall2 P l bs -> Q bs) -> silent (r_each f l) Q.
Proof.
  intros Hl. revert Q. induction Hl as [|a l Ha _ IH]; intros Q HQ; cbn [r_each].
  - apply silent_ret, HQ. constructor.
  - apply silent_bind. eapply silent_mono; [exact Ha|]. intros b Hb. apply silent_bind. apply IH. intros bs Hbs.
    apply silent_ret, HQ. by constructor.
Qed.

(** An invariant of [r_fold] *)
Lemma silent_fold {A St} (g : A -> St -> Reports St) (I : St -> Prop) l st (Q : St -> Prop) :
  Forall (fun a => forall st, I st -> silent (g a st) I) l -> I st -> (forall st, I st -> Q st) -> silent (r_fold g l st) Q.
Proof.
  intros Hl. revert st. induction Hl as [|a l Ha _ IH]; intros st HI HQ; cbn [r_fold].
  - by apply silent_ret, HQ.
  - apply silent_bind. eapply silent_mono; [by apply Ha|]. intros st' HI'. by apply IH.
Qed.

Lemma silent_fold_last {A St} (h : A -> bool -> St -> Reports St) (I : St -> Prop) l st (Q : St -> Prop) :
  Forall (fun a => forall is_last st, I st -> silent (h a is_last st) I) l -> I st -> (forall st, I st -> Q st) ->
  silent (r_fold_last h l st) Q.
Proof.
  intros Hl. revert st. induction Hl as [|a l Ha _ IH]; intros st HI HQ; cbn [r_fold_last].
  - by apply silent_ret, HQ.
  - apply silent_bind. eapply silent_mono; [by apply Ha|]. intros st' HI'. by apply IH.
Qed.

(** The steps that have a rule *)
Ltac quiet_step :=
  lazymatch goal with
  | |- silent (r_bind _ _) _ => apply silent_bind
  | |- silent (r_ret _) _ => apply silent_ret
  | |- silent (r_when _ _) _ => apply silent_when; intros ?
  | |- silent (r_report _) _ => apply silent_report
  | |- silent (r_each _ _) _ => fail
  | |- silent (if ?b then _ else _) _ => destruct b eqn:?
  | |- silent (match ?o with _ => _ end) _ => destruct o eqn:?
  | |- silent (let _ := _ in _) _ => cbv zeta
  end.
Ltac quiet := repeat quiet_step.

(** ** Types without errors *)

Fixpoint error_free (ty : Type_) : bool :=
  match ty with
  | T_Error => false
  | T_Array element _ | T_List element => error_free element
  | T_Pair l r => error_free l && error_free r
  | _ => true
  end.

Definition clean_locals (locals : Locals) : Prop := map_Forall (fun _ ty => error_free ty = true) locals.

Record clean_context (tc : TypeContext) : Prop := {
  cc_functions name sig : tc_functions tc !! name = Some sig -> error_free (sig_return_type sig) = true;
  cc_consts name ty : tc_consts tc !! name = Some ty -> error_free ty = true;
  cc_variants name l v ty : tc_enum_variants tc !! name = Some l -> v ∈ l -> info_payload v = Some ty -> error_free ty = true;
  cc_layouts name l field ty : tc_struct_layouts tc !! name = Some l -> (field, ty) ∈ l -> error_free ty = true
}.

Lemma clean_not_error ty : error_free ty = true -> in_error ty = false.
Proof. destruct ty; done. Qed.

Lemma clean_mismatch ty expected : mismatch ty expected = false -> error_free ty = true -> ty = expected.
Proof.
  unfold mismatch, type_is. case_bool_decide; [done|]. case_bool_decide as He; [|done]. intros _ Hc. by rewrite He in Hc.
Qed.

Definition clean_info (info : ExprInfo) : Prop := error_free (info_ty info) = true.

(** ** Calls *)

Lemma builtin_results : forallb (fun '(_, entry) => negb (dispatch_simple entry) || error_free (result_ty entry)) builtins = true.
Proof. vm_compute. reflexivity. Qed.

Lemma builtin_entry_clean name entry :
  builtin_entry name = Some entry -> dispatch_simple entry = true -> error_free (result_ty entry) = true.
Proof.
  unfold builtin_entry. destruct (List.find _ _) as [[key e]|] eqn:E; [|done]. intros [= <-] Hs.
  apply find_some in E as [Hin _]. pose proof builtin_results as Hall. rewrite forallb_forall in Hall.
  specialize (Hall _ Hin). cbn in Hall. by rewrite Hs in Hall.
Qed.

Section Calls.
Context (levenshtein : string -> string -> nat) (tc : TypeContext) (Htc : clean_context tc).
Context (span : Span) (context : ExprContext) (args : list Expr) (infos : list ExprInfo) (calls : list string).
Context (Hinfos : Forall clean_info infos).

Lemma clean_arg info : info ∈ infos -> error_free (info_ty info) = true.
Proof. intros Hin. by apply (proj1 (Forall_forall _ _) Hinfos). Qed.

(** A builtin is typed, or in error with a report. *)
Ltac builtin_clean :=
  cbv beta delta [infer_len infer_const_assert infer_tcp_send infer_text_builder_new infer_list_new infer_list_len
    infer_list_get infer_list_set infer_list_push infer_list_sort_text infer_list_from infer_list_sort_by_field
    infer_list_sort_by_text_field infer_list_sort_by infer_text_index_new infer_text_index_keys infer_enum_to
    text_index_call range_call line_call infer_text_index_builtin_expr infer_range_scan_builtin_expr
    infer_line_scan_builtin_expr arity_error call_error call_value list_context needs_alloc arg_is check_arg
    element_of_list element_arg require_runtime_builtin_context];
  quiet; try done.

(** What is known of the arguments *)
Ltac arguments_clean :=
  unfold clean_info in *; cbn [info_ty] in *;
  repeat match goal with H : Forall _ (_ :: _) |- _ => apply Forall_cons in H as [? H] end;
  repeat match goal with E : info_ty ?e = _, H : error_free (info_ty ?e) = true |- _ => rewrite E in H end;
  cbn [error_free default id] in *; congruence.

Lemma special_clean : Forall (fun '(_, r) => silent r clean_info) (special_builtins tc span context args infos calls).
Proof. repeat apply Forall_cons_2; try apply Forall_nil_2. all: builtin_clean; arguments_clean. Qed.

Lemma builtin_call_clean callee r :
  infer_builtin_call tc span context args infos calls callee = Some r -> silent r clean_info.
Proof.
  assert (forall r', snd <$> List.find (fun '(name, _) => (name =? callee)%string)
            (special_builtins tc span context args infos calls) = Some r' -> silent r' clean_info) as Hs.
  { intros r' Hr. destruct (List.find _ _) as [[name r'']|] eqn:E; [|done]. injection Hr as <-.
    apply find_some in E as [Hin _]. pose proof special_clean as Hall. rewrite Forall_forall in Hall.
    exact (Hall _ (proj2 (list_elem_of_In _ _) Hin)). }
  unfold infer_builtin_call. destruct (callee =? "len")%string.
  { intros [= <-]. builtin_clean; arguments_clean. }
  destruct (callee =? "const_assert")%string.
  { intros [= <-]. builtin_clean; arguments_clean. }
  destruct (builtin_entry callee) as [entry|] eqn:E; [|apply Hs].
  destruct (dispatch_simple entry) eqn:Hd; [|apply Hs]. intros [= <-].
  unfold infer_fixed_builtin_expr. apply silent_bind. intros _. quiet. intros _. quiet.
  by eapply builtin_entry_clean.
Qed.

Lemma call_clean callee : silent (infer_call levenshtein tc span context args infos calls callee) clean_info.
Proof.
  unfold infer_call. destruct (tc_functions tc !! callee) as [sig|] eqn:Hf.
  - quiet; unfold infer_constructor_call, infer_function_call, call_error, call_value; quiet; try done.
    intros _. quiet. intros _. quiet. by eapply cc_functions.
  - destruct (infer_builtin_call _ _ _ _ _ _ callee) as [r|] eqn:E; [by eapply builtin_call_clean|].
    quiet; unfold infer_constructor_call, call_error, call_value; quiet; done.
Qed.
End Calls.

(** ** The parts of expressions *)

Lemma in_error_false ty : error_free ty = true -> in_error ty = false.
Proof. by destruct ty. Qed.

Section Parts.
Context (levenshtein : string -> string -> nat) (local_keys : Locals -> list string).
Context (tc : TypeContext) (Htc : clean_context tc).

Lemma field_type_clean ty field ty' : field_type ty field (tc_struct_layouts tc) = Some ty' -> error_free ty' = true.
Proof.
  destruct ty; try done. cbn. destruct (tc_struct_layouts tc !! name) as [l|] eqn:El; [|done]. cbn.
  destruct (List.find _ l) as [[f t]|] eqn:E; [|done]. intros [= <-]. apply find_some in E as [Hin _].
  eapply cc_layouts; [done..|]. by apply list_elem_of_In.
Qed.

Lemma name_clean locals name span :
  clean_locals locals -> silent (infer_name levenshtein local_keys tc locals name span) clean_info.
Proof.
  intros Hl. unfold infer_name. destruct (locals !! name) as [ty|] eqn:E.
  { apply silent_ret. exact (Hl _ _ E). }
  destruct (tc_consts tc !! name) as [ty|] eqn:Ec; [|done]. apply silent_ret. by eapply cc_consts.
Qed.

Lemma contract_result_clean locals span context :
  clean_locals locals -> (context = XC_ContractEnsures -> is_Some (locals !! "result"%string)) ->
  silent (infer_contract_result locals span context) clean_info.
Proof.
  intros Hl Hr. unfold infer_contract_result. quiet. destruct context; try done.
  destruct (Hr eq_refl) as [ty Ht]. unfold clean_info. rewrite Ht. exact (Hl _ _ Ht).
Qed.

Lemma field_clean field span base :
  clean_info base -> silent (infer_field levenshtein tc field span base) clean_info.
Proof.
  intros Hb. unfold infer_field.
  assert (forall m, silent m clean_info -> silent (if (field =? "len")%string
    then match info_ty base with
         | T_Array _ _ | T_List _ | T_Text => r_ret (mkExprInfo T_I32 (info_calls base))
         | T_Error => r_ret (mkExprInfo T_Error (info_calls base))
         | _ => m
         end else m) clean_info) as Hlen.
  { intros m Hm. destruct (field =? "len")%string; [|done]. unfold clean_info in Hb.
    destruct (info_ty base); try done; by apply silent_ret. }
  apply Hlen. destruct (field_type _ _ _) as [ty|] eqn:E; [|done].
  apply field_type_clean in E. apply silent_ret. unfold clean_info. cbn.
  by rewrite (in_error_false _ Hb), (in_error_false _ E).
Qed.

Lemma integer_clean op l r lt rt help : silent (integer_operands op l r lt rt help) (fun ty => error_free ty = true).
Proof.
  unfold integer_operands. apply silent_bind. intros _. apply silent_bind. intros _. apply silent_ret.
  by destruct (_ || _).
Qed.

Lemma binary_clean op l r span left_info right_info :
  clean_info left_info -> clean_info right_info -> silent (infer_binary op l r span left_info right_info) clean_info.
Proof.
  unfold clean_info, infer_binary. intros Hl Hr. rewrite (in_error_false _ Hl), (in_error_false _ Hr). apply silent_bind.
  enough (silent (binary_type op l r span (info_ty left_info) (info_ty right_info)) (fun ty => error_free ty = true)) as H.
  { eapply silent_mono; [exact H|]. intros ty Hty. by apply silent_ret. }
  unfold binary_type. rewrite (in_error_false _ Hl), (in_error_false _ Hr).
  destruct op; try apply integer_clean; unfold expect_type; quiet; try done.
  all: match goal with E : matching_numeric_type ?a ?b = Some _ |- _ =>
         destruct a, b; try discriminate E; by injection E as <- end.
Qed.

Lemma unary_clean op inner info : clean_info info -> silent (infer_unary op inner info) clean_info.
Proof.
  intros Hi. destruct op. unfold infer_unary, expect_type. quiet. unfold clean_info. cbn.
  by rewrite (in_error_false _ Hi).
Qed.

Lemma index_clean base index base_info index_info :
  clean_info base_info -> clean_info index_info -> silent (infer_index tc base index base_info index_info) clean_info.
Proof.
  unfold clean_info. intros Hb Hi. unfold infer_index. rewrite (in_error_false _ Hb), (in_error_false _ Hi).
  destruct (info_ty base_info); quiet; done.
Qed.

Lemma if_clean span condition then_info else_info :
  clean_info condition -> error_free (body_ty then_info) = true -> error_free (body_ty else_info) = true ->
  silent (infer_if tc span condition then_info else_info) clean_info.
Proof.
  intros Hc Ht He. unfold infer_if. cbv zeta. unfold clean_info in *.
  rewrite (in_error_false _ Hc), (in_error_false _ Ht), (in_error_false _ He). quiet. cbn in *.
  destruct (types_compatible _ _); done.
Qed.

(** *** Records *)

Lemma inits_silent struct_name layout seen fields :
  silent (check_inits levenshtein struct_name layout seen fields) (fun r => r.1 = true).
Proof.
  revert seen. induction fields as [|[[name value span] info] fields IH]; intros seen; cbn [check_inits]; [done|].
  quiet. eapply silent_mono; [apply IH|]. intros r Hr. apply silent_ret. cbn.
  repeat match goal with H : _ = false |- _ => rewrite H end. by rewrite Hr.
Qed.

Lemma missing_silent struct_name span seen layout : silent (missing_fields struct_name span seen layout) (fun ok => ok = true).
Proof.
  induction layout as [|[name ty] layout IH]; cbn [missing_fields]; [done|]. quiet.
  eapply silent_mono; [apply IH|]. intros ok ->. apply silent_ret. by rewrite H.
Qed.

Lemma no_error_in infos : Forall clean_info infos -> existsb (fun info => in_error (info_ty info)) infos = false.
Proof.
  induction 1 as [|info infos Hi _ IH]; [done|]. cbn. by rewrite (in_error_false _ Hi).
Qed.

Lemma record_clean name fields span infos :
  Forall clean_info infos -> silent (infer_record levenshtein tc name fields span infos) clean_info.
Proof.
  intros Hi. unfold infer_record. destruct (tc_struct_layouts tc !! name) as [layout|]; [|done].
  apply silent_bind. eapply silent_mono; [apply inits_silent|]. intros inits Hok.
  apply silent_bind. eapply silent_mono; [apply missing_silent|]. intros complete ->. apply silent_ret.
  by rewrite Hok, no_error_in.
Qed.

Lemma update_silent struct_name layout seen name span info :
  silent (check_update levenshtein struct_name layout seen name span info) (fun ok => ok = true).
Proof.
  unfold check_update. quiet. repeat match goal with H : _ = false |- _ => rewrite H end. done.
Qed.

Lemma update_base_silent base span info : clean_info info -> silent (update_base tc base span info) is_Some.
Proof.
  unfold clean_info, update_base. intros Hi. destruct (info_ty info); try done.
  destruct (tc_struct_layouts tc !! name); [apply silent_ret; by eexists|done].
Qed.

(** *** Arrays *)

Definition elements_ok (els : Elements) : Prop :=
  el_ok els = true /\ forall ty, el_type els = Some ty -> error_free ty = true.

Lemma element_clean element els info :
  elements_ok els -> clean_info info ->
  silent (check_element tc element (el_type els) info) (fun r => error_free r.1 = true /\ r.2 = true).
Proof.
  unfold clean_info. intros [_ Hty] Hi. unfold check_element. rewrite (in_error_false _ Hi).
  destruct (el_type els) as [expected|]; quiet; cbn.
  - split; [by apply Hty|]. by destruct (type_is _ _).
  - done.
Qed.

Lemma array_clean count repeat_len span ty calls :
  (count <> 0 -> exists t, ty = Some t /\ error_free t = true) -> negb (count =? 0) = true ->
  silent (array_value tc count repeat_len span ty true calls) clean_info.
Proof.
  intros Hty Hc. destruct (Hty ltac:(by intros ->)) as (t & -> & Ht). unfold array_value, check_repeat.
  apply silent_bind. destruct repeat_len as [len|]; quiet; unfold clean_info; cbn; rewrite Hc; cbn.
  - repeat match goal with H : _ = false |- _ => rewrite H end. done.
  - done.
Qed.
(** *** Matches *)

Definition right (r : bool * Seen) : Prop := r.1 = true.

Lemma alternatives_silent check ps :
  Forall (fun p => forall s, silent (check p s) right) ps -> forall s, silent (check_alternatives check ps s) right.
Proof.
  unfold right. induction 1 as [|p ps Hp _ IH]; intros s; cbn [check_alternatives]; [done|].
  apply silent_bind. eapply silent_mono; [apply Hp|]. intros r Hr.
  apply silent_bind. eapply silent_mono; [apply IH|]. intros rest Hrest. apply silent_ret. cbn. by rewrite Hr, Hrest.
Qed.

(** Induction on patterns, through their alternatives *)
Lemma pattern_ind' (P : MatchPattern -> Prop) :
  (forall patterns span, Forall P patterns -> P (P_Or patterns span)) ->
  (forall p, (forall patterns span, p <> P_Or patterns span) -> P p) -> forall p, P p.
Proof.
  intros Hor Hrest. fix IH 1. intros p. destruct p; try (apply Hrest; done).
  apply Hor. induction patterns as [|p ps IHl]; constructor; [apply IH|exact IHl].
Qed.

Lemma bool_pattern_silent p s : silent (check_bool_match_pattern tc p s) right.
Proof.
  revert s. induction p as [ps span IH|p Hp] using pattern_ind'; intros s.
  - by apply alternatives_silent.
  - destruct p; try (cbn; quiet; done). by edestruct Hp.
Qed.

Lemma i32_pattern_silent p s : silent (check_i32_match_pattern tc p s) right.
Proof.
  revert s. induction p as [ps span IH|p Hp] using pattern_ind'; intros s.
  - by apply alternatives_silent.
  - destruct p; cbn [check_i32_match_pattern]; try done; [| |by edestruct Hp].
    all: quiet; unfold right; cbn.
    all: repeat match goal with H : _ = false |- _ => rewrite H end; done.
Qed.

Lemma text_pattern_silent p s : silent (check_text_match_pattern tc p s) right.
Proof.
  revert s. induction p as [ps span IH|p Hp] using pattern_ind'; intros s.
  - by apply alternatives_silent.
  - destruct p; try (cbn; quiet; done). by edestruct Hp.
Qed.

Definition arm_right (r : (bool * option Type_) * Seen) : Prop :=
  r.1.1 = true /\ forall ty, r.1.2 = Some ty -> error_free ty = true.

Lemma enum_pattern_silent p name declared s :
  tc_enum_variants tc !! name = Some declared ->
  silent (check_enum_match_pattern levenshtein tc p name declared s) arm_right.
Proof.
  intros Hd. unfold check_enum_match_pattern. destruct p; try done.
  destruct (split_enum_variant_path _) as [[e v]|]; [|done]. destruct (negb (e =? name)%string); [done|].
  destruct (List.find _ declared) as [variant|] eqn:Hv; [|done]. quiet. split; cbn [fst snd].
  - by rewrite H, H0.
  - intros ty Hty. apply find_some in Hv as [Hin _]. eapply cc_variants; [exact Htc|exact Hd| |exact Hty].
    by apply list_elem_of_In.
Qed.

Lemma arm_pattern_silent ty p is_last s :
  silent (check_arm_pattern levenshtein tc ty p is_last s) arm_right.
Proof.
  assert (forall m, silent m right -> silent (let~ r := m in r_ret ((r.1, None : option Type_), r.2)) arm_right) as Hplain.
  { intros m Hm. apply silent_bind. eapply silent_mono; [exact Hm|]. intros r Hr. by apply silent_ret. }
  unfold check_arm_pattern. destruct p;
    try (unfold arm_right; quiet; cbn; by rewrite H, <- (negb_involutive is_last), H0).
  all: destruct (scrutinee_enum tc ty) as [[e declared]|] eqn:He;
    [apply enum_pattern_silent; unfold scrutinee_enum in He; destruct ty; try done;
     destruct (tc_enum_variants tc !! name) eqn:E; [|done]; by injection He as <- <-|].
  all: destruct ty; first [done|apply Hplain;
    first [apply bool_pattern_silent|apply i32_pattern_silent|apply text_pattern_silent]].
Qed.

Lemma arm_locals_clean p payload locals :
  (forall ty, payload = Some ty -> error_free ty = true) -> clean_locals locals -> clean_locals (arm_locals p payload locals).
Proof.
  intros Hp Hl. unfold arm_locals. destruct p; try done. destruct binding; [|done]. destruct payload; [|done].
  apply map_Forall_insert_2; [by apply Hp|done].
Qed.

Lemma arm_body_silent branch_type span info :
  error_free (body_ty info) = true -> (forall ty, branch_type = Some ty -> error_free ty = true) ->
  silent (check_arm_body tc branch_type span info) (fun r => error_free r.1 = true /\ r.2 = true).
Proof.
  intros Hi Hb. unfold check_arm_body. rewrite (in_error_false _ Hi). destruct branch_type as [ty|]; quiet; cbn; [|done].
  split; [by apply Hb|]. by destruct (types_compatible _ _).
Qed.

Lemma exhaustive_silent ty span s : silent (check_exhaustive tc ty span s) (fun ok => ok = true).
Proof. unfold check_exhaustive. quiet; done. Qed.

Definition arms_ok (ar : Arms) : Prop := ar_ok ar = true /\ forall ty, ar_type ar = Some ty -> error_free ty = true.

(** *** Effects and statements *)

Lemma system_types : forallb (fun '(_, l) => forallb (fun m => error_free (system_return_type m)) l) SYSTEM_EFFECTS = true.
Proof. vm_compute. reflexivity. Qed.

Lemma system_method_clean effect operation m :
  find_system_effect_method effect operation = Some m -> error_free (system_return_type m) = true.
Proof.
  unfold find_system_effect_method. pose proof system_types as Hall. revert Hall.
  induction SYSTEM_EFFECTS as [|[name l] rest IH]; [done|]. cbn [forallb foldr].
  intros [Hl Hrest]%andb_true_iff. destruct (name =? effect)%string; [|by apply IH].
  destruct (List.find _ l) as [m'|] eqn:E; [|by apply IH]. intros [= <-].
  apply find_some in E as [Hin _]. rewrite forallb_forall in Hl. by apply Hl.
Qed.

Lemma perform_clean effect operation span infos :
  silent (infer_perform tc effect operation span infos) clean_info.
Proof.
  unfold infer_perform. destruct (find_system_effect_method effect operation) as [m|] eqn:E; [|done].
  quiet. intros _. quiet. by eapply system_method_clean.
Qed.

Lemma let_clean mutable name span info st :
  clean_info info -> clean_locals (bs_locals st) ->
  silent (let_statement tc mutable name span info st) (fun st => clean_locals (bs_locals st)).
Proof.
  intros Hi Hst. unfold let_statement. quiet; try done. cbn. by apply map_Forall_insert_2.
Qed.

Lemma assign_clean target span ty st :
  error_free ty = true -> clean_locals (bs_locals st) ->
  silent (assign_statement tc target span ty st) (fun st => clean_locals (bs_locals st)).
Proof.
  intros Hi Hst. unfold assign_statement. destruct target as [[name expected] update]. quiet; try done.
  destruct update; [|done]. cbn. by apply map_Forall_insert_2.
Qed.
End Parts.

(** ** No silent error *)

Section NoSilentError.
Context (levenshtein : string -> string -> nat) (local_keys : Locals -> list string).
Context (tc : TypeContext) (Htc : clean_context tc).

#[local] Notation infer := (infer_expr levenshtein local_keys tc).

Definition expr_clean (e : Expr) : Prop := forall context locals mutable_locals,
  clean_locals locals -> (context = XC_ContractEnsures -> is_Some (locals !! "result"%string)) ->
  silent (infer context locals mutable_locals e) clean_info.

Definition statements_clean (l : list Stmt) : Prop := forall st, clean_locals (bs_locals st) ->
  silent (r_fold (infer_statement levenshtein local_keys tc) l st) (fun st => clean_locals (bs_locals st)).

Definition body_clean (b : Body) : Prop :=
  (forall locals mutable_locals, clean_locals locals ->
     silent (infer_body levenshtein local_keys tc locals mutable_locals b) (fun info => error_free (body_ty info) = true)) /\
  statements_clean (body_statements b).

Lemma each_clean {A} (f : A -> Expr) l context locals mutable_locals Q :
  Forall expr_clean (map f l) -> clean_locals locals ->
  (context = XC_ContractEnsures -> is_Some (locals !! "result"%string)) ->
  (forall infos, Forall clean_info infos -> Q infos) ->
  silent (r_each (fun a => infer context locals mutable_locals (f a)) l) Q.
Proof.
  intros Hl Hloc Hr HQ. apply (silent_each _ (fun _ => clean_info)).
  - rewrite Forall_fmap in Hl. eapply Forall_impl; [exact Hl|]. intros a Ha. by apply Ha.
  - intros bs Hbs. apply HQ. clear -Hbs. by induction Hbs; constructor.
Qed.

Lemma statement_clean s st :
  stmt_all expr_clean body_clean s -> clean_locals (bs_locals st) ->
  silent (infer_statement levenshtein local_keys tc s st) (fun st => clean_locals (bs_locals st)).
Proof.
  intros Hs Hst. destruct s as [mutable name value span|target value span|e span|body span]; cbn [stmt_all] in Hs;
    cbn [infer_statement].
  - apply silent_bind. eapply silent_mono; [by apply Hs|]. intros info Hi. by apply let_clean.
  - destruct Hs as [Ht Hv]. apply silent_bind. eapply silent_mono; [by apply Hv|]. intros info Hi.
    cbv zeta. set (st1 := add_calls _ st).
    assert (Hinto : forall o st', clean_locals (bs_locals st') ->
      silent (match o with Some target => assign_statement tc target span (info_ty info) st' | None => r_ret st' end)
        (fun st => clean_locals (bs_locals st))).
    { intros [o|] st' Hst'; [by apply assign_clean|by apply silent_ret]. }
    destruct target; try done;
      [|destruct target; try done; [|destruct target1; try done]|destruct target1; try done];
      repeat (apply silent_bind; intros _; cbv zeta); by apply Hinto.
  - apply silent_bind. eapply silent_mono; [by apply Hs|]. intros info _. by apply silent_ret.
  - destruct body as [inner tail span']. apply silent_bind.
    eapply silent_mono; [by apply (proj2 Hs)|]. intros inner_st _. by apply silent_ret.
Qed.

Lemma when_silent b d : (r_when b d).2 = [] -> b = false.
Proof. by destruct b. Qed.

Lemma array_expr_clean context locals mutable_locals elements repeat_len span :
  Forall expr_clean elements -> clean_locals locals ->
  (nested_expr_context context = XC_ContractEnsures -> is_Some (locals !! "result"%string)) ->
  silent (infer context locals mutable_locals (E_Array elements repeat_len span)) clean_info.
Proof.
  intros He Hl Hn. cbn [infer_expr]. apply silent_bind. intros Hc%when_silent. apply silent_bind.
  set (g := fun element els => _).
  assert (Hg : forall element els, expr_clean element -> elements_ok els ->
    silent (g element els) (fun els => elements_ok els /\ is_Some (el_type els))).
  { intros element els Hel Hels. apply silent_bind. eapply silent_mono; [by apply Hel|]. intros info Hi.
    apply silent_bind. eapply silent_mono; [by apply element_clean|]. intros r [Hr1 Hr2]. apply silent_ret.
    split; [split|by eexists]; cbn; [|by intros ? [= <-]]. destruct Hels as [-> _]. by rewrite Hr2. }
  apply (silent_mono _ (fun els => elements_ok els /\ (length elements <> 0 -> is_Some (el_type els)))).
  - destruct He as [|element elements Hel Hrest]; [by apply silent_ret|]. cbn [r_fold]. apply silent_bind.
    eapply silent_mono; [by apply (Hg _ _ Hel)|]. intros els Hels.
    apply (silent_fold _ (fun els => elements_ok els /\ is_Some (el_type els))); [|done|tauto].
    eapply Forall_impl; [exact Hrest|]. intros e' He' st [Hst _]. by apply Hg.
  - intros els [[Hok Hty] Hsome]. rewrite Hok. apply array_clean; [|by rewrite Hc].
    intros Hne. destruct (Hsome Hne) as [ty E]. exists ty. split; [done|by apply Hty].
Qed.

(** The next part, in the same scope *)
Ltac part He :=
  apply silent_bind; let H := fresh in apply Forall_cons in He as [H He]; eapply silent_mono; [by apply H|].

Lemma expr_step e : Forall expr_clean (sub_exprs e) -> Forall body_clean (sub_bodies e) -> expr_clean e.
Proof.
  intros He Hb context locals mutable_locals Hl Hr.
  assert (Hn : nested_expr_context context = XC_ContractEnsures -> is_Some (locals !! "result"%string)).
  { by destruct context. }
  destruct e; cbn [sub_exprs sub_bodies] in *; cbn [infer_expr]; try (by apply silent_ret).
  - by apply name_clean.
  - by apply contract_result_clean.
  - apply silent_bind. apply (each_clean (fun e => e)); [by rewrite map_id|done|done|]. intros infos Hi. by apply call_clean.
  - by apply array_expr_clean.
  - apply silent_bind. intros _. destruct (enum_literal_type_name _ _ _ _ _).1; [by apply silent_ret|].
    part He. intros info Hi. by apply field_clean.
  - part He. intros base_info Hbase. part He. intros index_info Hindex. by apply index_clean.
  - inversion Hb as [|? ? Hthen Hb']; inversion Hb' as [|? ? Helse _]; subst.
    part He. intros info Hi. apply silent_bind. intros _. apply silent_bind.
    eapply silent_mono; [by apply (proj1 Hthen)|]. intros then_info Ht. apply silent_bind.
    eapply silent_mono; [by apply (proj1 Helse)|]. intros else_info Hei. by apply if_clean.
  - part He. intros info Hi. apply silent_bind. intros Hs%when_silent. apply silent_bind.
    apply (silent_fold_last _ arms_ok).
    + rewrite Forall_fmap in Hb. eapply Forall_impl; [exact Hb|]. intros [pattern body arm_span] [Hbody _] is_last ar [Hok Hty].
      apply silent_bind. eapply silent_mono; [by apply arm_pattern_silent|]. intros checked [Hc1 Hc2].
      apply silent_bind. eapply silent_mono; [apply Hbody; by apply arm_locals_clean|]. intros body_info Hbi.
      apply silent_bind. eapply silent_mono; [by apply arm_body_silent|]. intros branch [Hb1 Hb2].
      apply silent_ret. split; cbn; [by rewrite Hok, Hc1, Hb2|by intros ? [= <-]].
    + split; [by rewrite <- (negb_involutive (supported_scrutinee _ _)), Hs|done].
    + intros ar [Hok Hty]. apply silent_bind. eapply silent_mono; [apply exhaustive_silent|]. intros ok ->.
      apply silent_ret. unfold clean_info. cbn. rewrite Hok. cbn. destruct (ar_type ar); [by apply Hty|done].
  - do 2 (apply silent_bind; intros _). do 3 (apply silent_bind; intros _). by apply silent_ret.
  - do 4 (apply silent_bind; intros _). by apply silent_ret.
  - apply silent_bind.
    eapply (silent_each _ (fun _ => clean_info)).
    { rewrite Forall_fmap in He. eapply Forall_impl; [exact He|]. intros [name' value span'] Hv. by apply Hv. }
    intros infos Hi. apply record_clean. clear -Hi. by induction Hi; constructor.
  - part He. intros info Hi. apply silent_bind. eapply silent_mono; [by apply update_base_silent|].
    intros ? [[struct_name layout] ->]. apply silent_bind. apply (silent_fold _ (fun up => up_ok up = true)); [|done|].
    + rewrite Forall_fmap in He. eapply Forall_impl; [exact He|]. intros [name' value span'] Hv up Hup.
      apply silent_bind. intros _. apply silent_bind. eapply silent_mono; [apply update_silent|]. intros ok ->.
      apply silent_ret. cbn. by rewrite Hup.
    + intros up Hup. apply silent_ret. by rewrite Hup.
  - part He. intros info Hi. by apply unary_clean.
  - part He. intros left_info Hli. part He. intros right_info Hri. by apply binary_clean.
  - apply Forall_cons in He as [Hi _]. by apply Hi.
  - inversion Hb as [|? ? [Hbody _] _]; subst. apply silent_bind. eapply silent_mono; [by apply Hbody|]. intros info Hi.
    quiet. done.
  - apply silent_bind. apply (each_clean (fun e => e)); [by rewrite map_id|done|done|]. intros infos Hi. by apply perform_clean.
  - inversion Hb as [|? ? [Hbody _] _]; subst. apply silent_bind. eapply silent_mono; [by apply Hbody|]. intros info Hi.
    by apply silent_ret.
Qed.

Lemma body_step b :
  Forall (stmt_all expr_clean body_clean) (body_statements b) -> option_all expr_clean (body_tail b) -> body_clean b.
Proof.
  destruct b as [statements tail span]. cbn. intros Hs Ht.
  assert (statements_clean statements) as Hst.
  { intros st Hl. apply (silent_fold _ (fun st => clean_locals (bs_locals st))); [|done|done].
    eapply Forall_impl; [exact Hs|]. intros s Hall st' Hst'. by apply statement_clean. }
  split; [|done]. intros locals mutable_locals Hl. cbn [infer_body]. apply silent_bind.
  eapply silent_mono; [by apply Hst|]. intros st Hst'. destruct tail as [e|]; [|by apply silent_ret].
  apply silent_bind. eapply silent_mono; [by apply Ht|]. intros info Hi. by apply silent_ret.
Qed.

Lemma body_types_clean b locals mutable_locals :
  clean_locals locals ->
  silent (infer_body levenshtein local_keys tc locals mutable_locals b) (fun info => error_free (body_ty info) = true).
Proof. by apply (body_tree_ind _ _ expr_step body_step b). Qed.

(** C6: No error of the type checker is silent: when everything that a context
    declares has a type, an expression that is inferred without a diagnostic has
    one too, with no error anywhere in it, in every context and scope. *)
Theorem no_silent_error context locals mutable_locals e :
  clean_locals locals -> (context = XC_ContractEnsures -> is_Some (locals !! "result"%string)) ->
  (infer context locals mutable_locals e).2 = [] -> error_free (info_ty (infer context locals mutable_locals e).1) = true.
Proof. apply (expr_tree_ind _ _ expr_step body_step e). Qed.
End NoSilentError.

(** ** A sample *)

Definition empty_context : TypeContext := mkTypeContext ∅ ∅ ∅ ∅ "f" [].

Lemma empty_context_clean : clean_context empty_context.
Proof. split; intros *; cbn; rewrite lookup_empty; done. Qed.

(** [list_get(xs, 0)], with [xs] a list of lists *)
Definition sample_call : Expr :=
  E_Call "list_get" [E_Name "xs" (mkSpan 0 0); E_Integer 0 (mkSpan 0 0)] (mkSpan 0 0).

Lemma no_silent_error_witness :
  error_free (info_ty (infer_expr (fun _ _ => 0) (fun m => map fst (map_to_list m)) empty_context XC_Body
    {["xs"%string := T_List (T_List T_I32)]} ∅ sample_call).1) = true.
Proof.
  apply (no_silent_error (fun _ _ => 0) (fun m => map fst (map_to_list m)) empty_context empty_context_clean XC_Body).
  - by apply map_Forall_singleton.
  - done.
  - vm_compute. reflexivity.
Defined.
