(* ===== verification/FrontSpec.v ===== *)
(** * The front end: from text to the AST

    Lowering of any tree ends, and no string keeps an embedded expression: the
    text between its braces is parsed as a file, where it is no item.  The
    caches of the database cannot be seen; and what the way from text to the HIR
    loses without a diagnostic. *)
From Stdlib Require Import Ascii.
From stdpp Require Import gmap pretty.
From S2P Require Import Prelude Syntax Utf8 TextOps Float64 Mir Lexer Parser ParserWp ParserProofs ParserSpec LexerSpec.
From S2P Require Import Samples Resolve Hir HirLower Ast AstLower.

Open Scope nat_scope.

(** ** Trees *)

(** [P] holds of every node strictly inside. *)
Inductive below (P : Node -> Prop) : Node -> Prop :=
  | below_node kind span children :
      (forall c, Element_Node c ∈ children -> P c /\ below P c) -> below P (mkNode kind span children).

Lemma below_child P n c : below P n -> Element_Node c ∈ node_children n -> P c /\ below P c.
Proof. intros [kind span children Hc]. apply Hc. Qed.

(** Induction on trees *)
Lemma tree_ind (P : Node -> Prop) : (forall n, below P n -> P n) -> forall n, P n /\ below P n.
Proof.
  intros Hstep. fix IH 1. intros [kind span children].
  assert (below P (mkNode kind span children)) as Hb; [|exact (conj (Hstep _ Hb) Hb)].
  constructor. induction children as [|e children IHc]; intros c Hin; [apply elem_of_nil in Hin; destruct Hin|].
  destruct e as [n|t].
  - pose proof (IH n) as Hn. apply elem_of_cons in Hin as [Heq|Hin]; [congruence|exact (IHc c Hin)].
  - apply elem_of_cons in Hin as [Heq|Hin]; [discriminate Heq|exact (IHc c Hin)].
Qed.

(** ** Expressions without templates *)

Fixpoint plain_expr (e : Expr) : bool :=
  match e with
  | AE_Call _ args _ | AE_Perform _ args _ => forallb plain_expr args
  | AE_Array elements _ _ => forallb plain_expr elements
  | AE_Field base _ _ => plain_expr base
  | AE_Index base index _ => plain_expr base && plain_expr index
  | AE_If condition then_body else_body _ => plain_expr condition && plain_body then_body && plain_body else_body
  | AE_Match scrutinee arms _ => plain_expr scrutinee && forallb plain_arm arms
  | AE_Repeat _ count body _ => plain_expr count && plain_body body
  | AE_For _ start end_ body _ => plain_expr start && plain_expr end_ && plain_body body
  | AE_While condition body _ => plain_expr condition && plain_body body
  | AE_Record _ fields _ => forallb plain_init fields
  | AE_RecordUpdate base updates _ => plain_expr base && forallb plain_init updates
  | AE_Unary _ inner _ | AE_Group inner _ => plain_expr inner
  | AE_Binary _ l r _ => plain_expr l && plain_expr r
  | AE_Comptime body _ => plain_body body
  | AE_Handle body arms _ => plain_body body && forallb plain_handle_arm arms
  | AE_Template _ _ => false
  | _ => true
  end
with plain_body (b : Body) : bool :=
  let 'mkBody statements tail _ := b in
  forallb plain_stmt statements && match tail with Some e => plain_expr e | None => true end
with plain_stmt (s : Stmt) : bool :=
  match s with
  | AS_Let _ _ value _ => plain_expr value
  | AS_Assign target value _ => plain_expr target && plain_expr value
  | AS_Expr e _ => plain_expr e
  | AS_WithArena body _ => plain_body body
  end
with plain_arm (a : MatchArm) : bool := let 'mkMatchArm _ body _ := a in plain_body body
with plain_init (f : FieldInit) : bool := let 'mkFieldInit _ value _ := f in plain_expr value
with plain_handle_arm (a : HandleArm) : bool := let 'mkHandleArm _ _ body _ := a in plain_body body.

(** [Q], if there is one *)
Definition opt {X} (Q : X -> Prop) (o : option X) : Prop := match o with Some x => Q x | None => True end.

Abbreviation plain := (fun e => plain_expr e = true).
Abbreviation plain_b := (fun b => plain_body b = true).

(** ** Two ways of lowering *)

(** Both end, with the same result, which has [Q], and the same diagnostics. *)
Definition agree {X} (m1 m2 : A X) (Q : X -> Prop) : Prop :=
  forall ds, exists x ds', m1 ds = A_Ok x ds' /\ m2 ds = A_Ok x ds' /\ Q x.

Lemma agree_ret {X} (x : X) (Q : X -> Prop) : Q x -> agree (a_ret x) (a_ret x) Q.
Proof. intros HQ ds. by exists x, ds. Qed.

Lemma agree_bind {X Y} (m1 m2 : A X) (k1 k2 : X -> A Y) Q R :
  agree m1 m2 Q -> (forall x, Q x -> agree (k1 x) (k2 x) R) -> agree (a_bind m1 k1) (a_bind m2 k2) R.
Proof. intros Hm Hk ds. destruct (Hm ds) as (x & ds' & H1 & H2 & HQ). unfold a_bind. rewrite H1, H2. by apply Hk. Qed.

Lemma agree_mono {X} (m1 m2 : A X) (Q R : X -> Prop) : agree m1 m2 Q -> (forall x, Q x -> R x) -> agree m1 m2 R.
Proof. intros Hm HQ ds. destruct (Hm ds) as (x & ds' & H1 & H2 & Hx). exists x, ds'. auto. Qed.

(** [?] *)
Lemma agree_try {X Y} (m1 m2 : A (option X)) (k1 k2 : X -> A (option Y)) Q R :
  agree m1 m2 (opt Q) -> (forall x, Q x -> agree (k1 x) (k2 x) (opt R)) ->
  agree (a_bind m1 (fun o => match o with Some x => k1 x | None => a_ret None end))
        (a_bind m2 (fun o => match o with Some x => k2 x | None => a_ret None end)) (opt R).
Proof.
  intros Hm Hk. eapply agree_bind; [exact Hm|]. intros [x|] Hx; [by apply Hk|by apply agree_ret].
Qed.

Lemma agree_diagnose d : agree (a_diagnose d) (a_diagnose d) (fun _ => True).
Proof. intros ds. by eexists _, _. Qed.

Section Lists.
Context {X Y : Type} (f1 f2 : X -> A (option Y)) (Q : Y -> Prop).

Lemma agree_find_map l :
  (forall x, x ∈ l -> agree (f1 x) (f2 x) (opt Q)) -> agree (a_find_map f1 l) (a_find_map f2 l) (opt Q).
Proof.
  induction l as [|x l IH]; intros Hf; cbn; [by apply agree_ret|].
  eapply agree_bind; [apply Hf, list_elem_of_here|]. intros [y|] Hy; [by apply agree_ret|].
  apply IH. intros z Hz. by apply Hf, list_elem_of_further.
Qed.

Lemma agree_filter_map l :
  (forall x, x ∈ l -> agree (f1 x) (f2 x) (opt Q)) -> agree (a_filter_map f1 l) (a_filter_map f2 l) (Forall Q).
Proof.
  induction l as [|x l IH]; intros Hf; cbn; [by apply agree_ret|].
  eapply agree_bind; [apply Hf, list_elem_of_here|]. intros r Hr.
  eapply agree_bind; [apply IH; intros z Hz; by apply Hf, list_elem_of_further|].
  intros ys Hys. apply agree_ret. destruct r; [by constructor|done].
Qed.

Lemma agree_next_two l :
  (forall x, x ∈ l -> agree (f1 x) (f2 x) (opt Q)) ->
  agree (a_next_two f1 l) (a_next_two f2 l) (fun r => opt Q r.1 /\ opt Q r.2).
Proof.
  induction l as [|x l IH]; intros Hf; cbn; [by apply agree_ret|].
  eapply agree_bind; [apply Hf, list_elem_of_here|].
  assert (forall z, z ∈ l -> agree (f1 z) (f2 z) (opt Q)) as Hl by (intros z Hz; by apply Hf, list_elem_of_further).
  intros [y|] Hy; [|by apply IH]. eapply agree_bind; [by apply agree_find_map|]. intros z Hz. by apply agree_ret.
Qed.
End Lists.

(** Methods that only read tokens and types are the same on both sides. *)
Definition runs {X} (m : A X) : Prop := agree m m (fun _ => True).

Lemma agree_any {X} (m : A (option X)) : runs m -> agree m m (opt (fun _ => True)).
Proof. intros Hm. eapply agree_mono; [exact Hm|]. by intros []. Qed.

Lemma ident_after_runs n keyword : runs (ident_after n keyword).
Proof.
  unfold ident_after. destruct (ident_after_loop _ _ _); [by apply agree_ret|].
  eapply agree_bind; [apply agree_diagnose|]. intros. by apply agree_ret.
Qed.

Lemma lower_type_path_runs n : runs (lower_type_path n).
Proof.
  apply (tree_ind (fun n => runs (lower_type_path n))). clear n. intros [kind span children] Hb.
  assert (forall e, e ∈ children ->
    agree (on_kind is_type lower_type_path e) (on_kind is_type lower_type_path e) (opt (fun _ => True))) as Hc.
  { intros [c|t] Hin; cbn; [|by apply agree_ret]. destruct (is_type c); [|by apply agree_ret].
    apply agree_any. exact (proj1 (below_child _ _ c Hb Hin)). }
  destruct kind; try (by apply agree_ret); cbn.
  - destruct (ident_lexemes children); [eapply agree_bind; [apply agree_diagnose|]; intros; by apply agree_ret|].
    eapply agree_bind; [by apply agree_filter_map|]. intros. by apply agree_ret.
  - apply agree_mono with (Q := opt (fun _ => True)); [|done].
    eapply agree_try; [by apply agree_find_map|]. intros. apply agree_ret. by destruct (TP_Array _ <$> _).
Qed.

Lemma first_type_path_runs n : runs (first_type_path n).
Proof.
  unfold first_type_path. apply agree_mono with (Q := opt (fun _ => True)); [apply agree_find_map|done].
  intros [c|t] _; cbn; [|by apply agree_ret]. destruct (is_type c); [|by apply agree_ret].
  apply agree_any, lower_type_path_runs.
Qed.

Lemma lower_match_pattern_runs n : runs (lower_match_pattern n).
Proof.
  apply (tree_ind (fun n => runs (lower_match_pattern n))). clear n. intros [kind span children] Hb. cbn.
  eapply agree_bind; [apply agree_filter_map with (Q := fun _ => True)|].
  { intros [c|t] Hin; cbn; [|by apply agree_ret]. destruct (is_kind N_MatchPattern c); [|by apply agree_ret].
    apply agree_any. exact (proj1 (below_child _ _ c Hb Hin)). }
  intros [|p [|]] _; [|by apply agree_ret..].
  eapply agree_bind; [apply agree_find_map with (Q := fun _ => True)|intros; by apply agree_ret].
  intros [c|t] _; cbn; [|by apply agree_ret]. destruct (is_kind N_TypePath c); [|by apply agree_ret].
  apply agree_any, lower_type_path_runs.
Qed.

(** ** The methods *)

Section Methods.
Context `{Platform} (embedded1 embedded2 : string -> AstOutcome AstFile).
Context (expr1 expr2 : Node -> A (option Expr)) (body1 body2 : Node -> A Body).

Definition both (c : Node) : Prop :=
  agree (expr1 c) (expr2 c) (opt plain) /\ agree (body1 c) (body2 c) plain_b.

Section Children.
Context {Y : Type} (f1 f2 : Node -> A (option Y)) (Q : Y -> Prop) (n : Node) (Hn : below both n).
Hypothesis (Hf : forall c, both c -> below both c -> agree (f1 c) (f2 c) (opt Q)).

Lemma agree_on_kind p e : e ∈ node_children n -> agree (on_kind p f1 e) (on_kind p f2 e) (opt Q).
Proof using Hn Hf.
  intros Hin. destruct e as [c|t]; cbn; [|by apply agree_ret].
  destruct (below_child _ _ _ Hn Hin) as [Hb Hbelow]. destruct (p c); [by apply Hf|by apply agree_ret].
Qed.

Lemma agree_on_node e : e ∈ node_children n -> agree (on_node f1 e) (on_node f2 e) (opt Q).
Proof using Hn Hf. apply (agree_on_kind (fun _ => true)). Qed.
End Children.

Hypothesis (embedded_same : forall n ds, exists o,
  lower_string_node embedded1 n ds = A_Ok o ds /\ lower_string_node embedded2 n ds = A_Ok o ds /\ opt plain o).

Ltac agree_step :=
  lazymatch goal with
  | |- agree (a_ret _) (a_ret _) _ => apply agree_ret
  | |- agree (a_find_map _ _) (a_find_map _ _) _ => eapply agree_find_map
  | |- agree (a_filter_map _ _) (a_filter_map _ _) _ => eapply agree_filter_map
  | |- agree (a_next_two _ _) (a_next_two _ _) _ => eapply agree_next_two
  | |- forall e, e ∈ node_children _ -> agree (on_kind _ _ _) _ _ => intros ? ?; eapply agree_on_kind; eauto
  | |- forall e, e ∈ node_children _ -> agree (on_node _ _) _ _ => intros ? ?; eapply agree_on_node; eauto
  end.

Section Node.
Context (n : Node) (Hn : below both n).

Lemma expr_child_agree : agree (expr_child expr1 n) (expr_child expr2 n) (opt plain).
Proof using Hn. unfold expr_child. repeat agree_step. by intros c []. Qed.

Lemma expr_child_of_agree p : agree (expr_child_of expr1 p n) (expr_child_of expr2 p n) (opt plain).
Proof using Hn. unfold expr_child_of. repeat agree_step. by intros c []. Qed.

Lemma some_body_agree c : both c -> agree (some_body body1 c) (some_body body2 c) (opt plain_b).
Proof using. intros [_ Hb]. eapply agree_bind; [exact Hb|]. intros b Hp. by apply agree_ret. Qed.

Lemma body_child_agree : agree (body_child body1 n) (body_child body2 n) (opt plain_b).
Proof using Hn. unfold body_child. repeat agree_step. intros c Hc _. by apply some_body_agree. Qed.

Lemma exprs_of_agree : agree (exprs_of expr1 n) (exprs_of expr2 n) (Forall plain).
Proof using Hn. unfold exprs_of. repeat agree_step. by intros c []. Qed.
End Node.

Lemma arg_list_agree n : below both n -> agree (arg_list expr1 n) (arg_list expr2 n) (opt (Forall plain)).
Proof using.
  intros Hn. unfold arg_list. repeat agree_step. intros c _ Hc.
  eapply agree_bind; [by apply exprs_of_agree|]. intros args Hargs. by apply agree_ret.
Qed.

Lemma all_plain {X} (p : X -> bool) l : Forall (fun x => p x = true) l -> forallb p l = true.
Proof using. induction 1 as [|x l Hx _ IH]; [done|]. cbn. by rewrite Hx. Qed.

(** What [agree] leaves: the result is plain when its parts are. *)
Ltac finish_plain :=
  repeat match goal with
    | H : plain_expr _ = true |- _ => rewrite H
    | H : plain_body _ = true |- _ => rewrite H
    | H : Forall _ _ |- _ => apply all_plain in H; rewrite H
    end.

Ltac agree_ret := apply agree_ret; cbn -[plain_expr] in *; try (cbn; by finish_plain).

Section Methods2.
Context (n : Node) (Hn : below both n).

Lemma lower_call_expr_agree : agree (lower_call_expr expr1 n) (lower_call_expr expr2 n) (opt plain).
Proof using Hn.
  unfold lower_call_expr. eapply agree_try.
  { apply agree_bind with (Q := opt (opt plain)); [|intros [r|] Hr; by apply agree_ret].
    repeat agree_step. intros c [Hc _] _. eapply agree_bind; [exact Hc|]. intros r Hr. by apply agree_ret. }
  intros callee Hcallee. destruct (call_target callee) as [[name receiver]|] eqn:Et; [|by apply agree_ret].
  eapply agree_bind; [by apply arg_list_agree|]. intros args Hargs. apply agree_ret. cbn.
  assert (forallb plain_expr receiver = true) as Hr.
  { destruct callee; try done; cbn in Et; [by injection Et as <- <-| |by injection Et as <- <-].
    destruct (match callee with AE_Name _ _ => _ | _ => _ end); injection Et as <- <-; [done|].
    cbn in *. by rewrite Hcallee. }
  rewrite forallb_app, Hr. destruct args; [by apply all_plain|done].
Qed.

Lemma lower_field_expr_agree : agree (lower_field_expr expr1 n) (lower_field_expr expr2 n) (opt plain).
Proof using Hn.
  eapply agree_try; [by apply expr_child_agree|]. intros base Hb. apply agree_ret.
  by destruct (first_ident n).
Qed.

Lemma array_elements_agree es after_semicolon repeat_len :
  (forall c, Element_Node c ∈ es -> both c) ->
  agree (array_elements expr1 after_semicolon repeat_len es) (array_elements expr2 after_semicolon repeat_len es)
    (fun r => Forall plain r.1).
Proof using.
  revert after_semicolon repeat_len. induction es as [|[c|t] es IH]; intros after_semicolon repeat_len Hes; cbn.
  - by apply agree_ret.
  - assert (forall c, Element_Node c ∈ es -> both c) as Hrest by (intros; by apply Hes, list_elem_of_further).
    destruct after_semicolon; [by apply IH|]. eapply agree_bind; [apply Hes, list_elem_of_here|].
    intros r Hr. eapply agree_bind; [by apply IH|]. intros rest Hrest'. apply agree_ret.
    destruct r; [by constructor|done].
  - assert (forall c, Element_Node c ∈ es -> both c) as Hrest by (intros; by apply Hes, list_elem_of_further).
    destruct (is_token T_Semicolon t); by apply IH.
Qed.

Lemma both_children c : Element_Node c ∈ node_children n -> both c.
Proof using Hn. intros Hin. apply (below_child _ _ _ Hn Hin). Qed.

Lemma lower_array_expr_agree : agree (lower_array_expr expr1 n) (lower_array_expr expr2 n) plain.
Proof using Hn.
  eapply agree_bind; [apply array_elements_agree, both_children|]. intros r Hr. agree_ret.
Qed.

Lemma two_exprs_agree :
  agree (a_next_two (on_node expr1) (node_children n)) (a_next_two (on_node expr2) (node_children n))
    (fun r => opt plain r.1 /\ opt plain r.2).
Proof using Hn. repeat agree_step. by intros c []. Qed.

Lemma lower_index_expr_agree : agree (lower_index_expr expr1 n) (lower_index_expr expr2 n) (opt plain).
Proof using Hn.
  eapply agree_bind; [apply two_exprs_agree|]. intros [[l|] [r|]] [Hl Hr]; agree_ret.
Qed.

Lemma lower_binary_expr_agree : agree (lower_binary_expr expr1 n) (lower_binary_expr expr2 n) (opt plain).
Proof using Hn.
  eapply agree_bind; [apply two_exprs_agree|]. intros [[l|] [r|]] [Hl Hr]; [|agree_ret..].
  apply agree_ret. destruct (find_op binary_op n); [|done]. cbn in *. by finish_plain.
Qed.

Lemma lower_perform_expr_agree : agree (lower_perform_expr expr1 n) (lower_perform_expr expr2 n) (opt plain).
Proof using Hn.
  unfold lower_perform_expr. eapply agree_bind with (Q := fun _ => True).
  { eapply agree_mono with (Q := opt (fun _ => True)); [|done]. apply agree_find_map. intros e _.
    destruct e as [c|t]; cbn; [|by apply agree_ret]. destruct (is_kind N_TypePath c); [|by apply agree_ret].
    eapply agree_bind; [apply lower_type_path_runs|]. intros. by apply agree_ret. }
  intros callee _. destruct (default None callee); [|by apply agree_ret].
  eapply agree_try; [by apply arg_list_agree|]. intros args Hargs. agree_ret.
Qed.

Lemma lower_unary_expr_agree : agree (lower_unary_expr expr1 n) (lower_unary_expr expr2 n) (opt plain).
Proof using Hn.
  eapply agree_try; [by apply expr_child_agree|]. intros inner Hi. apply agree_ret.
  by destruct (find_op unary_op n).
Qed.

Lemma lower_group_expr_agree : agree (lower_group_expr expr1 n) (lower_group_expr expr2 n) (opt plain).
Proof using Hn. eapply agree_try; [by apply expr_child_agree|]. intros inner Hi. agree_ret. Qed.

Lemma lower_if_expr_agree : agree (lower_if_expr expr1 body1 n) (lower_if_expr expr2 body2 n) (opt plain).
Proof using Hn.
  eapply agree_try; [by apply expr_child_of_agree|]. intros condition Hc.
  eapply agree_bind.
  { repeat agree_step. intros c Hb _. by apply some_body_agree. }
  intros [[t|] [e|]] [Ht He]; agree_ret.
Qed.

Lemma lower_repeat_expr_agree : agree (lower_repeat_expr expr1 body1 n) (lower_repeat_expr expr2 body2 n) (opt plain).
Proof using Hn.
  eapply agree_try; [by apply expr_child_of_agree|]. intros count Hc.
  eapply agree_try; [by apply body_child_agree|]. intros body Hb. agree_ret.
Qed.

Lemma lower_while_expr_agree : agree (lower_while_expr expr1 body1 n) (lower_while_expr expr2 body2 n) (opt plain).
Proof using Hn.
  eapply agree_try; [by apply expr_child_of_agree|]. intros condition Hc.
  eapply agree_try; [by apply body_child_agree|]. intros body Hb. agree_ret.
Qed.

Lemma lower_comptime_expr_agree : agree (lower_comptime_expr body1 n) (lower_comptime_expr body2 n) (opt plain).
Proof using Hn. eapply agree_try; [by apply body_child_agree|]. intros body Hb. agree_ret. Qed.

Lemma desugar_for_plain binding start end_ body span :
  plain_expr start = true -> plain_expr end_ = true -> plain_body body = true ->
  plain_expr (desugar_for binding start end_ body span) = true.
Proof using. intros Hs He Hb. destruct body as [statements tail body_span]. cbn in *.
  apply andb_true_iff in Hb as [H1 H2]. by rewrite Hs, He, H1, H2.
Qed.

Lemma lower_for_expr_agree : agree (lower_for_expr expr1 body1 n) (lower_for_expr expr2 body2 n) plain.
Proof using Hn.
  unfold lower_for_expr. eapply agree_bind; [repeat agree_step; by intros c []|]. intros bounds Hbounds.
  eapply agree_bind; [by apply body_child_agree|]. intros body Hbody. apply agree_ret.
  destruct bounds as [[s|] [e|]], body as [b|]; try done. destruct Hbounds. by apply desugar_for_plain.
Qed.
End Methods2.

(** *** Nodes with nodes of their own *)

Abbreviation plain_f := (fun f => plain_init f = true).

Lemma lower_field_init_agree n :
  below both n -> agree (lower_field_init expr1 n) (lower_field_init expr2 n) (opt plain_f).
Proof using.
  intros Hn. unfold lower_field_init. destruct (first_ident n); [|by apply agree_ret].
  eapply agree_bind; [by apply expr_child_agree|]. intros [e|] He; by apply agree_ret.
Qed.

Lemma lower_field_update_agree n :
  below both n -> agree (lower_field_update expr1 n) (lower_field_update expr2 n) (opt plain_f).
Proof using.
  intros Hn. unfold lower_field_update. destruct (first_ident n); [|by apply agree_ret].
  eapply agree_try; [by apply expr_child_agree|]. intros e He. by apply agree_ret.
Qed.

Lemma field_list_agree list_kind kind f1 f2 n :
  (forall c, below both c -> agree (f1 c) (f2 c) (opt plain_f)) -> below both n ->
  agree (field_list list_kind kind f1 n) (field_list list_kind kind f2 n) (Forall plain_f).
Proof using.
  intros Hf Hn. unfold field_list, option_default. apply agree_bind with (Q := opt (Forall plain_f)).
  - repeat agree_step. intros c _ Hc. apply agree_bind with (Q := Forall plain_f); [|intros fs Hfs; by apply agree_ret].
    by repeat agree_step.
  - intros [fs|] Hfs; by apply agree_ret.
Qed.

Lemma lower_record_expr_agree n :
  below both n -> agree (lower_record_expr expr1 n) (lower_record_expr expr2 n) (opt plain).
Proof using.
  intros Hn. unfold lower_record_expr. destruct (first_ident n); [|by apply agree_ret].
  eapply agree_bind; [apply field_list_agree; [apply lower_field_init_agree|done]|].
  intros fields Hfs. agree_ret.
Qed.

Lemma lower_record_update_expr_agree n :
  below both n -> agree (lower_record_update_expr expr1 n) (lower_record_update_expr expr2 n) (opt plain).
Proof using.
  intros Hn. eapply agree_try; [by apply expr_child_of_agree|]. intros base Hb.
  eapply agree_bind; [apply field_list_agree; [apply lower_field_update_agree|done]|].
  intros fields Hfs. agree_ret.
Qed.

Abbreviation plain_m := (fun a => plain_arm a = true).

Lemma lower_match_arm_agree n : below both n -> agree (lower_match_arm body1 n) (lower_match_arm body2 n) (opt plain_m).
Proof using.
  intros Hn. unfold lower_match_arm. eapply agree_try with (Q := fun _ => True).
  { apply agree_find_map. intros [c|t] _; cbn; [|by apply agree_ret].
    destruct (is_kind N_MatchPattern c); [|by apply agree_ret]. apply agree_any, lower_match_pattern_runs. }
  intros pattern _. eapply agree_try; [by apply body_child_agree|]. intros body Hb. by apply agree_ret.
Qed.

Lemma lower_match_expr_agree n :
  below both n -> agree (lower_match_expr expr1 body1 n) (lower_match_expr expr2 body2 n) (opt plain).
Proof using.
  intros Hn. eapply agree_try; [by apply expr_child_of_agree|]. intros scrutinee Hs.
  apply agree_bind with (Q := Forall plain_m).
  - repeat agree_step. intros c _ Hc. by apply lower_match_arm_agree.
  - intros arms Ha. agree_ret.
Qed.

Abbreviation plain_h := (fun a => plain_handle_arm a = true).

Lemma lower_handle_expr_agree n :
  below both n -> agree (lower_handle_expr body1 n) (lower_handle_expr body2 n) (opt plain).
Proof using.
  intros Hn. eapply agree_try; [by apply body_child_agree|]. intros body Hb.
  apply agree_bind with (Q := Forall plain_h).
  - repeat agree_step. intros c _ Hc. unfold lower_handle_arm. destruct (first_ident c); [|by apply agree_ret].
    eapply agree_try; [by apply body_child_agree|]. intros b Hb'. by apply agree_ret.
  - intros arms Ha. agree_ret.
Qed.

Lemma string_node_agree n : agree (lower_string_node embedded1 n) (lower_string_node embedded2 n) (opt plain).
Proof using embedded_same. intros ds. destruct (embedded_same n ds) as (o & H1 & H2 & Ho). by exists o, ds. Qed.

Lemma leaves_plain n :
  opt plain (lower_integer_expr n) /\ opt plain (lower_float_expr n) /\ opt plain (lower_bool_expr n) /\
  opt plain (lower_name_expr n) /\ opt plain (lower_contract_result_expr n).
Proof using.
  unfold lower_integer_expr, lower_float_expr, lower_bool_expr, lower_name_expr, lower_contract_result_expr.
  repeat split.
  - destruct (first_token n T_Integer); [cbn|done]. by destruct (parse_i64 _).
  - destruct (first_token n T_Float); [cbn|done]. by destruct (f64_parse _).
  - by destruct (find_token _ n).
  - by destruct (first_token n T_Ident).
  - by destruct (first_token n T_Ident).
Qed.

Lemma lower_expr_with_agree n :
  below both n -> agree (lower_expr_with embedded1 expr1 body1 n) (lower_expr_with embedded2 expr2 body2 n) (opt plain).
Proof using embedded_same.
  intros Hn. destruct (leaves_plain n) as (Hi & Hf & Hb & Hm & Hr). unfold lower_expr_with.
  destruct (node_kind n);
    try (eapply agree_bind; [apply agree_diagnose|]; intros; by apply agree_ret);
    first
      [ by apply agree_ret | apply string_node_agree | by apply lower_call_expr_agree
      | eapply agree_bind; [by apply lower_array_expr_agree|]; intros; by apply agree_ret
      | by apply lower_field_expr_agree | by apply lower_index_expr_agree | by apply lower_if_expr_agree
      | by apply lower_match_expr_agree | by apply lower_repeat_expr_agree
      | eapply agree_bind; [by apply lower_for_expr_agree|]; intros; by apply agree_ret
      | by apply lower_while_expr_agree | by apply lower_record_expr_agree | by apply lower_record_update_expr_agree
      | by apply lower_unary_expr_agree | by apply lower_binary_expr_agree | by apply lower_group_expr_agree
      | by apply lower_comptime_expr_agree | by apply lower_perform_expr_agree | by apply lower_handle_expr_agree ].
Qed.

(** *** Statements *)

Abbreviation plain_s := (fun s => plain_stmt s = true).

Lemma destructure_loop_agree es found value :
  (forall c, Element_Node c ∈ es -> both c) -> opt plain value ->
  agree (destructure_loop expr1 found value es) (destructure_loop expr2 found value es) (fun r => opt plain r.2).
Proof using.
  revert found value. induction es as [|[c|t] es IH]; intros found value Hes Hv; cbn; [by apply agree_ret|..].
  all: assert (forall c, Element_Node c ∈ es -> both c) as Hrest by (intros; by apply Hes, list_elem_of_further).
  - destruct (_ && _); [|by apply IH]. eapply agree_bind; [apply Hes, list_elem_of_here|]. intros r Hr. by apply IH.
  - destruct (is_token T_LParen t); [by apply IH|]. eapply agree_bind; [by apply IH|]. intros r Hr.
    apply agree_ret. by destruct (_ && _).
Qed.

Lemma assign_loop_agree es target value op :
  (forall c, Element_Node c ∈ es -> both c) -> opt plain target -> opt plain value ->
  agree (assign_loop expr1 target value op es) (assign_loop expr2 target value op es)
    (fun r => opt plain r.1.1 /\ opt plain r.1.2).
Proof using.
  revert target value op. induction es as [|[c|t] es IH]; intros target value op Hes Ht Hv; cbn; [by apply agree_ret|..].
  all: assert (forall c, Element_Node c ∈ es -> both c) as Hrest by (intros; by apply Hes, list_elem_of_further).
  - pose proof (proj1 (Hes c (list_elem_of_here _ _))) as Hc.
    destruct target; [destruct value; [by apply IH|]|];
      (eapply agree_bind; [exact Hc|]; intros r Hr; by apply IH).
  - by apply IH.
Qed.

Section Statements.
Context (n : Node) (Hn : below both n).

Lemma lower_let_destructure_agree :
  agree (lower_let_destructure expr1 n) (lower_let_destructure expr2 n) (Forall plain_s).
Proof using Hn.
  eapply agree_bind; [apply destructure_loop_agree; [by apply both_children|done]|].
  intros [names [value|]] Hv; apply agree_ret; [|done]. cbn in *.
  apply Forall_forall. intros s Hs. apply elem_of_lookup_imap in Hs as (i & name & -> & _). done.
Qed.

Lemma lower_let_binding_agree : agree (lower_let_binding expr1 n) (lower_let_binding expr2 n) (opt plain_s).
Proof using Hn.
  unfold lower_let_binding. destruct (first_ident n); [|destruct (has_token _ n); [|by apply agree_ret]];
    (eapply agree_try; [by apply expr_child_agree|]; intros e He; by apply agree_ret).
Qed.

Lemma lower_assign_stmt_agree : agree (lower_assign_stmt expr1 n) (lower_assign_stmt expr2 n) (opt plain_s).
Proof using Hn.
  eapply agree_bind; [apply assign_loop_agree; [by apply both_children|done..]|].
  intros [[[target|] [value|]] op] [Ht Hv]; apply agree_ret; try done. cbn in *.
  rewrite Ht. destruct (compound_assign_op op); cbn; by rewrite ?Ht, Hv.
Qed.

Lemma lower_expr_stmt_agree : agree (lower_expr_stmt expr1 n) (lower_expr_stmt expr2 n) (opt plain_s).
Proof using Hn. eapply agree_try; [by apply expr_child_agree|]. intros e He. by apply agree_ret. Qed.

Lemma lower_with_arena_stmt_agree :
  agree (lower_with_arena_stmt body1 n) (lower_with_arena_stmt body2 n) (opt plain_s).
Proof using Hn.
  eapply agree_try; [repeat agree_step; intros c Hc _; by apply some_body_agree|].
  intros b Hb. by apply agree_ret.
Qed.

(** The two lists of statements, if the node is one *)
Lemma lower_statement_agree :
  match lower_statement expr1 body1 n, lower_statement expr2 body2 n with
  | Some m1, Some m2 => agree m1 m2 (Forall plain_s)
  | None, None => True
  | _, _ => False
  end.
Proof using Hn.
  assert (forall m1 m2 : A (option Stmt), agree m1 m2 (opt plain_s) ->
    agree (let^ r := m1 in a_ret (match r with Some s => [s] | None => [] end))
          (let^ r := m2 in a_ret (match r with Some s => [s] | None => [] end)) (Forall plain_s)) as Hone.
  { intros m1 m2 Hm. eapply agree_bind; [exact Hm|]. intros [s|] Hs; apply agree_ret; by repeat constructor. }
  unfold lower_statement. destruct (node_kind n); try done.
  - destruct (let_is_destructure n); [apply lower_let_destructure_agree|apply Hone, lower_let_binding_agree].
  - apply Hone, lower_assign_stmt_agree.
  - apply Hone, lower_expr_stmt_agree.
  - apply Hone, lower_with_arena_stmt_agree.
Qed.
End Statements.

Lemma body_loop_agree es tail :
  (forall c, Element_Node c ∈ es -> both c /\ below both c) -> opt plain tail ->
  agree (body_loop expr1 body1 tail es) (body_loop expr2 body2 tail es)
    (fun r => Forall plain_s r.1 /\ opt plain r.2).
Proof using.
  revert tail. induction es as [|[c|t] es IH]; intros tail Hes Ht; cbn; [by apply agree_ret|..].
  all: assert (forall c, Element_Node c ∈ es -> both c /\ below both c) as Hrest
    by (intros; by apply Hes, list_elem_of_further).
  - destruct (Hes c (list_elem_of_here _ _)) as [[Hc _] Hb]. pose proof (lower_statement_agree c Hb) as Hs.
    destruct (lower_statement expr1 body1 c) as [m1|], (lower_statement expr2 body2 c) as [m2|]; try done.
    + eapply agree_bind; [exact Hs|]. intros ss Hss. eapply agree_bind; [by apply IH|].
      intros r [Hr1 Hr2]. apply agree_ret. split; [by apply Forall_app|done].
    + destruct tail; [by apply IH|]. eapply agree_bind; [exact Hc|]. intros e He. by apply IH.
  - by apply IH.
Qed.

Lemma lower_body_with_agree n :
  below both n -> agree (lower_body_with expr1 body1 n) (lower_body_with expr2 body2 n) plain_b.
Proof using.
  intros Hn. eapply agree_bind; [apply body_loop_agree; [|done]|].
  - intros c Hc. by apply (below_child _ _ _ Hn).
  - intros [ss [e|]] [Hs He]; apply agree_ret; cbn in *; by rewrite (all_plain _ _ Hs).
Qed.
End Methods.

(** ** Files *)

Definition plain_item (item : Item) : bool :=
  let opt_plain o := match o with Some e => plain_expr e | None => true end in
  match item with
  | AI_Const c => plain_expr (const_value c)
  | AI_Function f =>
      opt_plain (fn_requires f) && opt_plain (fn_ensures f)
      && match fn_body f with Some b => plain_body b | None => true end
  | AI_Enum e => forallb (fun v => opt_plain (variant_discriminant v)) (variants e)
  | _ => true
  end.

Lemma opt_true {X} (p : X -> bool) o :
  opt (fun x => p x = true) o -> match o with Some x => p x | None => true end = true.
Proof. by destruct o. Qed.

Section Files.
Context `{Platform} (embedded1 embedded2 : string -> AstOutcome AstFile).
Hypothesis (embedded_same : forall n ds, exists o,
  lower_string_node embedded1 n ds = A_Ok o ds /\ lower_string_node embedded2 n ds = A_Ok o ds /\ opt plain o).

Abbreviation both := (both (lower_expr embedded1) (lower_expr embedded2) (lower_body embedded1) (lower_body embedded2)).

Lemma lower_node_agree n : both n /\ below both n.
Proof using embedded_same.
  apply tree_ind. clear n. intros [kind span children] Hb. split.
  - exact (lower_expr_with_agree embedded1 embedded2 _ _ _ _ embedded_same _ Hb).
  - exact (lower_body_with_agree _ _ _ _ _ Hb).
Qed.

Lemma members_runs {X} list_kind kind (f : Node -> A (option X)) n :
  (forall c, runs (f c)) -> runs (members list_kind kind f n).
Proof using.
  intros Hf. unfold members, option_default. apply agree_bind with (Q := opt (fun _ => True)); [|intros; by apply agree_ret].
  apply agree_find_map. intros [c|t] _; cbn; [|by apply agree_ret]. destruct (is_kind list_kind c); [|by apply agree_ret].
  eapply agree_bind; [apply agree_filter_map with (Q := fun _ => True)|intros; by apply agree_ret].
  intros [d|t] _; cbn; [|by apply agree_ret]. destruct (is_kind kind d); [|by apply agree_ret]. by apply agree_any.
Qed.

Lemma named_type_runs {X} (make : string -> TypePath -> X) n :
  runs (match first_ident n with
        | None => a_ret None
        | Some name => let? ty := first_type_path n in a_ret (Some (make name ty))
        end).
Proof using.
  destruct (first_ident n); [|by apply agree_ret]. eapply agree_bind; [apply first_type_path_runs|].
  intros [ty|] _; by apply agree_ret.
Qed.

Lemma lower_params_runs n : runs (lower_params n).
Proof using. apply members_runs. intros c. apply (named_type_runs (fun name ty => mkParam name ty (node_span c))). Qed.

Lemma lower_return_type_runs n : runs (lower_return_type n).
Proof using.
  apply agree_mono with (Q := opt (fun _ => True)); [|done]. apply agree_find_map. intros [c|t] _; cbn; [|by apply agree_ret].
  destruct (is_kind N_ReturnType c); [|by apply agree_ret]. apply agree_any, first_type_path_runs.
Qed.

(** A signature: name, parameters, result *)
Lemma signature_runs {X} keyword (make : string -> list Param -> option TypePath -> X) n :
  runs (let? name := ident_after n keyword in
        let^ params := lower_params n in
        let^ return_type := lower_return_type n in
        a_ret (Some (make name params return_type))).
Proof using.
  eapply agree_bind; [apply ident_after_runs|]. intros [name|] _; [|by apply agree_ret].
  eapply agree_bind; [apply lower_params_runs|]. intros params _.
  eapply agree_bind; [apply lower_return_type_runs|]. intros ty _. by apply agree_ret.
Qed.

Lemma on_kind_runs {X} p (f : Node -> A (option X)) es :
  (forall c, runs (f c)) -> runs (a_filter_map (on_kind p f) es).
Proof using.
  intros Hf. apply agree_mono with (Q := Forall (fun _ => True)); [|done]. apply agree_filter_map.
  intros [c|t] _; cbn; [|by apply agree_ret]. destruct (p c); [by apply agree_any|by apply agree_ret].
Qed.

Lemma lower_effect_item_runs n : runs (lower_effect_item n).
Proof using.
  eapply agree_bind; [apply ident_after_runs|]. intros [name|] _; [|by apply agree_ret].
  eapply agree_bind; [apply on_kind_runs|intros; by apply agree_ret].
  intros c. apply (signature_runs T_KwFn (fun name params ty => mkEffectMethod name params ty (node_span c))).
Qed.

Lemma lower_extern_block_runs n : runs (lower_extern_block n).
Proof using.
  eapply agree_bind; [apply on_kind_runs|intros; by apply agree_ret].
  intros c. apply (signature_runs T_KwFn (fun name params ty => mkExternFunction name params ty (node_span c))).
Qed.

Lemma lower_import_runs n : runs (lower_import n).
Proof using. eapply agree_bind; [apply ident_after_runs|]. intros [name|] _; by apply agree_ret. Qed.

Lemma lower_struct_runs n : runs (lower_struct n).
Proof using.
  eapply agree_bind; [apply ident_after_runs|]. intros [name|] _; [|by apply agree_ret].
  eapply agree_bind; [apply members_runs|intros; by apply agree_ret].
  intros c. apply (named_type_runs (fun name ty => mkField name ty (node_span c))).
Qed.

Abbreviation good := (fun item => plain_item item = true).

Lemma lower_const_agree n :
  agree (lower_const embedded1 n) (lower_const embedded2 n) (opt (fun c => plain_expr (const_value c) = true)).
Proof using embedded_same.
  eapply agree_bind; [apply ident_after_runs|]. intros [name|] _; [|by apply agree_ret].
  eapply agree_bind; [apply first_type_path_runs|]. intros [ty|] _; [|by apply agree_ret].
  eapply agree_try; [apply (expr_child_of_agree _ _ _ _ n (proj2 (lower_node_agree n)))|].
  intros value Hv. by apply agree_ret.
Qed.

Lemma clause_agree kind n :
  agree (a_find_map (on_kind (is_kind kind) (lower_clause_expr embedded1)) (node_children n))
        (a_find_map (on_kind (is_kind kind) (lower_clause_expr embedded2)) (node_children n)) (opt plain).
Proof using embedded_same.
  apply agree_find_map. intros [c|t] _; cbn; [|by apply agree_ret]. destruct (is_kind kind c); [|by apply agree_ret].
  apply (expr_child_agree _ _ _ _ c (proj2 (lower_node_agree c))).
Qed.

Lemma lower_function_agree n :
  agree (lower_function embedded1 n) (lower_function embedded2 n) (opt (fun f => plain_item (AI_Function f) = true)).
Proof using embedded_same.
  eapply agree_bind; [apply ident_after_runs|]. intros [name|] _; [|by apply agree_ret].
  eapply agree_bind; [apply members_runs; intros c; by apply agree_ret|]. intros type_params _.
  eapply agree_bind; [apply lower_params_runs|]. intros params _.
  eapply agree_bind; [apply lower_return_type_runs|]. intros ty _.
  eapply agree_bind; [apply clause_agree|]. intros requires Hr.
  eapply agree_bind; [apply clause_agree|]. intros ensures He.
  eapply agree_bind; [apply (body_child_agree _ _ _ _ n (proj2 (lower_node_agree n)))|]. intros body Hb.
  apply agree_ret. cbn. by rewrite (opt_true _ _ Hr), (opt_true _ _ He), (opt_true _ _ Hb).
Qed.

Lemma variant_loop_agree es name payload discriminant after_eq :
  opt plain discriminant ->
  agree (variant_loop embedded1 name payload discriminant after_eq es)
        (variant_loop embedded2 name payload discriminant after_eq es)
        (opt (fun v => opt plain (variant_discriminant v))).
Proof using embedded_same.
  revert name payload discriminant after_eq.
  induction es as [|[c|t] es IH]; intros name payload discriminant after_eq Hd; cbn.
  - apply agree_ret. by destruct name as [[]|].
  - destruct (_ && _); [eapply agree_bind; [apply lower_type_path_runs|]; intros; by apply IH|].
    destruct (_ && _); [|by apply IH].
    eapply agree_bind; [apply (proj1 (proj1 (lower_node_agree c)))|]. intros r Hr. by apply IH.
  - destruct (_ && _); by apply IH.
Qed.

Lemma lower_enum_agree n :
  agree (lower_enum embedded1 n) (lower_enum embedded2 n) (opt (fun e => plain_item (AI_Enum e) = true)).
Proof using embedded_same.
  eapply agree_bind; [apply ident_after_runs|]. intros [name|] _; [|by apply agree_ret].
  apply agree_bind with (Q := Forall (fun v => opt plain (variant_discriminant v))).
  - unfold members, option_default.
    apply agree_bind with (Q := opt (Forall (fun v => opt plain (variant_discriminant v)))).
    + apply agree_find_map. intros [c|t] _; cbn; [|by apply agree_ret]. destruct (is_kind _ c); [|by apply agree_ret].
      eapply agree_bind; [apply agree_filter_map|intros vs Hvs; by apply agree_ret].
      intros [d|t] _; cbn; [|by apply agree_ret]. destruct (is_kind _ d); [|by apply agree_ret].
      by apply variant_loop_agree.
    + intros [vs|] Hvs; by apply agree_ret.
  - intros vs Hvs. apply agree_ret. cbn. apply all_plain. eapply Forall_impl; [exact Hvs|]. intros v. apply opt_true.
Qed.

Lemma lower_item_agree n : agree (lower_item embedded1 n) (lower_item embedded2 n) (opt good).
Proof using embedded_same.
  assert (forall X (make : X -> Item) m1 m2 Q, agree m1 m2 (opt Q) -> (forall x, Q x -> plain_item (make x) = true) ->
    agree (let^ r := m1 in a_ret (make <$> r)) (let^ r := m2 in a_ret (make <$> r)) (opt good)) as Hitem.
  { intros X make m1 m2 Q Hm HQ. eapply agree_bind; [exact Hm|]. intros [x|] Hx; apply agree_ret; [by apply HQ|done]. }
  unfold lower_item. destruct (node_kind n); try (by apply agree_ret).
  - eapply Hitem; [apply lower_const_agree|done].
  - eapply Hitem; [apply lower_function_agree|done].
  - eapply Hitem; [apply lower_enum_agree|done].
  - eapply Hitem; [apply agree_any, lower_struct_runs|done].
  - eapply Hitem; [apply agree_any, lower_effect_item_runs|done].
  - eapply agree_bind; [apply lower_extern_block_runs|]. intros. by apply agree_ret.
  - eapply Hitem; [apply agree_any, lower_import_runs|done].
Qed.

Lemma lower_tree_agree root : exists file ds,
  lower_tree embedded1 root = A_Ok file ds /\ lower_tree embedded2 root = A_Ok file ds /\ Forall good file.
Proof using embedded_same.
  apply (agree_filter_map (on_node (lower_item embedded1)) (on_node (lower_item embedded2))).
  intros [c|t] _; cbn; [apply lower_item_agree|by apply agree_ret].
Qed.
End Files.

(** ** Text between braces *)

(** What text between braces is lowered to ends without a function that has a tail. *)
Definition quiet (embedded : string -> AstOutcome AstFile) : Prop :=
  forall s, exists file ds, embedded ("let _x = " ++ s ++ "; _x")%string = A_Ok file ds /\ embedded_tail file = None.

Lemma has_expr_app l1 l2 : has_expr (l1 ++ l2) = has_expr l1 || has_expr l2.
Proof. apply existsb_app. Qed.

Lemma embedded_text_shorter depth l : length (embedded_text depth l).2 <= length l.
Proof.
  revert depth. induction l as [|c l IH]; intros depth; [done|]. cbn.
  destruct (_ =? 123); [cbn; specialize (IH (S depth)); lia|].
  destruct (_ =? 125); [|cbn; specialize (IH depth); lia].
  destruct depth as [|[|depth]]; cbn; [lia..|]. specialize (IH (S depth)). lia.
Qed.

Lemma template_loop_quiet embedded fuel l buf segments :
  quiet embedded -> length l <= fuel -> has_expr segments = false ->
  exists segments', template_loop embedded fuel l buf segments = A_Ok segments' [] /\ has_expr segments' = false.
Proof.
  intros Hq. revert l buf segments. induction fuel as [|fuel IH]; intros l buf segments Hl Hs.
  { destruct l; [|cbn in Hl; lia]. eexists. split; [done|]. rewrite has_expr_app, Hs. by destruct buf. }
  destruct l as [|c l]; cbn [template_loop].
  { eexists. split; [done|]. rewrite has_expr_app, Hs. by destruct buf. }
  cbn in Hl. destruct (_ =? 92); [destruct l; apply IH; cbn in *; (lia || done)|].
  destruct (_ =? 123); [|apply IH; (lia || done)].
  destruct (match l with d :: _ => _ | [] => _ end); [apply IH; [destruct l; cbn in *; lia|done]|].
  destruct (Hq (text (embedded_text 1 l).1)) as (file & ds & -> & ->).
  apply IH; [pose proof (embedded_text_shorter 1 l); lia|].
  rewrite !has_expr_app, Hs. by destruct buf.
Qed.

Lemma string_node_quiet `{Platform} embedded n ds :
  quiet embedded ->
  lower_string_node embedded n ds =
    A_Ok ((fun r => AE_String r.1.1 r.1.2 r.2) <$> lower_string_expr n) ds.
Proof.
  intros Hq. unfold lower_string_node. destruct (lower_string_expr n) as [[[literal value] span]|]; [|done].
  destruct (has_interpolation _); [|done].
  destruct (template_loop_quiet embedded (length (bytes (unquote literal))) (bytes (unquote literal)) [] [] Hq) as (segs & Hr & He); [done..|].
  unfold lower_template_expr. by rewrite Hr, He.
Qed.

Lemma quiet_same `{Platform} embedded1 embedded2 :
  quiet embedded1 -> quiet embedded2 ->
  forall n ds, exists o, lower_string_node embedded1 n ds = A_Ok o ds /\
    lower_string_node embedded2 n ds = A_Ok o ds /\ opt plain o.
Proof.
  intros H1 H2 n ds. rewrite !string_node_quiet by done. eexists. split; [done|]. split; [done|].
  by destruct (lower_string_expr n).
Qed.

(** ** Sources that start with [let] *)

(** What the theorems need of the scanner besides [LogosLaws]: text that starts
    with [let _x = ] starts with the keyword. *)
Class LetLaw (next : LogosNext) : Prop :=
  logos_let s : next ("let _x = " ++ s)%string 0 = Some (Some R_KwLet, 0, 3).

#[export] Instance pattern_let : LetLaw pattern_next.
Proof. intros s. vm_compute. reflexivity. Qed.

(** Lexing only adds tokens. *)
Lemma lex_loop_tokens next source fuel s out cache :
  lex_loop next source fuel s = Lexed out cache -> exists ts, tokens out = tokens (output s) ++ ts.
Proof.
  revert s. induction fuel as [|fuel IH]; intros s; [done|]. cbn.
  destruct (lex_step next source s) as [s'| |] eqn:Hs; [|by intros [= <- _]; eexists|done].
  intros Hl. apply IH in Hl as [ts ->].
  enough (exists ts', tokens (output s') = tokens (output s) ++ ts') as [ts' ->] by (eexists; by rewrite <- app_assoc).
  unfold lex_step in Hs. destruct (next _ _) as [[[r a] b]|]; [|done].
  destruct (_ && _).
  - unfold skip_byte in Hs. destruct (bytes source !! _); [|done]. destruct (str_slice _ _ _); [|done].
    injection Hs as <-. exists []. cbn. by rewrite app_nil_r.
  - unfold take_token in Hs. destruct (str_slice _ _ _); [|done]. destruct r as [k|].
    + destruct (decide _); [destruct (intern_ident _ _)|]; injection Hs as <-; by eexists.
    + injection Hs as <-. by eexists.
Qed.

Lemma lex_let next `{!LogosLaws next} `{!LetLaw next} s fuel :
  let source := ("let _x = " ++ s)%string in
  String.length source < fuel ->
  exists out cache t ts, lex next source fuel ∅ = Lexed out cache /\ wf_tokens (tokens out) /\
    tokens out = t :: ts /\ tok_kind t = T_KwLet.
Proof.
  intros source Hf. destruct (lex_terminates next source fuel ∅ cache_empty Hf) as (out & cache & Hl & Hwf & _).
  exists out, cache. rewrite Hl. destruct fuel as [|fuel]; [lia|].
  unfold lex in Hl. cbn [lex_loop] in Hl. unfold lex_step in Hl. cbn [lexer_source lex_start lexer_end] in Hl.
  rewrite (logos_let s) in Hl. cbn [bool_decide andb] in Hl. unfold take_token in Hl.
  destruct (str_slice source _ _); [|done]. cbn in Hl.
  apply lex_loop_tokens in Hl as [ts Hts]. cbn in Hts. by eexists _, ts.
Qed.

Lemma parse_let t ts fuel :
  wf_tokens (t :: ts) -> tok_kind t = T_KwLet -> 0 < fuel ->
  exists output, parse fuel (t :: ts) = Parsed output /\
    forall c, Element_Node c ∉ node_children (root output).
Proof.
  intros Hwf Hk Hf. destruct fuel as [|fuel]; [lia|].
  destruct t as [kind lexeme span]. cbn in Hk. subst kind.
  destruct ts as [|u ts].
  { destruct (wf_last _ Hwf) as (eof & [= <-] & Heof & _). done. }
  assert (forall es, Forall (fun e => match e with Element_Token _ => True | _ => False end) es ->
    forall c, Element_Node c ∉ es) as Htokens.
  { intros es Hes c Hin. by apply (proj1 (Forall_forall _ _) Hes) in Hin. }
  unfold parse, parse_source_file, parse_items. cbn. unfold kind_is. destruct (TokenKind_beq (tok_kind u) T_Eof).
  - unfold push_bump, bump, bind. cbn. destruct (length ts); (eexists; split; [done|]);
      apply Htokens; cbn; by repeat constructor.
  - eexists. split; [done|]. apply Htokens; cbn; by repeat constructor.
Qed.

Section Quiet.
Context `{Platform} (next : LogosNext) `{!LogosLaws next} `{!LetLaw next} (extra : nat).

(** A text that starts with [let] is lowered to a file without items. *)
Lemma let_source_empty depth s :
  lower_source next extra (S depth) ("let _x = " ++ s)%string = A_Ok [] [].
Proof using Type*.
  destruct (lex_let next s (S (String.length ("let _x = " ++ s)%string))) as (out & cache & t & ts & Hl & Hwf & Ht & Hk); [lia|].
  cbn [lower_source]. unfold source_tree. rewrite Hl, Ht. rewrite Ht in Hwf.
  destruct (parse_let t ts (extra + 2 * length (t :: ts)) Hwf Hk) as (output & -> & Hc); [cbn; lia|].
  unfold lower_tree, lower_file. induction (node_children (root output)) as [|[c|u] es IH]; cbn; [done|..].
  - destruct (Hc c). apply list_elem_of_here.
  - unfold a_bind. rewrite IH; [done|]. intros c Hin. by apply (Hc c), list_elem_of_further.
Qed.

Lemma source_quiet depth : quiet (lower_source next extra (S depth)).
Proof using Type*. intros s. exists [], []. by rewrite let_source_empty. Qed.
End Quiet.

(** ** The database of sources *)

Section Coherence.
Context `{Platform} (next : LogosNext) (extra depth : nat).

Abbreviation direct := (lower_source next extra (S depth)).

(** What is cached is what the source gives. *)
Record coherent (db : Database) : Prop := {
  coherent_next : (0 <= next_id db)%Z;
  coherent_ids id : is_Some (sources db !! id) -> (0 <= id < next_id db)%Z;
  coherent_lex id out : lex_cache db !! id = Some out ->
    exists p source cache, sources db !! id = Some (p, source) /\
      lex next source (S (String.length source)) ∅ = Lexed out cache;
  coherent_parse id output : parse_cache db !! id = Some output ->
    exists p source ds, sources db !! id = Some (p, source) /\ source_tree next extra source = A_Ok (root output) ds;
  coherent_ast id file ds : ast_cache db !! id = Some (file, ds) ->
    exists p source, sources db !! id = Some (p, source) /\ direct source = A_Ok file ds;
  coherent_hir id module : hir_cache db !! id = Some module ->
    exists p source file ds, sources db !! id = Some (p, source) /\ direct source = A_Ok file ds /\
      module = lower_module file
}.

(** The same sources, and the caches still say what they give *)
Definition keeps_sources (db db' : Database) : Prop :=
  coherent db' /\ sources db' = sources db /\ next_id db' = next_id db.

Lemma new_coherent : coherent Database_new.
Proof. split; [done|intros; cbn in *; (simplify_map_eq || destruct H0; by simplify_map_eq)..]. Qed.

Lemma add_source_coherent checks p source db id db' :
  coherent db -> (next_id db + 1 < 2 ^ 32)%Z ->
  add_source checks p source db = Some (id, db') ->
  coherent db' /\ id = next_id db /\ next_id db' = (next_id db + 1)%Z /\ sources db' !! id = Some (p, source).
Proof.
  intros [Hge Hids Hl Hp Ha Hh] Hlt. unfold add_source. destruct (_ && _)%bool; [done|]. intros [= <- <-]. cbn.
  rewrite Z.mod_small by lia. split; [|by simplify_map_eq].
  assert (forall i q s, sources db !! i = Some (q, s) -> <[next_id db := (p, source)]> (sources db) !! i = Some (q, s)) as Hold.
  { intros i q s Hi. rewrite lookup_insert_ne; [done|]. intros <-. specialize (Hids _ (mk_is_Some _ _ Hi)). lia. }
  split; cbn; [lia|intros i..].
  - intros Hi. destruct (decide (i = next_id db)) as [->|Hne]; [lia|]. rewrite lookup_insert_ne in Hi by done.
    specialize (Hids i Hi). lia.
  - intros out Ho. destruct (Hl i out Ho) as (q & s & c & Hs & Hr). exists q, s, c. auto.
  - intros output Ho. destruct (Hp i output Ho) as (q & s & c & Hs & Hr). exists q, s, c. auto.
  - intros file ds Ho. destruct (Ha i file ds Ho) as (q & s & Hs & Hr). exists q, s. auto.
  - intros module Ho. destruct (Hh i module Ho) as (q & s & f & ds & Hs & Hr). exists q, s, f, ds. auto.
Qed.

Section Query.
Context (id : Z) (p source : string).

Lemma db_lex_ok db :
  coherent db -> sources db !! id = Some (p, source) ->
  match lex next source (S (String.length source)) ∅ with
  | Lexed out _ => exists db', db_lex next id db = Db_Ok out db' /\ keeps_sources db db'
  | LexRunning => db_lex next id db = Db_Running
  | LexPanicked => db_lex next id db = Db_Panicked
  end.
Proof.
  intros Hc Hs. unfold db_lex. destruct (lex_cache db !! id) as [out|] eqn:Ho.
  - destruct (coherent_lex _ Hc _ _ Ho) as (q & s & c & Hs' & Hl).
    rewrite Hs in Hs'. injection Hs' as <- <-. rewrite Hl. by exists db.
  - rewrite Hs. destruct (lex _ _ _ _) as [out c| |] eqn:Hl; [|done..]. eexists. split; [done|]. split; [|done].
    destruct Hc. split; cbn; [done..| |done|done|done]. intros i o. destruct (decide (i = id)) as [->|Hne].
    + rewrite lookup_insert_eq. intros [= <-]. by eexists _, _, _.
    + rewrite lookup_insert_ne by done. auto.
Qed.
Lemma db_parse_ok db :
  coherent db -> sources db !! id = Some (p, source) ->
  match source_tree next extra source with
  | A_Ok tree _ => exists output db', db_parse next extra id db = Db_Ok output db' /\ root output = tree /\
      keeps_sources db db'
  | A_Running => db_parse next extra id db = Db_Running
  | A_Panicked => db_parse next extra id db = Db_Panicked
  end.
Proof.
  intros Hc Hs. unfold db_parse. destruct (parse_cache db !! id) as [output|] eqn:Ho.
  - destruct (coherent_parse _ Hc _ _ Ho) as (q & s & ds & Hs' & Hl).
    rewrite Hs in Hs'. injection Hs' as <- <-. rewrite Hl. by exists output, db.
  - pose proof (db_lex_ok db Hc Hs) as Hlex. pose proof (eq_refl (source_tree next extra source)) as Ht.
    unfold source_tree at 2 in Ht. unfold source_tree.
    destruct (lex _ _ _ _) as [out c| |]; [|by rewrite Hlex..]. destruct Hlex as (db1 & -> & Hc1 & Hs1 & Hn1). cbn.
    destruct (parse _ _) as [output| |]; [|done..]. eexists _, _. split; [done|]. split; [done|]. split; [|done].
    rewrite <- Hs1 in Hs. destruct Hc1. split; cbn; [done..| |done|done]. intros i o. destruct (decide (i = id)) as [->|Hne].
    + rewrite lookup_insert_eq. intros [= <-]. by eexists _, _, _.
    + rewrite lookup_insert_ne by done. auto.
Qed.

Lemma db_ast_ok db :
  coherent db -> sources db !! id = Some (p, source) ->
  match direct source with
  | A_Ok file ds => exists db', db_ast next extra depth id db = Db_Ok (file, ds) db' /\ keeps_sources db db'
  | A_Running => db_ast next extra depth id db = Db_Running
  | A_Panicked => db_ast next extra depth id db = Db_Panicked
  end.
Proof.
  intros Hc Hs. unfold db_ast. destruct (ast_cache db !! id) as [[file ds]|] eqn:Ho.
  - destruct (coherent_ast _ Hc _ _ _ Ho) as (q & s & Hs' & Hl).
    rewrite Hs in Hs'. injection Hs' as <- <-. rewrite Hl. by exists db.
  - pose proof (db_parse_ok db Hc Hs) as Hp. cbn [lower_source]. pose proof (eq_refl (direct source)) as Ht.
    cbn [lower_source] in Ht.
    destruct (source_tree _ _ _) as [tree ds| |] eqn:Et; [|by rewrite Hp..]. destruct Hp as (output & db1 & -> & <- & Hc1 & Hs1 & Hn1).
    cbn. destruct (lower_tree _ _) as [file ds'| |] eqn:El; [|done..]. eexists. split; [done|]. split; [|done].
    rewrite <- Hs1 in Hs. destruct Hc1. split; cbn; [done..| |done]. intros i f d. destruct (decide (i = id)) as [->|Hne].
    + rewrite lookup_insert_eq. intros [= <- <-]. exists p, source. split; [done|]. by rewrite Et.
    + rewrite lookup_insert_ne by done. auto.
Qed.

Lemma db_hir_ok db :
  coherent db -> sources db !! id = Some (p, source) ->
  match direct source with
  | A_Ok file _ => exists db', db_hir next extra depth id db = Db_Ok (lower_module file) db' /\ keeps_sources db db'
  | A_Running => db_hir next extra depth id db = Db_Running
  | A_Panicked => db_hir next extra depth id db = Db_Panicked
  end.
Proof.
  intros Hc Hs. unfold db_hir. destruct (hir_cache db !! id) as [module|] eqn:Ho.
  - destruct (coherent_hir _ Hc _ _ Ho) as (q & s & file & ds & Hs' & Hl & ->).
    rewrite Hs in Hs'. injection Hs' as <- <-. rewrite Hl. by exists db.
  - pose proof (db_ast_ok db Hc Hs) as Hp. destruct (direct source) as [file ds| |] eqn:Et; [|by rewrite Hp..].
    destruct Hp as (db1 & -> & Hc1 & Hs1 & Hn1). cbn. eexists. split; [done|]. split; [|done].
    rewrite <- Hs1 in Hs. destruct Hc1. split; cbn; [done..|]. intros i m. destruct (decide (i = id)) as [->|Hne].
    + rewrite lookup_insert_eq. intros [= <-]. by exists p, source, file, ds.
    + rewrite lookup_insert_ne by done. auto.
Qed.
End Query.

(** A source that is not there is a panic. *)
Lemma unknown_source db id :
  coherent db -> sources db !! id = None ->
  db_lex next id db = Db_Panicked /\ db_parse next extra id db = Db_Panicked /\
  db_ast next extra depth id db = Db_Panicked /\ db_hir next extra depth id db = Db_Panicked.
Proof.
  intros Hc Hn. assert (db_lex next id db = Db_Panicked) as Hl.
  { unfold db_lex. destruct (lex_cache db !! id) eqn:E; [|by rewrite Hn].
    destruct (coherent_lex _ Hc _ _ E) as (?&?&?&Hs&_). congruence. }
  assert (db_parse next extra id db = Db_Panicked) as Hp.
  { unfold db_parse. rewrite Hl. destruct (parse_cache db !! id) eqn:E; [|done].
    destruct (coherent_parse _ Hc _ _ E) as (?&?&?&Hs&_). congruence. }
  assert (db_ast next extra depth id db = Db_Panicked) as Ha.
  { unfold db_ast. rewrite Hp. destruct (ast_cache db !! id) as [[]|] eqn:E; [|done].
    destruct (coherent_ast _ Hc _ _ _ E) as (?&?&Hs&_). congruence. }
  split; [done|]. split; [done|]. split; [done|]. unfold db_hir. rewrite Ha. destruct (hir_cache db !! id) eqn:E; [|done].
  destruct (coherent_hir _ Hc _ _ E) as (?&?&?&?&Hs&_). congruence.
Qed.

(** What is asked of a database, one thing after another *)
Inductive asked : Database -> Prop :=
  | asked_new : asked Database_new
  | asked_add checks p source id db db' :
      asked db -> (next_id db + 1 < 2 ^ 32)%Z -> add_source checks p source db = Some (id, db') -> asked db'
  | asked_import checks name p source id db db' :
      asked db -> (next_id db + 1 < 2 ^ 32)%Z -> add_import_source checks name p source db = Some (id, db') -> asked db'
  | asked_lex id db out db' : asked db -> db_lex next id db = Db_Ok out db' -> asked db'
  | asked_parse id db output db' : asked db -> db_parse next extra id db = Db_Ok output db' -> asked db'
  | asked_ast id db ast db' : asked db -> db_ast next extra depth id db = Db_Ok ast db' -> asked db'
  | asked_hir id db module db' : asked db -> db_hir next extra depth id db = Db_Ok module db' -> asked db'.

Lemma asked_coherent db : asked db -> coherent db.
Proof.
  assert (forall id db, coherent db -> sources db !! id = None \/ exists p source, sources db !! id = Some (p, source)) as Hs.
  { intros id d _. destruct (sources d !! id) as [[p s]|]; [right; by eexists _, _|by left]. }
  induction 1 as [|checks p source id db db' _ IH Hn Ha|checks name p source id db db' _ IH Hn Ha
    |id db out db' _ IH Hq|id db out db' _ IH Hq|id db out db' _ IH Hq|id db out db' _ IH Hq].
  - apply new_coherent.
  - by eapply add_source_coherent in Ha as [? _].
  - unfold add_import_source in Ha. destruct (add_source _ _ _ _) as [[i d]|] eqn:E; [|done]. injection Ha as <- <-.
    eapply add_source_coherent in E as [[] _]; [by split|done..].
  - destruct (Hs id db IH) as [Hn|(p & source & Hp)].
    { rewrite (proj1 (unknown_source _ _ IH Hn)) in Hq. done. }
    pose proof (db_lex_ok id p source db IH Hp) as Hl. rewrite Hq in Hl.
    destruct (lex _ _ _ _); [|done..]. destruct Hl as (d & [= <- <-] & [? _]). done.
  - destruct (Hs id db IH) as [Hn|(p & source & Hp)].
    { rewrite (proj1 (proj2 (unknown_source _ _ IH Hn))) in Hq. done. }
    pose proof (db_parse_ok id p source db IH Hp) as Hl. rewrite Hq in Hl.
    destruct (source_tree _ _ _); [|done..]. destruct Hl as (o & d & [= <- <-] & _ & [? _]). done.
  - destruct (Hs id db IH) as [Hn|(p & source & Hp)].
    { rewrite (proj1 (proj2 (proj2 (unknown_source _ _ IH Hn)))) in Hq. done. }
    pose proof (db_ast_ok id p source db IH Hp) as Hl. rewrite Hq in Hl.
    destruct (lower_source _ _ _ _); [|done..]. destruct Hl as (d & [= -> <-] & [? _]). done.
  - destruct (Hs id db IH) as [Hn|(p & source & Hp)].
    { rewrite (proj2 (proj2 (proj2 (unknown_source _ _ IH Hn)))) in Hq. done. }
    pose proof (db_hir_ok id p source db IH Hp) as Hl. rewrite Hq in Hl.
    destruct (lower_source _ _ _ _); [|done..]. destruct Hl as (d & [= -> <-] & [? _]). done.
Qed.
End Coherence.

(** C21: The caches of the database cannot be seen: whatever has been added and
    asked before, asking for the HIR of a source gives what lexing, parsing and
    lowering its text gives, keeps the sources, and leaves caches of which the
    same holds. *)
Theorem queries_coherent `{Platform} next extra depth db id p source :
  asked next extra depth db -> sources db !! id = Some (p, source) ->
  match lower_source next extra (S depth) source with
  | A_Ok file _ => exists db', db_hir next extra depth id db = Db_Ok (lower_module file) db' /\
      asked next extra depth db' /\ sources db' = sources db
  | A_Running => db_hir next extra depth id db = Db_Running
  | A_Panicked => db_hir next extra depth id db = Db_Panicked
  end.
Proof.
  intros Ha Hs. pose proof (db_hir_ok next extra depth id p source db (asked_coherent _ _ _ _ Ha) Hs) as Hq.
  destruct (lower_source _ _ _ _) as [file ds| |]; [|done..]. destruct Hq as (db' & Hq & _ & Hsame & _).
  exists db'. split; [done|]. split; [by eapply asked_hir|done].
Qed.

(** ** The properties *)

(** Text between the braces of a string is never lowered as an expression *)
Definition without_interpolation : string -> AstOutcome AstFile := fun _ => A_Ok [] [].

Lemma plain_tree `{Platform} next `{!LogosLaws next} `{!LetLaw next} extra depth root :
  exists file ds, lower_tree (lower_source next extra (S depth)) root = A_Ok file ds /\
    lower_tree without_interpolation root = A_Ok file ds /\ Forall (fun item => plain_item item = true) file.
Proof.
  apply lower_tree_agree. apply quiet_same; [by apply source_quiet|]. intros s. by exists [], [].
Qed.

(** C20: Lowering any tree to the AST ends, without a panic, and no string keeps an
    embedded expression: the file is the one that a lowerer gives which does not
    look between braces, and it has no template anywhere.  The text between
    braces is parsed as a file, where [let] starts no item. *)
Theorem interpolation_is_text `{Platform} next `{!LogosLaws next} `{!LetLaw next} extra depth root :
  exists file ds, lower_tree (lower_source next extra (S depth)) root = A_Ok file ds /\
    lower_tree without_interpolation root = A_Ok file ds /\ Forall (fun item => plain_item item = true) file.
Proof. by apply plain_tree. Qed.

(** A source without [handle] has one file, whatever the bounds. *)
Lemma source_ends `{Platform} next `{!LogosLaws next} `{!LetLaw next} source out cache :
  lex next source (S (String.length source)) ∅ = Lexed out cache -> handle_free (tokens out) = true ->
  exists file ds, forall extra depth, 2 <= depth -> lower_source next extra depth source = A_Ok file ds.
Proof.
  intros Hl Hh.
  destruct (lex_terminates next source (S (String.length source)) ∅ cache_empty (le_n _)) as (out' & cache' & Hl' & Hwf & _).
  rewrite Hl in Hl'. injection Hl' as <- <-.
  destruct (parse_ends _ Hwf Hh) as [output Ho].
  destruct (lower_tree_agree without_interpolation without_interpolation) with (root := root output) as (file & ds & Hf & _).
  { apply quiet_same; intros s; by exists [], []. }
  exists file, ds. intros extra [|[|depth]] Hd; [lia..|]. cbn [lower_source]. unfold source_tree at 1.
  rewrite Hl, Ho by lia.
  destruct (plain_tree next extra depth (root output)) as (file' & ds' & H1 & H2 & _).
  cbn [lower_source] in H1. rewrite H1. congruence.
Qed.

(** C19: The front end ends on every source without [handle]: lexing, parsing and
    lowering give one file, whatever is allowed beyond two rounds of the parser a
    token, and however deep strings may be embedded. *)
Theorem front_end_ends `{Platform} next `{!LogosLaws next} `{!LetLaw next} source out cache :
  lex next source (S (String.length source)) ∅ = Lexed out cache -> handle_free (tokens out) = true ->
  exists file ds, forall extra depth, 2 <= depth -> lower_source next extra depth source = A_Ok file ds.
Proof. by apply source_ends. Qed.

(** ** What the front end gets wrong *)

(** The AST of a source, printed *)
Definition printed (source : string) : option string :=
  match lower_source pattern_next 0 2 source with A_Ok file _ => Some (file_pretty file) | _ => None end.

Definition line (s : string) : string := (s ++ newline)%string.

(** The HIR of a source, printed, and what resolution reports of it *)
Definition resolved_hir (levenshtein : string -> string -> nat) (source : string) : option (string * list Diagnostic) :=
  match lower_source pattern_next 0 2 source with
  | A_Ok file _ =>
      Some (module_pretty (lower_module file), (resolve_module levenshtein (lower_module file) ∅).2)
  | _ => None
  end.

(** Meaning lost on the way to the HIR, without a diagnostic: an
    integer out of range vanishes from a list of arguments; a range with spaces
    is the pattern of its first bound; a constant that performs an effect is
    dropped; the start of a [for] is evaluated again in every round, so that
    assigning to it in the body moves the rounds; braces in a string stay text;
    printing [x *= 1 + 2] gives a statement that means something else; and a
    function named [read] is declared and never called, since its calls become
    effects of the system. *)
Theorem front_end_misreads levenshtein :
  printed "fn f() -> I32 { g(99999999999999999999, 1) }" = Some (line "fn f() -> I32 { g(1) }") /\
  printed "fn f(a: I32) -> I32 { match a { 1 .. 5 => { 1 }, _ => { 2 } } }"
    = Some (line "fn f(a: I32) -> I32 { match a { 1 => { 1 }, _ => { 2 } } }") /\
  printed "fn f(a: I32) -> I32 { match a { 1..5 => { 1 }, _ => { 2 } } }"
    = Some (line "fn f(a: I32) -> I32 { match a { 1..5 => { 1 }, _ => { 2 } } }") /\
  printed "const X: I32 = perform Foo.bar(1); fn f() { 0 }" = Some (line "fn f() { 0 }") /\
  printed "fn f() { let mut s = 0; for i in s..3 { s = s + 1; }; s }"
    = Some (line ("fn f() { let mut s = 0; if s < 3 { repeat __i_idx in 3 - s { let i = s + __i_idx; s = s + 1; } } "
                  ++ "else { repeat __i_idx in s - 3 { let i = s - __i_idx; s = s + 1; } }; s }")) /\
  printed ("fn f(name: Text) -> Text { " ++ quote ++ "hello {name}" ++ quote ++ " }")
    = Some (line ("fn f(name: Text) -> Text { " ++ quote ++ "hello {name}" ++ quote ++ " }")) /\
  printed "fn f() -> I32 { let mut x = 5; x *= 1 + 2; x }"
    = Some (line "fn f() -> I32 { let mut x = 5; x = x * 1 + 2; x }") /\
  resolved_hir levenshtein "fn read() -> I32 { 7 } fn main() -> I32 { read() }"
    = Some ((line "HIR" ++ line "  fn read() -> I32 effects [] = 7"
             ++ line "  fn main() -> I32 effects [] = perform SystemIO.stdin_text")%string, []).
Proof. vm_compute. repeat split. Qed.

(** ** Samples *)

Definition greeting : string :=
  "fn greet(name: Text) -> Text { " ++ quote ++ "hello {name} and {1 + 2}" ++ quote ++ " }".

Definition greeting_tree : Node :=
  match source_tree pattern_next 0 greeting with A_Ok tree _ => tree | _ => Node_empty N_SourceFile 0 end.

Lemma interpolation_is_text_witness :
  exists file ds, lower_tree (lower_source pattern_next 0 1) greeting_tree = A_Ok file ds /\
    lower_tree without_interpolation greeting_tree = A_Ok file ds /\ Forall (fun item => plain_item item = true) file.
Proof. exact (interpolation_is_text pattern_next 0 0 greeting_tree). Defined.

Definition greeting_tokens : LexOutput :=
  match lex pattern_next greeting (S (String.length greeting)) ∅ with Lexed out _ => out | _ => mkLexOutput [] [] end.

Definition greeting_cache : gmap string string :=
  match lex pattern_next greeting (S (String.length greeting)) ∅ with Lexed _ cache => cache | _ => ∅ end.

Lemma greeting_lexed :
  lex pattern_next greeting (S (String.length greeting)) ∅ = Lexed greeting_tokens greeting_cache.
Proof. vm_compute. reflexivity. Qed.

Lemma front_end_ends_witness :
  exists file ds, forall extra depth, 2 <= depth -> lower_source pattern_next extra depth greeting = A_Ok file ds.
Proof. exact (front_end_ends pattern_next greeting greeting_tokens greeting_cache greeting_lexed ltac:(vm_compute; reflexivity)). Defined.

(** One source, lexed, and another one *)
Definition one_source : Database := default Database_new (snd <$> add_source true "a.sarif" greeting Database_new).

Definition one_lexed : Database := match db_lex pattern_next 0 one_source with Db_Ok _ db => db | _ => Database_new end.

Definition two_sources : Database := default Database_new (snd <$> add_source true "b.sarif" "const N: I32 = 3;" one_lexed).

Lemma two_sources_asked : asked pattern_next 0 1 two_sources.
Proof.
  apply (asked_add pattern_next 0 1 true "b.sarif" "const N: I32 = 3;" 1 one_lexed two_sources); [|by vm_compute..].
  apply (asked_lex pattern_next 0 1 0 one_source greeting_tokens one_lexed); [|by vm_compute].
  apply (asked_add pattern_next 0 1 true "a.sarif" greeting 0 Database_new one_source); [apply asked_new|by vm_compute..].
Qed.

Lemma queries_coherent_witness :
  match lower_source pattern_next 0 2 greeting with
  | A_Ok file _ => exists db', db_hir pattern_next 0 1 0 two_sources = Db_Ok (lower_module file) db' /\
      asked pattern_next 0 1 db' /\ sources db' = sources two_sources
  | A_Running => db_hir pattern_next 0 1 0 two_sources = Db_Running
  | A_Panicked => db_hir pattern_next 0 1 0 two_sources = Db_Panicked
  end.
Proof.
  exact (queries_coherent pattern_next 0 1 two_sources 0 "a.sarif" greeting two_sources_asked ltac:(vm_compute; reflexivity)).
Defined.
