(* ===== verification/ConstEval.v ===== *)
(** * The compile-time evaluator

    [ConstEvaluator] of [crates/sarif_codegen/src/lib.rs], over an interface:
    what a [ConstEvaluator] and the [ConstEnv] it is handed do for a method is
    an operation of the class [ConstMonad], and the methods are computations of
    any monad that has them.  [ConstState.v] has the evaluator's own monad, with
    slots, stacks and a cache, [ConstLexical.v] one for lexical scope, with none
    of these.  The methods call each other through a [Knot]; [step] ties it once. *)
From stdpp Require Import gmap pretty.
From S2P Require Import Prelude Syntax Utf8 TextOps Float64 Mir Interp Exec Entry Hir SemType.

Open Scope nat_scope.

(** ** The interface *)

Inductive ConstAssignResult := Assigned | Immutable | Unknown.

(** What an assignment may write to: [a], [a.f], [a[i]] or [a[i].f], with [i] evaluated. *)
Inductive ConstTarget :=
  | T_Local (name : string)
  | T_Field (name field : string)
  | T_Index (name : string) (index : Z)
  | T_IndexField (name : string) (index : Z) (field : string).

Definition target_name (t : ConstTarget) : string :=
  match t with T_Local name | T_Field name _ | T_Index name _ | T_IndexField name _ _ => name end.

Class ConstMonad (M : Type -> Type) := {
  c_ret : forall {A}, A -> M A;
  c_bind : forall {A B}, M A -> (A -> M B) -> M B;
  (** [Err(ConstEvalError::new(span, message))] *)
  c_err : forall {A}, Span -> string -> M A;
  c_panic : forall {A}, M A;
  c_diagnose : Diagnostic -> M unit;
  (** [env.read], [env.bind_value], [env.bind_slot] of a fresh slot, and the
      assignments *)
  c_read : string -> M (option RuntimeValue);
  c_bind_value : string -> RuntimeValue -> M unit;
  c_bind_slot : string -> RuntimeValue -> M unit;
  c_assign : ConstTarget -> RuntimeValue -> M (Result ConstAssignResult string);
  (** in a scope inside [env], on a clone of [env], in a new environment, and in
      the new environment of a call *)
  c_nested : forall {A}, option (string * RuntimeValue) -> M A -> M A;
  c_cloned : forall {A}, M A -> M A;
  c_isolated : forall {A}, M A -> M A;
  c_frame : forall {A}, M A -> M A;
  (** [contract_result] *)
  c_result : M (option RuntimeValue);
  c_with_result : forall {A}, RuntimeValue -> M A -> M A;
  (** [values], [active_consts] and [active_functions] *)
  c_cached : string -> M (option RuntimeValue);
  c_const_active : string -> M bool;
  c_with_const : string -> M RuntimeValue -> M (option RuntimeValue);
  c_function_active : string -> M bool;
  c_with_function : forall {A}, string -> M A -> M A
}.

Declare Scope const_scope.
Delimit Scope const_scope with const.
Notation "'let*' x ':=' m 'in' k" := (c_bind m (fun x => k))
  (at level 10, x name, m at level 100, k at level 200) : const_scope.
Open Scope const_scope.

(** What the evaluator reads and never writes. *)
Record ConstProgram := mkConstProgram {
  cp_consts : gmap string Hir.Const;
  cp_functions : gmap string Hir.Function;
  cp_enum_variants : gmap string (list EnumVariantType);
  cp_struct_fields : gmap string (list string)
}.

(** ** Names of types *)

(** [ch.is_ascii_alphanumeric()], else [_]: of a longer character the first
    byte becomes the [_]. *)
Fixpoint sanitize (s : string) : string :=
  match s with
  | "" => ""
  | String a s' =>
      if byte_in 48 57 a || byte_in 65 90 a || byte_in 97 122 a then String a (sanitize s')
      else if is_continuation a then sanitize s' else String (Ascii.ascii_of_nat 95) (sanitize s')
  end%string.

Definition array_struct_name (element_ty : string) (len : nat) : string :=
  ("__Array_" ++ sanitize element_ty ++ "_" ++ pretty len)%string.

Fixpoint lower_type_name (ty : LowerType) : option string :=
  match ty with
  | LT_I32 => Some "I32"
  | LT_I64 => Some "I64"
  | LT_F64 => Some "F64"
  | LT_Bool => Some "Bool"
  | LT_Text => Some "Text"
  | LT_Bytes => Some "Bytes"
  | LT_TextIndex => Some "TextIndex"
  | LT_TextBuilder => Some "TextBuilder"
  | LT_List element => name ← lower_type_name element; Some ("List[" ++ name ++ "]")
  | LT_File => Some "File"
  | LT_Unit => Some "Unit"
  | LT_Named name => Some name
  | LT_Array element len => name ← lower_type_name element; Some (array_struct_name name len)
  | LT_Error => None
  end%string.

(** [synthetic_array_record_info(record)], the length *)
Definition synthetic_array_len (name : string) (fields : list (string * RuntimeValue)) : option nat :=
  match runtime_value_lower_type (V_Record name fields) with
  | LT_Array _ len => Some len
  | _ => None
  end.

(** ** Values *)

Inductive PatternMatch :=
  | NoMatch
  | Match (bound : option (string * RuntimeValue)).

(** A [ConstEvalError] *)
Definition ConstResult (A : Type) : Type := Result A (Span * string).

Section Values.
Context `{Platform}.

Definition const_err {A} (span : Span) (message : string) : ConstResult A := RunErr (span, message).

Definition expect_const_int (value : RuntimeValue) (span : Span) : ConstResult Z :=
  match value with
  | V_Int z => RunOk z
  | other => const_err span ("expected `I32` during compile-time evaluation, found " ++ render other)
  end.

Definition expect_const_bool (value : RuntimeValue) (span : Span) : ConstResult bool :=
  match value with
  | V_Bool b => RunOk b
  | other => const_err span ("expected `Bool` during compile-time evaluation, found " ++ render other)
  end.

Fixpoint match_pattern (scrutinee : RuntimeValue) (pattern : MatchPattern) (span : Span)
    : ConstResult PatternMatch :=
  let when (b : bool) := RunOk (if b then Match None else NoMatch) in
  match pattern with
  | P_Variant path binding _ =>
      match split_enum_variant_path (Hir.path path) with
      | None => const_err span ("invalid enum pattern `" ++ Hir.path path ++ "`")
      | Some (enum_name, variant_name) =>
          match scrutinee with
          | V_Enum name variant payload =>
              if negb (String.eqb name enum_name) || negb (String.eqb variant variant_name)
              then RunOk NoMatch
              else
                match binding, payload with
                | Some binding, Some payload => RunOk (Match (Some (binding, payload)))
                | Some _, None =>
                    const_err span ("pattern `" ++ Hir.path path ++ "` does not carry a payload")
                | None, _ => RunOk (Match None)
                end
          | _ => RunOk NoMatch
          end
      end
  | P_Integer value _ => when (value_eqb scrutinee (V_Int value))
  | P_String _ value _ => when (value_eqb scrutinee (V_Text value))
  | P_Bool value _ => when (value_eqb scrutinee (V_Bool value))
  | P_IntegerRange start end_ _ =>
      when match scrutinee with V_Int v => (start <=? v)%Z && (v <? end_)%Z | _ => false end
  | P_Or patterns _ =>
      (fix first (l : list MatchPattern) : ConstResult PatternMatch :=
         match l with
         | [] => RunOk NoMatch
         | p :: l' =>
             res_bind (match_pattern scrutinee p span)
               (fun m => match m with NoMatch => first l' | _ => RunOk m end)
         end) patterns
  | P_Wildcard _ => RunOk (Match None)
  end%string.

(** *** Lengths of arrays *)

(** [checked_add] and the like of [usize] *)
Definition checked_usize (z : Z) : option Z :=
  if (0 <=? z)%Z && (z <? 2 ^ 64)%Z then Some z else None.
End Values.

(** ** Operators *)

Section Operators.
Context `{Platform} (overflow_checks : bool).

(** A value, an error, or a panic *)
Inductive Operated := O_Value (value : RuntimeValue) | O_Err (span : Span) (message : string) | O_Panic.

Definition operated (r : ConstResult RuntimeValue) : Operated :=
  match r with RunOk v => O_Value v | RunErr (span, message) => O_Err span message end.

(** The result of an [i64] operation, which wraps when overflow is not checked *)
Definition const_checked (z : Z) : Operated :=
  if in_i64 z then O_Value (V_Int z)
  else if overflow_checks then O_Panic else O_Value (V_Int (wrap_signed 64 z)).

(** [l / r] and [l % r] panic when the quotient is out of range. *)
Definition const_quotient (l r z : Z) : Operated :=
  if in_i64 (Z.quot l r) then O_Value (V_Int z) else O_Panic.

Definition const_bitwise (op : Z -> Z -> Z) (left right : RuntimeValue) (left_span right_span : Span)
    : Operated :=
  operated (res_bind (expect_const_int left left_span) (fun l =>
            res_bind (expect_const_int right right_span) (fun r =>
            RunOk (V_Int (op (as_i32 l) (as_i32 r)))))).

(** [(r as u32) & 31] *)
Definition const_shift (op : Z -> Z -> Z) (left right : RuntimeValue) (left_span right_span : Span)
    : Operated :=
  operated (res_bind (expect_const_int right right_span) (fun r =>
            res_bind (expect_const_int left left_span) (fun l =>
            RunOk (V_Int (op (as_i32 l) (Z.land (r mod 2 ^ 32) 31)))))).

Definition const_compare (int_op : Z -> Z -> bool) (f64_op : f64 -> f64 -> bool)
    (left right : RuntimeValue) (span : Span) : Operated :=
  match left, right with
  | V_Int l, V_Int r => O_Value (V_Bool (int_op l r))
  | V_F64 l, V_F64 r => O_Value (V_Bool (f64_op l r))
  | _, _ => O_Err span "compile-time comparison operands must both be `I32` or both be `F64`"
  end.

Definition arithmetic_operands : string :=
  "compile-time arithmetic operands must both be `I32` or both be `F64`".

(** [eval_binary_expr] on the values of its operands *)
Definition const_binary (op : BinaryOp) (left right : RuntimeValue) (span left_span right_span : Span)
    : Operated :=
  match op with
  | B_Add =>
      match left, right with
      | V_Int l, V_Int r => const_checked (l + r)
      | V_F64 l, V_F64 r => O_Value (V_F64 (f64_add l r))
      | V_Text l, V_Text r => O_Value (V_Text (l ++ r))
      | _, _ => O_Err span (arithmetic_operands ++ ", or both be `Text` for concatenation")
      end
  | B_Sub =>
      match left, right with
      | V_Int l, V_Int r => const_checked (l - r)
      | V_F64 l, V_F64 r => O_Value (V_F64 (f64_sub l r))
      | _, _ => O_Err span arithmetic_operands
      end
  | B_Mul =>
      match left, right with
      | V_Int l, V_Int r => const_checked (l * r)
      | V_F64 l, V_F64 r => O_Value (V_F64 (f64_mul l r))
      | _, _ => O_Err span arithmetic_operands
      end
  | B_Div =>
      match left, right with
      | V_Int l, V_Int r =>
          if (r =? 0)%Z then O_Err span "division by zero" else const_quotient l r (Z.quot l r)
      | V_F64 l, V_F64 r =>
          if f64_eqb r (f64_of_Z 0) then O_Err span "division by zero" else O_Value (V_F64 (f64_div l r))
      | _, _ => O_Err span arithmetic_operands
      end
  | B_Rem =>
      match left, right with
      | V_Int l, V_Int r =>
          if (r =? 0)%Z then O_Err span "modulo by zero" else const_quotient l r (Z.rem l r)
      | V_F64 l, V_F64 r =>
          if f64_eqb r (f64_of_Z 0) then O_Err span "modulo by zero" else O_Value (V_F64 (f64_rem l r))
      | _, _ => O_Err span arithmetic_operands
      end
  | B_BitAnd => const_bitwise Z.land left right left_span right_span
  | B_BitOr => const_bitwise Z.lor left right left_span right_span
  | B_BitXor => const_bitwise Z.lxor left right left_span right_span
  | B_Shl => const_shift i32_shl left right left_span right_span
  | B_Shr => const_shift i32_shr left right left_span right_span
  | B_And =>
      operated (res_bind (expect_const_bool left left_span) (fun l : bool =>
                if l then res_bind (expect_const_bool right right_span) (fun r => RunOk (V_Bool r))
                else RunOk (V_Bool false)))
  | B_Or =>
      operated (res_bind (expect_const_bool left left_span) (fun l : bool =>
                if l then RunOk (V_Bool true)
                else res_bind (expect_const_bool right right_span) (fun r => RunOk (V_Bool r))))
  | B_Eq => O_Value (V_Bool (value_eqb left right))
  | B_Ne => O_Value (V_Bool (negb (value_eqb left right)))
  | B_Lt => const_compare Z.ltb f64_ltb left right span
  | B_Le => const_compare Z.leb f64_leb left right span
  | B_Gt => const_compare Z.gtb (fun l r => f64_ltb r l) left right span
  | B_Ge => const_compare Z.geb (fun l r => f64_leb r l) left right span
  end%string%Z.
End Operators.

(** ** Calls of builtins *)

Section Builtins.
Context `{Platform} (span : Span).

(** The number of arguments, the error for another number, and the value of the
    call.  Each is a builtin only where no function has its name. *)
Definition const_builtin (callee : string) : option (nat * string * (list RuntimeValue -> Operated)) :=
  if String.eqb callee "text_len" then
    Some (1, "text_len expects 1 argument", fun args =>
      match args with
      | [V_Text text] => O_Value (V_Int (Z.of_nat (length (bytes text))))
      | _ => O_Err span "text_len expects a Text"
      end)
  else if String.eqb callee "text_concat" then
    Some (2, "text_concat expects 2 arguments", fun args =>
      match args with
      | [V_Text l; V_Text r] => O_Value (V_Text (l ++ r))
      | _ => O_Err span "text_concat expects Text"
      end)
  else if String.eqb callee "text_slice" then
    Some (3, "text_slice expects 3 arguments", fun args =>
      match args with
      | [V_Text text; V_Int start; V_Int end_] =>
          match slice_text text start end_ with Some s => O_Value (V_Text s) | None => O_Panic end
      | V_Text _ :: _ => O_Err span "text_slice expects Int"
      | _ => O_Err span "text_slice expects Text"
      end)
  else if String.eqb callee "text_byte" then
    Some (2, "text_byte expects 2 arguments", fun args =>
      match args with
      | [V_Text text; V_Int index] =>
          O_Value (V_Int match get_at (bytes text) index with
                         | Some a => Z.of_nat (Ascii.nat_of_ascii a)
                         | None => 0
                         end)
      | V_Text _ :: _ => O_Err span "text_byte expects Int"
      | _ => O_Err span "text_byte expects Text"
      end)
  else if String.eqb callee "text_from_f64_fixed" then
    Some (2, "text_from_f64_fixed expects 2 arguments", fun args =>
      match args with
      | [V_F64 value; V_Int digits] => O_Value (V_Text (format_f64_fixed value digits))
      | V_F64 _ :: _ => O_Err span "text_from_f64_fixed expects Int"
      | _ => O_Err span "text_from_f64_fixed expects F64"
      end)
  else if String.eqb callee "sqrt" then
    Some (1, "sqrt expects 1 argument", fun args =>
      match args with
      | [V_F64 value] => O_Value (V_F64 (f64_sqrt value))
      | _ => O_Err span "sqrt expects F64"
      end)
  else if String.eqb callee "f64_from_i32" then
    Some (1, "f64_from_i32 expects 1 argument", fun args =>
      match args with
      | [V_Int value] => O_Value (V_F64 (f64_of_Z value))
      | _ => O_Err span "f64_from_i32 expects Int"
      end)
  else if String.eqb callee "i64_from_i32" then
    Some (1, "i64_from_i32 expects 1 argument", fun args =>
      match args with
      | [V_Int value] => O_Value (V_I64 value)
      | _ => O_Err span "i64_from_i32 expects Int"
      end)
  else if String.eqb callee "f64_from_i64" then
    Some (1, "f64_from_i64 expects 1 argument", fun args =>
      match args with
      | [V_I64 value] => O_Value (V_F64 (f64_of_Z value))
      | _ => O_Err span "f64_from_i64 expects I64"
      end)
  else if String.eqb callee "parse_i32" then
    Some (1, "parse_i32 expects 1 argument", fun args =>
      match args with
      | [V_Text text] =>
          match parse_i64 (trim (bytes text)) with
          | Some parsed => O_Value (V_Int parsed)
          | None => O_Err span "parse_i32 expects a base-10 integer"
          end
      | _ => O_Err span "parse_i32 expects Text"
      end)
  else None%string.
End Builtins.

(** ** The methods *)

(** [eval_expr_value], [eval_body], [eval_const] and [eval_function], as the
    methods call them *)
Record Knot (M : Type -> Type) := mkKnot {
  k_expr : Expr -> M RuntimeValue;
  k_body : Body -> M RuntimeValue;
  k_const : string -> M (option RuntimeValue);
  k_function : string -> list RuntimeValue -> Span -> M RuntimeValue
}.
Arguments mkKnot {M}.
Arguments k_expr {M}.
Arguments k_body {M}.
Arguments k_const {M}.
Arguments k_function {M}.

Section Eval.
Context {M : Type -> Type} `{ConstMonad M} `{Platform}.
Context (prog : ConstProgram) (overflow_checks : bool) (K : Knot M).

Fixpoint c_mmap {A B} (f : A -> M B) (l : list A) : M (list B) :=
  match l with
  | [] => c_ret []
  | a :: l' => let* b := f a in let* bs := c_mmap f l' in c_ret (b :: bs)
  end.

Fixpoint c_each {A} (f : A -> M unit) (l : list A) : M unit :=
  match l with
  | [] => c_ret tt
  | a :: l' => let* _ := f a in c_each f l'
  end.

Definition c_operated (o : Operated) : M RuntimeValue :=
  match o with
  | O_Value v => c_ret v
  | O_Err span message => c_err span message
  | O_Panic => c_panic
  end.

Definition c_lift {A} (r : ConstResult A) : M A :=
  match r with RunOk a => c_ret a | RunErr (span, message) => c_err span message end.

Definition is_function (name : string) : bool :=
  match cp_functions prog !! name with Some _ => true | None => false end.

(** *** Statements *)

Definition not_a_target : string :=
  "compile-time field assignment must target a local record or local array element".

(** The target of an assignment, its index evaluated *)
Definition eval_target (target : Expr) (span : Span) : M ConstTarget :=
  match target with
  | E_Name name _ => c_ret (T_Local name)
  | E_Field (E_Name base _) field _ => c_ret (T_Field base field)
  | E_Field (E_Index (E_Name base _) index_expr _) field _ =>
      let* index := k_expr K index_expr in
      match index with
      | V_Int index => c_ret (T_IndexField base index field)
      | _ => c_err (expr_span index_expr) "compile-time indexed field assignment expects an Int index"
      end
  | E_Field _ _ _ => c_err span not_a_target
  | E_Index (E_Name base _) index_expr _ =>
      let* index := k_expr K index_expr in
      match index with
      | V_Int index => c_ret (T_Index base index)
      | _ => c_err (expr_span index_expr) "compile-time indexed assignment expects an Int index"
      end
  | E_Index _ _ _ => c_err span "compile-time indexed assignment must target a local array"
  | _ => c_err span "compile-time assignment target must be a local, local field, or local array element"
  end.

Definition eval_stmt (stmt : Stmt) : M unit :=
  match stmt with
  | S_Let mutable name value _ =>
      let* value := k_expr K value in
      if String.eqb name "_" then c_ret tt
      else if mutable then c_bind_slot name value else c_bind_value name value
  | S_Assign target value span =>
      let* value := k_expr K value in
      let* target := eval_target target span in
      let* assigned := c_assign target value in
      match assigned with
      | RunErr message => c_err span message
      | RunOk Assigned => c_ret tt
      | RunOk Immutable =>
          c_err span ("compile-time assignment targets immutable local `" ++ target_name target ++ "`")
      | RunOk Unknown =>
          c_err span ("compile-time assignment targets unknown local `" ++ target_name target ++ "`")
      end
  | S_Expr expr _ => let* _ := k_expr K expr in c_ret tt
  | S_WithArena body _ => let* _ := k_body K body in c_ret tt
  end%string.

Definition eval_body (body : Body) : M RuntimeValue :=
  let* _ := c_each eval_stmt (body_statements body) in
  match body_tail body with
  | Some tail => k_expr K tail
  | None => c_ret V_Unit
  end.

Definition eval_nested_body_with_binding (body : Body) (binding : option (string * RuntimeValue)) : M RuntimeValue :=
  c_nested binding (k_body K body).

Definition eval_nested_body (body : Body) : M RuntimeValue := eval_nested_body_with_binding body None.

(** *** Calls *)

Definition eval_len_expr (args : list Expr) (span : Span) : M RuntimeValue :=
  match args with
  | [arg] =>
      let* value := k_expr K arg in
      match value with
      | V_Record name fields =>
          match synthetic_array_len name fields with
          | Some len => c_ret (V_Int (Z.of_nat len))
          | None => c_err span "builtin `len` expects an internal array value"
          end
      | _ => c_err span "builtin `len` expects an internal array value"
      end
  | _ => c_err span "builtin `len` expects exactly one array argument"
  end.

Definition eval_enum_constructor (callee enum_name variant_name : string) (args : list Expr) (span : Span)
    : M RuntimeValue :=
  match variants ← cp_enum_variants prog !! enum_name;
        List.find (fun v => String.eqb (Mir.variant_name v) variant_name) variants with
  | None => c_err span ("unknown enum constructor `" ++ callee ++ "`")
  | Some variant =>
      match payload_type variant, args with
      | Some _, [arg] =>
          let* payload := k_expr K arg in c_ret (V_Enum enum_name variant_name (Some payload))
      | None, [] => c_ret (V_Enum enum_name variant_name None)
      | Some _, _ =>
          c_err span ("enum constructor `" ++ callee ++ "` requires one payload argument")
      | None, _ =>
          c_err span ("enum constructor `" ++ callee ++ "` does not accept payload arguments")
      end
  end%string.

Definition eval_const_assert (args : list Expr) (span : Span) : M RuntimeValue :=
  match args with
  | [arg] =>
      let* value := k_expr K arg in
      match value with
      | V_Bool condition =>
          let* _ :=
            (if condition then c_ret tt
             else c_diagnose (Diagnostic_new "const_assert-failed"
                    "const_assert failed: condition evaluated to false at compile time" (expr_span arg) None)) in
          c_ret V_Unit
      | _ => c_err span "const_assert expects a Bool"
      end
  | _ => c_err span "const_assert expects exactly one argument"
  end.

Definition eval_call_expr (callee : string) (args : list Expr) (span : Span) : M RuntimeValue :=
  if String.eqb callee "len" && negb (is_function "len") then eval_len_expr args span
  else
    match (if is_function callee then None else const_builtin span callee) with
    | Some (arity, message, value) =>
        if length args =? arity then let* values := c_mmap (k_expr K) args in c_operated (value values)
        else c_err span message
    | None =>
        match split_enum_variant_path callee with
        | Some (enum_name, variant_name) => eval_enum_constructor callee enum_name variant_name args span
        | None =>
            if String.eqb callee "const_assert" && negb (is_function "const_assert")
            then eval_const_assert args span
            else let* values := c_mmap (k_expr K) args in k_function K callee values span
        end
    end.

(** *** Arrays, records and enums *)

(** [resolve_const_eval_len_value] *)
Fixpoint eval_len_value (len : ConstExpr) : M (option Z) :=
  let both (l r : M (option Z)) (op : Z -> Z -> Z) : M (option Z) :=
    let* x := l in
    match x with
    | None => c_ret None
    | Some x => let* y := r in c_ret (y ← y; checked_usize (op x y))
    end in
  match len with
  | C_Literal value => c_ret (checked_usize value)
  | C_Param name =>
      let* value := c_read name in
      c_ret match value with Some (V_Int value) => checked_usize value | _ => None end
  | C_Add l r => both (eval_len_value l) (eval_len_value r) Z.add
  | C_Sub l r => both (eval_len_value l) (eval_len_value r) Z.sub
  | C_Mul l r => both (eval_len_value l) (eval_len_value r) Z.mul
  end.

Definition resolve_const_eval_len (len : ConstExpr) (span : Span) : M Z :=
  let* value := eval_len_value len in
  match value with
  | Some value => c_ret value
  | None => c_err span "repeat array length must be a compile-time fixed array length"
  end.

(** The value of an array literal from those of its elements *)
Definition array_value (elements : list RuntimeValue) (span : Span) : ConstResult RuntimeValue :=
  match elements with
  | [] => const_err span "empty arrays are not admitted in stage-0 compile-time evaluation"
  | first :: rest =>
      let element_ty := runtime_value_lower_type first in
      if existsb (fun element => negb (bool_decide (runtime_value_lower_type element = element_ty))) rest
      then const_err span "compile-time array literals must use one element type"
      else
        match lower_type_name element_ty with
        | None => const_err span "compile-time array literals use an unsupported element type"
        | Some element_name =>
            RunOk (V_Record (array_struct_name element_name (length elements))
                     (imap (fun index value => (array_field_name index, value)) elements))
        end
  end.

Definition eval_array_expr (elements : list Expr) (repeat_len : option ConstExpr) (span : Span)
    : M RuntimeValue :=
  let* values :=
    match repeat_len with
    | None => c_mmap (k_expr K) elements
    | Some len =>
        let* repeat_count := resolve_const_eval_len len span in
        match elements with
        | [] => c_err span "repeat array literals must include one element expression"
        | element :: _ => c_mmap (fun _ => k_expr K element) (seq 0 (Z.to_nat repeat_count))
        end
    end in
  c_lift (array_value values span).

(** [self.diagnostics.push(...)], then the error *)
Definition diagnosed {A} (code said : string) (span : Span) (message : string) : M A :=
  let* _ := c_diagnose (Diagnostic_new code said span None) in c_err span message.

Definition eval_index_expr (base index : Expr) (span : Span) : M RuntimeValue :=
  let* base_value := k_expr K base in
  let* index_value := k_expr K index in
  let* i := c_lift (expect_const_int index_value (expr_span index)) in
  if (i <? 0)%Z then c_err (expr_span index) "compile-time indices must be non-negative"
  else
    match base_value with
    | V_Record name fields =>
        match synthetic_array_len name fields with
        | None =>
            let message := "compile-time indexing requires an internal array value" in
            diagnosed "codegen.array-index-base" message (expr_span base) message
        | Some len =>
            match fields !! Z.to_nat i with
            | Some (_, value) => c_ret value
            | None =>
                diagnosed "codegen.array-index-out-of-bounds"
                  ("constant array index " ++ pretty i ++ " is out of bounds (array has " ++ pretty len ++ " elements)")
                  span
                  ("compile-time array index " ++ pretty i ++ " is out of bounds for length " ++ pretty len)
            end
        end
    | V_Text text =>
        match bytes text !! Z.to_nat i with
        | Some byte => c_ret (V_Int (Z.of_nat (Ascii.nat_of_ascii byte)))
        | None =>
            let len := pretty (length (bytes text)) in
            diagnosed "codegen.text-index-out-of-bounds"
              ("constant text index " ++ pretty i ++ " is out of bounds (text has " ++ len ++ " bytes)")
              span
              ("compile-time text index " ++ pretty i ++ " is out of bounds for length " ++ len)
        end
    | _ =>
        let message := "compile-time indexing requires an internal array or Text value" in
        diagnosed "codegen.array-index-base" message (expr_span base) message
    end%string.

Definition payload_free_enum_variant_value (enum_name variant_name : string) : option RuntimeValue :=
  variants ← cp_enum_variants prog !! enum_name;
  _ ← List.find (fun v => String.eqb (Mir.variant_name v) variant_name
                          && match payload_type v with None => true | Some _ => false end) variants;
  Some (V_Enum enum_name variant_name None).

(** [fields.iter().find(|(name, _)| name == field)] *)
Definition find_field (field : string) (fields : list (string * RuntimeValue)) : option RuntimeValue :=
  option_map snd (List.find (fun '(name, _) => String.eqb name field) fields).

Definition eval_field_value (base : Expr) (field : string) (span : Span) : M RuntimeValue :=
  let* value := k_expr K base in
  if String.eqb field "len" then
    let wrong := c_err span "compile-time `.len` requires an internal array or Text value" in
    match value with
    | V_Record name fields =>
        match synthetic_array_len name fields with
        | Some len => c_ret (V_Int (Z.of_nat len))
        | None => wrong
        end
    | V_Text text => c_ret (V_Int (Z.of_nat (length (bytes text))))
    | _ => wrong
    end
  else
    match value with
    | V_Record name fields =>
        match find_field field fields with
        | Some value => c_ret value
        | None => c_err span ("record `" ++ name ++ "` has no field `" ++ field ++ "`")
        end
    | _ => c_err span ("expected record value for field access `" ++ field ++ "`")
    end%string.

Definition eval_field_expr (base : Expr) (field : string) (span : Span) : M RuntimeValue :=
  match (match base with E_Name name _ => payload_free_enum_variant_value name field | _ => None end) with
  | Some value => c_ret value
  | None => eval_field_value base field span
  end.

Definition eval_record_expr (name : string) (fields : list FieldInit) : M RuntimeValue :=
  let inits :=
    match cp_struct_fields prog !! name with
    | Some declared_fields =>
        omap (fun declared => List.find (fun field => String.eqb (init_name field) declared) fields)
          declared_fields
    | None => fields
    end in
  let* values := c_mmap (fun field => let* value := k_expr K (init_value field) in
                                      c_ret (init_name field, value)) inits in
  c_ret (V_Record name values).

(** [new_fields[pos].1 = value], or [new_fields.push] *)
Fixpoint set_field (name : string) (value : RuntimeValue) (fields : list (string * RuntimeValue))
    : list (string * RuntimeValue) :=
  match fields with
  | [] => [(name, value)]
  | (n, v) :: fields' =>
      if String.eqb n name then (n, value) :: fields' else (n, v) :: set_field name value fields'
  end.

Fixpoint eval_updates (updates : list FieldInit) (fields : list (string * RuntimeValue))
    : M (list (string * RuntimeValue)) :=
  match updates with
  | [] => c_ret fields
  | update :: updates' =>
      let* value := k_expr K (init_value update) in
      eval_updates updates' (set_field (init_name update) value fields)
  end.

Definition eval_record_update (base : Expr) (updates : list FieldInit) (span : Span) : M RuntimeValue :=
  let* value := k_expr K base in
  match value with
  | V_Record name fields => let* fields := eval_updates updates fields in c_ret (V_Record name fields)
  | _ => c_err span "record update base must be a record value"
  end.

(** *** Control *)

Definition eval_if (condition : Expr) (then_body else_body : Body) : M RuntimeValue :=
  let* value := k_expr K condition in
  match value with
  | V_Bool true => eval_nested_body then_body
  | V_Bool false => eval_nested_body else_body
  | _ => c_err (expr_span condition) "compile-time `if` conditions must be `Bool`"
  end.

Fixpoint eval_match_arms (scrutinee : RuntimeValue) (arms : list MatchArm) (span : Span) : M RuntimeValue :=
  match arms with
  | [] => c_err span "no `match` arm matched during compile-time evaluation"
  | mkMatchArm pattern body arm_span :: arms' =>
      let* matched := c_lift (match_pattern scrutinee pattern arm_span) in
      match matched with
      | NoMatch => eval_match_arms scrutinee arms' span
      | Match bound => eval_nested_body_with_binding body bound
      end
  end.

Definition eval_match_expr (scrutinee : Expr) (arms : list MatchArm) (span : Span) : M RuntimeValue :=
  let* value := k_expr K scrutinee in eval_match_arms value arms span.

Definition eval_repeat_expr (binding : option string) (count : Expr) (body : Body) : M RuntimeValue :=
  let* value := k_expr K count in
  match value with
  | V_Int count =>
      let* _ := c_each (fun index =>
          let* _ := eval_nested_body_with_binding body
                      (option_map (fun name => (name, V_Int (Z.of_nat index))) binding) in
          c_ret tt)
        (seq 0 (Z.to_nat count)) in
      c_ret V_Unit
  | _ => c_err (expr_span count) "compile-time `repeat` counts must be `I32`"
  end.

(** One round of the loop, and the loop again *)
Definition eval_while_expr (condition : Expr) (body : Body) (span : Span) : M RuntimeValue :=
  let* value := k_expr K condition in
  match value with
  | V_Bool true => let* _ := eval_nested_body body in k_expr K (E_While condition body span)
  | V_Bool false => c_ret V_Unit
  | _ => c_err (expr_span condition) "compile-time `while` conditions must be `Bool`"
  end.

Definition eval_unary_expr (op : UnaryOp) (inner : Expr) : M RuntimeValue :=
  let* value := k_expr K inner in
  match op with
  | U_Not => c_lift (res_bind (expect_const_bool value (expr_span inner)) (fun b => RunOk (V_Bool (negb b))))
  end.

Definition eval_binary_expr (op : BinaryOp) (lhs rhs : Expr) (span : Span) : M RuntimeValue :=
  let* left := k_expr K lhs in
  let* right := k_expr K rhs in
  c_operated (const_binary overflow_checks op left right span (expr_span lhs) (expr_span rhs)).

Definition eval_name (name : string) (span : Span) : M RuntimeValue :=
  let* bound := c_read name in
  match bound with
  | Some value => c_ret value
  | None =>
      let* value := k_const K name in
      match value with
      | Some value => c_ret value
      | None => c_err span ("unknown compile-time name `" ++ name ++ "`")
      end
  end%string.

Definition eval_contract_result (span : Span) : M RuntimeValue :=
  let* result := c_result in
  match result with
  | Some value => c_ret value
  | None => c_err span "`result` is not available during compile-time evaluation"
  end.

Definition eval_expr_flow (expr : Expr) : M RuntimeValue :=
  match expr with
  | E_Integer value _ => c_ret (V_Int value)
  | E_Float value _ => c_ret (V_F64 value)
  | E_String _ value _ => c_ret (V_Text value)
  | E_Bool value _ => c_ret (V_Bool value)
  | E_Name name span => eval_name name span
  | E_ContractResult span => eval_contract_result span
  | E_Call callee args span => eval_call_expr callee args span
  | E_Array elements repeat_len span => eval_array_expr elements repeat_len span
  | E_Field base field span => eval_field_expr base field span
  | E_Index base index span => eval_index_expr base index span
  | E_If condition then_body else_body _ => eval_if condition then_body else_body
  | E_Match scrutinee arms span => eval_match_expr scrutinee arms span
  | E_While condition body span => eval_while_expr condition body span
  | E_Repeat binding count body _ => eval_repeat_expr binding count body
  | E_Record name fields _ => eval_record_expr name fields
  | E_RecordUpdate base updates span => eval_record_update base updates span
  | E_Unary op inner _ => eval_unary_expr op inner
  | E_Binary op l r span => eval_binary_expr op l r span
  | E_Group inner _ => k_expr K inner
  | E_Comptime body => c_isolated (k_body K body)
  | E_Handle body _ =>
      c_err (body_span body) "effect handlers are not yet supported in stage-0 compile-time evaluation"
  | E_Perform _ _ _ span =>
      c_err span "effect operations are not yet supported in stage-0 compile-time evaluation"
  end.

(** *** Constants and functions *)

Definition eval_const (name : string) : M (option RuntimeValue) :=
  let* cached := c_cached name in
  match cached with
  | Some value => c_ret (Some value)
  | None =>
      match cp_consts prog !! name with
      | None => c_ret None
      | Some const_item =>
          let* active := c_const_active name in
          if active then
            let* _ := c_diagnose (Diagnostic_new "mir.const-eval"
                        ("failed to evaluate cyclic const `" ++ name ++ "` at compile time")
                        (const_span const_item)
                        (Some "Break the cycle in the const dependency graph.")) in
            c_ret None
          else c_with_const name (c_isolated (k_expr K (const_value const_item)))
      end
  end%string.

Definition eval_contract_clause (expr : Expr) (failure_message : string) : M unit :=
  let* value := k_expr K expr in
  match value with
  | V_Bool true => c_ret tt
  | V_Bool false => c_err (expr_span expr) failure_message
  | _ => c_err (expr_span expr) "compile-time contract clauses must evaluate to `Bool`"
  end.

Definition eval_contract (clause : option Expr) (name keyword : string) : M unit :=
  match clause with
  | None => c_ret tt
  | Some expr =>
      eval_contract_clause expr
        ("helper function `" ++ name ++ "` failed its `" ++ keyword
           ++ "` contract during compile-time evaluation")
  end%string.

(** The body runs on a clone of the parameters, which [ensures] sees again. *)
Definition eval_function_body (name : string) (function : Hir.Function) (body : Body)
    (args : list RuntimeValue) : M RuntimeValue :=
  c_frame (
    let* _ := c_each (fun '(param, arg) => c_bind_value (Hir.param_name param) arg)
                (combine (Hir.fn_params function) args) in
    let* _ := eval_contract (fn_requires function) name "requires" in
    let* result := c_with_function name (c_cloned (k_body K body)) in
    let* _ := c_with_result result (eval_contract (fn_ensures function) name "ensures") in
    c_ret result).

Definition eval_function (name : string) (args : list RuntimeValue) (span : Span) : M RuntimeValue :=
  match cp_functions prog !! name with
  | None => c_err span ("unknown helper function `" ++ name ++ "`")
  | Some function =>
      match Hir.fn_effects function, fn_body function with
      | _ :: _, _ => c_err (Hir.fn_span function) ("helper function `" ++ name ++ "` declares effects")
      | [], None => c_err (Hir.fn_span function) ("helper function `" ++ name ++ "` has no body")
      | [], Some body =>
          if (length (Hir.fn_params function) =? length args)%nat then
            let* active := c_function_active name in
            if active then
              c_err (Hir.fn_span function)
                ("helper function `" ++ name ++ "` is recursively referenced")
            else eval_function_body name function body args
          else
            c_err span ("helper function `" ++ name ++ "` expected "
              ++ pretty (length (Hir.fn_params function)) ++ " arguments but received "
              ++ pretty (length args))
      end
  end%string.

(** Every method, calling [K] *)
Definition step : Knot M := mkKnot eval_expr_flow eval_body eval_const eval_function.
End Eval.
