(* ===== verification/ConstRel.v ===== *)
(** * Relating two evaluators

    A relation between the computations of two monads with the evaluator's
    operations that those operations respect relates the methods too, as soon as
    it relates what the methods call.  Every theorem about the evaluator is such
    a relation. *)
From stdpp Require Import gmap pretty.
From S2P Require Import Prelude Syntax Utf8 TextOps Float64 Mir Interp Exec Entry Hir SemType ConstEval.

Open Scope nat_scope.

(** ** The laws *)

Class ConstRel {M1 M2 : Type -> Type} `{ConstMonad M1} `{ConstMonad M2}
    (R : forall A, M1 A -> M2 A -> Prop) := {
  rel_ret : forall A (a : A), R _ (c_ret a) (c_ret a);
  rel_bind : forall A B (m1 : M1 A) (m2 : M2 A) (f1 : A -> M1 B) (f2 : A -> M2 B),
    R _ m1 m2 -> (forall a, R _ (f1 a) (f2 a)) -> R _ (c_bind m1 f1) (c_bind m2 f2);
  rel_err : forall A span message, R A (c_err span message) (c_err span message);
  rel_panic : forall A, R A c_panic c_panic;
  rel_diagnose : forall d, R _ (c_diagnose d) (c_diagnose d);
  rel_read : forall name, R _ (c_read name) (c_read name);
  rel_bind_value : forall name value, R _ (c_bind_value name value) (c_bind_value name value);
  rel_bind_slot : forall name value, R _ (c_bind_slot name value) (c_bind_slot name value);
  rel_assign : forall target value, R _ (c_assign target value) (c_assign target value);
  rel_nested : forall A binding (m1 : M1 A) (m2 : M2 A),
    R _ m1 m2 -> R _ (c_nested binding m1) (c_nested binding m2);
  rel_isolated : forall A (m1 : M1 A) (m2 : M2 A), R _ m1 m2 -> R _ (c_isolated m1) (c_isolated m2)
}.

(** The operations of [eval_const] and [eval_function]; only constants that there
    are get evaluated. *)
Class ConstCallRel {M1 M2 : Type -> Type} `{ConstMonad M1} `{ConstMonad M2} (prog : ConstProgram)
    (R : forall A, M1 A -> M2 A -> Prop) := {
  rel_cloned : forall A (m1 : M1 A) (m2 : M2 A), R _ m1 m2 -> R _ (c_cloned m1) (c_cloned m2);
  rel_frame : forall A (m1 : M1 A) (m2 : M2 A), R _ m1 m2 -> R _ (c_frame m1) (c_frame m2);
  rel_result : R _ c_result c_result;
  rel_with_result : forall A v (m1 : M1 A) (m2 : M2 A),
    R _ m1 m2 -> R _ (c_with_result v m1) (c_with_result v m2);
  rel_cached : forall name, R _ (c_cached name) (c_cached name);
  rel_const_active : forall name, R _ (c_const_active name) (c_const_active name);
  rel_with_const : forall name m1 m2,
    is_Some (cp_consts prog !! name) -> R _ m1 m2 -> R _ (c_with_const name m1) (c_with_const name m2);
  rel_function_active : forall name, R _ (c_function_active name) (c_function_active name);
  rel_with_function : forall A name (m1 : M1 A) (m2 : M2 A),
    R _ m1 m2 -> R _ (c_with_function name m1) (c_with_function name m2)
}.

(** Follow a method through its binds and case distinctions; [extra] closes what
    the laws do not. *)
Ltac relate_leaf :=
  first [ assumption | apply rel_ret | apply rel_err | apply rel_panic | apply rel_diagnose | apply rel_read
        | apply rel_bind_value | apply rel_bind_slot | apply rel_assign ].
Ltac relate_with extra :=
  intros; repeat (first
    [ relate_leaf
    | extra
    | apply rel_bind; [|intros ?]
    | apply rel_nested | apply rel_isolated
    | match goal with |- context [match ?x with _ => _ end] => destruct x end ]; cbn beta iota zeta).
Ltac relate := relate_with fail.

(** ** The methods *)
Section Methods.
Context {M1 M2 : Type -> Type} `{CM1 : ConstMonad M1} `{CM2 : ConstMonad M2} `{Platform}.
Context (R : forall A, M1 A -> M2 A -> Prop) `{!ConstRel R}.
Context (prog : ConstProgram) (checks : bool) (K1 : Knot M1) (K2 : Knot M2).
Arguments R {A}.

Lemma rel_mmap {A B} (f1 : A -> M1 B) (f2 : A -> M2 B) l :
  Forall (fun a => R (f1 a) (f2 a)) l -> R (c_mmap f1 l) (c_mmap f2 l).
Proof. induction 1; cbn; relate. Qed.

Lemma rel_each {A} (f1 : A -> M1 unit) (f2 : A -> M2 unit) l :
  Forall (fun a => R (f1 a) (f2 a)) l -> R (c_each f1 l) (c_each f2 l).
Proof. induction 1; cbn; relate. Qed.

Lemma rel_operated o : R (c_operated (M := M1) o) (c_operated (M := M2) o).
Proof. destruct o; cbn; relate. Qed.

Lemma rel_lift {A} (r : ConstResult A) : R (c_lift (M := M1) r) (c_lift (M := M2) r).
Proof. destruct r as [|[]]; cbn; relate. Qed.

Lemma rel_len_value len : R (eval_len_value (M := M1) len) (eval_len_value (M := M2) len).
Proof. induction len; cbn; relate. Qed.

Ltac relate_values := relate_with ltac:(first [apply rel_operated | apply rel_lift | apply rel_len_value]).

(** The expressions and bodies a method calls are related. *)
Definition expr_rel (e : Expr) : Prop := R (k_expr K1 e) (k_expr K2 e).
Definition body_rel (b : Body) : Prop := R (k_body K1 b) (k_body K2 b).

(** The index in a target *)
Definition target_exprs (target : Expr) : list Expr :=
  match target with
  | E_Field (E_Index _ index _) _ _ | E_Index _ index _ => [index]
  | _ => []
  end.

Definition stmt_exprs (s : Stmt) : list Expr :=
  match s with
  | S_Let _ _ value _ => [value]
  | S_Assign target value _ => value :: target_exprs target
  | S_Expr expr _ => [expr]
  | S_WithArena _ _ => []
  end.

Definition stmt_bodies (s : Stmt) : list Body :=
  match s with S_WithArena body _ => [body] | _ => [] end.

(** Turn the lists of parts into the parts. *)
Ltac parts :=
  repeat match goal with
    | H : Forall _ (_ :: _) |- _ => inversion_clear H
    | H : Forall _ [] |- _ => clear H
    end;
  unfold expr_rel, body_rel in *.

Lemma rel_target target span :
  Forall expr_rel (target_exprs target) -> R (eval_target K1 target span) (eval_target K2 target span).
Proof.
  intros HF. unfold eval_target.
  destruct target; cbn in *; try solve [relate];
    match goal with base : Expr |- _ => destruct base; cbn in *; parts; solve [relate] end.
Qed.

Lemma rel_stmt s :
  Forall expr_rel (stmt_exprs s) -> Forall body_rel (stmt_bodies s) -> R (eval_stmt K1 s) (eval_stmt K2 s).
Proof.
  intros HE HB. destruct s; cbn in *; parts; relate_with ltac:(apply rel_target).
Qed.

Lemma rel_body b :
  Forall (fun s => Forall expr_rel (stmt_exprs s) /\ Forall body_rel (stmt_bodies s)) (body_statements b) ->
  option_all expr_rel (body_tail b) ->
  R (eval_body K1 b) (eval_body K2 b).
Proof.
  intros HS HT. unfold eval_body. apply rel_bind.
  - apply rel_each. eapply Forall_impl; [exact HS|]. intros s []. by apply rel_stmt.
  - intros _. destruct (body_tail b); cbn in *; [exact HT | relate].
Qed.

(** *** Expressions *)

(** What an expression calls when it is no loop; [E_While] calls itself too. *)
Definition parts_rel (e : Expr) : Prop :=
  Forall expr_rel (sub_exprs e) /\ Forall body_rel (sub_bodies e).

Lemma rel_nested_body b binding :
  body_rel b -> R (eval_nested_body_with_binding K1 b binding) (eval_nested_body_with_binding K2 b binding).
Proof. intros. apply rel_nested. assumption. Qed.

Lemma rel_call callee args span :
  Forall expr_rel args ->
  (forall values, R (k_function K1 callee values span) (k_function K2 callee values span)) ->
  R (eval_call_expr prog K1 callee args span) (eval_call_expr prog K2 callee args span).
Proof.
  intros HA HF.
  assert (Hargs : R (c_mmap (k_expr K1) args) (c_mmap (k_expr K2) args)) by now apply rel_mmap.
  unfold eval_call_expr. destruct (_ && _).
  { unfold eval_len_expr. destruct args as [|a [|]]; parts; relate_values. }
  destruct (if is_function _ _ then _ else _) as [[[arity message] value]|]; [relate_values|].
  destruct (split_enum_variant_path callee) as [[enum_name variant]|].
  { unfold eval_enum_constructor. destruct (_ ≫= _) as [v|]; [|relate].
    destruct (payload_type v), args as [|a [|]]; parts; relate. }
  destruct (_ && _); [|relate_with ltac:(apply HF)].
  unfold eval_const_assert. destruct args as [|a [|]]; parts; relate.
Qed.

Lemma rel_array elements len span :
  Forall expr_rel elements ->
  R (eval_array_expr K1 elements len span) (eval_array_expr K2 elements len span).
Proof.
  intros HA. unfold eval_array_expr, resolve_const_eval_len. apply rel_bind; [|relate_values].
  destruct len; [|now apply rel_mmap].
  apply rel_bind; [relate_values|]. intros n. destruct elements; [relate|].
  apply rel_mmap, Forall_forall. parts. auto.
Qed.

Lemma rel_index base index span :
  expr_rel base -> expr_rel index ->
  R (eval_index_expr K1 base index span) (eval_index_expr K2 base index span).
Proof. unfold expr_rel. intros. unfold eval_index_expr, diagnosed. relate_values. Qed.

Lemma rel_field base field span :
  expr_rel base -> R (eval_field_expr prog K1 base field span) (eval_field_expr prog K2 base field span).
Proof. unfold expr_rel. intros. unfold eval_field_expr, eval_field_value. relate. Qed.

Lemma rel_record name fields :
  Forall expr_rel (map init_value fields) ->
  R (eval_record_expr prog K1 name fields) (eval_record_expr prog K2 name fields).
Proof.
  rewrite Forall_map. intros HF. unfold eval_record_expr. apply rel_bind; [|relate].
  apply rel_mmap. apply Forall_forall. intros init Hin.
  assert (Hexpr : expr_rel (init_value init)).
  { rewrite Forall_forall in HF. apply HF. destruct (_ !! _); [|done].
    apply list_elem_of_omap in Hin as (declared & _ & Hfind). apply List.find_some in Hfind as [Hfind _].
    by apply list_elem_of_In. }
  unfold expr_rel in Hexpr. relate.
Qed.

Lemma rel_updates updates fields :
  Forall expr_rel (map init_value updates) -> R (eval_updates K1 updates fields) (eval_updates K2 updates fields).
Proof. revert fields. induction updates; intros fields HF; cbn in *; parts; relate_with ltac:(solve [auto]). Qed.

Lemma rel_match_arms value arms span :
  Forall body_rel (map arm_body arms) ->
  R (eval_match_arms K1 value arms span) (eval_match_arms K2 value arms span).
Proof.
  induction arms as [|[pattern body arm_span] arms IH]; cbn; intros HF; [relate|]. inversion_clear HF.
  apply rel_bind; [relate_values|]. intros [|bound]; [by apply IH | by apply rel_nested_body].
Qed.

Lemma rel_repeat binding count body :
  expr_rel count -> body_rel body ->
  R (eval_repeat_expr K1 binding count body) (eval_repeat_expr K2 binding count body).
Proof.
  intros HC HB. unfold eval_repeat_expr. apply rel_bind; [exact HC|]. intros []; try solve [relate].
  apply rel_bind; [|relate]. apply rel_each, Forall_forall. intros index _.
  apply rel_bind; [by apply rel_nested_body | relate].
Qed.

Lemma rel_name name span :
  R (k_const K1 name) (k_const K2 name) -> R (eval_name K1 name span) (eval_name K2 name span).
Proof. intros. unfold eval_name. relate. Qed.

(** A method that evaluates an expression: what it calls, with the function, the
    name, [result] or the loop itself where the expression is one. *)
Theorem rel_expr_flow e :
  parts_rel e ->
  match e with
  | E_Call callee _ span => forall args, R (k_function K1 callee args span) (k_function K2 callee args span)
  | E_Name name span => R (eval_name K1 name span) (eval_name K2 name span)
  | E_ContractResult _ => R c_result c_result
  | E_While _ _ _ => expr_rel e
  | _ => True
  end ->
  R (eval_expr_flow prog checks K1 e) (eval_expr_flow prog checks K2 e).
Proof.
  intros [HE HB] Hself. destruct e; cbn in *; try solve [relate].
  - apply rel_call; auto.
  - by apply rel_array.
  - parts. by apply rel_field.
  - parts. by apply rel_index.
  - parts. unfold eval_if. relate_with ltac:(apply rel_nested_body).
  - inversion_clear HE. unfold eval_match_expr. apply rel_bind; [assumption|]. intros. by apply rel_match_arms.
  - inversion_clear HE. inversion_clear HB. by apply rel_repeat.
  - parts. unfold eval_while_expr. relate_with ltac:(apply rel_nested_body).
  - by apply rel_record.
  - inversion_clear HE. unfold eval_record_update. apply rel_bind; [assumption|].
    intros []; relate_with ltac:(apply rel_updates).
  - parts. unfold eval_unary_expr. relate_values.
  - parts. unfold eval_binary_expr. relate_values.
  - by parts.
  - parts. relate.
Qed.

(** *** Constants and functions *)

Lemma rel_contract clause name keyword :
  option_all expr_rel clause ->
  R (eval_contract K1 clause name keyword) (eval_contract K2 clause name keyword).
Proof.
  destruct clause; cbn; [|relate]. unfold expr_rel. intros HE. unfold eval_contract_clause. relate.
Qed.

Lemma rel_params (params : list Hir.Param) args :
  R (c_each (M := M1) (fun '(param, arg) => c_bind_value (Hir.param_name param) arg) (combine params args))
    (c_each (fun '(param, arg) => c_bind_value (Hir.param_name param) arg) (combine params args)).
Proof. apply rel_each, Forall_forall. intros [] _. relate. Qed.

(** What a constant or a function evaluates *)
Definition const_parts (name : string) : Prop :=
  match cp_consts prog !! name with Some item => expr_rel (const_value item) | None => True end.

Definition function_parts (name : string) : Prop :=
  match cp_functions prog !! name with
  | Some f => option_all expr_rel (fn_requires f) /\ option_all expr_rel (fn_ensures f)
              /\ option_all body_rel (fn_body f)
  | None => True
  end.

Context `{!ConstCallRel prog (@R)}.

Lemma rel_const name :
  const_parts name -> R (eval_const prog K1 name) (eval_const prog K2 name).
Proof.
  unfold const_parts. intros HE. unfold eval_const. apply rel_bind; [apply rel_cached|]. intros [v|]; [relate|].
  destruct (cp_consts prog !! name) as [item|] eqn:Hitem; [|relate]. apply rel_bind; [apply rel_const_active|].
  intros [|]; [relate|]. apply rel_with_const; [by eexists|]. apply rel_isolated, HE.
Qed.

Lemma rel_function name args span :
  function_parts name -> R (eval_function prog K1 name args span) (eval_function prog K2 name args span).
Proof.
  unfold function_parts. intros HP. unfold eval_function. destruct (_ !! _) as [f|]; [|relate].
  destruct HP as (HReq & HEns & HBody).
  destruct (Hir.fn_effects f); [|relate]. destruct (fn_body f) as [body|]; [|relate].
  destruct (_ =? _); [|relate]. apply rel_bind; [apply rel_function_active|]. intros [|]; [relate|].
  apply rel_frame. apply rel_bind; [apply rel_params|]. intros _.
  apply rel_bind; [by apply rel_contract|]. intros _.
  apply rel_bind; [apply rel_with_function, rel_cloned, HBody|]. intros result.
  apply rel_bind; [apply rel_with_result; by apply rel_contract | relate].
Qed.
End Methods.

(** ** Relations between knots *)
Section Knots.
Context {M1 M2 : Type -> Type} `{CM1 : ConstMonad M1} `{CM2 : ConstMonad M2} `{Platform}.
Context (R : forall A, M1 A -> M2 A -> Prop) (prog : ConstProgram) (checks : bool).
Context `{!ConstRel R} `{!ConstCallRel prog R}.

Record knot_rel (K1 : Knot M1) (K2 : Knot M2) : Prop := {
  knot_rel_expr : forall e, R _ (k_expr K1 e) (k_expr K2 e);
  knot_rel_body : forall b, R _ (k_body K1 b) (k_body K2 b);
  knot_rel_const : forall name, R _ (k_const K1 name) (k_const K2 name);
  knot_rel_function : forall name args span, R _ (k_function K1 name args span) (k_function K2 name args span)
}.

Lemma Forall_all {A} (P : A -> Prop) l : (forall a, P a) -> Forall P l.
Proof. intros HP. by apply Forall_forall. Qed.
#[local] Hint Resolve Forall_all knot_rel_expr knot_rel_body knot_rel_const knot_rel_function : core.

(** One round of the methods keeps a relation the operations respect. *)
Theorem rel_step K1 K2 : knot_rel K1 K2 -> knot_rel (step prog checks K1) (step prog checks K2).
Proof.
  intros HK. assert (HE : forall e, expr_rel R K1 K2 e) by (intros; by apply HK).
  assert (HB : forall b, body_rel R K1 K2 b) by (intros; by apply HK).
  assert (HO : forall o, option_all (expr_rel R K1 K2) o) by (intros []; cbn; auto).
  assert (HOB : forall o, option_all (body_rel R K1 K2) o) by (intros []; cbn; auto).
  split; intros; cbn [step k_expr k_body k_const k_function].
  - apply rel_expr_flow; try done; try (by intros; apply HK).
    + split; by apply Forall_all.
    + destruct e; try done; [apply rel_name; [done|by apply HK] | apply rel_result | intros; by apply HK].
  - apply rel_body; [done| |done]. apply Forall_all. intros s. split; by apply Forall_all.
  - apply rel_const; [done..|]. unfold const_parts. by destruct (_ !! _).
  - apply rel_function; [done..|]. unfold function_parts. by destruct (_ !! _).
Qed.
End Knots.

(** ** Everywhere in an expression *)

(** [p] holds of an expression and of what its method may evaluate, not looking
    into the functions it calls; more than [d] deep, the answer is no. *)
Fixpoint everywhere (p : Expr -> bool) (d : nat) (e : Expr) : bool :=
  match d with
  | 0 => false
  | S d => p e && forallb (everywhere p d) (sub_exprs e) && forallb (body_everywhere p d) (sub_bodies e)
  end
with body_everywhere (p : Expr -> bool) (d : nat) (b : Body) : bool :=
  match d with
  | 0 => false
  | S d =>
      forallb (fun s => forallb (everywhere p d) (stmt_exprs s) && forallb (body_everywhere p d) (stmt_bodies s))
        (body_statements b)
      && match body_tail b with Some tail => everywhere p d tail | None => true end
  end.

Lemma forallb_Forall_1 {A} (p : A -> bool) l : forallb p l = true -> Forall (fun a => p a = true) l.
Proof. intros Hp. apply Forall_forall. intros a Ha. rewrite forallb_forall in Hp. by apply Hp, list_elem_of_In. Qed.

Lemma everywhere_parts p d e :
  everywhere p (S d) e = true ->
  p e = true /\ Forall (fun e => everywhere p d e = true) (sub_exprs e)
  /\ Forall (fun b => body_everywhere p d b = true) (sub_bodies e).
Proof.
  cbn. intros [[Hp HE]%andb_prop HB]%andb_prop. split; [done|]. split; by apply forallb_Forall_1.
Qed.

Lemma body_everywhere_parts p d b :
  body_everywhere p (S d) b = true ->
  Forall (fun s => Forall (fun e => everywhere p d e = true) (stmt_exprs s)
                   /\ Forall (fun b => body_everywhere p d b = true) (stmt_bodies s)) (body_statements b)
  /\ option_all (fun e => everywhere p d e = true) (body_tail b).
Proof.
  cbn. intros [HS HT]%andb_prop. split.
  - eapply Forall_impl; [by apply forallb_Forall_1|]. cbn. intros s [HE HB]%andb_prop.
    split; by apply forallb_Forall_1.
  - by destruct (body_tail b).
Qed.

(** The clauses and the body of a function *)
Definition function_everywhere (p : Expr -> bool) (d : nat) (clauses : list (option Expr)) (f : Hir.Function) : bool :=
  forallb (fun clause => match clause with Some e => everywhere p d e | None => true end) clauses
  && match fn_body f with Some b => body_everywhere p d b | None => true end.
