(* ===== verification/ConstState.v ===== *)
(** * The compile-time evaluator's state

    The monad [ConstEvaluator] of [crates/sarif_codegen/src/lib.rs] runs in: the
    mutable fields of the evaluator and the [ConstEnv] a method is handed, with
    its bindings and slots.  [evaluate_const_values] is the evaluator's way in. *)
From stdpp Require Import gmap pretty.
From S2P Require Import Prelude Syntax Utf8 TextOps Float64 Mir Interp Sorts Exec Entry Hir SemType ConstEval.

Open Scope nat_scope.

(** ** [ConstEnv] *)

(** [ConstSlotId], a [u32] *)
Definition ConstSlotId : Type := Z.

Inductive ConstBinding :=
  | CB_Value (value : RuntimeValue)
  | CB_Slot (slot : ConstSlotId).

Record ConstEnv := mkConstEnv {
  bindings : gmap string ConstBinding;
  slots : gmap ConstSlotId RuntimeValue
}.

Definition ConstEnv_default : ConstEnv := mkConstEnv ∅ ∅.

Definition env_read (env : ConstEnv) (name : string) : option RuntimeValue :=
  binding ← bindings env !! name;
  match binding with
  | CB_Value value => Some value
  | CB_Slot slot => slots env !! slot
  end.

Definition env_bind_value (env : ConstEnv) (name : string) (value : RuntimeValue) : ConstEnv :=
  mkConstEnv (<[name := CB_Value value]> (bindings env)) (slots env).

Definition env_bind_slot (env : ConstEnv) (name : string) (slot : ConstSlotId) (value : RuntimeValue)
    : ConstEnv :=
  mkConstEnv (<[name := CB_Slot slot]> (bindings env)) (<[slot := value]> (slots env)).

(** What the assignments share: the slot of a mutable local gets what [update]
    makes of the slot. *)
Definition env_update (env : ConstEnv) (name : string)
    (update : option RuntimeValue -> Result RuntimeValue string)
    : Result (ConstAssignResult * ConstEnv) string :=
  match bindings env !! name with
  | Some (CB_Slot slot) =>
      res_bind (update (slots env !! slot)) (fun value =>
        RunOk (Assigned, mkConstEnv (bindings env) (<[slot := value]> (slots env))))
  | Some (CB_Value _) => RunOk (Immutable, env)
  | None => RunOk (Unknown, env)
  end.

Definition env_assign (env : ConstEnv) (name : string) (value : RuntimeValue) :=
  env_update env name (fun _ => RunOk value).

(** [let Some(current) = ... else { return Err(...) }] *)
Definition available (name : string) (update : RuntimeValue -> Result RuntimeValue string)
    (current : option RuntimeValue) : Result RuntimeValue string :=
  match current with
  | Some current => update current
  | None => RunErr ("compile-time mutable local `" ++ name ++ "` is unavailable")%string
  end.

Definition env_assign_array_index (env : ConstEnv) (name : string) (index : Z) (value : RuntimeValue) :=
  env_update env name (available name (fun current => update_runtime_array_index current index value)).

(** The record with the field assigned, in [assign_record_field] *)
Definition assign_field (name field : string) (value current : RuntimeValue) : Result RuntimeValue string :=
  match current with
  | V_Record record fields =>
      match replace_field field (fun _ => RunOk value) fields with
      | Some r => res_bind r (fun fields => RunOk (V_Record record fields))
      | None => RunErr ("compile-time record `" ++ record ++ "` has no field `" ++ field ++ "`")
      end
  | _ => RunErr ("compile-time field assignment target `" ++ name ++ "` is not a record")
  end%string.

Definition env_assign_record_field (env : ConstEnv) (name field : string) (value : RuntimeValue) :=
  env_update env name (available name (assign_field name field value)).

Definition env_assign_array_record_field (env : ConstEnv) (name : string) (index : Z) (field : string)
    (value : RuntimeValue) :=
  env_update env name
    (available name (fun current => update_runtime_array_record_field current index field value)).

Definition env_assign_target (env : ConstEnv) (target : ConstTarget) (value : RuntimeValue)
    : Result (ConstAssignResult * ConstEnv) string :=
  match target with
  | T_Local name => env_assign env name value
  | T_Field name field => env_assign_record_field env name field value
  | T_Index name index => env_assign_array_index env name index value
  | T_IndexField name index field => env_assign_array_record_field env name index field value
  end.

Definition outer_slot_ids (env : ConstEnv) : list ConstSlotId := map fst (map_to_list (slots env)).

(** The order of the slots makes no difference. *)
Definition commit_outer_slots_from (env scoped : ConstEnv) (outer_slots : list ConstSlotId) : ConstEnv :=
  mkConstEnv (bindings env)
    (foldl (fun acc slot => match slots scoped !! slot with
                            | Some value => <[slot := value]> acc
                            | None => acc
                            end) (slots env) outer_slots).

(** ** [ConstEvaluator] *)

Record ConstState := mkConstState {
  values : gmap string RuntimeValue;
  active_consts : list string;
  active_functions : list string;
  next_slot : Z;
  contract_result : option RuntimeValue;
  diagnostics : list Diagnostic
}.

Definition set_values (st : ConstState) vs : ConstState :=
  mkConstState vs (active_consts st) (active_functions st) (next_slot st) (contract_result st) (diagnostics st).
Definition set_active_consts (st : ConstState) names : ConstState :=
  mkConstState (values st) names (active_functions st) (next_slot st) (contract_result st) (diagnostics st).
Definition set_active_functions (st : ConstState) names : ConstState :=
  mkConstState (values st) (active_consts st) names (next_slot st) (contract_result st) (diagnostics st).
Definition set_next_slot (st : ConstState) n : ConstState :=
  mkConstState (values st) (active_consts st) (active_functions st) n (contract_result st) (diagnostics st).
Definition set_contract_result (st : ConstState) r : ConstState :=
  mkConstState (values st) (active_consts st) (active_functions st) (next_slot st) r (diagnostics st).
Definition push_diagnostic (st : ConstState) d : ConstState :=
  mkConstState (values st) (active_consts st) (active_functions st) (next_slot st) (contract_result st)
    (diagnostics st ++ [d]).

(** After an error nobody reads the environment. *)
Inductive ConstOutcome (A : Type) :=
  | C_Ok (a : A) (env : ConstEnv) (st : ConstState)
  | C_Err (span : Span) (message : string) (st : ConstState)
  | C_Panic
  | C_OutOfFuel.
Arguments C_Ok {A}.
Arguments C_Err {A}.
Arguments C_Panic {A}.
Arguments C_OutOfFuel {A}.

Definition ConstM (A : Type) : Type := ConstState -> ConstEnv -> ConstOutcome A.

Definition cm_ret {A} (a : A) : ConstM A := fun st env => C_Ok a env st.
Definition cm_bind {A B} (m : ConstM A) (k : A -> ConstM B) : ConstM B := fun st env =>
  match m st env with
  | C_Ok a env st => k a st env
  | C_Err span message st => C_Err span message st
  | C_Panic => C_Panic
  | C_OutOfFuel => C_OutOfFuel
  end.

(** [fresh_const_slot] panics where [next_slot] would overflow. *)
Definition cm_bind_slot (name : string) (value : RuntimeValue) : ConstM unit := fun st env =>
  if (next_slot st <? U32_MAX)%Z
  then C_Ok tt (env_bind_slot env name (next_slot st) value) (set_next_slot st (next_slot st + 1))
  else C_Panic.

Definition cm_assign (target : ConstTarget) (value : RuntimeValue)
    : ConstM (Result ConstAssignResult string) := fun st env =>
  match env_assign_target env target value with
  | RunOk (result, env) => C_Ok (RunOk result) env st
  | RunErr message => C_Ok (RunErr message) env st
  end.

(** [m] in the environment [before env], and the environment [after env] makes of the last *)
Definition cm_within {A} (before : ConstEnv -> ConstEnv) (after : ConstEnv -> ConstEnv -> ConstEnv)
    (m : ConstM A) : ConstM A := fun st env =>
  match m st (before env) with
  | C_Ok a scoped st => C_Ok a (after env scoped) st
  | r => r
  end.

(** [eval_nested_body_with_binding], around [eval_body] *)
Definition cm_nested {A} (binding : option (string * RuntimeValue)) (m : ConstM A) : ConstM A :=
  cm_within
    (fun env => match binding with Some (name, value) => env_bind_value env name value | None => env end)
    (fun env scoped => commit_outer_slots_from env scoped (outer_slot_ids env)) m.

Definition cm_cloned {A} (m : ConstM A) : ConstM A := cm_within (fun env => env) (fun env _ => env) m.
Definition cm_isolated {A} (m : ConstM A) : ConstM A :=
  cm_within (fun _ => ConstEnv_default) (fun env _ => env) m.

(** [m] after [enter], with [leave] when it returns, with a value or an error *)
Definition cm_bracket {A} (enter : ConstState -> ConstState) (leave : ConstState -> ConstState -> ConstState)
    (m : ConstM A) : ConstM A := fun st env =>
  match m (enter st) env with
  | C_Ok a env st' => C_Ok a env (leave st st')
  | C_Err span message st' => C_Err span message (leave st st')
  | r => r
  end.

Definition pop {A} (l : list A) : list A := removelast l.

Definition cm_with_result {A} (result : RuntimeValue) (m : ConstM A) : ConstM A :=
  cm_bracket (fun st => set_contract_result st (Some result))
    (fun st st' => set_contract_result st' (contract_result st)) m.

Definition cm_with_function {A} (name : string) (m : ConstM A) : ConstM A :=
  cm_bracket (fun st => set_active_functions st (active_functions st ++ [name]))
    (fun _ st' => set_active_functions st' (pop (active_functions st'))) m.

(** The rest of [eval_const]: the value is kept, an error becomes a diagnostic. *)
Definition cm_with_const (name : string) (m : ConstM RuntimeValue) : ConstM (option RuntimeValue) := fun st env =>
  match cm_bracket (fun st => set_active_consts st (active_consts st ++ [name]))
          (fun _ st' => set_active_consts st' (pop (active_consts st'))) m st env with
  | C_Ok value env st => C_Ok (Some value) env (set_values st (<[name := value]> (values st)))
  | C_Err span message st =>
      C_Ok None env (push_diagnostic st (Diagnostic_new "mir.const-eval"
        ("failed to evaluate const `" ++ name ++ "` at compile time: " ++ message)%string span
        (Some "Keep stage-0 const items within the pure compile-time evaluator subset."%string)))
  | C_Panic => C_Panic
  | C_OutOfFuel => C_OutOfFuel
  end.

Definition contains (name : string) (l : list string) : bool := existsb (String.eqb name) l.

#[global] Instance ConstM_monad : ConstMonad ConstM := {|
  c_ret := @cm_ret;
  c_bind := @cm_bind;
  c_err := fun A span message st env => C_Err span message st;
  c_panic := fun A st env => C_Panic;
  c_diagnose := fun d st env => C_Ok tt env (push_diagnostic st d);
  c_read := fun name st env => C_Ok (env_read env name) env st;
  c_bind_value := fun name value st env => C_Ok tt (env_bind_value env name value) st;
  c_bind_slot := cm_bind_slot;
  c_assign := cm_assign;
  c_nested := @cm_nested;
  c_cloned := @cm_cloned;
  c_isolated := @cm_isolated;
  c_frame := @cm_isolated;
  c_result := fun st env => C_Ok (contract_result st) env st;
  c_with_result := @cm_with_result;
  c_cached := fun name st env => C_Ok (values st !! name) env st;
  c_const_active := fun name st env => C_Ok (contains name (active_consts st)) env st;
  c_with_const := cm_with_const;
  c_function_active := fun name st env => C_Ok (contains name (active_functions st)) env st;
  c_with_function := @cm_with_function
|}.

(** ** Running *)

Section Run.
Context `{Platform} (prog : ConstProgram) (overflow_checks : bool).

(** [n] bounds the depth of the calls of one method by another. *)
Fixpoint const_knot (n : nat) : Knot ConstM :=
  match n with
  | 0 => mkKnot (fun _ _ _ => C_OutOfFuel) (fun _ _ _ => C_OutOfFuel) (fun _ _ _ => C_OutOfFuel)
           (fun _ _ _ _ _ => C_OutOfFuel)
  | S n' => step prog overflow_checks (const_knot n')
  end.

Definition const_state (ds : list Diagnostic) : ConstState := mkConstState ∅ [] [] 0 None ds.

(** The keys of a [BTreeMap], in its order *)
Definition sorted_keys {A} (m : gmap string A) : list string := sort_by compare_text (map fst (map_to_list m)).

(** The values and the diagnostics are those of the state it ends in. *)
Definition evaluate_const_values (n : nat) (ds : list Diagnostic) : ConstOutcome unit :=
  c_each (fun name => c_bind (k_const (const_knot n) name) (fun _ => c_ret tt))
    (sorted_keys (cp_consts prog)) (const_state ds) ConstEnv_default.
End Run.

(** ** From a module *)

(** [filter_map(...).collect::<BTreeMap<_, _>>()]: of equal names the last one stays. *)
Definition collect_items {A} (f : Item -> option (string * A)) (items : HirModule) : gmap string A :=
  foldl (fun acc item => match f item with Some (name, a) => <[name := a]> acc | None => acc end) ∅ items.

Definition enum_variants_of (item : Item) : option (string * list EnumVariantType) :=
  match item with
  | It_Enum e =>
      Some (Hir.enum_name e,
            map (fun v => mkEnumVariantType (Hir.variant_name v) (option_map Hir.path (variant_payload v))
                            (variant_discriminant v))
              (Hir.variants e))
  | _ => None
  end.

Definition struct_fields_of (item : Item) : option (string * list string) :=
  match item with
  | It_Struct s => Some (Hir.struct_name s, map Hir.field_name (struct_fields_decl s))
  | _ => None
  end.

(** What [lower_with_imports] hands to the evaluator: imported enums and structs
    where the module has none of the name *)
Definition const_program (items : HirModule) (imported_variants : gmap string (list EnumVariantType))
    (imported_fields : gmap string (list string)) : ConstProgram :=
  mkConstProgram
    (collect_items (fun item => match item with It_Const c => Some (const_name c, c) | _ => None end) items)
    (collect_items (fun item => match item with It_Function f => Some (Hir.fn_name f, f) | _ => None end) items)
    (collect_items enum_variants_of items ∪ imported_variants)
    (collect_items struct_fields_of items ∪ imported_fields).

(** ** [comptime] *)

(** The value lowering puts in place of [comptime body]: names of constants are
    looked up in the table [table], and an error gives [Unit]. *)
Definition comptime_value `{Platform} (prog : ConstProgram) (checks : bool) (n : nat) (body : Body)
    (table : gmap string RuntimeValue) (ds : list Diagnostic) : option (RuntimeValue * list Diagnostic) :=
  let prog := mkConstProgram ∅ (cp_functions prog) (cp_enum_variants prog) (cp_struct_fields prog) in
  match k_body (const_knot prog checks n) body (mkConstState table [] [] 0 None ds) ConstEnv_default with
  | C_Ok value _ st => Some (value, diagnostics st)
  | C_Err _ _ st => Some (V_Unit, diagnostics st)
  | _ => None
  end.
