(* ===== verification/ConstLexical.v ===== *)
(** * Constants by lexical scope

    What a constant means: the methods of [ConstEval.v] over scopes that are
    lists of names and values, innermost first.  There are no slots, no cache and
    no stacks of what is being evaluated: every use of a constant evaluates it
    again.  A computation is a relation, and the methods are the least one that
    [step] closes, so an evaluation is finite.  It has one outcome at most. *)
From stdpp Require Import gmap pretty.
From S2P Require Import Prelude Syntax Utf8 TextOps Float64 Mir Interp Exec Entry Hir SemType ConstEval ConstRel ConstState.

Open Scope nat_scope.

(** ** Scopes *)

(** Whether the name is mutable, and its value *)
Definition Scope : Type := list (string * (bool * RuntimeValue)).

Fixpoint scope_find (name : string) (s : Scope) : option (bool * RuntimeValue) :=
  match s with
  | [] => None
  | (n, local) :: s' => if String.eqb n name then Some local else scope_find name s'
  end.

Fixpoint scope_set (name : string) (value : RuntimeValue) (s : Scope) : Scope :=
  match s with
  | [] => []
  | (n, (mutable, v)) :: s' =>
      if String.eqb n name then (n, (mutable, value)) :: s' else (n, (mutable, v)) :: scope_set name value s'
  end.

(** The value of a local after an assignment to it or inside it *)
Definition target_update (target : ConstTarget) (value current : RuntimeValue) : Result RuntimeValue string :=
  match target with
  | T_Local _ => RunOk value
  | T_Field name field => assign_field name field value current
  | T_Index _ index => update_runtime_array_index current index value
  | T_IndexField _ index field => update_runtime_array_record_field current index field value
  end.

Definition scope_assign (target : ConstTarget) (value : RuntimeValue) (s : Scope)
    : Result ConstAssignResult string * Scope :=
  match scope_find (target_name target) s with
  | None => (RunOk Unknown, s)
  | Some (false, _) => (RunOk Immutable, s)
  | Some (true, current) =>
      match target_update target value current with
      | RunOk value => (RunOk Assigned, scope_set (target_name target) value s)
      | RunErr message => (RunErr message, s)
      end
  end.

(** ** Computations *)

(** From the value of [result] and a scope to a value and a scope *)
Definition LexM (A : Type) : Type := option RuntimeValue -> Scope -> A -> Scope -> Prop.

Definition lex_ret {A} (a : A) : LexM A := fun _ s a' s' => a' = a /\ s' = s.
Definition lex_bind {A B} (m : LexM A) (k : A -> LexM B) : LexM B := fun r s b s' =>
  exists a s1, m r s a s1 /\ k a r s1 b s'.
Definition lex_get {A} (f : Scope -> A) : LexM A := fun _ s a s' => a = f s /\ s' = s.
Definition lex_put (f : Scope -> Scope) : LexM unit := fun _ s _ s' => s' = f s.
(** [m] from [start s] with [result], and [finish s] of the scope it leaves *)
Definition lex_within {A} (result : option RuntimeValue -> option RuntimeValue) (start : Scope -> Scope)
    (finish : Scope -> Scope -> Scope) (m : LexM A) : LexM A := fun r s a s' =>
  exists s1, m (result r) (start s) a s1 /\ s' = finish s s1.

(** What the inner scope added is dropped. *)
Definition leave_scope (s inner : Scope) : Scope := drop (length inner - length s) inner.

Definition bound (binding : option (string * RuntimeValue)) (s : Scope) : Scope :=
  match binding with Some (name, value) => (name, (false, value)) :: s | None => s end.

#[global] Instance LexM_monad : ConstMonad LexM := {|
  c_ret := @lex_ret;
  c_bind := @lex_bind;
  c_err := fun A span message _ _ _ _ => False;
  c_panic := fun A _ _ _ _ => False;
  c_diagnose := fun _ => lex_put id;
  c_read := fun name => lex_get (fun s => option_map snd (scope_find name s));
  c_bind_value := fun name value => lex_put (cons (name, (false, value)));
  c_bind_slot := fun name value => lex_put (cons (name, (true, value)));
  c_assign := fun target value _ s a s' => (a, s') = scope_assign target value s;
  c_nested := fun A binding => lex_within id (bound binding) leave_scope;
  c_cloned := fun A => lex_within id id (fun s _ => s);
  c_isolated := fun A => lex_within id (fun _ => []) (fun s _ => s);
  c_frame := fun A => lex_within (fun _ => None) (fun _ => []) (fun s _ => s);
  c_result := fun r s a s' => a = r /\ s' = s;
  c_with_result := fun A v => lex_within (fun _ => Some v) id (fun _ s => s);
  c_cached := fun _ => lex_ret None;
  c_const_active := fun _ => lex_ret false;
  c_with_const := fun _ m r s o s' => exists v, o = Some v /\ m None s v s';
  c_function_active := fun _ => lex_ret false;
  c_with_function := fun A _ m => m
|}.

(** ** Inclusion *)

Definition included (A : Type) (m1 m2 : LexM A) : Prop := forall r s a s', m1 r s a s' -> m2 r s a s'.

#[global] Instance included_rel : ConstRel included.
Proof.
  split; try (intros; exact (fun r s a s' H => H)).
  - intros A B m1 m2 f1 f2 Hm Hf r s b s' (a & s1 & H1 & H2). exists a, s1. split; [by apply Hm | by apply Hf].
  - intros A binding m1 m2 Hm r s a s' (s1 & H1 & ->). exists s1. split; [by apply Hm | done].
  - intros A m1 m2 Hm r s a s' (s1 & H1 & ->). exists s1. split; [by apply Hm | done].
Qed.

#[global] Instance included_call_rel prog : ConstCallRel prog included.
Proof.
  split; try (intros; exact (fun r s a s' H => H)); try (intros; assumption).
  - intros A m1 m2 Hm r s a s' (s1 & H1 & ->). exists s1. split; [by apply Hm | done].
  - intros A m1 m2 Hm r s a s' (s1 & H1 & ->). exists s1. split; [by apply Hm | done].
  - intros A v m1 m2 Hm r s a s' (s1 & H1 & ->). exists s1. split; [by apply Hm | done].
  - intros name m1 m2 _ Hm r s o s' (v & -> & H1). exists v. split; [done | by apply Hm].
Qed.

(** ** Evaluation *)
Section Lexical.
Context `{Platform} (prog : ConstProgram) (checks : bool).

Definition knot_le (K1 K2 : Knot LexM) : Prop := knot_rel included K1 K2.

(** The least knot that [step] closes *)
Definition lexical : Knot LexM := mkKnot
  (fun e r s v s' => forall K, knot_le (step prog checks K) K -> k_expr K e r s v s')
  (fun b r s v s' => forall K, knot_le (step prog checks K) K -> k_body K b r s v s')
  (fun name r s o s' => forall K, knot_le (step prog checks K) K -> k_const K name r s o s')
  (fun name args span r s v s' =>
     forall K, knot_le (step prog checks K) K -> k_function K name args span r s v s').

Lemma lexical_least K : knot_le (step prog checks K) K -> knot_le lexical K.
Proof. intros HK. split; intros; intros r s a s' Hlex; exact (Hlex K HK). Qed.

Lemma knot_le_trans K1 K2 K3 : knot_le K1 K2 -> knot_le K2 K3 -> knot_le K1 K3.
Proof. intros H12 H23. split; intros; intros r s a s' H1; by apply H23, H12. Qed.

Lemma lexical_closed : knot_le (step prog checks lexical) lexical.
Proof.
  assert (Hle : forall K, knot_le (step prog checks K) K -> knot_le (step prog checks lexical) K).
  { intros K HK. eapply knot_le_trans; [|exact HK]. apply rel_step; [apply _..|]. by apply lexical_least. }
  split; intros; intros r s a s' Hstep K HK; by apply (Hle K HK).
Qed.

Lemma lexical_unfold : knot_le lexical (step prog checks lexical).
Proof. apply lexical_least, rel_step; [apply _..|]. exact lexical_closed. Qed.

(** ** One outcome *)

Definition agree (A : Type) (m1 m2 : LexM A) : Prop :=
  forall r s a1 s1 a2 s2, m1 r s a1 s1 -> m2 r s a2 s2 -> a1 = a2 /\ s1 = s2.

#[local] Instance agree_rel : ConstRel agree.
Proof.
  split.
  - intros A a r s a1 s1 a2 s2 [-> ->] [-> ->]. done.
  - intros A B m1 m2 f1 f2 Hm Hf r s b1 s1 b2 s2 (a1 & t1 & H1 & H1') (a2 & t2 & H2 & H2').
    destruct (Hm _ _ _ _ _ _ H1 H2) as [-> ->]. exact (Hf _ _ _ _ _ _ _ H1' H2').
  - intros A span message r s a1 s1 a2 s2 [].
  - intros A r s a1 s1 a2 s2 [].
  - intros d r s [] s1 [] s2 -> ->. done.
  - intros name r s a1 s1 a2 s2 [-> ->] [-> ->]. done.
  - intros name v r s [] s1 [] s2 -> ->. done.
  - intros name v r s [] s1 [] s2 -> ->. done.
  - intros target v r s a1 s1 a2 s2. cbn. intros H1 H2. rewrite <- H1 in H2. by injection H2.
  - intros A binding m1 m2 Hm r s a1 s1 a2 s2 (t1 & H1 & ->) (t2 & H2 & ->).
    by destruct (Hm _ _ _ _ _ _ H1 H2) as [-> ->].
  - intros A m1 m2 Hm r s a1 s1 a2 s2 (t1 & H1 & ->) (t2 & H2 & ->).
    by destruct (Hm _ _ _ _ _ _ H1 H2) as [-> ->].
Qed.

#[local] Instance agree_call_rel : ConstCallRel prog agree.
Proof.
  assert (Hwithin : forall A f g h (m1 m2 : LexM A),
             agree A m1 m2 -> agree A (lex_within f g h m1) (lex_within f g h m2)).
  { intros A f g h m1 m2 Hm r s a1 s1 a2 s2 (t1 & H1 & ->) (t2 & H2 & ->).
    by destruct (Hm _ _ _ _ _ _ H1 H2) as [-> ->]. }
  split; try (intros; by apply Hwithin); try done.
  - intros r s a1 s1 a2 s2 [-> ->] [-> ->]. done.
  - intros name r s a1 s1 a2 s2 [-> ->] [-> ->]. done.
  - intros name r s a1 s1 a2 s2 [-> ->] [-> ->]. done.
  - intros name m1 m2 _ Hm r s o1 s1 o2 s2 (v1 & -> & H1) (v2 & -> & H2).
    by destruct (Hm _ _ _ _ _ _ H1 H2) as [-> ->].
  - intros name r s a1 s1 a2 s2 [-> ->] [-> ->]. done.
Qed.

(** The computations that agree with [lexical] *)
Definition agreeing : Knot LexM := mkKnot
  (fun e r s v s' => forall v2 s2, k_expr lexical e r s v2 s2 -> v = v2 /\ s' = s2)
  (fun b r s v s' => forall v2 s2, k_body lexical b r s v2 s2 -> v = v2 /\ s' = s2)
  (fun name r s v s' => forall v2 s2, k_const lexical name r s v2 s2 -> v = v2 /\ s' = s2)
  (fun name args span r s v s' =>
     forall v2 s2, k_function lexical name args span r s v2 s2 -> v = v2 /\ s' = s2).

Lemma lexical_agrees : knot_le lexical agreeing.
Proof.
  apply lexical_least.
  assert (HR : knot_rel agree (step prog checks agreeing) (step prog checks lexical)).
  { apply rel_step; [apply _..|]. split; intros; intros r s a1 s1 a2 s2 H1 H2; by apply H1. }
  destruct HR as [HE HB HC HF], lexical_unfold as [UE UB UC UF].
  split; intros; intros r s a1 s1 H1 a2 s2 H2.
  - exact (HE _ _ _ _ _ _ _ H1 (UE _ _ _ _ _ H2)).
  - exact (HB _ _ _ _ _ _ _ H1 (UB _ _ _ _ _ H2)).
  - exact (HC _ _ _ _ _ _ _ H1 (UC _ _ _ _ _ H2)).
  - exact (HF _ _ _ _ _ _ _ _ _ H1 (UF _ _ _ _ _ _ _ H2)).
Qed.

Lemma lexical_deterministic e r s v1 s1 v2 s2 :
  k_expr lexical e r s v1 s1 -> k_expr lexical e r s v2 s2 -> v1 = v2 /\ s1 = s2.
Proof. intros H1 H2. by apply (knot_rel_expr _ _ _ lexical_agrees _ _ _ _ _ H1). Qed.

(** [e] has the value [v], outside of any function *)
Definition const_evaluates (e : Expr) (v : RuntimeValue) : Prop :=
  exists s', k_expr lexical e None [] v s'.
End Lexical.
