(* ===== verification/ConstRefine.v ===== *)
(** * The evaluator refines lexical scope

    Slots, clones of the environment, the stacks and the cache of values against
    [ConstLexical.v]: what [ConstEvaluator] returns is what lexical scope gives,
    and so is every value it keeps. *)
From stdpp Require Import gmap pretty.
From S2P Require Import Prelude Syntax Utf8 TextOps Float64 Mir Interp Exec Entry Hir SemType ConstEval ConstRel ConstState ConstLexical.

Open Scope nat_scope.

(** ** Environments and scopes *)

(** The bindings in the order they were made, innermost first *)
Definition Bindings : Type := list (string * ConstBinding).

Definition slot_of (g : string * ConstBinding) : option ConstSlotId :=
  match g.2 with CB_Slot i => Some i | CB_Value _ => None end.

Definition entry_rel (sl : gmap ConstSlotId RuntimeValue) (g : string * ConstBinding)
    (l : string * (bool * RuntimeValue)) : Prop :=
  g.1 = l.1 /\
  match g.2 with
  | CB_Value v => l.2 = (false, v)
  | CB_Slot i => l.2.1 = true /\ sl !! i = Some l.2.2
  end.

(** Each mutable local has a slot of its own, and the next slot is free. *)
Record env_rel (next : Z) (g : Bindings) (env : ConstEnv) (s : Scope) : Prop := {
  env_rel_bindings : bindings env = list_to_map g;
  env_rel_entries : Forall2 (entry_rel (slots env)) g s;
  env_rel_own : NoDup (omap slot_of g);
  env_rel_free : forall i v, slots env !! i = Some v -> (i < next)%Z
}.

Definition binding_of (g : Bindings) (name : string) : option ConstBinding :=
  (list_to_map g : gmap string ConstBinding) !! name.

Lemma binding_of_cons n b g name :
  binding_of ((n, b) :: g) name = if String.eqb n name then Some b else binding_of g name.
Proof.
  unfold binding_of. rewrite list_to_map_cons. destruct (String.eqb_spec n name) as [->|Hne].
  - by rewrite lookup_insert_eq.
  - by rewrite lookup_insert_ne.
Qed.

Lemma entries_lookup sl g s name :
  Forall2 (entry_rel sl) g s ->
  match binding_of g name with
  | None => scope_find name s = None
  | Some (CB_Value v) => scope_find name s = Some (false, v)
  | Some (CB_Slot i) => exists v, scope_find name s = Some (true, v) /\ sl !! i = Some v
  end.
Proof.
  induction 1 as [|[n b] [n' [mut v]] g s [Hn Hb] _ IH]; [done|].
  rewrite binding_of_cons. cbn in *. subst n'. destruct (String.eqb n name); [|done].
  destruct b; [by rewrite Hb|]. destruct Hb as [-> Hb]. by exists v.
Qed.

Lemma lookup_binding_in (g : Bindings) name b :
  binding_of g name = Some b -> (name, b) ∈ g.
Proof.
  induction g as [|[n b'] g IH]; [done|]. rewrite binding_of_cons.
  destruct (String.eqb_spec n name) as [->|Hne]; [intros [= ->]; by left | intros; right; auto].
Qed.

Lemma entries_other sl g s i v :
  i ∉ omap slot_of g -> Forall2 (entry_rel sl) g s -> Forall2 (entry_rel (<[i := v]> sl)) g s.
Proof.
  intros Hi HF. revert Hi. induction HF as [|[n b] [n' [mut w]] g s [Hn Hb] _ IH]; intros Hi; constructor.
  - split; [done|]. cbn in *. destruct b as [|j]; [done|]. destruct Hb as [-> Hb]. split; [done|].
    rewrite lookup_insert_ne; [done|]. intros ->. apply Hi. cbn. left.
  - apply IH. intros Hin. apply Hi. cbn. unfold slot_of at 1; cbn. destruct b; [done | by right].
Qed.

Lemma entries_set sl g s name i v :
  NoDup (omap slot_of g) -> Forall2 (entry_rel sl) g s ->
  binding_of g name = Some (CB_Slot i) ->
  Forall2 (entry_rel (<[i := v]> sl)) g (scope_set name v s).
Proof.
  intros Hnd HF. revert Hnd. induction HF as [|[n b] [n' [mut w]] g s [Hn Hb] HF IH]; intros Hnd Hlook.
  { done. }
  rewrite binding_of_cons in Hlook. cbn in *. subst n'. destruct (String.eqb_spec n name) as [->|Hne].
  - injection Hlook as ->. destruct Hb as [Hmut Hb].
    apply NoDup_cons in Hnd as [Hi Hnd].
    constructor; [split; [done|]; cbn; by rewrite lookup_insert_eq | by apply entries_other].
  - constructor.
    + split; [done|]. cbn. destruct b as [|j]; [done|]. cbn in Hnd. apply NoDup_cons in Hnd as [Hj _].
      destruct Hb as [Hmut Hb]. split; [done|]. rewrite lookup_insert_ne; [done|]. intros ->.
      apply Hj. apply list_elem_of_omap. exists (name, CB_Slot j). split; [|done]. by apply lookup_binding_in.
    + apply IH; [|done]. unfold slot_of in Hnd at 1; cbn in Hnd.
      destruct b; [done|]. by apply NoDup_cons in Hnd as [_ ?].
Qed.

Lemma env_rel_read next g env s name :
  env_rel next g env s -> env_read env name = option_map snd (scope_find name s).
Proof.
  intros [HB HE _ _]. unfold env_read. rewrite HB. fold (binding_of g name). pose proof (entries_lookup _ _ _ name HE) as Hlook.
  destruct (binding_of g name) as [[v|i]|]; cbn; [by rewrite Hlook | | by rewrite Hlook].
  destruct Hlook as (v & -> & ->). done.
Qed.

Lemma env_rel_later next next' g env s : (next <= next')%Z -> env_rel next g env s -> env_rel next' g env s.
Proof. intros Hle [HB HE HO HF]. split; try done. intros i v Hi. specialize (HF i v Hi). lia. Qed.

Lemma env_rel_value next g env s name v :
  env_rel next g env s ->
  env_rel next ((name, CB_Value v) :: g) (env_bind_value env name v) ((name, (false, v)) :: s).
Proof.
  intros [HB HE HO HF]. split; cbn; [by rewrite HB | | done | done]. by constructor.
Qed.

Lemma env_rel_slot next g env s name v :
  env_rel next g env s ->
  env_rel (next + 1) ((name, CB_Slot next) :: g) (env_bind_slot env name next v) ((name, (true, v)) :: s).
Proof.
  intros [HB HE HO HF].
  assert (Hfresh : next ∉ omap slot_of g).
  { intros ([n b] & Hin & Hslot)%list_elem_of_omap. destruct b as [|i]; [done|]. injection Hslot as ->.
    apply list_elem_of_lookup in Hin as [k Hk]. destruct (Forall2_lookup_l _ _ _ _ _ HE Hk) as ([m w] & _ & _ & _ & Hi).
    specialize (HF _ _ Hi). lia. }
  split; cbn.
  - by rewrite HB.
  - constructor; [split; [done|]; cbn; by rewrite lookup_insert_eq | by apply entries_other].
  - by constructor.
  - intros i w. destruct (decide (i = next)) as [->|Hne]; [lia|]. rewrite lookup_insert_ne by done.
    intros Hi. specialize (HF _ _ Hi). lia.
Qed.

(** ** Assignments *)

Lemma env_rel_assign next g env s target value :
  env_rel next g env s ->
  match env_assign_target env target value with
  | RunOk (result, env') =>
      exists s', scope_assign target value s = (RunOk result, s') /\ env_rel next g env' s'
  | RunErr message => scope_assign target value s = (RunErr message, s)
  end.
Proof.
  intros Hrel.
  assert (Heq : env_assign_target env target value
                = env_update env (target_name target)
                    (fun current => match target, current with
                                    | T_Local _, _ => RunOk value
                                    | _, Some current => target_update target value current
                                    | _, None => RunErr ("compile-time mutable local `" ++ target_name target
                                                           ++ "` is unavailable")%string
                                    end)).
  { destruct target; cbn; unfold env_assign_record_field, env_assign_array_index, env_assign_array_record_field,
      env_assign, env_update, available; by repeat case_match. }
  rewrite Heq. clear Heq. unfold env_update, scope_assign.
  pose proof (entries_lookup _ _ _ (target_name target) (env_rel_entries _ _ _ _ Hrel)) as Hlook.
  rewrite (env_rel_bindings _ _ _ _ Hrel). fold (binding_of g (target_name target)).
  destruct (binding_of g (target_name target)) as [[v|i]|] eqn:Hg.
  - rewrite Hlook. by exists s.
  - destruct Hlook as (current & -> & Hi). rewrite Hi.
    replace (match target with T_Local _ => _ | _ => _ end) with (target_update target value current)
      by (by destruct target).
    destruct (target_update target value current) as [v|message]; cbn; [|done].
    eexists. split; [done|]. destruct Hrel as [HB HE HO HF]. split; cbn; try done.
    + by apply entries_set.
    + intros j w. destruct (decide (j = i)) as [->|Hne]; [intros _; by eapply HF|].
      rewrite lookup_insert_ne by done. apply HF.
  - rewrite Hlook. by exists s.
Qed.

(** ** Leaving a scope *)

Lemma commit_lookup (scoped : gmap ConstSlotId RuntimeValue) l (acc : gmap ConstSlotId RuntimeValue) i :
  foldl (fun acc slot => match scoped !! slot with Some v => <[slot := v]> acc | None => acc end) acc l !! i
  = match scoped !! i with
    | Some v => if bool_decide (i ∈ l) then Some v else acc !! i
    | None => acc !! i
    end.
Proof.
  revert acc. induction l as [|j l IH]; intros acc; cbn [foldl].
  - rewrite bool_decide_eq_false_2 by apply not_elem_of_nil. by destruct (scoped !! i).
  - rewrite IH. destruct (decide (i = j)) as [->|Hne].
    + rewrite (bool_decide_eq_true_2 (j ∈ j :: l)) by left. destruct (scoped !! j) as [v|] eqn:Hj; [|done].
      case_bool_decide; [done|]. by rewrite lookup_insert_eq.
    + destruct (scoped !! i) as [w|] eqn:Hi.
      * destruct (scoped !! j) as [v|]; [rewrite lookup_insert_ne by done|];
          by rewrite (bool_decide_ext (i ∈ j :: l) (i ∈ l)) by set_solver.
      * destruct (scoped !! j); [|done]. by rewrite lookup_insert_ne.
Qed.

Lemma env_rel_leave next next' g extra env scoped s s' :
  (next <= next')%Z -> env_rel next g env s -> env_rel next' (extra ++ g) scoped s' ->
  env_rel next' g (commit_outer_slots_from env scoped (outer_slot_ids env)) (leave_scope s s').
Proof.
  intros Hle [HB HE HO HF] [_ HE' _ _].
  apply Forall2_app_inv_l in HE' as (s1 & s2 & HE1 & HE2 & ->).
  unfold leave_scope. rewrite length_app, <- (Forall2_length _ _ _ HE2), (Forall2_length _ _ _ HE).
  replace (length s1 + length s - length s) with (length s1) by lia. rewrite drop_app_length.
  assert (Hids : forall i, i ∈ outer_slot_ids env <-> is_Some (slots env !! i)).
  { intros i. unfold outer_slot_ids. rewrite list_elem_of_fmap. split.
    - intros ([j v] & -> & Hin). apply elem_of_map_to_list in Hin. by exists v.
    - intros [v Hv]. exists (i, v). split; [done|]. by apply elem_of_map_to_list. }
  split; cbn; [done| |done|].
  - clear -HE HE2 Hids. revert s HE HE2. revert s2. induction g as [|[n b] g IH]; intros s2 s HE HE2.
    { inversion HE2. constructor. }
    inversion HE as [|? [m w] ? s0 [Hn Hb] HE0]; inversion HE2 as [|? [m' w'] ? s3 [Hn' Hb'] HE3]; subst.
    constructor; [|by eapply IH]. split; [done|]. cbn in *. destruct b as [|i]; [done|].
    destruct Hb as [_ Hb], Hb' as [Hmut Hb']. split; [done|]. rewrite commit_lookup, Hb'.
    rewrite bool_decide_eq_true_2; [done|]. apply Hids. by eexists.
  - intros i v Hv. assert (Hin : is_Some (slots env !! i)).
    { rewrite commit_lookup in Hv. repeat case_match; try by eexists. apply Hids. by eapply bool_decide_eq_true_1. }
    destruct Hin as [w Hw]. specialize (HF _ _ Hw). lia.
Qed.

(** ** The relation *)
Section Refine.
Context `{Platform} (prog : ConstProgram) (checks : bool).
#[local] Notation lex := (lexical prog checks).

(** [result] occurs in [ensures] only. *)
Definition not_result (e : Expr) : bool := match e with E_ContractResult _ => false | _ => true end.

Definition result_free (d : nat) : Prop :=
  (forall name item, cp_consts prog !! name = Some item -> everywhere not_result d (const_value item) = true) /\
  (forall name f, cp_functions prog !! name = Some f ->
     function_everywhere not_result d [fn_requires f] f = true).

(** Every value kept is the value of its constant. *)
Definition values_ok (st : ConstState) : Prop :=
  forall name v, values st !! name = Some v ->
  exists item, cp_consts prog !! name = Some item /\ const_evaluates prog checks (const_value item) v.

(** What becomes of the state of the evaluator *)
Definition later (st st' : ConstState) : Prop :=
  values_ok st' /\ (next_slot st <= next_slot st')%Z /\ contract_result st' = contract_result st.

(** With [seen], the computation of lexical scope knows [result]. *)
Definition refines (seen : bool) (A : Type) (m1 : ConstM A) (m2 : LexM A) : Prop :=
  forall g st env s, values_ok st -> env_rel (next_slot st) g env s ->
  match m1 st env with
  | C_Ok a env' st' =>
      later st st' /\
      exists extra s', m2 (if seen then contract_result st else None) s a s'
                       /\ env_rel (next_slot st') (extra ++ g) env' s'
  | C_Err _ _ st' => later st st'
  | _ => True
  end.

Lemma later_refl st : values_ok st -> later st st.
Proof. intros. by split. Qed.

Lemma later_trans st1 st2 st3 : later st1 st2 -> later st2 st3 -> later st1 st3.
Proof. intros (_ & Hn & Hr) (Hv & Hn' & Hr'). split; [done|]. split; [lia | congruence]. Qed.
#[local] Hint Resolve later_refl : core.

(** A computation that changes no binding and no state *)
Lemma refines_pure (seen : bool) A (f : ConstState -> ConstEnv -> A) (m2 : LexM A) :
  (forall g st env s, values_ok st -> env_rel (next_slot st) g env s ->
     m2 (if seen then contract_result st else None) s (f st env) s) ->
  refines seen A (fun st env => C_Ok (f st env) env st) m2.
Proof. intros Hm g st env s Hv Hrel. split; [by apply later_refl|]. exists [], s. split; [by eapply Hm | done]. Qed.

(** A computation inside [cm_within] *)
Lemma refines_within (seen seen' : bool) A before after start finish result (m1 : ConstM A) (m2 : LexM A) :
  (forall g st env s, env_rel (next_slot st) g env s ->
     exists g', env_rel (next_slot st) g' (before env) (start s)
     /\ (forall st' extra env' s', (next_slot st <= next_slot st')%Z ->
           env_rel (next_slot st') (extra ++ g') env' s' ->
           exists extra', env_rel (next_slot st') (extra' ++ g) (after env env') (finish s s'))) ->
  (forall r : option RuntimeValue, (if seen' then r else None) = result (if seen then r else None)) ->
  refines seen' A m1 m2 -> refines seen A (cm_within before after m1) (lex_within result start finish m2).
Proof.
  intros Hscope Hresult Hm g st env s Hv Hrel. unfold cm_within.
  destruct (Hscope _ _ _ _ Hrel) as (g' & Hrel' & Hleave). specialize (Hm g' st (before env) (start s) Hv Hrel').
  destruct (m1 st (before env)) as [a scoped st'|span message st'| |]; try done.
  destruct Hm as [Hlater (extra & s' & Hm2 & Hrel2)]. split; [done|].
  destruct (Hleave st' extra scoped s') as [extra' Hend]; [apply Hlater | done |].
  exists extra', (finish s s'). split; [|done]. exists s'. by rewrite <- Hresult.
Qed.

Lemma env_rel_default next : env_rel next [] ConstEnv_default [].
Proof. split; cbn; [done | constructor | constructor|]. intros i v. by rewrite lookup_empty. Qed.

#[local] Instance refines_rel seen : ConstRel (refines seen).
Proof.
  split.
  - intros A a. apply (refines_pure seen A (fun _ _ => a)). done.
  - intros A B m1 m2 f1 f2 Hm Hf g st env s Hv Hrel. cbn. unfold cm_bind.
    specialize (Hm g st env s Hv Hrel). destruct (m1 st env) as [a env1 st1|span message st1| |]; try done.
    destruct Hm as [Hlater1 (extra1 & s1 & Hm2 & Hrel1)].
    specialize (Hf a (extra1 ++ g) st1 env1 s1 (proj1 Hlater1) Hrel1). destruct (f1 a st1 env1); try done.
    + destruct Hf as [Hlater2 (extra2 & s2 & Hf2 & Hrel2)]. split; [by eapply later_trans|].
      exists (extra2 ++ extra1), s2. split; [|by rewrite <- app_assoc].
      exists a, s1. split; [done|]. by rewrite (proj2 (proj2 Hlater1)) in Hf2.
    + by eapply later_trans.
  - intros A span message g st env s Hv Hrel. by apply later_refl.
  - intros A g st env s Hv Hrel. done.
  - intros d g st env s Hv Hrel. split; [done|]. exists [], s. by split.
  - intros name. apply (refines_pure seen _ (fun _ env => env_read env name)). intros g st env s Hv Hrel.
    split; [by eapply env_rel_read | done].
  - intros name v g st env s Hv Hrel. split; [by apply later_refl|]. exists [(name, CB_Value v)]. eexists.
    split; [reflexivity | by apply env_rel_value].
  - intros name v g st env s Hv Hrel. cbn. unfold cm_bind_slot. destruct (_ <? _)%Z; [|done].
    split; [split; [done|]; cbn; split; [lia | done]|]. exists [(name, CB_Slot (next_slot st))]. eexists.
    split; [reflexivity | by apply env_rel_slot].
  - intros target v g st env s Hv Hrel. cbn. unfold cm_assign.
    pose proof (env_rel_assign _ _ _ _ target v Hrel) as Hassign.
    destruct (env_assign_target env target v) as [[result env']|message].
    + destruct Hassign as (s' & Hassign & Hrel'). split; [by apply later_refl|]. by exists [], s'.
    + split; [by apply later_refl|]. by exists [], s.
  - intros A binding m1 m2 Hm. apply (refines_within seen seen); [|by destruct seen|done].
    intros g st env s Hrel. destruct binding as [[name v]|].
    + exists ((name, CB_Value v) :: g). split; [by apply env_rel_value|]. intros st' extra env' s' Hle Hrel'.
      exists []. apply (env_rel_leave (next_slot st) _ _ (extra ++ [(name, CB_Value v)])); [done..|].
      by rewrite <- app_assoc.
    + exists g. split; [done|]. intros st' extra env' s' Hle Hrel'. exists []. by eapply env_rel_leave.
  - intros A m1 m2 Hm. apply (refines_within seen seen); [|by destruct seen|done].
    intros g st env s Hrel. exists []. split; [apply env_rel_default|]. intros st' extra env' s' Hle Hrel'.
    exists []. by eapply env_rel_later.
Qed.

Lemma refines_cloned seen A m1 m2 : refines seen A m1 m2 -> refines seen A (c_cloned m1) (c_cloned m2).
Proof.
  intros Hm. apply (refines_within seen seen); [|by destruct seen|done].
  intros g st env s Hrel. exists g. split; [done|]. intros st' extra env' s' Hle Hrel'.
  exists []. by eapply env_rel_later.
Qed.

Lemma refines_frame seen A m1 m2 : refines false A m1 m2 -> refines seen A (c_frame m1) (c_frame m2).
Proof.
  intros Hm. apply (refines_within seen false); [|done|done].
  intros g st env s Hrel. exists []. split; [apply env_rel_default|]. intros st' extra env' s' Hle Hrel'.
  exists []. by eapply env_rel_later.
Qed.

Lemma refines_with_result seen A v m1 m2 :
  refines true A m1 m2 -> refines seen A (c_with_result v m1) (c_with_result v m2).
Proof.
  intros Hm g st env s Hv Hrel. cbn. unfold cm_with_result, cm_bracket.
  specialize (Hm g (set_contract_result st (Some v)) env s Hv Hrel).
  destruct (m1 _ env) as [a env' st'|span message st'| |]; try done.
  - destruct Hm as [(Hv' & Hn & _) (extra & s' & Hm2 & Hrel')]. split; [by split|].
    exists extra, s'. split; [by exists s'|done].
  - destruct Hm as (Hv' & Hn & _). by split.
Qed.

Lemma refines_with_function seen A name m1 m2 :
  refines seen A m1 m2 -> refines seen A (c_with_function name m1) (c_with_function name m2).
Proof.
  intros Hm g st env s Hv Hrel. cbn. unfold cm_with_function, cm_bracket.
  specialize (Hm g (set_active_functions st (active_functions st ++ [name])) env s Hv Hrel).
  by destruct (m1 _ env).
Qed.

Lemma refines_included seen A m1 m2 m2' : refines seen A m1 m2 -> included A m2 m2' -> refines seen A m1 m2'.
Proof.
  intros Hm Hinc g st env s Hv Hrel. specialize (Hm g st env s Hv Hrel). destruct (m1 st env); try done.
  destruct Hm as [Hlater (extra & s' & Hm2 & Hrel')]. split; [done|]. exists extra, s'. split; [by apply Hinc | done].
Qed.

(** ** Constants *)

(** [eval_const] leaves the environment alone and returns values of constants only. *)
Definition const_refines (K : Knot ConstM) : Prop :=
  forall name st env, values_ok st ->
  match k_const K name st env with
  | C_Ok value env' st' =>
      later st st' /\ env' = env /\
      forall v, value = Some v ->
      exists item, cp_consts prog !! name = Some item /\ const_evaluates prog checks (const_value item) v
  | C_Err _ _ st' => later st st'
  | _ => True
  end.

Lemma step_const_refines K :
  (forall name item, cp_consts prog !! name = Some item ->
     refines false _ (k_expr K (const_value item)) (k_expr lex (const_value item))) ->
  const_refines (step prog checks K).
Proof.
  intros HE name st env Hv. cbn. unfold eval_const. cbn. unfold cm_bind.
  destruct (values st !! name) as [v|] eqn:Hcached.
  { cbn. split; [by apply later_refl|]. split; [done|]. intros v' [= <-]. by apply Hv. }
  destruct (cp_consts prog !! name) as [item|] eqn:Hitem; [|by cbn; split; [apply later_refl|]].
  cbn. destruct (contains name (active_consts st)); cbn; [by split|].
  unfold cm_with_const, cm_bracket, cm_isolated, cm_within.
  specialize (HE name item Hitem [] (set_active_consts st (active_consts st ++ [name])) ConstEnv_default [] Hv
                (env_rel_default _)).
  destruct (k_expr K (const_value item) _ _) as [v env' st'|span message st'| |]; try done.
  - destruct HE as [(Hv' & Hn & Hr) (extra & s' & Hlex & _)].
    assert (Heval : const_evaluates prog checks (const_value item) v) by by exists s'.
    split; [|split; [done|]; intros v' [= <-]; by exists item].
    split; [|by split]. intros name' v'. cbn. destruct (decide (name' = name)) as [->|Hne].
    + rewrite lookup_insert_eq. intros [= <-]. by exists item.
    + rewrite lookup_insert_ne by done. apply Hv'.
Qed.

Lemma lexical_const name item v r s :
  cp_consts prog !! name = Some item -> const_evaluates prog checks (const_value item) v ->
  k_const lex name r s (Some v) s.
Proof.
  intros Hitem [s' Hlex]. apply (knot_rel_const _ _ _ (lexical_closed prog checks)). cbn. unfold eval_const.
  exists None, s. split; [done|]. rewrite Hitem. exists false, s. split; [done|]. exists v. split; [done|].
  by exists s'.
Qed.

Lemma name_refines seen K name span :
  const_refines K -> refines seen _ (eval_name K name span) (eval_name lex name span).
Proof.
  intros HC. unfold eval_name. apply rel_bind; [apply rel_read|]. intros [v|]; [apply rel_ret|].
  intros g st env s Hv Hrel. cbn. unfold cm_bind. specialize (HC name st env Hv).
  destruct (k_const K name st env) as [value env' st'|span' message st'| |]; try done.
  destruct HC as (Hlater & -> & HC). destruct value as [v|]; cbn; [|done].
  destruct (HC v eq_refl) as (item & Hitem & Heval). split; [done|]. exists [], s.
  split; [|eapply env_rel_later; [apply Hlater | done]].
  exists (Some v), s. split; [by eapply lexical_const | done].
Qed.

(** ** Functions *)

Lemma function_refines seen K name args span :
  (forall f, cp_functions prog !! name = Some f ->
     option_all (fun e => refines false _ (k_expr K e) (k_expr lex e)) (fn_requires f) /\
     option_all (fun e => refines true _ (k_expr K e) (k_expr lex e)) (fn_ensures f) /\
     option_all (fun b => refines false _ (k_body K b) (k_body lex b)) (fn_body f)) ->
  refines seen _ (eval_function prog K name args span) (eval_function prog lex name args span).
Proof.
  intros HP. unfold eval_function. destruct (_ !! _) as [f|]; [|apply rel_err].
  destruct (HP f eq_refl) as (HReq & HEns & HBody).
  destruct (Hir.fn_effects f); [|apply rel_err]. destruct (fn_body f) as [body|]; [|apply rel_err].
  destruct (_ =? _); [|apply rel_err].
  assert (Hframe : refines seen _ (eval_function_body K name f body args)
                     (eval_function_body lex name f body args)).
  { apply refines_frame, rel_bind; [apply rel_params, _|]. intros _.
    apply rel_bind; [by apply rel_contract; [apply _|]|]. intros _.
    apply rel_bind; [by apply refines_with_function, refines_cloned|]. intros result.
    apply rel_bind; [|intros _; apply rel_ret]. by apply refines_with_result, rel_contract; [apply _|]. }
  intros g st env s Hv Hrel. cbn [c_bind ConstM_monad c_function_active]. unfold cm_bind at 1.
  destruct (contains name (active_functions st)); [by apply later_refl|].
  specialize (Hframe g st env s Hv Hrel). destruct (eval_function_body K name f body args st env); try done.
  destruct Hframe as [Hlater (extra & s' & Hlex & Hrel')]. split; [done|]. exists extra, s'. split; [|done].
  exists false, s. by split.
Qed.

(** ** All methods *)

(** [e] may see [result], or has none to see. *)
Definition may_read (seen : bool) (d : nat) (e : Expr) : Prop :=
  seen = true \/ everywhere not_result d e = true.
Definition body_may_read (seen : bool) (d : nat) (b : Body) : Prop :=
  seen = true \/ body_everywhere not_result d b = true.

Record knot_refines (K : Knot ConstM) : Prop := {
  refines_expr : forall seen d e, may_read seen d e -> refines seen _ (k_expr K e) (k_expr lex e);
  refines_body : forall seen d b, body_may_read seen d b -> refines seen _ (k_body K b) (k_body lex b);
  refines_const : const_refines K;
  refines_function : forall seen name args span,
    refines seen _ (k_function K name args span) (k_function lex name args span)
}.

Lemma may_read_parts seen d e :
  may_read seen d e ->
  (seen = true \/ not_result e = true) /\
  Forall (may_read seen (pred d)) (sub_exprs e) /\ Forall (body_may_read seen (pred d)) (sub_bodies e).
Proof.
  intros [->|He].
  - split; [by left|]. split; apply Forall_forall; intros; by left.
  - destruct d as [|d]; [done|]. apply everywhere_parts in He as (Hp & HE & HB). split; [by right|].
    split; (eapply Forall_impl; [eassumption|]); by right.
Qed.

Lemma body_may_read_parts seen d b :
  body_may_read seen d b ->
  Forall (fun s => Forall (may_read seen (pred d)) (stmt_exprs s)
                   /\ Forall (body_may_read seen (pred d)) (stmt_bodies s)) (body_statements b)
  /\ option_all (may_read seen (pred d)) (body_tail b).
Proof.
  intros [->|Hb].
  - split; [apply Forall_forall; intros s _; split; apply Forall_forall; intros; by left|].
    destruct (body_tail b); [by left | done].
  - destruct d as [|d]; [done|]. apply body_everywhere_parts in Hb as (HS & HT). split.
    + eapply Forall_impl; [exact HS|]. intros s [HE HB].
      split; (eapply Forall_impl; [eassumption|]); by right.
    + destruct (body_tail b); [by right | done].
Qed.

Theorem const_knot_refines d n : result_free d -> knot_refines (const_knot prog checks n).
Proof.
  intros [Hconsts Hfunctions]. induction n as [|n [IE IB IC IF]]; [by split|].
  destruct (lexical_closed prog checks) as [CE CB CC CF]. split.
  - intros seen d' e He. eapply refines_included; [|by apply CE]. cbn [const_knot step k_expr].
    pose proof (may_read_parts _ _ _ He) as (Hself & HE & HB). apply rel_expr_flow; [apply _| |].
    + split; (eapply Forall_impl; [eassumption|]); intros; by eapply IE || by eapply IB.
    + destruct e; try done; [by apply name_refines | | by eapply IE].
      destruct Hself as [-> | ]; [|done]. by apply (refines_pure true _ (fun st _ => contract_result st)).
  - intros seen d' b Hb. eapply refines_included; [|by apply CB]. cbn [const_knot step k_body].
    pose proof (body_may_read_parts _ _ _ Hb) as [HS HT]. apply rel_body; [apply _| |].
    + eapply Forall_impl; [exact HS|]. intros s [HE HB].
      split; (eapply Forall_impl; [eassumption|]); intros; by eapply IE || by eapply IB.
    + destruct (body_tail b); [by eapply IE | done].
  - apply step_const_refines. intros name item Hitem. eapply IE. right. by eapply Hconsts.
  - intros seen name args span. eapply refines_included; [|by apply CF]. cbn [const_knot step k_function]. apply function_refines.
    intros f Hf. specialize (Hfunctions name f Hf). unfold function_everywhere in Hfunctions. cbn in Hfunctions.
    apply andb_prop in Hfunctions as [[HReq _]%andb_prop HBody]. split; [|split].
    + destruct (fn_requires f); [|done]. eapply IE. by right.
    + destruct (fn_ensures f); [|done]. eapply (IE true 0). by left.
    + destruct (fn_body f); [|done]. eapply IB. by right.
Qed.

(** ** The table of constants *)

Lemma each_values_ok n d names st env :
  result_free d -> values_ok st ->
  match c_each (fun name => c_bind (k_const (const_knot prog checks n) name) (fun _ => c_ret tt)) names st env with
  | C_Ok _ _ st' | C_Err _ _ st' => values_ok st'
  | _ => True
  end.
Proof.
  intros Hfree. revert st env. induction names as [|name names IH]; intros st env Hv; [done|].
  cbn. unfold cm_bind. pose proof (refines_const _ (const_knot_refines d n Hfree) name st env Hv) as HC.
  destruct (k_const (const_knot prog checks n) name st env) as [value env' st'|span message st'| |]; try done.
  - destruct HC as [[Hv' _] _]. cbn. apply (IH st' env' Hv').
  - by destruct HC.
Qed.
End Refine.
