(* ===== verification/ConstBound.v ===== *)
(** * The evaluator comes to an end

    [active_consts] and [active_functions] cut recursion off: without [while] and
    without calls in contracts, the depth of the calls of one method by another
    is bounded by the constants and functions there are.  A contract that calls
    the function it belongs to is not cut off, since [requires] is evaluated
    before the function counts as active. *)
From stdpp Require Import gmap pretty.
From S2P Require Import Prelude Syntax Utf8 TextOps Float64 Mir Interp Exec Entry Hir SemType ConstEval ConstRel ConstState.

Open Scope nat_scope.

(** ** One computation alone

    A property of computations is a relation to the computations of a monad with
    one computation only. *)
Definition Alone (A : Type) : Type := unit.

#[global] Instance Alone_monad : ConstMonad Alone := {|
  c_ret := fun _ _ => tt; c_bind := fun _ _ _ _ => tt; c_err := fun _ _ _ => tt; c_panic := fun _ => tt;
  c_diagnose := fun _ => tt; c_read := fun _ => tt; c_bind_value := fun _ _ => tt;
  c_bind_slot := fun _ _ => tt; c_assign := fun _ _ => tt; c_nested := fun _ _ _ => tt;
  c_cloned := fun _ _ => tt; c_isolated := fun _ _ => tt; c_frame := fun _ _ => tt; c_result := tt;
  c_with_result := fun _ _ _ => tt; c_cached := fun _ => tt; c_const_active := fun _ => tt;
  c_with_const := fun _ _ => tt; c_function_active := fun _ => tt; c_with_function := fun _ _ _ => tt
|}.

Definition alone : Knot Alone := mkKnot (fun _ => tt) (fun _ => tt) (fun _ => tt) (fun _ _ _ => tt).

(** From a state with [I], the state a computation ends in satisfies [P] with the
    first one, and if [ends] it does not run out of fuel. *)
Definition run_leads (ends : bool) (I : ConstState -> Prop) (P : ConstState -> ConstState -> Prop) (A : Type)
    (m : ConstM A) (_ : Alone A) : Prop :=
  forall st env, I st ->
  match m st env with
  | C_Ok _ _ st' | C_Err _ _ st' => P st st'
  | C_Panic => True
  | C_OutOfFuel => if ends then False else True
  end.

(** What holds of the state from one call of a method to the next *)
Class StatePreorder (I : ConstState -> Prop) (P : ConstState -> ConstState -> Prop) := {
  state_refl : forall st, P st st;
  state_keeps : forall st st', I st -> P st st' -> I st';
  state_trans : forall st1 st2 st3, P st1 st2 -> P st2 st3 -> P st1 st3;
  state_diagnose : forall st d, P st (push_diagnostic st d);
  state_slot : forall st n, P st (set_next_slot st n)
}.

Section RunLeads.
Context (ends : bool) (I : ConstState -> Prop) (P : ConstState -> ConstState -> Prop) `{!StatePreorder I P}.

Lemma run_leads_within A before after (m : ConstM A) u :
  run_leads ends I P A m u -> run_leads ends I P A (cm_within before after m) tt.
Proof. intros Hm st env HI. unfold cm_within. specialize (Hm st (before env) HI). by destruct (m st (before env)). Qed.

#[export] Instance run_leads_rel : ConstRel (run_leads ends I P).
Proof.
  split; try (intros; intros st env HI; apply state_refl).
  - intros A B m1 m2 f1 f2 Hm Hf st env HI. cbn. unfold cm_bind. specialize (Hm st env HI).
    destruct (m1 st env) as [a env1 st1| | |]; try done.
    specialize (Hf a st1 env1 (state_keeps _ _ HI Hm)). destruct (f1 a st1 env1); try done; by eapply state_trans.
  - intros A st env HI. exact Logic.I.
  - intros d st env HI. apply state_diagnose.
  - intros name v st env HI. cbn. unfold cm_bind_slot. destruct (_ <? _)%Z; [apply state_slot | exact Logic.I].
  - intros target v st env HI. cbn. unfold cm_assign.
    destruct (env_assign_target env target v) as [[]|]; apply state_refl.
  - intros A binding m1 m2 Hm. by eapply run_leads_within.
  - intros A m1 m2 Hm. by eapply run_leads_within.
Qed.

Lemma run_leads_cloned A (m : ConstM A) u : run_leads ends I P A m u -> run_leads ends I P A (c_cloned m) tt.
Proof. apply run_leads_within. Qed.

Lemma run_leads_frame A (m : ConstM A) u : run_leads ends I P A m u -> run_leads ends I P A (c_frame m) tt.
Proof. apply run_leads_within. Qed.
End RunLeads.

(** ** Diagnostics and values only grow, the values by those of constants *)

Section Grows.
Context (prog : ConstProgram).

Definition grows (st st' : ConstState) : Prop :=
  (exists ds, diagnostics st' = diagnostics st ++ ds) /\ dom (values st) ⊆ dom (values st') /\
  dom (values st') ⊆ dom (values st) ∪ dom (cp_consts prog).

#[export] Instance grows_preorder : StatePreorder (fun _ => True) grows.
Proof.
  split.
  - intros st. split; [exists []; by rewrite app_nil_r | set_solver].
  - done.
  - intros st1 st2 st3 [[ds1 H1] Hv1] [[ds2 H2] Hv2]. split; [|set_solver].
    exists (ds1 ++ ds2). by rewrite H2, H1, app_assoc.
  - intros st d. split; [by exists [d] | set_solver].
  - intros st n. split; [by exists []; rewrite app_nil_r | set_solver].
Qed.

Lemma grows_bracket A enter leave (m : ConstM A) u :
  (forall st, diagnostics (enter st) = diagnostics st /\ values (enter st) = values st) ->
  (forall st st', diagnostics (leave st st') = diagnostics st' /\ values (leave st st') = values st') ->
  run_leads false (fun _ => True) grows A m u -> run_leads false (fun _ => True) grows A (cm_bracket enter leave m) tt.
Proof.
  intros He Hl Hm st env HI. unfold cm_bracket. specialize (Hm (enter st) env HI). specialize (He st) as [He1 He2].
  destruct (m (enter st) env) as [a env' st'|span message st'| |]; try done; destruct (Hl st st') as [Hl1 Hl2];
    destruct Hm as [[ds Hd] Hv]; (split; [exists ds; congruence | by rewrite Hl2, <- He2]).
Qed.

#[export] Instance grows_call_rel : ConstCallRel prog (run_leads false (fun _ => True) grows).
Proof.
  split; try (intros; by eapply run_leads_within); try (intros; intros st env HI; by eapply (state_refl (StatePreorder := grows_preorder))).
  - intros A v m1 m2 Hm. by eapply grows_bracket.
  - intros name m1 m2 [item Hitem%elem_of_dom_2] Hm st env HI. cbn. unfold cm_with_const.
    assert (Hb := grows_bracket _ (fun st => set_active_consts st (active_consts st ++ [name]))
                    (fun _ st' => set_active_consts st' (pop (active_consts st'))) m1 tt
                    (fun _ => conj eq_refl eq_refl) (fun _ _ => conj eq_refl eq_refl)).
    destruct m2. specialize (Hb Hm st env HI).
    destruct (cm_bracket _ _ m1 st env) as [v env' st'|span message st'| |]; try done.
    + eapply (state_trans (StatePreorder := grows_preorder)); [exact Hb|]. split; [by exists []; rewrite app_nil_r|]. cbn. set_solver.
    + eapply (state_trans (StatePreorder := grows_preorder)); [exact Hb | apply (state_diagnose (StatePreorder := grows_preorder))].
  - intros A name m1 m2 Hm. by eapply grows_bracket.
Qed.

Context `{Platform} (checks : bool).

Lemma const_knot_grows n : knot_rel (run_leads false (fun _ => True) grows) (const_knot prog checks n) alone.
Proof.
  induction n as [|n IH]; [by split|].
  assert (Halone : forall K : Knot Alone, knot_rel (run_leads false (fun _ => True) grows) (const_knot prog checks (S n)) K ->
                     knot_rel (run_leads false (fun _ => True) grows) (const_knot prog checks (S n)) alone).
  { intros K [HE HB HC HF]. split; intros; intros st env HI;
      [by apply (HE e) | by apply (HB b) | by apply (HC name) | by apply (HF name args span)]. }
  eapply Halone, (rel_step _ _ _ _ _ IH).
Qed.
End Grows.

(** ** The stacks are restored *)

Definition same_stacks (st st' : ConstState) : Prop :=
  active_consts st' = active_consts st /\ active_functions st' = active_functions st.

Definition stacks (ac af : list string) (st : ConstState) : Prop :=
  active_consts st = ac /\ active_functions st = af.

#[export] Instance stacks_preorder ac af : StatePreorder (stacks ac af) same_stacks.
Proof.
  split; try done.
  - intros st st' [] []. split; congruence.
  - intros st1 st2 st3 [] []. split; congruence.
Qed.

Lemma run_leads_bracket A I I' enter leave (m : ConstM A) u :
  (forall st, I st -> I' (enter st)) ->
  (forall st st', same_stacks (enter st) st' -> same_stacks st (leave st st')) ->
  run_leads true I' same_stacks A m u -> run_leads true I same_stacks A (cm_bracket enter leave m) tt.
Proof.
  intros He Hl Hm st env HI. unfold cm_bracket. specialize (Hm (enter st) env (He st HI)).
  destruct (m (enter st) env); try done; by apply Hl.
Qed.

Lemma pop_snoc {A} (l : list A) a : pop (l ++ [a]) = l.
Proof. apply removelast_last. Qed.

Lemma contains_spec name l : contains name l = true <-> name ∈ l.
Proof.
  unfold contains. rewrite existsb_exists. setoid_rewrite String.eqb_eq. split.
  - intros (x & Hin & ->). by apply list_elem_of_In.
  - intros. exists name. split; [by apply list_elem_of_In | done].
Qed.

(** ** What is left *)

Section Bound.
Context `{Platform} (prog : ConstProgram) (checks : bool).

(** Constants and functions that do not count as active *)
Definition remaining (ac af : list string) : nat :=
  size (dom (cp_consts prog) ∖ list_to_set ac) + size (dom (cp_functions prog) ∖ list_to_set af).

Lemma size_activate (X : gset string) name l :
  name ∈ X -> name ∉ l -> size (X ∖ list_to_set (l ++ [name])) < size (X ∖ list_to_set l).
Proof. intros HX Hl. apply subset_size. set_solver. Qed.

Lemma remaining_const name item ac af :
  cp_consts prog !! name = Some item -> name ∉ ac -> remaining (ac ++ [name]) af < remaining ac af.
Proof.
  intros Hname Hac. unfold remaining.
  pose proof (size_activate (dom (cp_consts prog)) name ac) as Hsize. apply elem_of_dom_2 in Hname.
  specialize (Hsize Hname Hac). lia.
Qed.

Lemma remaining_function name f ac af :
  cp_functions prog !! name = Some f -> name ∉ af -> remaining ac (af ++ [name]) < remaining ac af.
Proof.
  intros Hname Haf. unfold remaining.
  pose proof (size_activate (dom (cp_functions prog)) name af) as Hsize. apply elem_of_dom_2 in Hname.
  specialize (Hsize Hname Haf). lia.
Qed.

(** No [while], and unless [calls], no call of a function *)
Definition bounded_expr (calls : bool) (e : Expr) : bool :=
  match e with
  | E_While _ _ _ => false
  | E_Call callee _ _ => calls || negb (is_function prog callee)
  | _ => true
  end.

(** No [while] at all and no function called by a contract, in expressions at
    most [d] deep *)
Definition bounded_program (d : nat) : Prop :=
  map_Forall (fun _ item => everywhere (bounded_expr true) d (const_value item) = true) (cp_consts prog) /\
  map_Forall (fun _ f =>
    forallb (fun clause => match clause with Some e => everywhere (bounded_expr false) d e | None => true end)
      [fn_requires f; fn_ensures f] = true /\
    match fn_body f with Some b => body_everywhere (bounded_expr true) d b = true | None => True end)
    (cp_functions prog).

(** The fuel a constant, and a call, may need where [r] remain *)
Definition const_need (d r : nat) : nat := (2 * d + 3) * r + 1.
Definition call_need (d r : nat) : nat := (2 * d + 3) * r + d + 3.
Definition need (calls : bool) (d r : nat) : nat := if calls then call_need d r else const_need d r.

Section Ends.
Context (d : nat) (Hprog : bounded_program d).

#[local] Notation ends_in ac af := (run_leads true (stacks ac af) same_stacks).

Record knot_ends (n : nat) : Prop := {
  ends_expr : forall ac af calls k e, everywhere (bounded_expr calls) k e = true ->
    k + need calls d (remaining ac af) <= n -> ends_in ac af _ (k_expr (const_knot prog checks n) e) tt;
  ends_body : forall ac af calls k b, body_everywhere (bounded_expr calls) k b = true ->
    k + need calls d (remaining ac af) <= n -> ends_in ac af _ (k_body (const_knot prog checks n) b) tt;
  ends_const : forall ac af name, const_need d (remaining ac af) <= n ->
    ends_in ac af _ (k_const (const_knot prog checks n) name) tt;
  ends_function : forall ac af name args span,
    (if is_function prog name then call_need d (remaining ac af) else 1) <= n ->
    ends_in ac af _ (k_function (const_knot prog checks n) name args span) tt
}.

Lemma ends_eval_const n ac af name :
  knot_ends n -> const_need d (remaining ac af) <= S n ->
  ends_in ac af _ (eval_const prog (const_knot prog checks n) name) tt.
Proof.
  intros IH Hn st env [<- <-]. unfold eval_const. cbn. unfold cm_bind. destruct (values st !! name); [done|].
  destruct (cp_consts prog !! name) as [item|] eqn:Hitem; [|done].
  cbn. destruct (contains name (active_consts st)) eqn:Hactive; [done|].
  assert (Hnew : name ∉ active_consts st) by (rewrite <- contains_spec; congruence).
  pose proof (remaining_const _ _ _ (active_functions st) Hitem Hnew) as Hless.
  assert (HE : ends_in (active_consts st ++ [name]) (active_functions st) _
                 (k_expr (const_knot prog checks n) (const_value item)) tt).
  { eapply (ends_expr _ IH _ _ true d); [by eapply (proj1 Hprog)|]. unfold need, call_need, const_need in *. nia. }
  pose proof (run_leads_bracket _ (stacks (active_consts st) (active_functions st))
    (stacks (active_consts st ++ [name]) (active_functions st))
    (fun st => set_active_consts st (active_consts st ++ [name]))
    (fun _ st' => set_active_consts st' (pop (active_consts st'))) _ tt ltac:(intros ? []; split; cbn; congruence)
    ltac:(intros ?? [Hac Haf]; split; cbn in *; [by rewrite Hac, pop_snoc | done])
    (run_leads_within _ _ _ _ (fun _ => ConstEnv_default) (fun env _ => env) _ _ HE) st env (conj eq_refl eq_refl)) as Hb.
  unfold cm_with_const, cm_isolated. destruct (cm_bracket _ _ _ st env); done.
Qed.

Lemma ends_clause n ac af clause name keyword :
  knot_ends n -> match clause with Some e => everywhere (bounded_expr false) d e | None => true end = true ->
  d + const_need d (remaining ac af) <= n ->
  ends_in ac af _ (eval_contract (const_knot prog checks n) clause name keyword) tt.
Proof.
  intros IH Hclause Hn. apply (rel_contract (ends_in ac af) (const_knot prog checks n) alone). destruct clause as [e|]; [|done].
  by eapply (ends_expr _ IH _ _ false d).
Qed.

Lemma ends_eval_function n ac af name args span :
  knot_ends n -> (if is_function prog name then call_need d (remaining ac af) else 1) <= S n ->
  ends_in ac af _ (eval_function prog (const_knot prog checks n) name args span) tt.
Proof.
  intros IH Hn. unfold eval_function, is_function in *.
  destruct (cp_functions prog !! name) as [f|] eqn:Hf; [|by intros st env].
  destruct (proj2 Hprog name f Hf) as [Hclauses Hbody]. cbn in Hclauses.
  apply andb_prop in Hclauses as [HReq [HEns _]%andb_prop].
  destruct (Hir.fn_effects f); [|by intros st env]. destruct (fn_body f) as [body|]; [|by intros st env].
  destruct (_ =? _); [|by intros st env].
  assert (Hneed : call_need d (remaining ac af) <= S n) by done. unfold call_need in Hneed.
  intros st env HI. cbn [c_bind ConstM_monad c_function_active]. unfold cm_bind at 1.
  destruct (contains name (active_functions st)) eqn:Hactive; [done|].
  assert (Hnew : name ∉ af) by (rewrite <- contains_spec; destruct HI as [_ <-]; congruence).
  pose proof (remaining_function _ _ ac af Hf Hnew) as Hless. clear Hactive. revert st env HI.
  apply (run_leads_frame true (stacks ac af) same_stacks _ _ tt), (rel_bind (R := ends_in ac af) _ _ _ tt _ (fun _ => tt)); [by apply (rel_params (ends_in ac af))|]. intros _.
  apply (rel_bind (R := ends_in ac af) _ _ _ tt _ (fun _ => tt)); [apply ends_clause; [done..|unfold const_need; lia]|]. intros _.
  apply (rel_bind (R := ends_in ac af) _ _ _ tt _ (fun _ => tt)).
  - apply (run_leads_bracket _ _ (stacks ac (af ++ [name])) _ _ _ tt); [intros ? []; split; cbn; congruence | |].
    + intros st st' [Hac Haf]. split; cbn in *; [done | by rewrite Haf, pop_snoc].
    + apply (run_leads_cloned true _ _ _ _ tt). eapply (ends_body _ IH _ _ true d); [done|].
      unfold need, call_need. nia.
  - intros result. apply (rel_bind (R := ends_in ac af) _ _ _ tt _ (fun _ => tt)); [|intros _; by apply (rel_ret (R := ends_in ac af))].
    apply (run_leads_bracket _ _ (stacks ac af) _ _ _ tt); [by intros ? [] | by intros ?? [] |].
    apply ends_clause; [done..|unfold const_need; lia].
Qed.

Lemma bounded_parts calls k e :
  everywhere (bounded_expr calls) (S k) e = true ->
  bounded_expr calls e = true /\ Forall (fun e => everywhere (bounded_expr calls) k e = true) (sub_exprs e)
  /\ Forall (fun b => body_everywhere (bounded_expr calls) k b = true) (sub_bodies e).
Proof. apply everywhere_parts. Qed.

Lemma need_const calls r : const_need d r <= need calls d r.
Proof. destruct calls; unfold need, call_need, const_need; lia. Qed.

(** With enough fuel every method ends, and leaves the stacks as they were. *)
Theorem const_knot_ends n : knot_ends n.
Proof.
  induction n as [|n IH].
  { split.
    - intros ac af calls [|k] e He Hn; [done | lia].
    - intros ac af calls [|k] b Hb Hn; [done | lia].
    - intros ac af name Hn. unfold const_need in Hn. lia.
    - intros ac af name args span Hn. unfold call_need in Hn. case_match; lia. }
  split.
  - intros ac af calls [|k] e He Hn; [done|]. apply bounded_parts in He as (Hp & HE & HB).
    pose proof (need_const calls (remaining ac af)) as Hconst.
    apply (rel_expr_flow (ends_in ac af) prog checks (const_knot prog checks n) alone).
    + split; (eapply Forall_impl; [eassumption|]); intros; [apply (ends_expr _ IH ac af calls k) | apply (ends_body _ IH ac af calls k)];
        (done || lia).
    + destruct e; try done.
      * apply (rel_name (ends_in ac af) _ alone). eapply (ends_const _ IH). lia.
      * intros args'. apply (ends_function _ IH). cbn in Hp. unfold need in Hn.
        destruct calls, (is_function prog callee); cbn in *; try done; unfold const_need in *; lia.
  - intros ac af calls [|k] b Hb Hn; [done|]. apply body_everywhere_parts in Hb as [HS HT].
    apply (rel_body (ends_in ac af) (const_knot prog checks n) alone).
    + eapply Forall_impl; [exact HS|]. intros s [HE HB].
      split; (eapply Forall_impl; [eassumption|]); intros; [apply (ends_expr _ IH ac af calls k) | apply (ends_body _ IH ac af calls k)];
        (done || lia).
    + destruct (body_tail b); [|done]. apply (ends_expr _ IH ac af calls k); [exact HT | lia].
  - intros. by apply ends_eval_const.
  - intros. by apply ends_eval_function.
Qed.
End Ends.
End Bound.
