(* ===== verification/ConstSpec.v ===== *)
(** * Constants: the theorems

    [evaluate_const_values] as a whole: what the table of constants holds, that a
    constant without a value is reported, when the evaluation ends, and two
    programs on which it does not do what one expects. *)
From stdpp Require Import gmap pretty.
From S2P Require Import Prelude Syntax Utf8 TextOps Float64 Mir Interp Sorts Samples Exec Entry Hir SemType ConstEval ConstRel ConstState ConstLexical ConstRefine ConstBound.

Open Scope nat_scope.

(** ** Helpers *)

Lemma sorted_keys_spec {A} (m : gmap string A) name : name ∈ sorted_keys m <-> is_Some (m !! name).
Proof.
  unfold sorted_keys. rewrite sort_by_perm, list_elem_of_fmap. split.
  - intros ([n v] & -> & Hin). apply elem_of_map_to_list in Hin. by exists v.
  - intros [v Hv]. exists (name, v). split; [done|]. by apply elem_of_map_to_list.
Qed.

(** A diagnostic about the constant [name] *)
Definition reports (name : string) (d : Diagnostic) : Prop :=
  diag_code d = "mir.const-eval"%string /\
  (diag_message d = ("failed to evaluate cyclic const `" ++ name ++ "` at compile time")%string \/
   exists message,
     diag_message d = ("failed to evaluate const `" ++ name ++ "` at compile time: " ++ message)%string).

(** The constant has a value or is reported. *)
Definition settled (name : string) (st : ConstState) : Prop :=
  name ∈ dom (values st) \/ exists d, d ∈ diagnostics st /\ reports name d.

Lemma settled_grows prog name st st' : grows prog st st' -> settled name st -> settled name st'.
Proof.
  intros ([ds Hds] & Hv & _) [Hin|(d & Hd & Hr)]; [left; set_solver|]. right. exists d. split; [|done].
  rewrite Hds. apply elem_of_app. by left.
Qed.

Section Table.
Context `{Platform} (prog : ConstProgram) (checks : bool).

Lemma eval_const_settles n name st env :
  is_Some (cp_consts prog !! name) ->
  match k_const (const_knot prog checks n) name st env with
  | C_Ok _ _ st' => settled name st'
  | C_Err _ _ _ => False
  | _ => True
  end.
Proof.
  intros [item Hitem]. destruct n as [|n]; [done|]. cbn. unfold eval_const. cbn. unfold cm_bind.
  destruct (values st !! name) as [v|] eqn:Hcached; [left; by eapply elem_of_dom_2|].
  rewrite Hitem. cbn. destruct (contains name (active_consts st)).
  { right. eexists. split; [apply elem_of_app; right; by left|]. split; [done|]. by left. }
  unfold cm_with_const. destruct (cm_bracket _ _ _ st env) as [v env' st'|span message st'| |]; try done.
  - left. cbn. set_solver.
  - right. eexists. split; [apply elem_of_app; right; by left|]. split; [done|]. right. by exists message.
Qed.

Lemma table_settled n names st env :
  (forall name, name ∈ names -> is_Some (cp_consts prog !! name)) ->
  match c_each (fun name => c_bind (k_const (const_knot prog checks n) name) (fun _ => c_ret tt)) names st env with
  | C_Ok _ _ st' => grows prog st st' /\ forall name, name ∈ names -> settled name st'
  | C_Err _ _ _ => False
  | _ => True
  end.
Proof.
  revert st env. induction names as [|name names IH]; intros st env Hnames.
  { split; [apply (state_refl (StatePreorder := grows_preorder prog)) | by intros ? ?%elem_of_nil]. }
  cbn. unfold cm_bind.
  pose proof (eval_const_settles n name st env (Hnames name ltac:(by left))) as Hname.
  pose proof (knot_rel_const _ _ _ (const_knot_grows prog checks n) name st env Logic.I) as Hgrows.
  destruct (k_const (const_knot prog checks n) name st env) as [value env' st'|span message st'| |]; try done.
  cbn. specialize (IH st' env' ltac:(intros; apply Hnames; by right)).
  destruct (c_each (M := ConstM) _ names st' env') as [[] env'' st''|span message st''| |]; try done.
  destruct IH as [Hgrows' Hsettled]. split; [by eapply (state_trans (StatePreorder := grows_preorder prog))|].
  intros name' [->|Hin]%elem_of_cons; [by eapply settled_grows | by apply Hsettled].
Qed.

(** Only constants get values. *)
Lemma evaluated_declared n ds u env st name :
  evaluate_const_values prog checks n ds = C_Ok u env st -> is_Some (values st !! name) -> is_Some (cp_consts prog !! name).
Proof.
  unfold evaluate_const_values. intros E Hv.
  pose proof (table_settled n (sorted_keys (cp_consts prog)) (const_state ds) ConstEnv_default
                (fun name => proj1 (sorted_keys_spec _ name))) as Hg.
  rewrite E in Hg. destruct Hg as ((_ & _ & Hdom) & _). apply elem_of_dom. apply elem_of_dom in Hv. cbn in Hdom. set_solver.
Qed.

Lemma table_ends n d names st env :
  bounded_program prog d -> const_need d (remaining prog [] []) <= n -> stacks [] [] st ->
  c_each (fun name => c_bind (k_const (const_knot prog checks n) name) (fun _ => c_ret tt)) names st env
  <> C_OutOfFuel.
Proof.
  intros Hprog Hn Hst.
  assert (HR : run_leads true (stacks [] []) same_stacks _
                 (c_each (fun name => c_bind (k_const (const_knot prog checks n) name) (fun _ => c_ret tt)) names)
                 (c_each (fun _ => tt) names)).
  { apply (rel_each (run_leads true (stacks [] []) same_stacks)), Forall_forall. intros name _.
    apply (rel_bind (R := run_leads true (stacks [] []) same_stacks) _ _ _ tt _ (fun _ => tt)).
    - by apply (ends_const prog checks d n (const_knot_ends prog checks d Hprog n)).
    - intros _. by apply (rel_ret (R := run_leads true (stacks [] []) same_stacks)). }
  specialize (HR st env Hst). by destruct (c_each (M := ConstM) _ names st env).
Qed.

Lemma remaining_nil : remaining prog [] [] = size (cp_consts prog) + size (cp_functions prog).
Proof. unfold remaining. cbn. by rewrite !difference_empty_L, !size_dom. Qed.
End Table.

(** ** A program

    [fn f(x: I32) -> I32 { if x == 0 { 7 } else { B } }], [const A = f(1)] and
    [const B = f(0)]: the constants depend on [f] both, and [A] on [B] too. *)
Definition i32 : TypeRef := mkTypeRef "I32" no_span.

Definition call_f (n : Z) : Expr := E_Call "f" [E_Integer n no_span] no_span.

Definition zero_or_b : Hir.Function :=
  Hir.mkFunction "f" [] [Hir.mkParam "x" i32 no_span] (Some i32) [] None None
    (Some (mkBody []
      (Some (E_If (E_Binary B_Eq (E_Name "x" no_span) (E_Integer 0 no_span) no_span)
               (mkBody [] (Some (E_Integer 7 no_span)) no_span)
               (mkBody [] (Some (E_Name "B" no_span)) no_span) no_span)) no_span))
    no_span.

Definition sample_consts : ConstProgram :=
  mkConstProgram
    {["A" := mkConst "A" i32 (call_f 1) no_span; "B" := mkConst "B" i32 (call_f 0) no_span]}
    {["f" := zero_or_b]} ∅ ∅.

Lemma sample_result_free : result_free sample_consts 6.
Proof.
  split.
  - apply map_Forall_to_list. vm_compute. repeat constructor.
  - apply map_Forall_to_list. vm_compute. repeat constructor.
Defined.

Lemma sample_bounded : bounded_program sample_consts 6.
Proof.
  split.
  - apply map_Forall_to_list. vm_compute. repeat constructor.
  - apply map_Forall_to_list. vm_compute. repeat constructor.
Defined.

(** The state a run of [evaluate_const_values] ends in *)
Definition end_state (r : ConstOutcome unit) : option ConstState :=
  match r with C_Ok _ _ st => Some st | _ => None end.

(** ** The theorems *)
Section Theorems.
Context `{Platform} (prog : ConstProgram) (checks : bool).

(** C16: Every value in the table of constants is the one value that evaluating
    the constant's expression by lexical scope has, with every name evaluated
    where it is used: slots, copies of environments and the values kept from
    before make no difference. *)
Theorem const_values_lexical d n ds env st name v :
  result_free prog d -> evaluate_const_values prog checks n ds = C_Ok tt env st ->
  values st !! name = Some v ->
  exists item, cp_consts prog !! name = Some item /\
    forall w, const_evaluates prog checks (const_value item) w <-> w = v.
Proof.
  intros Hfree Hrun Hname. unfold evaluate_const_values in Hrun.
  pose proof (each_values_ok prog checks n d (sorted_keys (cp_consts prog)) (const_state ds) ConstEnv_default
                Hfree ltac:(intros ?? Hin; cbn in Hin; by rewrite lookup_empty in Hin)) as Hok.
  rewrite Hrun in Hok. destruct (Hok name v Hname) as (item & Hitem & s & Hv). exists item. split; [done|].
  intros w. split; [|intros ->; by exists s]. intros [s' Hw]. by apply (lexical_deterministic _ _ _ _ _ _ _ _ _ Hw Hv).
Qed.

(** A constant that ends up without a value is reported by a diagnostic that
    names it, and the diagnostics there were before are kept. *)
Theorem const_values_settled n ds env st :
  evaluate_const_values prog checks n ds = C_Ok tt env st ->
  (exists ds', diagnostics st = ds ++ ds') /\
  forall name, is_Some (cp_consts prog !! name) ->
  is_Some (values st !! name) \/ exists d, d ∈ diagnostics st /\ reports name d.
Proof.
  intros Hrun. unfold evaluate_const_values in Hrun.
  pose proof (table_settled prog checks n (sorted_keys (cp_consts prog)) (const_state ds) ConstEnv_default
                (fun name => proj1 (sorted_keys_spec _ name))) as Hsettled.
  rewrite Hrun in Hsettled. destruct Hsettled as [[Hds _] Hsettled]. split; [exact Hds|].
  intros name Hname%sorted_keys_spec. destruct (Hsettled name Hname) as [Hin|]; [left|by right].
  by apply elem_of_dom.
Qed.

(** C17: Without [while], and without contracts that call functions, evaluating
    all constants ends, however functions and constants refer to each other:
    the given depth of calls is enough. *)
Theorem const_evaluation_ends d n ds :
  bounded_program prog d ->
  const_need d (size (cp_consts prog) + size (cp_functions prog)) <= n ->
  evaluate_const_values prog checks n ds <> C_OutOfFuel.
Proof.
  intros Hprog Hn. apply (table_ends prog checks n d); [done | by rewrite remaining_nil | done].
Qed.
End Theorems.

Lemma const_values_lexical_witness :
  exists env st, evaluate_const_values sample_consts true 40 [] = C_Ok tt env st /\
    forall w, const_evaluates sample_consts true (call_f 0) w <-> w = V_Int 7.
Proof.
  do 2 eexists. split; [vm_compute; reflexivity|].
  destruct (const_values_lexical sample_consts true 6 40 [] _ _ "B" (V_Int 7) sample_result_free
              ltac:(vm_compute; reflexivity) ltac:(vm_compute; reflexivity)) as (item & Hitem & Hw).
  vm_compute in Hitem. injection Hitem as <-. exact Hw.
Defined.

Lemma const_values_settled_witness :
  is_Some (cp_consts sample_consts !! "A") /\
  match end_state (evaluate_const_values sample_consts true 40 []) with
  | Some st => is_Some (values st !! "A") \/ exists d, d ∈ diagnostics st /\ reports "A" d
  | None => False
  end.
Proof.
  split; [vm_compute; by eexists|].
  assert (Hrun : exists env st, evaluate_const_values sample_consts true 40 [] = C_Ok tt env st)
    by (do 2 eexists; vm_compute; reflexivity).
  destruct Hrun as (env & st & Hrun). rewrite Hrun. cbn [end_state].
  apply (const_values_settled sample_consts true 40 [] env st Hrun). vm_compute. by eexists.
Defined.

Lemma const_evaluation_ends_witness :
  bounded_program sample_consts 6 /\ evaluate_const_values sample_consts true 46 [] <> C_OutOfFuel.
Proof.
  split; [exact sample_bounded|].
  apply (const_evaluation_ends sample_consts true 6 46 [] sample_bounded). vm_compute. lia.
Defined.

(** ** Where it does not do what one expects *)

(** The constants in the order of [names], rather than that of their names *)
Definition evaluate_in_order (names : list string) (n : nat) : ConstOutcome unit :=
  c_each (fun name => c_bind (k_const (const_knot sample_consts true n) name) (fun _ => c_ret tt)) names
    (const_state []) ConstEnv_default.

(** The table depends on the order of the names.  [A] is [f(1)], which needs
    [B], which is [f(0)]; evaluated first, [A] fails, since [f] is active when
    [B] calls it, with a diagnostic for each.  It has a value all the same, and
    gets it when [B] comes first. *)
Theorem const_order_matters :
  exists st st',
    end_state (evaluate_const_values sample_consts true 40 []) = Some st /\
    end_state (evaluate_in_order ["B"; "A"] 40) = Some st' /\
    values st !! "A" = None /\ length (diagnostics st) = 2 /\
    values st' !! "A" = Some (V_Int 7) /\ diagnostics st' = [] /\
    const_evaluates sample_consts true (call_f 1) (V_Int 7).
Proof.
  do 2 eexists. do 6 (split; [vm_compute; reflexivity|]).
  pose proof (each_values_ok sample_consts true 40 6 ["B"; "A"] (const_state []) ConstEnv_default sample_result_free
                ltac:(intros ?? Hin; cbn in Hin; by rewrite lookup_empty in Hin)) as Hok.
  fold (evaluate_in_order ["B"; "A"] 40) in Hok.
  destruct (evaluate_in_order ["B"; "A"] 40) as [[] env st|span message st| |] eqn:Hrun;
    vm_compute in Hrun; try discriminate Hrun.
  destruct (Hok "A" (V_Int 7)) as (item & Hitem & Hv); [injection Hrun as _ <-; vm_compute; reflexivity|].
  vm_compute in Hitem. injection Hitem as <-. exact Hv.
Qed.

(** [fn f() -> Bool requires f() { true }] and [const C = f()] *)
Definition self_requiring : Hir.Function :=
  Hir.mkFunction "f" [] [] None [] (Some (E_Call "f" [] no_span)) None
    (Some (mkBody [] (Some (E_Bool true no_span)) no_span)) no_span.

Definition requires_itself : ConstProgram :=
  mkConstProgram {["C" := mkConst "C" i32 (E_Call "f" [] no_span) no_span]} {["f" := self_requiring]} ∅ ∅.

(** [requires] is evaluated before the function counts as active: a contract
    that calls its own function is evaluated forever. *)
Theorem requires_diverges n : evaluate_const_values requires_itself true n [] = C_OutOfFuel.
Proof.
  assert (Hcall : forall n st env, active_functions st = [] ->
            k_expr (const_knot requires_itself true n) (E_Call "f" [] no_span) st env = C_OutOfFuel /\
            k_function (const_knot requires_itself true n) "f" [] no_span st env = C_OutOfFuel).
  { clear n. induction n as [|n IH]; intros st env Hst; [done|]. split.
    - cbn. unfold eval_call_expr. cbn. unfold cm_bind. cbn. by apply IH.
    - cbn [const_knot step k_function]. unfold eval_function.
      change (cp_functions requires_itself !! "f"%string) with (Some self_requiring). cbn -[const_knot].
      unfold cm_bind at 1. rewrite Hst. cbn -[const_knot].
      unfold cm_isolated, cm_within, cm_bind, eval_contract_clause. cbn -[const_knot].
      unfold cm_bind. by rewrite (proj1 (IH _ _ Hst)). }
  unfold evaluate_const_values. change (sorted_keys _) with ["C"%string]. cbn -[const_knot]. unfold cm_bind at 1.
  destruct n as [|n]; [done|]. cbn [const_knot step k_const]. unfold eval_const.
  change (cp_consts requires_itself !! "C"%string) with (Some (mkConst "C" i32 (E_Call "f" [] no_span) no_span)).
  cbn -[const_knot]. unfold cm_bind. cbn -[const_knot].
  rewrite lookup_empty. cbn -[const_knot]. unfold cm_with_const, cm_bracket, cm_isolated, cm_within.
  match goal with |- context [k_expr _ _ ?st ?env] => by rewrite (proj1 (Hcall n st env eq_refl)) end.
Qed.

(** [comptime { 1 / 0 }] *)
Definition divides_by_zero : Body :=
  mkBody [] (Some (E_Binary B_Div (E_Integer 1 no_span) (E_Integer 0 no_span) no_span)) no_span.

(** The evaluation of a [comptime] block fails without a trace: the division by
    zero that is reported in a constant becomes [Unit], and nothing is said. *)
Theorem comptime_hides_errors :
  comptime_value (const_program [] ∅ ∅) true 9 divides_by_zero ∅ [] = Some (V_Unit, []) /\
  match end_state (evaluate_const_values
          (const_program [It_Const (mkConst "C" i32 (E_Comptime divides_by_zero) no_span)] ∅ ∅) true 9 []) with
  | Some st => map diag_message (diagnostics st)
               = ["failed to evaluate const `C` at compile time: division by zero"]%string
  | None => False
  end.
Proof. split; vm_compute; reflexivity. Qed.
