(* ===== verification/ConstFold.v ===== *)
(** * Operators before and during a run

    [FunctionLowerer::lower_expr] of [crates/sarif_codegen/src/lib.rs] on a binary
    operator: what it folds when both operands are literals, and the instruction
    it emits otherwise.  The same operator is evaluated at three places, by the
    compile-time evaluator, by this folding and by the interpreter. *)
From stdpp Require Import gmap pretty.
From S2P Require Import Prelude Syntax Utf8 TextOps Float64 Mir Interp Exec Machine Entry Samples NumSpec Hir ConstEval.

Open Scope nat_scope.

(** ** Lowering *)

(** The instruction for operands of these types, once an [I32] operand next to an
    [I64] one is widened *)
Definition lower_binary_inst (op : BinaryOp) (left_ty right_ty : LowerType) (dest l r : ValueId) : Inst :=
  match op with
  | B_Add =>
      match left_ty, right_ty with
      | LT_TextBuilder, LT_Text => I_TextBuilderAppend dest l r
      | LT_TextBuilder, LT_I32 => I_TextBuilderAppendI32 dest l r
      | LT_TextBuilder, LT_I64 => I_TextBuilderAppendI64 dest l r
      | LT_Text, LT_Text => I_TextConcat dest l r
      | _, _ => I_Add dest l r
      end
  | B_Sub => I_Sub dest l r
  | B_Mul => I_Mul dest l r
  | B_Div => I_Div dest l r
  | B_Rem => I_Rem dest l r
  | B_BitAnd => I_BitAnd dest l r
  | B_BitOr => I_BitOr dest l r
  | B_BitXor => I_BitXor dest l r
  | B_Shl => I_Shl dest l r
  | B_Shr => I_Shr dest l r
  | B_And => I_And dest l r
  | B_Or => I_Or dest l r
  | B_Eq => I_Eq dest l r
  | B_Ne => I_Ne dest l r
  | B_Lt => I_Lt dest l r
  | B_Le => I_Le dest l r
  | B_Gt => I_Gt dest l r
  | B_Ge => I_Ge dest l r
  end.

Section Fold.
Context (overflow_checks : bool).

(** [l << r] and [l >> r] of an [i32] by an [i64]: an amount out of range panics
    when overflow is checked, else its low 5 bits count. *)
Definition fold_shift (op : Z -> Z -> Z) (l r : Z) : Operated :=
  if overflow_checks && negb ((0 <=? r)%Z && (r <? 32)%Z) then O_Panic
  else O_Value (V_Int (op (as_i32 l) (Z.land r 31))).

(** Two integer literals: what is folded, if it is *)
Definition fold_integers (op : BinaryOp) (l r : Z) : option Operated :=
  match op with
  | B_Add => Some (const_checked overflow_checks (l + r))
  | B_Sub => Some (const_checked overflow_checks (l - r))
  | B_Mul => Some (const_checked overflow_checks (l * r))
  | B_BitAnd => Some (O_Value (V_Int (Z.land (as_i32 l) (as_i32 r))))
  | B_BitOr => Some (O_Value (V_Int (Z.lor (as_i32 l) (as_i32 r))))
  | B_BitXor => Some (O_Value (V_Int (Z.lxor (as_i32 l) (as_i32 r))))
  | B_Shl => Some (fold_shift i32_shl l r)
  | B_Shr => Some (fold_shift i32_shr l r)
  | B_Eq => Some (O_Value (V_Bool (l =? r)))
  | B_Ne => Some (O_Value (V_Bool (negb (l =? r))))
  | B_Lt => Some (O_Value (V_Bool (l <? r)))
  | B_Le => Some (O_Value (V_Bool (l <=? r)))
  | B_Gt => Some (O_Value (V_Bool (l >? r)))
  | B_Ge => Some (O_Value (V_Bool (l >=? r)))
  | B_Div => if (r =? 0)%Z then None else Some (const_quotient l r (Z.quot l r))
  | _ => None
  end%Z.

(** Two float literals *)
Definition fold_floats (op : BinaryOp) (l r : f64) : option Operated :=
  match op with
  | B_Add => Some (O_Value (V_F64 (f64_add l r)))
  | B_Sub => Some (O_Value (V_F64 (f64_sub l r)))
  | B_Mul => Some (O_Value (V_F64 (f64_mul l r)))
  | B_Div => if f64_eqb r (f64_of_Z 0) then None else Some (O_Value (V_F64 (f64_div l r)))
  | _ => None
  end.

(** What an operator on two literals folds to *)
Definition fold_literals (op : BinaryOp) (l r : RuntimeValue) : option Operated :=
  match l, r with
  | V_Int l, V_Int r => fold_integers op l r
  | V_F64 l, V_F64 r => fold_floats op l r
  | _, _ => None
  end.
End Fold.

(** ** The operator at run time *)

(** How a run of one instruction ends *)
Definition run_gives (c : Core) (dest : ValueId) (o : Operated) (m : M unit) : Prop :=
  match o with
  | O_Value v => m c = Ok (tt, upd c dest v)
  | O_Panic => m c = Panic
  | O_Err _ _ => forall c', m c <> Ok (tt, c')
  end.

(** Where an error at compile time is none in a run: the remainder of floats by
    zero, and a text builder on the left. *)
Definition only_compile_time (op : BinaryOp) (l r : RuntimeValue) : bool :=
  match op, l, r with
  | B_Rem, V_F64 _, V_F64 _ | B_Add, V_TextBuilder _, _ => true
  | _, _, _ => false
  end.

(** Where the compile-time evaluator does not look at the operand on the right,
    it is a boolean; and no operand is widened to [I64]. *)
Definition plain_operands (op : BinaryOp) (l r : RuntimeValue) : bool :=
  match op, r with
  | B_And, V_Bool _ | B_Or, V_Bool _ => true
  | B_And, _ | B_Or, _ => false
  | _, _ => match l, r with V_Int _, V_I64 _ | V_I64 _, V_Int _ => false | _, _ => true end
  end.

Lemma shift_amount z : Z.land (z mod 2 ^ 32) 31 = Z.land z 31.
Proof.
  change 31%Z with (Z.ones 5). rewrite !Z.land_ones by lia. apply Z.mod_mod_divide. by exists (2 ^ 27)%Z.
Qed.

Section Agree.
Context `{Platform} (env : Env) (f : Mir.Function) (args : list RuntimeValue) (c : Core).
Context (dest left right : ValueId) (l r : RuntimeValue).
Context (Hl : values c !! left = Some l) (Hr : values c !! right = Some r).
Context (Hdest : dest < length (values c)).

Lemma extract_int_run id v :
  values c !! id = Some v ->
  extract_int id c = match v with V_Int z => Ok (z, c)
                     | _ => Err (Message ("expected integer value, found " ++ render v)%string) end.
Proof. intros Hv. unfold extract_int, mbind, get_values. rewrite Hv. by destruct v. Qed.

Lemma extract_bool_run id v :
  values c !! id = Some v ->
  extract_bool id c = match v with V_Bool b => Ok (b, c)
                      | _ => Err (Message ("expected boolean value, found " ++ render v)%string) end.
Proof. intros Hv. unfold extract_bool, mbind, get_values. rewrite Hv. by destruct v. Qed.

Lemma checked_gives z : run_gives c dest (const_checked (overflow_checks env) z)
                          (let! z := checked env z in set_value dest (V_Int z)).
Proof.
  unfold const_checked, checked, run_gives. destruct (in_i64 z); [by run_op; apply set_value_ok|].
  destruct (overflow_checks env); [done|]. run_op. by apply set_value_ok.
Qed.

(** Evaluate the operands and compare. *)
Ltac agree :=
  first
    [ by run_op; apply set_value_ok
    | by run_op; intros
    | by run_op; apply checked_gives ].

Lemma arithmetic_gives int_op f64_op kind span message o :
  (forall x y, l = V_Int x -> r = V_Int y ->
     run_gives c dest (o (V_Int x) (V_Int y)) (let! z := int_op x y in set_value dest (V_Int z))) ->
  (forall x y, l = V_F64 x -> r = V_F64 y -> o (V_F64 x) (V_F64 y) = O_Value (V_F64 (f64_op x y))) ->
  match l, r with V_Int _, V_Int _ | V_F64 _, V_F64 _ => True | _, _ => o l r = O_Err span message end ->
  run_gives c dest (o l r) (run_arithmetic dest left right int_op f64_op kind).
Proof.
  intros HInt HF64 HErr.
  assert (Hrun : forall k, run_arithmetic dest left right int_op f64_op kind c = k ->
            run_gives c dest (o l r) (fun _ => k) ->
            run_gives c dest (o l r) (run_arithmetic dest left right int_op f64_op kind)).
  { intros k Hk Hgives. unfold run_gives in *. rewrite Hk. by destruct (o l r). }
  eapply Hrun; [unfold run_arithmetic; run_op; reflexivity|].
  destruct l, r; try (rewrite HErr; by intros).
  - by apply HInt.
  - rewrite HF64 by done. by apply set_value_ok.
Qed.

Lemma comparison_gives int_op f64_op kind span :
  run_gives c dest (const_compare int_op f64_op l r span) (run_comparison dest left right int_op f64_op kind).
Proof.
  assert (Hrun : run_comparison dest left right int_op f64_op kind c
                 = match l, r with
                   | V_Int x, V_Int y => set_value dest (V_Bool (int_op x y)) c
                   | V_F64 x, V_F64 y => set_value dest (V_Bool (f64_op x y)) c
                   | _, _ => Err (Message ("expected matching numeric operands for " ++ kind)%string)
                   end) by (unfold run_comparison; run_op; by destruct l, r).
  unfold const_compare, run_gives. destruct l, r; try (by rewrite Hrun); rewrite Hrun; by apply set_value_ok.
Qed.

Lemma bitwise_gives op span1 span2 :
  run_gives c dest (const_bitwise op l r span1 span2) (run_bitwise dest left right op).
Proof.
  unfold run_gives, const_bitwise, run_bitwise, mbind.
  rewrite (extract_int_run _ _ Hl). destruct l; try by intros.
  rewrite (extract_int_run _ _ Hr). destruct r; try by intros. by apply set_value_ok.
Qed.

Lemma shift_gives op span1 span2 :
  run_gives c dest (const_shift op l r span1 span2) (run_shift dest left right op).
Proof.
  unfold run_gives, const_shift, run_shift, mbind.
  rewrite (extract_int_run _ _ Hl). destruct r as [y| | | | | | | | | | | | |] eqn:Hry, l; try by intros.
  all: rewrite (extract_int_run _ _ Hr); try by intros.
  cbn. rewrite shift_amount. by apply set_value_ok.
Qed.

Lemma boolean_gives op (o : RuntimeValue -> RuntimeValue -> Operated) :
  (forall x y, o (V_Bool x) (V_Bool y) = O_Value (V_Bool (op x y))) ->
  match l with V_Bool _ => True | _ => exists span message, o l r = O_Err span message end ->
  match r with V_Bool _ => True | _ => False end ->
  run_gives c dest (o l r) (boolean dest left right op).
Proof.
  intros Hbool Hother Hr'. unfold run_gives, boolean, mbind. rewrite (extract_bool_run _ _ Hl).
  destruct l as [| |x| | | | | | | | | | |]; try (destruct Hother as (span & message & ->); by intros).
  rewrite (extract_bool_run _ _ Hr). destruct r as [| |y| | | | | | | | | | |]; try done.
  rewrite Hbool. by apply set_value_ok.
Qed.

Lemma equality_gives (eq : bool) : run_gives c dest (O_Value (V_Bool (if eq then value_eqb l r else negb (value_eqb l r))))
                            (run_equality dest left right eq).
Proof. cbn. unfold run_equality. run_op. by apply set_value_ok. Qed.

Lemma int_rem_gives span x y :
  run_gives c dest (if (y =? 0)%Z then O_Err span "modulo by zero" else const_quotient x y (Z.rem x y))
    (let! z := int_rem x y in set_value dest (V_Int z)).
Proof.
  unfold int_rem, const_quotient, run_gives. destruct (y =? 0)%Z; [by intros|].
  destruct (in_i64 (Z.quot x y)); [|done]. run_op. by apply set_value_ok.
Qed.

Lemma div_gives span message :
  run_gives c dest
    match l, r with
    | V_Int x, V_Int y =>
        if (y =? 0)%Z then O_Err span "division by zero" else const_quotient x y (Z.quot x y)
    | V_F64 x, V_F64 y =>
        if f64_eqb y (f64_of_Z 0) then O_Err span "division by zero" else O_Value (V_F64 (f64_div x y))
    | _, _ => O_Err span message
    end (run_div dest left right).
Proof.
  assert (Hrun : run_div dest left right c
                 = match l, r with
                   | V_Int x, V_Int y =>
                       (if (y =? 0)%Z then fail "division by zero"
                        else let! z := (if in_i64 (Z.quot x y) then mret (Z.quot x y) else mpanic) in
                             set_value dest (V_Int z)) c
                   | V_F64 x, V_F64 y =>
                       (if f64_eqb y (f64_of_Z 0) then fail "division by zero"
                        else set_value dest (V_F64 (f64_div x y))) c
                   | _, _ => Err (Message "expected matching numeric operands for div")
                   end) by (unfold run_div; run_op; by destruct l, r).
  unfold run_gives. destruct l as [x|x| | | | | | | | | | | |], r as [y|y| | | | | | | | | | | |];
    try (by rewrite Hrun).
  - destruct (y =? 0)%Z; [by rewrite Hrun|]. unfold const_quotient.
    destruct (in_i64 (Z.quot x y)); rewrite Hrun; [run_op; by apply set_value_ok | done].
  - destruct (f64_eqb y (f64_of_Z 0)); rewrite Hrun; [done | by apply set_value_ok].
Qed.

Lemma text_concat_gives s t :
  l = V_Text s -> r = V_Text t -> run_gives c dest (O_Value (V_Text (s ++ t))) (text_concat dest left right).
Proof.
  intros -> ->. cbn. unfold text_concat. run_op. destruct (String.eqb_spec s "") as [->|]; [by apply set_value_ok|].
  destruct (String.eqb_spec t "") as [->|]; [rewrite string_app_nil_r|]; by apply set_value_ok.
Qed.

(** The instruction for the types of the operands' values *)
Definition binary_inst (op : BinaryOp) : Inst :=
  lower_binary_inst op (runtime_value_lower_type l) (runtime_value_lower_type r) dest left right.
End Agree.

Lemma record_lower_type name fields :
  (exists n, runtime_value_lower_type (V_Record name fields) = LT_Named n) \/
  (exists ty len, runtime_value_lower_type (V_Record name fields) = LT_Array ty len).
Proof.
  cbn. destruct (map _ fields); [left; by eexists|]. destruct (_ && _); [right; by do 2 eexists | left; by eexists].
Qed.

Lemma text_lower_type v : runtime_value_lower_type v = LT_Text -> exists s, v = V_Text s.
Proof.
  destruct v; try done; [by eexists|]. destruct (record_lower_type name fields) as [[n ->]|(ty & len & ->)]; done.
Qed.

Lemma add_inst dest left right l r :
  only_compile_time B_Add l r = false ->
  (exists s t, l = V_Text s /\ r = V_Text t) \/ binary_inst dest left right l r B_Add = I_Add dest left right.
Proof.
  intros Hbuilder. unfold binary_inst. destruct l as [| | |s| | | | | | | | |name fields|] eqn:Heq; try done; try by right.
  - destruct (decide (runtime_value_lower_type r = LT_Text)) as [Htext|Hother].
    + left. apply text_lower_type in Htext as [t ->]. by exists s, t.
    + right. cbn. by destruct (runtime_value_lower_type r).
  - right. destruct (record_lower_type name fields) as [[n ->]|(ty & len & ->)]; done.
Qed.


(** The instruction of an operator gives what the evaluator does. *)
Definition agrees `{Platform} env f args c dest left right l r op span left_span right_span : Prop :=
  exists m, simple env f args (binary_inst dest left right l r op) = Some m /\
    (run_gives c dest (const_binary (overflow_checks env) op l r span left_span right_span) m \/
     only_compile_time op l r = true).

Section Arithmetic.
Context `{Platform} (env : Env) (f : Mir.Function) (args : list RuntimeValue) (c : Core).
Context (dest left right : ValueId) (l r : RuntimeValue) (span left_span right_span : Span).
Context (Hl : values c !! left = Some l) (Hr : values c !! right = Some r).
Context (Hdest : dest < length (values c)).
#[local] Notation agrees_on op := (agrees env f args c dest left right l r op span left_span right_span).
#[local] Notation gives op message :=
  (arithmetic_gives c dest left right l r Hl Hr Hdest _ _ _ span message
     (fun l r => const_binary (overflow_checks env) op l r span left_span right_span)).

Lemma sub_agrees : agrees_on B_Sub.
Proof.
  eexists; split; [reflexivity|]; left. eapply (gives B_Sub arithmetic_operands).
  - intros x y -> ->. by apply checked_gives.
  - by intros x y -> ->.
  - by destruct l, r.
Qed.

Lemma mul_agrees : agrees_on B_Mul.
Proof.
  eexists; split; [reflexivity|]; left. eapply (gives B_Mul arithmetic_operands).
  - intros x y -> ->. by apply checked_gives.
  - by intros x y -> ->.
  - by destruct l, r.
Qed.

Lemma rem_agrees : agrees_on B_Rem.
Proof.
  destruct (only_compile_time B_Rem l r) eqn:Hrem; [eexists; split; [reflexivity|]; by right|].
  eexists; split; [reflexivity|]; left. eapply (gives B_Rem arithmetic_operands).
  - intros x y -> ->. by apply int_rem_gives.
  - by intros x y -> ->.
  - by destruct l, r.
Qed.

Lemma add_agrees : agrees_on B_Add.
Proof.
  unfold agrees. destruct (only_compile_time B_Add l r) eqn:Hbuilder.
  { unfold binary_inst. destruct l; try done. cbn.
    destruct (runtime_value_lower_type r); eexists; (split; [reflexivity|by right]). }
  destruct (add_inst dest left right l r Hbuilder) as [(s & t & -> & ->)|Hinst].
  - eexists; split; [reflexivity|]; left. by apply (text_concat_gives c dest left right _ _ Hl Hr Hdest s t).
  - rewrite Hinst. eexists; split; [reflexivity|]; left. eapply (gives B_Add _).
    + intros x y -> ->. by apply checked_gives.
    + by intros x y -> ->.
    + by destruct l, r.
Qed.
End Arithmetic.

(** A literal shift amount that folding does not take, when overflow is checked *)
Definition shift_overflows (op : BinaryOp) (r : RuntimeValue) : bool :=
  match op, r with
  | B_Shl, V_Int r | B_Shr, V_Int r => negb ((0 <=? r)%Z && (r <? 32)%Z)
  | _, _ => false
  end.

Lemma fold_is_binary `{Platform} checks op l r o span left_span right_span :
  fold_literals checks op l r = Some o ->
  o = const_binary checks op l r span left_span right_span \/ (o = O_Panic /\ shift_overflows op r = true).
Proof.
  destruct l as [x|x| | | | | | | | | | | |], r as [y|y| | | | | | | | | | | |]; try done; cbn [fold_literals].
  - destruct op; cbn [fold_integers]; try done; try (intros [= <-]; by left).
    + intros [= <-]. unfold fold_shift. cbn. destruct (negb _); rewrite ?andb_true_r, ?andb_false_r; [|left].
      * destruct checks; [by right | left]. by rewrite shift_amount.
      * by rewrite shift_amount.
    + intros [= <-]. unfold fold_shift. cbn. destruct (negb _); rewrite ?andb_true_r, ?andb_false_r; [|left].
      * destruct checks; [by right | left]. by rewrite shift_amount.
      * by rewrite shift_amount.
    + cbn. destruct (y =? 0)%Z; [done|]. intros [= <-]. by left.
  - destruct op; cbn [fold_floats]; try done; try (intros [= <-]; by left).
    cbn. destruct (f64_eqb y _); [done|]. intros [= <-]. by left.
Qed.

Lemma operator_gives `{Platform} env f args c dest left right l r op span left_span right_span :
  values c !! left = Some l -> values c !! right = Some r -> (dest < length (values c))%nat ->
  plain_operands op l r = true -> agrees env f args c dest left right l r op span left_span right_span.
Proof.
  intros Hl Hr Hdest Hbool. unfold agrees.
  destruct op; try (by apply add_agrees || by apply sub_agrees || by apply mul_agrees || by apply rem_agrees);
    (eexists; split; [reflexivity|]; left;
     first [ by apply bitwise_gives | by apply shift_gives | by apply comparison_gives | by apply div_gives
           | by apply (equality_gives c dest left right l r Hl Hr Hdest true)
           | by apply (equality_gives c dest left right l r Hl Hr Hdest false)
           | apply (boolean_gives c dest left right l r Hl Hr Hdest _
                      (fun l r => const_binary _ _ l r span left_span right_span));
               [by intros [] []; cbn | destruct l; try done; by do 2 eexists | by destruct r] ]).
Qed.

(** C18: An operator gives the same value at compile time and in a run: where the
    evaluator of constants has a value, the instruction the operator is lowered
    to stores it; where it panics the instruction does; where it reports an
    error the instruction fails too, but for the remainder of floats by zero and
    for text builders.  What lowering folds is what the evaluator gives, but for
    a shift by an amount out of range, which panics where the others mask it. *)
Theorem operators_agree `{Platform} env f args c dest left right l r op span left_span right_span :
  values c !! left = Some l -> values c !! right = Some r -> (dest < length (values c))%nat ->
  plain_operands op l r = true ->
  (exists m, simple env f args (binary_inst dest left right l r op) = Some m /\
    (run_gives c dest (const_binary (overflow_checks env) op l r span left_span right_span) m \/
     only_compile_time op l r = true)) /\
  (forall o, fold_literals (overflow_checks env) op l r = Some o ->
     o = const_binary (overflow_checks env) op l r span left_span right_span \/
     (o = O_Panic /\ shift_overflows op r = true)).
Proof.
  intros Hl Hr Hdest Hbool. split; [by apply operator_gives|]. intros. by apply fold_is_binary.
Qed.

(** [1 << 32]: 1 in a run, a panic when a build that checks overflow folds it *)
Lemma operators_agree_witness :
  (exists m, simple sum_env sum_main [] (I_Shl 2 0 1)%nat = Some m /\
     m (sample_core 1 32) = Ok (tt, upd (sample_core 1 32) 2%nat (V_Int 1))) /\
  fold_literals true B_Shl (V_Int 1) (V_Int 32) = Some O_Panic.
Proof.
  split; [|reflexivity].
  destruct (operators_agree sum_env sum_main [] (sample_core 1 32) 2%nat 0%nat 1%nat (V_Int 1) (V_Int 32) B_Shl
    no_span no_span no_span eq_refl eq_refl ltac:(cbn; lia) eq_refl) as [(m & Hm & [Hrun|Hbad]) _]; [|done].
  exists m. split; [exact Hm|]. exact Hrun.
Defined.
