(* ===== verification/LowerState.v ===== *)
(** * Lowering to the MIR: its state

    [FunctionLowerer] of [crates/sarif_codegen/src/lib.rs]: what it reads
    ([LowerProgram], [FnContext]), what it changes ([LowerState]), and the monad
    of its methods.  The counters are [u32]; a function with as many values is
    out of reach, and they are naturals here. *)
From stdpp Require Import gmap pretty.
From S2P Require Import Prelude Syntax Utf8 TextOps Float64 Mir Interp Hir SemType ConstEval.

Open Scope nat_scope.

(** ** What is read *)

(** The maps of a [LowerShared]; [overflow_checks] is of the build the compiler is. *)
Record LowerProgram := mkLowerProgram {
  lp_enum_variants : gmap string (list EnumVariantType);
  lp_struct_fields : gmap string (list string);
  lp_struct_layouts : gmap string (list (string * string));
  lp_function_returns : gmap string string;
  lp_evaluated_consts : gmap string RuntimeValue;
  lp_generic_functions : gmap string Hir.Function;
  lp_all_functions : gmap string Hir.Function;
  lp_overflow_checks : bool
}.

(** [substitutions]: lengths of arrays, of type [usize] *)
Definition Substitutions : Type := gmap string nat.

Record FnContext := mkFnContext { cx_function : Hir.Function; cx_substitutions : Substitutions }.

(** ** What changes *)

Inductive LocalBinding :=
  | LB_Value (value : ValueId)
  | LB_Slot (slot : LocalSlotId)
  | LB_ArraySlots (slots : list LocalSlotId).

Record BodyLowering := mkBodyLowering { bl_result : option ValueId; bl_falls_through : bool }.

Record NestedBodyLowering := mkNestedBodyLowering {
  nb_instructions : list Inst; nb_result : option ValueId; nb_falls_through : bool
}.

Record GeneratedArrayType := mkGeneratedArrayType {
  array_name : string; array_element_ty : string; array_len : nat
}.

Record LowerState := mkLowerState {
  next_value : nat;
  next_slot : nat;
  instructions : list Inst;
  locals : gmap string LocalBinding;
  local_types : gmap string LowerType;
  trusted_repeat_bounds : gmap string nat;
  mutable_locals : list MutableLocal;
  contract_result : option ValueId;
  diagnostics : list Diagnostic;
  generated_arrays : gmap string GeneratedArrayType;
  monomorphized_functions : list Mir.Function
}.

Definition set_next_value x (st : LowerState) : LowerState :=
  mkLowerState x (next_slot st) (instructions st) (locals st) (local_types st) (trusted_repeat_bounds st)
    (mutable_locals st) (contract_result st) (diagnostics st) (generated_arrays st)
    (monomorphized_functions st).
Definition set_next_slot x (st : LowerState) : LowerState :=
  mkLowerState (next_value st) x (instructions st) (locals st) (local_types st) (trusted_repeat_bounds st)
    (mutable_locals st) (contract_result st) (diagnostics st) (generated_arrays st)
    (monomorphized_functions st).
Definition set_instructions x (st : LowerState) : LowerState :=
  mkLowerState (next_value st) (next_slot st) x (locals st) (local_types st) (trusted_repeat_bounds st)
    (mutable_locals st) (contract_result st) (diagnostics st) (generated_arrays st)
    (monomorphized_functions st).
Definition set_locals x (st : LowerState) : LowerState :=
  mkLowerState (next_value st) (next_slot st) (instructions st) x (local_types st) (trusted_repeat_bounds st)
    (mutable_locals st) (contract_result st) (diagnostics st) (generated_arrays st)
    (monomorphized_functions st).
Definition set_local_types x (st : LowerState) : LowerState :=
  mkLowerState (next_value st) (next_slot st) (instructions st) (locals st) x (trusted_repeat_bounds st)
    (mutable_locals st) (contract_result st) (diagnostics st) (generated_arrays st)
    (monomorphized_functions st).
Definition set_trusted x (st : LowerState) : LowerState :=
  mkLowerState (next_value st) (next_slot st) (instructions st) (locals st) (local_types st) x
    (mutable_locals st) (contract_result st) (diagnostics st) (generated_arrays st)
    (monomorphized_functions st).
Definition set_mutable_locals x (st : LowerState) : LowerState :=
  mkLowerState (next_value st) (next_slot st) (instructions st) (locals st) (local_types st)
    (trusted_repeat_bounds st) x (contract_result st) (diagnostics st) (generated_arrays st)
    (monomorphized_functions st).
Definition set_contract_result x (st : LowerState) : LowerState :=
  mkLowerState (next_value st) (next_slot st) (instructions st) (locals st) (local_types st)
    (trusted_repeat_bounds st) (mutable_locals st) x (diagnostics st) (generated_arrays st)
    (monomorphized_functions st).
Definition set_diagnostics x (st : LowerState) : LowerState :=
  mkLowerState (next_value st) (next_slot st) (instructions st) (locals st) (local_types st)
    (trusted_repeat_bounds st) (mutable_locals st) (contract_result st) x (generated_arrays st)
    (monomorphized_functions st).
Definition set_generated_arrays x (st : LowerState) : LowerState :=
  mkLowerState (next_value st) (next_slot st) (instructions st) (locals st) (local_types st)
    (trusted_repeat_bounds st) (mutable_locals st) (contract_result st) (diagnostics st) x
    (monomorphized_functions st).
Definition set_monomorphized x (st : LowerState) : LowerState :=
  mkLowerState (next_value st) (next_slot st) (instructions st) (locals st) (local_types st)
    (trusted_repeat_bounds st) (mutable_locals st) (contract_result st) (diagnostics st) (generated_arrays st)
    x.

(** [FunctionLowerer] as it is created *)
Definition lower_state (generated : gmap string GeneratedArrayType) (functions : list Mir.Function) : LowerState :=
  mkLowerState 0 0 [] ∅ ∅ ∅ [] None [] generated functions.

(** ** The monad *)

(** [L_System]: an instruction on files, directories, the environment, processes
    or clocks would be next, and the MIR of this model has none. *)
Inductive LowerOutcome (A : Type) :=
  | L_Ok (a : A) (st : LowerState)
  | L_Panic
  | L_System
  | L_OutOfFuel.
Arguments L_Ok {A}.
Arguments L_Panic {A}.
Arguments L_System {A}.
Arguments L_OutOfFuel {A}.

Definition L (A : Type) : Type := LowerState -> LowerOutcome A.

Definition l_ret {A} (a : A) : L A := fun st => L_Ok a st.
Definition l_bind {A B} (m : L A) (k : A -> L B) : L B := fun st =>
  match m st with
  | L_Ok a st => k a st
  | L_Panic => L_Panic
  | L_System => L_System
  | L_OutOfFuel => L_OutOfFuel
  end.
Definition l_panic {A} : L A := fun _ => L_Panic.
Definition l_system {A} : L A := fun _ => L_System.
Definition l_out_of_fuel {A} : L A := fun _ => L_OutOfFuel.

Declare Scope lower_scope.
Delimit Scope lower_scope with lower.
Notation "'let+' x ':=' m 'in' k" := (l_bind m (fun x => k))
  (at level 10, x name, m at level 100, k at level 200) : lower_scope.
Notation "m ';+' k" := (l_bind m (fun _ => k)) (at level 100, k at level 200, right associativity) : lower_scope.
Open Scope lower_scope.

Definition l_gets {A} (f : LowerState -> A) : L A := fun st => L_Ok (f st) st.
Definition l_modify (f : LowerState -> LowerState) : L unit := fun st => L_Ok tt (f st).

Section l_map.
Context {A B : Type} (f : A -> L B).
Fixpoint l_map (l : list A) : L (list B) :=
  match l with
  | [] => l_ret []
  | a :: l' => let+ b := f a in let+ bs := l_map l' in l_ret (b :: bs)
  end.
End l_map.

Section l_each.
Context {A : Type} (f : A -> L unit).
Fixpoint l_each (l : list A) : L unit :=
  match l with
  | [] => l_ret tt
  | a :: l' => f a ;+ l_each l'
  end.
End l_each.

(** ** Its basic operations *)

Definition fresh_value : L ValueId := fun st =>
  L_Ok (next_value st) (set_next_value (S (next_value st)) st).

Definition fresh_slot : L LocalSlotId := fun st =>
  L_Ok (next_slot st) (set_next_slot (S (next_slot st)) st).

(** [self.instructions.push(inst)] *)
Definition emit (inst : Inst) : L unit :=
  l_modify (fun st => set_instructions (instructions st ++ [inst]) st).

Definition extend (insts : list Inst) : L unit :=
  l_modify (fun st => set_instructions (instructions st ++ insts) st).

(** [let dest = self.fresh_value()], the instruction with it, and [dest] *)
Definition emit_value (inst : ValueId -> Inst) : L ValueId :=
  let+ dest := fresh_value in emit (inst dest) ;+ l_ret dest.

Definition diagnose (code message : string) (span : Span) (help : option string) : L unit :=
  l_modify (fun st => set_diagnostics (diagnostics st ++ [Diagnostic_new code message span help]) st).

(** [i64::try_from(len).expect(...)] *)
Definition expect_i64 (n : nat) : L Z :=
  if (Z.of_nat n <? 2 ^ 63)%Z then l_ret (Z.of_nat n) else l_panic.

(** [usize::try_from(value).ok()] of an [i64] *)
Definition usize_of (value : Z) : option nat :=
  if (0 <=? value)%Z then Some (Z.to_nat value) else None.

(** [m] with no instructions before it, and those it emits *)
Definition capture {A} (m : L A) : L (list Inst * A) :=
  let+ saved := l_gets instructions in
  l_modify (set_instructions []) ;+
  let+ a := m in
  let+ nested := l_gets instructions in
  l_modify (set_instructions saved) ;+
  l_ret (nested, a).

(** The locals of the scope outside, and those it had no local of the name of *)
Definition merge_locals (locals0 : gmap string LocalBinding) (types0 : gmap string LowerType) : L unit :=
  l_modify (fun st => set_locals (locals0 ∪ locals st) (set_local_types (types0 ∪ local_types st) st)).

(** What [lower_nested_body], [lower_nested_expr] and [lower_repeat_body] do
    around a body: the scope inside leaves new names behind. *)
Definition nested_scope {A} (m : L A) : L (list Inst * A) :=
  let+ locals0 := l_gets locals in
  let+ types0 := l_gets local_types in
  let+ trusted0 := l_gets trusted_repeat_bounds in
  let+ r := capture m in
  merge_locals locals0 types0 ;+
  l_modify (set_trusted trusted0) ;+
  l_ret r.
