(* ===== verification/LowerTypes.v ===== *)
(** * Lowering to the MIR: types

    [LowerType::from_type_name], [FunctionLowerer::infer_expr_type] and what they
    call, of [crates/sarif_codegen/src/lib.rs].  They read the lowerer and change
    nothing of it. *)
From Stdlib Require Import Ascii.
From stdpp Require Import gmap pretty.
From S2P Require Import Prelude Syntax Utf8 TextOps Float64 Mir Interp Hir SemType ConstEval.
From S2P Require Import LowerState.

Open Scope nat_scope.

(** ** Types from their names *)

(** [str::parse::<usize>] *)
Definition parse_usize (l : list Ascii.ascii) : option nat :=
  let l := match l with a :: l' => if Ascii.nat_of_ascii a =? 43 then l' else l | [] => l end in
  match l with
  | [] => None
  | _ => z ← parse_digits 0 l; z ← checked_usize z; Some (Z.to_nat z)
  end.

Definition builtin_lower_type (name : string) : option LowerType :=
  if String.eqb name "I32" then Some LT_I32
  else if String.eqb name "I64" then Some LT_I64
  else if String.eqb name "F64" then Some LT_F64
  else if String.eqb name "Bool" then Some LT_Bool
  else if String.eqb name "Text" then Some LT_Text
  else if String.eqb name "Bytes" then Some LT_Bytes
  else if String.eqb name "TextIndex" then Some LT_TextIndex
  else if String.eqb name "TextBuilder" then Some LT_TextBuilder
  else if String.eqb name "File" then Some LT_File
  else if String.eqb name "Unit" then Some LT_Unit
  else None.

Section Names.
Context (subst : Substitutions).

Section Array.
Context (from_type_name : list Ascii.ascii -> option LowerType).

(** The outer [None]: fuel ran out inside *)
Definition parse_array_lower_type (name : list Ascii.ascii) : option (option LowerType) :=
  match inner ← starts_with_bytes (bytes "[") name; strip_last "]"%char inner with
  | None => Some None
  | Some inner =>
      match find_split 0 inner with
      | None => Some None
      | Some split =>
          let element_str := trim (take split inner) in
          let len_str := trim (drop (split + 1) inner) in
          match match parse_usize len_str with Some l => Some l | None => subst !! text len_str end with
          | None => Some None
          | Some len => element ← from_type_name element_str; Some (Some (LT_Array element len))
          end
      end
  end.
End Array.

(** [None] is only fuel that ran out. *)
Fixpoint from_type_name_ (fuel : nat) (name : list Ascii.ascii) : option LowerType :=
  match fuel with
  | 0 => None
  | S fuel =>
      match builtin_lower_type (text name) with
      | Some ty => Some ty
      | None =>
          match list_element name with
          | Some inner => element ← from_type_name_ fuel inner; Some (LT_List element)
          | None =>
              ty ← parse_array_lower_type (from_type_name_ fuel) name;
              Some (default (LT_Named (text name)) ty)
          end
      end
  end.

(** Every call is on a shorter name. *)
Definition from_type_name (name : string) : LowerType :=
  default LT_Error (from_type_name_ (S (String.length name)) (bytes name)).
End Names.

(** ** Lengths of arrays *)

Fixpoint resolve_const_expr_len_value (len : ConstExpr) (subst : Substitutions) : option nat :=
  let both l r op :=
    x ← resolve_const_expr_len_value l subst;
    y ← resolve_const_expr_len_value r subst;
    Z.to_nat <$> checked_usize (op (Z.of_nat x) (Z.of_nat y)) in
  match len with
  | C_Literal value => Z.to_nat <$> checked_usize value
  | C_Param name => subst !! name
  | C_Add l r => both l r Z.add
  | C_Sub l r => both l r Z.sub
  | C_Mul l r => both l r Z.mul
  end.

(** ** Enums and builtins *)

(** The first of the name in a list of pairs, as an arm of a [match] on names *)
Fixpoint assoc {A} (name : string) (l : list (string * A)) : option A :=
  match l with
  | [] => None
  | (n, a) :: l' => if String.eqb name n then Some a else assoc name l'
  end.

Definition type_of_first (args : list LowerType) (f : LowerType -> option LowerType) : LowerType :=
  default LT_Error (ty ← head args; f ty).

Definition list_of_first (args : list LowerType) : LowerType :=
  type_of_first args (fun ty => match ty with LT_List element => Some (LT_List element) | _ => None end).

(** [builtin_call_lower_type], by the name of the builtin, from the types of the arguments *)
Definition builtin_lower_types : list (string * (list LowerType -> LowerType)) :=
  [("len", fun args => type_of_first args (fun ty => match ty with LT_Array _ _ => Some LT_I32 | _ => None end));
   ("text_len", fun _ => LT_I32); ("bytes_len", fun _ => LT_I32); ("text_byte", fun _ => LT_I32);
   ("bytes_byte", fun _ => LT_I32); ("bytes_byte_i64", fun _ => LT_I32); ("text_cmp", fun _ => LT_I32);
   ("text_eq_range", fun _ => LT_Bool); ("text_find_byte_range", fun _ => LT_I32);
   ("bytes_find_byte_range", fun _ => LT_I32); ("text_line_end", fun _ => LT_I32);
   ("text_next_line", fun _ => LT_I32); ("text_field_end", fun _ => LT_I32);
   ("text_next_field", fun _ => LT_I32); ("text_builder_new", fun _ => LT_TextBuilder);
   ("text_index_new", fun _ => LT_TextIndex); ("text_builder_append", fun _ => LT_TextBuilder);
   ("text_builder_append_codepoint", fun _ => LT_TextBuilder);
   ("text_builder_append_ascii", fun _ => LT_TextBuilder);
   ("text_builder_append_slice", fun _ => LT_TextBuilder);
   ("text_builder_append_i32", fun _ => LT_TextBuilder); ("text_builder_finish", fun _ => LT_Text);
   ("text_intern", fun _ => LT_Text); ("text_promote", fun _ => LT_Text);
   ("text_index_get", fun _ => LT_I32); ("text_index_contains", fun _ => LT_I32);
   ("text_index_get_or_insert", fun _ => LT_I32); ("text_index_set", fun _ => LT_TextIndex);
   ("text_index_keys", fun _ => LT_Text);
   ("list_new", fun args => match args !! 1 with Some element => LT_List element | None => LT_Error end);
   ("list_len", fun _ => LT_I32);
   ("list_get", fun args => type_of_first args (fun ty => match ty with LT_List element => Some element | _ => None end));
   ("list_set", list_of_first); ("list_push", list_of_first);
   ("list_from", fun args =>
      type_of_first args (fun ty => match ty with LT_Array element _ => Some (LT_List element) | _ => None end));
   ("list_sort_text", list_of_first); ("list_sort_by_field", list_of_first);
   ("list_sort_by_text_field", list_of_first); ("f64_from_i32", fun _ => LT_F64);
   ("i64_from_i32", fun _ => LT_I64); ("f64_from_i64", fun _ => LT_F64); ("text_concat", fun _ => LT_Text);
   ("text_slice", fun _ => LT_Text); ("bytes_slice", fun _ => LT_Bytes); ("bytes_to_text", fun _ => LT_Text);
   ("text_to_bytes", fun _ => LT_Bytes); ("bytes_materialize", fun _ => LT_Bytes);
   ("text_from_f64_fixed", fun _ => LT_Text); ("sqrt", fun _ => LT_F64); ("parse_i32", fun _ => LT_I32);
   ("parse_i32_range", fun _ => LT_I32); ("parse_f64", fun _ => LT_F64); ("enum_to_i32", fun _ => LT_I32);
   ("enum_to_text", fun _ => LT_Text); ("codepoint_to_text", fun _ => LT_Text);
   ("const_assert", fun _ => LT_Unit)]%string.

Section Types.
Context (prog : LowerProgram) (cx : FnContext).

Definition builtin_is_available (name : string) : bool :=
  match lp_function_returns prog !! name with Some _ => false | None => true end.

Definition builtin_call_lower_type (callee : string) (args : list LowerType) : option LowerType :=
  if builtin_is_available callee then (fun f => f args) <$> assoc callee builtin_lower_types else None.

(** The variant of the name, the first of several *)
Definition find_variant (enum_name variant : string) : option EnumVariantType :=
  variants ← lp_enum_variants prog !! enum_name;
  List.find (fun v => String.eqb (Mir.variant_name v) variant) variants.

Definition payload_free_enum_variant_for_field (base : Expr) (field : string) : option (string * string) :=
  match base with
  | E_Name base_name _ =>
      variants ← lp_enum_variants prog !! base_name;
      _ ← List.find (fun v => String.eqb (Mir.variant_name v) field &&
                              match Mir.payload_type v with None => true | Some _ => false end) variants;
      Some (base_name, field)
  | _ => None
  end.

Definition enum_constructor_for_call (callee : string) : option (string * string * option string) :=
  '(enum_name, variant) ← split_enum_variant_path callee;
  v ← find_variant enum_name variant;
  Some (enum_name, variant, payload_type v).

(** ** Types of expressions *)

Definition is_add (op : BinaryOp) : bool := match op with B_Add => true | _ => false end.

Definition binary_lower_type (op : BinaryOp) (left_ty right_ty : LowerType) : LowerType :=
  match op with
  | B_Add | B_Sub | B_Mul | B_Div =>
      match left_ty, right_ty with
      | LT_TextBuilder, (LT_Text | LT_I32 | LT_I64) => if is_add op then LT_TextBuilder else LT_Error
      | LT_Text, LT_Text => if is_add op then LT_Text else LT_Error
      | LT_F64, LT_F64 => LT_F64
      | LT_I32, LT_I32 => LT_I32
      | LT_I64, LT_I64 => LT_I64
      | _, _ => LT_Error
      end
  | B_Rem | B_BitAnd | B_BitOr | B_BitXor | B_Shl | B_Shr =>
      match left_ty, right_ty with
      | LT_I32, LT_I32 => LT_I32
      | LT_I64, LT_I64 => LT_I64
      | _, _ => LT_Error
      end
  | B_And | B_Or | B_Eq | B_Ne | B_Lt | B_Le | B_Gt | B_Ge => LT_Bool
  end.

Definition field_lower_type (base_ty : LowerType) (field : string) : LowerType :=
  match base_ty with
  | LT_Array _ _ | LT_List _ | LT_Text | LT_Bytes => if String.eqb field "len" then LT_I32 else LT_Error
  | LT_Named name =>
      match fields ← lp_struct_layouts prog !! name; assoc field fields with
      | Some field_ty => from_type_name (cx_substitutions cx) field_ty
      | None => LT_Error
      end
  | _ => LT_Error
  end.

Definition index_lower_type (base_ty : LowerType) : LowerType :=
  match base_ty with
  | LT_Array element _ | LT_List element => element
  | LT_Text | LT_Bytes => LT_I32
  | _ => LT_Error
  end.

Context (local_types : gmap string LowerType).

Fixpoint infer_expr_type (e : Expr) : LowerType :=
  match e with
  | E_Integer _ _ => LT_I32
  | E_Float _ _ => LT_F64
  | E_String _ _ _ => LT_Text
  | E_Bool _ _ => LT_Bool
  | E_Name name _ =>
      match local_types !! name with
      | Some ty => ty
      | None =>
          match lp_evaluated_consts prog !! name with
          | Some value => runtime_value_lower_type value
          | None => LT_Error
          end
      end
  | E_ContractResult _ =>
      match Hir.fn_return_type (cx_function cx) with
      | None => LT_Unit
      | Some ty => from_type_name (cx_substitutions cx) (Hir.path ty)
      end
  | E_Call callee args _ =>
      match builtin_call_lower_type callee (map infer_expr_type args) with
      | Some ty => ty
      | None =>
          match enum_constructor_for_call callee with
          | Some (enum_name, _, _) => LT_Named enum_name
          | None =>
              match lp_function_returns prog !! callee with
              | Some ty => from_type_name (cx_substitutions cx) ty
              | None => LT_Error
              end
          end
      end
  | E_Array elements repeat_len _ =>
      match elements with
      | [] => LT_Error
      | first :: _ =>
          LT_Array (infer_expr_type first)
            (default (length elements)
               (len ← repeat_len; resolve_const_expr_len_value len (cx_substitutions cx)))
      end
  | E_Field base field _ =>
      match payload_free_enum_variant_for_field base field with
      | Some (enum_name, _) => LT_Named enum_name
      | None => field_lower_type (infer_expr_type base) field
      end
  | E_Index base _ _ => index_lower_type (infer_expr_type base)
  | E_If _ then_body _ _ => infer_body_type then_body
  | E_Match _ arms _ =>
      match arms with
      | [] => LT_Unit
      | mkMatchArm _ body _ :: _ => infer_body_type body
      end
  | E_Repeat _ _ _ _ | E_While _ _ _ => LT_Unit
  | E_Record name _ _ => LT_Named name
  | E_RecordUpdate base _ _ => infer_expr_type base
  | E_Unary U_Not _ _ => LT_Bool
  | E_Binary op l r _ => binary_lower_type op (infer_expr_type l) (infer_expr_type r)
  | E_Group inner _ => infer_expr_type inner
  | E_Comptime body => infer_body_type body
  | E_Handle _ _ | E_Perform _ _ _ _ => LT_Error
  end
with infer_body_type (b : Body) : LowerType :=
  match b with
  | mkBody _ (Some tail) _ => infer_expr_type tail
  | mkBody _ None _ => LT_Unit
  end.
End Types.

(** ** Is there no value? *)

Fixpoint expr_returns_unit (e : Expr) : bool :=
  match e with
  | E_Repeat _ _ _ _ | E_While _ _ _ => true
  | E_Unary _ inner _ | E_Group inner _ => expr_returns_unit inner
  | E_If _ then_body else_body _ => body_returns_unit then_body && body_returns_unit else_body
  | E_Match _ arms _ => forallb (fun '(mkMatchArm _ body _) => body_returns_unit body) arms
  | _ => false
  end
with body_returns_unit (b : Body) : bool :=
  match b with
  | mkBody _ (Some tail) _ => expr_returns_unit tail
  | mkBody _ None _ => true
  end.

(** ** Fall through *)

Fixpoint inst_falls_through (i : Inst) : bool :=
  match i with
  | I_If _ _ then_insts _ else_insts _ =>
      forallb inst_falls_through then_insts || forallb inst_falls_through else_insts
  | _ => true
  end.

Definition insts_fall_through (insts : list Inst) : bool := forallb inst_falls_through insts.
