(* ===== verification/EscapeFlow.v ===== *)
(** * The escape analysis: it covers every path of the program

    [flow] follows, along one path through a function and the functions it
    calls, which values and slots hold memory made since the function was
    entered: an assignment replaces what its destination held, one branch of a
    conditional is taken, a loop runs a number of times.  Control goes the way
    [Eval.v] gives it, handlers included. *)
From Stdlib Require Import Ascii.
From stdpp Require Import gmap.
From S2P Require Import Prelude Syntax Utf8 Mir Machine EscapeSpec Safety Effects Escape SemType LowerTypes.

Open Scope nat_scope.

(** ** Memory of the arena *)

(** The instruction's result is new memory. *)
Definition allocates (i : Inst) : bool :=
  match i with
  | I_TextBuilderNew _ | I_TextIndexNew _ | I_ListNew _ _ _ | I_ListFrom _ _ _ | I_ListPush _ _ _ _
  | I_TextConcat _ _ _ | I_TextIntern _ _ | I_TextSlice _ _ _ _ | I_TextFromF64Fixed _ _ _
  | I_ArgText _ _ | I_StdinText _ | I_StdinBytes _ | I_TextBuilderFinish _ _ | I_TextIndexKeys _ _
  | I_BytesToText _ _ | I_TextToBytes _ _ | I_BytesMaterialize _ _ => true
  | _ => false
  end.

(** The values whose memory the result is, holds or is a part of. *)
Definition aliases (i : Inst) : list ValueId :=
  match i with
  | I_TextBuilderAppend _ builder _ | I_TextBuilderAppendCodepoint _ builder _
  | I_TextBuilderAppendAscii _ builder _ | I_TextBuilderAppendSlice _ builder _ _ _
  | I_TextBuilderAppendI32 _ builder _ | I_TextBuilderAppendI64 _ builder _
  | I_StdoutWriteBuilder _ builder => [builder]
  | I_TextIndexSet _ index _ _ => [index]
  | I_ListSet _ list _ value | I_ListPush _ list _ value => [list; value]
  | I_ListSortText _ list _ | I_ListSortRecordTextField _ list _ _ | I_ListSortRecordField _ list _ _ => [list]
  | I_ListGet _ list _ => [list]
  | I_BytesSlice _ bytes _ _ => [bytes]
  | I_MakeEnum _ _ _ (Some payload) => [payload]
  | I_MakeRecord _ _ fields => map snd fields
  | I_Field _ base _ => [base]
  | I_EnumPayload _ value _ => [value]
  | _ => []
  end.

(** Neither control nor a slot. *)
Definition plain (i : Inst) : bool :=
  match i with
  | I_LoadLocal _ _ | I_StoreLocal _ _ | I_If _ _ _ _ _ _ | I_While _ _ _ _ | I_Repeat _ _ _ _
  | I_Call _ _ _ | I_Perform _ _ _ _ | I_Handle _ _ _ _ => false
  | _ => true
  end.

Definition fresh_result (i : Inst) (st : Marks) : bool :=
  allocates i || existsb (is_escaped st) (aliases i).

Definition assign (d : ValueId) (b : bool) (st : Marks) : Marks :=
  mkMarks (<[d := b]> (escaped st)) (esc_locals st).

Definition assign_local (slot : LocalSlotId) (b : bool) (st : Marks) : Marks :=
  mkMarks (escaped st) (<[slot := b]> (esc_locals st)).

(** ** Types that hold memory *)

Section Types.
Context (p : Program).

(** Do the values of a type hold memory of an arena?  Texts, bytes, indexes,
    builders and lists do; an array, a record or an enum does if one of its parts
    does, and so may a type that the program does not declare.  Declarations are
    followed to a depth of [n], beyond which a type may hold memory. *)
Fixpoint holds_memory (n : nat) (ty : LowerType) : bool :=
  match n with
  | 0 => true
  | S n =>
      let named (ty : string) : bool := holds_memory n (from_type_name ∅ ty) in
      match ty with
      | LT_Text | LT_Bytes | LT_TextIndex | LT_TextBuilder | LT_List _ => true
      | LT_Array element _ => holds_memory n element
      | LT_Named name =>
          match find_last struct_name name (program_structs p), find_last enum_name name (program_enums p) with
          | Some s, _ => existsb (fun field => named (field_ty field)) (struct_fields s)
          | None, Some e =>
              existsb (fun v => match payload_type v with Some ty => named ty | None => false end)
                (enum_type_variants e)
          | None, None => true
          end
      | _ => false
      end
  end.

Definition type_holds_memory (ty : string) : bool :=
  holds_memory (S (length (program_structs p) + length (program_enums p) + String.length ty))
    (from_type_name ∅ ty).

(** The function's result, by its type, can hold memory; without a type it is
    [Unit]. *)
Definition returns_memory (f : Function) : bool :=
  match fn_return_type f with Some ty => type_holds_memory ty | None => false end.

(** The result is a record or an enum that holds memory. *)
Definition returns_named_memory (f : Function) : bool :=
  match fn_return_type f with
  | Some ty => match from_type_name ∅ ty with LT_Named _ => type_holds_memory ty | _ => false end
  | None => false
  end.

(** No function returns memory within a record or an enum. *)
Definition memory_unnamed : bool := forallb (fun f => negb (returns_named_memory f)) (program_functions p).

(** The instruction makes memory, or calls a function that declares so. *)
Definition makes_memory (i : Inst) : bool :=
  allocates i ||
  match i with
  | I_Call _ callee _ =>
      match find_last fn_name callee (program_functions p) with Some g => has_alloc g | None => false end
  | _ => false
  end.

Definition silent (i : Inst) : bool := negb (makes_memory i).

(** Every function that makes memory has the effect [alloc] in its clause. *)
Definition alloc_declared : bool :=
  forallb (fun f => has_alloc f || forallb (inst_all silent silent) (fn_instructions f)) (program_functions p).

(** The function's result is memory made since it was entered. *)
Definition returns_fresh (f : Function) (st : Marks) : bool :=
  returns_memory f && result_escaped st (fn_result f).
End Types.

(** ** Paths *)

Section Flow.
Context (p : Program).

Inductive flow : list (list HandleArm) -> list Inst -> Marks -> Marks -> Prop :=
  | flow_nil hs st : flow hs [] st st
  | flow_cons hs i rest a b c : flow_inst hs i a b -> flow hs rest b c -> flow hs (i :: rest) a c
with flow_inst : list (list HandleArm) -> Inst -> Marks -> Marks -> Prop :=
  | flow_dest hs i d st :
      plain i = true -> inst_dest i = Some d -> flow_inst hs i st (assign d (fresh_result i st) st)
  | flow_no_dest hs i st : plain i = true -> inst_dest i = None -> flow_inst hs i st st
  | flow_load hs d slot st : flow_inst hs (I_LoadLocal d slot) st (assign d (local_escaped st slot) st)
  | flow_store hs slot src st : flow_inst hs (I_StoreLocal slot src) st (assign_local slot (is_escaped st src) st)
  | flow_then hs d cond ti tr ei er a b :
      flow hs ti a b -> flow_inst hs (I_If d cond ti tr ei er) a (assign d (result_escaped b tr) b)
  | flow_else hs d cond ti tr ei er a b :
      flow hs ei a b -> flow_inst hs (I_If d cond ti tr ei er) a (assign d (result_escaped b er) b)
  | flow_while hs d ci cond bi a b :
      flow_rounds hs ci bi a b -> flow_inst hs (I_While d ci cond bi) a (assign d false b)
  | flow_repeat hs d count slot bi a b :
      flow_times hs slot bi a b -> flow_inst hs (I_Repeat d count slot bi) a (assign d false b)
  | flow_call hs d callee args g a b :
      find_last fn_name callee (program_functions p) = Some g ->
      flow hs (fn_instructions g) (no_marks g) b ->
      flow_inst hs (I_Call d callee args) a
        (assign d (returns_fresh p g b || existsb (is_escaped a) args) a)
  | flow_perform hs d effect operation args arm a b :
      find_arm hs effect operation = Some arm -> flow hs (arm_body_insts arm) a b ->
      flow_inst hs (I_Perform d effect operation args) a
        (assign d (result_escaped b (arm_body_result arm)) b)
  | flow_handle hs d bi br arms a b :
      flow (hs ++ [arms]) bi
        (mkMarks (map (fun _ => false) (escaped a)) (map (fun _ => false) (esc_locals a))) b ->
      flow_inst hs (I_Handle d bi br arms) a (assign d (result_escaped b br) a)
with flow_rounds : list (list HandleArm) -> list Inst -> list Inst -> Marks -> Marks -> Prop :=
  | rounds_end hs ci bi a b : flow hs ci a b -> flow_rounds hs ci bi a b
  | rounds_more hs ci bi a b c d :
      flow hs ci a b -> flow hs bi b c -> flow_rounds hs ci bi c d -> flow_rounds hs ci bi a d
with flow_times : list (list HandleArm) -> option LocalSlotId -> list Inst -> Marks -> Marks -> Prop :=
  | times_end hs slot bi a : flow_times hs slot bi a a
  | times_more hs slot bi a b c :
      flow hs bi (match slot with Some s => assign_local s false a | None => a end) b ->
      flow_times hs slot bi b c -> flow_times hs slot bi a c.

(** Some path through [f] returns memory made since [f] was entered. *)
Definition leaks (f : Function) : Prop :=
  exists st, flow [] (fn_instructions f) (no_marks f) st /\ returns_fresh p f st = true.
End Flow.

Scheme flow_mut := Induction for flow Sort Prop
  with flow_inst_mut := Induction for flow_inst Sort Prop
  with flow_rounds_mut := Induction for flow_rounds Sort Prop
  with flow_times_mut := Induction for flow_times Sort Prop.
Combined Scheme flow_ind4 from flow_mut, flow_inst_mut, flow_rounds_mut, flow_times_mut.

(** ** Without handlers *)

Definition not_handle (i : Inst) : bool := match i with I_Handle _ _ _ _ => false | _ => true end.

Definition handle_free (insts : list Inst) : bool := forallb (inst_all not_handle not_handle) insts.

Definition program_handle_free (p : Program) : bool :=
  forallb (fun f => handle_free (fn_instructions f)) (program_functions p).

(** ** Types by their names *)

Lemma starts_with_bytes_prefix p l r :
  starts_with_bytes (bytes p) l = Some r -> String.prefix p (text l) = true.
Proof.
  revert l. induction p as [|a p IH]; intros [|b l]; cbn; try done.
  destruct (Ascii.eqb_spec a b) as [->|]; [|done]. intros Hr. destruct (ascii_dec b b); [by apply (IH l)|done].
Qed.

Lemma prefix_weaken p q s : String.prefix (p ++ q) s = true -> String.prefix p s = true.
Proof.
  revert s. induction p as [|a p IH]; intros [|b s]; try done.
  change (String a p +:+ q)%string with (String a (p +:+ q)). cbn.
  destruct (ascii_dec a b); [apply IH|done].
Qed.

Lemma prefix_contains p s : p <> ""%string -> String.prefix p s = true -> contains s p = true.
Proof. intros Hp Hs. unfold contains. destruct s; cbn in *; [by destruct p|]. by rewrite Hs. Qed.

(** The code's test of a type's name covers every type that holds memory and is
    no record or enum. *)
Lemma type_can_hold_covers p n ty :
  holds_memory p (S n) (from_type_name ∅ ty) = true ->
  match from_type_name ∅ ty with LT_Named _ => True | _ => type_can_hold_arena_memory ty = true end.
Proof.
  unfold from_type_name. cbn [from_type_name_]. rewrite text_bytes.
  destruct (builtin_lower_type ty) as [b|] eqn:Hb.
  - unfold builtin_lower_type in Hb.
    repeat (case_match; [injection Hb as <-; match goal with H : String.eqb _ _ = true |- _ =>
      apply String.eqb_eq in H as -> end; cbn; by intros|]). done.
  - clear Hb. destruct (list_element (bytes ty)) as [inner|] eqn:Hl.
    + intros _. apply bind_Some in Hl as (r & Hr%starts_with_bytes_prefix & _). rewrite text_bytes in Hr.
      assert (contains ty "List" = true) as Hc by (by apply prefix_contains, (prefix_weaken _ "[")).
      assert (type_can_hold_arena_memory ty = true) as Hty.
      { unfold type_can_hold_arena_memory. rewrite Hc. by rewrite orb_true_r. }
      by case_match.
    + clear Hl. unfold parse_array_lower_type.
      destruct (starts_with_bytes (bytes "[") (bytes ty)) as [r|] eqn:Hr; cbn; [|done].
      apply starts_with_bytes_prefix in Hr. rewrite text_bytes in Hr.
      assert (type_can_hold_arena_memory ty = true) as Hty.
      { unfold type_can_hold_arena_memory. rewrite Hr. by rewrite orb_true_r. }
      repeat case_match; try done; by intros.
Qed.

(** ** Soundness *)

Lemma bits_insert_false_le (l : list bool) i : bits_le (<[i := false]> l) l.
Proof.
  revert i. induction l as [|b l IH]; intros [|i]; cbn; try reflexivity.
  - constructor; [done | reflexivity].
  - constructor; [reflexivity | apply IH].
Qed.

Lemma assign_mark_if d x y a b : a ⊑ b -> (x = true -> y = true) -> assign d x a ⊑ mark_if y d b.
Proof.
  intros Hab Hxy. destruct x.
  - rewrite (Hxy eq_refl). etrans; [|by apply mark_mono]. by rewrite mark_eq.
  - etrans; [|apply mark_if_infl]. etrans; [|exact Hab]. split; [apply bits_insert_false_le | reflexivity].
Qed.

Lemma assign_mark d x a b : a ⊑ b -> assign d x a ⊑ mark d b.
Proof. intros Hab. by apply (assign_mark_if d x true). Qed.

Lemma assign_local_store slot src a b : a ⊑ b ->
  assign_local slot (is_escaped a src) a ⊑ (if is_escaped b src then mark_local slot b else b).
Proof.
  intros Hab. destruct (is_escaped a src) eqn:E.
  - rewrite (is_escaped_mono _ _ _ Hab E). etrans; [|by apply mark_local_mono]. by rewrite mark_local_eq.
  - etrans; [|apply store_local_infl]. etrans; [|exact Hab].
    split; [reflexivity | apply bits_insert_false_le].
Qed.

Lemma assign_local_false_le slot a : assign_local slot false a ⊑ a.
Proof. split; [reflexivity | apply bits_insert_false_le]. Qed.

#[export] Hint Resolve assign_mark assign_mark_if assign_local_store : escape.

Lemma inst_all_bodies p q i insts :
  (forall d bi br arms, i <> I_Handle d bi br arms) ->
  inst_all p q i = true -> In insts (bodies i) -> forallb (inst_all p q) insts = true.
Proof.
  intros Hh Hi Hin. destruct i; cbn in Hin; try done; cbn in Hi;
    apply andb_true_iff in Hi as [_ Hi]; try apply andb_true_iff in Hi as [H1 H2]; naive_solver.
Qed.

(** *** Functions without the effect [alloc] *)

Definition unmarked (st : Marks) : Prop := Forall (fun b => b = false) (escaped st) /\ Forall (fun b => b = false) (esc_locals st).

Lemma unmarked_value st v : unmarked st -> is_escaped st v = false.
Proof.
  intros [Hv _]. unfold is_escaped. destruct (escaped st !! v) as [b|] eqn:E; cbn; [|by rewrite andb_false_r].
  rewrite (Forall_lookup_1 _ _ _ _ Hv E). by rewrite andb_false_r.
Qed.

Lemma unmarked_local st v : unmarked st -> local_escaped st v = false.
Proof.
  intros [_ Hv]. unfold local_escaped. destruct (esc_locals st !! v) as [b|] eqn:E; cbn; [|by rewrite andb_false_r].
  rewrite (Forall_lookup_1 _ _ _ _ Hv E). by rewrite andb_false_r.
Qed.

Lemma unmarked_values st vs : unmarked st -> existsb (is_escaped st) vs = false.
Proof. intros Hu. induction vs as [|v vs IH]; cbn; [done|]. by rewrite unmarked_value, IH. Qed.

Lemma unmarked_result st r : unmarked st -> result_escaped st r = false.
Proof. destruct r; cbn; [apply unmarked_value|done]. Qed.

Lemma unmarked_assign d x st : unmarked st -> x = false -> unmarked (assign d x st).
Proof. intros [Hv Hl] ->. split; [by apply Forall_insert|done]. Qed.

Lemma unmarked_assign_local d x st : unmarked st -> x = false -> unmarked (assign_local d x st).
Proof. intros [Hv Hl] ->. split; [done|by apply Forall_insert]. Qed.

Lemma unmarked_no_marks f : unmarked (no_marks f).
Proof. split; apply Forall_replicate; done. Qed.

#[export] Hint Resolve unmarked_value unmarked_local unmarked_values unmarked_result unmarked_assign
  unmarked_assign_local unmarked_no_marks : escape.

Section Silent.
Context (p : Program) (Halloc : alloc_declared p = true) (Hfree : program_handle_free p = true).

Definition silent_body (insts : list Inst) : Prop :=
  forallb (inst_all (silent p) (silent p)) insts = true /\ handle_free insts = true.

Definition silent_inst (i : Inst) : Prop :=
  inst_all (silent p) (silent p) i = true /\ inst_all not_handle not_handle i = true.

Lemma silent_inst_bodies i insts : silent_inst i -> In insts (bodies i) -> silent_body insts.
Proof.
  intros [Hs Hh] Hin. pose proof (inst_all_head _ _ _ Hh) as Hnh.
  split; (eapply inst_all_bodies; [|eassumption|exact Hin]); intros; by destruct i.
Qed.

Lemma silent_function g :
  In g (program_functions p) -> has_alloc g = false -> silent_body (fn_instructions g).
Proof.
  intros Hg Ha. pose proof (proj1 (forallb_forall _ _) Halloc g Hg) as Hs. cbn in Hs. rewrite Ha in Hs.
  split; [done|]. by apply (proj1 (forallb_forall _ _) Hfree).
Qed.

(** Nothing is made along a path through what makes nothing. *)
Lemma flow_silent :
  (forall hs insts a b, flow p hs insts a b -> hs = [] -> silent_body insts -> unmarked a -> unmarked b) /\
  (forall hs i a b, flow_inst p hs i a b -> hs = [] -> silent_inst i -> unmarked a -> unmarked b) /\
  (forall hs ci bi a b, flow_rounds p hs ci bi a b -> hs = [] -> silent_body ci -> silent_body bi -> unmarked a -> unmarked b) /\
  (forall hs slot bi a b, flow_times p hs slot bi a b -> hs = [] -> silent_body bi -> unmarked a -> unmarked b).
Proof.
  apply (flow_ind4 p (fun hs insts a b _ => hs = [] -> silent_body insts -> unmarked a -> unmarked b)
    (fun hs i a b _ => hs = [] -> silent_inst i -> unmarked a -> unmarked b)
    (fun hs ci bi a b _ => hs = [] -> silent_body ci -> silent_body bi -> unmarked a -> unmarked b)
    (fun hs slot bi a b _ => hs = [] -> silent_body bi -> unmarked a -> unmarked b)); intros; subst hs; eauto 4 with escape.
  all: try match goal with H : silent_inst ?i |- _ => pose proof (silent_inst_bodies i) as Hbodies; cbn in Hbodies end.
  all: try solve [apply unmarked_assign; eauto 6 with escape].
  - match goal with H : silent_body _ |- _ => destruct H as [[Hs Hs']%andb_true_iff [Hh Hh']%andb_true_iff] end.
    apply H0; [done|by split|]. by apply H.
  - apply unmarked_assign; [done|]. unfold fresh_result. rewrite unmarked_values by done. rewrite orb_false_r.
    match goal with H : silent_inst _ |- _ => destruct H as [Hs _] end.
    apply inst_all_head, negb_true_iff, orb_false_iff in Hs. apply Hs.
  - apply unmarked_assign; [|done]. apply H; auto with datatypes.
  - match goal with H : silent_inst _ |- _ => destruct H as [Hs _] end.
    apply inst_all_head, negb_true_iff, orb_false_iff in Hs as [_ Hs]. rewrite e in Hs.
    assert (unmarked b) as Hb by (apply H; [done|apply silent_function; [by eapply find_last_In|done]|apply unmarked_no_marks]).
    apply unmarked_assign; [done|]. unfold returns_fresh. by rewrite unmarked_result, unmarked_values, andb_false_r.
  - done.
  - match goal with H : silent_inst _ |- _ => by destruct H as [_ Hh] end.
  - apply H0; [done..|]. apply H; [done..|]. destruct slot; eauto with escape.
Qed.
End Silent.

Section Sound.
Context (p : Program) (fuel : nat) (t : CalleeMap).
Context (Hn : NoDup (function_names p)) (Ht : solution (program_functions p) fuel t).
Context (Hfree : program_handle_free p = true) (Halloc : alloc_declared p = true).
Context (Hnamed : memory_unnamed p = true).

(** What the analysis makes of an instruction without control. *)
Lemma plain_covered i d a a' b' :
  plain i = true -> inst_dest i = Some d -> a ⊑ a' -> analyze_inst fuel t i a' = Some b' ->
  assign d (fresh_result i a) a ⊑ b'.
Proof.
  intros Hp Hd Ha. assert (Hnone : forall x, x = false -> assign d x a ⊑ a').
  { intros x ->. etrans; [by apply (assign_mark_if d false false)|done]. }
  destruct i; cbn in Hp, Hd |- *; try done; injection Hd as ->; intros [= <-]; unfold fresh_result; cbn;
    rewrite ?orb_false_r; try (by eauto with escape).
  - destruct payload; cbn; rewrite ?orb_false_r; eauto with escape.
  - apply assign_mark_if; [done|]. rewrite !existsb_exists.
    intros (v & Hv & Hesc). apply in_map_iff in Hv as ([n w] & <- & Hin). exists (n, w).
    split; [done|]. by eapply is_escaped_mono.
Qed.

Lemma plain_no_dest_covered i a b :
  plain i = true -> inst_dest i = None -> analyze_inst fuel t i a = Some b -> a ⊑ b.
Proof. intros _ _. apply analyze_inst_inflationary. Qed.

(** Fresh memory is returned under the effect [alloc], in a type that the code's
    test covers. *)
Lemma returns_fresh_declared g b :
  In g (program_functions p) -> flow p [] (fn_instructions g) (no_marks g) b ->
  returns_fresh p g b = true -> has_alloc g = true /\ return_can_hold g = true.
Proof.
  intros Hg Hflow [Hty Hr]%andb_true_iff. split.
  - apply not_false_iff_true. intros Ha.
    rewrite unmarked_result in Hr; [done|].
    eapply (proj1 (flow_silent p Halloc Hfree)); [exact Hflow|done| |apply unmarked_no_marks].
    by apply (silent_function p).
  - pose proof (proj1 (forallb_forall _ _) Hnamed g Hg) as Hn'. apply negb_true_iff in Hn'.
    unfold returns_memory, returns_named_memory, return_can_hold in *.
    destruct (fn_return_type g) as [ty|]; [|done]. pose proof (type_can_hold_covers p _ _ Hty) as Hc.
    unfold type_holds_memory in *. destruct (from_type_name ∅ ty); congruence.
Qed.

Lemma callee_covered g b :
  In g (program_functions p) -> flow p [] (fn_instructions g) (no_marks g) b ->
  (forall b', analyze fuel t (fn_instructions g) (no_marks g) = Some b' -> b ⊑ b') ->
  returns_fresh p g b = true -> marked t g = true.
Proof.
  intros Hg Hflow Hb Hf. destruct (returns_fresh_declared g b Hg Hflow Hf) as [Ha Hty].
  apply andb_true_iff in Hf as [_ Hr]. specialize (Ht g Hg). unfold may_escape in Ht. destruct (fn_result g) as [r|]; [|done].
  rewrite Ha, Hty in Ht. cbn in Ht. apply bind_Some in Ht as (b' & Hb' & [= <-]).
  by eapply is_escaped_mono; [apply Hb|].
Qed.

Lemma loop_fixed insts insts' S :
  (st ← analyze fuel t insts S; analyze fuel t insts' st) = Some S ->
  analyze fuel t insts S = Some S /\ analyze fuel t insts' S = Some S.
Proof.
  intros (c & Hc & HS)%bind_Some. pose proof (analyze_inflationary _ _ _ _ _ Hc).
  pose proof (analyze_inflationary _ _ _ _ _ HS).
  assert (c = S) as -> by by apply (anti_symm (⊑@{Marks})). done.
Qed.

Definition covered (insts : list Inst) (a b : Marks) : Prop :=
  handle_free insts = true -> forall a' b', a ⊑ a' -> analyze fuel t insts a' = Some b' -> b ⊑ b'.

Definition covered_inst (i : Inst) (a b : Marks) : Prop :=
  inst_all not_handle not_handle i = true ->
  forall a' b', a ⊑ a' -> analyze_inst fuel t i a' = Some b' -> b ⊑ b'.

(** A loop that settled on [S] stays below it. *)
Definition covered_rounds (ci bi : list Inst) (a b : Marks) : Prop :=
  handle_free ci = true -> handle_free bi = true ->
  forall S, analyze fuel t ci S = Some S -> analyze fuel t bi S = Some S -> a ⊑ S -> b ⊑ S.

Definition covered_times (bi : list Inst) (a b : Marks) : Prop :=
  handle_free bi = true -> forall S, analyze fuel t bi S = Some S -> a ⊑ S -> b ⊑ S.

Lemma branch_covered d cond ti tr ei er (branch : bool) a b :
  covered (if branch then ti else ei) a b ->
  covered_inst (I_If d cond ti tr ei er) a (assign d (result_escaped b (if branch then tr else er)) b).
Proof.
  intros Hb Hf a' b' Ha. cbn in Hf |- *. apply andb_true_iff in Hf as [Hf1 Hf2].
  intros (c & Hc & (e & He & [= <-])%bind_Some)%bind_Some.
  pose proof (analyze_inflationary _ _ _ _ _ Hc) as [Hc1 Hc2].
  pose proof (analyze_inflationary _ _ _ _ _ He) as [He1 He2]. cbn in He1, He2.
  assert (Hle : b ⊑ mkMarks (escaped e) (merge_locals (esc_locals e) (esc_locals c))).
  { destruct branch.
    - destruct (Hb Hf1 _ _ Ha Hc). split; cbn; [by etrans|]. etrans; [done|].
      apply merge_locals_other. by rewrite <- (Forall2_length _ _ _ He2), (Forall2_length _ _ _ Hc2).
    - assert (Hbe : b ⊑ e) by (eapply Hb; [done| |exact He]; split; cbn; [etrans; [apply Ha|done]|apply Ha]).
      destruct Hbe. split; cbn; [done|]. etrans; [done | apply merge_locals_infl]. }
  apply assign_mark_if; [exact Hle|]. rewrite orb_true_iff.
  destruct branch; intros Hr; [left|right]; by eapply result_escaped_mono.
Qed.

Lemma flow_covered :
  (forall hs insts a b, flow p hs insts a b -> hs = [] -> covered insts a b) /\
  (forall hs i a b, flow_inst p hs i a b -> hs = [] -> covered_inst i a b) /\
  (forall hs ci bi a b, flow_rounds p hs ci bi a b -> hs = [] -> covered_rounds ci bi a b) /\
  (forall hs slot bi a b, flow_times p hs slot bi a b -> hs = [] -> covered_times bi a b).
Proof.
  apply (flow_ind4 p (fun hs insts a b _ => hs = [] -> covered insts a b)
    (fun hs i a b _ => hs = [] -> covered_inst i a b)
    (fun hs ci bi a b _ => hs = [] -> covered_rounds ci bi a b)
    (fun hs slot bi a b _ => hs = [] -> covered_times bi a b)); intros; subst hs.
  - intros _ a' b' Ha. cbn. by intros [= <-].
  - intros Hf a' b' Ha. cbn in Hf |- *. apply andb_true_iff in Hf as [Hi Hr].
    intros (c' & Hc & Hb)%bind_Some. eapply H0; [done|done| |exact Hb]. by eapply H.
  - intros Hf a' b' Ha Hb. by eapply plain_covered.
  - intros Hf a' b' Ha Hb. etrans; [exact Ha|]. by eapply plain_no_dest_covered.
  - intros Hf a' b' Ha. cbn. intros [= <-]. eauto with escape.
  - intros Hf a' b' Ha. cbn. intros [= <-]. eauto with escape.
  - by apply (branch_covered d cond ti tr ei er true), H.
  - by apply (branch_covered d cond ti tr ei er false), H.
  - intros Hf a' b' Ha. cbn in Hf |- *. apply andb_true_iff in Hf as [Hf1 Hf2].
    intros (S & HS & [= <-])%bind_Some.
    apply settle_fixed in HS as [HS1 HS2].
    2:{ intros x y (z & Hz & Hy)%bind_Some. etrans; by eapply analyze_inflationary. }
    apply loop_fixed in HS2 as [Hci Hbi]. apply assign_mark. eapply H; [done..|]. by etrans.
  - intros Hf a' b' Ha. cbn in Hf |- *.
    intros (S & HS & [= <-])%bind_Some.
    apply settle_fixed in HS as [HS1 HS2]; [|by apply analyze_inflationary].
    apply assign_mark. eapply H; [done..|]. by etrans.
  - intros Hf a' b' Ha. cbn. intros [= <-].
    assert (Hg : In g (program_functions p)) by by eapply find_last_In.
    assert (Hname : fn_name g = callee) by by eapply find_last_key. subst callee.
    assert (Hfg : handle_free (fn_instructions g) = true).
    { unfold program_handle_free in Hfree. rewrite forallb_forall in Hfree. by apply Hfree. }
    destruct (returns_fresh p g b) eqn:E; cbn.
    + assert (Hmk : marked t g = true).
      { eapply callee_covered; [done|eassumption| |exact E]. intros b' Hb'. eapply H; [done|done| |exact Hb']. done. }
      unfold marked in Hmk. rewrite Hmk. cbn. etrans; [|apply mark_if_infl]. by apply assign_mark.
    + apply assign_mark_if; [etrans; [exact Ha|apply mark_if_infl]|].
      apply args_escaped_mono. etrans; [exact Ha|apply mark_if_infl].
  - done.
  - by intros Hf.
  - intros Hc Hb S HcS HbS Ha. by eapply H.
  - intros Hc Hb S HcS HbS Ha. eapply H1; [done..|]. eapply H0; [done|done| |exact HbS]. by eapply H.
  - by intros Hf S HS Ha.
  - intros Hf S HS Ha. eapply H0; [done..|]. eapply H; [done|done| |exact HS].
    destruct slot; [|done]. etrans; [apply assign_local_false_le|done].
Qed.

Lemma leak_marked f : In f (program_functions p) -> leaks p f -> marked t f = true.
Proof.
  intros Hf (st & Hst & Hr). eapply callee_covered; [done|exact Hst| |exact Hr].
  intros b' Hb'. eapply (proj1 flow_covered); [exact Hst|done| | |exact Hb']; [|done].
  unfold program_handle_free in Hfree. rewrite forallb_forall in Hfree. by apply Hfree.
Qed.
End Sound.

(** ** The analysis of a program *)

(** C23: every function that may return memory of its own arena, along any path
    through it and through the functions it calls, is reported, in a program
    without handlers whose functions have distinct names, if every function that
    makes memory, or calls one that says so, has [alloc] in its effects clause,
    and if none returns memory within a record or an enum. *)
Theorem escape_sound p fuel ds f :
  NoDup (function_names p) -> program_handle_free p = true ->
  alloc_declared p = true -> memory_unnamed p = true ->
  analyze_escapes fuel p = Some ds ->
  In f (program_functions p) -> leaks p f -> In (escape_diagnostic f) ds.
Proof.
  intros Hn Hfree Halloc Hnamed Hds Hf Hleak.
  destruct (analyze_escapes_spec _ _ _ Hn Hds) as (t & _ & Hsol & _ & ->).
  apply in_map, filter_In. split; [done|]. by eapply leak_marked.
Qed.

(** C24: the escape analysis ends: for distinct function names its result is the
    same for all fuel above the number of functions and the values and slots of
    each of them. *)
Theorem analyze_escapes_terminates p :
  NoDup (function_names p) ->
  exists ds, forall fuel,
    length (program_functions p) < fuel ->
    Forall (fun f => fn_value_count f + fn_slot_count f < fuel) (program_functions p) ->
    analyze_escapes fuel p = Some ds.
Proof.
  intros Hn.
  set (bound := S (length (program_functions p) + list_sum (map frame_room (program_functions p)))).
  assert (Hroom : Forall (fun f => frame_room f < bound) (program_functions p)).
  { apply Stdlib.Lists.List.Forall_forall. intros f Hf. unfold bound.
    assert (frame_room f <= list_sum (map frame_room (program_functions p))); [|lia].
    clear Hn bound. induction (program_functions p) as [|g l IH]; [done|].
    unfold list_sum in *. cbn [map fold_right].
    destruct Hf as [->|Hf]; [lia|]. specialize (IH Hf). lia. }
  destruct (analyze_escapes_total bound p Hn Hroom) as [ds Hds]; [unfold bound; lia|].
  exists ds. intros fuel Hlen Hall. destruct (analyze_escapes_total fuel p Hn Hall Hlen) as [ds' Hds'].
  rewrite Hds'. f_equal.
  destruct (analyze_escapes_spec _ _ _ Hn Hds) as (t & _ & Ht & Hl & ->).
  destruct (analyze_escapes_spec _ _ _ Hn Hds') as (t' & _ & Ht' & Hl' & ->).
  f_equal. apply filter_ext_marked. intros f _. apply eq_true_iff_eq. split; intros Hm.
  - eapply Hl'; [|exact Hm]. intros g Hg. eauto.
  - eapply Hl; [|exact Hm]. intros g Hg. eauto.
Qed.

(** C25: the analysis reports, in program order, the functions marked by the
    least table that agrees with its own judgement: no table that is closed
    under the analysis of bodies marks less. *)
Theorem escape_least_table p fuel ds :
  NoDup (function_names p) -> analyze_escapes fuel p = Some ds ->
  exists t,
    (forall f, In f (program_functions p) ->
       may_escape fuel t f = Some (default false (t !! fn_name f))) /\
    (forall fuel' t',
       (forall f, In f (program_functions p) -> exists b,
          may_escape fuel' t' f = Some b /\ (b = true -> default false (t' !! fn_name f) = true)) ->
       forall name, default false (t !! name) = true -> default false (t' !! name) = true) /\
    ds = map escape_diagnostic
           (List.filter (fun f => default false (t !! fn_name f)) (program_functions p)).
Proof.
  intros Hn Hds. destruct (analyze_escapes_spec _ _ _ Hn Hds) as (t & _ & Hsol & Hleast & Hds').
  exists t. split_and!; [exact Hsol | exact Hleast | exact Hds'].
Qed.

(** ** Samples *)

(** [f] adds to a text in a loop and returns it, [g] returns what [f] does, [h]
    its parameter. *)
Definition text_function (name : string) (insts : list Inst) (result : ValueId) (nv ns : nat) : Function :=
  mkFunction name [] (Some "Text") ["alloc"] [] insts (Some result) (mkSpan 0 0) nv ns.

Definition escape_sample : Program :=
  let f := text_function "f"
    [I_ConstText 0 "a"; I_StoreLocal 0 0; I_ConstInt 1 3;
     I_Repeat 2 1 (Some 1) [I_LoadLocal 3 0; I_TextConcat 4 3 0; I_StoreLocal 0 4];
     I_LoadLocal 5 0] 5 6 2 in
  let g := text_function "g" [I_Call 0 "f" []] 0 1 0 in
  let h := text_function "h" [I_LoadParam 0 0; I_Call 1 "f" []] 0 2 0 in
  mkProgram [] [] [g; h; f] [].

Lemma escape_sample_names : NoDup (function_names escape_sample).
Proof. apply (bool_decide_unpack _). vm_compute. exact I. Qed.

Lemma escape_sample_leaks :
  exists g, program_functions escape_sample !! 0 = Some g /\ leaks escape_sample g.
Proof.
  eexists. split; [reflexivity|]. eexists. split.
  - eapply flow_cons; [|apply flow_nil]. eapply flow_call; [vm_compute; reflexivity|]. cbn.
    eapply flow_cons; [by eapply flow_dest|]. eapply flow_cons; [apply flow_store|].
    eapply flow_cons; [by eapply flow_dest|]. eapply flow_cons.
    + apply flow_repeat. eapply times_more; [|apply times_end]. eapply flow_cons; [apply flow_load|].
      eapply flow_cons; [by eapply flow_dest|]. eapply flow_cons; [apply flow_store|]. apply flow_nil.
    + eapply flow_cons; [apply flow_load|]. apply flow_nil.
  - vm_compute. reflexivity.
Qed.

Lemma escape_sound_witness :
  exists ds g, analyze_escapes 10 escape_sample = Some ds /\ In (escape_diagnostic g) ds.
Proof.
  destruct escape_sample_leaks as (g & Hg & Hl).
  destruct (analyze_escapes 10 escape_sample) as [ds|] eqn:E; [|vm_compute in E; discriminate].
  exists ds, g. split; [done|].
  apply (escape_sound escape_sample 10 ds g escape_sample_names);
    [vm_compute; reflexivity | vm_compute; reflexivity | vm_compute; reflexivity | exact E | injection Hg as <-; by left | exact Hl].
Defined.

Lemma analyze_escapes_terminates_witness :
  exists ds, analyze_escapes 10 escape_sample = Some ds.
Proof.
  destruct (analyze_escapes_terminates escape_sample escape_sample_names) as [ds Hds].
  exists ds. apply Hds; [cbn; lia|]. repeat constructor; cbn; lia.
Defined.

Lemma escape_least_table_witness :
  exists t : CalleeMap, map escape_diagnostic
    (List.filter (fun f => default false (t !! fn_name f)) (program_functions escape_sample))
  = map escape_diagnostic (List.filter (fun f => negb (String.eqb (fn_name f) "h")) (program_functions escape_sample)).
Proof.
  destruct (analyze_escapes 10 escape_sample) as [ds|] eqn:E; [|vm_compute in E; discriminate].
  destruct (escape_least_table escape_sample 10 ds escape_sample_names E) as (t & _ & _ & Hds).
  exists t. rewrite <- Hds. vm_compute in E. injection E as <-. vm_compute. reflexivity.
Defined.

(** [main] handles an operation whose arm keeps a new text in a slot, which the
    handled body returns after performing the operation. *)
Definition handler_main : Function :=
  text_function "main"
    [I_Handle 0 [I_Perform 1 "Log" "keep" []; I_LoadLocal 2 0] (Some 2)
       [mkHandleArm "Log" "keep" []
          [I_ConstText 3 "a"; I_TextConcat 4 3 3; I_StoreLocal 0 4; I_ConstBool 5 true] (Some 5)]]
    0 6 1.

Definition handler_program : Program := mkProgram [] [] [handler_main] [].

(** With a handler the analysis misses memory: the arms are analysed once,
    after the handled body, so a slot an arm stores to is not seen by the body
    that performs the operation. *)
Theorem escape_misses_handler :
  analyze_escapes 10 handler_program = Some [] /\ leaks handler_program handler_main.
Proof.
  split; [vm_compute; reflexivity|]. eexists. split.
  - eapply flow_cons; [|apply flow_nil]. eapply flow_handle. cbn.
    eapply flow_cons; [eapply flow_perform; [vm_compute; reflexivity|]|].
    + cbn. eapply flow_cons; [by eapply flow_dest|]. eapply flow_cons; [by eapply flow_dest|].
      eapply flow_cons; [apply flow_store|]. eapply flow_cons; [by eapply flow_dest|]. apply flow_nil.
    + eapply flow_cons; [apply flow_load|]. apply flow_nil.
  - vm_compute. reflexivity.
Qed.

(** With a clause that does not say [alloc], as where the effect was inferred, or
    with the text in a record, nothing is reported. *)
Definition concat_function (ty : string) (effects : list string) (insts : list Inst) (result : ValueId) : Function :=
  mkFunction "f" [] (Some ty) effects []
    ([I_ConstText 0 "a"; I_TextConcat 1 0 0] ++ insts) (Some result) (mkSpan 0 0) 3 0.

Definition inferred_program : Program := mkProgram [] [] [concat_function "Text" [] [] 1] [].

Definition record_program : Program :=
  mkProgram [] [mkStructType "Person" [mkStructField "name" "Text"] None]
    [concat_function "Person" ["alloc"] [I_MakeRecord 2 "Person" [("name"%string, 1)]] 2] [].

Theorem escape_misses_clause_and_records :
  analyze_escapes 10 inferred_program = Some [] /\
  leaks inferred_program (concat_function "Text" [] [] 1) /\
  analyze_escapes 10 record_program = Some [] /\
  leaks record_program (concat_function "Person" ["alloc"] [I_MakeRecord 2 "Person" [("name"%string, 1)]] 2).
Proof.
  split_and!; [vm_compute; reflexivity| |vm_compute; reflexivity|]; eexists;
    (split; [repeat (eapply flow_cons; [by eapply flow_dest|]); apply flow_nil | vm_compute; reflexivity]).
Qed.
