(* ===== verification/LowerOps.v ===== *)
(** * Lowering to the MIR: values, types, locals and arrays

    The methods of [FunctionLowerer] ([crates/sarif_codegen/src/lib.rs]) that
    emit instructions and lower no expression.  An array that a mutable local or
    a parameter holds lives in one slot an element, so that an index that is not
    constant becomes a tree of comparisons. *)
From stdpp Require Import gmap pretty.
From S2P Require Import Prelude Syntax Utf8 TextOps Float64 Mir Interp Hir SemType ConstEval.
From S2P Require Import LowerState LowerTypes.

Open Scope nat_scope.

(** ** Plain values *)

Definition const_true : L ValueId := emit_value (fun dest => I_ConstBool dest true).

(** An [If] that yields nothing is how the MIR writes [Unit]. *)
Definition emit_unit_value : L ValueId :=
  let+ condition := const_true in
  emit_value (fun dest => I_If dest condition [] None [] None).

(** A name for the type; an array type gets a struct of its own. *)
Fixpoint register_type_name (ty : LowerType) : L (option string) :=
  match ty with
  | LT_Array element len =>
      let+ element_ty := register_type_name element in
      match element_ty with
      | None => l_ret None
      | Some element_ty =>
          let name := array_struct_name element_ty len in
          l_modify (fun st =>
            match generated_arrays st !! name with
            | Some _ => st
            | None => set_generated_arrays
                        (<[name := mkGeneratedArrayType name element_ty len]> (generated_arrays st)) st
            end) ;+
          l_ret (Some name)
      end
  | _ => l_ret (lower_type_name ty)
  end.

(** ** Slots *)

Definition push_mutable_local (name ty : string) (mutable : bool) : L LocalSlotId :=
  let+ slot := fresh_slot in
  l_modify (fun st => set_mutable_locals (mutable_locals st ++ [mkMutableLocal slot name ty mutable]) st) ;+
  l_ret slot.

Definition create_array_slots_for_type (name : string) (ty : LowerType) (mutable : bool)
    : L (option (list LocalSlotId)) :=
  match ty with
  | LT_Array element len =>
      let+ element_ty := register_type_name element in
      match element_ty with
      | None => l_ret None
      | Some element_ty =>
          let+ slots := l_map (fun index =>
            push_mutable_local (name ++ "[" ++ pretty index ++ "]") element_ty mutable) (seq 0 len) in
          l_ret (Some slots)
      end
  | _ => l_ret None
  end%string.

Definition store_array_slots_from_value (slots : list LocalSlotId) (value : ValueId) : L unit :=
  l_each (fun '(index, slot) =>
    let+ field := emit_value (fun dest => I_Field dest value (array_field_name index)) in
    emit (I_StoreLocal slot field)) (imap pair slots).

Definition insert_local (name : string) (binding : LocalBinding) : L unit :=
  l_modify (fun st => set_locals (<[name := binding]> (locals st)) st).

Definition insert_local_type (name : string) (ty : LowerType) : L unit :=
  l_modify (fun st => set_local_types (<[name := ty]> (local_types st)) st).

Definition bind_local (name : string) (ty : LowerType) (value : ValueId) (mutable scalarize_arrays : bool)
    : L bool :=
  let+ slots := (if scalarize_arrays then create_array_slots_for_type name ty mutable else l_ret None) in
  match slots with
  | Some slots =>
      store_array_slots_from_value slots value ;+
      insert_local name (LB_ArraySlots slots) ;+
      insert_local_type name ty ;+
      l_ret true
  | None =>
      if mutable then
        let+ slot_ty := register_type_name ty in
        match slot_ty with
        | None => l_ret false
        | Some slot_ty =>
            let+ slot := push_mutable_local name slot_ty true in
            emit (I_StoreLocal slot value) ;+
            insert_local name (LB_Slot slot) ;+
            insert_local_type name ty ;+
            l_ret true
        end
      else
        insert_local name (LB_Value value) ;+
        insert_local_type name ty ;+
        l_ret true
  end.

(** ** Elements of arrays *)

Definition emit_bounds_assert (index : ValueId) (len : nat) : L unit :=
  let+ zero := emit_value (fun dest => I_ConstInt dest 0) in
  let+ non_negative := emit_value (fun dest => I_Ge dest index zero) in
  let+ upper := fresh_value in
  let+ len := expect_i64 len in
  emit (I_ConstInt upper len) ;+
  let+ below_len := emit_value (fun dest => I_Lt dest index upper) in
  let+ in_bounds := emit_value (fun dest => I_And dest non_negative below_len) in
  emit (I_Assert in_bounds Bounds).

(** The comparison with the middle of a range *)
Definition below_split (index : ValueId) (split : nat) : L ValueId :=
  let+ expected := fresh_value in
  let+ split := expect_i64 split in
  emit (I_ConstInt expected split) ;+
  emit_value (fun dest => I_Lt dest index expected).

(** A tree that takes [leaf i] for the index [i] in [start .. end_]: the shape of
    [lower_index_choice_range] and [lower_array_slot_choice_range].  An empty
    range is never left. *)
Fixpoint choice_range (leaf : nat -> L ValueId) (fuel : nat) (index : ValueId) (start end_ : nat) : L ValueId :=
  match fuel with
  | 0 => l_out_of_fuel
  | S fuel =>
      if start + 1 =? end_ then leaf start
      else
        let split := start + (end_ - start) / 2 in
        let+ condition := below_split index split in
        let+ then_ := capture (choice_range leaf fuel index start split) in
        let+ else_ := capture (choice_range leaf fuel index split end_) in
        emit_value (fun dest => I_If dest condition then_.1 (Some then_.2) else_.1 (Some else_.2))
  end.

(** [end_ - start] levels are enough for a range that is not empty. *)
Definition lower_index_choice (base index : ValueId) (len : nat) : L ValueId :=
  choice_range (fun i => emit_value (fun dest => I_Field dest base (array_field_name i))) (S len) index 0 len.

(** [slots[start]] panics out of range. *)
Definition load_slot (slots : list LocalSlotId) (i : nat) : L ValueId :=
  let+ dest := fresh_value in
  match slots !! i with
  | Some slot => emit (I_LoadLocal dest slot) ;+ l_ret dest
  | None => l_panic
  end.

Definition lower_array_slot_choice (slots : list LocalSlotId) (index : ValueId) : L ValueId :=
  choice_range (load_slot slots) (S (length slots)) index 0 (length slots).

Fixpoint store_array_slot_choice_range (fuel : nat) (slots : list LocalSlotId) (index : ValueId)
    (start end_ : nat) (value : ValueId) : L unit :=
  match fuel with
  | 0 => l_out_of_fuel
  | S fuel =>
      if start + 1 =? end_ then
        match slots !! start with
        | Some slot => emit (I_StoreLocal slot value)
        | None => l_panic
        end
      else
        let split := start + (end_ - start) / 2 in
        let+ condition := below_split index split in
        let+ then_ := capture (store_array_slot_choice_range fuel slots index start split value ;+ emit_unit_value) in
        let+ else_ := capture (store_array_slot_choice_range fuel slots index split end_ value ;+ emit_unit_value) in
        let+ dest := fresh_value in
        emit (I_If dest condition then_.1 None else_.1 None)
  end.

Definition store_array_slot_choice (slots : list LocalSlotId) (index value : ValueId) : L unit :=
  store_array_slot_choice_range (S (length slots)) slots index 0 (length slots) value.

Section Ops.
Context (prog : LowerProgram) (cx : FnContext).

(** The name of the function, in messages *)
Definition in_function : string := Hir.fn_name (cx_function cx).

Definition materialize_array_slots (name : string) (slots : list LocalSlotId) (span : Span) : L ValueId :=
  let unsupported (message help : string) :=
    diagnose "mir.array-slot-type" message span (Some help) ;+ emit_unit_value in
  let+ array_ty := l_gets (fun st => local_types st !! name) in
  match array_ty with
  | None =>
      unsupported ("failed to materialize array local `" ++ name ++ "` in `" ++ in_function
                     ++ "` because its lowered type is unavailable")
        "Keep mutable array locals on valid stage-0 array types."
  | Some array_ty =>
      let+ struct_name := register_type_name array_ty in
      match struct_name with
      | None =>
          unsupported ("failed to materialize array local `" ++ name ++ "` in `" ++ in_function
                         ++ "` because its stage-0 array type is unsupported")
            "Keep mutable array locals on stage-0 supported element types."
      | Some struct_name =>
          let+ fields := l_map (fun '(index, slot) =>
            let+ field := emit_value (fun dest => I_LoadLocal dest slot) in
            l_ret (array_field_name index, field)) (imap pair slots) in
          emit_value (fun dest => I_MakeRecord dest struct_name fields)
      end
  end%string.

(** The record with one field replaced *)
Definition lower_updated_record (current_record : ValueId) (record_name field_name : string) (value : ValueId)
    (span : Span) : L ValueId :=
  match lp_struct_layouts prog !! record_name with
  | None =>
      diagnose "mir.assign-target"
        ("field assignment target in `" ++ in_function ++ "` has no record layout") span
        (Some "Use field assignment on declared struct values.") ;+
      emit_unit_value
  | Some fields =>
      let+ updated_fields := l_map (fun '(field, _) =>
        if String.eqb field field_name then l_ret (field, value)
        else
          let+ dest := emit_value (fun dest => I_Field dest current_record field) in
          l_ret (field, dest)) fields in
      emit_value (fun dest => I_MakeRecord dest record_name updated_fields)
  end%string.

(** *** Indices known before the run *)

Definition int_const (name : string) : option nat :=
  match lp_evaluated_consts prog !! name with
  | Some (V_Int value) => usize_of value
  | _ => None
  end.

Definition const_index_expr_value (e : Expr) : option nat :=
  match e with
  | E_Integer value _ => usize_of value
  | E_Name name _ => int_const name
  | _ => None
  end.

Definition name_static_index_bound (name : string) (st : LowerState) : option nat :=
  match trusted_repeat_bounds st !! name with
  | Some bound => Some bound
  | None =>
      match cx_substitutions cx !! name with
      | Some bound => Some bound
      | None => int_const name
      end
  end.

Definition repeat_static_count (e : Expr) (st : LowerState) : option nat :=
  match e with
  | E_Integer value _ => usize_of value
  | E_Name name _ => name_static_index_bound name st
  | _ => None
  end.

Definition index_expr_is_in_bounds (e : Expr) (len : nat) (st : LowerState) : bool :=
  match e with
  | E_Integer value _ => match usize_of value with Some value => value <? len | None => false end
  | E_Name name _ => match name_static_index_bound name st with Some bound => bound <=? len | None => false end
  | _ => false
  end.

(** The check of an index, unless it is known to be in bounds *)
Definition check_bounds (index_expr : Expr) (index : ValueId) (len : nat) : L unit :=
  let+ in_bounds := l_gets (index_expr_is_in_bounds index_expr len) in
  if in_bounds : bool then l_ret tt else emit_bounds_assert index len.

(** ** Constants *)

(** A value that only a run can make *)
Definition runtime_only (code what because help : string) : L ValueId :=
  diagnose code
    ("failed to lower compile-time " ++ what ++ " value in `" ++ in_function ++ "` because " ++ because
       ++ " are runtime-only")
    (Hir.fn_span (cx_function cx)) (Some help) ;+
  emit_unit_value.

Fixpoint emit_runtime_value (value : RuntimeValue) : L ValueId :=
  match value with
  | V_Int value | V_I64 value => emit_value (fun dest => I_ConstInt dest value)
  | V_F64 value => emit_value (fun dest => I_ConstF64 dest (f64_to_bits value))
  | V_Bool value => emit_value (fun dest => I_ConstBool dest value)
  | V_Text value => emit_value (fun dest => I_ConstText dest value)
  | V_Bytes _ | V_BytesView _ _ _ =>
      runtime_only "mir.bytes-const" "bytes" "Bytes values" "Construct Bytes values at runtime."
  | V_TextIndex _ =>
      runtime_only "mir.text-index-const" "text index" "text indexes" "Construct TextIndex values at runtime."
  | V_TextBuilder _ =>
      runtime_only "mir.text-builder-const" "text builder" "text builders"
        "Finish text builders at runtime and keep const values on stage-0 text literals."
  | V_List _ =>
      runtime_only "mir.list-const" "List" "List handles"
        "Construct List values at runtime with `list_new(...)` and keep const values on fixed arrays."
  | V_Enum name variant payload =>
      let+ payload :=
        match payload with
        | None => l_ret None
        | Some payload => let+ payload := emit_runtime_value payload in l_ret (Some payload)
        end in
      emit_value (fun dest => I_MakeEnum dest name variant payload)
  | V_Record name fields =>
      let record (name : string) :=
        let+ fields := l_map (fun '(field, value) =>
          let+ value := emit_runtime_value value in l_ret (field, value)) fields in
        emit_value (fun dest => I_MakeRecord dest name fields) in
      match runtime_value_lower_type value with
      | LT_Array element_ty len =>
          let+ struct_name := register_type_name (LT_Array element_ty len) in
          match struct_name with
          | None =>
              diagnose "mir.array-const-type"
                ("failed to lower compile-time array value in `" ++ in_function
                   ++ "` because its element type is unsupported")
                (Hir.fn_span (cx_function cx))
                (Some "Keep compile-time arrays on stage-0 supported element types.") ;+
              emit_unit_value
          | Some struct_name => record struct_name
          end
      | _ => record name
      end
  | V_File _ =>
      runtime_only "mir.file-const" "File" "File handles" "Construct File values at runtime with `file_open(...)`."
  | V_Unit => emit_unit_value
  end%string.

(** ** Discriminants *)

Definition u32_succ (z : Z) : Z := ((z + 1) mod 2 ^ 32)%Z.

(** The discriminants of the rest of the variants, [next_auto] being free *)
Fixpoint effective_discriminants (next_auto : Z) (variants : list EnumVariantType) : list Z :=
  match variants with
  | [] => []
  | variant :: variants' =>
      let disc := default next_auto (cd ← discriminant variant; const_expr_eval cd ∅) in
      disc :: effective_discriminants (u32_succ disc) variants'
  end.

Definition compute_effective_discriminants (enum_type : string) : list Z :=
  match lp_enum_variants prog !! enum_type with
  | None => []
  | Some variants => effective_discriminants 0 variants
  end.
End Ops.
