(* ===== verification/LowerBuiltins.v ===== *)
(** * Lowering to the MIR: calls of builtins and effects of the system

    [try_lower_builtin_call_expr], [try_lower_system_effect_perform] and the
    methods of [FunctionLowerer] for one builtin each
    ([crates/sarif_codegen/src/lib.rs]), over [lower_expr]. *)
From stdpp Require Import gmap pretty.
From S2P Require Import Prelude Syntax Utf8 TextOps Float64 Mir Interp Hir SemType ConstEval.
From S2P Require Import LowerState LowerTypes LowerOps.

Open Scope nat_scope.

(** [char::from_u32(c).is_some()] *)
Definition is_char (c : Z) : bool := match encode_utf8 c with Some _ => true | None => false end.

Section Builtins.
Context (prog : LowerProgram) (cx : FnContext) (lower_expr : Expr -> L ValueId).

Definition infer (e : Expr) : L LowerType := l_gets (fun st => infer_expr_type prog cx (local_types st) e).

(** ** By the number of arguments *)

(** One argument; [Unit] where it is missing *)
Definition lower_unary_builtin_expr (args : list Expr) (build : ValueId -> ValueId -> Inst) : L ValueId :=
  match args with
  | arg :: _ =>
      let+ value := lower_expr arg in
      emit_value (fun dest => build dest value)
  | _ => emit_unit_value
  end.

Definition lower_binary_builtin_expr (args : list Expr) (build : ValueId -> ValueId -> ValueId -> Inst)
    : L ValueId :=
  match args with
  | arg0 :: arg1 :: _ =>
      let+ first := lower_expr arg0 in
      let+ second := lower_expr arg1 in
      emit_value (fun dest => build dest first second)
  | _ => emit_unit_value
  end.

Definition lower_ternary_builtin_expr (args : list Expr)
    (build : ValueId -> ValueId -> ValueId -> ValueId -> Inst) : L ValueId :=
  match args with
  | arg0 :: arg1 :: arg2 :: _ =>
      let+ first := lower_expr arg0 in
      let+ second := lower_expr arg1 in
      let+ third := lower_expr arg2 in
      emit_value (fun dest => build dest first second third)
  | _ => emit_unit_value
  end.

Definition lower_quaternary_builtin_expr (args : list Expr)
    (build : ValueId -> ValueId -> ValueId -> ValueId -> ValueId -> Inst) : L ValueId :=
  match args with
  | arg0 :: arg1 :: arg2 :: arg3 :: _ =>
      let+ first := lower_expr arg0 in
      let+ second := lower_expr arg1 in
      let+ third := lower_expr arg2 in
      let+ fourth := lower_expr arg3 in
      emit_value (fun dest => build dest first second third fourth)
  | _ => emit_unit_value
  end.

(** ** Builtins of their own shape *)

Definition lower_array_len_expr (args : list Expr) (span : Span) : L ValueId :=
  match args with
  | [arg] =>
      let+ ty := infer arg in
      match ty with
      | LT_Array _ len =>
          if (Z.of_nat len <? 2 ^ 63)%Z then emit_value (fun dest => I_ConstInt dest (Z.of_nat len))
          else
            diagnose "mir.array-len-range"
              ("failed to lower builtin `len` in `" ++ in_function cx
                 ++ "` because the array length exceeds stage-0 integer limits") span
              (Some "Keep stage-0 array lengths within `I32`/`I64`-sized limits.") ;+
            emit_unit_value
      | _ =>
          diagnose "mir.array-len-type"
            ("failed to lower builtin `len` in `" ++ in_function cx ++ "` because its argument is not an array")
            span (Some "Pass an internal stage-0 array to `len`.") ;+
          emit_unit_value
      end
  | _ =>
      diagnose "mir.array-len-arity"
        ("failed to lower builtin `len` in `" ++ in_function cx ++ "` because it expects exactly one argument")
        span (Some "Call `len(xs)` with exactly one array argument.") ;+
      emit_unit_value
  end%string.

(** The name of a field, when it is a literal *)
Definition literal_text (e : Expr) : string := match e with E_String _ value _ => value | _ => "" end.

(** [lower_list_sort_by_field_expr] and [lower_list_sort_by_text_field_expr] *)
Definition lower_list_sort_by (args : list Expr) (build : ValueId -> ValueId -> ValueId -> string -> Inst)
    : L ValueId :=
  match args with
  | arg0 :: arg1 :: arg2 :: _ =>
      let+ list := lower_expr arg0 in
      let+ len := lower_expr arg1 in
      emit_value (fun dest => build dest list len (literal_text arg2))
  | _ => emit_unit_value
  end.

Definition lower_list_from_expr (args : list Expr) : L ValueId :=
  match args with
  | arg0 :: _ =>
      let+ ty := infer arg0 in
      match ty with
      | LT_Array _ len =>
          let+ array := lower_expr arg0 in
          emit_value (fun dest => I_ListFrom dest array len)
      | _ => emit_unit_value
      end
  | [] => emit_unit_value
  end.

Definition lower_enum_to_i32_expr (args : list Expr) : L ValueId :=
  match args with
  | arg :: _ =>
      let+ value := lower_expr arg in
      let+ ty := infer arg in
      match ty with
      | LT_Named enum_type =>
          emit_value (fun dest => I_EnumToI32 dest value (compute_effective_discriminants prog enum_type))
      | _ => emit_unit_value
      end
  | [] => emit_unit_value
  end.

Definition lower_enum_to_text_expr (args : list Expr) : L ValueId :=
  match args with
  | arg :: _ =>
      let+ value := lower_expr arg in
      let+ ty := infer arg in
      match ty with
      | LT_Named enum_type =>
          match lp_enum_variants prog !! enum_type with
          | Some variants => emit_value (fun dest => I_EnumToText dest value (map Mir.variant_name variants))
          | None => emit_unit_value
          end
      | _ => emit_unit_value
      end
  | [] => emit_unit_value
  end.

Definition codepoint_help : string :=
  "Valid codepoints are 0..=0x10FFFF excluding surrogate range 0xD800..0xDFFF.".

(** The first discriminant that is no character, with its position *)
Definition bad_discriminant (discriminants : list Z) : option (nat * Z) :=
  List.find (fun '(_, disc) => negb (is_char disc)) (imap pair discriminants).

(** What is known about the argument before the run: [false] stops with [Unit]. *)
Definition check_codepoint (arg : Expr) : L bool :=
  match arg with
  | E_Integer value int_span =>
      if is_char (if (0 <=? value)%Z && (value <=? U32_MAX)%Z then value else U32_MAX) then l_ret true
      else
        diagnose "semantic.codepoint_to_text-invalid-literal"
          ("codepoint value " ++ pretty value ++ " is not a valid Unicode scalar value") int_span
          (Some codepoint_help) ;+
        l_ret false
  | E_Call callee (inner_arg :: _) _ =>
      if String.eqb callee "enum_to_i32" then
        let+ ty := infer inner_arg in
        match ty with
        | LT_Named enum_type =>
            match bad_discriminant (compute_effective_discriminants prog enum_type) with
            | None => l_ret true
            | Some (i, disc) =>
                let name := default "?"
                  (variants ← lp_enum_variants prog !! enum_type; Mir.variant_name <$> variants !! i) in
                diagnose "semantic.codepoint_to_text-invalid-discriminant"
                  ("discriminant value " ++ pretty disc ++ " for variant " ++ name ++ " of `" ++ enum_type
                     ++ "` is not a valid Unicode scalar value") (expr_span inner_arg) (Some codepoint_help) ;+
                l_ret false
            end
        | _ => l_ret false
        end
      else l_ret true
  | _ => l_ret true
  end%string.

Definition lower_codepoint_to_text_expr (args : list Expr) : L ValueId :=
  match args with
  | arg :: _ =>
      let+ valid := check_codepoint arg in
      if valid : bool then
        let+ value := lower_expr arg in
        let+ builder := emit_value I_TextBuilderNew in
        let+ after_append := emit_value (fun dest => I_TextBuilderAppendCodepoint dest builder value) in
        emit_value (fun dest => I_TextBuilderFinish dest after_append)
      else emit_unit_value
  | [] => emit_unit_value
  end.

Definition lower_const_assert_expr (args : list Expr) (span : Span) : L ValueId :=
  match args with
  | arg :: _ =>
      let is_true :=
        match arg with
        | E_Bool b _ => Some b
        | E_Name name _ =>
            match lp_evaluated_consts prog !! name with Some (V_Bool b) => Some b | _ => None end
        | _ => None
        end in
      match is_true with
      | Some true => l_ret tt
      | Some false =>
          diagnose "codegen.const_assert-failed"
            "const_assert failed: condition evaluated to false at compile time" (expr_span arg) None
      | None =>
          diagnose "codegen.const_assert" "const_assert requires a compile-time constant boolean argument"
            (expr_span arg) (Some "Use a literal boolean or a const value.")
      end ;+
      emit_unit_value
  | [] =>
      diagnose "codegen.const_assert" "const_assert requires exactly one argument" span
        (Some "Usage: const_assert(condition)") ;+
      emit_unit_value
  end%string.

(** A call of a function of the runtime; the value comes before its arguments. *)
Definition lower_runtime_call (callee : string) (args : list Expr) : L ValueId :=
  let+ dest := fresh_value in
  let+ args := l_map lower_expr args in
  emit (I_Call dest callee args) ;+ l_ret dest.

(** ** The table *)

(** How a builtin is lowered *)
Inductive Builtin :=
  | BI_Nullary (inst : ValueId -> Inst)
  | BI_Unary (inst : ValueId -> ValueId -> Inst)
  | BI_Binary (inst : ValueId -> ValueId -> ValueId -> Inst)
  | BI_Ternary (inst : ValueId -> ValueId -> ValueId -> ValueId -> Inst)
  | BI_Quaternary (inst : ValueId -> ValueId -> ValueId -> ValueId -> ValueId -> Inst)
  | BI_Runtime (callee : string)
  | BI_Own (lower : list Expr -> Span -> L ValueId)
  (** not lowered here when an argument is missing *)
  | BI_Strict (arity : nat) (lower : list Expr -> L ValueId).

Definition then_unit (m : L unit) : L ValueId := m ;+ emit_unit_value.

(** Calls of the runtime, and input and output: in place in [try_lower_builtin_call_expr] *)
Definition runtime_lowerings : list (string * Builtin) :=
  [("bytes_load_i32", BI_Runtime "sarif_bytes_load_i32"); ("bytes_store_i32", BI_Runtime "sarif_bytes_store_i32");
   ("bytes_load_i64", BI_Runtime "sarif_bytes_load_i64"); ("bytes_store_i64", BI_Runtime "sarif_bytes_store_i64");
   ("bytes_load_i32_i64", BI_Runtime "sarif_bytes_load_i32_i64");
   ("bytes_load_i64_i64", BI_Runtime "sarif_bytes_load_i64_i64");
   ("bytes_load_f32_i64", BI_Runtime "sarif_bytes_load_f32_i64");
   ("bytes_load_f64", BI_Runtime "sarif_bytes_load_f64"); ("bytes_store_f64", BI_Runtime "sarif_bytes_store_f64");
   ("bytes_load_bool", BI_Runtime "sarif_bytes_load_bool");
   ("bytes_store_bool", BI_Runtime "sarif_bytes_store_bool");
   ("bytes_slice_i64", BI_Runtime "sarif_bytes_slice_i64"); ("bytes_byte_i64", BI_Runtime "sarif_bytes_byte_i64");
   ("arg_count", BI_Nullary I_ArgCount);
   ("arg_text", BI_Strict 1 (fun args => lower_unary_builtin_expr args I_ArgText));
   ("tcp_listen", BI_Strict 1 (fun args => lower_unary_builtin_expr args I_TcpListen));
   ("tcp_accept", BI_Strict 1 (fun args => lower_unary_builtin_expr args I_TcpAccept));
   ("tcp_recv", BI_Strict 2 (fun args => lower_binary_builtin_expr args I_TcpRecv));
   ("tcp_send", BI_Strict 2 (fun args => lower_binary_builtin_expr args I_TcpSend));
   ("tcp_close", BI_Strict 1 (fun args => then_unit (l_each (fun arg =>
      let+ fd := lower_expr arg in emit (I_TcpClose fd)) (take 1 args))));
   ("print", BI_Strict 1 (fun args => then_unit (l_each (fun arg =>
      let+ text := lower_expr arg in emit (I_StdoutWrite text)) (take 1 args))))]%string.

(** Builtins with a method of their own *)
Definition own_lowerings : list (string * Builtin) :=
  [("len", BI_Own lower_array_len_expr); ("list_from", BI_Own (fun args _ => lower_list_from_expr args));
   ("list_sort_by_field", BI_Own (fun args _ => lower_list_sort_by args I_ListSortRecordField));
   ("list_sort_by_text_field", BI_Own (fun args _ => lower_list_sort_by args I_ListSortRecordTextField));
   ("enum_to_i32", BI_Own (fun args _ => lower_enum_to_i32_expr args));
   ("enum_to_text", BI_Own (fun args _ => lower_enum_to_text_expr args));
   ("codepoint_to_text", BI_Own (fun args _ => lower_codepoint_to_text_expr args));
   ("const_assert", BI_Own lower_const_assert_expr)]%string.

(** Text builders and interned text *)
Definition text_builder_lowerings : list (string * Builtin) :=
  [("text_builder_new", BI_Nullary I_TextBuilderNew); ("text_builder_append", BI_Binary I_TextBuilderAppend);
   ("text_builder_append_codepoint", BI_Binary I_TextBuilderAppendCodepoint);
   ("text_builder_append_ascii", BI_Binary I_TextBuilderAppendAscii);
   ("text_builder_append_slice", BI_Quaternary I_TextBuilderAppendSlice);
   ("text_builder_append_i32", BI_Binary I_TextBuilderAppendI32);
   ("text_builder_append_i64", BI_Binary I_TextBuilderAppendI64);
   ("text_builder_finish", BI_Unary I_TextBuilderFinish); ("text_intern", BI_Unary I_TextIntern);
   ("text_promote", BI_Unary I_TextIntern)]%string.

(** Text indices *)
Definition text_index_lowerings : list (string * Builtin) :=
  [("text_index_new", BI_Nullary I_TextIndexNew); ("text_index_get", BI_Binary I_TextIndexGet);
   ("text_index_contains", BI_Binary I_TextIndexContains);
   ("text_index_get_or_insert", BI_Ternary I_TextIndexGetOrInsert); ("text_index_set", BI_Ternary I_TextIndexSet);
   ("text_index_keys", BI_Unary I_TextIndexKeys)]%string.

(** Lists *)
Definition list_lowerings : list (string * Builtin) :=
  [("list_new", BI_Binary I_ListNew); ("list_len", BI_Unary I_ListLen); ("list_get", BI_Binary I_ListGet);
   ("list_set", BI_Ternary I_ListSet); ("list_push", BI_Ternary I_ListPush);
   ("list_sort_text", BI_Binary I_ListSortText)]%string.

(** Conversions, lengths and concatenation *)
Definition conversion_lowerings : list (string * Builtin) :=
  [("text_len", BI_Unary I_TextLen); ("f64_from_i32", BI_Unary I_F64FromI32);
   ("i64_from_i32", BI_Unary I_I64FromI32); ("f64_from_i64", BI_Unary I_F64FromI64);
   ("bytes_len", BI_Unary I_BytesLen); ("bytes_to_text", BI_Unary I_BytesToText);
   ("text_to_bytes", BI_Unary I_TextToBytes); ("bytes_materialize", BI_Unary I_BytesMaterialize);
   ("text_concat", BI_Binary I_TextConcat)]%string.

(** Parts of texts and bytes *)
Definition range_lowerings : list (string * Builtin) :=
  [("text_slice", BI_Ternary I_TextSlice); ("bytes_slice", BI_Ternary I_BytesSlice);
   ("text_byte", BI_Binary I_TextByte); ("bytes_byte", BI_Binary I_BytesByte); ("text_cmp", BI_Binary I_TextCmp);
   ("text_eq_range", BI_Quaternary I_TextEqRange); ("text_find_byte_range", BI_Quaternary I_TextFindByteRange);
   ("bytes_find_byte_range", BI_Quaternary I_BytesFindByteRange);
   ("bytes_field_end", BI_Quaternary I_BytesFieldEnd); ("bytes_next_field", BI_Quaternary I_BytesNextField);
   ("text_line_end", BI_Binary I_TextLineEnd); ("text_next_line", BI_Binary I_TextNextLine);
   ("text_field_end", BI_Quaternary I_TextFieldEnd); ("text_next_field", BI_Quaternary I_TextNextField)]%string.

(** Numbers *)
Definition number_lowerings : list (string * Builtin) :=
  [("text_from_f64_fixed", BI_Binary I_TextFromF64Fixed); ("sqrt", BI_Unary I_Sqrt);
   ("parse_i32", BI_Unary I_ParseI32); ("parse_i32_range", BI_Ternary I_ParseI32Range);
   ("parse_f64", BI_Unary I_ParseF64)]%string.

Definition builtin_lowerings : list (string * Builtin) :=
  concat [own_lowerings; text_builder_lowerings; text_index_lowerings; list_lowerings; conversion_lowerings;
          range_lowerings; number_lowerings; runtime_lowerings].

Definition lower_builtin (b : Builtin) (args : list Expr) (span : Span) : L (option ValueId) :=
  let some (m : L ValueId) : L (option ValueId) := let+ v := m in l_ret (Some v) in
  match b with
  | BI_Nullary inst => some (emit_value inst)
  | BI_Unary inst => some (lower_unary_builtin_expr args inst)
  | BI_Binary inst => some (lower_binary_builtin_expr args inst)
  | BI_Ternary inst => some (lower_ternary_builtin_expr args inst)
  | BI_Quaternary inst => some (lower_quaternary_builtin_expr args inst)
  | BI_Runtime callee => some (lower_runtime_call callee args)
  | BI_Own lower => some (lower args span)
  | BI_Strict arity lower => if arity <=? length args then some (lower args) else l_ret None
  end.

Definition try_lower_builtin_call_expr (callee : string) (args : list Expr) (span : Span) : L (option ValueId) :=
  if builtin_is_available prog callee then
    match assoc callee builtin_lowerings with
    | Some b => lower_builtin b args span
    | None => l_ret None
    end
  else l_ret None.
End Builtins.

(** ** Effects of the system *)

(** What an operation of an effect of the system becomes *)
Inductive SystemOp :=
  | SO_Value (arity : nat) (inst : ValueId -> list ValueId -> Inst)
  | SO_Unit (inst : ValueId -> Inst)
  (** an instruction the MIR of this model leaves out *)
  | SO_System (arity : nat).

Definition arg (args : list ValueId) (i : nat) : ValueId := default 0 (args !! i).

(** Input and output, and the arguments *)
Definition system_io : list (string * SystemOp) :=
  [("stdout_write", SO_Unit I_StdoutWrite); ("stdout_write_bytes", SO_Unit I_StdoutWrite);
   ("stdin_bytes", SO_Value 0 (fun dest _ => I_StdinBytes dest));
   ("stdin_text", SO_Value 0 (fun dest _ => I_StdinText dest));
   ("arg_count", SO_Value 0 (fun dest _ => I_ArgCount dest));
   ("arg_text", SO_Value 1 (fun dest args => I_ArgText dest (arg args 0)))]%string.

Definition system_effects : list (string * list (string * SystemOp)) :=
  [("SystemIO", system_io);
   ("SystemEnv",
     [("arg_count", SO_Value 0 (fun dest _ => I_ArgCount dest));
      ("arg_text", SO_Value 1 (fun dest args => I_ArgText dest (arg args 0)));
      ("get", SO_System 1); ("set", SO_System 2); ("remove", SO_System 1); ("keys", SO_System 0)]);
   ("SystemFile",
     [("open", SO_System 2); ("close", SO_System 1); ("sync", SO_System 1); ("read", SO_System 2);
      ("read_to_end", SO_System 1); ("write", SO_System 2); ("seek", SO_System 3); ("size", SO_System 1);
      ("exists", SO_System 1); ("remove", SO_System 1); ("mmap", SO_System 1);
      ("is_valid", SO_Value 1 (fun dest args => I_FileIsValid dest (arg args 0)))]);
   ("SystemDir",
     [("create", SO_System 1); ("remove", SO_System 1); ("list", SO_System 1); ("exists", SO_System 1);
      ("current", SO_System 0); ("change", SO_System 1)]);
   ("SystemProcess", [("exit", SO_System 1); ("id", SO_System 0)]);
   ("SystemClock", [("now", SO_System 0); ("sleep", SO_System 1)])]%string.

Definition lower_system_op (op : SystemOp) (args : list ValueId) : L (option ValueId) :=
  let some (m : L ValueId) : L (option ValueId) := let+ v := m in l_ret (Some v) in
  match op with
  | SO_Value arity inst =>
      if arity <=? length args then some (emit_value (fun dest => inst dest args)) else l_ret None
  | SO_Unit inst =>
      match args with
      | a :: _ => some (emit (inst a) ;+ emit_unit_value)
      | [] => l_ret None
      end
  | SO_System arity => if arity <=? length args then l_system else l_ret None
  end.

Definition try_lower_system_effect_perform (effect operation : string) (args : list ValueId)
    : L (option ValueId) :=
  if String.eqb effect "SystemIO" && String.eqb operation "stdout_write_builder" then
    match args with
    | builder :: _ =>
        emit_value (fun dest => I_StdoutWriteBuilder dest builder) ;+
        let+ unit := emit_unit_value in
        l_ret (Some unit)
    | [] => l_ret None
    end
  else
    match ops ← assoc effect system_effects; assoc operation ops with
    | Some op => lower_system_op op args
    | None => l_ret None
    end.
