(* ===== verification/LowerMatch.v ===== *)
(** * Lowering to the MIR: matches

    [lower_match_value], [lower_match_body], [lower_int_match_balanced] and what
    they call, of [FunctionLowerer] ([crates/sarif_codegen/src/lib.rs]), over
    [lower_nested_body].  Arms become a chain of [If]s; from three arms on, if all
    patterns are integers, a balanced tree of comparisons. *)
From stdpp Require Import gmap pretty.
From S2P Require Import Prelude Syntax Utf8 TextOps Float64 Mir Interp Exec Hir SemType ConstEval.
From S2P Require Import LowerState LowerTypes LowerOps.

Open Scope nat_scope.

(** ** Patterns *)

Fixpoint is_integer_match_pattern (pattern : MatchPattern) : bool :=
  match pattern with
  | P_Integer _ _ | P_Wildcard _ => true
  | P_Or patterns _ => forallb is_integer_match_pattern patterns
  | _ => false
  end.

Definition is_integer_only_match (arms : list MatchArm) : bool :=
  forallb (fun arm => is_integer_match_pattern (arm_pattern arm)) arms.

Fixpoint collect_int_values (pattern : MatchPattern) (arm_idx : nat) : list (Z * nat) :=
  match pattern with
  | P_Integer value _ => [(value, arm_idx)]
  | P_Or patterns _ => flat_map (fun p => collect_int_values p arm_idx) patterns
  | _ => []
  end.

Definition int_arms (arms : list MatchArm) : list (Z * nat) :=
  concat (imap (fun i arm => collect_int_values (arm_pattern arm) i) arms).

Definition is_wildcard (pattern : MatchPattern) : bool :=
  match pattern with P_Wildcard _ => true | _ => false end.

(** [position]: the first arm that is a wildcard *)
Fixpoint wildcard_position (arms : list MatchArm) : option nat :=
  match arms with
  | [] => None
  | arm :: arms' => if is_wildcard (arm_pattern arm) then Some 0 else S <$> wildcard_position arms'
  end.

Section Match.
Context (prog : LowerProgram) (cx : FnContext) (lower_nested_body : Body -> L NestedBodyLowering).

(** The tag is the position of the variant. *)
Definition enum_variant_tag_from_pattern (path : string) (span : Span) : L Z :=
  match split_enum_variant_path path with
  | None =>
      diagnose "mir.match-pattern" ("failed to lower match arm `" ++ path ++ "`") span
        (Some "Use `Enum.variant` arm patterns during MIR lowering.") ;+
      l_ret 0%Z
  | Some (enum_name, variant) =>
      match variants ← lp_enum_variants prog !! enum_name;
            Exec.variant_position variants variant with
      | Some index => l_ret (Z.of_nat index)
      | None =>
          diagnose "mir.match-pattern" ("failed to lower unknown match arm `" ++ path ++ "`") span
            (Some "Use one of the declared enum variants.") ;+
          l_ret 0%Z
      end
  end%string.

Definition payload_type_for_pattern (path : string) (span : Span) : L string :=
  let unknown (message help : string) : L string :=
    diagnose "mir.enum-payload" message span (Some help) ;+ l_ret "Unit" in
  match split_enum_variant_path path with
  | None =>
      unknown "failed to lower payload binding for an invalid enum pattern"
        "Use a declared enum variant with a payload binding."
  | Some (enum_name, variant) =>
      match v ← find_variant prog enum_name variant; Mir.payload_type v with
      | Some ty => l_ret ty
      | None =>
          unknown ("failed to lower payload binding for unknown or payload-free enum variant `" ++ path ++ "`")
            "Use a declared payload-carrying enum variant."
      end
  end%string.

Definition lower_value_eq (l r : ValueId) : L ValueId := emit_value (fun dest => I_Eq dest l r).

Definition lower_lt_const (scrutinee : ValueId) (value : Z) : L ValueId :=
  let+ rhs := emit_value (fun dest => I_ConstInt dest value) in
  emit_value (fun dest => I_Lt dest scrutinee rhs).

Definition lower_enum_tag_check (scrutinee : ValueId) (tag : Z) : L ValueId :=
  emit_value (fun dest => I_EnumTagEq dest scrutinee tag).

(** The disjunction of conditions *)
Fixpoint combine_or (combined : ValueId) (conditions : list ValueId) : L ValueId :=
  match conditions with
  | [] => l_ret combined
  | rhs :: conditions' =>
      let+ dest := emit_value (fun dest => I_Or dest combined rhs) in combine_or dest conditions'
  end.

(** [None]: always; of alternatives, those that always match are passed over. *)
Fixpoint lower_match_pattern_condition (scrutinee : ValueId) (pattern : MatchPattern) : L (option ValueId) :=
  let equals (inst : ValueId -> Inst) : L (option ValueId) :=
    let+ rhs := emit_value inst in
    let+ condition := lower_value_eq scrutinee rhs in
    l_ret (Some condition) in
  match pattern with
  | P_Variant path _ span =>
      let+ tag := enum_variant_tag_from_pattern (Hir.path path) span in
      let+ condition := lower_enum_tag_check scrutinee tag in
      l_ret (Some condition)
  | P_Integer value _ => equals (fun dest => I_ConstInt dest value)
  | P_String _ value _ => equals (fun dest => I_ConstText dest value)
  | P_Bool value _ => equals (fun dest => I_ConstBool dest value)
  | P_IntegerRange start end_ _ =>
      let+ lower := emit_value (fun dest => I_ConstInt dest start) in
      let+ lower_ok := emit_value (fun dest => I_Ge dest scrutinee lower) in
      let+ upper := emit_value (fun dest => I_ConstInt dest end_) in
      let+ upper_ok := emit_value (fun dest => I_Lt dest scrutinee upper) in
      let+ dest := emit_value (fun dest => I_And dest lower_ok upper_ok) in
      l_ret (Some dest)
  | P_Or patterns _ =>
      let+ conditions := l_map (lower_match_pattern_condition scrutinee) patterns in
      match omap id conditions with
      | [] => l_ret None
      | combined :: rest => let+ combined := combine_or combined rest in l_ret (Some combined)
      end
  | P_Wildcard _ => l_ret None
  end.

(** ** Arms *)

(** The arm after the payload is bound; the binding gets no type. *)
Definition lower_match_arm_body (scrutinee : ValueId) (arm : MatchArm) : L NestedBodyLowering :=
  let+ saved_locals := l_gets locals in
  let+ r := capture (
    match arm_pattern arm with
    | P_Variant path (Some binding) span =>
        let+ payload := fresh_value in
        let+ payload_type := payload_type_for_pattern (Hir.path path) span in
        emit (I_EnumPayload payload scrutinee payload_type) ;+
        insert_local binding (LB_Value payload)
    | _ => l_ret tt
    end ;+
    lower_nested_body (arm_body arm)) in
  l_modify (set_locals saved_locals) ;+
  l_ret (mkNestedBodyLowering (r.1 ++ nb_instructions r.2) (nb_result r.2) (nb_falls_through r.2)).

Definition no_body : NestedBodyLowering := mkNestedBodyLowering [] None true.

(** The [If] of two lowered bodies: it has a result if one of them has. *)
Definition emit_if (condition : ValueId) (then_body else_body : NestedBodyLowering) : L BodyLowering :=
  let+ dest := emit_value (fun dest =>
    I_If dest condition (nb_instructions then_body) (nb_result then_body)
      (nb_instructions else_body) (nb_result else_body)) in
  l_ret (mkBodyLowering
    (match nb_result then_body, nb_result else_body with None, None => None | _, _ => Some dest end)
    (nb_falls_through then_body || nb_falls_through else_body)).

(** The body in place *)
Definition emit_body (body : NestedBodyLowering) : L BodyLowering :=
  extend (nb_instructions body) ;+ l_ret (mkBodyLowering (nb_result body) (nb_falls_through body)).

(** [lower_match_nested] *)
Definition nested (m : L BodyLowering) : L NestedBodyLowering :=
  let+ r := capture m in
  l_ret (mkNestedBodyLowering r.1 (bl_result r.2) (bl_falls_through r.2)).

Definition arm_at (all_arms : list MatchArm) (scrutinee : ValueId) (idx : nat) : L NestedBodyLowering :=
  match all_arms !! idx with
  | Some arm => lower_match_arm_body scrutinee arm
  | None => l_panic
  end.

(** ** Integers *)

(** [arms]: values and the arms they select, sorted by the values *)
Fixpoint build_int_btree (fuel : nat) (scrutinee : ValueId) (arms : list (Z * nat)) (wild_idx : option nat)
    (all_arms : list MatchArm) : L BodyLowering :=
  match fuel with
  | 0 => l_out_of_fuel
  | S fuel =>
      match arms with
      | [] =>
          match wild_idx with
          | Some idx => let+ body := arm_at all_arms scrutinee idx in emit_body body
          | None => l_ret (mkBodyLowering None true)
          end
      | [(val, arm_idx)] =>
          let+ then_body := arm_at all_arms scrutinee arm_idx in
          let+ rhs := emit_value (fun dest => I_ConstInt dest val) in
          let+ condition := lower_value_eq scrutinee rhs in
          let+ else_body := match wild_idx with
                            | Some idx => arm_at all_arms scrutinee idx
                            | None => l_ret no_body
                            end in
          emit_if condition then_body else_body
      | _ =>
          let mid := length arms / 2 in
          let pivot := match arms !! mid with Some (value, _) => value | None => 0%Z end in
          let+ condition := lower_lt_const scrutinee pivot in
          let+ left_body := nested (build_int_btree fuel scrutinee (take mid arms) wild_idx all_arms) in
          let+ right_body := nested (build_int_btree fuel scrutinee (drop mid arms) wild_idx all_arms) in
          emit_if condition left_body right_body
      end
  end.

(** A chain: the first arm, then [rest]; the only arm is its own alternative. *)
Definition lower_first_arm (scrutinee : ValueId) (arms : list MatchArm) (arm : MatchArm) (rest : L BodyLowering)
    : L BodyLowering :=
  let+ then_body := lower_match_arm_body scrutinee arm in
  let+ condition := lower_match_pattern_condition scrutinee (arm_pattern arm) in
  match condition with
  | None => emit_body then_body
  | Some condition =>
      let+ else_body := (if length arms =? 1 then lower_match_arm_body scrutinee arm else nested rest) in
      emit_if condition then_body else_body
  end.

Definition compare_keys (x y : Z * nat) : comparison := Z.compare x.1 y.1.

(** Without integers it is a chain. *)
Definition lower_int_match_balanced (scrutinee : ValueId) (arms : list MatchArm) (arm : MatchArm)
    (rest : L BodyLowering) : L BodyLowering :=
  match int_arms arms with
  | [] => lower_first_arm scrutinee arms arm rest
  | ints =>
      build_int_btree (length ints) scrutinee (sort_by compare_keys ints) (wildcard_position arms) arms
  end.

Fixpoint lower_match_body (scrutinee : ValueId) (arms : list MatchArm) : L BodyLowering :=
  match arms with
  | [] => l_ret (mkBodyLowering None true)
  | arm :: rest =>
      if (3 <=? length arms) && is_integer_only_match arms
         && (length (int_arms arms) <=? length arms * 3 / 2)
      then lower_int_match_balanced scrutinee arms arm (lower_match_body scrutinee rest)
      else lower_first_arm scrutinee arms arm (lower_match_body scrutinee rest)
  end.

Definition lower_match_value (scrutinee : ValueId) (arms : list MatchArm) : L ValueId :=
  let+ body := lower_match_body scrutinee arms in
  match bl_result body with
  | Some value => l_ret value
  | None =>
      let+ dest := fresh_value in
      let+ condition := const_true in
      emit (I_If dest condition [] None [] None) ;+
      l_ret dest
  end.
End Match.
