(* ===== verification/LowerArrays.v ===== *)
(** * Lowering to the MIR: arrays, fields and assignments

    [lower_array_expr], [lower_index_expr] and the assignments to elements and
    fields, of [FunctionLowerer] ([crates/sarif_codegen/src/lib.rs]), over
    [lower_expr]. *)
From stdpp Require Import gmap pretty.
From S2P Require Import Prelude Syntax Utf8 TextOps Float64 Mir Interp Hir SemType ConstEval.
From S2P Require Import LowerState LowerTypes LowerOps LowerBuiltins.

Open Scope nat_scope.

Section Arrays.
Context (prog : LowerProgram) (cx : FnContext) (lower_expr : Expr -> L ValueId).

(** A diagnostic and a value of [Unit] *)
Definition unit_with (code message : string) (span : Span) (help : option string) : L ValueId :=
  diagnose code message span help ;+ emit_unit_value.

(** ** Literals *)

Definition lower_array_expr (elements : list Expr) (repeat_len : option ConstExpr) (span : Span) : L ValueId :=
  match elements with
  | [] =>
      unit_with "mir.array-empty" ("failed to lower empty array literal in `" ++ in_function cx ++ "`") span
        (Some "Keep stage-0 array literals non-empty.")
  | first :: _ =>
      let+ element_ty := infer prog cx first in
      match match repeat_len with
            | None => Some (length elements)
            | Some len => resolve_const_expr_len_value len (cx_substitutions cx)
            end with
      | None =>
          unit_with "mir.array-repeat-len" "repeat array length must be a compile-time fixed array length" span
            (Some "Use an integer literal or in-scope fixed-array length parameter.")
      | Some len =>
          let+ struct_name := register_type_name (LT_Array element_ty len) in
          match struct_name with
          | None =>
              unit_with "mir.array-type"
                ("failed to lower array literal in `" ++ in_function cx
                   ++ "` because its element type is unsupported") span
                (Some "Keep stage-0 arrays on scalar or named plain-value elements.")
          | Some struct_name =>
              let field '(index, element) :=
                let+ value := lower_expr element in l_ret (array_field_name index, value) in
              let+ fields := l_map field
                match repeat_len with
                | Some _ => map (fun index => (index, first)) (seq 0 len)
                | None => imap pair elements
                end in
              emit_value (fun dest => I_MakeRecord dest struct_name fields)
          end
      end
  end%string.

(** ** Elements *)

Definition index_out_of_bounds (index len : nat) (index_expr : Expr) : L unit :=
  diagnose "codegen.array-index-out-of-bounds"
    ("constant array index " ++ pretty index ++ " is out of bounds (array has " ++ pretty len ++ " elements)")
    (expr_span index_expr) None.

Definition lower_slots_index (slots : list LocalSlotId) (index_expr : Expr) : L ValueId :=
  match const_index_expr_value prog index_expr with
  | Some index =>
      match slots !! index with
      | Some slot => emit_value (fun dest => I_LoadLocal dest slot)
      | None => index_out_of_bounds index (length slots) index_expr ;+ emit_unit_value
      end
  | None =>
      let+ index := lower_expr index_expr in
      check_bounds prog cx index_expr index (length slots) ;+
      lower_array_slot_choice slots index
  end.

Definition lower_array_index (base_expr index_expr : Expr) (len : nat) : L ValueId :=
  let+ base := lower_expr base_expr in
  match const_index_expr_value prog index_expr with
  | Some index =>
      if index <? len then emit_value (fun dest => I_Field dest base (array_field_name index))
      else
        index_out_of_bounds index len index_expr ;+
        let+ index_val := fresh_value in
        let+ index := expect_i64 index in
        emit (I_ConstInt index_val index) ;+
        emit_bounds_assert index_val len ;+
        emit_unit_value
  | None =>
      let+ index := lower_expr index_expr in
      check_bounds prog cx index_expr index len ;+
      lower_index_choice base index len
  end.

(** The slots of a base that is the name of an array in slots *)
Definition array_slots_of (base : Expr) (st : LowerState) : option (list LocalSlotId) :=
  match base with
  | E_Name name _ => match locals st !! name with Some (LB_ArraySlots slots) => Some slots | _ => None end
  | _ => None
  end.

Definition lower_index_expr (base index : Expr) : L ValueId :=
  let element (build : ValueId -> ValueId -> ValueId -> Inst) : L ValueId :=
    let+ base := lower_expr base in
    let+ index := lower_expr index in
    emit_value (fun dest => build dest base index) in
  let+ slots := l_gets (array_slots_of base) in
  match slots with
  | Some slots => lower_slots_index slots index
  | None =>
      let+ base_ty := infer prog cx base in
      match base_ty with
      | LT_Array _ len => lower_array_index base index len
      | LT_List _ => element I_ListGet
      | LT_Text => element I_TextByte
      | LT_Bytes => element I_BytesByte
      | _ =>
          unit_with "mir.array-index-base"
            ("failed to lower index in `" ++ in_function cx
               ++ "` because the base is not Bytes, Text, List, or array") (expr_span base)
            (Some "Index into a stage-0 Bytes, Text, List, or array value.")
      end
  end%string.

(** ** Assignments *)

(** The local an assignment to an element or a field is to, and its type *)
Definition assigned_local (name : string) (span : Span) (help : string) (k : LocalBinding -> LowerType -> L unit)
    : L unit :=
  let+ binding := l_gets (fun st => locals st !! name) in
  match binding with
  | None =>
      diagnose "mir.assign-without-slot"
        ("mutable assignment to `" ++ name ++ "` in `" ++ in_function cx ++ "` is missing a lowered slot") span
        (Some "Only `let mut` bindings may be assigned to in stage-0 MIR.")
  | Some binding =>
      let+ ty := l_gets (fun st => local_types st !! name) in
      match ty with
      | None =>
          diagnose "mir.assign-target"
            ("mutable assignment target `" ++ name ++ "` in `" ++ in_function cx ++ "` has no lowered type") span
            (Some help)
      | Some ty => k binding ty
      end
  end%string.

(** The array with one element replaced, at an index known before the run *)
Definition replace_element (current_array : ValueId) (struct_name : string) (len index : nat) (value : ValueId)
    : L ValueId :=
  let+ fields := l_map (fun offset =>
    if offset =? index then l_ret (array_field_name offset, value)
    else
      let+ current := emit_value (fun dest => I_Field dest current_array (array_field_name offset)) in
      l_ret (array_field_name offset, current)) (seq 0 len) in
  emit_value (fun dest => I_MakeRecord dest struct_name fields).

(** And at one that is a value: each element is replaced if it is the one. *)
Definition replace_element_at (current_array : ValueId) (struct_name : string) (len : nat) (index value : ValueId)
    : L ValueId :=
  let+ fields := l_map (fun offset =>
    let+ current := emit_value (fun dest => I_Field dest current_array (array_field_name offset)) in
    let+ field_index := fresh_value in
    let+ offset_value := expect_i64 offset in
    emit (I_ConstInt field_index offset_value) ;+
    let+ matches := emit_value (fun dest => I_Eq dest index field_index) in
    let+ selected := emit_value (fun dest => I_If dest matches [] (Some value) [] (Some current)) in
    l_ret (array_field_name offset, selected)) (seq 0 len) in
  emit_value (fun dest => I_MakeRecord dest struct_name fields).

Definition assign_slots_element (slots : list LocalSlotId) (index_expr : Expr) (value : ValueId) : L unit :=
  match index ← const_index_expr_value prog index_expr; slots !! index with
  | Some slot => emit (I_StoreLocal slot value)
  | None =>
      let+ index := lower_expr index_expr in
      check_bounds prog cx index_expr index (length slots) ;+
      store_array_slot_choice slots index value
  end.

Definition assign_array_element (slot : LocalSlotId) (array_ty : LowerType) (len : nat) (name : string)
    (base index_expr : Expr) (value : ValueId) : L unit :=
  let+ struct_name := register_type_name array_ty in
  match struct_name with
  | None =>
      diagnose "mir.assign-index-base"
        ("indexed assignment target `" ++ name ++ "` in `" ++ in_function cx
           ++ "` uses a stage-0 unsupported array type") (expr_span base)
        (Some "Keep indexed assignment on stage-0 supported array element types.")
  | Some struct_name =>
      let+ current_array := emit_value (fun dest => I_LoadLocal dest slot) in
      let+ updated :=
        match const_index_expr_value prog index_expr with
        | Some index =>
            if (index <? len)%nat then replace_element current_array struct_name len index value
            else
              let+ index := lower_expr index_expr in
              check_bounds prog cx index_expr index len ;+
              replace_element_at current_array struct_name len index value
        | None =>
            let+ index := lower_expr index_expr in
            check_bounds prog cx index_expr index len ;+
            replace_element_at current_array struct_name len index value
        end in
      emit (I_StoreLocal slot updated)
  end%string.

Definition lower_array_index_assign_statement (base index : Expr) (value : ValueId) (span : Span) : L unit :=
  match base with
  | E_Name name _ =>
      assigned_local name span "Keep indexed assignment on mutable local arrays or lists." (fun binding ty =>
        match binding, ty with
        | LB_ArraySlots slots, LT_Array _ _ => assign_slots_element slots index value
        | LB_Slot slot, LT_Array _ len => assign_array_element slot ty len name base index value
        | LB_Slot slot, LT_List _ =>
            let+ current_list := emit_value (fun dest => I_LoadLocal dest slot) in
            let+ index := lower_expr index in
            let+ updated := emit_value (fun dest => I_ListSet dest current_list index value) in
            emit (I_StoreLocal slot updated)
        | _, _ =>
            diagnose "mir.assign-index-base"
              ("indexed assignment target `" ++ name ++ "` in `" ++ in_function cx ++ "` is not an array or list")
              (expr_span base) (Some "Use `name[index] = value;` only on mutable local arrays or lists.")
        end)
  | _ =>
      diagnose "mir.assign-target"
        ("indexed assignment in `" ++ in_function cx ++ "` must target a mutable local array") span
        (Some "Use `name[index] = value;` on a mutable local array or list.")
  end%string.

(** [name.field = value;] *)
Definition assign_local_field (name field : string) (value : ValueId) (span : Span) : L unit :=
  assigned_local name span "Keep field assignment on mutable local records." (fun binding ty =>
    match ty, binding with
    | LT_Named record_name, LB_Slot slot =>
        let+ current_record := emit_value (fun dest => I_LoadLocal dest slot) in
        let+ updated := lower_updated_record prog cx current_record record_name field value span in
        emit (I_StoreLocal slot updated)
    | LT_Named _, _ =>
        diagnose "mir.assign-target"
          ("field assignment target `" ++ name ++ "` in `" ++ in_function cx ++ "` must be a mutable local record")
          span (Some "Use field assignment on a mutable local record value.")
    | _, _ =>
        diagnose "mir.assign-target"
          ("field assignment target `" ++ name ++ "` in `" ++ in_function cx ++ "` is not a record") span
          (Some "Use field assignment only on mutable local records.")
    end)%string.

(** [name[index].field = value;] *)
Definition assign_element_field (slots : list LocalSlotId) (record_name : string) (index_expr : Expr)
    (field : string) (value : ValueId) (span : Span) : L unit :=
  match index ← const_index_expr_value prog index_expr; slots !! index with
  | Some slot =>
      let+ current_record := emit_value (fun dest => I_LoadLocal dest slot) in
      let+ updated := lower_updated_record prog cx current_record record_name field value span in
      emit (I_StoreLocal slot updated)
  | None =>
      let+ index := lower_expr index_expr in
      check_bounds prog cx index_expr index (length slots) ;+
      let+ current_record := lower_array_slot_choice slots index in
      let+ updated := lower_updated_record prog cx current_record record_name field value span in
      store_array_slot_choice slots index updated
  end.

Definition assign_array_field (name : string) (index_expr : Expr) (field : string) (value : ValueId) (span : Span)
    : L unit :=
  assigned_local name span "Keep field assignment on mutable local arrays." (fun binding ty =>
    match binding, ty with
    | LB_ArraySlots slots, LT_Array (LT_Named record_name) _ =>
        assign_element_field slots record_name index_expr field value span
    | LB_ArraySlots _, LT_Array _ _ =>
        diagnose "mir.assign-target"
          ("field assignment target `" ++ name ++ "` in `" ++ in_function cx ++ "` does not hold record elements")
          span (Some "Nested field assignment requires an array of declared records.")
    | LB_ArraySlots _, _ =>
        diagnose "mir.assign-target"
          ("field assignment target `" ++ name ++ "` in `" ++ in_function cx ++ "` is not an array") span
          (Some "Use field assignment only on mutable local arrays.")
    | _, _ =>
        diagnose "mir.assign-target"
          ("field assignment target `" ++ name ++ "` in `" ++ in_function cx ++ "` must be a mutable local array")
          span (Some "Use field assignment on a mutable local array of records.")
    end)%string.

Definition lower_record_field_assign_statement (base : Expr) (field : string) (value : ValueId) (span : Span)
    : L unit :=
  match base with
  | E_Name name _ => assign_local_field name field value span
  | E_Index (E_Name name _) index _ => assign_array_field name index field value span
  | E_Index _ _ _ =>
      diagnose "mir.assign-target"
        ("field assignment in `" ++ in_function cx ++ "` must target a mutable local array") span
        (Some "Use `array[index].field = value;` on a mutable local array.")
  | _ =>
      diagnose "mir.assign-target"
        ("field assignment target in `" ++ in_function cx ++ "` must be a mutable local record or array element")
        span (Some "Use `name.field = value;` or `array[index].field = value;`.")
  end%string.
End Arrays.
