(* ===== verification/Lower.v ===== *)
(** * Lowering to the MIR: expressions, bodies and functions

    [FunctionLowerer::lower_expr], [lower_body], [monomorphize], and
    [lower_function_monomorphized] of [crates/sarif_codegen/src/lib.rs].  The
    methods call each other through a [LowerKnot]; [lower_knot] ties it, and [n]
    bounds the depth of calls: a generic function that calls itself is lowered
    without end. *)
From Stdlib Require Import Ascii.
From stdpp Require Import gmap pretty.
From S2P Require Import ConstFold LowerBuiltins LowerMatch LowerArrays Ownership Resolve Prelude Syntax Utf8 TextOps Float64 Mir Interp Sorts ConstState Hir SemType.
From S2P Require Import ConstEval LowerState LowerTypes LowerOps.

Open Scope nat_scope.

(** What a method calls: the lowering of expressions and bodies of the same
    function, and of a function of its own, from the arrays and functions there are. *)
Record LowerKnot := mkLowerKnot {
  k_expr : Expr -> L ValueId;
  k_body : Body -> L BodyLowering;
  k_function : Hir.Function -> Substitutions -> string -> gmap string GeneratedArrayType -> list Mir.Function ->
               LowerOutcome Mir.Function
}.

(** ** Substitutions *)

Definition is_bracketed (l : list Ascii.ascii) : option (list Ascii.ascii) :=
  inner ← starts_with_bytes (bytes "[") l; strip_last "]"%char inner.

(** [rfind]: the position of the last one *)
Fixpoint rfind (c : Ascii.ascii) (l : list Ascii.ascii) : option nat :=
  match l with
  | [] => None
  | a :: l' =>
      match rfind c l' with
      | Some i => Some (S i)
      | None => if Ascii.eqb a c then Some 0 else None
      end
  end.

(** The length parameters in the name [expected] that the lengths in [actual_ty] give *)
Fixpoint unify_into (actual_ty : LowerType) (expected : list Ascii.ascii) (subst : Substitutions) : Substitutions :=
  match is_bracketed expected with
  | None => subst
  | Some inner =>
      match rfind ";"%char inner with
      | None => subst
      | Some split =>
          match actual_ty with
          | LT_Array actual_element actual_len =>
              let subst := unify_into actual_element (trim (take split inner)) subst in
              let len_str := trim (drop (split + 1) inner) in
              if forallb (byte_in 48 57) len_str then subst else <[text len_str := actual_len]> subst
          | _ => subst
          end
      end
  end.

(** The name of the instance *)
Definition instance_name (callee : string) (template : Hir.Function) (subst : Substitutions) : string :=
  let names := map generic_name (fn_type_params template) in
  let sorted_subs := sort_by (fun x y => compare_text x.1 y.1)
    (filter (fun '(k, _) => k ∈ names) (map_to_list subst)) in
  match sorted_subs with
  | [] => callee
  | _ => callee ++ "_" ++ join "_" (map (fun '(k, v) => k ++ "_" ++ pretty v) sorted_subs)
  end%string.

Section Lower.
Context `{Platform} (prog : LowerProgram).
(** The fuel of the compile-time evaluator *)
Context (const_fuel : nat).

Section Function.
Context (cx : FnContext) (K : LowerKnot).

(** ** Scopes *)

Definition lower_nested_body (body : Body) : L NestedBodyLowering :=
  let+ r := nested_scope (k_body K body) in
  l_ret (mkNestedBodyLowering r.1 (bl_result r.2) (bl_falls_through r.2)).

Definition lower_nested_expr (e : Expr) : L (list Inst * ValueId) := nested_scope (k_expr K e).

Definition insert_trusted (name : string) (bound : nat) : L unit :=
  l_modify (fun st => set_trusted (<[name := bound]> (trusted_repeat_bounds st)) st).

(** The body of a loop, with the slot of its index *)
Definition lower_repeat_body (binding : option string) (count : Expr) (body : Body)
    : L (option LocalSlotId * list Inst) :=
  let+ r := nested_scope (
    let+ index_slot :=
      match binding with
      | None => l_ret None
      | Some binding =>
          let+ slot := push_mutable_local binding "I32" false in
          insert_local binding (LB_Slot slot) ;+
          insert_local_type binding LT_I32 ;+
          let+ static_count := l_gets (repeat_static_count prog cx count) in
          match static_count with
          | Some count => insert_trusted binding count
          | None => l_ret tt
          end ;+
          l_ret (Some slot)
      end in
    k_body K body ;+
    l_ret index_slot) in
  l_ret (r.2, r.1).

(** The scope as it was in [saved] *)
Definition restore_scope (saved : LowerState) : L unit :=
  l_modify (fun st => set_locals (locals saved) (set_local_types (local_types saved)
                        (set_trusted (trusted_repeat_bounds saved) st))).

(** The copy [k] of the body of an unrolled loop *)
Definition unrolled_copy (saved : LowerState) (binding : option string) (n : nat) (body : Body) (k : nat)
    : L (list Inst) :=
  restore_scope saved ;+
  let+ r := capture (
    match binding with
    | None => l_ret tt
    | Some binding =>
        let+ const_value := emit_value (fun dest => I_ConstInt dest (Z.of_nat k)) in
        insert_local binding (LB_Value const_value) ;+
        insert_local_type binding LT_I32 ;+
        insert_trusted binding n
    end ;+
    k_body K body) in
  l_ret r.1.

(** [n] copies of the body, each with its index as a constant *)
Definition unroll_repeat (binding : option string) (n : nat) (body : Body) : L ValueId :=
  let+ saved := l_gets id in
  let+ unrolled := l_map (unrolled_copy saved binding n body) (seq 0 n) in
  restore_scope saved ;+
  extend (concat unrolled) ;+
  emit_unit_value.

(** ** Calls of generic functions *)

Definition unify_params (template : Hir.Function) (args : list Expr) : L Substitutions :=
  l_gets (fun st =>
    foldl (fun subst '(param, arg) =>
             unify_into (infer_expr_type prog cx (local_types st) arg) (bytes (Hir.path (Hir.param_ty param))) subst)
      (cx_substitutions cx) (combine (Hir.fn_params template) args)).

(** The diagnostics of the instance are dropped. *)
Definition monomorphize (callee : string) (args : list Expr) : L string :=
  match lp_generic_functions prog !! callee with
  | None => l_panic
  | Some template =>
      let+ subst := unify_params template args in
      let new_name := instance_name callee template subst in
      let+ already_lowered := l_gets (fun st =>
        match lp_function_returns prog !! new_name with Some _ => true | None => false end
        || existsb (fun f => String.eqb (Mir.fn_name f) new_name) (monomorphized_functions st)) in
      if already_lowered : bool then l_ret new_name
      else fun st =>
        match k_function K template subst new_name (generated_arrays st) [] with
        | L_Ok f inner =>
            L_Ok new_name
              (set_generated_arrays (generated_arrays inner)
                 (set_monomorphized (monomorphized_functions st ++ f :: monomorphized_functions inner) st))
        | L_Panic => L_Panic
        | L_System => L_System
        | L_OutOfFuel => L_OutOfFuel
        end
  end.

(** ** Expressions *)

Definition lower_name (name : string) (span : Span) : L ValueId :=
  let+ binding := l_gets (fun st => locals st !! name) in
  match binding with
  | Some (LB_Value value) => l_ret value
  | Some (LB_Slot slot) => emit_value (fun dest => I_LoadLocal dest slot)
  | Some (LB_ArraySlots slots) => materialize_array_slots cx name slots span
  | None =>
      match cx_substitutions cx !! name with
      | Some value => emit_value (fun dest => I_ConstInt dest (Z.of_nat value))
      | None =>
          match lp_evaluated_consts prog !! name with
          | Some value => emit_runtime_value cx value
          | None =>
              diagnose "mir.unknown-local"
                ("failed to lower `" ++ name ++ "` because it is not bound in `" ++ in_function cx ++ "`") span
                (Some "Stage-0 MIR lowering only admits previously bound parameter, `let`, and `const` names.") ;+
              fresh_value
          end
      end
  end%string.

Definition lower_contract_result (span : Span) : L ValueId :=
  let+ result := l_gets contract_result in
  match result with
  | Some value => l_ret value
  | None =>
      diagnose "mir.contract-result"
        ("failed to lower `result` because no executable result is available in `" ++ in_function cx ++ "`") span
        (Some "Keep `result` inside executable `ensures` clauses only.") ;+
      fresh_value
  end%string.

(** The body is evaluated with the table of constants in place of constants; an
    error gives [Unit]. *)
Definition lower_comptime (body : Body) : L ValueId := fun st =>
  let evaluator := mkConstProgram ∅ (lp_all_functions prog) (lp_enum_variants prog) (lp_struct_fields prog) in
  match ConstEval.k_body (const_knot evaluator (lp_overflow_checks prog) const_fuel) body
          (mkConstState (lp_evaluated_consts prog) [] [] 0 None (diagnostics st)) ConstEnv_default with
  | C_Ok value _ cst => emit_runtime_value cx value (set_diagnostics (ConstState.diagnostics cst) st)
  | C_Err _ _ cst => emit_runtime_value cx V_Unit (set_diagnostics (ConstState.diagnostics cst) st)
  | C_Panic => L_Panic
  | C_OutOfFuel => L_OutOfFuel
  end.

(** Every parameter of an arm is loaded from the first argument. *)
Definition lower_handle_arm (arm : Hir.HandleArm) : L Mir.HandleArm :=
  let 'Hir.mkHandleArm name params body _ := arm in
  let+ saved_locals := l_gets locals in
  let+ saved_local_types := l_gets local_types in
  let+ r := capture (
    l_each (fun param =>
      let+ value := emit_value (fun dest => I_LoadParam dest 0) in
      insert_local param (LB_Value value)) params ;+
    k_body K body) in
  l_modify (fun st => set_locals saved_locals (set_local_types saved_local_types st)) ;+
  l_ret (Mir.mkHandleArm "" name params r.1 (bl_result r.2)).

Definition lower_handle (body : Body) (arms : list Hir.HandleArm) : L ValueId :=
  let+ arms := l_map lower_handle_arm arms in
  let+ body := lower_nested_body body in
  emit_value (fun dest => I_Handle dest (nb_instructions body) (nb_result body) arms).

Definition lower_perform (effect operation : string) (args : list Expr) : L ValueId :=
  let+ args := l_map (k_expr K) args in
  let+ value := try_lower_system_effect_perform effect operation args in
  match value with
  | Some value => l_ret value
  | None => emit_value (fun dest => I_Perform dest effect operation args)
  end.

(** A constructor with a payload and no argument is [expr.args[0]] out of range. *)
Definition lower_call (callee : string) (args : list Expr) (span : Span) : L ValueId :=
  let+ builtin := try_lower_builtin_call_expr prog cx (k_expr K) callee args span in
  match builtin with
  | Some value => l_ret value
  | None =>
      match enum_constructor_for_call prog callee with
      | Some (enum_name, variant_name, payload_type) =>
          let+ dest := fresh_value in
          let+ payload :=
            match payload_type, args with
            | None, _ => l_ret None
            | Some _, arg :: _ => let+ payload := k_expr K arg in l_ret (Some payload)
            | Some _, [] => l_panic
            end in
          emit (I_MakeEnum dest enum_name variant_name payload) ;+
          l_ret dest
      | None =>
          let+ callee_name :=
            match lp_generic_functions prog !! callee with
            | Some _ => monomorphize callee args
            | None => l_ret callee
            end in
          lower_runtime_call (k_expr K) callee_name args
      end
  end.

(** The length of a base that has one *)
Definition lower_len (base : Expr) (base_ty : LowerType) (span : Span) : option (L ValueId) :=
  let length_of (inst : ValueId -> ValueId -> Inst) : option (L ValueId) :=
    Some (let+ value := k_expr K base in emit_value (fun dest => inst dest value)) in
  match base_ty with
  | LT_Array _ len => Some (
      if (Z.of_nat len <? 2 ^ 63)%Z then emit_value (fun dest => I_ConstInt dest (Z.of_nat len))
      else
        unit_with "mir.array-len-range"
          ("failed to lower synthetic `.len` in `" ++ in_function cx
             ++ "` because the array length exceeds stage-0 integer limits") span
          (Some "Keep stage-0 array lengths within `I32`/`I64`-sized limits."))
  | LT_List _ => length_of I_ListLen
  | LT_Text => length_of I_TextLen
  | LT_Bytes => length_of I_BytesLen
  | _ => None
  end%string.

Definition lower_field (base : Expr) (field : string) (span : Span) : L ValueId :=
  match payload_free_enum_variant_for_field prog base field with
  | Some (enum_name, variant_name) => emit_value (fun dest => I_MakeEnum dest enum_name variant_name None)
  | None =>
      let+ base_ty := infer prog cx base in
      match if String.eqb field "len" then lower_len base base_ty span else None with
      | Some m => m
      | None =>
          let+ base := k_expr K base in
          emit_value (fun dest => I_Field dest base field)
      end
  end.

Definition lower_if (condition : Expr) (then_body else_body : Body) : L (BodyLowering * ValueId) :=
  let+ condition := k_expr K condition in
  let+ then_body := lower_nested_body then_body in
  let+ else_body := lower_nested_body else_body in
  let+ dest := fresh_value in
  emit (I_If dest condition (nb_instructions then_body) (nb_result then_body)
          (nb_instructions else_body) (nb_result else_body)) ;+
  l_ret (mkBodyLowering
           (match nb_result then_body, nb_result else_body with None, None => None | _, _ => Some dest end)
           (nb_falls_through then_body || nb_falls_through else_body), dest).

Definition lower_while (condition : Expr) (body : Body) : L ValueId :=
  let+ condition := lower_nested_expr condition in
  let+ body := lower_nested_body body in
  emit_value (fun dest => I_While dest condition.1 condition.2 (nb_instructions body)).

Definition lower_loop (binding : option string) (count : Expr) (body : Body) : L ValueId :=
  let+ count_value := k_expr K count in
  let+ r := lower_repeat_body binding count body in
  emit_value (fun dest => I_Repeat dest count_value r.1 r.2).

Definition lower_repeat (binding : option string) (count : Expr) (body : Body) : L ValueId :=
  let+ static_count := l_gets (repeat_static_count prog cx count) in
  match static_count with
  | Some n => unroll_repeat binding n body
  | None => lower_loop binding count body
  end.

(** The initialiser of a field, the first of several *)
Definition find_init (name : string) (fields : list FieldInit) : option Expr :=
  init_value <$> List.find (fun field => String.eqb (init_name field) name) fields.

(** In the order of the declaration; the value comes before its fields. *)
Definition lower_record (name : string) (fields : list FieldInit) : L ValueId :=
  let lower_field '(field, value) := let+ v := k_expr K value in l_ret (field, v) in
  let+ dest := fresh_value in
  let+ fields := l_map lower_field
    match lp_struct_fields prog !! name with
    | Some declared_fields =>
        omap (fun declared => value ← find_init declared fields; Some (declared, value)) declared_fields
    | None => map (fun field => (init_name field, init_value field)) fields
    end in
  emit (I_MakeRecord dest name fields) ;+
  l_ret dest.

Definition lower_record_update (base : Expr) (updates : list FieldInit) (span : Span) : L ValueId :=
  let+ base_value := k_expr K base in
  let+ base_ty := infer prog cx base in
  match base_ty with
  | LT_Named struct_name =>
      match lp_struct_layouts prog !! struct_name with
      | None =>
          unit_with "codegen.record-layout" ("struct `" ++ struct_name ++ "` has no known layout") span None
      | Some layout =>
          let+ dest := fresh_value in
          let+ fields := l_map (fun '(field_name, _) =>
            match find_init field_name updates with
            | Some value => let+ v := k_expr K value in l_ret (field_name, v)
            | None =>
                let+ v := emit_value (fun dest => I_Field dest base_value field_name) in l_ret (field_name, v)
            end) layout in
          emit (I_MakeRecord dest struct_name fields) ;+
          l_ret dest
      end
  | _ => unit_with "codegen.record-update-base" "record update base is not a struct type" span None
  end%string.

(** What two literals fold to *)
Definition emit_folded (o : Operated) : L ValueId :=
  match o with
  | O_Value value => emit_runtime_value cx value
  | O_Err _ _ | O_Panic => l_panic
  end.

(** An operand of type [I32] next to one of type [I64] *)
Definition widen (l r : ValueId) (left_ty right_ty : LowerType) : L (ValueId * ValueId) :=
  match left_ty, right_ty with
  | LT_I64, LT_I32 => let+ widened := emit_value (fun dest => I_I64FromI32 dest r) in l_ret (l, widened)
  | LT_I32, LT_I64 => let+ widened := emit_value (fun dest => I_I64FromI32 dest l) in l_ret (widened, r)
  | _, _ => l_ret (l, r)
  end.

Definition lower_binary (op : BinaryOp) (l r : Expr) : L ValueId :=
  match match l, r with
        | E_Integer x _, E_Integer y _ => fold_integers (lp_overflow_checks prog) op x y
        | E_Float x _, E_Float y _ => fold_floats op x y
        | _, _ => None
        end with
  | Some o => emit_folded o
  | None =>
      let+ lv := k_expr K l in
      let+ rv := k_expr K r in
      let+ left_ty := infer prog cx l in
      let+ right_ty := infer prog cx r in
      let+ operands := widen lv rv left_ty right_ty in
      emit_value (fun dest => lower_binary_inst op left_ty right_ty dest operands.1 operands.2)
  end.

Definition lower_expr (e : Expr) : L ValueId :=
  match e with
  | E_Integer value _ => emit_value (fun dest => I_ConstInt dest value)
  | E_Float value _ => emit_value (fun dest => I_ConstF64 dest (f64_to_bits value))
  | E_String _ value _ => emit_value (fun dest => I_ConstText dest value)
  | E_Bool value _ => emit_value (fun dest => I_ConstBool dest value)
  | E_Name name span => lower_name name span
  | E_ContractResult span => lower_contract_result span
  | E_Group inner _ => k_expr K inner
  | E_Unary U_Not inner _ =>
      let+ inner := k_expr K inner in
      let+ false_value := emit_runtime_value cx (V_Bool false) in
      emit_value (fun dest => I_Eq dest inner false_value)
  | E_Comptime body => lower_comptime body
  | E_Handle body arms => lower_handle body arms
  | E_Perform effect operation args _ => lower_perform effect operation args
  | E_Call callee args span => lower_call callee args span
  | E_Array elements repeat_len span => lower_array_expr prog cx (k_expr K) elements repeat_len span
  | E_Field base field span => lower_field base field span
  | E_Index base index _ => lower_index_expr prog cx (k_expr K) base index
  | E_If condition then_body else_body _ => let+ r := lower_if condition then_body else_body in l_ret r.2
  | E_Match scrutinee arms _ =>
      let+ scrutinee := k_expr K scrutinee in
      lower_match_value prog lower_nested_body scrutinee arms
  | E_While condition body _ => lower_while condition body
  | E_Repeat binding count body _ => lower_repeat binding count body
  | E_Record name fields _ => lower_record name fields
  | E_RecordUpdate base updates span => lower_record_update base updates span
  | E_Binary op l r _ => lower_binary op l r
  end.

(** ** Bodies *)

Definition with_result (value : option ValueId) : BodyLowering := mkBodyLowering value true.

(** A loop at the end is not unrolled. *)
Fixpoint lower_tail_expr (e : Expr) : L BodyLowering :=
  match e with
  | E_Group inner _ => lower_tail_expr inner
  | E_Unary _ _ _ | E_Handle _ _ | E_Perform _ _ _ _ =>
      let+ value := lower_expr e in l_ret (with_result (Some value))
  | E_If condition then_body else_body _ =>
      let+ r := lower_if condition then_body else_body in l_ret r.1
  | E_Match scrutinee arms _ =>
      let+ scrutinee := k_expr K scrutinee in
      lower_match_body prog lower_nested_body scrutinee arms
  | E_While condition body _ => lower_while condition body ;+ l_ret (with_result None)
  | E_Repeat binding count body _ => lower_loop binding count body ;+ l_ret (with_result None)
  | _ =>
      let+ value := lower_expr e in
      l_ret (with_result (if expr_returns_unit e then None else Some value))
  end.

Definition lower_let (mutable : bool) (name : string) (value_expr : Expr) (span : Span) : L unit :=
  let+ value := k_expr K value_expr in
  let+ ty := infer prog cx value_expr in
  if String.eqb name "_" then l_ret tt
  else
    let+ bound := bind_local name ty value mutable mutable in
    if bound : bool then l_ret tt
    else
      diagnose "mir.unsupported-mutable-local"
        ("mutable local `" ++ name ++ "` in `" ++ in_function cx ++ "` uses a stage-0 unsupported type") span
        (Some "Keep mutable locals to stage-0 runtime-supported value types.").

Definition assign_name (name : string) (value : ValueId) (value_expr : Expr) (span : Span) : L unit :=
  let retype : L unit := let+ ty := infer prog cx value_expr in insert_local_type name ty in
  let+ binding := l_gets (fun st => locals st !! name) in
  match binding with
  | Some (LB_Slot slot) => emit (I_StoreLocal slot value) ;+ retype
  | Some (LB_ArraySlots slots) => store_array_slots_from_value slots value ;+ retype
  | Some (LB_Value _) | None =>
      diagnose "mir.assign-without-slot"
        ("mutable assignment to `" ++ name ++ "` in `" ++ in_function cx ++ "` is missing a lowered slot") span
        (Some "Only `let mut` bindings may be assigned to in stage-0 MIR.")
  end%string.

Definition lower_assign (target value_expr : Expr) (span : Span) : L unit :=
  let+ value := k_expr K value_expr in
  match target with
  | E_Name name _ => assign_name name value value_expr span
  | E_Field base field _ => lower_record_field_assign_statement prog cx (k_expr K) base field value span
  | E_Index base index _ => lower_array_index_assign_statement prog cx (k_expr K) base index value span
  | _ =>
      diagnose "mir.assign-target"
        ("assignment target in `" ++ in_function cx
           ++ "` must be a mutable local, mutable local field, or mutable local array element") span
        (Some "Use `name = value;`, `name.field = value;`, or `name[index] = value;`.")
  end%string.

Definition lower_stmt (s : Stmt) : L unit :=
  match s with
  | S_Let mutable name value span => lower_let mutable name value span
  | S_Assign target value span => lower_assign target value span
  | S_Expr e _ => k_expr K e ;+ l_ret tt
  | S_WithArena body _ => emit I_AllocPush ;+ k_body K body ;+ emit I_AllocPop
  end.

Definition lower_body (b : Body) : L BodyLowering :=
  l_each lower_stmt (body_statements b) ;+
  match body_tail b with
  | Some tail => lower_tail_expr tail
  | None => l_ret (with_result None)
  end.

(** ** Functions *)

Definition lower_type_ref (ty : TypeRef) : LowerType := from_type_name (cx_substitutions cx) (Hir.path ty).

(** [FunctionLowerer::new]: parameters *)
Definition lower_params : L unit :=
  l_each (fun '(index, param) =>
    let+ dest := emit_value (fun dest => I_LoadParam dest index) in
    bind_local (Hir.param_name param) (lower_type_ref (Hir.param_ty param)) dest false true ;+
    l_ret tt) (imap pair (Hir.fn_params (cx_function cx))).

Definition ensure_signature_types_registered : L unit :=
  l_each (fun param => register_type_name (lower_type_ref (Hir.param_ty param)) ;+ l_ret tt)
    (Hir.fn_params (cx_function cx)) ;+
  match Hir.fn_return_type (cx_function cx) with
  | Some ty => register_type_name (lower_type_ref ty) ;+ l_ret tt
  | None => l_ret tt
  end.

Definition lower_contract (kind : ContractKind) (contract : option Expr) : L unit :=
  match contract with
  | Some e => let+ condition := k_expr K e in emit (I_Assert condition kind)
  | None => l_ret tt
  end.

Definition type_name_or_path (ty : TypeRef) : string := default (Hir.path ty) (lower_type_name (lower_type_ref ty)).

Definition lower_function_monomorphized (name : string) : L Mir.Function :=
  let fn := cx_function cx in
  lower_params ;+
  ensure_signature_types_registered ;+
  lower_contract Requires (fn_requires fn) ;+
  let+ result :=
    match fn_body fn with
    | Some body => let+ r := k_body K body in l_ret (bl_result r)
    | None => l_ret None
    end in
  l_modify (set_contract_result result) ;+
  lower_contract Ensures (fn_ensures fn) ;+
  l_gets (fun st => Mir.mkFunction name
    (map (fun param => Mir.mkParam (Hir.param_name param) (type_name_or_path (Hir.param_ty param))) (Hir.fn_params fn))
    (type_name_or_path <$> Hir.fn_return_type fn)
    (map effect_ref_name (Hir.fn_effects fn))
    (mutable_locals st) (instructions st) result (Hir.fn_span fn) (next_value st) (next_slot st)).
End Function.

(** ** Tying the knot *)

Fixpoint lower_knot (n : nat) (cx : FnContext) : LowerKnot :=
  match n with
  | 0 => mkLowerKnot (fun _ _ => L_OutOfFuel) (fun _ _ => L_OutOfFuel) (fun _ _ _ _ _ => L_OutOfFuel)
  | S n' =>
      let K := lower_knot n' cx in
      mkLowerKnot (lower_expr cx K) (lower_body cx K) (fun function subst name generated functions =>
        let cx := mkFnContext function subst in
        lower_function_monomorphized cx (lower_knot n' cx) name (lower_state generated functions))
  end.

(** [lower_function] *)
Definition lower_function (n : nat) (function : Hir.Function) (generated : gmap string GeneratedArrayType)
    (functions : list Mir.Function) : LowerOutcome Mir.Function :=
  let cx := mkFnContext function ∅ in
  lower_function_monomorphized cx (lower_knot n cx) (Hir.fn_name function) (lower_state generated functions).
End Lower.

(** * Lowering to the MIR: modules

    [lower_with_imports] of [crates/sarif_codegen/src/lib.rs]: the maps a
    [FunctionLowerer] reads, the constants, every function that is not generic,
    the structs of the arrays that were used, and the instances of generic
    functions. *)

Record ImportedInfo := mkImportedInfo {
  imported_function_returns : gmap string string;
  imported_function_params : gmap string (list (string * string));
  imported_struct_fields : gmap string (list string);
  imported_struct_layouts : gmap string (list (string * string));
  imported_enum_variants : gmap string (list EnumVariantType)
}.

(** [ImportedInfo::default()] *)
Definition no_imports : ImportedInfo := mkImportedInfo ∅ ∅ ∅ ∅ ∅.

(** What one resolved module gives; types are kept as they are rendered. *)
Definition info_of (resolved : ResolvedModule) : ImportedInfo :=
  mkImportedInfo
    ((fun sig => type_render (sig_return_type sig)) <$> Resolve.functions resolved)
    ((fun sig => map (fun '(pname, pty, _) => (pname, type_render pty)) (sig_params sig)) <$> Resolve.functions resolved)
    ((fun layout => map fst layout) <$> Resolve.struct_layouts resolved)
    ((fun layout => map (fun '(n, t) => (n, type_render t)) layout) <$> Resolve.struct_layouts resolved)
    ((fun variants => map (fun v => mkEnumVariantType (info_name v) (type_render <$> info_payload v) (info_discriminant v))
       variants) <$> Resolve.enum_variants resolved).

(** An entry of an earlier module stays. *)
Definition info_union (a b : ImportedInfo) : ImportedInfo :=
  mkImportedInfo
    (imported_function_returns a ∪ imported_function_returns b)
    (imported_function_params a ∪ imported_function_params b)
    (imported_struct_fields a ∪ imported_struct_fields b)
    (imported_struct_layouts a ∪ imported_struct_layouts b)
    (imported_enum_variants a ∪ imported_enum_variants b).

(** [ImportedInfo::from_resolved_modules], in the order of the names *)
Definition from_resolved_modules (modules : gmap string ResolvedModule) : ImportedInfo :=
  foldl info_union no_imports (omap (fun name => info_of <$> modules !! name) (sorted_keys modules)).

Definition struct_layouts_of (item : Item) : option (string * list (string * string)) :=
  match item with
  | It_Struct s =>
      Some (Hir.struct_name s,
            map (fun field => (Hir.field_name field, Hir.path (Hir.field_ty field))) (struct_fields_decl s))
  | _ => None
  end.

Definition function_returns_of (item : Item) : option (string * string) :=
  match item with
  | It_Function f =>
      Some (Hir.fn_name f, match Hir.fn_return_type f with Some ty => Hir.path ty | None => "Unit"%string end)
  | _ => None
  end.

Definition all_functions_of (item : Item) : option (string * Hir.Function) :=
  match item with It_Function f => Some (Hir.fn_name f, f) | _ => None end.

Definition is_generic (f : Hir.Function) : bool := match fn_type_params f with [] => false | _ => true end.

Definition generic_functions_of (item : Item) : option (string * Hir.Function) :=
  match item with
  | It_Function f => if is_generic f then Some (Hir.fn_name f, f) else None
  | _ => None
  end.

(** What the module and the imports declare; an import does not replace an item. *)
Definition lower_program (items : HirModule) (info : ImportedInfo) (consts : gmap string RuntimeValue)
    (overflow_checks : bool) : LowerProgram :=
  mkLowerProgram
    (collect_items enum_variants_of items ∪ imported_enum_variants info)
    (collect_items struct_fields_of items ∪ imported_struct_fields info)
    (collect_items struct_layouts_of items ∪ imported_struct_layouts info)
    (collect_items function_returns_of items ∪ imported_function_returns info)
    consts
    (collect_items generic_functions_of items)
    (collect_items all_functions_of items)
    overflow_checks.

Definition lower_enum (item : Item) : option EnumType :=
  (fun '(name, variants) => mkEnumType name variants) <$> enum_variants_of item.

Definition lower_struct (item : Item) : option StructType :=
  match item with
  | It_Struct s =>
      Some (mkStructType (Hir.struct_name s)
              (map (fun field => mkStructField (Hir.field_name field) (Hir.path (Hir.field_ty field)))
                 (struct_fields_decl s))
              (Hir.struct_repr s))
  | _ => None
  end.

Definition lower_externs (item : Item) : list Mir.ExternFunction :=
  match item with
  | It_ExternBlock block =>
      map (fun f => Mir.mkExternFunction (Hir.extern_name f)
                      (map (fun p => Mir.mkParam (Hir.param_name p) (Hir.path (Hir.param_ty p))) (Hir.extern_params f))
                      (Hir.path <$> Hir.extern_return_type f)) (extern_functions block)
  | _ => []
  end.

(** The struct of an array, in the order of the names *)
Definition array_struct (generated : GeneratedArrayType) : StructType :=
  mkStructType (array_name generated)
    (map (fun index => mkStructField (array_field_name index) (array_element_ty generated)) (seq 0 (array_len generated)))
    None.

Definition array_structs (generated : gmap string GeneratedArrayType) : list StructType :=
  omap (fun name => array_struct <$> generated !! name) (sorted_keys generated).

(** The functions of the runtime that builtins call *)
Definition runtime_externs : list Mir.ExternFunction :=
  let add_extern name params ret := Mir.mkExternFunction name (map (Mir.mkParam "") params) ret in
  [add_extern "sarif_bytes_load_i32" ["Bytes"; "I32"] (Some "I32");
   add_extern "sarif_bytes_store_i32" ["Bytes"; "I32"; "I32"] None;
   add_extern "sarif_bytes_load_i64" ["Bytes"; "I32"] (Some "I64");
   add_extern "sarif_bytes_store_i64" ["Bytes"; "I32"; "I64"] None;
   add_extern "sarif_bytes_load_i32_i64" ["Bytes"; "I64"] (Some "I32");
   add_extern "sarif_bytes_load_i64_i64" ["Bytes"; "I64"] (Some "I64");
   add_extern "sarif_bytes_load_f32_i64" ["Bytes"; "I64"] (Some "F64");
   add_extern "sarif_bytes_slice_i64" ["Bytes"; "I64"; "I64"] (Some "Bytes");
   add_extern "sarif_bytes_byte_i64" ["Bytes"; "I64"] (Some "I32");
   add_extern "sarif_bytes_load_f64" ["Bytes"; "I32"] (Some "F64");
   add_extern "sarif_bytes_store_f64" ["Bytes"; "I32"; "F64"] None;
   add_extern "sarif_bytes_load_bool" ["Bytes"; "I32"] (Some "Bool");
   add_extern "sarif_bytes_store_bool" ["Bytes"; "I32"; "Bool"] None]%string.

Record MirLowering := mkMirLowering {
  ml_program : Program;
  ml_const_values : gmap string RuntimeValue;
  ml_diagnostics : list Diagnostic
}.

(** The result, or how lowering ends without one *)
Inductive ModuleOutcome :=
  | M_Lowered (l : MirLowering)
  | M_Panic
  | M_System
  | M_OutOfFuel.

(** What is threaded through the functions: the arrays, the instances, and the
    diagnostics; the functions themselves are collected. *)
Record SharedState := mkSharedState {
  sh_arrays : gmap string GeneratedArrayType;
  sh_instances : list Mir.Function;
  sh_diagnostics : list Diagnostic;
  sh_functions : list Mir.Function
}.

Section Module.
Context `{Platform}.

(** The items from the first on *)
Fixpoint lower_functions (prog : LowerProgram) (n : nat) (items : HirModule) (shared : SharedState)
    (k : SharedState -> ModuleOutcome) : ModuleOutcome :=
  match items with
  | [] => k shared
  | It_Function f :: items' =>
      if is_generic f then lower_functions prog n items' shared k
      else
        match lower_function prog n n f (sh_arrays shared) (sh_instances shared) with
        | L_Ok lowered st =>
            lower_functions prog n items'
              (mkSharedState (generated_arrays st) (monomorphized_functions st)
                 (sh_diagnostics shared ++ LowerState.diagnostics st) (sh_functions shared ++ [lowered])) k
        | L_Panic => M_Panic
        | L_System => M_System
        | L_OutOfFuel => M_OutOfFuel
        end
  | _ :: items' => lower_functions prog n items' shared k
  end.

(** [n] bounds the depth of calls in the compile-time evaluator and in lowering. *)
Definition lower_with_imports (n : nat) (overflow_checks : bool) (items : HirModule) (info : ImportedInfo)
    : ModuleOutcome :=
  let cprog := const_program items (imported_enum_variants info) (imported_struct_fields info) in
  match evaluate_const_values cprog overflow_checks n [] with
  | C_Ok _ _ cst =>
      let consts := ConstState.values cst in
      lower_functions (lower_program items info consts overflow_checks) n items
        (mkSharedState ∅ [] (ConstState.diagnostics cst) []) (fun shared =>
          M_Lowered (mkMirLowering
            (mkProgram (omap lower_enum items)
               (omap lower_struct items ++ array_structs (sh_arrays shared))
               (sh_functions shared ++ sh_instances shared)
               (flat_map lower_externs items ++ runtime_externs))
            consts (sh_diagnostics shared)))
  | C_Panic => M_Panic
  (** the error of a constant is a diagnostic by then *)
  | C_Err _ _ _ | C_OutOfFuel => M_OutOfFuel
  end.

(** [lower] *)
Definition lower (n : nat) (overflow_checks : bool) (items : HirModule) : ModuleOutcome :=
  lower_with_imports n overflow_checks items no_imports.
End Module.
