(* ===== verification/LowerWp.v ===== *)
(** * Lowering to the MIR: numbering

    [runs] is the weakest precondition of a method of the lowerer, with the
    instructions it adds as an output.  [good st st' new]: from [st] to [st'] the
    instructions [new] came about, each destination in them is new and there
    once, and what they mention is in range.  A list that was captured counts as
    [new] too, until it is put into an instruction. *)
From stdpp Require Import gmap pretty.
From S2P Require Import Prelude Syntax Utf8 TextOps Float64 Mir Interp Exec Machine Eval Invariant Safety.
From S2P Require Import LowerState.

Open Scope nat_scope.

(** ** What an instruction mentions *)

Definition opt_lt (o : option nat) (n : nat) : bool := match o with Some x => x <? n | None => true end.

Notation all_lt l n := (forallb (fun x => Nat.ltb x n) l).

(** The destination; of sockets too, which the interpreter refuses *)
Definition dest_of (i : Inst) : option ValueId :=
  match i with
  | I_TcpListen d _ | I_TcpAccept d _ | I_TcpRecv d _ _ | I_TcpSend d _ _ => Some d
  | _ => inst_dest i
  end.

(** The values an instruction reads and the results of its blocks *)
Definition inst_uses (i : Inst) : list ValueId :=
  match i with
  | I_TextBuilderNew _ | I_TextIndexNew _ | I_ArgCount _ | I_AllocPush | I_AllocPop | I_StdinText _
  | I_StdinBytes _ | I_LoadParam _ _ | I_LoadLocal _ _ | I_ConstInt _ _ | I_ConstF64 _ _ | I_ConstBool _ _
  | I_ConstText _ _ => []
  | I_TextBuilderFinish _ a | I_TextIntern _ a | I_StdoutWriteBuilder _ a | I_TextIndexKeys _ a
  | I_ListFrom _ a _ | I_ListLen _ a | I_F64FromI32 _ a | I_I64FromI32 _ a | I_F64FromI64 _ a | I_TextLen _ a
  | I_BytesLen _ a | I_BytesToText _ a | I_TextToBytes _ a | I_BytesMaterialize _ a | I_FileIsValid _ a
  | I_TcpListen _ a | I_TcpAccept _ a | I_TcpClose a | I_ArgText _ a | I_StdoutWrite a | I_ParseI32 _ a
  | I_ParseF64 _ a | I_StoreLocal _ a | I_Field _ a _ | I_EnumTagEq _ a _ | I_EnumPayload _ a _
  | I_EnumToI32 _ a _ | I_EnumToText _ a _ | I_Sqrt _ a | I_Assert a _ => [a]
  | I_TextBuilderAppend _ a b | I_TextBuilderAppendCodepoint _ a b | I_TextBuilderAppendAscii _ a b
  | I_TextBuilderAppendI32 _ a b | I_TextBuilderAppendI64 _ a b | I_TextIndexGet _ a b
  | I_TextIndexContains _ a b | I_ListNew _ a b | I_ListGet _ a b | I_ListSortText _ a b
  | I_ListSortRecordTextField _ a b _ | I_ListSortRecordField _ a b _ | I_TextConcat _ a b | I_TextByte _ a b
  | I_BytesByte _ a b | I_TextCmp _ a b | I_TextLineEnd _ a b | I_TextNextLine _ a b
  | I_TextFromF64Fixed _ a b | I_TcpRecv _ a b | I_TcpSend _ a b
  | I_Add _ a b | I_Sub _ a b | I_Mul _ a b | I_Div _ a b | I_Rem _ a b | I_BitAnd _ a b | I_BitOr _ a b
  | I_BitXor _ a b | I_Shl _ a b | I_Shr _ a b | I_And _ a b | I_Or _ a b | I_Eq _ a b | I_Ne _ a b
  | I_Lt _ a b | I_Le _ a b | I_Gt _ a b | I_Ge _ a b => [a; b]
  | I_TextIndexGetOrInsert _ a b c | I_TextIndexSet _ a b c | I_ListSet _ a b c | I_ListPush _ a b c
  | I_TextSlice _ a b c | I_BytesSlice _ a b c | I_ParseI32Range _ a b c => [a; b; c]
  | I_TextBuilderAppendSlice _ a b c d | I_TextEqRange _ a b c d | I_TextFindByteRange _ a b c d
  | I_BytesFindByteRange _ a b c d | I_BytesFieldEnd _ a b c d | I_BytesNextField _ a b c d
  | I_TextFieldEnd _ a b c d | I_TextNextField _ a b c d => [a; b; c; d]
  | I_MakeEnum _ _ _ payload => option_list payload
  | I_MakeRecord _ _ fields => map snd fields
  | I_If _ condition _ then_result _ else_result =>
      condition :: option_list then_result ++ option_list else_result
  | I_While _ _ condition _ => [condition]
  | I_Repeat _ count _ _ => [count]
  | I_Call _ _ args | I_Perform _ _ _ args => args
  | I_Handle _ _ body_result arms => option_list body_result ++ omap arm_body_result arms
  end.

Definition inst_slots (i : Inst) : list LocalSlotId :=
  match i with
  | I_LoadLocal _ slot | I_StoreLocal slot _ => [slot]
  | I_Repeat _ _ (Some slot) _ => [slot]
  | _ => []
  end.

(** Its blocks, in the order they are lowered in *)
Definition inst_blocks (i : Inst) : list Inst :=
  match i with
  | I_If _ _ then_insts _ else_insts _ => then_insts ++ else_insts
  | I_While _ condition_insts _ body_insts => condition_insts ++ body_insts
  | I_Repeat _ _ _ body_insts => body_insts
  | I_Handle _ body_insts _ arms => flat_map arm_body_insts arms ++ body_insts
  | _ => []
  end.

(** In a frame of [nv] values and [ns] slots *)
Definition mentions_ok (nv ns : nat) (i : Inst) : bool :=
  opt_lt (dest_of i) nv && all_lt (inst_uses i) nv && all_lt (inst_slots i) ns.

Definition fits (nv ns : nat) : Inst -> bool := inst_all (mentions_ok nv ns) (mentions_ok nv ns).

(** Every destination, those in blocks too *)
Fixpoint all_dests (i : Inst) : list ValueId :=
  option_list (dest_of i) ++
  match i with
  | I_If _ _ then_insts _ else_insts _ => flat_map all_dests then_insts ++ flat_map all_dests else_insts
  | I_While _ condition_insts _ body_insts => flat_map all_dests condition_insts ++ flat_map all_dests body_insts
  | I_Repeat _ _ _ body_insts => flat_map all_dests body_insts
  | I_Handle _ body_insts _ arms =>
      flat_map (fun '(mkHandleArm _ _ _ arm_insts _) => flat_map all_dests arm_insts) arms ++
      flat_map all_dests body_insts
  | _ => []
  end.

Definition dests (insts : list Inst) : list ValueId := flat_map all_dests insts.

Lemma dests_app l1 l2 : dests (l1 ++ l2) = dests l1 ++ dests l2.
Proof. apply flat_map_app. Qed.

Lemma all_dests_blocks i : all_dests i = option_list (dest_of i) ++ dests (inst_blocks i).
Proof.
  destruct i; cbn [all_dests inst_blocks]; rewrite ?dests_app, ?app_nil_r; try done.
  f_equal. f_equal. clear. induction arms as [|[] arms IH]; [done|]. cbn. by rewrite dests_app, IH.
Qed.

Lemma fits_blocks nv ns i : fits nv ns i = mentions_ok nv ns i && forallb (fits nv ns) (inst_blocks i).
Proof.
  unfold fits. destruct i; cbn; rewrite ?forallb_app; try done; f_equal.
  rewrite andb_comm. f_equal. clear. induction arms as [|[] arms IH]; [done|].
  cbn. by rewrite forallb_app, IH.
Qed.

(** ** Monotonicity *)

Lemma all_lt_mono l n m : n <= m -> all_lt l n = true -> all_lt l m = true.
Proof.
  intros Hle. rewrite !forallb_forall. intros Hall x Hx. specialize (Hall x Hx).
  apply Nat.ltb_lt in Hall. apply Nat.ltb_lt. lia.
Qed.

Lemma mentions_ok_mono nv ns nv' ns' i :
  nv <= nv' -> ns <= ns' -> mentions_ok nv ns i = true -> mentions_ok nv' ns' i = true.
Proof.
  intros Hv Hs. unfold mentions_ok. rewrite !andb_true_iff. intros [[Hd Hu] Hsl].
  split; [split|]; [|by eapply all_lt_mono..].
  destruct (dest_of i) as [d|]; [|done]. cbn in *. apply Nat.ltb_lt in Hd. apply Nat.ltb_lt. lia.
Qed.

Section Mono.
Context (p p' : Inst -> bool) (Hp : forall i, p i = true -> p' i = true).

Fixpoint inst_all_mono (i : Inst) : inst_all p p i = true -> inst_all p' p' i = true.
Proof.
  assert (Hl : forall l : list Inst, forallb (inst_all p p) l = true -> forallb (inst_all p' p') l = true).
  { fix IH 1. intros [|j l]; [done|]. cbn. rewrite !andb_true_iff. intros [Hj Hl].
    split; [by apply inst_all_mono | by apply IH]. }
  destruct i; cbn; rewrite ?andb_true_iff; try (intros [H1 H2]; split; [by apply Hp|clear H1]; revert H2);
    rewrite ?andb_true_iff; try done.
  - intros [? ?]. split; by apply Hl.
  - intros [? ?]. split; by apply Hl.
  - apply Hl.
  - intros [? Harms]. split; [by apply Hl|]. revert arms Harms.
    fix IH 1. intros [|[? ? ? arm_insts ?] arms]; [done|]. cbn. rewrite !andb_true_iff. intros [Ha Hr].
    split; [|by apply IH]. revert arm_insts Ha.
    fix IH2 1. intros [|j l]; [done|]. cbn. rewrite !andb_true_iff. intros [Hj Hl'].
    split; [by apply inst_all_mono | by apply IH2].
Qed.
End Mono.

Lemma fits_mono nv ns nv' ns' i : nv <= nv' -> ns <= ns' -> fits nv ns i = true -> fits nv' ns' i = true.
Proof. intros Hv Hs. apply inst_all_mono. intros j. by apply mentions_ok_mono. Qed.

Lemma forallb_fits_mono nv ns nv' ns' l :
  nv <= nv' -> ns <= ns' -> forallb (fits nv ns) l = true -> forallb (fits nv' ns') l = true.
Proof.
  intros Hv Hs. rewrite !forallb_forall. intros Hall i Hi. by eapply fits_mono, Hall.
Qed.

(** ** States *)

Definition binding_ok (nv ns : nat) (b : LocalBinding) : bool :=
  match b with
  | LB_Value value => value <? nv
  | LB_Slot slot => slot <? ns
  | LB_ArraySlots slots => all_lt slots ns
  end.

(** Every destination is assigned at one place, everything mentioned is within
    the counts, and the slots are those that are declared. *)
Record well_numbered (f : Mir.Function) : Prop := {
  wn_single : NoDup (dests (Mir.fn_instructions f));
  wn_fits : forallb (fits (fn_value_count f) (fn_slot_count f)) (Mir.fn_instructions f) = true;
  wn_result : opt_lt (fn_result f) (fn_value_count f) = true;
  wn_slots : map local_slot (fn_mutable_locals f) = seq 0 (fn_slot_count f)
}.

Record scope_ok (st : LowerState) : Prop := {
  so_locals : map_Forall (fun _ b => binding_ok (next_value st) (next_slot st) b = true) (locals st);
  so_result : opt_lt (contract_result st) (next_value st) = true;
  so_slots : map local_slot (mutable_locals st) = seq 0 (next_slot st);
  so_instances : Forall well_numbered (monomorphized_functions st)
}.

Record good (st st' : LowerState) (new : list Inst) : Prop := {
  good_values : next_value st <= next_value st';
  good_slots : next_slot st <= next_slot st';
  good_single : NoDup (dests new);
  good_range : Forall (fun d => next_value st <= d < next_value st') (dests new);
  good_fits : forallb (fits (next_value st') (next_slot st')) new = true;
  good_scope : scope_ok st'
}.

Lemma binding_ok_mono nv ns nv' ns' b :
  nv <= nv' -> ns <= ns' -> binding_ok nv ns b = true -> binding_ok nv' ns' b = true.
Proof.
  intros Hv Hs. destruct b; cbn [binding_ok]; [rewrite !Nat.ltb_lt; lia..|]. by apply all_lt_mono.
Qed.

Lemma good_refl st : scope_ok st -> good st st [].
Proof. intros Hs. split; [done|done|constructor|constructor|done|done]. Qed.

Lemma good_app st st1 st2 l1 l2 : good st st1 l1 -> good st1 st2 l2 -> good st st2 (l1 ++ l2).
Proof.
  intros [Hv Hs Hn Hr Hf Hsc] [Hv' Hs' Hn' Hr' Hf' Hsc']. split; [lia|lia| | | |done].
  - rewrite dests_app. apply NoDup_app. split_and!; [done| |done].
    intros x Hx Hx'. rewrite Forall_forall in Hr, Hr'. specialize (Hr x Hx). specialize (Hr' x Hx'). lia.
  - rewrite dests_app. apply Forall_app. split; (eapply Forall_impl; [eassumption|]); intros d ?; cbn in *; lia.
  - rewrite forallb_app, Hf', andb_true_r. by eapply forallb_fits_mono.
Qed.

(** The order does not matter. *)
Lemma good_perm st st' l l' : l ≡ₚ l' -> good st st' l -> good st st' l'.
Proof.
  intros Hp [Hv Hs Hn Hr Hf Hsc].
  assert (Hd : dests l ≡ₚ dests l') by by apply Permutation_flat_map.
  split; try done.
  - by rewrite <- Hd.
  - by rewrite <- Hd.
  - rewrite forallb_forall in Hf |- *. intros i Hi. apply Hf. by apply (Permutation_in _ (symmetry Hp)).
Qed.

(** What was captured is put into an instruction with a new destination. *)
Lemma good_wrap st st1 st2 l i :
  good st st1 (l ++ inst_blocks i) -> dest_of i = Some (next_value st1) ->
  next_value st2 = S (next_value st1) -> next_slot st2 = next_slot st1 -> scope_ok st2 ->
  mentions_ok (next_value st2) (next_slot st2) i = true -> good st st2 (l ++ [i]).
Proof.
  intros [Hv Hs Hn Hr Hf _] Hd Hv2 Hs2 Hsc Hm.
  assert (Hdests : dests (l ++ [i]) ≡ₚ next_value st1 :: dests (l ++ inst_blocks i)).
  { rewrite !dests_app. unfold dests at 2. cbn [flat_map]. rewrite app_nil_r, all_dests_blocks, Hd. cbn.
    symmetry. apply Permutation_middle. }
  split; [lia|lia| | | |done]; rewrite ?Hdests.
  - constructor; [|done]. intros Hin. rewrite Forall_forall in Hr. specialize (Hr _ Hin). lia.
  - constructor; [lia|]. eapply Forall_impl; [exact Hr|]. intros d ?; cbn in *; lia.
  - rewrite forallb_app in Hf |- *. apply andb_true_iff in Hf as [Hfl Hfb]. apply andb_true_iff. split.
    + eapply forallb_fits_mono; [| |exact Hfl]; lia.
    + cbn. rewrite andb_true_r, fits_blocks, Hm. cbn. eapply forallb_fits_mono; [| |exact Hfb]; lia.
Qed.

(** An instruction without blocks whose destination was made before [new]. *)
Lemma good_late st st0 st1 st2 new i :
  next_value st0 = S (next_value st) -> next_slot st0 = next_slot st -> good st0 st1 new ->
  dest_of i = Some (next_value st) -> inst_blocks i = [] ->
  next_value st2 = next_value st1 -> next_slot st2 = next_slot st1 -> scope_ok st2 ->
  mentions_ok (next_value st2) (next_slot st2) i = true -> good st st2 (new ++ [i]).
Proof.
  intros Hv0 Hs0 [Hv Hs Hn Hr Hf _] Hd Hb Hv2 Hs2 Hsc Hm.
  assert (Hdests : dests (new ++ [i]) = dests new ++ [next_value st]).
  { rewrite dests_app. f_equal. unfold dests. cbn [flat_map]. by rewrite app_nil_r, all_dests_blocks, Hd, Hb. }
  split; [lia|lia| | | |done]; rewrite ?Hdests.
  - apply NoDup_app. split_and!; [done| |apply NoDup_singleton].
    intros x Hx Hx'. apply list_elem_of_singleton in Hx' as ->. rewrite Forall_forall in Hr. specialize (Hr _ Hx). lia.
  - apply Forall_app. split; [|constructor; [lia|constructor]]. eapply Forall_impl; [exact Hr|].
    intros d ?; cbn in *; lia.
  - rewrite forallb_app. cbn. rewrite andb_true_r, fits_blocks, Hb, Hm. cbn. rewrite andb_true_r.
    eapply forallb_fits_mono; [| |exact Hf]; lia.
Qed.

(** ** Runs *)

Definition runs {A} (m : L A) (st : LowerState) (Q : A -> LowerState -> list Inst -> Prop) : Prop :=
  match m st with
  | L_Ok a st' => exists new, instructions st' = instructions st ++ new /\ Q a st' new
  | _ => True
  end.

Section Rules.
Context {A B : Type}.
Implicit Types (Q : A -> LowerState -> list Inst -> Prop).

Lemma runs_ret a st Q : Q a st [] -> runs (l_ret a) st Q.
Proof. intros HQ. exists []. by rewrite app_nil_r. Qed.

Lemma runs_bind (m : L B) (k : B -> L A) st Q :
  runs m st (fun b st1 n1 => runs (k b) st1 (fun a st2 n2 => Q a st2 (n1 ++ n2))) -> runs (l_bind m k) st Q.
Proof.
  unfold runs, l_bind. destruct (m st) as [b st1| | |]; [|done..]. intros (n1 & H1 & Hk).
  destruct (k b st1) as [a st2| | |]; [|done..]. destruct Hk as (n2 & H2 & HQ).
  exists (n1 ++ n2). split; [|done]. by rewrite H2, H1, app_assoc.
Qed.

Lemma runs_mono (m : L A) st Q Q' :
  runs m st Q -> (forall a st' new, Q a st' new -> Q' a st' new) -> runs m st Q'.
Proof.
  unfold runs. destruct (m st); [|done..]. intros (new & ? & HQ) Himp. exists new. split; [done|by apply Himp].
Qed.

Lemma runs_gets (f : LowerState -> A) st Q : Q (f st) st [] -> runs (l_gets f) st Q.
Proof. intros HQ. exists []. by rewrite app_nil_r. Qed.

Lemma runs_capture (m : L A) st (Q : list Inst * A -> LowerState -> list Inst -> Prop) :
  runs m (set_instructions [] st)
    (fun a st' new => Q (new, a) (set_instructions (instructions st) st') []) ->
  runs (capture m) st Q.
Proof.
  unfold runs, capture, l_bind, l_gets, l_modify, l_ret.
  destruct (m (set_instructions [] st)) as [a st'| | |]; [|done..].
  intros (new & Hnew & HQ). exists []. rewrite app_nil_r. destruct st, st'; cbn in *. by subst.
Qed.

Lemma runs_panic st Q : runs l_panic st Q.
Proof. done. Qed.
End Rules.

Lemma runs_modify (f : LowerState -> LowerState) st (Q : unit -> _ -> _ -> Prop) :
  instructions (f st) = instructions st -> Q tt (f st) [] -> runs (l_modify f) st Q.
Proof. intros Hi HQ. exists []. by rewrite app_nil_r. Qed.

Lemma runs_emit i st (Q : unit -> _ -> _ -> Prop) :
  Q tt (set_instructions (instructions st ++ [i]) st) [i] -> runs (emit i) st Q.
Proof. intros HQ. exists [i]. split; [by destruct st|done]. Qed.

Lemma runs_extend l st (Q : unit -> _ -> _ -> Prop) :
  Q tt (set_instructions (instructions st ++ l) st) l -> runs (extend l) st Q.
Proof. intros HQ. exists l. split; [by destruct st|done]. Qed.

Lemma runs_fresh_value st (Q : nat -> _ -> _ -> Prop) :
  Q (next_value st) (set_next_value (S (next_value st)) st) [] -> runs fresh_value st Q.
Proof. intros HQ. exists []. rewrite app_nil_r. by destruct st. Qed.

(** ** Methods that keep a state good *)

(** From [st], [m] gives a value with [P], at the counts it ends with. *)
Definition yields {A} (m : L A) (P : A -> nat -> nat -> Prop) (st : LowerState) : Prop :=
  runs m st (fun a st' new => good st st' new /\ P a (next_value st') (next_slot st')).

Definition val : ValueId -> nat -> nat -> Prop := fun v nv _ => v < nv.
Definition any {A} : A -> nat -> nat -> Prop := fun _ _ _ => True.
Definition res : BodyLowering -> nat -> nat -> Prop := fun b nv _ => opt_lt (bl_result b) nv = true.

Lemma scope_set_instructions l st : scope_ok st -> scope_ok (set_instructions l st).
Proof. by intros []. Qed.

Lemma good_instructions l l' st st' new :
  good st st' new -> good (set_instructions l st) (set_instructions l' st') new.
Proof. intros [? ? ? ? ? Hs]. split; try done. by apply scope_set_instructions. Qed.

(** What has nothing to do with the counts and the scope can be changed. *)
Lemma good_same st st' st2 new :
  good st st' new -> next_value st2 = next_value st' -> next_slot st2 = next_slot st' -> scope_ok st2 ->
  good st st2 new.
Proof. intros [] Hv Hs Hsc. split; rewrite ?Hv, ?Hs; done. Qed.

(** Scopes with the counts of a later state *)
Lemma scope_later st st' :
  scope_ok st -> next_value st <= next_value st' -> next_slot st <= next_slot st' ->
  locals st' = locals st -> contract_result st' = contract_result st ->
  map local_slot (mutable_locals st') = seq 0 (next_slot st') ->
  monomorphized_functions st' = monomorphized_functions st -> scope_ok st'.
Proof.
  intros [Hl Hr Hs Hi] Hv Hn El Er Es Ei. split; rewrite ?El, ?Er, ?Ei; try done.
  - intros name b Hb. eapply binding_ok_mono, Hl; [..|exact Hb]; done.
  - destruct (contract_result st) as [r|]; [|done]. cbn in *. apply Nat.ltb_lt in Hr. apply Nat.ltb_lt. lia.
Qed.

Section Yields.
Context {A B : Type}.
Implicit Types (P : A -> nat -> nat -> Prop).

Lemma yields_ret a P st : scope_ok st -> P a (next_value st) (next_slot st) -> yields (l_ret a) P st.
Proof. intros Hs HP. apply runs_ret. split; [by apply good_refl|done]. Qed.

Lemma yields_bind (m : L B) (k : B -> L A) (R : B -> nat -> nat -> Prop) P st :
  yields m R st ->
  (forall b st1 n1, good st st1 n1 -> scope_ok st1 -> R b (next_value st1) (next_slot st1) -> yields (k b) P st1) ->
  yields (l_bind m k) P st.
Proof.
  intros Hm Hk. apply runs_bind. eapply runs_mono; [exact Hm|]. intros b st1 n1 [Hg HR].
  eapply runs_mono; [exact (Hk b st1 n1 Hg (good_scope _ _ _ Hg) HR)|]. intros a st2 n2 [Hg2 HP].
  split; [by eapply good_app|done].
Qed.

Lemma yields_gets (f : LowerState -> B) (k : B -> L A) P st :
  yields (k (f st)) P st -> yields (l_bind (l_gets f) k) P st.
Proof. intros Hk. apply runs_bind, runs_gets. exact Hk. Qed.

Lemma yields_panic P st : yields l_panic P st.
Proof. done. Qed.

Lemma yields_mono (m : L A) P P' st :
  yields m P st -> (forall a nv ns, P a nv ns -> P' a nv ns) -> yields m P' st.
Proof. intros Hm HP. eapply runs_mono; [exact Hm|]. intros a st' new [? ?]. split; [done|by apply HP]. Qed.

(** The state after a change that the numbering does not see *)
Lemma yields_modify (f : LowerState -> LowerState) (k : unit -> L A) P st :
  instructions (f st) = instructions st -> next_value (f st) = next_value st -> next_slot (f st) = next_slot st ->
  scope_ok (f st) -> (scope_ok (f st) -> yields (k tt) P (f st)) -> yields (l_bind (l_modify f) k) P st.
Proof.
  intros Hi Hv Hs Hsc Hk. apply runs_bind, runs_modify; [done|]. eapply runs_mono; [exact (Hk Hsc)|].
  intros a st' new [[? ? ? Hr ? ?] HP]. split; [|done]. rewrite Hv, Hs in *. by split.
Qed.

Lemma yields_modify_last (f : LowerState -> LowerState) st :
  instructions (f st) = instructions st -> next_value (f st) = next_value st -> next_slot (f st) = next_slot st ->
  scope_ok (f st) -> yields (l_modify f) any st.
Proof.
  intros Hi Hv Hs Hsc. apply runs_modify; [done|]. split; [|done].
  split; rewrite ?Hv, ?Hs; try done; constructor.
Qed.

End Yields.

Lemma yields_map {A B} (f : B -> L A) (l : list B) (P : A -> nat -> nat -> Prop) st :
  (forall a nv ns nv' ns', nv <= nv' -> ns <= ns' -> P a nv ns -> P a nv' ns') ->
  (forall b st', b ∈ l -> scope_ok st' -> next_value st <= next_value st' -> next_slot st <= next_slot st' ->
     yields (f b) P st') ->
  scope_ok st -> yields (l_map f l) (fun bs nv ns => Forall (fun b => P b nv ns) bs) st.
Proof.
  intros HP. revert st. induction l as [|b l IH]; intros st Hf Hs; cbn [l_map l_each].
  { by apply yields_ret. }
  eapply yields_bind; [apply Hf; [left|..]; done|]. intros a st1 n1 Hg Hs1 HPa.
  pose proof (good_values _ _ _ Hg). pose proof (good_slots _ _ _ Hg).
  eapply yields_bind; [apply IH; [|done]|].
  { intros b' st' Hb' Hs' ? ?. apply Hf; [by right|done|lia|lia]. }
  intros bs st2 n2 Hg2 Hs2 HPs. pose proof (good_values _ _ _ Hg2). pose proof (good_slots _ _ _ Hg2).
  apply yields_ret; [done|]. constructor; [by eapply HP; [..|exact HPa]|done].
Qed.

Lemma yields_each {B} (f : B -> L unit) (l : list B) st :
  (forall b st', b ∈ l -> scope_ok st' -> next_value st <= next_value st' -> next_slot st <= next_slot st' ->
     yields (f b) any st') ->
  scope_ok st -> yields (l_each f l) any st.
Proof.
  revert st. induction l as [|b l IH]; intros st Hf Hs; cbn [l_map l_each].
  { by apply yields_ret. }
  eapply yields_bind; [apply Hf; [left|..]; done|]. intros a st1 n1 Hg Hs1 _.
  pose proof (good_values _ _ _ Hg). pose proof (good_slots _ _ _ Hg).
  apply IH; [|done]. intros b' st' Hb' Hs' ? ?. apply Hf; [by right|done|lia|lia].
Qed.

(** What is captured is not yet part of the output. *)
Lemma runs_captured {A} (m : L A) (P : A -> nat -> nat -> Prop) st :
  yields m P (set_instructions [] st) ->
  runs (capture m) st (fun r st' new =>
    new = [] /\ good st st' r.1 /\ P r.2 (next_value st') (next_slot st')).
Proof.
  intros Hm. apply runs_capture. eapply runs_mono; [exact Hm|]. intros a st' new [Hg HP].
  split_and!; [done| |done]. apply (good_instructions (instructions st) (instructions st)) in Hg. by destruct st.
Qed.
