(* ===== verification/LowerNumbering.v ===== *)
(** * Lowering to the MIR: the methods keep the numbering

    One lemma a method of the lowerer: from a good state, the values it makes are
    in range and the state it leaves is good ([yields] of [LowerWp.v]). *)
From stdpp Require Import gmap pretty.
From S2P Require Import Prelude Syntax Utf8 TextOps Float64 Mir Interp Exec Machine Eval Invariant Safety.
From S2P Require Import ConstState Hir SemType ConstEval ConstFold.
From S2P Require Import LowerState LowerTypes LowerOps LowerBuiltins LowerMatch LowerArrays Lower LowerWp.

Open Scope nat_scope.

#[local] Arguments Nat.ltb : simpl never.

(** The inequalities that [good] gives, then arithmetic *)
Ltac ranges :=
  repeat match goal with
    | H : good ?s ?s' _ |- _ =>
        lazymatch goal with
        | _ : next_value s <= next_value s' |- _ => fail
        | _ => pose proof (good_values _ _ _ H); pose proof (good_slots _ _ _ H)
        end
    end.
Ltac bounds := unfold val in *; ranges; cbn in *; lia.

(** Conditions on what an instruction mentions *)
Ltac uses :=
  cbn; repeat (apply andb_true_iff; split); try done; try (apply Nat.ltb_lt; bounds);
  try (eapply all_lt_mono; [|eassumption]; bounds).

Lemma scope_values st n : scope_ok st -> next_value st <= n -> scope_ok (set_next_value n st).
Proof. intros Hs Hle. eapply scope_later; try done. by destruct Hs. Qed.

Lemma all_lt_alt l n : all_lt l n = true <-> Forall (fun x => x < n) l.
Proof.
  rewrite forallb_forall, Forall_forall. split; intros Hall x Hx.
  - apply Nat.ltb_lt, Hall. by apply list_elem_of_In.
  - apply Nat.ltb_lt, Hall. by apply list_elem_of_In.
Qed.

(** ** Emitting *)

Lemma yields_wrap (inst : ValueId -> Inst) l st0 st :
  let i := inst (next_value st) in
  scope_ok st -> good st0 st (l ++ inst_blocks i) -> dest_of i = Some (next_value st) ->
  all_lt (inst_uses i) (next_value st) = true -> all_lt (inst_slots i) (next_slot st) = true ->
  runs (emit_value inst) st (fun v st' new => good st0 st' (l ++ new) /\ v < next_value st').
Proof.
  intros i Hs Hg Hd Hu Hsl. unfold emit_value. apply runs_bind, runs_fresh_value, runs_bind, runs_emit.
  apply runs_ret. cbn. split; [|lia]. fold i.
  eapply good_wrap; [exact Hg|exact Hd|done|done|by apply scope_set_instructions, scope_values; [|lia]|].
  cbn. unfold mentions_ok. rewrite Hd, Hsl. cbn. rewrite andb_true_r. apply andb_true_iff.
  split; [apply Nat.ltb_lt; lia|]. eapply all_lt_mono; [|exact Hu]. lia.
Qed.

Lemma yields_emit_value (inst : ValueId -> Inst) st :
  let i := inst (next_value st) in
  scope_ok st -> dest_of i = Some (next_value st) -> inst_blocks i = [] ->
  all_lt (inst_uses i) (next_value st) = true -> all_lt (inst_slots i) (next_slot st) = true ->
  yields (emit_value inst) val st.
Proof. intros i Hs Hd Hb Hu Hsl. apply (yields_wrap _ []); try done. fold i. rewrite Hb. by apply good_refl. Qed.

(** An instruction without a destination *)
Lemma yields_emit i st :
  scope_ok st -> dest_of i = None -> inst_blocks i = [] ->
  all_lt (inst_uses i) (next_value st) = true -> all_lt (inst_slots i) (next_slot st) = true ->
  yields (emit i) any st.
Proof.
  intros Hs Hd Hb Hu Hsl. apply runs_emit. split; [|done].
  assert (Hdests : dests [i] = []).
  { unfold dests. cbn [flat_map]. by rewrite all_dests_blocks, Hd, Hb. }
  split; rewrite ?Hdests; try done; [constructor..| |by apply scope_set_instructions].
  cbn. rewrite fits_blocks, Hb. cbn. unfold mentions_ok. by rewrite Hd, Hu, Hsl.
Qed.

(** A destination that is made first, [m] and then the instruction *)
Lemma yields_late {A B} (m : L A) (P : A -> nat -> nat -> Prop) (inst : ValueId -> A -> Inst)
    (k : ValueId -> A -> L B) (R : B -> nat -> nat -> Prop) st :
  scope_ok st ->
  (forall st', scope_ok st' -> next_value st <= next_value st' -> next_slot st <= next_slot st' -> yields m P st') ->
  (forall a d nv ns, d < nv -> next_value st <= nv -> next_slot st <= ns -> P a nv ns ->
     dest_of (inst d a) = Some d /\ inst_blocks (inst d a) = [] /\
     all_lt (inst_uses (inst d a)) nv = true /\ all_lt (inst_slots (inst d a)) ns = true) ->
  (forall d a st', scope_ok st' -> d < next_value st' -> next_value st <= next_value st' ->
     next_slot st <= next_slot st' -> yields (k d a) R st') ->
  yields (let+ d := fresh_value in let+ a := m in emit (inst d a) ;+ k d a) R st.
Proof.
  intros Hs Hm Hi Hk. apply runs_bind, runs_fresh_value.
  set (st0 := set_next_value (S (next_value st)) st).
  assert (Hs0 : scope_ok st0) by (apply scope_values; [done|lia]).
  apply runs_bind. eapply runs_mono; [apply (Hm st0); [done|cbn; lia|done]|]. intros a st1 new [Hg HP].
  pose proof (good_values _ _ _ Hg) as Hv. pose proof (good_slots _ _ _ Hg) as Hsl. cbn in Hv, Hsl.
  destruct (Hi a (next_value st) (next_value st1) (next_slot st1)) as (Hd & Hb & Hu & Hls); [lia..|done|].
  apply runs_bind, runs_emit. eapply runs_mono; [apply Hk; [by eapply scope_set_instructions, good_scope|cbn; lia..]|].
  intros b st2 new2 [Hg2 HR]. split; [|done]. rewrite app_nil_l, app_assoc. eapply good_app; [|exact Hg2].
  eapply (good_late st st0 st1); try done; [by eapply scope_set_instructions, good_scope|].
  cbn. unfold mentions_ok. rewrite Hd, Hu, Hls. cbn. rewrite !andb_true_r. apply Nat.ltb_lt. lia.
Qed.

Lemma yields_fresh_value st : scope_ok st -> yields fresh_value val st.
Proof.
  intros Hs. apply runs_fresh_value. split; [|cbn; unfold val; lia].
  split; cbn; try done; try constructor; try lia; by apply scope_values; [|lia].
Qed.

Lemma yields_diagnose {A} code message span help (k : unit -> L A) P st :
  (forall st', scope_ok st' -> next_value st' = next_value st -> next_slot st' = next_slot st ->
     locals st' = locals st -> yields (k tt) P st') ->
  scope_ok st -> yields (l_bind (diagnose code message span help) k) P st.
Proof.
  intros Hk Hs. apply yields_modify; try done; [by destruct Hs|]. intros Hs'. by apply Hk.
Qed.

Lemma yields_diagnose_last code message span help st :
  scope_ok st -> yields (diagnose code message span help) any st.
Proof. intros Hs. apply yields_modify_last; try done. by destruct Hs. Qed.

Ltac bind := eapply yields_bind; [|intros ? ? ? ? ? ?].
Ltac value := apply yields_emit_value; [eassumption|reflexivity|reflexivity|uses|uses].

(** ** Plain values *)

Lemma yields_const_true st : scope_ok st -> yields const_true val st.
Proof. intros Hs. value. Qed.

Lemma yields_unit st : scope_ok st -> yields emit_unit_value val st.
Proof. intros Hs. unfold emit_unit_value. bind; [by apply yields_const_true|value]. Qed.

Lemma yields_diagnose_unit code message span help st :
  scope_ok st -> yields (diagnose code message span help ;+ emit_unit_value) val st.
Proof. intros Hs. apply yields_diagnose; [|done]. intros st' Hs' _ _ _. by apply yields_unit. Qed.

Lemma yields_unit_with code message span help st :
  scope_ok st -> yields (unit_with code message span help) val st.
Proof. intros Hs. apply yields_diagnose; [|done]. intros st' Hs' _ _ _. by apply yields_unit. Qed.

Lemma yields_register ty st : scope_ok st -> yields (register_type_name ty) any st.
Proof.
  revert st. induction ty as [| | | | | | | | | | |element IH|element IH len|]; intros st Hs;
    try (by apply yields_ret).
  cbn [register_type_name]. bind; [by apply IH|]. destruct b as [element_ty|]; [|by apply yields_ret].
  apply yields_modify; try (by destruct (_ !! _)).
  - destruct (_ !! _); [done|]. by destruct H0.
  - intros Hs'. by apply yields_ret.
Qed.

Lemma yields_expect_i64 n st : scope_ok st -> yields (expect_i64 n) any st.
Proof. intros Hs. unfold expect_i64. destruct (_ <? _)%Z; [by apply yields_ret|done]. Qed.

(** ** Locals *)

Lemma yields_insert_local name b st :
  scope_ok st -> binding_ok (next_value st) (next_slot st) b = true -> yields (insert_local name b) any st.
Proof.
  intros [Hl Hr Hsl Hi] Hb. apply yields_modify_last; try done. split; cbn; try done.
  by apply map_Forall_insert_2.
Qed.

Lemma yields_insert_local_type name ty st : scope_ok st -> yields (insert_local_type name ty) any st.
Proof. intros Hs. apply yields_modify_last; try done. by destruct Hs. Qed.

Definition slot_in : LocalSlotId -> nat -> nat -> Prop := fun s _ ns => s < ns.
Definition slots_in : list LocalSlotId -> nat -> nat -> Prop := fun ss _ ns => all_lt ss ns = true.

Lemma yields_push_mutable_local name ty mutable st :
  scope_ok st -> yields (push_mutable_local name ty mutable) slot_in st.
Proof.
  intros Hs. unfold push_mutable_local, slot_in, fresh_slot, emit_value. exists []. rewrite app_nil_r.
  split; [done|]. split; [|cbn; lia]. split; [done|cbn; lia|constructor|constructor|done|].
  eapply scope_later; try done; [cbn; lia|].
  cbn [mutable_locals set_mutable_locals set_next_slot next_slot]. by rewrite map_app, (so_slots _ Hs), seq_S.
Qed.

Lemma yields_array_slots name ty mutable st :
  scope_ok st -> yields (create_array_slots_for_type name ty mutable)
                   (fun o nv ns => match o with Some ss => slots_in ss nv ns | None => True end) st.
Proof.
  intros Hs. destruct ty; try by apply yields_ret. cbn. bind; [by apply yields_register|].
  destruct b as [element_ty|]; [|by apply yields_ret]. bind.
  - apply (yields_map _ _ slot_in); [unfold slot_in; lia| |done].
    intros i st' _ Hs' _ _. by apply yields_push_mutable_local.
  - apply yields_ret; [done|]. by apply all_lt_alt.
Qed.

Lemma yields_store_array_slots slots v st :
  scope_ok st -> v < next_value st -> all_lt slots (next_slot st) = true ->
  yields (store_array_slots_from_value slots v) any st.
Proof.
  intros Hs Hv Hsl. apply yields_each; [|done]. intros [i slot] st' Hin Hs' ? ?.
  assert (Hslot : slot < next_slot st).
  { apply all_lt_alt in Hsl. rewrite Forall_forall in Hsl. by eapply Hsl, elem_of_imap_pair. }
  bind; [value|]. apply yields_emit; try done; uses.
Qed.

Lemma yields_bind_local name ty v mutable scalarize st :
  scope_ok st -> v < next_value st -> yields (bind_local name ty v mutable scalarize) any st.
Proof.
  intros Hs Hv. unfold bind_local. bind.
  { destruct scalarize; [by apply yields_array_slots|by apply yields_ret]. }
  destruct b as [slots|].
  - bind; [apply yields_store_array_slots; [done|bounds|done]|]. ranges.
    bind; [apply yields_insert_local; [done|by eapply all_lt_mono; [|exact H1]]|].
    bind; [by apply yields_insert_local_type|by apply yields_ret].
  - destruct mutable.
    + bind; [by apply yields_register|]. destruct b as [slot_ty|]; [|by apply yields_ret].
      bind; [by apply yields_push_mutable_local|]. unfold slot_in in *.
      bind; [apply yields_emit; try done; uses|].
      bind; [apply yields_insert_local; [done|apply Nat.ltb_lt; bounds]|].
      bind; [by apply yields_insert_local_type|by apply yields_ret].
    + bind; [apply yields_insert_local; [done|apply Nat.ltb_lt; bounds]|].
      bind; [by apply yields_insert_local_type|by apply yields_ret].
Qed.

(** ** Elements of arrays *)

Lemma yields_bounds_assert index len st :
  scope_ok st -> index < next_value st -> yields (emit_bounds_assert index len) any st.
Proof.
  intros Hs Hi. unfold emit_bounds_assert. bind; [value|]. bind; [value|].
  apply (yields_late (expect_i64 len) any I_ConstInt); [done| |done|].
  - intros st' Hs' _ _. by apply yields_expect_i64.
  - intros upper a st' Hs' Hu ? ?. bind; [value|]. bind; [value|]. apply yields_emit; try done; uses.
Qed.

Lemma yields_below_split index split st :
  scope_ok st -> index < next_value st -> yields (below_split index split) val st.
Proof.
  intros Hs Hi. apply (yields_late (expect_i64 split) any I_ConstInt); [done| |done|].
  - intros st' Hs' _ _. by apply yields_expect_i64.
  - intros expected a st' Hs' Hu ? ?. value.
Qed.

(** Two captured blocks and the [If] of them *)
Lemma yields_choice {A C} (condition : L ValueId) (m1 m2 : L A) (P : A -> nat -> nat -> Prop)
    (inst : ValueId -> list Inst * A -> list Inst * A -> ValueId -> Inst) (k : ValueId -> L C)
    (R : C -> nat -> nat -> Prop) st :
  scope_ok st -> yields condition val st ->
  (forall st', scope_ok st' -> next_value st <= next_value st' -> next_slot st <= next_slot st' -> yields m1 P st') ->
  (forall st', scope_ok st' -> next_value st <= next_value st' -> next_slot st <= next_slot st' -> yields m2 P st') ->
  (forall a nv ns nv' ns', nv <= nv' -> ns <= ns' -> P a nv ns -> P a nv' ns') ->
  (forall c r1 r2 d nv ns, c < nv -> next_value st <= nv -> next_slot st <= ns -> P r1.2 nv ns -> P r2.2 nv ns ->
     dest_of (inst c r1 r2 d) = Some d /\ inst_blocks (inst c r1 r2 d) = r1.1 ++ r2.1 /\
     all_lt (inst_uses (inst c r1 r2 d)) nv = true /\ all_lt (inst_slots (inst c r1 r2 d)) ns = true) ->
  (forall v st', scope_ok st' -> v < next_value st' -> next_value st <= next_value st' ->
     next_slot st <= next_slot st' -> yields (k v) R st') ->
  yields (let+ c := condition in
          let+ r1 := capture m1 in let+ r2 := capture m2 in
          let+ d := emit_value (inst c r1 r2) in k d) R st.
Proof.
  intros Hs Hc H1 H2 HP Hi Hk. eapply yields_bind; [exact Hc|]. intros c sa na Hga Hsa Hva. unfold val in Hva.
  ranges. apply runs_bind. eapply runs_mono.
  { apply runs_captured, H1; [by apply scope_set_instructions|cbn; lia..]. }
  intros r1 sb nb (-> & Hgb & HP1). pose proof (good_scope _ _ _ Hgb) as Hsb. ranges.
  apply runs_bind. eapply runs_mono.
  { apply runs_captured, H2; [by apply scope_set_instructions|cbn; lia..]. }
  intros r2 sc nc (-> & Hgc & HP2). pose proof (good_scope _ _ _ Hgc) as Hsc. ranges.
  apply runs_bind. eapply runs_mono.
  { destruct (Hi c r1 r2 (next_value sc) (next_value sc) (next_slot sc)) as (Hd & Hb & Hu & Hl);
      [lia|lia|lia|by eapply HP; [..|exact HP1]|done|].
    apply (yields_wrap _ [] sa); [done| |done..]. rewrite Hb. exact (good_app _ _ _ _ _ Hgb Hgc). }
  intros d sd nd [Hgd Hd]. pose proof (good_values _ _ _ Hgd). pose proof (good_slots _ _ _ Hgd).
  eapply runs_mono; [apply Hk; [by eapply good_scope|done|lia|lia]|].
  intros x se ne [Hge HR]. split; [|done]. cbn. by eapply good_app.
Qed.

Lemma yields_choice_range leaf fuel index start end_ st :
  (forall i st', scope_ok st' -> next_value st <= next_value st' -> next_slot st <= next_slot st' ->
     yields (leaf i) val st') ->
  scope_ok st -> index < next_value st -> yields (choice_range leaf fuel index start end_) val st.
Proof.
  revert start end_ st. induction fuel as [|fuel IH]; intros start end_ st Hleaf Hs Hi; [done|].
  cbn [choice_range]. destruct (_ =? _); [by apply Hleaf|].
  assert (IH' : forall s e st', scope_ok st' -> next_value st <= next_value st' -> next_slot st <= next_slot st' ->
                  yields (choice_range leaf fuel index s e) val st').
  { intros s e st' Hs' ? ?. apply IH; [|done|lia]. intros. apply Hleaf; [done|lia|lia]. }
  apply (yields_choice _ _ _ val
    (fun c r1 r2 d => I_If d c r1.1 (Some r1.2) r2.1 (Some r2.2)) (fun d => l_ret d)); try done.
  - by apply yields_below_split.
  - intros. by apply IH'.
  - intros. by apply IH'.
  - unfold val. lia.
  - intros c r1 r2 d nv ns Hc _ _ H1 H2. unfold val in *. split_and!; try done. uses.
  - intros v st' Hs' Hv _ _. by apply yields_ret.
Qed.

Lemma yields_index_choice base index len st :
  scope_ok st -> base < next_value st -> index < next_value st ->
  yields (lower_index_choice base index len) val st.
Proof.
  intros Hs Hb Hi. apply yields_choice_range; [|done|done]. intros i st' Hs' ? ?. value.
Qed.

Lemma yields_load_slot (slots : list LocalSlotId) i st :
  scope_ok st -> all_lt slots (next_slot st) = true -> yields (load_slot slots i) val st.
Proof.
  intros Hs Hsl. unfold load_slot. destruct (slots !! i) as [slot|] eqn:Hslot.
  - apply (yields_emit_value (fun dest => I_LoadLocal dest slot)); try done.
    apply all_lt_alt in Hsl. apply all_lt_alt. constructor; [|constructor].
    rewrite Forall_forall in Hsl. by eapply Hsl, list_elem_of_lookup_2.
  - by apply runs_bind, runs_fresh_value.
Qed.

Lemma yields_slot_choice slots index st :
  scope_ok st -> all_lt slots (next_slot st) = true -> index < next_value st ->
  yields (lower_array_slot_choice slots index) val st.
Proof.
  intros Hs Hsl Hi. apply yields_choice_range; [|done|done]. intros i st' Hs' ? ?.
  apply yields_load_slot; [done|]. by eapply all_lt_mono.
Qed.

Lemma yields_store_choice_range fuel (slots : list LocalSlotId) index start end_ v st :
  scope_ok st -> all_lt slots (next_slot st) = true -> index < next_value st -> v < next_value st ->
  yields (store_array_slot_choice_range fuel slots index start end_ v) any st.
Proof.
  revert start end_ st. induction fuel as [|fuel IH]; intros start end_ st Hs Hsl Hi Hv; [done|].
  cbn [store_array_slot_choice_range]. destruct (_ =? _).
  { destruct (slots !! start) as [slot|] eqn:Hslot; [|done]. apply yields_emit; try done; [uses|].
    apply all_lt_alt in Hsl. apply all_lt_alt. constructor; [|constructor].
    rewrite Forall_forall in Hsl. by eapply Hsl, list_elem_of_lookup_2. }
  assert (Hm : forall s e st', scope_ok st' -> next_value st <= next_value st' -> next_slot st <= next_slot st' ->
    yields (store_array_slot_choice_range fuel slots index s e v ;+ emit_unit_value) val st').
  { intros s e st' Hs' ? ?. bind; [apply IH; [done|by eapply all_lt_mono|lia|lia]|]. by apply yields_unit. }
  apply (yields_choice _ _ _ val (fun c r1 r2 d => I_If d c r1.1 None r2.1 None) (fun _ => l_ret tt)); try done.
  - by apply yields_below_split.
  - intros. by apply Hm.
  - intros. by apply Hm.
  - unfold val. lia.
  - intros c r1 r2 d nv ns Hc _ _ H1 H2. unfold val in *. split_and!; try done. uses.
  - intros x st' Hs' Hx _ _. by apply yields_ret.
Qed.

Lemma yields_store_choice slots index v st :
  scope_ok st -> all_lt slots (next_slot st) = true -> index < next_value st -> v < next_value st ->
  yields (store_array_slot_choice slots index v) any st.
Proof. apply yields_store_choice_range. Qed.

(** ** Records *)

Definition field_val : string * ValueId -> nat -> nat -> Prop := fun f nv _ => f.2 < nv.

Definition fields_val : list (string * ValueId) -> nat -> nat -> Prop :=
  fun fs nv ns => Forall (fun f => field_val f nv ns) fs.

Lemma fields_lt fields nv ns : fields_val fields nv ns -> all_lt (map snd fields) nv = true.
Proof. intros Hf. apply all_lt_alt, Forall_map. exact Hf. Qed.

Lemma yields_fields {A} (f : A -> L (string * ValueId)) (l : list A) st :
  (forall a st', a ∈ l -> scope_ok st' -> next_value st <= next_value st' -> next_slot st <= next_slot st' ->
     yields (f a) field_val st') ->
  scope_ok st -> yields (l_map f l) fields_val st.
Proof. apply (yields_map _ _ field_val). unfold field_val. lia. Qed.

Lemma yields_make_record name fields st :
  scope_ok st -> fields_val fields (next_value st) (next_slot st) ->
  yields (emit_value (fun dest => I_MakeRecord dest name fields)) val st.
Proof. intros Hs Hf. apply yields_emit_value; try done. by apply fields_lt in Hf. Qed.

Lemma yields_record {A} (f : A -> L (string * ValueId)) (l : list A) name st :
  (forall a st', a ∈ l -> scope_ok st' -> next_value st <= next_value st' -> next_slot st <= next_slot st' ->
     yields (f a) field_val st') ->
  scope_ok st ->
  yields (let+ fields := l_map f l in emit_value (fun dest => I_MakeRecord dest name fields)) val st.
Proof.
  intros Hf Hs. eapply yields_bind; [by apply yields_fields|]. intros fields st1 n1 Hg Hs1 HR.
  by apply yields_make_record.
Qed.

Section Methods.
Context (prog : LowerProgram) (cx : FnContext).

Lemma yields_materialize name slots span st :
  scope_ok st -> all_lt slots (next_slot st) = true ->
  yields (materialize_array_slots cx name slots span) val st.
Proof.
  intros Hs Hsl. unfold materialize_array_slots. cbv zeta. apply yields_gets.
  destruct (local_types st !! name) as [ty|]; [|by apply yields_diagnose_unit].
  bind; [by apply yields_register|]. destruct b as [struct_name|]; [|by apply yields_diagnose_unit].
  apply yields_record; [|done].
  intros [i slot] st' Hin Hs' ? ?. assert (slot < next_slot st).
  { apply all_lt_alt in Hsl. rewrite Forall_forall in Hsl. by eapply Hsl, elem_of_imap_pair. }
  bind; [value|]. by apply yields_ret.
Qed.

Lemma yields_updated_record current record_name field v span st :
  scope_ok st -> current < next_value st -> v < next_value st ->
  yields (lower_updated_record prog cx current record_name field v span) val st.
Proof.
  intros Hs Hc Hv. unfold lower_updated_record. destruct (_ !! _) as [fields|]; [|by apply yields_diagnose_unit].
  apply yields_record; [|done]. intros [name ty] st' _ Hs' ? ?.
  destruct (_ =? _)%string; [apply yields_ret; [done|unfold field_val; cbn; lia]|].
  bind; [value|]. by apply yields_ret.
Qed.

Lemma yields_check_bounds e index len st :
  scope_ok st -> index < next_value st -> yields (check_bounds prog cx e index len) any st.
Proof.
  intros Hs Hi. apply yields_gets. destruct (index_expr_is_in_bounds _ _ _ _ _); [by apply yields_ret|].
  by apply yields_bounds_assert.
Qed.

(** ** Constants *)

Lemma yields_runtime_only code what because help st :
  scope_ok st -> yields (runtime_only cx code what because help) val st.
Proof. apply yields_diagnose_unit. Qed.

Fixpoint yields_emit_runtime_value (v : RuntimeValue) st :
  scope_ok st -> yields (emit_runtime_value cx v) val st.
Proof.
  intros Hs. destruct v as [| | | | | | | | | | |name variant payload|name fields|]; cbn [emit_runtime_value];
    lazymatch goal with
    | |- yields (runtime_only _ _ _ _ _) _ _ => exact (yields_runtime_only _ _ _ _ _ Hs)
    | |- yields (emit_value _) _ _ => value
    | |- yields emit_unit_value _ _ => exact (yields_unit _ Hs)
    | |- _ => idtac
    end.
  - eapply yields_bind with (R := fun o nv _ => all_lt (option_list o) nv = true).
    { destruct payload as [p|]; [|by apply yields_ret].
      bind; [by apply yields_emit_runtime_value|]. apply yields_ret; [done|uses]. }
    intros o st1 n1 Hg Hs1 Ho. apply yields_emit_value; try done.
  - assert (Hrec : forall name' st', scope_ok st' -> yields
      (let+ fields := l_map (fun '(field, value) =>
          let+ value := emit_runtime_value cx value in l_ret (field, value)) fields in
       emit_value (fun dest => I_MakeRecord dest name' fields)) val st').
    { intros name' st' Hs'. eapply (yields_bind _ _ fields_val); [|intros ? ? ? ? ? HR; by apply yields_make_record].
      revert st' Hs'. clear Hs. induction fields as [|[field v] fields IH]; intros st' Hs'; cbn [l_map].
      { apply yields_ret; [done|constructor]. }
      eapply (yields_bind _ _ field_val); [|intros f st1 n1 Hg Hs1 Hf].
      { bind; [by apply yields_emit_runtime_value|by apply yields_ret]. }
      eapply (yields_bind _ _ fields_val); [by apply IH|intros fs st2 n2 Hg2 Hs2 Hfs].
      apply yields_ret; [done|]. constructor; [|done]. unfold field_val in *. bounds. }
    destruct (runtime_value_lower_type _) as [| | | | | | | | | | | |element len|]; try by apply Hrec.
    bind; [by apply yields_register|]. destruct b as [struct_name|]; [by apply Hrec|].
    by apply yields_diagnose_unit.
Qed.

(** ** Builtins *)

Section Builtins.
Context (lower_expr : Expr -> L ValueId).
Context (lower_expr_ok : forall e st, scope_ok st -> yields (lower_expr e) val st).

Ltac sub := bind; [by apply lower_expr_ok|].

Lemma yields_infer {A} e (k : LowerType -> L A) P st :
  (forall ty, yields (k ty) P st) -> yields (l_bind (infer prog cx e) k) P st.
Proof. intros Hk. apply yields_gets, Hk. Qed.

Lemma yields_unary args build st :
  (forall d a, dest_of (build d a) = Some d /\ inst_blocks (build d a) = [] /\
     inst_uses (build d a) = [a] /\ inst_slots (build d a) = []) ->
  scope_ok st -> yields (lower_unary_builtin_expr lower_expr args build) val st.
Proof.
  intros Hb Hs. destruct args as [|arg args]; [by apply yields_unit|]. cbn [lower_unary_builtin_expr]. sub.
  destruct (Hb (next_value st1) b) as (? & ? & Hu & Hl).
  apply yields_emit_value; try done; rewrite ?Hu, ?Hl; uses.
Qed.

Lemma yields_binary args build st :
  (forall d a b, dest_of (build d a b) = Some d /\ inst_blocks (build d a b) = [] /\
     inst_uses (build d a b) = [a; b] /\ inst_slots (build d a b) = []) ->
  scope_ok st -> yields (lower_binary_builtin_expr lower_expr args build) val st.
Proof.
  intros Hb Hs. destruct args as [|arg0 [|arg1 args]]; try by apply yields_unit.
  cbn [lower_binary_builtin_expr]. sub. sub. destruct (Hb (next_value st0) b b0) as (? & ? & Hu & Hl).
  apply yields_emit_value; try done; rewrite ?Hu, ?Hl; uses.
Qed.

Lemma yields_ternary args build st :
  (forall d a b c, dest_of (build d a b c) = Some d /\ inst_blocks (build d a b c) = [] /\
     inst_uses (build d a b c) = [a; b; c] /\ inst_slots (build d a b c) = []) ->
  scope_ok st -> yields (lower_ternary_builtin_expr lower_expr args build) val st.
Proof.
  intros Hb Hs. destruct args as [|arg0 [|arg1 [|arg2 args]]]; try by apply yields_unit.
  cbn [lower_ternary_builtin_expr]. sub. sub. sub.
  destruct (Hb (next_value st2) b b0 b1) as (? & ? & Hu & Hl).
  apply yields_emit_value; try done; rewrite ?Hu, ?Hl; uses.
Qed.

Lemma yields_quaternary args build st :
  (forall d a b c e, dest_of (build d a b c e) = Some d /\ inst_blocks (build d a b c e) = [] /\
     inst_uses (build d a b c e) = [a; b; c; e] /\ inst_slots (build d a b c e) = []) ->
  scope_ok st -> yields (lower_quaternary_builtin_expr lower_expr args build) val st.
Proof.
  intros Hb Hs. destruct args as [|arg0 [|arg1 [|arg2 [|arg3 args]]]]; try by apply yields_unit.
  cbn [lower_quaternary_builtin_expr]. sub. sub. sub. sub.
  destruct (Hb (next_value st3) b b0 b1 b2) as (? & ? & Hu & Hl).
  apply yields_emit_value; try done; rewrite ?Hu, ?Hl; uses.
Qed.

Lemma yields_array_len args span st :
  scope_ok st -> yields (lower_array_len_expr prog cx args span) val st.
Proof.
  intros Hs. destruct args as [|arg [|? ?]]; try by apply yields_diagnose_unit.
  cbn [lower_array_len_expr]. apply yields_infer. intros [| | | | | | | | | | | |element len|];
    try by apply yields_diagnose_unit.
  destruct (_ <? _)%Z; [value|by apply yields_diagnose_unit].
Qed.

Lemma yields_sort_by args build st :
  (forall d a b f, dest_of (build d a b f) = Some d /\ inst_blocks (build d a b f) = [] /\
     inst_uses (build d a b f) = [a; b] /\ inst_slots (build d a b f) = []) ->
  scope_ok st -> yields (lower_list_sort_by lower_expr args build) val st.
Proof.
  intros Hb Hs. destruct args as [|arg0 [|arg1 [|arg2 args]]]; try by apply yields_unit.
  cbn [lower_list_sort_by]. sub. sub. destruct (Hb (next_value st0) b b0 (literal_text arg2)) as (? & ? & Hu & Hl).
  apply yields_emit_value; try done; rewrite ?Hu, ?Hl; uses.
Qed.

Lemma yields_list_from args st :
  scope_ok st -> yields (lower_list_from_expr prog cx lower_expr args) val st.
Proof.
  intros Hs. destruct args as [|arg args]; [by apply yields_unit|]. cbn [lower_list_from_expr].
  apply yields_infer. intros []; try by apply yields_unit. sub. value.
Qed.

Lemma yields_enum_to_i32 args st :
  scope_ok st -> yields (lower_enum_to_i32_expr prog cx lower_expr args) val st.
Proof.
  intros Hs. destruct args as [|arg args]; [by apply yields_unit|]. cbn [lower_enum_to_i32_expr].
  sub. apply yields_infer. intros []; try by apply yields_unit. value.
Qed.

Lemma yields_enum_to_text args st :
  scope_ok st -> yields (lower_enum_to_text_expr prog cx lower_expr args) val st.
Proof.
  intros Hs. destruct args as [|arg args]; [by apply yields_unit|]. cbn [lower_enum_to_text_expr].
  sub. apply yields_infer. intros []; try by apply yields_unit.
  destruct (_ !! _); [value|by apply yields_unit].
Qed.

Lemma yields_check_codepoint arg st : scope_ok st -> yields (check_codepoint prog cx arg) any st.
Proof.
  intros Hs. destruct arg; cbn [check_codepoint]; try by apply yields_ret.
  - destruct (is_char _); [by apply yields_ret|]. apply yields_diagnose; [|done].
    intros. by apply yields_ret.
  - destruct args as [|inner_arg args]; [by apply yields_ret|]. destruct (_ =? _)%string; [|by apply yields_ret].
    apply yields_infer. intros []; try by apply yields_ret.
    destruct (bad_discriminant _) as [[i disc]|]; [|by apply yields_ret].
    apply yields_diagnose; [|done]. intros. by apply yields_ret.
Qed.

Lemma yields_codepoint_to_text args st :
  scope_ok st -> yields (lower_codepoint_to_text_expr prog cx lower_expr args) val st.
Proof.
  intros Hs. destruct args as [|arg args]; [by apply yields_unit|]. cbn [lower_codepoint_to_text_expr].
  bind; [by apply yields_check_codepoint|]. destruct b; [|by apply yields_unit].
  sub. bind; [value|]. bind; [value|]. value.
Qed.

Lemma yields_const_assert args span st :
  scope_ok st -> yields (lower_const_assert_expr prog args span) val st.
Proof.
  intros Hs. destruct args as [|arg args]; [by apply yields_diagnose_unit|]. cbn [lower_const_assert_expr].
  bind; [|by apply yields_unit]. cbv zeta. destruct (match arg with E_Bool _ _ => _ | _ => _ end) as [[]|].
  - by apply (yields_ret _ any).
  - by apply yields_diagnose_last.
  - by apply yields_diagnose_last.
Qed.

(** The arguments of a call *)
Definition vals : list ValueId -> nat -> nat -> Prop := fun vs nv _ => all_lt vs nv = true.

Lemma yields_args args st : scope_ok st -> yields (l_map lower_expr args) vals st.
Proof.
  intros Hs. eapply yields_mono; [apply (yields_map _ _ val); [unfold val; lia| |done]|].
  - intros e st' _ Hs' _ _. by apply lower_expr_ok.
  - intros vs nv ns Hvs. by apply all_lt_alt.
Qed.

Lemma yields_runtime_call callee args st :
  scope_ok st -> yields (lower_runtime_call lower_expr callee args) val st.
Proof.
  intros Hs. apply (yields_late (l_map lower_expr args) vals (fun d args => I_Call d callee args) (fun d _ => l_ret d)).
  - done.
  - intros st' Hs' _ _. by apply yields_args.
  - done.
  - intros d a st' Hs' Hd _ _. by apply yields_ret.
Qed.

Lemma yields_then_unit m st :
  scope_ok st -> yields m any st -> yields (then_unit m) val st.
Proof. intros Hs Hm. unfold then_unit. bind; [exact Hm|by apply yields_unit]. Qed.

(** *** The table *)

Definition opt_val : option ValueId -> nat -> nat -> Prop := fun o nv _ => opt_lt o nv = true.

Definition builtin_ok (b : Builtin) : Prop :=
  forall args span st, scope_ok st -> yields (lower_builtin lower_expr b args span) opt_val st.

Lemma yields_some m st :
  yields m val st -> yields (let+ v := m in l_ret (Some v)) opt_val st.
Proof. intros Hm. bind; [exact Hm|]. apply yields_ret; [done|]. by apply Nat.ltb_lt. Qed.

Lemma strict_ok arity lower :
  (forall args st, scope_ok st -> yields (lower args) val st) -> builtin_ok (BI_Strict arity lower).
Proof.
  intros Hl args span st Hs. cbn [lower_builtin]. destruct (_ <=? _); [|by apply yields_ret].
  by apply yields_some, Hl.
Qed.

Lemma nullary_ok inst :
  (forall d, dest_of (inst d) = Some d /\ inst_blocks (inst d) = [] /\ inst_uses (inst d) = [] /\
     inst_slots (inst d) = []) -> builtin_ok (BI_Nullary inst).
Proof.
  intros Hb args span st Hs. apply yields_some. destruct (Hb (next_value st)) as (? & ? & Hu & Hl).
  apply yields_emit_value; try done; by rewrite ?Hu, ?Hl.
Qed.

Lemma yields_first_arg (inst : ValueId -> Inst) args st :
  (forall a, dest_of (inst a) = None /\ inst_blocks (inst a) = [] /\ inst_uses (inst a) = [a] /\
     inst_slots (inst a) = []) ->
  scope_ok st ->
  yields (then_unit (l_each (fun arg => let+ v := lower_expr arg in emit (inst v)) (take 1 args))) val st.
Proof.
  intros Hb Hs. apply yields_then_unit; [done|]. apply yields_each; [|done]. intros e st' _ Hs' _ _. sub.
  destruct (Hb b) as (? & ? & Hu & Hl). apply yields_emit; try done; rewrite ?Hu, ?Hl; uses.
Qed.

Lemma table_ok : Forall (fun row => builtin_ok row.2) (builtin_lowerings prog cx lower_expr).
Proof.
  cbn [builtin_lowerings concat app own_lowerings text_builder_lowerings text_index_lowerings list_lowerings
    conversion_lowerings range_lowerings number_lowerings runtime_lowerings].
  repeat (apply Forall_cons_2; [cbn [snd]|]); [..|apply Forall_nil_2].
  all: lazymatch goal with
    | |- builtin_ok (BI_Nullary _) => apply nullary_ok; done
    | |- builtin_ok (BI_Unary _) => intros args span st Hs; apply yields_some, yields_unary; done
    | |- builtin_ok (BI_Binary _) => intros args span st Hs; apply yields_some, yields_binary; done
    | |- builtin_ok (BI_Ternary _) => intros args span st Hs; apply yields_some, yields_ternary; done
    | |- builtin_ok (BI_Quaternary _) => intros args span st Hs; apply yields_some, yields_quaternary; done
    | |- builtin_ok (BI_Runtime _) => intros args span st Hs; by apply yields_some, yields_runtime_call
    | |- builtin_ok (BI_Own _) => intros args span st Hs; apply yields_some
    | |- builtin_ok (BI_Strict _ _) => apply strict_ok; intros args st Hs
    end.
  all: lazymatch goal with
    | |- yields (lower_array_len_expr _ _ _ _) _ _ => by apply yields_array_len
    | |- yields (lower_list_from_expr _ _ _ _) _ _ => by apply yields_list_from
    | |- yields (lower_list_sort_by _ _ _) _ _ => apply yields_sort_by; done
    | |- yields (lower_enum_to_i32_expr _ _ _ _) _ _ => by apply yields_enum_to_i32
    | |- yields (lower_enum_to_text_expr _ _ _ _) _ _ => by apply yields_enum_to_text
    | |- yields (lower_codepoint_to_text_expr _ _ _ _) _ _ => by apply yields_codepoint_to_text
    | |- yields (lower_const_assert_expr _ _ _) _ _ => by apply yields_const_assert
    | |- yields (lower_unary_builtin_expr _ _ _) _ _ => apply yields_unary; done
    | |- yields (lower_binary_builtin_expr _ _ _) _ _ => apply yields_binary; done
    | |- yields (then_unit _) _ _ => idtac
    end.
  - by apply (yields_first_arg I_TcpClose).
  - by apply (yields_first_arg I_StdoutWrite).
Qed.

Lemma assoc_Forall {A} (P : A -> Prop) name (l : list (string * A)) a :
  Forall (fun row => P row.2) l -> assoc name l = Some a -> P a.
Proof.
  induction 1 as [|[n b] l Hb _ IH]; [done|]. cbn. destruct (_ =? _)%string; [by intros [= <-]|done].
Qed.

Lemma yields_try_builtin callee args span st :
  scope_ok st -> yields (try_lower_builtin_call_expr prog cx lower_expr callee args span) opt_val st.
Proof.
  intros Hs. unfold try_lower_builtin_call_expr. destruct (builtin_is_available _ _); [|by apply yields_ret].
  destruct (assoc _ _) as [b|] eqn:Hb; [|by apply yields_ret].
  exact (assoc_Forall builtin_ok _ _ _ table_ok Hb args span st Hs).
Qed.
End Builtins.

(** ** Effects of the system *)

Definition system_op_ok (op : SystemOp) : Prop :=
  forall args st, scope_ok st -> vals args (next_value st) (next_slot st) ->
    yields (lower_system_op op args) opt_val st.

Lemma value_op_ok arity inst :
  (forall d args nv, arity <= length args -> all_lt args nv = true ->
     dest_of (inst d args) = Some d /\ inst_blocks (inst d args) = [] /\
     all_lt (inst_uses (inst d args)) nv = true /\ inst_slots (inst d args) = []) ->
  system_op_ok (SO_Value arity inst).
Proof.
  intros Hi args st Hs Ha. cbn [lower_system_op]. destruct (Nat.leb_spec arity (length args)) as [Hle|];
    [|by apply yields_ret].
  destruct (Hi (next_value st) args (next_value st) Hle Ha) as (? & ? & ? & Hl).
  apply yields_some, yields_emit_value; try done. by rewrite Hl.
Qed.

Lemma unit_op_ok inst :
  (forall a, dest_of (inst a) = None /\ inst_blocks (inst a) = [] /\ inst_uses (inst a) = [a] /\
     inst_slots (inst a) = []) -> system_op_ok (SO_Unit inst).
Proof.
  intros Hi [|a args] st Hs Ha; [by apply yields_ret|]. cbn [lower_system_op]. apply yields_some.
  destruct (Hi a) as (? & ? & Hu & Hl). unfold vals in Ha. cbn in Ha. apply andb_true_iff in Ha as [Ha _].
  bind; [|by apply yields_unit]. apply yields_emit; try done; rewrite ?Hu, ?Hl; [by cbn; rewrite Ha|done].
Qed.

Lemma system_ok arity : system_op_ok (SO_System arity).
Proof. intros args st Hs Ha. cbn [lower_system_op]. destruct (_ <=? _); [done|by apply yields_ret]. Qed.

Lemma arg_lt args nv : 1 <= length args -> all_lt args nv = true -> all_lt [arg args 0] nv = true.
Proof. destruct args as [|a args]; cbn; [lia|]. intros _ [-> _]%andb_true_iff. done. Qed.

Lemma system_effects_ok : Forall (fun row => Forall (fun row => system_op_ok row.2) row.2) system_effects.
Proof.
  unfold system_effects, system_io. repeat (apply Forall_cons_2; [cbn [snd]|]); [..|apply Forall_nil_2].
  all: repeat (apply Forall_cons_2; [cbn [snd]|]); try apply Forall_nil_2.
  all: lazymatch goal with
    | |- system_op_ok (SO_System _) => apply system_ok
    | |- system_op_ok (SO_Unit _) => apply unit_op_ok; done
    | |- system_op_ok (SO_Value _ _) =>
        apply value_op_ok; intros d args nv Hle Ha; split_and!; try done; by apply arg_lt
    end.
Qed.

Lemma yields_system_effect effect operation args st :
  scope_ok st -> vals args (next_value st) (next_slot st) ->
  yields (try_lower_system_effect_perform effect operation args) opt_val st.
Proof.
  intros Hs Ha. unfold try_lower_system_effect_perform. destruct (_ && _).
  - destruct args as [|builder args]; [by apply yields_ret|].
    unfold vals in Ha. cbn in Ha. apply andb_true_iff in Ha as [Ha _]. apply Nat.ltb_lt in Ha.
    bind; [value|]. by apply yields_some, yields_unit.
  - destruct (assoc effect system_effects) as [ops|] eqn:Hops; cbn; [|by apply yields_ret].
    destruct (assoc operation ops) as [op|] eqn:Hop; [|by apply yields_ret].
    pose proof (assoc_Forall (fun l => Forall (fun row => system_op_ok row.2) l) _ _ _ system_effects_ok Hops) as Hall.
    exact (assoc_Forall system_op_ok _ _ _ Hall Hop args st Hs Ha).
Qed.

(** ** Matches *)

(** A captured body, with its result in range *)
Definition body_post (st : LowerState) : NestedBodyLowering -> LowerState -> list Inst -> Prop :=
  fun b st' new => new = [] /\ good st st' (nb_instructions b) /\ opt_lt (nb_result b) (next_value st') = true.

Section Match.
Context (lower_nested_body : Body -> L NestedBodyLowering).
Context (lower_nested_body_ok : forall b st, scope_ok st -> runs (lower_nested_body b) st (body_post st)).

Lemma yields_variant_tag path span st :
  scope_ok st -> yields (enum_variant_tag_from_pattern prog path span) any st.
Proof.
  intros Hs. unfold enum_variant_tag_from_pattern. destruct (split_enum_variant_path path) as [[enum_name variant]|].
  - destruct (_ ≫= _) as [index|]; [by apply yields_ret|]. apply yields_diagnose; [|done]. intros. by apply yields_ret.
  - apply yields_diagnose; [|done]. intros. by apply yields_ret.
Qed.

Lemma yields_payload_type path span st :
  scope_ok st -> yields (payload_type_for_pattern prog path span) any st.
Proof.
  intros Hs. unfold payload_type_for_pattern. cbv zeta.
  destruct (split_enum_variant_path path) as [[enum_name variant]|].
  - destruct (_ ≫= _) as [ty|]; [by apply yields_ret|]. apply yields_diagnose; [|done]. intros. by apply yields_ret.
  - apply yields_diagnose; [|done]. intros. by apply yields_ret.
Qed.

Lemma yields_combine_or combined conditions st :
  scope_ok st -> combined < next_value st -> all_lt conditions (next_value st) = true ->
  yields (combine_or combined conditions) val st.
Proof.
  revert combined st. induction conditions as [|c conditions IH]; intros combined st Hs Hc Hall; cbn [combine_or].
  { by apply yields_ret. }
  cbn in Hall. apply andb_true_iff in Hall as [Hc'%Nat.ltb_lt Hall].
  bind; [value|]. apply IH; [done|bounds|]. eapply all_lt_mono; [|exact Hall]. bounds.
Qed.

Lemma omap_vals (l : list (option ValueId)) nv : Forall (fun o => opt_lt o nv = true) l -> all_lt (omap id l) nv = true.
Proof.
  induction 1 as [|[c|] l Hc _ IH]; [done| |exact IH]. cbn in *. by rewrite Hc.
Qed.

Fixpoint yields_pattern_condition (scrutinee : ValueId) (pattern : MatchPattern) st :
  scope_ok st -> scrutinee < next_value st ->
  yields (lower_match_pattern_condition prog scrutinee pattern) opt_val st.
Proof.
  intros Hs Hv. destruct pattern as [path binding span| | | | |patterns span|]; cbn [lower_match_pattern_condition].
  - bind; [by apply yields_variant_tag|]. apply yields_some. value.
  - bind; [value|]. apply yields_some. value.
  - bind; [value|]. apply yields_some. value.
  - bind; [value|]. apply yields_some. value.
  - bind; [value|]. bind; [value|]. bind; [value|]. bind; [value|]. apply yields_some. value.
  - eapply (yields_bind _ _ (fun (l : list (option ValueId)) nv _ => Forall (fun o => opt_lt o nv = true) l)).
    + revert st Hs Hv. induction patterns as [|p patterns IH]; intros st Hs Hv; cbn [l_map].
      { apply yields_ret; [done|constructor]. }
      bind; [by apply yields_pattern_condition|]. eapply yields_bind; [apply IH; [done|bounds]|].
      intros l st2 n2 Hg2 Hs2 Hl. apply yields_ret; [done|]. constructor; [|done].
      unfold opt_val in *. destruct b as [c|]; [|done]. cbn in *. apply Nat.ltb_lt. apply Nat.ltb_lt in H1. bounds.
    + intros l st1 n1 Hg Hs1 Hl. apply omap_vals in Hl. destruct (omap id l) as [|c rest] eqn:E; [by apply yields_ret|].
      assert (Hcs : all_lt (c :: rest) (next_value st1) = true) by (rewrite <- E; exact Hl).
      apply andb_true_iff in Hcs as [Hc%Nat.ltb_lt Hrest]. by apply yields_some, yields_combine_or.
  - by apply yields_ret.
Qed.

(** The locals of an earlier state in a later one *)
Lemma scope_restore st st' :
  scope_ok st -> scope_ok st' -> next_value st <= next_value st' -> next_slot st <= next_slot st' ->
  scope_ok (set_locals (locals st) st').
Proof.
  intros [Hl _ _ _] [_ Hr Hs Hi] Hv Hsl. split; cbn; try done.
  intros name b Hb. eapply binding_ok_mono, Hl; [..|exact Hb]; done.
Qed.

Lemma good_frame st st' st2 new :
  good st st' new -> next_value st2 = next_value st' -> next_slot st2 = next_slot st' -> scope_ok st2 ->
  good st st2 new.
Proof. apply good_same. Qed.

Lemma yields_good {A} (m : L A) P st : yields m P st -> runs m st (fun _ st' new => good st st' new).
Proof. intros Hm. eapply runs_mono; [exact Hm|]. by intros ? ? ? [? _]. Qed.

Lemma arm_body_ok scrutinee arm st :
  scope_ok st -> scrutinee < next_value st ->
  runs (lower_match_arm_body prog lower_nested_body scrutinee arm) st (body_post st).
Proof.
  intros Hs Hv. unfold lower_match_arm_body. apply runs_bind, runs_gets, runs_bind, runs_capture.
  set (st0 := set_instructions [] st). assert (Hs0 : scope_ok st0) by by apply scope_set_instructions.
  apply runs_bind. eapply runs_mono.
  { instantiate (1 := fun _ st' new => good st0 st' new).
    destruct (arm_pattern arm) as [path [binding|] span| | | | | |]; try (by apply runs_ret, good_refl).
    eapply yields_good, (yields_late _ any (fun d ty => I_EnumPayload d scrutinee ty) (fun d _ => insert_local binding (LB_Value d)) any).
    - done.
    - intros. by apply yields_payload_type.
    - intros ty d nv ns Hd Hnv _ _. cbn in Hnv. split_and!; try done. uses.
    - intros d ty st' Hs' Hd _ _. apply yields_insert_local; [done|]. by apply Nat.ltb_lt. }
  intros [] st1 n1 Hg1. eapply runs_mono; [apply lower_nested_body_ok, Hg1|].
  intros b st2 n2 (-> & Hg2 & Hb). rewrite app_nil_r.
  apply runs_bind, runs_modify; [done|]. apply runs_ret.
  pose proof (good_app _ _ _ _ _ Hg1 Hg2) as Hg. cbn. split_and!; [done| |exact Hb].
  apply (good_instructions (instructions st) (instructions st2)) in Hg.
  assert (E : set_instructions (instructions st) st0 = st) by by destruct st. rewrite E in Hg.
  eapply good_frame; [exact Hg|done|done|].
  - apply scope_restore; [done| | |].
    + by eapply scope_set_instructions, good_scope.
    + apply Hg.
    + apply Hg.
Qed.

Lemma emit_if_ok condition then_body else_body l st0 st :
  scope_ok st -> condition < next_value st ->
  good st0 st (l ++ nb_instructions then_body ++ nb_instructions else_body) ->
  opt_lt (nb_result then_body) (next_value st) = true -> opt_lt (nb_result else_body) (next_value st) = true ->
  runs (emit_if condition then_body else_body) st (fun b st' new =>
    good st0 st' (l ++ new) /\ res b (next_value st') (next_slot st')).
Proof.
  intros Hs Hc Hg Ht He. unfold emit_if. apply runs_bind. eapply runs_mono.
  { apply (yields_wrap _ l st0); [done|exact Hg|done| |done]. cbn. apply andb_true_iff.
    split; [by apply Nat.ltb_lt|]. rewrite forallb_app. apply andb_true_iff.
    split; [by destruct (nb_result then_body); cbn in *; rewrite ?Ht|by destruct (nb_result else_body); cbn in *; rewrite ?He]. }
  intros d st' new [Hg' Hd]. apply runs_ret. rewrite app_nil_r. split; [done|].
  unfold res. cbn. destruct (nb_result then_body), (nb_result else_body); cbn; try done; by apply Nat.ltb_lt.
Qed.

Lemma emit_body_ok body l st0 st :
  good st0 st (l ++ nb_instructions body) -> opt_lt (nb_result body) (next_value st) = true ->
  runs (emit_body body) st (fun b st' new => good st0 st' (l ++ new) /\ res b (next_value st') (next_slot st')).
Proof.
  intros Hg Hb. apply runs_bind, runs_extend, runs_ret. rewrite app_nil_r. split; [|done].
  eapply good_frame; [exact Hg|done|done|]. by eapply scope_set_instructions, good_scope.
Qed.

Lemma nested_ok (m : L BodyLowering) st :
  scope_ok st -> (forall st', scope_ok st' -> next_value st' = next_value st -> yields m res st') ->
  runs (nested m) st (body_post st).
Proof.
  intros Hs Hm. unfold nested. apply runs_bind. eapply runs_mono.
  { apply runs_captured, Hm; [by apply scope_set_instructions|done]. }
  intros r st' new (-> & Hg & Hr). by apply runs_ret.
Qed.

Lemma arm_at_ok all_arms scrutinee idx st :
  scope_ok st -> scrutinee < next_value st ->
  runs (arm_at prog lower_nested_body all_arms scrutinee idx) st (body_post st).
Proof. intros Hs Hv. unfold arm_at. destruct (_ !! _); [by apply arm_body_ok|done]. Qed.

(** The state after a captured body is ready for more. *)
Lemma after_body {A} (m : L NestedBodyLowering) (k : NestedBodyLowering -> L A) st Q :
  runs m st (body_post st) ->
  (forall b st', good st st' (nb_instructions b) -> scope_ok st' -> next_value st <= next_value st' ->
     next_slot st <= next_slot st' -> opt_lt (nb_result b) (next_value st') = true -> runs (k b) st' Q) ->
  runs (l_bind m k) st Q.
Proof.
  intros Hm Hk. apply runs_bind. eapply runs_mono; [exact Hm|]. intros b st' new (-> & Hg & Hb).
  eapply runs_mono; [apply Hk; [exact Hg|apply Hg..|exact Hb]|]. done.
Qed.

Lemma opt_lt_mono o n m : n <= m -> opt_lt o n = true -> opt_lt o m = true.
Proof. destruct o; cbn; [rewrite !Nat.ltb_lt; lia|done]. Qed.

(** *** Trees and chains *)

Lemma yields_btree fuel scrutinee arms wild_idx all_arms st :
  scope_ok st -> scrutinee < next_value st ->
  yields (build_int_btree prog lower_nested_body fuel scrutinee arms wild_idx all_arms) res st.
Proof.
  revert arms st. induction fuel as [|fuel IH]; intros arms st Hs Hv; [done|].
  destruct arms as [|[value arm_idx] [|arm2 arms]]; cbn [build_int_btree].
  - destruct wild_idx as [idx|]; [|by apply yields_ret].
    apply (after_body _ _ _ _ (arm_at_ok all_arms scrutinee idx st Hs Hv)). intros b st' Hg Hs' _ _ Hb.
    by apply (emit_body_ok _ []).
  - apply (after_body _ _ _ _ (arm_at_ok all_arms scrutinee arm_idx st Hs Hv)). intros tb st1 Hg1 Hs1 ? ? Hb1.
    unfold lower_value_eq.
    apply runs_bind. eapply runs_mono; [value|]. intros rhs st2 n2 [Hg2 Hrhs].
    pose proof (good_scope _ _ _ Hg2) as Hs2. unfold val in Hrhs. ranges.
    apply runs_bind. eapply runs_mono; [value|]. intros c st3 n3 [Hg3 Hc].
    pose proof (good_scope _ _ _ Hg3) as Hs3. unfold val in Hc. ranges.
    eapply (after_body _ _ st3).
    { destruct wild_idx as [idx|]; [apply arm_at_ok; [done|lia]|]. apply runs_ret. split_and!; [done|by apply good_refl|done]. }
    intros eb st4 Hg4 Hs4 ? ? Hb4.
    eapply runs_mono; [apply (emit_if_ok c tb eb (n2 ++ n3) st st4); [done|lia| |by eapply opt_lt_mono; [|exact Hb1]; lia|done]|].
    + eapply good_perm; [|exact (good_app _ _ _ _ _ (good_app _ _ _ _ _ Hg1 (good_app _ _ _ _ _ Hg2 Hg3)) Hg4)].
      by rewrite (Permutation_app_comm (nb_instructions tb)), <- !app_assoc.
    + intros b st5 n5 Hb. by rewrite app_assoc.
  - unfold lower_lt_const. bind; [bind; [value|value]|].
    apply (after_body (nested _) _ st1); [by apply nested_ok; [|intros; apply IH; [|bounds]]|]. intros lb st2 Hg2 Hs2 ? ? Hlb.
    apply (after_body (nested _) _ st2); [by apply nested_ok; [|intros; apply IH; [|bounds]]|]. intros rb st3 Hg3 Hs3 ? ? Hrb.
    apply (emit_if_ok b lb rb []); [done|bounds|exact (good_app _ _ _ _ _ Hg2 Hg3)|by eapply opt_lt_mono; [|exact Hlb]|done].
Qed.

Lemma yields_first_arm_chain scrutinee arms arm rest st :
  scope_ok st -> scrutinee < next_value st ->
  (forall st', scope_ok st' -> next_value st <= next_value st' -> yields rest res st') ->
  yields (lower_first_arm prog lower_nested_body scrutinee arms arm rest) res st.
Proof.
  intros Hs Hv Hrest. unfold lower_first_arm.
  apply (after_body _ _ _ _ (arm_body_ok scrutinee arm st Hs Hv)). intros tb st1 Hg1 Hs1 ? ? Hb1.
  apply runs_bind. eapply runs_mono; [apply yields_pattern_condition; [done|lia]|].
  intros [c|] st2 n2 [Hg2 Hc]; unfold opt_val in Hc; pose proof (good_scope _ _ _ Hg2) as Hs2; ranges.
  - cbn in Hc. apply Nat.ltb_lt in Hc. eapply (after_body _ _ st2).
    { destruct (_ =? _); [apply arm_body_ok; [done|lia]|]. apply nested_ok; [done|]. intros. apply Hrest; [done|lia]. }
    intros eb st3 Hg3 Hs3 ? ? Hb3.
    eapply runs_mono; [apply (emit_if_ok c tb eb n2 st st3); [done|lia| |by eapply opt_lt_mono; [|exact Hb1]; lia|done]|done].
    eapply good_perm; [|exact (good_app _ _ _ _ _ (good_app _ _ _ _ _ Hg1 Hg2) Hg3)].
    by rewrite (Permutation_app_comm (nb_instructions tb)), <- !app_assoc.
  - apply (emit_body_ok _ n2); [|by eapply opt_lt_mono; [|exact Hb1]; lia].
    eapply good_perm; [apply Permutation_app_comm|]. by eapply good_app.
Qed.

Lemma yields_match_body scrutinee arms st :
  scope_ok st -> scrutinee < next_value st ->
  yields (lower_match_body prog lower_nested_body scrutinee arms) res st.
Proof.
  revert st. induction arms as [|arm arms IH]; intros st Hs Hv; cbn [lower_match_body]; [by apply yields_ret|].
  assert (Hchain : yields (lower_first_arm prog lower_nested_body scrutinee (arm :: arms) arm
                     (lower_match_body prog lower_nested_body scrutinee arms)) res st).
  { apply yields_first_arm_chain; [done|done|]. intros. apply IH; [done|lia]. }
  destruct (_ && _); [|exact Hchain]. unfold lower_int_match_balanced.
  destruct (int_arms (arm :: arms)) as [|a ints]; [exact Hchain|by apply yields_btree].
Qed.

Lemma yields_match_value scrutinee arms st :
  scope_ok st -> scrutinee < next_value st ->
  yields (lower_match_value prog lower_nested_body scrutinee arms) val st.
Proof.
  intros Hs Hv. unfold lower_match_value. eapply yields_bind; [by apply yields_match_body|].
  intros b st1 n1 Hg Hs1 Hb. unfold res in Hb. destruct (bl_result b) as [v|].
  { apply yields_ret; [done|]. by apply Nat.ltb_lt. }
  apply (yields_late const_true val (fun d c => I_If d c [] None [] None) (fun d _ => l_ret d)).
  - done.
  - intros. by apply yields_const_true.
  - intros c d nv ns Hd _ _ Hc. split_and!; try done. uses.
  - intros d a st' Hs' Hd _ _. by apply yields_ret.
Qed.
End Match.
End Methods.
