(* ===== verification/LowerNumbered.v ===== *)
(** * Lowering to the MIR: functions are well numbered

    The lemmas of [LowerNumbering.v] for the methods that need all the others:
    arrays, assignments, expressions, bodies and functions, and the knot. *)
From stdpp Require Import gmap pretty.
From S2P Require Import Prelude Syntax Utf8 TextOps Float64 Mir Interp Exec Machine Eval Invariant Safety.
From S2P Require Import ConstState Hir SemType ConstEval ConstFold.
From S2P Require Import LowerState LowerTypes LowerOps LowerBuiltins LowerMatch LowerArrays Lower LowerWp LowerNumbering.

Open Scope nat_scope.

#[local] Arguments Nat.ltb : simpl never.

Section Arrays.
Context (prog : LowerProgram) (cx : FnContext) (lower_expr : Expr -> L ValueId).
Context (lower_expr_ok : forall e st, scope_ok st -> yields (lower_expr e) val st).

Ltac sub := bind; [by apply lower_expr_ok|].

Lemma yields_array_expr elements repeat_len span st :
  scope_ok st -> yields (lower_array_expr prog cx lower_expr elements repeat_len span) val st.
Proof.
  intros Hs. destruct elements as [|first rest]; [by apply yields_diagnose_unit|]. cbn [lower_array_expr].
  apply yields_infer. intros ty. destruct (match repeat_len with None => _ | Some _ => _ end) as [len|];
    [|by apply yields_diagnose_unit].
  bind; [by apply yields_register|]. destruct b as [name|]; [|by apply yields_diagnose_unit].
  apply yields_record; [|done]. intros [i e] st' _ Hs' _ _. sub. by apply yields_ret.
Qed.

Lemma slots_lookup (slots : list LocalSlotId) i slot ns :
  slots !! i = Some slot -> all_lt slots ns = true -> slot < ns.
Proof.
  intros Hi Hsl. apply all_lt_alt in Hsl. rewrite Forall_forall in Hsl. by eapply Hsl, list_elem_of_lookup_2.
Qed.

Lemma yields_index_out_of_bounds {A} index len e (k : unit -> L A) P st :
  scope_ok st -> (forall st', scope_ok st' -> yields (k tt) P st') ->
  yields (l_bind (index_out_of_bounds index len e) k) P st.
Proof. intros Hs Hk. apply yields_diagnose; [|done]. intros. by apply Hk. Qed.

Lemma yields_slots_index (slots : list LocalSlotId) e st :
  scope_ok st -> all_lt slots (next_slot st) = true ->
  yields (lower_slots_index prog cx lower_expr slots e) val st.
Proof.
  intros Hs Hsl. unfold lower_slots_index. destruct (const_index_expr_value prog e) as [index|].
  - destruct (slots !! index) as [slot|] eqn:Hi.
    + pose proof (slots_lookup _ _ _ _ Hi Hsl). value.
    + apply yields_index_out_of_bounds; [done|]. intros. by apply yields_unit.
  - sub. bind; [by apply yields_check_bounds|]. apply yields_slot_choice; [done| |bounds].
    eapply all_lt_mono; [|exact Hsl]. bounds.
Qed.

Lemma yields_array_index base e len st :
  scope_ok st -> yields (lower_array_index prog cx lower_expr base e len) val st.
Proof.
  intros Hs. unfold lower_array_index. sub. destruct (const_index_expr_value prog e) as [index|].
  - destruct (_ <? _); [value|]. apply yields_index_out_of_bounds; [done|]. intros st' Hs'.
    apply (yields_late (expect_i64 index) any (fun d z => I_ConstInt d z)
             (fun d _ => emit_bounds_assert d len ;+ emit_unit_value)).
    + done.
    + intros. by apply yields_expect_i64.
    + done.
    + intros d a st2 Hs2 Hd _ _. bind; [by apply yields_bounds_assert|by apply yields_unit].
  - sub. bind; [by apply yields_check_bounds|]. apply yields_index_choice; [done|bounds|bounds].
Qed.

Lemma local_ok name b st : scope_ok st -> locals st !! name = Some b -> binding_ok (next_value st) (next_slot st) b = true.
Proof. intros Hs Hb. exact (so_locals _ Hs name b Hb). Qed.

Lemma array_slots_ok base slots st :
  scope_ok st -> array_slots_of base st = Some slots -> all_lt slots (next_slot st) = true.
Proof.
  intros Hs. destruct base; try done. cbn. destruct (locals st !! name) as [[| |ss]|] eqn:Hb; try done.
  intros [= <-]. exact (local_ok _ _ _ Hs Hb).
Qed.

Lemma yields_index_expr base e st :
  scope_ok st -> yields (lower_index_expr prog cx lower_expr base e) val st.
Proof.
  intros Hs. unfold lower_index_expr. cbv zeta. apply yields_gets.
  destruct (array_slots_of base st) as [slots|] eqn:Hslots.
  { apply yields_slots_index; [done|by eapply array_slots_ok]. }
  apply yields_infer. intros []; try by apply yields_diagnose_unit.
  - sub. sub. value.
  - sub. sub. value.
  - sub. sub. value.
  - by apply yields_array_index.
Qed.

(** ** Assignments *)

Lemma yields_assigned_local name span help k st :
  scope_ok st ->
  (forall b ty, binding_ok (next_value st) (next_slot st) b = true -> yields (k b ty) any st) ->
  yields (assigned_local cx name span help k) any st.
Proof.
  intros Hs Hk. unfold assigned_local. apply yields_gets. destruct (locals st !! name) as [b|] eqn:Hb.
  - apply yields_gets. destruct (local_types st !! name); [|by apply yields_diagnose_last].
    apply Hk. exact (local_ok _ _ _ Hs Hb).
  - by apply yields_diagnose_last.
Qed.

Lemma yields_replace_element current name len index v st :
  scope_ok st -> current < next_value st -> v < next_value st ->
  yields (replace_element current name len index v) val st.
Proof.
  intros Hs Hc Hv. apply yields_record; [|done]. intros offset st' _ Hs' ? ?. destruct (_ =? _).
  - apply yields_ret; [done|]. unfold field_val. cbn. lia.
  - bind; [value|]. by apply yields_ret.
Qed.

Lemma yields_replace_element_at current name len index v st :
  scope_ok st -> current < next_value st -> index < next_value st -> v < next_value st ->
  yields (replace_element_at current name len index v) val st.
Proof.
  intros Hs Hc Hi Hv. apply yields_record; [|done]. intros offset st' _ Hs' ? ?.
  bind; [value|]. apply (yields_late (expect_i64 offset) any (fun d z => I_ConstInt d z)
    (fun d _ => let+ matches := emit_value (fun dest => I_Eq dest index d) in
      let+ selected := emit_value (fun dest => I_If dest matches [] (Some v) [] (Some b)) in
      l_ret (array_field_name offset, selected))).
  - done.
  - intros. by apply yields_expect_i64.
  - done.
  - intros d a st2 Hs2 Hd ? ?. bind; [value|]. bind; [value|]. by apply yields_ret.
Qed.

Lemma yields_store_local (slot : LocalSlotId) v st :
  scope_ok st -> slot < next_slot st -> v < next_value st -> yields (emit (I_StoreLocal slot v)) any st.
Proof. intros Hs Hslot Hv. apply yields_emit; try done; uses. Qed.

Lemma yields_assign_slots_element (slots : list LocalSlotId) e v st :
  scope_ok st -> all_lt slots (next_slot st) = true -> v < next_value st ->
  yields (assign_slots_element prog cx lower_expr slots e v) any st.
Proof.
  intros Hs Hsl Hv. unfold assign_slots_element.
  destruct (index ← const_index_expr_value prog e; slots !! index) as [slot|] eqn:Hi.
  - apply bind_Some in Hi as (i & _ & Hi). apply yields_store_local; [done|by eapply slots_lookup|done].
  - sub. bind; [by apply yields_check_bounds|]. apply yields_store_choice; [done| |bounds|bounds].
    eapply all_lt_mono; [|exact Hsl]. bounds.
Qed.

Lemma yields_assign_array_element slot ty len name base e v st :
  scope_ok st -> slot < next_slot st -> v < next_value st ->
  yields (assign_array_element prog cx lower_expr slot ty len name base e v) any st.
Proof.
  intros Hs Hslot Hv. unfold assign_array_element. bind; [by apply yields_register|].
  destruct b as [struct_name|]; [|by apply yields_diagnose_last]. bind; [value|].
  assert (Hdyn : yields (let+ index := lower_expr e in check_bounds prog cx e index len ;+
    replace_element_at b struct_name len index v) val st0).
  { sub. bind; [by apply yields_check_bounds|]. apply yields_replace_element_at; [done|bounds..]. }
  eapply (yields_bind _ _ val).
  - destruct (const_index_expr_value prog e) as [index|]; [|exact Hdyn]. destruct (_ <? _); [|exact Hdyn].
    apply yields_replace_element; [done|bounds..].
  - intros updated st2 n2 Hg2 Hs2 Hu. apply yields_store_local; [done|bounds|done].
Qed.

Lemma yields_array_index_assign base e v span st :
  scope_ok st -> v < next_value st ->
  yields (lower_array_index_assign_statement prog cx lower_expr base e v span) any st.
Proof.
  intros Hs Hv. destruct base; cbn [lower_array_index_assign_statement]; try by apply yields_diagnose_last.
  apply yields_assigned_local; [done|]. intros [v'|slot|slots] ty Hb; cbn in Hb;
    destruct ty; try by apply yields_diagnose_last.
  - apply Nat.ltb_lt in Hb. bind; [value|]. sub. bind; [value|]. apply yields_store_local; [done|bounds|done].
  - apply yields_assign_array_element; [done|by apply Nat.ltb_lt|done].
  - by apply yields_assign_slots_element.
Qed.

Lemma yields_assign_local_field name field v span st :
  scope_ok st -> v < next_value st -> yields (assign_local_field prog cx name field v span) any st.
Proof.
  intros Hs Hv. apply yields_assigned_local; [done|]. intros [v'|slot|slots] ty Hb; cbn in Hb;
    destruct ty; try by apply yields_diagnose_last.
  apply Nat.ltb_lt in Hb. bind; [value|]. bind; [apply yields_updated_record; [done|bounds|bounds]|].
  apply yields_store_local; [done|bounds|done].
Qed.

Lemma yields_assign_element_field (slots : list LocalSlotId) record_name e field v span st :
  scope_ok st -> all_lt slots (next_slot st) = true -> v < next_value st ->
  yields (assign_element_field prog cx lower_expr slots record_name e field v span) any st.
Proof.
  intros Hs Hsl Hv. unfold assign_element_field.
  destruct (index ← const_index_expr_value prog e; slots !! index) as [slot|] eqn:Hi.
  - apply bind_Some in Hi as (i & _ & Hi). pose proof (slots_lookup _ _ _ _ Hi Hsl).
    bind; [value|]. bind; [apply yields_updated_record; [done|bounds|bounds]|].
    apply yields_store_local; [done|bounds|done].
  - sub. bind; [by apply yields_check_bounds|].
    bind; [apply yields_slot_choice; [done|eapply all_lt_mono; [|exact Hsl]; bounds|bounds]|].
    bind; [apply yields_updated_record; [done|bounds|bounds]|].
    apply yields_store_choice; [done|eapply all_lt_mono; [|exact Hsl]; bounds|bounds|bounds].
Qed.

Lemma yields_assign_array_field name e field v span st :
  scope_ok st -> v < next_value st -> yields (assign_array_field prog cx lower_expr name e field v span) any st.
Proof.
  intros Hs Hv. apply yields_assigned_local; [done|]. intros [v'|slot|slots] ty Hb; cbn in Hb;
    try by apply yields_diagnose_last.
  destruct ty as [| | | | | | | | | | | |[]|]; try by apply yields_diagnose_last. by apply yields_assign_element_field.
Qed.

Lemma yields_record_field_assign base field v span st :
  scope_ok st -> v < next_value st ->
  yields (lower_record_field_assign_statement prog cx lower_expr base field v span) any st.
Proof.
  intros Hs Hv. destruct base as [| | | |name ?| | | | |base index ?| | | | | | | | | | | |];
    cbn [lower_record_field_assign_statement]; try by apply yields_diagnose_last.
  - by apply yields_assign_local_field.
  - destruct base; try by apply yields_diagnose_last. by apply yields_assign_array_field.
Qed.
End Arrays.

(** ** Scopes *)

(** What is captured, with a value in range *)
Definition captured {A} (P : A -> nat -> nat -> Prop) (st : LowerState)
    : list Inst * A -> LowerState -> list Inst -> Prop :=
  fun r st' new => new = [] /\ good st st' r.1 /\ P r.2 (next_value st') (next_slot st').

Lemma scope_union st st' :
  scope_ok st -> scope_ok st' -> next_value st <= next_value st' -> next_slot st <= next_slot st' ->
  map_Forall (fun _ b => binding_ok (next_value st') (next_slot st') b = true) (locals st ∪ locals st').
Proof.
  intros Hs Hs' Hv Hsl name b Hb. apply lookup_union_Some_raw in Hb as [Hb|[_ Hb]].
  - eapply binding_ok_mono, (so_locals _ Hs); [..|exact Hb]; done.
  - exact (so_locals _ Hs' _ _ Hb).
Qed.

Lemma runs_nested_scope {A} (m : L A) P st :
  scope_ok st -> (forall st', scope_ok st' -> next_value st' = next_value st -> yields m P st') ->
  runs (nested_scope m) st (captured P st).
Proof.
  intros Hs Hm. unfold nested_scope. apply runs_bind, runs_gets, runs_bind, runs_gets, runs_bind, runs_gets.
  apply runs_bind. eapply runs_mono; [apply runs_captured, Hm; [by apply scope_set_instructions|done]|].
  intros r st1 new (-> & Hg & HP). pose proof (good_scope _ _ _ Hg) as Hs1.
  pose proof (scope_union _ _ Hs Hs1 (good_values _ _ _ Hg) (good_slots _ _ _ Hg)) as Hl.
  apply runs_bind, runs_modify; [done|]. apply runs_bind, runs_modify; [done|]. apply runs_ret.
  split_and!; [done| |done]. eapply good_frame; [exact Hg|done|done|]. destruct Hs1. by split.
Qed.

Lemma runs_after {A B} (m : L (list Inst * A)) (k : list Inst * A -> L B) P st Q :
  runs m st (captured P st) ->
  (forall r st', good st st' r.1 -> scope_ok st' -> next_value st <= next_value st' ->
     next_slot st <= next_slot st' -> P r.2 (next_value st') (next_slot st') -> runs (k r) st' Q) ->
  runs (l_bind m k) st Q.
Proof.
  intros Hm Hk. apply runs_bind. eapply runs_mono; [exact Hm|]. intros r st' new (-> & Hg & HP).
  eapply runs_mono; [apply Hk; [exact Hg|apply Hg..|exact HP]|]. done.
Qed.

Section Methods.
Context `{Platform} (prog : LowerProgram) (const_fuel : nat) (cx : FnContext) (K : LowerKnot).
Context (k_expr_ok : forall e st, scope_ok st -> yields (k_expr K e) val st).
Context (k_body_ok : forall b st, scope_ok st -> yields (k_body K b) res st).
Context (k_function_ok : forall f subst name generated functions, Forall well_numbered functions ->
  match k_function K f subst name generated functions with
  | L_Ok g st => well_numbered g /\ Forall well_numbered (monomorphized_functions st)
  | _ => True
  end).

Ltac sub := bind; [by apply k_expr_ok|].

Lemma nested_body_ok b st : scope_ok st -> runs (lower_nested_body K b) st (body_post st).
Proof.
  intros Hs. unfold lower_nested_body.
  apply (runs_after _ _ res); [by apply runs_nested_scope; [|intros; apply k_body_ok]|].
  intros r st1 Hg Hs1 ? ? Hr. by apply runs_ret.
Qed.

Lemma yields_insert_trusted name bound st : scope_ok st -> yields (insert_trusted name bound) any st.
Proof. intros Hs. apply yields_modify_last; try done. by destruct Hs. Qed.

Definition opt_slot : option LocalSlotId -> nat -> nat -> Prop := fun o _ ns => opt_lt o ns = true.

Lemma repeat_body_ok binding count body st :
  scope_ok st ->
  runs (lower_repeat_body prog cx K binding count body) st (fun r st' new =>
    new = [] /\ good st st' r.2 /\ opt_lt r.1 (next_slot st') = true).
Proof.
  intros Hs. unfold lower_repeat_body. apply (runs_after _ _ opt_slot).
  - apply runs_nested_scope; [done|]. intros st' Hs' _. eapply (yields_bind _ _ opt_slot).
    + destruct binding as [name|]; [|by apply yields_ret].
      bind; [by apply yields_push_mutable_local|]. unfold slot_in in *.
      bind; [apply yields_insert_local; [done|by apply Nat.ltb_lt]|].
      bind; [by apply yields_insert_local_type|]. apply yields_gets.
      bind; [destruct (repeat_static_count _ _ _ _); [by apply yields_insert_trusted|by apply (yields_ret _ any)]|].
      apply yields_ret; [done|]. apply Nat.ltb_lt. bounds.
    + intros slot st1 n1 Hg1 Hs1 Hslot. bind; [by apply k_body_ok|]. apply yields_ret; [done|].
      unfold opt_slot in *. eapply opt_lt_mono; [|exact Hslot]. bounds.
  - intros r st1 Hg Hs1 ? ? Hr. by apply runs_ret.
Qed.

(** *** Unrolling *)

Lemma restore_ok st0 st :
  scope_ok st0 -> scope_ok st -> next_value st0 <= next_value st -> next_slot st0 <= next_slot st ->
  scope_ok (set_locals (locals st0) (set_local_types (local_types st0) (set_trusted (trusted_repeat_bounds st0) st))).
Proof.
  intros Hs0 Hs Hv Hsl. pose proof (scope_restore _ _ Hs0 Hs Hv Hsl) as []. by split.
Qed.

(** A state with the same counts is as good a start. *)
Lemma good_start st st1 st' new :
  next_value st1 = next_value st -> next_slot st1 = next_slot st -> good st1 st' new -> good st st' new.
Proof. intros Hv Hs [? ? ? Hr ? ?]. rewrite Hv, Hs in *. by split. Qed.

Lemma unrolled_copy_ok st0 binding n body k st :
  scope_ok st0 -> scope_ok st -> next_value st0 <= next_value st -> next_slot st0 <= next_slot st ->
  runs (unrolled_copy K st0 binding n body k) st (fun insts st' new => new = [] /\ good st st' insts).
Proof.
  intros Hs0 Hs Hv Hsl. apply runs_bind, runs_modify; [done|]. set (st2 := set_locals _ _).
  assert (Hs2 : scope_ok st2) by by apply restore_ok.
  apply runs_bind. eapply runs_mono.
  { apply runs_captured. eapply (yields_bind _ _ any); [|intros; apply k_body_ok; done].
    assert (Hs3 : scope_ok (set_instructions [] st2)) by by apply scope_set_instructions.
    destruct binding as [name|]; [|by apply (yields_ret _ any)].
    bind; [value|]. bind; [apply yields_insert_local; [done|by apply Nat.ltb_lt]|].
    bind; [by apply yields_insert_local_type|by apply yields_insert_trusted]. }
  intros r st3 new (-> & Hg & _). apply runs_ret. split; [done|]. by eapply good_start, Hg.
Qed.

Lemma yields_unroll binding n body st : scope_ok st -> yields (unroll_repeat K binding n body) val st.
Proof.
  intros Hs. unfold unroll_repeat. apply yields_gets, runs_bind. cbn [id]. eapply runs_mono.
  { instantiate (1 := fun chunks st' new => new = [] /\ good st st' (concat chunks)).
    generalize (seq 0 n) as ks. intros ks.
    assert (Hks : forall st1, scope_ok st1 -> next_value st <= next_value st1 -> next_slot st <= next_slot st1 ->
      runs (l_map (unrolled_copy K st binding n body) ks) st1
        (fun chunks st' new => new = [] /\ good st1 st' (concat chunks))); [|by apply Hks].
    induction ks as [|k ks IH]; intros st1 Hs1 Hv Hsl; cbn [l_map].
    { apply runs_ret. split; [done|by apply good_refl]. }
    apply runs_bind. eapply runs_mono; [by apply unrolled_copy_ok|]. intros insts st2 new (-> & Hg).
    pose proof (good_scope _ _ _ Hg) as Hs2. ranges.
    apply runs_bind. eapply runs_mono; [apply IH; [done|lia|lia]|]. intros chunks st3 new (-> & Hg2).
    apply runs_ret. split; [done|]. by eapply good_app. }
  intros chunks st1 new (-> & Hg). ranges.
  assert (Hs1 := restore_ok st st1 Hs (good_scope _ _ _ Hg) ltac:(lia) ltac:(lia)).
  apply runs_bind, runs_modify; [done|]. apply runs_bind, runs_extend.
  eapply runs_mono; [apply yields_unit, scope_set_instructions; exact Hs1|].
  intros v st2 n2 [Hg2 Hv]. split; [|exact Hv]. cbn. eapply good_app; [|exact Hg2].
  eapply good_frame; [exact Hg|done|done|]. by apply scope_set_instructions.
Qed.

(** *** Calls and handlers *)

Lemma yields_monomorphize callee args st :
  scope_ok st -> yields (monomorphize prog cx K callee args) any st.
Proof.
  intros Hs. unfold monomorphize. destruct (_ !! _) as [template|]; [|done]. apply yields_gets. cbv zeta.
  apply yields_gets. set (already := orb _ _). destruct already; [by apply yields_ret|].
  set (subst := foldl _ _ _). set (name := instance_name _ _ _).
  pose proof (k_function_ok template subst name (generated_arrays st) [] (Forall_nil_2 _)) as Hf.
  unfold yields, runs. destruct (k_function K template subst name (generated_arrays st) []) as [g inner| | |];
    [|done..]. destruct Hf as [Hg Hinner]. exists []. rewrite app_nil_r. split; [done|]. split; [|done].
  destruct Hs as [Hl Hr Hsl Hi]. split; cbn; try done; [constructor..|]. split; cbn; try done.
  apply Forall_app. split; [done|]. by constructor.
Qed.

Lemma yields_call callee args span st :
  scope_ok st -> yields (lower_call prog cx K callee args span) val st.
Proof.
  intros Hs. unfold lower_call. bind; [by apply yields_try_builtin|]. destruct b as [v|].
  { apply yields_ret; [done|]. by apply Nat.ltb_lt. }
  destruct (enum_constructor_for_call prog callee) as [[[enum_name variant_name] payload_type]|].
  - apply (yields_late _ opt_val (fun d payload => I_MakeEnum d enum_name variant_name payload) (fun d _ => l_ret d)).
    + done.
    + intros st' Hs' _ _. destruct payload_type; [|by apply yields_ret]. destruct args as [|arg args]; [done|].
      apply yields_some. by apply k_expr_ok.
    + intros o d nv ns Hd _ _ Ho. split_and!; try done. unfold opt_val in Ho. destruct o; cbn in *; by rewrite ?Ho.
    + intros d a st' Hs' Hd _ _. by apply yields_ret.
  - eapply (yields_bind _ _ any).
    + destruct (_ !! _); [by apply yields_monomorphize|by apply yields_ret].
    + intros name st2 n2 Hg2 Hs2 _. by apply yields_runtime_call.
Qed.

Lemma yields_perform effect operation args st :
  scope_ok st -> yields (lower_perform K effect operation args) val st.
Proof.
  intros Hs. unfold lower_perform. eapply (yields_bind _ _ vals); [by apply yields_args|].
  intros vs st1 n1 Hg1 Hs1 Hvs. bind; [by apply yields_system_effect|]. destruct b as [v|].
  { apply yields_ret; [done|]. by apply Nat.ltb_lt. }
  apply yields_emit_value; try done. eapply all_lt_mono; [|exact Hvs]. bounds.
Qed.

Lemma handle_arm_ok arm st :
  scope_ok st ->
  runs (lower_handle_arm K arm) st (fun a st' new =>
    new = [] /\ good st st' (arm_body_insts a) /\ opt_lt (arm_body_result a) (next_value st') = true).
Proof.
  intros Hs. destruct arm as [name params body span]. apply runs_bind, runs_gets, runs_bind, runs_gets.
  apply runs_bind. eapply runs_mono.
  { apply runs_captured. eapply (yields_bind _ _ any); [|intros; by apply k_body_ok].
    apply yields_each; [|by apply scope_set_instructions]. intros param st' _ Hs' _ _.
    bind; [value|]. apply yields_insert_local; [done|by apply Nat.ltb_lt]. }
  intros r st1 new (-> & Hg & Hr). pose proof (good_scope _ _ _ Hg) as Hs1. ranges.
  apply runs_bind, runs_modify; [done|]. apply runs_ret. split_and!; [done| |exact Hr].
  eapply good_frame; [exact Hg|done|done|].
  pose proof (scope_restore _ _ Hs Hs1 ltac:(lia) ltac:(lia)) as []. by split.
Qed.

Lemma handle_arms_ok arms st :
  scope_ok st ->
  runs (l_map (lower_handle_arm K) arms) st (fun l st' new =>
    new = [] /\ good st st' (flat_map arm_body_insts l) /\ all_lt (omap arm_body_result l) (next_value st') = true).
Proof.
  revert st. induction arms as [|arm arms IH]; intros st Hs; cbn [l_map].
  { apply runs_ret. split_and!; [done|by apply good_refl|done]. }
  apply runs_bind. eapply runs_mono; [by apply handle_arm_ok|]. intros a st1 new (-> & Hg & Ha).
  apply runs_bind. eapply runs_mono; [apply IH, Hg|]. intros l st2 new (-> & Hg2 & Hl). ranges.
  apply runs_ret. split_and!; [done|by eapply good_app|].
  eapply opt_lt_mono in Ha; [|eassumption]. destruct a as [? ? ? ? [v|]]; cbn in *; by rewrite ?Ha.
Qed.

Lemma yields_handle body arms st : scope_ok st -> yields (lower_handle K body arms) val st.
Proof.
  intros Hs. apply runs_bind. eapply runs_mono; [by apply handle_arms_ok|].
  intros l st1 new (-> & Hg1 & Hl). pose proof (good_scope _ _ _ Hg1) as Hs1.
  apply (after_body _ _ _ _ (nested_body_ok body st1 Hs1)). intros b st2 Hg2 Hs2 ? ? Hb.
  apply (yields_wrap _ [] st); [done| |done| |done].
  - exact (good_app _ _ _ _ _ Hg1 Hg2).
  - cbn. rewrite forallb_app. apply andb_true_iff. split.
    + destruct (nb_result b); cbn in *; by rewrite ?Hb.
    + eapply all_lt_mono; [|exact Hl]. lia.
Qed.

(** *** Expressions *)

Lemma yields_name name span st : scope_ok st -> yields (lower_name prog cx name span) val st.
Proof.
  intros Hs. apply yields_gets. destruct (locals st !! name) as [b|] eqn:Hb.
  - pose proof (so_locals _ Hs _ _ Hb) as Hok. destruct b as [v|slot|slots]; cbn in Hok.
    + apply yields_ret; [done|]. by apply Nat.ltb_lt.
    + apply Nat.ltb_lt in Hok. value.
    + by apply yields_materialize.
  - destruct (cx_substitutions cx !! name); [value|].
    destruct (lp_evaluated_consts prog !! name); [by apply yields_emit_runtime_value|].
    apply yields_diagnose; [|done]. intros. by apply yields_fresh_value.
Qed.

Lemma yields_contract_result span st : scope_ok st -> yields (lower_contract_result cx span) val st.
Proof.
  intros Hs. apply yields_gets. pose proof (so_result _ Hs) as Hr. destruct (contract_result st) as [v|].
  - apply yields_ret; [done|]. by apply Nat.ltb_lt.
  - apply yields_diagnose; [|done]. intros. by apply yields_fresh_value.
Qed.

Lemma yields_comptime body st : scope_ok st -> yields (lower_comptime prog const_fuel cx body) val st.
Proof.
  intros Hs. unfold lower_comptime, yields, runs.
  assert (Hv : forall v ds, match emit_runtime_value cx v (set_diagnostics ds st) with
    | L_Ok a st' => exists new, instructions st' = instructions st ++ new /\ good st st' new /\
                      val a (next_value st') (next_slot st')
    | _ => True end).
  { intros v ds. assert (Hs' : scope_ok (set_diagnostics ds st)) by by destruct Hs.
    pose proof (yields_emit_runtime_value cx v _ Hs') as Hy. unfold yields, runs in Hy.
    destruct (emit_runtime_value _ _ _); [|done..]. destruct Hy as (new & Hi & Hg & Hv).
    exists new. split_and!; [exact Hi| |exact Hv]. by eapply good_start, Hg. }
  cbv zeta. match goal with |- context [ConstEval.k_body ?k body ?cst ?env] => destruct (ConstEval.k_body k body cst env) end;
    [apply Hv|apply Hv|done|done].
Qed.

Lemma yields_field base field span st : scope_ok st -> yields (lower_field prog cx K base field span) val st.
Proof.
  intros Hs. unfold lower_field. destruct (payload_free_enum_variant_for_field prog base field) as [[n v]|]; [value|].
  apply yields_infer. intros ty.
  assert (Hplain : yields (let+ base := k_expr K base in emit_value (fun dest => I_Field dest base field)) val st)
    by (sub; value).
  destruct (_ =? _)%string; [|exact Hplain]. destruct ty as [| | | | | | | | | | | |element len|]; try exact Hplain; cbn [lower_len].
  - sub. value.
  - sub. value.
  - sub. value.
  - destruct (_ <? _)%Z; [value|by apply yields_diagnose_unit].
Qed.

Definition branch : BodyLowering * ValueId -> nat -> nat -> Prop := fun r nv ns => res r.1 nv ns /\ val r.2 nv ns.

Lemma yields_if condition then_body else_body st :
  scope_ok st -> yields (lower_if K condition then_body else_body) branch st.
Proof.
  intros Hs. unfold lower_if. bind; [by apply k_expr_ok|]. unfold val in *.
  apply (after_body _ _ _ _ (nested_body_ok then_body st1 H1)). intros tb st2 Hg2 Hs2 ? ? Ht.
  apply (after_body _ _ _ _ (nested_body_ok else_body st2 Hs2)). intros eb st3 Hg3 Hs3 ? ? He.
  set (inst dest := I_If dest b (nb_instructions tb) (nb_result tb) (nb_instructions eb) (nb_result eb)).
  match goal with |- runs (let+ d := _ in _ ;+ l_ret (@?r d)) _ _ =>
    change (runs (let+ d := emit_value inst in l_ret (r d)) st3
              (fun a st' new => good st1 st' new /\ branch a (next_value st') (next_slot st'))) end.
  apply runs_bind. eapply runs_mono.
  { apply (yields_wrap _ [] st1); [done|exact (good_app _ _ _ _ _ Hg2 Hg3)|done| |done]. cbn.
    apply andb_true_iff. split; [apply Nat.ltb_lt; lia|]. rewrite forallb_app. apply andb_true_iff.
    eapply opt_lt_mono in Ht; [|eassumption].
    split; [by destruct (nb_result tb); cbn in *; rewrite ?Ht|by destruct (nb_result eb); cbn in *; rewrite ?He]. }
  intros d st' new [Hg Hd]. apply runs_ret. rewrite app_nil_r. split; [done|]. split; [|done].
  unfold res. cbn. destruct (nb_result tb), (nb_result eb); try done; by apply Nat.ltb_lt.
Qed.

Lemma yields_while condition body st : scope_ok st -> yields (lower_while K condition body) val st.
Proof.
  intros Hs. unfold lower_while. apply (runs_after _ _ val).
  { apply runs_nested_scope; [done|]. intros. by apply k_expr_ok. }
  intros c st1 Hg1 Hs1 ? ? Hc.
  apply (after_body _ _ _ _ (nested_body_ok body st1 Hs1)). intros bl st2 Hg2 Hs2 ? ? _.
  apply (yields_wrap _ [] st); [done|exact (good_app _ _ _ _ _ Hg1 Hg2)|done|unfold val in *; uses|done].
Qed.

Lemma yields_loop binding count body st : scope_ok st -> yields (lower_loop prog cx K binding count body) val st.
Proof.
  intros Hs. unfold lower_loop. sub. unfold val in *.
  apply runs_bind. eapply runs_mono; [by apply repeat_body_ok|]. intros r st2 new (-> & Hg2 & Hr).
  pose proof (good_scope _ _ _ Hg2). ranges.
  apply (yields_wrap _ [] st1); [done|exact Hg2|done|uses|].
  cbn. destruct r.1; cbn in *; by rewrite ?Hr.
Qed.

Lemma yields_repeat binding count body st : scope_ok st -> yields (lower_repeat prog cx K binding count body) val st.
Proof.
  intros Hs. apply yields_gets. destruct (repeat_static_count _ _ _ _); [by apply yields_unroll|by apply yields_loop].
Qed.

(** A record whose destination comes before its fields *)
Lemma yields_record_late {A} (f : A -> L (string * ValueId)) (l : list A) name st :
  scope_ok st ->
  (forall a st', scope_ok st' -> next_value st <= next_value st' -> yields (f a) field_val st') ->
  yields (let+ dest := fresh_value in let+ fields := l_map f l in emit (I_MakeRecord dest name fields) ;+ l_ret dest) val st.
Proof.
  intros Hs Hf. apply (yields_late _ fields_val (fun d fs => I_MakeRecord d name fs) (fun d _ => l_ret d)).
  - done.
  - intros st' Hs' ? ?. apply yields_fields; [|done]. intros a st2 _ Hs2 ? ?. apply Hf; [done|lia].
  - intros fs d nv ns Hd _ _ Hfs. split_and!; try done. by apply fields_lt in Hfs.
  - intros d a st' Hs' Hd _ _. by apply yields_ret.
Qed.

Lemma yields_lower_record name fields st : scope_ok st -> yields (lower_record prog K name fields) val st.
Proof.
  intros Hs. apply yields_record_late; [done|]. intros [field value] st' Hs' _. sub. by apply yields_ret.
Qed.

Lemma yields_record_update base updates span st :
  scope_ok st -> yields (lower_record_update prog cx K base updates span) val st.
Proof.
  intros Hs. unfold lower_record_update. sub. apply yields_infer. intros ty.
  destruct ty; try by apply yields_unit_with. destruct (_ !! _); [|by apply yields_unit_with].
  apply yields_record_late; [done|]. intros [field_name fty] st' Hs' ?.
  destruct (find_init _ _); [sub; by apply yields_ret|]. bind; [value|by apply yields_ret].
Qed.

(** *** Operators *)

Lemma yields_widen l r lt rt st :
  scope_ok st -> l < next_value st -> r < next_value st ->
  yields (widen l r lt rt) (fun p nv ns => p.1 < nv /\ p.2 < nv) st.
Proof.
  intros Hs Hl Hr. unfold widen. destruct lt, rt; try (by apply yields_ret);
    (bind; [value|]; apply yields_ret; [done|]; cbn; bounds).
Qed.

Lemma binary_inst_ok op lt rt d l r :
  let i := lower_binary_inst op lt rt d l r in
  dest_of i = Some d /\ inst_blocks i = [] /\ inst_uses i = [l; r] /\ inst_slots i = [].
Proof. destruct op; try done; destruct lt; try done; destruct rt; done. Qed.

Lemma yields_lower_binary op l r st : scope_ok st -> yields (lower_binary prog cx K op l r) val st.
Proof.
  intros Hs. unfold lower_binary. destruct (match l with E_Integer _ _ => _ | _ => _ end) as [o|].
  { destruct o; [by apply yields_emit_runtime_value|done|done]. }
  sub. sub. apply yields_infer. intros lt. apply yields_infer. intros rt.
  eapply yields_bind; [apply yields_widen; [done|bounds|bounds]|]. intros p st3 n3 Hg3 Hs3 [Hl Hr].
  destruct (binary_inst_ok op lt rt (next_value st3) p.1 p.2) as (Hd & Hb & Hu & Hsl).
  apply yields_emit_value; [done|done|done|rewrite Hu; uses|by rewrite Hsl].
Qed.

Lemma yields_lower_expr e st : scope_ok st -> yields (lower_expr prog const_fuel cx K e) val st.
Proof.
  intros Hs. destruct e; cbn [lower_expr]; try value.
  - by apply yields_name.
  - by apply yields_contract_result.
  - by apply yields_call.
  - by apply yields_array_expr.
  - by apply yields_field.
  - by apply yields_index_expr.
  - eapply yields_bind; [by apply yields_if|]. intros r st1 n1 Hg Hs1 [_ Hr]. by apply yields_ret.
  - sub. by apply (yields_match_value prog (lower_nested_body K)); [apply nested_body_ok|..].
  - by apply yields_repeat.
  - by apply yields_while.
  - by apply yields_lower_record.
  - by apply yields_record_update.
  - destruct op. sub. bind; [by apply yields_emit_runtime_value|]. value.
  - by apply yields_lower_binary.
  - by apply k_expr_ok.
  - by apply yields_comptime.
  - by apply yields_perform.
  - by apply yields_handle.
Qed.

(** *** Bodies *)

Lemma yields_with_result {A} (m : L A) (P : A -> nat -> nat -> Prop) f st :
  yields m P st -> (forall a nv ns, P a nv ns -> opt_lt (f a) nv = true) ->
  yields (let+ a := m in l_ret (with_result (f a))) res st.
Proof.
  intros Hm Hf. eapply yields_bind; [exact Hm|]. intros a st1 n1 Hg Hs1 HP. apply yields_ret; [done|].
  unfold res. cbn. by eapply Hf.
Qed.

Lemma yields_tail e st : scope_ok st -> yields (lower_tail_expr prog const_fuel cx K e) res st.
Proof.
  revert st. induction e; intros st Hs; cbn [lower_tail_expr];
    try (eapply yields_with_result; [by apply yields_lower_expr|];
         intros v nv ns Hv; destruct (expr_returns_unit _); [done|by apply Nat.ltb_lt]);
    try (apply (yields_with_result _ val (fun v => Some v)); [by apply yields_lower_expr|]; intros; by apply Nat.ltb_lt).
  - eapply yields_bind; [by apply yields_if|]. intros r st1 n1 Hg Hs1 [Hr _]. by apply yields_ret.
  - sub. by apply (yields_match_body prog (lower_nested_body K)); [apply nested_body_ok|..].
  - by apply (yields_with_result _ val (fun _ => None)); [apply yields_loop|].
  - by apply (yields_with_result _ val (fun _ => None)); [apply yields_while|].
  - auto.
Qed.

Lemma yields_let mutable name value_expr span st :
  scope_ok st -> yields (lower_let prog cx K mutable name value_expr span) any st.
Proof.
  intros Hs. unfold lower_let. sub. apply yields_infer. intros ty. destruct (_ =? _)%string; [by apply yields_ret|].
  bind; [by apply yields_bind_local|]. destruct b0; [by apply yields_ret|by apply yields_diagnose_last].
Qed.

Lemma yields_assign_name name v value_expr span st :
  scope_ok st -> v < next_value st -> yields (assign_name prog cx name v value_expr span) any st.
Proof.
  intros Hs Hv. unfold assign_name. cbv zeta. apply yields_gets. destruct (locals st !! name) as [b|] eqn:Hb;
    [|by apply yields_diagnose_last].
  pose proof (so_locals _ Hs _ _ Hb) as Hok. destruct b as [|slot|slots]; [by apply yields_diagnose_last|..].
  - apply Nat.ltb_lt in Hok. bind; [by apply yields_store_local|]. apply yields_infer. intros. by apply yields_insert_local_type.
  - bind; [by apply yields_store_array_slots|]. apply yields_infer. intros. by apply yields_insert_local_type.
Qed.

Lemma yields_assign target value_expr span st :
  scope_ok st -> yields (lower_assign prog cx K target value_expr span) any st.
Proof.
  intros Hs. unfold lower_assign. sub. destruct target; try by apply yields_diagnose_last.
  - by apply yields_assign_name.
  - by apply yields_record_field_assign.
  - by apply yields_array_index_assign.
Qed.

Lemma yields_stmt s st : scope_ok st -> yields (lower_stmt prog cx K s) any st.
Proof.
  intros Hs. destruct s; cbn [lower_stmt].
  - by apply yields_let.
  - by apply yields_assign.
  - sub. by apply yields_ret.
  - bind; [by apply yields_emit|]. bind; [by apply k_body_ok|]. by apply yields_emit.
Qed.

Lemma yields_lower_body b st : scope_ok st -> yields (lower_body prog const_fuel cx K b) res st.
Proof.
  intros Hs. unfold lower_body. eapply (yields_bind _ _ any).
  - apply yields_each; [|done]. intros. by apply yields_stmt.
  - intros _ st1 n1 Hg Hs1 _. destruct (body_tail b); [by apply yields_tail|by apply yields_ret].
Qed.

(** *** Functions *)

Lemma yields_params st : scope_ok st -> yields (lower_params cx) any st.
Proof.
  intros Hs. apply yields_each; [|done]. intros [i param] st' _ Hs' _ _. bind; [value|].
  bind; [by apply yields_bind_local|]. by apply yields_ret.
Qed.

Lemma yields_signature st : scope_ok st -> yields (ensure_signature_types_registered cx) any st.
Proof.
  intros Hs. unfold ensure_signature_types_registered. eapply (yields_bind _ _ any).
  - apply yields_each; [|done]. intros param st' _ Hs' _ _. bind; [by apply yields_register|]. by apply yields_ret.
  - intros _ st1 n1 Hg Hs1 _. destruct (Hir.fn_return_type _); [|by apply yields_ret].
    bind; [by apply yields_register|]. by apply yields_ret.
Qed.

Lemma yields_contract kind contract st : scope_ok st -> yields (lower_contract K kind contract) any st.
Proof.
  intros Hs. destruct contract as [e|]; [|by apply yields_ret]. cbn [lower_contract]. sub.
  apply yields_emit; try done; uses.
Qed.

(** Everything emitted so far is good. *)
Definition all_good (st0 st : LowerState) : Prop := good st0 st (instructions st).

Lemma after_yields {A B} (m : L B) (k : B -> L A) R st0 st (Q : A -> LowerState -> Prop) :
  all_good st0 st -> (scope_ok st -> yields m R st) ->
  (forall b st1, all_good st0 st1 -> R b (next_value st1) (next_slot st1) ->
     match k b st1 with L_Ok a st2 => Q a st2 | _ => True end) ->
  match l_bind m k st with L_Ok a st2 => Q a st2 | _ => True end.
Proof.
  intros Hg Hm Hk. specialize (Hm (good_scope _ _ _ Hg)). unfold l_bind. unfold yields, runs in Hm.
  destruct (m st) as [b st1| | |]; [|done..]. destruct Hm as (new & Hi & Hg1 & HR). apply Hk; [|done].
  unfold all_good. rewrite Hi. by eapply good_app.
Qed.

Lemma after_modify {A} f (k : unit -> L A) st (Q : A -> LowerState -> Prop) :
  match k tt (f st) with L_Ok a st2 => Q a st2 | _ => True end ->
  match l_bind (l_modify f) k st with L_Ok a st2 => Q a st2 | _ => True end.
Proof. done. Qed.

Definition numbered_outcome (f : Mir.Function) (st : LowerState) : Prop :=
  well_numbered f /\ Forall well_numbered (monomorphized_functions st).

Lemma function_numbered name generated functions :
  Forall well_numbered functions ->
  match lower_function_monomorphized cx K name (lower_state generated functions) with
  | L_Ok f st => numbered_outcome f st
  | _ => True
  end.
Proof.
  intros Hfs. set (st0 := lower_state generated functions).
  assert (Hg : all_good st0 st0) by (apply good_refl; by split). revert Hg. generalize st0 at 2 3 as st. intros st Hg.
  unfold lower_function_monomorphized.
  apply (after_yields _ _ any st0); [done|by intros; apply yields_params|]. clear Hg st. intros _ st Hg _.
  apply (after_yields _ _ any st0); [done|by intros; apply yields_signature|]. clear Hg st. intros _ st Hg _.
  apply (after_yields _ _ any st0); [done|by intros; apply yields_contract|]. clear Hg st. intros _ st Hg _.
  apply (after_yields _ _ opt_val st0); [done| |].
  { intros Hs. destruct (fn_body (cx_function cx)) as [body|]; [|by apply yields_ret].
    eapply yields_bind; [by apply k_body_ok|]. intros r st1 n1 _ Hs1 Hr. by apply yields_ret. }
  clear Hg st. intros result st Hg Hr. unfold opt_val in Hr.
  apply after_modify. assert (Hg' : all_good st0 (set_contract_result result st)).
  { eapply good_frame; [exact Hg|done|done|]. destruct (good_scope _ _ _ Hg). by split. }
  apply (after_yields _ _ (fun _ nv _ => opt_lt result nv = true) st0); [done| |].
  { intros Hs. eapply runs_mono; [by apply yields_contract|]. intros _ st1 new [Hg1 _]. split; [done|].
    eapply opt_lt_mono; [|exact Hr]. apply Hg1. }
  intros _ st1 [_ _ Hn _ Hf []] Hr1. split; [|done]. by split.
Qed.
End Methods.

(** ** The knot *)

Section Knot.
Context `{Platform} (prog : LowerProgram) (const_fuel : nat).

Definition knot_numbered (K : LowerKnot) : Prop :=
  (forall e st, scope_ok st -> yields (k_expr K e) val st) /\
  (forall b st, scope_ok st -> yields (k_body K b) res st) /\
  (forall f subst name generated functions, Forall well_numbered functions ->
     match k_function K f subst name generated functions with
     | L_Ok g st => numbered_outcome g st
     | _ => True
     end).

Lemma lower_knot_numbered n cx : knot_numbered (lower_knot prog const_fuel n cx).
Proof.
  revert cx. induction n as [|n IH]; intros cx; [done|]. destruct (IH cx) as (He & Hb & Hf).
  split_and!; cbn [lower_knot k_expr k_body k_function].
  - intros. by apply yields_lower_expr.
  - intros. by apply yields_lower_body.
  - intros f subst name generated functions Hfs. destruct (IH (mkFnContext f subst)) as (He' & Hb' & Hf').
    by apply function_numbered.
Qed.

Lemma lower_function_numbered n f generated functions :
  Forall well_numbered functions ->
  match lower_function prog const_fuel n f generated functions with
  | L_Ok g st => numbered_outcome g st
  | _ => True
  end.
Proof.
  intros Hfs. destruct (lower_knot_numbered n (mkFnContext f ∅)) as (He & Hb & Hf). by apply function_numbered.
Qed.
End Knot.
