(* ===== verification/LowerSamples.v ===== *)
(** * Sample modules for lowering

    Small modules of the language, as HIR, that the witnesses and the examples of
    the lowering files use, and what they run to in the interpreter. *)
From stdpp Require Import gmap pretty.
From S2P Require Import Prelude Syntax Float64 Mir Interp Exec Machine Entry Eval Hir ConstEval ConstState Samples LowerState LowerTypes LowerOps Lower.

Open Scope nat_scope.

Definition sp : Span := mkSpan 0 0.
Definition ty (n : string) : TypeRef := mkTypeRef n sp.
Definition nm (n : string) : Expr := E_Name n sp.
Definition int (z : Z) : Expr := E_Integer z sp.
Definition text_of (s : string) : Expr := E_String "" s sp.
Definition bin (op : BinaryOp) (l r : Expr) : Expr := E_Binary op l r sp.
Definition call (f : string) (args : list Expr) : Expr := E_Call f args sp.
Definition block (stmts : list Stmt) (tail : option Expr) : Body := mkBody stmts tail sp.
Definition arm (p : MatchPattern) (value : Expr) : MatchArm := mkMatchArm p (block [] (Some value)) sp.
Definition fn_of (type_params : list GenericParam) (name : string) (params : list (string * string)) (ret : string)
    (body : Body) : Item :=
  It_Function (Hir.mkFunction name type_params (map (fun '(n, t) => Hir.mkParam n (ty t) sp) params) (Some (ty ret))
                 [] None None (Some body) sp).
Definition fn (name : string) := fn_of [] name.

(** The lowered program, and what [main] gives *)
Definition lowered_program (items : HirModule) : option Program :=
  match lower 50 false items with M_Lowered l => Some (ml_program l) | _ => None end.

Definition env_of (p : Program) : Env := mkEnv p [] "" false.

Definition lower_and_run (items : HirModule) : option RunResult :=
  (fun p => run_main (env_of p) 2000) <$> lowered_program items.

(** Adds the index to each element of an array and reads the last one *)
Definition array_module : HirModule :=
  [fn "add" [("x", "I32"); ("y", "I32")] "I32" (block [] (Some (bin B_Add (nm "x") (nm "y"))));
   fn "main" [] "I32" (block
     [S_Let true "a" (E_Array [int 5; int 6; int 7] None sp) sp;
      S_Let true "i" (int 0) sp;
      S_Expr (E_While (bin B_Lt (nm "i") (int 3))
        (block [S_Assign (E_Index (nm "a") (nm "i") sp) (call "add" [E_Index (nm "a") (nm "i") sp; nm "i"]) sp;
                S_Assign (nm "i") (bin B_Add (nm "i") (int 1)) sp] None) sp) sp;
      S_Assign (nm "i") (int 2) sp]
     (Some (E_Index (nm "a") (nm "i") sp)))]%string.

Example array_module_runs : lower_and_run array_module = Some (Returned (V_Int 9) new_heap).
Proof. vm_compute. reflexivity. Qed.

(** ** What a call of [main] is at compile time *)

Definition evaluated (items : HirModule) : option RuntimeValue :=
  match ConstEval.k_expr (const_knot (const_program items ∅ ∅) false 50) (call "main" []) (const_state []) ConstEnv_default with
  | C_Ok value _ _ => Some value
  | _ => None
  end.

(** ** Names that lowering takes for others *)

Definition const (name : string) (value : Z) : Item := It_Const (mkConst name (ty "I32") (int value) sp).
Definition main (b : Body) : Item := fn "main" [] "I32" b.
Definition incremented (name : string) : Stmt := S_Assign (nm name) (bin B_Add (nm name) (int 1)) sp.
Definition loop (binding : option string) (count : Expr) (stmts : list Stmt) : Stmt :=
  S_Expr (E_Repeat binding count (block stmts None) sp) sp.
Definition numbers (name : string) : Stmt := S_Let true name (E_Array [int 5; int 6; int 7] None sp) sp.

(** [repeat i] in the body of [repeat i in 3] *)
Definition index_as_count : HirModule :=
  [main (block [S_Let true "c" (int 0) sp; loop (Some "i") (int 3) [loop None (nm "i") [incremented "c"]]]
     (Some (nm "c")))]%string.

(** A parameter with the name of a constant as an index *)
Definition index_as_const : HirModule :=
  [const "K" 2; fn "f" [("K", "I32")] "I32" (block [numbers "a"] (Some (E_Index (nm "a") (nm "K") sp)));
   main (block [] (Some (call "f" [int 0])))]%string.

(** [let K = 4] in a branch, and the constant [K] after it *)
Definition local_as_const : HirModule :=
  [const "K" 2;
   main (block [S_Expr (E_If (E_Bool true sp) (block [S_Let false "K" (int 4) sp] None) (block [] None) sp) sp]
     (Some (nm "K")))]%string.

(** [let i = i + 40] in the body of [repeat i in 3], as an index of an array of three *)
Definition local_as_index : HirModule :=
  [main (block [S_Let true "c" (int 0) sp; numbers "a";
      loop (Some "i") (int 3) [S_Let false "i" (bin B_Add (nm "i") (int 40)) sp;
                               S_Assign (nm "c") (E_Index (nm "a") (nm "i") sp) sp]]
     (Some (nm "c")))]%string.

(** [let t = 1; (if true { let t = "a"; t } else { "b" }) + "!"] *)
Definition branch_text : HirModule :=
  [fn "main" [] "Text" (block [S_Let false "t" (int 1) sp] (Some (bin B_Add
     (E_Group (E_If (E_Bool true sp)
        (block [S_Let false "t" (text_of "a") sp] (Some (nm "t"))) (block [] (Some (text_of "b"))) sp) sp)
     (text_of "!"))))]%string.

(** ** Generic functions *)

Definition generic (name : string) : list (string * string) -> string -> Body -> Item :=
  fn_of [mkGenericParam "N" None sp] name.

(** [fn g<N>(a: [I32; N]) -> I32 { g(a) }] *)
Definition endless_instance : HirModule :=
  [generic "g" [("a", "[I32; N]")] "I32" (block [] (Some (call "g" [nm "a"])));
   main (block [] (Some (call "g" [E_Array [int 1; int 2] None sp])))]%string.

(** [g] through [h] and from [main], both with arrays of two; [g] uses an unknown name *)
Definition instance_twice : HirModule :=
  [generic "g" [("a", "[I32; N]")] "I32" (block [] (Some (bin B_Add (nm "N") (nm "unknown"))));
   generic "h" [("a", "[I32; N]")] "I32" (block [] (Some (call "g" [nm "a"])));
   main (block [] (Some (bin B_Add (call "g" [E_Array [int 1; int 2] None sp])
                           (call "h" [E_Array [int 1; int 2] None sp]))))]%string.
