(* ===== verification/LowerSpec.v ===== *)
(** * Lowering to the MIR: modules

    What every module that is lowered has: its functions are well numbered, and
    what the interpreter takes for granted about identifiers holds.  Names that lowering
    misreads, and a generic function that calls itself. *)
From stdpp Require Import gmap pretty.
From S2P Require Import Utf8 TextOps Eval Invariant Safety InterpSpec SemType ConstFold LowerBuiltins LowerMatch LowerArrays LowerWp.
From S2P Require Import LowerNumbering LowerNumbered Prelude Syntax Float64 Mir Interp Exec Machine Entry Hir ConstEval ConstState Samples LowerState.
From S2P Require Import LowerTypes LowerOps Lower LowerSamples.

Open Scope nat_scope.

#[local] Arguments Nat.ltb : simpl never.

Lemma lower_functions_inv `{Platform} prog n items shared k l (P : SharedState -> Prop) :
  (forall f sh lowered st, P sh ->
     lower_function prog n n f (sh_arrays sh) (sh_instances sh) = L_Ok lowered st ->
     P (mkSharedState (generated_arrays st) (monomorphized_functions st)
          (sh_diagnostics sh ++ LowerState.diagnostics st) (sh_functions sh ++ [lowered]))) ->
  P shared -> lower_functions prog n items shared k = M_Lowered l ->
  exists sh, P sh /\ k sh = M_Lowered l.
Proof.
  intros Hstep. revert shared. induction items as [|item items IH]; intros shared HP Hl; cbn in Hl; [by exists shared|].
  destruct item as [|f| | | | |]; try by eapply IH. destruct (is_generic f); [by eapply IH|].
  destruct (lower_function _ _ _ _ _ _) as [lowered st| | |] eqn:E; try done. eapply IH; [|exact Hl]. by eapply Hstep.
Qed.

Lemma lowered_functions `{Platform} n overflow items info l :
  lower_with_imports n overflow items info = M_Lowered l ->
  Forall well_numbered (program_functions (ml_program l)).
Proof.
  unfold lower_with_imports. destruct (evaluate_const_values _ _ _ _) as [u env cst|e|cst|]; try done.
  intros Hl. eapply (lower_functions_inv _ _ _ _ _ _
    (fun sh => Forall well_numbered (sh_functions sh) /\ Forall well_numbered (sh_instances sh))) in Hl; [|intros f sh lowered st [Hf Hi] E|done].
  - destruct Hl as (sh & [Hf Hi] & [= <-]). cbn. by apply Forall_app.
  - pose proof (lower_function_numbered (lower_program items info (ConstState.values cst) overflow) n n f (sh_arrays sh) (sh_instances sh) Hi) as Hn.
    rewrite E in Hn. destruct Hn as [Hn Hi']. cbn. split; [|done]. apply Forall_app. by split; [|constructor].
Qed.

(** ** Identifiers *)

(** C9: Every function of a module that is lowered is in single-assignment form
    with everything in range: no two instructions, in whatever blocks, have the
    same destination, every value and every slot that is mentioned is below the
    counts of the function, so is its result, and the declared slots are numbered
    from zero in order. *)
Theorem lowered_well_numbered `{Platform} n overflow items info l f :
  lower_with_imports n overflow items info = M_Lowered l -> In f (program_functions (ml_program l)) ->
  well_numbered f.
Proof. intros Hl Hf. apply lowered_functions in Hl. rewrite Forall_forall in Hl. by apply Hl, list_elem_of_In. Qed.

Definition array_lowering : MirLowering :=
  match lower 50 false array_module with M_Lowered l => l | _ => mkMirLowering (mkProgram [] [] [] []) ∅ [] end.

Lemma array_lowered : lower_with_imports 50 false array_module no_imports = M_Lowered array_lowering.
Proof. vm_compute. reflexivity. Qed.

Lemma lowered_well_numbered_witness :
  map Mir.fn_name (program_functions (ml_program array_lowering)) = ["add"; "main"]%string /\
  Forall well_numbered (program_functions (ml_program array_lowering)).
Proof.
  split; [vm_compute; reflexivity|]. apply Forall_forall. intros f Hf%list_elem_of_In.
  exact (lowered_well_numbered 50 false array_module no_imports array_lowering f array_lowered Hf).
Defined.

(** ** No panics *)

(** An instruction that cannot panic for other reasons than identifiers *)
Definition plain_inst (i : Inst) : bool :=
  const_ok i &&
  match i with
  | I_Div _ _ _ | I_Rem _ _ _ | I_TextFindByteRange _ _ _ _ _ | I_Handle _ _ _ _ => false
  | I_ListNew _ _ _ | I_ListPush _ _ _ _ => false
  | I_ListSortText _ _ _ | I_ListSortRecordTextField _ _ _ _ | I_ListSortRecordField _ _ _ _ => false
  | I_ListFrom _ _ len => (Z.of_nat len <? 2 ^ 32)%Z
  | _ => true
  end.

Definition plain_program (p : Program) : bool :=
  forallb (fun f => forallb (inst_all plain_inst plain_inst) (fn_instructions f)) (program_functions p).

Lemma mentions_check nv ns i :
  mentions_ok nv ns i = true -> plain_inst i = true -> check true false nv ns i = true.
Proof.
  unfold plain_inst, check. intros Hm [-> Hp]%andb_true_iff. cbn. revert Hm Hp. unfold mentions_ok, safe_inst.
  destruct i; try done; cbn; rewrite ?andb_true_r; try done; rewrite ?andb_true_iff; try tauto; destruct index_slot;
    cbn; rewrite ?andb_true_r, ?andb_true_iff; tauto.
Qed.

Fixpoint fits_check nv ns av as_ (i : Inst) :
  inst_all (mentions_ok nv ns) (mentions_ok nv ns) i = true -> inst_all plain_inst plain_inst i = true ->
  inst_all (check true false nv ns) (check true false av as_) i = true.
Proof.
  assert (Hl : forall l, forallb (inst_all (mentions_ok nv ns) (mentions_ok nv ns)) l = true ->
    forallb (inst_all plain_inst plain_inst) l = true ->
    forallb (inst_all (check true false nv ns) (check true false av as_)) l = true).
  { fix IH 1. intros [|j l]; [done|]. cbn. rewrite !andb_true_iff. intros [Hj Hl] [Hj' Hl'].
    split; [by apply fits_check | by apply IH]. }
  intros Hm Hp. pose proof (mentions_check _ _ _ (inst_all_head _ _ _ Hm) (inst_all_head _ _ _ Hp)) as Hc.
  destruct i; cbn [inst_all] in *; try (by rewrite Hc);
    apply andb_true_iff in Hm as [_ Hm]; apply andb_true_iff in Hp as [Hp Hp']; rewrite Hc; cbn.
  - apply andb_true_iff in Hm as [? ?]. apply andb_true_iff in Hp' as [? ?]. apply andb_true_iff. by split; apply Hl.
  - apply andb_true_iff in Hm as [? ?]. apply andb_true_iff in Hp' as [? ?]. apply andb_true_iff. by split; apply Hl.
  - by apply Hl.
Qed.

Lemma well_numbered_ok p :
  Forall well_numbered (program_functions p) -> plain_program p = true -> program_ok true false 0 0 p = true.
Proof.
  unfold plain_program, program_ok. rewrite !forallb_forall. intros Hn Hp f Hf.
  rewrite Forall_forall in Hn. specialize (Hn f (proj2 (list_elem_of_In _ _) Hf)). specialize (Hp f Hf).
  destruct Hn as [_ Hfits _ _]. apply (forallb_fits_mono _ _ (value_room f) (slot_room f)) in Hfits;
    [|unfold value_room; lia|unfold slot_room; lia].
  unfold function_ok. apply andb_true_iff. split; [done|]. unfold insts_ok.
  rewrite !forallb_forall in *. intros i Hi. apply fits_check; [by apply Hfits|by apply Hp].
Qed.

(** C10: A program compiled without overflow checks never crashes the interpreter,
    however long it runs: if lowering gives it, its texts and those of its
    environment are UTF-8, and nothing in it divides, looks for a byte within a
    text, makes a list of a given length, pushes to a list, sorts one, turns an
    array above 32 bits into one or handles effects, no run of its [main] panics. *)
Theorem lowered_main_never_panics `{PlatformOk} n items info l env k :
  lower_with_imports n false items info = M_Lowered l ->
  program env = ml_program l -> overflow_checks env = false -> plain_program (ml_program l) = true -> env_ok env ->
  run_main env k <> Crashed.
Proof.
  intros Hl Hp Ho Hplain Henv. apply (main_never_crashes env 0 0); [done|].
  rewrite Hp, Ho. apply well_numbered_ok; [by eapply lowered_functions|done].
Qed.


Lemma program_env_of p : program (env_of p) = p.
Proof. done. Qed.

Lemma checks_env_of p : overflow_checks (env_of p) = false.
Proof. done. Qed.

Lemma env_of_ok p : env_ok (env_of p).
Proof. by split. Qed.

Lemma lowered_main_never_panics_witness :
  run_main (env_of (ml_program array_lowering)) 2000 = Returned (V_Int 9) new_heap /\
  forall k, run_main (env_of (ml_program array_lowering)) k <> Crashed.
Proof.
  split; [vm_compute; reflexivity|]. intros k.
  apply (lowered_main_never_panics 50 array_module no_imports array_lowering
    (env_of (ml_program array_lowering)) k array_lowered).
  - exact (program_env_of _).
  - exact (checks_env_of _).
  - vm_compute. reflexivity.
  - exact (env_of_ok _).
Defined.

(** ** Names *)

(** What lowering makes of names is not what compile-time evaluation makes
    of them.  The index of a loop as the count of another is taken for the count
    of its own loop, a parameter is taken for the constant of its name where it
    is an index, a local of a branch hides a constant after the branch, and a
    local with the name of an index is not checked against the bounds. *)
Theorem lowering_misreads_names :
  (evaluated index_as_count = Some (V_Int 3) /\
   lower_and_run index_as_count = Some (Returned (V_Int 9) new_heap)) /\
  (evaluated index_as_const = Some (V_Int 5) /\
   lower_and_run index_as_const = Some (Returned (V_Int 7) new_heap)) /\
  (evaluated local_as_const = Some (V_Int 2) /\
   lower_and_run local_as_const = Some (Returned (V_Int 4) new_heap)) /\
  (evaluated local_as_index = None /\
   lower_and_run local_as_index = Some (Returned (V_Int 7) new_heap)).
Proof. vm_compute. by split_and!. Qed.

(** The type of an [if] is taken from the tail of its first branch in the scope
    outside of it: where the branch shadows a local, a sum of texts is lowered as
    one of numbers. *)
Theorem shadowed_branch :
  evaluated branch_text = Some (V_Text "a!") /\
  exists e, lower_and_run branch_text = Some (Raised e).
Proof. split; [vm_compute; reflexivity|]. eexists. vm_compute. reflexivity. Qed.

(** ** Generic functions *)

(** Two calls with the same lengths, one within an instance, give two
    instances of the same name, and what lowering has to say about a generic
    function is lost. *)
Theorem instances_repeated :
  match lower 50 false instance_twice with
  | M_Lowered l =>
      map Mir.fn_name (program_functions (ml_program l)) = ["main"; "g_N_2"; "h_N_2"; "g_N_2"]%string /\
      ml_diagnostics l = []
  | _ => False
  end.
Proof. vm_compute. by split. Qed.

(** * Lowering to the MIR: a generic function that calls itself

    An instance is only known to the lowerer once it is lowered, so a generic
    function that calls itself at its own lengths has another instance in its
    body, without end. *)










