(* ===== verification/LowerExec.v ===== *)
(** * Lowering to the MIR: runs that end

    Rules for the structured semantics of [Eval.v] without its depth: [steps]
    runs a list of instructions to its end, [inst_ends] one instruction, and
    [repeat_ends_at] the rounds of a [Repeat]. *)
From stdpp Require Import gmap pretty.
From S2P Require Import Prelude Syntax Utf8 TextOps Float64 Mir Interp Exec Machine Eval Invariant LowerState LowerWp.

Open Scope nat_scope.

(** From some depth on *)
Definition eventually (P : nat -> Prop) : Prop := exists n, forall m, n <= m -> P m.

Lemma eventually_and (P Q : nat -> Prop) :
  eventually P -> eventually Q -> eventually (fun n => P n /\ Q n).
Proof. intros [n Hn] [m Hm]. exists (n + m). intros k ?. split; [apply Hn|apply Hm]; lia. Qed.

Lemma eventually_S (P : nat -> Prop) : eventually (fun n => P (S n)) -> eventually P.
Proof. intros [n Hn]. exists (S n). intros [|m] ?; [lia|]. apply Hn. lia. Qed.

Lemma eventually_succ (P : nat -> Prop) : eventually P -> eventually (fun n => P (S n)).
Proof. intros [n Hn]. exists n. intros m ?. apply Hn. lia. Qed.

Lemma eventually_mono (P Q : nat -> Prop) : (forall n, P n -> Q n) -> eventually P -> eventually Q.
Proof. intros HPQ [n Hn]. exists n. intros m ?. by apply HPQ, Hn. Qed.

Section Rules.
Context `{Platform} (env : Env).

Definition inst_ends f args (i : Inst) (c c' : Core) : Prop :=
  eventually (fun n => exec_inst env n f args i c = EOk c').

Inductive steps f args : list Inst -> Core -> Core -> Prop :=
  | steps_nil c : steps f args [] c c
  | steps_cons i rest c c1 c2 :
      inst_ends f args i c c1 -> steps f args rest c1 c2 -> steps f args (i :: rest) c c2.

Definition repeat_ends_at f args body slot count index (c c' : Core) : Prop :=
  eventually (fun n => exec_repeat env n f args body slot count index c = EOk c').

Lemma steps_exec f args insts c c' :
  steps f args insts c c' -> eventually (fun n => exec env n f args insts c = EOk c').
Proof.
  induction 1 as [c|i rest c c1 c2 Hi _ IH]; apply eventually_S; [by exists 0|].
  eapply eventually_mono; [|exact (eventually_and _ _ Hi IH)]. intros n [H1 H2]. by rewrite exec_cons, H1.
Qed.

Lemma steps_app f args l1 l2 c c1 c2 :
  steps f args l1 c c1 -> steps f args l2 c1 c2 -> steps f args (l1 ++ l2) c c2.
Proof. induction 1 as [|i rest c c1' c2' Hi _ IH]; [done|]. intros H2. econstructor; [exact Hi|by apply IH]. Qed.

Lemma steps_one f args i c c' : inst_ends f args i c c' -> steps f args [i] c c'.
Proof. intros Hi. econstructor; [exact Hi|constructor]. Qed.

Lemma simple_ends f args i m c c' :
  simple env f args i = Some m -> m c = Ok (tt, c') -> inst_ends f args i c c'.
Proof.
  intros Hs Hm. apply eventually_S. exists 0. intros n _. by rewrite (exec_inst_simple _ _ _ _ _ _ _ Hs), Hm.
Qed.

(** [values[dest] = v] *)
Definition put (c : Core) (dest : ValueId) (v : RuntimeValue) : Core :=
  mkCore (heap c) (<[dest := v]> (values c)) (slots c).

Lemma set_value_put dest v c : dest < length (values c) -> set_value dest v c = Ok (tt, put c dest v).
Proof. intros Hd%Nat.ltb_lt. unfold set_value. by rewrite Hd. Qed.

Lemma extract_bool_at i b c : values c !! i = Some (V_Bool b) -> extract_bool i c = Ok (b, c).
Proof. intros Hi. unfold extract_bool, mbind, get_values. by rewrite Hi. Qed.

Lemma extract_int_at i z c : values c !! i = Some (V_Int z) -> extract_int i c = Ok (z, c).
Proof. intros Hi. unfold extract_int, mbind, get_values. by rewrite Hi. Qed.

Lemma if_ends f args dest cond t tr e er (b : bool) c c' :
  values c !! cond = Some (V_Bool b) -> steps f args (if b then t else e) c c' -> dest < length (values c') ->
  inst_ends f args (I_If dest cond t tr e er) c (put c' dest (result_or_unit (values c') (if b then tr else er))).
Proof.
  intros Hb Hs%steps_exec Hd. apply eventually_S. eapply eventually_mono; [|exact Hs].
  intros n Hn. rewrite exec_if, (extract_bool_at _ _ _ Hb). cbn. rewrite Hn. cbn. by rewrite (set_value_put _ _ _ Hd).
Qed.

(** One more round before a loop that ends *)
Lemma loop_round f args dest ci cond body c c1 c2 c' :
  steps f args ci c c1 -> values c1 !! cond = Some (V_Bool true) -> steps f args body c1 c2 ->
  inst_ends f args (I_While dest ci cond body) c2 c' -> inst_ends f args (I_While dest ci cond body) c c'.
Proof.
  intros H1%steps_exec Hb H2%steps_exec H3. do 2 apply eventually_S.
  eapply eventually_mono; [|exact (eventually_and _ _ H1 (eventually_and _ _ H2 (eventually_succ _ H3)))].
  intros n (E1 & E2 & E3). rewrite exec_loop in E3 |- *. rewrite exec_while_S, E1. cbn [seq_eval].
  rewrite (extract_bool_at _ _ _ Hb). cbn [eval_then]. rewrite E2. exact E3.
Qed.

Lemma loop_done f args dest ci cond body c c1 :
  steps f args ci c c1 -> values c1 !! cond = Some (V_Bool false) -> dest < length (values c1) ->
  inst_ends f args (I_While dest ci cond body) c (put c1 dest V_Unit).
Proof.
  intros H1%steps_exec Hb Hd. do 2 apply eventually_S. eapply eventually_mono; [|exact H1].
  intros n E1. rewrite exec_loop, exec_while_S, E1. cbn [seq_eval]. rewrite (extract_bool_at _ _ _ Hb).
  cbn. by rewrite (set_value_put _ _ _ Hd).
Qed.

Lemma repeat_done f args body slot count index c :
  (count <= index)%Z -> repeat_ends_at f args body slot count index c c.
Proof. intros Hle. apply eventually_S. exists 0. intros n _. rewrite exec_repeat_S. by rewrite (proj2 (Z.ltb_ge _ _) Hle). Qed.

Lemma repeat_round f args body slot count index c c1 c2 c' :
  (index < count)%Z -> set_optional_slot slot (V_Int index) c = Ok (tt, c1) -> steps f args body c1 c2 ->
  repeat_ends_at f args body slot count (index + 1) c2 c' -> repeat_ends_at f args body slot count index c c'.
Proof.
  intros Hlt Hs H1%steps_exec H2. apply eventually_S. eapply eventually_mono; [|exact (eventually_and _ _ H1 H2)].
  intros n [E1 E2]. rewrite exec_repeat_S, (proj2 (Z.ltb_lt _ _) Hlt), Hs. cbn. by rewrite E1.
Qed.

Lemma repeat_inst_ends f args dest count slot body z c c' :
  values c !! count = Some (V_Int z) -> repeat_ends_at f args body slot z 0 c c' -> dest < length (values c') ->
  inst_ends f args (I_Repeat dest count slot body) c (put c' dest V_Unit).
Proof.
  intros Hz Hr Hd. apply eventually_S. eapply eventually_mono; [|exact Hr].
  intros n Hn. rewrite exec_repeat_inst, (extract_int_at _ _ _ Hz). cbn. rewrite Hn. cbn. by rewrite (set_value_put _ _ _ Hd).
Qed.

Lemma arguments_at refs vs c :
  Forall2 (fun r v => values c !! r = Some v) refs vs -> arguments refs c = Ok (vs, c).
Proof.
  unfold arguments. induction 1 as [|r v refs vs Hr _ IH]; [done|]. cbn [mmap].
  assert (E : extract_value r c = Ok (v, c)) by (unfold extract_value, mbind, get_values; by rewrite Hr).
  unfold mbind at 1. rewrite E. unfold mbind at 1. by rewrite IH.
Qed.

Lemma call_ends f args dest callee refs vs g c c1 :
  env_function env callee = Some g -> Forall2 (fun r v => values c !! r = Some v) refs vs ->
  steps g vs (fn_instructions g) (mkCore (heap c) (fresh (fn_value_count g)) (fresh (fn_slot_count g))) c1 ->
  dest < length (values c) ->
  inst_ends f args (I_Call dest callee refs) c
    (put (mkCore (heap c1) (values c) (slots c)) dest (result_or_unit (values c1) (fn_result g))).
Proof.
  intros Hg Hvs%arguments_at Hs%steps_exec Hd. apply eventually_S. eapply eventually_mono; [|exact Hs].
  intros n Hn. rewrite exec_call, Hg. cbn. unfold mbind at 1. rewrite Hvs. cbn. rewrite Hn. cbn.
  unfold mbind, put_frame. by rewrite set_value_put.
Qed.
End Rules.

(** * Lowering to the MIR: what the new instructions do

    [triple]: in a frame with room for them, instructions run to their end from
    cores with [P] to cores with [Q], and leave alone the values that were there
    before they were made.  [sim] is what a method of the lowerer does to its
    state together with what the instructions it adds do when they run. *)

(** ** Frames *)

Record mono (st st' : LowerState) : Prop := {
  mono_values : next_value st <= next_value st';
  mono_slots : next_slot st <= next_slot st'
}.

Lemma mono_refl st : mono st st.
Proof. by split. Qed.

Lemma mono_trans st1 st2 st3 : mono st1 st2 -> mono st2 st3 -> mono st1 st3.
Proof. intros [] []. split; lia. Qed.

Definition room (st : LowerState) (c : Core) : Prop :=
  next_value st <= length (values c) /\ next_slot st <= length (slots c).

(** The values [st] knows are the same, so is the heap. *)
Record frame (st : LowerState) (c c' : Core) : Prop := {
  frame_values (i : ValueId) : i < next_value st -> values c' !! i = values c !! i;
  frame_value_count : length (values c') = length (values c);
  frame_slot_count : length (slots c') = length (slots c);
  frame_heap : heap c' = heap c
}.

Lemma frame_refl st c : frame st c c.
Proof. by split. Qed.

Lemma frame_trans st st1 c c1 c2 : mono st st1 -> frame st c c1 -> frame st1 c1 c2 -> frame st c c2.
Proof.
  intros [Hv _] [H1 H2 H3 H4] [H5 H6 H7 H8]. split; try congruence. intros i Hi. rewrite H5 by lia. by apply H1.
Qed.

Lemma frame_room st st' c c' : room st' c -> frame st c c' -> room st' c'.
Proof. intros [] []. split; congruence. Qed.

Lemma room_mono st st' c : mono st st' -> room st' c -> room st c.
Proof. intros [] []. split; lia. Qed.

Lemma frame_put st c (d : ValueId) v : next_value st <= d -> frame st c (put c d v).
Proof.
  intros Hd. split; cbn; [|by rewrite length_insert|done|done]. intros i Hi. apply list_lookup_insert_ne. lia.
Qed.

Lemma frame_slot st c (s : LocalSlotId) v : frame st c (mkCore (heap c) (values c) (<[s := v]> (slots c))).
Proof. split; cbn; try done. by rewrite length_insert. Qed.

Lemma put_at c (d : ValueId) v : d < length (values c) -> values (put c d v) !! d = Some v.
Proof. intros Hd. cbn. by apply list_lookup_insert_eq. Qed.

(** ** Triples *)

Section Triples.
Context `{Platform} (env : Env) (f : Mir.Function) (args : list RuntimeValue).

Definition triple (st st' : LowerState) (new : list Inst) (P Q : Core -> Prop) : Prop :=
  forall c, room st' c -> P c -> exists c', steps env f args new c c' /\ Q c' /\ frame st c c'.

Lemma triple_app st st1 st2 l1 l2 P Q R :
  mono st st1 -> mono st1 st2 -> triple st st1 l1 P Q -> triple st1 st2 l2 Q R -> triple st st2 (l1 ++ l2) P R.
Proof.
  intros M1 M2 H1 H2 c Hc HP. destruct (H1 c (room_mono _ _ _ M2 Hc) HP) as (c1 & S1 & Q1 & F1).
  destruct (H2 c1 (frame_room _ _ _ _ Hc F1) Q1) as (c2 & S2 & Q2 & F2). exists c2.
  split; [by eapply steps_app|]. split; [done|]. exact (frame_trans _ _ _ _ _ M1 F1 F2).
Qed.

Lemma triple_weaken st st' new P P' Q Q' :
  (forall c, P' c -> P c) -> (forall c, Q c -> Q' c) -> triple st st' new P Q -> triple st st' new P' Q'.
Proof. intros HP HQ Ht c Hc Pc. destruct (Ht c Hc (HP _ Pc)) as (c' & ? & ? & ?). eauto. Qed.

(** From states further outside *)
Lemma triple_mono st0 st st' st1 new P Q :
  mono st0 st -> mono st' st1 -> triple st st' new P Q -> triple st0 st1 new P Q.
Proof.
  intros M1 M2 Ht c Hc HP. destruct (Ht c (room_mono _ _ _ M2 Hc) HP) as (c' & ? & ? & Hf). exists c'.
  split; [done|]. split; [done|]. exact (frame_trans _ _ _ _ _ M1 (frame_refl _ _) Hf).
Qed.

(** What [P] says of known values stays. *)
Lemma triple_holds st st' new P Q (d : ValueId) v :
  d < next_value st -> triple st st' new P Q ->
  triple st st' new (fun c => P c /\ values c !! d = Some v) (fun c => Q c /\ values c !! d = Some v).
Proof.
  intros Hd Ht c Hc [HP Hv]. destruct (Ht c Hc HP) as (c' & ? & ? & Hf). exists c'. split; [done|]. split; [|done].
  split; [done|]. by rewrite (frame_values _ _ _ Hf).
Qed.

(** ** Methods *)

Section Sim.
Context {A B : Type}.

(** The method ends with [S], and what it adds runs from [P] to [Q]; values are
    left alone that [st0] knows. *)
Definition sim_from (st0 : LowerState) (m : L A) (st : LowerState) (P : Core -> Prop) (S : A -> LowerState -> Prop)
    (Q : A -> Core -> Prop) : Prop :=
  runs m st (fun a st' new => mono st st' /\ S a st' /\ triple st0 st' new P (Q a)).

Definition sim (m : L A) (st : LowerState) := sim_from st m st.
End Sim.

Lemma sim_sim_from {A} st0 (m : L A) st P S Q : mono st0 st -> sim m st P S Q -> sim_from st0 m st P S Q.
Proof.
  intros M Hm. eapply runs_mono; [exact Hm|]. intros a st' new (M' & HS & T). split; [done|]. split; [done|].
  eapply triple_mono; [exact M|apply mono_refl|exact T].
Qed.

Lemma sim_from_bind {A B} st0 (m : L B) (k : B -> L A) st P S1 R S2 Q :
  sim_from st0 m st P S1 R -> (forall b st1, mono st st1 -> S1 b st1 -> sim_from st0 (k b) st1 (R b) S2 Q) ->
  sim_from st0 (l_bind m k) st P S2 Q.
Proof.
  intros Hm Hk. apply runs_bind. eapply runs_mono; [exact Hm|]. intros b st1 n1 (M1 & HS & T1).
  eapply runs_mono; [by apply Hk|]. intros a st2 n2 (M2 & HS2 & T2).
  split; [by eapply mono_trans|]. split; [done|]. intros c Hc HP.
  destruct (T1 c (room_mono _ _ _ M2 Hc) HP) as (c1 & ? & Q1 & F1).
  destruct (T2 c1 (frame_room _ _ _ _ Hc F1) Q1) as (c2 & ? & Q2 & F2). exists c2.
  split; [by eapply steps_app|]. split; [done|]. exact (frame_trans _ _ _ _ _ (mono_refl _) F1 F2).
Qed.

Lemma sim_ret {A} st0 (a : A) st P (S : A -> LowerState -> Prop) Q :
  S a st -> (forall c, P c -> Q a c) -> sim_from st0 (l_ret a) st P S Q.
Proof.
  intros HS HQ. apply runs_ret. split; [apply mono_refl|]. split; [done|]. intros c _ Pc. exists c.
  split; [constructor|]. split; [by apply HQ|apply frame_refl].
Qed.

(** The second method knows more values. *)
Lemma sim_bind {A B} (m : L B) (k : B -> L A) st P S1 R S2 Q :
  sim m st P S1 R -> (forall b st1, mono st st1 -> S1 b st1 -> sim (k b) st1 (R b) S2 Q) ->
  sim (l_bind m k) st P S2 Q.
Proof.
  intros Hm Hk. apply runs_bind. eapply runs_mono; [exact Hm|]. intros b st1 n1 (M1 & HS & T1).
  eapply runs_mono; [by apply Hk|]. intros a st2 n2 (M2 & HS2 & T2).
  split; [by eapply mono_trans|]. split; [done|]. by eapply triple_app.
Qed.

Lemma sim_gets {A B} st0 (g : LowerState -> B) (k : B -> L A) st P S Q :
  sim_from st0 (k (g st)) st P S Q -> sim_from st0 (l_bind (l_gets g) k) st P S Q.
Proof. intros Hk. apply runs_bind, runs_gets. exact Hk. Qed.

Lemma sim_bind_ret {A B} st0 (b : B) (k : B -> L A) st P S Q :
  sim_from st0 (k b) st P S Q -> sim_from st0 (l_bind (l_ret b) k) st P S Q.
Proof. exact id. Qed.

Lemma sim_modify {A} st0 (g : LowerState -> LowerState) (k : unit -> L A) st P S Q :
  instructions (g st) = instructions st -> next_value (g st) = next_value st -> next_slot (g st) = next_slot st ->
  sim_from st0 (k tt) (g st) P S Q -> sim_from st0 (l_bind (l_modify g) k) st P S Q.
Proof.
  intros Hi Hv Hs Hk. apply runs_bind, runs_modify; [done|]. eapply runs_mono; [exact Hk|].
  intros a st' new ([M1 M2] & HS & T). split; [split; lia|]. by split.
Qed.

Lemma sim_modify_last st0 (g : LowerState -> LowerState) st P (S : unit -> LowerState -> Prop) Q :
  instructions (g st) = instructions st -> next_value (g st) = next_value st -> next_slot (g st) = next_slot st ->
  S tt (g st) -> (forall c, P c -> Q tt c) -> sim_from st0 (l_modify g) st P S Q.
Proof.
  intros Hi Hv Hs HS HQ. apply runs_modify; [done|]. split; [split; lia|]. split; [done|]. intros c _ HP.
  exists c. split; [constructor|]. split; [by apply HQ|apply frame_refl].
Qed.

(** The destination is not known before. *)
Lemma sim_fresh {A} st0 (k : ValueId -> L A) st P S Q :
  sim_from st0 (k (next_value st)) (set_next_value (Datatypes.S (next_value st)) st) P S Q ->
  sim_from st0 (l_bind fresh_value k) st P S Q.
Proof.
  intros Hk. apply runs_bind, runs_fresh_value. eapply runs_mono; [exact Hk|].
  intros a st' new ([M1 M2] & HS & T). cbn in *. split; [split; lia|]. by split.
Qed.

Lemma sim_run_weaken {A} st0 (m : L A) st P P' (S S' : A -> LowerState -> Prop) (Q Q' : A -> Core -> Prop) :
  sim_from st0 m st P S Q -> (forall c, P' c -> P c) -> (forall a st', mono st st' -> S a st' -> S' a st') ->
  (forall a c, Q a c -> Q' a c) -> sim_from st0 m st P' S' Q'.
Proof.
  intros Hm HP HS HQ. eapply runs_mono; [exact Hm|]. intros a st' new (M & H1 & T). split; [done|].
  split; [by apply HS|]. by eapply triple_weaken; [| |exact T]; [|apply HQ].
Qed.

(** A value there was stays. *)
Lemma sim_holds {A} (m : L A) st P S Q (d : ValueId) v :
  d < next_value st -> sim m st P S Q ->
  sim m st (fun c => P c /\ values c !! d = Some v) S (fun a c => Q a c /\ values c !! d = Some v).
Proof.
  intros Hd Hm. eapply runs_mono; [exact Hm|]. intros a st' new (M & HS & T). split; [done|]. split; [done|].
  by apply triple_holds.
Qed.

(** ** Emitting *)

(** One instruction that ends, in a frame that has room *)
Lemma sim_emit st0 i st P (S : unit -> LowerState -> Prop) Q :
  S tt (set_instructions (instructions st ++ [i]) st) ->
  (forall c, P c -> room st c -> exists c', inst_ends env f args i c c' /\ Q tt c' /\ frame st0 c c') ->
  sim_from st0 (emit i) st P S Q.
Proof.
  intros HS Hi. apply runs_emit. split; [by split|]. split; [done|]. intros c Hc HP.
  destruct (Hi c HP Hc) as (c' & ? & ? & ?). exists c'. split; [by apply steps_one|done].
Qed.

(** Instructions that were kept aside *)
Lemma sim_extend st0 l st P (S : unit -> LowerState -> Prop) Q :
  S tt (set_instructions (instructions st ++ l) st) -> triple st0 st l P (Q tt) -> sim_from st0 (extend l) st P S Q.
Proof. intros HS HT. apply runs_extend. split; [by split|]. split; [done|]. intros c Hc HP. by apply HT. Qed.

(** A fresh destination and the instruction that writes it *)
Lemma sim_emit_value st0 inst st P (S : ValueId -> LowerState -> Prop) (Q : ValueId -> Core -> Prop) :
  (forall st', next_value st' = Datatypes.S (next_value st) -> next_slot st' = next_slot st ->
     locals st' = locals st ->
     local_types st' = local_types st /\ trusted_repeat_bounds st' = trusted_repeat_bounds st -> S (next_value st) st') ->
  (forall c, P c -> next_value st < length (values c) -> next_slot st <= length (slots c) ->
     exists c', inst_ends env f args (inst (next_value st)) c c' /\ Q (next_value st) c' /\ frame st0 c c') ->
  sim_from st0 (emit_value inst) st P S Q.
Proof.
  intros HS Hi. unfold emit_value. apply runs_bind, runs_fresh_value, runs_bind, runs_emit, runs_ret.
  split; [split; cbn; lia|]. split; [by apply HS|]. intros c [Hv Hs] HP. cbn in Hv.
  destruct (Hi c HP Hv Hs) as (c' & ? & ? & ?). exists c'. split; [by apply steps_one|done].
Qed.

(** A simple instruction that stores [v c] *)
Lemma sim_store inst (v : RuntimeValue) st P (S : ValueId -> LowerState -> Prop) (Q : ValueId -> Core -> Prop) :
  (forall st', next_value st' = Datatypes.S (next_value st) -> next_slot st' = next_slot st ->
     locals st' = locals st ->
     local_types st' = local_types st /\ trusted_repeat_bounds st' = trusted_repeat_bounds st -> S (next_value st) st') ->
  (forall c d, P c -> d < length (values c) -> inst_ends env f args (inst d) c (put c d v)) ->
  (forall c d, P c -> next_value st <= d -> d < length (values c) -> Q d (put c d v)) ->
  sim (emit_value inst) st P S Q.
Proof.
  intros HS Hi HQ. apply sim_emit_value; [done|]. intros c HP Hv _. exists (put c (next_value st) v).
  split; [by apply Hi|]. split; [by apply HQ|]. by apply frame_put.
Qed.

(** ** Lists of instructions that are kept aside *)

(** Nothing is added; [insts] of the result is a list that runs from [P] to [R]. *)
Definition captured {A} (insts : A -> list Inst) (m : L A) st (P : Core -> Prop) (S : A -> LowerState -> Prop)
    (R : A -> Core -> Prop) : Prop :=
  runs m st (fun a st' new => new = [] /\ mono st st' /\ S a st' /\ triple st st' (insts a) P (R a)).

Lemma captured_bind {A B} st0 insts (m : L B) (k : B -> L A) st P P' S1 R S2 Q :
  captured insts m st P S1 R ->
  (forall b st1, mono st st1 -> S1 b st1 -> triple st st1 (insts b) P (R b) -> sim_from st0 (k b) st1 P' S2 Q) ->
  sim_from st0 (l_bind m k) st P' S2 Q.
Proof.
  intros Hm Hk. apply runs_bind. eapply runs_mono; [exact Hm|]. intros b st1 n1 (-> & M1 & HS & T1).
  eapply runs_mono; [by apply Hk|]. intros a st2 n2 (M2 & HS2 & T2). split; [by eapply mono_trans|]. by split.
Qed.

Lemma captured_then {A B} insts insts' (m : L B) (k : B -> L A) st P S1 R (S2 : A -> LowerState -> Prop) Q :
  captured insts m st P S1 R ->
  (forall b st1, mono st st1 -> S1 b st1 -> triple st st1 (insts b) P (R b) ->
     runs (k b) st1 (fun a st2 new => new = [] /\ mono st1 st2 /\ S2 a st2 /\ triple st st2 (insts' a) P (Q a))) ->
  captured insts' (l_bind m k) st P S2 Q.
Proof.
  intros Hm Hk. apply runs_bind. eapply runs_mono; [exact Hm|]. intros b st1 n1 (-> & M1 & HS & T1).
  eapply runs_mono; [by apply Hk|]. intros a st2 n2 (-> & M2 & HS2 & T2). split; [done|].
  split; [by eapply mono_trans|]. by split.
Qed.

Lemma captured_modify {A} insts (g : LowerState -> LowerState) (k : unit -> L A) st P S Q :
  instructions (g st) = instructions st -> next_value (g st) = next_value st -> next_slot (g st) = next_slot st ->
  captured insts (k tt) (g st) P S Q -> captured insts (l_bind (l_modify g) k) st P S Q.
Proof.
  intros Hi Hv Hs Hk. apply runs_bind, runs_modify; [done|]. eapply runs_mono; [exact Hk|].
  intros a st' new (-> & [M1 M2] & HS & T). split; [done|]. split; [split; lia|]. split; [done|].
  eapply triple_mono; [| |exact T]; [split; lia|apply mono_refl].
Qed.

Lemma captured_capture {A} (m : L A) st P S R :
  sim m (set_instructions [] st) P (fun a st' => S a (set_instructions (instructions st) st')) R ->
  captured fst (capture m) st P (fun r => S r.2) (fun r => R r.2).
Proof.
  intros Hm. apply runs_capture. eapply runs_mono; [exact Hm|]. intros a st' new ([M1 M2] & HS & T). cbn in *.
  split; [done|]. split; [by split|]. split; [done|]. intros c Hc HP.
  destruct (T c Hc HP) as (c' & ? & ? & [F1 F2 F3 F4]). exists c'. by split_and!.
Qed.

(** The scope is that of before, and names that were new. *)
Lemma captured_nested_scope {A} (m : L A) st P (S : A -> LowerState -> Prop) R :
  sim m (set_instructions [] st) P
    (fun a st' => forall st2, next_value st2 = next_value st' -> next_slot st2 = next_slot st' ->
       locals st ⊆ locals st2 ->
       local_types st ⊆ local_types st2 /\ trusted_repeat_bounds st2 = trusted_repeat_bounds st -> S a st2) R ->
  captured fst (nested_scope m) st P (fun r => S r.2) (fun r => R r.2).
Proof.
  intros Hm. unfold nested_scope. do 3 apply runs_bind, runs_gets. apply runs_bind.
  eapply runs_mono; [apply (captured_capture m st P (fun a st' => forall st2, next_value st2 = next_value st' ->
       next_slot st2 = next_slot st' -> locals st ⊆ locals st2 ->
       local_types st ⊆ local_types st2 /\ trusted_repeat_bounds st2 = trusted_repeat_bounds st -> S a st2) R);
    by eapply sim_run_weaken; [exact Hm| |intros a st' _ HS|]|].
  intros [insts a] st1 n1 (-> & M1 & HS & T). apply runs_bind, runs_modify; [done|].
  apply runs_bind, runs_modify; [done|]. apply runs_ret. split; [done|]. split; [split; apply M1|]. split.
  - apply HS; cbn; try done; [|split; [|done]]; apply map_union_subseteq_l.
  - intros c Hc HP. by apply T.
Qed.
End Triples.

(** ** One run, several facts *)

Lemma runs_all {A X} (m : L A) st (Q : X -> A -> LowerState -> list Inst -> Prop) Q0 :
  runs m st Q0 -> (forall x, runs m st (Q x)) ->
  runs m st (fun a st' new => Q0 a st' new /\ forall x, Q x a st' new).
Proof.
  unfold runs. destruct (m st) as [a st'| | |]; [|done..]. intros (new & Hn & H0) Hall. exists new.
  split; [done|]. split; [done|]. intros x. destruct (Hall x) as (new' & Hn' & HQ).
  rewrite Hn in Hn'. by apply app_inv_head in Hn' as ->.
Qed.

Lemma runs_and {A} (m : L A) st Q1 Q2 :
  runs m st Q1 -> runs m st Q2 -> runs m st (fun a st' new => Q1 a st' new /\ Q2 a st' new).
Proof.
  intros H1 H2. eapply runs_mono; [apply (runs_all m st (fun _ : unit => Q2) Q1 H1); by intros|].
  intros a st' new [? HQ]. split; [done|exact (HQ tt)].
Qed.
