(* ===== verification/LowerFragment.v ===== *)
(** * Lowering to the MIR: a typed fragment

    The scalar language: literals, locals, operators, [if], [while], [repeat],
    calls of functions, [let], [let mut] and assignments to locals.
    [expr_type], [body_type] and [function_ok] check that an expression, a body
    and a function are in it and give their types.  What lowering infers about
    a typed expression is its type ([infer_typed]).  The restrictions of the
    fragment, of which [typed_module] makes a condition on modules:
    - a [repeat] is not counted by a bare name that lowering may take for a
      number it knows: that of a constant of the module, or of an index of a
      [repeat] of the function;
    - the tail of the first branch of an [if] has, outside of the branch, the type
      that it has inside, since there lowering takes the type of the [if] from;
    - no operator has two literals of floats for operands, which are folded;
    - literals of floats keep their bits;
    - the value of a [let] is not [Unit], unless it is dropped. *)
From stdpp Require Import gmap pretty.
From S2P Require Import ConstEval ConstState ConstFold LowerTypes LowerBuiltins LowerMatch LowerArrays Lower Prelude Syntax Utf8.
From S2P Require Import TextOps Float64 Mir Interp Exec Machine Hir SemType ConstLexical LowerState LowerOps LowerExec.

Open Scope nat_scope.

(** ** Types *)

Definition scalar (ty : LowerType) : bool :=
  match ty with LT_I32 | LT_F64 | LT_Bool | LT_Text => true | _ => false end.

Definition numeric (ty : LowerType) : bool := match ty with LT_I32 | LT_F64 => true | _ => false end.

Definition has_type (ty : LowerType) (v : RuntimeValue) : bool :=
  match ty, v with
  | LT_I32, V_Int _ | LT_F64, V_F64 _ | LT_Bool, V_Bool _ | LT_Text, V_Text _ | LT_Unit, V_Unit => true
  | _, _ => false
  end.

(** For the type of both operands, the type of the result *)
Definition operator_type (op : BinaryOp) (ty : LowerType) : option LowerType :=
  match op with
  | B_Add => if scalar ty && negb (bool_decide (ty = LT_Bool)) then Some ty else None
  | B_Sub | B_Mul | B_Div => if numeric ty then Some ty else None
  | B_Rem | B_BitAnd | B_BitOr | B_BitXor | B_Shl | B_Shr => if bool_decide (ty = LT_I32) then Some ty else None
  | B_And | B_Or => if bool_decide (ty = LT_Bool) then Some LT_Bool else None
  | B_Eq | B_Ne => if scalar ty then Some LT_Bool else None
  | B_Lt | B_Le | B_Gt | B_Ge => if numeric ty then Some LT_Bool else None
  end.

(** Locals, innermost first: whether they are mutable, and their types *)
Definition Locals : Type := list (string * (bool * LowerType)).

Fixpoint local_find {A} (name : string) (l : list (string * A)) : option A :=
  match l with
  | [] => None
  | (n, a) :: l' => if String.eqb n name then Some a else local_find name l'
  end.

Definition type_of_ref (ty : TypeRef) : LowerType := from_type_name ∅ (Hir.path ty).

Definition return_type (f : Hir.Function) : LowerType :=
  match Hir.fn_return_type f with Some ty => type_of_ref ty | None => LT_Unit end.

#[export] Instance f64_EqDecision : EqDecision f64.
Proof. unfold f64. solve_decision. Defined.

(** A float that keeps its bits *)
Definition exact_float (x : f64) : bool := bool_decide (f64_from_bits (f64_to_bits x) = x).

Definition guard_type (b : bool) (ty : LowerType) : option LowerType := if b then Some ty else None.

Definition float_literals (l r : Expr) : bool :=
  match l, r with E_Float _ _, E_Float _ _ => true | _, _ => false end.

(** The names that lowering may take for numbers: the constants of the module and
    the indexes of the function's own [repeat]s *)
Class KnownNames := { known_names : gset string }.

(** The indexes of [repeat]s in the forms of the fragment *)
Fixpoint expr_indexes (e : Expr) : list string :=
  match e with
  | E_Group inner _ | E_Unary _ inner _ => expr_indexes inner
  | E_Binary _ l r _ => expr_indexes l ++ expr_indexes r
  | E_Call _ args _ => flat_map expr_indexes args
  | E_If condition then_body else_body _ =>
      expr_indexes condition ++ body_indexes then_body ++ body_indexes else_body
  | E_While condition body _ => expr_indexes condition ++ body_indexes body
  | E_Repeat binding count body _ =>
      match binding with Some name => [name] | None => [] end ++ expr_indexes count ++ body_indexes body
  | _ => []
  end
with body_indexes (b : Body) : list string :=
  let 'mkBody statements tail _ := b in
  flat_map stmt_indexes statements ++ match tail with Some e => expr_indexes e | None => [] end
with stmt_indexes (s : Stmt) : list string :=
  match s with S_Let _ _ value _ | S_Assign _ value _ | S_Expr value _ => expr_indexes value | _ => [] end.

Definition known_of (consts : gset string) (f : Hir.Function) : gset string :=
  consts ∪ match fn_body f with Some body => list_to_set (body_indexes body) | None => ∅ end.

Section Typing.
Context `{KN : KnownNames} (functions : gmap string Hir.Function).

(** Lowering does not take the count for a number that it knows. *)
Definition plain_count (count : Expr) : bool :=
  match count with E_Name name _ => bool_decide (name ∉ known_names) | _ => true end.

Definition index_known (binding : option string) : bool :=
  match binding with Some name => bool_decide (name ∈ known_names) | None => true end.

(** The branches of [if] have one type, and the tail of the first has it outside
    of the branch: its type is what lowering takes. *)
Fixpoint expr_type (locals : Locals) (e : Expr) {struct e} : option LowerType :=
  match e with
  | E_Integer _ _ => Some LT_I32
  | E_Float x _ => guard_type (exact_float x) LT_F64
  | E_String _ _ _ => Some LT_Text
  | E_Bool _ _ => Some LT_Bool
  | E_Name name _ => snd <$> local_find name locals
  | E_Group inner _ => expr_type locals inner
  | E_Unary U_Not inner _ =>
      ty ← expr_type locals inner; guard_type (bool_decide (ty = LT_Bool)) LT_Bool
  | E_Binary op l r _ =>
      lt ← expr_type locals l;
      rt ← expr_type locals r;
      if bool_decide (lt = rt) && negb (float_literals l r) then operator_type op lt else None
  | E_Call callee args _ =>
      f ← functions !! callee;
      tys ← (fix types l := match l with
                            | [] => Some []
                            | a :: l' => ty ← expr_type locals a; tys ← types l'; Some (ty :: tys)
                            end) args;
      match split_enum_variant_path callee with
      | Some _ => None
      | None =>
          guard_type (bool_decide (tys = map (fun p => type_of_ref (Hir.param_ty p)) (Hir.fn_params f)))
            (return_type f)
      end
  | E_If condition then_body else_body _ =>
      ct ← expr_type locals condition;
      tt ← body_type locals then_body;
      et ← body_type locals else_body;
      outer ← match then_body with
              | mkBody _ (Some tail) _ => expr_type locals tail
              | mkBody _ None _ => Some LT_Unit
              end;
      guard_type (bool_decide (ct = LT_Bool) && bool_decide (et = tt) && bool_decide (outer = tt)) tt
  | E_While condition body _ =>
      ct ← expr_type locals condition;
      _ ← body_type locals body;
      guard_type (bool_decide (ct = LT_Bool)) LT_Unit
  | E_Repeat binding count body _ =>
      ct ← expr_type locals count;
      _ ← body_type (match binding with Some name => (name, (false, LT_I32)) :: locals | None => locals end) body;
      guard_type (bool_decide (ct = LT_I32) && plain_count count && index_known binding) LT_Unit
  | _ => None
  end
with body_type (locals : Locals) (b : Body) {struct b} : option LowerType :=
  match b with
  | mkBody statements tail _ =>
      (fix from (locals : Locals) (l : list Stmt) {struct l} : option LowerType :=
         match l with
         | [] => match tail with Some e => expr_type locals e | None => Some LT_Unit end
         | s :: l' => locals' ← stmt_type locals s; from locals' l'
         end) locals statements
  end
(** The locals after the statement *)
with stmt_type (locals : Locals) (s : Stmt) {struct s} : option Locals :=
  match s with
  | S_Let mutable name value _ =>
      ty ← expr_type locals value;
      if String.eqb name "_" then Some locals
      else if scalar ty then Some ((name, (mutable, ty)) :: locals) else None
  | S_Assign (E_Name name _) value _ =>
      ty ← expr_type locals value;
      match local_find name locals with
      | Some (true, ty') => if bool_decide (ty = ty') then Some locals else None
      | _ => None
      end
  | S_Expr e _ => _ ← expr_type locals e; Some locals
  | _ => None
  end.

Fixpoint args_type (locals : Locals) (l : list Expr) : option (list LowerType) :=
  match l with
  | [] => Some []
  | a :: l' => ty ← expr_type locals a; tys ← args_type locals l'; Some (ty :: tys)
  end.

Fixpoint stmts_type (locals : Locals) (l : list Stmt) : option Locals :=
  match l with
  | [] => Some locals
  | s :: l' => locals' ← stmt_type locals s; stmts_type locals' l'
  end.

Definition tail_type (locals : Locals) (tail : option Expr) : option LowerType :=
  match tail with Some e => expr_type locals e | None => Some LT_Unit end.

(** The locals of a function at its start: the last parameter is the innermost. *)
Definition param_locals (f : Hir.Function) : Locals :=
  rev (map (fun p => (Hir.param_name p, (false, type_of_ref (Hir.param_ty p)))) (Hir.fn_params f)).

(** ** Equations *)

Lemma expr_type_call locals callee args span :
  expr_type locals (E_Call callee args span) =
  (f ← functions !! callee;
   tys ← args_type locals args;
   match split_enum_variant_path callee with
   | Some _ => None
   | None =>
       guard_type (bool_decide (tys = map (fun p => type_of_ref (Hir.param_ty p)) (Hir.fn_params f))) (return_type f)
   end).
Proof.
  enough (E : (fix types l := match l with
                              | [] => Some []
                              | a :: l' => ty ← expr_type locals a; tys ← types l'; Some (ty :: tys)
                              end) args = args_type locals args) by (cbn [expr_type]; by rewrite E).
  induction args as [|a args IH]; [done|]. cbn [args_type]. by rewrite IH.
Qed.

Lemma body_type_stmts locals statements tail span :
  body_type locals (mkBody statements tail span) =
  (locals' ← stmts_type locals statements; tail_type locals' tail).
Proof.
  cbn [body_type]. revert locals. induction statements as [|s l IH]; intros locals; [done|].
  cbn [stmts_type]. destruct (stmt_type locals s) as [locals'|]; [|done]. cbn. apply IH.
Qed.

Lemma expr_type_if locals condition then_body else_body span :
  expr_type locals (E_If condition then_body else_body span) =
  (ct ← expr_type locals condition;
   tt ← body_type locals then_body;
   et ← body_type locals else_body;
   outer ← match then_body with
           | mkBody _ (Some tail) _ => expr_type locals tail
           | mkBody _ None _ => Some LT_Unit
           end;
   guard_type (bool_decide (ct = LT_Bool) && bool_decide (et = tt) && bool_decide (outer = tt)) tt).
Proof. done. Qed.

Lemma expr_type_while locals condition body span :
  expr_type locals (E_While condition body span) =
  (ct ← expr_type locals condition;
   _ ← body_type locals body;
   guard_type (bool_decide (ct = LT_Bool)) LT_Unit).
Proof. done. Qed.

Lemma expr_type_repeat locals binding count body span :
  expr_type locals (E_Repeat binding count body span) =
  (ct ← expr_type locals count;
   _ ← body_type (match binding with Some name => (name, (false, LT_I32)) :: locals | None => locals end) body;
   guard_type (bool_decide (ct = LT_I32) && plain_count count && index_known binding) LT_Unit).
Proof. done. Qed.

Lemma stmt_type_eq locals s :
  stmt_type locals s =
  match s with
  | S_Let mutable name value _ =>
      ty ← expr_type locals value;
      if String.eqb name "_" then Some locals
      else if scalar ty then Some ((name, (mutable, ty)) :: locals) else None
  | S_Assign (E_Name name _) value _ =>
      ty ← expr_type locals value;
      match local_find name locals with
      | Some (true, ty') => if bool_decide (ty = ty') then Some locals else None
      | _ => None
      end
  | S_Expr e _ => _ ← expr_type locals e; Some locals
  | _ => None
  end.
Proof. by destruct s. Qed.

(** ** What lowering infers *)

Lemma operator_lower_type op ty ty' : operator_type op ty = Some ty' -> binary_lower_type op ty ty = ty'.
Proof.
  unfold operator_type, scalar, numeric.
  destruct op, ty; cbn; try done; try (intros [= <-]; done); repeat case_bool_decide; try done; by intros [= <-].
Qed.

Context (prog : LowerProgram) (cx : FnContext).
Context (Hreturns : forall name f, functions !! name = Some f ->
  lp_function_returns prog !! name = Some (match Hir.fn_return_type f with Some ty => Hir.path ty | None => "Unit"%string end)).
Context (Hsubst : cx_substitutions cx = ∅).
Context (local_types : gmap string LowerType).

Lemma split_constructor callee : split_enum_variant_path callee = None -> enum_constructor_for_call prog callee = None.
Proof. unfold enum_constructor_for_call. by intros ->. Qed.

Lemma infer_typed e locals ty :
  (forall name m t, local_find name locals = Some (m, t) -> local_types !! name = Some t) ->
  expr_type locals e = Some ty -> infer_expr_type prog cx local_types e = ty.
Proof.
  intros Hlocals. revert e ty.
  apply (expr_tree_ind (fun e => forall ty, expr_type locals e = Some ty -> infer_expr_type prog cx local_types e = ty)
           (fun b => forall ty, tail_type locals (body_tail b) = Some ty -> infer_body_type prog cx local_types b = ty)).
  - intros e He Hb ty Hty. destruct e; try discriminate Hty.
    + by injection Hty.
    + cbn in Hty. unfold guard_type in Hty. destruct (exact_float _); [by injection Hty|done].
    + by injection Hty.
    + by injection Hty.
    + cbn in Hty |- *. destruct (local_find name locals) as [[m t]|] eqn:E; [|done]. injection Hty as <-.
      by rewrite (Hlocals _ _ _ E).
    + rewrite expr_type_call in Hty. destruct (functions !! callee) as [f|] eqn:Hf; [|done]. cbn in Hty.
      destruct (args_type locals args) as [tys|]; [|done]. cbn in Hty.
      destruct (split_enum_variant_path callee) eqn:Hs; [done|].
      unfold guard_type in Hty. case_bool_decide; [|done]. injection Hty as <-.
      pose proof (Hreturns _ _ Hf) as Hr. cbn [infer_expr_type]. unfold builtin_call_lower_type, builtin_is_available.
      rewrite Hr, (split_constructor _ Hs), Hsubst. unfold return_type, type_of_ref.
      by destruct (Hir.fn_return_type f).
    + cbn [expr_type] in Hty. destruct (expr_type locals e) as [ct|]; [|done].
      destruct (body_type locals then_body) as [tt|]; [|done]. destruct (body_type locals else_body) as [et|]; [|done].
      cbn in Hty. destruct (match then_body with mkBody _ _ _ => _ end) as [outer|] eqn:Ho; [|done]. cbn in Hty.
      unfold guard_type in Hty. destruct (_ && _) eqn:Hc; [|done]. injection Hty as <-.
      apply andb_true_iff in Hc as [_ Hc%bool_decide_eq_true]. subst outer. cbn.
      inversion Hb as [|? ? Hthen _]. apply Hthen. by destruct then_body as [? [] ?].
    + cbn [expr_type] in Hty. destruct (expr_type locals e) as [ct|]; [|done]. cbn in Hty.
      destruct (body_type _ body) as [bt|]; [|done]. cbn in Hty. unfold guard_type in Hty.
      destruct (_ && _); [by injection Hty|done].
    + cbn [expr_type] in Hty. destruct (expr_type locals e) as [ct|]; [|done]. cbn in Hty.
      destruct (body_type _ body) as [bt|]; [|done]. cbn in Hty. unfold guard_type in Hty.
      case_bool_decide; [by injection Hty|done].
    + destruct op. cbn in Hty |- *. destruct (expr_type locals e) as [t|]; [|done]. cbn in Hty. unfold guard_type in Hty.
      case_bool_decide; [by injection Hty|done].
    + cbn [expr_type] in Hty. destruct (expr_type locals e1) as [lt|] eqn:El; [|done].
      destruct (expr_type locals e2) as [rt|] eqn:Er; [|done]. cbn in Hty.
      destruct (_ && _) eqn:Hc; [|done]. apply andb_true_iff in Hc as [Hc%bool_decide_eq_true _]. subst rt.
      inversion He as [|? ? Hl Hr']; subst. inversion Hr' as [|? ? Hr _]; subst. cbn. rewrite (Hl _ El), (Hr _ Er).
      by apply operator_lower_type.
    + cbn in Hty |- *. inversion He as [|? ? Hi _]; subst. by apply Hi.
  - intros [stmts [tail|] sp] _ Ht ty Hty; cbn in *; [by apply Ht|by injection Hty].
Qed.
End Typing.

(** Neither generic nor with effects or contracts, on scalars, with a typed body;
    [consts] are the names of the module's constants. *)
Definition function_typed (functions : gmap string Hir.Function) (consts : gset string) (f : Hir.Function) : bool :=
  match fn_type_params f, Hir.fn_effects f, fn_requires f, fn_ensures f, fn_body f with
  | [], [], None, None, Some body =>
      forallb (fun p => scalar (type_of_ref (Hir.param_ty p))) (Hir.fn_params f) &&
      bool_decide (body_type (KN := {| known_names := known_of consts f |}) functions (param_locals f) body = Some (return_type f))
  | _, _, _, _, _ => false
  end.

(** * Lowering to the MIR: scopes and frames

    A [Layout] says for every local of a scope, innermost first, whether it is
    mutable, its type and where it is kept.  [laid_out]: lowering knows it, and
    takes only known names for numbers;
    [well_typed]: the values of a scope of [ConstLexical.v] have its types;
    [matches]: a frame holds those values. *)

Definition Layout : Type := list (string * (bool * LowerType * LocalBinding)).

Definition types_of (D : Layout) : Locals := map (fun '(name, (m, ty, _)) => (name, (m, ty))) D.

Definition slots_of (D : Layout) : list LocalSlotId :=
  omap (fun '(_, (_, _, b)) => match b with LB_Slot s => Some s | _ => None end) D.

(** Mutable locals are in slots. *)
Definition placed (st : LowerState) (m : bool) (b : LocalBinding) : Prop :=
  match b with
  | LB_Value value => m = false /\ value < next_value st
  | LB_Slot slot => slot < next_slot st
  | LB_ArraySlots _ => False
  end.

Definition all_placed (D : Layout) (st : LowerState) : Prop := Forall (fun '(_, (m, _, b)) => placed st m b) D.

Record laid_out `{KnownNames} (D : Layout) (st : LowerState) : Prop := {
  lo_names name m ty b : local_find name D = Some (m, ty, b) ->
    LowerState.locals st !! name = Some b /\ LowerState.local_types st !! name = Some ty;
  lo_placed : all_placed D st;
  lo_slots : NoDup (slots_of D);
  lo_trusted name : is_Some (trusted_repeat_bounds st !! name) -> name ∈ known_names
}.

Definition well_typed (D : Layout) (s : Scope) : Prop :=
  Forall2 (fun '(name, (m, ty, _)) '(name', (m', v)) => name = name' /\ m = m' /\ has_type ty v = true) D s.

(** The same of a scope alone *)
Definition scope_typed (L : Locals) (s : Scope) : Prop :=
  Forall2 (fun '(name, (m, ty)) '(name', (m', v)) => name = name' /\ m = m' /\ has_type ty v = true) L s.

Lemma scope_typed_of D s : scope_typed (types_of D) s <-> well_typed D s.
Proof.
  unfold scope_typed, well_typed, types_of. rewrite Forall2_fmap_l.
  split; intros Hall; (eapply Forall2_impl; [exact Hall|]); by intros [n [[m ty] b]] [n' [m' v]].
Qed.

Definition held (c : Core) (b : LocalBinding) (v : RuntimeValue) : Prop :=
  match b with
  | LB_Value value => values c !! value = Some v
  | LB_Slot slot => slots c !! slot = Some v
  | LB_ArraySlots _ => False
  end.

Definition matches (D : Layout) (s : Scope) (c : Core) : Prop :=
  Forall2 (fun '(_, (_, _, b)) '(_, (_, v)) => held c b v) D s.

(** ** Looking up *)

Section Layouts.
Context `{KnownNames}.

Lemma types_of_find name D m ty :
  local_find name (types_of D) = Some (m, ty) -> exists b, local_find name D = Some (m, ty, b).
Proof.
  induction D as [|[name' [[m' ty'] b]] D IH]; [done|]. cbn. destruct (name' =? name)%string; [|done].
  intros [= -> ->]. by exists b.
Qed.

Lemma well_typed_find D s name m ty b :
  well_typed D s -> local_find name D = Some (m, ty, b) ->
  exists v, scope_find name s = Some (m, v) /\ has_type ty v = true.
Proof.
  induction 1 as [|[name1 [[m1 ty1] b1]] [name2 [m2 v2]] D s (-> & -> & Hty) _ IH]; [done|]. cbn.
  destruct (name2 =? name)%string; [|done]. intros [= -> -> ->]. by exists v2.
Qed.

Lemma matches_find D s c name m ty b m' v :
  well_typed D s -> matches D s c -> local_find name D = Some (m, ty, b) -> scope_find name s = Some (m', v) ->
  held c b v.
Proof.
  intros Ht Hm. revert Ht. induction Hm as [|[name1 [[m1 ty1] b1]] [name2 [m2 v2]] D s Hh _ IH]; [done|].
  intros ((-> & _ & _) & Ht)%Forall2_cons. cbn. destruct (name2 =? name)%string; [|by apply IH].
  by intros [= -> -> ->] [= -> ->].
Qed.

Lemma placed_find D st name m ty b :
  all_placed D st -> local_find name D = Some (m, ty, b) -> placed st m b.
Proof.
  induction 1 as [|[name1 [[m1 ty1] b1]] D Hp _ IH]; [done|]. cbn. destruct (name1 =? name)%string; [|done].
  by intros [= -> -> ->].
Qed.

Lemma types_find D st name m ty :
  laid_out D st -> local_find name (types_of D) = Some (m, ty) -> LowerState.local_types st !! name = Some ty.
Proof. intros [Hn _ _ _] [b Hb]%types_of_find. by eapply Hn. Qed.

Lemma scope_typed_find L s name m ty :
  scope_typed L s -> local_find name L = Some (m, ty) ->
  exists v, scope_find name s = Some (m, v) /\ has_type ty v = true.
Proof.
  induction 1 as [|[n1 [m1 t1]] [n2 [m2 v2]] L s (-> & -> & Ht) _ IH]; [done|]. cbn.
  destruct (n2 =? name)%string; [|by apply IH]. intros [= -> ->]. by exists v2.
Qed.

Lemma scope_typed_set L s name m ty v :
  scope_typed L s -> local_find name L = Some (m, ty) -> has_type ty v = true -> scope_typed L (scope_set name v s).
Proof.
  intros Hs. induction Hs as [|[n1 [m1 t1]] [n2 [m2 w]] L s (-> & -> & Ht) Hs IH]; [done|]. cbn.
  destruct (n2 =? name)%string; intros Hf Hv; constructor; try done.
  - by injection Hf as -> ->.
  - by apply IH.
Qed.

(** ** Changes *)

Lemma placed_mono st st' m b : mono st st' -> placed st m b -> placed st' m b.
Proof. intros [Hv Hs]. destruct b; cbn; [intros [? ?]; split; [done|lia]|lia|done]. Qed.

Lemma laid_out_mono D st st' :
  mono st st' -> LowerState.locals st ⊆ LowerState.locals st' ->
  LowerState.local_types st ⊆ LowerState.local_types st' /\ trusted_repeat_bounds st' = trusted_repeat_bounds st ->
  laid_out D st -> laid_out D st'.
Proof.
  intros M Hl [Ht Hb] [Hn Hp Hs Hk]. split; [|eapply Forall_impl; [exact Hp|]|done|by rewrite Hb].
  - intros name m ty b [H1 H2]%Hn. split; by eapply lookup_weaken.
  - intros [name [[m ty] b]]. by apply placed_mono.
Qed.

Lemma laid_out_same D st st' :
  next_value st <= next_value st' -> next_slot st <= next_slot st' ->
  LowerState.locals st' = LowerState.locals st ->
  LowerState.local_types st' = LowerState.local_types st /\ trusted_repeat_bounds st' = trusted_repeat_bounds st ->
  laid_out D st -> laid_out D st'.
Proof. intros Hv Hs Hl [Ht Hb]. apply laid_out_mono; [by split|by rewrite Hl|by rewrite Ht]. Qed.

Lemma slots_placed D st (slot : LocalSlotId) :
  all_placed D st -> slot ∈ slots_of D -> slot < next_slot st.
Proof.
  intros Hp Hin. apply list_elem_of_omap in Hin as ([name [[m ty] b]] & Hin & Hb).
  pose proof (proj1 (Forall_forall _ _) Hp _ Hin) as Hb'. cbn in Hb'. destruct b; try done. by injection Hb as ->.
Qed.

(** A new local, once lowering knows it *)
Lemma laid_out_cons D st st' name m ty b :
  laid_out D st -> mono st st' -> placed st' m b ->
  (forall slot, b = LB_Slot slot -> next_slot st <= slot) ->
  LowerState.locals st' = <[name := b]> (LowerState.locals st) ->
  LowerState.local_types st' = <[name := ty]> (LowerState.local_types st) ->
  (forall name, is_Some (trusted_repeat_bounds st' !! name) -> name ∈ known_names) ->
  laid_out ((name, (m, ty, b)) :: D) st'.
Proof.
  intros [Hn Hp Hs _] M Hb Hnew Hl Ht Hk. split; [| | |done].
  - intros name' m' ty' b'. cbn. rewrite Hl, Ht. destruct (String.eqb_spec name name') as [<-|Hne].
    + intros [= -> -> ->]. by rewrite !lookup_insert_eq.
    + intros Hf%Hn. by rewrite !lookup_insert_ne.
  - constructor; [done|]. eapply Forall_impl; [exact Hp|]. intros [name' [[m' ty'] b']]. by apply placed_mono.
  - unfold slots_of. cbn. destruct b as [|slot|]; try done. constructor; [|done].
    intros Hin%(slots_placed _ _ _ Hp). specialize (Hnew _ eq_refl). lia.
Qed.

Lemma matches_put D st s c (d : ValueId) v :
  laid_out D st -> next_value st <= d -> matches D s c -> matches D s (put c d v).
Proof.
  intros [_ Hp _ _] Hd Hm. induction Hm as [|[n1 [[m1 t1] b]] [n2 [m2 w]] D s Hh _ IH]; [constructor|].
  apply Forall_cons in Hp as [Hb Hp]. constructor; [|by apply IH].
  destruct b as [i|slot|]; cbn in *; [|done..]. rewrite list_lookup_insert_ne; [done|lia].
Qed.

(** The locals are not read through values and slots that are not theirs. *)
Lemma matches_core D st s c c' :
  laid_out D st -> (forall i : ValueId, i < next_value st -> values c' !! i = values c !! i) ->
  (forall slot : LocalSlotId, slot < next_slot st -> slots c' !! slot = slots c !! slot) ->
  matches D s c -> matches D s c'.
Proof.
  intros [_ Hp _ _] Hv Hs Hm. induction Hm as [|[n1 [[m1 t1] b]] [n2 [m2 w]] D s Hh _ IH]; [constructor|].
  apply Forall_cons in Hp as [Hb Hp]. constructor; [|by apply IH].
  destruct b as [i|slot|]; cbn in *; [rewrite Hv; [done|apply Hb]|by rewrite Hs|done].
Qed.

Lemma local_find_slot D name m ty slot :
  local_find name D = Some (m, ty, LB_Slot slot) -> slot ∈ slots_of D.
Proof.
  induction D as [|[n1 [[m1 t1] b1]] D IH]; [done|]. cbn. unfold slots_of. cbn. destruct (n1 =? name)%string.
  - intros [= -> -> ->]. by left.
  - intros Hf. destruct b1; try by apply IH. right. by apply IH.
Qed.

Definition set_slot_to (c : Core) (slot : LocalSlotId) (v : RuntimeValue) : Core :=
  mkCore (heap c) (values c) (<[slot := v]> (slots c)).

Lemma matches_other_slot D s c (slot : LocalSlotId) v :
  slot ∉ slots_of D -> matches D s c -> matches D s (set_slot_to c slot v).
Proof.
  intros Hn Hm. induction Hm as [|[n1 [[m1 t1] b]] [n2 [m2 w]] D s Hh _ IH]; [constructor|].
  unfold slots_of in Hn. cbn in Hn. destruct b as [i|slot'|]; cbn in *; try done.
  - constructor; [done|by apply IH].
  - apply not_elem_of_cons in Hn as [Hne Hn]. constructor; [|by apply IH]. cbn. by rewrite list_lookup_insert_ne.
Qed.

Lemma matches_set_slot D s c name m ty (slot : LocalSlotId) v :
  well_typed D s -> NoDup (slots_of D) -> matches D s c -> local_find name D = Some (m, ty, LB_Slot slot) ->
  slot < length (slots c) -> matches D (scope_set name v s) (set_slot_to c slot v).
Proof.
  intros Ht Hnd Hm Hf Hlt. revert Ht Hnd Hf.
  induction Hm as [|[n1 [[m1 t1] b]] [n2 [m2 w]] D s Hh Hm IH]; [done|].
  intros ((-> & _ & _) & Ht)%Forall2_cons Hnd. cbn. destruct (n2 =? name)%string.
  - intros [= -> -> ->]. unfold slots_of in Hnd. cbn in Hnd. apply NoDup_cons in Hnd as [Hn _].
    constructor; [by cbn; apply list_lookup_insert_eq|]. by apply matches_other_slot.
  - intros Hf. pose proof (local_find_slot _ _ _ _ _ Hf) as Hin. unfold slots_of in Hnd. cbn in Hnd.
    constructor.
    + destruct b as [i|slot'|]; cbn in *; try done. apply NoDup_cons in Hnd as [Hn _].
      rewrite list_lookup_insert_ne; [done|]. intros ->. done.
    + apply IH; [done| |done]. destruct b; try done. by apply NoDup_cons in Hnd as [_ ?].
Qed.

(** ** Scopes within scopes *)

Lemma matches_app D D' s s' c : length D = length s -> matches (D ++ D') (s ++ s') c -> matches D' s' c.
Proof. intros Hlen Hm. by apply Forall2_app_inv in Hm as [_ ?]. Qed.

Lemma well_typed_app D D' s : well_typed (D ++ D') s -> exists s2 s1, s = s2 ++ s1 /\ length D = length s2 /\ well_typed D' s1.
Proof.
  intros Ht. apply Forall2_app_inv_l in Ht as (s2 & s1 & H1 & H2 & ->). exists s2, s1.
  split; [done|]. split; [by eapply Forall2_length|done].
Qed.

Lemma leave_scope_typed D s s2 s1 : well_typed D s -> well_typed D s1 -> leave_scope s (s2 ++ s1) = s1.
Proof.
  intros H1%Forall2_length H2%Forall2_length. unfold leave_scope. rewrite length_app.
  replace (length s2 + length s1 - length s) with (length s2) by lia. by rewrite drop_app_length.
Qed.
End Layouts.
