(* ===== verification/LowerKeeps.v ===== *)
(** * Lowering to the MIR: what typed code leaves alone

    Lowering a typed expression changes no local there is, and lowering a typed
    body makes no instances of generic functions. *)
From stdpp Require Import gmap pretty.
From S2P Require Import Prelude Syntax Utf8 TextOps Float64 Mir Interp Exec Machine Eval Invariant Safety.
From S2P Require Import ConstState Hir SemType ConstEval ConstFold.
From S2P Require Import LowerState LowerTypes LowerOps LowerBuiltins LowerMatch LowerArrays Lower LowerWp LowerNumbering LowerExec LowerFragment.

Open Scope nat_scope.

(** The functions of the module are known to lowering, and not generic. *)
Record coherent (functions : gmap string Hir.Function) (prog : LowerProgram) : Prop := {
  coherent_returns name f : functions !! name = Some f ->
    lp_function_returns prog !! name
    = Some (match Hir.fn_return_type f with Some ty => Hir.path ty | None => "Unit"%string end);
  coherent_generic name f : functions !! name = Some f -> lp_generic_functions prog !! name = None
}.

Record keeps (st st' : LowerState) : Prop := {
  keeps_mono : mono st st';
  keeps_locals : locals st ⊆ locals st';
  keeps_types : local_types st ⊆ local_types st';
  keeps_instances : monomorphized_functions st' = monomorphized_functions st
}.

Lemma keeps_refl st : keeps st st.
Proof. split; [apply mono_refl|done..]. Qed.

Lemma lowering_keeps_trans st st1 st2 : keeps st st1 -> keeps st1 st2 -> keeps st st2.
Proof. intros [H0 H1 H2 H3] [H4 H5 H6 H7]. split; [by eapply mono_trans|by etrans|by etrans|congruence]. Qed.

Definition keeping {A} (m : L A) (st : LowerState) : Prop := runs m st (fun _ st' _ => keeps st st').

(** No instances are made. *)
Definition calm (st st' : LowerState) : Prop :=
  mono st st' /\ monomorphized_functions st' = monomorphized_functions st.

Lemma calm_trans st st1 st2 : calm st st1 -> calm st1 st2 -> calm st st2.
Proof. intros [M1 E1] [M2 E2]. split; [by eapply mono_trans|congruence]. Qed.

(** A change of no counter and no instance *)
Lemma calm_same st st' :
  next_value st' = next_value st -> next_slot st' = next_slot st ->
  monomorphized_functions st' = monomorphized_functions st -> calm st st'.
Proof. intros Hv Hs ?. split; [split; lia|done]. Qed.

Definition quiet {A} (m : L A) (st : LowerState) : Prop := runs m st (fun _ st' _ => calm st st').

Lemma keeping_quiet {A} (m : L A) st : keeping m st -> quiet m st.
Proof. intros Hm. eapply runs_mono; [exact Hm|]. intros a st' new Hk. split; apply Hk. Qed.

Section Rules.
Context {A B : Type}.

Lemma keeping_ret (a : A) st : keeping (l_ret a) st.
Proof. apply runs_ret, keeps_refl. Qed.

Lemma keeping_bind (m : L B) (k : B -> L A) st :
  keeping m st -> (forall b st1, keeping (k b) st1) -> keeping (l_bind m k) st.
Proof.
  intros Hm Hk. apply runs_bind. eapply runs_mono; [exact Hm|]. intros b st1 n1 H1.
  eapply runs_mono; [apply Hk|]. intros a st2 n2 H2. exact (lowering_keeps_trans _ _ _ H1 H2).
Qed.

Lemma keeping_gets (f : LowerState -> B) (k : B -> L A) st :
  keeping (k (f st)) st -> keeping (l_bind (l_gets f) k) st.
Proof. intros Hk. apply runs_bind, runs_gets. exact Hk. Qed.

Lemma quiet_ret (a : A) st : quiet (l_ret a) st.
Proof. apply runs_ret. split; [apply mono_refl|done]. Qed.

Lemma quiet_bind (m : L B) (k : B -> L A) st :
  quiet m st -> (forall b st1, quiet (k b) st1) -> quiet (l_bind m k) st.
Proof.
  intros Hm Hk. apply runs_bind. eapply runs_mono; [exact Hm|]. intros b st1 n1 H1.
  eapply runs_mono; [apply Hk|]. intros a st2 n2 H2. exact (calm_trans _ _ _ H1 H2).
Qed.

Lemma quiet_gets (f : LowerState -> B) (k : B -> L A) st :
  quiet (k (f st)) st -> quiet (l_bind (l_gets f) k) st.
Proof. intros Hk. apply runs_bind, runs_gets. exact Hk. Qed.
End Rules.

Lemma keeping_fresh st : keeping fresh_value st.
Proof. apply runs_fresh_value. split; [split; cbn; lia|done..]. Qed.

Lemma keeping_emit i st : keeping (emit i) st.
Proof. apply runs_emit. split; [by split|done..]. Qed.

Lemma keeping_emit_value inst st : keeping (emit_value inst) st.
Proof. apply keeping_bind; [apply keeping_fresh|]. intros. apply keeping_bind; [apply keeping_emit|]. intros. apply keeping_ret. Qed.

Lemma keeping_map {A B} (f : B -> L A) l st :
  (forall b st', b ∈ l -> keeping (f b) st') -> keeping (l_map f l) st.
Proof.
  revert st. induction l as [|b l IH]; intros st Hf; cbn [l_map]; [apply keeping_ret|].
  apply keeping_bind; [apply Hf; left|]. intros a st1. apply keeping_bind; [|intros; apply keeping_ret].
  apply IH. intros b' st' Hb'. apply Hf. by right.
Qed.

Lemma quiet_each {B} (f : B -> L unit) l st : (forall b st', b ∈ l -> quiet (f b) st') -> quiet (l_each f l) st.
Proof.
  revert st. induction l as [|b l IH]; intros st Hf; cbn [l_each]; [apply quiet_ret|].
  apply quiet_bind; [apply Hf; left|]. intros a st1. apply IH. intros b' st' Hb'. apply Hf. by right.
Qed.

Lemma quiet_modify f st :
  instructions (f st) = instructions st -> next_value (f st) = next_value st -> next_slot (f st) = next_slot st ->
  monomorphized_functions (f st) = monomorphized_functions st -> quiet (l_modify f) st.
Proof. intros Hi Hv Hs Hm. apply runs_modify; [done|]. by apply calm_same. Qed.

Lemma quiet_capture {A} (m : L A) st :
  quiet m (set_instructions [] st) -> runs (capture m) st (fun _ st' new => new = [] /\ calm st st').
Proof.
  intros Hm. apply runs_capture. eapply runs_mono; [exact Hm|]. intros a st' new [[] E]. by split_and!.
Qed.

Lemma keeping_nested_scope {A} (m : L A) st :
  (forall st', quiet m st') -> keeping (nested_scope m) st.
Proof.
  intros Hm. unfold nested_scope. apply keeping_gets, runs_bind, runs_gets, runs_bind, runs_gets.
  apply runs_bind. eapply runs_mono; [by apply quiet_capture, Hm|]. intros r st1 new [-> [[] E]].
  apply runs_bind, runs_modify; [done|]. apply runs_bind, runs_modify; [done|]. apply runs_ret.
  split; [by split|apply map_union_subseteq_l|apply map_union_subseteq_l|done].
Qed.

(** ** Statements *)

Lemma keeping_register ty st : keeping (register_type_name ty) st.
Proof.
  revert st. induction ty as [| | | | | | | | | | |element IH|element IH len|]; intros st;
    try (by apply keeping_ret).
  cbn [register_type_name]. apply keeping_bind; [by apply IH|]. intros [name|] st1; [|by apply keeping_ret].
  apply keeping_bind; [|intros; by apply keeping_ret]. apply runs_modify; destruct (_ !! _); [done|done|apply keeps_refl|by split].
Qed.

Lemma keeping_unit st : keeping emit_unit_value st.
Proof. apply keeping_bind; [apply keeping_emit_value|intros; apply keeping_emit_value]. Qed.

Lemma keeping_diagnose code message span help st : keeping (diagnose code message span help) st.
Proof. apply runs_modify; [done|]. split; [by split|done..]. Qed.

Lemma keeping_diagnose_unit code message span help st :
  keeping (diagnose code message span help ;+ emit_unit_value) st.
Proof. apply keeping_bind; [apply keeping_diagnose|intros; apply keeping_unit]. Qed.

Lemma keeping_record {A} (f : A -> L (string * ValueId)) l name st :
  (forall a st', a ∈ l -> keeping (f a) st') ->
  keeping (let+ fields := l_map f l in emit_value (fun dest => I_MakeRecord dest name fields)) st.
Proof. intros Hf. apply keeping_bind; [by apply keeping_map|intros; apply keeping_emit_value]. Qed.

Lemma quiet_push name ty mutable st : quiet (push_mutable_local name ty mutable) st.
Proof. exists []. rewrite app_nil_r. split; [done|]. split; [split; cbn; lia|done]. Qed.

Lemma quiet_array_slots name ty mutable st : quiet (create_array_slots_for_type name ty mutable) st.
Proof.
  destruct ty; cbn [create_array_slots_for_type]; try apply quiet_ret.
  apply quiet_bind; [apply keeping_quiet, keeping_register|]. intros [et|] st2; [|apply quiet_ret].
  apply quiet_bind; [|intros; apply quiet_ret]. generalize (seq 0 len) as l. intros l. revert st2.
  induction l as [|i l IH]; intros st2; cbn [l_map]; [apply quiet_ret|].
  apply quiet_bind; [apply quiet_push|]. intros. apply quiet_bind; [apply IH|intros; apply quiet_ret].
Qed.

Lemma quiet_store_slots slots v st : quiet (store_array_slots_from_value slots v) st.
Proof.
  apply quiet_each. intros [i slot] st' _. apply quiet_bind; [apply keeping_quiet, keeping_emit_value|].
  intros. apply keeping_quiet, keeping_emit.
Qed.

Lemma quiet_insert name b ty (k : unit -> L bool) st :
  (forall st', quiet (k tt) st') ->
  quiet (insert_local name b ;+ l_bind (insert_local_type name ty) k) st.
Proof.
  intros Hk. apply quiet_bind; [by apply quiet_modify|]. intros. apply quiet_bind; [by apply quiet_modify|].
  intros [] st2. apply Hk.
Qed.

Lemma quiet_bind_local name ty v mutable scalarize st : quiet (bind_local name ty v mutable scalarize) st.
Proof.
  unfold bind_local. apply quiet_bind; [destruct scalarize; [apply quiet_array_slots|apply quiet_ret]|].
  intros [slots|] st1.
  - apply quiet_bind; [apply quiet_store_slots|]. intros. apply quiet_insert. intros. apply quiet_ret.
  - destruct mutable; [|apply quiet_insert; intros; apply quiet_ret].
    apply quiet_bind; [apply keeping_quiet, keeping_register|]. intros [slot_ty|] st3; [|apply quiet_ret].
    apply quiet_bind; [apply quiet_push|]. intros. apply quiet_bind; [apply keeping_quiet, keeping_emit|].
    intros. apply quiet_insert. intros. apply quiet_ret.
Qed.

Section Methods.
Context `{Platform, KnownNames} (functions : gmap string Hir.Function) (prog : LowerProgram) (const_fuel : nat).
Context (Hprog : coherent functions prog).
Context (cx : FnContext) (K : LowerKnot).

Notation typed locals e ty := (expr_type functions locals e = Some ty).

Context (k_expr_keeps : forall locals e ty st, typed locals e ty -> keeping (k_expr K e) st).
Context (k_body_quiet : forall locals b ty st, body_type functions locals b = Some ty -> quiet (k_body K b) st).

Lemma nested_body_keeps locals b ty st :
  body_type functions locals b = Some ty -> keeping (lower_nested_body K b) st.
Proof.
  intros Hb. apply keeping_bind; [|intros; apply keeping_ret]. apply keeping_nested_scope.
  intros st'. by eapply k_body_quiet.
Qed.

Fixpoint runtime_value_keeps (v : RuntimeValue) st : keeping (emit_runtime_value cx v) st.
Proof.
  destruct v as [| | | | | | | | | | |name variant payload|name fields|]; cbn [emit_runtime_value];
    lazymatch goal with
    | |- keeping (runtime_only _ _ _ _ _) _ => apply keeping_diagnose_unit
    | |- keeping (emit_value _) _ => apply keeping_emit_value
    | |- keeping emit_unit_value _ => apply keeping_unit
    | |- _ => idtac
    end.
  - apply keeping_bind; [|intros; apply keeping_emit_value]. destruct payload as [p|]; [|apply keeping_ret].
    apply keeping_bind; [apply runtime_value_keeps|intros; apply keeping_ret].
  - assert (Hrec : forall name' st', keeping
      (let+ fields := l_map (fun '(field, value) =>
          let+ value := emit_runtime_value cx value in l_ret (field, value)) fields in
       emit_value (fun dest => I_MakeRecord dest name' fields)) st').
    { intros name' st'. apply keeping_bind; [|intros; apply keeping_emit_value]. revert st'.
      induction fields as [|[field v] fields IH]; intros st'; cbn [l_map]; [apply keeping_ret|].
      apply keeping_bind; [apply keeping_bind; [apply runtime_value_keeps|intros; apply keeping_ret]|].
      intros. apply keeping_bind; [apply IH|intros; apply keeping_ret]. }
    destruct (runtime_value_lower_type _) as [| | | | | | | | | | | |element len|]; try apply Hrec.
    apply keeping_bind; [apply keeping_register|]. intros [struct_name|] st1; [apply Hrec|apply keeping_diagnose_unit].
Qed.

Lemma name_keeps name span st : keeping (lower_name prog cx name span) st.
Proof.
  unfold lower_name. apply keeping_gets. destruct (locals st !! name) as [[v|slot|slots]|].
  - apply keeping_ret.
  - apply keeping_emit_value.
  - unfold materialize_array_slots. cbv zeta. apply keeping_gets.
    destruct (local_types st !! name) as [ty|]; [|apply keeping_diagnose_unit].
    apply keeping_bind; [apply keeping_register|]. intros [struct_name|] st1; [|apply keeping_diagnose_unit].
    apply keeping_record. intros [i slot] st' _. apply keeping_bind; [apply keeping_emit_value|intros; apply keeping_ret].
  - destruct (cx_substitutions cx !! name); [apply keeping_emit_value|].
    destruct (lp_evaluated_consts prog !! name); [apply runtime_value_keeps|].
    apply keeping_bind; [apply keeping_diagnose|intros; apply keeping_fresh].
Qed.

Lemma call_keeps locals callee args span ty st :
  typed locals (E_Call callee args span) ty -> keeping (lower_call prog cx K callee args span) st.
Proof.
  rewrite expr_type_call. destruct (functions !! callee) as [f|] eqn:Hf; [|done]. cbn.
  destruct (args_type functions locals args) as [tys|] eqn:Hargs; [|done]. cbn.
  destruct (split_enum_variant_path callee) eqn:Hs; [done|]. intros _. unfold lower_call.
  assert (Hb : try_lower_builtin_call_expr prog cx (k_expr K) callee args span = l_ret None).
  { unfold try_lower_builtin_call_expr, builtin_is_available. by rewrite (coherent_returns _ _ Hprog _ _ Hf). }
  rewrite Hb. apply keeping_bind; [apply keeping_ret|]. intros [|] st1; [apply keeping_ret|].
  rewrite (split_constructor prog _ Hs), (coherent_generic _ _ Hprog _ _ Hf).
  apply keeping_bind; [apply keeping_ret|]. intros name st2. unfold lower_runtime_call.
  apply keeping_bind; [apply keeping_fresh|]. intros dest st3. apply keeping_bind.
  - apply keeping_map. intros a st' Ha. clear -Hargs Ha k_expr_keeps. revert tys Hargs.
    induction args as [|a' args IH]; intros tys Hargs; [by apply elem_of_nil in Ha|]. cbn in Hargs.
    destruct (expr_type functions locals a') as [t|] eqn:Ht; [|done]. cbn in Hargs.
    destruct (args_type functions locals args) as [ts|]; [|done]. apply elem_of_cons in Ha as [->|Ha].
    + by eapply k_expr_keeps.
    + by eapply IH.
  - intros. apply keeping_bind; [apply keeping_emit|]. intros. apply keeping_ret.
Qed.

Lemma if_keeps locals condition then_body else_body span ty st :
  typed locals (E_If condition then_body else_body span) ty ->
  keeping (lower_if K condition then_body else_body) st.
Proof.
  rewrite expr_type_if. destruct (expr_type functions locals condition) as [ct|] eqn:Hc; [|done].
  destruct (body_type functions locals then_body) as [tt|] eqn:Ht; [|done].
  destruct (body_type functions locals else_body) as [et|] eqn:He; [|done]. intros _. unfold lower_if.
  apply keeping_bind; [by eapply k_expr_keeps|]. intros. apply keeping_bind; [by eapply nested_body_keeps|]. intros.
  apply keeping_bind; [by eapply nested_body_keeps|]. intros. apply keeping_bind; [apply keeping_fresh|]. intros.
  apply keeping_bind; [apply keeping_emit|]. intros. apply keeping_ret.
Qed.

Lemma while_keeps locals condition body span ty st :
  typed locals (E_While condition body span) ty -> keeping (lower_while K condition body) st.
Proof.
  rewrite expr_type_while. destruct (expr_type functions locals condition) as [ct|] eqn:Hc; [|done]. cbn.
  destruct (body_type functions locals body) as [bt|] eqn:Hb; [|done]. intros _.
  apply keeping_bind; [apply keeping_nested_scope; intros; by eapply keeping_quiet, k_expr_keeps|]. intros.
  apply keeping_bind; [by eapply nested_body_keeps|]. intros. apply keeping_emit_value.
Qed.

Lemma loop_keeps locals binding count body span ty st :
  typed locals (E_Repeat binding count body span) ty -> keeping (lower_loop prog cx K binding count body) st.
Proof.
  rewrite expr_type_repeat. destruct (expr_type functions locals count) as [ct|] eqn:Hc; [|done]. cbn.
  destruct (body_type functions _ body) as [bt|] eqn:Hb; [|done]. intros _. unfold lower_loop.
  apply keeping_bind; [by eapply k_expr_keeps|]. intros. apply keeping_bind; [|intros; apply keeping_emit_value].
  apply keeping_bind; [|intros; apply keeping_ret]. apply keeping_nested_scope. intros st'. apply quiet_bind.
  - destruct binding as [name|]; [|apply quiet_ret]. apply quiet_bind; [apply quiet_push|]. intros.
    apply quiet_bind; [by apply quiet_modify|]. intros. apply quiet_bind; [by apply quiet_modify|]. intros.
    apply quiet_gets, quiet_bind; [|intros; apply quiet_ret].
    destruct (repeat_static_count _ _ _ _); [by apply quiet_modify|apply quiet_ret].
  - intros slot st2. apply quiet_bind; [by eapply k_body_quiet|]. intros. apply quiet_ret.
Qed.

Definition no_instances {A} (st : LowerState) : A -> LowerState -> list Inst -> Prop :=
  fun _ st' new => new = [] /\ calm st st'.

Lemma copy_quiet st0 binding n body k st :
  (forall st', quiet (k_body K body) st') -> runs (unrolled_copy K st0 binding n body k) st (no_instances st).
Proof.
  intros Hb. apply runs_bind, runs_modify; [done|]. apply runs_bind. eapply runs_mono.
  { apply quiet_capture, quiet_bind; [|intros; apply Hb]. destruct binding as [name|]; [|apply quiet_ret].
    apply quiet_bind; [apply keeping_quiet, keeping_emit_value|]. intros.
    apply quiet_bind; [by apply quiet_modify|]. intros. apply quiet_bind; [by apply quiet_modify|]. intros.
    by apply quiet_modify. }
  intros r st1 new [-> E]. apply runs_ret. split; [done|]. eapply calm_trans; [|exact E]. by apply calm_same.
Qed.

Lemma copies_quiet st0 binding n body ks st :
  (forall st', quiet (k_body K body) st') ->
  runs (l_map (unrolled_copy K st0 binding n body) ks) st (no_instances st).
Proof.
  intros Hb. revert st. induction ks as [|k ks IH]; intros st; cbn [l_map].
  { apply runs_ret. split; [done|]. by apply calm_same. }
  apply runs_bind. eapply runs_mono; [by apply copy_quiet|].
  intros insts st1 new [-> E]. apply runs_bind. eapply runs_mono; [apply IH|]. intros l st2 new [-> E2].
  apply runs_ret. split; [done|]. exact (calm_trans _ _ _ E E2).
Qed.

Lemma repeat_keeps locals binding count body span ty st :
  typed locals (E_Repeat binding count body span) ty -> keeping (lower_repeat prog cx K binding count body) st.
Proof.
  intros Hty. unfold lower_repeat. apply keeping_gets.
  destruct (repeat_static_count _ _ _ _) as [n|]; [|by eapply loop_keeps].
  rewrite expr_type_repeat in Hty. destruct (expr_type functions locals count) as [ct|] eqn:Hc; [|done]. cbn in Hty.
  destruct (body_type functions _ body) as [bt|] eqn:Hb; [|done]. unfold unroll_repeat.
  apply keeping_gets, runs_bind. cbn [id]. eapply runs_mono.
  { apply copies_quiet. intros. by eapply k_body_quiet. }
  intros chunks st1 new [-> [M E]]. apply runs_bind, runs_modify; [done|]. apply runs_bind, runs_extend.
  eapply runs_mono; [apply keeping_bind; [apply keeping_emit_value|intros; apply keeping_emit_value]|].
  intros v st2 n2 [M2 H1 H2 H3]. split; [|exact H1|exact H2|by rewrite H3].
  destruct M, M2. cbn in *. split; lia.
Qed.

Lemma widen_keeps l r lt rt st : keeping (widen l r lt rt) st.
Proof.
  unfold widen. destruct lt; try apply keeping_ret; destruct rt; try apply keeping_ret;
    (apply keeping_bind; [apply keeping_emit_value|intros; apply keeping_ret]).
Qed.

Lemma binary_keeps locals op l r span ty st :
  typed locals (E_Binary op l r span) ty -> keeping (lower_binary prog cx K op l r) st.
Proof.
  cbn [expr_type]. destruct (expr_type functions locals l) as [lt|] eqn:Hl; [|done]. cbn.
  destruct (expr_type functions locals r) as [rt|] eqn:Hr; [|done]. cbn.
  intros _. unfold lower_binary.
  destruct (match l with E_Integer _ _ => _ | _ => _ end) as [o|].
  - destruct o as [v| |]; [apply runtime_value_keeps|done..].
  - apply keeping_bind; [by eapply k_expr_keeps|]. intros. apply keeping_bind; [by eapply k_expr_keeps|]. intros.
    apply keeping_gets, keeping_gets. apply keeping_bind; [apply widen_keeps|]. intros. apply keeping_emit_value.
Qed.

Lemma lower_expr_keeps locals e ty st : typed locals e ty -> keeping (lower_expr prog const_fuel cx K e) st.
Proof.
  intros Hty. destruct e; try discriminate Hty; cbn [lower_expr]; try apply keeping_emit_value.
  - apply name_keeps.
  - by eapply call_keeps.
  - apply keeping_bind; [by eapply if_keeps|intros; apply keeping_ret].
  - by eapply repeat_keeps.
  - by eapply while_keeps.
  - destruct op. cbn in Hty. destruct (expr_type functions locals e) as [t|] eqn:Ht; [|done].
    apply keeping_bind; [by eapply k_expr_keeps|]. intros. apply keeping_bind; [apply runtime_value_keeps|].
    intros. apply keeping_emit_value.
  - by eapply binary_keeps.
  - by eapply k_expr_keeps.
Qed.

Lemma lower_tail_keeps locals e ty st : typed locals e ty -> keeping (lower_tail_expr prog const_fuel cx K e) st.
Proof.
  revert st. induction e; intros st Hty; try discriminate Hty; cbn [lower_tail_expr];
    try (apply keeping_bind; [by eapply lower_expr_keeps|intros; apply keeping_ret]).
  - apply keeping_bind; [by eapply if_keeps|intros; apply keeping_ret].
  - apply keeping_bind; [by eapply loop_keeps|intros; apply keeping_ret].
  - apply keeping_bind; [by eapply while_keeps|intros; apply keeping_ret].
  - auto.
Qed.

Lemma lower_stmt_quiet locals s locals' st :
  stmt_type functions locals s = Some locals' -> quiet (lower_stmt prog cx K s) st.
Proof.
  destruct s as [mutable name value span|target value span|e span|]; rewrite stmt_type_eq; intros Hs; try done.
  - destruct (expr_type functions locals value) as [ty|] eqn:Hv; [|done]. cbn in Hs |- *. unfold lower_let.
    apply quiet_bind; [by eapply keeping_quiet, k_expr_keeps|]. intros v st1.
    apply quiet_gets. destruct (name =? "_")%string; [apply quiet_ret|]. apply quiet_bind; [apply quiet_bind_local|].
    intros [] st2; [apply quiet_ret|apply keeping_quiet, keeping_diagnose].
  - destruct target; try done. cbn in Hs. destruct (expr_type functions locals value) as [ty|] eqn:Hv; [|done].
    cbn. unfold lower_assign. apply quiet_bind; [by eapply keeping_quiet, k_expr_keeps|]. intros v st1.
    unfold assign_name. cbv zeta. apply quiet_gets.
    assert (Hre : forall st', quiet (let+ ty := infer prog cx value in insert_local_type name ty) st').
    { intros st'. apply quiet_gets. by apply quiet_modify. }
    destruct (LowerState.locals st1 !! name) as [[v'|slot|slots]|]; try apply keeping_quiet, keeping_diagnose.
    + apply quiet_bind; [apply keeping_quiet, keeping_emit|intros; apply Hre].
    + apply quiet_bind; [apply quiet_store_slots|intros; apply Hre].
  - destruct (expr_type functions locals e) as [ty|] eqn:Hv; [|done]. cbn.
    apply quiet_bind; [by eapply keeping_quiet, k_expr_keeps|intros; apply quiet_ret].
Qed.

Lemma lower_body_quiet locals b ty st :
  body_type functions locals b = Some ty -> quiet (lower_body prog const_fuel cx K b) st.
Proof.
  destruct b as [stmts tail span]. rewrite body_type_stmts.
  destruct (stmts_type functions locals stmts) as [locals'|] eqn:Hs; [|done]. cbn. intros Ht.
  unfold lower_body. cbn [body_statements body_tail]. apply quiet_bind.
  - clear Ht. revert locals Hs st. induction stmts as [|s stmts IH]; intros locals Hs st; cbn [l_each]; [apply quiet_ret|].
    cbn in Hs. destruct (stmt_type functions locals s) as [l1|] eqn:E; [|done].
    apply quiet_bind; [by eapply lower_stmt_quiet|]. intros _ st1. by eapply IH.
  - intros _ st1. destruct tail as [e|]; [by eapply keeping_quiet, lower_tail_keeps|apply quiet_ret].
Qed.
End Methods.

(** ** The knot *)

Section Knot.
Context `{Platform, KnownNames} (functions : gmap string Hir.Function) (prog : LowerProgram) (const_fuel : nat).
Context (Hprog : coherent functions prog).

Lemma knot_keeps n cx :
  (forall locals e ty st, expr_type functions locals e = Some ty ->
     keeping (k_expr (lower_knot prog const_fuel n cx) e) st) /\
  (forall locals b ty st, body_type functions locals b = Some ty ->
     quiet (k_body (lower_knot prog const_fuel n cx) b) st).
Proof.
  induction n as [|n [He Hb]]; [done|]. cbn [lower_knot k_expr k_body]. split; intros.
  - by eapply lower_expr_keeps.
  - by eapply lower_body_quiet.
Qed.
End Knot.
