(* ===== verification/LowerSim.v ===== *)
(** * Lowering to the MIR: methods

    What the instructions compute that a method of the lowerer adds, for each
    form of expression and statement: from a frame that holds a scope to one that
    holds the scope after, with the value at the destination. *)
From stdpp Require Import gmap pretty.
From S2P Require Import Hir SemType ConstEval ConstState ConstLexical Prelude Syntax Utf8 TextOps Float64 Mir Interp Exec Machine Entry Eval.
From S2P Require Import Invariant Samples ConstFold LowerState LowerTypes LowerOps LowerBuiltins LowerMatch LowerArrays Lower LowerWp LowerExec.
From S2P Require Import LowerFragment LowerKeeps.

Open Scope nat_scope.

Section Lowers.
Context `{Platform, KnownNames} (env : Env).

(** The expression has the value [v], in the scope [s] with the layout [D], and leaves [s']. *)
Definition lowers (m : L ValueId) (D : Layout) (s : Scope) (v : RuntimeValue) (s' : Scope) : Prop :=
  forall f args st, laid_out D st ->
    sim env f args m st (matches D s) (fun d st' => laid_out D st' /\ d < next_value st')
      (fun d c => matches D s' c /\ values c !! d = Some v).

(** A body; [s'] is the scope after it without the locals of the body. *)
Definition lowers_body (m : L BodyLowering) (D : Layout) (s : Scope) (v : RuntimeValue) (s' : Scope) : Prop :=
  forall f args st, laid_out D st ->
    sim env f args m st (matches D s) (fun _ _ => True)
      (fun r c => matches D s' c /\ result_or_unit (values c) (bl_result r) = v).

(** ** Values *)

Lemma const_lowers inst v D s :
  (forall f args c d, d < length (values c) -> inst_ends env f args (inst d) c (put c d v)) ->
  lowers (emit_value inst) D s v s.
Proof.
  intros Hi f args st HD. apply sim_store with (v := v).
  - intros st' Hv Hs Hl Ht. split; [|lia]. eapply laid_out_same; [| | | |exact HD]; (done || lia).
  - intros c d _ Hd. by apply Hi.
  - intros c d Hm Hle Hd. split; [by eapply matches_put|by apply put_at].
Qed.

Lemma simple_const f args i v c (d : ValueId) :
  simple env f args i = Some (set_value d v) -> d < length (values c) -> inst_ends env f args i c (put c d v).
Proof. intros Hs Hd. eapply simple_ends; [exact Hs|]. by apply set_value_put. Qed.

Lemma int_lowers z D s : lowers (emit_value (fun dest => I_ConstInt dest z)) D s (V_Int z) s.
Proof. apply const_lowers. intros. by apply simple_const. Qed.

Lemma bool_lowers b D s : lowers (emit_value (fun dest => I_ConstBool dest b)) D s (V_Bool b) s.
Proof. apply const_lowers. intros. by apply simple_const. Qed.

Lemma text_lowers t D s : lowers (emit_value (fun dest => I_ConstText dest t)) D s (V_Text t) s.
Proof. apply const_lowers. intros. by apply simple_const. Qed.

Lemma float_lowers x D s :
  exact_float x = true -> lowers (emit_value (fun dest => I_ConstF64 dest (f64_to_bits x))) D s (V_F64 x) s.
Proof.
  intros Hx%bool_decide_eq_true. apply const_lowers. intros. apply simple_const; [|done]. cbn. by rewrite Hx.
Qed.

Lemma unit_lowers D s : lowers emit_unit_value D s V_Unit s.
Proof.
  intros f args st HD. eapply sim_bind; [by apply (bool_lowers true)|]. intros d st1 M [HD1 Hd].
  apply sim_emit_value.
  - intros st' Hv Hs Hl Ht. split; [|lia]. eapply laid_out_same; [| | | |exact HD1]; (done || lia).
  - intros c [Hm Hc] Hlt _. exists (put c (next_value st1) V_Unit). split; [|split; [split|]].
    + by apply (if_ends env f args _ _ [] None [] None true _ c); [|constructor|].
    + by eapply matches_put.
    + by apply put_at.
    + by apply frame_put.
Qed.

Context (prog : LowerProgram).

Lemma runtime_value_lowers cx v ty D s :
  has_type ty v = true -> ty = LT_I32 \/ ty = LT_Bool -> lowers (emit_runtime_value cx v) D s v s.
Proof. intros Ht [-> | ->]; destruct v; try done; [apply int_lowers|apply bool_lowers]. Qed.

Lemma name_lowers cx name span D s m ty :
  well_typed D s -> local_find name (types_of D) = Some (m, ty) ->
  exists v, scope_find name s = Some (m, v) /\ has_type ty v = true /\ lowers (lower_name prog cx name span) D s v s.
Proof.
  intros Ht [b Hf]%types_of_find. destruct (well_typed_find _ _ _ _ _ _ Ht Hf) as (v & Hs & Hv).
  exists v. split; [done|]. split; [done|]. intros f args st HD. unfold lower_name. apply sim_gets.
  destruct (lo_names _ _ HD _ _ _ _ Hf) as [-> _]. pose proof (placed_find _ _ _ _ _ _ (lo_placed _ _ HD) Hf) as Hp.
  assert (Hh : forall c, matches D s c -> held c b v) by (intros; by eapply matches_find).
  destruct b as [i|slot|]; [|clear Hp|done].
  - apply sim_ret; [by destruct Hp|]. intros c Hc. split; [done|by apply (Hh c)].
  - apply sim_store with (v := v).
    + intros st' E1 E2 E3 E4. split; [|lia]. eapply laid_out_same; [| | | |exact HD]; (done || lia).
    + intros c d Hc Hd. eapply simple_ends; [reflexivity|]. unfold load_local, mbind, get_slots. rewrite (Hh c Hc).
      by apply set_value_put.
    + intros c d Hc Hle Hd. split; [by eapply matches_put|by apply put_at].
Qed.

(** ** Bodies in scopes of their own *)

Context (K : LowerKnot).

Lemma nested_expr_lowers e D s v s' f args st :
  lowers (k_expr K e) D s v s' -> laid_out D st ->
  captured env f args fst (lower_nested_expr K e) st (matches D s)
    (fun r st' => laid_out D st' /\ r.2 < next_value st') (fun r c => matches D s' c /\ values c !! r.2 = Some v).
Proof.
  intros He HD. apply (captured_nested_scope env f args _ _ _ (fun d st' => laid_out D st' /\ d < next_value st')
    (fun d c => matches D s' c /\ values c !! d = Some v)).
  eapply sim_run_weaken; [apply He|done| |done].
  - by eapply laid_out_same; [| | | |exact HD].
  - intros d st' M [_ Hd] st2 Hv Hs Hl Ht. split; [|lia].
    eapply laid_out_mono; [|exact Hl|exact Ht|exact HD]. destruct M. cbn in *. split; lia.
Qed.

(** A body that is run if it is [taken] *)
Lemma branch_lowers (taken : bool) b D s v s' f args st :
  (if taken then lowers_body (k_body K b) D s v s' else forall st', quiet (k_body K b) st') -> laid_out D st ->
  captured env f args nb_instructions (lower_nested_body K b) st (fun c => taken = true /\ matches D s c)
    (fun _ st' => laid_out D st') (fun r c => matches D s' c /\ result_or_unit (values c) (nb_result r) = v).
Proof.
  intros Hb HD. unfold lower_nested_body. eapply captured_then.
  - apply (captured_nested_scope env f args _ _ _ (fun _ st' => laid_out D st')
      (fun r c => matches D s' c /\ result_or_unit (values c) (bl_result r) = v)).
    assert (Hrest : forall st', mono (set_instructions [] st) st' -> forall st2, next_value st2 = next_value st' ->
      next_slot st2 = next_slot st' -> LowerState.locals st ⊆ LowerState.locals st2 ->
      LowerState.local_types st ⊆ LowerState.local_types st2 /\ trusted_repeat_bounds st2 = trusted_repeat_bounds st ->
      laid_out D st2).
    { intros st' [] st2 Hv Hs Hl Ht. eapply laid_out_mono; [|exact Hl|exact Ht|exact HD]. cbn in *. split; lia. }
    destruct taken.
    + eapply sim_run_weaken; [apply Hb| |intros r st' M _; by apply Hrest|done]; [by eapply laid_out_same; [| | | |exact HD]|].
      by intros c [_ Hc].
    + eapply runs_mono; [apply Hb|]. intros r st' new [M _]. split; [done|]. split; [by apply Hrest|]. by intros c _ [].
  - intros [insts r] st1 M HD1 T. apply runs_ret. split; [done|]. split; [apply mono_refl|]. by split.
Qed.

(** ** [if] *)

(** The destination has the value; without a result it is [Unit]. *)
Definition branched (D : Layout) (r : BodyLowering * ValueId) (st : LowerState) : Prop :=
  laid_out D st /\ r.2 < next_value st /\ (bl_result r.1 = None \/ bl_result r.1 = Some r.2).

Lemma if_lowers condition then_body else_body D s (b : bool) s1 v s' f args st :
  lowers (k_expr K condition) D s (V_Bool b) s1 ->
  (if b then lowers_body (k_body K then_body) D s1 v s' else forall st', quiet (k_body K then_body) st') ->
  (if negb b then lowers_body (k_body K else_body) D s1 v s' else forall st', quiet (k_body K else_body) st') ->
  laid_out D st ->
  sim env f args (lower_if K condition then_body else_body) st (matches D s) (branched D)
    (fun r c => matches D s' c /\ values c !! r.2 = Some v /\ (bl_result r.1 = None -> v = V_Unit)).
Proof.
  intros Hc Ht He HD. unfold lower_if. eapply sim_bind; [by apply Hc|]. intros d st1 M1 [HD1 Hd].
  eapply captured_bind; [by apply (branch_lowers b _ D s1 v s')|]. intros t st2 M2 HD2 T2.
  eapply captured_bind; [by apply (branch_lowers (negb b) _ D s1 v s')|]. intros e st3 M3 HD3 T3.
  apply sim_fresh.
  eapply sim_from_bind with
    (S1 := fun _ st' => laid_out D st' /\ next_value st3 < next_value st')
    (R := fun _ c => matches D s' c /\ values c !! next_value st3 = Some v /\
      (nb_result t = None -> nb_result e = None -> v = V_Unit)).
  - apply sim_emit; [split; [eapply laid_out_same; [| | | |exact HD3]; cbn; (done || lia)|cbn; lia]|].
    intros c [Hm Hcond] [Hv Hs]. cbn in Hv, Hs.
    assert (Hrun : exists c', steps env f args (if b then nb_instructions t else nb_instructions e) c c' /\
      (matches D s' c' /\ result_or_unit (values c') (if b then nb_result t else nb_result e) = v) /\ frame st1 c c').
    { destruct b.
      - apply T2; [|done]. destruct M3. split; lia.
      - destruct (T3 c) as (c' & ? & ? & ?); [split; lia|done|]. exists c'. split; [done|]. split; [done|].
        by eapply frame_trans; [exact M2|apply frame_refl|]. }
    destruct Hrun as (c' & Hsteps & [Hm' Hr] & Hf). exists (put c' (next_value st3) v).
    assert (Hlt : next_value st3 < length (values c')) by (rewrite (frame_value_count _ _ _ Hf); lia).
    split; [|split].
    + pose proof (if_ends env f args (next_value st3) d (nb_instructions t) (nb_result t) (nb_instructions e)
        (nb_result e) b c c' Hcond Hsteps Hlt) as Hi. by rewrite Hr in Hi.
    + split; [by eapply (matches_put D st3)|]. split; [by apply put_at|]. destruct b; by intros Ht' He'; rewrite <- Hr, ?Ht', ?He'.
    + eapply frame_trans; [exact (mono_trans _ _ _ M2 M3)|exact Hf|by apply frame_put].
  - intros _ st4 M4 [HD4 Hlt]. apply sim_ret.
    + split; [done|]. split; [done|]. cbn. destruct (nb_result t), (nb_result e); auto.
    + intros c (? & ? & Hnone). split; [done|]. split; [done|]. cbn.
      destruct (nb_result t), (nb_result e); try done. by intros; apply Hnone.
Qed.
(** ** [while] *)

(** The parts of the loop, of which one round is known *)
Definition while_parts D s (b : bool) s1 s2 f args st (d : ValueId) (st' : LowerState) (new : list Inst) : Prop :=
  exists ci condition bi, new = [I_While d ci condition bi] /\ next_value st <= d < next_value st' /\
    mono st st' /\ laid_out D st' /\
    triple env f args st st' ci (matches D s) (fun c => matches D s1 c /\ values c !! condition = Some (V_Bool b)) /\
    triple env f args st st' bi (fun c => b = true /\ matches D s1 c) (matches D s2).

Lemma while_runs condition body D s (b : bool) s1 v s2 f args st :
  lowers (k_expr K condition) D s (V_Bool b) s1 ->
  (if b then lowers_body (k_body K body) D s1 v s2 else forall st', quiet (k_body K body) st') -> laid_out D st ->
  runs (lower_while K condition body) st (while_parts D s b s1 s2 f args st).
Proof.
  intros Hc Hb HD. apply runs_bind. eapply runs_mono; [by apply (nested_expr_lowers _ D s (V_Bool b) s1 f args)|].
  intros [ci d] st1 n1 (-> & M1 & [HD1 Hd] & T1). apply runs_bind.
  eapply runs_mono; [by apply (branch_lowers b _ D s1 v s2 f args)|].
  intros nb st2 n2 (-> & M2 & HD2 & T2). apply runs_bind, runs_fresh_value, runs_bind, runs_emit, runs_ret. cbn.
  assert (M3 : mono st2 (set_next_value (S (next_value st2)) st2)) by (split; cbn; lia).
  exists ci, d, (nb_instructions nb). split; [done|]. destruct M1 as [M1 M1'], M2 as [M2 M2'].
  split; [cbn; lia|]. split; [split; cbn; lia|]. split; [eapply laid_out_same; [| | | |exact HD2]; cbn; (done || lia)|]. split.
  - eapply triple_mono; [apply mono_refl| |exact T1]. split; cbn; lia.
  - eapply triple_mono; [by split| |eapply triple_weaken; [| |exact T2]]; [split; cbn; lia|done|by intros c [? _]].
Qed.

Lemma while_done condition body D s s1 :
  lowers (k_expr K condition) D s (V_Bool false) s1 -> (forall st', quiet (k_body K body) st') ->
  lowers (lower_while K condition body) D s V_Unit s1.
Proof.
  intros Hc Hb f args st HD. eapply runs_mono; [by apply (while_runs _ _ D s false s1 V_Unit s1 f args)|].
  intros d st' new (ci & cond & bi & -> & Hd & M & HD' & T1 & _). split; [done|]. split; [split; [done|lia]|].
  intros c Hroom Hm. destruct (T1 c Hroom Hm) as (c1 & S1 & [Hm1 Hb1] & F1).
  assert (Hlt : d < length (values c1)) by (rewrite (frame_value_count _ _ _ F1); destruct Hroom; lia).
  exists (put c1 d V_Unit). split; [apply steps_one; by eapply loop_done|]. split.
  - split; [by eapply matches_put; [exact HD|lia|]|by apply put_at].
  - eapply frame_trans; [apply mono_refl|exact F1|]. apply frame_put. lia.
Qed.

Lemma while_round condition body D s s1 v s2 s' :
  lowers (k_expr K condition) D s (V_Bool true) s1 -> lowers_body (k_body K body) D s1 v s2 ->
  lowers (lower_while K condition body) D s2 V_Unit s' -> lowers (lower_while K condition body) D s V_Unit s'.
Proof.
  intros Hc Hb Hloop f args st HD.
  eapply runs_mono; [apply runs_and; [by apply (while_runs condition body D s true s1 v s2 f args)|by apply Hloop]|].
  intros d st' new [(ci & cond & bi & -> & Hd & M & HD' & T1 & T2) (_ & [_ Hd'] & T)].
  split; [done|]. split; [by split|]. intros c Hroom Hm.
  destruct (T1 c Hroom Hm) as (c1 & S1 & [Hm1 Hb1] & F1).
  destruct (T2 c1 (frame_room _ _ _ _ Hroom F1) (conj eq_refl Hm1)) as (c2 & S2 & Hm2 & F2).
  pose proof (frame_trans _ _ _ _ _ (mono_refl _) F1 F2) as F.
  destruct (T c2 (frame_room _ _ _ _ Hroom F) Hm2) as (c' & S3 & Q & F3). exists c'. split; [|split; [done|]].
  - apply steps_one. inversion S3 as [|i rest ca cb cd Hi Hrest]; subst. inversion Hrest; subst.
    by eapply loop_round.
  - by eapply frame_trans; [apply mono_refl|exact F|].
Qed.

(** ** [repeat] *)

(** The locals of the body, with the index at [b] *)
Definition with_index (binding : option string) (b : LocalBinding) (D : Layout) : Layout :=
  match binding with Some name => (name, (false, LT_I32, b)) :: D | None => D end.

Definition index_bound (binding : option string) (k : nat) (s : Scope) : Scope :=
  bound (option_map (fun name => (name, V_Int (Z.of_nat k))) binding) s.

Definition without_index (binding : option string) (s : Scope) : Scope :=
  match binding with Some _ => tail s | None => s end.

(** One round, wherever the index is kept *)
Definition round_lowers binding body (D : Layout) (k : nat) (s s' : Scope) : Prop :=
  forall b, exists v s1, lowers_body (k_body K body) (with_index binding b D) (index_bound binding k s) v s1 /\
    s' = without_index binding s1.

Inductive rounds binding body (D : Layout) : list nat -> Scope -> Scope -> Prop :=
  | rounds_nil s : rounds binding body D [] s s
  | rounds_cons k ks s s1 s2 :
      round_lowers binding body D k s s1 -> rounds binding body D ks s1 s2 -> rounds binding body D (k :: ks) s s2.

Lemma matches_without_index binding b D s c : matches (with_index binding b D) s c -> matches D (without_index binding s) c.
Proof. destruct binding; [|done]. intros Hm. by inversion Hm; subst. Qed.

Lemma matches_index binding b D k s c :
  matches D s c -> (is_Some binding -> held c b (V_Int (Z.of_nat k))) -> matches (with_index binding b D) (index_bound binding k s) c.
Proof. intros Hm Hh. destruct binding; [|done]. constructor; [by apply Hh|done]. Qed.

Lemma push_sim name ty mutable f args st P (S' : LocalSlotId -> LowerState -> Prop) :
  (forall st', next_value st' = next_value st -> next_slot st' = S (next_slot st) ->
     LowerState.locals st' = LowerState.locals st ->
     LowerState.local_types st' = LowerState.local_types st /\ trusted_repeat_bounds st' = trusted_repeat_bounds st ->
     S' (next_slot st) st') ->
  sim env f args (push_mutable_local name ty mutable) st P S' (fun _ => P).
Proof.
  intros HS. exists []. rewrite app_nil_r. split; [done|]. split; [split; cbn; lia|]. split; [by apply HS|].
  intros c _ HP. exists c. split; [constructor|]. split; [done|apply frame_refl].
Qed.

Definition index_slot (binding : option string) (st : LowerState) : option LocalSlotId :=
  match binding with Some _ => Some (next_slot st) | None => None end.

(** The index is a known name, and the only one that may be taken for a number
    besides those of before. *)
Definition bounds_known (name : string) (st st' : LowerState) : Prop :=
  name ∈ known_names /\
  forall name', is_Some (trusted_repeat_bounds st' !! name') -> name' = name \/ is_Some (trusted_repeat_bounds st !! name').

Lemma bounds_known_same name st st' :
  name ∈ known_names -> trusted_repeat_bounds st' = trusted_repeat_bounds st -> bounds_known name st st'.
Proof. intros Hn Ht. split; [done|]. intros name'. rewrite Ht. by right. Qed.

Lemma bounds_known_insert name n st st' :
  name ∈ known_names -> trusted_repeat_bounds st' = <[name := n]> (trusted_repeat_bounds st) -> bounds_known name st st'.
Proof.
  intros Hn Ht. split; [done|]. intros name'. rewrite Ht. destruct (decide (name' = name)) as [->|Hne]; [by left|].
  rewrite lookup_insert_ne by done. by right.
Qed.

Lemma laid_out_index binding b D st st' :
  laid_out D st -> mono st st' ->
  match binding with
  | Some name =>
      placed st' false b /\ (forall slot, b = LB_Slot slot -> next_slot st <= slot) /\
      LowerState.locals st' = <[name := b]> (LowerState.locals st) /\
      LowerState.local_types st' = <[name := LT_I32]> (LowerState.local_types st) /\
      bounds_known name st st'
  | None => LowerState.locals st' = LowerState.locals st /\ LowerState.local_types st' = LowerState.local_types st /\
      trusted_repeat_bounds st' = trusted_repeat_bounds st
  end -> laid_out (with_index binding b D) st'.
Proof.
  intros HD M. destruct binding as [name|]; cbn.
  - intros (? & ? & ? & ? & [Hname Hk]). eapply laid_out_cons; [exact HD|done..|]. intros name' Hin.
    destruct (Hk name' Hin) as [->|Hin']; [done|]. by apply (lo_trusted _ _ HD).
  - intros (? & ? & ?). destruct M. by eapply laid_out_same.
Qed.

Context (cx : FnContext) (Hcx : cx_substitutions cx = ∅).
Context (Hconsts : forall name, is_Some (lp_evaluated_consts prog !! name) -> name ∈ known_names).

(** A round in a loop, if it is [taken] *)
Lemma loop_body_lowers (taken : bool) binding count body D k s s' f args st :
  index_known binding = true -> (if taken then round_lowers binding body D k s s' else forall st', quiet (k_body K body) st') -> laid_out D st ->
  captured env f args snd (lower_repeat_body prog cx K binding count body) st
    (fun c => taken = true /\ matches (with_index binding (LB_Slot (next_slot st)) D) (index_bound binding k s) c)
    (fun r st' => laid_out D st' /\ r.1 = index_slot binding st /\ (is_Some binding -> next_slot st < next_slot st'))
    (fun _ c => matches D s' c).
Proof.
  intros Hknown Hb HD. unfold lower_repeat_body. eapply captured_then.
  - apply (captured_nested_scope env f args _ _ _ (fun o st' => laid_out D st' /\ o = index_slot binding st /\
      (is_Some binding -> next_slot st < next_slot st')) (fun _ c => matches D s' c)).
    eapply sim_bind with (R := fun _ c => taken = true /\ matches (with_index binding (LB_Slot (next_slot st)) D) (index_bound binding k s) c)
      (S1 := fun o st' => laid_out (with_index binding (LB_Slot (next_slot st)) D) st' /\ o = index_slot binding st /\
               mono st st' /\ (is_Some binding -> next_slot st < next_slot st')).
    + destruct binding as [name|].
      2: { apply sim_ret; [|done]. split; [by eapply laid_out_same; [| | | |exact HD]|]. split; [done|].
           split; [by split|]. by intros []. }
      eapply sim_bind; [apply (push_sim _ _ _ _ _ _ _ (fun slot st' => slot = next_slot st /\ mono st st' /\
          next_slot st < next_slot st' /\ LowerState.locals st' = LowerState.locals st /\
          LowerState.local_types st' = LowerState.local_types st /\ trusted_repeat_bounds st' = trusted_repeat_bounds st))|].
      { intros st' Hv Hs Hl Ht. cbn in *. split_and!; try apply Ht; try done; [split; cbn; lia|lia]. }
      intros slot st1 M1 (-> & [M2 M2'] & Hlt & Hl & Ht & Htr). cbn in M2, M2', Hl, Ht, Htr.
      apply bool_decide_eq_true in Hknown.
      do 2 (apply sim_modify; [done..|]). apply sim_gets.
      assert (HDi : forall st', next_value st' = next_value st1 -> next_slot st' = next_slot st1 ->
        LowerState.locals st' = <[name := LB_Slot (next_slot st)]> (LowerState.locals st1) ->
        LowerState.local_types st' = <[name := LT_I32]> (LowerState.local_types st1) -> bounds_known name st st' ->
        laid_out (with_index (Some name) (LB_Slot (next_slot st)) D) st').
      { intros st' E1 E2 E3 E4 Hk. apply laid_out_index with (st := st); [done|split; lia|]. cbn. rewrite E3, E4, Hl, Ht.
        split_and!; try done; [lia|]. by intros ? [= <-]. }
      destruct (repeat_static_count _ _ _ _) as [n|].
      * apply sim_modify; [done..|]. apply sim_ret; [|done]. split; [|split; [done|]; split; [split; cbn; lia|by intros; cbn]].
        apply HDi; try done. apply (bounds_known_insert name n); [done|]. cbn. by rewrite Htr.
      * apply sim_ret; [|done]. split; [|split; [done|]; split; [split; cbn; lia|by intros; cbn]].
        apply HDi; try done. by apply bounds_known_same.
    + intros o st1 M1 (HD1 & -> & M & Hslot).
      eapply sim_bind with (S1 := fun _ _ => True) (R := fun _ c => matches D s' c).
      * destruct taken.
        -- destruct (Hb (LB_Slot (next_slot st))) as (v & s1 & Hl & ->).
           eapply sim_run_weaken; [by apply Hl|by intros c [_ Hc]|done|]. intros r c [Hm _]. by eapply matches_without_index.
        -- eapply runs_mono; [apply Hb|]. intros r st' new [M' _]. split; [done|]. split; [done|]. by intros c _ [].
      * intros _ st2 M2 _. apply sim_ret; [|done]. intros st3 Hv Hs Hl Ht. destruct M as [M M'], M1, M2. cbn in *. split.
        -- eapply laid_out_mono; [|exact Hl|exact Ht|exact HD]. split; lia.
        -- split; [done|]. intros Hsome. specialize (Hslot Hsome). lia.
  - intros [insts o] st1 M1 (HD1 & Ho & Hslot) T. apply runs_ret. split; [done|]. split; [apply mono_refl|]. by split.
Qed.

(** The rounds of the loop, from the facts about each of them *)
Lemma rounds_run binding body D f args st st' insts (z : Z) ks s s' :
  rounds binding body D ks s s' -> laid_out D st -> mono st st' ->
  (is_Some binding -> next_slot st < next_slot st') ->
  (forall k s s', round_lowers binding body D k s s' -> triple env f args st st' insts
     (fun c => matches (with_index binding (LB_Slot (next_slot st)) D) (index_bound binding k s) c) (matches D s')) ->
  forall k, ks = seq k (length ks) -> (Z.of_nat (k + length ks) = z \/ (ks = [] /\ z <= Z.of_nat k)%Z) ->
  forall c, room st' c -> matches D s c ->
  exists c', repeat_ends_at env f args insts (index_slot binding st) z (Z.of_nat k) c c' /\ matches D s' c' /\ frame st c c'.
Proof.
  intros Hr HD M Hslot Hround. induction Hr as [s|k0 ks s s1 s2 Hone Hr IH]; intros k Hks Hz c Hroom Hm.
  - exists c. split; [apply repeat_done; cbn in Hz; lia|]. split; [done|apply frame_refl].
  - injection Hks as -> Hks. destruct Hz as [Hz|[? _]]; [|done]. cbn in Hz.
    assert (Hset : exists c1, set_optional_slot (index_slot binding st) (V_Int (Z.of_nat k)) c = Ok (tt, c1) /\
      matches (with_index binding (LB_Slot (next_slot st)) D) (index_bound binding k s) c1 /\ frame st c c1).
    { destruct binding as [name|]; [|exists c; split; [done|]; split; [done|apply frame_refl]].
      assert (Hlt : next_slot st < length (slots c)) by (specialize (Hslot ltac:(done)); destruct Hroom; lia).
      exists (set_slot_to c (next_slot st) (V_Int (Z.of_nat k))). split; [|split; [|apply frame_slot]].
      - cbn. unfold set_slot. by rewrite (proj2 (Nat.ltb_lt _ _) Hlt).
      - apply matches_index; [|by intros _; cbn; apply list_lookup_insert_eq]. apply matches_other_slot; [|done].
        intros Hin%(slots_placed _ _ _ (lo_placed _ _ HD)). lia. }
    destruct Hset as (c1 & E1 & Hm1 & F1). pose proof (frame_room _ _ _ _ Hroom F1) as Hroom1.
    destruct (Hround _ _ _ Hone c1 Hroom1 Hm1) as (c2 & S2 & Hm2 & F2).
    pose proof (frame_trans _ _ _ _ _ (mono_refl _) F1 F2) as F12.
    destruct (IH (S k) Hks ltac:(lia) c2 (frame_room _ _ _ _ Hroom F12) Hm2) as (c3 & E3 & Hm3 & F3).
    exists c3. split; [|split; [done|by eapply frame_trans; [apply mono_refl|exact F12|]]].
    eapply repeat_round; [lia|exact E1|exact S2|]. by replace (Z.of_nat k + 1)%Z with (Z.of_nat (S k)) by lia.
Qed.

Lemma loop_lowers binding count body D s z s1 s' :
  index_known binding = true -> lowers (k_expr K count) D s (V_Int z) s1 -> (forall st', quiet (k_body K body) st') ->
  rounds binding body D (seq 0 (Z.to_nat z)) s1 s' -> lowers (lower_loop prog cx K binding count body) D s V_Unit s'.
Proof.
  intros Hi Hc Hq Hr f args st HD. unfold lower_loop. eapply sim_bind; [by apply Hc|]. intros d st1 M1 [HD1 Hd].
  apply runs_bind. eapply runs_mono.
  { apply (runs_all (X := { x : nat * Scope * Scope | round_lowers binding body D x.1.1 x.1.2 x.2 })
      (lower_repeat_body prog cx K binding count body) st1 (fun x r st' new => triple env f args st1 st' r.2
         (fun c => matches (with_index binding (LB_Slot (next_slot st1)) D)
                     (index_bound binding (proj1_sig x).1.1 (proj1_sig x).1.2) c) (matches D (proj1_sig x).2))).
    - exact (loop_body_lowers false binding count body D 0 s1 s1 f args st1 Hi Hq HD1).
    - intros [[[k t] t'] Hround].
      eapply runs_mono; [exact (loop_body_lowers true binding count body D k t t' f args st1 Hi Hround HD1)|].
      intros r st' new (_ & _ & _ & T). by eapply triple_weaken; [| |exact T]; [|done]. }
  intros [slot insts] st2 new [(-> & M2 & (HD2 & Ho & Hslot) & _) Hrounds]. cbn in Ho, Hslot, Hrounds. subst slot.
  assert (Hall : forall k t t', round_lowers binding body D k t t' -> triple env f args st1 st2 insts
     (fun c => matches (with_index binding (LB_Slot (next_slot st1)) D) (index_bound binding k t) c) (matches D t')).
  { intros k t t' Hround. exact (Hrounds (exist _ (k, t, t') Hround)). }
  eapply runs_mono; [apply (sim_emit_value env f args st1 _ st2 (fun c => matches D s1 c /\ values c !! d = Some (V_Int z))
      (fun d st' => laid_out D st' /\ d < next_value st')
      (fun d c => matches D s' c /\ values c !! d = Some V_Unit))|].
  - intros st' Hv Hs Hl Ht. split; [|lia]. eapply laid_out_same; [| | | |exact HD2]; (done || lia).
  - intros c [Hm Hz] Hlt Hs.
    destruct (rounds_run binding body D f args st1 st2 insts z _ _ _ Hr HD1 M2 Hslot Hall 0) with (c := c)
      as (c' & Hrep & Hm' & Hf); [by rewrite length_seq|rewrite length_seq| split; lia|done|].
    { destruct (decide (0 <= z)%Z); [left; lia|right]. split; [|lia]. by replace (Z.to_nat z) with 0 by lia. }
    assert (Hlt' : next_value st2 < length (values c')) by (rewrite (frame_value_count _ _ _ Hf); lia).
    exists (put c' (next_value st2) V_Unit). split; [by eapply repeat_inst_ends|]. split.
    + split; [by eapply (matches_put D st2)|by apply put_at].
    + eapply frame_trans; [exact M2|exact Hf|by apply frame_put].
  - intros a st' new' (M3 & HS & T). cbn. split; [by eapply mono_trans|]. by split.
Qed.

(** ** Unrolling *)

Lemma copy_lowers binding n body D k s s' saved f args st :
  index_known binding = true -> round_lowers binding body D k s s' -> laid_out D saved -> mono saved st ->
  captured env f args id (unrolled_copy K saved binding n body k) st (matches D s) (fun _ _ => True) (fun _ => matches D s').
Proof.
  intros Hknown Hround HD [M M']. apply captured_modify; [done..|]. eapply captured_then.
  - apply (captured_capture env f args _ _ _ (fun _ _ => True) (fun _ c => matches D s' c)).
    eapply sim_bind with (S1 := fun _ st' => laid_out (with_index binding (LB_Value (next_value st)) D) st')
      (R := fun _ c => matches (with_index binding (LB_Value (next_value st)) D) (index_bound binding k s) c).
    + destruct binding as [name|]; [|apply sim_ret; [by eapply laid_out_same; [| | | |exact HD]|done]].
      eapply sim_bind; [apply (sim_store env f args _ (V_Int (Z.of_nat k)) _ _
        (fun d st' => d = next_value st /\ next_value st' = S (next_value st) /\ next_slot st' = next_slot st /\
           LowerState.locals st' = LowerState.locals saved /\ LowerState.local_types st' = LowerState.local_types saved /\
           trusted_repeat_bounds st' = trusted_repeat_bounds saved)
        (fun d c => matches D s c /\ values c !! d = Some (V_Int (Z.of_nat k))))|].
      * intros st' E1 E2 E3 [E4 E5]. by split_and!.
      * intros c d _ Hd. by apply simple_const.
      * intros c d Hm Hle Hd. cbn in Hle. split; [eapply (matches_put D saved); [done|lia|done]|by apply put_at].
      * intros d st1 _ (-> & Hv & Hs & Hl & Ht & Htr). do 2 (apply sim_modify; [done..|]). apply sim_modify_last; [done..| |].
        -- apply laid_out_index with (st := saved); [done|split; cbn; lia|]. cbn. rewrite Hl, Ht, Hv.
           split_and!; try done; [lia|]. apply (bounds_known_insert name n); [by apply bool_decide_eq_true in Hknown|].
           cbn. by rewrite Htr.
        -- intros c [Hm Hk]. by apply matches_index.
    + intros _ st1 M1 HD1. destruct (Hround (LB_Value (next_value st))) as (v & s1 & Hl & ->).
      eapply sim_run_weaken; [by apply Hl|done|done|]. intros r c [Hm _]. by eapply matches_without_index.
  - intros [insts r] st1 M1 _ T. apply runs_ret. split; [done|]. split; [apply mono_refl|]. split; [done|].
    eapply triple_mono; [| |exact T]; [by split|apply mono_refl].
Qed.

Lemma copies_lower binding n body D ks s s' saved f args st :
  index_known binding = true -> rounds binding body D ks s s' -> laid_out D saved -> mono saved st ->
  captured env f args (@concat Inst) (l_map (unrolled_copy K saved binding n body) ks) st (matches D s)
    (fun _ _ => True) (fun _ => matches D s').
Proof.
  intros Hknown Hr HD. revert st. induction Hr as [s|k ks s s1 s2 Hone Hr IH]; intros st M; cbn [l_map].
  - apply runs_ret. split; [done|]. split; [apply mono_refl|]. split; [done|]. intros c _ Hm. exists c.
    split; [constructor|]. split; [done|apply frame_refl].
  - eapply captured_then; [by apply (copy_lowers _ _ _ D k s s1)|]. intros insts st1 M1 _ T1.
    apply runs_bind. eapply runs_mono; [apply IH; by eapply mono_trans|]. intros l st2 n2 (-> & M2 & _ & T2).
    apply runs_ret. split; [done|]. split; [done|]. split; [done|]. cbn. by eapply triple_app.
Qed.

Lemma unroll_lowers binding n body D s s' :
  index_known binding = true -> rounds binding body D (seq 0 n) s s' -> lowers (unroll_repeat K binding n body) D s V_Unit s'.
Proof.
  intros Hknown Hr f args st HD. unfold unroll_repeat. apply sim_gets.
  eapply captured_bind; [apply (copies_lower binding n body D _ s s' st f args st Hknown Hr HD (mono_refl _))|].
  intros chunks st1 M _ T. cbn [id]. apply sim_modify; [done..|].
  assert (HD1 : forall l, laid_out D (set_instructions l (set_locals (LowerState.locals st) (set_local_types (LowerState.local_types st)
                        (set_trusted (trusted_repeat_bounds st) st1))))).
  { intros l. destruct M. by eapply laid_out_same; [| | | |exact HD]. }
  eapply sim_from_bind with (S1 := fun _ st' => laid_out D st') (R := fun _ => matches D s').
  - apply sim_extend; [by apply HD1|]. eapply triple_mono; [apply mono_refl| |exact T]. by split.
  - intros _ st2 M2 HD2. apply sim_sim_from; [destruct M, M2; split; cbn in *; lia|]. by apply unit_lowers.
Qed.

(** A count that is no known name is not taken for a number. *)
Lemma plain_count_dynamic D st name span :
  laid_out D st -> plain_count (E_Name name span) = true -> repeat_static_count prog cx (E_Name name span) st = None.
Proof.
  intros HD Hn%bool_decide_eq_true. cbn. unfold name_static_index_bound, int_const.
  destruct (trusted_repeat_bounds st !! name) as [n|] eqn:E.
  { destruct Hn. apply (lo_trusted _ _ HD). by exists n. }
  rewrite Hcx. change (∅ !! name) with (@None nat). destruct (lp_evaluated_consts prog !! name) as [v|] eqn:Ev; [|done].
  destruct Hn. apply Hconsts. by exists v.
Qed.

Lemma repeat_lowers binding count body D s z s1 s' :
  lowers (k_expr K count) D s (V_Int z) s1 -> (forall st', quiet (k_body K body) st') ->
  rounds binding body D (seq 0 (Z.to_nat z)) s1 s' ->
  plain_count count = true -> index_known binding = true ->
  (forall value span, count = E_Integer value span -> z = value /\ s1 = s) ->
  lowers (lower_repeat prog cx K binding count body) D s V_Unit s'.
Proof.
  intros Hc Hq Hr Hname Hknown Hlit f args st HD. unfold lower_repeat. apply sim_gets.
  assert (Hloop : sim env f args (lower_loop prog cx K binding count body) st (matches D s)
    (fun d st' => laid_out D st' /\ d < next_value st') (fun d c => matches D s' c /\ values c !! d = Some V_Unit))
    by by apply (loop_lowers _ _ _ D s z s1 s').
  destruct count; try exact Hloop; [|by rewrite (plain_count_dynamic _ _ _ _ HD Hname)]. cbn. destruct (Hlit _ _ eq_refl) as [-> ->].
  unfold usize_of in *. destruct (0 <=? value)%Z; [|exact Hloop]. by apply unroll_lowers.
Qed.
End Lowers.

(** * Lowering to the MIR: operators, calls and statements

    The forms whose instructions depend on types, on other functions, or on the
    locals they declare. *)

(** ** Operators *)

Section Operators.
Context `{Platform} (env : Env).

Lemma operator_plain op ty ty' l r :
  operator_type op ty = Some ty' -> has_type ty l = true -> has_type ty r = true ->
  plain_operands op l r = true /\ only_compile_time op l r = false /\
  runtime_value_lower_type l = ty /\ runtime_value_lower_type r = ty.
Proof. by destruct op, ty; try done; destruct l; try done; destruct r. Qed.

Lemma operator_typed checks op ty ty' l r v sp lsp rsp :
  operator_type op ty = Some ty' -> has_type ty l = true -> has_type ty r = true ->
  const_binary checks op l r sp lsp rsp = O_Value v -> has_type ty' v = true.
Proof.
  destruct op, ty; try done; destruct l; try done; destruct r; try done; cbn; unfold const_checked, const_quotient;
    repeat case_match; try done; intros Hop _ _ Hv; injection Hop as <-; injection Hv as <-; done.
Qed.

Lemma operator_ends op ty ty' l r v sp lsp rsp f args c (d dl dr : ValueId) :
  operator_type op ty = Some ty' -> has_type ty l = true -> has_type ty r = true ->
  const_binary (overflow_checks env) op l r sp lsp rsp = O_Value v ->
  values c !! dl = Some l -> values c !! dr = Some r -> d < length (values c) ->
  inst_ends env f args (lower_binary_inst op ty ty d dl dr) c (put c d v).
Proof.
  intros Hop Hl Hr Hv El Er Hd. destruct (operator_plain _ _ _ _ _ Hop Hl Hr) as (Hp & Ho & T1 & T2).
  destruct (operator_gives env f args c d dl dr l r op sp lsp rsp El Er Hd Hp) as (m & Hm & [Hg|Hbad]);
    [|by rewrite Hbad in Ho].
  rewrite Hv in Hg. unfold binary_inst in Hm. rewrite T1, T2 in Hm. by eapply simple_ends.
Qed.
End Operators.

(** The value of a literal, which lowering looks at itself *)
Definition literal_value (e : Expr) (s : Scope) (v : RuntimeValue) (s' : Scope) : Prop :=
  match e with E_Integer z _ => v = V_Int z /\ s' = s | _ => True end.

Section Forms.
Context `{Platform, KnownNames} (env : Env) (functions : gmap string Hir.Function) (prog : LowerProgram) (const_fuel : nat).
Context (Hprog : coherent functions prog) (Hchecks : lp_overflow_checks prog = overflow_checks env).
Context (cx : FnContext) (Hcx : cx_substitutions cx = ∅) (K : LowerKnot).

Notation lowers := (lowers env).
Notation typed D e ty := (expr_type functions (types_of D) e = Some ty).

Lemma infer_laid_out D st e ty :
  laid_out D st -> typed D e ty -> infer_expr_type prog cx (LowerState.local_types st) e = ty.
Proof.
  intros HD. apply infer_typed; [by destruct Hprog|done|]. intros name m t. by apply types_find.
Qed.

Lemma binary_lowers D s op l r span ty lv s1 rv s' v :
  typed D (E_Binary op l r span) ty ->
  (forall lt, typed D l lt -> has_type lt lv = true) -> (forall rt, typed D r rt -> has_type rt rv = true) ->
  lowers (k_expr K l) D s lv s1 -> lowers (k_expr K r) D s1 rv s' ->
  literal_value l s lv s1 -> literal_value r s1 rv s' ->
  const_binary (overflow_checks env) op lv rv span (expr_span l) (expr_span r) = O_Value v ->
  has_type ty v = true /\ lowers (lower_binary prog cx K op l r) D s v s'.
Proof.
  cbn [expr_type]. destruct (expr_type functions (types_of D) l) as [lt|] eqn:Elt; [|done].
  destruct (expr_type functions (types_of D) r) as [rt|] eqn:Ert; [|done]. cbn.
  destruct (_ && _) eqn:Hsame; [|done]. apply andb_true_iff in Hsame as [->%bool_decide_eq_true Hfl].
  intros Hop Hlv Hrv Hl Hr Hlit Hlit' Hv. specialize (Hlv _ eq_refl). specialize (Hrv _ eq_refl).
  assert (Hty : has_type ty v = true) by exact (operator_typed _ _ _ _ _ _ _ _ _ _ Hop Hlv Hrv Hv).
  split; [done|]. intros f args st HD. unfold lower_binary.
  destruct (match l with E_Integer _ _ => _ | _ => _ end) as [o|] eqn:Hfold.
  - destruct l; try done; destruct r; try done. cbn in Hlit, Hlit'. destruct Hlit as [-> ->], Hlit' as [-> ->].
    rewrite Hchecks in Hfold.
    destruct (fold_is_binary (overflow_checks env) op (V_Int value) (V_Int value0) o span
      (expr_span (E_Integer value span0)) (expr_span (E_Integer value0 span1)) Hfold) as [->|[-> _]]; [|done].
    rewrite Hv. cbn. injection Elt as <-. apply (runtime_value_lowers env cx v ty); [done| |done].
    destruct op; try discriminate Hop; injection Hop as <-; auto.
  - eapply sim_bind; [by apply Hl|]. intros dl st1 M1 [HD1 Hdl].
    eapply sim_bind; [apply sim_holds; [exact Hdl|by apply Hr]|]. intros dr st2 M2 [HD2 Hdr].
    apply sim_gets, sim_gets. rewrite (infer_laid_out D st2 l rt HD2 Elt), (infer_laid_out D st2 r rt HD2 Ert).
    assert (Hw : forall a b, widen a b rt rt = l_ret (a, b)) by by destruct rt. rewrite Hw.
    eapply sim_bind with (S1 := fun ab st' => ab = (dl, dr) /\ st' = st2)
      (R := fun _ c => (matches D s' c /\ values c !! dr = Some rv) /\ values c !! dl = Some lv); [by apply sim_ret|].
    intros ab st3 _ [-> ->]. apply sim_store with (v := v).
    + intros st' E1 E2 E3 E4. split; [|lia]. eapply laid_out_same; [| | | |exact HD2]; (done || lia).
    + intros c d [[_ Er] El] Hd. exact (operator_ends _ _ _ _ _ _ _ _ _ _ _ _ _ _ _ _ Hop Hlv Hrv Hv El Er Hd).
    + intros c d [[Hm _] _] Hle Hd. split; [by eapply matches_put|by apply put_at].
Qed.

(** ** [not] *)

Lemma not_lowers D s e span (b : bool) s' :
  lowers (k_expr K e) D s (V_Bool b) s' ->
  lowers (lower_expr prog const_fuel cx K (E_Unary U_Not e span)) D s (V_Bool (negb b)) s'.
Proof.
  intros He f args st HD. cbn [lower_expr]. eapply sim_bind; [by apply He|]. intros d st1 M1 [HD1 Hd].
  eapply sim_bind; [apply sim_holds; [exact Hd|by apply (bool_lowers env false)]|]. intros d' st2 M2 [HD2 Hd'].
  apply sim_store with (v := V_Bool (negb b)).
  - intros st' E1 E2 E3 E4. split; [|lia]. eapply laid_out_same; [| | | |exact HD2]; (done || lia).
  - intros c d2 [[_ E2] E1] Hlt. eapply simple_ends; [reflexivity|]. unfold run_equality. run_op. rewrite set_value_put by done. by destruct b.
  - intros c d2 [[Hm _] _] Hle Hlt. split; [by eapply matches_put|by apply put_at].
Qed.

(** ** Calls *)

(** The values of arguments, in order *)
Definition held_all (ds : list ValueId) (vs : list RuntimeValue) (c : Core) : Prop :=
  Forall2 (fun d v => values c !! d = Some v) ds vs.

Definition lowers_args (args : list Expr) (D : Layout) (s : Scope) (vs : list RuntimeValue) (s' : Scope) : Prop :=
  forall f fargs st, laid_out D st ->
    sim env f fargs (l_map (k_expr K) args) st (matches D s)
      (fun ds st' => laid_out D st' /\ Forall (fun d => d < next_value st') ds)
      (fun ds c => matches D s' c /\ held_all ds vs c).

Lemma args_nil D s : lowers_args [] D s [] s.
Proof. intros f fargs st HD. apply sim_ret; [done|]. intros c Hm. split; [done|constructor]. Qed.

Lemma args_cons e args D s v s1 vs s' :
  lowers (k_expr K e) D s v s1 -> lowers_args args D s1 vs s' -> lowers_args (e :: args) D s (v :: vs) s'.
Proof.
  intros He Hargs f fargs st HD. cbn [l_map]. eapply sim_bind; [by apply He|]. intros d st1 M1 [HD1 Hd].
  eapply sim_bind; [apply sim_holds; [exact Hd|by apply Hargs]|]. intros ds st2 M2 [HD2 Hds].
  apply sim_ret.
  - split; [done|]. constructor; [destruct M2; lia|done].
  - intros c [[Hm Hh] Hv]. split; [done|]. by constructor.
Qed.

(** The callee's instructions end in its frame, from any heap. *)
Definition returns (g : Mir.Function) (args : list RuntimeValue) (v : RuntimeValue) : Prop :=
  forall h, exists c, steps env g args (fn_instructions g)
                        (mkCore h (fresh (fn_value_count g)) (fresh (fn_slot_count g))) c /\
    heap c = h /\ fn_value_count g <= length (values c) /\ result_or_unit (values c) (fn_result g) = v.

Lemma runtime_call_lowers callee args D s vs s' g v :
  lowers_args args D s vs s' -> env_function env callee = Some g -> returns g vs v ->
  lowers (lower_runtime_call (k_expr K) callee args) D s v s'.
Proof.
  intros Hargs Hg Hret f fargs st HD. unfold lower_runtime_call. apply sim_fresh.
  assert (HD0 : laid_out D (set_next_value (S (next_value st)) st)).
  { eapply laid_out_same; [| | | |exact HD]; cbn; (done || lia). }
  eapply sim_from_bind; [apply sim_sim_from; [split; cbn; lia|by apply Hargs]|].
  intros ds st1 M1 [HD1 Hds]. destruct M1 as [M1 M1']. cbn in M1.
  eapply sim_from_bind with (S1 := fun _ st' => laid_out D st' /\ next_value st < next_value st')
    (R := fun _ c => matches D s' c /\ values c !! next_value st = Some v).
  - apply sim_emit; [split; [by eapply laid_out_same; [| | | |exact HD1]|cbn; lia]|].
    intros c [Hm Hh] [Hroom _]. destruct (Hret (heap c)) as (c1 & Hsteps & Hheap & _ & Hv).
    exists (put c (next_value st) v). split; [|split; [split|]].
    + assert (Hlt : next_value st < length (values c)) by lia.
      pose proof (call_ends env f fargs (next_value st) callee ds vs g c c1 Hg Hh Hsteps Hlt) as Hi.
      rewrite Hv, Hheap in Hi. by destruct c.
    + by eapply (matches_put D st).
    + apply put_at. lia.
    + by apply frame_put.
  - intros _ st2 M2 [HD2 Hlt]. by apply sim_ret.
Qed.

Lemma call_lowers callee args span ty D s vs s' g v :
  typed D (E_Call callee args span) ty -> lowers_args args D s vs s' -> env_function env callee = Some g ->
  returns g vs v -> lowers (lower_call prog cx K callee args span) D s v s'.
Proof.
  rewrite expr_type_call. destruct (functions !! callee) as [fn|] eqn:Hf; [|done]. cbn.
  destruct (args_type functions (types_of D) args) as [tys|] eqn:Htys; [|done]. cbn.
  destruct (split_enum_variant_path callee) eqn:Hs; [done|]. intros _ Hargs Hg Hret f fargs st HD. unfold lower_call.
  assert (Hb : try_lower_builtin_call_expr prog cx (k_expr K) callee args span = l_ret None).
  { unfold try_lower_builtin_call_expr, builtin_is_available. by rewrite (coherent_returns _ _ Hprog _ _ Hf). }
  rewrite Hb. apply sim_bind_ret. rewrite (split_constructor prog _ Hs), (coherent_generic _ _ Hprog _ _ Hf).
  apply sim_bind_ret. by eapply runtime_call_lowers.
Qed.

(** ** Statements *)

(** New locals are in front; [L] and [L'] are the types before and after. *)
Definition lowers_stmts {A} (m : L A) (types : Locals) (s : Scope) (types' : Locals) (s' : Scope) : Prop :=
  forall D f args st, types_of D = types -> laid_out D st ->
    runs m st (fun _ st' new => mono st st' /\ exists D2, types_of (D2 ++ D) = types' /\ laid_out (D2 ++ D) st' /\
      triple env f args st st' new (matches D s) (matches (D2 ++ D) s')).

Lemma stmts_done (types : Locals) s : lowers_stmts (l_ret tt) types s types s.
Proof.
  intros D f args st HT HD. apply runs_ret. split; [apply mono_refl|]. exists []. split; [done|]. split; [done|].
  intros c _ Hm. exists c. split; [constructor|]. split; [done|apply frame_refl].
Qed.

Lemma stmts_cons {A} (m1 : L unit) (m2 : L A) t s t1 s1 t2 s2 :
  lowers_stmts m1 t s t1 s1 -> lowers_stmts m2 t1 s1 t2 s2 -> lowers_stmts (m1 ;+ m2) t s t2 s2.
Proof.
  intros H1 H2 D f args st HT HD. apply runs_bind. eapply runs_mono; [by apply (H1 D f args)|].
  intros _ st1 n1 (M1 & D1 & HT1 & HD1 & T1). eapply runs_mono; [by apply (H2 (D1 ++ D) f args)|].
  intros a st2 n2 (M2 & D2 & HT2 & HD2 & T2). split; [by eapply mono_trans|]. exists (D2 ++ D1).
  rewrite <- app_assoc. split; [done|]. split; [done|]. by eapply triple_app.
Qed.

(** A method that declares nothing *)
Lemma stmts_of_sim {A} (m : L A) (t : Locals) s s' :
  (forall D f args st, types_of D = t -> laid_out D st ->
     sim env f args m st (matches D s) (fun _ st' => laid_out D st') (fun _ => matches D s')) ->
  lowers_stmts m t s t s'.
Proof.
  intros Hm D f args st HT HD. eapply runs_mono; [by apply Hm|]. intros a st' new (M & HD' & T).
  split; [done|]. by exists [].
Qed.

Lemma expr_stmt_lowers e t s v s' :
  (forall D, types_of D = t -> lowers (k_expr K e) D s v s') -> lowers_stmts (k_expr K e ;+ l_ret tt) t s t s'.
Proof.
  intros He. apply stmts_of_sim. intros D f args st HT HD.
  eapply sim_bind; [by apply He|]. intros d st1 M1 [HD1 Hd]. apply sim_ret; [done|]. by intros c [Hm _].
Qed.

(** A new local, once its value is there *)
Lemma bind_lowers name ty mutable (d : ValueId) (refused : L unit) D s v f args st :
  scalar ty = true -> laid_out D st -> d < next_value st ->
  runs (let+ bound := bind_local name ty d mutable mutable in if bound : bool then l_ret tt else refused) st
    (fun _ st' new => mono st st' /\ exists b, laid_out ((name, (mutable, ty, b)) :: D) st' /\
      triple env f args st st' new (fun c => matches D s c /\ values c !! d = Some v)
        (matches ((name, (mutable, ty, b)) :: D) ((name, (mutable, v)) :: s))).
Proof.
  intros Hty HD Hd. destruct mutable.
  - assert (Hb : exists st', bind_local name ty d true true st = L_Ok true st' /\
      instructions st' = instructions st ++ [I_StoreLocal (next_slot st) d] /\ next_value st' = next_value st /\
      next_slot st' = S (next_slot st) /\ LowerState.locals st' = <[name := LB_Slot (next_slot st)]> (LowerState.locals st) /\
      LowerState.local_types st' = <[name := ty]> (LowerState.local_types st) /\
      trusted_repeat_bounds st' = trusted_repeat_bounds st)
      by (destruct ty; try done; eexists; by split_and!).
    destruct Hb as (st' & E & Hi & Hv & Hs & Hl & Ht & Htr). unfold runs, l_bind. rewrite E. cbn.
    assert (M : mono st st') by (split; lia).
    exists [I_StoreLocal (next_slot st) d]. split; [done|]. split; [done|]. exists (LB_Slot (next_slot st)). split.
    + apply laid_out_cons with (st := st); try done; [cbn; lia|by intros slot [= <-]|].
      rewrite Htr. apply (lo_trusted _ _ HD).
    + intros c [_ Hroom] [Hm Hval]. rewrite Hs in Hroom.
      exists (set_slot_to c (next_slot st) v). split; [|split; [|apply frame_slot]].
      * apply steps_one. eapply simple_ends; [reflexivity|]. unfold mbind, extract_value, get_values, mbind. rewrite Hval.
        cbn. unfold set_slot. by rewrite (proj2 (Nat.ltb_lt _ _) Hroom).
      * constructor; [by cbn; apply list_lookup_insert_eq|]. apply matches_other_slot; [|done].
        intros Hin%(slots_placed _ _ _ (lo_placed _ _ HD)). lia.
  - assert (Hb : exists st', bind_local name ty d false false st = L_Ok true st' /\
      instructions st' = instructions st /\ next_value st' = next_value st /\ next_slot st' = next_slot st /\
      LowerState.locals st' = <[name := LB_Value d]> (LowerState.locals st) /\
      LowerState.local_types st' = <[name := ty]> (LowerState.local_types st) /\
      trusted_repeat_bounds st' = trusted_repeat_bounds st) by (eexists; by split_and!).
    destruct Hb as (st' & E & Hi & Hv & Hs & Hl & Ht & Htr). unfold runs, l_bind. rewrite E. cbn.
    assert (M : mono st st') by (split; lia).
    exists []. rewrite app_nil_r. split; [done|]. split; [done|]. exists (LB_Value d). split.
    + apply laid_out_cons with (st := st); try done; [split; [done|lia]|]. rewrite Htr. apply (lo_trusted _ _ HD).
    + intros c _ [Hm Hval]. exists c. split; [constructor|]. split; [by constructor|apply frame_refl].
Qed.

Lemma let_lowers mutable name e span t t' s v s' ty :
  expr_type functions t e = Some ty -> stmt_type functions t (S_Let mutable name e span) = Some t' ->
  (forall D, types_of D = t -> lowers (k_expr K e) D s v s') ->
  lowers_stmts (lower_let prog cx K mutable name e span) t s t'
    (if String.eqb name "_" then s' else (name, (mutable, v)) :: s').
Proof.
  intros Hty. rewrite stmt_type_eq, Hty. cbn. intros Ht' He. unfold lower_let. destruct (name =? "_")%string.
  - injection Ht' as <-. apply stmts_of_sim. intros D f args st <- HD.
    eapply sim_bind; [by apply He|]. intros d st1 M1 [HD1 Hd]. apply sim_gets. apply sim_ret; [done|]. by intros c [Hm _].
  - destruct (scalar ty) eqn:Hsc; [|done]. injection Ht' as <-. intros D f args st <- HD.
    apply runs_bind. eapply runs_mono; [by apply (He D eq_refl f args)|]. intros d st1 n1 (M1 & [HD1 Hd] & T1).
    apply runs_bind, runs_gets. rewrite (infer_laid_out D st1 e ty HD1 Hty).
    eapply runs_mono; [by apply (bind_lowers name ty mutable d _ D s' v f args)|].
    intros _ st2 n2 (M2 & b & HD2 & T2). split; [by eapply mono_trans|]. exists [(name, (mutable, ty, b))].
    split; [done|]. split; [done|]. by eapply triple_app.
Qed.

Lemma assign_lowers name nspan e span t s v s' ty :
  expr_type functions t e = Some ty -> local_find name t = Some (true, ty) -> scope_typed t s' -> has_type ty v = true ->
  (forall D, types_of D = t -> lowers (k_expr K e) D s v s') ->
  lowers_stmts (lower_assign prog cx K (E_Name name nspan) e span) t s t (scope_set name v s').
Proof.
  intros Hty Hf Hs Hv He. apply stmts_of_sim. intros D f args st <- HD. unfold lower_assign.
  eapply sim_bind; [by apply He|]. intros d st1 M1 [HD1 Hd]. unfold assign_name. cbv zeta. apply sim_gets.
  apply scope_typed_of in Hs. destruct (types_of_find _ _ _ _ Hf) as [b Hb].
  destruct (lo_names _ _ HD1 _ _ _ _ Hb) as [-> Hlt]. pose proof (placed_find _ _ _ _ _ _ (lo_placed _ _ HD1) Hb) as Hp.
  destruct b as [i|slot|]; [by destruct Hp|cbn in Hp|done].
  eapply sim_from_bind with (S1 := fun _ st' => next_value st' = next_value st1 /\ next_slot st' = next_slot st1 /\
      LowerState.locals st' = LowerState.locals st1 /\ LowerState.local_types st' = LowerState.local_types st1 /\
      trusted_repeat_bounds st' = trusted_repeat_bounds st1)
    (R := fun _ => matches D (scope_set name v s')).
  - apply sim_emit; [done|]. intros c [Hm Hval] [_ Hroom]. exists (set_slot_to c slot v).
    split; [|split; [|apply frame_slot]].
    + eapply simple_ends; [reflexivity|]. unfold mbind, extract_value, get_values, mbind. rewrite Hval. cbn.
      unfold set_slot. by rewrite (proj2 (Nat.ltb_lt _ _) (Nat.lt_le_trans _ _ _ Hp Hroom)).
    + eapply matches_set_slot; try done; [apply HD1|lia].
  - intros _ st2 M2 (E1 & E2 & E3 & E4). apply sim_gets.
    assert (HD2 : laid_out D st2) by (eapply laid_out_same; [| | | |exact HD1]; (done || lia)).
    rewrite (infer_laid_out D st2 e ty HD2 Hty). apply sim_modify_last; [done..| |done].
    eapply laid_out_same; [| | | |exact HD2]; try (cbn; lia); [done|]. cbn. split; [|done]. apply insert_id.
    by rewrite (proj1 E4).
Qed.

(** ** Functions *)

(** Registering a type emits nothing and changes the table of arrays only. *)
Lemma register_only ty st : exists name generated, register_type_name ty st = L_Ok name (set_generated_arrays generated st).
Proof.
  revert st. induction ty as [| | | | | | | | | | |element IH|element IH len|]; intros st;
    try (by eexists _, (generated_arrays st); destruct st).
  destruct (IH st) as ([name|] & generated & E); cbn [register_type_name]; unfold l_bind; rewrite E.
  - cbn. destruct (generated !! _); [by eexists _, generated|by eexists _, _].
  - by exists None, generated.
Qed.

Lemma register_sim f args ty D st (P : Core -> Prop) :
  laid_out D st -> sim env f args (register_type_name ty ;+ l_ret tt) st P (fun _ st' => laid_out D st') (fun _ => P).
Proof.
  intros HD. destruct (register_only ty st) as (name & generated & E). unfold sim, sim_from, runs, l_bind. rewrite E.
  exists []. cbn. rewrite app_nil_r. split; [done|]. split; [by split|]. split; [by eapply laid_out_same; [| | | |exact HD]|].
  intros c _ HP. exists c. split; [constructor|]. split; [done|apply frame_refl].
Qed.

Lemma each_sim {A} f args (g : A -> L unit) l D st (P : Core -> Prop) :
  (forall a st, laid_out D st -> sim env f args (g a) st P (fun _ st' => laid_out D st') (fun _ => P)) ->
  laid_out D st -> sim env f args (l_each g l) st P (fun _ st' => laid_out D st') (fun _ => P).
Proof.
  intros Hg. revert st. induction l as [|a rest IH]; intros st HD; cbn [l_each]; [by apply sim_ret|].
  eapply sim_bind; [by apply Hg|]. intros [] st1 _ HD1. by apply IH.
Qed.

Lemma signature_sim f args D st (P : Core -> Prop) :
  laid_out D st -> sim env f args (ensure_signature_types_registered cx) st P (fun _ st' => laid_out D st') (fun _ => P).
Proof.
  intros HD. eapply sim_bind; [apply (each_sim f args _ _ D); [intros; by apply register_sim|done]|].
  intros [] st1 _ HD1. destruct (Hir.fn_return_type (cx_function cx)); [by apply register_sim|by apply sim_ret].
Qed.

(** The scope a call starts in *)
Definition call_scope (params : list Hir.Param) (args : list RuntimeValue) : Scope :=
  rev (map (fun '(p, arg) => (Hir.param_name p, (false, arg))) (combine params args)).

Lemma param_lowers f fargs index p D s v st :
  scalar (type_of_ref (Hir.param_ty p)) = true -> fargs !! index = Some v -> laid_out D st ->
  runs (let+ dest := emit_value (fun dest => I_LoadParam dest index) in
        bind_local (Hir.param_name p) (lower_type_ref cx (Hir.param_ty p)) dest false true ;+ l_ret tt) st
    (fun _ st' new => mono st st' /\ exists b,
      laid_out ((Hir.param_name p, (false, type_of_ref (Hir.param_ty p), b)) :: D) st' /\
      triple env f fargs st st' new (matches D s)
        (matches ((Hir.param_name p, (false, type_of_ref (Hir.param_ty p), b)) :: D) ((Hir.param_name p, (false, v)) :: s))).
Proof.
  intros Hty Hv HD. unfold lower_type_ref. rewrite Hcx. fold (type_of_ref (Hir.param_ty p)).
  set (ty := type_of_ref (Hir.param_ty p)) in *. apply runs_bind.
  eapply runs_mono; [apply (sim_store env f fargs _ v st (matches D s) (fun d st' => laid_out D st' /\ d < next_value st')
    (fun d c => matches D s c /\ values c !! d = Some v))|].
  - intros st' E1 E2 E3 E4. split; [|lia]. eapply laid_out_same; [| | | |exact HD]; (done || lia).
  - intros c d _ Hd. eapply simple_ends; [reflexivity|]. unfold load_param, mbind. rewrite Hv. cbn. by apply set_value_put.
  - intros c d Hm Hle Hd. split; [by eapply matches_put|by apply put_at].
  - intros d st1 n1 (M1 & [HD1 Hd] & T1).
    assert (Hb : exists st', bind_local (Hir.param_name p) ty d false true st1 = L_Ok true st' /\
      instructions st' = instructions st1 /\ next_value st' = next_value st1 /\ next_slot st' = next_slot st1 /\
      LowerState.locals st' = <[Hir.param_name p := LB_Value d]> (LowerState.locals st1) /\
      LowerState.local_types st' = <[Hir.param_name p := ty]> (LowerState.local_types st1) /\
      trusted_repeat_bounds st' = trusted_repeat_bounds st1)
      by (clearbody ty; destruct ty; try done; eexists; by split_and!).
    destruct Hb as (st' & E & Hi & Hv' & Hs & Hl & Ht & Htr). unfold runs, l_bind. rewrite E. cbn.
    assert (M : mono st1 st') by (split; lia).
    exists []. rewrite !app_nil_r. split; [done|]. split; [by eapply mono_trans|]. exists (LB_Value d). split.
    + apply laid_out_cons with (st := st1); try done; [split; [done|lia]|]. rewrite Htr. apply (lo_trusted _ _ HD1).
    + intros c Hroom Hm. destruct (T1 c (room_mono _ _ _ M Hroom) Hm) as (c1 & S1 & [Hm1 Hval] & F1).
      exists c1. split; [done|]. split; [by constructor|done].
Qed.

Lemma params_lower f fargs (l : list (nat * Hir.Param)) vs D s st :
  Forall2 (fun ip v => scalar (type_of_ref (Hir.param_ty ip.2)) = true /\ fargs !! ip.1 = Some v) l vs -> laid_out D st ->
  runs (l_each (fun '(index, param) =>
    let+ dest := emit_value (fun dest => I_LoadParam dest index) in
    bind_local (Hir.param_name param) (lower_type_ref cx (Hir.param_ty param)) dest false true ;+
    l_ret tt) l) st (fun _ st' new => mono st st' /\ exists D',
      types_of D' = rev (map (fun ip => (Hir.param_name ip.2, (false, type_of_ref (Hir.param_ty ip.2)))) l) ++ types_of D /\
      laid_out D' st' /\ triple env f fargs st st' new (matches D s)
        (matches D' (call_scope (map snd l) vs ++ s))).
Proof.
  intros Hl. revert D s st. induction Hl as [|[index p] v l vs [Hty Hv] Hl IH]; intros D s st HD; cbn [l_each].
  { apply runs_ret. split; [apply mono_refl|]. exists D. split; [done|]. split; [done|]. intros c _ Hm. exists c.
    split; [constructor|]. split; [done|apply frame_refl]. }
  apply runs_bind. eapply runs_mono; [by apply (param_lowers f fargs index p D s v)|].
  intros _ st1 n1 (M1 & b & HD1 & T1). eapply runs_mono; [by apply (IH ((Hir.param_name p, (false, type_of_ref (Hir.param_ty p), b)) :: D) ((Hir.param_name p, (false, v)) :: s))|].
  intros _ st2 n2 (M2 & D' & HT & HD' & T2). split; [by eapply mono_trans|]. exists D'. split; [|split; [done|]].
  - rewrite HT. cbn. by rewrite <- app_assoc.
  - unfold call_scope in *. cbn. rewrite <- app_assoc. by eapply triple_app.
Qed.

End Forms.
