(* ===== verification/LowerCorrect.v ===== *)
(** * Lowering to the MIR: what lowered code computes

    Typed code that has a value by lexical scope ([ConstLexical.v]) runs to it
    when it is lowered: by induction on the evaluation, for expressions, bodies
    and calls at once.  Then what a [for] means once it is a [repeat] in an [if],
    and the whole way from the text of a program to the value of a call. *)
From stdpp Require Import gmap pretty.
From S2P Require Import Lexer Parser ParserSpec LexerSpec Resolve Ast AstLower HirLower FrontSpec.
From S2P Require Import ConstFold Hir SemType ConstEval ConstState ConstRel ConstLexical ConstRefine ConstSpec Prelude Syntax Utf8 TextOps Float64 Mir.
From S2P Require Import Interp Exec Machine Entry Eval Invariant Samples LowerState LowerTypes LowerOps LowerBuiltins LowerMatch LowerArrays Lower.
From S2P Require Import LowerWp LowerNumbering LowerNumbered LowerExec LowerFragment LowerKeeps LowerSim LowerSamples LowerSpec.

Open Scope nat_scope.

(** ** Tails and bodies *)

Section Bodies.
Context `{Platform, KnownNames} (env : Env) (functions : gmap string Hir.Function) (prog : LowerProgram) (const_fuel : nat).
Context (cx : FnContext) (K : LowerKnot).

Lemma value_tail m (u : bool) D s v s' :
  lowers env m D s v s' -> (u = true -> v = V_Unit) ->
  lowers_body env (let+ value := m in l_ret (with_result (if u then None else Some value))) D s v s'.
Proof.
  intros Hm Hu f args st HD. eapply sim_bind; [by apply Hm|]. intros d st1 M1 [HD1 Hd]. apply sim_ret; [done|].
  intros c [Hc Hv]. split; [done|]. destruct u; cbn; [by rewrite Hu|by rewrite Hv].
Qed.

Lemma unit_tail m D s s' : lowers env m D s V_Unit s' -> lowers_body env (m ;+ l_ret (with_result None)) D s V_Unit s'.
Proof. intros Hm. by apply (value_tail m true). Qed.

Lemma some_tail m D s v s' :
  lowers env m D s v s' -> lowers_body env (let+ value := m in l_ret (with_result (Some value))) D s v s'.
Proof. intros Hm. by apply (value_tail m false). Qed.

Lemma stmts_suffix t stmts t' : stmts_type functions t stmts = Some t' -> exists new, t' = new ++ t.
Proof.
  revert t. induction stmts as [|s stmts IH]; intros t; cbn; [intros [= <-]; by exists []|].
  destruct (stmt_type functions t s) as [t1|] eqn:E; [|done]. cbn. intros (new & ->)%IH.
  assert (Hone : exists new', t1 = new' ++ t); [|destruct Hone as (new' & ->); exists (new ++ new'); by rewrite app_assoc].
  destruct s as [mutable name value span|target value span|e span|]; rewrite stmt_type_eq in E; try done.
  - destruct (expr_type functions t value); [|done]. cbn in E. destruct (name =? "_")%string; [injection E as <-; by exists []|].
    destruct (scalar _); [injection E as <-; by eexists [_]|done].
  - destruct target; try done. destruct (expr_type functions t value); [|done]. cbn in E.
    repeat case_match; try done. injection E as <-. by exists [].
  - destruct (expr_type functions t e); [|done]. injection E as <-. by exists [].
Qed.

Lemma body_lowers stmts tail span t' D s s1 v s2 :
  stmts_type functions (types_of D) stmts = Some t' ->
  lowers_stmts env (l_each (lower_stmt prog cx K) stmts) (types_of D) s t' s1 ->
  (forall D', types_of D' = t' ->
     lowers_body env (match tail with Some e => lower_tail_expr prog const_fuel cx K e | None => l_ret (with_result None) end)
       D' s1 v s2) ->
  scope_typed t' s2 -> length s = length D ->
  lowers_body env (lower_body prog const_fuel cx K (mkBody stmts tail span)) D s v (leave_scope s s2).
Proof.
  intros Hty Hstmts Htail Hs2 Hlen f args st HD. unfold lower_body. cbn [body_statements body_tail].
  apply runs_bind. eapply runs_mono; [by apply (Hstmts D f args)|]. intros _ st1 n1 (M1 & D2 & HT & HD1 & T1).
  eapply runs_mono; [by apply (Htail _ HT f args)|]. intros r st2 n2 (M2 & _ & T2). split; [by eapply mono_trans|].
  split; [done|]. eapply triple_weaken; [done| |by eapply triple_app]. intros c [Hm Hv]. split; [|done].
  rewrite <- HT in Hs2. apply scope_typed_of in Hs2.
  destruct (well_typed_app _ _ _ Hs2) as (s3 & s4 & -> & Hl3 & Hs4).
  unfold leave_scope. rewrite length_app. pose proof (Forall2_length _ _ _ Hs4).
  replace (length s3 + length s4 - length s) with (length s3) by lia. rewrite drop_app_length.
  exact (matches_app D2 D s3 s4 c Hl3 Hm).
Qed.
End Bodies.

(** ** What evaluations show *)

Section Correct.
Context `{Platform} (env : Env) (functions : gmap string Hir.Function) (prog : LowerProgram) (const_fuel : nat).
Context (cprog : ConstProgram) (Hfunctions : cp_functions cprog = functions).
Context (Hprog : coherent functions prog) (Hchecks : lp_overflow_checks prog = overflow_checks env).
Context (consts : gset string) (Hconsts : forall name, is_Some (lp_evaluated_consts prog !! name) -> name ∈ consts).
Context (Htyped : forall name fn, functions !! name = Some fn -> function_typed functions consts fn = true).
Context (Hlowered : forall name fn, functions !! name = Some fn -> exists g n generated insts st,
  env_function env name = Some g /\ lower_function prog const_fuel n fn generated insts = L_Ok g st).

Notation knot := (lower_knot prog const_fuel).

(** The callee is lowered to a function that returns the value. *)
Definition computes_call (name : string) (args : list RuntimeValue) (v : RuntimeValue) : Prop :=
  forall fn, functions !! name = Some fn ->
    Forall2 (fun p arg => has_type (type_of_ref (Hir.param_ty p)) arg = true) (Hir.fn_params fn) args ->
    has_type (return_type fn) v = true /\
    exists g, env_function env name = Some g /\ returns env g args v.

(** *** Within one function, whose known names are fixed *)

Section Within.
Context `{KN : KnownNames} (Hknown : consts ⊆ known_names).

Lemma consts_known name : is_Some (lp_evaluated_consts prog !! name) -> name ∈ known_names.
Proof. intros Hc. by apply Hknown, Hconsts. Qed.

Definition computes_expr (e : Expr) (s : Scope) (v : RuntimeValue) (s' : Scope) : Prop :=
  literal_value e s v s' /\
  forall L ty, expr_type functions L e = Some ty -> scope_typed L s ->
    has_type ty v = true /\ scope_typed L s' /\
    forall n cx D, cx_substitutions cx = ∅ -> types_of D = L ->
      lowers env (lower_expr prog const_fuel cx (knot n cx) e) D s v s' /\
      lowers_body env (lower_tail_expr prog const_fuel cx (knot n cx) e) D s v s'.

Definition computes_body (b : Hir.Body) (s : Scope) (v : RuntimeValue) (s' : Scope) : Prop :=
  forall L ty, body_type functions L b = Some ty -> scope_typed L s ->
    has_type ty v = true /\ scope_typed L (leave_scope s s') /\
    forall n cx D, cx_substitutions cx = ∅ -> types_of D = L ->
      lowers_body env (lower_body prog const_fuel cx (knot n cx) b) D s v (leave_scope s s').

Definition computing : Knot LexM := mkKnot
  (fun e _ s v s' => computes_expr e s v s')
  (fun b _ s v s' => computes_body b s v s')
  (fun _ _ _ _ _ => True)
  (fun name args _ _ s v s' => s' = s /\ computes_call name args v).

Lemma expr_lowers e s v s' L ty n cx D :
  computes_expr e s v s' -> expr_type functions L e = Some ty -> scope_typed L s ->
  cx_substitutions cx = ∅ -> types_of D = L -> lowers env (k_expr (knot n cx) e) D s v s'.
Proof.
  intros [_ He] Hty Hs Hcx HD. destruct n as [|n]; [by intros f args st _|].
  by apply (proj2 (proj2 (He L ty Hty Hs)) n cx D Hcx HD).
Qed.

Lemma nested_lowers b s v s' L ty n cx D :
  computes_body b s v s' -> body_type functions L b = Some ty -> scope_typed L s ->
  cx_substitutions cx = ∅ -> types_of D = L -> lowers_body env (k_body (knot n cx) b) D s v (leave_scope s s').
Proof.
  intros Hb Hty Hs Hcx HD. destruct n as [|n]; [by intros f args st _|].
  by apply (proj2 (proj2 (Hb L ty Hty Hs)) n cx D Hcx HD).
Qed.

Lemma idle_body b L ty n cx st : body_type functions L b = Some ty -> quiet (k_body (knot n cx) b) st.
Proof. intros Hb. by eapply (proj2 (knot_keeps functions prog const_fuel Hprog n cx)). Qed.

(** A form whose tail is its value *)
Lemma computes_value e s v s' :
  literal_value e s v s' ->
  (forall cx K, lower_tail_expr prog const_fuel cx K e =
     (let+ value := lower_expr prog const_fuel cx K e in l_ret (with_result (Some value)))) ->
  (forall L ty, expr_type functions L e = Some ty -> scope_typed L s ->
    has_type ty v = true /\ scope_typed L s' /\
    forall n cx D, cx_substitutions cx = ∅ -> types_of D = L ->
      lowers env (lower_expr prog const_fuel cx (knot n cx) e) D s v s') -> computes_expr e s v s'.
Proof.
  intros Hlit Htail He. split; [done|]. intros L ty Hty Hs. destruct (He L ty Hty Hs) as (Hv & Hs' & Hl).
  split; [done|]. split; [done|]. intros n cx D Hcx HD. split; [by apply Hl|]. rewrite Htail. by apply some_tail, Hl.
Qed.

Lemma computes_untyped e s v s' :
  (forall L, expr_type functions L e = None) -> literal_value e s v s' -> computes_expr e s v s'.
Proof. intros Hno Hlit. split; [done|]. intros L ty Hty. by rewrite Hno in Hty. Qed.

Lemma name_computes name span r s v s' :
  eval_name (M := LexM) computing name span r s v s' -> computes_expr (E_Name name span) s v s'.
Proof.
  intros (o & s1 & [-> ->] & Hv). apply computes_value; [done|done|]. intros L ty Hty Hs.
  cbn in Hty. destruct (local_find name L) as [[m t]|] eqn:Hf; [|done]. injection Hty as ->.
  pose proof (scope_typed_find L s name m ty Hs Hf) as Hfind.
  destruct Hfind as (v0 & Hf' & Hv0). rewrite Hf' in Hv. destruct Hv as [-> ->]. split; [done|]. split; [done|].
  intros n cx D Hcx HD. rewrite <- HD in Hf, Hs. apply scope_typed_of in Hs.
  destruct (name_lowers env prog cx name span D s m ty Hs Hf) as (v1 & Hf1 & _ & Hl).
  rewrite Hf' in Hf1. by injection Hf1 as <-.
Qed.

Lemma if_computes condition then_body else_body span r s v s' :
  eval_if (M := LexM) computing condition then_body else_body r s v s' ->
  computes_expr (E_If condition then_body else_body span) s v s'.
Proof.
  intros (w & s1 & Hc & Hb). split; [done|]. intros L ty. rewrite expr_type_if.
  destruct (expr_type functions L condition) as [ct|] eqn:Ec; [|done].
  destruct (body_type functions L then_body) as [tt|] eqn:Et; [|done].
  destruct (body_type functions L else_body) as [et|] eqn:Ee; [|done]. cbn.
  destruct (match then_body with mkBody _ _ _ => _ end) as [outer|]; [|done]. cbn. unfold guard_type.
  destruct (_ && _) eqn:Hall; [|done]. apply andb_true_iff in Hall as [[Hct Het]%andb_true_iff _].
  apply bool_decide_eq_true in Hct, Het. subst ct et. intros [= ->] Hs.
  destruct (proj2 Hc L _ Ec Hs) as (Hw & Hs1 & _). destruct w as [| |b| | | | | | | | | | |]; try done.
  set (taken := if b then then_body else else_body).
  assert (Htaken : exists s2, computes_body taken s1 v s2 /\ s' = leave_scope s1 s2).
  { destruct b; destruct Hb as (s2 & Hb & ->); by exists s2. }
  clear Hb. destruct Htaken as (s2 & Hb & ->).
  assert (Ety : body_type functions L taken = Some ty) by by destruct b.
  destruct (Hb L ty Ety Hs1) as (Hv & Hs2 & _). split; [done|]. split; [done|]. intros n cx D Hcx HD.
  assert (Hif : forall f args st, laid_out D st -> sim env f args (lower_if (knot n cx) condition then_body else_body) st (matches D s) (branched D)
    (fun r c => matches D (leave_scope s1 s2) c /\ values c !! r.2 = Some v /\ (bl_result r.1 = None -> v = V_Unit))).
  { intros f args st HDst. apply (if_lowers env (knot n cx) condition then_body else_body D s b s1 v).
    - by eapply expr_lowers.
    - destruct b; [by eapply nested_lowers|]. intros st'. by eapply idle_body.
    - destruct b; [|by eapply nested_lowers]. intros st'. by eapply idle_body.
    - done. }
  split; intros f args st HDst; (eapply sim_bind; [by apply Hif|]); intros rr st1 M1 (HD1 & Hd & Hres); apply sim_ret; try done.
  - by intros c (? & ? & _).
  - intros c (Hm & Hval & Hunit). split; [done|]. destruct Hres as [Hn|Hn]; rewrite Hn; cbn; [by rewrite Hunit|by rewrite Hval].
Qed.

Lemma while_computes condition body span r s v s' :
  eval_while_expr (M := LexM) computing condition body span r s v s' ->
  computes_expr (E_While condition body span) s v s'.
Proof.
  intros (w & s1 & Hc & Hb). split; [done|]. intros L ty Hty Hs. pose proof Hty as Hwhile. rewrite expr_type_while in Hty.
  destruct (expr_type functions L condition) as [ct|] eqn:Ec; [|done]. cbn in Hty.
  destruct (body_type functions L body) as [bt|] eqn:Eb; [|done]. cbn in Hty. unfold guard_type in Hty.
  case_bool_decide as Hct; [|done]. subst ct. injection Hty as <-.
  destruct (proj2 Hc L _ Ec Hs) as (Hw & Hs1 & _). destruct w as [| |b| | | | | | | | | | |]; try done.
  assert (Hsuff : has_type LT_Unit v = true /\ scope_typed L s' /\ forall n cx D, cx_substitutions cx = ∅ -> types_of D = L ->
    lowers env (lower_while (knot n cx) condition body) D s V_Unit s').
  { destruct b.
    - destruct Hb as (u & s2 & (t & Hb & ->) & Hloop). cbn in Hb, Hloop.
      destruct (Hb L bt Eb Hs1) as (Hu & Hs2 & _). destruct (proj2 Hloop L _ Hwhile Hs2) as (Hv & Hs' & Hl).
      split; [done|]. split; [done|]. intros n cx D Hcx HD. destruct v; try done.
      apply (while_round env (knot n cx) condition body D s s1 u (leave_scope s1 t) s');
        [by eapply expr_lowers|by eapply nested_lowers|]. by apply Hl.
    - destruct Hb as [-> ->]. split; [done|]. split; [done|]. intros n cx D Hcx HD.
      apply while_done; [by eapply expr_lowers|]. intros st. by eapply idle_body. }
  destruct Hsuff as (Hv & Hs' & Hl). split; [done|]. split; [done|]. intros n cx D Hcx HD. destruct v; try done.
  split; [by apply Hl|]. by apply unit_tail, Hl.
Qed.

Definition index_types (binding : option string) (L : Locals) : Locals :=
  match binding with Some name => (name, (false, LT_I32)) :: L | None => L end.

Lemma leave_index binding k s t L :
  scope_typed L s -> scope_typed (index_types binding L) (leave_scope (index_bound binding k s) t) ->
  leave_scope s t = without_index binding (leave_scope (index_bound binding k s) t).
Proof.
  destruct binding as [name|]; [|done]. intros Hs%Forall2_length Ht%Forall2_length. cbn in *. unfold leave_scope in *.
  rewrite length_drop in Ht. cbn in *. assert (Hlt : S (length s) <= length t) by lia.
  replace (length t - length s) with (S (length t - S (length s))) by lia.
  generalize (length t - S (length s)) as k0. intros k0. clear. revert t. induction k0 as [|k0 IH]; intros [|x t]; try done. exact (IH t).
Qed.

Lemma scope_typed_without binding L s :
  scope_typed (index_types binding L) s -> scope_typed L (without_index binding s).
Proof. destruct binding; [|done]. intros Hs. by inversion Hs. Qed.

Lemma each_rounds binding body bt L ks r s u s' :
  body_type functions (index_types binding L) body = Some bt -> scope_typed L s ->
  c_each (M := LexM) (fun index =>
          let* _ := eval_nested_body_with_binding computing body
                      (option_map (fun name => (name, V_Int (Z.of_nat index))) binding) in c_ret tt) ks r s u s' ->
  scope_typed L s' /\ forall n cx D, cx_substitutions cx = ∅ -> types_of D = L ->
    rounds env (knot n cx) binding body D ks s s'.
Proof.
  intros Hty. revert s. induction ks as [|k ks IH]; intros s Hs.
  { intros [_ ->]. split; [done|]. intros. constructor. }
  intros ([] & s1 & (v & s2 & (t & Hb & ->) & [_ ->]) & Hks). cbn in Hb.
  assert (Hs0 : scope_typed (index_types binding L) (index_bound binding k s)) by (destruct binding; [by constructor|done]).
  destruct (Hb _ bt Hty Hs0) as (Hv & Ht & Hl). pose proof (leave_index binding k s t L Hs Ht) as Hleave.
  assert (Hs2 : scope_typed L (leave_scope s t)) by (rewrite Hleave; by apply scope_typed_without).
  destruct (IH _ Hs2 Hks) as (Hs' & Hrounds). split; [done|]. intros n cx D Hcx HD.
  econstructor; [|by apply Hrounds]. intros b. exists v, (leave_scope (index_bound binding k s) t). split; [|done].
  eapply nested_lowers; [done|exact Hty|done|done|]. subst L. by destruct binding.
Qed.

Lemma repeat_computes binding count body span r s v s' :
  eval_repeat_expr (M := LexM) computing binding count body r s v s' ->
  computes_expr (E_Repeat binding count body span) s v s'.
Proof.
  intros (w & s1 & Hc & Hb). split; [done|]. intros L ty. rewrite expr_type_repeat.
  destruct (expr_type functions L count) as [ct|] eqn:Ec; [|done]. cbn.
  destruct (body_type functions _ body) as [bt|] eqn:Eb; [|done]. cbn. unfold guard_type.
  destruct (_ && _) eqn:Hall; [|done].
  apply andb_true_iff in Hall as [[->%bool_decide_eq_true Hname]%andb_true_iff Hindex].
  intros [= <-] Hs. destruct (proj2 Hc L _ Ec Hs) as (Hw & Hs1 & _).
  destruct w as [z| | | | | | | | | | | | |]; try done. destruct Hb as (u & s2 & Heach & [-> ->]).
  destruct (each_rounds binding body bt L _ r s1 u s2 Eb Hs1 Heach) as (Hs2 & Hr).
  split; [done|]. split; [done|]. intros n cx D Hcx HD.
  assert (Hq : forall st, quiet (k_body (knot n cx) body) st) by (intros; by eapply idle_body).
  assert (Hcount : lowers env (k_expr (knot n cx) count) D s (V_Int z) s1) by by eapply expr_lowers.
  split.
  - apply (repeat_lowers env prog (knot n cx) cx Hcx consts_known binding count body D s z s1 s2); try done; [by apply Hr|].
    intros value sp ->. destruct Hc as [[Hz Hs0] _]. by injection Hz.
  - apply unit_tail. apply (loop_lowers env prog (knot n cx) cx binding count body D s z s1 s2); try done. by apply Hr.
Qed.

Lemma not_computes e span r s v s' :
  eval_unary_expr (M := LexM) computing U_Not e r s v s' -> computes_expr (E_Unary U_Not e span) s v s'.
Proof.
  intros (w & s1 & He & Hv). apply computes_value; [done|done|]. intros L ty. cbn [expr_type].
  destruct (expr_type functions L e) as [t|] eqn:Et; [|done]. cbn. unfold guard_type. case_bool_decide; [|done].
  subst t. intros [= <-] Hs. destruct (proj2 He L _ Et Hs) as (Hw & Hs1 & _).
  destruct w as [| |b| | | | | | | | | | |]; try done. destruct Hv as [-> ->]. split; [done|]. split; [done|].
  intros n cx D Hcx HD.
  apply (not_lowers env prog const_fuel cx (knot n cx) D s e span b). by eapply expr_lowers.
Qed.

Lemma binary_computes op l r span res s v s' :
  eval_binary_expr (M := LexM) (overflow_checks env) computing op l r span res s v s' ->
  computes_expr (E_Binary op l r span) s v s'.
Proof.
  intros (lv & s1 & Hl & rv & s2 & Hr & Hv). apply computes_value; [done|done|]. intros L ty Hty Hs.
  pose proof Hty as Hty'. cbn [expr_type] in Hty'.
  destruct (expr_type functions L l) as [lt|] eqn:El; [|done]. cbn in Hty'.
  destruct (expr_type functions L r) as [rt|] eqn:Er; [|done]. clear Hty'.
  destruct (proj2 Hl L _ El Hs) as (Hlv & Hs1 & _). destruct (proj2 Hr L _ Er Hs1) as (Hrv & Hs2 & _).
  assert (Hvalue : const_binary (overflow_checks env) op lv rv span (expr_span l) (expr_span r) = O_Value v /\ s' = s2).
  { destruct (const_binary _ _ _ _ _ _ _); [|done..]. by destruct Hv as [-> ->]. }
  destruct Hvalue as [Hvalue ->].
  assert (Htypes : forall t, expr_type functions L l = Some t -> has_type t lv = true) by (rewrite El; by intros t [= <-]).
  assert (Htypes' : forall t, expr_type functions L r = Some t -> has_type t rv = true) by (rewrite Er; by intros t [= <-]).
  split; [|split; [done|]].
  - cbn [expr_type] in Hty. rewrite El, Er in Hty. cbn in Hty.
    destruct (_ && _) eqn:Hsame; [|done]. apply andb_true_iff in Hsame as [->%bool_decide_eq_true _].
    exact (operator_typed _ _ _ _ _ _ _ _ _ _ Hty Hlv Hrv Hvalue).
  - intros n cx D Hcx HD. rewrite <- HD in *.
    apply (binary_lowers env functions prog Hprog Hchecks cx Hcx (knot n cx) D s op l r span ty lv s1 rv s2 v); try done;
      [by eapply expr_lowers|by eapply expr_lowers|exact (proj1 Hl)|exact (proj1 Hr)].
Qed.

(** ** Calls *)

Lemma args_compute args L tys r s vs s' :
  args_type functions L args = Some tys -> scope_typed L s ->
  c_mmap (M := LexM) (ConstEval.k_expr computing) args r s vs s' ->
  Forall2 (fun ty v => has_type ty v = true) tys vs /\ scope_typed L s' /\
  forall n cx D, cx_substitutions cx = ∅ -> types_of D = L -> lowers_args env (knot n cx) args D s vs s'.
Proof.
  revert tys s vs. induction args as [|e args IH]; intros tys s vs; cbn [args_type].
  { intros [= <-] Hs [-> ->]. split; [constructor|]. split; [done|]. intros. apply args_nil. }
  destruct (expr_type functions L e) as [ty|] eqn:Ety; [|done]. cbn.
  destruct (args_type functions L args) as [tys0|]; [|done]. intros [= <-] Hs (v & s1 & He & vs0 & s2 & Hargs & [-> ->]).
  destruct (proj2 He L _ Ety Hs) as (Hv & Hs1 & _). destruct (IH _ _ _ eq_refl Hs1 Hargs) as (Hvs & Hs2 & Hl).
  split; [by constructor|]. split; [done|]. intros n cx D Hcx HD.
  eapply args_cons; [by apply (expr_lowers e s v s1 L ty)|by apply Hl].
Qed.

Lemma call_computes callee args span r s v s' :
  eval_call_expr (M := LexM) cprog computing callee args span r s v s' -> computes_expr (E_Call callee args span) s v s'.
Proof.
  intros Hcall. apply computes_value; [done|done|]. intros L ty Hty Hs. pose proof Hty as Hty'.
  rewrite expr_type_call in Hty'. destruct (functions !! callee) as [fn|] eqn:Hfn; [|done]. cbn in Hty'.
  destruct (args_type functions L args) as [tys|] eqn:Htys; [|done]. cbn in Hty'.
  destruct (split_enum_variant_path callee) eqn:Hsplit; [done|]. unfold guard_type in Hty'.
  case_bool_decide as Htypes; [|done]. injection Hty' as <-.
  unfold eval_call_expr, is_function in Hcall. rewrite Hfunctions in Hcall.
  assert (Hparts : exists vs s1, c_mmap (M := LexM) (ConstEval.k_expr computing) args r s vs s1 /\ s' = s1 /\ computes_call callee vs v).
  { revert Hcall. destruct (callee =? "len")%string eqn:Elen.
    - apply String.eqb_eq in Elen as ->. rewrite Hfn. cbn. intros (vs & s1 & H1 & -> & H2). by exists vs, s1.
    - rewrite Hfn, Hsplit. cbn. destruct (callee =? "const_assert")%string eqn:Eassert.
      + apply String.eqb_eq in Eassert as ->. rewrite Hfn. cbn. intros (vs & s1 & H1 & -> & H2). by exists vs, s1.
      + intros (vs & s1 & H1 & -> & H2). by exists vs, s1. }
  clear Hcall. destruct Hparts as (vs & s1 & Hargs & -> & Hcall).
  destruct (args_compute args L tys r s vs s1 Htys Hs Hargs) as (Hvs & Hs1 & Hl).
  destruct (Hcall fn Hfn) as (Hv & g & Hg & Hret).
  { subst tys. by rewrite Forall2_fmap_l in Hvs. }
  split; [done|]. split; [done|]. intros n cx D Hcx HD.
  eapply (call_lowers env functions prog Hprog cx (knot n cx)); [by rewrite HD|by apply Hl|exact Hg|exact Hret].
Qed.

(** ** Statements and bodies *)

Lemma stmt_computes stmt L L' r s u s' :
  stmt_type functions L stmt = Some L' -> scope_typed L s ->
  eval_stmt (M := LexM) computing stmt r s u s' ->
  scope_typed L' s' /\ forall n cx, cx_substitutions cx = ∅ ->
    lowers_stmts env (lower_stmt prog cx (knot n cx) stmt) L s L' s'.
Proof.
  destruct stmt as [mutable name value span|target value span|e span|]; try done.
  - intros Hty. pose proof Hty as Hlet. rewrite stmt_type_eq in Hty. destruct (expr_type functions L value) as [ty|] eqn:Ety; [|done].
    cbn in Hty. intros Hs (v & s1 & He & Hbind). destruct (proj2 He L _ Ety Hs) as (Hv & Hs1 & _).
    assert (Hs' : s' = if (name =? "_")%string then s1 else (name, (mutable, v)) :: s1).
    { destruct (name =? "_")%string; [by destruct Hbind|]. by destruct mutable. }
    clear Hbind. split.
    + rewrite Hs'. destruct (name =? "_")%string; [by injection Hty as <-|].
      destruct (scalar ty); [injection Hty as <-|done]. by constructor.
    + intros n cx Hcx. rewrite Hs'. apply (let_lowers env functions prog Hprog cx Hcx (knot n cx) mutable name value span L L' s v s1 ty); try done.
      intros D HD. by eapply expr_lowers.
  - intros Hty Hs. destruct target as [| | | |name nspan| | | | | | | | | | | | | | | | |]; try done. rewrite stmt_type_eq in Hty.
    destruct (expr_type functions L value) as [ty|] eqn:Ety; [|done]. cbn in Hty.
    destruct (local_find name L) as [[[] ty']|] eqn:Hf; try done. case_bool_decide; [|done]. subst ty'. injection Hty as <-.
    intros (v & s1 & He & t & s2 & [-> ->] & a & s3 & Hassign & Hend).
    destruct (proj2 He L _ Ety Hs) as (Hv & Hs1 & _).
    assert (Hset : s' = scope_set name v s1).
    { destruct (scope_typed_find L s1 name true ty Hs1 Hf) as (w & Hfind & _).
      cbn in Hassign. unfold scope_assign in Hassign. cbn in Hassign. rewrite Hfind in Hassign.
      injection Hassign as -> ->. by destruct Hend. }
    rewrite Hset. split; [by eapply scope_typed_set|]. intros n cx Hcx.
    apply (assign_lowers env functions prog Hprog cx Hcx (knot n cx) name nspan value span L s v s1 ty); try done.
    intros D HD. by eapply expr_lowers.
  - rewrite stmt_type_eq. destruct (expr_type functions L e) as [ty|] eqn:Ety; [|done]. intros [= <-] Hs (v & s1 & He & [_ ->]).
    destruct (proj2 He L _ Ety Hs) as (Hv & Hs1 & _). split; [done|]. intros n cx Hcx.
    apply (expr_stmt_lowers env (knot n cx) e L s v s1). intros D HD. by eapply expr_lowers.
Qed.

Lemma stmts_compute stmts L L' r s u s' :
  stmts_type functions L stmts = Some L' -> scope_typed L s ->
  c_each (M := LexM) (eval_stmt computing) stmts r s u s' ->
  scope_typed L' s' /\ forall n cx, cx_substitutions cx = ∅ ->
    lowers_stmts env (l_each (lower_stmt prog cx (knot n cx)) stmts) L s L' s'.
Proof.
  revert L s. induction stmts as [|stmt stmts IH]; intros L s; cbn [stmts_type].
  { intros [= <-] Hs [_ ->]. split; [done|]. intros. apply stmts_done. }
  destruct (stmt_type functions L stmt) as [L1|] eqn:E; [|done]. cbn. intros Hty Hs (u1 & s1 & H1 & H2).
  destruct (stmt_computes _ _ _ _ _ _ _ E Hs H1) as (Hs1 & Hl1). destruct (IH _ _ Hty Hs1 H2) as (Hs2 & Hl2).
  split; [done|]. intros n cx Hcx. eapply stmts_cons; [by apply Hl1|by apply Hl2].
Qed.

Lemma body_computes b r s v s' : eval_body (M := LexM) computing b r s v s' -> computes_body b s v s'.
Proof.
  destruct b as [stmts tail span]. intros (u & s1 & Hstmts & Htail) L ty. rewrite body_type_stmts.
  destruct (stmts_type functions L stmts) as [L'|] eqn:E; [|done]. cbn. intros Hty Hs.
  destruct (stmts_compute _ _ _ _ _ _ _ E Hs Hstmts) as (Hs1 & Hl).
  assert (Hend : has_type ty v = true /\ scope_typed L' s' /\ forall n cx D, cx_substitutions cx = ∅ -> types_of D = L' ->
    lowers_body env (match tail with Some e => lower_tail_expr prog const_fuel cx (knot n cx) e | None => l_ret (with_result None) end)
      D s1 v s').
  { destruct tail as [e|]; cbn in Hty, Htail.
    - destruct (proj2 Htail L' ty Hty Hs1) as (Hv & Hs' & Ht). split; [done|]. split; [done|]. intros n cx D Hcx HD. by apply Ht.
    - injection Hty as <-. destruct Htail as [-> ->]. split; [done|]. split; [done|]. intros n cx D Hcx HD f args st HDst.
      by apply sim_ret. }
  destruct Hend as (Hv & Hs' & Ht). split; [done|]. split.
  - destruct (stmts_suffix _ _ _ _ E) as [new ->]. apply Forall2_app_inv_l in Hs' as (s2 & s3 & H2 & H3 & ->).
    unfold leave_scope. rewrite length_app. pose proof (Forall2_length _ _ _ H3). pose proof (Forall2_length _ _ _ Hs).
    replace (length s2 + length s3 - length s) with (length s2) by lia. by rewrite drop_app_length.
  - intros n cx D Hcx HD. subst L. eapply (body_lowers env functions prog const_fuel cx (knot n cx)); try done.
    + by apply Hl.
    + intros D' HD'. by apply Ht.
    + pose proof (Forall2_length _ _ _ Hs) as Hlen. unfold types_of in Hlen. by rewrite length_map in Hlen.
Qed.
End Within.

(** ** Functions *)

(** The names that are known in a function *)
Definition known_in (fn : Hir.Function) : KnownNames := {| known_names := known_of consts fn |}.

(** For all known names that constants are among *)
Definition computing_all : Knot LexM := mkKnot
  (fun e _ s v s' => forall KN : KnownNames, consts ⊆ known_names -> computes_expr e s v s')
  (fun b _ s v s' => forall KN : KnownNames, consts ⊆ known_names -> computes_body b s v s')
  (fun _ _ _ _ _ => True)
  (fun name args _ _ s v s' => s' = s /\ computes_call name args v).

Lemma computing_at (KN : KnownNames) : consts ⊆ known_names -> knot_le computing_all computing.
Proof.
  intros HK. split; [intros e r s v s' He|intros b r s v s' Hb|by intros name r s o s'|by intros name args sp r s v s'];
    [exact (He KN HK)|exact (Hb KN HK)].
Qed.

Lemma step_at (KN : KnownNames) : consts ⊆ known_names ->
  knot_le (ConstEval.step cprog (overflow_checks env) computing_all) (ConstEval.step cprog (overflow_checks env) computing).
Proof. intros HK. apply rel_step; [apply _..|]. by apply computing_at. Qed.

Lemma function_typed_parts fn :
  function_typed functions consts fn = true ->
  fn_type_params fn = [] /\ Hir.fn_effects fn = [] /\ fn_requires fn = None /\ fn_ensures fn = None /\
  exists body, fn_body fn = Some body /\ body_type (KN := known_in fn) functions (param_locals fn) body = Some (return_type fn) /\
    Forall (fun p => scalar (type_of_ref (Hir.param_ty p)) = true) (Hir.fn_params fn).
Proof.
  unfold function_typed. destruct (fn_type_params fn); [|done]. destruct (Hir.fn_effects fn); [|done].
  destruct (fn_requires fn); [done|]. destruct (fn_ensures fn); [done|]. destruct (fn_body fn) as [body|]; [|done].
  intros [Hp Hb%bool_decide_eq_true]%andb_true_iff. split_and!; try done. exists body. split_and!; try done.
  apply Forall_forall. intros p Hin. rewrite forallb_forall in Hp. by apply Hp, list_elem_of_In.
Qed.

Lemma call_scope_typed (fn : Hir.Function) args :
  Forall2 (fun p arg => has_type (type_of_ref (Hir.param_ty p)) arg = true) (Hir.fn_params fn) args ->
  scope_typed (param_locals fn) (call_scope (Hir.fn_params fn) args).
Proof.
  intros Hargs. unfold param_locals, call_scope, scope_typed. rewrite !rev_alt. apply Forall2_reverse.
  induction Hargs as [|p arg ps args Hp _ IH]; constructor; [done|exact IH].
Qed.

Lemma bind_params (l : list (Hir.Param * RuntimeValue)) r s u s' :
  c_each (M := LexM) (fun '(param, arg) => c_bind_value (Hir.param_name param) arg) l r s u s' ->
  s' = rev (map (fun '(p, arg) => (Hir.param_name p, (false, arg))) l) ++ s.
Proof.
  revert s. induction l as [|[p arg] l IH]; intros s; [by intros [_ ->]|]. intros (u1 & s1 & Hone & Hrest).
  change (s1 = (Hir.param_name p, (false, arg)) :: s) in Hone. subst s1. rewrite (IH _ Hrest). cbn. by rewrite <- app_assoc.
Qed.

Lemma indexed_args (fn : Hir.Function) (args : list RuntimeValue) :
  Forall (fun p => scalar (type_of_ref (Hir.param_ty p)) = true) (Hir.fn_params fn) ->
  length (Hir.fn_params fn) = length args ->
  Forall2 (fun (ip : nat * Hir.Param) v => scalar (type_of_ref (Hir.param_ty ip.2)) = true /\ args !! ip.1 = Some v)
    (imap pair (Hir.fn_params fn)) args.
Proof.
  intros Hs Hlen. apply Forall2_same_length_lookup_2; [by rewrite length_imap|]. intros i ip v Hip Hv.
  apply list_lookup_imap_Some in Hip as (p & Hp & ->). split; [by eapply (Forall_lookup_1 _ _ _ _ Hs Hp)|done].
Qed.

Lemma map_snd_imap {A} (l : list A) : map snd (imap pair l) = l.
Proof.
  apply list_eq. intros i. rewrite list_lookup_fmap, list_lookup_imap. by destruct (l !! i).
Qed.

Lemma function_returns fn g n generated insts st args body v s' :
  lower_function prog const_fuel n fn generated insts = L_Ok g st ->
  function_typed functions consts fn = true -> fn_body fn = Some body ->
  Forall2 (fun p arg => has_type (type_of_ref (Hir.param_ty p)) arg = true) (Hir.fn_params fn) args ->
  computes_body (KN := known_in fn) body (call_scope (Hir.fn_params fn) args) v s' -> returns env g args v.
Proof.
  intros Hg Hty Hbody Hargs Hb h. pose (known_in fn : KnownNames) as KN.
  destruct (function_typed_parts _ Hty) as (_ & _ & Hreq & Hens & body' & Hbody' & Hbt & Hscalar).
  rewrite Hbody in Hbody'. injection Hbody' as <-. pose proof (call_scope_typed fn args Hargs) as Hs.
  set (cx := mkFnContext fn ∅). set (st0 := lower_state generated insts).
  assert (Hrun : runs (lower_function_monomorphized cx (knot n cx) (Hir.fn_name fn)) st0 (fun g' st' new =>
    fn_instructions g' = instructions st' /\ fn_value_count g' = next_value st' /\ fn_slot_count g' = next_slot st' /\
    triple env g args st0 st' new (fun _ => True) (fun c => result_or_unit (values c) (fn_result g') = v))).
  { unfold lower_function_monomorphized. cbv zeta. apply runs_bind. cbn [cx_function cx].
    assert (HD0 : laid_out [] st0) by (split; [done|constructor|constructor|by intros name []]).
    eapply runs_mono; [apply (params_lower env cx eq_refl g args (imap pair (Hir.fn_params fn)) args [] [] st0);
      [by apply indexed_args; [|by eapply Forall2_length]|done]|].
    intros [] st1 n1 (M1 & D & HT & HD & T1). rewrite map_snd_imap, app_nil_r in T1. cbn in HT. rewrite app_nil_r in HT.
    assert (HT' : types_of D = param_locals fn).
    { rewrite HT. unfold param_locals. f_equal. rewrite <- (map_snd_imap (Hir.fn_params fn)) at 2. by rewrite map_map. }
    apply runs_bind. eapply runs_mono; [by apply (signature_sim env cx g args D st1)|].
    intros [] st2 n2 (M2 & HD2 & T2). rewrite Hreq, Hbody, Hens. apply runs_bind, runs_ret, runs_bind, runs_bind.
    eapply runs_mono; [by apply (nested_lowers body _ v s' _ _ n cx D Hb Hbt Hs eq_refl HT')|].
    intros r st3 n3 (M3 & _ & T3). apply runs_ret, runs_bind, runs_modify; [done|]. apply runs_bind, runs_ret, runs_gets.
    assert (T : triple env g args st0 st3 (n1 ++ n2 ++ n3) (fun _ => True) (fun c => result_or_unit (values c) (bl_result r) = v)).
    { eapply triple_app; [exact M1|exact (mono_trans _ _ _ M2 M3)|eapply triple_weaken; [|done|exact T1]; by constructor|].
      eapply triple_app; [exact M2|exact M3|exact T2|]. eapply triple_weaken; [done| |exact T3]. by intros c [_ Hc]. }
    cbn. rewrite !app_nil_r. split; [done|]. split; [done|]. split; [done|]. exact T. }
  unfold lower_function in Hg. fold cx st0 in Hg. unfold runs in Hrun. rewrite Hg in Hrun.
  destruct Hrun as (new & Hnew & Hi & Hv & Hsl & T). cbn in Hnew. subst new. rewrite Hi, Hv, Hsl.
  destruct (T (mkCore h (fresh (next_value st)) (fresh (next_slot st)))) as (c & Hsteps & Hval & Hf); [|done|].
  { split; cbn; unfold fresh; rewrite length_replicate; lia. }
  exists c. rewrite (frame_value_count _ _ _ Hf). split; [done|]. split; [apply Hf|]. split; [|done].
  cbn. unfold fresh. rewrite length_replicate. lia.
Qed.

Lemma call_computes_function name args span r s v s' :
  ConstEval.eval_function (M := LexM) cprog computing_all name args span r s v s' -> s' = s /\ computes_call name args v.
Proof.
  unfold ConstEval.eval_function. rewrite Hfunctions. destruct (functions !! name) as [fn|] eqn:Hfn; [|done].
  destruct (function_typed_parts fn (Htyped _ _ Hfn)) as (_ & Heff & Hreq & Hens & body & Hbody & Hbt & Hscalar).
  rewrite Heff, Hbody. destruct (_ =? _)%nat; [|done]. intros (a & s1 & [-> ->] & Hrun).
  unfold eval_function_body in Hrun. destruct Hrun as (t & Hrun & ->). split; [done|].
  intros fn' Hfn' Hargs. rewrite Hfn in Hfn'. injection Hfn' as <-.
  destruct Hrun as (u & s1 & Hparams & u2 & s2 & Hr & w & s3 & (t2 & Hb & ->) & u3 & s4 & He & [-> ->]).
  rewrite Hreq in Hr. destruct Hr as [_ ->]. cbn in Hb. apply bind_params in Hparams as ->. rewrite app_nil_r in Hb.
  specialize (Hb (known_in fn) (union_subseteq_l _ _)).
  destruct (Hb (param_locals fn) _ Hbt (call_scope_typed fn args Hargs)) as (Hv & _). split; [done|].
  destruct (Hlowered name fn Hfn) as (g & n & generated & insts & st & Hg & Hlower). exists g. split; [done|].
  exact (function_returns fn g n generated insts st args body w t2 Hlower (Htyped _ _ Hfn) Hbody Hargs Hb).
Qed.

(** ** Evaluation *)

Lemma computing_closed : knot_le (ConstEval.step cprog (overflow_checks env) computing_all) computing_all.
Proof.
  split; [intros e|intros b|intros name|intros name args span]; intros r s v s' Hstep.
  - intros KN HK. apply (knot_rel_expr _ _ _ (step_at KN HK)) in Hstep. cbn in Hstep |- *. destruct e; try (by apply computes_untyped).
    + destruct Hstep as [-> ->]. apply computes_value; [done|done|]. intros L ty [= <-] Hs.
      split; [done|]. split; [done|]. intros. apply int_lowers.
    + destruct Hstep as [-> ->]. apply computes_value; [done|done|]. intros L ty. cbn. unfold guard_type.
      destruct (exact_float value) eqn:Hx; [|done]. intros [= <-] Hs. split; [done|]. split; [done|].
      intros. by apply float_lowers.
    + destruct Hstep as [-> ->]. apply computes_value; [done|done|]. intros L ty [= <-] Hs.
      split; [done|]. split; [done|]. intros. apply text_lowers.
    + destruct Hstep as [-> ->]. apply computes_value; [done|done|]. intros L ty [= <-] Hs.
      split; [done|]. split; [done|]. intros. apply bool_lowers.
    + by eapply name_computes.
    + by eapply call_computes.
    + by eapply if_computes.
    + by eapply repeat_computes.
    + by eapply while_computes.
    + destruct op. by eapply not_computes.
    + by eapply binary_computes.
    + split; [done|]. intros L ty Hty Hs. destruct (proj2 Hstep L ty Hty Hs) as (Hv & Hs' & Hl).
      split; [done|]. split; [done|]. intros n cx D Hcx HD. split; [by eapply expr_lowers|]. by apply Hl.
  - intros KN HK. exact (body_computes b r s v s' (knot_rel_body _ _ _ (step_at KN HK) b r s v s' Hstep)).
  - done.
  - exact (call_computes_function name args span r s v s' Hstep).
Qed.

Lemma lexical_computes : knot_le (lexical cprog (overflow_checks env)) computing_all.
Proof. apply lexical_least, computing_closed. Qed.
End Correct.

(** * Lowering to the MIR: what lowered modules compute

    A module whose functions are typed scalar code: every function is lowered,
    without instances, and a call that has a value by lexical scope returns it
    when it is run.  So a run of such a module and its compile-time evaluation
    do not disagree. *)

(** ** Tables of items *)

Lemma collect_items_snoc {A} (f : Item -> option (string * A)) items item :
  collect_items f (items ++ [item])
  = match f item with Some (name, a) => <[name := a]> (collect_items f items) | None => collect_items f items end.
Proof. unfold collect_items. by rewrite foldl_app. Qed.

(** Two tables over the same names *)
Lemma collect_items_map {A B} (f : Item -> option (string * A)) (g : Item -> option (string * B)) (h : A -> B) items :
  (forall item, g item = (fun '(name, a) => (name, h a)) <$> f item) ->
  collect_items g items = h <$> collect_items f items.
Proof.
  intros Hg. induction items as [|item items IH] using rev_ind; [unfold collect_items; cbn; by rewrite fmap_empty|].
  rewrite !collect_items_snoc, Hg, IH. destruct (f item) as [[name a]|]; [|done]. cbn. by rewrite fmap_insert.
Qed.

Lemma collect_items_in {A} (f : Item -> option (string * A)) items name a :
  collect_items f items !! name = Some a -> exists item, item ∈ items /\ f item = Some (name, a).
Proof.
  induction items as [|item items IH] using rev_ind; [done|]. rewrite collect_items_snoc.
  assert (Hprev : collect_items f items !! name = Some a -> exists i, i ∈ items ++ [item] /\ f i = Some (name, a)).
  { intros (i & Hi & Hf)%IH. exists i. split; [set_solver|done]. }
  destruct (f item) as [[name' a']|] eqn:E; [|done]. destruct (decide (name' = name)) as [->|Hne].
  - rewrite lookup_insert_eq. intros [= ->]. exists item. split; [set_solver|done].
  - by rewrite lookup_insert_ne.
Qed.

Lemma find_last_snoc {A} (key : A -> string) name l a :
  find_last key name (l ++ [a]) = if String.eqb (key a) name then Some a else find_last key name l.
Proof. unfold find_last. by rewrite fold_left_app. Qed.

(** ** Typed modules *)

Definition module_functions (items : HirModule) : gmap string Hir.Function := collect_items all_functions_of items.

Definition module_consts (items : HirModule) : gset string :=
  dom (collect_items (fun item => match item with It_Const c => Some (const_name c, c) | _ => None end) items).

(** Every function is typed scalar code: neither generic nor with effects or
    contracts, on parameters that are scalars, with a body in the fragment of
    [LowerFragment.v], whose restrictions are listed there. *)
Definition typed_module (items : HirModule) : bool :=
  forallb (fun item => match item with
                       | It_Function f => function_typed (module_functions items) (module_consts items) f
                       | _ => true
                       end) items.

Lemma typed_module_in items f :
  typed_module items = true -> It_Function f ∈ items -> function_typed (module_functions items) (module_consts items) f = true.
Proof. unfold typed_module. rewrite forallb_forall. intros Ht Hf%list_elem_of_In. exact (Ht _ Hf). Qed.

Lemma module_function_in items name f : module_functions items !! name = Some f -> It_Function f ∈ items /\ Hir.fn_name f = name.
Proof. intros (item & Hin & E)%collect_items_in. destruct item; try done. cbn in E. by injection E as <- <-. Qed.

Lemma typed_not_generic functions consts f : function_typed functions consts f = true -> is_generic f = false.
Proof. unfold is_generic. intros (Hg & _)%function_typed_parts. by rewrite Hg. Qed.

Lemma module_coherent items info consts checks :
  typed_module items = true -> coherent (module_functions items) (lower_program items info consts checks).
Proof.
  intros Ht. split; intros name f Hf.
  - cbn. apply lookup_union_Some_l.
    rewrite (collect_items_map all_functions_of function_returns_of
      (fun f => match Hir.fn_return_type f with Some ty => Hir.path ty | None => "Unit"%string end));
      [|by intros []]. rewrite lookup_fmap. unfold module_functions in Hf. by rewrite Hf.
  - cbn. destruct (collect_items generic_functions_of items !! name) as [f'|] eqn:E; [|done].
    apply collect_items_in in E as (item & Hin & E). destruct item as [|f0| | | | |]; try done. cbn in E.
    destruct (is_generic f0) eqn:Hg; [|done]. by rewrite (typed_not_generic _ _ _ (typed_module_in _ _ Ht Hin)) in Hg.
Qed.

(** ** Functions *)

Section Functions.
Context `{Platform}.

Lemma l_bind_inv {A B} (m : L B) (k : B -> L A) st a st' :
  l_bind m k st = L_Ok a st' -> exists b st1, m st = L_Ok b st1 /\ k b st1 = L_Ok a st'.
Proof. unfold l_bind. destruct (m st) as [b st1| | |]; [|done..]. intros E. by exists b, st1. Qed.

Lemma lower_function_header prog n m f generated functions g st :
  lower_function prog n m f generated functions = L_Ok g st ->
  Mir.fn_name g = Hir.fn_name f /\
  Mir.fn_params g = map (fun p => Mir.mkParam (Hir.param_name p) (type_name_or_path (mkFnContext f ∅) (Hir.param_ty p)))
                      (Hir.fn_params f).
Proof.
  unfold lower_function, lower_function_monomorphized. cbv zeta. cbn [cx_function].
  intros (u1 & st1 & _ & (u2 & st2 & _ & (u3 & st3 & _ & (r & st4 & _ & (u4 & st5 & _ & (u5 & st6 & _ & E)
    %l_bind_inv)%l_bind_inv)%l_bind_inv)%l_bind_inv)%l_bind_inv)%l_bind_inv. by injection E as <- <-.
Qed.

Lemma signature_quiet cx st : quiet (ensure_signature_types_registered cx) st.
Proof.
  assert (Hreg : forall ty st', quiet (register_type_name ty ;+ l_ret tt) st').
  { intros. apply quiet_bind; [apply keeping_quiet, keeping_register|intros; apply quiet_ret]. }
  apply quiet_bind; [apply quiet_each; intros; apply Hreg|]. intros [] st1.
  destruct (Hir.fn_return_type (cx_function cx)); [apply Hreg|apply quiet_ret].
Qed.

Lemma params_quiet cx st : quiet (lower_params cx) st.
Proof.
  apply quiet_each. intros [i p] st' _. apply quiet_bind; [apply keeping_quiet, keeping_emit_value|].
  intros. apply quiet_bind; [apply quiet_bind_local|intros; apply quiet_ret].
Qed.

(** Lowering a typed function makes no instances. *)
Lemma function_instances functions consts prog n m f generated instances g st :
  coherent functions prog -> function_typed functions consts f = true ->
  lower_function prog n m f generated instances = L_Ok g st -> monomorphized_functions st = instances.
Proof.
  intros Hprog Ht. destruct (function_typed_parts _ _ _ Ht) as (_ & _ & Hreq & Hens & body & Hbody & Hbt & _).
  assert (Hq : quiet (lower_function_monomorphized (mkFnContext f ∅) (lower_knot prog n m (mkFnContext f ∅)) (Hir.fn_name f))
    (lower_state generated instances)).
  { unfold lower_function_monomorphized. cbv zeta. cbn [cx_function]. rewrite Hreq, Hens, Hbody.
    apply quiet_bind; [apply params_quiet|]. intros [] st1. apply quiet_bind; [apply signature_quiet|]. intros [] st2.
    apply quiet_bind; [apply quiet_ret|]. intros [] st3. apply quiet_bind.
    { apply quiet_bind; [|intros; apply quiet_ret]. by eapply (proj2 (knot_keeps functions prog n Hprog m _)). }
    intros r st4. apply quiet_bind; [by apply quiet_modify|]. intros [] st5. apply quiet_bind; [apply quiet_ret|].
    intros [] st6. apply runs_gets. by apply calm_same. }
  unfold lower_function. unfold quiet, runs in Hq. intros E. rewrite E in Hq. by destruct Hq as (new & _ & _ & Hi).
Qed.

(** ** Modules *)

(** Each function so far is lowered, the last one of its name is found, and
    there are no instances. *)
Definition lowered_so_far prog n (items : HirModule) (sh : SharedState) : Prop :=
  sh_instances sh = [] /\ forall name fn, module_functions items !! name = Some fn ->
    exists g generated st, find_last Mir.fn_name name (sh_functions sh) = Some g /\
      lower_function prog n n fn generated [] = L_Ok g st.

Lemma lower_functions_typed functions consts prog n items sh k l before :
  coherent functions prog -> (forall f, It_Function f ∈ items -> function_typed functions consts f = true) ->
  lowered_so_far prog n before sh -> lower_functions prog n items sh k = M_Lowered l ->
  exists sh', lowered_so_far prog n (before ++ items) sh' /\ k sh' = M_Lowered l.
Proof.
  intros Hprog. revert before sh. induction items as [|item items IH]; intros before sh Ht Hsh Hl.
  { exists sh. by rewrite app_nil_r. }
  rewrite cons_middle, app_assoc. assert (Htail : forall f, It_Function f ∈ items -> function_typed functions consts f = true)
    by (intros; apply Ht; by right).
  destruct item as [|f| | | | |]; try (eapply IH; [exact Htail| |exact Hl];
    destruct Hsh as [Hi Hf]; split; [done|]; intros name fn; unfold module_functions; rewrite collect_items_snoc; apply Hf).
  cbn in Hl. specialize (Ht f ltac:(left)). rewrite (typed_not_generic _ _ _ Ht) in Hl.
  destruct (lower_function _ _ _ _ _ _) as [g st| | |] eqn:E; try done. destruct Hsh as [Hi Hf]. rewrite Hi in E.
  eapply IH; [exact Htail| |exact Hl]. split; [exact (function_instances _ _ _ _ _ _ _ _ _ _ Hprog Ht E)|].
  intros name fn. unfold module_functions. rewrite collect_items_snoc. cbn [all_functions_of].
  pose proof (proj1 (lower_function_header _ _ _ _ _ _ _ _ E)) as Hname.
  destruct (String.eqb_spec (Hir.fn_name f) name) as [Heq|Hne].
  - rewrite Heq, lookup_insert_eq. intros [= <-]. exists g, (sh_arrays sh), st.
    cbn [sh_functions]. by rewrite find_last_snoc, Hname, (proj2 (String.eqb_eq _ _) Heq).
  - rewrite lookup_insert_ne by done. intros (g' & generated & st' & Hg & E')%Hf. exists g', generated, st'.
    cbn [sh_functions]. by rewrite find_last_snoc, Hname, (proj2 (String.eqb_neq _ _) Hne).
Qed.
End Functions.

(** ** Runs *)

Section Runs.
Context `{Platform}.

Lemma returns_runs env g args v h :
  opt_lt (fn_result g) (fn_value_count g) = true -> returns env g args v ->
  exists n, forall k, n <= k -> execute_function env k h g args = Returned v h.
Proof.
  intros Hres Hret. destruct (Hret h) as (c & Hsteps & Hh & Hlen & Hv). apply steps_exec in Hsteps as [n Hn].
  pose proof (exec_run env n g args (fn_instructions g) (mkCore h (fresh (fn_value_count g)) (fresh (fn_slot_count g)))) as He.
  rewrite (Hn n ltac:(lia)) in He. destruct He as [k Hk]. exists k. intros k' Hle. unfold execute_function.
  rewrite (run_steps_stop _ _ k' _ _ Hk) by done. cbn. unfold function_result. rewrite Hh. unfold result_or_unit in Hv.
  destruct (fn_result g) as [r|]; [|by rewrite Hv]. cbn in Hres. apply Nat.ltb_lt in Hres.
  destruct (values c !! r) as [w|] eqn:Hw; [by rewrite <- Hv|]. apply lookup_ge_None in Hw. lia.
Qed.

(** ** Arguments *)

Lemma typed_argument env cx p v :
  cx_substitutions cx = ∅ -> scalar (type_of_ref (Hir.param_ty p)) = true ->
  has_type (type_of_ref (Hir.param_ty p)) v = true ->
  ensure_type env (type_name_or_path cx (Hir.param_ty p)) v = RunOk tt.
Proof.
  intros Hcx. unfold type_name_or_path, lower_type_ref. rewrite Hcx. unfold type_of_ref.
  destruct (from_type_name _ _); try done; by destruct v.
Qed.

Lemma typed_arguments env cx params args :
  cx_substitutions cx = ∅ -> Forall (fun p => scalar (type_of_ref (Hir.param_ty p)) = true) params ->
  Forall2 (fun p arg => has_type (type_of_ref (Hir.param_ty p)) arg = true) params args ->
  ensure_args env args (map (fun p => Mir.mkParam (Hir.param_name p) (type_name_or_path cx (Hir.param_ty p))) params) = RunOk tt.
Proof.
  intros Hcx Hs Hargs. induction Hargs as [|p arg params args Hp _ IH]; [done|].
  apply Forall_cons in Hs as [Hsp Hs]. cbn. rewrite (typed_argument _ _ _ _ Hcx Hsp Hp). by apply IH.
Qed.

Lemma typed_call_checked env f cx g args :
  env_function env (Hir.fn_name f) = Some g -> cx_substitutions cx = ∅ ->
  Mir.fn_params g = map (fun p => Mir.mkParam (Hir.param_name p) (type_name_or_path cx (Hir.param_ty p))) (Hir.fn_params f) ->
  Forall (fun p => scalar (type_of_ref (Hir.param_ty p)) = true) (Hir.fn_params f) ->
  Forall2 (fun p arg => has_type (type_of_ref (Hir.param_ty p)) arg = true) (Hir.fn_params f) args ->
  (Hir.fn_name f = "main"%string -> args = []) -> checked_function env (Hir.fn_name f) args = RunOk g.
Proof.
  intros Hg Hcx Hps Hs Hargs Hmain. unfold checked_function. rewrite Hg. cbn [ok_or res_bind]. rewrite Hps, length_map.
  pose proof (Forall2_length _ _ _ Hargs) as Hlen. rewrite Hlen, Nat.eqb_refl.
  assert (Hm : (Hir.fn_name f =? "main")%string && negb (length args =? 0)%nat = false).
  { destruct (String.eqb_spec (Hir.fn_name f) "main") as [E|]; [|done]. by rewrite (Hmain E). }
  rewrite Hm. cbn [negb]. by rewrite (typed_arguments _ _ _ _ Hcx Hs Hargs).
Qed.

(** ** Modules *)

(** The functions of a typed module, as they are found *)
Lemma typed_module_lowered n overflow items info l :
  lower_with_imports n overflow items info = M_Lowered l -> typed_module items = true ->
  exists prog, coherent (module_functions items) prog /\ lp_overflow_checks prog = overflow /\
    (forall name, is_Some (lp_evaluated_consts prog !! name) -> name ∈ module_consts items) /\
    forall env name fn, program env = ml_program l -> module_functions items !! name = Some fn ->
      exists g generated st, env_function env name = Some g /\ lower_function prog n n fn generated [] = L_Ok g st.
Proof.
  unfold lower_with_imports. destruct (evaluate_const_values _ _ _ _) as [u cenv cst| | |] eqn:Hconsts; try done. intros Hl Ht.
  exists (lower_program items info (ConstState.values cst) overflow).
  pose proof (module_coherent items info (ConstState.values cst) overflow Ht) as Hco. split; [done|]. split; [done|].
  split; [intros name Hname; apply elem_of_dom; by eapply (evaluated_declared _ _ _ _ _ _ _ _ Hconsts)|].
  eapply (lower_functions_typed _ _ _ _ _ _ _ _ [] Hco) in Hl; [|intros f; by apply typed_module_in|by split].
  destruct Hl as (sh & [Hi Hf] & [= <-]). intros env name fn Hp Hfn. unfold env_function. rewrite Hp. cbn.
  rewrite Hi, app_nil_r. apply (Hf name fn Hfn).
Qed.

(** A call of typed arguments that has a value by lexical scope returns it. *)
Lemma lexical_call_runs n overflow items info l env name fn args sp v s' h :
  lower_with_imports n overflow items info = M_Lowered l -> typed_module items = true ->
  program env = ml_program l -> overflow_checks env = overflow ->
  module_functions items !! name = Some fn ->
  Forall2 (fun p arg => has_type (type_of_ref (Hir.param_ty p)) arg = true) (Hir.fn_params fn) args ->
  (name = "main"%string -> args = []) ->
  ConstEval.k_function (lexical (const_program items (imported_enum_variants info) (imported_struct_fields info)) overflow)
    name args sp None [] v s' ->
  exists k0, forall k, k0 <= k -> run_function env k h name args = Returned v h.
Proof.
  intros Hl Ht Hp Ho Hfn Hargs Hmain Hlex. destruct (typed_module_lowered _ _ _ _ _ Hl Ht) as (prog & Hco & Hchecks & Hconsts & Hfind).
  subst overflow.
  assert (Htyped : forall name fn, module_functions items !! name = Some fn ->
    function_typed (module_functions items) (module_consts items) fn = true).
  { intros name' fn' [Hin _]%module_function_in. by apply typed_module_in. }
  assert (Hlowered : forall name fn, module_functions items !! name = Some fn -> exists g m generated insts st,
    env_function env name = Some g /\ lower_function prog n m fn generated insts = L_Ok g st).
  { intros name' fn' (g & generated & st & ? & ?)%(Hfind env _ _ Hp). by exists g, n, generated, [], st. }
  pose proof (lexical_computes env (module_functions items) prog n
    (const_program items (imported_enum_variants info) (imported_struct_fields info)) eq_refl Hco Hchecks _ Hconsts Htyped Hlowered) as HK.
  destruct (knot_rel_function _ _ _ HK name args sp None [] v s' Hlex) as [_ Hcall].
  destruct (Hcall fn Hfn Hargs) as (_ & g & Hg & Hret).
  destruct (Hfind env name fn Hp Hfn) as (g' & generated & st & Hg' & Hlower). rewrite Hg in Hg'. injection Hg' as <-.
  destruct (module_function_in _ _ _ Hfn) as [Hin Hname].
  destruct (function_typed_parts _ _ _ (Htyped _ _ Hfn)) as (_ & _ & _ & _ & body & _ & _ & Hscalar).
  destruct (lower_function_header _ _ _ _ _ _ _ _ Hlower) as [_ Hparams].
  pose proof (lower_function_numbered prog n n fn generated [] ltac:(constructor)) as Hn. rewrite Hlower in Hn. destruct Hn as [Hn _].
  destruct (returns_runs env g args v h (wn_result _ Hn) Hret) as [k0 Hk]. exists k0. intros k Hle.
  unfold run_function. rewrite <- Hname in *.
  rewrite (typed_call_checked env fn (mkFnContext fn ∅) g args Hg eq_refl Hparams Hscalar Hargs Hmain). by apply Hk.
Qed.
End Runs.

(** ** Compile time and run time *)

(** What the evaluator of constants gives for a call is its value by lexical scope. *)
Lemma evaluated_lexical `{Platform} cprog checks d k name args sp ds v cenv st :
  result_free cprog d ->
  ConstEval.k_function (const_knot cprog checks k) name args sp (const_state ds) ConstEnv_default = C_Ok v cenv st ->
  exists s, ConstEval.k_function (lexical cprog checks) name args sp None [] v s.
Proof.
  intros Hfree Hrun.
  assert (Hv : ConstRefine.values_ok cprog checks (const_state ds)) by (intros ?? Hin; cbn in Hin; by rewrite lookup_empty in Hin).
  pose proof (refines_function _ _ _ (const_knot_refines cprog checks d k Hfree) true name args sp []
    (const_state ds) ConstEnv_default [] Hv (env_rel_default _)) as Hr.
  rewrite Hrun in Hr. destruct Hr as (_ & extra & s & Hlex & _). by exists s.
Qed.

(** C7: Lowering is correct on the scalar language, recursion included.  Take a
    module whose functions are typed scalar code in the sense of [typed_module]:
    literals, locals, operators, [if], [while], [repeat], calls, [let], [let mut]
    and assignments, with its restrictions (a [repeat] is not counted by a bare
    name that a [repeat] of the function binds or a constant has; the tail of the
    first branch of an [if] has its type outside of the branch too; no operator has
    two float literals; floats keep their bits; no [let] binds a [Unit]).  If it is
    lowered, and by lexical scope a call of one of its functions has the value [v],
    then the interpreter, run on the lowered program for long enough, returns [v]
    from that call, and leaves the heap as it was. *)
Theorem lowered_call_returns `{Platform} n overflow items info l env name fn args sp v s h :
  lower_with_imports n overflow items info = M_Lowered l -> typed_module items = true ->
  program env = ml_program l -> overflow_checks env = overflow ->
  module_functions items !! name = Some fn ->
  Forall2 (fun p arg => has_type (type_of_ref (Hir.param_ty p)) arg = true) (Hir.fn_params fn) args ->
  (name = "main"%string -> args = []) ->
  ConstEval.k_function (lexical (const_program items (imported_enum_variants info) (imported_struct_fields info)) overflow)
    name args sp None [] v s ->
  exists k0, forall k, k0 <= k -> run_function env k h name args = Returned v h.
Proof. apply lexical_call_runs. Qed.

(** [repeat] counted by a number, a sum and a name, [while], [if] and calls *)
Definition scalar_module : HirModule :=
  [fn "sum" [("n", "I32"); ("step", "I32")] "I32" (block
     [S_Let true "s" (int 0) sp;
      S_Expr (E_Repeat (Some "i") (bin B_Add (nm "n") (int 1))
        (block [S_Let false "d" (bin B_Mul (nm "i") (nm "step")) sp;
                S_Assign (nm "s") (bin B_Add (nm "s") (nm "d")) sp] None) sp) sp;
      S_Expr (E_Repeat None (nm "n") (block [S_Assign (nm "s") (bin B_Add (nm "s") (int 1)) sp] None) sp) sp]
     (Some (nm "s")));
   fn "main" [] "I32" (block
     [S_Let true "t" (int 0) sp;
      S_Let true "k" (int 0) sp;
      S_Expr (E_While (bin B_Lt (nm "k") (int 4))
        (block [S_Assign (nm "t") (bin B_Add (nm "t")
                  (E_If (bin B_Eq (nm "k") (int 2)) (block [] (Some (int 100)))
                     (block [] (Some (call "sum" [nm "k"; int 2]))) sp)) sp;
                S_Assign (nm "k") (bin B_Add (nm "k") (int 1)) sp] None) sp) sp;
      S_Expr (E_Repeat None (int 2) (block [S_Assign (nm "t") (bin B_Add (nm "t") (nm "t")) sp] None) sp) sp]
     (Some (nm "t")))]%string.

Definition scalar_lowering : MirLowering :=
  match lower 50 false scalar_module with M_Lowered l => l | _ => mkMirLowering (mkProgram [] [] [] []) ∅ [] end.

Lemma scalar_lowered : lower_with_imports 50 false scalar_module no_imports = M_Lowered scalar_lowering.
Proof. vm_compute. reflexivity. Qed.

Lemma outcome_value {A} (m : ConstOutcome A) v :
  match m with C_Ok w _ _ => w = v | _ => False end -> exists env st, m = C_Ok v env st.
Proof. destruct m as [w env st| | |]; [|done..]. intros ->. by exists env, st. Qed.

Lemma map_forallb {A} (P : A -> bool) (m : gmap string A) name a :
  forallb (fun na => P na.2) (map_to_list m) = true -> m !! name = Some a -> P a = true.
Proof. rewrite forallb_forall. intros Hall Ha. exact (Hall (name, a) (proj1 (list_elem_of_In _ _) (proj2 (elem_of_map_to_list _ _ _) Ha))). Qed.

Lemma scalar_result_free : result_free (const_program scalar_module ∅ ∅) 20.
Proof.
  split; intros name x.
  - apply (map_forallb (fun item => everywhere not_result 20 (const_value item))). vm_compute. reflexivity.
  - apply (map_forallb (fun f => function_everywhere not_result 20 [fn_requires f] f)). vm_compute. reflexivity.
Qed.

Lemma scalar_lexical :
  exists s, ConstEval.k_function (lexical (const_program scalar_module ∅ ∅) false) "main" [] sp None [] (V_Int 472) s.
Proof.
  destruct (outcome_value (ConstEval.k_function (const_knot (const_program scalar_module ∅ ∅) false 50) "main" [] sp
    (const_state []) ConstEnv_default) (V_Int 472) ltac:(vm_compute; reflexivity)) as (cenv & st & E).
  exact (evaluated_lexical (const_program scalar_module ∅ ∅) false 20 50 "main" [] sp [] (V_Int 472) cenv st
    scalar_result_free E).
Qed.

(** [main] returns the value it has at compile time. *)
Lemma lowered_call_returns_witness :
  exists k0, forall k, k0 <= k ->
    run_function (env_of (ml_program scalar_lowering)) k new_heap "main" [] = Returned (V_Int 472) new_heap.
Proof.
  destruct scalar_lexical as [s Hlex].
  exact (lowered_call_returns 50 false scalar_module no_imports scalar_lowering (env_of (ml_program scalar_lowering))
    "main" _ [] sp (V_Int 472) s new_heap scalar_lowered ltac:(vm_compute; reflexivity) (program_env_of _) (checks_env_of _)
    ltac:(vm_compute; reflexivity) ltac:(constructor) ltac:(done) Hlex).
Defined.

(** C8: The compile-time evaluator and a run agree: in a typed module, with the
    restrictions of [typed_module], none of whose expressions reads the [result]
    of a contract, when the evaluator of constants computes [v] for a call, with
    its slots, its stack of active functions and its fuel, the interpreter on the
    lowered program returns [v] from the same call. *)
Theorem compile_time_and_run_agree `{Platform} n d k overflow items info l env name fn args sp ds v cenv st h :
  lower_with_imports n overflow items info = M_Lowered l -> typed_module items = true ->
  program env = ml_program l -> overflow_checks env = overflow ->
  result_free (const_program items (imported_enum_variants info) (imported_struct_fields info)) d ->
  module_functions items !! name = Some fn ->
  Forall2 (fun p arg => has_type (type_of_ref (Hir.param_ty p)) arg = true) (Hir.fn_params fn) args ->
  (name = "main"%string -> args = []) ->
  ConstEval.k_function
    (const_knot (const_program items (imported_enum_variants info) (imported_struct_fields info)) overflow k)
    name args sp (const_state ds) ConstEnv_default = C_Ok v cenv st ->
  exists k0, forall k, k0 <= k -> run_function env k h name args = Returned v h.
Proof.
  intros Hl Ht Hp Ho Hfree Hfn Hargs Hmain Hrun. destruct (evaluated_lexical _ _ _ _ _ _ _ _ _ _ _ Hfree Hrun) as [s Hlex].
  by eapply lexical_call_runs.
Qed.

(** [sum(4, 3)] *)
Lemma compile_time_and_run_agree_witness :
  exists k0, forall k, k0 <= k ->
    run_function (env_of (ml_program scalar_lowering)) k new_heap "sum" [V_Int 4; V_Int 3] = Returned (V_Int 34) new_heap.
Proof.
  destruct (outcome_value (ConstEval.k_function (const_knot (const_program scalar_module ∅ ∅) false 50) "sum"
    [V_Int 4; V_Int 3] sp (const_state []) ConstEnv_default) (V_Int 34) ltac:(vm_compute; reflexivity)) as (cenv & st & E).
  exact (compile_time_and_run_agree 50 20 50 false scalar_module no_imports scalar_lowering
    (env_of (ml_program scalar_lowering)) "sum" _ [V_Int 4; V_Int 3] sp [] (V_Int 34) cenv st new_heap scalar_lowered
    ltac:(vm_compute; reflexivity) (program_env_of _) (checks_env_of _) scalar_result_free
    ltac:(vm_compute; reflexivity) ltac:(repeat constructor) ltac:(done) E).
Defined.

(** ** [for] *)

Section For.
Context `{Platform} (prog : ConstProgram) (checks : bool).

Abbreviation lexical := (lexical prog checks).

(** [e] is the number [z] wherever it stands. *)
Definition constant_int (e : Hir.Expr) (z : Z) : Prop := forall r s, ConstEval.k_expr lexical e r s (V_Int z) s.

Lemma lexical_expr e r s v s' :
  ConstEval.eval_expr_flow prog checks lexical e r s v s' -> ConstEval.k_expr lexical e r s v s'.
Proof. intros Hs. apply (knot_rel_expr _ _ _ (lexical_closed prog checks)). exact Hs. Qed.

Lemma lexical_body b r s v s' : ConstEval.eval_body lexical b r s v s' -> ConstEval.k_body lexical b r s v s'.
Proof. intros Hs. apply (knot_rel_body _ _ _ (lexical_closed prog checks)). exact Hs. Qed.

Lemma literal_constant value span : constant_int (HirLower.lower_expr (AE_Integer value span)) value.
Proof. intros r s. by apply lexical_expr. Qed.

Lemma binary_value op l r span a b z rs s :
  ConstEval.k_expr lexical l rs s (V_Int a) s -> ConstEval.k_expr lexical r rs s (V_Int b) s ->
  const_binary checks op (V_Int a) (V_Int b) span (Hir.expr_span l) (Hir.expr_span r) = O_Value z ->
  ConstEval.k_expr lexical (Hir.E_Binary op l r span) rs s z s.
Proof.
  intros Hl Hr Hop. apply lexical_expr. exists (V_Int a), s. split; [done|]. exists (V_Int b), s. split; [done|].
  by rewrite Hop.
Qed.

Definition index_name (binding : string) : string := ("__" ++ binding ++ "_idx")%string.

(** Round [k] of a [for]: the body with the binding at [a + up * k], over the
    index of the loop it is lowered to *)
Definition for_round (binding : string) (body : Hir.Body) (a up : Z) (r : option RuntimeValue) (k : nat)
    (s s' : Scope) : Prop :=
  exists v s1, ConstEval.k_body lexical body r
    ((binding, (false, V_Int (a + up * Z.of_nat k))) :: (index_name binding, (false, V_Int (Z.of_nat k))) :: s) v s1 /\
    s' = leave_scope s s1.

(** The rounds [k], ..., [k + n - 1] *)
Fixpoint for_rounds (binding : string) (body : Hir.Body) (a up : Z) (r : option RuntimeValue) (k n : nat)
    (s s' : Scope) : Prop :=
  match n with
  | 0 => s' = s
  | S n => exists s1, for_round binding body a up r k s s1 /\ for_rounds binding body a up r (S k) n s1 s'
  end.

Lemma leave_scope_length s inner : length (leave_scope s inner) <= length s.
Proof. unfold leave_scope. rewrite length_drop. lia. Qed.

Lemma leave_scope_short s inner : length inner <= length s -> leave_scope s inner = inner.
Proof. unfold leave_scope. intros Hl. by replace (length inner - length s) with 0 by lia. Qed.

Lemma for_rounds_length binding body a up r k n s s' :
  for_rounds binding body a up r k n s s' -> length s' <= length s.
Proof.
  revert k s. induction n as [|n IH]; intros k s; cbn; [by intros ->|].
  intros (s1 & (v & s2 & _ & ->) & Hr). apply IH in Hr. pose proof (leave_scope_length s s2). lia.
Qed.

(** One round of the lowered loop *)
Lemma lowered_round binding statements tail body_span start op a up k r s s' span :
  binding <> "_"%string -> constant_int start a ->
  const_binary checks op (V_Int a) (V_Int (Z.of_nat k)) span (Hir.expr_span start) span
    = O_Value (V_Int (a + up * Z.of_nat k)) ->
  for_round binding (Hir.mkBody statements tail body_span) a up r k s s' ->
  exists v, ConstEval.eval_nested_body_with_binding lexical
    (Hir.mkBody (Hir.S_Let false binding (Hir.E_Binary op start (Hir.E_Name (index_name binding) span) span) span
                 :: statements) tail body_span)
    (Some (index_name binding, V_Int (Z.of_nat k))) r s v s'.
Proof.
  intros Hb Ha Hop (v & s1 & Hbody & ->). exists v, s1. split; [|done].
  apply (knot_rel_body _ _ _ (lexical_unfold prog checks)) in Hbody.
  destruct Hbody as (u & s2 & Hss & Ht). apply lexical_body. exists u, s2. split; [|exact Ht].
  cbn [Hir.body_statements ConstEval.c_each].
  exists tt, ((binding, (false, V_Int (a + up * Z.of_nat k))) :: (index_name binding, (false, V_Int (Z.of_nat k))) :: s).
  split; [|exact Hss]. cbn [ConstEval.eval_stmt].
  eexists _, ((index_name binding, (false, V_Int (Z.of_nat k))) :: s). split.
  - eapply binary_value; [apply Ha| |exact Hop]. apply lexical_expr. cbn.
    eexists _, _. split; [split; reflexivity|]. cbn. rewrite String.eqb_refl. by split.
  - rewrite (proj2 (String.eqb_neq _ _) Hb). done.
Qed.

(** The rounds of the lowered loop *)
Lemma lowered_rounds binding statements tail body_span start op a up k n r s s' span :
  binding <> "_"%string -> constant_int start a ->
  (forall j, k <= j < k + n -> const_binary checks op (V_Int a) (V_Int (Z.of_nat j)) span (Hir.expr_span start) span
    = O_Value (V_Int (a + up * Z.of_nat j))) ->
  for_rounds binding (Hir.mkBody statements tail body_span) a up r k n s s' ->
  ConstEval.c_each (fun index =>
    c_bind (ConstEval.eval_nested_body_with_binding lexical
      (Hir.mkBody (Hir.S_Let false binding (Hir.E_Binary op start (Hir.E_Name (index_name binding) span) span) span
                   :: statements) tail body_span)
      (Some (index_name binding, V_Int (Z.of_nat index)))) (fun _ => c_ret tt)) (seq k n) r s tt s'.
Proof.
  intros Hb Ha. revert k s. induction n as [|n IH]; intros k s Hop Hr; cbn in Hr |- *; [by split|].
  destruct Hr as (s1 & Hround & Hrest).
  destruct (lowered_round _ _ _ _ _ _ _ _ _ _ _ _ span Hb Ha (Hop k ltac:(lia)) Hround) as [v Hv].
  exists tt, s1. split; [exists v, s1; by split|]. apply IH; [|done]. intros j Hj. apply Hop. lia.
Qed.

(** A loop of one direction runs its rounds in order. *)
Lemma direction_rounds binding body count_left count_right start op a up c r s s' span :
  binding <> "_"%string -> constant_int (HirLower.lower_expr start) a ->
  (forall k, k < Z.to_nat c -> const_binary checks (lower_binary_op op) (V_Int a) (V_Int (Z.of_nat k)) span
     (Hir.expr_span (HirLower.lower_expr start)) span = O_Value (V_Int (a + up * Z.of_nat k))) ->
  ConstEval.k_expr lexical (HirLower.lower_expr (AE_Binary AB_Sub count_left count_right span)) r s (V_Int c) s ->
  for_rounds binding (HirLower.lower_body body) a up r 0 (Z.to_nat c) s s' ->
  ConstEval.k_expr lexical
    (HirLower.lower_expr (desugar_for_direction binding body count_left count_right start AB_Sub op span)) r s V_Unit s'.
Proof.
  intros Hb Ha Hop Hc Hrounds. destruct body as [statements tail body_span].
  apply lexical_expr. exists (V_Int c), s. split; [exact Hc|].
  exists tt, s'. split; [|by split]. eapply lowered_rounds; [done|exact Ha| |exact Hrounds]. intros j Hj. apply Hop. lia.
Qed.

(** C22: What a [for] means.  A [for] whose bounds are the numbers [a] and [b]
    wherever they stand runs its body once for each of [a], [a + 1], ..., [b - 1]
    in order, or of [a], [a - 1], ..., [b + 1] when [b] is not above [a], each
    time in the scope that the last round left. *)
Theorem for_runs_in_order binding start end_ body span a b r s s' :
  binding <> "_"%string -> constant_int (HirLower.lower_expr start) a -> constant_int (HirLower.lower_expr end_) b ->
  in_i64 a = true -> in_i64 b = true -> in_i64 (Z.abs (b - a)) = true ->
  for_rounds binding (HirLower.lower_body body) a (if (a <? b)%Z then 1 else -1) r 0 (Z.to_nat (Z.abs (b - a))) s s' ->
  ConstEval.k_expr lexical (HirLower.lower_expr (desugar_for binding start end_ body span)) r s V_Unit s'.
Proof.
  intros Hb Ha Hend Hia Hib Hd Hr. pose proof (for_rounds_length _ _ _ _ _ _ _ _ _ Hr) as Hlen.
  assert (Hnested : forall e,
    ConstEval.k_expr lexical (HirLower.lower_expr e) r s V_Unit s' ->
    ConstEval.eval_nested_body lexical (HirLower.lower_body (Ast.mkBody [] (Some e) span)) r s V_Unit s').
  { intros e He. exists s'. split; [|by rewrite leave_scope_short]. apply lexical_body. exists tt, s. by split. }
  assert (Hchecked : forall z z', in_i64 z = true -> z = z' -> const_checked checks z = O_Value (V_Int z')).
  { intros z z' Hz <-. unfold const_checked. by rewrite Hz. }
  unfold desugar_for. apply lexical_expr. exists (V_Bool (a <? b)%Z), s. split.
  { eapply binary_value; [apply Ha|apply Hend|]. done. }
  unfold in_i64, i64_min, i64_max in Hia, Hib, Hd.
  destruct (a <? b)%Z eqn:E; apply Hnested.
  - eapply direction_rounds with (c := (b - a)%Z) (up := 1%Z); [done|exact Ha| | |].
    + intros k Hk. apply Hchecked; [|lia]. unfold in_i64, i64_min, i64_max. lia.
    + eapply binary_value; [apply Hend|apply Ha|]. apply Hchecked; [|done]. unfold in_i64, i64_min, i64_max. lia.
    + by replace (b - a)%Z with (Z.abs (b - a)) by lia.
  - eapply direction_rounds with (c := (a - b)%Z) (up := (-1)%Z); [done|exact Ha| | |].
    + intros k Hk. apply Hchecked; [|lia]. unfold in_i64, i64_min, i64_max. lia.
    + eapply binary_value; [apply Ha|apply Hend|]. apply Hchecked; [|done]. unfold in_i64, i64_min, i64_max. lia.
    + by replace (a - b)%Z with (Z.abs (b - a)) by lia.
Qed.

End For.

(** [for i in 1..3 { t = t + i; }] adds 1 and 2. *)
Lemma for_runs_in_order_witness :
  let lexical := lexical (const_program [] ∅ ∅) false in
  let body := Ast.mkBody [AS_Assign (AE_Name "t" sp) (AE_Binary AB_Add (AE_Name "t" sp) (AE_Name "i" sp) sp) sp] None sp in
  ConstEval.k_expr lexical (HirLower.lower_expr (desugar_for "i" (AE_Integer 1 sp) (AE_Integer 3 sp) body sp)) None
    [("t"%string, (true, V_Int 0))] V_Unit [("t"%string, (true, V_Int 3))].
Proof.
  intros lexical body. subst lexical.
  apply (for_runs_in_order (const_program [] ∅ ∅) false "i" (AE_Integer 1 sp) (AE_Integer 3 sp) body sp 1 3 None
    [("t"%string, (true, V_Int 0))] [("t"%string, (true, V_Int 3))]);
    [done|apply literal_constant|apply literal_constant|done|done|done|].
  assert (Hround : forall k t, in_i64 (t + (1 + 1 * Z.of_nat k)) = true ->
    for_round (const_program [] ∅ ∅) false "i" (HirLower.lower_body body) 1 1 None k [("t"%string, (true, V_Int t))]
      [("t"%string, (true, V_Int (t + (1 + 1 * Z.of_nat k))))]).
  { intros k t Hin. eexists V_Unit, [("i"%string, _); (index_name "i", _); ("t"%string, (true, V_Int (t + (1 + 1 * Z.of_nat k))))].
    split; [|reflexivity]. apply lexical_body. eexists tt, _. split; [|by split]. cbn [Hir.body_statements ConstEval.c_each].
    eexists tt, _. split; [|by split]. cbn [ConstEval.eval_stmt]. eexists _, _. split.
    - eapply binary_value; [| |cbn; unfold const_checked; by rewrite Hin].
      + apply lexical_expr. eexists _, _. split; [split; reflexivity|]. by split.
      + apply lexical_expr. eexists _, _. split; [split; reflexivity|]. by split.
    - eexists _, _. split; [by split|]. eexists _, _. split; [reflexivity|]. by split. }
  exists [("t"%string, (true, V_Int 1))]. split; [by apply (Hround 0 0%Z)|].
  exists [("t"%string, (true, V_Int 3))]. split; [by apply (Hround 1 1%Z)|done].
Defined.

(** ** From text to values

    [LoadedSource::mir] of [apps/sarifc/src/main.rs] for a package without
    imported modules, and a run of the result. *)

Definition is_import (item : Item) : bool := match item with It_Import _ => true | _ => false end.

(** The module that is lowered: the HIR of the source without its imports *)
Definition source_module `{Platform} (next : LogosNext) (extra depth : nat) (source : string) : option HirModule :=
  match lower_source next extra depth source with
  | A_Ok file _ => Some (List.filter (fun item => negb (is_import item)) (lower_module file))
  | _ => None
  end.

Definition compile_source `{Platform} (next : LogosNext) (extra depth n : nat) (overflow : bool) (source : string)
    : option MirLowering :=
  items ← source_module next extra depth source;
  match lower_with_imports n overflow items (from_resolved_modules ∅) with M_Lowered l => Some l | _ => None end.

Definition run_source `{Platform} (next : LogosNext) (extra depth n : nat) (overflow : bool) (k : nat) (h : Heap)
    (source name : string) (args : list RuntimeValue) : option RunResult :=
  (fun l => run_function (mkEnv (ml_program l) [] "" overflow) k h name args) <$>
  compile_source next extra depth n overflow source.

(** Take a source without [handle] that the front end and the lowering to the MIR
    take to a program, with typed scalar functions only.  When by lexical scope a
    call of one of its functions has the value [v], compiling and running the text
    returns [v] from that call, however much the parser and embedded strings are
    given beyond what is enough. *)
Lemma source_call_runs `{Platform} next `{!LogosLaws next} `{!LetLaw next} source out cache extra n overflow
    items l name fn args sp v s h :
  lex next source (S (String.length source)) ∅ = Lexed out cache -> handle_free (tokens out) = true ->
  source_module next extra 2 source = Some items -> compile_source next extra 2 n overflow source = Some l ->
  typed_module items = true -> module_functions items !! name = Some fn ->
  Forall2 (fun p arg => has_type (type_of_ref (Hir.param_ty p)) arg = true) (Hir.fn_params fn) args ->
  (name = "main"%string -> args = []) ->
  ConstEval.k_function (lexical (const_program items ∅ ∅) overflow) name args sp None [] v s ->
  exists k0, forall extra' depth k, 2 <= depth -> k0 <= k ->
    run_source next extra' depth n overflow k h source name args = Some (Returned v h).
Proof.
  intros Hlexed Hfree Hm Hl Ht Hfn Hargs Hmain Hlex.
  destruct (source_ends next source out cache Hlexed Hfree) as (file & ds & Hends).
  assert (forall extra' depth, 2 <= depth -> source_module next extra' depth source = Some items) as Hsame.
  { intros extra' depth Hd. unfold source_module in *. rewrite Hends in Hm |- * by lia. exact Hm. }
  unfold compile_source in Hl. rewrite Hm in Hl. cbn in Hl.
  destruct (lower_with_imports _ _ _ _) as [l'| | |] eqn:E; try done. injection Hl as ->.
  destruct (lexical_call_runs n overflow items (from_resolved_modules ∅) l (mkEnv (ml_program l) [] "" overflow)
    name fn args sp v s h E Ht eq_refl eq_refl Hfn Hargs Hmain Hlex) as [k0 Hk].
  exists k0. intros extra' depth k Hd Hle. unfold run_source, compile_source. rewrite Hsame by done. cbn.
  rewrite E. cbn. by rewrite Hk.
Qed.

(** Functions, [while], [for], [repeat], compound assignments, an [if] as operand *)
Definition scalar_source : string :=
  "fn sum(n: I32, step: I32) -> I32 {
     let mut s = 0;
     repeat i in n + 1 { let d = i * step; s += d; };
     repeat n { s += 1; };
     s
   }
   // the total over four rounds, doubled twice
   fn main() -> I32 {
     let mut t = 0;
     let mut k = 0;
     while k < 4 { t = t + if k == 2 { 100 } else { sum(k, 2) }; k += 1; };
     for i in 0..3 { t = t + i; };
     repeat 2 { t = t + t; };
     t
   }".

Definition scalar_items : HirModule := default [] (source_module pattern_next 0 2 scalar_source).

Definition scalar_compiled : MirLowering :=
  match lower 50 false scalar_items with M_Lowered l => l | _ => mkMirLowering (mkProgram [] [] [] []) ∅ [] end.

Definition scalar_tokens : LexOutput :=
  match lex pattern_next scalar_source (S (String.length scalar_source)) ∅ with Lexed out _ => out | _ => mkLexOutput [] [] end.

Definition scalar_cache : gmap string string :=
  match lex pattern_next scalar_source (S (String.length scalar_source)) ∅ with Lexed _ cache => cache | _ => ∅ end.

Lemma source_result_free : result_free (const_program scalar_items ∅ ∅) 20.
Proof.
  split; intros name x.
  - apply (map_forallb (fun item => everywhere not_result 20 (const_value item))). vm_compute. reflexivity.
  - apply (map_forallb (fun f => function_everywhere not_result 20 [fn_requires f] f)). vm_compute. reflexivity.
Qed.

Lemma source_lexical :
  exists s, ConstEval.k_function (lexical (const_program scalar_items ∅ ∅) false) "main" [] sp None [] (V_Int 484) s.
Proof.
  destruct (outcome_value (ConstEval.k_function (const_knot (const_program scalar_items ∅ ∅) false 50) "main" [] sp
    (const_state []) ConstEnv_default) (V_Int 484) ltac:(vm_compute; reflexivity)) as (cenv & st & E).
  exact (evaluated_lexical (const_program scalar_items ∅ ∅) false 20 50 "main" [] sp [] (V_Int 484) cenv st
    source_result_free E).
Qed.

Lemma scalar_source_lexed :
  lex pattern_next scalar_source (S (String.length scalar_source)) ∅ = Lexed scalar_tokens scalar_cache.
Proof. vm_compute. reflexivity. Qed.

Lemma scalar_source_module : source_module pattern_next 0 2 scalar_source = Some scalar_items.
Proof. vm_compute. reflexivity. Qed.

Lemma scalar_source_compiled : compile_source pattern_next 0 2 50 false scalar_source = Some scalar_compiled.
Proof. vm_compute. reflexivity. Qed.
