(* ===== verification/AnalysisSpec.v ===== *)
(** * Semantic analysis: what is accepted runs

    A module of functions on scalars that [analyze] accepts is typed in the sense
    of [LowerFragment.v], so that the compiled program returns what its calls
    mean; and programs that are accepted although they should not be. *)
From stdpp Require Import gmap pretty.
From S2P Require Import Prelude Syntax Utf8 TextOps Float64 Lexer Parser ParserSpec LexerSpec Mir Interp Exec Machine Entry Samples.
From S2P Require Import Hir SemType Builtins Ownership ParamModes EffectInfer Profile Resolve ResolveSpec Ast AstLower HirLower FrontSpec.
From S2P Require Import TypeCalls TypeCheck Analysis TypeCheckSpec ConstEval ConstState ConstLexical LowerTypes LowerOps Lower.
From S2P Require Import LowerState LowerFragment LowerSamples LowerCorrect.

Open Scope nat_scope.
Open Scope reports_scope.

(** ** The scalar language, by its forms *)

Definition is_let (s : Hir.Stmt) : bool := match s with S_Let _ _ _ _ => true | _ => false end.

Section Scalar.
Context `{KN : KnownNames} (functions : gmap string Hir.Function).

(** The value is not that of a loop, of a branch without a tail or of a call
    without a result. *)
Fixpoint never_unit (e : Hir.Expr) : bool :=
  match e with
  | E_While _ _ _ | E_Repeat _ _ _ _ => false
  | E_Group inner _ => never_unit inner
  | E_If _ then_body _ _ => never_unit_body then_body
  | E_Call callee _ _ =>
      match functions !! callee with Some f => scalar (return_type f) | None => false end
  | _ => true
  end
with never_unit_body (b : Hir.Body) : bool :=
  let 'Hir.mkBody _ tail _ := b in match tail with Some e => never_unit e | None => false end.

Definition has_dot (callee : string) : bool := match split_enum_variant_path callee with Some _ => true | None => false end.

(** Literals, names, operators, calls of declared functions, branches, loops,
    bindings of values and assignments to names, by their forms alone.  It leaves
    out what the fragment of [LowerFragment.v] does, as far as forms show it:
    - a [repeat] counted by the bare name of an index of the function's [repeat]s
      ([index_as_count] of LowerSpec.v shows that it runs another number of times);
    - a [let] directly in a first branch of [if] that has a value;
    - an operator on two literals of floats, and literals that do not keep their bits;
    - values of [Unit], of loops, of branches without a tail and of calls without
      a result, to the left of an operator or bound by [let] to a name. *)
Fixpoint scalar_expr (e : Hir.Expr) : bool :=
  match e with
  | E_Integer _ _ | E_String _ _ _ | E_Bool _ _ | E_Name _ _ => true
  | E_Float x _ => exact_float x
  | E_Group inner _ => scalar_expr inner
  | E_Unary _ inner _ => scalar_expr inner
  | E_Binary _ l r _ => scalar_expr l && scalar_expr r && never_unit l && negb (float_literals l r)
  | E_Call callee args _ =>
      bool_decide (is_Some (functions !! callee)) && negb (has_dot callee) && forallb scalar_expr args
  | E_If condition then_body else_body _ =>
      scalar_expr condition && scalar_body then_body && scalar_body else_body &&
      (let 'Hir.mkBody statements tail _ := then_body in
       match tail with Some _ => negb (existsb is_let statements) | None => true end)
  | E_While condition body _ => scalar_expr condition && scalar_body body
  | E_Repeat binding count body _ =>
      scalar_expr count && plain_count count && index_known binding && scalar_body body
  | _ => false
  end
with scalar_body (b : Hir.Body) : bool :=
  let 'Hir.mkBody statements tail _ := b in
  forallb scalar_stmt statements && match tail with Some e => scalar_expr e | None => true end
with scalar_stmt (s : Hir.Stmt) : bool :=
  match s with
  | S_Let _ name value _ => scalar_expr value && (String.eqb name "_" || never_unit value)
  | S_Assign (E_Name _ _) value _ => scalar_expr value
  | S_Expr e _ => scalar_expr e
  | _ => false
  end.
(** *** Equations *)

Lemma scalar_expr_if condition then_body else_body span :
  scalar_expr (E_If condition then_body else_body span) =
  scalar_expr condition && scalar_body then_body && scalar_body else_body &&
  (let 'Hir.mkBody statements tail _ := then_body in
   match tail with Some _ => negb (existsb is_let statements) | None => true end).
Proof. done. Qed.

Lemma scalar_expr_while condition body span :
  scalar_expr (E_While condition body span) = scalar_expr condition && scalar_body body.
Proof. done. Qed.

Lemma scalar_expr_repeat binding count body span :
  scalar_expr (E_Repeat binding count body span) =
  scalar_expr count && plain_count count && index_known binding && scalar_body body.
Proof. done. Qed.

Lemma scalar_body_eq statements tail span :
  scalar_body (Hir.mkBody statements tail span) =
  forallb scalar_stmt statements && match tail with Some e => scalar_expr e | None => true end.
Proof. done. Qed.

Lemma scalar_stmt_eq s :
  scalar_stmt s =
  match s with
  | S_Let _ name value _ => scalar_expr value && (String.eqb name "_" || never_unit value)
  | S_Assign (E_Name _ _) value _ => scalar_expr value
  | S_Expr e _ => scalar_expr e
  | _ => false
  end.
Proof. by destruct s. Qed.
End Scalar.

(** ** Types of the checker and types of lowering *)

Definition lower_of (ty : Type_) : option LowerType :=
  match ty with
  | T_I32 => Some LT_I32 | T_F64 => Some LT_F64 | T_Bool => Some LT_Bool | T_Text => Some LT_Text
  | T_Unit => Some LT_Unit
  | _ => None
  end.

Lemma lower_not_error ty t : lower_of ty = Some t -> in_error ty = false.
Proof. by destruct ty. Qed.

Lemma lower_inj ty ty' t : lower_of ty = Some t -> lower_of ty' = Some t -> ty = ty'.
Proof. destruct ty; intros [= <-]; destruct ty'; by intros [= ]. Qed.

Lemma lower_mismatch ty expected t t' :
  lower_of ty = Some t -> lower_of expected = Some t' -> mismatch ty expected = false -> t = t'.
Proof.
  intros Ht Ht' Hm. unfold mismatch in Hm. change (type_is ty T_Error) with (in_error ty) in Hm.
  rewrite (lower_not_error _ _ Ht), andb_true_r, negb_false_iff in Hm. apply bool_decide_eq_true in Hm. subst. congruence.
Qed.

Lemma lower_compatible expected ty t t' :
  lower_of expected = Some t' -> lower_of ty = Some t -> types_compatible expected ty = true -> t = t'.
Proof. destruct expected; intros [= <-]; destruct ty; by intros [= <-]. Qed.

(** The locals of the checker, and those of them that are mutable *)
Definition agrees (L : LowerFragment.Locals) (locals : Ownership.Locals) (mutable_locals : gset string) : Prop :=
  forall name,
    match local_find name L with
    | Some (m, t) =>
        scalar t = true /\ (exists ty, locals !! name = Some ty /\ lower_of ty = Some t) /\
        (m = true <-> name ∈ mutable_locals)
    | None => locals !! name = None /\ name ∉ mutable_locals
    end.

Lemma agrees_insert L locals mutable_locals name (m : bool) ty t before :
  agrees L locals mutable_locals -> lower_of ty = Some t -> scalar t = true ->
  (forall n, n <> name -> n ∈ before <-> n ∈ mutable_locals) -> name ∉ before ->
  agrees ((name, (m, t)) :: L) (<[name := ty]> locals) (if m then {[ name ]} ∪ before else before).
Proof.
  intros HL Ht Hs Hb Hn n. cbn [local_find]. destruct (String.eqb_spec name n) as [<-|Hne].
  - rewrite lookup_insert_eq. split_and!; [done|by eexists|]. destruct m; set_solver.
  - specialize (HL n). rewrite lookup_insert_ne by done. specialize (Hb n ltac:(congruence)).
    assert (n ∈ (if m then {[ name ]} ∪ before else before) <-> n ∈ mutable_locals) as Hm.
    { destruct m; set_solver. }
    destruct (local_find n L) as [[m' t']|]; [by rewrite Hm|by rewrite Hm].
Qed.

(** The types that the checker infers are those of the typed fragment. *)
Section Agree.
Context `{KN : KnownNames}.
Context (levenshtein : string -> string -> nat) (local_keys : Ownership.Locals -> list string).
Context (functions : gmap string Hir.Function) (tc : TypeContext).

(** A signature is that of the declaration, on scalars. *)
Record declares (f : Hir.Function) (sig : FunctionSignature) : Prop := {
  ds_params : Forall2 (fun p '(_, ty, _) => lower_of ty = Some (type_of_ref (Hir.param_ty p)))
                (Hir.fn_params f) (sig_params sig);
  ds_return : lower_of (sig_return_type sig) = Some (return_type f)
}.

Context (Hfunctions : forall name f, functions !! name = Some f ->
  exists sig, tc_functions tc !! name = Some sig /\ declares f sig).
Context (Hconsts : tc_consts tc = ∅) (Henums : tc_enum_variants tc = ∅).

#[local] Notation infer := (infer_expr levenshtein local_keys tc).
#[local] Notation infer_b := (infer_body levenshtein local_keys tc).
#[local] Notation infer_s := (infer_statement levenshtein local_keys tc).

Definition expr_agrees (e : Hir.Expr) : Prop :=
  forall L locals mutable_locals context,
    scalar_expr functions e = true -> agrees L locals mutable_locals ->
    silent (infer context locals mutable_locals e) (fun info =>
      exists t, expr_type functions L e = Some t /\ lower_of (info_ty info) = Some t /\
        (never_unit functions e = true -> scalar t = true)).

Definition state_agrees (L : LowerFragment.Locals) (st : BodyStmtState) : Prop :=
  agrees L (bs_locals st) (bs_mutable_locals st) /\ bs_rejected st = ∅.

Definition body_agrees (b : Hir.Body) : Prop :=
  forall L locals mutable_locals,
    scalar_body functions b = true -> agrees L locals mutable_locals ->
    silent (infer_b locals mutable_locals b) (fun info =>
      exists t, body_type functions L b = Some t /\ lower_of (body_ty info) = Some t /\
        (never_unit_body functions b = true -> scalar t = true)).

(** A statement that is accepted is typed. *)
Definition statement_agrees (s : Hir.Stmt) : Prop :=
  forall L st, scalar_stmt functions s = true -> state_agrees L st ->
    silent (infer_s s st) (fun st' => exists L', stmt_type functions L s = Some L' /\ state_agrees L' st').

Lemma statement_step s : stmt_all expr_agrees (fun _ => True) s -> statement_agrees s.
Proof.
  intros Hs L st Hsc [HL Hrej]. rewrite scalar_stmt_eq in Hsc. destruct s as [mutable name value span|target value span|e span|body span]; try done;
    cbn [stmt_all] in *; cbn [infer_statement].
  - apply andb_true_iff in Hsc as [Hv Hu]. apply silent_bind. eapply silent_mono; [by apply (Hs L)|].
    intros info (t & Ht & Hty & Hnu). unfold let_statement. rewrite stmt_type_eq. rewrite Ht. cbn.
    destruct (name =? "_")%string; cbn in *; [apply silent_ret; by exists L|].
    rewrite (Hnu Hu). case_bool_decide as Hin; cbn.
    + destruct mutable; [done|]. cbn. quiet. eexists. split; [done|]. split; [|done].
      apply (agrees_insert L _ (bs_mutable_locals st) name false); [done|done|by apply Hnu|set_solver|set_solver].
    + quiet. eexists. split; [done|]. split; cbn; [|by rewrite H, Hrej].
      rewrite H. assert (name ∉ bs_mutable_locals st) as Hnm.
      { specialize (HL name). destruct (local_find name L) as [[m t']|]; [|by destruct HL].
        destruct HL as (_ & (ty & E & _) & _). destruct Hin. by eexists. }
      pose proof (agrees_insert _ _ _ _ mutable _ _ (bs_mutable_locals st) HL Hty (Hnu Hu)
        (fun _ _ => reflexivity _) Hnm) as Ha.
      destruct mutable; exact Ha.
  - destruct Hs as [_ Hs]. destruct target; try done. apply silent_bind. eapply silent_mono; [by apply (Hs L)|].
    intros info (t & Ht & Hty & _). unfold TypeCheck.assign_name. cbn [bs_locals add_calls].
    specialize (HL name) as Hname. rewrite stmt_type_eq. rewrite Ht. cbn.
    destruct (local_find name L) as [[m t']|] eqn:E; [|by rewrite (proj1 Hname)].
    destruct Hname as (_ & (ty & E' & Hty') & Hm). rewrite E'. apply silent_bind, silent_ret.
    unfold assign_statement. cbn [bs_rejected add_calls bs_mutable_locals]. rewrite Hrej.
    rewrite decide_False by set_solver. case_bool_decide as Hin; cbn; [|done].
    rewrite (lower_not_error _ _ Hty), (lower_not_error _ _ Hty'). cbn. quiet.
    apply negb_false_iff, bool_decide_eq_true in H. rewrite (proj2 Hm Hin).
    exists L. split; [|done]. rewrite H in Hty. rewrite bool_decide_true by congruence. done.
  - apply silent_bind. eapply silent_mono; [by apply (Hs L)|]. intros info (t & Ht & _). apply silent_ret.
    exists L. rewrite stmt_type_eq. by rewrite Ht.
Qed.

Lemma statements_step l :
  Forall statement_agrees l -> forall L st, forallb (scalar_stmt functions) l = true -> state_agrees L st ->
    silent (r_fold infer_s l st) (fun st' => exists L', stmts_type functions L l = Some L' /\ state_agrees L' st').
Proof.
  induction 1 as [|s l Hs _ IH]; intros L st Hsc Hst; cbn [r_fold stmts_type].
  - apply silent_ret. by exists L.
  - apply andb_true_iff in Hsc as [Hsc Hl]. apply silent_bind. eapply silent_mono; [by apply (Hs L)|].
    intros st' (L' & -> & Hst'). by apply IH.
Qed.

Lemma body_agrees_step b :
  Forall (stmt_all expr_agrees body_agrees) (body_statements b) -> option_all expr_agrees (body_tail b) -> body_agrees b.
Proof.
  destruct b as [statements tail span]. cbn [body_statements body_tail]. intros Hs Ht L locals mutable_locals.
  rewrite scalar_body_eq. intros [Hsc Htail]%andb_true_iff HL.
  cbn [infer_body]. apply silent_bind.
  assert (Forall statement_agrees statements) as Hall.
  { eapply Forall_impl; [exact Hs|]. intros s Hsa. apply statement_step. destruct s; try done; by destruct Hsa. }
  eapply silent_mono; [by apply (statements_step _ Hall L)|]. intros st (L' & HL' & Hst & _).
  rewrite body_type_stmts, HL'. cbn [mbind option_bind tail_type]. destruct tail as [e|].
  - apply silent_bind. eapply silent_mono; [by apply (Ht L')|]. intros info (t & Hty & Hlt & Hnu). apply silent_ret.
    exists t. by split_and!.
  - apply silent_ret. by exists LT_Unit.
Qed.

(** *** Arguments *)

Lemma args_agree args context L locals mutable_locals :
  Forall expr_agrees args -> forallb (scalar_expr functions) args = true -> agrees L locals mutable_locals ->
  silent (r_each (infer context locals mutable_locals) args) (fun infos =>
    exists tys, args_type functions L args = Some tys /\ Forall2 (fun info t => lower_of (info_ty info) = Some t) infos tys).
Proof.
  intros Ha Hsc HL. induction Ha as [|a args Ha _ IH]; cbn [r_each args_type].
  - apply silent_ret. exists []. by split; [|constructor].
  - apply andb_true_iff in Hsc as [Hs Hsc]. apply silent_bind. eapply silent_mono; [by apply (Ha L)|].
    intros info (t & -> & Ht & _). apply silent_bind. eapply silent_mono; [by apply IH|]. intros infos (tys & -> & Htys).
    apply silent_ret. exists (t :: tys). by split; [|constructor].
Qed.

Lemma params_agree params infos ds tys :
  Forall2 (fun p '(_, ty, _) => lower_of ty = Some (type_of_ref (Hir.param_ty p))) ds params ->
  Forall2 (fun info t => lower_of (info_ty info) = Some t) infos tys -> length params = length infos ->
  silent (check_params params infos) (fun _ => tys = map (fun p => type_of_ref (Hir.param_ty p)) ds).
Proof.
  intros Hd. revert infos tys. induction Hd as [|p [[name expected] sp] ds params Hp _ IH]; intros infos tys Hi Hlen;
    destruct Hi as [|info t infos tys Ht Hi]; try done; cbn [check_params].
  - apply silent_bind, silent_when. intros Hw. cbn in Hlen.
    eapply silent_mono; [apply (IH infos tys Hi); lia|]. intros _ ->. cbn. f_equal.
    change (type_is (info_ty info) T_Error) with (in_error (info_ty info)) in Hw.
    rewrite (lower_not_error _ _ Ht), andb_true_r, negb_false_iff in Hw. by eapply lower_compatible.
Qed.

Lemma call_agrees callee args span context L locals mutable_locals :
  Forall expr_agrees args -> scalar_expr functions (E_Call callee args span) = true -> agrees L locals mutable_locals ->
  silent (infer context locals mutable_locals (E_Call callee args span)) (fun info =>
    exists t, expr_type functions L (E_Call callee args span) = Some t /\ lower_of (info_ty info) = Some t /\
      (never_unit functions (E_Call callee args span) = true -> scalar t = true)).
Proof.
  intros Ha Hsc HL. cbn [scalar_expr] in Hsc. apply andb_true_iff in Hsc as [[[f Hf]%bool_decide_eq_true Hdot]%andb_true_iff Hsc].
  cbn [infer_expr never_unit]. rewrite expr_type_call. apply silent_bind.
  eapply silent_mono; [by eapply args_agree|]. intros infos (tys & -> & Htys). rewrite Hf. cbn.
  destruct (Hfunctions _ _ Hf) as (sig & Hsig & [Hp Hr]). unfold has_dot in Hdot. unfold infer_call. rewrite Hsig.
  unfold enum_variant_info. destruct (split_enum_variant_path callee); [done|]. cbn.
  unfold infer_function_call. apply silent_bind, silent_when. intros Hlen%negb_false_iff%Nat.eqb_eq.
  apply silent_bind. eapply silent_mono; [by eapply params_agree|]. intros _ ->.
  apply silent_bind. intros _. apply silent_bind. intros _. apply silent_ret.
  rewrite bool_decide_true by done. by exists (return_type f).
Qed.

(** *** Operators *)

Lemma binary_agrees op l r span li ri lt rt :
  lower_of (info_ty li) = Some lt -> lower_of (info_ty ri) = Some rt -> scalar lt = true ->
  silent (infer_binary op l r span li ri) (fun info =>
    lt = rt /\ exists t, operator_type op lt = Some t /\ lower_of (info_ty info) = Some t /\ scalar t = true).
Proof.
  intros Hl Hr Hs. unfold infer_binary. rewrite (lower_not_error _ _ Hl), (lower_not_error _ _ Hr). apply silent_bind.
  eapply silent_mono; [|intros ty Hty; apply silent_ret; exact Hty]. cbn.
  destruct (info_ty li); try discriminate Hl; injection Hl as <-; try discriminate Hs;
    destruct (info_ty ri); try discriminate Hr; injection Hr as <-;
    destruct op; unfold binary_type, integer_operands, integer_operand, expect_type; cbn; quiet;
    first [discriminate|split; [done|]; by eexists].
Qed.

Lemma no_lets L l L' : existsb is_let l = false -> stmts_type functions L l = Some L' -> L' = L.
Proof.
  revert L'. induction l as [|s l IH]; intros L' Hl Hty; cbn in *; [congruence|].
  apply orb_false_iff in Hl as [Hs Hl].
  assert (stmt_type functions L s = None \/ stmt_type functions L s = Some L) as [E|E];
    [|by rewrite E in Hty|rewrite E in Hty; by apply IH].
  destruct s as [|target| |]; try done; rewrite stmt_type_eq.
  - destruct target; try (by left). destruct (expr_type functions L value); [|by left]. cbn.
    destruct (local_find name L) as [[[] t']|]; try (by left). case_bool_decide; [by right|by left].
  - destruct (expr_type functions L expr); [by right|by left].
Qed.

(** The tail of a branch that binds no names has the type of the branch outside of it. *)
Definition outer_type (L : LowerFragment.Locals) (b : Hir.Body) : option LowerType :=
  match b with Hir.mkBody _ (Some tail) _ => expr_type functions L tail | Hir.mkBody _ None _ => Some LT_Unit end.

Lemma branch_outer L b t :
  (let 'Hir.mkBody statements tail _ := b in
   match tail with Some _ => negb (existsb is_let statements) | None => true end) = true ->
  body_type functions L b = Some t -> outer_type L b = Some t.
Proof.
  destruct b as [statements tail span]. rewrite body_type_stmts. intros Hb Hty.
  destruct (stmts_type functions L statements) as [L'|] eqn:E; [|done]. cbn in Hty |- *. destruct tail as [e|]; [|done].
  apply negb_true_iff in Hb. by rewrite (no_lets _ _ _ Hb E) in Hty.
Qed.

Lemma must_agree code what actual expected t t' span help (Q : unit -> Prop) :
  lower_of actual = Some t -> lower_of expected = Some t' -> (t = t' -> Q tt) ->
  silent (must_be tc code what actual expected span help) Q.
Proof. intros Ha He HQ. apply silent_when. intros Hm. apply HQ. by eapply lower_mismatch. Qed.

(** The scope of the body of [repeat] *)
Definition loop_scope (L : LowerFragment.Locals) (binding : option string) : LowerFragment.Locals :=
  match binding with Some name => (name, (false, LT_I32)) :: L | None => L end.

Definition agrees_in_loop (L : LowerFragment.Locals) (binding : option string) (mutable_locals : gset string)
    (inner : Ownership.Locals) : Prop := agrees (loop_scope L binding) inner mutable_locals.

Lemma repeat_agrees L locals mutable_locals binding span :
  agrees L locals mutable_locals ->
  silent (repeat_locals tc binding span locals) (agrees_in_loop L binding mutable_locals).
Proof.
  intros HL. destruct binding as [name|]; cbn [repeat_locals]; [|by apply silent_ret].
  destruct (decide _) as [Hin|Hin]; [done|]. apply silent_ret.
  apply (agrees_insert L locals mutable_locals name false); [done|done|done|done|].
  specialize (HL name). destruct (local_find name L) as [[m t]|]; [|by destruct HL].
  destruct HL as (_ & (ty & E & _) & _). destruct Hin. by eexists.
Qed.

Lemma expr_agrees_step e : Forall expr_agrees (sub_exprs e) -> Forall body_agrees (sub_bodies e) -> expr_agrees e.
Proof.
  intros He Hb L locals mutable_locals context Hsc HL. destruct e; try discriminate Hsc; cbn [sub_exprs sub_bodies] in *.
  - apply silent_ret. by exists LT_I32.
  - apply silent_ret. cbn in Hsc. exists LT_F64. cbn. by rewrite Hsc.
  - apply silent_ret. by exists LT_Text.
  - apply silent_ret. by exists LT_Bool.
  - cbn [infer_expr]. unfold infer_name. specialize (HL name). cbn [expr_type].
    destruct (local_find name L) as [[m t]|].
    + destruct HL as (Hs & (ty & -> & Ht) & _). apply silent_ret. by exists t.
    + rewrite (proj1 HL), Hconsts, lookup_empty. done.
  - by apply call_agrees.
  - rewrite expr_type_if. rewrite scalar_expr_if in Hsc. apply andb_true_iff in Hsc as [Hsc Htail].
    apply andb_true_iff in Hsc as [[Hc Hthen]%andb_true_iff Helse].
    inversion Hb as [|? ? Bthen Hb']; inversion Hb' as [|? ? Belse _]; apply Forall_cons in He as [He _]; subst.
    cbn [infer_expr]. apply silent_bind. eapply silent_mono; [by apply (He L)|]. intros info (ct & Hct & Hi & _).
    apply silent_bind. eapply must_agree; [done..|]. intros ->. apply silent_bind.
    eapply silent_mono; [by apply (Bthen L)|]. intros then_info (t & Ht & Hti & Hnu). apply silent_bind.
    eapply silent_mono; [by apply (Belse L)|]. intros else_info (t' & Ht' & Hei & _).
    unfold infer_if. cbv zeta. rewrite (lower_not_error _ _ Hi), (lower_not_error _ _ Hti), (lower_not_error _ _ Hei).
    apply silent_bind, silent_when. cbn. intros Hcomp. rewrite Hcomp. apply silent_ret. exists t. split; [|by split].
    apply negb_false_iff in Hcomp. assert (t' = t) as -> by by eapply lower_compatible.
    rewrite Hct, Ht, Ht'. cbn. pose proof (branch_outer _ _ _ Htail Ht) as Ho. unfold outer_type in Ho.
    rewrite Ho. cbn. by rewrite !bool_decide_true.
  - rewrite expr_type_repeat. rewrite scalar_expr_repeat in Hsc.
    apply andb_true_iff in Hsc as [[[Hc Hname]%andb_true_iff Hindex]%andb_true_iff Hbody].
    apply Forall_cons in Hb as [Bbody _]; apply Forall_cons in He as [He _].
    cbn [infer_expr]. apply silent_bind. intros _. apply silent_bind.
    eapply silent_mono; [by apply (He L)|]. intros info (ct & Hct & Hi & _).
    apply silent_bind. eapply must_agree; [done..|]. intros ->. apply silent_bind.
    apply (silent_mono _ (agrees_in_loop L binding mutable_locals)); [by apply repeat_agrees|]. intros inner HL'.
    apply silent_bind. eapply silent_mono; [by apply (Bbody (loop_scope L binding))|].
    intros body_info (t & Ht & _). apply silent_ret.
    exists LT_Unit. unfold loop_scope in Ht. by rewrite Hct, Ht, Hname, Hindex.
  - rewrite expr_type_while. rewrite scalar_expr_while in Hsc. apply andb_true_iff in Hsc as [Hc Hbody].
    apply Forall_cons in Hb as [Bbody _]; apply Forall_cons in He as [He _].
    cbn [infer_expr]. apply silent_bind. intros _. apply silent_bind.
    eapply silent_mono; [by apply (He L)|]. intros info (ct & Hct & Hi & _).
    apply silent_bind. eapply must_agree; [done..|]. intros ->. apply silent_bind.
    eapply silent_mono; [by apply (Bbody L)|]. intros body_info (t & Ht & _). apply silent_ret.
    exists LT_Unit. by rewrite Hct, Ht.
  - apply Forall_cons in He as [He _]. destruct op. cbn [infer_expr scalar_expr] in *. apply silent_bind.
    eapply silent_mono; [by apply (He L)|]. intros info (t & Ht & Hi & _). unfold infer_unary.
    rewrite (lower_not_error _ _ Hi). apply silent_bind. unfold expect_type. apply silent_when. intros Hm. apply silent_ret.
    exists LT_Bool. assert (t = LT_Bool) as -> by (by apply (lower_mismatch (info_ty info) T_Bool)). cbn [expr_type]. by rewrite Ht.
  - cbn [scalar_expr] in Hsc. rewrite !andb_true_iff in Hsc. destruct Hsc as [[[Hsl Hsr] Hu] Hf].
    inversion He as [|? ? Hl He']; inversion He' as [|? ? Hr _]; subst.
    cbn [infer_expr]. apply silent_bind. eapply silent_mono; [by apply (Hl L)|]. intros li (lt & Hlt & Hli & Hnu).
    apply silent_bind. eapply silent_mono; [by apply (Hr L)|]. intros ri (rt & Hrt & Hri & _).
    eapply silent_mono; [by eapply binary_agrees; auto|]. intros info [<- (t & Ho & Hi & Hs)].
    exists t. split; [|by split]. cbn [expr_type]. rewrite Hlt, Hrt. cbn. by rewrite Hf, bool_decide_true.
  - apply Forall_cons in He as [He _]. by apply (He L).
Qed.

Lemma expr_agrees_all e : expr_agrees e.
Proof. apply (expr_tree_ind _ _ expr_agrees_step body_agrees_step e). Qed.

Lemma body_agrees_all b : body_agrees b.
Proof. apply (body_tree_ind _ _ expr_agrees_step body_agrees_step b). Qed.
End Agree.

(** ** Signatures keep their types *)

Definition same_types (sig sig' : FunctionSignature) : Prop :=
  sig_const_params sig' = sig_const_params sig /\ sig_params sig' = sig_params sig /\
  sig_return_type sig' = sig_return_type sig.

Definition retyped (functions functions' : gmap string FunctionSignature) : Prop :=
  forall name sig, functions !! name = Some sig -> exists sig', functions' !! name = Some sig' /\ same_types sig sig'.

Lemma retyped_refl functions : retyped functions functions.
Proof. intros name sig E. by exists sig. Qed.

Lemma retyped_insert functions functions' name sig sig' :
  retyped functions functions' -> functions' !! name = Some sig -> same_types sig sig' ->
  retyped functions (<[name := sig']> functions').
Proof.
  intros HR E (H1 & H2 & H3) name' sig0 E0. destruct (HR _ _ E0) as (sig1 & E1 & H4 & H5 & H6).
  destruct (decide (name = name')) as [<-|Hne].
  - rewrite lookup_insert_eq. rewrite E in E1. injection E1 as <-. exists sig'. split; [done|]. split_and!; congruence.
  - rewrite lookup_insert_ne by done. by exists sig1.
Qed.

Lemma retyped_effects order listing rounds functions functions' :
  EffectInfer.infer_effects order listing rounds functions = Some functions' -> retyped functions functions'.
Proof.
  unfold EffectInfer.infer_effects. intros (current & _ & [= <-])%bind_Some. unfold write_effects.
  assert (forall fs, retyped functions fs -> retyped functions (fold_left (fun functions '(name, facts) =>
    if has_explicit facts then functions
    else match functions !! name with
         | Some sig => <[name := set_effects (inferred_effects listing current name) sig]> functions
         | None => functions
         end) order fs)) as Hfold; [|apply Hfold, retyped_refl].
  induction order as [|[name facts] order IH]; intros fs Hfs; [done|]. cbn [fold_left]. apply IH.
  destruct (has_explicit facts); [done|]. destruct (fs !! name) as [sig|] eqn:E; [|done].
  by eapply retyped_insert.
Qed.

Lemma retyped_round ev sf sl items seen changed functions functions' :
  retyped functions functions' -> retyped functions (infer_round ev sf sl items seen changed functions').2.
Proof.
  revert seen changed functions'. induction items as [|item items IH]; intros seen changed functions' HR; [done|].
  cbn [infer_round]. destruct item; try by apply IH. destruct (decide _); [by apply IH|]. cbv zeta.
  destruct (functions' !! _) as [sig|] eqn:E; [|by apply IH]. destruct (decide _); [by apply IH|]. apply IH.
  by eapply retyped_insert.
Qed.

Lemma retyped_modes ev sf sl rounds items functions functions' functions0 :
  retyped functions0 functions -> infer_param_modes ev sf sl rounds items functions = Some functions' ->
  retyped functions0 functions'.
Proof.
  revert functions. induction rounds as [|rounds IH]; intros functions HR E; [done|]. cbn [infer_param_modes] in E.
  pose proof (retyped_round ev sf sl items ∅ false _ _ HR) as HR'.
  destruct (infer_round _ _ _ _ _ _ _) as [[] functions1]; [by eapply IH|]. by injection E as <-.
Qed.

(** ** Modules of functions on scalars *)

Definition scalar_ref (ty : TypeRef) : bool := one_of (Hir.path ty) ["I32"; "F64"; "Bool"; "Text"].
Definition result_ref (ty : TypeRef) : bool := one_of (Hir.path ty) ["I32"; "F64"; "Bool"; "Text"; "Unit"].

(** Neither generic nor with effects or contracts, on scalars, in the scalar language *)
Definition scalar_function (functions : gmap string Hir.Function) (f : Hir.Function) : bool :=
  match Hir.fn_type_params f, Hir.fn_effects f, Hir.fn_requires f, Hir.fn_ensures f, Hir.fn_body f with
  | [], [], None, None, Some body =>
      forallb (fun p => scalar_ref (Hir.param_ty p)) (Hir.fn_params f) &&
      match Hir.fn_return_type f with Some ty => result_ref ty | None => true end &&
      scalar_body (KN := {| known_names := known_of ∅ f |}) functions body
  | _, _, _, _, _ => false
  end.

Definition scalar_hir (items : HirModule) : bool :=
  forallb (fun item => match item with
                       | It_Function f => scalar_function (module_functions items) f
                       | _ => false
                       end) items.

(** The type that a name has for the checker *)
Definition named_type (path : string) : Type_ := type_from_ref ∅ (Hir.mkTypeRef path (mkSpan 0 0)).

Lemma scalar_names :
  named_type "I32" = T_I32 /\ named_type "F64" = T_F64 /\ named_type "Bool" = T_Bool /\ named_type "Text" = T_Text /\
  named_type "Unit" = T_Unit.
Proof. vm_compute. done. Qed.

Lemma lower_names :
  from_type_name ∅ "I32" = LT_I32 /\ from_type_name ∅ "F64" = LT_F64 /\ from_type_name ∅ "Bool" = LT_Bool /\
  from_type_name ∅ "Text" = LT_Text /\ from_type_name ∅ "Unit" = LT_Unit.
Proof. vm_compute. done. Qed.

Lemma result_ref_type ty :
  result_ref ty = true ->
  lower_of (type_from_ref ∅ ty) = Some (type_of_ref ty) /\ forall s, collect_const_params_from_type (type_from_ref ∅ ty) s = s.
Proof.
  destruct ty as [path sp]. unfold result_ref, one_of, type_of_ref. cbn [Hir.path existsb].
  change (type_from_ref ∅ (Hir.mkTypeRef path sp)) with (named_type path).
  destruct scalar_names as (N1 & N2 & N3 & N4 & N5), lower_names as (L1 & L2 & L3 & L4 & L5).
  rewrite !orb_true_iff, !String.eqb_eq.
  intros [->|[->|[->|[->|[->|[=]]]]]];
    [rewrite N1, L1|rewrite N2, L2|rewrite N3, L3|rewrite N4, L4|rewrite N5, L5]; exact (conj eq_refl (fun _ => eq_refl)).
Qed.

Lemma scalar_ref_type ty : scalar_ref ty = true -> result_ref ty = true /\ scalar (type_of_ref ty) = true.
Proof.
  destruct ty as [path sp]. unfold scalar_ref, result_ref, one_of, type_of_ref. cbn [Hir.path existsb].
  destruct lower_names as (L1 & L2 & L3 & L4 & L5).
  rewrite !orb_true_iff, !String.eqb_eq.
  intros [->|[->|[->|[->|[=]]]]]; [rewrite L1|rewrite L2|rewrite L3|rewrite L4]; tauto.
Qed.

Lemma scalar_function_parts functions f :
  scalar_function functions f = true ->
  Hir.fn_type_params f = [] /\ Hir.fn_effects f = [] /\ Hir.fn_requires f = None /\ Hir.fn_ensures f = None /\
  exists body, Hir.fn_body f = Some body /\ scalar_body (KN := {| known_names := known_of ∅ f |}) functions body = true /\
    Forall (fun p => scalar_ref (Hir.param_ty p) = true) (Hir.fn_params f) /\
    match Hir.fn_return_type f with Some ty => result_ref ty | None => true end = true.
Proof.
  unfold scalar_function. destruct (Hir.fn_type_params f), (Hir.fn_effects f), (Hir.fn_requires f), (Hir.fn_ensures f); try done.
  destruct (Hir.fn_body f) as [body|]; [|done]. intros [[Hp Hr]%andb_true_iff Hb]%andb_true_iff. split_and!; try done.
  exists body. split_and!; try done. apply Forall_forall. intros p Hin. rewrite forallb_forall in Hp.
  by apply Hp, list_elem_of_In.
Qed.

Section Signature.
Context (levenshtein : string -> string -> nat) (known : gset string).

(** What is entered for a function on scalars *)
Lemma scalar_signature functions f sig :
  scalar_function functions f = true -> same_types (function_signature levenshtein known f) sig ->
  sig_const_params sig = ∅ /\ declares f sig /\
  sig_params sig = map (fun p => (Hir.param_name p, type_from_ref ∅ (Hir.param_ty p), Hir.param_span p)) (Hir.fn_params f).
Proof.
  intros (Hg & _ & _ & _ & body & _ & _ & Hp & Hr)%scalar_function_parts (Hc & Hps & Hret).
  unfold function_signature, function_generics in Hc, Hps, Hret. rewrite Hg in *. cbn in Hc, Hps, Hret.
  rewrite Hc, Hps. split_and!; [|split|done].
  - unfold collect_const_params_from_function.
    assert (forall s, fold_left (fun params param =>
      collect_const_params_from_type (type_from_ref ∅ (Hir.param_ty param)) params) (Hir.fn_params f) s = s) as Hfold.
    { clear -Hp. induction Hp as [|p ps Hp _ IH]; intros s; [done|]. cbn [fold_left].
      rewrite (proj2 (result_ref_type _ (proj1 (scalar_ref_type _ Hp)))). apply IH. }
    rewrite Hfold. destruct (Hir.fn_return_type f) as [ty|]; [|done]. by apply result_ref_type.
  - rewrite Hps. clear -Hp. induction Hp as [|p ps Hp _ IH]; [constructor|]. constructor; [|done].
    cbn. by apply result_ref_type, scalar_ref_type.
  - rewrite Hret. unfold return_type, return_type_of. destruct (Hir.fn_return_type f); [|done]. by apply result_ref_type.
Qed.

Lemma locals_agree functions f sig :
  scalar_function functions f = true -> same_types (function_signature levenshtein known f) sig ->
  agrees (LowerFragment.param_locals f) (function_locals sig) ∅.
Proof.
  intros Hf Hsig. destruct (scalar_signature _ _ _ Hf Hsig) as (Hc & _ & Hp).
  apply scalar_function_parts in Hf as (_ & _ & _ & _ & body & _ & _ & Hs & _).
  unfold function_locals, LowerFragment.param_locals. rewrite Hc, Hp, gset_to_gmap_empty. clear -Hs.
  assert (forall L locals, agrees L locals ∅ -> agrees
    (rev (map (fun p => (Hir.param_name p, (false, type_of_ref (Hir.param_ty p)))) (Hir.fn_params f)) ++ L)
    (fold_left (fun locals '(name, ty, _) => <[name := ty]> locals)
      (map (fun p => (Hir.param_name p, type_from_ref ∅ (Hir.param_ty p), Hir.param_span p)) (Hir.fn_params f)) locals) ∅) as H.
  { induction Hs as [|p ps Hp _ IH]; intros L locals HL; [done|]. cbn [map rev fold_left]. rewrite <- app_assoc. cbn. apply IH.
    destruct (scalar_ref_type _ Hp) as [Hr Hsc]. destruct (result_ref_type _ Hr) as [Hl _].
    apply (agrees_insert L locals ∅ _ false); [done|done|done|done|set_solver]. }
  rewrite <- (app_nil_r (rev _)). apply H. intros name. cbn. split; [by rewrite lookup_empty|set_solver].
Qed.
End Signature.

(** ** What is accepted is typed *)

(** A module of functions has no constants and no enums. *)
Lemma only_functions levenshtein imported items st :
  forallb (fun item => match item with It_Function _ => true | _ => false end) items = true ->
  let m := resolved (fold_left (fun st item => resolve_item levenshtein imported item st) items st) in
  consts m = consts (resolved st) /\ enum_variants m = enum_variants (resolved st).
Proof.
  revert st. induction items as [|item items IH]; intros st Hi; [done|]. cbn [fold_left]. cbn in Hi.
  apply andb_true_iff in Hi as [Hf Hi]. destruct item as [|f| | | | |]; try done.
  destruct (IH (resolve_item levenshtein imported (It_Function f) st) Hi) as [-> ->]. cbn [resolve_item]. unfold resolve_function.
  cbv zeta. destruct (taken _ _); [done|]. destruct (generic_params_of _ _) as [generics ds].
  by destruct (params_of _ _ _), (effects_of_clause _ _ _).
Qed.

Section Accepted.
Context `{Platform} (levenshtein : string -> string -> nat) (local_keys : Ownership.Locals -> list string).
Context (fns_order : gmap string FnFacts -> list (string * FnFacts)) (listing : gset Hir.Effect -> list Hir.Effect).

Lemma scalar_item items item :
  scalar_hir items = true -> item ∈ items ->
  exists f, item = It_Function f /\ scalar_function (module_functions items) f = true.
Proof.
  intros Hs Hin%list_elem_of_In. unfold scalar_hir in Hs. rewrite forallb_forall in Hs. specialize (Hs _ Hin).
  destruct item as [|f| | | | |]; try done. by exists f.
Qed.

Lemma scalar_no_consts items : scalar_hir items = true -> module_consts items = ∅.
Proof.
  intros Hs. unfold module_consts. apply set_eq. intros name. split; [|set_solver].
  intros [c (item & Hin & E)%collect_items_in]%elem_of_dom. destruct (scalar_item _ _ Hs Hin) as (f & -> & _). done.
Qed.

Lemma scalar_import_free items : scalar_hir items = true -> import_free items = true.
Proof.
  intros Hs. unfold import_free. apply forallb_forall. intros item Hin.
  by destruct (scalar_item _ _ Hs (proj2 (list_elem_of_In _ _) Hin)) as (f & -> & _).
Qed.

Lemma concat_nil {A} (l : list (list A)) x : concat l = [] -> x ∈ l -> x = [].
Proof. intros Hl Hx. induction l as [|y l IH]; [set_solver|]. cbn in Hl. apply app_eq_nil in Hl as [-> Hl]. set_solver. Qed.

(** The parts of an analysis without diagnostics *)
Lemma accepted_parts rounds profile imported items a :
  analyze levenshtein local_keys fns_order listing rounds profile imported items = Some a -> an_diagnostics a = [] ->
  scalar_hir items = true ->
  exists m functions, resolve_module levenshtein items imported = (m, []) /\ retyped (Resolve.functions m) functions /\
    consts m = ∅ /\ enum_variants m = ∅ /\
    forall item, item ∈ items -> (analyze_item levenshtein local_keys functions m item).2 = [].
Proof.
  unfold analyze. destruct (resolve_module levenshtein items imported) as [m ds] eqn:Hm.
  intros (functions1 & Heff & (functions & Hmodes & [= <-])%bind_Some)%bind_Some Hnil Hs.
  cbn in Hnil. apply app_eq_nil in Hnil as [-> [Hitems _]%app_eq_nil]. exists m, functions.
  split; [done|]. split; [eapply retyped_modes; [by eapply retyped_effects|exact Hmodes]|].
  pose proof (only_functions levenshtein imported items (initial_state (collect_known_types imported items))) as Ho.
  unfold resolve_module in Hm. injection Hm as Em _. cbv zeta in Ho. rewrite Em in Ho.
  destruct Ho as [Hc He].
  { apply forallb_forall. intros item Hin. by destruct (scalar_item _ _ Hs (proj2 (list_elem_of_In _ _) Hin)) as (f & -> & _). }
  split_and!; [exact Hc|exact He|]. intros item Hin. eapply concat_nil; [exact Hitems|].
  rewrite map_map. by apply (list_elem_of_fmap_2 (fun i => (analyze_item levenshtein local_keys functions m i).2)).
Qed.

Lemma accepted_module_typed rounds profile imported items a :
  analyze levenshtein local_keys fns_order listing rounds profile imported items = Some a -> an_diagnostics a = [] ->
  scalar_hir items = true -> typed_module items = true.
Proof.
  intros Ha Hnil Hs. destruct (accepted_parts _ _ _ _ _ Ha Hnil Hs) as (m & functions & Hm & HR & Hc & He & Hitems).
  pose proof (resolve_module_clean _ _ _ _ (scalar_import_free _ Hs) Hm) as Hclean.
  assert (forall f, It_Function f ∈ items -> scalar_function (module_functions items) f = true /\
    exists sig, functions !! Hir.fn_name f = Some sig /\ same_types (function_signature levenshtein (known_types m) f) sig) as Hsig.
  { intros f Hin. destruct (scalar_item _ _ Hs Hin) as (f' & [= <-] & Hf). split; [done|]. apply HR.
    apply (clean_entered _ _ _ _ Hclean (D_Function f)). unfold decls. apply in_flat_map.
    exists (It_Function f). split; [by apply list_elem_of_In|by left]. }
  unfold typed_module. rewrite (scalar_no_consts _ Hs). apply forallb_forall. intros item Hin%list_elem_of_In.
  destruct (scalar_item _ _ Hs Hin) as (f & -> & Hf). destruct (Hsig f Hin) as (_ & sig & Hfs & Hst).
  destruct (scalar_function_parts _ _ Hf) as (Hg & Hef & Hreq & Hens & body & Hb & Hsb & Hp & _).
  destruct (scalar_signature _ _ _ _ _ Hf Hst) as (_ & [_ Hret] & _).
  specialize (Hitems _ Hin). cbn [analyze_item] in Hitems. unfold analyze_function in Hitems. rewrite Hfs in Hitems. cbn in Hitems.
  apply app_eq_nil in Hitems as [_ [_ Hbody]%app_eq_nil]. unfold analyze_body in Hbody. rewrite Hb in Hbody.
  set (tc := type_context functions m (Hir.fn_name f) (sig_effects sig)) in Hbody.
  destruct (infer_body levenshtein local_keys tc (function_locals sig) ∅ body) as [info ds] eqn:Hinfer.
  apply app_eq_nil in Hbody as [-> [Hrt _]%app_eq_nil].
  assert (body_agrees (KN := {| known_names := known_of ∅ f |}) levenshtein local_keys (module_functions items) tc body)
    as Hagree.
  { apply body_agrees_all; [|exact Hc|exact He]. intros name g [Hgin <-]%module_function_in.
    destruct (Hsig g Hgin) as (Hgs & sig' & Hfs' & Hst'). exists sig'. split; [done|].
    by apply (scalar_signature levenshtein (known_types m) _ _ _ Hgs Hst'). }
  specialize (Hagree _ _ _ Hsb (locals_agree levenshtein _ _ _ _ Hf Hst)). rewrite Hinfer in Hagree.
  destruct (Hagree eq_refl) as (t & Ht & Hlow & _). cbn in Hlow.
  unfold return_type_mismatch in Hrt. rewrite (lower_not_error _ _ Hlow), (lower_not_error _ _ Hret), !andb_true_r in Hrt.
  destruct (types_compatible (body_ty info) (sig_return_type sig)) eqn:Hcomp; [|done].
  assert (return_type f = t) as Hrett by by eapply lower_compatible.
  unfold function_typed. rewrite Hg, Hef, Hreq, Hens, Hb. apply andb_true_iff. split; [|by apply bool_decide_eq_true; rewrite Hrett].
  apply forallb_forall. intros p Hpin%list_elem_of_In. rewrite Forall_forall in Hp. by apply scalar_ref_type, Hp.
Qed.
End Accepted.

(** ** Acceptance means that a program runs *)

(** C5: Acceptance makes lowering safe to trust.  A module of functions on scalars,
    written in the forms of [scalar_hir], that [analyze] accepts without a
    diagnostic has the types on which the correctness of lowering rests: every
    expression, branch, assignment, argument and result, in the scopes of both.
    [scalar_hir] looks at forms only: literals, names, operators, [if], [while],
    [repeat], [let], assignments to names and calls of functions of the module,
    which have no type parameters, no clauses and no constants beside them.  Of
    that it leaves out a [repeat] counted by the bare name of an index of a [repeat]
    of the same function, a [let] directly in a first branch of [if] that has a
    value, an operator on two literals of floats, literals of floats that do not
    keep their bits, and values of [Unit] (of loops, of branches without a tail, of
    calls without a result) as left operands or bound by [let] to a name. *)
Theorem accepted_typed `{Platform} levenshtein local_keys fns_order listing rounds profile imported items a :
  analyze levenshtein local_keys fns_order listing rounds profile imported items = Some a -> an_diagnostics a = [] ->
  scalar_hir items = true -> typed_module items = true.
Proof. apply accepted_module_typed. Qed.



(** ** Samples *)

(** The HIR of a source, and the codes that the analysis reports on it *)
Definition hir_of (source : string) : HirModule :=
  match lower_source pattern_next 0 2 source with A_Ok file _ => lower_module file | _ => [] end.

Definition analysis_of (source : string) : option Analysis :=
  analyze (fun _ _ => 9) (fun m => map fst (map_to_list m)) map_to_list elements 10 Profile_Core ∅ (hir_of source).

Definition codes_of (source : string) : option (list string) := map diag_code ∘ an_diagnostics <$> analysis_of source.

Definition scalar_analysis : Analysis := default (mkAnalysis [] []) (analysis_of scalar_source).




Lemma scalar_accepted : analysis_of scalar_source = Some scalar_analysis /\ an_diagnostics scalar_analysis = [].
Proof. vm_compute. done. Qed.

Lemma accepted_typed_witness : typed_module (hir_of scalar_source) = true.
Proof.
  exact (accepted_typed _ _ _ _ 10 Profile_Core ∅ (hir_of scalar_source) scalar_analysis (proj1 scalar_accepted)
    (proj2 scalar_accepted) ltac:(vm_compute; reflexivity)).
Defined.


(** Effects that are required where a call is an argument, and not where it is bound *)
Definition bound_call : string :=
  "fn g() -> List[I32] effects [alloc] { list_new(3, 0) }
   fn f() -> I32 effects [io] { let l = g(); list_len(l) }".
Definition direct_call : string :=
  "fn g() -> List[I32] effects [alloc] { list_new(3, 0) }
   fn f() -> I32 effects [io] { list_len(g()) }".

(** Arms of [handle], and the value of a [with_arena] body *)
Definition untyped_arm : string := "fn f() -> I32 { handle { 1 } with { get() => { nothing + true } } }".
Definition untyped_arena : string := "fn f() -> I32 { with_arena { let a = 3; nothing + true } 4 }".
Definition typed_tail : string := "fn f() -> I32 { let a = 3; nothing + true }".

(** What the analysis does not look at.  The effects of a call that a [let]
    binds are not asked of the caller, as those of the same call elsewhere are;
    the arms of [handle] and the value of a [with_arena] body are not typed, so
    that unknown names and wrong operands pass. *)
Theorem analysis_misses :
  codes_of bound_call = Some [] /\ codes_of direct_call = Some ["semantic.missing-effect"] /\
  codes_of untyped_arm = Some [] /\ codes_of untyped_arena = Some [] /\
  exists l, codes_of typed_tail = Some l /\ "semantic.unknown-name" ∈ l.
Proof.
  split_and!; [vm_compute; reflexivity..|]. eexists. split; [vm_compute; reflexivity|]. set_solver.
Qed.
